(* ===== verification/_CoqProject ===== *)
-Q . S2P
Prelude.v
OrderedMap.v
Loops.v
Ledger.v
FactTypes.v
Sha256.v
Wire.v
Text.v
Validate.v
FactCodec.v
Store.v
Conflicts.v
ConflictScan.v
ConflictQuery.v
StoreCodec.v
StoreSystem.v
Lifecycle.v
ApplyPolicy.v
ProgramModel.v
Deobf.v
DeobfFlags.v
DeobfMachine.v
DeobfConstants.v
DeobfEntry.v
DeobfGadget.v
DeobfDispatch.v
RuntimeText.v
RuntimeCandidates.v
RuntimeWrites.v
RuntimeStrings.v
Config.v
AbiPolicy.v
DecoderCore.v
WorkerFingerprint.v
WorkerPool.v
WorkerPoolRuns.v
EmuEvents.v
EvidenceBridge.v
EmuMachine.v
EmuSummaries.v
EmuHooks.v
EmuImage.v
EmuDriver.v
NativeTypes.v
NativeDatabase.v
NativeListing.v
NativeScan.v
NativeReports.v
NativeRuns.v
NativeSound.v
NativeAdapter.v
NativeEvidence.v
DeobfSink.v
DeobfLowering.v
DeobfListing.v
DeobfDriver.v
DeobfSnapshot.v
DeobfTyped.v
DeobfSession.v
CallSummary.v
Diagnostics.v
ProgramSnapshot.v
