(* ===== verification/Prelude.v ===== *)
(** * Verification of the cores of viy

    viy is an IDA plugin.  Its producers (native scans, emulation runs, deobfuscation
    passes) report what they find as facts with evidence; the evidence core keeps
    the facts in a ledger, finds contradictions among them, stores the ledger in the
    database and decides which facts may change the database.  The code is split
    into cores without an SDK dependency and drivers that talk to IDA, Hex-Rays and
    the emulator.  This development models the cores, and of the drivers the native
    analysis, the deobfuscation analysis and the one that drives the emulator:

    - src/src/analysis_facts.hpp, analysis_facts.cpp: fact data, normalization,
      validation, SHA-256, canonical codecs and orders;
    - src/src/evidence_store.hpp, evidence_store.cpp: the ledger, its views,
      conflict detection, the incremental contradiction query, the envelope codec
      and persistence;
    - src/src/evidence_lifecycle.hpp, evidence_lifecycle.cpp: generation identities
      and the active view;
    - src/src/evidence_apply_policy.hpp, evidence_apply_policy.cpp: trust thresholds
      and the application plan;
    - src/src/program_model.hpp, program_model_core.cpp, program_model.cpp: the image of
      the program, its content hashes, and the snapshot that fills it;
    - src/src/deobf_analysis_core.hpp, deobf_analysis_core.cpp: classifiers over
      instructions and blocks;
    - src/src/runtime_enrich_core.hpp, runtime_enrich_core.cpp and the observation
      records of emu_driver.hpp: grouping of memory observations and recovery of
      strings;
    - src/src/abi_policy.hpp, abi_policy.cpp, emu_input.hpp: calling conventions and
      the placement of arguments;
    - src/src/decoder_core.hpp, decoder_core.cpp: validation and comparison of decoded
      instructions;
    - src/src/emulation_workers.hpp, emulation_workers.cpp: jobs, their fingerprint and the worker
      pool that executes them;
    - src/src/emu_driver.hpp, emu_driver.cpp: the emulation driver, with its event
      logs, the hooks it installs in the engine, the summaries of library calls, the
      image it loads and the loop that resumes the engine;
    - src/src/evidence_bridge.cpp: the facts made from the event logs of a run;
    - src/src/viy_config.hpp, viy_config.cpp: the settings;
    - src/src/call_summary.cpp, diagnostics.hpp, diagnostics.cpp: the library functions of
      a database by name, and the status and messages of the log;
    - src/src/native_analysis.hpp, native_analysis.cpp, xref_lookup.hpp: the native
      analysis, with its adapter to the evidence model;
    - src/src/deobf_analysis.hpp, deobf_analysis.cpp, deobf_analysis_store.cpp: the
      deobfuscation analysis of a database, with its sink.

    ** How the parts interact

    A producer asks the generation allocator (Lifecycle.v) for an identity, builds
    facts (FactTypes.v) and offers them to the store (Store.v).  [add] normalizes and
    validates (Validate.v, Text.v), encodes the payload (Wire.v, FactCodec.v) and uses
    the encoding as the key of the record; digests are SHA-256 of the encoding
    (Sha256.v).  Before a producer inserts it may ask [new_contradiction]
    (ConflictQuery.v).  Consumers take the active view (Lifecycle.v), detect conflicts
    (Conflicts.v, ConflictScan.v) and plan changes (ApplyPolicy.v).  The ledger goes to
    the database and comes back through StoreCodec.v.

    The producers work on the image of ProgramModel.v, which ProgramSnapshot.v fills from
    the database; CallSummary.v finds the library functions that a run may summarize.  The deobfuscation passes lower
    instructions to the form of Deobf.v and turn the candidates of the classifiers into
    facts.  An emulation run is a job (WorkerFingerprint.v) made from a function range,
    the settings (Config.v), entry states placed by AbiPolicy.v and instructions checked
    by DecoderCore.v and waits in the queue of the pool (WorkerPool.v) until a worker thread
    executes it.  The executor hands the job to the driver: [prepare_entry] and
    [emulate_from] (EmuDriver.v) load the image and the entry state (EmuImage.v) and run
    the engine, which calls the hooks (EmuHooks.v); a hook may answer a library call
    itself (EmuSummaries.v) and reports what it sees to the event logs (EmuEvents.v).
    The bytes that a run has written go to RuntimeWrites.v and RuntimeStrings.v, the logs
    to EvidenceBridge.v, which offers facts to the ledger.

    The native analysis asks the disassembler's database ([Ida], NativeDatabase.v) about
    the instructions of a function, finds six kinds of facts (NativeScan.v), keeps those
    that it has not reported before and hands them to the sink that its client registered
    (the class [NativeClient]).  The adapter of NativeAdapter.v is such a client: it turns
    each native fact into facts of the evidence model and adds them to the store.

    The deobfuscation analysis (DeobfDriver.v) asks the database the questions of [Ida] and
    of [DeobfIda].  It takes a snapshot of a function, whose instructions DeobfLowering.v
    translates to the form of Deobf.v, runs the classifiers on its instructions and blocks,
    and makes facts of what they find.  A fact that the function has not reported goes to
    the client (the class [DeobfClient]); the sink of DeobfSink.v is such a client, which
    asks [new_contradiction] before it adds the fact to the store.  The code never looks at
    the answer of the sink to decide what to offer next: a part of the analysis is the list
    of its offers, and the provider emits the list.

    ** Files

    - Prelude.v: machine integers, bytes, [result], comparators as the class
      [StrictTotal], [std::sort], [std::unique], enumerations as the class [Enum8],
      and the tactics and lemmas all files share.
    - OrderedMap.v: [std::map], [std::multimap], [std::set] and [std::lower_bound] on
      sorted sequences.  Loops.v: buckets, pair loops and groupings, and what they
      collect.
    - Ledger.v: the class [Ledger], the contract between the store and its clients (a
      set of facts under insertion), and the client lemmas on insertion order and
      merging that hold for every implementation of the contract.
    - FactTypes.v: enumerations with their byte values, fact records, evidence, the
      variant [FactPayload], and the ranges that the C++ types impose ([fact_typed]).
    - Sha256.v: the streaming hasher and a reference definition.
    - Wire.v: [Writer] and [Reader].  Text.v: the UTF validators and what they accept.
    - Validate.v: [normalize_*] and [validate_*].
    - FactCodec.v: encoders, decoders, [stable_digest] and the comparators.
    - Store.v: [EvidenceStore] with [add], the views, [find], the support summaries and
      the index that [add] maintains; [store_wf] is its invariant, [store_ledger] its
      instance of the contract.
    - Conflicts.v: [compare_payloads]; [clash] is its specification.
    - ConflictScan.v: [detect_conflicts], [contradicted_payload_digests].
    - ConflictQuery.v: [new_contradiction] with the cached index, [merge].
    - StoreCodec.v: [serialize], [deserialize], [persist], [restore].
    - StoreSystem.v: the store as a state machine over its public operations.
    - Lifecycle.v: [EvidenceGenerationAllocator], [ActiveEvidencePolicy].
    - ApplyPolicy.v: [plan_evidence_application]; [supports] is its specification.
    - ProgramModel.v: segments, functions, the image, [viy_function_byte_hash] and
      [viy_program_content_hash] with the byte streams that they hash.
    - ProgramSnapshot.v: the class [SnapshotIda], [viy_snapshot], and the histories of an
      image ([snapshots]).  CallSummary.v: [canonical_name], [viy_collect_call_summaries].
      Diagnostics.v: [viy_format_runtime_status], [viy_sanitize_diagnostic].
    - Deobf.v: the instruction form.  DeobfFlags.v: flags and conditions.
      DeobfMachine.v: the machine that gives instructions their meaning, the
      specification of the classifiers.  DeobfConstants.v, DeobfEntry.v, DeobfGadget.v,
      DeobfDispatch.v: one classifier each, with wrappers and gaps beside the gadgets.
    - RuntimeText.v: decoders and previews.  RuntimeCandidates.v: NUL-terminated and
      length-prefixed candidates; [reading] is their specification.  RuntimeWrites.v:
      write groups, the conflict gate, the temporal gates.  RuntimeStrings.v: the scan.
    - Config.v: [viy_load_config]; [accepted] specifies the numbers it takes.
    - AbiPolicy.v: [viy_seed_argument_corpus], [viy_plan_abi_input].
    - DecoderCore.v: [viy_decode_one], [viy_compare_decoders].
    - WorkerFingerprint.v: jobs and [viy_emulation_job_fingerprint].
    - WorkerPool.v: the pool as a state with one function per critical section
      ([worker_init], [worker_turn], [worker_finish], [try_submit], [try_take_next],
      [take_ready], [cancel_pending], [stop]), the steps that interleave them ([step],
      [run]) and the invariants [core] and [flow].
    - WorkerPoolRuns.v: what holds in every run of the pool.
    - EmuEvents.v: the record types of the driver, [append_unique] and the logs.
      EvidenceBridge.v: the writer that turns them into facts.
    - EmuMachine.v: the classes of the engine ([RaxEngine], [RaxEngineLaws]) and of the
      surroundings of a hook ([HookEnv], [HookCtx]), the monad [Hook] of the hooks, its
      state [HookState], and the relations [steps] and [keeps] that say what a hook leaves
      alone.  Its Module [Reference] is an engine that satisfies the laws.
    - EmuSummaries.v: [summarize_call] and one function per summarized library call.
    - EmuHooks.v: the decode cache, [code_tr], [mem_tr], [inv_tr], and [hook_run], the
      sequence of callbacks that an engine makes.
    - EmuImage.v: the scratch base, the page table, loading and the final writes.
    - EmuDriver.v: the classes [RaxDriverEngine], [RaxDriverLaws], the driver and its
      operations [new_driver], [prepare_entry], [resume_loop], [emulate_from].
    - NativeTypes.v: the facts of the native analysis, their keys and their order.
    - NativeDatabase.v: the class [Ida], the tests on instructions, operands and
      cross-references.  NativeListing.v: an instance of [Ida] made of a list of decoded
      instructions, the concrete program of the witnesses.
    - NativeScan.v: [NativeAnalysisProvider], one function per finder, the walks over
      heads, chunks and the database, and the calls [analyze_function], [analyze_database],
      [invalidate_function], [reset].
    - NativeReports.v: what a scan offers, apart from what has been reported before, and
      the selection of new facts.  NativeRuns.v: the heads that a walk visits, and what the
      calls of a session report.
    - NativeSound.v: the classes [Cpu] and [CpuLaws] of processors that run the code of a
      database, with the documented flags of x86 and ARM instructions.
    - NativeAdapter.v: [NativeAnalysisFactAdapter] and [NativeEvidenceStoreSink].
      NativeEvidence.v: the provider with the adapter as its client.
    - DeobfSink.v: [DeobfEvidenceStoreSink] and the view of the active generation.
    - DeobfLowering.v: the class [DeobfIda], [translate_instruction] for x86 and ARM, and
      the tests on gaps, callers and targets.  DeobfListing.v: its instance for listings.
    - DeobfDriver.v: [DeobfAnalysisProvider] with [snapshot_function], one list of offers
      per analysis ([*_offers]), [emit], and the calls of the provider.
    - DeobfSnapshot.v: what a snapshot holds.  DeobfTyped.v: the ranges of translations,
      candidates and offers.  DeobfSession.v: sessions of the provider with a store.

    A function keeps the name it has in the code.  Where the code factors nothing
    out, a part of a long function has a name of its own, declared beside it.

    ** Modelling conventions

    - An integer of [w] bits is a [Z]; wrap-around is written out where the code can
      reach it (the hashes, [i64] in the codec, the cursor of the allocator, addresses
      of blocks, the seed corpus) and the ranges of the C++ types are the hypotheses
      [*_typed].  Sizes of containers in memory are not bounded, except where the code
      compares them with a limit.
    - A [bool f(in, out, std::string *error)] is a function to [result]: [Ok] with the
      output, or [Err] with the message.  Outputs are assigned on success only, as in
      the code.  A [bool f(in, out)] is a function to [option].
    - A reader is a function from the remaining input; it fails with a message of the
      reader, or silently where the code returns false without one.
    - [std::map] is the list of its entries in key order, [std::set] the list of its
      elements; [std::sort] is an insertion sort, which agrees with any sort because
      the comparators are strict total orders (or because equal elements cannot be
      told apart; targets of a constant block that compare equal are the exception,
      and the theorems say nothing about their order).  [std::unordered_map] is a
      [gmap], whose elements are sorted before use, as in the code.
    - Pointers into the record map (the contradiction index, the digest cache) are the
      keys of the nodes they point at; nodes never move.
    - The mutable index of a const query is part of the state, and the query returns
      the new state; StoreSystem.v proves that the index cannot be observed.
    - The register numbers and constants of the emulator and the decoder are outside the
      repository: records ([RaxRegisters], [RaxDecoder]) that the definitions take as
      an argument.  What the code relies on is a hypothesis with a concrete instance.
    - [getenv] is a function from names to values.  [strtoull] is the one of the C
      library up to C17: base 8, 10 or 16 by prefix, in the C locale.
    - DeobfMachine.v is a specification, liberal where the instruction form says nothing.
      On the machine an instruction of kind [Other] may do anything to registers and
      stack, a write may change every register that overlaps the written one, a write to
      the stack pointer gives another stack, and an instruction under a condition may be
      skipped; the class [Processor] says which registers overlap, which instructions
      are conditional and which narrow writes clear the rest of a register.  The
      theorems about constants, entries, gadgets and dispatchers hold for every
      processor, under conditions on the code ([block_safe], [safe_line], [followed],
      [blocks_ok]) that their comments spell out; examples such as
      [popped_register_keeps_its_constant] show what is reported without them.
    - What a processor of the native analysis does is the relation [step] of [CpuLaws].
      Its theorems are about executions whose steps the database has code references for
      ([recorded_step]): the code itself relies on the references to be complete.
    - The engine of the emulation driver keeps a ghost record of what it has executed,
      [emu_executed], which no operation reads; the law of [emu_start] says that a start
      adds the events of a run of the installed hooks ([hook_run]).  The claims about
      logs compare them with this record.

    ** Fuel

    Loops whose recursion is not structural take fuel.  [valid_utf8_loop] and
    [decode_loop] get the length of the text and each turn consumes a byte;
    [update_loop] of the hash, [hash_bytes_loop], [view_loop], [skip_zero_words] and
    [multiply_words] get one more than the length of the input; [hex_digits] gets 16
    digits for 64 bits; [first_unused] gets the number of used generations, and the
    candidates it passes are different used values ([first_unused_total]);
    [search_segment] halves its range; [walk_chunk] visits every segment at most once;
    [chain_loop] is stopped by its visited set; [take_ready_loop] gets one more than the
    number of completed results and takes one of them each turn; [pointer_offsets_loop] and [scan_loop]
    advance by at least a byte.  In the emulation driver [access_walk] gets one more than
    the number of segments, which it leaves one by one; [read_c_string_loop] gets the
    limit of 65536 bytes that the code has, [strncpy_loop] the count, which the code
    bounds by 2^20; [page_loop], [load_runs] and the [skip_*] loops get the number of
    pages or bytes of the range; [resume_loop] gets the 257 turns that the bound of the
    code on decoder faults allows.  In the native analysis [scan_heads] gets the number of
    addresses of its range, of which each turn consumes one, and [scan_flag_loop] the
    depth of the search for a flag, which the options bound.  In the deobfuscation analysis
    [snapshot_heads] gets the number of addresses of its chunk, and [decode_gadget_loop]
    the depth of a gadget, which is at most 4096.  [peel] of a name gets its length, and
    each turn removes a prefix.  The theorems about these loops say that the result is
    reached, not only what it is if it is.

    ** What the theorems show

    - Codecs: round trips, prefix freedom, and that decoders accept canonical encodings
      only, for payloads, facts and whole stores.
    - Hash and text: equivalence of the streaming hash with its reference, and of the
      validators with Unicode.
    - Ledger: [add] refines insertion into a set, the order of insertion is irrelevant,
      merging is a semilattice join, the views and summaries are exact, and every
      reachable store is well formed.
    - Conflicts: a contradiction is claimed exactly for payloads that cannot both hold,
      the indexed detection equals the comparison of all pairs, the fast scan marks
      exactly the participants of contradictions, and the incremental query is sound,
      complete and guards insertion.
    - Lifecycle: allocation terminates with fresh identities, and a fresh policy
      retires all computed evidence of a restored ledger.
    - Application: the plan authorises exactly the supported changes, contradicted
      payloads are suppressed for good, and configuration only restricts.
    - Program model: both content hashes equal byte-by-byte references, separate what
      they are meant to separate and do not depend on where the image is loaded; a
      snapshot establishes the invariant that this needs, and over all snapshots the
      generation of a function identifies its content.
    - Names and messages: decorations are invisible in a canonical name, the summaries are
      exact, a message stays on one bounded line, and a status line determines the status.
    - Deobfuscation: what a classifier reports of safe code holds for every execution on the
      machine and every processor, and the searches terminate.
    - Runtime enrichment: the decoders accept exactly the encodings of text, candidates
      are the best or only readings, the scan is complete for offsets with one reading as
      long as its limit is not reached, groups are exact, and the gates fail closed.
    - Emulation: a plan delivers the arguments or fails with the right error, a decode is
      accepted only when it is consistent and every other status has exactly its case, the
      fingerprint covers exactly the job,
      the worker pool settles every accepted job once, delivers in ticket order, makes
      progress in every run in which no submission wakes a waiting client, and never
      reports a cancelled job as completed,
      and the loaded settings are parsed exactly and stay within their limits.
    - Emulation driver: the logs hold what the engine executed, once and in order; an access
      that starts in a segment is allowed exactly when the segments permit all of it, and a forbidden write inside the segments is undone;
      the summaries implement the library calls and the blocks of the summarized heap are
      disjoint; the image is mapped with the permissions of its segments, holds their
      loaded bytes, and the final writes are exactly the bytes that a run has changed; the
      entry state obeys the calling convention; a run stays within its budget, and so does
      each of its logs.
    - Bridge: each observation of a run becomes a fact about it, and no fact is made up.
    - Native analysis: a call reports exactly what the visited heads show less what the
      session has reported before, each entry is reported once until it is forgotten, a
      reported flag or pair holds in every execution along the recorded references, and the
      facts of the adapter are typed, consistent and all recorded in the store.
    - Deobfuscation analysis: a snapshot holds the code of its function and a complete one
      has no gaps; what a session offers is in range and valid; the store gains no new
      contradiction in the active view, and nothing is refused without a reason; a target
      that a session adds is where the code goes whenever it gets there, in blocks that
      are safe on the processor at hand.  The machine is the one of DeobfMachine.v over
      the translated instructions; blocks with a [popa], an ARM [pop] or a conditional
      ARM data instruction after a value became known are not safe, and the examples in
      DeobfSession.v show what is reported of them.

    ** Not modelled

    The code that changes the database of IDA, talks to Hex-Rays and calls the decoder
    library is glue over interfaces outside the repository.  The native analysis only asks
    questions of IDA: they are the class [Ida], whose answers do not change during a scan,
    and [IdaTyped] gives them the ranges of their C++ types; [DeobfIda] and [DeobfIdaTyped]
    do the same for the deobfuscation analysis, whose flow chart is one of the questions.  The engine that the emulation driver calls is a class whose
    laws state what the driver relies on, and which the instance in EmuMachine.v and the
    one in EmuDriver.v satisfy; the decoder, the clock and [std::chrono] deadlines are
    fields of the surroundings of a hook.  Snapshots of the engine are taken to succeed
    to allocate.  The loading of the engine's shared library and the executor that
    isolates a run in a process are left out.  The storage adapter of the persistence
    operations is a parameter (two functions), with the law that it returns what was
    written only where a theorem needs it.  Move constructors only transfer ownership.
    In the worker pool the executor, its factory and the scheduler are the
    environment: what they answer is in the events of a run.  What an executor records
    besides status and diagnostic is a type parameter.  Mutexes are not modelled below
    the critical section, and allocation never fails.

    ** Plan

    What is left: the executor between the pool and the driver (emulation_rax_executor),
    the discovery of references (ref_discovery.cpp), the decoder audit, and the drivers
    that apply results to the database. *)
From stdpp Require Import base numbers list strings option sets.
From Stdlib Require Import ZArith Init.Byte Sorting.Sorted Lia.
From Stdlib Require Strings.Byte Strings.String.

Declare Scope viy_scope.
Delimit Scope viy_scope with viy.
Open Scope list_scope.
Open Scope Z_scope.

(** ** Machine integers

    A [w]-bit integer is a [Z]; the ranges that the C++ types guarantee are
    these predicates. *)

Definition u8_max : Z := 2 ^ 8 - 1.
Definition u16_max : Z := 2 ^ 16 - 1.
Definition u32_max : Z := 2 ^ 32 - 1.
Definition u64_max : Z := 2 ^ 64 - 1.
Definition i64_max : Z := 2 ^ 63 - 1.

Definition is_u16 (v : Z) : Prop := 0 <= v < 2 ^ 16.
Definition is_u32 (v : Z) : Prop := 0 <= v < 2 ^ 32.
Definition is_u64 (v : Z) : Prop := 0 <= v < 2 ^ 64.
Definition is_i64 (v : Z) : Prop := - 2 ^ 63 <= v < 2 ^ 63.

Definition opt_all {A} (P : A -> Prop) (o : option A) : Prop :=
  match o with Some a => P a | None => True end.

(** [size()] of a vector or a string, as the unsigned integer it is. *)
Definition zlen {A} (l : list A) : Z := Z.of_nat (length l).

(** ** Bytes and strings *)

Notation byte := Byte.byte.
Notation bytes := (list Byte.byte).

Definition b2z (b : byte) : Z := Z.of_N (Byte.to_N b).

(** [static_cast<uint8_t>]: the low eight bits. *)
Definition z2b (z : Z) : byte :=
  match Byte.of_N (Z.to_N (z mod 256)) with Some b => b | None => x00 end.

(** The number that the bytes of a word stand for. *)
Definition word_value (big_endian : bool) (word : bytes) : Z :=
  foldl (fun value b => 256 * value + b2z b) 0 (if big_endian then word else rev word).

(** The bytes of a [std::string]. *)
Definition str_bytes (s : string) : bytes := String.list_byte_of_string s.
Definition bytes_str (b : bytes) : string := String.string_of_list_byte b.
Definition str_len (s : string) : Z := zlen (str_bytes s).

(** ** Fallible operations

    The C++ code returns [false] and sets [*error]; a [result] is the value
    or the message. *)

Inductive result (A : Type) : Type :=
| Ok (a : A)
| Err (message : string).
Arguments Ok {A} _.
Arguments Err {A} _.

Definition result_bind {A B} (m : result A) (k : A -> result B) : result B :=
  match m with Ok a => k a | Err e => Err e end.

Definition is_ok {A} (r : result A) : bool :=
  match r with Ok _ => true | Err _ => false end.

Notation "'let*' x ':=' m 'in' k" := (result_bind m (fun x => k))
  (at level 200, x pattern, m at level 100, k at level 200, right associativity) : viy_scope.
Notation "'reject' msg 'when' c ';;' k" := (if c then Err msg%string else k)
  (at level 200, msg at level 9, c at level 99, k at level 200, right associativity) : viy_scope.
Open Scope viy_scope.

Lemma Ok_inj {A} (a b : A) : Ok a = Ok b -> a = b.
Proof. by intros [= ->]. Qed.

(** Split a successful run of guards and binds into what each step returned. *)
Ltac inv_ok H :=
  repeat match type of H with
  | (if ?c then Err _ else _) = Ok _ =>
      let E := fresh "Hg" in destruct c eqn:E; [discriminate H|]
  | result_bind ?m _ = Ok _ =>
      let E := fresh "Hm" in destruct m eqn:E; cbn [result_bind] in H; [|discriminate H]
  end.

(** [Ok a = Ok x]: replace [x], without computing in [a]. *)
Ltac inj_ok H := apply Ok_inj in H; subst.

(** ** Comparators

    A C++ comparator is a boolean function.  Every comparator the program
    sorts by is a strict total order: [StrictTotal] is that interface, and the
    sorting lemmas are proved against it. *)

Class StrictTotal {A : Type} (lt : A -> A -> bool) : Prop := {
  lt_irrefl : forall x, lt x x = false;
  lt_trans : forall x y z, lt x y = true -> lt y z = true -> lt x z = true;
  lt_total : forall x y, lt x y = false -> lt y x = false -> x = y
}.

(** [std::lexicographical_compare], the order of [std::vector]. *)
Fixpoint list_lt {A} (lt : A -> A -> bool) (l1 l2 : list A) : bool :=
  match l1, l2 with
  | _, [] => false
  | [], _ :: _ => true
  | x :: r1, y :: r2 =>
      if lt x y then true else if lt y x then false else list_lt lt r1 r2
  end.

(** [std::tie(a, b) < std::tie(c, d)], the order of [std::pair] and [std::tuple]. *)
Definition pair_lt {A B} (lta : A -> A -> bool) (ltb : B -> B -> bool)
    (p q : A * B) : bool :=
  if lta p.1 q.1 then true else if lta q.1 p.1 then false else ltb p.2 q.2.

(** The order of [std::optional]: absent first. *)
Definition option_lt {A} (lt : A -> A -> bool) (x y : option A) : bool :=
  match y, x with
  | None, _ => false
  | Some _, None => true
  | Some b, Some a => lt a b
  end.

Definition byte_lt (a b : byte) : bool := b2z a <? b2z b.
Definition bool_lt (a b : bool) : bool := negb a && b.
Definition bytes_lt : bytes -> bytes -> bool := list_lt byte_lt.
(** [std::string] compares its characters as unsigned bytes. *)
Definition string_lt (s t : string) : bool := bytes_lt (str_bytes s) (str_bytes t).

(** [std::sort]: with a strict total order its result is determined
    ([sort_unique_result] below), so an insertion sort computes it. *)
Fixpoint insert_by {A} (lt : A -> A -> bool) (x : A) (l : list A) : list A :=
  match l with
  | [] => [x]
  | y :: r => if lt y x then y :: insert_by lt x r else x :: l
  end.

Fixpoint std_sort {A} (lt : A -> A -> bool) (l : list A) : list A :=
  match l with
  | [] => []
  | x :: r => insert_by lt x (std_sort lt r)
  end.

(** [std::unique] followed by [erase]. *)
Fixpoint unique_from {A} (eq : A -> A -> bool) (x : A) (l : list A) : list A :=
  match l with
  | [] => [x]
  | y :: r => if eq x y then unique_from eq x r else x :: unique_from eq y r
  end.

Definition std_unique {A} (eq : A -> A -> bool) (l : list A) : list A :=
  match l with [] => [] | x :: r => unique_from eq x r end.

(** [std::is_sorted] and [std::adjacent_find(...) != end()]. *)
Fixpoint adjacent_exists {A} (p : A -> A -> bool) (l : list A) : bool :=
  match l with
  | [] => false
  | x :: r =>
      match r with [] => false | y :: _ => p x y || adjacent_exists p r end
  end.

Definition is_sorted {A} (lt : A -> A -> bool) (l : list A) : bool :=
  negb (adjacent_exists (fun x y => lt y x) l).

(** Equality of values under a comparator. *)
Definition equiv_by {A} (lt : A -> A -> bool) (x y : A) : bool :=
  negb (lt x y) && negb (lt y x).

Definition StrictSorted {A} (lt : A -> A -> bool) (l : list A) : Prop :=
  StronglySorted (fun x y => lt x y = true) l.

(** ** Lemmas: bytes and strings *)

Lemma b2z_range (b : byte) : 0 <= b2z b < 256.
Proof.
  unfold b2z. pose proof (Byte.to_N_bounded b). lia.
Qed.

Lemma b2z_inj (a b : byte) : b2z a = b2z b -> a = b.
Proof.
  unfold b2z. intros H. apply N2Z.inj in H.
  pose proof (Byte.of_to_N a). pose proof (Byte.of_to_N b). congruence.
Qed.

Lemma b2z_z2b (z : Z) : b2z (z2b z) = z mod 256.
Proof.
  unfold z2b, b2z.
  pose proof (Z.mod_pos_bound z 256 ltac:(lia)) as Hb.
  destruct (Byte.of_N (Z.to_N (z mod 256))) as [b|] eqn:E.
  - apply Byte.to_of_N in E. rewrite E. lia.
  - apply Byte.of_N_None_iff in E. lia.
Qed.

Lemma z2b_b2z (b : byte) : z2b (b2z b) = b.
Proof.
  apply b2z_inj. rewrite b2z_z2b. apply Z.mod_small, b2z_range.
Qed.

#[export] Instance byte_eq_decision : EqDecision byte := Byte.byte_eq_dec.

Lemma bytes_str_bytes (s : string) : bytes_str (str_bytes s) = s.
Proof. apply String.string_of_list_byte_of_string. Qed.

Lemma str_bytes_inj (s t : string) : str_bytes s = str_bytes t -> s = t.
Proof.
  intros H%(f_equal bytes_str). by rewrite !bytes_str_bytes in H.
Qed.

Lemma str_bytes_bytes (b : bytes) : str_bytes (bytes_str b) = b.
Proof. apply String.list_byte_of_string_of_list_byte. Qed.

Lemma zlen_nonneg {A} (l : list A) : 0 <= zlen l.
Proof. unfold zlen. lia. Qed.

Lemma zlen_app {A} (l1 l2 : list A) : zlen (l1 ++ l2) = zlen l1 + zlen l2.
Proof. unfold zlen. rewrite length_app. lia. Qed.

Lemma zlen_cons {A} (x : A) (l : list A) : zlen (x :: l) = 1 + zlen l.
Proof. unfold zlen. simpl. lia. Qed.

Lemma zlen_nil {A} : zlen (@nil A) = 0.
Proof. reflexivity. Qed.

(** ** Lemmas: bit arithmetic *)

(** Linear arithmetic with [/] and [mod] by constants. *)
Ltac div_mod_lia := Z.div_mod_to_equations; lia.

(** [(a << n) | b] with [b] below [2^n] is an addition. *)
Lemma lor_shiftl_add a b n :
  0 <= n -> 0 <= b < 2 ^ n -> Z.lor (Z.shiftl a n) b = a * 2 ^ n + b.
Proof.
  intros Hn Hb. rewrite <- Z.shiftl_mul_pow2 by done.
  assert (Z.land (Z.shiftl a n) b = 0) as Hl.
  { apply Z.bits_inj'. intros i Hi. rewrite Z.land_spec, Z.bits_0.
    destruct (Z.ltb_spec i n).
    - by rewrite Z.shiftl_spec_low.
    - rewrite <- (Z.mod_small b (2 ^ n)) by done.
      rewrite Z.mod_pow2_bits_high by lia. by rewrite andb_false_r. }
  by rewrite Z.add_nocarry_lxor, Z.lxor_lor.
Qed.

(** The test of one bit, as C writes it. *)
Lemma land_bit_test b i : 0 <= i -> negb (Z.land b (Z.shiftl 1 i) =? 0) = Z.testbit b i.
Proof.
  intros Hi. rewrite Z.shiftl_1_l. destruct (Z.testbit b i) eqn:E.
  - apply negb_true_iff, Z.eqb_neq. intros H.
    assert (Z.testbit (Z.land b (2 ^ i)) i = true) as Ht
      by (rewrite Z.land_spec, E, Z.pow2_bits_true by done; done).
    rewrite H, Z.bits_0 in Ht. done.
  - apply negb_false_iff, Z.eqb_eq. apply Z.bits_inj'. intros n Hn.
    rewrite Z.land_spec, Z.bits_0. destruct (Z.eq_dec n i) as [->|Hne]; [by rewrite E|].
    rewrite Z.pow2_bits_false by done. by rewrite andb_false_r.
Qed.

(** ** Lemmas: comparators *)

#[export] Instance Z_ltb_total : StrictTotal Z.ltb.
Proof. split; intros; lia. Qed.

#[export] Instance bool_lt_total : StrictTotal bool_lt.
Proof. split; [intros []|intros [] [] []|intros [] []]; done. Qed.

Section ComparatorLemmas.
Context {A : Type} (lt : A -> A -> bool) `{!StrictTotal lt}.

Lemma lt_asym x y : lt x y = true -> lt y x = false.
Proof.
  intros H. destruct (lt y x) eqn:E; [|done].
  pose proof (lt_trans _ _ _ H E). by rewrite lt_irrefl in *.
Qed.

Lemma equiv_by_eq x y : equiv_by lt x y = true <-> x = y.
Proof.
  unfold equiv_by. rewrite andb_true_iff, !negb_true_iff. split.
  - intros [? ?]. by apply lt_total.
  - intros ->. by rewrite !lt_irrefl.
Qed.

Lemma lt_cases x y : lt x y = true \/ x = y \/ lt y x = true.
Proof.
  destruct (lt x y) eqn:E1; [by left|]. destruct (lt y x) eqn:E2; [by auto|].
  right. left. by apply lt_total.
Qed.

Lemma lt_neq x y : lt x y = true -> x <> y.
Proof. intros H ->. by rewrite lt_irrefl in H. Qed.

#[export] Instance list_lt_total : StrictTotal (list_lt lt).
Proof.
  split.
  - induction x as [|a x IH]; simpl; [done|]. by rewrite lt_irrefl.
  - induction x as [|a x IH]; intros [|b y] [|c z]; simpl; try done.
    destruct (lt a b) eqn:Eab.
    + destruct (lt b c) eqn:Ebc; [by rewrite (lt_trans _ _ _ Eab Ebc)|].
      destruct (lt c b) eqn:Ecb; [done|].
      rewrite <- (lt_total _ _ Ebc Ecb) in *. by rewrite Eab.
    + destruct (lt b a) eqn:Eba; [done|].
      rewrite (lt_total _ _ Eab Eba) in *.
      destruct (lt b c); [done|]. destruct (lt c b); [done|]. apply IH.
  - induction x as [|a x IH]; intros [|b y]; simpl; try done.
    destruct (lt a b) eqn:Eab; [done|]. destruct (lt b a) eqn:Eba; [done|].
    intros. f_equal; [by apply lt_total|by apply IH].
Qed.

#[export] Instance option_lt_total : StrictTotal (option_lt lt).
Proof.
  split.
  - intros [a|]; simpl; [by rewrite lt_irrefl|done].
  - intros [a|] [b|] [c|]; simpl; try done. apply lt_trans.
  - intros [a|] [b|]; simpl; try done. intros. f_equal. by apply lt_total.
Qed.

#[export] Instance pair_lt_total {B} (ltb : B -> B -> bool) `{!StrictTotal ltb} :
  StrictTotal (pair_lt lt ltb).
Proof.
  split.
  - intros [a b]. unfold pair_lt. simpl. by rewrite !lt_irrefl.
  - intros [a1 b1] [a2 b2] [a3 b3]. unfold pair_lt. simpl.
    destruct (lt a1 a2) eqn:E12.
    + destruct (lt a2 a3) eqn:E23; [by rewrite (lt_trans _ _ _ E12 E23)|].
      destruct (lt a3 a2) eqn:E32; [done|].
      rewrite <- (lt_total _ _ E23 E32) in *. by rewrite E12.
    + destruct (lt a2 a1) eqn:E21; [done|].
      rewrite (lt_total _ _ E12 E21) in *.
      destruct (lt a2 a3); [done|]. destruct (lt a3 a2); [done|]. apply lt_trans.
  - intros [a1 b1] [a2 b2]. unfold pair_lt. simpl.
    destruct (lt a1 a2) eqn:E12; [done|]. destruct (lt a2 a1) eqn:E21; [done|].
    intros. f_equal; by apply lt_total.
Qed.

(** A comparator read through an injection is total again. *)
Lemma StrictTotal_inj {B} (f : B -> A) :
  (forall x y, f x = f y -> x = y) -> StrictTotal (fun x y => lt (f x) (f y)).
Proof.
  intros Hf. split; intros.
  - apply lt_irrefl.
  - by eapply lt_trans.
  - by apply Hf, lt_total.
Qed.
End ComparatorLemmas.

#[export] Instance byte_lt_total : StrictTotal byte_lt.
Proof. exact (StrictTotal_inj Z.ltb b2z b2z_inj). Qed.

#[export] Instance bytes_lt_total : StrictTotal bytes_lt.
Proof. exact (list_lt_total byte_lt). Qed.

#[export] Instance string_lt_total : StrictTotal string_lt.
Proof. exact (StrictTotal_inj bytes_lt str_bytes str_bytes_inj). Qed.

(** ** Lemmas: sorting *)

Lemma StronglySorted_weaken {A} (R R' : A -> A -> Prop) l :
  (forall x y, R x y -> R' x y) -> StronglySorted R l -> StronglySorted R' l.
Proof.
  intros H. induction 1 as [|x l Hs IH Hx]; constructor; [done|].
  eapply Forall_impl; [exact Hx|]. intros y. apply H.
Qed.

Lemma StronglySorted_app {A} (R : A -> A -> Prop) l1 l2 :
  StronglySorted R (l1 ++ l2) <->
  (forall x y, x ∈ l1 -> y ∈ l2 -> R x y) /\ StronglySorted R l1 /\ StronglySorted R l2.
Proof.
  induction l1 as [|a l1 IH]; cbn [app].
  - split; [|by intros (_ & _ & ?)]. intros. split_and!; [set_solver|constructor|done].
  - split.
    + intros [(Hc & H1 & H2)%IH Hf]%StronglySorted_inv. rewrite Forall_forall in Hf.
      split_and!; [|constructor; [done|]|done].
      * intros x y [->|Hx]%elem_of_cons Hy; [apply Hf; set_solver|by apply Hc].
      * apply Forall_forall. intros y Hy. apply Hf. set_solver.
    + intros (Hc & [H1 Hf]%StronglySorted_inv & H2). constructor.
      * apply IH. split_and!; [|done|done]. intros. apply Hc; set_solver.
      * rewrite Forall_forall in Hf |- *. intros y [?|?]%elem_of_app; [by apply Hf|].
        apply Hc; set_solver.
Qed.

Section SortLemmas.
Context {A : Type} (lt : A -> A -> bool) `{!StrictTotal lt}.

Lemma elem_of_insert_by x y l : y ∈ insert_by lt x l <-> y = x \/ y ∈ l.
Proof.
  induction l as [|z l IH]; simpl; [set_solver|].
  case_match; set_solver.
Qed.

Lemma elem_of_std_sort y l : y ∈ std_sort lt l <-> y ∈ l.
Proof.
  induction l as [|x l IH]; simpl; [done|].
  rewrite elem_of_insert_by. set_solver.
Qed.

Lemma insert_by_Permutation x l : insert_by lt x l ≡ₚ x :: l.
Proof.
  induction l as [|y l IH]; simpl; [done|].
  case_match; [|done]. rewrite IH. apply Permutation_swap.
Qed.

Lemma std_sort_Permutation l : std_sort lt l ≡ₚ l.
Proof.
  induction l as [|x l IH]; simpl; [done|]. by rewrite insert_by_Permutation, IH.
Qed.

(** "Not greater": the order [std::sort] establishes on neighbours. *)
Definition le_by (x y : A) : Prop := lt y x = false.

Lemma le_by_trans x y z : le_by x y -> le_by y z -> le_by x z.
Proof.
  unfold le_by. intros Hxy Hyz. destruct (lt z x) eqn:E; [|done].
  destruct (lt_cases lt y z) as [H|[->|H]]; [|congruence..].
  by rewrite (lt_trans _ _ _ H E) in Hxy.
Qed.

Lemma std_sort_sorted l : StronglySorted le_by (std_sort lt l).
Proof.
  induction l as [|x l IH]; simpl; [constructor|].
  induction IH as [|y r Hr IHr Hall]; simpl; [repeat constructor|].
  destruct (lt y x) eqn:E.
  - constructor; [done|]. apply Forall_forall. intros z.
    rewrite elem_of_insert_by. intros [->|Hz].
    + unfold le_by. by apply lt_asym.
    + rewrite Forall_forall in Hall. by apply Hall.
  - constructor; [by constructor|]. constructor; [done|].
    rewrite Forall_forall in Hall |- *. intros z Hz.
    eapply le_by_trans; [exact E|by apply Hall].
Qed.

(** A sorted permutation of the input is the only result a sort can have. *)
Lemma sort_unique_result l1 l2 :
  StronglySorted le_by l1 -> StronglySorted le_by l2 -> l1 ≡ₚ l2 -> l1 = l2.
Proof.
  intros H1. revert l2. induction H1 as [|x l1 Hs IH Hx]; intros l2 H2 Hp.
  - by apply Permutation_nil_l in Hp.
  - destruct H2 as [|y l2 Hs2 Hy].
    { by apply Permutation_nil_r in Hp. }
    rewrite Forall_forall in Hx, Hy.
    assert (x = y) as <-.
    { assert (x ∈ y :: l2) as Hin1 by (rewrite <- Hp; set_solver).
      assert (y ∈ x :: l1) as Hin2 by (rewrite Hp; set_solver).
      apply elem_of_cons in Hin1 as [|Hin1]; [done|].
      apply elem_of_cons in Hin2 as [|Hin2]; [done|].
      apply lt_total; [by apply Hy|by apply Hx]. }
    f_equal. apply IH; [done|]. by apply Permutation_cons_inv in Hp.
Qed.

Lemma std_sort_ext l1 l2 : l1 ≡ₚ l2 -> std_sort lt l1 = std_sort lt l2.
Proof.
  intros. apply sort_unique_result; [apply std_sort_sorted..|].
  by rewrite !std_sort_Permutation.
Qed.

Lemma std_sort_id l : StronglySorted le_by l -> std_sort lt l = l.
Proof.
  intros. apply sort_unique_result; [apply std_sort_sorted|done|].
  apply std_sort_Permutation.
Qed.

Lemma StrictSorted_le l : StrictSorted lt l -> StronglySorted le_by l.
Proof.
  induction 1 as [|x l Hs IH Hx]; constructor; [done|].
  eapply Forall_impl; [exact Hx|]. intros y Hy. by apply lt_asym.
Qed.

(** Two strictly sorted lists with the same elements are equal. *)
Lemma StrictSorted_ext l1 l2 :
  StrictSorted lt l1 -> StrictSorted lt l2 ->
  (forall x, x ∈ l1 <-> x ∈ l2) -> l1 = l2.
Proof.
  intros H1. revert l2. induction H1 as [|x l1 Hs IH Hx]; intros l2 H2 Hm.
  - destruct l2 as [|y l2]; [done|]. exfalso.
    apply (not_elem_of_nil y), Hm. set_solver.
  - destruct H2 as [|y l2 Hs2 Hy].
    { exfalso. apply (not_elem_of_nil x), Hm. set_solver. }
    rewrite Forall_forall in Hx, Hy.
    assert (x = y) as <-.
    { assert (x ∈ y :: l2) as [|Hin1]%elem_of_cons by (apply Hm; set_solver); [done|].
      assert (y ∈ x :: l1) as [|Hin2]%elem_of_cons by (apply Hm; set_solver); [done|].
      pose proof (lt_asym lt _ _ (Hx _ Hin2)). specialize (Hy _ Hin1). congruence. }
    f_equal. apply IH; [done|]. intros z. split; intros Hz.
    + assert (z ∈ x :: l2) as [->|?]%elem_of_cons by (apply Hm; set_solver); [|done].
      specialize (Hx _ Hz). by rewrite lt_irrefl in Hx.
    + assert (z ∈ x :: l1) as [->|?]%elem_of_cons by (apply Hm; set_solver); [|done].
      specialize (Hy _ Hz). by rewrite lt_irrefl in Hy.
Qed.

Lemma StrictSorted_NoDup l : StrictSorted lt l -> NoDup l.
Proof.
  induction 1 as [|x l Hs IH Hx]; constructor; [|done].
  intros Hin. rewrite Forall_forall in Hx. specialize (Hx _ Hin).
  by rewrite lt_irrefl in Hx.
Qed.

Section Unique.
Context (eq : A -> A -> bool).
Hypothesis eq_spec : forall x y, eq x y = true <-> x = y.

Lemma elem_of_unique_from x y l : y ∈ unique_from eq x l <-> y ∈ x :: l.
Proof.
  revert x. induction l as [|z l IH]; intros x; simpl; [done|].
  destruct (eq x z) eqn:E; [apply eq_spec in E as <-|]; rewrite ?IH; set_solver.
Qed.

Lemma elem_of_std_unique y l : y ∈ std_unique eq l <-> y ∈ l.
Proof. destruct l; [done|]. apply elem_of_unique_from. Qed.

Lemma unique_from_strict x l :
  StronglySorted le_by (x :: l) -> StrictSorted lt (unique_from eq x l).
Proof.
  revert x. induction l as [|z l IH]; intros x Hs; simpl; [repeat constructor|].
  apply StronglySorted_inv in Hs as [Hs Hx].
  destruct (eq x z) eqn:E.
  - apply eq_spec in E as <-. by apply IH.
  - specialize (IH _ Hs). constructor; [done|]. apply Forall_forall. intros y.
    rewrite elem_of_unique_from. intros Hy.
    assert (lt x z = true) as Hxz.
    { inversion_clear Hx as [|? ? Hxz _].
      destruct (lt_cases lt x z) as [?|[->|Hzx]]; [done| |].
      - by rewrite (proj2 (eq_spec z z) eq_refl) in E.
      - unfold le_by in Hxz. congruence. }
    apply elem_of_cons in Hy as [->|Hy]; [done|].
    apply StronglySorted_inv in Hs as [_ Hz]. rewrite Forall_forall in Hz.
    specialize (Hz _ Hy). destruct (lt_cases lt z y) as [H|[<-|H]].
    + by eapply lt_trans.
    + done.
    + unfold le_by in Hz. congruence.
Qed.

Lemma std_unique_strict l :
  StronglySorted le_by l -> StrictSorted lt (std_unique eq l).
Proof. destruct l; [constructor|]. apply unique_from_strict. Qed.

(** The canonical form of a set-like vector: sorted, then deduplicated. *)
Lemma sort_unique_strict l : StrictSorted lt (std_unique eq (std_sort lt l)).
Proof. apply std_unique_strict, std_sort_sorted. Qed.

Lemma elem_of_sort_unique x l : x ∈ std_unique eq (std_sort lt l) <-> x ∈ l.
Proof. by rewrite elem_of_std_unique, elem_of_std_sort. Qed.

Lemma sort_unique_ext l1 l2 :
  (forall x, x ∈ l1 <-> x ∈ l2) ->
  std_unique eq (std_sort lt l1) = std_unique eq (std_sort lt l2).
Proof.
  intros H. apply StrictSorted_ext; [apply sort_unique_strict..|].
  intros x. by rewrite !elem_of_sort_unique.
Qed.

Lemma sort_unique_same l1 l2 :
  std_unique eq (std_sort lt l1) = std_unique eq (std_sort lt l2) <->
  (forall x, x ∈ l1 <-> x ∈ l2).
Proof.
  split; [|apply sort_unique_ext]. intros H x.
  by rewrite <- (elem_of_sort_unique x l1), H, elem_of_sort_unique.
Qed.

Lemma sort_unique_id l :
  StrictSorted lt l -> std_unique eq (std_sort lt l) = l.
Proof.
  intros H. apply StrictSorted_ext; [apply sort_unique_strict|done|].
  intros x. apply elem_of_sort_unique.
Qed.
End Unique.

Lemma is_sorted_iff l : is_sorted lt l = true <-> StronglySorted le_by l.
Proof.
  unfold is_sorted. rewrite negb_true_iff. induction l as [|x l IH]; simpl.
  - split; [constructor|done].
  - destruct l as [|y l].
    { split; [repeat constructor|done]. }
    rewrite orb_false_iff, IH. split.
    + intros [Hyx Hs]. constructor; [done|]. constructor; [done|].
      apply StronglySorted_inv in Hs as [_ Hy].
      eapply Forall_impl; [exact Hy|]. intros z. by apply le_by_trans.
    + intros Hs. apply StronglySorted_inv in Hs as [Hs Hx].
      split; [by inversion Hx|done].
Qed.
End SortLemmas.

(** ** Enumerations

    [enum class E : uint8_t] is an inductive type with the source's
    enumerators.  A C++ enum object can also hold any other byte; one more
    constructor, [E_Invalid], stands for all of them: the program only ever
    tests such a value with [enum_between] and rejects it.  [to_u8] and [of_u8]
    are the two [static_cast]s. *)

Class Enum8 (E : Type) := {
  to_u8 : E -> Z;
  of_u8 : Z -> E;
  of_to_u8 : forall e, of_u8 (to_u8 e) = e;
  to_u8_range : forall e, 0 <= to_u8 e < 256
}.

Definition enum_between {E} `{Enum8 E} (value first last : E) : bool :=
  (to_u8 first <=? to_u8 value) && (to_u8 value <=? to_u8 last).

(** Decidable equality as the program's [==]. *)
Notation "x == y" := (bool_decide (x = y)) (at level 70, no associativity) : viy_scope.
Notation "x != y" := (negb (bool_decide (x = y))) (at level 70, no associativity) : viy_scope.

Lemma to_u8_inj {E} `{Enum8 E} (x y : E) : to_u8 x = to_u8 y -> x = y.
Proof. intros Heq. rewrite <- (of_to_u8 x), <- (of_to_u8 y). by rewrite Heq. Qed.
