(* ===== verification/OrderedMap.v ===== *)
(** [std::map] and [std::set] as the sorted sequences their iteration shows:
    a map is its list of entries in key order, a set its list of elements.
    The comparator is an argument; the lemmas need it to be a [StrictTotal]. *)
From stdpp Require Import base numbers list strings option sets.
From Stdlib Require Import ZArith Sorting.Sorted Lia.
From S2P Require Import Prelude.

Notation omap K V := (list (K * V)).

Section Operations.
Context {K V : Type} (lt : K -> K -> bool).

(** [m.find(k)] *)
Fixpoint map_find (k : K) (m : omap K V) : option V :=
  match m with
  | [] => None
  | (k', v) :: r =>
      if lt k' k then map_find k r else if lt k k' then None else Some v
  end.

(** [m[k] = v] *)
Fixpoint map_set (k : K) (v : V) (m : omap K V) : omap K V :=
  match m with
  | [] => [(k, v)]
  | (k', v') :: r =>
      if lt k' k then (k', v') :: map_set k v r
      else if lt k k' then (k, v) :: m
      else (k, v) :: r
  end.

(** [m.emplace(k, v)]: no effect when the key is present. *)
Definition map_emplace (k : K) (v : V) (m : omap K V) : omap K V :=
  match map_find k m with Some _ => m | None => map_set k v m end.

Definition map_ok (m : omap K V) : Prop := StrictSorted lt (m.*1).
End Operations.

(** [m[k].push_back(x)] for a map of vectors. *)
Definition map_push_back {K V} (lt : K -> K -> bool) (k : K) (x : V)
    (m : omap K (list V)) : omap K (list V) :=
  map_set lt k (default [] (map_find lt k m) ++ [x]) m.

(** [m.emplace(k, v)] for a [std::multimap]: after the entries with an equal key. *)
Fixpoint multimap_emplace {K V} (lt : K -> K -> bool) (k : K) (v : V) (m : omap K V) :
    omap K V :=
  match m with
  | [] => [(k, v)]
  | (k', v') :: r => if lt k k' then (k, v) :: m else (k', v') :: multimap_emplace lt k v r
  end.

(** [m.lower_bound(k)] to [end()]: the suffix whose keys are not below [k]. *)
Fixpoint map_lower_bound {K V} (lt : K -> K -> bool) (k : K) (m : omap K V) : omap K V :=
  match m with
  | [] => []
  | (k', _) :: r => if lt k' k then map_lower_bound lt k r else m
  end.

(** [std::lower_bound]: the partition point of a sorted vector, as the elements
    before it and the elements from it on. *)
Fixpoint lower_bound {A} (before : A -> bool) (l : list A) : list A * list A :=
  match l with
  | [] => ([], [])
  | x :: r =>
      if before x then let '(low, high) := lower_bound before r in (x :: low, high)
      else ([], l)
  end.

Section SetOperations.
Context {A : Type} (lt : A -> A -> bool).

(** [s.insert(x)] *)
Fixpoint set_insert (x : A) (s : list A) : list A :=
  match s with
  | [] => [x]
  | y :: r => if lt y x then y :: set_insert x r else if lt x y then x :: s else s
  end.

(** [s.count(x) != 0] *)
Fixpoint set_count (x : A) (s : list A) : bool :=
  match s with
  | [] => false
  | y :: r => if lt y x then set_count x r else negb (lt x y)
  end.

Definition set_of_list (l : list A) : list A :=
  foldl (fun s x => set_insert x s) [] l.
End SetOperations.

(** ** Maps *)

Section MapLemmas.
Context {K V : Type} (lt : K -> K -> bool) `{!StrictTotal lt}.
Implicit Types (m : omap K V) (k : K) (v : V).

Lemma map_ok_nil : map_ok lt ([] : omap K V).
Proof. constructor. Qed.

Lemma map_ok_cons k v m :
  map_ok lt ((k, v) :: m) <->
  map_ok lt m /\ forall k' v', (k', v') ∈ m -> lt k k' = true.
Proof.
  unfold map_ok, StrictSorted. simpl. split.
  - intros [Hs Hf]%StronglySorted_inv. split; [done|]. intros k' v' Hin.
    rewrite Forall_forall in Hf. apply Hf, list_elem_of_fmap. by exists (k', v').
  - intros [Hs Hf]. constructor; [done|]. apply Forall_forall.
    intros k' [[k'' v''] [-> Hin]]%list_elem_of_fmap. by eapply Hf.
Qed.

Lemma map_find_elem m k v : map_ok lt m -> map_find lt k m = Some v <-> (k, v) ∈ m.
Proof.
  induction m as [|[k' v'] m IH]; simpl; [set_solver|].
  rewrite map_ok_cons. intros [Hok Hlt]. specialize (IH Hok).
  destruct (lt k' k) eqn:E1; [|destruct (lt k k') eqn:E2].
  - rewrite IH, elem_of_cons. split; [by auto|]. intros [[= -> ->]|?]; [|done].
    by rewrite lt_irrefl in E1.
  - split; [done|]. intros [[= -> ->]|Hin]%elem_of_cons.
    + by rewrite lt_irrefl in E2.
    + pose proof (Hlt _ _ Hin). congruence.
  - pose proof (lt_total _ _ E1 E2) as ->. rewrite elem_of_cons. split.
    + intros [= ->]. by left.
    + intros [[= ->]|Hin]; [done|]. specialize (Hlt _ _ Hin).
      by rewrite lt_irrefl in Hlt.
Qed.

Lemma map_find_None m k :
  map_ok lt m -> map_find lt k m = None <-> forall v, (k, v) ∉ m.
Proof.
  intros Hok. split.
  - intros H v Hin%map_find_elem; [congruence|done].
  - intros H. destruct (map_find lt k m) as [v|] eqn:E; [|done].
    apply map_find_elem in E; [|done]. by destruct (H v).
Qed.

Lemma elem_of_map_set m k v k' v' :
  map_ok lt m ->
  (k', v') ∈ map_set lt k v m <-> (k' = k /\ v' = v) \/ (k' <> k /\ (k', v') ∈ m).
Proof.
  induction m as [|[k1 v1] m IH]; simpl.
  { intros _. set_solver. }
  rewrite map_ok_cons. intros [Hok Hlt]. specialize (IH Hok).
  destruct (lt k1 k) eqn:E1; [|destruct (lt k k1) eqn:E2].
  - rewrite !elem_of_cons, IH. pose proof (lt_neq lt _ _ E1). naive_solver.
  - rewrite !elem_of_cons. pose proof (lt_neq lt _ _ E2).
    assert ((k', v') ∈ m -> k' <> k).
    { intros Hin ->. pose proof (lt_trans _ _ _ E2 (Hlt _ _ Hin)) as Hk.
      by rewrite lt_irrefl in Hk. }
    naive_solver.
  - pose proof (lt_total _ _ E1 E2) as ->. rewrite !elem_of_cons.
    assert ((k', v') ∈ m -> k' <> k).
    { intros Hin ->. pose proof (Hlt _ _ Hin) as Hk. by rewrite lt_irrefl in Hk. }
    naive_solver.
Qed.

Lemma map_ok_set m k v : map_ok lt m -> map_ok lt (map_set lt k v m).
Proof.
  induction m as [|[k1 v1] m IH]; simpl.
  { intros _. repeat constructor. }
  intros Hok0. pose proof (proj1 (map_ok_cons _ _ _) Hok0) as [Hok Hlt].
  destruct (lt k1 k) eqn:E1; [|destruct (lt k k1) eqn:E2].
  - apply map_ok_cons. split; [by apply IH|]. intros k' v'.
    rewrite elem_of_map_set by done. intros [[-> ->]|[_ Hin]]; [done|by eapply Hlt].
  - apply map_ok_cons. split; [done|].
    intros k' v' [[= -> ->]|Hin]%elem_of_cons; [done|].
    eapply lt_trans; [done|by eapply Hlt].
  - pose proof (lt_total _ _ E1 E2) as ->. by apply map_ok_cons.
Qed.

Lemma map_find_set m k v k' :
  map_ok lt m ->
  map_find lt k' (map_set lt k v m) =
    if equiv_by lt k k' then Some v else map_find lt k' m.
Proof.
  intros Hok. destruct (equiv_by lt k k') eqn:E.
  - apply equiv_by_eq in E as <-; [|done]. apply map_find_elem; [by apply map_ok_set|].
    apply elem_of_map_set; [done|]. by left.
  - assert (k' <> k) as Hne.
    { intros ->. by rewrite (proj2 (equiv_by_eq lt k k) eq_refl) in E. }
    apply option_eq. intros w.
    rewrite !map_find_elem, elem_of_map_set by (try apply map_ok_set; done).
    naive_solver.
Qed.

Lemma map_find_set_eq m k v : map_ok lt m -> map_find lt k (map_set lt k v m) = Some v.
Proof.
  intros. rewrite map_find_set by done.
  by rewrite (proj2 (equiv_by_eq lt k k) eq_refl).
Qed.

Lemma map_find_set_ne m k v k' :
  map_ok lt m -> k <> k' -> map_find lt k' (map_set lt k v m) = map_find lt k' m.
Proof.
  intros. rewrite map_find_set by done. destruct (equiv_by lt k k') eqn:E; [|done].
  by apply equiv_by_eq in E.
Qed.

(** Two maps with the same lookups are the same map. *)
Lemma map_ext m1 m2 :
  map_ok lt m1 -> map_ok lt m2 ->
  (forall k, map_find lt k m1 = map_find lt k m2) -> m1 = m2.
Proof.
  revert m2. induction m1 as [|[k1 v1] m1 IH]; intros [|[k2 v2] m2] H1 H2 Heq.
  - done.
  - assert (map_find lt k2 ([] : omap K V) = Some v2) as Hf.
    { rewrite Heq. apply map_find_elem; set_solver. }
    done.
  - assert (map_find lt k1 ([] : omap K V) = Some v1) as Hf.
    { rewrite <- Heq. apply map_find_elem; set_solver. }
    done.
  - assert ((k1, v1) ∈ (k2, v2) :: m2) as Hin1.
    { apply map_find_elem; [done|]. rewrite <- Heq. apply map_find_elem; set_solver. }
    assert ((k2, v2) ∈ (k1, v1) :: m1) as Hin2.
    { apply map_find_elem; [done|]. rewrite Heq. apply map_find_elem; set_solver. }
    pose proof (proj1 (map_ok_cons _ _ _) H1) as [Hok1 Hlt1].
    pose proof (proj1 (map_ok_cons _ _ _) H2) as [Hok2 Hlt2].
    assert ((k1, v1) = (k2, v2)) as [= <- <-].
    { apply elem_of_cons in Hin1 as [|Hin1]; [done|].
      apply elem_of_cons in Hin2 as [|Hin2]; [done|].
      pose proof (lt_trans _ _ _ (Hlt1 _ _ Hin2) (Hlt2 _ _ Hin1)) as Hk.
      by rewrite lt_irrefl in Hk. }
    f_equal. apply IH; [done..|]. intros k.
    specialize (Heq k). simpl in Heq.
    destruct (lt k1 k) eqn:E1; [done|].
    assert (forall m, (forall k' v', (k', v') ∈ m -> lt k1 k' = true) -> map_ok lt m ->
                 map_find lt k m = None) as Hnone.
    { intros m Hlt Hok. apply map_find_None; [done|]. intros v Hin.
      rewrite (Hlt _ _ Hin) in E1. done. }
    by rewrite !Hnone.
Qed.

Lemma map_emplace_ok m k v : map_ok lt m -> map_ok lt (map_emplace lt k v m).
Proof. intros. unfold map_emplace. case_match; [done|]. by apply map_ok_set. Qed.

Lemma map_ok_NoDup m : map_ok lt m -> NoDup m.
Proof. intros H%StrictSorted_NoDup; [|done]. by eapply NoDup_fmap_1. Qed.

(** Entries filtered by a predicate keep the key order. *)
Lemma map_ok_sublist m m' : m' `sublist_of` m -> map_ok lt m -> map_ok lt m'.
Proof.
  induction 1 as [|[k v] m' m Hs IH|[k v] m' m Hs IH]; [done|..];
    rewrite ?map_ok_cons.
  - intros [Hok Hlt]. split; [by apply IH|]. intros k' v' Hin.
    eapply Hlt. by eapply elem_of_submseteq, sublist_submseteq.
  - intros [Hok _]. by apply IH.
Qed.
End MapLemmas.

Section PushBack.
Context {K V : Type} (lt : K -> K -> bool) `{!StrictTotal lt}.
Implicit Types (m : omap K (list V)).

Lemma map_ok_push_back m k x : map_ok lt m -> map_ok lt (map_push_back lt k x m).
Proof. intros. by apply map_ok_set. Qed.

Lemma map_find_push_back m k x k' :
  map_ok lt m ->
  map_find lt k' (map_push_back lt k x m) =
    if equiv_by lt k k' then Some (default [] (map_find lt k m) ++ [x])
    else map_find lt k' m.
Proof. intros. unfold map_push_back. by rewrite map_find_set. Qed.
End PushBack.

(** ** Sets *)

Section SetLemmas.
Context {A : Type} (lt : A -> A -> bool) `{!StrictTotal lt}.

Lemma elem_of_set_insert x y s : y ∈ set_insert lt x s <-> y = x \/ y ∈ s.
Proof.
  induction s as [|z s IH]; simpl; [set_solver|].
  destruct (lt z x) eqn:E1; [set_solver|]. destruct (lt x z) eqn:E2; [set_solver|].
  pose proof (lt_total _ _ E1 E2) as ->. set_solver.
Qed.

Lemma set_insert_sorted x s : StrictSorted lt s -> StrictSorted lt (set_insert lt x s).
Proof.
  induction 1 as [|z s Hs IH Hz]; simpl; [repeat constructor|].
  destruct (lt z x) eqn:E1; [|destruct (lt x z) eqn:E2].
  - constructor; [done|]. apply Forall_forall. intros y.
    rewrite elem_of_set_insert. intros [->|Hin]; [done|].
    rewrite Forall_forall in Hz. by apply Hz.
  - constructor; [by constructor|]. constructor; [done|].
    eapply Forall_impl; [exact Hz|]. intros y. by apply lt_trans.
  - by constructor.
Qed.

Lemma set_count_elem x s : StrictSorted lt s -> set_count lt x s = true <-> x ∈ s.
Proof.
  induction 1 as [|z s Hs IH Hz]; simpl; [set_solver|]. rewrite elem_of_cons.
  rewrite Forall_forall in Hz.
  destruct (lt z x) eqn:E1.
  - rewrite IH. pose proof (lt_neq lt _ _ E1). naive_solver.
  - rewrite negb_true_iff. split.
    + intros E2. left. by apply lt_total.
    + intros [->|Hin]; [by rewrite lt_irrefl|]. rewrite (Hz _ Hin) in E1. done.
Qed.

Lemma set_insert_length x s : set_count lt x s = false -> length (set_insert lt x s) = S (length s).
Proof.
  induction s as [|y s IH]; simpl; [done|]. destruct (lt y x); simpl; [intros H; by rewrite IH|].
  destruct (lt x y); [done|]. done.
Qed.

Lemma foldl_set_insert l s y :
  y ∈ foldl (fun s x => set_insert lt x s) s l <-> y ∈ s \/ y ∈ l.
Proof.
  revert s. induction l as [|x l IH]; intros s; simpl; [set_solver|].
  rewrite IH, elem_of_set_insert. set_solver.
Qed.

Lemma foldl_set_insert_sorted l s :
  StrictSorted lt s -> StrictSorted lt (foldl (fun s x => set_insert lt x s) s l).
Proof.
  revert s. induction l as [|x l IH]; intros s Hs; simpl; [done|].
  by apply IH, set_insert_sorted.
Qed.

Lemma elem_of_set_of_list y l : y ∈ set_of_list lt l <-> y ∈ l.
Proof. unfold set_of_list. rewrite foldl_set_insert. set_solver. Qed.

Lemma set_of_list_sorted l : StrictSorted lt (set_of_list lt l).
Proof. apply foldl_set_insert_sorted. constructor. Qed.

(** A set is determined by its elements. *)
Lemma set_of_list_ext l1 l2 :
  (forall x, x ∈ l1 <-> x ∈ l2) -> set_of_list lt l1 = set_of_list lt l2.
Proof.
  intros H. apply (StrictSorted_ext lt); [apply set_of_list_sorted..|].
  intros x. by rewrite !elem_of_set_of_list.
Qed.
End SetLemmas.

(** ** Sorted vectors of keyed values *)

Lemma lower_bound_app {A} (before : A -> bool) (l : list A) :
  (lower_bound before l).1 ++ (lower_bound before l).2 = l.
Proof.
  induction l as [|y l IH]; simpl; [done|]. destruct (before y); [|done].
  destruct (lower_bound before l) as [low high]. simpl in *. by rewrite IH.
Qed.

Lemma lower_bound_low {A} (before : A -> bool) (l : list A) y :
  y ∈ (lower_bound before l).1 -> before y = true.
Proof.
  induction l as [|z l IH]; simpl; [set_solver|]. destruct (before z) eqn:E; [|set_solver].
  destruct (lower_bound before l) as [low high]. simpl in *. set_solver.
Qed.

Lemma lower_bound_high {A} (before : A -> bool) (l : list A) y r :
  (lower_bound before l).2 = y :: r -> before y = false.
Proof.
  induction l as [|z l IH]; simpl; [done|]. destruct (before z) eqn:E.
  - destruct (lower_bound before l) as [low high]. done.
  - by intros [= -> ->].
Qed.

Section LowerBound.
Context {A K : Type} (lt : K -> K -> bool) `{!StrictTotal lt} (key : A -> K).
Implicit Types (l : list A) (x : A).

(** The duplicate test of a sorted insertion finds every equal key, and
    otherwise inserting at the lower bound keeps the vector sorted. *)
Lemma lower_bound_insert l x low high :
  StrictSorted lt (map key l) -> lower_bound (fun y => lt (key y) (key x)) l = (low, high) ->
  let duplicate := match high with y :: _ => equiv_by lt (key y) (key x) | [] => false end in
  (duplicate = true <-> key x ∈ map key l) /\
  (duplicate = false -> StrictSorted lt (map key (low ++ x :: high))).
Proof.
  intros Hs Hb.
  pose proof (lower_bound_app (fun y => lt (key y) (key x)) l) as Happ.
  pose proof (lower_bound_low (fun y => lt (key y) (key x)) l) as Hlow.
  pose proof (lower_bound_high (fun y => lt (key y) (key x)) l) as Hhigh.
  rewrite Hb in Happ, Hlow, Hhigh. cbn [fst snd] in *. subst l.
  rewrite map_app in Hs. apply StronglySorted_app in Hs as (Hcross & Hsl & Hsh).
  assert (key x ∉ map key low) as Hnl.
  { intros (y & Hy & Hin)%list_elem_of_fmap. apply Hlow in Hin.
    rewrite Hy, lt_irrefl in Hin. done. }
  destruct high as [|y high]; cbn zeta.
  - split; [split; [done|]|].
    + rewrite app_nil_r. done.
    + intros _. rewrite map_app. apply StronglySorted_app. split_and!; [|done|repeat constructor].
      intros a b (z & -> & Hz)%list_elem_of_fmap Hb'. apply Hlow in Hz.
      apply list_elem_of_singleton in Hb' as ->. done.
  - specialize (Hhigh _ _ eq_refl). split.
    + rewrite equiv_by_eq by done. rewrite map_app, elem_of_app. cbn [map]. rewrite elem_of_cons.
      split; [by intros ->; auto|]. intros [?|[->|Hin]]; [done|done|].
      apply StronglySorted_inv in Hsh as [_ Hf]. rewrite Forall_forall in Hf.
      pose proof (Hf _ Hin) as Hlt. rewrite Hhigh in Hlt. done.
    + intros Hne. assert (lt (key x) (key y) = true) as Hxy.
      { destruct (lt_cases lt (key x) (key y)) as [H|[H|H]]; [done| |congruence].
        rewrite H in Hne. by rewrite (proj2 (equiv_by_eq lt _ _) eq_refl) in Hne. }
      rewrite map_app. apply StronglySorted_app. split_and!.
      * intros a b (z & -> & Hz)%list_elem_of_fmap Hb'. cbn [map] in Hb'.
        apply Hlow in Hz. apply elem_of_cons in Hb' as [->|Hb']; [done|].
        eapply lt_trans; [done|]. apply elem_of_cons in Hb' as [->|Hb']; [done|].
        eapply lt_trans; [done|]. apply StronglySorted_inv in Hsh as [_ Hf].
        rewrite Forall_forall in Hf. by apply Hf.
      * done.
      * cbn [map]. constructor; [done|]. constructor; [done|].
        apply StronglySorted_inv in Hsh as [_ Hf]. eapply Forall_impl; [exact Hf|].
        intros z Hz. by eapply lt_trans.
Qed.
End LowerBound.

(** Keyed vectors with the same sorted keys are equal where the key is injective. *)
Lemma map_key_inj {A K} (key : A -> K) (P : A -> Prop) l1 l2 :
  (forall x y, P x -> P y -> key x = key y -> x = y) ->
  Forall P l1 -> Forall P l2 -> map key l1 = map key l2 -> l1 = l2.
Proof.
  intros Hinj H1. revert l2. induction H1 as [|x l1 Hx H1 IH]; intros l2 H2 Heq.
  - by destruct l2.
  - destruct H2 as [|y l2 Hy H2]; [done|]. injection Heq as Hk Heq.
    f_equal; [by apply Hinj|by apply IH].
Qed.

(** ** Multimaps with integer keys *)

Lemma elem_of_multimap_emplace {K V} (lt : K -> K -> bool) k (v : V) m x :
  x ∈ multimap_emplace lt k v m <-> x = (k, v) \/ x ∈ m.
Proof.
  induction m as [|[k' v'] m IH]; simpl; [set_solver|]. destruct (lt k k'); set_solver.
Qed.

Definition multimap_ok {V} (m : omap Z V) : Prop := StronglySorted (fun x y => x.1 <= y.1) m.

Lemma multimap_emplace_ok {V} k (v : V) m :
  multimap_ok m -> multimap_ok (multimap_emplace Z.ltb k v m).
Proof.
  unfold multimap_ok. induction 1 as [|[k' v'] m Hs IH Hf]; simpl; [repeat constructor|].
  rewrite Forall_forall in Hf. destruct (Z.ltb_spec k k').
  - constructor; [constructor; [done|by apply Forall_forall]|]. apply Forall_forall.
    intros x [->|Hx]%elem_of_cons; simpl; [lia|]. specialize (Hf _ Hx). simpl in Hf. lia.
  - constructor; [done|]. apply Forall_forall. intros x.
    rewrite elem_of_multimap_emplace. intros [->|Hx]; [done|by apply Hf].
Qed.

Lemma elem_of_map_lower_bound {V} k (m : omap Z V) x :
  multimap_ok m -> x ∈ map_lower_bound Z.ltb k m <-> x ∈ m /\ k <= x.1.
Proof.
  unfold multimap_ok. induction 1 as [|[k' v'] m Hs IH Hf]; simpl; [set_solver|].
  rewrite Forall_forall in Hf. destruct (Z.ltb_spec k' k).
  - rewrite IH, elem_of_cons. split; [naive_solver|]. intros [[->|?] ?]; [simpl in *; lia|done].
  - split; [|by intros [? _]]. intros Hx. split; [done|].
    apply elem_of_cons in Hx as [->|Hx]; [done|]. specialize (Hf _ Hx). simpl in Hf. lia.
Qed.

Lemma map_lower_bound_ok {V} k (m : omap Z V) :
  multimap_ok m -> multimap_ok (map_lower_bound Z.ltb k m).
Proof.
  unfold multimap_ok. induction 1 as [|[k' v'] m Hs IH Hf]; simpl; [constructor|].
  destruct (Z.ltb_spec k' k); [done|by constructor].
Qed.

Lemma map_set_length {K V} (lt : K -> K -> bool) `{!StrictTotal lt} k (v : V) m :
  map_ok lt m ->
  zlen (map_set lt k v m) = zlen m + match map_find lt k m with Some _ => 0 | None => 1 end.
Proof.
  induction m as [|[k' v'] m IH]; cbn [map_set map_find].
  { intros _. by rewrite zlen_cons, zlen_nil. }
  rewrite map_ok_cons by done. intros [Hok Hlt]. specialize (IH Hok).
  destruct (lt k' k) eqn:E1; [rewrite !zlen_cons, IH; lia|].
  destruct (lt k k') eqn:E2; rewrite !zlen_cons; [|lia].
  lia.
Qed.

(** ** Building a map in key order *)

Section BuildMap.
Context {K V : Type} (lt : K -> K -> bool) `{!StrictTotal lt}.
Implicit Types (m : omap K V).

Lemma map_emplace_last k (v : V) m :
  map_ok lt m -> (forall k' v', (k', v') ∈ m -> lt k' k = true) ->
  map_emplace lt k v m = m ++ [(k, v)].
Proof.
  intros Hok Hlt. unfold map_emplace.
  assert (map_find lt k m = None) as ->.
  { apply map_find_None; [done..|]. intros w Hin. pose proof (Hlt _ _ Hin) as H.
    by rewrite lt_irrefl in H. }
  induction m as [|[k' v'] m IH]; [done|]. cbn [map_set app].
  rewrite (Hlt k' v') by set_solver. f_equal. apply map_ok_cons in Hok as [Hok _].
  apply IH; [done|]. intros k1 v1 H. apply (Hlt k1 v1). set_solver.
Qed.

Lemma map_ok_app m1 m2 :
  map_ok lt (m1 ++ m2) <->
  (forall k1 v1 k2 v2, (k1, v1) ∈ m1 -> (k2, v2) ∈ m2 -> lt k1 k2 = true) /\
  map_ok lt m1 /\ map_ok lt m2.
Proof.
  unfold map_ok, StrictSorted. rewrite fmap_app, StronglySorted_app. split.
  - intros (Hc & ? & ?). split_and!; [|done|done]. intros k1 v1 k2 v2 H1 H2.
    apply Hc; apply list_elem_of_fmap; by eexists (_, _).
  - intros (Hc & ? & ?). split_and!; [|done|done].
    intros k1 k2 [[? ?] [-> H1]]%list_elem_of_fmap [[? ?] [-> H2]]%list_elem_of_fmap.
    by eapply Hc.
Qed.

(** Emplacing the entries of a map in order rebuilds it. *)
Lemma foldl_emplace m0 m :
  map_ok lt (m0 ++ m) -> foldl (fun m e => map_emplace lt e.1 e.2 m) m0 m = m0 ++ m.
Proof.
  revert m0. induction m as [|[k v] m IH]; intros m0 Hok; [by rewrite app_nil_r|].
  cbn [foldl fst snd]. pose proof (proj1 (map_ok_app _ _) Hok) as (Hc & H0 & _).
  rewrite map_emplace_last; [|done|].
  - change ((k, v) :: m) with ([(k, v)] ++ m) in *. rewrite app_assoc in *. by apply IH.
  - intros k' v' Hin. apply (Hc k' v' k v); [done|set_solver].
Qed.

(** Entries chosen from the entries of a map, key by key. *)
Lemma map_ok_concat {W} (g : K * W -> omap K V) (m : omap K W) :
  map_ok lt m -> (forall e k v, (k, v) ∈ g e -> k = e.1) -> (forall e, map_ok lt (g e)) ->
  map_ok lt (concat (map g m)).
Proof.
  intros Hok Hg Hgok. induction m as [|[k w] m IH]; [constructor|]. cbn [map concat].
  apply map_ok_cons in Hok as [Hok Hlt]. apply map_ok_app.
  split_and!; [|apply Hgok|by apply IH]. intros k1 v1 k2 v2 ->%Hg H2. cbn [fst].
  apply list_elem_of_In, in_concat in H2 as (l & Hl & H2).
  apply list_elem_of_In, list_elem_of_fmap in Hl as ([k' w'] & -> & Hin).
  apply list_elem_of_In, Hg in H2 as ->. by eapply Hlt.
Qed.
End BuildMap.

Lemma foldl_concat_map {A B C} (f : A -> B -> A) (g : C -> list B) l a :
  foldl f a (concat (map g l)) = foldl (fun a x => foldl f a (g x)) a l.
Proof.
  revert a. induction l as [|x l IH]; intros a; [done|]. cbn [map concat foldl].
  by rewrite foldl_app, IH.
Qed.

Lemma elem_of_concat_map {A B} (g : A -> list B) l y :
  y ∈ concat (map g l) <-> exists x, x ∈ l /\ y ∈ g x.
Proof.
  induction l as [|x l IH]; cbn [map concat].
  - split; [by intros ?%elem_of_nil|]. by intros (? & ?%elem_of_nil & _).
  - rewrite elem_of_app, IH. set_solver.
Qed.

Lemma elem_of_filter {A} (p : A -> bool) l x : x ∈ List.filter p l <-> p x = true /\ x ∈ l.
Proof. rewrite !list_elem_of_In, filter_In. tauto. Qed.

(** ** Sorting by a key *)

Section SortByKey.
Context {A K : Type} (lt : K -> K -> bool) `{!StrictTotal lt} (key : A -> K).

Lemma std_sort_map l :
  map key (std_sort (fun x y => lt (key x) (key y)) l) = std_sort lt (map key l).
Proof.
  induction l as [|x l IH]; [done|]. cbn [std_sort map]. rewrite <- IH.
  generalize (std_sort (fun x y => lt (key x) (key y)) l). intros r. clear.
  induction r as [|y r IH]; cbn [insert_by map]; [done|].
  destruct (lt (key y) (key x)); cbn [map]; [by rewrite IH|done].
Qed.

Lemma le_by_NoDup_strict (l : list K) :
  StronglySorted (le_by lt) l -> NoDup l -> StrictSorted lt l.
Proof.
  induction 1 as [|x l Hs IH Hx]; intros Hd; [constructor|]. apply NoDup_cons in Hd as [Hn Hd].
  constructor; [by apply IH|]. rewrite Forall_forall in Hx |- *. intros y Hy.
  destruct (lt_cases lt x y) as [H|[->|H]]; [done|done|]. specialize (Hx _ Hy).
  unfold le_by in Hx. congruence.
Qed.

Lemma StronglySorted_map (R : K -> K -> Prop) (l : list A) :
  StronglySorted R (map key l) <-> StronglySorted (fun x y => R (key x) (key y)) l.
Proof.
  induction l as [|x l IH]; cbn [map]; [split; constructor|]. split.
  - intros [Hs Hf]%StronglySorted_inv. constructor; [by apply IH|].
    rewrite Forall_forall in Hf. apply Forall_forall. intros y Hy.
    apply Hf, list_elem_of_fmap. by exists y.
  - intros [Hs Hf]%StronglySorted_inv. constructor; [by apply IH|].
    rewrite Forall_forall in Hf. apply Forall_forall.
    intros k (y & -> & Hy)%list_elem_of_fmap. by apply Hf.
Qed.

Lemma sort_by_key_strict l :
  NoDup (map key l) ->
  StronglySorted (fun x y => lt (key x) (key y) = true)
    (std_sort (fun x y => lt (key x) (key y)) l).
Proof.
  intros Hd. apply (StronglySorted_map (fun x y => lt x y = true)).
  rewrite std_sort_map. apply le_by_NoDup_strict; [by apply std_sort_sorted|].
  by rewrite std_sort_Permutation.
Qed.
End SortByKey.

Lemma elem_of_std_sort_any {A} (lt : A -> A -> bool) x l : x ∈ std_sort lt l <-> x ∈ l.
Proof.
  assert (forall y r, x ∈ insert_by lt y r <-> x = y \/ x ∈ r) as Hins.
  { intros y r. induction r as [|z r IH]; cbn [insert_by]; [set_solver|].
    destruct (lt z y); set_solver. }
  induction l as [|y l IH]; [done|]. cbn [std_sort]. rewrite Hins, IH. set_solver.
Qed.
