(* ===== verification/Loops.v ===== *)
(** The loop shapes of the conflict scans: buckets in a map of vectors, the pairs
    of a bucket, and what such a loop collects when its body collects something
    for each pair. *)
From stdpp Require Import base numbers list strings option sets.
From Stdlib Require Import ZArith Sorting.Sorted Lia.
From S2P Require Import Prelude OrderedMap.

(** [buckets[key].push_back(x)] for the elements that have a key. *)
Definition bucket_by {A K} (lt : K -> K -> bool) (classify : A -> option K) (items : list A) :
    omap K (list A) :=
  foldl (fun buckets x =>
           match classify x with
           | Some key => map_push_back lt key x buckets
           | None => buckets
           end) [] items.

(** [for i, for j > i]: the two nested loops over a bucket. *)
Fixpoint for_pairs {A S} (body : A -> A -> S -> S) (l : list A) (s : S) : S :=
  match l with
  | [] => s
  | x :: r => for_pairs body r (foldl (fun s y => body x y s) s r)
  end.

Definition for_buckets {K A S} (body : A -> A -> S -> S) (buckets : omap K (list A)) (s : S) : S :=
  foldl (fun s entry => for_pairs body entry.2 s) s buckets.

(** ** Positions *)

(** [x] stands before [y] in [l]. *)
Fixpoint before {A} (l : list A) (x y : A) : Prop :=
  match l with
  | [] => False
  | z :: r => (x = z /\ y ∈ r) \/ before r x y
  end.

Lemma before_elem {A} (l : list A) x y : before l x y -> x ∈ l /\ y ∈ l.
Proof. induction l as [|z l IH]; [done|]. cbn. set_solver. Qed.

(** In a list sorted by an asymmetric relation the position is the relation. *)
Lemma before_sorted {A} (R : A -> A -> Prop) l :
  (forall x y, R x y -> ~ R y x) -> StronglySorted R l ->
  forall x y, before l x y <-> x ∈ l /\ y ∈ l /\ R x y.
Proof.
  intros Hasym. induction 1 as [|z l Hs IH Hz]; intros x y; cbn [before].
  { split; [done|]. by intros (?%elem_of_nil & _). }
  rewrite Forall_forall in Hz. rewrite IH, !elem_of_cons. split.
  - intros [[-> Hy]|(? & ? & ?)]; [|auto]. split_and!; [by left|by right|by apply Hz].
  - intros ([->|Hx] & [->|Hy] & HR).
    + exfalso. by eapply Hasym.
    + by left.
    + exfalso. eapply Hasym; [exact HR|by apply Hz].
    + by right.
Qed.

Lemma StronglySorted_filter {A} (R : A -> A -> Prop) (p : A -> bool) l :
  StronglySorted R l -> StronglySorted R (List.filter p l).
Proof.
  induction 1 as [|x l Hs IH Hx]; cbn [List.filter]; [constructor|]. destruct (p x); [|done].
  constructor; [done|]. rewrite Forall_forall in Hx |- *. intros y [_ Hy]%elem_of_filter. by apply Hx.
Qed.

(** ** Buckets *)

Section Buckets.
Context {A K : Type} (lt : K -> K -> bool) `{!StrictTotal lt} (classify : A -> option K).

Definition in_bucket (key : K) (x : A) : bool :=
  match classify x with Some key' => equiv_by lt key' key | None => false end.

Lemma in_bucket_iff key x : in_bucket key x = true <-> classify x = Some key.
Proof.
  unfold in_bucket. destruct (classify x) as [k|]; [|done].
  rewrite equiv_by_eq by done. naive_solver.
Qed.

Lemma bucket_by_find items key :
  map_ok lt (bucket_by lt classify items) /\
  default [] (map_find lt key (bucket_by lt classify items)) = List.filter (in_bucket key) items.
Proof.
  unfold bucket_by.
  enough (forall m done_, map_ok lt m ->
    (forall k, default [] (map_find lt k m) = List.filter (in_bucket k) done_) ->
    map_ok lt (foldl (fun b x => match classify x with
                                 | Some k => map_push_back lt k x b | None => b end) m items) /\
    forall k, default [] (map_find lt k (foldl (fun b x => match classify x with
                                 | Some k => map_push_back lt k x b | None => b end) m items)) =
              List.filter (in_bucket k) (done_ ++ items)) as H.
  { destruct (H [] []) as [H1 H2]; [constructor|done|]. split; [done|apply H2]. }
  clear key. induction items as [|x items IH]; intros m done_ Hok Hf; cbn [foldl].
  - by rewrite app_nil_r.
  - replace (done_ ++ x :: items) with ((done_ ++ [x]) ++ items) by by rewrite <- app_assoc.
    apply IH.
    + destruct (classify x); [by apply (map_ok_push_back lt)|done].
    + intros k. rewrite List.filter_app. cbn [List.filter].
      destruct (classify x) as [kx|] eqn:Ex.
      * rewrite (map_find_push_back lt) by done. unfold in_bucket at 2. rewrite Ex.
        destruct (equiv_by lt kx k) eqn:Ek.
        -- apply equiv_by_eq in Ek as ->; [|done]. cbn [from_option id]. by rewrite Hf.
        -- by rewrite app_nil_r.
      * unfold in_bucket at 2. rewrite Ex. by rewrite app_nil_r.
Qed.

Lemma bucket_by_elem items key bucket :
  (key, bucket) ∈ bucket_by lt classify items -> bucket = List.filter (in_bucket key) items.
Proof.
  intros Hin. destruct (bucket_by_find items key) as [Hok Hf].
  apply (map_find_elem lt) in Hin; [|done]. by rewrite Hin in Hf.
Qed.

Lemma bucket_by_some items key x :
  x ∈ items -> classify x = Some key ->
  (key, List.filter (in_bucket key) items) ∈ bucket_by lt classify items.
Proof.
  intros Hx Hk. destruct (bucket_by_find items key) as [Hok Hf].
  apply (map_find_elem lt); [done|]. destruct (map_find lt key _) as [b|]; [by rewrite <- Hf|].
  exfalso. cbn in Hf. assert (x ∈ List.filter (in_bucket key) items) as Hin
    by (apply elem_of_filter; by rewrite in_bucket_iff).
  rewrite <- Hf in Hin. by apply elem_of_nil in Hin.
Qed.
End Buckets.

(** ** What the loops collect *)

Section Collect.
Context {A C S : Type} (I : S -> Prop) (P : A -> Prop) (obs : S -> C -> Prop)
  (body : A -> A -> S -> S) (R : A -> A -> C -> Prop)
  (Hbody : forall x y s, P x -> P y -> I s ->
     I (body x y s) /\ forall c, obs (body x y s) c <-> obs s c \/ R x y c).

Lemma foldl_collect x l s :
  P x -> (forall y, y ∈ l -> P y) -> I s ->
  I (foldl (fun s y => body x y s) s l) /\
  forall c, obs (foldl (fun s y => body x y s) s l) c <->
            obs s c \/ exists y, y ∈ l /\ R x y c.
Proof.
  intros Hx Hl. revert s. induction l as [|y l IH]; intros s Hs; cbn [foldl].
  - split; [done|]. intros c. split; [by left|]. intros [?|(y & ?%elem_of_nil & _)]; done.
  - destruct (Hbody x y s) as [Hs' Ho]; [done|apply Hl; set_solver|done|].
    destruct (IH ltac:(set_solver) _ Hs') as [Hs'' Ho']. split; [done|]. intros c.
    rewrite Ho', Ho. setoid_rewrite elem_of_cons. naive_solver.
Qed.

Lemma for_pairs_collect l s :
  (forall y, y ∈ l -> P y) -> I s ->
  I (for_pairs body l s) /\
  forall c, obs (for_pairs body l s) c <-> obs s c \/ exists x y, before l x y /\ R x y c.
Proof.
  revert s. induction l as [|x l IH]; intros s Hl Hs; cbn [for_pairs before].
  - split; [done|]. naive_solver.
  - destruct (foldl_collect x l s) as [Hs' Ho]; [apply Hl; set_solver|set_solver|done|].
    destruct (IH _ ltac:(set_solver) Hs') as [Hs'' Ho']. split; [done|]. intros c.
    rewrite Ho', Ho. naive_solver.
Qed.

Lemma for_bucket_list_collect {K} (buckets : omap K (list A)) s :
  (forall k b y, (k, b) ∈ buckets -> y ∈ b -> P y) -> I s ->
  I (for_buckets body buckets s) /\
  forall c, obs (for_buckets body buckets s) c <->
            obs s c \/ exists k b x y, (k, b) ∈ buckets /\ before b x y /\ R x y c.
Proof.
  unfold for_buckets. revert s. induction buckets as [|[k b] m IH]; intros s Hb Hs; cbn [foldl snd].
  - split; [done|]. intros c. split; [by left|].
    intros [?|(k & b & x & y & ?%elem_of_nil & _)]; done.
  - destruct (for_pairs_collect b s) as [Hs' Ho]; [|done|].
    { intros y. eapply Hb. by left. }
    destruct (IH _ ltac:(intros k' b' y Hin; eapply Hb; by right) Hs') as [Hs'' Ho'].
    split; [done|]. intros c. rewrite Ho', Ho. setoid_rewrite elem_of_cons. naive_solver.
Qed.

(** All pairs of elements with the same key, in list order. *)
Lemma for_buckets_collect {K} (lt : K -> K -> bool) `{!StrictTotal lt}
    (classify : A -> option K) (order : A -> A -> Prop) items s :
  (forall x y, order x y -> ~ order y x) -> StronglySorted order items ->
  (forall y, y ∈ items -> P y) -> I s ->
  I (for_buckets body (bucket_by lt classify items) s) /\
  forall c, obs (for_buckets body (bucket_by lt classify items) s) c <->
    obs s c \/ exists x y, before items x y /\ classify x <> None /\
                           classify x = classify y /\ R x y c.
Proof.
  intros Hasym Hsort HP Hs.
  destruct (for_bucket_list_collect (bucket_by lt classify items) s) as [Hs' Ho]; [|done|].
  { intros k b y ->%(bucket_by_elem lt) [_ Hy]%elem_of_filter. by apply HP. }
  split; [done|]. intros c. rewrite Ho. apply or_iff_compat_l.
  assert (forall k x y, before (List.filter (in_bucket lt classify k) items) x y <->
            before items x y /\ classify x = Some k /\ classify y = Some k) as Hb.
  { intros k x y.
    rewrite (before_sorted order items Hasym Hsort).
    rewrite (before_sorted order _ Hasym (StronglySorted_filter _ _ _ Hsort)).
    rewrite !elem_of_filter, !(in_bucket_iff lt). tauto. }
  split.
  - intros (k & b & x & y & ->%(bucket_by_elem lt) & Hbef & Hr).
    apply Hb in Hbef as (? & Hx & Hy). exists x, y. split_and!; [done|congruence|congruence|done].
  - intros (x & y & Hbef & Hn & Heq & Hr). destruct (classify x) as [k|] eqn:Ex; [|done].
    exists k, (List.filter (in_bucket lt classify k) items), x, y. split_and!; [|by apply Hb|done].
    eapply bucket_by_some; [done| |exact Ex]. by apply before_elem in Hbef as [? _].
Qed.
End Collect.

(** ** Groups

    Observations are grouped by a key, and a group keeps the set of the runs that made
    them: [group_item] is the body of such a loop, for groups of any form. *)
Section Groups.
Context {I K R V : Type} (ltk : K -> K -> bool) `{!StrictTotal ltk}.
Context (ltr : R -> R -> bool) `{!StrictTotal ltr}.
Context (key : I -> K) (run : I -> R) (make : I -> list R -> V) (runs : V -> list R).
Hypothesis runs_make : forall i s, runs (make i s) = s.

Definition group_runs (k : K) (groups : omap K V) : list R :=
  match map_find ltk k groups with Some g => runs g | None => [] end.

Definition group_item (groups : omap K V) (i : I) : omap K V :=
  map_set ltk (key i) (make i (set_insert ltr (run i) (group_runs (key i) groups))) groups.

(** The runs of the items with a key. *)
Definition runs_of_key (k : K) (items : list I) : list R :=
  set_of_list ltr (map run (List.filter (fun i => equiv_by ltk (key i) k) items)).

Lemma runs_of_key_snoc k items i :
  runs_of_key k (items ++ [i]) =
    if equiv_by ltk (key i) k then set_insert ltr (run i) (runs_of_key k items)
    else runs_of_key k items.
Proof.
  unfold runs_of_key. rewrite List.filter_app. cbn [List.filter].
  destruct (equiv_by ltk (key i) k); [|by rewrite app_nil_r].
  unfold set_of_list. by rewrite map_app, foldl_app.
Qed.

Lemma elem_of_runs_of_key k items r :
  r ∈ runs_of_key k items <-> exists i, i ∈ items /\ key i = k /\ run i = r.
Proof.
  unfold runs_of_key. rewrite elem_of_set_of_list, list_elem_of_fmap by done.
  setoid_rewrite elem_of_filter. setoid_rewrite equiv_by_eq; [|done]. naive_solver.
Qed.

Lemma group_items_spec items :
  (forall i j, i ∈ items -> j ∈ items -> key i = key j -> make i = make j) ->
  map_ok ltk (foldl group_item [] items) /\
  forall k g, map_find ltk k (foldl group_item [] items) = Some g <->
    exists i, i ∈ items /\ key i = k /\ g = make i (runs_of_key k items).
Proof.
  induction items as [|i items IH] using rev_ind; intros Hsame.
  { split; [constructor|]. intros k g. split; [done|]. by intros (i & ?%elem_of_nil & _). }
  destruct IH as [Hok IH]; [intros a b ? ?; apply Hsame; set_solver|].
  rewrite foldl_app. cbn [foldl]. set (groups := foldl group_item [] items) in *.
  split; [by apply map_ok_set|]. intros k g. unfold group_item. rewrite map_find_set by done.
  rewrite runs_of_key_snoc. destruct (equiv_by ltk (key i) k) eqn:E.
  - apply equiv_by_eq in E as <-; [|done].
    assert (group_runs (key i) groups = runs_of_key (key i) items) as Hruns.
    { unfold group_runs. destruct (map_find ltk (key i) groups) as [g'|] eqn:Eg.
      - apply IH in Eg as (j & _ & _ & ->). apply runs_make.
      - symmetry. destruct (runs_of_key (key i) items) as [|r rs] eqn:Er; [done|].
        assert (r ∈ runs_of_key (key i) items) as (j & Hj & Hk & _)%elem_of_runs_of_key
          by (rewrite Er; by left).
        assert (map_find ltk (key i) groups = Some (make j (runs_of_key (key i) items))) as Hf
          by (apply IH; by exists j). congruence. }
    rewrite Hruns. split.
    + intros [= <-]. exists i. split_and!; [apply elem_of_app; right; by left|done|done].
    + intros (j & Hj & Hk & ->). rewrite (Hsame j i); [done|done| |done].
      apply elem_of_app. right. by left.
  - rewrite IH. apply exist_proper. intros j. rewrite elem_of_app, list_elem_of_singleton.
    split; [tauto|]. intros ([Hj| ->] & Hk & Hg); [done|].
    by rewrite (proj2 (equiv_by_eq ltk (key i) k) Hk) in E.
Qed.

(** The order of the items does not matter. *)
Lemma group_items_perm items items' :
  (forall i j, i ∈ items -> j ∈ items -> key i = key j -> make i = make j) ->
  items ≡ₚ items' -> foldl group_item [] items = foldl group_item [] items'.
Proof.
  intros Hsame Hp.
  destruct (group_items_spec items Hsame) as [Hok Hf].
  destruct (group_items_spec items') as [Hok' Hf'].
  { intros i j. rewrite <- Hp. apply Hsame. }
  assert (forall k, runs_of_key k items' = runs_of_key k items) as Hr.
  { intros k. apply (StrictSorted_ext ltr); [apply set_of_list_sorted; done..|].
    intros r. rewrite !elem_of_runs_of_key. by setoid_rewrite Hp. }
  apply (map_ext ltk); [done..|]. intros k. apply option_eq. intros g.
  rewrite Hf, Hf', Hr. apply exist_proper. intros i.
  assert (i ∈ items <-> i ∈ items') as -> by (by rewrite Hp). done.
Qed.
End Groups.
