(* ===== verification/Ledger.v ===== *)
(** The contract between the evidence store and its clients: a ledger is a state
    that holds a set of facts, and adding a fact adds exactly the normal form
    that the ledger accepts for it.  Everything a client needs about repeated
    insertion and merging follows from the contract; [Store.v] shows that the
    store meets it. *)
From stdpp Require Import base numbers list strings option sets.
From S2P Require Import Prelude.

Class Ledger (S F : Type) := {
  ledger_ok : S -> Prop;
  ledger_input : F -> Prop;
  ledger_accept : F -> result F;
  ledger_facts : S -> list F;
  ledger_add : F -> S -> S;
  (** Equality of what the ledger shows. *)
  ledger_equiv : S -> S -> Prop;
  ledger_equiv_facts : forall s t, ledger_equiv s t -> ledger_facts s = ledger_facts t;
  ledger_ext : forall s t, ledger_ok s -> ledger_ok t ->
    (forall x, x ∈ ledger_facts s <-> x ∈ ledger_facts t) -> ledger_equiv s t;
  ledger_add_ok : forall s f, ledger_ok s -> ledger_input f -> ledger_ok (ledger_add f s);
  ledger_add_facts : forall s f x, ledger_ok s -> ledger_input f ->
    x ∈ ledger_facts (ledger_add f s) <-> ledger_accept f = Ok x \/ x ∈ ledger_facts s;
  (** A held fact is acceptable as it is. *)
  ledger_facts_input : forall s x, ledger_ok s -> x ∈ ledger_facts s ->
    ledger_input x /\ ledger_accept x = Ok x
}.

Section Clients.
Context {S F : Type} `{!Ledger S F}.
Implicit Types (s t : S) (f x : F) (l : list F).

Definition ledger_add_all (l : list F) (s : S) : S :=
  foldl (fun s f => ledger_add f s) s l.

Lemma ledger_add_all_ok l s :
  ledger_ok s -> Forall ledger_input l -> ledger_ok (ledger_add_all l s).
Proof.
  intros Hs Hl. revert s Hs. induction Hl as [|f l Hf Hl IH]; intros s Hs; [done|].
  cbn. by apply IH, ledger_add_ok.
Qed.

Lemma ledger_add_all_facts l s x :
  ledger_ok s -> Forall ledger_input l ->
  x ∈ ledger_facts (ledger_add_all l s) <->
  (exists f, f ∈ l /\ ledger_accept f = Ok x) \/ x ∈ ledger_facts s.
Proof.
  intros Hs Hl. revert s Hs. induction Hl as [|f l Hf Hl IH]; intros s Hs.
  - split; [by right|]. intros [(f & Hf & _)|]; [by apply elem_of_nil in Hf|done].
  - cbn. fold (ledger_add_all l (ledger_add f s)).
    rewrite IH by (by apply ledger_add_ok). rewrite ledger_add_facts by done.
    setoid_rewrite elem_of_cons. naive_solver.
Qed.

(** Insertions that offer the same acceptable facts lead to the same ledger. *)
Lemma ledger_order_independent l1 l2 s t :
  ledger_ok s -> ledger_ok t -> Forall ledger_input l1 -> Forall ledger_input l2 ->
  ledger_equiv s t ->
  (forall x, (exists f, f ∈ l1 /\ ledger_accept f = Ok x) <->
             (exists f, f ∈ l2 /\ ledger_accept f = Ok x)) ->
  ledger_equiv (ledger_add_all l1 s) (ledger_add_all l2 t).
Proof.
  intros Hs Ht H1 H2 Hst Hacc. apply ledger_ext; [by apply ledger_add_all_ok..|].
  intros x. rewrite !ledger_add_all_facts by done.
  by rewrite Hacc, (ledger_equiv_facts _ _ Hst).
Qed.

Lemma ledger_facts_inputs s : ledger_ok s -> Forall ledger_input (ledger_facts s).
Proof. intros Hs. apply Forall_forall. intros x Hx. by eapply ledger_facts_input. Qed.

(** Adding all facts of one ledger to another gives the union. *)
Lemma ledger_merge_facts s t x :
  ledger_ok s -> ledger_ok t ->
  x ∈ ledger_facts (ledger_add_all (ledger_facts t) s) <->
  x ∈ ledger_facts s \/ x ∈ ledger_facts t.
Proof.
  intros Hs Ht. rewrite ledger_add_all_facts by (done || by apply ledger_facts_inputs).
  split; [|intros [?|Hx]; [by right|left]].
  - intros [(f & Hf & Ha)|?]; [|by left]. right.
    destruct (ledger_facts_input _ _ Ht Hf) as [_ Ha']. congruence.
  - exists x. split; [done|]. by apply (ledger_facts_input t).
Qed.

Lemma ledger_merge_ok s t :
  ledger_ok s -> ledger_ok t -> ledger_ok (ledger_add_all (ledger_facts t) s).
Proof. intros. by apply ledger_add_all_ok, ledger_facts_inputs. Qed.

Lemma ledger_merge_comm s t :
  ledger_ok s -> ledger_ok t ->
  ledger_equiv (ledger_add_all (ledger_facts t) s) (ledger_add_all (ledger_facts s) t).
Proof.
  intros Hs Ht. apply ledger_ext; [by apply ledger_merge_ok..|]. intros x.
  rewrite !ledger_merge_facts by done. tauto.
Qed.

Lemma ledger_merge_assoc s t u :
  ledger_ok s -> ledger_ok t -> ledger_ok u ->
  ledger_equiv (ledger_add_all (ledger_facts u) (ledger_add_all (ledger_facts t) s))
               (ledger_add_all (ledger_facts (ledger_add_all (ledger_facts u) t)) s).
Proof.
  intros Hs Ht Hu. apply ledger_ext; [by repeat apply ledger_merge_ok..|]. intros x.
  rewrite !ledger_merge_facts by (by repeat apply ledger_merge_ok). tauto.
Qed.

Lemma ledger_merge_absorb s t :
  ledger_ok s -> ledger_ok t -> (forall x, x ∈ ledger_facts t -> x ∈ ledger_facts s) ->
  ledger_equiv (ledger_add_all (ledger_facts t) s) s.
Proof.
  intros Hs Ht Hsub. apply ledger_ext; [by apply ledger_merge_ok|done|]. intros x.
  rewrite ledger_merge_facts by done. naive_solver.
Qed.
End Clients.
