(* ===== verification/FactTypes.v ===== *)
(** The data of [src/src/analysis_facts.hpp]: the enumerations, the fact
    payloads, the evidence attached to them, and the ranges their C++ types
    impose ([*_typed]). *)
From stdpp Require Import base numbers list strings option sets.
From Stdlib Require Import ZArith Init.Byte Lia.
From S2P Require Import Prelude.

Definition kMaxConfidence : Z := 10000.

(** ** Enumerations *)

Inductive FactKind : Set :=
  | FactKind_CodeTarget | FactKind_BranchReachability | FactKind_MemoryAccess
  | FactKind_MemoryValue | FactKind_StringCandidate | FactKind_FunctionCandidate
  | FactKind_FunctionTrait | FactKind_CodeRegion | FactKind_DispatchMap
  | FactKind_CfgCandidate | FactKind_FunctionOutcome | FactKind_RegisterValue
  | FactKind_CallObservation | FactKind_Invalid.
Definition FactKind_to_u8 (e : FactKind) : Z :=
  match e with
  | FactKind_CodeTarget => 1
  | FactKind_BranchReachability => 2
  | FactKind_MemoryAccess => 3
  | FactKind_MemoryValue => 4
  | FactKind_StringCandidate => 5
  | FactKind_FunctionCandidate => 6
  | FactKind_FunctionTrait => 7
  | FactKind_CodeRegion => 8
  | FactKind_DispatchMap => 9
  | FactKind_CfgCandidate => 10
  | FactKind_FunctionOutcome => 11
  | FactKind_RegisterValue => 12
  | FactKind_CallObservation => 13
  | FactKind_Invalid => 255
  end.
Definition FactKind_of_u8 (v : Z) : FactKind :=
  match v with
  | 1 => FactKind_CodeTarget
  | 2 => FactKind_BranchReachability
  | 3 => FactKind_MemoryAccess
  | 4 => FactKind_MemoryValue
  | 5 => FactKind_StringCandidate
  | 6 => FactKind_FunctionCandidate
  | 7 => FactKind_FunctionTrait
  | 8 => FactKind_CodeRegion
  | 9 => FactKind_DispatchMap
  | 10 => FactKind_CfgCandidate
  | 11 => FactKind_FunctionOutcome
  | 12 => FactKind_RegisterValue
  | 13 => FactKind_CallObservation
  | _ => FactKind_Invalid
  end.
#[export] Instance FactKind_eq_dec : EqDecision FactKind.
Proof. solve_decision. Defined.
#[export] Program Instance FactKind_enum : Enum8 FactKind :=
  { to_u8 := FactKind_to_u8; of_u8 := FactKind_of_u8 }.
Next Obligation. by intros []. Qed.
Next Obligation. by intros []. Qed.

Inductive ProofKind : Set :=
  | ProofKind_Unknown | ProofKind_Observed | ProofKind_StaticProof | ProofKind_SymbolicProof
  | ProofKind_CrossRunCorroboration | ProofKind_Heuristic | ProofKind_Imported
  | ProofKind_UserAsserted | ProofKind_Invalid.
Definition ProofKind_to_u8 (e : ProofKind) : Z :=
  match e with
  | ProofKind_Unknown => 0
  | ProofKind_Observed => 1
  | ProofKind_StaticProof => 2
  | ProofKind_SymbolicProof => 3
  | ProofKind_CrossRunCorroboration => 4
  | ProofKind_Heuristic => 5
  | ProofKind_Imported => 6
  | ProofKind_UserAsserted => 7
  | ProofKind_Invalid => 255
  end.
Definition ProofKind_of_u8 (v : Z) : ProofKind :=
  match v with
  | 0 => ProofKind_Unknown
  | 1 => ProofKind_Observed
  | 2 => ProofKind_StaticProof
  | 3 => ProofKind_SymbolicProof
  | 4 => ProofKind_CrossRunCorroboration
  | 5 => ProofKind_Heuristic
  | 6 => ProofKind_Imported
  | 7 => ProofKind_UserAsserted
  | _ => ProofKind_Invalid
  end.
#[export] Instance ProofKind_eq_dec : EqDecision ProofKind.
Proof. solve_decision. Defined.
#[export] Program Instance ProofKind_enum : Enum8 ProofKind :=
  { to_u8 := ProofKind_to_u8; of_u8 := ProofKind_of_u8 }.
Next Obligation. by intros []. Qed.
Next Obligation. by intros []. Qed.

Inductive CodeTargetKind : Set :=
  | CodeTargetKind_Unknown | CodeTargetKind_Call | CodeTargetKind_Jump
  | CodeTargetKind_Fallthrough | CodeTargetKind_Return | CodeTargetKind_TableEntry
  | CodeTargetKind_Exception | CodeTargetKind_Invalid.
Definition CodeTargetKind_to_u8 (e : CodeTargetKind) : Z :=
  match e with
  | CodeTargetKind_Unknown => 0
  | CodeTargetKind_Call => 1
  | CodeTargetKind_Jump => 2
  | CodeTargetKind_Fallthrough => 3
  | CodeTargetKind_Return => 4
  | CodeTargetKind_TableEntry => 5
  | CodeTargetKind_Exception => 6
  | CodeTargetKind_Invalid => 255
  end.
Definition CodeTargetKind_of_u8 (v : Z) : CodeTargetKind :=
  match v with
  | 0 => CodeTargetKind_Unknown
  | 1 => CodeTargetKind_Call
  | 2 => CodeTargetKind_Jump
  | 3 => CodeTargetKind_Fallthrough
  | 4 => CodeTargetKind_Return
  | 5 => CodeTargetKind_TableEntry
  | 6 => CodeTargetKind_Exception
  | _ => CodeTargetKind_Invalid
  end.
#[export] Instance CodeTargetKind_eq_dec : EqDecision CodeTargetKind.
Proof. solve_decision. Defined.
#[export] Program Instance CodeTargetKind_enum : Enum8 CodeTargetKind :=
  { to_u8 := CodeTargetKind_to_u8; of_u8 := CodeTargetKind_of_u8 }.
Next Obligation. by intros []. Qed.
Next Obligation. by intros []. Qed.

Inductive Reachability : Set :=
  | Reachability_NotObserved | Reachability_Reached | Reachability_ProvenUnreachable
  | Reachability_Invalid.
Definition Reachability_to_u8 (e : Reachability) : Z :=
  match e with
  | Reachability_NotObserved => 0
  | Reachability_Reached => 1
  | Reachability_ProvenUnreachable => 2
  | Reachability_Invalid => 255
  end.
Definition Reachability_of_u8 (v : Z) : Reachability :=
  match v with
  | 0 => Reachability_NotObserved
  | 1 => Reachability_Reached
  | 2 => Reachability_ProvenUnreachable
  | _ => Reachability_Invalid
  end.
#[export] Instance Reachability_eq_dec : EqDecision Reachability.
Proof. solve_decision. Defined.
#[export] Program Instance Reachability_enum : Enum8 Reachability :=
  { to_u8 := Reachability_to_u8; of_u8 := Reachability_of_u8 }.
Next Obligation. by intros []. Qed.
Next Obligation. by intros []. Qed.

Inductive MemoryAccessKind : Set :=
  | MemoryAccessKind_Read | MemoryAccessKind_Write | MemoryAccessKind_Execute
  | MemoryAccessKind_ReadWrite | MemoryAccessKind_Invalid.
Definition MemoryAccessKind_to_u8 (e : MemoryAccessKind) : Z :=
  match e with
  | MemoryAccessKind_Read => 1
  | MemoryAccessKind_Write => 2
  | MemoryAccessKind_Execute => 3
  | MemoryAccessKind_ReadWrite => 4
  | MemoryAccessKind_Invalid => 255
  end.
Definition MemoryAccessKind_of_u8 (v : Z) : MemoryAccessKind :=
  match v with
  | 1 => MemoryAccessKind_Read
  | 2 => MemoryAccessKind_Write
  | 3 => MemoryAccessKind_Execute
  | 4 => MemoryAccessKind_ReadWrite
  | _ => MemoryAccessKind_Invalid
  end.
#[export] Instance MemoryAccessKind_eq_dec : EqDecision MemoryAccessKind.
Proof. solve_decision. Defined.
#[export] Program Instance MemoryAccessKind_enum : Enum8 MemoryAccessKind :=
  { to_u8 := MemoryAccessKind_to_u8; of_u8 := MemoryAccessKind_of_u8 }.
Next Obligation. by intros []. Qed.
Next Obligation. by intros []. Qed.

Inductive StringEncoding : Set :=
  | StringEncoding_Bytes | StringEncoding_Ascii | StringEncoding_Utf8
  | StringEncoding_Utf16LE | StringEncoding_Utf16BE | StringEncoding_Utf32LE
  | StringEncoding_Utf32BE | StringEncoding_Invalid.
Definition StringEncoding_to_u8 (e : StringEncoding) : Z :=
  match e with
  | StringEncoding_Bytes => 0
  | StringEncoding_Ascii => 1
  | StringEncoding_Utf8 => 2
  | StringEncoding_Utf16LE => 3
  | StringEncoding_Utf16BE => 4
  | StringEncoding_Utf32LE => 5
  | StringEncoding_Utf32BE => 6
  | StringEncoding_Invalid => 255
  end.
Definition StringEncoding_of_u8 (v : Z) : StringEncoding :=
  match v with
  | 0 => StringEncoding_Bytes
  | 1 => StringEncoding_Ascii
  | 2 => StringEncoding_Utf8
  | 3 => StringEncoding_Utf16LE
  | 4 => StringEncoding_Utf16BE
  | 5 => StringEncoding_Utf32LE
  | 6 => StringEncoding_Utf32BE
  | _ => StringEncoding_Invalid
  end.
#[export] Instance StringEncoding_eq_dec : EqDecision StringEncoding.
Proof. solve_decision. Defined.
#[export] Program Instance StringEncoding_enum : Enum8 StringEncoding :=
  { to_u8 := StringEncoding_to_u8; of_u8 := StringEncoding_of_u8 }.
Next Obligation. by intros []. Qed.
Next Obligation. by intros []. Qed.

Inductive FunctionCandidateKind : Set :=
  | FunctionCandidateKind_Other | FunctionCandidateKind_EntryPoint
  | FunctionCandidateKind_CallTarget | FunctionCandidateKind_Prologue
  | FunctionCandidateKind_OrphanChunk | FunctionCandidateKind_ExceptionHandler
  | FunctionCandidateKind_Export | FunctionCandidateKind_UserAsserted
  | FunctionCandidateKind_Invalid.
Definition FunctionCandidateKind_to_u8 (e : FunctionCandidateKind) : Z :=
  match e with
  | FunctionCandidateKind_Other => 0
  | FunctionCandidateKind_EntryPoint => 1
  | FunctionCandidateKind_CallTarget => 2
  | FunctionCandidateKind_Prologue => 3
  | FunctionCandidateKind_OrphanChunk => 4
  | FunctionCandidateKind_ExceptionHandler => 5
  | FunctionCandidateKind_Export => 6
  | FunctionCandidateKind_UserAsserted => 7
  | FunctionCandidateKind_Invalid => 255
  end.
Definition FunctionCandidateKind_of_u8 (v : Z) : FunctionCandidateKind :=
  match v with
  | 0 => FunctionCandidateKind_Other
  | 1 => FunctionCandidateKind_EntryPoint
  | 2 => FunctionCandidateKind_CallTarget
  | 3 => FunctionCandidateKind_Prologue
  | 4 => FunctionCandidateKind_OrphanChunk
  | 5 => FunctionCandidateKind_ExceptionHandler
  | 6 => FunctionCandidateKind_Export
  | 7 => FunctionCandidateKind_UserAsserted
  | _ => FunctionCandidateKind_Invalid
  end.
#[export] Instance FunctionCandidateKind_eq_dec : EqDecision FunctionCandidateKind.
Proof. solve_decision. Defined.
#[export] Program Instance FunctionCandidateKind_enum : Enum8 FunctionCandidateKind :=
  { to_u8 := FunctionCandidateKind_to_u8; of_u8 := FunctionCandidateKind_of_u8 }.
Next Obligation. by intros []. Qed.
Next Obligation. by intros []. Qed.

Inductive FunctionTraitKind : Set :=
  | FunctionTraitKind_Other | FunctionTraitKind_Returns | FunctionTraitKind_NoReturn
  | FunctionTraitKind_StackDelta | FunctionTraitKind_ArgumentRegister
  | FunctionTraitKind_ReturnConstant | FunctionTraitKind_WrapperTarget
  | FunctionTraitKind_Leaf | FunctionTraitKind_Thunk | FunctionTraitKind_CallingConvention
  | FunctionTraitKind_Invalid.
Definition FunctionTraitKind_to_u8 (e : FunctionTraitKind) : Z :=
  match e with
  | FunctionTraitKind_Other => 0
  | FunctionTraitKind_Returns => 1
  | FunctionTraitKind_NoReturn => 2
  | FunctionTraitKind_StackDelta => 3
  | FunctionTraitKind_ArgumentRegister => 4
  | FunctionTraitKind_ReturnConstant => 5
  | FunctionTraitKind_WrapperTarget => 6
  | FunctionTraitKind_Leaf => 7
  | FunctionTraitKind_Thunk => 8
  | FunctionTraitKind_CallingConvention => 9
  | FunctionTraitKind_Invalid => 255
  end.
Definition FunctionTraitKind_of_u8 (v : Z) : FunctionTraitKind :=
  match v with
  | 0 => FunctionTraitKind_Other
  | 1 => FunctionTraitKind_Returns
  | 2 => FunctionTraitKind_NoReturn
  | 3 => FunctionTraitKind_StackDelta
  | 4 => FunctionTraitKind_ArgumentRegister
  | 5 => FunctionTraitKind_ReturnConstant
  | 6 => FunctionTraitKind_WrapperTarget
  | 7 => FunctionTraitKind_Leaf
  | 8 => FunctionTraitKind_Thunk
  | 9 => FunctionTraitKind_CallingConvention
  | _ => FunctionTraitKind_Invalid
  end.
#[export] Instance FunctionTraitKind_eq_dec : EqDecision FunctionTraitKind.
Proof. solve_decision. Defined.
#[export] Program Instance FunctionTraitKind_enum : Enum8 FunctionTraitKind :=
  { to_u8 := FunctionTraitKind_to_u8; of_u8 := FunctionTraitKind_of_u8 }.
Next Obligation. by intros []. Qed.
Next Obligation. by intros []. Qed.

Inductive TraitValueKind : Set :=
  | TraitValueKind_None | TraitValueKind_Signed | TraitValueKind_Unsigned
  | TraitValueKind_Boolean | TraitValueKind_Text | TraitValueKind_Invalid.
Definition TraitValueKind_to_u8 (e : TraitValueKind) : Z :=
  match e with
  | TraitValueKind_None => 0
  | TraitValueKind_Signed => 1
  | TraitValueKind_Unsigned => 2
  | TraitValueKind_Boolean => 3
  | TraitValueKind_Text => 4
  | TraitValueKind_Invalid => 255
  end.
Definition TraitValueKind_of_u8 (v : Z) : TraitValueKind :=
  match v with
  | 0 => TraitValueKind_None
  | 1 => TraitValueKind_Signed
  | 2 => TraitValueKind_Unsigned
  | 3 => TraitValueKind_Boolean
  | 4 => TraitValueKind_Text
  | _ => TraitValueKind_Invalid
  end.
#[export] Instance TraitValueKind_eq_dec : EqDecision TraitValueKind.
Proof. solve_decision. Defined.
#[export] Program Instance TraitValueKind_enum : Enum8 TraitValueKind :=
  { to_u8 := TraitValueKind_to_u8; of_u8 := TraitValueKind_of_u8 }.
Next Obligation. by intros []. Qed.
Next Obligation. by intros []. Qed.

Inductive CodeRegionKind : Set :=
  | CodeRegionKind_Unknown | CodeRegionKind_Code | CodeRegionKind_Data
  | CodeRegionKind_Mixed | CodeRegionKind_Padding | CodeRegionKind_Invalid.
Definition CodeRegionKind_to_u8 (e : CodeRegionKind) : Z :=
  match e with
  | CodeRegionKind_Unknown => 0
  | CodeRegionKind_Code => 1
  | CodeRegionKind_Data => 2
  | CodeRegionKind_Mixed => 3
  | CodeRegionKind_Padding => 4
  | CodeRegionKind_Invalid => 255
  end.
Definition CodeRegionKind_of_u8 (v : Z) : CodeRegionKind :=
  match v with
  | 0 => CodeRegionKind_Unknown
  | 1 => CodeRegionKind_Code
  | 2 => CodeRegionKind_Data
  | 3 => CodeRegionKind_Mixed
  | 4 => CodeRegionKind_Padding
  | _ => CodeRegionKind_Invalid
  end.
#[export] Instance CodeRegionKind_eq_dec : EqDecision CodeRegionKind.
Proof. solve_decision. Defined.
#[export] Program Instance CodeRegionKind_enum : Enum8 CodeRegionKind :=
  { to_u8 := CodeRegionKind_to_u8; of_u8 := CodeRegionKind_of_u8 }.
Next Obligation. by intros []. Qed.
Next Obligation. by intros []. Qed.

Inductive CfgEdgeKind : Set :=
  | CfgEdgeKind_Unknown | CfgEdgeKind_Fallthrough | CfgEdgeKind_TrueBranch
  | CfgEdgeKind_FalseBranch | CfgEdgeKind_Call | CfgEdgeKind_Return | CfgEdgeKind_Exception
  | CfgEdgeKind_Indirect | CfgEdgeKind_Invalid.
Definition CfgEdgeKind_to_u8 (e : CfgEdgeKind) : Z :=
  match e with
  | CfgEdgeKind_Unknown => 0
  | CfgEdgeKind_Fallthrough => 1
  | CfgEdgeKind_TrueBranch => 2
  | CfgEdgeKind_FalseBranch => 3
  | CfgEdgeKind_Call => 4
  | CfgEdgeKind_Return => 5
  | CfgEdgeKind_Exception => 6
  | CfgEdgeKind_Indirect => 7
  | CfgEdgeKind_Invalid => 255
  end.
Definition CfgEdgeKind_of_u8 (v : Z) : CfgEdgeKind :=
  match v with
  | 0 => CfgEdgeKind_Unknown
  | 1 => CfgEdgeKind_Fallthrough
  | 2 => CfgEdgeKind_TrueBranch
  | 3 => CfgEdgeKind_FalseBranch
  | 4 => CfgEdgeKind_Call
  | 5 => CfgEdgeKind_Return
  | 6 => CfgEdgeKind_Exception
  | 7 => CfgEdgeKind_Indirect
  | _ => CfgEdgeKind_Invalid
  end.
#[export] Instance CfgEdgeKind_eq_dec : EqDecision CfgEdgeKind.
Proof. solve_decision. Defined.
#[export] Program Instance CfgEdgeKind_enum : Enum8 CfgEdgeKind :=
  { to_u8 := CfgEdgeKind_to_u8; of_u8 := CfgEdgeKind_of_u8 }.
Next Obligation. by intros []. Qed.
Next Obligation. by intros []. Qed.

Inductive FunctionStopKind : Set :=
  | FunctionStopKind_Unknown | FunctionStopKind_Returned | FunctionStopKind_Halted
  | FunctionStopKind_Faulted | FunctionStopKind_TimedOut | FunctionStopKind_BudgetExhausted
  | FunctionStopKind_EscapedFunction | FunctionStopKind_TerminatedProcess
  | FunctionStopKind_Invalid.
Definition FunctionStopKind_to_u8 (e : FunctionStopKind) : Z :=
  match e with
  | FunctionStopKind_Unknown => 0
  | FunctionStopKind_Returned => 1
  | FunctionStopKind_Halted => 2
  | FunctionStopKind_Faulted => 3
  | FunctionStopKind_TimedOut => 4
  | FunctionStopKind_BudgetExhausted => 5
  | FunctionStopKind_EscapedFunction => 6
  | FunctionStopKind_TerminatedProcess => 7
  | FunctionStopKind_Invalid => 255
  end.
Definition FunctionStopKind_of_u8 (v : Z) : FunctionStopKind :=
  match v with
  | 0 => FunctionStopKind_Unknown
  | 1 => FunctionStopKind_Returned
  | 2 => FunctionStopKind_Halted
  | 3 => FunctionStopKind_Faulted
  | 4 => FunctionStopKind_TimedOut
  | 5 => FunctionStopKind_BudgetExhausted
  | 6 => FunctionStopKind_EscapedFunction
  | 7 => FunctionStopKind_TerminatedProcess
  | _ => FunctionStopKind_Invalid
  end.
#[export] Instance FunctionStopKind_eq_dec : EqDecision FunctionStopKind.
Proof. solve_decision. Defined.
#[export] Program Instance FunctionStopKind_enum : Enum8 FunctionStopKind :=
  { to_u8 := FunctionStopKind_to_u8; of_u8 := FunctionStopKind_of_u8 }.
Next Obligation. by intros []. Qed.
Next Obligation. by intros []. Qed.

Inductive RegisterStatePoint : Set :=
  | RegisterStatePoint_BeforeInstruction | RegisterStatePoint_AfterInstruction
  | RegisterStatePoint_FunctionEntry | RegisterStatePoint_FunctionExit
  | RegisterStatePoint_CallEntry | RegisterStatePoint_CallReturn
  | RegisterStatePoint_Invalid.
Definition RegisterStatePoint_to_u8 (e : RegisterStatePoint) : Z :=
  match e with
  | RegisterStatePoint_BeforeInstruction => 1
  | RegisterStatePoint_AfterInstruction => 2
  | RegisterStatePoint_FunctionEntry => 3
  | RegisterStatePoint_FunctionExit => 4
  | RegisterStatePoint_CallEntry => 5
  | RegisterStatePoint_CallReturn => 6
  | RegisterStatePoint_Invalid => 255
  end.
Definition RegisterStatePoint_of_u8 (v : Z) : RegisterStatePoint :=
  match v with
  | 1 => RegisterStatePoint_BeforeInstruction
  | 2 => RegisterStatePoint_AfterInstruction
  | 3 => RegisterStatePoint_FunctionEntry
  | 4 => RegisterStatePoint_FunctionExit
  | 5 => RegisterStatePoint_CallEntry
  | 6 => RegisterStatePoint_CallReturn
  | _ => RegisterStatePoint_Invalid
  end.
#[export] Instance RegisterStatePoint_eq_dec : EqDecision RegisterStatePoint.
Proof. solve_decision. Defined.
#[export] Program Instance RegisterStatePoint_enum : Enum8 RegisterStatePoint :=
  { to_u8 := RegisterStatePoint_to_u8; of_u8 := RegisterStatePoint_of_u8 }.
Next Obligation. by intros []. Qed.
Next Obligation. by intros []. Qed.

Inductive CallKind : Set :=
  | CallKind_Unknown | CallKind_Call | CallKind_TailCall | CallKind_SystemCall
  | CallKind_ImportedCall | CallKind_Invalid.
Definition CallKind_to_u8 (e : CallKind) : Z :=
  match e with
  | CallKind_Unknown => 0
  | CallKind_Call => 1
  | CallKind_TailCall => 2
  | CallKind_SystemCall => 3
  | CallKind_ImportedCall => 4
  | CallKind_Invalid => 255
  end.
Definition CallKind_of_u8 (v : Z) : CallKind :=
  match v with
  | 0 => CallKind_Unknown
  | 1 => CallKind_Call
  | 2 => CallKind_TailCall
  | 3 => CallKind_SystemCall
  | 4 => CallKind_ImportedCall
  | _ => CallKind_Invalid
  end.
#[export] Instance CallKind_eq_dec : EqDecision CallKind.
Proof. solve_decision. Defined.
#[export] Program Instance CallKind_enum : Enum8 CallKind :=
  { to_u8 := CallKind_to_u8; of_u8 := CallKind_of_u8 }.
Next Obligation. by intros []. Qed.
Next Obligation. by intros []. Qed.

Inductive CallResult : Set :=
  | CallResult_Unknown | CallResult_Returned | CallResult_NoReturn | CallResult_Faulted
  | CallResult_TimedOut | CallResult_Invalid.
Definition CallResult_to_u8 (e : CallResult) : Z :=
  match e with
  | CallResult_Unknown => 0
  | CallResult_Returned => 1
  | CallResult_NoReturn => 2
  | CallResult_Faulted => 3
  | CallResult_TimedOut => 4
  | CallResult_Invalid => 255
  end.
Definition CallResult_of_u8 (v : Z) : CallResult :=
  match v with
  | 0 => CallResult_Unknown
  | 1 => CallResult_Returned
  | 2 => CallResult_NoReturn
  | 3 => CallResult_Faulted
  | 4 => CallResult_TimedOut
  | _ => CallResult_Invalid
  end.
#[export] Instance CallResult_eq_dec : EqDecision CallResult.
Proof. solve_decision. Defined.
#[export] Program Instance CallResult_enum : Enum8 CallResult :=
  { to_u8 := CallResult_to_u8; of_u8 := CallResult_of_u8 }.
Next Obligation. by intros []. Qed.
Next Obligation. by intros []. Qed.

(** ** Evidence *)

Notation Address := Z.

Record EvidenceScope := {
  sc_run_id : option Z;
  sc_seed : option Z;
  sc_function_start : option Address;
  sc_function_end : option Address;
  sc_generation : Z
}.

Record Evidence := {
  ev_producer : string;
  ev_method : string;
  ev_proof : ProofKind;
  ev_confidence : Z;
  ev_scope : EvidenceScope;
  ev_support_addresses : list Address;
  ev_detail : string
}.

(** ** Fact payloads *)

Record CodeTargetFact := {
  ct_from : Address;
  ct_target : Address;
  ct_kind : CodeTargetKind;
  ct_unique : bool
}.

Record BranchReachabilityFact := {
  br_branch : Address;
  br_successor : Address;
  br_state : Reachability
}.

Record MemoryAccessFact := {
  ma_instruction : Address;
  ma_address : Address;
  ma_size : Z;
  ma_kind : MemoryAccessKind
}.

Record MemoryValueFact := {
  mv_instruction : Address;
  mv_address : Address;
  mv_kind : MemoryAccessKind;
  mv_bytes : bytes
}.

Record StringCandidateFact := {
  sf_address : Address;
  sf_encoding : StringEncoding;
  sf_bytes : bytes;
  sf_decoded : string;
  sf_null_terminated : bool
}.

Record FunctionCandidateFact := {
  fc_entry : Address;
  fc_end : option Address;
  fc_kind : FunctionCandidateKind
}.

Record TraitValue := {
  tv_kind : TraitValueKind;
  tv_signed_value : Z;
  tv_unsigned_value : Z;
  tv_boolean_value : bool;
  tv_text_value : string
}.

Record FunctionTraitFact := {
  ft_function : Address;
  ft_trait : FunctionTraitKind;
  ft_value : TraitValue
}.

Record CodeRegionFact := {
  cr_start : Address;
  cr_end : Address;
  cr_kind : CodeRegionKind
}.

Record DispatchCase := {
  dc_selector : option Z;
  dc_target : Address
}.

Record DispatchMapFact := {
  dm_site : Address;
  dm_cases : list DispatchCase;
  dm_default_target : option Address;
  dm_complete : bool
}.

Record CfgCandidateFact := {
  cfg_from : Address;
  cfg_to : Address;
  cfg_kind : CfgEdgeKind;
  cfg_state : Reachability
}.

Record FunctionOutcomeFact := {
  fo_function : Address;
  fo_stop : FunctionStopKind;
  fo_stop_pc : option Address;
  fo_stack_delta : option Z;
  fo_instruction_count : option Z
}.

Record RegisterValueFact := {
  rv_instruction : Address;
  rv_point : RegisterStatePoint;
  rv_register_id : string;
  rv_bytes : bytes
}.

Record CallValue := {
  cv_ordinal : Z;
  cv_location : string;
  cv_bytes : bytes
}.

Record CallObservationFact := {
  co_source : Address;
  co_target : option Address;
  co_kind : CallKind;
  co_result : CallResult;
  co_arguments : list CallValue;
  co_returns : list CallValue
}.

(** [std::variant] of the thirteen alternatives. *)
Inductive FactPayload : Set :=
  | P_CodeTarget (fact : CodeTargetFact)
  | P_BranchReachability (fact : BranchReachabilityFact)
  | P_MemoryAccess (fact : MemoryAccessFact)
  | P_MemoryValue (fact : MemoryValueFact)
  | P_StringCandidate (fact : StringCandidateFact)
  | P_FunctionCandidate (fact : FunctionCandidateFact)
  | P_FunctionTrait (fact : FunctionTraitFact)
  | P_CodeRegion (fact : CodeRegionFact)
  | P_DispatchMap (fact : DispatchMapFact)
  | P_CfgCandidate (fact : CfgCandidateFact)
  | P_FunctionOutcome (fact : FunctionOutcomeFact)
  | P_RegisterValue (fact : RegisterValueFact)
  | P_CallObservation (fact : CallObservationFact).

Record AnalysisFact := {
  af_payload : FactPayload;
  af_evidence : Evidence
}.

Record FactCodecLimits := {
  max_fact_bytes : Z;
  max_string_bytes : Z;
  max_vector_items : Z
}.

Definition default_limits : FactCodecLimits :=
  {| max_fact_bytes := 4 * 1024 * 1024;
     max_string_bytes := 1 * 1024 * 1024;
     max_vector_items := 1 * 1024 * 1024 |}.

Definition fact_kind (payload : FactPayload) : FactKind :=
  match payload with
  | P_CodeTarget _ => FactKind_CodeTarget
  | P_BranchReachability _ => FactKind_BranchReachability
  | P_MemoryAccess _ => FactKind_MemoryAccess
  | P_MemoryValue _ => FactKind_MemoryValue
  | P_StringCandidate _ => FactKind_StringCandidate
  | P_FunctionCandidate _ => FactKind_FunctionCandidate
  | P_FunctionTrait _ => FactKind_FunctionTrait
  | P_CodeRegion _ => FactKind_CodeRegion
  | P_DispatchMap _ => FactKind_DispatchMap
  | P_CfgCandidate _ => FactKind_CfgCandidate
  | P_FunctionOutcome _ => FactKind_FunctionOutcome
  | P_RegisterValue _ => FactKind_RegisterValue
  | P_CallObservation _ => FactKind_CallObservation
  end.

Definition fact_kind_name (kind : FactKind) : string :=
  match kind with
  | FactKind_CodeTarget => "CodeTarget"
  | FactKind_BranchReachability => "BranchReachability"
  | FactKind_MemoryAccess => "MemoryAccess"
  | FactKind_MemoryValue => "MemoryValue"
  | FactKind_StringCandidate => "StringCandidate"
  | FactKind_FunctionCandidate => "FunctionCandidate"
  | FactKind_FunctionTrait => "FunctionTrait"
  | FactKind_CodeRegion => "CodeRegion"
  | FactKind_DispatchMap => "DispatchMap"
  | FactKind_CfgCandidate => "CfgCandidate"
  | FactKind_FunctionOutcome => "FunctionOutcome"
  | FactKind_RegisterValue => "RegisterValue"
  | FactKind_CallObservation => "CallObservation"
  | FactKind_Invalid => "Invalid"
  end.

(** The [TraitValue] factories. *)
Definition trait_none : TraitValue :=
  {| tv_kind := TraitValueKind_None; tv_signed_value := 0; tv_unsigned_value := 0;
     tv_boolean_value := false; tv_text_value := "" |}.
Definition trait_signed_integer (value : Z) : TraitValue :=
  {| tv_kind := TraitValueKind_Signed; tv_signed_value := value; tv_unsigned_value := 0;
     tv_boolean_value := false; tv_text_value := "" |}.
Definition trait_unsigned_integer (value : Z) : TraitValue :=
  {| tv_kind := TraitValueKind_Unsigned; tv_signed_value := 0; tv_unsigned_value := value;
     tv_boolean_value := false; tv_text_value := "" |}.
Definition trait_boolean (value : bool) : TraitValue :=
  {| tv_kind := TraitValueKind_Boolean; tv_signed_value := 0; tv_unsigned_value := 0;
     tv_boolean_value := value; tv_text_value := "" |}.
Definition trait_text (value : string) : TraitValue :=
  {| tv_kind := TraitValueKind_Text; tv_signed_value := 0; tv_unsigned_value := 0;
     tv_boolean_value := false; tv_text_value := value |}.

(** ** Decidable equality *)

#[export] Instance EvidenceScope_eq_dec : EqDecision EvidenceScope.
Proof. solve_decision. Defined.
#[export] Instance Evidence_eq_dec : EqDecision Evidence.
Proof. solve_decision. Defined.
#[export] Instance CodeTargetFact_eq_dec : EqDecision CodeTargetFact.
Proof. solve_decision. Defined.
#[export] Instance BranchReachabilityFact_eq_dec : EqDecision BranchReachabilityFact.
Proof. solve_decision. Defined.
#[export] Instance MemoryAccessFact_eq_dec : EqDecision MemoryAccessFact.
Proof. solve_decision. Defined.
#[export] Instance MemoryValueFact_eq_dec : EqDecision MemoryValueFact.
Proof. solve_decision. Defined.
#[export] Instance StringCandidateFact_eq_dec : EqDecision StringCandidateFact.
Proof. solve_decision. Defined.
#[export] Instance FunctionCandidateFact_eq_dec : EqDecision FunctionCandidateFact.
Proof. solve_decision. Defined.
#[export] Instance TraitValue_eq_dec : EqDecision TraitValue.
Proof. solve_decision. Defined.
#[export] Instance FunctionTraitFact_eq_dec : EqDecision FunctionTraitFact.
Proof. solve_decision. Defined.
#[export] Instance CodeRegionFact_eq_dec : EqDecision CodeRegionFact.
Proof. solve_decision. Defined.
#[export] Instance DispatchCase_eq_dec : EqDecision DispatchCase.
Proof. solve_decision. Defined.
#[export] Instance DispatchMapFact_eq_dec : EqDecision DispatchMapFact.
Proof. solve_decision. Defined.
#[export] Instance CfgCandidateFact_eq_dec : EqDecision CfgCandidateFact.
Proof. solve_decision. Defined.
#[export] Instance FunctionOutcomeFact_eq_dec : EqDecision FunctionOutcomeFact.
Proof. solve_decision. Defined.
#[export] Instance RegisterValueFact_eq_dec : EqDecision RegisterValueFact.
Proof. solve_decision. Defined.
#[export] Instance CallValue_eq_dec : EqDecision CallValue.
Proof. solve_decision. Defined.
#[export] Instance CallObservationFact_eq_dec : EqDecision CallObservationFact.
Proof. solve_decision. Defined.
#[export] Instance FactPayload_eq_dec : EqDecision FactPayload.
Proof. solve_decision. Defined.
#[export] Instance AnalysisFact_eq_dec : EqDecision AnalysisFact.
Proof. solve_decision. Defined.

(** ** Ranges imposed by the C++ field types *)

Definition scope_typed (s : EvidenceScope) : Prop :=
  opt_all is_u64 (sc_run_id s) /\ opt_all is_u64 (sc_seed s) /\
  opt_all is_u64 (sc_function_start s) /\ opt_all is_u64 (sc_function_end s) /\
  is_u64 (sc_generation s).

Definition evidence_typed (e : Evidence) : Prop :=
  is_u16 (ev_confidence e) /\ scope_typed (ev_scope e) /\
  Forall is_u64 (ev_support_addresses e).

Definition dispatch_case_typed (c : DispatchCase) : Prop :=
  opt_all is_u64 (dc_selector c) /\ is_u64 (dc_target c).

Definition call_value_typed (v : CallValue) : Prop := is_u32 (cv_ordinal v).

Definition payload_typed (payload : FactPayload) : Prop :=
  match payload with
  | P_CodeTarget f => is_u64 (ct_from f) /\ is_u64 (ct_target f)
  | P_BranchReachability f => is_u64 (br_branch f) /\ is_u64 (br_successor f)
  | P_MemoryAccess f => is_u64 (ma_instruction f) /\ is_u64 (ma_address f) /\ is_u32 (ma_size f)
  | P_MemoryValue f => is_u64 (mv_instruction f) /\ is_u64 (mv_address f)
  | P_StringCandidate f => is_u64 (sf_address f)
  | P_FunctionCandidate f => is_u64 (fc_entry f) /\ opt_all is_u64 (fc_end f)
  | P_FunctionTrait f =>
      is_u64 (ft_function f) /\ is_i64 (tv_signed_value (ft_value f)) /\
      is_u64 (tv_unsigned_value (ft_value f))
  | P_CodeRegion f => is_u64 (cr_start f) /\ is_u64 (cr_end f)
  | P_DispatchMap f =>
      is_u64 (dm_site f) /\ Forall dispatch_case_typed (dm_cases f) /\
      opt_all is_u64 (dm_default_target f)
  | P_CfgCandidate f => is_u64 (cfg_from f) /\ is_u64 (cfg_to f)
  | P_FunctionOutcome f =>
      is_u64 (fo_function f) /\ opt_all is_u64 (fo_stop_pc f) /\
      opt_all is_i64 (fo_stack_delta f) /\ opt_all is_u64 (fo_instruction_count f)
  | P_RegisterValue f => is_u64 (rv_instruction f)
  | P_CallObservation f =>
      is_u64 (co_source f) /\ opt_all is_u64 (co_target f) /\
      Forall call_value_typed (co_arguments f) /\ Forall call_value_typed (co_returns f)
  end.

Definition fact_typed (fact : AnalysisFact) : Prop :=
  payload_typed (af_payload fact) /\ evidence_typed (af_evidence fact).
