(* ===== verification/Sha256.v ===== *)
(** [class Sha256], [digest_bytes], [sha256_bytes] and [FactDigest] of
    [src/src/analysis_facts.cpp]: the streaming hasher with its 64-byte block
    buffer, byte for byte, and a reference definition in the shape of FIPS 180-4
    (pad the message, cut it into blocks, fold the compression function). *)
From stdpp Require Import base numbers list strings option sets.
From Stdlib Require Import ZArith Init.Byte Lia.
From S2P Require Import Prelude.

(** ** The hasher *)

Definition wrap32 (v : Z) : Z := v mod 2 ^ 32.

Definition rotr (value count : Z) : Z :=
  Z.lor (Z.shiftr value count) (wrap32 (Z.shiftl value (32 - count))).

(** One line of the table of round constants. *)
Definition k_row (a b c d : Z) : list Z := [a; b; c; d].

Definition sha_k : list Z :=
  k_row 0x428a2f98 0x71374491 0xb5c0fbcf 0xe9b5dba5 ++
  k_row 0x3956c25b 0x59f111f1 0x923f82a4 0xab1c5ed5 ++
  k_row 0xd807aa98 0x12835b01 0x243185be 0x550c7dc3 ++
  k_row 0x72be5d74 0x80deb1fe 0x9bdc06a7 0xc19bf174 ++
  k_row 0xe49b69c1 0xefbe4786 0x0fc19dc6 0x240ca1cc ++
  k_row 0x2de92c6f 0x4a7484aa 0x5cb0a9dc 0x76f988da ++
  k_row 0x983e5152 0xa831c66d 0xb00327c8 0xbf597fc7 ++
  k_row 0xc6e00bf3 0xd5a79147 0x06ca6351 0x14292967 ++
  k_row 0x27b70a85 0x2e1b2138 0x4d2c6dfc 0x53380d13 ++
  k_row 0x650a7354 0x766a0abb 0x81c2c92e 0x92722c85 ++
  k_row 0xa2bfe8a1 0xa81a664b 0xc24b8b70 0xc76c51a3 ++
  k_row 0xd192e819 0xd6990624 0xf40e3585 0x106aa070 ++
  k_row 0x19a4c116 0x1e376c08 0x2748774c 0x34b0bcb5 ++
  k_row 0x391c0cb3 0x4ed8aa4a 0x5b9cca4f 0x682e6ff3 ++
  k_row 0x748f82ee 0x78a5636f 0x84c87814 0x8cc70208 ++
  k_row 0x90befffa 0xa4506ceb 0xbef9a3f7 0xc67178f2.

(** [state_]: the eight words. *)
Record ShaState := {
  h0 : Z; h1 : Z; h2 : Z; h3 : Z; h4 : Z; h5 : Z; h6 : Z; h7 : Z
}.

Definition sha_init : ShaState :=
  {| h0 := 0x6a09e667; h1 := 0xbb67ae85; h2 := 0x3c6ef372; h3 := 0xa54ff53a;
     h4 := 0x510e527f; h5 := 0x9b05688c; h6 := 0x1f83d9ab; h7 := 0x5be0cd19 |}.

(** [w[i]] for [i < 16]: big-endian words of the block. *)
Definition block_word (block : bytes) (i : nat) : Z :=
  let at_ off := b2z (nth off block x00) in
  let off := (i * 4)%nat in
  Z.lor (Z.lor (Z.shiftl (at_ off) 24) (Z.shiftl (at_ (off + 1)%nat) 16))
        (Z.lor (Z.shiftl (at_ (off + 2)%nat) 8) (at_ (off + 3)%nat)).

(** One pass of the second loop: [w[i]] from the words before it. *)
Definition schedule_step (w : list Z) (i : nat) : list Z :=
  let get j := nth j w 0 in
  let s0 := Z.lxor (Z.lxor (rotr (get (i - 15)%nat) 7) (rotr (get (i - 15)%nat) 18))
                   (Z.shiftr (get (i - 15)%nat) 3) in
  let s1 := Z.lxor (Z.lxor (rotr (get (i - 2)%nat) 17) (rotr (get (i - 2)%nat) 19))
                   (Z.shiftr (get (i - 2)%nat) 10) in
  w ++ [wrap32 (get (i - 16)%nat + s0 + get (i - 7)%nat + s1)].

Definition message_schedule (block : bytes) : list Z :=
  foldl schedule_step (map (block_word block) (seq 0 16)) (seq 16 48).

Definition not32 (v : Z) : Z := Z.lxor v (2 ^ 32 - 1).

(** One round of the third loop on the working variables [a .. h]. *)
Definition sha_round (w : list Z) (v : ShaState) (i : nat) : ShaState :=
  let 'Build_ShaState a b c d e f g h := v in
  let s1 := Z.lxor (Z.lxor (rotr e 6) (rotr e 11)) (rotr e 25) in
  let ch := Z.lxor (Z.land e f) (Z.land (not32 e) g) in
  let temp1 := wrap32 (h + s1 + ch + nth i sha_k 0 + nth i w 0) in
  let s0 := Z.lxor (Z.lxor (rotr a 2) (rotr a 13)) (rotr a 22) in
  let maj := Z.lxor (Z.lxor (Z.land a b) (Z.land a c)) (Z.land b c) in
  let temp2 := wrap32 (s0 + maj) in
  Build_ShaState (wrap32 (temp1 + temp2)) a b c (wrap32 (d + temp1)) e f g.

(** [Sha256::transform] *)
Definition sha_transform (st : ShaState) (block : bytes) : ShaState :=
  let w := message_schedule block in
  let v := foldl (sha_round w) st (seq 0 64) in
  {| h0 := wrap32 (h0 st + h0 v); h1 := wrap32 (h1 st + h1 v);
     h2 := wrap32 (h2 st + h2 v); h3 := wrap32 (h3 st + h3 v);
     h4 := wrap32 (h4 st + h4 v); h5 := wrap32 (h5 st + h5 v);
     h6 := wrap32 (h6 st + h6 v); h7 := wrap32 (h7 st + h7 v) |}.

Record Sha256 := {
  state_ : ShaState;
  block_ : bytes;          (* always 64 bytes; the tail past [block_size_] is stale *)
  block_size_ : nat;
  total_bytes_ : Z
}.

Definition sha_new : Sha256 :=
  {| state_ := sha_init; block_ := replicate 64 x00; block_size_ := 0; total_bytes_ := 0 |}.

(** [memcpy(block + at, data, size)] *)
Definition splice (block : bytes) (at_ : nat) (data : bytes) : bytes :=
  take at_ block ++ data ++ drop (at_ + length data) block.

(** One iteration of the [while] of [Sha256::update]. *)
Definition update_step (s : Sha256) (data : bytes) : Sha256 * bytes :=
  let take_ := Nat.min (length data) (64 - block_size_ s) in
  let block := splice (block_ s) (block_size_ s) (take take_ data) in
  let size := (block_size_ s + take_)%nat in
  let s' :=
    if Nat.eqb size 64
    then {| state_ := sha_transform (state_ s) block; block_ := block;
            block_size_ := 0; total_bytes_ := total_bytes_ s |}
    else {| state_ := state_ s; block_ := block;
            block_size_ := size; total_bytes_ := total_bytes_ s |} in
  (s', drop take_ data).

Fixpoint update_loop (fuel : nat) (s : Sha256) (data : bytes) : Sha256 :=
  match fuel with
  | O => s
  | S fuel' =>
      match data with
      | [] => s
      | _ => let (s', rest) := update_step s data in update_loop fuel' s' rest
      end
  end.

(** [Sha256::update]: every iteration consumes a byte at least, so the length
    of the data is fuel enough ([update_spec]). *)
Definition sha_update (s : Sha256) (data : bytes) : Sha256 :=
  update_loop (length data)
    {| state_ := state_ s; block_ := block_ s; block_size_ := block_size_ s;
       total_bytes_ := (total_bytes_ s + zlen data) mod 2 ^ 64 |} data.

(** [std::fill(block + from, block + to, 0)] *)
Definition fill_zero (block : bytes) (from to_ : nat) : bytes :=
  splice block from (replicate (to_ - from) x00).

Record FactDigest := { fd_bytes : bytes }.

Definition word_bytes (v : Z) : bytes :=
  [ z2b (Z.shiftr v 24); z2b (Z.shiftr v 16); z2b (Z.shiftr v 8); z2b v ].

Definition state_digest (st : ShaState) : FactDigest :=
  {| fd_bytes := concat (map word_bytes
       [h0 st; h1 st; h2 st; h3 st; h4 st; h5 st; h6 st; h7 st]) |}.

(** [block_[63 - i] = total_bits >> (i * 8)] for [i = 0 .. 7]: the big-endian
    bit count in the last eight bytes. *)
Definition length_bytes (total_bits : Z) : bytes :=
  map (fun i => z2b (Z.shiftr total_bits (Z.of_nat (7 - i) * 8))) (seq 0 8).

(** [Sha256::finish] *)
Definition sha_finish (s : Sha256) : FactDigest :=
  let total_bits := (total_bytes_ s * 8) mod 2 ^ 64 in
  let block := splice (block_ s) (block_size_ s) [x80] in
  let size := S (block_size_ s) in
  let '(st, block, size) :=
    if Nat.ltb 56 size
    then let block := fill_zero block size 64 in
         (sha_transform (state_ s) block, block, O)
    else (state_ s, block, size) in
  let block := fill_zero block size 56 in
  let block := splice block 56 (length_bytes total_bits) in
  state_digest (sha_transform st block).

(** [digest_bytes]; the exported [sha256_bytes] is the same function. *)
Definition digest_bytes (data : bytes) : FactDigest := sha_finish (sha_update sha_new data).
Definition sha256_bytes (data : bytes) : FactDigest := digest_bytes data.

(** [operator<] and [operator==] on digests. *)
Definition digest_lt (lhs rhs : FactDigest) : bool := bytes_lt (fd_bytes lhs) (fd_bytes rhs).
Definition digest_eqb (lhs rhs : FactDigest) : bool := fd_bytes lhs == fd_bytes rhs.

(** [FactDigest::hex] *)
Definition hex_digit (v : Z) : byte :=
  nth (Z.to_nat v) (str_bytes "0123456789abcdef") x00.
Definition hex_byte (b : byte) : bytes := [hex_digit (b2z b / 16); hex_digit (b2z b mod 16)].
Definition digest_hex (d : FactDigest) : string := bytes_str (concat (map hex_byte (fd_bytes d))).

(** ** Reference definition *)

(** The whole blocks of [data], compressed in order, and the bytes left over. *)
Fixpoint absorb_n (n : nat) (st : ShaState) (data : bytes) : ShaState * bytes :=
  match n with
  | O => (st, data)
  | S n' => absorb_n n' (sha_transform st (take 64 data)) (drop 64 data)
  end.

Definition absorb (st : ShaState) (data : bytes) : ShaState * bytes :=
  absorb_n (length data / 64) st data.

(** FIPS 180-4, 5.1.1: a one bit, zeros up to 448 mod 512 bits, the bit count. *)
Definition sha_padding (len : nat) : bytes :=
  x80 :: replicate ((119 - len mod 64) mod 64) x00 ++
  length_bytes ((Z.of_nat len * 8) mod 2 ^ 64).

Definition sha256_reference (data : bytes) : FactDigest :=
  state_digest (absorb sha_init (data ++ sha_padding (length data))).1.

(** ** Lemmas *)

#[export] Instance FactDigest_eq_dec : EqDecision FactDigest.
Proof. solve_decision. Defined.

Lemma FactDigest_inj (a b : FactDigest) : fd_bytes a = fd_bytes b -> a = b.
Proof. destruct a, b. simpl. by intros ->. Qed.

#[export] Instance digest_lt_total : StrictTotal digest_lt.
Proof. exact (StrictTotal_inj bytes_lt fd_bytes FactDigest_inj). Qed.

Lemma absorb_short st data : (length data < 64)%nat -> absorb st data = (st, data).
Proof. intros. unfold absorb. by rewrite Nat.div_small. Qed.

Lemma absorb_block st blk rest :
  length blk = 64%nat -> absorb st (blk ++ rest) = absorb (sha_transform st blk) rest.
Proof.
  intros H. unfold absorb. rewrite length_app, H.
  replace (64 + length rest)%nat with (length rest + 1 * 64)%nat by lia.
  rewrite Nat.div_add by lia. rewrite Nat.add_1_r. simpl.
  by rewrite take_app_length', drop_app_length'.
Qed.

Lemma absorb_long st data :
  (64 <= length data)%nat ->
  absorb st data = absorb (sha_transform st (take 64 data)) (drop 64 data).
Proof.
  intros. rewrite <- absorb_block by (rewrite length_take; lia). by rewrite take_drop.
Qed.

Lemma absorb_app st a b :
  absorb st (a ++ b) = absorb (absorb st a).1 ((absorb st a).2 ++ b).
Proof.
  remember (length a) as n eqn:Hn. revert st a Hn.
  induction n as [n IH] using lt_wf_ind. intros st a ->.
  destruct (decide (length a < 64)%nat) as [Hlt|Hge].
  { by rewrite (absorb_short st a). }
  rewrite (absorb_long st a), (absorb_long st (a ++ b)) by (rewrite ?length_app; lia).
  rewrite take_app_le, drop_app_le by lia.
  eapply IH; [|reflexivity]. rewrite length_drop. lia.
Qed.

Lemma absorb_rest_length st data : length (absorb st data).2 = (length data mod 64)%nat.
Proof.
  remember (length data) as n eqn:Hn. revert st data Hn.
  induction n as [n IH] using lt_wf_ind. intros st data ->.
  destruct (decide (length data < 64)%nat) as [Hlt|Hge].
  { rewrite absorb_short by done. cbn [snd]. by rewrite Nat.mod_small. }
  rewrite absorb_long by lia.
  rewrite (IH (length data - 64)%nat); [|lia|by rewrite length_drop].
  rewrite <- (Nat.Div0.mod_add (length data - 64) 1 64). f_equal. lia.
Qed.

Lemma length_splice block at_ data :
  (at_ + length data <= length block)%nat -> length (splice block at_ data) = length block.
Proof.
  intros. unfold splice. rewrite !length_app, length_take, length_drop. lia.
Qed.

Lemma take_splice block at_ data :
  (at_ + length data <= length block)%nat ->
  take (at_ + length data) (splice block at_ data) = take at_ block ++ data.
Proof.
  intros. unfold splice. rewrite app_assoc. apply take_app_length'.
  rewrite length_app, length_take. lia.
Qed.

Lemma splice_all block at_ data :
  (at_ + length data = length block)%nat -> splice block at_ data = take at_ block ++ data.
Proof.
  intros. unfold splice. rewrite drop_ge by lia. by rewrite app_nil_r.
Qed.

(** What the hasher's fields mean after [data] has been fed to it. *)
Record sha_represents (s : Sha256) (data : bytes) : Prop := {
  rep_block : length (block_ s) = 64%nat;
  rep_state : state_ s = (absorb sha_init data).1;
  rep_rest : take (block_size_ s) (block_ s) = (absorb sha_init data).2;
  rep_size : (block_size_ s < 64)%nat;
  rep_total : total_bytes_ s = zlen data mod 2 ^ 64
}.

Lemma rep_size_eq s data :
  sha_represents s data -> block_size_ s = (length data mod 64)%nat.
Proof.
  intros [Hb _ Hr Hs _]. rewrite <- (absorb_rest_length sha_init data), <- Hr.
  rewrite length_take. lia.
Qed.

Lemma sha_new_represents : sha_represents sha_new [].
Proof. split; try done. simpl. lia. Qed.

(** An iteration consumes [min(size, room)] bytes and keeps the meaning of the
    state and the buffer; only the byte count is charged beforehand. *)
Lemma update_step_correct s data seen :
  length (block_ s) = 64%nat -> (block_size_ s < 64)%nat ->
  state_ s = (absorb sha_init seen).1 ->
  take (block_size_ s) (block_ s) = (absorb sha_init seen).2 ->
  let c := take (Nat.min (length data) (64 - block_size_ s)) data in
  let s' := (update_step s data).1 in
  (update_step s data).2 = drop (length c) data /\
  length (block_ s') = 64%nat /\ (block_size_ s' < 64)%nat /\
  state_ s' = (absorb sha_init (seen ++ c)).1 /\
  take (block_size_ s') (block_ s') = (absorb sha_init (seen ++ c)).2 /\
  total_bytes_ s' = total_bytes_ s.
Proof.
  intros Hb Hs Hst Hr c s'.
  assert (length c = Nat.min (length data) (64 - block_size_ s)) as Hc.
  { unfold c. rewrite length_take. lia. }
  assert (absorb sha_init (seen ++ c)
          = absorb (state_ s) (take (block_size_ s) (block_ s) ++ c)) as Habs.
  { by rewrite absorb_app, <- Hst, <- Hr. }
  unfold s', update_step. fold c. rewrite <- Hc. simpl.
  split; [done|].
  assert (length (splice (block_ s) (block_size_ s) c) = 64%nat) as Hsp.
  { rewrite length_splice; lia. }
  rewrite Habs.
  destruct (Nat.eqb_spec (block_size_ s + length c) 64) as [Heq|Hne]; simpl.
  - rewrite splice_all in * by lia.
    rewrite <- (app_nil_r (take _ _ ++ c)), absorb_block by done.
    rewrite absorb_short by (simpl; lia). rewrite !app_nil_r. simpl.
    split_and!; try done. lia.
  - rewrite absorb_short by (rewrite length_app, length_take; lia).
    rewrite take_splice by lia. simpl. clearbody c. split_and!; try done. lia.
Qed.

Lemma update_loop_correct fuel s data seen :
  (length data <= fuel)%nat ->
  length (block_ s) = 64%nat -> (block_size_ s < 64)%nat ->
  state_ s = (absorb sha_init seen).1 ->
  take (block_size_ s) (block_ s) = (absorb sha_init seen).2 ->
  let s' := update_loop fuel s data in
  length (block_ s') = 64%nat /\ (block_size_ s' < 64)%nat /\
  state_ s' = (absorb sha_init (seen ++ data)).1 /\
  take (block_size_ s') (block_ s') = (absorb sha_init (seen ++ data)).2 /\
  total_bytes_ s' = total_bytes_ s.
Proof.
  revert s data seen. induction fuel as [|fuel IH]; intros s data seen Hf Hb Hs Hst Hr.
  { destruct data; [|simpl in Hf; lia]. rewrite app_nil_r. simpl. done. }
  destruct data as [|b data]; [by rewrite app_nil_r|].
  cbn [update_loop].
  pose proof (update_step_correct s (b :: data) seen Hb Hs Hst Hr) as Hstep.
  destruct (update_step s (b :: data)) as [s1 rest]. cbn zeta beta in Hstep. simpl fst in Hstep; simpl snd in Hstep.
  destruct Hstep as (Hrest & Hb1 & Hs1 & Hst1 & Hr1 & Ht1).
  set (c := take (Nat.min (length (b :: data)) (64 - block_size_ s)) (b :: data)) in *.
  assert (length c = Nat.min (length (b :: data)) (64 - block_size_ s)) as Hc.
  { unfold c. rewrite length_take. lia. }
  assert (c ++ rest = b :: data) as Hcat.
  { rewrite Hrest, Hc. unfold c. by rewrite take_drop. }
  assert (length rest <= fuel)%nat as Hf1.
  { rewrite Hrest, length_drop, Hc. clear -Hf Hs. cbn [length] in *. lia. }
  destruct (IH s1 rest (seen ++ c) Hf1 Hb1 Hs1 Hst1 Hr1) as (? & ? & ? & ? & ?).
  rewrite <- app_assoc, Hcat in *. repeat split; try done. congruence.
Qed.

Lemma update_spec s seen data :
  sha_represents s seen -> sha_represents (sha_update s data) (seen ++ data).
Proof.
  intros [Hb Hst Hr Hs Ht]. unfold sha_update.
  match goal with |- context [update_loop _ ?s0 _] => set (s1 := s0) end.
  destruct (update_loop_correct (length data) s1 data seen) as (? & ? & ? & ? & Ht');
    try done.
  split; try done. rewrite Ht'. unfold s1. simpl. rewrite Ht, zlen_app.
  by rewrite Zplus_mod_idemp_l.
Qed.

Lemma fill_zero_eq block from to_ :
  (from <= to_)%nat -> (to_ <= length block)%nat ->
  fill_zero block from to_ = take from block ++ replicate (to_ - from) x00 ++ drop to_ block.
Proof.
  intros. unfold fill_zero, splice. rewrite length_replicate. do 3 f_equal. lia.
Qed.

Lemma length_length_bytes v : length (length_bytes v) = 8%nat.
Proof. reflexivity. Qed.

Lemma splice_one block at_ x :
  (at_ < length block)%nat ->
  splice block at_ [x] = (take at_ block ++ [x]) ++ drop (S at_) block.
Proof. intros. unfold splice. simpl. by rewrite Nat.add_1_r, <- app_assoc. Qed.

(** The padded tail when the length still fits in the current block, and when
    it spills into a second one. *)
Lemma padding_short len :
  (len mod 64 < 56)%nat ->
  sha_padding len =
    x80 :: replicate (55 - len mod 64) x00 ++ length_bytes ((Z.of_nat len * 8) mod 2 ^ 64).
Proof.
  intros H. unfold sha_padding. generalize dependent (len mod 64)%nat. intros m H.
  do 3 f_equal. replace (119 - m)%nat with (55 - m + 1 * 64)%nat by lia.
  rewrite Nat.Div0.mod_add. by apply Nat.mod_small; lia.
Qed.

Lemma padding_long len :
  (56 <= len mod 64)%nat ->
  sha_padding len =
    (x80 :: replicate (63 - len mod 64) x00) ++
    (replicate 56 x00 ++ length_bytes ((Z.of_nat len * 8) mod 2 ^ 64)).
Proof.
  intros H. pose proof (Nat.mod_upper_bound len 64 ltac:(lia)) as Hub.
  unfold sha_padding. generalize dependent (len mod 64)%nat. intros m H Hub.
  rewrite (Nat.mod_small (119 - m)) by lia.
  replace (119 - m)%nat with (63 - m + 56)%nat by lia.
  rewrite replicate_add. simpl. by rewrite <- app_assoc.
Qed.

Lemma finish_spec s data : sha_represents s data -> sha_finish s = sha256_reference data.
Proof.
  intros Hrep. pose proof (rep_size_eq _ _ Hrep) as Hn. destruct Hrep as [Hb Hst Hr Hs Ht].
  unfold sha256_reference. rewrite absorb_app, <- Hst, <- Hr.
  unfold sha_finish. rewrite Ht, Zmult_mod_idemp_l. unfold zlen.
  set (bits := length_bytes _).
  set (n := block_size_ s) in *. set (st := state_ s). set (blk := block_ s) in *.
  rewrite splice_one by lia.
  assert (length (take n blk ++ [x80]) = S n) as Hp by (rewrite length_app, length_take; simpl; lia).
  assert (length (drop (S n) blk) = 63 - n)%nat as Hd by (rewrite length_drop; lia).
  assert (length ((take n blk ++ [x80]) ++ drop (S n) blk) = 64)%nat as Hq.
  { rewrite (length_app (take n blk ++ _)), Hp, Hd. lia. }
  destruct (Nat.ltb_spec 56 (S n)) as [Hlong|Hshort].
  - rewrite padding_long by lia. fold bits. rewrite <- Hn.
    assert (fill_zero ((take n blk ++ [x80]) ++ drop (S n) blk) (S n) 64
            = take n blk ++ x80 :: replicate (63 - n) x00) as ->.
    { rewrite fill_zero_eq by lia.
      rewrite take_app_length' by done. rewrite drop_ge by lia.
      rewrite app_nil_r, <- app_assoc. done. }
    set (b1 := take n blk ++ x80 :: replicate (63 - n) x00).
    assert (length b1 = 64)%nat as Hb1.
    { unfold b1. rewrite length_app, length_take. simpl. rewrite length_replicate. lia. }
    rewrite app_assoc. fold b1. rewrite absorb_block by done.
    rewrite fill_zero_eq by lia. rewrite take_0, app_nil_l.
    change (56 - 0)%nat with 56%nat.
    rewrite splice_all.
    2:{ by rewrite !length_app, length_drop, length_replicate, Hb1. }
    rewrite take_app_length' by (by rewrite length_replicate).
    rewrite <- (app_nil_r (replicate 56 x00 ++ bits)).
    rewrite absorb_block by (rewrite length_app; done).
    rewrite absorb_short by (simpl; lia). rewrite !app_nil_r. done.
  - rewrite padding_short by lia. fold bits. rewrite <- Hn.
    rewrite fill_zero_eq by lia.
    rewrite take_app_length' by done.
    rewrite splice_all.
    2:{ rewrite !length_app, length_drop, length_replicate, length_app, length_take, length_drop.
        simpl. lia. }
    rewrite app_assoc, take_app_length'.
    2:{ rewrite !length_app, length_replicate, length_take. simpl. lia. }
    assert (((take n blk ++ [x80]) ++ replicate (56 - S n) x00) ++ bits
            = (take n blk ++ x80 :: replicate (55 - n) x00 ++ bits)) as ->.
    { rewrite <- !app_assoc. simpl. replace (56 - S n)%nat with (55 - n)%nat by lia. done. }
    rewrite <- (app_nil_r (take n blk ++ _)), absorb_block.
    { rewrite absorb_short by (simpl; lia). by rewrite !app_nil_r. }
    rewrite length_app, length_take. simpl. rewrite length_app, length_replicate. simpl. lia.
Qed.

Lemma state_digest_length st : length (fd_bytes (state_digest st)) = 32%nat.
Proof. reflexivity. Qed.

Lemma sha256_length data : length (fd_bytes (sha256_bytes data)) = 32%nat.
Proof.
  unfold sha256_bytes, digest_bytes, sha_finish. by destruct (Nat.ltb _ _).
Qed.

Lemma foldl_update_represents s seen chunks :
  sha_represents s seen ->
  sha_represents (foldl sha_update s chunks) (seen ++ concat chunks).
Proof.
  revert s seen. induction chunks as [|c chunks IH]; intros s seen H; simpl.
  { by rewrite app_nil_r. }
  rewrite app_assoc. by apply IH, update_spec.
Qed.

Lemma sha256_is_reference data : sha256_bytes data = sha256_reference data.
Proof. apply finish_spec, (update_spec sha_new []), sha_new_represents. Qed.

(** The published test vectors for the empty message and for [abc]. *)
Example sha256_empty :
  digest_hex (sha256_bytes []) =
    "e3b0c44298fc1c149afbf4c8996fb92427ae41e4649b934ca495991b7852b855"%string.
Proof. vm_compute. reflexivity. Qed.

Example sha256_abc :
  digest_hex (sha256_bytes (str_bytes "abc")) =
    "ba7816bf8f01cfea414140de5dae2223b00361a396177a9cb410ff61f20015ad"%string.
Proof. vm_compute. reflexivity. Qed.

(** ** Properties *)

(** C26: feeding the hasher a message in any sequence of chunks and finishing
    computes the FIPS 180-4 reference on the whole message: the block buffer,
    its stale bytes, the two padding layouts and the byte counter are right for
    every length and every chunking. *)
Theorem sha256_streaming_correct (chunks : list bytes) :
  sha_finish (foldl sha_update sha_new chunks) = sha256_reference (concat chunks).
Proof.
  apply finish_spec, (foldl_update_represents sha_new []), sha_new_represents.
Qed.
