(* ===== verification/Wire.v ===== *)
(** The canonical byte format of [src/src/analysis_facts.cpp]: [class Writer],
    [class Reader] and the small helpers around them.

    A writer operation is the bytes it appends.  A reader operation consumes a
    prefix of the remaining input ([bytes_] from [pos_] on); it fails with the
    reader's error text, the empty text when the caller rejects a value without
    setting one.  After a failure the program never reads on, so the position
    of a failed reader is not kept.

    The interface to the codecs is [reads] (a reader accepts what a writer
    produced and leaves the rest) and [yields] (what a reader guarantees about
    every value it returns), both closed under [bind]. *)
From stdpp Require Import base numbers list strings option sets.
From Stdlib Require Import ZArith Init.Byte Lia.
From S2P Require Import Prelude FactTypes.

(** ** Writer *)

Definition kCodecVersion : Z := 1.

Definition w_u8 (value : Z) : bytes := [z2b value].
Definition w_boolean (value : bool) : bytes := w_u8 (if value then 1 else 0).
Definition w_u16 (value : Z) : bytes := w_u8 (Z.shiftr value 8) ++ w_u8 value.
Definition w_u32 (value : Z) : bytes :=
  w_u8 (Z.shiftr value 24) ++ w_u8 (Z.shiftr value 16) ++
  w_u8 (Z.shiftr value 8) ++ w_u8 value.

(** [for (int shift = 56; shift >= 0; shift -= 8) u8(value >> shift)] *)
Fixpoint w_u64_loop (n : nat) (value : Z) : bytes :=
  match n with
  | O => []
  | S n' => w_u8 (Z.shiftr value (8 * Z.of_nat n')) ++ w_u64_loop n' value
  end.
Definition w_u64 (value : Z) : bytes := w_u64_loop 8 value.
Definition w_i64 (value : Z) : bytes := w_u64 (value mod 2 ^ 64).

Definition w_string (value : string) : result bytes :=
  reject "string exceeds the canonical 32-bit length limit"
    when u32_max <? str_len value ;;
  Ok (w_u32 (str_len value) ++ str_bytes value).

Definition w_blob (value : bytes) : result bytes :=
  reject "byte vector exceeds the canonical 32-bit length limit"
    when u32_max <? zlen value ;;
  Ok (w_u32 (zlen value) ++ value).

(** A loop of fallible writes, in order. *)
Fixpoint w_list {A} (w : A -> result bytes) (items : list A) : result bytes :=
  match items with
  | [] => Ok []
  | x :: r =>
      let* a := w x in
      let* b := w_list w r in
      Ok (a ++ b)
  end.

Definition w_optional_u64 (value : option Z) : bytes :=
  w_u8 (if value then 1 else 0) ++
  match value with Some v => w_u64 v | None => [] end.

Definition w_optional_i64 (value : option Z) : bytes :=
  w_u8 (if value then 1 else 0) ++
  match value with Some v => w_i64 v | None => [] end.

(** ** Reader *)

Inductive read_result (A : Type) : Type :=
| RGood (value : A) (remaining : bytes)
| RFail (error : string).
Arguments RGood {A} _ _.
Arguments RFail {A} _.

Definition Reader (A : Type) : Type := bytes -> read_result A.

Definition rd_ret {A} (a : A) : Reader A := fun input => RGood a input.
Definition rd_fail {A} (error : string) : Reader A := fun _ => RFail error.
Definition rd_bind {A B} (m : Reader A) (k : A -> Reader B) : Reader B :=
  fun input =>
    match m input with
    | RGood a rest => k a rest
    | RFail e => RFail e
    end.

Notation "x <~ m ; k" := (rd_bind m (fun x => k))
  (at level 100, m at level 90, right associativity, k at level 200) : viy_scope.

(** [Reader::raw]; the two reader classes of the program differ in the text. *)
Definition r_raw_msg (truncated : string) (size : Z) : Reader bytes := fun input =>
  if zlen input <? size then RFail truncated
  else RGood (take (Z.to_nat size) input) (drop (Z.to_nat size) input).

Definition r_u8_msg (truncated : string) : Reader Z := fun input =>
  match input with
  | [] => RFail truncated
  | b :: rest => RGood (b2z b) rest
  end.

Definition r_u16_msg (truncated : string) : Reader Z :=
  a <~ r_u8_msg truncated; b <~ r_u8_msg truncated;
  rd_ret (Z.lor (Z.shiftl a 8) b).

Definition r_u32_msg (truncated : string) : Reader Z :=
  bs <~ r_raw_msg truncated 4;
  let at_ i := b2z (nth i bs x00) in
  rd_ret (Z.lor (Z.lor (Z.lor (Z.shiftl (at_ 0%nat) 24) (Z.shiftl (at_ 1%nat) 16))
                       (Z.shiftl (at_ 2%nat) 8)) (at_ 3%nat)).

(** [out = (out << 8) | byte] over the eight bytes. *)
Definition be_combine (bs : bytes) : Z :=
  foldl (fun out b => Z.lor (Z.shiftl out 8) (b2z b)) 0 bs.

Definition r_u64_msg (truncated : string) : Reader Z :=
  bs <~ r_raw_msg truncated 8; rd_ret (be_combine bs).

Definition truncated_input : string := "truncated canonical input".
Definition r_raw : Z -> Reader bytes := r_raw_msg truncated_input.
Definition r_u8 : Reader Z := r_u8_msg truncated_input.
Definition r_u16 : Reader Z := r_u16_msg truncated_input.
Definition r_u32 : Reader Z := r_u32_msg truncated_input.
Definition r_u64 : Reader Z := r_u64_msg truncated_input.

Definition r_magic (expected : bytes) : Reader unit :=
  actual <~ r_raw 4;
  if actual == expected then rd_ret tt
  else rd_fail "canonical input has the wrong magic".

Definition r_boolean : Reader bool :=
  value <~ r_u8;
  if 1 <? value then rd_fail "invalid canonical boolean"
  else rd_ret (negb (value =? 0)).

Definition r_i64 : Reader Z :=
  raw_value <~ r_u64;
  if raw_value <=? i64_max then rd_ret raw_value
  else rd_ret (- (u64_max - raw_value) - 1).

Definition r_string (limits : FactCodecLimits) : Reader string :=
  size <~ r_u32;
  if max_string_bytes limits <? size
  then rd_fail "canonical string exceeds configured decode limit"
  else (bs <~ r_raw_msg "truncated canonical string" size; rd_ret (bytes_str bs)).

Definition r_blob (limits : FactCodecLimits) : Reader bytes :=
  size <~ r_u32;
  if max_fact_bytes limits <? size
  then rd_fail "canonical byte vector exceeds configured decode limit"
  else r_raw_msg "truncated canonical byte vector" size.

Definition r_count (limits : FactCodecLimits) : Reader Z :=
  out <~ r_u32;
  if max_vector_items limits <? out
  then rd_fail "canonical vector exceeds configured item limit"
  else rd_ret out.

Definition r_optional {A} (read_value : Reader A) : Reader (option A) :=
  present <~ r_u8;
  if 1 <? present then rd_fail "invalid canonical optional tag"
  else if present =? 0 then rd_ret None
  else (value <~ read_value; rd_ret (Some value)).

Definition read_optional_u64 : Reader (option Z) := r_optional r_u64.
Definition read_optional_i64 : Reader (option Z) := r_optional r_i64.

(** [read_enum_u8]: an out-of-range byte fails without setting an error. *)
Definition read_enum_u8 {E} `{Enum8 E} (first last : E) : Reader E :=
  value <~ r_u8;
  let out := of_u8 value in
  if enum_between out first last then rd_ret out else rd_fail "".

Definition read_version : Reader unit :=
  version <~ r_u16;
  if version =? kCodecVersion then rd_ret tt else rd_fail "".

(** [for (i = 0; i != count; ++i)] around a reader. *)
Fixpoint read_many {A} (count : nat) (read_item : Reader A) : Reader (list A) :=
  match count with
  | O => rd_ret []
  | S n => x <~ read_item; xs <~ read_many n read_item; rd_ret (x :: xs)
  end.

(** [report_reader_error] *)
Definition reader_error (error fallback : string) : string :=
  if error == "" then fallback else error.

(** ** The reader interface *)

Definition reads {A} (rd : Reader A) (written : bytes) (a : A) : Prop :=
  forall rest, rd (written ++ rest) = RGood a rest.

Definition yields {A} (rd : Reader A) (P : A -> Prop) : Prop :=
  forall input a rest, rd input = RGood a rest -> P a.

Lemma reads_ret {A} (a : A) : reads (rd_ret a) [] a.
Proof. intros rest. done. Qed.

Lemma reads_bind {A B} (m : Reader A) (k : A -> Reader B) w1 w2 a b :
  reads m w1 a -> reads (k a) w2 b -> reads (rd_bind m k) (w1 ++ w2) b.
Proof. intros H1 H2 rest. unfold rd_bind. by rewrite <- app_assoc, H1, H2. Qed.

(** The last reader of a sequence has no bytes after it. *)
Lemma reads_bind_ret {A B} (m : Reader A) (k : A -> Reader B) w a b :
  reads m w a -> reads (k a) [] b -> reads (rd_bind m k) w b.
Proof. intros H1 H2. rewrite <- (app_nil_r w). by eapply reads_bind. Qed.

Lemma yields_ret {A} (P : A -> Prop) a : P a -> yields (rd_ret a) P.
Proof. intros H input b rest [= <- _]. done. Qed.

Lemma yields_fail {A} (P : A -> Prop) e : yields (rd_fail e) P.
Proof. by intros input a rest. Qed.

Lemma yields_bind {A B} (m : Reader A) (k : A -> Reader B) (P : A -> Prop) (Q : B -> Prop) :
  yields m P -> (forall a, P a -> yields (k a) Q) -> yields (rd_bind m k) Q.
Proof.
  intros Hm Hk input b rest. unfold rd_bind.
  destruct (m input) as [a rest'|] eqn:E; [|done]. apply Hk. by eapply Hm.
Qed.

Lemma yields_true {A} (m : Reader A) : yields m (fun _ => True).
Proof. by intros ? ? ?. Qed.

Lemma yields_if {A} (b : bool) (m1 m2 : Reader A) P :
  yields m1 P -> yields m2 P -> yields (if b then m1 else m2) P.
Proof. by destruct b. Qed.

(** ** Big-endian integers *)

(** The value of a big-endian byte string. *)
Fixpoint be_value (bs : bytes) : Z :=
  match bs with
  | [] => 0
  | b :: r => b2z b * 2 ^ (8 * zlen r) + be_value r
  end.

Lemma be_value_range bs : 0 <= be_value bs < 2 ^ (8 * zlen bs).
Proof.
  induction bs as [|b bs IH]; cbn [be_value]; [done|].
  pose proof (b2z_range b). rewrite zlen_cons.
  replace (8 * (1 + zlen bs)) with (8 + 8 * zlen bs) by lia.
  pose proof (zlen_nonneg bs). rewrite Z.pow_add_r by lia. nia.
Qed.

Lemma be_combine_value_acc bs acc :
  foldl (fun out b => Z.lor (Z.shiftl out 8) (b2z b)) acc bs
    = acc * 2 ^ (8 * zlen bs) + be_value bs.
Proof.
  revert acc. induction bs as [|b bs IH]; intros acc; cbn [foldl be_value].
  { change (8 * zlen []) with 0. lia. }
  pose proof (b2z_range b). rewrite IH, lor_shiftl_add by lia. rewrite zlen_cons.
  replace (8 * (1 + zlen bs)) with (8 + 8 * zlen bs) by lia.
  pose proof (zlen_nonneg bs). rewrite Z.pow_add_r by lia. lia.
Qed.

Lemma be_combine_value bs : be_combine bs = be_value bs.
Proof. unfold be_combine. rewrite be_combine_value_acc. lia. Qed.

Lemma w_u64_loop_length n v : length (w_u64_loop n v) = n.
Proof. induction n; simpl; auto. Qed.

Lemma w_u64_loop_value n v : be_value (w_u64_loop n v) = v mod 2 ^ (8 * Z.of_nat n).
Proof.
  induction n as [|n IH]; [by rewrite Z.mod_1_r|].
  cbn [w_u64_loop w_u8 app be_value]. rewrite IH, b2z_z2b.
  assert (zlen (w_u64_loop n v) = Z.of_nat n) as ->
    by (unfold zlen; by rewrite w_u64_loop_length).
  rewrite Z.shiftr_div_pow2 by lia.
  replace (8 * Z.of_nat (S n)) with (8 * Z.of_nat n + 8) by lia.
  rewrite Z.pow_add_r by lia. rewrite Z.rem_mul_r by lia.
  change (2 ^ 8) with 256. lia.
Qed.

Lemma w_u32_loop v : w_u32 v = w_u64_loop 4 v.
Proof. reflexivity. Qed.

Lemma w_u16_loop v : w_u16 v = w_u64_loop 2 v.
Proof. reflexivity. Qed.

Lemma r_raw_app msg w : reads (r_raw_msg msg (zlen w)) w w.
Proof.
  intros rest. unfold r_raw_msg. rewrite zlen_app.
  pose proof (zlen_nonneg rest). destruct (Z.ltb_spec (zlen w + zlen rest) (zlen w)); [lia|].
  unfold zlen. rewrite Nat2Z.id. by rewrite take_app_length, drop_app_length.
Qed.

Lemma r_raw_app_size msg w size : size = zlen w -> reads (r_raw_msg msg size) w w.
Proof. intros ->. apply r_raw_app. Qed.

Lemma r_raw_yields msg n : 0 <= n -> yields (r_raw_msg msg n) (fun bs => zlen bs = n).
Proof.
  intros Hn input a rest. unfold r_raw_msg.
  destruct (Z.ltb_spec (zlen input) n); [done|]. intros [= <- _].
  unfold zlen in *. rewrite length_take. lia.
Qed.

Lemma r_u16_value msg bs :
  length bs = 2%nat -> reads (r_u16_msg msg) bs (be_value bs).
Proof.
  destruct bs as [|a [|b [|]]]; try done. intros _ rest. unfold r_u16_msg, rd_bind. simpl.
  pose proof (b2z_range a). pose proof (b2z_range b).
  rewrite lor_shiftl_add by lia. unfold rd_ret. f_equal. unfold zlen. simpl. lia.
Qed.

Lemma r_u32_value msg bs :
  length bs = 4%nat -> reads (r_u32_msg msg) bs (be_value bs).
Proof.
  intros Hl. eapply reads_bind_ret.
  { apply r_raw_app_size. unfold zlen. by rewrite Hl. }
  destruct bs as [|a [|b [|c [|d [|]]]]]; try done. clear Hl. intros rest.
  unfold rd_ret. f_equal. simpl.
  pose proof (b2z_range a). pose proof (b2z_range b).
  pose proof (b2z_range c). pose proof (b2z_range d).
  rewrite <- !Z.lor_assoc.
  rewrite (lor_shiftl_add (b2z c) (b2z d)) by lia.
  rewrite (lor_shiftl_add (b2z b)) by lia. rewrite lor_shiftl_add by lia.
  unfold zlen. simpl. lia.
Qed.

Lemma r_u64_value msg bs :
  length bs = 8%nat -> reads (r_u64_msg msg) bs (be_value bs).
Proof.
  intros Hl. eapply reads_bind_ret.
  { apply r_raw_app_size. unfold zlen. by rewrite Hl. }
  rewrite be_combine_value. apply reads_ret.
Qed.

(** ** What each reader accepts *)

Create HintDb codec.

Lemma reads_u8 v : 0 <= v < 256 -> reads r_u8 (w_u8 v) v.
Proof. intros H rest. simpl. by rewrite b2z_z2b, Z.mod_small. Qed.

Lemma reads_u16_msg msg v : is_u16 v -> reads (r_u16_msg msg) (w_u16 v) v.
Proof.
  intros H. rewrite <- (Z.mod_small v (2 ^ (8 * Z.of_nat 2))) at 2 by done.
  rewrite w_u16_loop, <- w_u64_loop_value. by apply r_u16_value.
Qed.

Lemma reads_u32_msg msg v : is_u32 v -> reads (r_u32_msg msg) (w_u32 v) v.
Proof.
  intros H. rewrite <- (Z.mod_small v (2 ^ (8 * Z.of_nat 4))) at 2 by done.
  rewrite w_u32_loop, <- w_u64_loop_value. by apply r_u32_value.
Qed.

Lemma reads_u64_msg msg v : is_u64 v -> reads (r_u64_msg msg) (w_u64 v) v.
Proof.
  intros H. rewrite <- (Z.mod_small v (2 ^ (8 * Z.of_nat 8))) at 2 by done.
  unfold w_u64. rewrite <- w_u64_loop_value. apply r_u64_value, w_u64_loop_length.
Qed.

Lemma reads_u16 v : is_u16 v -> reads r_u16 (w_u16 v) v.
Proof. apply reads_u16_msg. Qed.
Lemma reads_u32 v : is_u32 v -> reads r_u32 (w_u32 v) v.
Proof. apply reads_u32_msg. Qed.
Lemma reads_u64 v : is_u64 v -> reads r_u64 (w_u64 v) v.
Proof. apply reads_u64_msg. Qed.

(** The two's-complement round trip, [INT64_MIN] included. *)
Lemma reads_i64 v : is_i64 v -> reads r_i64 (w_i64 v) v.
Proof.
  intros H. unfold is_i64 in H. eapply reads_bind_ret.
  { apply reads_u64. unfold is_u64. apply Z.mod_pos_bound. lia. }
  unfold i64_max, u64_max. destruct (Z.leb_spec 0 v).
  - rewrite Z.mod_small by lia. destruct (Z.leb_spec v (2 ^ 63 - 1)); [|lia].
    apply reads_ret.
  - assert (v mod 2 ^ 64 = v + 2 ^ 64) as ->.
    { rewrite <- (Z_mod_plus_full v 1). by apply Z.mod_small; lia. }
    destruct (Z.leb_spec (v + 2 ^ 64) (2 ^ 63 - 1)); [lia|].
    replace (- (2 ^ 64 - 1 - (v + 2 ^ 64)) - 1) with v by lia. apply reads_ret.
Qed.

Lemma reads_boolean b : reads r_boolean (w_boolean b) b.
Proof. by destruct b. Qed.

Lemma w_string_ok s w :
  w_string s = Ok w -> w = w_u32 (str_len s) ++ str_bytes s /\ is_u32 (str_len s).
Proof.
  unfold w_string. destruct (Z.ltb_spec u32_max (str_len s)) as [|Hl]; [done|].
  intros [= <-]. split; [done|]. unfold u32_max in Hl. pose proof (zlen_nonneg (str_bytes s)).
  unfold is_u32, str_len in *. lia.
Qed.

Lemma w_blob_ok b w : w_blob b = Ok w -> w = w_u32 (zlen b) ++ b /\ is_u32 (zlen b).
Proof.
  unfold w_blob. destruct (Z.ltb_spec u32_max (zlen b)) as [|Hl]; [done|].
  intros [= <-]. split; [done|]. unfold u32_max in Hl. pose proof (zlen_nonneg b).
  unfold is_u32. lia.
Qed.

Lemma w_string_fits s : str_len s <= u32_max -> w_string s = Ok (w_u32 (str_len s) ++ str_bytes s).
Proof. intros. unfold w_string. by destruct (Z.ltb_spec u32_max (str_len s)); [lia|]. Qed.

Lemma w_blob_fits b : zlen b <= u32_max -> w_blob b = Ok (w_u32 (zlen b) ++ b).
Proof. intros. unfold w_blob. by destruct (Z.ltb_spec u32_max (zlen b)); [lia|]. Qed.

Lemma reads_string limits s w :
  w_string s = Ok w -> str_len s <= max_string_bytes limits ->
  reads (r_string limits) w s.
Proof.
  intros [-> Hs]%w_string_ok Hl. eapply reads_bind; [by apply reads_u32|].
  destruct (Z.ltb_spec (max_string_bytes limits) (str_len s)); [lia|].
  eapply reads_bind_ret; [apply r_raw_app_size; done|].
  rewrite bytes_str_bytes. apply reads_ret.
Qed.

Lemma reads_blob limits b w :
  w_blob b = Ok w -> zlen b <= max_fact_bytes limits -> reads (r_blob limits) w b.
Proof.
  intros [-> Hs]%w_blob_ok Hl. eapply reads_bind; [by apply reads_u32|].
  destruct (Z.ltb_spec (max_fact_bytes limits) (zlen b)); [lia|]. apply r_raw_app.
Qed.

Lemma reads_count limits n :
  is_u32 n -> n <= max_vector_items limits -> reads (r_count limits) (w_u32 n) n.
Proof.
  intros Hn Hl. eapply reads_bind_ret; [by apply reads_u32|].
  destruct (Z.ltb_spec (max_vector_items limits) n); [lia|]. apply reads_ret.
Qed.

Lemma reads_optional {A} (rd : Reader A) (w : A -> bytes) o :
  (forall a, o = Some a -> reads rd (w a) a) ->
  reads (r_optional rd)
        (w_u8 (if o then 1 else 0) ++ match o with Some a => w a | None => [] end) o.
Proof.
  intros H. unfold r_optional. destruct o as [a|]; simpl.
  - change (z2b 1 :: w a) with (w_u8 1 ++ w a).
    eapply reads_bind; [by apply reads_u8|]. simpl.
    eapply reads_bind_ret; [by apply H|]. apply reads_ret.
  - change ([z2b 0]) with (w_u8 0 ++ []).
    eapply reads_bind; [by apply reads_u8|]. apply reads_ret.
Qed.

Lemma reads_optional_u64 o : opt_all is_u64 o -> reads read_optional_u64 (w_optional_u64 o) o.
Proof. intros H. apply reads_optional. intros a ->. by apply reads_u64. Qed.

Lemma reads_optional_i64 o : opt_all is_i64 o -> reads read_optional_i64 (w_optional_i64 o) o.
Proof. intros H. apply reads_optional. intros a ->. by apply reads_i64. Qed.

Lemma reads_enum {E} `{Enum8 E} (first last e : E) :
  enum_between e first last = true -> reads (read_enum_u8 first last) (w_u8 (to_u8 e)) e.
Proof.
  intros He. eapply reads_bind_ret; [apply reads_u8, to_u8_range|]. cbn zeta.
  rewrite of_to_u8, He. apply reads_ret.
Qed.

Lemma reads_magic m : length m = 4%nat -> reads (r_magic m) m tt.
Proof.
  intros Hl. eapply reads_bind_ret.
  { apply r_raw_app_size. unfold zlen. by rewrite Hl. }
  rewrite bool_decide_eq_true_2 by done. apply reads_ret.
Qed.

Lemma reads_version : reads read_version (w_u16 kCodecVersion) tt.
Proof. eapply reads_bind_ret; [apply reads_u16; by split|]. apply reads_ret. Qed.

Lemma reads_many {A} (rd : Reader A) (w : A -> result bytes) items bs :
  w_list w items = Ok bs ->
  (forall x wx, x ∈ items -> w x = Ok wx -> reads rd wx x) ->
  reads (read_many (length items) rd) bs items.
Proof.
  revert bs. induction items as [|x items IH]; intros bs; simpl.
  { intros [= <-] _. apply reads_ret. }
  destruct (w x) as [wx|] eqn:Ex; [|done]. simpl.
  destruct (w_list w items) as [ws|] eqn:Es; [|done]. simpl. intros [= <-] H.
  eapply reads_bind; [by apply H; [left|]|].
  eapply reads_bind_ret; [apply IH; [done|]|apply reads_ret].
  intros y wy Hy. apply H. by right.
Qed.

Lemma reads_many_zlen {A} (rd : Reader A) (w : A -> result bytes) items bs :
  w_list w items = Ok bs ->
  (forall x wx, x ∈ items -> w x = Ok wx -> reads rd wx x) ->
  reads (read_many (Z.to_nat (zlen items)) rd) bs items.
Proof. unfold zlen. rewrite Nat2Z.id. apply reads_many. Qed.

#[export] Hint Resolve reads_ret reads_u8 reads_u16 reads_u32 reads_u64 reads_i64 reads_boolean
  reads_optional_u64 reads_optional_i64 reads_enum reads_version reads_string reads_blob
  reads_count : codec.

(** ** What each reader guarantees *)

Lemma yields_u8 : yields r_u8 (fun v => 0 <= v < 256).
Proof. intros [|b input] a rest; [done|]. intros [= <- _]. apply b2z_range. Qed.

(** Reading is the inverse of writing on what was read. *)
Lemma yields_u16_msg msg : yields (r_u16_msg msg) is_u16.
Proof.
  intros [|a [|b input]] v rest; [done..|]. unfold r_u16_msg, rd_bind. simpl.
  intros [= <- _]. pose proof (b2z_range a). pose proof (b2z_range b).
  rewrite lor_shiftl_add by lia. unfold is_u16. lia.
Qed.

Lemma yields_u32_msg msg : yields (r_u32_msg msg) is_u32.
Proof.
  intros input v rest. unfold r_u32_msg, rd_bind.
  destruct (r_raw_msg msg 4 input) as [bs rest'|] eqn:E; [|done].
  apply r_raw_yields in E; [|lia]. intros [= <- _].
  assert (length bs = 4%nat) as Hl by (unfold zlen in E; lia).
  pose proof (r_u32_value msg bs Hl []) as Hr. rewrite app_nil_r in Hr.
  unfold r_u32_msg, rd_bind in Hr.
  rewrite <- (app_nil_r bs) in Hr at 1. rewrite r_raw_app_size in Hr by done.
  injection Hr as ->. pose proof (be_value_range bs) as Hb. by rewrite E in Hb.
Qed.

Lemma yields_u64_msg msg : yields (r_u64_msg msg) is_u64.
Proof.
  eapply yields_bind; [by apply r_raw_yields|]. intros bs Hbs. apply yields_ret.
  rewrite be_combine_value. pose proof (be_value_range bs) as Hb. by rewrite Hbs in Hb.
Qed.

Lemma yields_u16 : yields r_u16 is_u16.
Proof. apply yields_u16_msg. Qed.
Lemma yields_u32 : yields r_u32 is_u32.
Proof. apply yields_u32_msg. Qed.
Lemma yields_u64 : yields r_u64 is_u64.
Proof. apply yields_u64_msg. Qed.

Lemma yields_i64 : yields r_i64 is_i64.
Proof.
  eapply yields_bind; [apply yields_u64|]. intros v Hv. unfold is_u64, is_i64, i64_max, u64_max in *.
  destruct (Z.leb_spec v (2 ^ 63 - 1)); apply yields_ret; lia.
Qed.

Lemma yields_optional {A} (rd : Reader A) P : yields rd P -> yields (r_optional rd) (opt_all P).
Proof.
  intros H. eapply yields_bind; [apply yields_u8|]. intros p _.
  apply yields_if; [apply yields_fail|]. apply yields_if; [by apply yields_ret|].
  eapply yields_bind; [done|]. intros a Ha. by apply yields_ret.
Qed.

Lemma yields_optional_u64 : yields read_optional_u64 (opt_all is_u64).
Proof. apply yields_optional, yields_u64. Qed.
Lemma yields_optional_i64 : yields read_optional_i64 (opt_all is_i64).
Proof. apply yields_optional, yields_i64. Qed.

Lemma yields_enum {E} `{Enum8 E} (first last : E) :
  yields (read_enum_u8 first last) (fun e => enum_between e first last = true).
Proof.
  eapply yields_bind; [apply yields_u8|]. intros v _. cbn zeta.
  destruct (enum_between _ _ _) eqn:E1; [by apply yields_ret|apply yields_fail].
Qed.

Lemma yields_many {A} n (rd : Reader A) P : yields rd P -> yields (read_many n rd) (Forall P).
Proof.
  intros H. induction n as [|n IH]; simpl; [by apply yields_ret|].
  eapply yields_bind; [done|]. intros x Hx. eapply yields_bind; [done|]. intros xs Hxs.
  apply yields_ret. by constructor.
Qed.

#[export] Hint Resolve yields_u16 yields_u32 yields_u64 yields_i64 yields_optional_u64
  yields_optional_i64 yields_true : codec.

(** ** Sizes *)

Lemma zlen_w_u32 v : zlen (w_u32 v) = 4.
Proof. done. Qed.
Lemma zlen_w_u64 v : zlen (w_u64 v) = 8.
Proof. done. Qed.
