(* ===== verification/Text.v ===== *)
(** The text-encoding validators of [src/src/analysis_facts.cpp]
    ([valid_utf8], [valid_utf16], [valid_utf32], [string_bytes_match_encoding])
    and what they accept: exactly the encodings of sequences of Unicode scalar
    values. *)
From stdpp Require Import base numbers list strings option sets.
From Stdlib Require Import ZArith Init.Byte Lia.
From S2P Require Import Prelude FactTypes.

(** ** The validators *)

Definition string_code_unit_size (encoding : StringEncoding) : Z :=
  match encoding with
  | StringEncoding_Utf16LE | StringEncoding_Utf16BE => 2
  | StringEncoding_Utf32LE | StringEncoding_Utf32BE => 4
  | _ => 1
  end.

(** The inner loop over the continuation bytes: the code point and the rest of
    the input, or [None] for a byte that is no continuation. *)
Fixpoint utf8_continuations (n : nat) (codepoint : Z) (bs : bytes) : option (Z * bytes) :=
  match n with
  | O => Some (codepoint, bs)
  | S n' =>
      match bs with
      | [] => None
      | continuation :: r =>
          if negb (Z.land (b2z continuation) 0xc0 =? 0x80) then None
          else utf8_continuations n'
                 (Z.lor (Z.shiftl codepoint 6) (Z.land (b2z continuation) 0x3f)) r
      end
  end.

(** Lead byte: initial bits, number of continuations, least code point. *)
Definition utf8_lead (first : Z) : option (Z * nat * Z) :=
  if (0xc2 <=? first) && (first <=? 0xdf) then Some (Z.land first 0x1f, 1%nat, 0x80)
  else if (0xe0 <=? first) && (first <=? 0xef) then Some (Z.land first 0x0f, 2%nat, 0x800)
  else if (0xf0 <=? first) && (first <=? 0xf4) then Some (Z.land first 0x07, 3%nat, 0x10000)
  else None.

(** The outer loop; every iteration consumes the lead byte. *)
Fixpoint valid_utf8_loop (fuel : nat) (bs : bytes) : bool :=
  match fuel, bs with
  | _, [] => true
  | O, _ => false
  | S fuel', b :: r =>
      let first := b2z b in
      if first <=? 0x7f then valid_utf8_loop fuel' r
      else
        match utf8_lead first with
        | None => false
        | Some (codepoint, continuation_count, minimum) =>
            if zlen r <? Z.of_nat continuation_count then false
            else
              match utf8_continuations continuation_count codepoint r with
              | None => false
              | Some (codepoint, r') =>
                  if (codepoint <? minimum) || (0x10ffff <? codepoint) ||
                     ((0xd800 <=? codepoint) && (codepoint <=? 0xdfff))
                  then false
                  else valid_utf8_loop fuel' r'
              end
        end
  end.

Definition valid_utf8 (bs : bytes) : bool := valid_utf8_loop (length bs) bs.

Definition read_u16_code_unit (a b : byte) (little_endian : bool) : Z :=
  if little_endian then Z.lor (b2z a) (Z.shiftl (b2z b) 8)
  else Z.lor (Z.shiftl (b2z a) 8) (b2z b).

(** The loop over two-byte units; a high surrogate consumes the next unit too. *)
Fixpoint valid_utf16_loop (little_endian : bool) (bs : bytes) : bool :=
  match bs with
  | a :: b :: r =>
      let unit_ := read_u16_code_unit a b little_endian in
      if (0xd800 <=? unit_) && (unit_ <=? 0xdbff) then
        match r with
        | c :: d :: r' =>
            let low := read_u16_code_unit c d little_endian in
            if (low <? 0xdc00) || (0xdfff <? low) then false
            else valid_utf16_loop little_endian r'
        | _ => false
        end
      else if (0xdc00 <=? unit_) && (unit_ <=? 0xdfff) then false
      else valid_utf16_loop little_endian r
  | _ => true
  end.

Definition valid_utf16 (bs : bytes) (little_endian : bool) : bool :=
  if negb (zlen bs mod 2 =? 0) then false else valid_utf16_loop little_endian bs.

Definition read_u32_code_unit (a b c d : byte) (little_endian : bool) : Z :=
  if little_endian
  then Z.lor (Z.lor (Z.lor (b2z a) (Z.shiftl (b2z b) 8)) (Z.shiftl (b2z c) 16))
             (Z.shiftl (b2z d) 24)
  else Z.lor (Z.lor (Z.lor (Z.shiftl (b2z a) 24) (Z.shiftl (b2z b) 16))
                    (Z.shiftl (b2z c) 8)) (b2z d).

Fixpoint valid_utf32_loop (little_endian : bool) (bs : bytes) : bool :=
  match bs with
  | a :: b :: c :: d :: r =>
      let codepoint := read_u32_code_unit a b c d little_endian in
      if (0x10ffff <? codepoint) || ((0xd800 <=? codepoint) && (codepoint <=? 0xdfff))
      then false
      else valid_utf32_loop little_endian r
  | _ => true
  end.

Definition valid_utf32 (bs : bytes) (little_endian : bool) : bool :=
  if negb (zlen bs mod 4 =? 0) then false else valid_utf32_loop little_endian bs.

Definition string_bytes_match_encoding (fact : StringCandidateFact) : bool :=
  match sf_encoding fact with
  | StringEncoding_Bytes => true
  | StringEncoding_Ascii => forallb (fun b => b2z b <=? 0x7f) (sf_bytes fact)
  | StringEncoding_Utf8 => valid_utf8 (sf_bytes fact)
  | StringEncoding_Utf16LE => valid_utf16 (sf_bytes fact) true
  | StringEncoding_Utf16BE => valid_utf16 (sf_bytes fact) false
  | StringEncoding_Utf32LE => valid_utf32 (sf_bytes fact) true
  | StringEncoding_Utf32BE => valid_utf32 (sf_bytes fact) false
  | StringEncoding_Invalid => false
  end.

(** ** What the encodings are (The Unicode Standard, section 3.9) *)

Definition scalar (cp : Z) : Prop := 0 <= cp <= 0x10ffff /\ ~ (0xd800 <= cp <= 0xdfff).

Definition utf8_encode (cp : Z) : bytes :=
  if cp <? 0x80 then [z2b cp]
  else if cp <? 0x800 then [z2b (0xc0 + cp / 64); z2b (0x80 + cp mod 64)]
  else if cp <? 0x10000 then
    [z2b (0xe0 + cp / 4096); z2b (0x80 + (cp / 64) mod 64); z2b (0x80 + cp mod 64)]
  else
    [z2b (0xf0 + cp / 262144); z2b (0x80 + (cp / 4096) mod 64);
     z2b (0x80 + (cp / 64) mod 64); z2b (0x80 + cp mod 64)].

Definition unit16 (little_endian : bool) (u : Z) : bytes :=
  if little_endian then [z2b u; z2b (u / 256)] else [z2b (u / 256); z2b u].

Definition utf16_encode (little_endian : bool) (cp : Z) : bytes :=
  if cp <? 0x10000 then unit16 little_endian cp
  else unit16 little_endian (0xd800 + (cp - 0x10000) / 1024) ++
       unit16 little_endian (0xdc00 + (cp - 0x10000) mod 1024).

Definition utf32_encode (little_endian : bool) (cp : Z) : bytes :=
  let big := [z2b (cp / 16777216); z2b (cp / 65536); z2b (cp / 256); z2b cp] in
  if little_endian then rev big else big.

(** [bs] is the text of [cps] in [encoding]. *)
Definition encodes (encoding : StringEncoding) (cps : list Z) (bs : bytes) : Prop :=
  match encoding with
  | StringEncoding_Bytes => True
  | StringEncoding_Ascii => Forall (fun cp => cp < 0x80) cps /\ bs = concat (map utf8_encode cps)
  | StringEncoding_Utf8 => bs = concat (map utf8_encode cps)
  | StringEncoding_Utf16LE => bs = concat (map (utf16_encode true) cps)
  | StringEncoding_Utf16BE => bs = concat (map (utf16_encode false) cps)
  | StringEncoding_Utf32LE => bs = concat (map (utf32_encode true) cps)
  | StringEncoding_Utf32BE => bs = concat (map (utf32_encode false) cps)
  | StringEncoding_Invalid => False
  end.

(** ** Bit arithmetic of the decoders *)

Lemma land_c0 (b : byte) :
  (Z.land (b2z b) 0xc0 =? 0x80) = ((0x80 <=? b2z b) && (b2z b <? 0xc0)).
Proof. by destruct b. Qed.

Lemma land_3f (b : byte) : Z.land (b2z b) 0x3f = b2z b mod 64.
Proof. by destruct b. Qed.

Lemma utf8_continuations_step n cp b r :
  utf8_continuations (S n) cp (b :: r) =
    if (0x80 <=? b2z b) && (b2z b <? 0xc0)
    then utf8_continuations n (cp * 64 + (b2z b - 0x80)) r else None.
Proof.
  cbn [utf8_continuations]. rewrite land_c0, land_3f.
  destruct (Z.leb_spec 0x80 (b2z b)), (Z.ltb_spec (b2z b) 0xc0); simpl; try done.
  pose proof (b2z_range b). rewrite lor_shiftl_add by div_mod_lia.
  do 2 f_equal. change (2 ^ 6) with 64. div_mod_lia.
Qed.

Lemma utf8_lead_value (b : byte) :
  utf8_lead (b2z b) =
    if (0xc2 <=? b2z b) && (b2z b <=? 0xdf) then Some (b2z b - 0xc0, 1%nat, 0x80)
    else if (0xe0 <=? b2z b) && (b2z b <=? 0xef) then Some (b2z b - 0xe0, 2%nat, 0x800)
    else if (0xf0 <=? b2z b) && (b2z b <=? 0xf4) then Some (b2z b - 0xf0, 3%nat, 0x10000)
    else None.
Proof. by destruct b. Qed.

Ltac bool_cases :=
  repeat match goal with
  | |- context [?a <=? ?b] => destruct (Z.leb_spec a b); try (exfalso; div_mod_lia)
  | |- context [?a <? ?b] => destruct (Z.ltb_spec a b); try (exfalso; div_mod_lia)
  end; cbn [andb orb negb].

(** [z2b] of an expression known to be the value of a byte. *)
Lemma z2b_eq (b : byte) v : v = b2z b -> z2b v = b.
Proof. intros ->. apply z2b_b2z. Qed.

Lemma utf8_encode_step fuel cp rest :
  scalar cp ->
  valid_utf8_loop (S fuel) (utf8_encode cp ++ rest) = valid_utf8_loop fuel rest.
Proof.
  intros [Hr Hs]. unfold utf8_encode.
  pose proof (zlen_nonneg rest).
  destruct (Z.ltb_spec cp 0x80); [|destruct (Z.ltb_spec cp 0x800);
    [|destruct (Z.ltb_spec cp 0x10000)]];
    cbn [app valid_utf8_loop]; rewrite ?utf8_lead_value, ?zlen_cons, !b2z_z2b.
  - bool_cases. done.
  - bool_cases. rewrite !utf8_continuations_step, !b2z_z2b.
    bool_cases. cbn [utf8_continuations]. bool_cases; done.
  - bool_cases. rewrite !utf8_continuations_step, !b2z_z2b.
    bool_cases. cbn [utf8_continuations]. bool_cases; done.
  - bool_cases. rewrite !utf8_continuations_step, !b2z_z2b.
    bool_cases. cbn [utf8_continuations]. bool_cases; done.
Qed.

(** Split the conditions of an accepted input into arithmetic facts. *)
Ltac accepted :=
  repeat match goal with
  | H : false = true |- _ => discriminate H
  | H : context [if ?b then _ else _] |- _ => destruct b eqn:?
  | H : (_ || _) = false |- _ => apply orb_false_iff in H as [? ?]
  | H : (_ && _) = true |- _ => apply andb_true_iff in H as [? ?]
  | H : (_ && _) = false |- _ => apply andb_false_iff in H
  end.

Lemma utf8_decode_step fuel b r :
  valid_utf8_loop (S fuel) (b :: r) = true ->
  exists cp r', scalar cp /\ b :: r = utf8_encode cp ++ r' /\ valid_utf8_loop fuel r' = true.
Proof.
  cbn [valid_utf8_loop]. pose proof (b2z_range b).
  destruct (Z.leb_spec (b2z b) 0x7f) as [Ha|Ha].
  { intros Hv. exists (b2z b), r. unfold scalar, utf8_encode.
    destruct (Z.ltb_spec (b2z b) 0x80); [|lia]. rewrite z2b_b2z. split_and!; [lia..|done|done]. }
  rewrite utf8_lead_value. intros Hv.
  destruct ((0xc2 <=? b2z b) && (b2z b <=? 0xdf)) eqn:E2;
    [|destruct ((0xe0 <=? b2z b) && (b2z b <=? 0xef)) eqn:E3;
      [|destruct ((0xf0 <=? b2z b) && (b2z b <=? 0xf4)) eqn:E4; [|done]]].
  - destruct r as [|c1 r]; [done|]. rewrite !utf8_continuations_step in Hv.
    cbn [utf8_continuations] in Hv. pose proof (b2z_range c1). accepted.
    exists ((b2z b - 0xc0) * 64 + (b2z c1 - 0x80)), r.
    unfold scalar, utf8_encode. bool_cases. split_and!; [lia..| |done].
    cbn [app]. repeat f_equal; symmetry; apply z2b_eq; div_mod_lia.
  - destruct r as [|c1 [|c2 r]]; [done|by accepted|]. rewrite !utf8_continuations_step in Hv.
    cbn [utf8_continuations] in Hv. pose proof (b2z_range c1). pose proof (b2z_range c2).
    accepted;
    (exists (((b2z b - 0xe0) * 64 + (b2z c1 - 0x80)) * 64 + (b2z c2 - 0x80)), r;
     unfold scalar, utf8_encode; bool_cases; split_and!; [lia..| |done];
     cbn [app]; repeat f_equal; symmetry; apply z2b_eq; div_mod_lia).
  - destruct r as [|c1 [|c2 [|c3 r]]]; [done|by accepted|by accepted|].
    rewrite !utf8_continuations_step in Hv.
    cbn [utf8_continuations] in Hv. pose proof (b2z_range c1). pose proof (b2z_range c2).
    pose proof (b2z_range c3). accepted;
    (exists ((((b2z b - 0xf0) * 64 + (b2z c1 - 0x80)) * 64 + (b2z c2 - 0x80)) * 64
            + (b2z c3 - 0x80)), r;
     unfold scalar, utf8_encode; bool_cases; split_and!; [lia..| |done];
     cbn [app]; repeat f_equal; symmetry; apply z2b_eq; div_mod_lia).
Qed.

Lemma utf8_encode_nonempty cp : (0 < length (utf8_encode cp))%nat.
Proof. unfold utf8_encode. repeat case_match; simpl; lia. Qed.

Lemma valid_utf8_encoded cps fuel :
  Forall scalar cps -> (length cps <= fuel)%nat ->
  valid_utf8_loop fuel (concat (map utf8_encode cps)) = true.
Proof.
  intros H. revert fuel. induction H as [|cp cps Hcp _ IH]; intros fuel Hf; [by destruct fuel|].
  destruct fuel as [|fuel]; [simpl in Hf; lia|]. cbn [map concat].
  rewrite utf8_encode_step by done. apply IH. simpl in Hf. lia.
Qed.

Lemma valid_utf8_loop_decodes fuel bs :
  valid_utf8_loop fuel bs = true ->
  exists cps, Forall scalar cps /\ bs = concat (map utf8_encode cps).
Proof.
  revert bs. induction fuel as [|fuel IH]; intros [|b r] Hv; [by exists []|done|by exists []|].
  destruct (utf8_decode_step _ _ _ Hv) as (cp & r' & Hcp & -> & Hv').
  destruct (IH _ Hv') as (cps & Hcps & ->). exists (cp :: cps). split; [by constructor|done].
Qed.

Lemma concat_length_ge {A} (f : A -> bytes) l :
  (forall x, (0 < length (f x))%nat) -> (length l <= length (concat (map f l)))%nat.
Proof.
  intros H. induction l as [|x l IH]; simpl; [lia|]. rewrite length_app.
  pose proof (H x). lia.
Qed.

Lemma valid_utf8_iff bs :
  valid_utf8 bs = true <-> exists cps, Forall scalar cps /\ bs = concat (map utf8_encode cps).
Proof.
  split; [apply valid_utf8_loop_decodes|]. intros (cps & H & ->).
  apply valid_utf8_encoded; [done|]. apply concat_length_ge, utf8_encode_nonempty.
Qed.

(** *** UTF-16 and UTF-32 *)

Lemma read_u16_value a b le :
  read_u16_code_unit a b le = if le then b2z b * 256 + b2z a else b2z a * 256 + b2z b.
Proof.
  pose proof (b2z_range a). pose proof (b2z_range b). unfold read_u16_code_unit.
  destruct le; [rewrite Z.lor_comm|]; by rewrite lor_shiftl_add by lia.
Qed.

Lemma read_u32_value a b c d le :
  read_u32_code_unit a b c d le =
    if le then ((b2z d * 256 + b2z c) * 256 + b2z b) * 256 + b2z a
    else ((b2z a * 256 + b2z b) * 256 + b2z c) * 256 + b2z d.
Proof.
  pose proof (b2z_range a). pose proof (b2z_range b).
  pose proof (b2z_range c). pose proof (b2z_range d). unfold read_u32_code_unit.
  destruct le.
  - rewrite (Z.lor_comm _ (Z.shiftl (b2z d) 24)), (Z.lor_comm _ (Z.shiftl (b2z c) 16)),
      (Z.lor_comm _ (Z.shiftl (b2z b) 8)).
    rewrite (lor_shiftl_add (b2z b)) by lia. rewrite (lor_shiftl_add (b2z c)) by lia.
    rewrite lor_shiftl_add by lia. lia.
  - rewrite <- !Z.lor_assoc. rewrite (lor_shiftl_add (b2z c)) by lia.
    rewrite (lor_shiftl_add (b2z b)) by lia. rewrite lor_shiftl_add by lia. lia.
Qed.

Lemma read_unit16 le u a b :
  0 <= u < 65536 -> unit16 le u = [a; b] -> read_u16_code_unit a b le = u.
Proof.
  intros Hu. rewrite read_u16_value. unfold unit16.
  destruct le; intros [= <- <-]; rewrite !b2z_z2b; div_mod_lia.
Qed.

Lemma unit16_read le a b : unit16 le (read_u16_code_unit a b le) = [a; b].
Proof.
  pose proof (b2z_range a). pose proof (b2z_range b).
  rewrite read_u16_value. unfold unit16.
  destruct le; repeat f_equal; apply b2z_inj; rewrite b2z_z2b; div_mod_lia.
Qed.

Lemma unit16_two le u : exists a b, unit16 le u = [a; b].
Proof. destruct le; by do 2 eexists. Qed.

Lemma utf16_encode_step le cp rest :
  scalar cp ->
  valid_utf16_loop le (utf16_encode le cp ++ rest) = valid_utf16_loop le rest.
Proof.
  intros [Hr Hs]. unfold utf16_encode. destruct (Z.ltb_spec cp 0x10000).
  - destruct (unit16_two le cp) as (a & b & Hab). 
    pose proof (read_unit16 le cp a b ltac:(lia) Hab) as Hu.
    rewrite Hab. cbn [app valid_utf16_loop]. rewrite Hu. bool_cases; done.
  - set (hi := 0xd800 + (cp - 0x10000) / 1024). set (lo := 0xdc00 + (cp - 0x10000) mod 1024).
    assert (0xd800 <= hi <= 0xdbff) by (unfold hi; div_mod_lia).
    assert (0xdc00 <= lo <= 0xdfff) by (unfold lo; div_mod_lia).
    destruct (unit16_two le hi) as (a & b & Hab), (unit16_two le lo) as (c & d & Hcd).
    rewrite Hab, Hcd. cbn [app valid_utf16_loop].
    rewrite (read_unit16 le hi a b ltac:(lia) Hab), (read_unit16 le lo c d ltac:(lia) Hcd).
    bool_cases. done.
Qed.

Lemma utf16_decode_step le a b r :
  valid_utf16_loop le (a :: b :: r) = true ->
  exists cp r', scalar cp /\ a :: b :: r = utf16_encode le cp ++ r' /\
                valid_utf16_loop le r' = true /\ (length r' <= length r)%nat.
Proof.
  cbn [valid_utf16_loop]. set (u := read_u16_code_unit a b le). intros Hv.
  assert (0 <= u < 65536) as Hu.
  { unfold u. rewrite read_u16_value. pose proof (b2z_range a). pose proof (b2z_range b).
    destruct le; lia. }
  destruct ((0xd800 <=? u) && (u <=? 0xdbff)) eqn:Ehi.
  - destruct r as [|c [|d r]]; [done..|]. set (l := read_u16_code_unit c d le) in *.
    accepted.
    exists (0x10000 + (u - 0xd800) * 1024 + (l - 0xdc00)), r.
    unfold scalar, utf16_encode. bool_cases. split_and!; [lia..| |done|simpl; lia].
    replace (0xd800 + _) with u by div_mod_lia. replace (0xdc00 + _) with l by div_mod_lia.
    unfold u, l. by rewrite !unit16_read.
  - destruct ((0xdc00 <=? u) && (u <=? 0xdfff)) eqn:Elo; [done|].
    exists u, r. unfold scalar, utf16_encode. accepted.
    bool_cases; (split_and!; [lia..| |done|lia]); unfold u; by rewrite unit16_read.
Qed.

Lemma utf16_encode_length le cp :
  exists k, length (utf16_encode le cp) = (2 * k)%nat.
Proof.
  unfold utf16_encode. destruct (unit16_two le cp) as (? & ? & ->).
  destruct (unit16_two le (0xd800 + (cp - 0x10000) / 1024)) as (? & ? & ->).
  destruct (unit16_two le (0xdc00 + (cp - 0x10000) mod 1024)) as (? & ? & ->).
  case_match; [by exists 1%nat|by exists 2%nat].
Qed.

Lemma utf16_concat_length le cps :
  exists k, length (concat (map (utf16_encode le) cps)) = (2 * k)%nat.
Proof.
  induction cps as [|cp cps [k IH]]; [by exists O|].
  destruct (utf16_encode_length le cp) as [k' Hk]. exists (k' + k)%nat.
  cbn [map concat]. rewrite length_app. lia.
Qed.

Lemma valid_utf16_loop_decodes le n bs :
  (length bs <= n)%nat -> zlen bs mod 2 = 0 -> valid_utf16_loop le bs = true ->
  exists cps, Forall scalar cps /\ bs = concat (map (utf16_encode le) cps).
Proof.
  revert bs. induction n as [|n IH]; intros bs Hn Heven Hv.
  { destruct bs; [by exists []|simpl in Hn; lia]. }
  destruct bs as [|a [|b r]]; [by exists []|done|].
  destruct (utf16_decode_step _ _ _ _ Hv) as (cp & r' & Hcp & Heq & Hv' & Hl).
  destruct (IH r') as (cps & Hcps & ->); [simpl in Hn; lia| |done|].
  - apply (f_equal length) in Heq. rewrite length_app in Heq.
    destruct (utf16_encode_length le cp) as [k Hk]. unfold zlen in *. simpl in *.
    div_mod_lia.
  - exists (cp :: cps). split; [by constructor|done].
Qed.

Lemma valid_utf16_encoded le cps :
  Forall scalar cps -> valid_utf16_loop le (concat (map (utf16_encode le) cps)) = true.
Proof.
  induction 1 as [|cp cps Hcp _ IH]; [done|]. cbn [map concat]. by rewrite utf16_encode_step.
Qed.

Lemma valid_utf16_iff bs le :
  valid_utf16 bs le = true <->
  exists cps, Forall scalar cps /\ bs = concat (map (utf16_encode le) cps).
Proof.
  unfold valid_utf16. destruct (Z.eqb_spec (zlen bs mod 2) 0) as [He|He]; cbn [negb].
  - split; [by apply (valid_utf16_loop_decodes le (length bs))|].
    intros (cps & H & ->). by apply valid_utf16_encoded.
  - split; [done|]. intros (cps & H & ->). destruct (utf16_concat_length le cps) as [k Hk].
    unfold zlen in He. rewrite Hk in He. div_mod_lia.
Qed.

Lemma utf32_encode_bytes le cp :
  scalar cp -> exists a b c d, utf32_encode le cp = [a; b; c; d] /\
    read_u32_code_unit a b c d le = cp.
Proof.
  intros [Hr _]. unfold utf32_encode.
  destruct le; do 4 eexists; (split; [reflexivity|]);
    rewrite read_u32_value, !b2z_z2b; div_mod_lia.
Qed.

Lemma utf32_encode_read le a b c d :
  utf32_encode le (read_u32_code_unit a b c d le) = [a; b; c; d].
Proof.
  pose proof (b2z_range a). pose proof (b2z_range b).
  pose proof (b2z_range c). pose proof (b2z_range d).
  rewrite read_u32_value. unfold utf32_encode.
  destruct le; cbn [rev app]; repeat f_equal; apply b2z_inj; rewrite b2z_z2b; div_mod_lia.
Qed.

Lemma valid_utf32_iff bs le :
  valid_utf32 bs le = true <->
  exists cps, Forall scalar cps /\ bs = concat (map (utf32_encode le) cps).
Proof.
  unfold valid_utf32. destruct (Z.eqb_spec (zlen bs mod 4) 0) as [He|He]; cbn [negb].
  - split.
    + remember (length bs) as n eqn:Hn. revert bs Hn He.
      induction n as [n IH] using lt_wf_ind. intros bs -> He Hv.
      destruct bs as [|a [|b [|c [|d r]]]]; [by exists []|done..|].
      cbn [valid_utf32_loop] in Hv. accepted.
      destruct (IH (length r) ltac:(simpl; lia) r eq_refl) as (cps & Hcps & ->); [|done|].
      { rewrite !zlen_cons in He. div_mod_lia. }
      exists (read_u32_code_unit a b c d le :: cps). cbn [map concat].
      rewrite utf32_encode_read. split; [|done]. constructor; [|done].
      pose proof (b2z_range a). pose proof (b2z_range b).
      pose proof (b2z_range c). pose proof (b2z_range d).
      rewrite read_u32_value in *. unfold scalar. destruct le; lia.
    + intros (cps & H & ->). clear He. induction H as [|cp cps Hcp _ IH]; [done|].
      destruct (utf32_encode_bytes le cp Hcp) as (a & b & c & d & Hb & Hread).
      cbn [map concat]. rewrite Hb. cbn [app valid_utf32_loop]. rewrite Hread.
      destruct Hcp as [Hr Hs]. bool_cases; done.
  - split; [done|]. intros (cps & H & ->). exfalso. apply He. clear He.
    induction H as [|cp cps Hcp _ IH]; [done|].
    destruct (utf32_encode_bytes le cp Hcp) as (a & b & c & d & Hb & _).
    cbn [map concat]. rewrite Hb, zlen_app. change (zlen [a; b; c; d]) with 4. div_mod_lia.
Qed.

Lemma forallb_ascii bs :
  forallb (fun b => b2z b <=? 0x7f) bs = true <-> Forall (fun b => b2z b <= 0x7f) bs.
Proof.
  induction bs as [|b bs IH]; simpl; [by split|].
  by rewrite andb_true_iff, Forall_cons, IH, Z.leb_le.
Qed.

Lemma ascii_iff bs :
  forallb (fun b => b2z b <=? 0x7f) bs = true <->
  exists cps, Forall scalar cps /\ Forall (fun cp => cp < 0x80) cps /\
              bs = concat (map utf8_encode cps).
Proof.
  rewrite forallb_ascii. split.
  - intros H. exists (map b2z bs). split_and!.
    + apply Forall_forall. intros cp [b [-> Hb]]%list_elem_of_fmap.
      rewrite Forall_forall in H. specialize (H b Hb). pose proof (b2z_range b).
      unfold scalar. lia.
    + apply Forall_forall. intros cp [b [-> Hb]]%list_elem_of_fmap.
      rewrite Forall_forall in H. specialize (H b Hb). lia.
    + induction H as [|b bs Hb _ IH]; [done|]. cbn [map concat]. rewrite <- IH.
      unfold utf8_encode. destruct (Z.ltb_spec (b2z b) 0x80); [|lia]. by rewrite z2b_b2z.
  - intros (cps & Hs & Hlt & ->). induction Hlt as [|cp cps Hcp _ IH]; [constructor|].
    inversion_clear Hs as [|? ? [Hr _] Hs']. cbn [map concat].
    unfold utf8_encode at 1. destruct (Z.ltb_spec cp 0x80); [|lia].
    constructor; [|by apply IH]. rewrite b2z_z2b, Z.mod_small by lia. lia.
Qed.

(** ** Properties *)

(** The validator of string candidates accepts the bytes exactly when they
    are the encoding, in the declared encoding, of some sequence of Unicode
    scalar values: surrogates, overlong forms, values past U+10FFFF, truncated
    sequences and stray bytes are all rejected, and nothing else is. *)
Theorem string_validation_exact (fact : StringCandidateFact) :
  string_bytes_match_encoding fact = true <->
  exists cps, Forall scalar cps /\ encodes (sf_encoding fact) cps (sf_bytes fact).
Proof.
  destruct fact as [address enc bs decoded nt]. unfold string_bytes_match_encoding. simpl.
  destruct enc; simpl.
  - split; [|done]. intros _. by exists [].
  - apply ascii_iff.
  - apply valid_utf8_iff.
  - apply valid_utf16_iff.
  - apply valid_utf16_iff.
  - apply valid_utf32_iff.
  - apply valid_utf32_iff.
  - split; [done|]. by intros (? & ? & ?).
Qed.
