(* ===== verification/Validate.v ===== *)
(** Normalization and validation of facts ([src/src/analysis_facts.cpp]): the
    comparators of the set-like vectors, [normalize_*] and [validate_*].

    A C++ normalizer updates its argument and returns what the validator says;
    here [normalize_payload_value] is the update and [normalize_payload] the
    whole call, [Ok] with the updated payload or [Err] with the message. *)
From stdpp Require Import base numbers list strings option sets.
From Stdlib Require Import ZArith Init.Byte Sorting.Sorted Lia.
From S2P Require Import Prelude FactTypes Text.

(** ** Ranges *)

Definition range_valid (start end_ : Address) : bool := start <? end_.

Definition sized_range_valid (start size : Z) : bool :=
  negb (size =? 0) && ((size - 1) <=? u64_max - start).

(** ** Comparators *)

Definition dispatch_case_less (lhs rhs : DispatchCase) : bool :=
  let has c := if dc_selector c then true else false in
  if negb (Bool.eqb (has lhs) (has rhs)) then has lhs
  else if dc_selector lhs != dc_selector rhs
       then option_lt Z.ltb (dc_selector lhs) (dc_selector rhs)
       else dc_target lhs <? dc_target rhs.

Definition dispatch_case_equal (lhs rhs : DispatchCase) : bool :=
  (dc_selector lhs == dc_selector rhs) && (dc_target lhs =? dc_target rhs).

Definition call_value_key (v : CallValue) : Z * (string * bytes) :=
  (cv_ordinal v, (cv_location v, cv_bytes v)).

Definition call_value_less (lhs rhs : CallValue) : bool :=
  pair_lt Z.ltb (pair_lt string_lt bytes_lt) (call_value_key lhs) (call_value_key rhs).

Definition call_value_equal (lhs rhs : CallValue) : bool :=
  (cv_ordinal lhs =? cv_ordinal rhs) && (cv_location lhs == cv_location rhs) &&
  (cv_bytes lhs == cv_bytes rhs).

(** ** Normalization *)

Definition normalize_call_values (values : list CallValue) : list CallValue :=
  std_unique call_value_equal (std_sort call_value_less values).

Definition normalize_trait_value (value : TraitValue) : TraitValue :=
  let kind := tv_kind value in
  {| tv_kind := kind;
     tv_signed_value := if kind != TraitValueKind_Signed then 0 else tv_signed_value value;
     tv_unsigned_value := if kind != TraitValueKind_Unsigned then 0 else tv_unsigned_value value;
     tv_boolean_value :=
       if kind != TraitValueKind_Boolean then false else tv_boolean_value value;
     tv_text_value := if kind != TraitValueKind_Text then ""%string else tv_text_value value |}.

Definition normalize_payload_value (payload : FactPayload) : FactPayload :=
  match payload with
  | P_FunctionTrait f =>
      P_FunctionTrait
        {| ft_function := ft_function f; ft_trait := ft_trait f;
           ft_value := normalize_trait_value (ft_value f) |}
  | P_DispatchMap f =>
      P_DispatchMap
        {| dm_site := dm_site f;
           dm_cases := std_unique dispatch_case_equal (std_sort dispatch_case_less (dm_cases f));
           dm_default_target := dm_default_target f; dm_complete := dm_complete f |}
  | P_CallObservation f =>
      P_CallObservation
        {| co_source := co_source f; co_target := co_target f; co_kind := co_kind f;
           co_result := co_result f; co_arguments := normalize_call_values (co_arguments f);
           co_returns := normalize_call_values (co_returns f) |}
  | _ => payload
  end.

Definition normalize_evidence_value (evidence : Evidence) : Evidence :=
  {| ev_producer := ev_producer evidence; ev_method := ev_method evidence;
     ev_proof := ev_proof evidence; ev_confidence := ev_confidence evidence;
     ev_scope := ev_scope evidence;
     ev_support_addresses :=
       std_unique Z.eqb (std_sort Z.ltb (ev_support_addresses evidence));
     ev_detail := ev_detail evidence |}.

(** ** Validation of payloads *)

Definition validate_trait_value (value : TraitValue) : result unit :=
  reject "function trait has an invalid value kind"
    when negb (enum_between (tv_kind value) TraitValueKind_None TraitValueKind_Text) ;;
  reject "inactive function-trait text field is non-empty"
    when (tv_kind value != TraitValueKind_Text) && (tv_text_value value != ""%string) ;;
  reject "inactive function-trait signed field is non-zero"
    when (tv_kind value != TraitValueKind_Signed) && negb (tv_signed_value value =? 0) ;;
  reject "inactive function-trait unsigned field is non-zero"
    when (tv_kind value != TraitValueKind_Unsigned) && negb (tv_unsigned_value value =? 0) ;;
  reject "inactive function-trait boolean field is non-zero"
    when (tv_kind value != TraitValueKind_Boolean) && tv_boolean_value value ;;
  Ok tt.

Definition validate_trait_value_for_kind (trait : FunctionTraitKind) (value : TraitValue) :
    result unit :=
  let kind := tv_kind value in
  let require (condition : bool) (expectation : string) : result unit :=
    if condition then Ok tt
    else Err (String.append "function trait requires " expectation) in
  match trait with
  | FunctionTraitKind_Returns | FunctionTraitKind_NoReturn
  | FunctionTraitKind_Leaf | FunctionTraitKind_Thunk =>
      require (kind == TraitValueKind_None) "no value"
  | FunctionTraitKind_StackDelta =>
      require (kind == TraitValueKind_Signed) "a signed stack delta"
  | FunctionTraitKind_ArgumentRegister =>
      require ((kind == TraitValueKind_Unsigned) || (kind == TraitValueKind_Text))
        "an unsigned register id or register name"
  | FunctionTraitKind_ReturnConstant =>
      require ((kind == TraitValueKind_Signed) || (kind == TraitValueKind_Unsigned))
        "a signed or unsigned return constant"
  | FunctionTraitKind_WrapperTarget =>
      require (kind == TraitValueKind_Unsigned) "an unsigned wrapper target address"
  | FunctionTraitKind_CallingConvention =>
      require (kind == TraitValueKind_Text) "a calling-convention name"
  | FunctionTraitKind_Other => Ok tt
  | FunctionTraitKind_Invalid => Err ""
  end.

(** The loop of [validate_call_values]; [previous] is [values[i - 1]]. *)
Fixpoint validate_call_values_from (role : string) (previous : option CallValue)
    (values : list CallValue) : result unit :=
  let msg text := (String.append "call " (String.append role text)) in
  match values with
  | [] => Ok tt
  | value :: r =>
      if str_len (cv_location value) =? 0 then Err (msg " location is empty")
      else if zlen (cv_bytes value) =? 0 then Err (msg " value is empty")
      else if (u32_max <? str_len (cv_location value)) || (u32_max <? zlen (cv_bytes value))
      then Err (msg " value exceeds a canonical length limit")
      else if match previous with
              | Some p => (cv_ordinal p =? cv_ordinal value) && (cv_location p == cv_location value)
              | None => false
              end
      then Err (msg " assigns one ABI location multiple values")
      else validate_call_values_from role (Some value) r
  end.

Definition validate_call_values (values : list CallValue) (role : string) : result unit :=
  let msg text := (String.append "call " (String.append role text)) in
  if u32_max <? zlen values then Err (msg " vector exceeds the canonical item limit")
  else if negb (is_sorted call_value_less values)
  then Err (msg " values are not canonically sorted")
  else validate_call_values_from role None values.

(** The pairwise loop over neighbouring dispatch cases. *)
Definition ambiguous_selector (previous current : DispatchCase) : bool :=
  match dc_selector previous with
  | None => false
  | Some _ =>
      (dc_selector current == dc_selector previous) &&
      negb (dc_target current =? dc_target previous)
  end.

Definition validate_string_candidate (f : StringCandidateFact) : result unit :=
  reject "string-candidate fact has an invalid encoding"
    when negb (enum_between (sf_encoding f) StringEncoding_Bytes StringEncoding_Utf32BE) ;;
  reject "empty string candidate must include a terminator observation"
    when (zlen (sf_bytes f) =? 0) && negb (sf_null_terminated f) ;;
  reject "string-candidate fact exceeds a canonical length limit"
    when (u32_max <? zlen (sf_bytes f)) || (u32_max <? str_len (sf_decoded f)) ;;
  reject "string-candidate bytes are invalid for the declared encoding"
    when negb (string_bytes_match_encoding f) ;;
  reject "string-candidate display text is not valid UTF-8"
    when negb (str_len (sf_decoded f) =? 0) && negb (valid_utf8 (str_bytes (sf_decoded f))) ;;
  let terminator_size :=
    if sf_null_terminated f then string_code_unit_size (sf_encoding f) else 0 in
  let content_size := zlen (sf_bytes f) in
  reject "string-candidate fact has an overflowing address range"
    when (u64_max - terminator_size <? content_size) ||
         negb (sized_range_valid (sf_address f) ((content_size + terminator_size) mod 2 ^ 64)) ;;
  Ok tt.

Definition validate_dispatch_map (f : DispatchMapFact) : result unit :=
  reject "dispatch-map fact has no destinations"
    when (zlen (dm_cases f) =? 0) && (if dm_default_target f then false else true) ;;
  reject "dispatch-map fact exceeds the canonical item limit"
    when u32_max <? zlen (dm_cases f) ;;
  reject "dispatch-map cases are not canonically sorted"
    when std_sort dispatch_case_less (dm_cases f) != dm_cases f ;;
  reject "dispatch-map cases contain an exact duplicate"
    when adjacent_exists dispatch_case_equal (dm_cases f) ;;
  reject "one dispatch map assigns a selector to multiple targets"
    when adjacent_exists ambiguous_selector (dm_cases f) ;;
  Ok tt.

Definition validate_payload (payload : FactPayload) : result unit :=
  match payload with
  | P_CodeTarget f =>
      reject "code-target fact has an invalid target kind"
        when negb (enum_between (ct_kind f) CodeTargetKind_Unknown CodeTargetKind_Exception) ;;
      Ok tt
  | P_BranchReachability f =>
      reject "branch-reachability fact has an invalid state"
        when negb (enum_between (br_state f) Reachability_NotObserved
                     Reachability_ProvenUnreachable) ;;
      Ok tt
  | P_MemoryAccess f =>
      reject "memory-access fact has an invalid access kind"
        when negb (enum_between (ma_kind f) MemoryAccessKind_Read MemoryAccessKind_ReadWrite) ;;
      reject "memory-access fact has an empty or overflowing address range"
        when negb (sized_range_valid (ma_address f) (ma_size f)) ;;
      Ok tt
  | P_MemoryValue f =>
      reject "memory-value fact has an invalid access kind"
        when negb (enum_between (mv_kind f) MemoryAccessKind_Read MemoryAccessKind_ReadWrite) ;;
      reject "memory-value fact has an empty or overflowing byte range"
        when negb (sized_range_valid (mv_address f) (zlen (mv_bytes f))) ;;
      reject "memory-value fact exceeds the canonical byte limit"
        when u32_max <? zlen (mv_bytes f) ;;
      Ok tt
  | P_StringCandidate f => validate_string_candidate f
  | P_FunctionCandidate f =>
      reject "function-candidate fact has an invalid candidate kind"
        when negb (enum_between (fc_kind f) FunctionCandidateKind_Other
                     FunctionCandidateKind_UserAsserted) ;;
      reject "function-candidate fact has an invalid range"
        when match fc_end f with
             | Some e => negb (range_valid (fc_entry f) e)
             | None => false
             end ;;
      Ok tt
  | P_FunctionTrait f =>
      reject "function-trait fact has an invalid trait kind"
        when negb (enum_between (ft_trait f) FunctionTraitKind_Other
                     FunctionTraitKind_CallingConvention) ;;
      let* _ := validate_trait_value (ft_value f) in
      validate_trait_value_for_kind (ft_trait f) (ft_value f)
  | P_CodeRegion f =>
      reject "code-region fact has an invalid region kind"
        when negb (enum_between (cr_kind f) CodeRegionKind_Unknown CodeRegionKind_Padding) ;;
      reject "code-region fact has an empty or inverted range"
        when negb (range_valid (cr_start f) (cr_end f)) ;;
      Ok tt
  | P_DispatchMap f => validate_dispatch_map f
  | P_CfgCandidate f =>
      reject "CFG-candidate fact has an invalid edge kind"
        when negb (enum_between (cfg_kind f) CfgEdgeKind_Unknown CfgEdgeKind_Indirect) ;;
      reject "CFG-candidate fact has an invalid reachability state"
        when negb (enum_between (cfg_state f) Reachability_NotObserved
                     Reachability_ProvenUnreachable) ;;
      Ok tt
  | P_FunctionOutcome f =>
      reject "function-outcome fact has an invalid stop kind"
        when negb (enum_between (fo_stop f) FunctionStopKind_Unknown
                     FunctionStopKind_TerminatedProcess) ;;
      Ok tt
  | P_RegisterValue f =>
      reject "register-value fact has an invalid state point"
        when negb (enum_between (rv_point f) RegisterStatePoint_BeforeInstruction
                     RegisterStatePoint_CallReturn) ;;
      reject "register-value fact has an empty register id"
        when str_len (rv_register_id f) =? 0 ;;
      reject "register-value fact has an empty value" when zlen (rv_bytes f) =? 0 ;;
      reject "register-value fact exceeds a canonical length limit"
        when (u32_max <? str_len (rv_register_id f)) || (u32_max <? zlen (rv_bytes f)) ;;
      Ok tt
  | P_CallObservation f =>
      reject "call-observation fact has an invalid call kind"
        when negb (enum_between (co_kind f) CallKind_Unknown CallKind_ImportedCall) ;;
      reject "call-observation fact has an invalid result"
        when negb (enum_between (co_result f) CallResult_Unknown CallResult_TimedOut) ;;
      let* _ := validate_call_values (co_arguments f) "argument" in
      let* _ := validate_call_values (co_returns f) "return" in
      reject "call return values require a Returned result"
        when negb (zlen (co_returns f) =? 0) && (co_result f != CallResult_Returned) ;;
      Ok tt
  end.

(** ** Validation of evidence and facts *)

Definition validate_evidence (evidence : Evidence) : result unit :=
  let scope := ev_scope evidence in
  reject "evidence producer id is empty" when str_len (ev_producer evidence) =? 0 ;;
  reject "evidence method id is empty" when str_len (ev_method evidence) =? 0 ;;
  reject "evidence has an invalid proof kind"
    when negb (enum_between (ev_proof evidence) ProofKind_Unknown ProofKind_UserAsserted) ;;
  reject "evidence confidence exceeds 10000 basis points"
    when kMaxConfidence <? ev_confidence evidence ;;
  reject "evidence function_end is present without function_start"
    when match sc_function_end scope, sc_function_start scope with
         | Some _, None => true
         | _, _ => false
         end ;;
  reject "evidence has an invalid function scope"
    when match sc_function_start scope, sc_function_end scope with
         | Some s, Some e => negb (range_valid s e)
         | _, _ => false
         end ;;
  reject "evidence support addresses are not sorted"
    when negb (is_sorted Z.ltb (ev_support_addresses evidence)) ;;
  reject "evidence support addresses contain duplicates"
    when adjacent_exists Z.eqb (ev_support_addresses evidence) ;;
  reject "evidence exceeds a canonical length limit"
    when (u32_max <? zlen (ev_support_addresses evidence)) ||
         (u32_max <? str_len (ev_producer evidence)) ||
         (u32_max <? str_len (ev_method evidence)) ||
         (u32_max <? str_len (ev_detail evidence)) ;;
  Ok tt.

Definition proof_can_establish_unreachable (proof : ProofKind) : bool :=
  (proof == ProofKind_StaticProof) || (proof == ProofKind_SymbolicProof) ||
  (proof == ProofKind_Imported) || (proof == ProofKind_UserAsserted).

(** The reachability a payload asserts, if it asserts one. *)
Definition payload_reachability (payload : FactPayload) : option Reachability :=
  match payload with
  | P_BranchReachability branch => Some (br_state branch)
  | P_CfgCandidate edge => Some (cfg_state edge)
  | _ => None
  end.

Definition validate_fact (fact : AnalysisFact) : result unit :=
  let* _ := validate_payload (af_payload fact) in
  let* _ := validate_evidence (af_evidence fact) in
  reject "proven-unreachable evidence requires a static, symbolic, imported, or user proof"
    when (payload_reachability (af_payload fact) == Some Reachability_ProvenUnreachable) &&
         negb (proof_can_establish_unreachable (ev_proof (af_evidence fact))) ;;
  Ok tt.

(** ** The exported normalizers *)

Definition normalize_payload (payload : FactPayload) : result FactPayload :=
  let payload := normalize_payload_value payload in
  let* _ := validate_payload payload in
  Ok payload.

Definition normalize_evidence (evidence : Evidence) : result Evidence :=
  let evidence := normalize_evidence_value evidence in
  let* _ := validate_evidence evidence in
  Ok evidence.

Definition normalize_fact (fact : AnalysisFact) : result AnalysisFact :=
  let* payload := normalize_payload (af_payload fact) in
  let* evidence := normalize_evidence (af_evidence fact) in
  let fact := {| af_payload := payload; af_evidence := evidence |} in
  let* _ := validate_fact fact in
  Ok fact.

(** ** Facts up to presentation

    Two payloads state the same fact when they differ only in the order and
    multiplicity of set-like vectors and in the inactive fields of a trait
    value: the equivalence that normalization decides. *)

Definition trait_value_same (v w : TraitValue) : Prop :=
  tv_kind v = tv_kind w /\
  match tv_kind v with
  | TraitValueKind_Signed => tv_signed_value v = tv_signed_value w
  | TraitValueKind_Unsigned => tv_unsigned_value v = tv_unsigned_value w
  | TraitValueKind_Boolean => tv_boolean_value v = tv_boolean_value w
  | TraitValueKind_Text => tv_text_value v = tv_text_value w
  | _ => True
  end.

Definition same_set {A} (l1 l2 : list A) : Prop := forall x, x ∈ l1 <-> x ∈ l2.

Definition same_fact (p q : FactPayload) : Prop :=
  match p, q with
  | P_FunctionTrait f, P_FunctionTrait g =>
      ft_function f = ft_function g /\ ft_trait f = ft_trait g /\
      trait_value_same (ft_value f) (ft_value g)
  | P_DispatchMap f, P_DispatchMap g =>
      dm_site f = dm_site g /\ same_set (dm_cases f) (dm_cases g) /\
      dm_default_target f = dm_default_target g /\ dm_complete f = dm_complete g
  | P_CallObservation f, P_CallObservation g =>
      co_source f = co_source g /\ co_target f = co_target g /\ co_kind f = co_kind g /\
      co_result f = co_result g /\ same_set (co_arguments f) (co_arguments g) /\
      same_set (co_returns f) (co_returns g)
  | _, _ => p = q
  end.

Definition same_evidence (e e' : Evidence) : Prop :=
  ev_scope e = ev_scope e' /\ ev_proof e = ev_proof e' /\
  ev_confidence e = ev_confidence e' /\ ev_producer e = ev_producer e' /\
  ev_method e = ev_method e' /\ ev_detail e = ev_detail e' /\
  same_set (ev_support_addresses e) (ev_support_addresses e').

Definition same_analysis_fact (f g : AnalysisFact) : Prop :=
  same_fact (af_payload f) (af_payload g) /\ same_evidence (af_evidence f) (af_evidence g).

(** The normal form of a fact, before validation. *)
Definition normal_form (f : AnalysisFact) : AnalysisFact :=
  {| af_payload := normalize_payload_value (af_payload f);
     af_evidence := normalize_evidence_value (af_evidence f) |}.

(** Every set-like vector of the fact is strictly sorted. *)
Definition vectors_sorted (f : AnalysisFact) : Prop :=
  StrictSorted Z.ltb (ev_support_addresses (af_evidence f)) /\
  match af_payload f with
  | P_DispatchMap d => StrictSorted dispatch_case_less (dm_cases d)
  | P_CallObservation c =>
      StrictSorted call_value_less (co_arguments c) /\
      StrictSorted call_value_less (co_returns c)
  | _ => True
  end.

(** ** The comparators are strict total orders *)

Definition selector_lt (x y : option Z) : bool :=
  match x, y with
  | Some a, Some b => a <? b
  | Some _, None => true
  | None, _ => false
  end.

#[export] Instance selector_lt_total : StrictTotal selector_lt.
Proof.
  split.
  - intros [a|]; simpl; lia.
  - intros [a|] [b|] [c|]; simpl; try done. lia.
  - intros [a|] [b|]; simpl; try done. intros. f_equal. lia.
Qed.

Lemma dispatch_case_less_key lhs rhs :
  dispatch_case_less lhs rhs =
    pair_lt selector_lt Z.ltb (dc_selector lhs, dc_target lhs) (dc_selector rhs, dc_target rhs).
Proof.
  destruct lhs as [[a|] t], rhs as [[b|] u]; unfold dispatch_case_less, pair_lt; simpl; try done.
  case_bool_decide as E; simpl.
  - injection E as ->. by rewrite Z.ltb_irrefl.
  - assert (a <> b) by congruence.
    destruct (Z.ltb_spec a b), (Z.ltb_spec b a); try done; lia.
Qed.

#[export] Instance dispatch_case_less_total : StrictTotal dispatch_case_less.
Proof.
  assert (StrictTotal (fun x y : DispatchCase =>
    pair_lt selector_lt Z.ltb (dc_selector x, dc_target x) (dc_selector y, dc_target y))) as H.
  { apply (StrictTotal_inj (pair_lt selector_lt Z.ltb)). intros [] []; simpl. congruence. }
  split; intros *; rewrite !dispatch_case_less_key; apply H.
Qed.

Lemma call_value_key_inj x y : call_value_key x = call_value_key y -> x = y.
Proof. destruct x, y. unfold call_value_key. simpl. congruence. Qed.

#[export] Instance call_value_less_total : StrictTotal call_value_less.
Proof. apply (StrictTotal_inj (pair_lt Z.ltb (pair_lt string_lt bytes_lt))), call_value_key_inj. Qed.

Lemma dispatch_case_equal_iff x y : dispatch_case_equal x y = true <-> x = y.
Proof.
  destruct x, y. unfold dispatch_case_equal. simpl.
  rewrite andb_true_iff, bool_decide_eq_true, Z.eqb_eq. naive_solver.
Qed.

Lemma call_value_equal_iff x y : call_value_equal x y = true <-> x = y.
Proof.
  destruct x, y. unfold call_value_equal. simpl.
  rewrite !andb_true_iff, !bool_decide_eq_true, Z.eqb_eq. naive_solver.
Qed.

(** ** Strictly sorted vectors *)

Lemma adjacent_exists_strict {A} (lt eq : A -> A -> bool) `{!StrictTotal lt} l :
  StronglySorted (le_by lt) l ->
  (forall x y, x ∈ l -> y ∈ l -> lt x y = false -> lt y x = false -> eq x y = true) ->
  adjacent_exists eq l = false -> StrictSorted lt l.
Proof.
  induction l as [|x l IH]; intros Hs Heq Ha; [constructor|].
  pose proof Hs as Hs'. apply StronglySorted_inv in Hs as [Hs Hx].
  destruct l as [|y l]; [repeat constructor|].
  cbn [adjacent_exists] in Ha. apply orb_false_iff in Ha as [Hxy Ha].
  assert (StrictSorted lt (y :: l)) as Hst.
  { apply IH; [done| |done]. intros. apply Heq; set_solver. }
  constructor; [done|].
  assert (lt x y = true) as Hlt.
  { inversion_clear Hx as [|? ? Hle _]. unfold le_by in Hle.
    destruct (lt x y) eqn:E; [done|]. rewrite Heq in Hxy; set_solver. }
  constructor; [done|]. apply StronglySorted_inv in Hst as [_ Hy].
  eapply Forall_impl; [exact Hy|]. intros z. by apply lt_trans.
Qed.

Lemma StrictSorted_adjacent {A} (lt p : A -> A -> bool) l :
  StrictSorted lt l -> (forall x y, lt x y = true -> p x y = false) ->
  adjacent_exists p l = false.
Proof.
  intros Hs Hp. induction Hs as [|x l Hs IH Hx]; [done|].
  destruct l as [|y l]; [done|]. cbn [adjacent_exists].
  apply orb_false_iff. split; [|done]. apply Hp. by inversion Hx.
Qed.

(** ** Normalization *)

Lemma normalize_call_values_id values :
  StrictSorted call_value_less values -> normalize_call_values values = values.
Proof. apply sort_unique_id; [apply _|apply call_value_equal_iff]. Qed.

Lemma normalize_call_values_strict values :
  StrictSorted call_value_less (normalize_call_values values).
Proof. apply sort_unique_strict; [apply _|apply call_value_equal_iff]. Qed.

Lemma normalize_call_values_idem values :
  normalize_call_values (normalize_call_values values) = normalize_call_values values.
Proof. apply normalize_call_values_id, normalize_call_values_strict. Qed.

Lemma elem_of_normalize_call_values x values : x ∈ normalize_call_values values <-> x ∈ values.
Proof. exact (elem_of_sort_unique call_value_less _ call_value_equal_iff x values). Qed.

Lemma normalize_trait_value_idem v :
  normalize_trait_value (normalize_trait_value v) = normalize_trait_value v.
Proof. destruct v as [[] ? ? ? ?]; reflexivity. Qed.

Lemma normalize_payload_value_idem p :
  normalize_payload_value (normalize_payload_value p) = normalize_payload_value p.
Proof.
  destruct p; simpl; try done.
  - by rewrite normalize_trait_value_idem.
  - do 2 f_equal. apply sort_unique_id; [apply _|apply dispatch_case_equal_iff|].
    apply sort_unique_strict; [apply _|apply dispatch_case_equal_iff].
  - by rewrite !normalize_call_values_idem.
Qed.

Lemma normalize_trait_value_same v w :
  normalize_trait_value v = normalize_trait_value w <-> trait_value_same v w.
Proof.
  destruct v as [k ? ? ? ?], w as [k' ? ? ? ?].
  unfold normalize_trait_value, trait_value_same. simpl. split.
  - intros [= -> ? ? ? ?]. by destruct k'.
  - intros [-> H]. destruct k'; simpl in *; congruence.
Qed.

(** Normalization decides [same_fact]. *)
Lemma normalize_same_fact p q :
  normalize_payload_value p = normalize_payload_value q <-> same_fact p q.
Proof.
  destruct p as [| | | | | |f| |f| | | |f], q as [| | | | | |g| |g| | | |g]; simpl; try done.
  - rewrite <- normalize_trait_value_same. destruct f, g. simpl. split; intros; destruct_and?; split_and?; congruence.
  - unfold same_set.
    rewrite <- (sort_unique_same dispatch_case_less _ dispatch_case_equal_iff).
    destruct f, g. simpl. split; intros; destruct_and?; split_and?; congruence.
  - unfold same_set.
    rewrite <- !(sort_unique_same call_value_less _ call_value_equal_iff).
    fold (normalize_call_values (co_arguments f)) (normalize_call_values (co_arguments g)).
    fold (normalize_call_values (co_returns f)) (normalize_call_values (co_returns g)).
    destruct f, g. simpl. split; intros; destruct_and?; split_and?; congruence.
Qed.

#[export] Instance same_fact_equivalence : Equivalence same_fact.
Proof.
  split.
  - intros p. by apply normalize_same_fact.
  - intros p q H%normalize_same_fact. by apply normalize_same_fact.
  - intros p q r H1%normalize_same_fact H2%normalize_same_fact. apply normalize_same_fact.
    congruence.
Qed.

#[export] Instance normalize_payload_proper : Proper (same_fact ==> eq) normalize_payload.
Proof. intros p q H%normalize_same_fact. unfold normalize_payload. by rewrite H. Qed.

(** ** Validation implies canonical form *)

Definition same_location (previous value : CallValue) : bool :=
  (cv_ordinal previous =? cv_ordinal value) && (cv_location previous == cv_location value).

Lemma validate_call_values_from_ok role previous values :
  validate_call_values_from role previous values = Ok tt ->
  Forall (fun v => cv_location v <> ""%string /\ cv_bytes v <> [] /\
                   str_len (cv_location v) <= u32_max /\ zlen (cv_bytes v) <= u32_max) values /\
  adjacent_exists same_location (option_list previous ++ values) = false.
Proof.
  revert previous. induction values as [|v values IH]; intros previous.
  { intros _. split; [constructor|]. by destruct previous. }
  cbn [validate_call_values_from]. intros H. inv_ok H.
  destruct (IH _ H) as [Hall Hadj]. split.
  - constructor; [|done]. apply orb_false_iff in Hg1 as [? ?].
    split_and!; [by intros E; rewrite E in Hg|by intros E; rewrite E in Hg0|lia..].
  - destruct previous as [p|]; [|done]. simpl in Hadj |- *. apply orb_false_iff. by split.
Qed.

Lemma validate_call_values_ok values role :
  validate_call_values values role = Ok tt ->
  StrictSorted call_value_less values /\ zlen values <= u32_max /\
  Forall (fun v => cv_location v <> ""%string /\ cv_bytes v <> [] /\
                   str_len (cv_location v) <= u32_max /\ zlen (cv_bytes v) <= u32_max) values.
Proof.
  unfold validate_call_values. intros H. inv_ok H.
  apply negb_false_iff in Hg0. apply is_sorted_iff in Hg0; [|apply _].
  apply validate_call_values_from_ok in H as [Hall Hadj]. split_and!; [|lia|done].
  eapply adjacent_exists_strict; [apply _|done| |exact Hadj].
  intros x y _ _ H1 H2. assert (x = y) as -> by by apply lt_total.
  unfold same_location. rewrite Z.eqb_refl. by rewrite bool_decide_eq_true_2.
Qed.

Lemma validate_trait_value_ok v :
  validate_trait_value v = Ok tt -> normalize_trait_value v = v.
Proof.
  intros H. unfold validate_trait_value in H. inv_ok H.
  destruct v as [k s u b t]. unfold normalize_trait_value. simpl in *.
  apply andb_false_iff in Hg0, Hg1, Hg2, Hg3.
  rewrite !negb_false_iff, !bool_decide_eq_true, ?Z.eqb_eq in *.
  f_equal; case_bool_decide; simpl; naive_solver.
Qed.

Lemma validate_dispatch_map_ok f :
  validate_dispatch_map f = Ok tt ->
  StrictSorted dispatch_case_less (dm_cases f) /\ zlen (dm_cases f) <= u32_max.
Proof.
  unfold validate_dispatch_map. intros H. inv_ok H.
  apply negb_false_iff, bool_decide_eq_true in Hg1. split; [|lia].
  eapply adjacent_exists_strict; [apply _| | |exact Hg2].
  - rewrite <- Hg1. apply std_sort_sorted, _.
  - intros x y _ _ H1 H2. apply dispatch_case_equal_iff. by apply lt_total.
Qed.

(** A payload the validator accepts is its own normal form. *)
Lemma validate_payload_normal p :
  validate_payload p = Ok tt -> normalize_payload_value p = p.
Proof.
  destruct p as [| | | | | |f| |f| | | |f]; simpl; try done; intros H.
  - inv_ok H. destruct a. apply validate_trait_value_ok in Hm. rewrite Hm. by destruct f.
  - apply validate_dispatch_map_ok in H as [H _].
    rewrite sort_unique_id; [by destruct f|apply _|apply dispatch_case_equal_iff|done].
  - inv_ok H. destruct a, a0. apply validate_call_values_ok in Hm as [Hm _].
    apply validate_call_values_ok in Hm0 as [Hm0 _].
    rewrite !normalize_call_values_id by done. by destruct f.
Qed.

Lemma validate_evidence_sorted e :
  validate_evidence e = Ok tt -> StrictSorted Z.ltb (ev_support_addresses e).
Proof.
  unfold validate_evidence. intros H. inv_ok H.
  apply negb_false_iff in Hg5. apply is_sorted_iff in Hg5; [|apply _].
  eapply adjacent_exists_strict; [apply _|done| |exact Hg6]. intros. lia.
Qed.

Lemma validate_evidence_normal e :
  validate_evidence e = Ok tt -> normalize_evidence_value e = e.
Proof.
  intros H%validate_evidence_sorted. unfold normalize_evidence_value.
  rewrite sort_unique_id; [by destruct e|apply _|intros; apply Z.eqb_eq|done].
Qed.

Lemma normalize_evidence_value_idem e :
  normalize_evidence_value (normalize_evidence_value e) = normalize_evidence_value e.
Proof.
  unfold normalize_evidence_value. simpl. f_equal.
  apply sort_unique_id; [apply _|intros; apply Z.eqb_eq|].
  apply sort_unique_strict; [apply _|intros; apply Z.eqb_eq].
Qed.

(** ** What the exported normalizers return *)

Lemma normalize_payload_ok p q :
  normalize_payload p = Ok q ->
  q = normalize_payload_value p /\ validate_payload q = Ok tt /\ normalize_payload q = Ok q.
Proof.
  unfold normalize_payload. cbn zeta.
  destruct (validate_payload (normalize_payload_value p)) as [[]|] eqn:E; [|done].
  intros [= <-]. split_and!; [done..|]. rewrite normalize_payload_value_idem. by rewrite E.
Qed.

Lemma normalize_payload_valid p : validate_payload p = Ok tt -> normalize_payload p = Ok p.
Proof.
  intros H. unfold normalize_payload. cbn zeta.
  by rewrite validate_payload_normal, H.
Qed.

Lemma normalize_evidence_ok e e' :
  normalize_evidence e = Ok e' ->
  e' = normalize_evidence_value e /\ validate_evidence e' = Ok tt /\
  normalize_evidence e' = Ok e'.
Proof.
  unfold normalize_evidence. cbn zeta.
  destruct (validate_evidence (normalize_evidence_value e)) as [[]|] eqn:E; [|done].
  intros [= <-]. split_and!; [done..|]. rewrite normalize_evidence_value_idem. by rewrite E.
Qed.

Lemma normalize_evidence_valid e : validate_evidence e = Ok tt -> normalize_evidence e = Ok e.
Proof.
  intros H. unfold normalize_evidence. cbn zeta.
  by rewrite validate_evidence_normal, H.
Qed.

Lemma normalize_fact_ok f g :
  normalize_fact f = Ok g ->
  normalize_payload (af_payload f) = Ok (af_payload g) /\
  normalize_evidence (af_evidence f) = Ok (af_evidence g) /\
  validate_fact g = Ok tt /\ normalize_fact g = Ok g.
Proof.
  unfold normalize_fact. intros H. inv_ok H. destruct a1.
  injection H as <-. cbn [af_payload af_evidence].
  apply normalize_payload_ok in Hm as Hp. destruct Hp as (_ & _ & Hp).
  apply normalize_evidence_ok in Hm0 as He. destruct He as (_ & _ & He).
  split_and!; [done..|]. rewrite Hp. cbn [result_bind]. rewrite He. cbn [result_bind].
  by rewrite Hm1.
Qed.

Lemma validate_fact_parts f :
  validate_fact f = Ok tt ->
  validate_payload (af_payload f) = Ok tt /\ validate_evidence (af_evidence f) = Ok tt.
Proof. unfold validate_fact. intros H. inv_ok H. by destruct a, a0. Qed.

Lemma normalize_fact_valid f : validate_fact f = Ok tt -> normalize_fact f = Ok f.
Proof.
  intros H. pose proof (validate_fact_parts _ H) as [Hp He]. unfold normalize_fact.
  rewrite (normalize_payload_valid _ Hp). cbn [result_bind].
  rewrite (normalize_evidence_valid _ He). cbn [result_bind].
  destruct f. simpl. by rewrite H.
Qed.

(** ** The normal form of a fact *)

Lemma normalize_same_evidence e e' :
  normalize_evidence_value e = normalize_evidence_value e' <-> same_evidence e e'.
Proof.
  unfold normalize_evidence_value, same_evidence, same_set.
  rewrite <- (sort_unique_same Z.ltb _ Z.eqb_eq).
  destruct e, e'. simpl. split; [intros [=]|intros]; destruct_and?; split_and?; congruence.
Qed.

Lemma normal_form_same f g : normal_form f = normal_form g <-> same_analysis_fact f g.
Proof.
  unfold normal_form. split.
  - intros [= Hp He]. split; [by apply normalize_same_fact|].
    apply normalize_same_evidence. unfold normalize_evidence_value. congruence.
  - intros [->%normalize_same_fact ->%normalize_same_evidence]. done.
Qed.

Lemma normal_form_idem f : normal_form (normal_form f) = normal_form f.
Proof.
  unfold normal_form. cbn [af_payload af_evidence].
  by rewrite normalize_payload_value_idem, normalize_evidence_value_idem.
Qed.

Lemma normal_form_sorted f : vectors_sorted (normal_form f).
Proof.
  destruct f as [p e]. split.
  - apply sort_unique_strict; [apply _|intros; apply Z.eqb_eq].
  - destruct p; simpl; try done.
    + apply sort_unique_strict; [apply _|apply dispatch_case_equal_iff].
    + split; apply normalize_call_values_strict.
Qed.

Lemma normalize_fact_normal_form f h :
  normalize_fact f = Ok h <-> h = normal_form f /\ validate_fact h = Ok tt.
Proof.
  split.
  - intros (Hp & He & Hv & _)%normalize_fact_ok. split; [|done].
    apply normalize_payload_ok in Hp as (Hp & _). apply normalize_evidence_ok in He as (He & _).
    destruct h. unfold normal_form. simpl in *. congruence.
  - intros [-> Hv]. pose proof (validate_fact_parts _ Hv) as [Hp He].
    unfold normalize_fact, normalize_payload, normalize_evidence. cbn zeta.
    unfold normal_form in *. cbn [af_payload af_evidence] in Hp, He. rewrite Hp.
    cbn [result_bind]. rewrite He. cbn [result_bind]. by rewrite Hv.
Qed.

(** Normalization keeps field ranges. *)
Lemma Forall_sort_unique {A} (lt eq : A -> A -> bool) `{!StrictTotal lt} P l :
  (forall x y, eq x y = true <-> x = y) ->
  Forall P l -> Forall P (std_unique eq (std_sort lt l)).
Proof.
  intros Heq Hl. apply Forall_forall. intros x.
  rewrite elem_of_sort_unique by (apply _ || done). by apply Forall_forall.
Qed.

Lemma normalize_payload_typed p :
  payload_typed p -> payload_typed (normalize_payload_value p).
Proof.
  destruct p as [| | | | | |f| |f| | | |f]; simpl; try done.
  - intros (? & ? & ?). unfold is_i64, is_u64 in *.
    split_and!; [lia..| | | |]; repeat case_bool_decide; simpl; lia.
  - intros (? & ? & ?). split_and!; [done| |done].
    apply Forall_sort_unique; [apply _|apply dispatch_case_equal_iff|done].
  - intros (? & ? & ? & ?).
    split_and!; [done..| |];
      (apply Forall_sort_unique; [apply _|apply call_value_equal_iff|done]).
Qed.

Lemma normalize_evidence_typed e :
  evidence_typed e -> evidence_typed (normalize_evidence_value e).
Proof.
  intros (? & ? & ?). split_and!; [done..|].
  apply Forall_sort_unique; [apply _|intros; apply Z.eqb_eq|done].
Qed.

(** ** Properties *)

(** C28: normalization is canonical, for whole facts.  Two facts have the same
    normal form exactly when they state the same thing: payloads equal up to the
    order and multiplicity of set-like vectors and the inactive fields of a trait
    value, and evidence equal field by field up to the order and multiplicity of
    the support addresses.  The normal form states the same thing as the fact,
    lists its dispatch cases, call values and support addresses strictly sorted
    (so without duplicates), and is its own normal form.  The exported normalizer
    returns exactly the normal form when the validator accepts that and rejects
    every other fact, and the validator accepts exactly the facts that the
    normalizer returns unchanged. *)
Theorem normalization_canonical (f g : AnalysisFact) :
  (normal_form f = normal_form g <-> same_analysis_fact f g) /\
  same_analysis_fact (normal_form f) f /\
  vectors_sorted (normal_form f) /\
  normal_form (normal_form f) = normal_form f /\
  (forall h, normalize_fact f = Ok h <-> h = normal_form f /\ validate_fact h = Ok tt) /\
  (validate_fact f = Ok tt <-> normalize_fact f = Ok f).
Proof.
  split_and!.
  - apply normal_form_same.
  - apply normal_form_same, normal_form_idem.
  - apply normal_form_sorted.
  - apply normal_form_idem.
  - intros h. apply normalize_fact_normal_form.
  - split; [apply normalize_fact_valid|]. by intros (_ & _ & H & _)%normalize_fact_ok.
Qed.

(** The overflow-free test on [start + size] accepts exactly the non-empty
    ranges whose last byte is an address: no wrap-around is let through and the
    one-byte range at the top of the address space is not lost. *)
Theorem sized_range_valid_exact (start size : Z) :
  is_u64 start -> is_u64 size ->
  sized_range_valid start size = true <-> 0 < size /\ start + size - 1 <= u64_max.
Proof.
  unfold is_u64, sized_range_valid, u64_max. intros ? ?.
  rewrite andb_true_iff, negb_true_iff, Z.eqb_neq, Z.leb_le. lia.
Qed.

Lemma sized_range_valid_exact_witness :
  is_u64 (2 ^ 64 - 1) /\ is_u64 1 /\
  (sized_range_valid (2 ^ 64 - 1) 1 = true <-> 0 < 1 /\ 2 ^ 64 - 1 + 1 - 1 <= u64_max).
Proof.
  split; [unfold is_u64; lia|]. split; [unfold is_u64; lia|].
  apply (sized_range_valid_exact (2 ^ 64 - 1) 1); unfold is_u64; lia.
Defined.
