(* ===== verification/FactCodec.v ===== *)
(** The canonical codecs of [src/src/analysis_facts.cpp]: encoders and decoders
    of payloads, evidence and facts, the stable digests, and the canonical
    comparisons built on the encodings. *)
From stdpp Require Import base numbers list strings option sets.
From Stdlib Require Import ZArith Init.Byte Sorting.Sorted Lia.
From S2P Require Import Prelude FactTypes Sha256 Wire Text Validate.

Definition kPayloadMagic : bytes := str_bytes "VIYP".
Definition kEvidenceMagic : bytes := str_bytes "VIYE".
Definition kFactMagic : bytes := str_bytes "VIYF".

(** ** Payloads *)

Definition w_dispatch_case (c : DispatchCase) : result bytes :=
  Ok (w_optional_u64 (dc_selector c) ++ w_u64 (dc_target c)).

Definition w_call_value (value : CallValue) : result bytes :=
  let* location := w_string (cv_location value) in
  let* data := w_blob (cv_bytes value) in
  Ok (w_u32 (cv_ordinal value) ++ location ++ data).

(** The visitor of [encode_normalized_payload]: the bytes after the kind. *)
Definition encode_payload_body (payload : FactPayload) : result bytes :=
  match payload with
  | P_CodeTarget f =>
      Ok (w_u64 (ct_from f) ++ w_u64 (ct_target f) ++ w_u8 (to_u8 (ct_kind f)) ++
          w_boolean (ct_unique f))
  | P_BranchReachability f =>
      Ok (w_u64 (br_branch f) ++ w_u64 (br_successor f) ++ w_u8 (to_u8 (br_state f)))
  | P_MemoryAccess f =>
      Ok (w_u64 (ma_instruction f) ++ w_u64 (ma_address f) ++ w_u32 (ma_size f) ++
          w_u8 (to_u8 (ma_kind f)))
  | P_MemoryValue f =>
      let* data := w_blob (mv_bytes f) in
      Ok (w_u64 (mv_instruction f) ++ w_u64 (mv_address f) ++ w_u8 (to_u8 (mv_kind f)) ++ data)
  | P_StringCandidate f =>
      let* data := w_blob (sf_bytes f) in
      let* decoded := w_string (sf_decoded f) in
      Ok (w_u64 (sf_address f) ++ w_u8 (to_u8 (sf_encoding f)) ++ data ++ decoded ++
          w_boolean (sf_null_terminated f))
  | P_FunctionCandidate f =>
      Ok (w_u64 (fc_entry f) ++ w_optional_u64 (fc_end f) ++ w_u8 (to_u8 (fc_kind f)))
  | P_FunctionTrait f =>
      let value := ft_value f in
      let* text := w_string (tv_text_value value) in
      Ok (w_u64 (ft_function f) ++ w_u8 (to_u8 (ft_trait f)) ++ w_u8 (to_u8 (tv_kind value)) ++
          w_i64 (tv_signed_value value) ++ w_u64 (tv_unsigned_value value) ++
          w_boolean (tv_boolean_value value) ++ text)
  | P_CodeRegion f =>
      Ok (w_u64 (cr_start f) ++ w_u64 (cr_end f) ++ w_u8 (to_u8 (cr_kind f)))
  | P_DispatchMap f =>
      let* cases := w_list w_dispatch_case (dm_cases f) in
      Ok (w_u64 (dm_site f) ++ w_u32 (zlen (dm_cases f)) ++ cases ++
          w_optional_u64 (dm_default_target f) ++ w_boolean (dm_complete f))
  | P_CfgCandidate f =>
      Ok (w_u64 (cfg_from f) ++ w_u64 (cfg_to f) ++ w_u8 (to_u8 (cfg_kind f)) ++
          w_u8 (to_u8 (cfg_state f)))
  | P_FunctionOutcome f =>
      Ok (w_u64 (fo_function f) ++ w_u8 (to_u8 (fo_stop f)) ++ w_optional_u64 (fo_stop_pc f) ++
          w_optional_i64 (fo_stack_delta f) ++ w_optional_u64 (fo_instruction_count f))
  | P_RegisterValue f =>
      let* register_id := w_string (rv_register_id f) in
      let* data := w_blob (rv_bytes f) in
      Ok (w_u64 (rv_instruction f) ++ w_u8 (to_u8 (rv_point f)) ++ register_id ++ data)
  | P_CallObservation f =>
      let* arguments := w_list w_call_value (co_arguments f) in
      let* returns := w_list w_call_value (co_returns f) in
      Ok (w_u64 (co_source f) ++ w_optional_u64 (co_target f) ++ w_u8 (to_u8 (co_kind f)) ++
          w_u8 (to_u8 (co_result f)) ++ w_u32 (zlen (co_arguments f)) ++ arguments ++
          w_u32 (zlen (co_returns f)) ++ returns)
  end.

Definition encode_normalized_payload (payload : FactPayload) : result bytes :=
  let* body := encode_payload_body payload in
  Ok (kPayloadMagic ++ w_u16 kCodecVersion ++ w_u8 (to_u8 (fact_kind payload)) ++ body).

Definition encode_payload (payload : FactPayload) : result bytes :=
  let* normalized := normalize_payload payload in
  encode_normalized_payload normalized.

Section DecodePayload.
Context (limits : FactCodecLimits).

Definition decode_code_target : Reader FactPayload :=
  from <~ r_u64; target <~ r_u64;
  kind <~ read_enum_u8 CodeTargetKind_Unknown CodeTargetKind_Exception;
  unique <~ r_boolean;
  rd_ret (P_CodeTarget {| ct_from := from; ct_target := target;
                          ct_kind := kind; ct_unique := unique |}).

Definition decode_branch_reachability : Reader FactPayload :=
  branch <~ r_u64; successor <~ r_u64;
  state <~ read_enum_u8 Reachability_NotObserved Reachability_ProvenUnreachable;
  rd_ret (P_BranchReachability {| br_branch := branch; br_successor := successor;
                                  br_state := state |}).

Definition decode_memory_access : Reader FactPayload :=
  instruction <~ r_u64; address <~ r_u64; size <~ r_u32;
  kind <~ read_enum_u8 MemoryAccessKind_Read MemoryAccessKind_ReadWrite;
  rd_ret (P_MemoryAccess {| ma_instruction := instruction; ma_address := address;
                            ma_size := size; ma_kind := kind |}).

Definition decode_memory_value : Reader FactPayload :=
  instruction <~ r_u64; address <~ r_u64;
  kind <~ read_enum_u8 MemoryAccessKind_Read MemoryAccessKind_ReadWrite;
  data <~ r_blob limits;
  rd_ret (P_MemoryValue {| mv_instruction := instruction; mv_address := address;
                           mv_kind := kind; mv_bytes := data |}).

Definition decode_string_candidate : Reader FactPayload :=
  address <~ r_u64;
  encoding <~ read_enum_u8 StringEncoding_Bytes StringEncoding_Utf32BE;
  data <~ r_blob limits; decoded <~ r_string limits; null_terminated <~ r_boolean;
  rd_ret (P_StringCandidate {| sf_address := address; sf_encoding := encoding;
                               sf_bytes := data; sf_decoded := decoded;
                               sf_null_terminated := null_terminated |}).

Definition decode_function_candidate : Reader FactPayload :=
  entry <~ r_u64; end_ <~ read_optional_u64;
  kind <~ read_enum_u8 FunctionCandidateKind_Other FunctionCandidateKind_UserAsserted;
  rd_ret (P_FunctionCandidate {| fc_entry := entry; fc_end := end_; fc_kind := kind |}).

Definition decode_function_trait : Reader FactPayload :=
  function <~ r_u64;
  trait <~ read_enum_u8 FunctionTraitKind_Other FunctionTraitKind_CallingConvention;
  kind <~ read_enum_u8 TraitValueKind_None TraitValueKind_Text;
  signed_value <~ r_i64; unsigned_value <~ r_u64;
  boolean_value <~ r_boolean; text_value <~ r_string limits;
  rd_ret (P_FunctionTrait
    {| ft_function := function; ft_trait := trait;
       ft_value := {| tv_kind := kind; tv_signed_value := signed_value;
                      tv_unsigned_value := unsigned_value;
                      tv_boolean_value := boolean_value; tv_text_value := text_value |} |}).

Definition decode_code_region : Reader FactPayload :=
  start <~ r_u64; end_ <~ r_u64;
  kind <~ read_enum_u8 CodeRegionKind_Unknown CodeRegionKind_Padding;
  rd_ret (P_CodeRegion {| cr_start := start; cr_end := end_; cr_kind := kind |}).

Definition decode_dispatch_case : Reader DispatchCase :=
  selector <~ read_optional_u64; target <~ r_u64;
  rd_ret {| dc_selector := selector; dc_target := target |}.

Definition decode_dispatch_map : Reader FactPayload :=
  site <~ r_u64; count <~ r_count limits;
  cases <~ read_many (Z.to_nat count) decode_dispatch_case;
  default_target <~ read_optional_u64; complete <~ r_boolean;
  rd_ret (P_DispatchMap {| dm_site := site; dm_cases := cases;
                           dm_default_target := default_target; dm_complete := complete |}).

Definition decode_cfg_candidate : Reader FactPayload :=
  from <~ r_u64; to_ <~ r_u64;
  kind <~ read_enum_u8 CfgEdgeKind_Unknown CfgEdgeKind_Indirect;
  state <~ read_enum_u8 Reachability_NotObserved Reachability_ProvenUnreachable;
  rd_ret (P_CfgCandidate {| cfg_from := from; cfg_to := to_;
                            cfg_kind := kind; cfg_state := state |}).

Definition decode_function_outcome : Reader FactPayload :=
  function <~ r_u64;
  stop <~ read_enum_u8 FunctionStopKind_Unknown FunctionStopKind_TerminatedProcess;
  stop_pc <~ read_optional_u64; stack_delta <~ read_optional_i64;
  instruction_count <~ read_optional_u64;
  rd_ret (P_FunctionOutcome {| fo_function := function; fo_stop := stop;
                               fo_stop_pc := stop_pc; fo_stack_delta := stack_delta;
                               fo_instruction_count := instruction_count |}).

Definition decode_register_value : Reader FactPayload :=
  instruction <~ r_u64;
  point <~ read_enum_u8 RegisterStatePoint_BeforeInstruction RegisterStatePoint_CallReturn;
  register_id <~ r_string limits; data <~ r_blob limits;
  rd_ret (P_RegisterValue {| rv_instruction := instruction; rv_point := point;
                             rv_register_id := register_id; rv_bytes := data |}).

Definition decode_call_value : Reader CallValue :=
  ordinal <~ r_u32; location <~ r_string limits; data <~ r_blob limits;
  rd_ret {| cv_ordinal := ordinal; cv_location := location; cv_bytes := data |}.

Definition decode_call_observation : Reader FactPayload :=
  source <~ r_u64; target <~ read_optional_u64;
  kind <~ read_enum_u8 CallKind_Unknown CallKind_ImportedCall;
  result_ <~ read_enum_u8 CallResult_Unknown CallResult_TimedOut;
  argument_count <~ r_count limits;
  arguments <~ read_many (Z.to_nat argument_count) decode_call_value;
  return_count <~ r_count limits;
  returns <~ read_many (Z.to_nat return_count) decode_call_value;
  rd_ret (P_CallObservation {| co_source := source; co_target := target; co_kind := kind;
                               co_result := result_; co_arguments := arguments;
                               co_returns := returns |}).

Definition decode_payload_body (kind : FactKind) : Reader FactPayload :=
  match kind with
  | FactKind_CodeTarget => decode_code_target
  | FactKind_BranchReachability => decode_branch_reachability
  | FactKind_MemoryAccess => decode_memory_access
  | FactKind_MemoryValue => decode_memory_value
  | FactKind_StringCandidate => decode_string_candidate
  | FactKind_FunctionCandidate => decode_function_candidate
  | FactKind_FunctionTrait => decode_function_trait
  | FactKind_CodeRegion => decode_code_region
  | FactKind_DispatchMap => decode_dispatch_map
  | FactKind_CfgCandidate => decode_cfg_candidate
  | FactKind_FunctionOutcome => decode_function_outcome
  | FactKind_RegisterValue => decode_register_value
  | FactKind_CallObservation => decode_call_observation
  | FactKind_Invalid => rd_fail ""
  end.

Definition payload_header : Reader Z :=
  _ <~ r_magic kPayloadMagic; _ <~ read_version; r_u8.

Definition decode_payload (data : bytes) : result FactPayload :=
  reject "payload exceeds configured decode limit" when max_fact_bytes limits <? zlen data ;;
  match payload_header data with
  | RFail e => Err (reader_error e "unsupported payload codec version")
  | RGood raw_kind rest =>
      let kind := of_u8 raw_kind in
      reject "payload has an invalid fact kind"
        when negb (enum_between kind FactKind_CodeTarget FactKind_CallObservation) ;;
      match decode_payload_body kind rest with
      | RFail e => Err (reader_error e "payload contains an invalid enum or field")
      | RGood decoded remaining =>
          reject "payload has trailing bytes" when negb (zlen remaining =? 0) ;;
          let* normalized := normalize_payload decoded in
          let* canonical := encode_normalized_payload normalized in
          reject "payload is valid but non-canonical" when canonical != data ;;
          Ok normalized
      end
  end.
End DecodePayload.

(** ** Evidence *)

Definition w_support_address (address : Address) : result bytes := Ok (w_u64 address).

Definition encode_normalized_evidence (evidence : Evidence) : result bytes :=
  let scope := ev_scope evidence in
  let* producer := w_string (ev_producer evidence) in
  let* method := w_string (ev_method evidence) in
  reject "support-address vector exceeds the canonical 32-bit item limit"
    when u32_max <? zlen (ev_support_addresses evidence) ;;
  let* addresses := w_list w_support_address (ev_support_addresses evidence) in
  let* detail := w_string (ev_detail evidence) in
  Ok (kEvidenceMagic ++ w_u16 kCodecVersion ++ producer ++ method ++
      w_u8 (to_u8 (ev_proof evidence)) ++ w_u16 (ev_confidence evidence) ++
      w_optional_u64 (sc_run_id scope) ++ w_optional_u64 (sc_seed scope) ++
      w_optional_u64 (sc_function_start scope) ++ w_optional_u64 (sc_function_end scope) ++
      w_u64 (sc_generation scope) ++ w_u32 (zlen (ev_support_addresses evidence)) ++
      addresses ++ detail).

Definition encode_evidence (evidence : Evidence) : result bytes :=
  let* normalized := normalize_evidence evidence in
  encode_normalized_evidence normalized.

(** The fields before the support addresses, as one record of what was read. *)
Definition evidence_header (limits : FactCodecLimits) : Reader Evidence :=
  _ <~ r_magic kEvidenceMagic; _ <~ read_version;
  producer <~ r_string limits; method <~ r_string limits;
  proof <~ r_u8; confidence <~ r_u16;
  run_id <~ read_optional_u64; seed <~ read_optional_u64;
  function_start <~ read_optional_u64; function_end <~ read_optional_u64;
  generation <~ r_u64;
  rd_ret {| ev_producer := producer; ev_method := method; ev_proof := of_u8 proof;
            ev_confidence := confidence;
            ev_scope := {| sc_run_id := run_id; sc_seed := seed;
                           sc_function_start := function_start;
                           sc_function_end := function_end; sc_generation := generation |};
            ev_support_addresses := []; ev_detail := "" |}.

Definition with_support (e : Evidence) (addresses : list Address) (detail : string) : Evidence :=
  {| ev_producer := ev_producer e; ev_method := ev_method e; ev_proof := ev_proof e;
     ev_confidence := ev_confidence e; ev_scope := ev_scope e;
     ev_support_addresses := addresses; ev_detail := detail |}.

Definition decode_evidence (limits : FactCodecLimits) (data : bytes) : result Evidence :=
  reject "evidence exceeds configured decode limit" when max_fact_bytes limits <? zlen data ;;
  match evidence_header limits data with
  | RFail e => Err (reader_error e "invalid evidence header")
  | RGood header rest =>
  match r_count limits rest with
  | RFail e => Err (reader_error e "invalid evidence support count")
  | RGood support_count rest =>
  match read_many (Z.to_nat support_count) r_u64 rest with
  | RFail e => Err (reader_error e "truncated evidence support addresses")
  | RGood addresses rest =>
  match r_string limits rest with
  | RFail e => Err (reader_error e "invalid evidence detail")
  | RGood detail remaining =>
      let decoded := with_support header addresses detail in
      reject "evidence has trailing bytes" when negb (zlen remaining =? 0) ;;
      let* _ := validate_evidence decoded in
      let* canonical := encode_normalized_evidence decoded in
      reject "evidence is valid but non-canonical" when canonical != data ;;
      Ok decoded
  end end end end.

(** ** Facts *)

Definition encode_analysis_fact (fact : AnalysisFact) : result bytes :=
  let* normalized := normalize_fact fact in
  let* payload_bytes := encode_normalized_payload (af_payload normalized) in
  let* evidence_bytes := encode_normalized_evidence (af_evidence normalized) in
  let* payload_blob := w_blob payload_bytes in
  let* evidence_blob := w_blob evidence_bytes in
  Ok (kFactMagic ++ w_u16 kCodecVersion ++ payload_blob ++ evidence_blob).

Definition decode_analysis_fact (limits : FactCodecLimits) (data : bytes) : result AnalysisFact :=
  reject "analysis fact exceeds configured decode limit" when max_fact_bytes limits <? zlen data ;;
  match (_ <~ r_magic kFactMagic; read_version) data with
  | RFail e => Err (reader_error e "unsupported analysis-fact codec version")
  | RGood _ rest =>
  match (p <~ r_blob limits; e <~ r_blob limits; rd_ret (p, e)) rest with
  | RFail e => Err (reader_error e "invalid length-delimited analysis fact")
  | RGood (payload_bytes, evidence_bytes) remaining =>
      reject "analysis fact has trailing bytes" when negb (zlen remaining =? 0) ;;
      let* payload := decode_payload limits payload_bytes in
      let* evidence := decode_evidence limits evidence_bytes in
      let decoded := {| af_payload := payload; af_evidence := evidence |} in
      let* canonical := encode_analysis_fact decoded in
      reject "analysis fact is valid but non-canonical" when canonical != data ;;
      Ok decoded
  end end.

(** ** Digests and canonical comparisons *)

Definition payload_digest (payload : FactPayload) : result FactDigest :=
  let* encoded := encode_payload payload in Ok (digest_bytes encoded).
Definition evidence_digest (evidence : Evidence) : result FactDigest :=
  let* encoded := encode_evidence evidence in Ok (digest_bytes encoded).
Definition fact_digest (fact : AnalysisFact) : result FactDigest :=
  let* encoded := encode_analysis_fact fact in Ok (digest_bytes encoded).

Definition invalid_sort_key (message : string) : bytes := xff :: str_bytes message.

Definition sort_key (encoded : result bytes) : bytes :=
  match encoded with Ok b => b | Err e => invalid_sort_key e end.

Definition payload_less (lhs rhs : FactPayload) : bool :=
  bytes_lt (sort_key (encode_payload lhs)) (sort_key (encode_payload rhs)).
Definition evidence_less (lhs rhs : Evidence) : bool :=
  bytes_lt (sort_key (encode_evidence lhs)) (sort_key (encode_evidence rhs)).
Definition analysis_fact_less (lhs rhs : AnalysisFact) : bool :=
  if payload_less (af_payload lhs) (af_payload rhs) then true
  else if payload_less (af_payload rhs) (af_payload lhs) then false
  else evidence_less (af_evidence lhs) (af_evidence rhs).
Definition payload_equal (lhs rhs : FactPayload) : bool :=
  negb (payload_less lhs rhs) && negb (payload_less rhs lhs).
Definition evidence_equal (lhs rhs : Evidence) : bool :=
  negb (evidence_less lhs rhs) && negb (evidence_less rhs lhs).

(** ** What a decoder must allow for *)

Definition call_value_within (limits : FactCodecLimits) (v : CallValue) : Prop :=
  str_len (cv_location v) <= max_string_bytes limits /\ zlen (cv_bytes v) <= max_fact_bytes limits.

Definition payload_within (limits : FactCodecLimits) (payload : FactPayload) : Prop :=
  match payload with
  | P_MemoryValue f => zlen (mv_bytes f) <= max_fact_bytes limits
  | P_StringCandidate f =>
      zlen (sf_bytes f) <= max_fact_bytes limits /\ str_len (sf_decoded f) <= max_string_bytes limits
  | P_FunctionTrait f => str_len (tv_text_value (ft_value f)) <= max_string_bytes limits
  | P_DispatchMap f => zlen (dm_cases f) <= max_vector_items limits
  | P_RegisterValue f =>
      str_len (rv_register_id f) <= max_string_bytes limits /\
      zlen (rv_bytes f) <= max_fact_bytes limits
  | P_CallObservation f =>
      zlen (co_arguments f) <= max_vector_items limits /\
      zlen (co_returns f) <= max_vector_items limits /\
      Forall (call_value_within limits) (co_arguments f) /\
      Forall (call_value_within limits) (co_returns f)
  | _ => True
  end.

Definition evidence_within (limits : FactCodecLimits) (e : Evidence) : Prop :=
  str_len (ev_producer e) <= max_string_bytes limits /\
  str_len (ev_method e) <= max_string_bytes limits /\
  str_len (ev_detail e) <= max_string_bytes limits /\
  zlen (ev_support_addresses e) <= max_vector_items limits.

(** Limits no canonical encoding exceeds. *)
Definition unlimited : FactCodecLimits :=
  {| max_fact_bytes := u64_max; max_string_bytes := u64_max; max_vector_items := u64_max |}.

(** ** Round trip of the bodies *)

Ltac reads_step :=
  first [ eapply reads_bind; [solve [eauto with codec]|]
        | eapply reads_bind_ret; [solve [eauto with codec]|] ].
Ltac reads_end f := destruct f; apply reads_ret.

Lemma negb_enum {E} `{Enum8 E} (e f l : E) :
  negb (enum_between e f l) = false -> enum_between e f l = true.
Proof. apply negb_false_iff. Qed.
#[export] Hint Resolve negb_enum : codec.

Lemma w_dispatch_case_reads c wc :
  dispatch_case_typed c -> w_dispatch_case c = Ok wc -> reads decode_dispatch_case wc c.
Proof.
  intros [? ?] Hw. unfold w_dispatch_case in Hw. inj_ok Hw. unfold decode_dispatch_case.
  repeat reads_step. destruct c. apply reads_ret.
Qed.

Lemma w_call_value_reads limits v wv :
  call_value_typed v -> call_value_within limits v -> w_call_value v = Ok wv ->
  reads (decode_call_value limits) wv v.
Proof.
  unfold w_call_value, call_value_typed. intros Hv [? ?] Hw. inv_ok Hw. inj_ok Hw.
  unfold decode_call_value. repeat reads_step. destruct v. apply reads_ret.
Qed.

Lemma reads_cases cases w :
  Forall dispatch_case_typed cases -> w_list w_dispatch_case cases = Ok w ->
  reads (read_many (Z.to_nat (zlen cases)) decode_dispatch_case) w cases.
Proof.
  intros Ht Hw. apply (reads_many_zlen _ _ _ _ Hw). intros c wc Hc.
  apply w_dispatch_case_reads. rewrite Forall_forall in Ht. by apply Ht.
Qed.

Lemma reads_call_values limits values w :
  Forall call_value_typed values -> Forall (call_value_within limits) values ->
  w_list w_call_value values = Ok w ->
  reads (read_many (Z.to_nat (zlen values)) (decode_call_value limits)) w values.
Proof.
  intros Ht Hl Hw. apply (reads_many_zlen _ _ _ _ Hw). intros c wc Hc.
  rewrite Forall_forall in Ht, Hl. apply w_call_value_reads; [by apply Ht|by apply Hl].
Qed.

Lemma zlen_u32 {A} (l : list A) : zlen l <= u32_max -> is_u32 (zlen l).
Proof. unfold is_u32, u32_max. pose proof (zlen_nonneg l). lia. Qed.
#[export] Hint Resolve reads_cases reads_call_values zlen_u32 : codec.

(** The decoder of the fact's kind reads back the encoded body. *)
Lemma decode_payload_body_reads limits p w :
  payload_typed p -> payload_within limits p -> validate_payload p = Ok tt ->
  encode_payload_body p = Ok w ->
  reads (decode_payload_body limits (fact_kind p)) w p.
Proof.
  destruct p as [f|f|f|f|f|f|f|f|f|f|f|f|f];
    cbn [payload_typed payload_within validate_payload encode_payload_body fact_kind
         decode_payload_body]; intros Ht Hl Hv Hw; destruct_and?.
  - inv_ok Hv. inj_ok Hw. unfold decode_code_target. repeat reads_step. reads_end f.
  - inv_ok Hv. inj_ok Hw. unfold decode_branch_reachability. repeat reads_step. reads_end f.
  - inv_ok Hv. inj_ok Hw. unfold decode_memory_access. repeat reads_step. reads_end f.
  - inv_ok Hv. inv_ok Hw. inj_ok Hw. unfold decode_memory_value. repeat reads_step. reads_end f.
  - unfold validate_string_candidate in Hv. inv_ok Hv. inv_ok Hw. inj_ok Hw.
    unfold decode_string_candidate. repeat reads_step. reads_end f.
  - inv_ok Hv. inj_ok Hw. unfold decode_function_candidate. repeat reads_step. reads_end f.
  - inv_ok Hv. unfold validate_trait_value in Hm. inv_ok Hm. cbn zeta in Hw. inv_ok Hw. inj_ok Hw.
    unfold decode_function_trait. repeat reads_step. destruct f as [? ? []]. apply reads_ret.
  - inv_ok Hv. inj_ok Hw. unfold decode_code_region. repeat reads_step. reads_end f.
  - apply validate_dispatch_map_ok in Hv as [_ Hc]. inv_ok Hw. inj_ok Hw.
    unfold decode_dispatch_map. repeat reads_step. reads_end f.
  - inv_ok Hv. inj_ok Hw. unfold decode_cfg_candidate. repeat reads_step. reads_end f.
  - inv_ok Hv. inj_ok Hw. unfold decode_function_outcome. repeat reads_step. reads_end f.
  - inv_ok Hv. inv_ok Hw. inj_ok Hw. unfold decode_register_value. repeat reads_step. reads_end f.
  - inv_ok Hv. destruct a, a0. apply validate_call_values_ok in Hm as (_ & ? & _).
    apply validate_call_values_ok in Hm0 as (_ & ? & _). inv_ok Hw. inj_ok Hw.
    unfold decode_call_observation. repeat reads_step. reads_end f.
Qed.

(** ** Payload codec *)

Lemma encode_normalized_payload_ok p w :
  encode_normalized_payload p = Ok w ->
  exists body, encode_payload_body p = Ok body /\
    w = kPayloadMagic ++ w_u16 kCodecVersion ++ w_u8 (to_u8 (fact_kind p)) ++ body.
Proof.
  unfold encode_normalized_payload. intros H. inv_ok H. inj_ok H. by eexists.
Qed.

Lemma payload_header_reads k :
  0 <= k < 256 -> reads payload_header (kPayloadMagic ++ w_u16 kCodecVersion ++ w_u8 k) k.
Proof.
  intros Hk. unfold payload_header.
  eapply reads_bind; [by apply reads_magic|]. eapply reads_bind; [apply reads_version|].
  by apply reads_u8.
Qed.

Lemma fact_kind_between p :
  enum_between (fact_kind p) FactKind_CodeTarget FactKind_CallObservation = true.
Proof. by destruct p. Qed.

Lemma zlen_eqb_nil : zlen (@nil byte) =? 0 = true.
Proof. done. Qed.

Lemma decode_encoded_payload limits p w :
  payload_typed p -> payload_within limits p -> validate_payload p = Ok tt ->
  encode_normalized_payload p = Ok w -> zlen w <= max_fact_bytes limits ->
  decode_payload limits w = Ok p.
Proof.
  intros Ht Hl Hv Hw Hsize. unfold decode_payload.
  destruct (Z.ltb_spec (max_fact_bytes limits) (zlen w)); [lia|].
  destruct (encode_normalized_payload_ok _ _ Hw) as (body & Hbody & Heq).
  rewrite Heq at 1. rewrite (app_assoc (w_u16 _)), (app_assoc kPayloadMagic).
  rewrite payload_header_reads by apply to_u8_range. cbn zeta.
  rewrite of_to_u8, fact_kind_between. cbn [negb].
  pose proof (decode_payload_body_reads limits p body Ht Hl Hv Hbody []) as Hread.
  rewrite app_nil_r in Hread. rewrite Hread, zlen_eqb_nil. cbn [negb].
  rewrite (normalize_payload_valid _ Hv). cbn [result_bind].
  rewrite Hw. cbn [result_bind]. by rewrite bool_decide_eq_true_2.
Qed.

(** An encoding never exceeds [unlimited]. *)
Lemma w_list_call_within values w :
  w_list w_call_value values = Ok w -> Forall (call_value_within unlimited) values.
Proof.
  revert w. induction values as [|v values IH]; intros w H; [constructor|].
  cbn [w_list] in H. inv_ok H. constructor; [|by eapply IH].
  unfold w_call_value in Hm. inv_ok Hm. apply w_string_ok in Hm1 as [_ ?].
  apply w_blob_ok in Hm2 as [_ ?]. unfold is_u32 in *.
  split; unfold unlimited, u64_max; simpl; lia.
Qed.

Lemma encoded_within_unlimited p w :
  validate_payload p = Ok tt -> encode_payload_body p = Ok w -> payload_within unlimited p.
Proof.
  assert (forall s w, w_string s = Ok w -> str_len s <= u64_max) as Hs.
  { intros s w' [_ ?]%w_string_ok. unfold is_u32, u64_max in *. lia. }
  assert (forall b w, w_blob b = Ok w -> zlen b <= u64_max) as Hb.
  { intros s w' [_ ?]%w_blob_ok. unfold is_u32, u64_max in *. lia. }
  assert (u32_max <= u64_max) by done.
  destruct p as [f|f|f|f|f|f|f|f|f|f|f|f|f]; cbn [encode_payload_body payload_within];
    intros Hv Hw; try done; cbn zeta in Hw; inv_ok Hw; simpl; eauto.
  - apply validate_dispatch_map_ok in Hv as [_ ?]. lia.
  - cbn [validate_payload] in Hv. inv_ok Hv. destruct a1, a2.
    apply validate_call_values_ok in Hm1 as (_ & ? & _).
    apply validate_call_values_ok in Hm2 as (_ & ? & _).
    split_and!; [lia..| |]; by eapply w_list_call_within.
Qed.

(** The encoding determines the payload. *)
Lemma encode_normalized_payload_inj p q w :
  payload_typed p -> payload_typed q ->
  validate_payload p = Ok tt -> validate_payload q = Ok tt ->
  encode_normalized_payload p = Ok w -> encode_normalized_payload q = Ok w -> p = q.
Proof.
  intros Hp Hq Hvp Hvq Hwp Hwq.
  destruct (encode_normalized_payload_ok _ _ Hwp) as (bp & Hbp & Heqp).
  destruct (encode_normalized_payload_ok _ _ Hwq) as (bq & Hbq & Heqq).
  pose proof (decode_payload_body_reads unlimited p bp Hp
    (encoded_within_unlimited _ _ Hvp Hbp) Hvp Hbp []) as Hrp.
  pose proof (decode_payload_body_reads unlimited q bq Hq
    (encoded_within_unlimited _ _ Hvq Hbq) Hvq Hbq []) as Hrq.
  rewrite app_nil_r in Hrp, Hrq. rewrite Heqp in Heqq.
  pose proof (payload_header_reads _ (to_u8_range (fact_kind p)) bp) as Hhp.
  pose proof (payload_header_reads _ (to_u8_range (fact_kind q)) bq) as Hhq.
  rewrite <- !app_assoc in Hhp, Hhq. rewrite Heqq, Hhq in Hhp.
  assert (to_u8 (fact_kind q) = to_u8 (fact_kind p) /\ bq = bp) as [Hk%to_u8_inj ->]
    by (by injection Hhp). rewrite <- Hk, Hrq in Hrp. by injection Hrp.
Qed.

(** *** What the payload decoder returns *)

Lemma yields_dispatch_case : yields decode_dispatch_case dispatch_case_typed.
Proof.
  eapply yields_bind; [apply yields_optional_u64|]. intros o Ho.
  eapply yields_bind; [apply yields_u64|]. intros t Ht. by apply yields_ret.
Qed.

Lemma yields_call_value limits : yields (decode_call_value limits) call_value_typed.
Proof.
  eapply yields_bind; [apply yields_u32|]. intros o Ho.
  eapply yields_bind; [apply yields_true|]. intros l _.
  eapply yields_bind; [apply yields_true|]. intros b _. by apply yields_ret.
Qed.

Ltac yields_step :=
  eapply yields_bind;
  [ first [ apply yields_u64 | apply yields_i64 | apply yields_u32 | apply yields_optional_u64
          | apply yields_optional_i64 | apply yields_many, yields_dispatch_case
          | apply yields_many, yields_call_value | apply yields_true ]
  | let x := fresh "x" in let Hx := fresh "Hx" in intros x Hx; cbv beta in Hx ].

Lemma yields_payload_body limits kind : yields (decode_payload_body limits kind) payload_typed.
Proof.
  destruct kind; cbn [decode_payload_body]; unfold decode_code_target, decode_branch_reachability,
    decode_memory_access, decode_memory_value, decode_string_candidate, decode_function_candidate,
    decode_function_trait, decode_code_region, decode_dispatch_map, decode_cfg_candidate,
    decode_function_outcome, decode_register_value, decode_call_observation;
    repeat yields_step; try apply yields_fail; apply yields_ret; simpl; by split_and?.
Qed.

Lemma decode_payload_ok limits data p :
  decode_payload limits data = Ok p ->
  payload_typed p /\ validate_payload p = Ok tt /\ encode_normalized_payload p = Ok data.
Proof.
  unfold decode_payload. intros H. inv_ok H.
  destruct (payload_header data) as [raw_kind rest|] eqn:Eh; [|done]. cbn zeta in H. inv_ok H.
  destruct (decode_payload_body limits (of_u8 raw_kind) rest) as [decoded remaining|] eqn:Eb; [|done].
  inv_ok H. inj_ok H. apply yields_payload_body in Eb.
  apply normalize_payload_ok in Hm as (-> & Hv & _). split_and!; [|done|].
  - by apply normalize_payload_typed.
  - apply negb_false_iff, bool_decide_eq_true in Hg2. by subst.
Qed.

Lemma encode_payload_ok p w :
  encode_payload p = Ok w ->
  let q := normalize_payload_value p in
  normalize_payload p = Ok q /\ validate_payload q = Ok tt /\ encode_normalized_payload q = Ok w.
Proof.
  unfold encode_payload. intros H. inv_ok H.
  pose proof (normalize_payload_ok _ _ Hm) as (-> & Hv & _). done.
Qed.

Lemma encode_payload_valid p :
  validate_payload p = Ok tt -> encode_payload p = encode_normalized_payload p.
Proof. intros Hv. unfold encode_payload. by rewrite (normalize_payload_valid _ Hv). Qed.

(** ** Evidence codec *)

Lemma reads_addresses addresses w :
  Forall is_u64 addresses -> w_list w_support_address addresses = Ok w ->
  reads (read_many (Z.to_nat (zlen addresses)) r_u64) w addresses.
Proof.
  intros Ht Hw. apply (reads_many_zlen _ _ _ _ Hw). intros a wa Ha.
  unfold w_support_address. intros E. inj_ok E. rewrite Forall_forall in Ht.
  by apply reads_u64, Ht.
Qed.

(** The four parts an encoded evidence consists of. *)
Lemma encode_normalized_evidence_ok e w :
  encode_normalized_evidence e = Ok w ->
  exists producer method addresses detail,
    w_string (ev_producer e) = Ok producer /\ w_string (ev_method e) = Ok method /\
    w_list w_support_address (ev_support_addresses e) = Ok addresses /\
    w_string (ev_detail e) = Ok detail /\
    zlen (ev_support_addresses e) <= u32_max /\
    w = (kEvidenceMagic ++ w_u16 kCodecVersion ++ producer ++ method ++
         w_u8 (to_u8 (ev_proof e)) ++ w_u16 (ev_confidence e) ++
         w_optional_u64 (sc_run_id (ev_scope e)) ++ w_optional_u64 (sc_seed (ev_scope e)) ++
         w_optional_u64 (sc_function_start (ev_scope e)) ++
         w_optional_u64 (sc_function_end (ev_scope e)) ++ w_u64 (sc_generation (ev_scope e))) ++
        w_u32 (zlen (ev_support_addresses e)) ++ addresses ++ detail.
Proof.
  unfold encode_normalized_evidence. cbn zeta. intros H. inv_ok H. inj_ok H.
  do 4 eexists. split_and!; try done; [lia|]. by rewrite <- !app_assoc.
Qed.

Lemma evidence_header_reads limits e producer method :
  evidence_typed e -> evidence_within limits e ->
  w_string (ev_producer e) = Ok producer -> w_string (ev_method e) = Ok method ->
  reads (evidence_header limits)
    (kEvidenceMagic ++ w_u16 kCodecVersion ++ producer ++ method ++
     w_u8 (to_u8 (ev_proof e)) ++ w_u16 (ev_confidence e) ++
     w_optional_u64 (sc_run_id (ev_scope e)) ++ w_optional_u64 (sc_seed (ev_scope e)) ++
     w_optional_u64 (sc_function_start (ev_scope e)) ++
     w_optional_u64 (sc_function_end (ev_scope e)) ++ w_u64 (sc_generation (ev_scope e)))
    (with_support e [] "").
Proof.
  intros (Hc & (? & ? & ? & ? & ?) & _) (? & ? & _) Hp Hm. unfold evidence_header.
  eapply reads_bind; [by apply reads_magic|]. eapply reads_bind; [apply reads_version|].
  do 2 (eapply reads_bind; [by apply reads_string|]).
  eapply reads_bind; [apply reads_u8, to_u8_range|].
  repeat reads_step. rewrite of_to_u8. destruct e as [? ? ? ? [] ? ?]. apply reads_ret.
Qed.

Lemma decode_encoded_evidence limits e w :
  evidence_typed e -> evidence_within limits e -> validate_evidence e = Ok tt ->
  encode_normalized_evidence e = Ok w -> zlen w <= max_fact_bytes limits ->
  decode_evidence limits w = Ok e.
Proof.
  intros Ht Hl Hv Hw Hsize. unfold decode_evidence.
  destruct (Z.ltb_spec (max_fact_bytes limits) (zlen w)); [lia|].
  destruct (encode_normalized_evidence_ok _ _ Hw)
    as (producer & method & addresses & detail & Hp & Hm & Ha & Hd & Hcount & Heq).
  rewrite Heq at 1. rewrite (evidence_header_reads limits e) by done.
  destruct Hl as (? & ? & ? & ?).
  rewrite reads_count by (by try apply zlen_u32).
  rewrite (reads_addresses _ _ (proj2 (proj2 Ht)) Ha).
  pose proof (reads_string limits _ _ Hd ltac:(done) []) as Hdet. rewrite app_nil_r in Hdet.
  rewrite Hdet. cbn zeta. rewrite zlen_eqb_nil. cbn [negb].
  assert (with_support (with_support e [] "") (ev_support_addresses e) (ev_detail e) = e) as ->
    by by destruct e.
  rewrite Hv. cbn [result_bind]. rewrite Hw. cbn [result_bind]. by rewrite bool_decide_eq_true_2.
Qed.

Lemma encoded_evidence_within e w :
  encode_normalized_evidence e = Ok w -> evidence_within unlimited e.
Proof.
  intros (producer & method & addresses & detail & [_ ?]%w_string_ok & [_ ?]%w_string_ok & _ &
          [_ ?]%w_string_ok & ? & _)%encode_normalized_evidence_ok.
  unfold is_u32, u32_max in *. unfold evidence_within, unlimited, u64_max.
  cbn [max_string_bytes max_vector_items]. lia.
Qed.

Lemma encode_normalized_evidence_inj e e' w :
  evidence_typed e -> evidence_typed e' ->
  validate_evidence e = Ok tt -> validate_evidence e' = Ok tt ->
  encode_normalized_evidence e = Ok w -> encode_normalized_evidence e' = Ok w -> e = e'.
Proof.
  intros He He' Hv Hv' Hw Hw'.
  set (limits := {| max_fact_bytes := zlen w; max_string_bytes := u64_max;
                    max_vector_items := u64_max |}).
  pose proof (encoded_evidence_within _ _ Hw) as Hl.
  pose proof (encoded_evidence_within _ _ Hw') as Hl'.
  pose proof (decode_encoded_evidence limits e w He Hl Hv Hw ltac:(done)) as H1.
  pose proof (decode_encoded_evidence limits e' w He' Hl' Hv' Hw' ltac:(done)) as H2.
  congruence.
Qed.

Lemma yields_evidence_header limits : yields (evidence_header limits) evidence_typed.
Proof.
  unfold evidence_header.
  do 5 (eapply yields_bind; [apply yields_true|]; intros ? _).
  eapply yields_bind; [apply yields_u16|]; intros c Hc.
  repeat yields_step. apply yields_ret.
  by split_and!; simpl.
Qed.

Lemma decode_evidence_ok limits data e :
  decode_evidence limits data = Ok e ->
  evidence_typed e /\ validate_evidence e = Ok tt /\ encode_normalized_evidence e = Ok data.
Proof.
  unfold decode_evidence. intros H. inv_ok H.
  destruct (evidence_header limits data) as [h rest|] eqn:Eh; [|done].
  destruct (r_count limits rest) as [n rest1|] eqn:Ec; [|done].
  destruct (read_many (Z.to_nat n) r_u64 rest1) as [addresses rest2|] eqn:Ea; [|done].
  destruct (r_string limits rest2) as [detail rest3|] eqn:Ed; [|done].
  cbn zeta in H. inv_ok H. inj_ok H. destruct a.
  apply yields_evidence_header in Eh as (? & ? & _).
  apply (yields_many _ _ _ yields_u64) in Ea.
  split_and!; [done..|]. apply negb_false_iff, bool_decide_eq_true in Hg1. by subst.
Qed.

Lemma encode_evidence_valid e :
  validate_evidence e = Ok tt -> encode_evidence e = encode_normalized_evidence e.
Proof. intros Hv. unfold encode_evidence. by rewrite (normalize_evidence_valid _ Hv). Qed.

Lemma encode_evidence_ok e w :
  encode_evidence e = Ok w ->
  let e' := normalize_evidence_value e in
  normalize_evidence e = Ok e' /\ validate_evidence e' = Ok tt /\
  encode_normalized_evidence e' = Ok w.
Proof.
  unfold encode_evidence. intros H. inv_ok H.
  pose proof (normalize_evidence_ok _ _ Hm) as (-> & Hv & _). done.
Qed.

(** A valid observation always has an encoding. *)
Lemma w_list_total {A} (w : A -> result bytes) l :
  (forall x, x ∈ l -> is_ok (w x) = true) -> is_ok (w_list w l) = true.
Proof.
  induction l as [|x l IH]; intros H; [done|]. cbn [w_list].
  pose proof (H x ltac:(set_solver)) as Hx. destruct (w x); [|done]. cbn [result_bind].
  specialize (IH ltac:(set_solver)). by destruct (w_list w l).
Qed.

Lemma encode_evidence_total e :
  validate_evidence e = Ok tt -> exists w, encode_normalized_evidence e = Ok w.
Proof.
  intros Hv. unfold validate_evidence in Hv. cbn zeta in Hv. inv_ok Hv.
  rewrite !orb_false_iff in Hg7. destruct_and!.
  unfold encode_normalized_evidence. cbn zeta.
  rewrite w_string_fits by lia. cbn [result_bind].
  rewrite w_string_fits by lia. cbn [result_bind].
  destruct (Z.ltb_spec u32_max (zlen (ev_support_addresses e))); [lia|].
  pose proof (w_list_total w_support_address (ev_support_addresses e) ltac:(done)) as Ha.
  destruct (w_list w_support_address (ev_support_addresses e)); [|done]. cbn [result_bind].
  rewrite w_string_fits by lia. by eexists.
Qed.

(** ** Fact codec *)

Lemma encode_analysis_fact_valid f :
  validate_fact f = Ok tt ->
  encode_analysis_fact f =
    (let* payload_bytes := encode_normalized_payload (af_payload f) in
     let* evidence_bytes := encode_normalized_evidence (af_evidence f) in
     let* payload_blob := w_blob payload_bytes in
     let* evidence_blob := w_blob evidence_bytes in
     Ok (kFactMagic ++ w_u16 kCodecVersion ++ payload_blob ++ evidence_blob)).
Proof. intros Hv. unfold encode_analysis_fact. by rewrite (normalize_fact_valid _ Hv). Qed.

Definition fact_within (limits : FactCodecLimits) (f : AnalysisFact) : Prop :=
  payload_within limits (af_payload f) /\ evidence_within limits (af_evidence f).

Lemma decode_encoded_fact limits f w :
  fact_typed f -> fact_within limits f -> validate_fact f = Ok tt ->
  encode_analysis_fact f = Ok w -> zlen w <= max_fact_bytes limits ->
  decode_analysis_fact limits w = Ok f.
Proof.
  intros [Hpt Het] [Hpl Hel] Hv Hw Hsize.
  pose proof (validate_fact_parts _ Hv) as [Hvp Hve].
  pose proof Hw as Henc. rewrite (encode_analysis_fact_valid _ Hv) in Hw. inv_ok Hw. inj_ok Hw.
  unfold decode_analysis_fact.
  match goal with |- context [max_fact_bytes limits <? zlen ?w] =>
    destruct (Z.ltb_spec (max_fact_bytes limits) (zlen w)); [lia|] end.
  assert (zlen a <= max_fact_bytes limits /\ zlen a0 <= max_fact_bytes limits) as [Ha Ha0].
  { apply w_blob_ok in Hm1 as [-> _]. apply w_blob_ok in Hm2 as [-> _].
    rewrite !zlen_app in Hsize. pose proof (zlen_nonneg kFactMagic).
    pose proof (zlen_nonneg (w_u16 kCodecVersion)). pose proof (zlen_nonneg a).
    pose proof (zlen_nonneg a0). rewrite !zlen_w_u32 in Hsize. lia. }
  assert (reads (_ <~ r_magic kFactMagic; read_version) (kFactMagic ++ w_u16 kCodecVersion) tt)
    as Hh by (eapply reads_bind; [by apply reads_magic|apply reads_version]).
  assert (reads (p <~ r_blob limits; e <~ r_blob limits; rd_ret (p, e)) (a1 ++ a2) (a, a0))
    as Hb by (repeat reads_step; apply reads_ret).
  rewrite (app_assoc kFactMagic), Hh.
  specialize (Hb []). rewrite app_nil_r in Hb. rewrite Hb. rewrite zlen_eqb_nil. cbn [negb].
  rewrite (decode_encoded_payload limits (af_payload f)) by done. cbn [result_bind].
  rewrite (decode_encoded_evidence limits (af_evidence f)) by done. cbn [result_bind].
  assert ({| af_payload := af_payload f; af_evidence := af_evidence f |} = f) as ->
    by by destruct f.
  rewrite Henc. cbn [result_bind]. rewrite <- (app_assoc kFactMagic).
  by rewrite bool_decide_eq_true_2.
Qed.

Lemma decode_analysis_fact_ok limits data f :
  decode_analysis_fact limits data = Ok f ->
  fact_typed f /\ validate_fact f = Ok tt /\ encode_analysis_fact f = Ok data.
Proof.
  unfold decode_analysis_fact. intros H. inv_ok H.
  destruct ((_ <~ r_magic kFactMagic; read_version) data) as [[] rest|]; [|done].
  destruct ((p <~ r_blob limits; e <~ r_blob limits; rd_ret (p, e)) rest)
    as [[pb eb] rest1|]; [|done].
  inv_ok H. inj_ok H. apply decode_payload_ok in Hm as (? & ? & ?).
  apply decode_evidence_ok in Hm0 as (? & ? & ?).
  apply negb_false_iff, bool_decide_eq_true in Hg1. subst.
  split_and!; [done| |done].
  unfold encode_analysis_fact in Hm1.
  destruct (normalize_fact _) as [g|] eqn:En; [|done].
  apply normalize_fact_ok in En as (Hn1 & Hn2 & Hv & _). cbn [af_payload af_evidence] in *.
  rewrite normalize_payload_valid in Hn1 by done. rewrite normalize_evidence_valid in Hn2 by done.
  apply Ok_inj in Hn1, Hn2. destruct g as [gp ge]. cbn [af_payload af_evidence] in *. by subst.
Qed.

(** ** When the encoders succeed *)

Lemma w_list_is_ok {A} (w : A -> result bytes) l :
  Forall (fun x => is_ok (w x) = true) l -> exists b, w_list w l = Ok b.
Proof.
  intros H. pose proof (w_list_total w l (proj1 (Forall_forall _ _) H)) as Hl.
  destruct (w_list w l); [by eexists|done].
Qed.

Lemma w_call_values_total values role :
  validate_call_values values role = Ok tt -> exists b, w_list w_call_value values = Ok b.
Proof.
  intros (_ & _ & Hall)%validate_call_values_ok. apply w_list_is_ok.
  eapply Forall_impl; [exact Hall|]. intros v (_ & _ & ? & ?). unfold w_call_value.
  rewrite w_string_fits by done. cbn [result_bind]. rewrite w_blob_fits by done. done.
Qed.

(** Every valid payload has an encoding; only a trait text, whose length the
    validator does not bound, can be too long for its length prefix. *)
Lemma encode_payload_total p :
  validate_payload p = Ok tt ->
  match p with P_FunctionTrait f => str_len (tv_text_value (ft_value f)) <= u32_max | _ => True end ->
  exists w, encode_payload p = Ok w.
Proof.
  intros Hv Ht. rewrite (encode_payload_valid _ Hv). unfold encode_normalized_payload.
  cut (exists b, encode_payload_body p = Ok b).
  { intros [b ->]. by eexists. }
  destruct p as [f|f|f|f|f|f|f|f|f|f|f|f|f]; cbn [validate_payload encode_payload_body] in *;
    cbn zeta; try by eexists.
  - inv_ok Hv. rewrite w_blob_fits by lia. by eexists.
  - unfold validate_string_candidate in Hv. inv_ok Hv. apply orb_false_iff in Hg1 as [? ?].
    rewrite w_blob_fits by lia. cbn [result_bind]. rewrite w_string_fits by lia. by eexists.
  - rewrite w_string_fits by done. by eexists.
  - destruct (w_list_is_ok w_dispatch_case (dm_cases f)) as [b ->]; [|by eexists].
    by apply Forall_forall.
  - inv_ok Hv. apply orb_false_iff in Hg2 as [? ?].
    rewrite w_string_fits by lia. cbn [result_bind]. rewrite w_blob_fits by lia. by eexists.
  - inv_ok Hv. destruct a, a0. destruct (w_call_values_total _ _ Hm) as [b1 ->].
    destruct (w_call_values_total _ _ Hm0) as [b2 ->]. by eexists.
Qed.

(** ** The canonical comparators *)

Definition payload_key (p : FactPayload) : bytes := sort_key (encode_payload p).
Definition evidence_key (e : Evidence) : bytes := sort_key (encode_evidence e).

Lemma evidence_key_eq e w :
  validate_evidence e = Ok tt -> encode_normalized_evidence e = Ok w -> evidence_key e = w.
Proof. intros Hv Hw. unfold evidence_key. by rewrite (encode_evidence_valid _ Hv), Hw. Qed.

Lemma evidence_key_inj e e' :
  evidence_typed e -> evidence_typed e' ->
  validate_evidence e = Ok tt -> validate_evidence e' = Ok tt ->
  evidence_key e = evidence_key e' -> e = e'.
Proof.
  intros Ht Ht' Hv Hv' Hk.
  destruct (encode_evidence_total _ Hv) as [w Hw], (encode_evidence_total _ Hv') as [w' Hw'].
  rewrite (evidence_key_eq _ _ Hv Hw), (evidence_key_eq _ _ Hv' Hw') in Hk. subst w'.
  by eapply encode_normalized_evidence_inj.
Qed.

Lemma payload_key_eq p w :
  validate_payload p = Ok tt -> encode_normalized_payload p = Ok w -> payload_key p = w.
Proof. intros Hv Hw. unfold payload_key. by rewrite (encode_payload_valid _ Hv), Hw. Qed.

Lemma payload_less_trans p q r :
  payload_less p q = true -> payload_less q r = true -> payload_less p r = true.
Proof. apply (lt_trans (lt := bytes_lt)). Qed.

Lemma payload_less_irrefl p : payload_less p p = false.
Proof. apply (lt_irrefl (lt := bytes_lt)). Qed.

Lemma evidence_equal_key e e' : evidence_equal e e' = true <-> evidence_key e = evidence_key e'.
Proof. apply (equiv_by_eq bytes_lt). Qed.

Lemma payload_equal_key p q : payload_equal p q = true <-> payload_key p = payload_key q.
Proof. apply (equiv_by_eq bytes_lt). Qed.

Definition fact_key (f : AnalysisFact) : bytes * bytes :=
  (payload_key (af_payload f), evidence_key (af_evidence f)).

Lemma analysis_fact_less_key f g :
  analysis_fact_less f g = pair_lt bytes_lt bytes_lt (fact_key f) (fact_key g).
Proof. reflexivity. Qed.

(** ** Prefix freedom *)

Lemma encoded_payload_prefix p q w rest :
  payload_typed p -> payload_typed q ->
  validate_payload p = Ok tt -> validate_payload q = Ok tt ->
  encode_normalized_payload p = Ok w -> encode_normalized_payload q = Ok (w ++ rest) ->
  rest = [].
Proof.
  intros Hp Hq Hvp Hvq Hwp Hwq.
  destruct (encode_normalized_payload_ok _ _ Hwp) as (bp & Hbp & Heqp).
  destruct (encode_normalized_payload_ok _ _ Hwq) as (bq & Hbq & Heqq).
  pose proof (decode_payload_body_reads unlimited p bp Hp
    (encoded_within_unlimited _ _ Hvp Hbp) Hvp Hbp rest) as Hrp.
  pose proof (decode_payload_body_reads unlimited q bq Hq
    (encoded_within_unlimited _ _ Hvq Hbq) Hvq Hbq []) as Hrq.
  rewrite app_nil_r in Hrq.
  pose proof (payload_header_reads _ (to_u8_range (fact_kind p)) (bp ++ rest)) as Hhp.
  pose proof (payload_header_reads _ (to_u8_range (fact_kind q)) bq) as Hhq.
  assert (kPayloadMagic ++ w_u16 kCodecVersion ++ w_u8 (to_u8 (fact_kind p)) ++ bp ++ rest =
          w ++ rest) as Heqw by (by rewrite Heqp; repeat rewrite <- app_assoc).
  rewrite <- !app_assoc in Hhp, Hhq. rewrite Heqw, Heqq, Hhq in Hhp.
  assert (to_u8 (fact_kind q) = to_u8 (fact_kind p) /\ bq = bp ++ rest) as [Hk%to_u8_inj ->]
    by (by injection Hhp). rewrite <- Hk, Hrq in Hrp. by injection Hrp.
Qed.

(** ** The encoding determines the fact *)

Lemma encode_analysis_fact_parts f w :
  validate_fact f = Ok tt -> encode_analysis_fact f = Ok w ->
  exists p e, encode_normalized_payload (af_payload f) = Ok p /\ zlen p <= u32_max /\
    encode_normalized_evidence (af_evidence f) = Ok e /\ zlen e <= u32_max /\
    w = kFactMagic ++ w_u16 kCodecVersion ++ (w_u32 (zlen p) ++ p) ++ (w_u32 (zlen e) ++ e).
Proof.
  intros Hv Hw. rewrite (encode_analysis_fact_valid _ Hv) in Hw. inv_ok Hw.
  apply w_blob_ok in Hm1 as [-> Hp]. apply w_blob_ok in Hm2 as [-> He]. inj_ok Hw.
  unfold is_u32, u32_max in *. exists a, a0. split_and!; [done|lia|done|lia|done].
Qed.

Lemma encoded_fact_unlimited f w :
  validate_fact f = Ok tt -> encode_analysis_fact f = Ok w ->
  fact_within unlimited f /\ zlen w <= max_fact_bytes unlimited.
Proof.
  intros Hv Hw. destruct (encode_analysis_fact_parts _ _ Hv Hw) as (p & e & Hp & ? & He & ? & ->).
  split.
  - destruct (encode_normalized_payload_ok _ _ Hp) as (body & Hb & _).
    split; [|by eapply encoded_evidence_within].
    eapply encoded_within_unlimited; [|done]. by apply validate_fact_parts.
  - rewrite !zlen_app, !zlen_w_u32. unfold unlimited, u64_max, u32_max in *.
    cbn [max_fact_bytes]. change (zlen kFactMagic) with 4.
    change (zlen (w_u16 kCodecVersion)) with 2. lia.
Qed.

Lemma decode_encoded_unlimited f w :
  fact_typed f -> validate_fact f = Ok tt -> encode_analysis_fact f = Ok w ->
  decode_analysis_fact unlimited w = Ok f.
Proof.
  intros Ht Hv Hw. destruct (encoded_fact_unlimited _ _ Hv Hw). by apply decode_encoded_fact.
Qed.

Lemma fact_key_inj f g wf wg :
  fact_typed f -> fact_typed g -> normalize_fact f = Ok f -> normalize_fact g = Ok g ->
  encode_analysis_fact f = Ok wf -> encode_analysis_fact g = Ok wg ->
  fact_key f = fact_key g -> f = g.
Proof.
  intros [Hpf Hef] [Hpg Heg] Hnf Hng Hwf Hwg [= Hp He].
  apply normalize_fact_ok in Hnf as (_ & _ & Hvf & _), Hng as (_ & _ & Hvg & _).
  destruct (encode_analysis_fact_parts _ _ Hvf Hwf) as (pf & ef & Hpf' & _ & Hef' & _).
  destruct (encode_analysis_fact_parts _ _ Hvg Hwg) as (pg & eg & Hpg' & _ & Heg' & _).
  apply validate_fact_parts in Hvf as [? ?], Hvg as [? ?].
  rewrite (payload_key_eq _ pf), (payload_key_eq _ pg) in Hp by done. subst pg.
  destruct f as [p e], g as [p' e']. cbn [af_payload af_evidence] in *. f_equal.
  - by eapply encode_normalized_payload_inj.
  - by apply evidence_key_inj.
Qed.

(** ** Properties *)

(** A value with every field of the codec in use, for the witnesses. *)
Definition sample_dispatch : FactPayload :=
  P_DispatchMap
    {| dm_site := 4096;
       dm_cases := [ {| dc_selector := None; dc_target := 8192 |};
                     {| dc_selector := Some 2; dc_target := 8200 |};
                     {| dc_selector := Some 1; dc_target := 8208 |};
                     {| dc_selector := Some 2; dc_target := 8200 |} ];
       dm_default_target := None; dm_complete := true |}.
Definition sample_dispatch_normal : FactPayload :=
  P_DispatchMap
    {| dm_site := 4096;
       dm_cases := [ {| dc_selector := Some 1; dc_target := 8208 |};
                     {| dc_selector := Some 2; dc_target := 8200 |};
                     {| dc_selector := None; dc_target := 8192 |} ];
       dm_default_target := None; dm_complete := true |}.
Definition sample_evidence : Evidence :=
  {| ev_producer := "rax"; ev_method := "emulate"; ev_proof := ProofKind_Observed;
     ev_confidence := 9000;
     ev_scope := {| sc_run_id := Some 7; sc_seed := None; sc_function_start := Some 4096;
                    sc_function_end := Some 4352; sc_generation := 3 |};
     ev_support_addresses := [4100; 4096; 4100]; ev_detail := "" |}.
Definition sample_fact : AnalysisFact :=
  {| af_payload := sample_dispatch; af_evidence := sample_evidence |}.

Lemma sample_fact_typed : fact_typed sample_fact.
Proof. split; simpl; unfold is_u16, is_u64; split_and!; repeat constructor; simpl; unfold is_u64; lia. Qed.

(** C8: the payload codec round trips.  Encoding a payload and decoding the bytes
    with limits large enough for it gives back exactly its normal form. *)
Theorem payload_roundtrip limits p q w :
  payload_typed p -> normalize_payload p = Ok q -> encode_payload p = Ok w ->
  payload_within limits q -> zlen w <= max_fact_bytes limits ->
  decode_payload limits w = Ok q.
Proof.
  intros Ht Hn Hw Hl Hsize. unfold encode_payload in Hw. rewrite Hn in Hw. cbn [result_bind] in Hw.
  apply normalize_payload_ok in Hn as (-> & Hv & _).
  by apply decode_encoded_payload; [apply normalize_payload_typed|..].
Qed.

Lemma payload_roundtrip_witness :
  exists w, encode_payload sample_dispatch = Ok w /\
            decode_payload default_limits w = Ok sample_dispatch_normal.
Proof.
  eexists. split; [vm_compute; reflexivity|].
  apply (payload_roundtrip default_limits sample_dispatch).
  - apply (proj1 sample_fact_typed).
  - vm_compute. reflexivity.
  - vm_compute. reflexivity.
  - vm_compute. discriminate.
  - vm_compute. discriminate.
Defined.

(** The payload encoding is an identity for facts.  Two payloads have the
    same canonical bytes, the key that the store and every digest use, exactly
    when they state the same fact. *)
Theorem payload_encoding_identity p q w :
  payload_typed p -> payload_typed q -> encode_payload p = Ok w ->
  encode_payload q = Ok w <-> same_fact p q.
Proof.
  intros Hp Hq Hwp. split.
  - intros Hwq. apply encode_payload_ok in Hwp as (_ & Hvp & Hwp).
    apply encode_payload_ok in Hwq as (_ & Hvq & Hwq). apply normalize_same_fact.
    by eapply encode_normalized_payload_inj; [apply normalize_payload_typed..| | | |].
  - intros Heq. rewrite <- Hwp. unfold encode_payload. by rewrite Heq.
Qed.

Lemma payload_encoding_identity_witness :
  exists w, encode_payload sample_dispatch = Ok w /\
            (encode_payload sample_dispatch_normal = Ok w <->
             same_fact sample_dispatch sample_dispatch_normal).
Proof.
  eexists. split; [vm_compute; reflexivity|].
  apply (payload_encoding_identity sample_dispatch sample_dispatch_normal).
  - apply (proj1 sample_fact_typed).
  - simpl. unfold is_u64. split_and!; repeat constructor; simpl; unfold is_u64; lia.
  - vm_compute. reflexivity.
Defined.

(** Encodings are self-delimiting.  No canonical payload encoding is a proper
    prefix of another, so concatenated fields cannot be confused. *)
Theorem payload_encoding_prefix_free p q w rest :
  payload_typed p -> payload_typed q -> encode_payload p = Ok w ->
  encode_payload q = Ok (w ++ rest) -> rest = [].
Proof.
  intros Hp Hq (_ & Hvp & Hwp)%encode_payload_ok (_ & Hvq & Hwq)%encode_payload_ok.
  by eapply encoded_payload_prefix;
    [apply normalize_payload_typed; exact Hp|apply normalize_payload_typed; exact Hq|..].
Qed.

Lemma payload_encoding_prefix_free_witness :
  exists w rest, encode_payload sample_dispatch_normal = Ok (w ++ rest) /\ rest = [].
Proof.
  eexists _, []. split; [rewrite app_nil_r; vm_compute; reflexivity|].
  eapply (payload_encoding_prefix_free sample_dispatch sample_dispatch_normal).
  - apply (proj1 sample_fact_typed).
  - simpl. unfold is_u64. split_and!; repeat constructor; simpl; unfold is_u64; lia.
  - vm_compute. reflexivity.
  - rewrite app_nil_r. vm_compute. reflexivity.
Defined.

(** The fact codec round trips.  The bytes of a fact decode, with limits large
    enough for them, to exactly the fact's normal form. *)
Theorem fact_roundtrip limits f g w :
  fact_typed f -> normalize_fact f = Ok g -> encode_analysis_fact f = Ok w ->
  fact_within limits g -> zlen w <= max_fact_bytes limits ->
  decode_analysis_fact limits w = Ok g.
Proof.
  intros [Hpt Het] Hn Hw Hl Hsize.
  pose proof (normalize_fact_ok _ _ Hn) as (Hnp & Hne & Hv & Hng).
  apply normalize_payload_ok in Hnp as (Hpe & _). apply normalize_evidence_ok in Hne as (Hee & _).
  apply decode_encoded_fact; try done.
  - split; [rewrite Hpe; by apply normalize_payload_typed
           |rewrite Hee; by apply normalize_evidence_typed].
  - unfold encode_analysis_fact in Hw |- *. by rewrite Hng, <- Hn.
Qed.

Lemma fact_roundtrip_witness :
  exists g w, normalize_fact sample_fact = Ok g /\ encode_analysis_fact sample_fact = Ok w /\
              decode_analysis_fact default_limits w = Ok g.
Proof.
  eexists _, _. split; [vm_compute; reflexivity|]. split; [vm_compute; reflexivity|].
  apply (fact_roundtrip default_limits sample_fact).
  - exact sample_fact_typed.
  - vm_compute. reflexivity.
  - vm_compute. reflexivity.
  - split; [vm_compute; discriminate|]. split_and!; vm_compute; discriminate.
  - vm_compute. discriminate.
Defined.

(** The fact decoder is strict.  Bytes that it accepts are the canonical
    encoding of the fact it returns, and that fact is in range, valid and in
    normal form, so there is one accepted byte string per fact; more generous
    limits decode the same bytes to the same fact. *)
Theorem fact_decoder_canonical limits w f :
  decode_analysis_fact limits w = Ok f ->
  fact_typed f /\ normalize_fact f = Ok f /\ encode_analysis_fact f = Ok w /\
  zlen w <= max_fact_bytes limits /\ decode_analysis_fact unlimited w = Ok f.
Proof.
  intros Hd. pose proof (decode_analysis_fact_ok _ _ _ Hd) as (Ht & Hv & He).
  split_and!; [done|by apply normalize_fact_valid|done| |by apply decode_encoded_unlimited].
  unfold decode_analysis_fact in Hd. inv_ok Hd. lia.
Qed.

Lemma fact_decoder_canonical_witness :
  exists w g, decode_analysis_fact default_limits w = Ok g /\
              encode_analysis_fact g = Ok w /\ normalize_fact g = Ok g.
Proof.
  assert (exists w, encode_analysis_fact sample_fact = Ok w) as [w Hw]
    by (eexists; vm_compute; reflexivity).
  exists w. destruct (decode_analysis_fact default_limits w) as [g|] eqn:E.
  - exists g. split; [done|]. pose proof (fact_decoder_canonical default_limits w g E). naive_solver.
  - vm_compute in Hw. injection Hw as <-. vm_compute in E. discriminate.
Defined.

(** The canonical order on facts is a strict total order on the facts the store
    can hold: it is irreflexive and transitive everywhere, and of two distinct
    valid facts with encodings exactly one is the lesser. *)
Theorem canonical_order_total f g h wf wg :
  fact_typed f -> fact_typed g -> normalize_fact f = Ok f -> normalize_fact g = Ok g ->
  encode_analysis_fact f = Ok wf -> encode_analysis_fact g = Ok wg ->
  analysis_fact_less f f = false /\
  (analysis_fact_less f g = true -> analysis_fact_less g h = true ->
   analysis_fact_less f h = true) /\
  (f <> g -> analysis_fact_less f g = negb (analysis_fact_less g f)).
Proof.
  intros Hf Hg Hnf Hng Hwf Hwg. rewrite !analysis_fact_less_key. split_and!.
  - apply lt_irrefl.
  - apply lt_trans.
  - intros Hne. destruct (lt_cases (pair_lt bytes_lt bytes_lt) (fact_key f) (fact_key g))
      as [H|[H|H]].
    + by rewrite H, (lt_asym _ _ _ H).
    + destruct Hne. by eapply fact_key_inj.
    + by rewrite H, (lt_asym _ _ _ H).
Qed.

Lemma canonical_order_total_witness :
  exists f g wf wg, encode_analysis_fact f = Ok wf /\ encode_analysis_fact g = Ok wg /\
    analysis_fact_less f g = negb (analysis_fact_less g f).
Proof.
  set (e := {| ev_producer := "static"; ev_method := "scan"; ev_proof := ProofKind_StaticProof;
               ev_confidence := 10000;
               ev_scope := {| sc_run_id := None; sc_seed := None; sc_function_start := None;
                              sc_function_end := None; sc_generation := 0 |};
               ev_support_addresses := [4096]; ev_detail := "" |}).
  set (g := {| af_payload := sample_dispatch_normal; af_evidence := e |}).
  set (f := {| af_payload := P_CodeRegion {| cr_start := 1; cr_end := 2;
                                             cr_kind := CodeRegionKind_Code |};
               af_evidence := e |}).
  exists f, g. do 2 eexists.
  split; [vm_compute; reflexivity|]. split; [vm_compute; reflexivity|].
  eapply (canonical_order_total f g f).
  - split; simpl; unfold is_u16, is_u64; split_and!; repeat constructor; simpl; unfold is_u64; lia.
  - split; simpl; unfold is_u16, is_u64; split_and!; repeat constructor; simpl; unfold is_u64; lia.
  - vm_compute. reflexivity.
  - vm_compute. reflexivity.
  - vm_compute. reflexivity.
  - vm_compute. reflexivity.
  - discriminate.
Defined.
