(* ===== verification/Store.v ===== *)
(** The evidence ledger ([src/src/evidence_store.hpp], the record operations of
    [src/src/evidence_store.cpp]): insertion, merging, the canonical views, the
    support summaries and the index that insertion maintains.  Conflict detection
    is in Conflicts.v and ConflictScan.v, the envelope codec in StoreCodec.v. *)
From stdpp Require Import base numbers list strings option sets.
From Stdlib Require Import ZArith Init.Byte Sorting.Sorted Lia.
From S2P Require Import Prelude OrderedMap Ledger FactTypes Sha256 Validate FactCodec.

(** ** Data *)

Record EvidenceRecord := {
  er_payload : FactPayload;
  er_observations : list Evidence
}.

Inductive AddDisposition :=
| AddDisposition_InsertedRecord
| AddDisposition_AddedObservation
| AddDisposition_DuplicateObservation
| AddDisposition_RejectedInvalid.

(** A value-initialised [FactDigest]. *)
Definition zero_digest : FactDigest := {| fd_bytes := repeat x00 32 |}.

Record AddResult := {
  ar_disposition : AddDisposition;
  ar_payload_digest : FactDigest;
  ar_error : string
}.

Record MergeReport := {
  mr_inserted_records : Z;
  mr_added_observations : Z;
  mr_duplicate_observations : Z;
  mr_rejected_observations : Z;
  mr_records_after : Z;
  mr_observations_after : Z;
  mr_conflicts_after : Z;
  mr_errors : list string
}.

(** ** The contradiction index

    An [Entry] points at a node of the record map.  Nodes are never moved and
    records are updated in place, so the pointer is modelled by the node's key:
    following it is a lookup in the current records. *)

Definition is_return_trait (trait : FunctionTraitKind) : bool :=
  (trait == FunctionTraitKind_Returns) || (trait == FunctionTraitKind_NoReturn).

Notation Subject := (Z * (Address * Address))%type.
Definition subject_lt : Subject -> Subject -> bool := pair_lt Z.ltb (pair_lt Z.ltb Z.ltb).

Record ContradictionIndex := {
  ci_subjects : omap Subject (list bytes);
  ci_regions : omap Address bytes;
  ci_maximum_region_size : Z
}.

Definition empty_index : ContradictionIndex :=
  {| ci_subjects := []; ci_regions := []; ci_maximum_region_size := 0 |}.

Definition index_subject (payload : FactPayload) : option Subject :=
  match payload with
  | P_CodeTarget fact => Some (1, (ct_from fact, to_u8 (ct_kind fact)))
  | P_BranchReachability fact => Some (2, (br_branch fact, br_successor fact))
  | P_CfgCandidate fact => Some (2, (cfg_from fact, cfg_to fact))
  | P_FunctionTrait fact =>
      if is_return_trait (ft_trait fact) then Some (3, (ft_function fact, 0)) else None
  | P_FunctionOutcome fact =>
      if fo_stop fact == FunctionStopKind_Returned then Some (3, (fo_function fact, 0)) else None
  | P_DispatchMap fact => Some (4, (dm_site fact, 0))
  | _ => None
  end.

Definition index_insert (key : bytes) (record : EvidenceRecord) (index : ContradictionIndex) :
    ContradictionIndex :=
  match index_subject (er_payload record) with
  | Some grouped =>
      {| ci_subjects := map_push_back subject_lt grouped key (ci_subjects index);
         ci_regions := ci_regions index;
         ci_maximum_region_size := ci_maximum_region_size index |}
  | None =>
      match er_payload record with
      | P_CodeRegion region =>
          {| ci_subjects := ci_subjects index;
             ci_regions := multimap_emplace Z.ltb (cr_start region) key (ci_regions index);
             ci_maximum_region_size :=
               Z.max (ci_maximum_region_size index) (cr_end region - cr_start region) |}
      | _ => index
      end
  end.

(** ** The store *)

Record EvidenceStore := {
  records_ : omap bytes EvidenceRecord;
  contradiction_index_ : option ContradictionIndex
}.

Definition empty_store : EvidenceStore := {| records_ := []; contradiction_index_ := None |}.

(** The copy constructor: the index is not copied. *)
Definition store_copy (other : EvidenceStore) : EvidenceStore :=
  {| records_ := records_ other; contradiction_index_ := None |}.

Definition add (fact : AnalysisFact) (store : EvidenceStore) : AddResult * EvidenceStore :=
  let rejected error :=
    ({| ar_disposition := AddDisposition_RejectedInvalid;
        ar_payload_digest := zero_digest; ar_error := error |}, store) in
  match normalize_fact fact with
  | Err error => rejected error
  | Ok fact =>
  match encode_payload (af_payload fact) with
  | Err error => rejected error
  | Ok key =>
      let result disposition :=
        {| ar_disposition := disposition; ar_payload_digest := digest_bytes key;
           ar_error := "" |} in
      match map_find bytes_lt key (records_ store) with
      | None =>
          let record := {| er_payload := af_payload fact;
                           er_observations := [af_evidence fact] |} in
          (result AddDisposition_InsertedRecord,
           {| records_ := map_emplace bytes_lt key record (records_ store);
              contradiction_index_ :=
                match contradiction_index_ store with
                | Some index => Some (index_insert key record index)
                | None => None
                end |})
      | Some record =>
          let '(low, high) :=
            lower_bound (fun o => evidence_less o (af_evidence fact)) (er_observations record) in
          if match high with o :: _ => evidence_equal o (af_evidence fact) | [] => false end
          then (result AddDisposition_DuplicateObservation, store)
          else
            (result AddDisposition_AddedObservation,
             {| records_ :=
                  map_set bytes_lt key
                    {| er_payload := er_payload record;
                       er_observations := low ++ af_evidence fact :: high |} (records_ store);
                contradiction_index_ := contradiction_index_ store |})
      end
  end end.

Definition clear (store : EvidenceStore) : EvidenceStore := empty_store.

Definition empty (store : EvidenceStore) : bool := zlen (records_ store) =? 0.
Definition record_count (store : EvidenceStore) : Z := zlen (records_ store).

Definition observation_count (store : EvidenceStore) : Z :=
  foldl (fun total entry => total + zlen (er_observations entry.2)) 0 (records_ store).

Definition records (store : EvidenceStore) : list EvidenceRecord := (records_ store).*2.

Definition record_facts (record : EvidenceRecord) : list AnalysisFact :=
  map (fun e => {| af_payload := er_payload record; af_evidence := e |}) (er_observations record).

Definition flattened_facts (store : EvidenceStore) : list AnalysisFact :=
  concat (map (fun entry => record_facts entry.2) (records_ store)).

(** ** Merging

    The loop of [merge]; the fields of the report that describe the final store
    are filled in by [merge] itself, after conflict detection (ConflictScan.v). *)

Definition empty_report : MergeReport :=
  {| mr_inserted_records := 0; mr_added_observations := 0; mr_duplicate_observations := 0;
     mr_rejected_observations := 0; mr_records_after := 0; mr_observations_after := 0;
     mr_conflicts_after := 0; mr_errors := [] |}.

Definition count_result (result : AddResult) (report : MergeReport) : MergeReport :=
  let count inserted added duplicate rejected errors :=
    {| mr_inserted_records := mr_inserted_records report + inserted;
       mr_added_observations := mr_added_observations report + added;
       mr_duplicate_observations := mr_duplicate_observations report + duplicate;
       mr_rejected_observations := mr_rejected_observations report + rejected;
       mr_records_after := mr_records_after report;
       mr_observations_after := mr_observations_after report;
       mr_conflicts_after := mr_conflicts_after report;
       mr_errors := mr_errors report ++ errors |} in
  match ar_disposition result with
  | AddDisposition_InsertedRecord => count 1 0 0 0 []
  | AddDisposition_AddedObservation => count 0 1 0 0 []
  | AddDisposition_DuplicateObservation => count 0 0 1 0 []
  | AddDisposition_RejectedInvalid => count 0 0 0 1 [ar_error result]
  end.

Fixpoint merge_loop (facts : list AnalysisFact) (report : MergeReport) (store : EvidenceStore) :
    MergeReport * EvidenceStore :=
  match facts with
  | [] => (report, store)
  | fact :: r =>
      let '(result, store) := add fact store in
      merge_loop r (count_result result report) store
  end.

(** ** Producer snapshots *)

Notation SnapshotKey := (string * Address)%type.
Definition snapshot_lt : SnapshotKey -> SnapshotKey -> bool := pair_lt string_lt Z.ltb.

Definition note_generation (latest : omap SnapshotKey Z) (evidence : Evidence) :
    omap SnapshotKey Z :=
  match sc_function_start (ev_scope evidence) with
  | None => latest
  | Some start =>
      let key := (ev_producer evidence, start) in
      let generation := sc_generation (ev_scope evidence) in
      match map_find snapshot_lt key latest with
      | None => map_emplace snapshot_lt key generation latest
      | Some known => map_set snapshot_lt key (Z.max known generation) latest
      end
  end.

Definition latest_generations (store : EvidenceStore) : omap SnapshotKey Z :=
  foldl (fun latest entry => foldl note_generation latest (er_observations entry.2))
    [] (records_ store).

Definition retained (latest : omap SnapshotKey Z) (evidence : Evidence) : bool :=
  match sc_function_start (ev_scope evidence) with
  | None => true
  | Some start =>
      match map_find snapshot_lt (ev_producer evidence, start) latest with
      | Some generation => sc_generation (ev_scope evidence) =? generation
      | None => false
      end
  end.

(** The second pass: the entry that a record contributes to the view. *)
Definition active_entry (latest : omap SnapshotKey Z) (entry : bytes * EvidenceRecord) :
    omap bytes EvidenceRecord :=
  let observations := List.filter (retained latest) (er_observations entry.2) in
  match observations with
  | [] => []
  | _ => [(entry.1, {| er_payload := er_payload entry.2; er_observations := observations |})]
  end.

Definition latest_generation_view (store : EvidenceStore) : EvidenceStore :=
  let latest := latest_generations store in
  {| records_ :=
       foldl (fun active entry =>
                foldl (fun m e => map_emplace bytes_lt e.1 e.2 m) active (active_entry latest entry))
         [] (records_ store);
     contradiction_index_ := None |}.

Definition find (payload : FactPayload) (store : EvidenceStore) : option EvidenceRecord :=
  match encode_payload payload with
  | Err _ => None
  | Ok key => map_find bytes_lt key (records_ store)
  end.

(** ** Support *)

Record SupportSummary := {
  ss_observation_count : Z;
  ss_distinct_run_count : Z;
  ss_distinct_seed_count : Z;
  ss_distinct_run_seed_count : Z;
  ss_distinct_producer_count : Z;
  ss_distinct_method_count : Z;
  ss_distinct_generation_count : Z;
  ss_minimum_confidence : Z;
  ss_maximum_confidence : Z;
  ss_minimum_generation : Z;
  ss_maximum_generation : Z
}.

(** The local sets of [summarize_support] with the running extrema. *)
Record SupportScan := {
  scan_runs : list Z;
  scan_seeds : list Z;
  scan_run_seeds : list (Z * Z);
  scan_producers : list string;
  scan_methods : list string;
  scan_generations : list Z;
  scan_minimum_confidence : Z;
  scan_maximum_confidence : Z;
  scan_minimum_generation : Z;
  scan_maximum_generation : Z
}.

Definition insert_present {A} (lt : A -> A -> bool) (o : option A) (s : list A) : list A :=
  match o with Some x => set_insert lt x s | None => s end.

Definition scope_run_seed (scope : EvidenceScope) : option (Z * Z) :=
  match sc_run_id scope, sc_seed scope with
  | Some run, Some seed => Some (run, seed)
  | _, _ => None
  end.

Definition scan_evidence (scan : SupportScan) (evidence : Evidence) : SupportScan :=
  let scope := ev_scope evidence in
  {| scan_runs := insert_present Z.ltb (sc_run_id scope) (scan_runs scan);
     scan_seeds := insert_present Z.ltb (sc_seed scope) (scan_seeds scan);
     scan_run_seeds :=
       insert_present (pair_lt Z.ltb Z.ltb) (scope_run_seed scope) (scan_run_seeds scan);
     scan_producers := set_insert string_lt (ev_producer evidence) (scan_producers scan);
     scan_methods := set_insert string_lt (ev_method evidence) (scan_methods scan);
     scan_generations := set_insert Z.ltb (sc_generation scope) (scan_generations scan);
     scan_minimum_confidence := Z.min (scan_minimum_confidence scan) (ev_confidence evidence);
     scan_maximum_confidence := Z.max (scan_maximum_confidence scan) (ev_confidence evidence);
     scan_minimum_generation := Z.min (scan_minimum_generation scan) (sc_generation scope);
     scan_maximum_generation := Z.max (scan_maximum_generation scan) (sc_generation scope) |}.

Definition initial_scan : SupportScan :=
  {| scan_runs := []; scan_seeds := []; scan_run_seeds := []; scan_producers := [];
     scan_methods := []; scan_generations := []; scan_minimum_confidence := kMaxConfidence;
     scan_maximum_confidence := 0; scan_minimum_generation := u64_max;
     scan_maximum_generation := 0 |}.

Definition summarize_support (record : EvidenceRecord) : SupportSummary :=
  if zlen (er_observations record) =? 0
  then {| ss_observation_count := zlen (er_observations record); ss_distinct_run_count := 0;
          ss_distinct_seed_count := 0; ss_distinct_run_seed_count := 0;
          ss_distinct_producer_count := 0; ss_distinct_method_count := 0;
          ss_distinct_generation_count := 0; ss_minimum_confidence := 0;
          ss_maximum_confidence := 0; ss_minimum_generation := 0; ss_maximum_generation := 0 |}
  else
    let scan := foldl scan_evidence initial_scan (er_observations record) in
    {| ss_observation_count := zlen (er_observations record);
       ss_distinct_run_count := zlen (scan_runs scan);
       ss_distinct_seed_count := zlen (scan_seeds scan);
       ss_distinct_run_seed_count := zlen (scan_run_seeds scan);
       ss_distinct_producer_count := zlen (scan_producers scan);
       ss_distinct_method_count := zlen (scan_methods scan);
       ss_distinct_generation_count := zlen (scan_generations scan);
       ss_minimum_confidence := scan_minimum_confidence scan;
       ss_maximum_confidence := scan_maximum_confidence scan;
       ss_minimum_generation := scan_minimum_generation scan;
       ss_maximum_generation := scan_maximum_generation scan |}.

(** The two sets that [is_corroborated] fills. *)
Definition corroborating (minimum_each_confidence : Z) (sets : list Z * list string)
    (evidence : Evidence) : list Z * list string :=
  if ev_confidence evidence <? minimum_each_confidence then sets
  else (insert_present Z.ltb (sc_run_id (ev_scope evidence)) sets.1,
        set_insert string_lt (ev_producer evidence) sets.2).

Definition is_corroborated (record : EvidenceRecord)
    (minimum_distinct_runs minimum_distinct_producers minimum_each_confidence : Z) : bool :=
  if kMaxConfidence <? minimum_each_confidence then false
  else
    let '(runs, producers) :=
      foldl (corroborating minimum_each_confidence) ([], []) (er_observations record) in
    (minimum_distinct_runs <=? zlen runs) && (minimum_distinct_producers <=? zlen producers).

(** ** The representation invariant *)

(** What one stored observation satisfies: with its payload it is a valid fact. *)
Definition observation_ok (payload : FactPayload) (e : Evidence) : Prop :=
  let fact := {| af_payload := payload; af_evidence := e |} in
  fact_typed fact /\ validate_fact fact = Ok tt.

(** A record sits under the encoding of its payload; its observations are not
    empty, valid, and strictly sorted by their encodings. *)
Definition record_ok (key : bytes) (r : EvidenceRecord) : Prop :=
  encode_normalized_payload (er_payload r) = Ok key /\
  payload_typed (er_payload r) /\ validate_payload (er_payload r) = Ok tt /\
  er_observations r <> [] /\
  Forall (observation_ok (er_payload r)) (er_observations r) /\
  StrictSorted bytes_lt (map evidence_key (er_observations r)).

Notation record_map := (omap bytes EvidenceRecord).

Definition records_ok (m : record_map) : Prop :=
  map_ok bytes_lt m /\ forall key r, (key, r) ∈ m -> record_ok key r.

(** The index lists, for each subject, the records that can contradict on it, and
    all code regions in start order with a bound on their size. *)
Definition index_ok (m : record_map) (index : ContradictionIndex) : Prop :=
  map_ok subject_lt (ci_subjects index) /\
  (forall s key, key ∈ default [] (map_find subject_lt s (ci_subjects index)) <->
     exists r, (key, r) ∈ m /\ index_subject (er_payload r) = Some s) /\
  multimap_ok (ci_regions index) /\
  (forall a key, (a, key) ∈ ci_regions index <->
     exists r f, (key, r) ∈ m /\ er_payload r = P_CodeRegion f /\ a = cr_start f) /\
  0 <= ci_maximum_region_size index /\
  (forall key r f, (key, r) ∈ m -> er_payload r = P_CodeRegion f ->
     cr_end f - cr_start f <= ci_maximum_region_size index).

Definition store_wf (s : EvidenceStore) : Prop :=
  records_ok (records_ s) /\
  match contradiction_index_ s with Some index => index_ok (records_ s) index | None => True end.

(** ** The abstract state: the set of facts *)

(** What [add] makes of a fact: the normal form it stores, or why it rejects it. *)
Definition accept (fact : AnalysisFact) : result AnalysisFact :=
  let* normal := normalize_fact fact in
  let* _ := encode_payload (af_payload normal) in
  Ok normal.

Lemma elem_of_flattened s f :
  f ∈ flattened_facts s <->
  exists key r, (key, r) ∈ records_ s /\ er_payload r = af_payload f /\
                af_evidence f ∈ er_observations r.
Proof.
  unfold flattened_facts. destruct f as [p e]. cbn [af_payload af_evidence].
  rewrite list_elem_of_In, in_concat. split.
  - intros (l & Hl & Hf). apply list_elem_of_In, list_elem_of_fmap in Hl as ([key r] & -> & Hr).
    apply list_elem_of_In, list_elem_of_fmap in Hf as (e' & [= -> ->] & He). eauto.
  - intros (key & r & Hr & <- & He). exists (record_facts r). rewrite <- !list_elem_of_In. split.
    + apply list_elem_of_fmap. by exists (key, r).
    + apply list_elem_of_fmap. by exists e.
Qed.

Lemma records_ok_find m key r :
  records_ok m -> map_find bytes_lt key m = Some r -> record_ok key r /\ (key, r) ∈ m.
Proof.
  intros [Hok Hr] Hf. apply map_find_elem in Hf; [|apply _|done]. split; [by apply Hr|done].
Qed.

Lemma observation_ok_evidence p e :
  observation_ok p e -> evidence_typed e /\ validate_evidence e = Ok tt.
Proof. intros [[_ ?] Hv]. split; [done|]. by apply validate_fact_parts in Hv as [_ ?]. Qed.

Lemma observation_key_inj p e e' :
  observation_ok p e -> observation_ok p e' -> evidence_key e = evidence_key e' -> e = e'.
Proof.
  intros [? ?]%observation_ok_evidence [? ?]%observation_ok_evidence. by apply evidence_key_inj.
Qed.

(** Membership by key: the record of a payload is under its encoding. *)
Lemma flattened_find s f :
  records_ok (records_ s) ->
  f ∈ flattened_facts s <->
  exists key r, encode_normalized_payload (af_payload f) = Ok key /\
    map_find bytes_lt key (records_ s) = Some r /\ er_payload r = af_payload f /\
    af_evidence f ∈ er_observations r.
Proof.
  intros Hok. rewrite elem_of_flattened. split.
  - intros (key & r & Hin & Hp & He). exists key, r.
    split_and!; [|by apply map_find_elem; [apply _|apply Hok|]|done|done].
    rewrite <- Hp. by apply (proj2 Hok).
  - intros (key & r & _ & Hf & Hp & He). apply map_find_elem in Hf; [|apply _|apply Hok]. eauto.
Qed.

Lemma flattened_ok s f :
  records_ok (records_ s) -> f ∈ flattened_facts s ->
  fact_typed f /\ validate_fact f = Ok tt /\ accept f = Ok f.
Proof.
  intros Hok (key & r & Hin & Hp & He)%elem_of_flattened.
  destruct (proj2 Hok _ _ Hin) as (Hk & Ht & Hv & _ & Hobs & _).
  rewrite Forall_forall in Hobs. specialize (Hobs _ He) as [Hft Hfv].
  rewrite Hp in Hft, Hfv, Hv, Hk.
  assert ({| af_payload := af_payload f; af_evidence := af_evidence f |} = f) as Hf by by destruct f.
  rewrite Hf in Hft, Hfv. split_and!; [done..|]. unfold accept.
  rewrite (normalize_fact_valid _ Hfv). cbn [result_bind].
  by rewrite (encode_payload_valid _ Hv), Hk.
Qed.

(** The records are determined by the facts they hold. *)
Lemma records_find_agree s t key r :
  records_ok (records_ s) -> records_ok (records_ t) ->
  (forall f, f ∈ flattened_facts s <-> f ∈ flattened_facts t) ->
  map_find bytes_lt key (records_ s) = Some r -> map_find bytes_lt key (records_ t) = Some r.
Proof.
  intros Hs Ht Heq Hf.
  destruct (records_ok_find _ _ _ Hs Hf) as [(Hk & _ & _ & Hne & Hobs & Hsort) Hin].
  assert (forall e, e ∈ er_observations r <->
    {| af_payload := er_payload r; af_evidence := e |} ∈ flattened_facts s) as Hse.
  { intros e. rewrite flattened_find by done. cbn [af_payload af_evidence]. split.
    - intros He. by exists key, r.
    - intros (key' & r' & Hk' & Hf' & _ & He). congruence. }
  destruct (er_observations r) as [|e0 obs] eqn:Eobs; [done|].
  assert ({| af_payload := er_payload r; af_evidence := e0 |} ∈ flattened_facts t) as Ht0.
  { apply Heq, Hse. set_solver. }
  apply flattened_find in Ht0 as (key' & r' & Hk' & Hf' & Hp' & _); [|done].
  cbn [af_payload af_evidence] in *. assert (key' = key) as -> by congruence.
  rewrite Hf'. f_equal.
  destruct (records_ok_find _ _ _ Ht Hf') as [(_ & _ & _ & _ & Hobs' & Hsort') _].
  assert (forall e, e ∈ er_observations r' <-> e ∈ e0 :: obs) as Hee.
  { intros e. rewrite Hse, Heq, flattened_find by done. cbn [af_payload af_evidence]. split.
    - intros He. by exists key, r'.
    - intros (k2 & r2 & Hk2 & Hf2 & _ & He). congruence. }
  destruct r as [p obs0], r' as [p' obs']. cbn [er_payload er_observations] in *. subst p' obs0.
  f_equal. apply (map_key_inj evidence_key (observation_ok p)).
  - intros x y. apply observation_key_inj.
  - done.
  - done.
  - apply (StrictSorted_ext bytes_lt); [done..|]. intros k.
    rewrite !list_elem_of_fmap. by setoid_rewrite Hee.
Qed.

Lemma records_ext s t :
  records_ok (records_ s) -> records_ok (records_ t) ->
  (forall f, f ∈ flattened_facts s <-> f ∈ flattened_facts t) -> records_ s = records_ t.
Proof.
  intros Hs Ht Heq. apply (map_ext bytes_lt); [apply Hs|apply Ht|]. intros key.
  apply option_eq. intros r. split; apply records_find_agree; done.
Qed.

(** ** Insertion *)

Lemma accept_ok fact f :
  fact_typed fact -> accept fact = Ok f ->
  normalize_fact fact = Ok f /\ fact_typed f /\ validate_fact f = Ok tt /\
  exists key, encode_payload (af_payload f) = Ok key /\
              encode_normalized_payload (af_payload f) = Ok key.
Proof.
  intros [Htp Hte] Ha. unfold accept in Ha. inv_ok Ha. injection Ha as ->.
  pose proof (normalize_fact_ok _ _ Hm) as (Hp & He & Hv & _).
  apply normalize_payload_ok in Hp as (Hpe & Hvp & _).
  apply normalize_evidence_ok in He as (Hee & _ & _).
  split_and!; [done| |done|].
  - split; [rewrite Hpe; by apply normalize_payload_typed
           |rewrite Hee; by apply normalize_evidence_typed].
  - exists a0. split; [done|]. by rewrite <- (encode_payload_valid _ Hvp).
Qed.

(** Replacing the record of a payload replaces the facts about it. *)
Lemma records_ok_set m key r :
  records_ok m -> record_ok key r -> records_ok (map_set bytes_lt key r m).
Proof.
  intros [Hok Hr] Hnew. split; [by apply (map_ok_set bytes_lt)|]. intros key' r'.
  rewrite (elem_of_map_set bytes_lt) by done. intros [[-> ->]|[_ Hin]]; [done|by apply Hr].
Qed.

Lemma flattened_set m i i' key r f :
  records_ok m -> record_ok key r ->
  f ∈ flattened_facts {| records_ := map_set bytes_lt key r m; contradiction_index_ := i |} <->
  (af_payload f = er_payload r /\ af_evidence f ∈ er_observations r) \/
  (af_payload f <> er_payload r /\
   f ∈ flattened_facts {| records_ := m; contradiction_index_ := i' |}).
Proof.
  intros [Hok Hr] Hnew. rewrite !elem_of_flattened. cbn [records_]. split.
  - intros (key' & r' & Hin & Hp & He). apply elem_of_map_set in Hin; [|apply _|done].
    destruct Hin as [[-> ->]|[Hne Hin]]; [by left|]. right. split; [|by eauto].
    intros Heq. apply Hne. pose proof (Hr _ _ Hin) as (Hk & _). destruct Hnew as (Hk' & _).
    rewrite Hp, Heq in Hk. congruence.
  - intros [[Hp He]|[Hp (key' & r' & Hin & Hp' & He)]].
    + exists key, r. rewrite (elem_of_map_set bytes_lt) by done. naive_solver.
    + exists key', r'. rewrite (elem_of_map_set bytes_lt) by done. split; [|done]. right.
      split; [|done]. intros ->. pose proof (Hr _ _ Hin) as (Hk & Ht & Hv & _).
      destruct Hnew as (Hk' & Ht' & Hv' & _). apply Hp. rewrite <- Hp'.
      by eapply encode_normalized_payload_inj.
Qed.

Lemma record_ok_single p e key :
  encode_normalized_payload p = Ok key -> observation_ok p e ->
  record_ok key {| er_payload := p; er_observations := [e] |}.
Proof.
  intros Hk Hobs. pose proof Hobs as [[Ht _] Hv]. apply validate_fact_parts in Hv as [Hv _].
  split_and!; [done..| |repeat constructor]. by constructor.
Qed.

(** Inserting a new observation at its lower bound. *)
Lemma record_ok_insert key r e low high :
  record_ok key r -> observation_ok (er_payload r) e ->
  lower_bound (fun o => evidence_less o e) (er_observations r) = (low, high) ->
  let duplicate := match high with o :: _ => evidence_equal o e | [] => false end in
  (duplicate = true <-> e ∈ er_observations r) /\
  (duplicate = false ->
   record_ok key {| er_payload := er_payload r; er_observations := low ++ e :: high |}).
Proof.
  intros (Hk & Ht & Hv & Hne & Hobs & Hsort) He Hb.
  pose proof (lower_bound_app (fun o => evidence_less o e) (er_observations r)) as Happ.
  rewrite Hb in Happ. cbn [fst snd] in Happ.
  destruct (lower_bound_insert bytes_lt evidence_key _ e _ _ Hsort Hb) as [Hdup Hins].
  cbn zeta. split.
  - etrans; [exact Hdup|]. rewrite list_elem_of_fmap. split.
    + intros (o & Ho & Hin). rewrite Forall_forall in Hobs.
      by rewrite (observation_key_inj _ _ _ He (Hobs _ Hin) Ho).
    + intros Hin. by exists e.
  - intros Hd. split_and!; [done..| | |by apply Hins]; cbn [er_payload er_observations].
    + by destruct low.
    + rewrite <- Happ in Hobs. apply Forall_app in Hobs as [Hl Hh].
      apply Forall_app. split; [done|]. by constructor.
Qed.

Lemma add_rejected s fact m :
  accept fact = Err m ->
  add fact s = ({| ar_disposition := AddDisposition_RejectedInvalid;
                   ar_payload_digest := zero_digest; ar_error := m |}, s).
Proof.
  unfold accept, add. cbn zeta. destruct (normalize_fact fact) as [f|]; cbn [result_bind].
  - destruct (encode_payload (af_payload f)); cbn [result_bind]; [done|]. by intros [= ->].
  - by intros [= ->].
Qed.

(** The three ways in which an accepted fact is stored. *)
Lemma add_accepted s fact f key :
  records_ok (records_ s) -> fact_typed fact -> accept fact = Ok f ->
  encode_payload (af_payload f) = Ok key ->
  let result d :=
    {| ar_disposition := d; ar_payload_digest := digest_bytes key; ar_error := "" |} in
  (map_find bytes_lt key (records_ s) = None /\
   let r := {| er_payload := af_payload f; er_observations := [af_evidence f] |} in
   record_ok key r /\
   add fact s = (result AddDisposition_InsertedRecord,
     {| records_ := map_set bytes_lt key r (records_ s);
        contradiction_index_ := index_insert key r <$> contradiction_index_ s |})) \/
  (exists r, map_find bytes_lt key (records_ s) = Some r /\ er_payload r = af_payload f /\
   ((af_evidence f ∈ er_observations r /\
     add fact s = (result AddDisposition_DuplicateObservation, s)) \/
    (exists low high, af_evidence f ∉ er_observations r /\ er_observations r = low ++ high /\
     let r' := {| er_payload := er_payload r;
                  er_observations := low ++ af_evidence f :: high |} in
     record_ok key r' /\
     add fact s = (result AddDisposition_AddedObservation,
       {| records_ := map_set bytes_lt key r' (records_ s);
          contradiction_index_ := contradiction_index_ s |})))).
Proof.
  intros Hok Ht Ha Hk. destruct (accept_ok _ _ Ht Ha) as (Hn & Hft & Hv & key' & Hk1 & Hk2).
  assert (key' = key) as -> by congruence.
  assert (observation_ok (af_payload f) (af_evidence f)) as Hobs by (by split; destruct f).
  cbn zeta. unfold add. cbn zeta. rewrite Hn, Hk. destruct (map_find bytes_lt key (records_ s)) as [r|] eqn:Ef.
  - right. exists r. destruct (records_ok_find _ _ _ Hok Ef) as [Hr Hin].
    assert (er_payload r = af_payload f) as Hp.
    { destruct Hr as (Hkr & Htr & Hvr & _). eapply encode_normalized_payload_inj; try done.
      - apply Hft.
      - by apply validate_fact_parts in Hv as [? _]. }
    split_and!; [done..|]. rewrite <- Hp in Hobs.
    destruct (lower_bound (fun o => evidence_less o (af_evidence f)) (er_observations r))
      as [low high] eqn:Eb.
    pose proof (lower_bound_app (fun o => evidence_less o (af_evidence f)) (er_observations r))
      as Happ. rewrite Eb in Happ. cbn [fst snd] in Happ.
    destruct (record_ok_insert _ _ _ _ _ Hr Hobs Eb) as [Hdup Hins]. cbn zeta in *.
    destruct (match high with o :: _ => evidence_equal o (af_evidence f) | [] => false end).
    + left. split; [by apply Hdup|done].
    + right. exists low, high. split_and!; [by intros ?%Hdup|done|by apply Hins|done].
  - left. split; [done|]. split; [by apply record_ok_single|].
    unfold map_emplace. rewrite Ef. by destruct (contradiction_index_ s).
Qed.

Lemma add_facts s fact f :
  records_ok (records_ s) -> fact_typed fact -> accept fact = Ok f ->
  records_ok (records_ (add fact s).2) /\
  forall x, x ∈ flattened_facts (add fact s).2 <-> x = f \/ x ∈ flattened_facts s.
Proof.
  intros Hok Ht Ha. destruct (accept_ok _ _ Ht Ha) as (_ & _ & _ & key & Hk & Hkn).
  destruct (add_accepted s fact f key Hok Ht Ha Hk)
    as [(Hf & Hr & ->)|(r & Hf & Hp & [(He & ->)|(low & high & He & Hobs & Hr & ->)])];
    cbn [snd records_].
  - split; [by apply records_ok_set|]. intros x. rewrite (flattened_set _ _ None) by done.
    cbn [er_payload er_observations]. rewrite list_elem_of_singleton.
    rewrite flattened_find by done. rewrite (flattened_find s) by done. cbn [records_].
    destruct x as [p e], f as [pf ef]. cbn [af_payload af_evidence] in *. split.
    + intros [[-> ->]|[_ Hx]]; [by left|by right].
    + intros [[= -> ->]|Hx]; [by left|]. right. split; [|done]. intros ->.
      destruct Hx as (key' & r & Hk' & Hf' & _). congruence.
  - split; [done|]. intros x. split; [by right|]. intros [->|]; [|done].
    apply flattened_find; [done|]. by exists key, r.
  - split; [by apply records_ok_set|]. intros x. rewrite (flattened_set _ _ None) by done.
    cbn [er_payload er_observations]. rewrite flattened_find by done.
    rewrite (flattened_find s) by done. cbn [records_].
    destruct x as [p e], f as [pf ef]. cbn [af_payload af_evidence] in *. subst pf.
    assert (e ∈ low ++ ef :: high <-> e = ef \/ e ∈ er_observations r) as Hin
      by (rewrite Hobs; set_solver).
    rewrite Hin. split.
    + intros [[-> [->|Hx]]|[_ Hx]]; [by left| |by right]. right. by exists key, r.
    + intros [[= -> ->]|Hx]; [by left; auto|]. pose proof Hx as (key' & r' & Hk' & Hf' & <- & Hx').
      destruct (decide (er_payload r' = er_payload r)) as [Heq|Hne]; [|by right].
      left. split; [done|]. right. rewrite Heq in Hk'. congruence.
Qed.

(** ** Counting *)

Lemma foldl_count (m : record_map) n :
  foldl (fun total entry => total + zlen (er_observations entry.2)) n m =
  n + zlen (concat (map (fun entry => record_facts entry.2) m)).
Proof.
  revert n. induction m as [|[key r] m IH]; intros n; cbn [foldl map concat].
  - rewrite zlen_nil. lia.
  - rewrite IH, zlen_app. unfold record_facts, zlen. rewrite length_map. simpl. lia.
Qed.

Lemma observation_count_flattened s : observation_count s = zlen (flattened_facts s).
Proof. unfold observation_count. rewrite foldl_count. done. Qed.

Lemma flattened_NoDup s : records_ok (records_ s) -> NoDup (flattened_facts s).
Proof.
  intros [Hok Hr]. unfold flattened_facts. revert Hok Hr.
  induction (records_ s) as [|[key r] m IH]; intros Hok Hr; cbn [map concat]; [constructor|].
  apply (map_ok_cons bytes_lt) in Hok as [Hok Hlt]. apply NoDup_app. split_and!.
  - pose proof (Hr key r ltac:(set_solver)) as (_ & _ & _ & _ & _ & Hs).
    apply (StrictSorted_NoDup bytes_lt) in Hs. apply NoDup_fmap_1 in Hs.
    apply NoDup_fmap_2_strong; [|done]. by intros x y _ _ [= ->].
  - intros f Hf1 Hf2. apply list_elem_of_fmap in Hf1 as (e & -> & He).
    change (concat _) with (flattened_facts {| records_ := m; contradiction_index_ := None |}) in Hf2.
    apply elem_of_flattened in Hf2 as (key' & r' & Hin & Hp & _). cbn [records_ af_payload] in *.
    pose proof (Hr key r ltac:(set_solver)) as (Hk & _).
    pose proof (Hr key' r' ltac:(set_solver)) as (Hk' & _).
    cbn [snd] in Hp. rewrite Hp, Hk in Hk'. injection Hk' as <-. specialize (Hlt _ _ Hin).
    by rewrite lt_irrefl in Hlt.
  - apply IH; [done|]. intros. apply Hr. set_solver.
Qed.

(** ** The index follows the records *)

#[export] Instance subject_lt_total : StrictTotal subject_lt.
Proof. unfold subject_lt. apply _. Qed.

(** The index sees the records' payloads only. *)
Lemma index_ok_payloads m m' index :
  (forall key p, (exists r, (key, r) ∈ m /\ er_payload r = p) <->
                 (exists r, (key, r) ∈ m' /\ er_payload r = p)) ->
  index_ok m index -> index_ok m' index.
Proof.
  intros Hsame (H1 & H2 & H3 & H4 & H5 & H6). split_and!; [done| |done| |done|].
  - intros s key. rewrite H2. split; intros (r & Hin & Hs).
    + destruct (proj1 (Hsame key (er_payload r)) ltac:(eauto)) as (r' & ? & Hp). exists r'.
      by rewrite Hp.
    + destruct (proj2 (Hsame key (er_payload r)) ltac:(eauto)) as (r' & ? & Hp). exists r'.
      by rewrite Hp.
  - intros a key. rewrite H4. split; intros (r & f & Hin & Hs & ->).
    + destruct (proj1 (Hsame key (er_payload r)) ltac:(eauto)) as (r' & ? & Hp). exists r', f.
      by rewrite Hp.
    + destruct (proj2 (Hsame key (er_payload r)) ltac:(eauto)) as (r' & ? & Hp). exists r', f.
      by rewrite Hp.
  - intros key r f Hin Hp. destruct (proj2 (Hsame key (er_payload r)) ltac:(eauto)) as (r' & ? & Hp').
    eapply H6; [done|congruence].
Qed.

Lemma index_ok_update m key r r' index :
  map_ok bytes_lt m -> map_find bytes_lt key m = Some r -> er_payload r' = er_payload r ->
  index_ok m index -> index_ok (map_set bytes_lt key r' m) index.
Proof.
  intros Hok Hf Hp. apply index_ok_payloads. intros key' p.
  setoid_rewrite (elem_of_map_set bytes_lt); [|done].
  pose proof (proj1 (map_find_elem bytes_lt _ _ _ Hok) Hf) as Hin. split.
  - intros (r0 & Hr0 & <-). destruct (decide (key' = key)) as [->|Hne]; [|by eauto].
    apply (map_find_elem bytes_lt) in Hr0; [|done]. exists r'. split; [by left|congruence].
  - intros (r0 & [[-> ->]|[_ Hr0]] & <-); [|by eauto]. by exists r.
Qed.

Lemma index_ok_insert m key r index :
  map_ok bytes_lt m -> map_find bytes_lt key m = None ->
  index_ok m index -> index_ok (map_set bytes_lt key r m) (index_insert key r index).
Proof.
  intros Hok Hf (H1 & H2 & H3 & H4 & H5 & H6).
  assert (forall k x, (k, x) ∈ map_set bytes_lt key r m <-> (k = key /\ x = r) \/ (k, x) ∈ m) as Hin.
  { intros k x. rewrite (elem_of_map_set bytes_lt) by done. split; [naive_solver|].
    intros [?|Hx]; [by left|right]. split; [|done]. intros ->.
    by destruct (proj1 (map_find_None bytes_lt _ _ Hok) Hf x). }
  unfold index_insert. destruct (index_subject (er_payload r)) as [g|] eqn:Eg.
  - assert (forall f, er_payload r <> P_CodeRegion f) as Hnr by (by intros f E; rewrite E in Eg).
    split_and!; cbn [ci_subjects ci_regions ci_maximum_region_size].
    + by apply (map_ok_push_back subject_lt).
    + intros s k. rewrite (map_find_push_back subject_lt) by done. setoid_rewrite Hin.
      destruct (equiv_by subject_lt g s) eqn:E.
      * apply equiv_by_eq in E as <-; [|apply _]. cbn [from_option id].
        rewrite elem_of_app, H2, list_elem_of_singleton. naive_solver.
      * rewrite H2. split; [naive_solver|]. intros (x & [[-> ->]|?] & Hx); [|by eauto].
        exfalso. rewrite Eg in Hx. injection Hx as ->.
        by rewrite (proj2 (equiv_by_eq subject_lt s s) eq_refl) in E.
    + done.
    + intros a k. rewrite H4. setoid_rewrite Hin. naive_solver.
    + done.
    + intros k x f. rewrite Hin. naive_solver.
  - assert (forall k s, (exists x, (k, x) ∈ map_set bytes_lt key r m /\
                                   index_subject (er_payload x) = Some s) <->
                        (exists x, (k, x) ∈ m /\ index_subject (er_payload x) = Some s)) as Hsub.
    { intros k s. setoid_rewrite Hin. split; [|by intros (x & ? & ?); eauto].
      intros (x & [[-> ->]|?] & ?); [congruence|eauto]. }
    assert ((exists region, er_payload r = P_CodeRegion region) \/
            (forall region, er_payload r <> P_CodeRegion region)) as [[region Er]|Er].
    { destruct (er_payload r); eauto. }
    + rewrite Er. split_and!; cbn [ci_subjects ci_regions ci_maximum_region_size].
      * done.
      * intros s k. by rewrite H2, Hsub.
      * by apply multimap_emplace_ok.
      * intros a k. rewrite elem_of_multimap_emplace, H4. split.
        -- intros [[= -> ->]|(x & f & Hx & Hp & ->)].
           ++ exists r, region. rewrite Hin. auto.
           ++ exists x, f. rewrite Hin. auto.
        -- intros (x & f & Hx & Hp & ->). rewrite Hin in Hx.
           destruct Hx as [[-> ->]|Hx]; [left; congruence|right; eauto].
      * lia.
      * intros k x f Hx Hp. rewrite Hin in Hx. destruct Hx as [[-> ->]|Hx].
        -- assert (f = region) as -> by congruence. lia.
        -- specialize (H6 _ _ _ Hx Hp). lia.
    + assert (match er_payload r with P_CodeRegion region =>
                {| ci_subjects := ci_subjects index;
                   ci_regions := multimap_emplace Z.ltb (cr_start region) key (ci_regions index);
                   ci_maximum_region_size :=
                     Z.max (ci_maximum_region_size index) (cr_end region - cr_start region) |}
              | _ => index end = index) as -> by (destruct (er_payload r); naive_solver).
      split_and!; [done| |done| |done|].
      * intros s k. by rewrite H2, Hsub.
      * intros a k. rewrite H4. split; intros (x & f & Hx & Hp & ->).
        -- exists x, f. rewrite Hin. auto.
        -- rewrite Hin in Hx. destruct Hx as [[-> ->]|Hx]; [by destruct (Er f)|eauto].
      * intros k x f Hx Hp. rewrite Hin in Hx.
        destruct Hx as [[-> ->]|Hx]; [by destruct (Er f)|by eapply H6].
Qed.

Lemma empty_store_wf : store_wf empty_store.
Proof. split; [|done]. split; [constructor|]. intros ? ? H. by apply elem_of_nil in H. Qed.

Lemma add_wf s fact : store_wf s -> fact_typed fact -> store_wf (add fact s).2.
Proof.
  intros [Hok Hidx] Ht. destruct (accept fact) as [f|m] eqn:Ea.
  - split; [by eapply add_facts|]. destruct (accept_ok _ _ Ht Ea) as (_ & _ & _ & key & Hk & _).
    destruct (add_accepted s fact f key Hok Ht Ea Hk)
      as [(Hf & Hr & ->)|(r & Hf & Hp & [(He & ->)|(low & high & He & Hobs & Hr & ->)])];
      cbn [snd records_ contradiction_index_]; [|done|].
    + destruct (contradiction_index_ s) as [index|]; [|done]. cbn.
      apply index_ok_insert; [apply Hok|done|done].
    + destruct (contradiction_index_ s) as [index|]; [|done].
      eapply index_ok_update; [apply Hok|done|done|done].
  - by rewrite (add_rejected _ _ _ Ea).
Qed.

(** ** The store is a ledger *)

(** Two stores with the same records: what every query but the presence of the
    index depends on. *)
Definition store_equiv (s t : EvidenceStore) : Prop := records_ s = records_ t.

Lemma store_eq s t :
  records_ s = records_ t -> contradiction_index_ s = contradiction_index_ t -> s = t.
Proof. destruct s, t. cbn. by intros -> ->. Qed.

#[export] Instance store_equiv_equivalence : Equivalence store_equiv.
Proof. unfold store_equiv. split; intros ?; intros; congruence. Qed.
#[export] Instance flattened_facts_proper : Proper (store_equiv ==> eq) flattened_facts.
Proof. intros s t H. unfold flattened_facts. by rewrite H. Qed.
#[export] Instance records_proper : Proper (store_equiv ==> eq) records.
Proof. intros s t H. unfold records. by rewrite H. Qed.
#[export] Instance find_proper p : Proper (store_equiv ==> eq) (find p).
Proof. intros s t H. unfold find. by rewrite H. Qed.
#[export] Instance latest_view_proper : Proper (store_equiv ==> store_equiv) latest_generation_view.
Proof. intros s t H. unfold latest_generation_view, latest_generations, store_equiv. by rewrite H. Qed.

Lemma add_facts_iff s fact x :
  records_ok (records_ s) -> fact_typed fact ->
  x ∈ flattened_facts (add fact s).2 <-> accept fact = Ok x \/ x ∈ flattened_facts s.
Proof.
  intros Hok Ht. destruct (accept fact) as [f|m] eqn:Ea.
  - rewrite (proj2 (add_facts _ _ _ Hok Ht Ea)). naive_solver.
  - rewrite (add_rejected _ _ _ Ea). naive_solver.
Qed.

#[export] Program Instance store_ledger : Ledger EvidenceStore AnalysisFact := {|
  ledger_ok := store_wf;
  ledger_input := fact_typed;
  ledger_accept := accept;
  ledger_facts := flattened_facts;
  ledger_add := fun fact store => (add fact store).2;
  ledger_equiv := store_equiv
|}.
Next Obligation. intros s t H. by rewrite H. Qed.
Next Obligation. intros s t [Hs _] [Ht _]. by apply records_ext. Qed.
Next Obligation. intros. by apply add_wf. Qed.
Next Obligation. intros s f x [Hs _] Hf. by apply add_facts_iff. Qed.
Next Obligation. intros s x [Hs _] Hx. by destruct (flattened_ok _ _ Hs Hx) as (? & _ & ?). Qed.

(** ** The merge loop *)

Lemma merge_loop_store facts report s :
  (merge_loop facts report s).2 = ledger_add_all facts s.
Proof.
  revert report s. induction facts as [|f facts IH]; intros report s; [done|].
  change (ledger_add_all (f :: facts) s) with (ledger_add_all facts (add f s).2).
  cbn [merge_loop]. destruct (add f s) as [r s'] eqn:E. by rewrite IH.
Qed.

(** What each disposition says about the facts and the records. *)
Lemma add_disposition s fact :
  store_wf s -> fact_typed fact ->
  let '(result, s') := add fact s in
  match ar_disposition result with
  | AddDisposition_RejectedInvalid => s' = s /\ accept fact = Err (ar_error result)
  | AddDisposition_DuplicateObservation =>
      s' = s /\ exists f, accept fact = Ok f /\ f ∈ flattened_facts s
  | AddDisposition_AddedObservation =>
      record_count s' = record_count s /\
      exists f, accept fact = Ok f /\ f ∉ flattened_facts s /\ is_Some (find (af_payload f) s)
  | AddDisposition_InsertedRecord =>
      record_count s' = record_count s + 1 /\
      exists f, accept fact = Ok f /\ f ∉ flattened_facts s /\ find (af_payload f) s = None
  end.
Proof.
  intros [Hok _] Ht. destruct (accept fact) as [f|m] eqn:Ea; [|by rewrite (add_rejected _ _ _ Ea)].
  destruct (accept_ok _ _ Ht Ea) as (_ & _ & _ & key & Hk & Hkn).
  assert (forall r, map_find bytes_lt key (records_ s) = Some r ->
            f ∈ flattened_facts s -> af_evidence f ∈ er_observations r) as Hmem.
  { intros r Hf (key' & r' & Hk' & Hf' & _ & He)%flattened_find; [|done]. congruence. }
  destruct (add_accepted s fact f key Hok Ht Ea Hk)
    as [(Hf & Hr & ->)|(r & Hf & Hp & [(He & ->)|(low & high & He & Hobs & Hr & ->)])];
    cbn [ar_disposition].
  - split.
    + unfold record_count. cbn [records_]. rewrite (map_set_length bytes_lt) by apply Hok.
      rewrite Hf. lia.
    + exists f. split_and!; [done| |unfold find; by rewrite Hk].
      intros (key' & r & Hk' & Hf' & _)%flattened_find; [congruence|done].
  - split; [done|]. exists f. split; [done|]. apply flattened_find; [done|]. by exists key, r.
  - split.
    + unfold record_count. cbn [records_]. rewrite (map_set_length bytes_lt) by apply Hok.
      rewrite Hf. lia.
    + exists f. split_and!; [done|by intros ?%(Hmem r)|]. unfold find. rewrite Hk, Hf. by eexists.
Qed.

(** ** Producer snapshots *)

Definition snapshot_of (e : Evidence) : option SnapshotKey :=
  match sc_function_start (ev_scope e) with
  | Some start => Some (ev_producer e, start)
  | None => None
  end.

#[export] Instance snapshot_lt_total : StrictTotal snapshot_lt.
Proof. unfold snapshot_lt. apply _. Qed.

(** [g] is the greatest generation that the evidence gives the snapshot [k]. *)
Definition greatest (l : list Evidence) (k : SnapshotKey) (g : Z) : Prop :=
  (exists e, e ∈ l /\ snapshot_of e = Some k /\ sc_generation (ev_scope e) = g) /\
  (forall e, e ∈ l -> snapshot_of e = Some k -> sc_generation (ev_scope e) <= g).

Definition generations_ok (l : list Evidence) (latest : omap SnapshotKey Z) : Prop :=
  map_ok snapshot_lt latest /\
  forall k, match map_find snapshot_lt k latest with
            | Some g => greatest l k g
            | None => forall e, e ∈ l -> snapshot_of e <> Some k
            end.

Lemma note_generation_ok l latest e :
  generations_ok l latest -> generations_ok (l ++ [e]) (note_generation latest e).
Proof.
  intros [Hok Hl]. unfold note_generation.
  assert (snapshot_of e = None -> sc_function_start (ev_scope e) = None) as Hnone
    by (unfold snapshot_of; by destruct (sc_function_start (ev_scope e))).
  destruct (sc_function_start (ev_scope e)) as [start|] eqn:Es.
  - assert (snapshot_of e = Some (ev_producer e, start)) as Hs by (unfold snapshot_of; by rewrite Es).
    cbn zeta. set (key := (ev_producer e, start)) in *. set (g := sc_generation (ev_scope e)).
    assert (exists v, match map_find snapshot_lt key latest with
              | None => map_emplace snapshot_lt key g latest
              | Some known => map_set snapshot_lt key (Z.max known g) latest end =
              map_set snapshot_lt key v latest /\ greatest (l ++ [e]) key v) as (v & -> & Hv).
    { specialize (Hl key). unfold map_emplace.
      destruct (map_find snapshot_lt key latest) as [known|] eqn:Ef; eexists; (split; [done|]).
      - destruct Hl as [(e' & He' & Hs' & Hg') Hmax]. split.
        + destruct (Z.max_spec known g) as [[? ->]|[? ->]]; [exists e|exists e']; set_solver.
        + intros e2 [He2| ->%list_elem_of_singleton]%elem_of_app Hs2; [|lia].
          specialize (Hmax _ He2 Hs2). lia.
      - split; [exists e; set_solver|].
        intros e2 [He2| ->%list_elem_of_singleton]%elem_of_app Hs2; [by destruct (Hl _ He2)|lia]. }
    split; [by apply (map_ok_set snapshot_lt)|]. intros k.
    rewrite (map_find_set snapshot_lt) by done. destruct (equiv_by snapshot_lt key k) eqn:Ek.
    { apply equiv_by_eq in Ek as <-; [done|apply _]. }
    assert (k <> key) as Hne.
    { intros ->. by rewrite (proj2 (equiv_by_eq snapshot_lt key key) eq_refl) in Ek. }
    specialize (Hl k). destruct (map_find snapshot_lt k latest).
    + destruct Hl as [(e' & He' & Hs' & Hg') Hmax]. split; [exists e'; set_solver|].
      intros e2 [He2| ->%list_elem_of_singleton]%elem_of_app Hs2; [by apply Hmax|congruence].
    + intros e2 [He2| ->%list_elem_of_singleton]%elem_of_app; [by apply Hl|congruence].
  - assert (snapshot_of e = None) as Hs by (unfold snapshot_of; by rewrite Es).
    split; [done|]. intros k. specialize (Hl k). destruct (map_find snapshot_lt k latest).
    + destruct Hl as [(e' & He' & Hs' & Hg') Hmax]. split; [exists e'; set_solver|].
      intros e2 [He2| ->%list_elem_of_singleton]%elem_of_app Hs2; [by apply Hmax|congruence].
    + intros e2 [He2| ->%list_elem_of_singleton]%elem_of_app; [by apply Hl|congruence].
Qed.

Definition all_evidence (m : record_map) : list Evidence :=
  concat (map (fun entry => er_observations entry.2) m).

Lemma foldl_note_ok obs l latest :
  generations_ok l latest -> generations_ok (l ++ obs) (foldl note_generation latest obs).
Proof.
  revert l latest. induction obs as [|e obs IH]; intros l latest H; [by rewrite app_nil_r|].
  cbn [foldl]. change (e :: obs) with ([e] ++ obs). rewrite app_assoc. by apply IH, note_generation_ok.
Qed.

Lemma latest_generations_ok s : generations_ok (all_evidence (records_ s)) (latest_generations s).
Proof.
  unfold latest_generations, all_evidence.
  assert (forall m l latest, generations_ok l latest ->
    generations_ok (l ++ concat (map (fun entry : bytes * EvidenceRecord => er_observations entry.2) m))
      (foldl (fun latest entry => foldl note_generation latest (er_observations entry.2)) latest m))
    as H.
  { induction m as [|[key r] m IH]; intros l latest H; cbn [map concat foldl];
      [by rewrite app_nil_r|]. rewrite app_assoc. by apply IH, foldl_note_ok. }
  apply (H _ []). split; [constructor|]. intros k. cbn. intros e He. by apply elem_of_nil in He.
Qed.

Lemma elem_of_all_evidence s e :
  e ∈ all_evidence (records_ s) <-> exists p, {| af_payload := p; af_evidence := e |} ∈ flattened_facts s.
Proof.
  setoid_rewrite elem_of_flattened. cbn [af_payload af_evidence]. unfold all_evidence.
  rewrite list_elem_of_In, in_concat. split.
  - intros (l & Hl & He). apply list_elem_of_In, list_elem_of_fmap in Hl as ([key r] & -> & Hr).
    exists (er_payload r), key, r. apply list_elem_of_In in He. done.
  - intros (p & key & r & Hin & _ & He). exists (er_observations r). rewrite <- !list_elem_of_In.
    split; [|done]. apply list_elem_of_fmap. by exists (key, r).
Qed.

(** An observation is current when no held observation of the same producer and
    function has a later generation. *)
Definition current (s : EvidenceStore) (e : Evidence) : Prop :=
  forall f, f ∈ flattened_facts s -> snapshot_of e <> None ->
    snapshot_of (af_evidence f) = snapshot_of e ->
    sc_generation (ev_scope (af_evidence f)) <= sc_generation (ev_scope e).

Lemma retained_current s f :
  f ∈ flattened_facts s ->
  retained (latest_generations s) (af_evidence f) = true <-> current s (af_evidence f).
Proof.
  intros Hf. destruct (latest_generations_ok s) as [_ Hl].
  assert (af_evidence f ∈ all_evidence (records_ s)) as He.
  { apply elem_of_all_evidence. exists (af_payload f). by destruct f. }
  unfold retained, current.
  destruct (sc_function_start (ev_scope (af_evidence f))) as [start|] eqn:Es.
  - assert (snapshot_of (af_evidence f) = Some (ev_producer (af_evidence f), start)) as Hs
      by (unfold snapshot_of; by rewrite Es).
    specialize (Hl (ev_producer (af_evidence f), start)).
    destruct (map_find _ _ _) as [g|]; [|by destruct (Hl _ He)].
    destruct Hl as [(e' & He' & Hs' & Hg') Hmax]. rewrite Z.eqb_eq, Hs. split.
    + intros Hg x Hx _ Hsx. rewrite Hg. apply Hmax; [|done]. apply elem_of_all_evidence.
      exists (af_payload x). by destruct x.
    + intros Hcur. apply elem_of_all_evidence in He' as [p Hp].
      specialize (Hcur _ Hp ltac:(done) Hs'). specialize (Hmax _ He Hs).
      cbn [af_evidence] in Hcur. lia.
  - split; [|done]. intros _ x _ Hne. exfalso. apply Hne. unfold snapshot_of. by rewrite Es.
Qed.

Lemma view_records s :
  records_ok (records_ s) ->
  records_ (latest_generation_view s) =
    concat (map (active_entry (latest_generations s)) (records_ s)).
Proof.
  intros [Hok _]. unfold latest_generation_view. cbn [records_].
  rewrite <- (foldl_concat_map (fun m e => map_emplace bytes_lt e.1 e.2 m)).
  apply (foldl_emplace bytes_lt []). cbn [app]. apply (map_ok_concat bytes_lt); [done|..].
  - intros e k v. unfold active_entry. cbn zeta. destruct (List.filter _ _); set_solver.
  - intros e. unfold active_entry. cbn zeta. destruct (List.filter _ _); repeat constructor.
Qed.

Lemma StrictSorted_filter {A K} (lt : K -> K -> bool) (key : A -> K) (p : A -> bool) l :
  StrictSorted lt (map key l) -> StrictSorted lt (map key (List.filter p l)).
Proof.
  unfold StrictSorted. induction l as [|x l IH]; cbn [map List.filter]; [done|].
  intros [Hs Hf]%StronglySorted_inv. destruct (p x); [|by apply IH].
  cbn [map]. constructor; [by apply IH|]. rewrite Forall_forall in Hf |- *.
  intros k (y & -> & Hy)%list_elem_of_fmap. apply Hf, list_elem_of_fmap. exists y.
  split; [done|]. by apply elem_of_filter in Hy as [_ ?].
Qed.

Lemma elem_of_view s key r :
  records_ok (records_ s) ->
  (key, r) ∈ records_ (latest_generation_view s) <->
  exists r0, (key, r0) ∈ records_ s /\ er_observations r <> [] /\
    er_payload r = er_payload r0 /\
    er_observations r = List.filter (retained (latest_generations s)) (er_observations r0).
Proof.
  intros Hok. rewrite view_records by done. rewrite elem_of_concat_map. unfold active_entry. split.
  - intros ([key0 r0] & Hin & He). cbn [fst snd] in He. exists r0.
    destruct (List.filter _ _) as [|e l] eqn:Ef; [by apply elem_of_nil in He|].
    apply list_elem_of_singleton in He. injection He as -> ->. done.
  - intros (r0 & Hin & Hne & Hp & Hobs). exists (key, r0). split; [done|]. cbn [fst snd].
    rewrite <- Hobs. destruct r as [p [|e l]]; [done|]. cbn [er_payload er_observations] in *.
    subst p. apply list_elem_of_singleton. done.
Qed.

Lemma view_records_ok s : records_ok (records_ s) -> records_ok (records_ (latest_generation_view s)).
Proof.
  intros Hok. split.
  - rewrite view_records by done. apply (map_ok_concat bytes_lt); [apply Hok|..].
    + intros e k v. unfold active_entry. cbn zeta. destruct (List.filter _ _); set_solver.
    + intros e. unfold active_entry. cbn zeta. destruct (List.filter _ _); repeat constructor.
  - intros key r (r0 & Hin & Hne & Hp & Hobs)%elem_of_view; [|done].
    destruct (proj2 Hok _ _ Hin) as (Hk & Ht & Hv & _ & Hall & Hsort).
    unfold record_ok. rewrite Hp. split_and!; [done..| |].
    + rewrite Hobs. rewrite Forall_forall in Hall |- *. intros e [_ He]%elem_of_filter. by apply Hall.
    + rewrite Hobs. by apply StrictSorted_filter.
Qed.

Lemma view_wf s : store_wf s -> store_wf (latest_generation_view s).
Proof. intros [Hok _]. split; [by apply view_records_ok|done]. Qed.

Lemma view_facts s f :
  records_ok (records_ s) ->
  f ∈ flattened_facts (latest_generation_view s) <->
  f ∈ flattened_facts s /\ current s (af_evidence f).
Proof.
  intros Hok. rewrite elem_of_flattened. split.
  - intros (key & r & Hin & Hp & He). apply elem_of_view in Hin as (r0 & Hin & _ & Hp' & Hobs); [|done].
    rewrite Hobs in He. apply elem_of_filter in He as [Hret He].
    assert (f ∈ flattened_facts s) as Hf by (apply elem_of_flattened; exists key, r0; by rewrite <- Hp').
    split; [done|]. by apply retained_current.
  - intros [Hf Hcur]. apply (retained_current _ _ Hf) in Hcur.
    apply elem_of_flattened in Hf as (key & r0 & Hin & Hp & He).
    assert (af_evidence f ∈ List.filter (retained (latest_generations s)) (er_observations r0)) as Hr
      by by apply elem_of_filter.
    exists key, {| er_payload := er_payload r0;
                   er_observations := List.filter (retained (latest_generations s)) (er_observations r0) |}.
    split_and!; [|done|done]. apply elem_of_view; [done|]. exists r0. split_and!; [done| |done|done].
    intros E. cbn [er_observations] in E. rewrite E in Hr. by apply elem_of_nil in Hr.
Qed.

(** ** Support summaries *)

(** The values that some observations carry. *)
Definition present {A} (f : Evidence -> option A) (l : list Evidence) : list A :=
  concat (map (fun e => option_list (f e)) l).

(** Number of distinct elements, by comparison of all pairs. *)
Definition distinct {A} `{EqDecision A} (l : list A) : Z := zlen (remove_dups l).

Lemma distinct_set {A} `{EqDecision A} (lt : A -> A -> bool) `{!StrictTotal lt} s l :
  StrictSorted lt s -> (forall x, x ∈ s <-> x ∈ l) -> zlen s = distinct l.
Proof.
  intros Hs Heq. unfold distinct, zlen. f_equal. apply Permutation_length.
  apply NoDup_Permutation; [by eapply StrictSorted_NoDup|apply NoDup_remove_dups|].
  intros x. by rewrite elem_of_remove_dups.
Qed.

Lemma elem_of_insert_present {A} (lt : A -> A -> bool) `{!StrictTotal lt} o s x :
  x ∈ insert_present lt o s <-> x ∈ option_list o \/ x ∈ s.
Proof.
  destruct o; cbn [insert_present option_list].
  - rewrite elem_of_set_insert by done. set_solver.
  - set_solver.
Qed.

Lemma insert_present_sorted {A} (lt : A -> A -> bool) `{!StrictTotal lt} o s :
  StrictSorted lt s -> StrictSorted lt (insert_present lt o s).
Proof. destruct o; [by apply set_insert_sorted|done]. Qed.

(** A set field of the scan holds what the scanned observations carry. *)
Lemma scan_set {A} (lt : A -> A -> bool) `{!StrictTotal lt} (f : Evidence -> option A)
    (field : SupportScan -> list A) obs scan :
  (forall sc e, field (scan_evidence sc e) = insert_present lt (f e) (field sc)) ->
  StrictSorted lt (field scan) ->
  StrictSorted lt (field (foldl scan_evidence scan obs)) /\
  forall x, x ∈ field (foldl scan_evidence scan obs) <-> x ∈ field scan \/ x ∈ present f obs.
Proof.
  intros Hf. revert scan. induction obs as [|e obs IH]; intros scan Hs.
  - split; [done|]. intros x. cbn. set_solver.
  - cbn [foldl]. destruct (IH (scan_evidence scan e)) as [Hso Hin].
    + rewrite Hf. by apply insert_present_sorted.
    + split; [done|]. intros x. rewrite Hin, Hf, elem_of_insert_present by done.
      unfold present. cbn [map concat]. rewrite elem_of_app. tauto.
Qed.

Lemma scan_distinct {A} `{EqDecision A} (lt : A -> A -> bool) `{!StrictTotal lt}
    (f : Evidence -> option A) (field : SupportScan -> list A) obs :
  (forall sc e, field (scan_evidence sc e) = insert_present lt (f e) (field sc)) ->
  field initial_scan = [] ->
  zlen (field (foldl scan_evidence initial_scan obs)) = distinct (present f obs).
Proof.
  intros Hf H0. destruct (scan_set lt f field obs initial_scan Hf) as [Hs Hin].
  - rewrite H0. constructor.
  - apply (distinct_set lt); [done|]. intros x. rewrite Hin, H0. set_solver.
Qed.

Lemma scan_extrema obs scan :
  let final := foldl scan_evidence scan obs in
  scan_minimum_confidence final =
    foldr Z.min (scan_minimum_confidence scan) (map ev_confidence obs) /\
  scan_maximum_confidence final =
    foldr Z.max (scan_maximum_confidence scan) (map ev_confidence obs) /\
  scan_minimum_generation final =
    foldr Z.min (scan_minimum_generation scan) (map (fun e => sc_generation (ev_scope e)) obs) /\
  scan_maximum_generation final =
    foldr Z.max (scan_maximum_generation scan) (map (fun e => sc_generation (ev_scope e)) obs).
Proof.
  assert (forall l a x, Z.min x (foldr Z.min a l) = foldr Z.min (Z.min a x) l) as Hmin.
  { induction l as [|y l IH]; intros a x; cbn [foldr]; [lia|]. rewrite <- IH. lia. }
  assert (forall l a x, Z.max x (foldr Z.max a l) = foldr Z.max (Z.max a x) l) as Hmax.
  { induction l as [|y l IH]; intros a x; cbn [foldr]; [lia|]. rewrite <- IH. lia. }
  cbn zeta. revert scan. induction obs as [|e obs IH]; intros scan; [done|].
  cbn [foldl map foldr]. destruct (IH (scan_evidence scan e)) as (-> & -> & -> & ->).
  cbn. by rewrite !Hmin, !Hmax.
Qed.

(** The least element of a non-empty list, none of which exceeds the start. *)
Lemma foldr_min_least a l :
  l <> [] -> (forall x, x ∈ l -> x <= a) ->
  foldr Z.min a l ∈ l /\ forall x, x ∈ l -> foldr Z.min a l <= x.
Proof.
  induction l as [|y l IH]; [done|]. intros _ Ha. cbn [foldr]. destruct l as [|z l].
  - cbn. pose proof (Ha y ltac:(set_solver)). rewrite Z.min_l by done.
    split; [set_solver|]. intros x ->%list_elem_of_singleton. lia.
  - destruct IH as [Hin Hle]; [done|intros; apply Ha; set_solver|].
    split; [|intros x [->|Hx]%elem_of_cons; [lia|specialize (Hle _ Hx); lia]].
    destruct (Z.min_spec y (foldr Z.min a (z :: l))) as [[_ ->]|[_ ->]]; set_solver.
Qed.

Lemma foldr_max_greatest a l :
  l <> [] -> (forall x, x ∈ l -> a <= x) ->
  foldr Z.max a l ∈ l /\ forall x, x ∈ l -> x <= foldr Z.max a l.
Proof.
  induction l as [|y l IH]; [done|]. intros _ Ha. cbn [foldr]. destruct l as [|z l].
  - cbn. pose proof (Ha y ltac:(set_solver)). rewrite Z.max_l by done.
    split; [set_solver|]. intros x ->%list_elem_of_singleton. lia.
  - destruct IH as [Hin Hle]; [done|intros; apply Ha; set_solver|].
    split; [|intros x [->|Hx]%elem_of_cons; [lia|specialize (Hle _ Hx); lia]].
    destruct (Z.max_spec y (foldr Z.max a (z :: l))) as [[_ ->]|[_ ->]]; set_solver.
Qed.

Lemma corroborating_sets minimum obs runs producers :
  StrictSorted Z.ltb runs -> StrictSorted string_lt producers ->
  let '(runs', producers') := foldl (corroborating minimum) (runs, producers) obs in
  let strong := List.filter (fun e => minimum <=? ev_confidence e) obs in
  StrictSorted Z.ltb runs' /\ StrictSorted string_lt producers' /\
  (forall x, x ∈ runs' <-> x ∈ runs \/ x ∈ present (fun e => sc_run_id (ev_scope e)) strong) /\
  (forall x, x ∈ producers' <-> x ∈ producers \/ x ∈ map ev_producer strong).
Proof.
  revert runs producers. induction obs as [|e obs IH]; intros runs producers Hr Hp.
  - cbn. split_and!; [done..|set_solver|set_solver].
  - cbn [foldl List.filter]. unfold corroborating at 2. cbn [fst snd].
    destruct (Z.ltb_spec (ev_confidence e) minimum), (Z.leb_spec minimum (ev_confidence e)); try lia.
    + by apply IH.
    + specialize (IH (insert_present Z.ltb (sc_run_id (ev_scope e)) runs)
                     (set_insert string_lt (ev_producer e) producers)).
      destruct (foldl _ _ obs) as [runs' producers'].
      destruct IH as (? & ? & Hin1 & Hin2);
        [by apply (insert_present_sorted Z.ltb)|by apply (set_insert_sorted string_lt)|].
      split_and!; [done..| |].
      * intros x. rewrite Hin1, elem_of_insert_present by apply _.
        unfold present. cbn [map concat]. rewrite elem_of_app. tauto.
      * intros x. rewrite Hin2, elem_of_set_insert by apply _. cbn [map]. set_solver.
Qed.

Lemma find_some_iff s p key :
  records_ok (records_ s) -> payload_typed p -> validate_payload p = Ok tt ->
  encode_normalized_payload p = Ok key ->
  is_Some (find p s) <-> exists x, x ∈ flattened_facts s /\ af_payload x = p.
Proof.
  intros Hok Ht Hv Hk. unfold find. rewrite (encode_payload_valid _ Hv), Hk. split.
  - intros [r Hf]. destruct (records_ok_find _ _ _ Hok Hf) as [(Hkr & Htr & Hvr & Hne & _) Hin].
    destruct (er_observations r) as [|e obs] eqn:Eo; [done|].
    exists {| af_payload := er_payload r; af_evidence := e |}. split.
    + apply elem_of_flattened. exists key, r. rewrite Eo. set_solver.
    + by eapply encode_normalized_payload_inj.
  - intros (x & (key' & r & Hk' & Hf & _)%flattened_find & <-); [|done].
    assert (key' = key) as -> by congruence. by eexists.
Qed.

Lemma current_fields s e :
  current s e <->
  (sc_function_start (ev_scope e) <> None ->
   forall g, g ∈ flattened_facts s ->
     ev_producer (af_evidence g) = ev_producer e ->
     sc_function_start (ev_scope (af_evidence g)) = sc_function_start (ev_scope e) ->
     sc_generation (ev_scope (af_evidence g)) <= sc_generation (ev_scope e)).
Proof.
  unfold current, snapshot_of. destruct (sc_function_start (ev_scope e)) as [start|]; [|naive_solver].
  split.
  - intros H _ g Hg Hp Hs. apply H; [done..|]. by rewrite Hs, Hp.
  - intros H g Hg _ Hs. destruct (sc_function_start (ev_scope (af_evidence g))) eqn:E; [|done].
    injection Hs as Hp ->. by apply H.
Qed.

(** [low] and [high] are the least and the greatest element of the list. *)
Definition attained_bounds (l : list Z) (low high : Z) : Prop :=
  low ∈ l /\ high ∈ l /\ forall x, x ∈ l -> low <= x <= high.

Lemma attained_fold l a b :
  l <> [] -> (forall x, x ∈ l -> b <= x <= a) ->
  attained_bounds l (foldr Z.min a l) (foldr Z.max b l).
Proof.
  intros Hne Hb. destruct (foldr_min_least a l) as [? Hmin]; [done|by apply Hb|].
  destruct (foldr_max_greatest b l) as [? Hmax]; [done|by apply Hb|].
  split_and!; [done..|]. by split; [apply Hmin|apply Hmax].
Qed.

Lemma zlen_eqb_ne {A} (l : list A) : l <> [] -> zlen l =? 0 = false.
Proof. destruct l; [done|]. rewrite zlen_cons. pose proof (zlen_nonneg l). lia. Qed.

Lemma present_some {A} (f : Evidence -> A) l : present (fun e => Some (f e)) l = map f l.
Proof.
  unfold present. induction l as [|e l IH]; [done|]. cbn [map concat option_list app]. by rewrite IH.
Qed.

Lemma confidences_bounded l :
  Forall (fun e => evidence_typed e /\ validate_evidence e = Ok tt) l ->
  forall x, x ∈ map ev_confidence l -> 0 <= x <= kMaxConfidence.
Proof.
  intros Hl x (e & -> & He)%list_elem_of_fmap. rewrite Forall_forall in Hl.
  destruct (Hl _ He) as [(Hc & _) Hv]. unfold is_u16 in Hc.
  unfold validate_evidence in Hv. cbn zeta in Hv. inv_ok Hv. lia.
Qed.

Lemma generations_bounded l :
  Forall (fun e => evidence_typed e /\ validate_evidence e = Ok tt) l ->
  forall x, x ∈ map (fun e => sc_generation (ev_scope e)) l -> 0 <= x <= u64_max.
Proof.
  intros Hl x (e & -> & He)%list_elem_of_fmap. rewrite Forall_forall in Hl.
  destruct (Hl _ He) as [(_ & Hs & _) _]. destruct Hs as (? & ? & ? & ? & Hg).
  unfold is_u64, u64_max in *. lia.
Qed.

(** ** Properties *)

(** C2: insertion refines adding to a set of facts.  From a well-formed store,
    [add] gives a well-formed store.  A fact that normalization or the encoder
    rejects leaves the store unchanged and is reported with their message.  Any
    other fact adds exactly its normal form to the facts held, and the reported
    disposition says whether that was known, new for a known payload, or the
    first of its payload. *)
Theorem add_refines_set s fact :
  store_wf s -> fact_typed fact ->
  let '(result, s') := add fact s in
  store_wf s' /\
  match accept fact with
  | Err m => s' = s /\ ar_disposition result = AddDisposition_RejectedInvalid /\ ar_error result = m
  | Ok f =>
      (forall x, x ∈ flattened_facts s' <-> x = f \/ x ∈ flattened_facts s) /\
      payload_digest (af_payload f) = Ok (ar_payload_digest result) /\
      (ar_disposition result = AddDisposition_DuplicateObservation <-> f ∈ flattened_facts s) /\
      (ar_disposition result = AddDisposition_InsertedRecord <->
         forall x, x ∈ flattened_facts s -> af_payload x <> af_payload f) /\
      (ar_disposition result = AddDisposition_AddedObservation <->
         f ∉ flattened_facts s /\ exists x, x ∈ flattened_facts s /\ af_payload x = af_payload f)
  end.
Proof.
  intros Hs Ht. pose proof (add_wf _ _ Hs Ht) as Hwf. pose proof (add_disposition _ _ Hs Ht) as Hd.
  pose proof (add_facts_iff s fact) as Hfacts.
  destruct (accept fact) as [f|m] eqn:Ea.
  2: { by rewrite (add_rejected _ _ _ Ea) in *. }
  destruct (accept_ok _ _ Ht Ea) as (_ & Hft & Hfv & key & Hk & Hkn).
  assert (is_Some (find (af_payload f) s) <->
          exists x, x ∈ flattened_facts s /\ af_payload x = af_payload f) as Hfind.
  { apply find_some_iff with (key := key); [apply Hs|apply Hft| |done].
    by apply validate_fact_parts in Hfv as [? _]. }
  assert (ar_payload_digest (add fact s).1 = digest_bytes key) as Hdig.
  { destruct (add_accepted s fact f key (proj1 Hs) Ht Ea Hk)
      as [(_ & _ & ->)|(r & _ & _ & [(_ & ->)|(low & high & _ & _ & _ & ->)])]; done. }
  destruct (add fact s) as [result s']. cbn [fst snd] in *. split; [done|].
  split; [|split; [unfold payload_digest; by rewrite Hk, Hdig|]].
  { intros x. rewrite Hfacts by (done || apply Hs). naive_solver. }
  destruct (ar_disposition result) eqn:Edisp.
  - destruct Hd as (_ & f' & [= <-] & Hnew & Hnone).
    assert (~ exists x, x ∈ flattened_facts s /\ af_payload x = af_payload f) as Hno
      by (rewrite <- Hfind, Hnone; by intros [? ?]).
    split_and!; split; try done; naive_solver.
  - destruct Hd as (_ & f' & [= <-] & Hnew & Hsome). apply Hfind in Hsome.
    split_and!; split; try done. intros Hno. destruct Hsome as (x & Hx & Hp). by destruct (Hno x Hx).
  - destruct Hd as (_ & f' & [= <-] & Hold).
    split_and!; split; try done; [|naive_solver]. intros Hno. by destruct (Hno f Hold).
  - destruct Hd as (_ & Hd). done.
Qed.

Lemma add_refines_set_witness :
  store_wf empty_store /\ fact_typed sample_fact /\
  let '(result, s') := add sample_fact empty_store in store_wf s'.
Proof.
  pose proof (add_refines_set empty_store sample_fact empty_store_wf sample_fact_typed) as H.
  split; [exact empty_store_wf|]. split; [exact sample_fact_typed|].
  destruct (add sample_fact empty_store) as [result s']. exact (proj1 H).
Defined.

(** The store does not depend on the order or repetition of insertions.  Two
    sequences of additions to stores with the same records that offer the same
    acceptable facts end with the same records, hence the same record list,
    fact list, lookups and snapshot views. *)
Theorem store_order_independent s t l1 l2 :
  store_wf s -> store_wf t -> Forall fact_typed l1 -> Forall fact_typed l2 ->
  records_ s = records_ t ->
  (forall x, (exists f, f ∈ l1 /\ accept f = Ok x) <-> (exists f, f ∈ l2 /\ accept f = Ok x)) ->
  let add_all l s := foldl (fun s f => (add f s).2) s l in
  records_ (add_all l1 s) = records_ (add_all l2 t).
Proof. intros Hs Ht H1 H2 Hst Hacc. exact (ledger_order_independent l1 l2 s t Hs Ht H1 H2 Hst Hacc). Qed.

Lemma store_order_independent_witness :
  let g := {| af_payload := sample_dispatch_normal; af_evidence := sample_evidence |} in
  let add_all l s := foldl (fun s f => (add f s).2) s l in
  records_ (add_all [sample_fact; g] empty_store) = records_ (add_all [g] empty_store).
Proof.
  cbv zeta. apply (store_order_independent empty_store empty_store).
  - exact empty_store_wf.
  - exact empty_store_wf.
  - repeat constructor; simpl; unfold is_u16, is_u64; try lia; repeat constructor; simpl; unfold is_u64; lia.
  - repeat constructor; simpl; unfold is_u16, is_u64; try lia; repeat constructor; simpl; unfold is_u64; lia.
  - reflexivity.
  - intros x. assert (accept sample_fact = accept {| af_payload := sample_dispatch_normal;
                                           af_evidence := sample_evidence |}) as Heq
      by (vm_compute; reflexivity).
    split; intros (f & Hf & Hx).
    + eexists. split; [by apply list_elem_of_singleton|].
      apply elem_of_cons in Hf as [->|Hf]; [congruence|].
      apply list_elem_of_singleton in Hf as ->. done.
    + apply list_elem_of_singleton in Hf as ->. eexists. split; [|exact Hx].
      apply elem_of_cons. right. by apply list_elem_of_singleton.
Defined.

(** The snapshot view keeps exactly the current observations.  From a
    well-formed store the view is a well-formed store, without an index, that
    holds a fact if and only if the source holds it and no fact of the same
    producer and function start in the source has a later generation; evidence
    without a function start is always kept.  Viewing twice changes nothing. *)
Theorem latest_generation_view_exact s :
  store_wf s ->
  let view := latest_generation_view s in
  store_wf view /\ contradiction_index_ view = None /\
  (forall f, f ∈ flattened_facts view <->
     f ∈ flattened_facts s /\
     (sc_function_start (ev_scope (af_evidence f)) <> None ->
      forall g, g ∈ flattened_facts s ->
        ev_producer (af_evidence g) = ev_producer (af_evidence f) ->
        sc_function_start (ev_scope (af_evidence g)) =
          sc_function_start (ev_scope (af_evidence f)) ->
        sc_generation (ev_scope (af_evidence g)) <= sc_generation (ev_scope (af_evidence f)))) /\
  latest_generation_view view = view.
Proof.
  intros Hs. cbn zeta. pose proof (view_wf _ Hs) as Hv.
  split_and!; [done|done| |].
  - intros f. rewrite view_facts by apply Hs. rewrite current_fields. done.
  - assert (records_ (latest_generation_view (latest_generation_view s)) =
            records_ (latest_generation_view s)) as Hr.
    { apply records_ext; [apply view_wf, view_wf, Hs|apply Hv|].
      intros f. rewrite view_facts by apply Hv. split; [by intros [? _]|]. intros Hf.
      split; [done|]. apply view_facts in Hf as [_ Hc]; [|apply Hs].
      intros g Hg. apply Hc. by apply view_facts in Hg as [? _]; [|apply Hs]. }
    by apply store_eq.
Qed.

Lemma latest_generation_view_exact_witness :
  store_wf empty_store /\ latest_generation_view (latest_generation_view (add sample_fact empty_store).2) =
                          latest_generation_view (add sample_fact empty_store).2.
Proof.
  split; [exact empty_store_wf|].
  apply (latest_generation_view_exact (add sample_fact empty_store).2).
  apply add_wf; [exact empty_store_wf|exact sample_fact_typed].
Defined.

(** A support summary counts what it names.  For a non-empty record with valid
    observations the counts are the numbers of distinct run ids, seeds, pairs of
    both, producers, methods and generations among the observations, and the
    extrema are attained bounds of the confidences and generations. *)
Theorem support_summary_exact r :
  er_observations r <> [] ->
  Forall (fun e => evidence_typed e /\ validate_evidence e = Ok tt) (er_observations r) ->
  let obs := er_observations r in
  let s := summarize_support r in
  ss_observation_count s = zlen obs /\
  ss_distinct_run_count s = distinct (present (fun e => sc_run_id (ev_scope e)) obs) /\
  ss_distinct_seed_count s = distinct (present (fun e => sc_seed (ev_scope e)) obs) /\
  ss_distinct_run_seed_count s = distinct (present (fun e => scope_run_seed (ev_scope e)) obs) /\
  ss_distinct_producer_count s = distinct (map ev_producer obs) /\
  ss_distinct_method_count s = distinct (map ev_method obs) /\
  ss_distinct_generation_count s = distinct (map (fun e => sc_generation (ev_scope e)) obs) /\
  attained_bounds (map ev_confidence obs) (ss_minimum_confidence s) (ss_maximum_confidence s) /\
  attained_bounds (map (fun e => sc_generation (ev_scope e)) obs)
    (ss_minimum_generation s) (ss_maximum_generation s).
Proof.
  intros Hne Hall. cbn zeta. unfold summarize_support. rewrite zlen_eqb_ne by done.
  destruct (scan_extrema (er_observations r) initial_scan) as (Hc1 & Hc2 & Hg1 & Hg2).
  cbn zeta in *. cbn [ss_observation_count ss_distinct_run_count ss_distinct_seed_count
    ss_distinct_run_seed_count ss_distinct_producer_count ss_distinct_method_count
    ss_distinct_generation_count ss_minimum_confidence ss_maximum_confidence
    ss_minimum_generation ss_maximum_generation].
  rewrite Hc1, Hc2, Hg1, Hg2. cbn [initial_scan scan_minimum_confidence scan_maximum_confidence
    scan_minimum_generation scan_maximum_generation].
  split_and!; [done|..].
  - by apply (scan_distinct Z.ltb).
  - by apply (scan_distinct Z.ltb).
  - by apply (scan_distinct (pair_lt Z.ltb Z.ltb)).
  - rewrite <- present_some. by apply (scan_distinct string_lt (fun e => Some (ev_producer e)) scan_producers).
  - rewrite <- present_some. by apply (scan_distinct string_lt (fun e => Some (ev_method e)) scan_methods).
  - rewrite <- present_some. by apply (scan_distinct Z.ltb (fun e => Some (sc_generation (ev_scope e))) scan_generations).
  - apply attained_fold; [by destruct (er_observations r)|]. by apply confidences_bounded.
  - apply attained_fold; [by destruct (er_observations r)|].
    by apply generations_bounded.
Qed.

Definition sample_record : EvidenceRecord :=
  {| er_payload := sample_dispatch_normal;
     er_observations :=
       [ {| ev_producer := "rax"; ev_method := "emulate"; ev_proof := ProofKind_Observed;
            ev_confidence := 9000;
            ev_scope := {| sc_run_id := Some 7; sc_seed := Some 1; sc_function_start := None;
                           sc_function_end := None; sc_generation := 3 |};
            ev_support_addresses := [4096]; ev_detail := "" |};
         {| ev_producer := "static"; ev_method := "scan"; ev_proof := ProofKind_StaticProof;
            ev_confidence := 10000;
            ev_scope := {| sc_run_id := None; sc_seed := None; sc_function_start := None;
                           sc_function_end := None; sc_generation := 2 |};
            ev_support_addresses := []; ev_detail := "" |} ] |}.

Lemma support_summary_exact_witness :
  er_observations sample_record <> [] /\
  ss_distinct_run_count (summarize_support sample_record) =
    distinct (present (fun e => sc_run_id (ev_scope e)) (er_observations sample_record)).
Proof.
  split; [discriminate|]. apply (support_summary_exact sample_record).
  - discriminate.
  - repeat constructor; simpl; unfold is_u16, is_u64; try lia; repeat constructor; unfold is_u64; lia.
Defined.

(** Corroboration needs distinct runs and producers.  A record is corroborated
    exactly when the confidence threshold is a legal confidence and, among the
    observations that reach it, there are at least the required numbers of distinct
    explicit run ids and of distinct producers. *)
Theorem is_corroborated_exact r runs producers minimum :
  let strong := List.filter (fun e => minimum <=? ev_confidence e) (er_observations r) in
  is_corroborated r runs producers minimum = true <->
  minimum <= kMaxConfidence /\
  runs <= distinct (present (fun e => sc_run_id (ev_scope e)) strong) /\
  producers <= distinct (map ev_producer strong).
Proof.
  cbn zeta. unfold is_corroborated. destruct (Z.ltb_spec kMaxConfidence minimum).
  { split; [done|lia]. }
  pose proof (corroborating_sets minimum (er_observations r) [] []
    ltac:(constructor) ltac:(constructor)) as Hsets.
  destruct (foldl _ _ _) as [r' p']. destruct Hsets as (Hr & Hp & Hrin & Hpin).
  rewrite andb_true_iff, !Z.leb_le.
  rewrite (distinct_set Z.ltb r' (present (fun e => sc_run_id (ev_scope e))
    (List.filter (fun e => minimum <=? ev_confidence e) (er_observations r))) Hr)
    by (intros x; rewrite Hrin; set_solver).
  rewrite (distinct_set string_lt p' (map ev_producer
    (List.filter (fun e => minimum <=? ev_confidence e) (er_observations r))) Hp)
    by (intros x; rewrite Hpin; set_solver).
  tauto.
Qed.
