(* ===== verification/Conflicts.v ===== *)
(** Pairwise comparison of payloads ([src/src/evidence_store.cpp], the anonymous
    namespace from [hex_address] to [conflicts_equal], and [conflict_less]).

    [compare_payloads] reports each disagreement it finds with [add_conflict],
    always on the same pair of payloads and the same accumulator.  Here
    [payload_claims] is the list of the reports that it makes for two payloads, in
    its order, and [compare_payloads] hands them to [add_conflict] one by one. *)
From stdpp Require Import base numbers list strings option sets.
From Stdlib Require Import ZArith Init.Byte Sorting.Sorted Lia.
From S2P Require Import Prelude OrderedMap Ledger FactTypes Sha256 Validate FactCodec Store.

(** ** Data *)

Inductive ConflictSeverity :=
| ConflictSeverity_Variation | ConflictSeverity_Ambiguity | ConflictSeverity_Contradiction.

Inductive ConflictType :=
| ConflictType_ReachableAndUnreachable | ConflictType_DivergentMemoryValue
| ConflictType_DivergentStringCandidate | ConflictType_DivergentFunctionCandidate
| ConflictType_DivergentFunctionTrait | ConflictType_ReturnBehaviorContradiction
| ConflictType_IncompatibleCodeRegion | ConflictType_DivergentDispatchCase
| ConflictType_DivergentCfgReachability | ConflictType_DivergentFunctionOutcome
| ConflictType_ConflictingUniqueCodeTarget | ConflictType_DivergentRegisterValue
| ConflictType_DivergentCallObservation.

#[export] Instance ConflictSeverity_eq_dec : EqDecision ConflictSeverity.
Proof. solve_decision. Defined.
#[export] Instance ConflictType_eq_dec : EqDecision ConflictType.
Proof. solve_decision. Defined.

(** The underlying values, which order the enumerators. *)
Definition severity_value (s : ConflictSeverity) : Z :=
  match s with
  | ConflictSeverity_Variation => 1
  | ConflictSeverity_Ambiguity => 2
  | ConflictSeverity_Contradiction => 3
  end.

Definition conflict_type_value (t : ConflictType) : Z :=
  match t with
  | ConflictType_ReachableAndUnreachable => 1
  | ConflictType_DivergentMemoryValue => 2
  | ConflictType_DivergentStringCandidate => 3
  | ConflictType_DivergentFunctionCandidate => 4
  | ConflictType_DivergentFunctionTrait => 5
  | ConflictType_ReturnBehaviorContradiction => 6
  | ConflictType_IncompatibleCodeRegion => 7
  | ConflictType_DivergentDispatchCase => 8
  | ConflictType_DivergentCfgReachability => 9
  | ConflictType_DivergentFunctionOutcome => 10
  | ConflictType_ConflictingUniqueCodeTarget => 11
  | ConflictType_DivergentRegisterValue => 12
  | ConflictType_DivergentCallObservation => 13
  end.

Record EvidenceConflict := {
  ec_type : ConflictType;
  ec_severity : ConflictSeverity;
  ec_left : FactDigest;
  ec_right : FactDigest;
  ec_subject : Address;
  ec_secondary_subject : option Address;
  ec_explanation : string
}.

Definition conflict_less (lhs rhs : EvidenceConflict) : bool :=
  let key c :=
    (conflict_type_value (ec_type c), (severity_value (ec_severity c), (ec_subject c,
      (ec_secondary_subject c, (ec_left c, (ec_right c, ec_explanation c)))))) in
  pair_lt Z.ltb (pair_lt Z.ltb (pair_lt Z.ltb (pair_lt (option_lt Z.ltb)
    (pair_lt digest_lt (pair_lt digest_lt string_lt))))) (key lhs) (key rhs).

Definition conflicts_equal (lhs rhs : EvidenceConflict) : bool :=
  negb (conflict_less lhs rhs) && negb (conflict_less rhs lhs).

(** What one call of [add_conflict] is given besides the payloads. *)
Record Claim := {
  cl_type : ConflictType;
  cl_severity : ConflictSeverity;
  cl_subject : Address;
  cl_secondary : option Address;
  cl_explanation : string
}.

(** ** Helpers *)

(** [stream << std::hex << address]: no leading zeros; sixteen digits cover 64 bits. *)
Fixpoint hex_digits (fuel : nat) (address : Z) (acc : bytes) : bytes :=
  match fuel with
  | O => acc
  | S fuel =>
      let acc := hex_digit (address mod 16) :: acc in
      if address / 16 =? 0 then acc else hex_digits fuel (address / 16) acc
  end.

Definition hex_address (address : Address) : string :=
  String.append "0x" (bytes_str (hex_digits 16 address [])).

Definition opposite_reachability (lhs rhs : Reachability) : bool :=
  ((lhs == Reachability_Reached) && (rhs == Reachability_ProvenUnreachable)) ||
  ((rhs == Reachability_Reached) && (lhs == Reachability_ProvenUnreachable)).

Definition region_kinds_incompatible (lhs rhs : CodeRegionKind) : bool :=
  if (lhs == rhs) || (lhs == CodeRegionKind_Unknown) || (rhs == CodeRegionKind_Unknown) ||
     (lhs == CodeRegionKind_Mixed) || (rhs == CodeRegionKind_Mixed)
  then false
  else
    let left_code := lhs == CodeRegionKind_Code in
    let right_code := rhs == CodeRegionKind_Code in
    let left_noncode := (lhs == CodeRegionKind_Data) || (lhs == CodeRegionKind_Padding) in
    let right_noncode := (rhs == CodeRegionKind_Data) || (rhs == CodeRegionKind_Padding) in
    (left_code && right_noncode) || (right_code && left_noncode).

Definition dispatch_targets (fact : DispatchMapFact) : list Address :=
  insert_present Z.ltb (dm_default_target fact)
    (foldl (fun result c => set_insert Z.ltb (dc_target c) result) [] (dm_cases fact)).

(** The inner loop over the right cases: the first with the selector, if any. *)
Fixpoint find_selector (selector : option Z) (cases : list DispatchCase) : option DispatchCase :=
  match cases with
  | [] => None
  | c :: r => if dc_selector c == selector then Some c else find_selector selector r
  end.

(** A case of the left map whose selector the right map sends elsewhere. *)
Definition competing_case (right : DispatchMapFact) (left_case : DispatchCase) : bool :=
  match dc_selector left_case with
  | None => false
  | Some _ =>
      match find_selector (dc_selector left_case) (dm_cases right) with
      | Some right_case => negb (dc_target right_case =? dc_target left_case)
      | None => false
      end
  end.

Definition competing_defaults (left right : DispatchMapFact) : bool :=
  match dm_default_target left, dm_default_target right with
  | Some l, Some r => negb (l =? r)
  | _, _ => false
  end.

(** The elements of [targets] that [allowed] does not contain. *)
Definition absent_targets (allowed targets : list Address) : list Address :=
  List.filter (fun target => negb (set_count Z.ltb target allowed)) targets.

Definition dispatch_maps_contradict (left right : DispatchMapFact) : bool :=
  if negb (dm_site left =? dm_site right) then false
  else
    let complete := dm_complete left || dm_complete right in
    if existsb (fun c => competing_case right c && complete) (dm_cases left) then true
    else if competing_defaults left right && complete then true
    else
      let left_targets := dispatch_targets left in
      let right_targets := dispatch_targets right in
      if dm_complete left && negb (zlen (absent_targets left_targets right_targets) =? 0) then true
      else dm_complete right && negb (zlen (absent_targets right_targets left_targets) =? 0).

(** [std::lower_bound] by (ordinal, location), then the equality test. *)
Definition find_call_value (values : list CallValue) (ordinal : Z) (location : string) :
    option CallValue :=
  let before value :=
    pair_lt Z.ltb string_lt (cv_ordinal value, cv_location value) (ordinal, location) in
  match (lower_bound before values).2 with
  | [] => None
  | found :: _ =>
      if negb (cv_ordinal found =? ordinal) || (cv_location found != location) then None
      else Some found
  end.

Definition overlapping_call_values_differ (left right : list CallValue) : bool :=
  existsb (fun value =>
    match find_call_value right (cv_ordinal value) (cv_location value) with
    | Some other => cv_bytes other != cv_bytes value
    | None => false
    end) left.

(** ** Claims, kind by kind *)

Definition claim (type : ConflictType) (severity : ConflictSeverity) (subject : Address)
    (secondary : option Address) (explanation : string) : Claim :=
  {| cl_type := type; cl_severity := severity; cl_subject := subject;
     cl_secondary := secondary; cl_explanation := explanation |}.

Definition claim_if (condition : bool) (c : Claim) : list Claim := if condition then [c] else [].

Definition at_address (text : string) (address : Address) : string :=
  String.append text (hex_address address).

(** [compare_dispatch_maps] *)
Definition dispatch_claims (left right : DispatchMapFact) : list Claim :=
  if negb (dm_site left =? dm_site right) then []
  else
    let severity :=
      if dm_complete left || dm_complete right then ConflictSeverity_Contradiction
      else ConflictSeverity_Ambiguity in
    let absent target :=
      claim ConflictType_DivergentDispatchCase ConflictSeverity_Contradiction (dm_site left)
        (Some target)
        (at_address "observed dispatch target is absent from a complete map at " (dm_site left)) in
    let left_targets := dispatch_targets left in
    let right_targets := dispatch_targets right in
    concat (map (fun c =>
      claim_if (competing_case right c)
        (claim ConflictType_DivergentDispatchCase severity (dm_site left) (dc_selector c)
           (at_address "dispatch selector maps to competing targets at " (dm_site left))))
      (dm_cases left)) ++
    claim_if (competing_defaults left right)
      (claim ConflictType_DivergentDispatchCase severity (dm_site left) None
         (at_address "dispatch maps have competing default targets at " (dm_site left))) ++
    (if dm_complete left then map absent (absent_targets left_targets right_targets) else []) ++
    (if dm_complete right then map absent (absent_targets right_targets left_targets) else []).

Definition code_target_claims (left right : CodeTargetFact) : list Claim :=
  claim_if ((ct_from left =? ct_from right) && (ct_kind left == ct_kind right) &&
            negb (ct_target left =? ct_target right) && (ct_unique left || ct_unique right))
    (claim ConflictType_ConflictingUniqueCodeTarget ConflictSeverity_Contradiction
       (ct_from left) None (at_address "sole-target assertions disagree at " (ct_from left))).

Definition branch_claims (left right : BranchReachabilityFact) : list Claim :=
  claim_if ((br_branch left =? br_branch right) && (br_successor left =? br_successor right) &&
            opposite_reachability (br_state left) (br_state right))
    (claim ConflictType_ReachableAndUnreachable ConflictSeverity_Contradiction
       (br_branch left) (Some (br_successor left))
       "the same branch edge is both reached and proven unreachable").

Definition branch_cfg_claims (left : BranchReachabilityFact) (right : CfgCandidateFact) :
    list Claim :=
  claim_if ((br_branch left =? cfg_from right) && (br_successor left =? cfg_to right) &&
            opposite_reachability (br_state left) (cfg_state right))
    (claim ConflictType_ReachableAndUnreachable ConflictSeverity_Contradiction
       (br_branch left) (Some (br_successor left))
       "branch and CFG evidence disagree on edge reachability").

Definition cfg_branch_claims (left : CfgCandidateFact) (right : BranchReachabilityFact) :
    list Claim :=
  claim_if ((cfg_from left =? br_branch right) && (cfg_to left =? br_successor right) &&
            opposite_reachability (cfg_state left) (br_state right))
    (claim ConflictType_ReachableAndUnreachable ConflictSeverity_Contradiction
       (cfg_from left) (Some (cfg_to left))
       "CFG and branch evidence disagree on edge reachability").

Definition cfg_claims (left right : CfgCandidateFact) : list Claim :=
  claim_if ((cfg_from left =? cfg_from right) && (cfg_to left =? cfg_to right) &&
            opposite_reachability (cfg_state left) (cfg_state right))
    (claim ConflictType_DivergentCfgReachability ConflictSeverity_Contradiction
       (cfg_from left) (Some (cfg_to left))
       "the same CFG edge is both reached and proven unreachable").

Definition memory_value_claims (left right : MemoryValueFact) : list Claim :=
  claim_if ((mv_instruction left =? mv_instruction right) &&
            (mv_address left =? mv_address right) && (mv_kind left == mv_kind right) &&
            (mv_bytes left != mv_bytes right))
    (claim ConflictType_DivergentMemoryValue ConflictSeverity_Variation
       (mv_address left) (Some (mv_instruction left))
       (at_address "memory value varies at " (mv_address left))).

Definition string_claims (left right : StringCandidateFact) : list Claim :=
  claim_if ((sf_address left =? sf_address right) &&
            ((sf_encoding left != sf_encoding right) || (sf_bytes left != sf_bytes right) ||
             (sf_decoded left != sf_decoded right) ||
             negb (Bool.eqb (sf_null_terminated left) (sf_null_terminated right))))
    (claim ConflictType_DivergentStringCandidate ConflictSeverity_Ambiguity
       (sf_address left) None
       (at_address "competing string interpretations begin at " (sf_address left))).

Definition has_value {A} (o : option A) : bool := match o with Some _ => true | None => false end.

Definition function_candidate_claims (left right : FunctionCandidateFact) : list Claim :=
  claim_if ((fc_entry left =? fc_entry right) && has_value (fc_end left) &&
            has_value (fc_end right) && (fc_end left != fc_end right))
    (claim ConflictType_DivergentFunctionCandidate ConflictSeverity_Ambiguity
       (fc_entry left) None
       (at_address "function candidates disagree on the end of " (fc_entry left))).

Definition trait_claims (left right : FunctionTraitFact) : list Claim :=
  if negb (ft_function left =? ft_function right) then []
  else if is_return_trait (ft_trait left) && is_return_trait (ft_trait right) &&
          (ft_trait left != ft_trait right)
  then [claim ConflictType_ReturnBehaviorContradiction ConflictSeverity_Contradiction
          (ft_function left) None
          (at_address "function is asserted both returning and no-return at " (ft_function left))]
  else if ft_trait left == ft_trait right then
    if (ft_trait left == FunctionTraitKind_ArgumentRegister) ||
       (ft_trait left == FunctionTraitKind_Other)
    then []
    else
      let severity :=
        if (ft_trait left == FunctionTraitKind_StackDelta) ||
           (ft_trait left == FunctionTraitKind_ReturnConstant)
        then ConflictSeverity_Variation else ConflictSeverity_Ambiguity in
      [claim ConflictType_DivergentFunctionTrait severity (ft_function left) None
         (at_address "function trait has competing values at " (ft_function left))]
  else [].

Definition return_contradiction (function : Address) : Claim :=
  claim ConflictType_ReturnBehaviorContradiction ConflictSeverity_Contradiction function None
    (at_address "a concrete return contradicts a no-return trait at " function).

Definition trait_outcome_claims (left : FunctionTraitFact) (right : FunctionOutcomeFact) :
    list Claim :=
  claim_if ((ft_function left =? fo_function right) &&
            (ft_trait left == FunctionTraitKind_NoReturn) &&
            (fo_stop right == FunctionStopKind_Returned))
    (return_contradiction (ft_function left)).

Definition outcome_trait_claims (left : FunctionOutcomeFact) (right : FunctionTraitFact) :
    list Claim :=
  claim_if ((fo_function left =? ft_function right) &&
            (fo_stop left == FunctionStopKind_Returned) &&
            (ft_trait right == FunctionTraitKind_NoReturn))
    (return_contradiction (fo_function left)).

Definition outcome_claims (left right : FunctionOutcomeFact) : list Claim :=
  claim_if ((fo_function left =? fo_function right) &&
            ((fo_stop left != fo_stop right) || (fo_stop_pc left != fo_stop_pc right) ||
             (fo_stack_delta left != fo_stack_delta right) ||
             (fo_instruction_count left != fo_instruction_count right)))
    (claim ConflictType_DivergentFunctionOutcome ConflictSeverity_Variation
       (fo_function left) None
       (at_address "function outcomes vary across observations at " (fo_function left))).

Definition register_claims (left right : RegisterValueFact) : list Claim :=
  claim_if ((rv_instruction left =? rv_instruction right) && (rv_point left == rv_point right) &&
            (rv_register_id left == rv_register_id right) && (rv_bytes left != rv_bytes right))
    (claim ConflictType_DivergentRegisterValue ConflictSeverity_Variation
       (rv_instruction left) None
       (String.append (at_address "register value varies at " (rv_instruction left))
          (String.append " for " (rv_register_id left)))).

Definition call_claims (left right : CallObservationFact) : list Claim :=
  if negb (co_source left =? co_source right) then []
  else
    let target_differs := has_value (co_target left) && has_value (co_target right) &&
                          (co_target left != co_target right) in
    let kind_differs := (co_kind left != CallKind_Unknown) &&
                        (co_kind right != CallKind_Unknown) && (co_kind left != co_kind right) in
    let result_differs := (co_result left != CallResult_Unknown) &&
                          (co_result right != CallResult_Unknown) &&
                          (co_result left != co_result right) in
    let argument_differs :=
      overlapping_call_values_differ (co_arguments left) (co_arguments right) in
    let return_differs := overlapping_call_values_differ (co_returns left) (co_returns right) in
    claim_if (target_differs || kind_differs || result_differs || argument_differs ||
              return_differs)
      (claim ConflictType_DivergentCallObservation
         (if kind_differs then ConflictSeverity_Ambiguity else ConflictSeverity_Variation)
         (co_source left) None
         (at_address "call target, ABI values, or outcome varies at " (co_source left))).

Definition region_claims (left right : CodeRegionFact) : list Claim :=
  let overlap_start := Z.max (cr_start left) (cr_start right) in
  let overlap_end := Z.min (cr_end left) (cr_end right) in
  claim_if ((overlap_start <? overlap_end) &&
            region_kinds_incompatible (cr_kind left) (cr_kind right))
    (claim ConflictType_IncompatibleCodeRegion ConflictSeverity_Contradiction
       overlap_start (Some overlap_end)
       "overlapping regions classify bytes as both code and non-code").

Definition payload_claims (left right : FactPayload) : list Claim :=
  match left, right with
  | P_CodeTarget l, P_CodeTarget r => code_target_claims l r
  | P_BranchReachability l, P_BranchReachability r => branch_claims l r
  | P_BranchReachability l, P_CfgCandidate r => branch_cfg_claims l r
  | P_CfgCandidate l, P_BranchReachability r => cfg_branch_claims l r
  | P_CfgCandidate l, P_CfgCandidate r => cfg_claims l r
  | P_MemoryValue l, P_MemoryValue r => memory_value_claims l r
  | P_StringCandidate l, P_StringCandidate r => string_claims l r
  | P_FunctionCandidate l, P_FunctionCandidate r => function_candidate_claims l r
  | P_FunctionTrait l, P_FunctionTrait r => trait_claims l r
  | P_FunctionTrait l, P_FunctionOutcome r => trait_outcome_claims l r
  | P_FunctionOutcome l, P_FunctionTrait r => outcome_trait_claims l r
  | P_FunctionOutcome l, P_FunctionOutcome r => outcome_claims l r
  | P_RegisterValue l, P_RegisterValue r => register_claims l r
  | P_CallObservation l, P_CallObservation r => call_claims l r
  | P_CodeRegion l, P_CodeRegion r => region_claims l r
  | P_DispatchMap l, P_DispatchMap r => dispatch_claims l r
  | _, _ => []
  end.

(** ** Accumulating conflicts

    A [FactPayload] object is a record's payload, named by the record's key, or the
    argument of a query, [None]: the identity under which digests are cached. *)

Record PayloadRef := {
  pr_identity : option bytes;
  pr_payload : FactPayload
}.

Record ConflictAccumulator := {
  ca_contradictions_only : bool;
  ca_conflicts : list EvidenceConflict;
  ca_digests : list (option bytes * FactDigest)
}.

Fixpoint cached_digest (id : option bytes) (digests : list (option bytes * FactDigest)) :
    option FactDigest :=
  match digests with
  | [] => None
  | (id', d) :: r => if id' == id then Some d else cached_digest id r
  end.

(** The digest of a payload that was not indexed; zero when it has no encoding. *)
Definition fallback_digest (payload : FactPayload) : FactDigest :=
  match payload_digest payload with Ok d => d | Err _ => zero_digest end.

Definition acc_digest (ref : PayloadRef) (out : ConflictAccumulator) :
    FactDigest * ConflictAccumulator :=
  match cached_digest (pr_identity ref) (ca_digests out) with
  | Some d => (d, out)
  | None =>
      let computed := fallback_digest (pr_payload ref) in
      (computed, {| ca_contradictions_only := ca_contradictions_only out;
                    ca_conflicts := ca_conflicts out;
                    ca_digests := ca_digests out ++ [(pr_identity ref, computed)] |})
  end.

Definition canonicalize_conflict_digests (c : EvidenceConflict) : EvidenceConflict :=
  if digest_lt (ec_right c) (ec_left c)
  then {| ec_type := ec_type c; ec_severity := ec_severity c; ec_left := ec_right c;
          ec_right := ec_left c; ec_subject := ec_subject c;
          ec_secondary_subject := ec_secondary_subject c; ec_explanation := ec_explanation c |}
  else c.

Definition conflict_of (c : Claim) (left right : FactDigest) : EvidenceConflict :=
  canonicalize_conflict_digests
    {| ec_type := cl_type c; ec_severity := cl_severity c; ec_left := left; ec_right := right;
       ec_subject := cl_subject c; ec_secondary_subject := cl_secondary c;
       ec_explanation := cl_explanation c |}.

Definition add_conflict (left right : PayloadRef) (out : ConflictAccumulator) (c : Claim) :
    ConflictAccumulator :=
  if ca_contradictions_only out && (cl_severity c != ConflictSeverity_Contradiction) then out
  else
    let '(left_digest, out) := acc_digest left out in
    let '(right_digest, out) := acc_digest right out in
    {| ca_contradictions_only := ca_contradictions_only out;
       ca_conflicts := ca_conflicts out ++ [conflict_of c left_digest right_digest];
       ca_digests := ca_digests out |}.

Definition compare_payloads (left right : PayloadRef) (out : ConflictAccumulator) :
    ConflictAccumulator :=
  foldl (add_conflict left right) out (payload_claims (pr_payload left) (pr_payload right)).

(** ** Conflicts are totally ordered *)

Definition conflict_key (c : EvidenceConflict) :=
  (conflict_type_value (ec_type c), (severity_value (ec_severity c), (ec_subject c,
    (ec_secondary_subject c, (ec_left c, (ec_right c, ec_explanation c)))))).

Lemma conflict_key_inj c d : conflict_key c = conflict_key d -> c = d.
Proof.
  destruct c as [t s ? ? ? ? ?], d as [t' s' ? ? ? ? ?]. unfold conflict_key. simpl.
  intros [= Ht Hs -> -> -> -> ->]. f_equal.
  - by destruct t, t'.
  - by destruct s, s'.
Qed.

#[export] Instance conflict_less_total : StrictTotal conflict_less.
Proof.
  apply (StrictTotal_inj (pair_lt Z.ltb (pair_lt Z.ltb (pair_lt Z.ltb (pair_lt (option_lt Z.ltb)
    (pair_lt digest_lt (pair_lt digest_lt string_lt)))))) conflict_key), conflict_key_inj.
Qed.

Lemma conflicts_equal_iff c d : conflicts_equal c d = true <-> c = d.
Proof. apply (equiv_by_eq conflict_less). Qed.

(** ** What a comparison adds to the accumulator *)

(** The digest of the payload an identity names, by an assignment of payloads. *)
Definition acc_consistent (payload_at : option bytes -> FactPayload) (out : ConflictAccumulator) :
    Prop :=
  forall id d, cached_digest id (ca_digests out) = Some d -> d = fallback_digest (payload_at id).

Definition ref_at (payload_at : option bytes -> FactPayload) (ref : PayloadRef) : Prop :=
  payload_at (pr_identity ref) = pr_payload ref.

Lemma cached_digest_app id l id' d :
  cached_digest id (l ++ [(id', d)]) =
    match cached_digest id l with Some x => Some x | None => if id' == id then Some d else None end.
Proof.
  induction l as [|[i x] l IH]; cbn [app cached_digest]; [done|]. by destruct (i == id).
Qed.

Lemma acc_digest_consistent payload_at ref out :
  acc_consistent payload_at out -> ref_at payload_at ref ->
  let '(d, out') := acc_digest ref out in
  d = fallback_digest (pr_payload ref) /\ acc_consistent payload_at out' /\
  ca_conflicts out' = ca_conflicts out /\
  ca_contradictions_only out' = ca_contradictions_only out.
Proof.
  intros Hc Hr. unfold acc_digest. destruct (cached_digest _ _) as [d|] eqn:E.
  - split_and!; [|done..]. rewrite <- Hr. by apply Hc.
  - split_and!; [done| |done..]. intros id d. cbn [ca_digests]. rewrite cached_digest_app.
    destruct (cached_digest id (ca_digests out)) eqn:E'; [intros [= <-]; by apply Hc|].
    case_bool_decide as Hid; [|done]. intros [= <-]. subst id. by rewrite Hr.
Qed.

(** The claims that an accumulator records. *)
Definition recorded (only : bool) (c : Claim) : bool :=
  negb (only && (cl_severity c != ConflictSeverity_Contradiction)).

Definition conflicts_between (only : bool) (left right : FactPayload) : list EvidenceConflict :=
  map (fun c => conflict_of c (fallback_digest left) (fallback_digest right))
    (List.filter (recorded only) (payload_claims left right)).

Lemma add_conflict_consistent payload_at left right out c :
  acc_consistent payload_at out -> ref_at payload_at left -> ref_at payload_at right ->
  acc_consistent payload_at (add_conflict left right out c) /\
  ca_contradictions_only (add_conflict left right out c) = ca_contradictions_only out /\
  ca_conflicts (add_conflict left right out c) =
    ca_conflicts out ++
    (if recorded (ca_contradictions_only out) c
     then [conflict_of c (fallback_digest (pr_payload left)) (fallback_digest (pr_payload right))]
     else []).
Proof.
  intros Hc Hl Hr. unfold add_conflict, recorded.
  destruct (ca_contradictions_only out && _) eqn:E; cbn [negb]; [by rewrite app_nil_r|].
  pose proof (acc_digest_consistent _ _ _ Hc Hl) as H1.
  destruct (acc_digest left out) as [dl out1]. destruct H1 as (-> & Hc1 & Hf1 & Ho1).
  pose proof (acc_digest_consistent _ _ _ Hc1 Hr) as H2.
  destruct (acc_digest right out1) as [dr out2]. destruct H2 as (-> & Hc2 & Hf2 & Ho2).
  cbn [ca_contradictions_only ca_conflicts]. split_and!; [done|congruence|congruence].
Qed.

Lemma compare_payloads_consistent payload_at left right out :
  acc_consistent payload_at out -> ref_at payload_at left -> ref_at payload_at right ->
  acc_consistent payload_at (compare_payloads left right out) /\
  ca_contradictions_only (compare_payloads left right out) = ca_contradictions_only out /\
  ca_conflicts (compare_payloads left right out) =
    ca_conflicts out ++
    conflicts_between (ca_contradictions_only out) (pr_payload left) (pr_payload right).
Proof.
  intros Hc Hl Hr. unfold compare_payloads, conflicts_between.
  generalize (payload_claims (pr_payload left) (pr_payload right)) as l.
  intros l. revert out Hc. induction l as [|c l IH]; intros out Hc; cbn [foldl List.filter map].
  - by rewrite app_nil_r.
  - destruct (add_conflict_consistent _ _ _ _ c Hc Hl Hr) as (Hc' & Ho & Hf).
    destruct (IH _ Hc') as (H1 & H2 & H3). split_and!; [done|congruence|].
    rewrite H3, Hf, Ho. rewrite <- app_assoc. f_equal.
    by destruct (recorded (ca_contradictions_only out) c).
Qed.

(** ** Contradiction between two payloads *)

Definition is_contradiction (c : Claim) : bool :=
  cl_severity c == ConflictSeverity_Contradiction.

Definition contradicts (left right : FactPayload) : bool :=
  existsb is_contradiction (payload_claims left right).

(** The edge whose reachability a payload asserts, with the asserted state. *)
Definition edge_assertion (payload : FactPayload) : option ((Address * Address) * Reachability) :=
  match payload with
  | P_BranchReachability f => Some ((br_branch f, br_successor f), br_state f)
  | P_CfgCandidate f => Some ((cfg_from f, cfg_to f), cfg_state f)
  | _ => None
  end.

Definition opposite_states (s t : Reachability) : Prop :=
  (s = Reachability_Reached /\ t = Reachability_ProvenUnreachable) \/
  (s = Reachability_ProvenUnreachable /\ t = Reachability_Reached).

Definition says_returns (payload : FactPayload) (function : Address) : Prop :=
  match payload with
  | P_FunctionTrait f => ft_function f = function /\ ft_trait f = FunctionTraitKind_Returns
  | P_FunctionOutcome f => fo_function f = function /\ fo_stop f = FunctionStopKind_Returned
  | _ => False
  end.

Definition says_no_return (payload : FactPayload) (function : Address) : Prop :=
  match payload with
  | P_FunctionTrait f => ft_function f = function /\ ft_trait f = FunctionTraitKind_NoReturn
  | _ => False
  end.

Definition is_target (m : DispatchMapFact) (target : Address) : Prop :=
  dm_default_target m = Some target \/ exists c, c ∈ dm_cases m /\ dc_target c = target.

Definition noncode (k : CodeRegionKind) : Prop :=
  k = CodeRegionKind_Data \/ k = CodeRegionKind_Padding.

(** Two maps disagree on a selector or on the default. *)
Definition dispatch_disagree (l r : DispatchMapFact) : Prop :=
  (exists cl cr, cl ∈ dm_cases l /\ cr ∈ dm_cases r /\ dc_selector cl <> None /\
                 dc_selector cl = dc_selector cr /\ dc_target cl <> dc_target cr) \/
  (exists a b, dm_default_target l = Some a /\ dm_default_target r = Some b /\ a <> b).

(** The five ways in which two assertions cannot both be true. *)
Definition target_clash (p q : FactPayload) : Prop :=
  exists l r, p = P_CodeTarget l /\ q = P_CodeTarget r /\
    ct_from l = ct_from r /\ ct_kind l = ct_kind r /\ ct_target l <> ct_target r /\
    (ct_unique l = true \/ ct_unique r = true).

Definition edge_clash (p q : FactPayload) : Prop :=
  exists e s t, edge_assertion p = Some (e, s) /\ edge_assertion q = Some (e, t) /\
                opposite_states s t.

Definition return_clash (p q : FactPayload) : Prop :=
  exists f, (says_returns p f /\ says_no_return q f) \/ (says_no_return p f /\ says_returns q f).

Definition dispatch_clash (p q : FactPayload) : Prop :=
  exists l r, p = P_DispatchMap l /\ q = P_DispatchMap r /\ dm_site l = dm_site r /\
    ((dispatch_disagree l r /\ (dm_complete l = true \/ dm_complete r = true)) \/
     (dm_complete l = true /\ exists t, is_target r t /\ ~ is_target l t) \/
     (dm_complete r = true /\ exists t, is_target l t /\ ~ is_target r t)).

Definition region_clash (p q : FactPayload) : Prop :=
  exists l r, p = P_CodeRegion l /\ q = P_CodeRegion r /\
    (exists a, cr_start l <= a < cr_end l /\ cr_start r <= a < cr_end r) /\
    ((cr_kind l = CodeRegionKind_Code /\ noncode (cr_kind r)) \/
     (noncode (cr_kind l) /\ cr_kind r = CodeRegionKind_Code)).

Definition clash (p q : FactPayload) : Prop :=
  target_clash p q \/ edge_clash p q \/ return_clash p q \/ dispatch_clash p q \/
  region_clash p q.

(** ** The comparison finds exactly the clashes *)

Lemma opposite_reachability_iff s t : opposite_reachability s t = true <-> opposite_states s t.
Proof. unfold opposite_states. destruct s, t; vm_compute; naive_solver. Qed.

Lemma region_kinds_incompatible_iff k1 k2 :
  region_kinds_incompatible k1 k2 = true <->
  (k1 = CodeRegionKind_Code /\ noncode k2) \/ (noncode k1 /\ k2 = CodeRegionKind_Code).
Proof. unfold noncode. destruct k1, k2; vm_compute; naive_solver. Qed.

Lemma existsb_app {A} (p : A -> bool) l1 l2 : existsb p (l1 ++ l2) = existsb p l1 || existsb p l2.
Proof. apply List.existsb_app. Qed.

Lemma existsb_claim_if b c : existsb is_contradiction (claim_if b c) = b && is_contradiction c.
Proof. destruct b; cbn; [by rewrite orb_false_r|done]. Qed.

Lemma existsb_iff {A} (p : A -> bool) l : existsb p l = true <-> exists x, x ∈ l /\ p x = true.
Proof. rewrite existsb_exists. by setoid_rewrite list_elem_of_In. Qed.

Lemma absent_targets_iff allowed targets :
  StrictSorted Z.ltb allowed ->
  negb (zlen (absent_targets allowed targets) =? 0) = true <->
  exists t, t ∈ targets /\ t ∉ allowed.
Proof.
  intros Hs. unfold absent_targets. split.
  - intros H. destruct (List.filter _ targets) as [|t l] eqn:E; [done|].
    assert (t ∈ List.filter (fun target => negb (set_count Z.ltb target allowed)) targets) as Ht
      by (rewrite E; set_solver).
    apply elem_of_filter in Ht as [Hn Ht]. exists t. split; [done|].
    rewrite <- (set_count_elem Z.ltb) by done. by destruct (set_count Z.ltb t allowed).
  - intros (t & Ht & Hn). rewrite <- (set_count_elem Z.ltb) in Hn by done.
    destruct (List.filter _ targets) as [|x l] eqn:E; [|rewrite zlen_eqb_ne; done].
    assert (t ∈ List.filter (fun target => negb (set_count Z.ltb target allowed)) targets) as Hin.
    { apply elem_of_filter. split; [|done]. by destruct (set_count Z.ltb t allowed). }
    rewrite E in Hin. by apply elem_of_nil in Hin.
Qed.

Lemma dispatch_targets_spec m :
  StrictSorted Z.ltb (dispatch_targets m) /\ forall t, t ∈ dispatch_targets m <-> is_target m t.
Proof.
  unfold dispatch_targets.
  assert (foldl (fun result c => set_insert Z.ltb (dc_target c) result) [] (dm_cases m) =
          set_of_list Z.ltb (map dc_target (dm_cases m))) as ->.
  { unfold set_of_list. generalize (@nil Z). induction (dm_cases m) as [|c l IH]; intros s;
      cbn [foldl map]; [done|]. apply IH. }
  split; [apply (insert_present_sorted Z.ltb), (set_of_list_sorted Z.ltb)|].
  intros t. rewrite (elem_of_insert_present Z.ltb), (elem_of_set_of_list Z.ltb).
  unfold is_target. rewrite list_elem_of_fmap. destruct (dm_default_target m); cbn [option_list].
  - set_solver.
  - set_solver.
Qed.

(** In a valid map a selector has one case. *)
Definition selectors_unique (m : DispatchMapFact) : Prop :=
  forall c d, c ∈ dm_cases m -> d ∈ dm_cases m -> dc_selector c <> None ->
    dc_selector c = dc_selector d -> c = d.

Lemma sorted_selectors_unique l :
  StrictSorted dispatch_case_less l -> adjacent_exists ambiguous_selector l = false ->
  forall c d, c ∈ l -> d ∈ l -> dc_selector c <> None -> dc_selector c = dc_selector d -> c = d.
Proof.
  induction 1 as [|x l Hs IH Hx]; intros Ha.
  { intros c d Hc. by apply elem_of_nil in Hc. }
  assert (forall d, d ∈ l -> dc_selector x <> None -> dc_selector x = dc_selector d -> False) as Hhead.
  { intros d Hd Hsel Heq. destruct l as [|h l]; [by apply elem_of_nil in Hd|].
    cbn [adjacent_exists] in Ha. apply orb_false_iff in Ha as [Hxh _].
    rewrite Forall_forall in Hx. pose proof (Hx h ltac:(set_solver)) as Hxlt.
    assert (dc_selector h = dc_selector x) as Hh.
    { apply elem_of_cons in Hd as [->|Hd]; [done|].
      apply StronglySorted_inv in Hs as [_ Hf]. rewrite Forall_forall in Hf.
      specialize (Hf _ Hd). rewrite dispatch_case_less_key in Hxlt, Hf.
      unfold pair_lt in Hxlt, Hf. cbn [fst snd] in *. rewrite <- Heq in Hf.
      destruct (selector_lt (dc_selector x) (dc_selector h)) eqn:E1.
      - by rewrite (lt_asym selector_lt _ _ E1) in Hf.
      - destruct (selector_lt (dc_selector h) (dc_selector x)) eqn:E2; [done|].
        symmetry. by apply (lt_total (lt := selector_lt)). }
    unfold ambiguous_selector in Hxh. destruct (dc_selector x) as [v|] eqn:Ex; [|done].
    rewrite Hh in Hxh. rewrite bool_decide_eq_true_2 in Hxh by done. cbn [andb] in Hxh.
    apply negb_false_iff, Z.eqb_eq in Hxh. destruct x, h. cbn in *. subst.
    by rewrite (lt_irrefl (lt := dispatch_case_less)) in Hxlt. }
  assert (adjacent_exists ambiguous_selector l = false) as Hl.
  { cbn [adjacent_exists] in Ha. destruct l as [|h l]; [done|]. by apply orb_false_iff in Ha as [_ ?]. }
  intros c d [->|Hc]%elem_of_cons [->|Hd]%elem_of_cons Hsel Heq; [done| | |by apply IH].
  - by destruct (Hhead d Hd Hsel Heq).
  - destruct (Hhead c Hc); congruence.
Qed.

Lemma valid_selectors_unique m : validate_dispatch_map m = Ok tt -> selectors_unique m.
Proof.
  intros Hv. pose proof (validate_dispatch_map_ok _ Hv) as [Hs _].
  unfold validate_dispatch_map in Hv. inv_ok Hv. intros c d. by apply sorted_selectors_unique.
Qed.

Lemma find_selector_spec selector cases :
  match find_selector selector cases with
  | Some c => c ∈ cases /\ dc_selector c = selector
  | None => forall c, c ∈ cases -> dc_selector c <> selector
  end.
Proof.
  induction cases as [|c l IH]; cbn [find_selector]; [by intros c ?%elem_of_nil|].
  case_bool_decide as E; [split; [set_solver|done]|].
  destruct (find_selector selector l); [set_solver|]. intros d [->|Hd]%elem_of_cons; [done|by apply IH].
Qed.

Lemma competing_case_iff m c :
  selectors_unique m ->
  competing_case m c = true <->
  dc_selector c <> None /\ exists d, d ∈ dm_cases m /\ dc_selector c = dc_selector d /\
                                     dc_target c <> dc_target d.
Proof.
  intros Hu. unfold competing_case. destruct (dc_selector c) as [v|] eqn:Ec; [|naive_solver].
  pose proof (find_selector_spec (Some v) (dm_cases m)) as Hf.
  destruct (find_selector (Some v) (dm_cases m)) as [d|].
  - destruct Hf as [Hd Hs]. rewrite negb_true_iff, Z.eqb_neq. split.
    + intros. split; [done|]. exists d. split_and!; [done|done|lia].
    + intros [_ (d' & Hd' & Hs' & Hne)].
      rewrite (Hu d d') by (congruence || done). lia.
  - split; [done|]. intros [_ (d & Hd & Hs & _)]. by destruct (Hf d Hd).
Qed.

Lemma competing_defaults_iff l r :
  competing_defaults l r = true <->
  exists a b, dm_default_target l = Some a /\ dm_default_target r = Some b /\ a <> b.
Proof.
  unfold competing_defaults. destruct (dm_default_target l), (dm_default_target r);
    rewrite ?negb_true_iff, ?Z.eqb_neq; naive_solver.
Qed.

Lemma existsb_competing l r :
  selectors_unique r ->
  existsb (competing_case r) (dm_cases l) || competing_defaults l r = true <-> dispatch_disagree l r.
Proof.
  intros Hu. unfold dispatch_disagree. rewrite orb_true_iff, existsb_iff, competing_defaults_iff.
  setoid_rewrite (competing_case_iff r); [|done]. naive_solver.
Qed.

Lemma existsb_map_const {A B} (p : B -> bool) (f : A -> B) l b :
  (forall x, p (f x) = b) -> existsb p (map f l) = b && negb (zlen l =? 0).
Proof.
  intros H. induction l as [|x l IH]; [by destruct b|]. cbn [map existsb]. rewrite H, IH.
  rewrite (zlen_eqb_ne (x :: l)) by done. destruct b; [done|by destruct (zlen l =? 0)].
Qed.

Lemma existsb_concat_claims (g : DispatchCase -> bool) (f : DispatchCase -> Claim) l b :
  (forall c, is_contradiction (f c) = b) ->
  existsb is_contradiction (concat (map (fun c => claim_if (g c) (f c)) l)) = existsb g l && b.
Proof.
  intros H. induction l as [|c l IH]; [done|]. cbn [map concat existsb].
  rewrite existsb_app, existsb_claim_if, IH, H. by destruct (g c), b, (existsb g l).
Qed.

Lemma existsb_andb {A} (g : A -> bool) b l : existsb (fun x => g x && b) l = existsb g l && b.
Proof. induction l as [|x l IH]; [done|]. cbn [existsb]. rewrite IH. by destruct (g x), b, (existsb g l). Qed.

(** Both forms of the dispatch comparison decide the same relation. *)
Lemma dispatch_claims_contradict l r :
  existsb is_contradiction (dispatch_claims l r) = dispatch_maps_contradict l r.
Proof.
  unfold dispatch_claims, dispatch_maps_contradict. destruct (negb (dm_site l =? dm_site r)); [done|].
  cbn zeta. rewrite !existsb_app, existsb_claim_if, existsb_andb.
  rewrite (existsb_concat_claims _ _ _ (dm_complete l || dm_complete r))
    by (intros; by destruct (dm_complete l), (dm_complete r)).
  destruct (dm_complete l), (dm_complete r); cbn [orb];
    rewrite ?(existsb_map_const _ _ _ true) by done; cbn [existsb andb];
    destruct (existsb (competing_case r) (dm_cases l)), (competing_defaults l r),
      (zlen (absent_targets (dispatch_targets l) (dispatch_targets r)) =? 0),
      (zlen (absent_targets (dispatch_targets r) (dispatch_targets l)) =? 0); done.
Qed.

Lemma dispatch_contradict_iff l r :
  selectors_unique r ->
  dispatch_maps_contradict l r = true <-> dispatch_clash (P_DispatchMap l) (P_DispatchMap r).
Proof.
  intros Hu. unfold dispatch_maps_contradict, dispatch_clash.
  destruct (dispatch_targets_spec l) as [Hls Hl], (dispatch_targets_spec r) as [Hrs Hr].
  pose proof (absent_targets_iff (dispatch_targets l) (dispatch_targets r) Hls) as Hal.
  pose proof (absent_targets_iff (dispatch_targets r) (dispatch_targets l) Hrs) as Har.
  setoid_rewrite Hl in Hal. setoid_rewrite Hr in Hal.
  setoid_rewrite Hl in Har. setoid_rewrite Hr in Har.
  pose proof (existsb_competing l r Hu) as Hd.
  cbn zeta. rewrite existsb_andb.
  destruct (Z.eqb_spec (dm_site l) (dm_site r)) as [Hsite|Hsite]; cbn [negb]; [|naive_solver].
  transitivity ((existsb (competing_case r) (dm_cases l) || competing_defaults l r) &&
                (dm_complete l || dm_complete r) = true \/
                dm_complete l = true /\ negb (zlen (absent_targets (dispatch_targets l) (dispatch_targets r)) =? 0) = true \/
                dm_complete r = true /\ negb (zlen (absent_targets (dispatch_targets r) (dispatch_targets l)) =? 0) = true).
  { destruct (existsb _ _), (competing_defaults l r), (dm_complete l), (dm_complete r),
      (zlen (absent_targets (dispatch_targets l) _) =? 0),
      (zlen (absent_targets (dispatch_targets r) _) =? 0); cbn; naive_solver. }
  rewrite andb_true_iff, Hd, orb_true_iff, Hal, Har. split.
  - intros H. exists l, r. done.
  - intros (l' & r' & [= <-] & [= <-] & _ & H). done.
Qed.

(** The single-claim comparisons. *)
Lemma claim_if_contradicts b t s subject secondary text :
  existsb is_contradiction (claim_if b (claim t s subject secondary text)) =
    b && (s == ConflictSeverity_Contradiction).
Proof. by rewrite existsb_claim_if. Qed.

Lemma contradiction_claim b t subject secondary text :
  existsb is_contradiction (claim_if b (claim t ConflictSeverity_Contradiction subject secondary text)) = b.
Proof. rewrite claim_if_contradicts, bool_decide_eq_true_2 by done. apply andb_true_r. Qed.

Lemma edge_claims_iff (same : bool) (e1 e2 : Address * Address) s t :
  (same = true <-> e1 = e2) ->
  same && opposite_reachability s t = true <->
  exists e s' t', Some (e1, s) = Some (e, s') /\ Some (e2, t) = Some (e, t') /\
                  opposite_states s' t'.
Proof.
  intros Hs. rewrite andb_true_iff, Hs, opposite_reachability_iff. split.
  - intros [-> H]. eauto 10.
  - by intros (e & s' & t' & [= -> ->] & [= -> ->] & H).
Qed.

Lemma region_claims_iff l r :
  existsb is_contradiction (region_claims l r) = true <->
  region_clash (P_CodeRegion l) (P_CodeRegion r).
Proof.
  unfold region_claims. cbn zeta. rewrite contradiction_claim.
  rewrite andb_true_iff, region_kinds_incompatible_iff, Z.ltb_lt. split.
  - intros [Ho Hk]. exists l, r. split_and!; [done..| |done].
    exists (Z.max (cr_start l) (cr_start r)). lia.
  - intros (l' & r' & [= <-] & [= <-] & (a & ? & ?) & Hk). split; [lia|done].
Qed.

Lemma trait_claims_iff l r :
  existsb is_contradiction (trait_claims l r) = true <->
  return_clash (P_FunctionTrait l) (P_FunctionTrait r).
Proof.
  unfold trait_claims, return_clash, says_returns, says_no_return, is_return_trait.
  destruct (Z.eqb_spec (ft_function l) (ft_function r)) as [Hf|Hf]; cbn [negb].
  - rewrite Hf. destruct (ft_trait l), (ft_trait r); vm_compute; naive_solver.
  - split; [done|]. naive_solver.
Qed.

(** [clash] between two payloads of known kinds is the one clash of these kinds. *)
Ltac refute_clash H :=
  exfalso; first
    [ by destruct H as (? & ? & ? & ? & _) | by destruct H as (? & ? & ? & ? & ? & _)
    | by destruct H as (? & [[? ?]|[? ?]]) ].
Ltac clash_cases :=
  let H := fresh in intros [H|[H|[H|[H|H]]]]; first [exact H | refute_clash H].
Ltac no_clash := split; [done|]; clash_cases.
Ltac own_clash := unfold clash; split; [tauto|clash_cases].

Lemma branch_edges_iff p q text t e1 e2 st1 st2 subject secondary same :
  edge_assertion p = Some (e1, st1) -> edge_assertion q = Some (e2, st2) ->
  (same = true <-> e1 = e2) ->
  existsb is_contradiction (claim_if (same && opposite_reachability st1 st2)
    (claim t ConflictSeverity_Contradiction subject secondary text)) = true <-> clash p q.
Proof.
  intros Hp Hq Hs. rewrite contradiction_claim.
  rewrite (edge_claims_iff _ _ _ _ _ Hs), <- Hp, <- Hq.
  split; [intros H; right; left; exact H|]. intros H.
  destruct H as [(l & r & -> & -> & _)|[H|[(f & [[H1 H2]|[H1 H2]])|
                 [(l & r & -> & -> & _)|(l & r & -> & -> & _)]]]]; try done.
  - by destruct p, q.
  - by destruct p, q.
Qed.

Lemma andb_eqb_pair a b c d : (a =? c) && (b =? d) = true <-> (a, b) = (c, d).
Proof. rewrite andb_true_iff, !Z.eqb_eq. split; [by intros [-> ->]|by intros [= -> ->]]. Qed.

Lemma no_contradiction_claim b t s subject secondary text :
  s <> ConflictSeverity_Contradiction ->
  existsb is_contradiction (claim_if b (claim t s subject secondary text)) = true <-> False.
Proof.
  intros Hs. rewrite claim_if_contradicts, bool_decide_eq_false_2, andb_false_r by done. done.
Qed.

Lemma code_target_claims_iff l r :
  existsb is_contradiction (code_target_claims l r) = true <->
  target_clash (P_CodeTarget l) (P_CodeTarget r).
Proof.
  unfold code_target_claims. rewrite contradiction_claim.
  rewrite !andb_true_iff, orb_true_iff, negb_true_iff, Z.eqb_eq, Z.eqb_neq, bool_decide_eq_true.
  split.
  - intros [[[? ?] ?] ?]. exists l, r. done.
  - by intros (l' & r' & [= <-] & [= <-] & ? & ? & ? & ?).
Qed.

Lemma trait_outcome_claims_iff l r :
  existsb is_contradiction (trait_outcome_claims l r) = true <->
  return_clash (P_FunctionTrait l) (P_FunctionOutcome r).
Proof.
  unfold trait_outcome_claims, return_contradiction, return_clash, says_returns, says_no_return.
  rewrite contradiction_claim.
  rewrite !andb_true_iff, Z.eqb_eq, !bool_decide_eq_true. naive_solver.
Qed.

Lemma outcome_trait_claims_iff l r :
  existsb is_contradiction (outcome_trait_claims l r) = true <->
  return_clash (P_FunctionOutcome l) (P_FunctionTrait r).
Proof.
  unfold outcome_trait_claims, return_contradiction, return_clash, says_returns, says_no_return.
  rewrite contradiction_claim.
  rewrite !andb_true_iff, Z.eqb_eq, !bool_decide_eq_true. naive_solver.
Qed.

Lemma contradicts_iff p q :
  validate_payload q = Ok tt -> contradicts p q = true <-> clash p q.
Proof.
  intros Hv. unfold contradicts.
  destruct p as [l|l|l|l|l|l|l|l|l|l|l|l|l]; destruct q as [r|r|r|r|r|r|r|r|r|r|r|r|r];
    cbn [payload_claims]; try (no_clash; fail).
  - rewrite code_target_claims_iff. own_clash.
  - by eapply branch_edges_iff; [..|apply andb_eqb_pair].
  - by eapply branch_edges_iff; [..|apply andb_eqb_pair].
  - unfold memory_value_claims. rewrite no_contradiction_claim by done. no_clash.
  - unfold string_claims. rewrite no_contradiction_claim by done. no_clash.
  - unfold function_candidate_claims. rewrite no_contradiction_claim by done. no_clash.
  - rewrite trait_claims_iff. own_clash.
  - rewrite trait_outcome_claims_iff. own_clash.
  - rewrite region_claims_iff. own_clash.
  - rewrite dispatch_claims_contradict, dispatch_contradict_iff by by apply valid_selectors_unique.
    own_clash.
  - by eapply branch_edges_iff; [..|apply andb_eqb_pair].
  - by eapply branch_edges_iff; [..|apply andb_eqb_pair].
  - rewrite outcome_trait_claims_iff. own_clash.
  - unfold outcome_claims. rewrite no_contradiction_claim by done. no_clash.
  - unfold register_claims. rewrite no_contradiction_claim by done. no_clash.
  - unfold call_claims. destruct (negb _); [no_clash|]. cbn zeta.
    rewrite no_contradiction_claim by (by destruct (_ && _)). no_clash.
Qed.

(** ** Clashes are symmetric and never within one payload *)

Lemma opposite_states_sym s t : opposite_states s t -> opposite_states t s.
Proof. unfold opposite_states. tauto. Qed.

Lemma dispatch_disagree_sym l r : dispatch_disagree l r -> dispatch_disagree r l.
Proof.
  intros [(cl & cr & ? & ? & ? & ? & ?)|(a & b & ? & ? & ?)].
  - left. exists cr, cl. split_and!; congruence.
  - right. exists b, a. split_and!; congruence.
Qed.

Lemma clash_sym p q : clash p q -> clash q p.
Proof.
  intros [(l & r & -> & -> & H1 & H2 & H3 & H4)|[(e & s & t & Hs & Ht & Ho)|[(f & Hf)|
          [(l & r & -> & -> & Hs & Hd)|(l & r & -> & -> & (a & ? & ?) & Hk)]]]].
  - left. exists r, l. split_and!; try congruence. tauto.
  - right; left. exists e, t, s. split_and!; [done..|by apply opposite_states_sym].
  - right; right; left. exists f. tauto.
  - right; right; right; left. exists r, l. split_and!; [done..|].
    destruct Hd as [[Hd Hc]|[?|?]]; [left|tauto|tauto]. split; [by apply dispatch_disagree_sym|tauto].
  - right; right; right; right. exists r, l. split_and!; [done..|by exists a|tauto].
Qed.

Lemma clash_irrefl p : validate_payload p = Ok tt -> ~ clash p p.
Proof.
  intros Hv [(l & r & -> & [= <-] & _ & _ & H & _)|[(e & s & t & Hs & Ht & Ho)|[(f & Hf)|
          [(l & r & -> & [= <-] & Hs & Hd)|(l & r & -> & [= <-] & _ & Hk)]]]].
  - done.
  - assert (s = t) as -> by congruence. by destruct t, Ho as [[? ?]|[? ?]].
  - destruct p; try (by destruct Hf as [[? ?]|[? ?]]).
    cbn [says_returns says_no_return] in Hf. naive_solver congruence.
  - cbn [validate_payload] in Hv. apply valid_selectors_unique in Hv as Hu.
    destruct Hd as [[[(cl & cr & Hcl & Hcr & Hn & Heq & Hne)|(a & b & ? & ? & ?)] _]|[(_ & t & ? & ?)|(_ & t & ? & ?)]];
      [|congruence|done|done]. apply Hne. by rewrite (Hu _ _ Hcl Hcr Hn Heq).
  - unfold noncode in Hk. destruct (cr_kind l); naive_solver.
Qed.

(** The two orders of comparing a pair record the same digests. *)
Lemma conflict_of_sym c dl dr : conflict_of c dl dr = conflict_of c dr dl.
Proof.
  unfold conflict_of, canonicalize_conflict_digests.
  cbn [ec_left ec_right ec_type ec_severity ec_subject ec_secondary_subject ec_explanation].
  destruct (lt_cases digest_lt dl dr) as [H|[->|H]]; [|done|].
  - by rewrite H, (lt_asym digest_lt _ _ H).
  - by rewrite H, (lt_asym digest_lt _ _ H).
Qed.

(** ** Properties *)

(** C24: the comparison of two valid payloads claims a contradiction exactly when
    they assert things that cannot both hold: two sole targets of one transfer, an
    edge both reached and proven unreachable, a function both returning and not
    returning, a complete dispatch map and a case, default or target that it
    excludes, or a byte in both a code and a non-code region.  The relation does
    not depend on the order of the two payloads and no payload contradicts itself. *)
Theorem contradiction_exact p q :
  validate_payload p = Ok tt -> validate_payload q = Ok tt ->
  (existsb is_contradiction (payload_claims p q) = true <-> clash p q) /\
  existsb is_contradiction (payload_claims p q) = existsb is_contradiction (payload_claims q p) /\
  existsb is_contradiction (payload_claims p p) = false.
Proof.
  intros Hp Hq. pose proof (contradicts_iff p q Hq) as Hpq. pose proof (contradicts_iff q p Hp) as Hqp.
  pose proof (contradicts_iff p p Hp) as Hpp. fold (contradicts p q) (contradicts q p) (contradicts p p).
  split_and!; [done| |].
  - apply eq_true_iff_eq. rewrite Hpq, Hqp. split; apply clash_sym.
  - apply not_true_iff_false. rewrite Hpp. by apply clash_irrefl.
Qed.

Lemma contradiction_exact_witness :
  let code := P_CodeRegion {| cr_start := 16; cr_end := 32; cr_kind := CodeRegionKind_Code |} in
  let data := P_CodeRegion {| cr_start := 31; cr_end := 40; cr_kind := CodeRegionKind_Data |} in
  existsb is_contradiction (payload_claims code data) = true /\ clash code data.
Proof.
  cbv zeta. split; [vm_compute; reflexivity|].
  apply (contradiction_exact (P_CodeRegion {| cr_start := 16; cr_end := 32;
                                              cr_kind := CodeRegionKind_Code |})
                             (P_CodeRegion {| cr_start := 31; cr_end := 40;
                                              cr_kind := CodeRegionKind_Data |}));
    vm_compute; reflexivity.
Defined.
