(* ===== verification/ConflictScan.v ===== *)
(** Conflict detection over the whole store ([src/src/evidence_store.cpp]):
    [detect_conflicts] and [contradicted_payload_digests]. *)
From stdpp Require Import base numbers list strings option sets.
From Stdlib Require Import ZArith Init.Byte Sorting.Sorted Lia.
From S2P Require Import Prelude OrderedMap Loops Ledger FactTypes Sha256 Validate FactCodec.
From S2P Require Import Store Conflicts.

(** ** Indexed records

    [ordered[i]]: the index of a record in the key order with its map entry. *)

Notation Item := (nat * (bytes * EvidenceRecord))%type.
Notation item_key i := (fst (snd i)).
Notation item_payload i := (er_payload (snd (snd i))).

Definition ordered_items (m : omap bytes EvidenceRecord) : list Item :=
  zip (seq 0 (length m)) m.

Definition item_ref (i : Item) : PayloadRef :=
  {| pr_identity := Some (item_key i); pr_payload := item_payload i |}.

(** One map of buckets of the single pass over [ordered]: the payload alternatives
    that go to it and the key. *)
Definition bucket {K} (lt : K -> K -> bool) (key : FactPayload -> option K) (items : list Item) :
    omap K (list Item) :=
  bucket_by lt (fun i => key (item_payload i)) items.

(** ** Bucket keys *)

Notation lt2 := (pair_lt Z.ltb Z.ltb).

Definition code_target_key (payload : FactPayload) : option (Address * Z) :=
  match payload with P_CodeTarget f => Some (ct_from f, to_u8 (ct_kind f)) | _ => None end.
Definition edge_key (payload : FactPayload) : option (Address * Address) :=
  match payload with
  | P_BranchReachability f => Some (br_branch f, br_successor f)
  | P_CfgCandidate f => Some (cfg_from f, cfg_to f)
  | _ => None
  end.
Definition memory_value_key (payload : FactPayload) : option (Address * (Address * Z)) :=
  match payload with
  | P_MemoryValue f => Some (mv_instruction f, (mv_address f, to_u8 (mv_kind f)))
  | _ => None
  end.
Definition string_key (payload : FactPayload) : option Address :=
  match payload with P_StringCandidate f => Some (sf_address f) | _ => None end.
Definition function_candidate_key (payload : FactPayload) : option Address :=
  match payload with P_FunctionCandidate f => Some (fc_entry f) | _ => None end.
Definition function_evidence_key (payload : FactPayload) : option Address :=
  match payload with
  | P_FunctionTrait f => Some (ft_function f)
  | P_FunctionOutcome f => Some (fo_function f)
  | _ => None
  end.
Definition dispatch_map_key (payload : FactPayload) : option Address :=
  match payload with P_DispatchMap f => Some (dm_site f) | _ => None end.
Definition register_key (payload : FactPayload) : option (Address * (Z * string)) :=
  match payload with
  | P_RegisterValue f => Some (rv_instruction f, (to_u8 (rv_point f), rv_register_id f))
  | _ => None
  end.
Definition call_key (payload : FactPayload) : option Address :=
  match payload with P_CallObservation f => Some (co_source f) | _ => None end.

(** ** The region sweep *)

Record RegionItem := { ri_item : Item; ri_fact : CodeRegionFact }.

Definition region_items (items : list Item) : list RegionItem :=
  concat (map (fun i =>
    match item_payload i with
    | P_CodeRegion f => [{| ri_item := i; ri_fact := f |}]
    | _ => []
    end) items).

Definition region_lt (lhs rhs : RegionItem) : bool :=
  let key r := (cr_start (ri_fact r), (cr_end (ri_fact r), Z.of_nat (ri_item r).1)) in
  pair_lt Z.ltb (pair_lt Z.ltb Z.ltb) (key lhs) (key rhs).

(** The inner loop: regions in start order until one starts past the end of [first]. *)
Fixpoint sweep_from {S} (body : RegionItem -> RegionItem -> S -> S) (first : RegionItem)
    (l : list RegionItem) (s : S) : S :=
  match l with
  | [] => s
  | next :: r =>
      if cr_end (ri_fact first) <=? cr_start (ri_fact next) then s
      else sweep_from body first r (body first next s)
  end.

Fixpoint sweep {S} (body : RegionItem -> RegionItem -> S -> S) (l : list RegionItem) (s : S) : S :=
  match l with
  | [] => s
  | first :: r => sweep body r (sweep_from body first r s)
  end.

(** ** [detect_conflicts] *)

Definition indexed_accumulator (m : omap bytes EvidenceRecord) : ConflictAccumulator :=
  {| ca_contradictions_only := false; ca_conflicts := [];
     ca_digests := map (fun entry => (Some entry.1, sha256_bytes entry.1)) m |}.

Definition compare_items (left right : Item) (out : ConflictAccumulator) : ConflictAccumulator :=
  compare_payloads (item_ref left) (item_ref right) out.

Definition detect_conflicts (store : EvidenceStore) : list EvidenceConflict :=
  let ordered := ordered_items (records_ store) in
  let accumulator := indexed_accumulator (records_ store) in
  let accumulator := for_buckets compare_items (bucket lt2 code_target_key ordered) accumulator in
  let accumulator := for_buckets compare_items (bucket lt2 edge_key ordered) accumulator in
  let accumulator :=
    for_buckets compare_items
      (bucket (pair_lt Z.ltb lt2) memory_value_key ordered) accumulator in
  let accumulator := for_buckets compare_items (bucket Z.ltb string_key ordered) accumulator in
  let accumulator :=
    for_buckets compare_items (bucket Z.ltb function_candidate_key ordered) accumulator in
  let accumulator :=
    for_buckets compare_items (bucket Z.ltb function_evidence_key ordered) accumulator in
  let accumulator :=
    for_buckets compare_items (bucket Z.ltb dispatch_map_key ordered) accumulator in
  let accumulator :=
    for_buckets compare_items
      (bucket (pair_lt Z.ltb (pair_lt Z.ltb string_lt)) register_key ordered) accumulator in
  let accumulator := for_buckets compare_items (bucket Z.ltb call_key ordered) accumulator in
  let regions := std_sort region_lt (region_items ordered) in
  let accumulator :=
    sweep (fun l r => compare_items (ri_item l) (ri_item r)) regions accumulator in
  std_unique conflicts_equal (std_sort conflict_less (ca_conflicts accumulator)).

(** ** [contradicted_payload_digests] *)

Record ContradictionScanStats := {
  st_records_indexed : Z;
  st_candidate_relations_examined : Z;
  st_payload_digests_computed : Z
}.

(** The local state: the result set, the items whose digest was computed, the
    statistics. *)
Record ContradictionScan := {
  cs_contradicted : list FactDigest;
  cs_hashed : list nat;
  cs_stats : ContradictionScanStats
}.

(** [if (n != SIZE_MAX) ++n] *)
Definition saturating_increment (n : Z) : Z := if n =? u64_max then n else n + 1.

Definition count_relation (scan : ContradictionScan) : ContradictionScan :=
  let stats := cs_stats scan in
  {| cs_contradicted := cs_contradicted scan; cs_hashed := cs_hashed scan;
     cs_stats :=
       {| st_records_indexed := st_records_indexed stats;
          st_candidate_relations_examined :=
            saturating_increment (st_candidate_relations_examined stats);
          st_payload_digests_computed := st_payload_digests_computed stats |} |}.

Definition mark (i : Item) (scan : ContradictionScan) : ContradictionScan :=
  let stats := cs_stats scan in
  let contradicted := set_insert digest_lt (sha256_bytes (item_key i)) (cs_contradicted scan) in
  if existsb (Nat.eqb i.1) (cs_hashed scan)
  then {| cs_contradicted := contradicted; cs_hashed := cs_hashed scan; cs_stats := stats |}
  else {| cs_contradicted := contradicted; cs_hashed := i.1 :: cs_hashed scan;
          cs_stats :=
            {| st_records_indexed := st_records_indexed stats;
               st_candidate_relations_examined := st_candidate_relations_examined stats;
               st_payload_digests_computed :=
                 saturating_increment (st_payload_digests_computed stats) |} |}.

Definition mark_pair (l r : Item) (scan : ContradictionScan) : ContradictionScan :=
  mark r (mark l scan).

Definition mark_all (items : list Item) (scan : ContradictionScan) : ContradictionScan :=
  foldl (fun scan i => mark i scan) scan items.

(** The body of the pair loops: count, test, mark. *)
Definition examine (clashes : FactPayload -> FactPayload -> bool) (l r : Item)
    (scan : ContradictionScan) : ContradictionScan :=
  let scan := count_relation scan in
  if clashes (item_payload l) (item_payload r) then mark_pair l r scan else scan.

Definition code_targets_clash (l r : FactPayload) : bool :=
  match l, r with
  | P_CodeTarget l, P_CodeTarget r =>
      negb (ct_target l =? ct_target r) && (ct_unique l || ct_unique r)
  | _, _ => false
  end.

(** [edge_state] of two edges of one bucket. *)
Definition edge_state (payload : FactPayload) : option Reachability :=
  match payload with
  | P_BranchReachability f => Some (br_state f)
  | P_CfgCandidate f => Some (cfg_state f)
  | _ => None
  end.

Definition edges_clash (l r : FactPayload) : bool :=
  match edge_state l, edge_state r with
  | Some s, Some t => opposite_reachability s t
  | _, _ => false
  end.

Definition dispatch_clashes (l r : FactPayload) : bool :=
  match l, r with
  | P_DispatchMap l, P_DispatchMap r => dispatch_maps_contradict l r
  | _, _ => false
  end.

Definition is_returns (payload : FactPayload) : bool :=
  match payload with P_FunctionTrait f => ft_trait f == FunctionTraitKind_Returns | _ => false end.
Definition is_no_return (payload : FactPayload) : bool :=
  match payload with P_FunctionTrait f => ft_trait f == FunctionTraitKind_NoReturn | _ => false end.
Definition is_returned_outcome (payload : FactPayload) : bool :=
  match payload with
  | P_FunctionOutcome f => fo_stop f == FunctionStopKind_Returned
  | _ => false
  end.

(** One function's bucket. *)
Definition examine_function (bucket : list Item) (scan : ContradictionScan) : ContradictionScan :=
  let returns := List.filter (fun i => is_returns (item_payload i)) bucket in
  let no_returns := List.filter (fun i => is_no_return (item_payload i)) bucket in
  let returned_outcomes := List.filter (fun i => is_returned_outcome (item_payload i)) bucket in
  let scan :=
    if negb (zlen returns =? 0) && negb (zlen no_returns =? 0)
    then mark_all no_returns (mark_all returns (count_relation scan)) else scan in
  if negb (zlen no_returns =? 0) && negb (zlen returned_outcomes =? 0)
  then mark_all returned_outcomes (mark_all no_returns (count_relation scan)) else scan.

Definition initial_stats (records_indexed : Z) : ContradictionScanStats :=
  {| st_records_indexed := records_indexed; st_candidate_relations_examined := 0;
     st_payload_digests_computed := 0 |}.

Definition contradiction_scan (store : EvidenceStore) : ContradictionScan :=
  let ordered := ordered_items (records_ store) in
  let scan := {| cs_contradicted := []; cs_hashed := [];
                 cs_stats := initial_stats (zlen (records_ store)) |} in
  let scan :=
    for_buckets (examine code_targets_clash) (bucket lt2 code_target_key ordered) scan in
  let scan := for_buckets (examine edges_clash) (bucket lt2 edge_key ordered) scan in
  let scan :=
    foldl (fun scan bucket => examine_function bucket.2 scan) scan
      (bucket Z.ltb function_evidence_key ordered) in
  let scan :=
    for_buckets (examine dispatch_clashes) (bucket Z.ltb dispatch_map_key ordered) scan in
  let regions := std_sort region_lt (region_items ordered) in
  sweep (fun l r scan =>
           let scan := count_relation scan in
           if region_kinds_incompatible (cr_kind (ri_fact l)) (cr_kind (ri_fact r))
           then mark_pair (ri_item l) (ri_item r) scan else scan) regions scan.

Definition contradicted_payload_digests (store : EvidenceStore) :
    list FactDigest * ContradictionScanStats :=
  let scan := contradiction_scan store in (cs_contradicted scan, cs_stats scan).

(** ** Items *)

Definition item_order (x y : Item) : Prop := (x.1 < y.1)%nat.

Lemma zip_seq_sorted {A} n (m : list A) :
  StronglySorted (fun x y => (x.1 < y.1)%nat) (zip (seq n (length m)) m) /\
  forall i, i ∈ zip (seq n (length m)) m -> (n <= i.1)%nat.
Proof.
  revert n. induction m as [|x m IH]; intros n; cbn [length seq zip zip_with].
  - split; [constructor|]. by intros i ?%elem_of_nil.
  - destruct (IH (S n)) as [Hs Hge]. split.
    + constructor; [done|]. apply Forall_forall. intros i Hi. specialize (Hge _ Hi). simpl. lia.
    + intros i [->|Hi]%elem_of_cons; [done|]. specialize (Hge _ Hi). lia.
Qed.

Lemma items_sorted m : StronglySorted item_order (ordered_items m).
Proof. apply zip_seq_sorted. Qed.

Lemma item_order_asym x y : item_order x y -> ~ item_order y x.
Proof. unfold item_order. lia. Qed.

Lemma item_entry m i : i ∈ ordered_items m -> i.2 ∈ m.
Proof.
  unfold ordered_items. generalize 0%nat. induction m as [|x m IH]; intros n; cbn [length seq zip zip_with].
  - by intros ?%elem_of_nil.
  - intros [->|Hi]%elem_of_cons; [by left|]. right. by eapply IH.
Qed.

Lemma entry_item m e : e ∈ m -> exists i, (i, e) ∈ ordered_items m.
Proof.
  unfold ordered_items. generalize 0%nat. induction m as [|x m IH]; intros n; cbn [length seq zip zip_with].
  - by intros ?%elem_of_nil.
  - intros [->|He]%elem_of_cons; [exists n; by left|]. destruct (IH (S n) He) as [i Hi].
    exists i. by right.
Qed.

(** The pairs of entries, in key order, are the pairs of items. *)
Lemma before_items m x y :
  before m x y <-> exists i j, before (ordered_items m) (i, x) (j, y).
Proof.
  unfold ordered_items. generalize 0%nat. induction m as [|z m IH]; intros n;
    cbn [length seq zip zip_with before]; [naive_solver|].
  assert (forall a, a ∈ m <-> exists j, (j, a) ∈ zip (seq (S n) (length m)) m) as Hin.
  { clear. intros a. generalize (S n). induction m as [|b m IH]; intros k;
      cbn [length seq zip zip_with].
    - split; [by intros ?%elem_of_nil|]. by intros (? & ?%elem_of_nil).
    - rewrite elem_of_cons, (IH (S k)). setoid_rewrite elem_of_cons. split.
      + intros [->|[j Hj]]; [exists k; by left|exists j; by right].
      + intros (j & [[= -> ->]|Hj]); [by left|right; by exists j]. }
  rewrite (IH (S n)), Hin. split.
  - intros [[-> [j Hj]]|(i & j & H)]; [exists n, j; by left|exists i, j; by right].
  - intros (i & j & [[[= -> ->] Hj]|H]); [left; split; [done|by exists j]|right; by exists i, j].
Qed.

(** ** The sweep *)

Section Sweep.
Context {C S : Type} (I : S -> Prop) (obs : S -> C -> Prop)
  (P : RegionItem -> Prop) (body : RegionItem -> RegionItem -> S -> S)
  (R : RegionItem -> RegionItem -> C -> Prop)
  (Hbody : forall x y s, P x -> P y -> I s ->
     I (body x y s) /\ forall c, obs (body x y s) c <-> obs s c \/ R x y c).

Definition starts_before (x y : RegionItem) : Prop := cr_start (ri_fact x) <= cr_start (ri_fact y).

Lemma sweep_from_collect x l s :
  P x -> (forall y, y ∈ l -> P y) -> StronglySorted starts_before l -> I s ->
  I (sweep_from body x l s) /\
  forall c, obs (sweep_from body x l s) c <->
    obs s c \/ exists y, y ∈ l /\ cr_start (ri_fact y) < cr_end (ri_fact x) /\ R x y c.
Proof.
  intros Hx Hl Hs. revert s. induction Hs as [|y l Hs IH Hy]; intros s Hi; cbn [sweep_from].
  - split; [done|]. intros c. split; [by left|]. intros [?|(y & ?%elem_of_nil & _)]; done.
  - rewrite Forall_forall in Hy. destruct (Z.leb_spec (cr_end (ri_fact x)) (cr_start (ri_fact y))).
    + split; [done|]. intros c. split; [by left|].
      intros [?|(z & [->|Hz]%elem_of_cons & Hlt & _)]; [done|lia|].
      specialize (Hy _ Hz). unfold starts_before in Hy. lia.
    + destruct (Hbody x y s) as [Hi' Ho]; [done|apply Hl; set_solver|done|].
      destruct (IH ltac:(set_solver) _ Hi') as [Hi'' Ho']. split; [done|]. intros c.
      rewrite Ho', Ho. setoid_rewrite elem_of_cons. naive_solver.
Qed.

Lemma sweep_collect l s :
  (forall y, y ∈ l -> P y) -> StronglySorted starts_before l -> I s ->
  I (sweep body l s) /\
  forall c, obs (sweep body l s) c <->
    obs s c \/ exists x y, before l x y /\ cr_start (ri_fact y) < cr_end (ri_fact x) /\ R x y c.
Proof.
  intros Hl Hs. revert s. induction Hs as [|x l Hs IH Hx]; intros s Hi; cbn [sweep before].
  - split; [done|]. naive_solver.
  - destruct (sweep_from_collect x l s) as [Hi' Ho]; [apply Hl; set_solver|set_solver|done|done|].
    destruct (IH ltac:(set_solver) _ Hi') as [Hi'' Ho']. split; [done|]. intros c.
    rewrite Ho', Ho. naive_solver.
Qed.
End Sweep.

(** ** The sorted regions *)

Definition region_key (r : RegionItem) : Z * (Z * Z) :=
  (cr_start (ri_fact r), (cr_end (ri_fact r), Z.of_nat (ri_item r).1)).

Lemma elem_of_region_items items r :
  r ∈ region_items items <-> ri_item r ∈ items /\ item_payload (ri_item r) = P_CodeRegion (ri_fact r).
Proof.
  unfold region_items. rewrite elem_of_concat_map. split.
  - intros (i & Hi & Hr). destruct (item_payload i) eqn:E; try by apply elem_of_nil in Hr.
    apply list_elem_of_singleton in Hr as ->. done.
  - intros [Hi Hp]. exists (ri_item r). split; [done|]. rewrite Hp.
    destruct r. by apply list_elem_of_singleton.
Qed.

Lemma item_index_inj m i j : i ∈ ordered_items m -> j ∈ ordered_items m -> i.1 = j.1 -> i = j.
Proof.
  intros Hi Hj Heq. pose proof (items_sorted m) as Hs. revert Hi Hj.
  induction Hs as [|k l Hs IH Hk]; [by intros ?%elem_of_nil|]. rewrite Forall_forall in Hk.
  intros [->|Hi]%elem_of_cons [->|Hj]%elem_of_cons; [done| | |by apply IH].
  - specialize (Hk _ Hj). unfold item_order in Hk. lia.
  - specialize (Hk _ Hi). unfold item_order in Hk. lia.
Qed.

Lemma region_keys_NoDup m : NoDup (map region_key (region_items (ordered_items m))).
Proof.
  assert (forall l, StronglySorted item_order l -> NoDup (map region_key (region_items l))) as H.
  { induction 1 as [|i l Hs IH Hi]; [constructor|]. unfold region_items in *. cbn [map concat].
    rewrite map_app. apply NoDup_app. split_and!; [|intros k Hk1 Hk2|done].
    - destruct (item_payload i); try constructor; [|constructor]. by intros ?%elem_of_nil.
    - apply list_elem_of_fmap in Hk1 as (r1 & -> & Hr1).
      apply list_elem_of_fmap in Hk2 as (r2 & Hk & Hr2).
      assert (ri_item r1 = i) as Hi1.
      { destruct (item_payload i); try by apply elem_of_nil in Hr1.
        by apply list_elem_of_singleton in Hr1 as ->. }
      assert (ri_item r2 ∈ l) as Hi2 by by apply elem_of_region_items.
      rewrite Forall_forall in Hi. specialize (Hi _ Hi2). unfold item_order in Hi.
      unfold region_key in Hk. injection Hk as _ _ Hk. subst i. lia. }
  apply H, items_sorted.
Qed.

Definition sorted_regions (m : omap bytes EvidenceRecord) : list RegionItem :=
  std_sort region_lt (region_items (ordered_items m)).

Definition region_order (x y : RegionItem) : Prop := region_lt x y = true.

Lemma sorted_regions_sorted m : StronglySorted region_order (sorted_regions m).
Proof.
  unfold sorted_regions, region_order.
  apply (sort_by_key_strict (pair_lt Z.ltb lt2) region_key), region_keys_NoDup.
Qed.

Lemma region_order_asym x y : region_order x y -> ~ region_order y x.
Proof.
  unfold region_order. intros H1 H2.
  assert (region_lt y x = false) as H
    by apply (lt_asym (pair_lt Z.ltb lt2) (region_key x) (region_key y) H1).
  congruence.
Qed.

Lemma sorted_regions_starts m : StronglySorted starts_before (sorted_regions m).
Proof.
  eapply (StronglySorted_weaken region_order); [|apply sorted_regions_sorted].
  intros x y. unfold region_order, region_lt, starts_before, pair_lt. cbn.
  destruct (Z.ltb_spec (cr_start (ri_fact x)) (cr_start (ri_fact y))); [lia|].
  destruct (Z.ltb_spec (cr_start (ri_fact y)) (cr_start (ri_fact x))); [done|lia].
Qed.

Lemma elem_of_sorted_regions m r :
  r ∈ sorted_regions m <->
  ri_item r ∈ ordered_items m /\ item_payload (ri_item r) = P_CodeRegion (ri_fact r).
Proof. unfold sorted_regions. rewrite elem_of_std_sort_any. apply elem_of_region_items. Qed.

(** Any two regions are swept in one of the two orders. *)
Lemma regions_comparable m x y :
  x ∈ sorted_regions m -> y ∈ sorted_regions m -> (ri_item x).1 <> (ri_item y).1 ->
  before (sorted_regions m) x y \/ before (sorted_regions m) y x.
Proof.
  intros Hx Hy Hne. rewrite !(before_sorted _ _ region_order_asym (sorted_regions_sorted m)).
  destruct (lt_cases (pair_lt Z.ltb lt2) (region_key x) (region_key y)) as [H|[H|H]]; [left|exfalso|right].
  - done.
  - unfold region_key in H. injection H. lia.
  - done.
Qed.

(** ** [detect_conflicts] finds what comparing all pairs finds *)

Definition payload_at (m : omap bytes EvidenceRecord) (id : option bytes) : FactPayload :=
  match id with
  | Some key => match map_find bytes_lt key m with
                | Some r => er_payload r
                | None => P_CodeRegion {| cr_start := 0; cr_end := 0; cr_kind := CodeRegionKind_Unknown |}
                end
  | None => P_CodeRegion {| cr_start := 0; cr_end := 0; cr_kind := CodeRegionKind_Unknown |}
  end.

Lemma record_digest key r : record_ok key r -> fallback_digest (er_payload r) = sha256_bytes key.
Proof.
  intros (Hk & _ & Hv & _). unfold fallback_digest, payload_digest.
  by rewrite (encode_payload_valid _ Hv), Hk.
Qed.

Lemma item_ref_at m i : records_ok m -> i ∈ ordered_items m -> ref_at (payload_at m) (item_ref i).
Proof.
  intros [Hok _] Hi. unfold ref_at, item_ref. cbn [pr_identity pr_payload payload_at].
  apply item_entry in Hi. destruct i as [n [key r]]. cbn [fst snd] in *.
  by apply (map_find_elem bytes_lt) in Hi as ->.
Qed.

Lemma indexed_consistent m : records_ok m -> acc_consistent (payload_at m) (indexed_accumulator m).
Proof.
  intros Hok id d. unfold indexed_accumulator. cbn [ca_digests].
  assert (forall l, (forall e, e ∈ l -> e ∈ m) ->
    cached_digest id (map (fun entry => (Some entry.1, sha256_bytes entry.1)) l) = Some d ->
    exists key r, id = Some key /\ (key, r) ∈ m /\ d = sha256_bytes key) as H.
  { induction l as [|[key r] l IH]; intros Hl; cbn [map cached_digest fst]; [done|].
    case_bool_decide as E; [|by apply IH; set_solver]. intros [= <-].
    exists key, r. split_and!; [done|apply Hl; set_solver|done]. }
  intros Hc. destruct (H m ltac:(done) Hc) as (key & r & -> & Hin & ->).
  cbn [payload_at]. pose proof (proj2 Hok _ _ Hin) as Hr.
  apply (map_find_elem bytes_lt) in Hin; [|apply Hok]. rewrite Hin. symmetry. by apply record_digest.
Qed.

Definition scanning (m : omap bytes EvidenceRecord) (out : ConflictAccumulator) : Prop :=
  acc_consistent (payload_at m) out /\ ca_contradictions_only out = false.

Definition item_conflict (x y : Item) (c : EvidenceConflict) : Prop :=
  c ∈ conflicts_between false (item_payload x) (item_payload y).

Lemma compare_items_collect m x y out :
  records_ok m -> x ∈ ordered_items m -> y ∈ ordered_items m -> scanning m out ->
  scanning m (compare_items x y out) /\
  forall c, c ∈ ca_conflicts (compare_items x y out) <-> c ∈ ca_conflicts out \/ item_conflict x y c.
Proof.
  intros Hok Hx Hy [Hc Ho].
  destruct (compare_payloads_consistent (payload_at m) (item_ref x) (item_ref y) out Hc
    (item_ref_at _ _ Hok Hx) (item_ref_at _ _ Hok Hy)) as (H1 & H2 & H3).
  unfold compare_items. split; [by split; [|congruence]|]. intros c. rewrite H3, Ho, elem_of_app. done.
Qed.

(** One family of buckets. *)
Lemma bucket_collect m {K} (lt : K -> K -> bool) `{!StrictTotal lt} (key : FactPayload -> option K) out
    (Q : EvidenceConflict -> Prop) :
  records_ok m -> scanning m out /\ (forall c, c ∈ ca_conflicts out <-> Q c) ->
  let out' := for_buckets compare_items (bucket lt key (ordered_items m)) out in
  scanning m out' /\
  forall c, c ∈ ca_conflicts out' <->
    Q c \/ exists x y, before (ordered_items m) x y /\ key (item_payload x) <> None /\
                       key (item_payload x) = key (item_payload y) /\ item_conflict x y c.
Proof.
  intros Hok [Hs HQ]. cbn zeta.
  destruct (for_buckets_collect (scanning m) (fun i => i ∈ ordered_items m)
    (fun out c => c ∈ ca_conflicts out) compare_items item_conflict
    (fun x y s Hx Hy => compare_items_collect m x y s Hok Hx Hy)
    lt (fun i => key (item_payload i)) item_order (ordered_items m) out
    item_order_asym (items_sorted m)) as [H1 H2]; [done|done|].
  split; [done|]. intros c. unfold bucket. rewrite H2, HQ. done.
Qed.

Lemma region_conflicts_sym l r :
  conflicts_between false (P_CodeRegion l) (P_CodeRegion r) =
  conflicts_between false (P_CodeRegion r) (P_CodeRegion l).
Proof.
  unfold conflicts_between. cbn [payload_claims].
  assert (region_claims l r = region_claims r l) as ->.
  { unfold region_claims. cbn zeta. rewrite (Z.max_comm (cr_start l)), (Z.min_comm (cr_end l)).
    by replace (region_kinds_incompatible (cr_kind r) (cr_kind l))
      with (region_kinds_incompatible (cr_kind l) (cr_kind r))
      by (by destruct (cr_kind l), (cr_kind r)). }
  apply List.map_ext. intros c. apply conflict_of_sym.
Qed.

Lemma region_conflict_overlap l r c :
  c ∈ conflicts_between false (P_CodeRegion l) (P_CodeRegion r) ->
  cr_start l < cr_end r /\ cr_start r < cr_end l.
Proof.
  unfold conflicts_between. cbn [payload_claims]. unfold region_claims, claim_if. cbn zeta.
  destruct (Z.ltb_spec (Z.max (cr_start l) (cr_start r)) (Z.min (cr_end l) (cr_end r)));
    cbn [andb]; [intros _; lia|]. cbn. by intros ?%elem_of_nil.
Qed.

Definition same_key {K} (key : FactPayload -> option K) (p q : FactPayload) : Prop :=
  key p <> None /\ key p = key q.

(** Payloads about which something is claimed share a bucket, or are regions. *)
Definition same_bucket (p q : FactPayload) : Prop :=
  same_key code_target_key p q \/ same_key edge_key p q \/ same_key memory_value_key p q \/
  same_key string_key p q \/ same_key function_candidate_key p q \/
  same_key function_evidence_key p q \/ same_key dispatch_map_key p q \/
  same_key register_key p q \/ same_key call_key p q.

Lemma claim_if_inv b c x : x ∈ claim_if b c -> b = true.
Proof. destruct b; [done|]. by intros ?%elem_of_nil. Qed.

(** A claim shows that its condition held; the keys agree on what the condition compares. *)
Ltac claim_condition H :=
  apply claim_if_inv in H;
  rewrite ?andb_true_iff, ?orb_true_iff, ?Z.eqb_eq, ?bool_decide_eq_true in H.
Ltac keys_agree := split; [done|]; cbn; destruct_and?; congruence.

Lemma claims_same_bucket p q c :
  c ∈ payload_claims p q ->
  same_bucket p q \/ exists l r, p = P_CodeRegion l /\ q = P_CodeRegion r.
Proof.
  unfold same_bucket, same_key. intros Hc.
  destruct p as [l|l|l|l|l|l|l|l|l|l|l|l|l]; destruct q as [r|r|r|r|r|r|r|r|r|r|r|r|r];
    cbn [payload_claims] in Hc; try (by apply elem_of_nil in Hc); try (right; by eauto); left.
  - unfold code_target_claims in Hc. claim_condition Hc. left. keys_agree.
  - unfold branch_claims in Hc. claim_condition Hc. right; left. keys_agree.
  - unfold branch_cfg_claims in Hc. claim_condition Hc. right; left. keys_agree.
  - unfold memory_value_claims in Hc. claim_condition Hc. do 2 right; left. keys_agree.
  - unfold string_claims in Hc. claim_condition Hc. do 3 right; left. keys_agree.
  - unfold function_candidate_claims in Hc. claim_condition Hc. do 4 right; left. keys_agree.
  - unfold trait_claims in Hc. destruct (Z.eqb_spec (ft_function l) (ft_function r));
      [|by apply elem_of_nil in Hc]. do 5 right; left. keys_agree.
  - unfold trait_outcome_claims in Hc. claim_condition Hc. do 5 right; left. keys_agree.
  - unfold dispatch_claims in Hc. destruct (Z.eqb_spec (dm_site l) (dm_site r));
      [|by apply elem_of_nil in Hc]. do 6 right; left. keys_agree.
  - unfold cfg_branch_claims in Hc. claim_condition Hc. right; left. keys_agree.
  - unfold cfg_claims in Hc. claim_condition Hc. right; left. keys_agree.
  - unfold outcome_trait_claims in Hc. claim_condition Hc. do 5 right; left. keys_agree.
  - unfold outcome_claims in Hc. claim_condition Hc. do 5 right; left. keys_agree.
  - unfold register_claims in Hc. claim_condition Hc. do 7 right; left. keys_agree.
  - unfold call_claims in Hc. destruct (Z.eqb_spec (co_source l) (co_source r));
      [|by apply elem_of_nil in Hc]. do 8 right. keys_agree.
Qed.

Lemma conflict_claim only p q c :
  c ∈ conflicts_between only p q -> exists cl, cl ∈ payload_claims p q.
Proof.
  unfold conflicts_between. intros (cl & _ & [_ Hcl]%elem_of_filter)%list_elem_of_fmap. by exists cl.
Qed.

(** The sweep adds the conflicts of all pairs of regions. *)
Lemma sweep_conflicts m out (Q : EvidenceConflict -> Prop) :
  records_ok m -> scanning m out /\ (forall c, c ∈ ca_conflicts out <-> Q c) ->
  let out' := sweep (fun l r => compare_items (ri_item l) (ri_item r)) (sorted_regions m) out in
  scanning m out' /\
  forall c, c ∈ ca_conflicts out' <->
    Q c \/ exists x y l r, before (ordered_items m) x y /\ item_payload x = P_CodeRegion l /\
                           item_payload y = P_CodeRegion r /\ item_conflict x y c.
Proof.
  intros Hok [Hs HQ]. cbn zeta.
  destruct (sweep_collect (scanning m) (fun out c => c ∈ ca_conflicts out)
    (fun r => r ∈ sorted_regions m) (fun l r => compare_items (ri_item l) (ri_item r))
    (fun x y => item_conflict (ri_item x) (ri_item y))) with (l := sorted_regions m) (s := out)
    as [H1 H2]; [|done|apply sorted_regions_starts|done|].
  { intros x y s [Hx _]%elem_of_sorted_regions [Hy _]%elem_of_sorted_regions.
    by apply compare_items_collect. }
  split; [done|]. intros c. rewrite H2, HQ. apply or_iff_compat_l.
  pose proof (before_sorted _ _ item_order_asym (items_sorted m)) as Hbi. split.
  - intros (x & y & Hb & _ & Hc). pose proof Hb as [Hx Hy]%before_elem.
    apply elem_of_sorted_regions in Hx as [Hx Hpx], Hy as [Hy Hpy].
    assert ((ri_item x).1 <> (ri_item y).1) as Hne.
    { intros Heq. pose proof (item_index_inj _ _ _ Hx Hy Heq) as Hxy.
      assert (x = y) as -> by (destruct x, y; cbn in *; congruence).
      apply (before_sorted _ _ region_order_asym (sorted_regions_sorted m)) in Hb as (_ & _ & Ho).
      by eapply region_order_asym. }
    destruct (decide ((ri_item x).1 < (ri_item y).1)%nat).
    + exists (ri_item x), (ri_item y), (ri_fact x), (ri_fact y). split_and!; [by apply Hbi|done..].
    + exists (ri_item y), (ri_item x), (ri_fact y), (ri_fact x). split_and!; [|done|done|].
      * apply Hbi. unfold item_order. split_and!; [done|done|lia].
      * unfold item_conflict in *. rewrite Hpx, Hpy in *. by rewrite region_conflicts_sym.
  - intros (x & y & l & r & Hb & Hpx & Hpy & Hc). apply Hbi in Hb as (Hx & Hy & Ho).
    set (rx := {| ri_item := x; ri_fact := l |}). set (ry := {| ri_item := y; ri_fact := r |}).
    assert (rx ∈ sorted_regions m) as Hrx by by apply elem_of_sorted_regions.
    assert (ry ∈ sorted_regions m) as Hry by by apply elem_of_sorted_regions.
    unfold item_conflict in *. rewrite Hpx, Hpy in Hc.
    pose proof (region_conflict_overlap _ _ _ Hc) as [? ?].
    destruct (regions_comparable m rx ry Hrx Hry) as [Hb|Hb]; [unfold item_order in Ho; cbn; lia|..].
    + exists rx, ry. split_and!; [done|done|]. cbn. by rewrite Hpx, Hpy.
    + exists ry, rx. split_and!; [done|done|]. cbn. by rewrite Hpx, Hpy, region_conflicts_sym.
Qed.

Lemma detect_conflicts_all_pairs store c :
  records_ok (records_ store) ->
  c ∈ detect_conflicts store <->
  exists x y, before (ordered_items (records_ store)) x y /\ item_conflict x y c.
Proof.
  intros Hok. unfold detect_conflicts. cbn zeta.
  rewrite (elem_of_sort_unique conflict_less _ conflicts_equal_iff).
  fold (sorted_regions (records_ store)). set (m := records_ store) in *.
  assert (scanning m (indexed_accumulator m) /\
          forall c, c ∈ ca_conflicts (indexed_accumulator m) <-> False) as H0.
  { split; [by split; [apply indexed_consistent|]|]. intros d. cbn. split; [apply elem_of_nil|done]. }
  apply (bucket_collect m lt2 code_target_key _ _ Hok) in H0.
  apply (bucket_collect m lt2 edge_key _ _ Hok) in H0.
  apply (bucket_collect m (pair_lt Z.ltb lt2) memory_value_key _ _ Hok) in H0.
  apply (bucket_collect m Z.ltb string_key _ _ Hok) in H0.
  apply (bucket_collect m Z.ltb function_candidate_key _ _ Hok) in H0.
  apply (bucket_collect m Z.ltb function_evidence_key _ _ Hok) in H0.
  apply (bucket_collect m Z.ltb dispatch_map_key _ _ Hok) in H0.
  apply (bucket_collect m (pair_lt Z.ltb (pair_lt Z.ltb string_lt)) register_key _ _ Hok) in H0.
  apply (bucket_collect m Z.ltb call_key _ _ Hok) in H0.
  apply (sweep_conflicts m _ _ Hok) in H0. destruct H0 as [_ H0]. cbn zeta in H0. rewrite H0.
  clear H0. split.
  - intros [H|(x & y & l & r & Hb & _ & _ & Hc)]; [|by exists x, y].
    repeat (destruct H as [H|H]; [|destruct H as (x & y & ?); destruct_and!; by exists x, y]).
    done.
  - intros (x & y & Hb & Hc). pose proof Hc as [cl Hcl]%conflict_claim.
    apply claims_same_bucket in Hcl as [Hs|(l & r & Hpx & Hpy)].
    + unfold same_bucket, same_key in Hs. left.
      repeat (destruct Hs as [Hs|Hs]; [destruct Hs; repeat first [right; by exists x, y|left]|]).
      destruct Hs. right. by exists x, y.
    + right. by exists x, y, l, r.
Qed.

(** ** [contradicted_payload_digests] names the payloads of the contradictions *)

Definition item_digest (i : Item) : FactDigest := sha256_bytes (item_key i).

Definition scan_sorted (scan : ContradictionScan) : Prop :=
  StrictSorted digest_lt (cs_contradicted scan).

Definition pair_digest (x y : Item) (d : FactDigest) : Prop := d = item_digest x \/ d = item_digest y.

Lemma mark_collect i scan :
  scan_sorted scan ->
  scan_sorted (mark i scan) /\
  forall d, d ∈ cs_contradicted (mark i scan) <-> d ∈ cs_contradicted scan \/ d = item_digest i.
Proof.
  intros Hs. unfold mark, scan_sorted, item_digest.
  destruct (existsb _ _); cbn [cs_contradicted]; (split; [by apply (set_insert_sorted digest_lt)|]);
    intros d; rewrite (elem_of_set_insert digest_lt); tauto.
Qed.

Lemma mark_pair_collect x y scan :
  scan_sorted scan ->
  scan_sorted (mark_pair x y scan) /\
  forall d, d ∈ cs_contradicted (mark_pair x y scan) <-> d ∈ cs_contradicted scan \/ pair_digest x y d.
Proof.
  intros Hs. unfold mark_pair, pair_digest. destruct (mark_collect x scan Hs) as [H1 H2].
  destruct (mark_collect y _ H1) as [H3 H4]. split; [done|]. intros d. rewrite H4, H2. tauto.
Qed.

Lemma mark_all_collect l scan :
  scan_sorted scan ->
  scan_sorted (mark_all l scan) /\
  forall d, d ∈ cs_contradicted (mark_all l scan) <->
            d ∈ cs_contradicted scan \/ exists x, x ∈ l /\ d = item_digest x.
Proof.
  unfold mark_all. revert scan. induction l as [|x l IH]; intros scan Hs; cbn [foldl].
  - split; [done|]. intros d. split; [by left|]. intros [?|(x & ?%elem_of_nil & _)]; done.
  - destruct (mark_collect x scan Hs) as [H1 H2]. destruct (IH _ H1) as [H3 H4].
    split; [done|]. intros d. rewrite H4, H2. setoid_rewrite elem_of_cons. naive_solver.
Qed.

Lemma examine_collect f x y scan :
  scan_sorted scan ->
  scan_sorted (examine f x y scan) /\
  forall d, d ∈ cs_contradicted (examine f x y scan) <->
            d ∈ cs_contradicted scan \/
            (f (item_payload x) (item_payload y) = true /\ pair_digest x y d).
Proof.
  intros Hs. unfold examine. cbn zeta. destruct (f _ _).
  - destruct (mark_pair_collect x y (count_relation scan) Hs) as [H1 H2]. split; [done|].
    intros d. rewrite H2. cbn [count_relation cs_contradicted]. naive_solver.
  - split; [done|]. intros d. cbn [count_relation cs_contradicted]. naive_solver.
Qed.

(** The marks that two lists of items earn when neither is empty. *)
Lemma mark_both_collect l1 l2 scan :
  scan_sorted scan ->
  let scan' := if negb (zlen l1 =? 0) && negb (zlen l2 =? 0)
               then mark_all l2 (mark_all l1 (count_relation scan)) else scan in
  scan_sorted scan' /\
  forall d, d ∈ cs_contradicted scan' <->
            d ∈ cs_contradicted scan \/ exists x y, x ∈ l1 /\ y ∈ l2 /\ pair_digest x y d.
Proof.
  intros Hs. cbn zeta. destruct l1 as [|a l1].
  { split; [done|]. intros d. split; [by left|]. intros [?|(x & y & ?%elem_of_nil & _)]; done. }
  destruct l2 as [|b l2].
  { rewrite andb_false_r. split; [done|]. intros d. split; [by left|].
    intros [?|(x & y & _ & ?%elem_of_nil & _)]; done. }
  rewrite !zlen_eqb_ne by done. cbn [negb andb].
  destruct (mark_all_collect (a :: l1) (count_relation scan) Hs) as [H1 H2].
  destruct (mark_all_collect (b :: l2) _ H1) as [H3 H4]. split; [done|]. intros d.
  rewrite H4, H2. cbn [count_relation cs_contradicted]. unfold pair_digest. split.
  - intros [[?|(x & Hx & ->)]|(y & Hy & ->)]; [by left| |]; right.
    + exists x, b. split_and!; [done|by left|by left].
    + exists a, y. split_and!; [by left|done|by right].
  - intros [?|(x & y & Hx & Hy & [->| ->])]; [by left; left| |]; [left; right|right]; eauto.
Qed.

(** Two items of a bucket that disagree on whether the function returns. *)
Definition returns_clash (x y : Item) : Prop :=
  (is_returns (item_payload x) = true \/ is_returned_outcome (item_payload x) = true) /\
  is_no_return (item_payload y) = true.

Lemma examine_function_collect b scan :
  scan_sorted scan ->
  scan_sorted (examine_function b scan) /\
  forall d, d ∈ cs_contradicted (examine_function b scan) <->
            d ∈ cs_contradicted scan \/
            exists x y, x ∈ b /\ y ∈ b /\ returns_clash x y /\ pair_digest x y d.
Proof.
  intros Hs. unfold examine_function. cbn zeta.
  set (returns := List.filter (fun i => is_returns (item_payload i)) b).
  set (no_returns := List.filter (fun i => is_no_return (item_payload i)) b).
  set (outcomes := List.filter (fun i => is_returned_outcome (item_payload i)) b).
  destruct (mark_both_collect returns no_returns scan Hs) as [H1 H2]. cbn zeta in *.
  destruct (mark_both_collect no_returns outcomes _ H1) as [H3 H4]. cbn zeta in *.
  split; [done|]. intros d. rewrite H4, H2. unfold returns, no_returns, outcomes, returns_clash, pair_digest.
  setoid_rewrite elem_of_filter. split.
  - intros [[?|(x & y & [? ?] & [? ?] & Hd)]|(x & y & [? ?] & [? ?] & Hd)]; [by left|right|right].
    + exists x, y. auto 10.
    + exists y, x. split_and!; [done|done|by right|done|tauto].
  - intros [?|(x & y & ? & ? & [[?|?] ?] & Hd)]; [by left; left|left; right|right].
    + exists x, y. auto 10.
    + exists y, x. split_and!; [done..|tauto].
Qed.

(** *** Agreement with [clash] *)

Lemma same_code_target_clash p q :
  same_key code_target_key p q -> code_targets_clash p q = true <-> target_clash p q.
Proof.
  intros [Hn Hk]. destruct p as [l| | | | | | | | | | | |], q as [r| | | | | | | | | | | |]; try done.
  cbn [code_target_key] in Hk. injection Hk as Hf Hkind. assert (ct_kind l = ct_kind r) by exact (to_u8_inj (ct_kind l) (ct_kind r) Hkind).
  cbn. unfold target_clash.
  rewrite andb_true_iff, orb_true_iff, negb_true_iff, Z.eqb_neq. naive_solver.
Qed.

Lemma same_edge_clash p q : same_key edge_key p q -> edges_clash p q = true <-> edge_clash p q.
Proof.
  intros [Hn Hk]. unfold edges_clash, edge_clash.
  destruct p, q; try done; cbn in *; injection Hk as H1 H2; rewrite opposite_reachability_iff, H1, H2;
    (split; [eauto 10|by intros (e & s & t & [= <- <-] & [= <-] & Ho)]).
Qed.

Lemma returns_clash_iff x y :
  same_key function_evidence_key (item_payload x) (item_payload y) ->
  returns_clash x y \/ returns_clash y x <-> return_clash (item_payload x) (item_payload y).
Proof.
  intros [Hn Hk]. unfold returns_clash, return_clash.
  destruct (item_payload x), (item_payload y); try done; cbn in *; injection Hk as Hk;
    rewrite ?bool_decide_eq_true; naive_solver congruence.
Qed.

(** A family of pair buckets marks the clashing pairs. *)
Lemma examine_buckets_collect m {K} (lt : K -> K -> bool) `{!StrictTotal lt}
    (key : FactPayload -> option K) (f : FactPayload -> FactPayload -> bool)
    (rel : FactPayload -> FactPayload -> Prop) scan (Q : FactDigest -> Prop) :
  (forall x y, x ∈ ordered_items m -> y ∈ ordered_items m ->
     same_key key (item_payload x) (item_payload y) ->
     f (item_payload x) (item_payload y) = true <-> rel (item_payload x) (item_payload y)) ->
  (forall x y, x ∈ ordered_items m -> y ∈ ordered_items m ->
     rel (item_payload x) (item_payload y) -> same_key key (item_payload x) (item_payload y)) ->
  scan_sorted scan /\ (forall d, d ∈ cs_contradicted scan <-> Q d) ->
  let scan' := for_buckets (examine f) (bucket lt key (ordered_items m)) scan in
  scan_sorted scan' /\
  forall d, d ∈ cs_contradicted scan' <->
    Q d \/ exists x y, before (ordered_items m) x y /\ rel (item_payload x) (item_payload y) /\
                       pair_digest x y d.
Proof.
  intros Hf Hrel [Hs HQ]. cbn zeta.
  destruct (for_buckets_collect scan_sorted (fun _ : Item => True)
    (fun scan d => d ∈ cs_contradicted scan) (examine f)
    (fun x y d => f (item_payload x) (item_payload y) = true /\ pair_digest x y d)
    (fun x y s _ _ => examine_collect f x y s) lt (fun i => key (item_payload i)) item_order
    (ordered_items m) scan item_order_asym (items_sorted m)) as [H1 H2]; [done|done|].
  split; [done|]. intros d. unfold bucket. rewrite H2, HQ. apply or_iff_compat_l. split.
  - intros (x & y & Hb & Hn & Heq & Hc & Hd). exists x, y. split_and!; [done| |done].
    pose proof Hb as [Hx Hy]%before_elem. by apply Hf.
  - intros (x & y & Hb & Hr & Hd). exists x, y. pose proof Hb as [Hx Hy]%before_elem.
    destruct (Hrel x y Hx Hy Hr) as [? ?]. split_and!; [done..| |done]. by apply Hf.
Qed.

Lemma function_buckets_collect m scan (Q : FactDigest -> Prop) :
  scan_sorted scan /\ (forall d, d ∈ cs_contradicted scan <-> Q d) ->
  let scan' := foldl (fun scan bucket => examine_function bucket.2 scan) scan
                 (bucket Z.ltb function_evidence_key (ordered_items m)) in
  scan_sorted scan' /\
  forall d, d ∈ cs_contradicted scan' <->
    Q d \/ exists x y, before (ordered_items m) x y /\
                       return_clash (item_payload x) (item_payload y) /\ pair_digest x y d.
Proof.
  intros [Hs HQ]. cbn zeta.
  assert (forall buckets scan, scan_sorted scan ->
    let scan' := foldl (fun scan (b : Z * list Item) => examine_function b.2 scan) scan buckets in
    scan_sorted scan' /\
    forall d, d ∈ cs_contradicted scan' <-> d ∈ cs_contradicted scan \/
      exists k b x y, (k, b) ∈ buckets /\ x ∈ b /\ y ∈ b /\ returns_clash x y /\ pair_digest x y d) as H.
  { clear. induction buckets as [|[k b] l IH]; intros scan Hs; cbn [foldl snd]; cbn zeta.
    - split; [done|]. intros d. split; [by left|].
      intros [?|(k & b & x & y & ?%elem_of_nil & _)]; done.
    - destruct (examine_function_collect b scan Hs) as [H1 H2].
      destruct (IH _ H1) as [H3 H4]. cbn zeta in *. split; [done|]. intros d. rewrite H4, H2. split.
      + intros [[?|(x & y & ?)]|(k' & b' & x & y & ? & ?)]; [by left|right..].
        * exists k, b, x, y. split; [by left|done].
        * exists k', b', x, y. split; [by right|done].
      + intros [?|(k' & b' & x & y & Hin & Hxy)]; [by left; left|].
        apply elem_of_cons in Hin as [[= -> ->]|Hin]; [left; right; by exists x, y|right].
        by exists k', b', x, y. }
  destruct (H (bucket Z.ltb function_evidence_key (ordered_items m)) scan Hs) as [H1 H2].
  split; [done|]. intros d. rewrite H2, HQ. apply or_iff_compat_l. clear H H1 H2.
  pose proof (before_sorted _ _ item_order_asym (items_sorted m)) as Hbi. unfold bucket. split.
  - intros (k & b & x & y & ->%(bucket_by_elem Z.ltb) & Hx & Hy & Hc & Hd).
    apply elem_of_filter in Hx as [Hkx%(in_bucket_iff Z.ltb) Hx].
    apply elem_of_filter in Hy as [Hky%(in_bucket_iff Z.ltb) Hy].
    assert (same_key function_evidence_key (item_payload x) (item_payload y)) as Hsame
      by (split; congruence).
    assert (return_clash (item_payload x) (item_payload y)) as Hrc
      by (apply returns_clash_iff; [done|by left]).
    assert (x.1 <> y.1) as Hne.
    { intros Heq. pose proof (item_index_inj _ _ _ Hx Hy Heq) as ->.
      destruct Hc as [Hc1 Hc2]. destruct (item_payload y); try done. cbn in *.
      rewrite bool_decide_eq_true in *. naive_solver congruence. }
    destruct (decide (x.1 < y.1)%nat).
    + exists x, y. split_and!; [by apply Hbi|done|done].
    + exists y, x. split_and!.
      * apply Hbi. unfold item_order. split_and!; [done|done|lia].
      * unfold return_clash in *. naive_solver.
      * unfold pair_digest in *. tauto.
  - intros (x & y & Hb & Hrc & Hd). pose proof Hb as [Hx Hy]%before_elem.
    assert (same_key function_evidence_key (item_payload x) (item_payload y)) as [Hn Hk].
    { destruct Hrc as (f & Hf). unfold same_key.
      destruct Hf as [[Hp Hq]|[Hp Hq]]; destruct (item_payload x); try done;
        destruct (item_payload y); try done; cbn in *; (split; [done|]); destruct_and?; congruence. }
    destruct (function_evidence_key (item_payload x)) as [k|] eqn:Ek; [|done].
    assert (x ∈ List.filter (in_bucket Z.ltb (fun i : Item => function_evidence_key (item_payload i)) k)
                  (ordered_items m) /\
            y ∈ List.filter (in_bucket Z.ltb (fun i : Item => function_evidence_key (item_payload i)) k)
                  (ordered_items m)) as [Hxb Hyb].
    { rewrite !elem_of_filter, !(in_bucket_iff Z.ltb). done. }
    pose proof (bucket_by_some Z.ltb (fun i : Item => function_evidence_key (item_payload i))
      (ordered_items m) k x Hx Ek) as Hbk.
    apply returns_clash_iff in Hrc as [Hc|Hc]; [| |by split; [rewrite Ek|congruence]].
    + eexists k, _, x, y. split_and!; [exact Hbk|done..].
    + eexists k, _, y, x. split_and!; [exact Hbk|done..|]. unfold pair_digest in *. tauto.
Qed.

Lemma target_clash_same_key p q : target_clash p q -> same_key code_target_key p q.
Proof. intros (l & r & -> & -> & H1 & H2 & _). split; [done|]. cbn. by rewrite H1, H2. Qed.

Lemma edge_clash_same_key p q : edge_clash p q -> same_key edge_key p q.
Proof.
  intros (e & s & t & Hp & Hq & _). unfold same_key.
  destruct p; try done; destruct q; try done; cbn in *; split; congruence.
Qed.

Lemma dispatch_clash_same_key p q : dispatch_clash p q -> same_key dispatch_map_key p q.
Proof. intros (l & r & -> & -> & H & _). split; [done|]. cbn. by rewrite H. Qed.

Lemma same_dispatch_clash p q :
  validate_payload q = Ok tt -> same_key dispatch_map_key p q ->
  dispatch_clashes p q = true <-> dispatch_clash p q.
Proof.
  intros Hv [Hn Hk]. destruct p; try done. destruct q; try done.
  cbn [dispatch_clashes validate_payload] in *. by apply dispatch_contradict_iff, valid_selectors_unique.
Qed.

Lemma item_record_ok m i : records_ok m -> i ∈ ordered_items m -> record_ok (item_key i) i.2.2.
Proof. intros [_ Hr] Hi%item_entry. apply Hr. by destruct i as [n [k r]]. Qed.

Lemma item_valid m i :
  records_ok m -> i ∈ ordered_items m -> validate_payload (item_payload i) = Ok tt.
Proof. intros Hok Hi. by apply (item_record_ok m i). Qed.

Lemma valid_region_nonempty f : validate_payload (P_CodeRegion f) = Ok tt -> cr_start f < cr_end f.
Proof.
  cbn [validate_payload]. intros H. inv_ok H. apply negb_false_iff in Hg0. unfold range_valid in Hg0. lia.
Qed.

(** Regions that start in order and before the other's end share a byte. *)
Lemma swept_clash_iff l r :
  cr_start l <= cr_start r -> cr_start r < cr_end r -> cr_start r < cr_end l ->
  region_kinds_incompatible (cr_kind l) (cr_kind r) = true <->
  region_clash (P_CodeRegion l) (P_CodeRegion r).
Proof.
  intros H1 H2 H3. rewrite region_kinds_incompatible_iff. split.
  - intros H. exists l, r. split_and!; [done..| |done]. exists (cr_start r). lia.
  - by intros (l' & r' & [= <-] & [= <-] & _ & H).
Qed.

Lemma region_clash_sym p q : region_clash p q -> region_clash q p.
Proof.
  intros (l & r & -> & -> & (a & ? & ?) & Hk). exists r, l. split_and!; [done..|by exists a|tauto].
Qed.

Lemma region_scan_collect m scan (Q : FactDigest -> Prop) :
  records_ok m -> scan_sorted scan /\ (forall d, d ∈ cs_contradicted scan <-> Q d) ->
  let scan' := sweep (fun l r scan =>
      let scan := count_relation scan in
      if region_kinds_incompatible (cr_kind (ri_fact l)) (cr_kind (ri_fact r))
      then mark_pair (ri_item l) (ri_item r) scan else scan) (sorted_regions m) scan in
  scan_sorted scan' /\
  forall d, d ∈ cs_contradicted scan' <->
    Q d \/ exists x y, before (ordered_items m) x y /\
                       region_clash (item_payload x) (item_payload y) /\ pair_digest x y d.
Proof.
  intros Hok [Hs HQ]. cbn zeta.
  destruct (sweep_collect scan_sorted (fun scan d => d ∈ cs_contradicted scan)
    (fun r => r ∈ sorted_regions m)
    (fun l r scan => if region_kinds_incompatible (cr_kind (ri_fact l)) (cr_kind (ri_fact r))
       then mark_pair (ri_item l) (ri_item r) (count_relation scan) else count_relation scan)
    (fun x y d => region_kinds_incompatible (cr_kind (ri_fact x)) (cr_kind (ri_fact y)) = true /\
                  pair_digest (ri_item x) (ri_item y) d))
    with (l := sorted_regions m) (s := scan) as [H1 H2];
    [|done|apply sorted_regions_starts|done|].
  { intros x y s _ _ Hs'. destruct (region_kinds_incompatible _ _).
    - destruct (mark_pair_collect (ri_item x) (ri_item y) (count_relation s) Hs') as [Ha Hb].
      split; [done|]. intros d. rewrite Hb. cbn [count_relation cs_contradicted]. naive_solver.
    - split; [done|]. intros d. cbn [count_relation cs_contradicted]. naive_solver. }
  split; [done|]. intros d. rewrite H2, HQ. apply or_iff_compat_l. clear H1 H2.
  pose proof (before_sorted _ _ item_order_asym (items_sorted m)) as Hbi.
  pose proof (before_sorted _ _ region_order_asym (sorted_regions_sorted m)) as Hbr.
  assert (forall x y, before (sorted_regions m) x y -> starts_before x y) as Hst.
  { intros x y (_ & _ & H)%Hbr. unfold region_order, region_lt, pair_lt in H. cbn in H.
    unfold starts_before. destruct (Z.ltb_spec (cr_start (ri_fact x)) (cr_start (ri_fact y))); [lia|].
    destruct (Z.ltb_spec (cr_start (ri_fact y)) (cr_start (ri_fact x))); [done|lia]. }
  split.
  - intros (x & y & Hb & Hlt & Hk & Hd). pose proof (Hst _ _ Hb) as Hsb. unfold starts_before in Hsb.
    apply Hbr in Hb as (Hx & Hy & Ho). apply elem_of_sorted_regions in Hx as [Hx Hpx], Hy as [Hy Hpy].
    assert (cr_start (ri_fact y) < cr_end (ri_fact y)) as Hne.
    { apply valid_region_nonempty. rewrite <- Hpy. by eapply item_valid. }
    apply swept_clash_iff in Hk; [|done..]. rewrite <- Hpx, <- Hpy in Hk.
    assert ((ri_item x).1 <> (ri_item y).1) as Hidx.
    { intros Heq. pose proof (item_index_inj _ _ _ Hx Hy Heq) as Hxy. rewrite Hxy in Hk.
      eapply clash_irrefl; [by eapply item_valid; [|exact Hy]|]. by do 4 right. }
    destruct (decide ((ri_item x).1 < (ri_item y).1)%nat).
    + exists (ri_item x), (ri_item y). split_and!; [by apply Hbi|done..].
    + exists (ri_item y), (ri_item x). split_and!; [|by apply region_clash_sym|unfold pair_digest in *; tauto].
      apply Hbi. unfold item_order. split_and!; [done|done|lia].
  - intros (x & y & Hb & Hc & Hd). apply Hbi in Hb as (Hx & Hy & Ho).
    pose proof (item_valid _ _ Hok Hx) as Hvx. pose proof (item_valid _ _ Hok Hy) as Hvy.
    pose proof Hc as (l & r & Hpx & Hpy & (a & ? & ?) & _). rewrite Hpx, Hpy in *.
    apply valid_region_nonempty in Hvx, Hvy.
    set (rx := {| ri_item := x; ri_fact := l |}). set (ry := {| ri_item := y; ri_fact := r |}).
    assert (rx ∈ sorted_regions m) as Hrx by by apply elem_of_sorted_regions.
    assert (ry ∈ sorted_regions m) as Hry by by apply elem_of_sorted_regions.
    destruct (regions_comparable m rx ry Hrx Hry) as [Hb|Hb]; [unfold item_order in Ho; cbn; lia|..];
      pose proof (Hst _ _ Hb) as Hsb; unfold starts_before in Hsb; cbn in Hsb.
    + exists rx, ry. split_and!; [done|cbn; lia| |done]. cbn. apply swept_clash_iff; [lia..|done].
    + exists ry, rx. split_and!; [done|cbn; lia| |unfold pair_digest in *; cbn; tauto].
      cbn. apply swept_clash_iff; [lia..|by apply region_clash_sym].
Qed.

Lemma contradicted_all_pairs store d :
  records_ok (records_ store) ->
  StrictSorted digest_lt (contradicted_payload_digests store).1 /\
  (d ∈ (contradicted_payload_digests store).1 <->
   exists x y, before (ordered_items (records_ store)) x y /\
               clash (item_payload x) (item_payload y) /\ pair_digest x y d).
Proof.
  intros Hok. unfold contradicted_payload_digests, contradiction_scan. cbn zeta. cbn [fst].
  fold (sorted_regions (records_ store)). set (m := records_ store) in *.
  match goal with |- context [for_buckets (examine code_targets_clash) _ ?s] => set (s0 := s) end.
  assert (scan_sorted s0 /\ forall d, d ∈ cs_contradicted s0 <-> False) as H0.
  { split; [constructor|]. intros e. split; [apply elem_of_nil|done]. }
  apply (examine_buckets_collect m lt2 code_target_key code_targets_clash target_clash) in H0;
    [|intros; by apply same_code_target_clash|intros; by apply target_clash_same_key].
  apply (examine_buckets_collect m lt2 edge_key edges_clash edge_clash) in H0;
    [|intros; by apply same_edge_clash|intros; by apply edge_clash_same_key].
  apply (function_buckets_collect m) in H0.
  apply (examine_buckets_collect m Z.ltb dispatch_map_key dispatch_clashes dispatch_clash) in H0;
    [|intros; apply same_dispatch_clash; [by eapply item_valid|done]
     |intros; by apply dispatch_clash_same_key].
  apply (region_scan_collect m _ _ Hok) in H0. cbn zeta in H0. destruct H0 as [Hs H0].
  split; [done|]. rewrite H0. unfold clash. clear. split.
  - intros [[[[[H|H]|H]|H]|H]|H]; [done|..]; destruct H as (x & y & Hb & Hc & Hd);
      exists x, y; split_and!; try done; tauto.
  - intros (x & y & Hb & Hc & Hd). destruct Hc as [Hc|[Hc|[Hc|[Hc|Hc]]]].
    + do 4 left. right. by exists x, y.
    + do 3 left. right. by exists x, y.
    + do 2 left. right. by exists x, y.
    + left. right. by exists x, y.
    + right. by exists x, y.
Qed.

(** ** Conflicts of items *)

Lemma item_digest_eq m i :
  records_ok m -> i ∈ ordered_items m -> fallback_digest (item_payload i) = item_digest i.
Proof. intros Hok Hi. by apply record_digest, (item_record_ok m). Qed.

Lemma item_conflict_of m x y c :
  records_ok m -> x ∈ ordered_items m -> y ∈ ordered_items m ->
  c ∈ payload_claims (item_payload x) (item_payload y) ->
  item_conflict x y (conflict_of c (item_digest x) (item_digest y)).
Proof.
  intros Hok Hx Hy Hc. unfold item_conflict, conflicts_between.
  rewrite (item_digest_eq m x), (item_digest_eq m y) by done.
  apply list_elem_of_fmap. exists c. split; [done|]. by apply elem_of_filter.
Qed.

Lemma item_conflict_inv m x y d :
  records_ok m -> x ∈ ordered_items m -> y ∈ ordered_items m -> item_conflict x y d ->
  exists c, c ∈ payload_claims (item_payload x) (item_payload y) /\
            d = conflict_of c (item_digest x) (item_digest y).
Proof.
  intros Hok Hx Hy. unfold item_conflict, conflicts_between.
  rewrite (item_digest_eq m x), (item_digest_eq m y) by done.
  intros (c & -> & [_ Hc]%elem_of_filter)%list_elem_of_fmap. by exists c.
Qed.

Lemma conflict_of_severity c l r : ec_severity (conflict_of c l r) = cl_severity c.
Proof. unfold conflict_of, canonicalize_conflict_digests. by destruct (digest_lt _ _). Qed.

Lemma conflict_of_digests c x y d :
  ec_left (conflict_of c (item_digest x) (item_digest y)) = d \/
  ec_right (conflict_of c (item_digest x) (item_digest y)) = d <-> pair_digest x y d.
Proof.
  unfold conflict_of, canonicalize_conflict_digests, pair_digest.
  destruct (digest_lt _ _); cbn [ec_left ec_right]; split; intros [?|?]; auto.
Qed.

(** The scan marks the participants of the contradictions that detection reports. *)
Lemma contradicted_reported s d :
  records_ok (records_ s) ->
  d ∈ (contradicted_payload_digests s).1 <->
  exists c, c ∈ detect_conflicts s /\ ec_severity c = ConflictSeverity_Contradiction /\
            (ec_left c = d \/ ec_right c = d).
Proof.
  intros Hok.
  rewrite (proj2 (contradicted_all_pairs s d Hok)). setoid_rewrite (detect_conflicts_all_pairs s); [|done].
  split.
  - intros (x & y & Hb & Hc & Hd). pose proof Hb as [Hx Hy]%before_elem.
    apply contradicts_iff in Hc; [|by eapply item_valid].
    apply existsb_iff in Hc as (cl & Hcl & Hsev). apply bool_decide_eq_true in Hsev.
    exists (conflict_of cl (item_digest x) (item_digest y)). split; [|split].
    + exists x, y. split; [done|]. by apply (item_conflict_of _ _ _ _ Hok Hx Hy).
    + by rewrite conflict_of_severity.
    + by apply conflict_of_digests.
  - intros (c & (x & y & Hb & Hc) & Hsev & Hd). pose proof Hb as [Hx Hy]%before_elem.
    apply (item_conflict_inv _ _ _ _ Hok Hx Hy) in Hc as (cl & Hcl & ->).
    rewrite conflict_of_severity in Hsev. apply conflict_of_digests in Hd.
    exists x, y. split_and!; [done| |done]. apply contradicts_iff; [by eapply item_valid|].
    apply existsb_iff. exists cl. split; [done|]. by apply bool_decide_eq_true.
Qed.

(** ** Properties *)

(** C3: indexed conflict detection is exhaustive and exact.  In a well-formed store
    the reported conflicts, in strictly increasing canonical order and so without
    duplicates, are exactly those that comparing every pair of records would
    report: bucketing by subject and sweeping the regions lose and add nothing. *)
Theorem detect_conflicts_exact s :
  store_wf s ->
  StrictSorted conflict_less (detect_conflicts s) /\
  forall c, c ∈ detect_conflicts s <->
    exists k1 r1 k2 r2, before (records_ s) (k1, r1) (k2, r2) /\
      c ∈ conflicts_between false (er_payload r1) (er_payload r2).
Proof.
  intros [Hok _]. split.
  - unfold detect_conflicts. apply (sort_unique_strict conflict_less), conflicts_equal_iff.
  - intros c. rewrite detect_conflicts_all_pairs by done. split.
    + intros ([i [k1 r1]] & [j [k2 r2]] & Hb & Hc). exists k1, r1, k2, r2.
      split; [|done]. apply before_items. by exists i, j.
    + intros (k1 & r1 & k2 & r2 & Hb & Hc). apply before_items in Hb as (i & j & Hb).
      by exists (i, (k1, r1)), (j, (k2, r2)).
Qed.

Lemma detect_conflicts_exact_witness :
  store_wf (add sample_fact empty_store).2 /\
  StrictSorted conflict_less (detect_conflicts (add sample_fact empty_store).2).
Proof.
  assert (store_wf (add sample_fact empty_store).2) as H
    by (apply add_wf; [exact empty_store_wf|exact sample_fact_typed]).
  split; [exact H|]. exact (proj1 (detect_conflicts_exact _ H)).
Defined.

(** The fast path finds exactly the contradicted payloads.  The set of digests
    that automatic application consults holds a digest if and only if some conflict
    of contradiction severity reported by [detect_conflicts] has it on a side. *)
Theorem contradicted_digests_exact s :
  store_wf s ->
  StrictSorted digest_lt (contradicted_payload_digests s).1 /\
  forall d, d ∈ (contradicted_payload_digests s).1 <->
    exists c, c ∈ detect_conflicts s /\ ec_severity c = ConflictSeverity_Contradiction /\
              (ec_left c = d \/ ec_right c = d).
Proof.
  intros [Hok _]. split; [by apply (contradicted_all_pairs s zero_digest)|].
  intros d. by apply contradicted_reported.
Qed.

Lemma contradicted_digests_exact_witness :
  store_wf (add sample_fact empty_store).2 /\
  StrictSorted digest_lt (contradicted_payload_digests (add sample_fact empty_store).2).1.
Proof.
  assert (store_wf (add sample_fact empty_store).2) as H
    by (apply add_wf; [exact empty_store_wf|exact sample_fact_typed]).
  split; [exact H|]. exact (proj1 (contradicted_digests_exact _ H)).
Defined.
