(* ===== verification/ConflictQuery.v ===== *)
(** The incremental query [new_contradiction] of [src/src/evidence_store.cpp] with
    the index it caches, and [merge], whose report counts the conflicts. *)
From stdpp Require Import base numbers list strings option sets.
From Stdlib Require Import ZArith Init.Byte Sorting.Sorted Lia.
From S2P Require Import Prelude OrderedMap Loops Ledger FactTypes Sha256 Validate FactCodec.
From S2P Require Import Store Conflicts ConflictScan.

(** ** [new_contradiction] *)

(** [std::min_element]: the first element that no later one is below. *)
Definition min_element {A} (lt : A -> A -> bool) (l : list A) : option A :=
  match l with
  | [] => None
  | x :: r => Some (foldl (fun best y => if lt y best then y else best) x r)
  end.

(** Whether a record has an observation of the generation; zero selects all. *)
Definition record_active (generation : Z) (record : EvidenceRecord) : bool :=
  existsb (fun observation =>
    (generation =? 0) || (sc_generation (ev_scope observation) =? generation) ||
    (ev_proof observation == ProofKind_UserAsserted)) (er_observations record).

(** The index of the store, built from its records when there is none. *)
Definition build_index (m : omap bytes EvidenceRecord) : ContradictionIndex :=
  foldl (fun index entry => index_insert entry.1 entry.2 index) empty_index m.

Definition query_ref (payload : FactPayload) : PayloadRef :=
  {| pr_identity := None; pr_payload := payload |}.

(** The [compare] closure on the entry with key [entry]: the statistics counter and
    the accumulator. *)
Definition compare_entry (store : EvidenceStore) (payload : FactPayload) (key : bytes)
    (generation : Z) (state : Z * ConflictAccumulator) (entry : bytes) :
    Z * ConflictAccumulator :=
  let '(examined, accumulator) := state in
  match map_find bytes_lt entry (records_ store) with
  | None => (examined + 1, accumulator)
  | Some record =>
      if negb (record_active generation record) then (examined + 1, accumulator)
      else
        let record_ref := {| pr_identity := Some entry; pr_payload := er_payload record |} in
        if bytes_lt key entry
        then (examined + 1, compare_payloads (query_ref payload) record_ref accumulator)
        else (examined + 1, compare_payloads record_ref (query_ref payload) accumulator)
  end.

(** The entries from the lower bound on that start before the region ends, and
    among them those that overlap it with an incompatible kind. *)
Fixpoint region_candidates (store : EvidenceStore) (region : CodeRegionFact)
    (entries : omap Address bytes) : list bytes :=
  match entries with
  | [] => []
  | (start, entry) :: r =>
      if start <? cr_end region then
        match map_find bytes_lt entry (records_ store) with
        | Some {| er_payload := P_CodeRegion other |} =>
            if (cr_start region <? cr_end other) &&
               region_kinds_incompatible (cr_kind region) (cr_kind other)
            then entry :: region_candidates store region r
            else region_candidates store region r
        | _ => region_candidates store region r
        end
      else []
  end.

Definition region_lower (region : CodeRegionFact) (span : Z) : Address :=
  if span <? cr_start region then cr_start region - span else 0.

(** The entries that a query compares. *)
Definition candidates (store : EvidenceStore) (index : ContradictionIndex) (payload : FactPayload) :
    list bytes :=
  match index_subject payload with
  | Some grouped => default [] (map_find subject_lt grouped (ci_subjects index))
  | None =>
      match payload with
      | P_CodeRegion region =>
          region_candidates store region
            (map_lower_bound Z.ltb (region_lower region (ci_maximum_region_size index))
               (ci_regions index))
      | _ => []
      end
  end.

Definition contradiction_capable (payload : FactPayload) : bool :=
  match index_subject payload, payload with
  | Some _, _ => true
  | None, P_CodeRegion _ => true
  | None, _ => false
  end.

(** The query; it may build the index, so it returns the store as well. *)
Definition new_contradiction (payload : FactPayload) (generation : Z) (store : EvidenceStore) :
    option EvidenceConflict * ContradictionScanStats * EvidenceStore :=
  if negb (contradiction_capable payload) then (None, initial_stats 0, store)
  else
  match encode_payload payload with
  | Err _ => (None, initial_stats 0, store)
  | Ok key =>
      let existing_active :=
        match map_find bytes_lt key (records_ store) with
        | Some record => record_active generation record
        | None => false
        end in
      if existing_active then (None, initial_stats 0, store)
      else
        let '(index, indexed) :=
          match contradiction_index_ store with
          | Some index => (index, 0)
          | None => (build_index (records_ store), zlen (records_ store))
          end in
        let store := {| records_ := records_ store; contradiction_index_ := Some index |} in
        let accumulator := {| ca_contradictions_only := true; ca_conflicts := [];
                              ca_digests := [] |} in
        let '(examined, accumulator) :=
          foldl (compare_entry store payload key generation) (0, accumulator)
            (candidates store index payload) in
        let stats := {| st_records_indexed := indexed;
                        st_candidate_relations_examined := examined;
                        st_payload_digests_computed := zlen (ca_digests accumulator) |} in
        (min_element conflict_less (ca_conflicts accumulator), stats, store)
  end.

(** ** [merge] *)

Definition merge (other : EvidenceStore) (count_conflicts : bool) (store : EvidenceStore) :
    MergeReport * EvidenceStore :=
  let '(report, store) := merge_loop (flattened_facts other) empty_report store in
  ({| mr_inserted_records := mr_inserted_records report;
      mr_added_observations := mr_added_observations report;
      mr_duplicate_observations := mr_duplicate_observations report;
      mr_rejected_observations := mr_rejected_observations report;
      mr_records_after := record_count store;
      mr_observations_after := observation_count store;
      mr_conflicts_after :=
        if count_conflicts then zlen (detect_conflicts store) else 0;
      mr_errors := mr_errors report |}, store).

(** ** The lazily built index *)

Lemma map_set_last m key (r : EvidenceRecord) :
  map_ok bytes_lt (m ++ [(key, r)]) ->
  map_find bytes_lt key m = None /\ map_set bytes_lt key r m = m ++ [(key, r)].
Proof.
  intros Hok. apply (map_ok_app bytes_lt) in Hok as (Hc & Hm & _).
  assert (forall k v, (k, v) ∈ m -> bytes_lt k key = true) as Hlt.
  { intros k v Hin. apply (Hc k v key r); [done|by left]. }
  pose proof (map_emplace_last bytes_lt key r m Hm Hlt) as He. unfold map_emplace in He.
  assert (map_find bytes_lt key m = None) as Hf.
  { apply (map_find_None bytes_lt); [done|]. intros v Hin. pose proof (Hlt _ _ Hin) as H.
    by rewrite lt_irrefl in H. }
  by rewrite Hf in He.
Qed.

Lemma build_index_ok m : map_ok bytes_lt m -> index_ok m (build_index m).
Proof.
  intros Hok. unfold build_index.
  enough (forall m0 index, map_ok bytes_lt (m0 ++ m) -> index_ok m0 index ->
    index_ok (m0 ++ m) (foldl (fun index entry => index_insert entry.1 entry.2 index) index m)) as H.
  { apply (H []); [done|]. cbn [app].
    split_and!; cbn [empty_index ci_subjects ci_regions ci_maximum_region_size];
      [constructor| |constructor| |done|].
    - intros s key. cbn. split; [by intros ?%elem_of_nil|]. by intros (r & ?%elem_of_nil & _).
    - intros a key. split; [by intros ?%elem_of_nil|]. by intros (r & f & ?%elem_of_nil & _).
    - by intros key r f ?%elem_of_nil. }
  clear Hok. induction m as [|[key r] m IH]; intros m0 index Hok Hi; [by rewrite app_nil_r|].
  cbn [foldl fst snd]. replace (m0 ++ (key, r) :: m) with ((m0 ++ [(key, r)]) ++ m) in *
    by by rewrite <- app_assoc.
  apply IH; [done|]. apply (map_ok_app bytes_lt) in Hok as (_ & Hok & _).
  destruct (map_set_last _ _ _ Hok) as [Hf <-]. apply index_ok_insert; [|done|done].
  by apply (map_ok_app bytes_lt) in Hok as (_ & ? & _).
Qed.

(** ** Minimum *)

Lemma min_element_spec {A} (lt : A -> A -> bool) `{!StrictTotal lt} l :
  match min_element lt l with
  | Some x => x ∈ l /\ forall y, y ∈ l -> lt y x = false
  | None => l = []
  end.
Proof.
  destruct l as [|x l]; [done|]. cbn [min_element].
  assert (forall l best, let m := foldl (fun best y => if lt y best then y else best) best l in
    (m = best \/ m ∈ l) /\ lt best m = false /\ forall y, y ∈ l -> lt y m = false) as H.
  { clear x l. induction l as [|y l IH]; intros best; cbn [foldl].
    - split_and!; [by left|apply lt_irrefl|by intros y ?%elem_of_nil].
    - destruct (lt y best) eqn:E.
      + destruct (IH y) as (H1 & H2 & H3). split_and!.
        * right. destruct H1 as [->|H1]; set_solver.
        * eapply (le_by_trans lt); [exact H2|by apply lt_asym].
        * intros z [->|Hz]%elem_of_cons; [done|by apply H3].
      + destruct (IH best) as (H1 & H2 & H3). split_and!.
        * destruct H1 as [->|H1]; set_solver.
        * done.
        * intros z [->|Hz]%elem_of_cons; [|by apply H3].
          eapply (le_by_trans lt); [exact H2|done]. }
  destruct (H l x) as (H1 & H2 & H3). split.
  - destruct H1 as [->|H1]; set_solver.
  - intros y [->|Hy]%elem_of_cons; [done|by apply H3].
Qed.

(** ** Candidates *)

Lemma index_subject_clash p q :
  clash p q ->
  (exists s, index_subject p = Some s /\ index_subject q = Some s) \/ region_clash p q.
Proof.
  intros [(l & r & -> & -> & H1 & H2 & _)|[(e & s & t & Hp & Hq & _)|[(f & Hf)|
          [(l & r & -> & -> & H1 & _)|H]]]]; [left..|by right].
  - eexists. split; [done|]. cbn. by rewrite H1, H2.
  - destruct p; try done; destruct q; try done; cbn in *; simplify_eq; eexists; split; try done;
      cbn; congruence.
  - exists (3, (f, 0)). destruct Hf as [[Hp Hq]|[Hp Hq]]; destruct p, q; try done; cbn in *;
      destruct_and?; unfold is_return_trait;
      repeat match goal with H : _ = _ |- _ => rewrite H end; done.
  - eexists. split; [done|]. cbn. by rewrite H1.
Qed.

Lemma elem_of_region_candidates store region entries k :
  multimap_ok entries ->
  k ∈ region_candidates store region entries <->
  exists start other obs, (start, k) ∈ entries /\ start < cr_end region /\
    map_find bytes_lt k (records_ store) =
      Some {| er_payload := P_CodeRegion other; er_observations := obs |} /\
    cr_start region < cr_end other /\
    region_kinds_incompatible (cr_kind region) (cr_kind other) = true.
Proof.
  unfold multimap_ok. induction 1 as [|[start key] l Hs IH Hx]; cbn [region_candidates].
  { split; [by intros ?%elem_of_nil|]. by intros (? & ? & ? & ?%elem_of_nil & _). }
  rewrite Forall_forall in Hx. destruct (Z.ltb_spec start (cr_end region)) as [Hlt|Hge].
  2: { split; [by intros ?%elem_of_nil|].
       intros (st & other & obs & [[= -> ->]|Hin]%elem_of_cons & Hlt & _); [lia|].
       specialize (Hx _ Hin). cbn in Hx. lia. }
  setoid_rewrite elem_of_cons.
  destruct (map_find bytes_lt key (records_ store)) as [[p obs]|] eqn:Ef;
    [destruct p as [| | | | | | |other| | | | |]|]; try (rewrite IH; naive_solver).
  destruct ((cr_start region <? cr_end other) && _) eqn:Ec.
  - apply andb_true_iff in Ec as [Hc1 Hc2]. apply Z.ltb_lt in Hc1.
    rewrite elem_of_cons, IH. split.
    + intros [->|(st & o & ob & ?)]; [exists start, other, obs; by auto|naive_solver].
    + intros (st & o & ob & [[= -> ->]|Hin] & Hrest); [by left|right; naive_solver].
  - rewrite IH. split; [naive_solver|].
    intros (st & o & ob & [[= -> ->]|Hin] & Hst & Hf & Hr & Hk); [|naive_solver].
    rewrite Ef in Hf. injection Hf as -> ->. apply Z.ltb_lt in Hr. by rewrite Hr, Hk in Ec.
Qed.

Section Query.
Context (store : EvidenceStore) (index : ContradictionIndex) (payload : FactPayload)
  (key : bytes) (generation : Z)
  (Hrec : records_ok (records_ store)) (Hidx : index_ok (records_ store) index)
  (Htyped : payload_typed payload) (Hvalid : validate_payload payload = Ok tt).

(** Every candidate is a record. *)
Lemma candidate_record k :
  k ∈ candidates store index payload -> exists r, map_find bytes_lt k (records_ store) = Some r.
Proof.
  unfold candidates. destruct Hidx as (Hok & Hsub & Hmul & Hreg & _).
  destruct (index_subject payload) as [g|].
  - rewrite Hsub. intros (r & Hin & _). exists r. apply (map_find_elem bytes_lt); [apply Hrec|done].
  - destruct payload; try by intros ?%elem_of_nil.
    rewrite elem_of_region_candidates by by apply map_lower_bound_ok.
    intros (? & ? & ? & _ & _ & Hf & _). by eexists.
Qed.

(** Every record that clashes with the payload is a candidate. *)
Lemma clash_candidate k r :
  map_find bytes_lt k (records_ store) = Some r -> clash (er_payload r) payload ->
  k ∈ candidates store index payload.
Proof.
  intros Hf Hc. unfold candidates. destruct Hidx as (Hok & Hsub & Hmul & Hreg & H0 & Hmax).
  destruct (records_ok_find _ _ _ Hrec Hf) as [(_ & Htr & Hvr & _) Hin].
  apply index_subject_clash in Hc as [(s & Hs1 & Hs2)|Hc].
  - rewrite Hs2. apply Hsub. by exists r.
  - destruct Hc as (l & g & Hp & Hq & (a & Ha1 & Ha2) & Hk). rewrite Hq. cbn [index_subject].
    rewrite Hp in Htr, Hvr. rewrite Hq in Htyped, Hvalid.
    pose proof (valid_region_nonempty _ Hvr). pose proof (valid_region_nonempty _ Hvalid).
    apply elem_of_region_candidates; [by apply map_lower_bound_ok|].
    destruct r as [p obs]. cbn [er_payload] in *. subst p.
    exists (cr_start l), l, obs. split_and!; [|lia|done|lia|].
    + apply elem_of_map_lower_bound; [done|]. split.
      * apply Hreg. by exists {| er_payload := P_CodeRegion l; er_observations := obs |}, l.
      * cbn [fst]. unfold region_lower. specialize (Hmax _ _ _ Hin eq_refl).
        destruct Htr as [[? _] _]. destruct (Z.ltb_spec (ci_maximum_region_size index) (cr_start g)); lia.
    + apply region_kinds_incompatible_iff. tauto.
Qed.

Definition query_payload_at (id : option bytes) : FactPayload :=
  match id with Some _ => payload_at (records_ store) id | None => payload end.

Definition query_scanning (out : ConflictAccumulator) : Prop :=
  acc_consistent query_payload_at out /\ ca_contradictions_only out = true.

(** The contradictions with one record, the pair in key order. *)
Definition pair_conflicts (k : bytes) (r : EvidenceRecord) : list EvidenceConflict :=
  if bytes_lt key k then conflicts_between true payload (er_payload r)
  else conflicts_between true (er_payload r) payload.

Lemma compare_entry_collect state k :
  query_scanning state.2 ->
  query_scanning (compare_entry store payload key generation state k).2 /\
  forall c, c ∈ ca_conflicts (compare_entry store payload key generation state k).2 <->
    c ∈ ca_conflicts state.2 \/
    exists r, map_find bytes_lt k (records_ store) = Some r /\
              record_active generation r = true /\ c ∈ pair_conflicts k r.
Proof.
  destruct state as [n out]. cbn [snd]. intros [Hc Ho]. unfold compare_entry, pair_conflicts.
  destruct (map_find bytes_lt k (records_ store)) as [r|] eqn:Ef; cbn [snd].
  2: { split; [by split|]. intros c. split; [by left|]. by intros [?|(r & ? & _)]. }
  destruct (record_active generation r) eqn:Ea; cbn [negb snd].
  2: { split; [by split|]. intros c. split; [by left|].
       intros [?|(r' & [= <-] & ? & _)]; [done|congruence]. }
  set (rref := {| pr_identity := Some k; pr_payload := er_payload r |}).
  assert (ref_at query_payload_at rref) as Hr.
  { unfold ref_at. cbn. by rewrite Ef. }
  assert (ref_at query_payload_at (query_ref payload)) as Hq by done.
  destruct (bytes_lt key k); cbn [snd].
  - destruct (compare_payloads_consistent _ _ _ _ Hc Hq Hr) as (H1 & H2 & H3).
    split; [by split; [|congruence]|]. intros c. rewrite H3, Ho, elem_of_app. apply or_iff_compat_l.
    split; [by exists r|]. by intros (r' & [= <-] & _ & ?).
  - destruct (compare_payloads_consistent _ _ _ _ Hc Hr Hq) as (H1 & H2 & H3).
    split; [by split; [|congruence]|]. intros c. rewrite H3, Ho, elem_of_app. apply or_iff_compat_l.
    split; [by exists r|]. by intros (r' & [= <-] & _ & ?).
Qed.

Lemma compare_entries_collect entries state :
  query_scanning state.2 ->
  forall c, c ∈ ca_conflicts (foldl (compare_entry store payload key generation) state entries).2 <->
    c ∈ ca_conflicts state.2 \/
    exists k r, k ∈ entries /\ map_find bytes_lt k (records_ store) = Some r /\
                record_active generation r = true /\ c ∈ pair_conflicts k r.
Proof.
  revert state. induction entries as [|k l IH]; intros state Hs c; cbn [foldl].
  - split; [by left|]. intros [?|(k & r & ?%elem_of_nil & _)]; done.
  - destruct (compare_entry_collect state k Hs) as [H1 H2]. rewrite (IH _ H1), H2. split.
    + intros [[?|(r & ? & ? & ?)]|(k' & r & ? & ?)]; [by left|right..].
      * exists k, r. split; [by left|done].
      * exists k', r. split; [by right|done].
    + intros [?|(k' & r & [->|?]%elem_of_cons & ?)]; [by left; left|left; right|right].
      * by exists r.
      * by exists k', r.
Qed.

Lemma pair_conflicts_clash k r c :
  map_find bytes_lt k (records_ store) = Some r -> c ∈ pair_conflicts k r ->
  clash (er_payload r) payload.
Proof.
  intros Hf Hc. destruct (records_ok_find _ _ _ Hrec Hf) as [(_ & _ & Hvr & _) _].
  assert (forall p q, validate_payload q = Ok tt -> c ∈ conflicts_between true p q -> clash p q) as H.
  { intros p q Hv. unfold conflicts_between.
    intros (cl & -> & [Hrc Hcl]%elem_of_filter)%list_elem_of_fmap.
    apply contradicts_iff; [done|]. apply existsb_iff. exists cl. split; [done|].
    unfold recorded in Hrc. cbn [andb] in Hrc. unfold is_contradiction.
    by rewrite negb_involutive in Hrc. }
  unfold pair_conflicts in Hc. destruct (bytes_lt key k); apply H in Hc; [|done..].
  by apply clash_sym.
Qed.

(** The candidates lose no contradiction. *)
Lemma query_conflicts c :
  c ∈ ca_conflicts (foldl (compare_entry store payload key generation)
        (0, {| ca_contradictions_only := true; ca_conflicts := []; ca_digests := [] |})
        (candidates store index payload)).2 <->
  exists k r, (k, r) ∈ records_ store /\ record_active generation r = true /\
              c ∈ pair_conflicts k r.
Proof.
  rewrite compare_entries_collect by (by split). cbn [snd ca_conflicts]. split.
  - intros [?%elem_of_nil|(k & r & _ & Hf & Ha & Hc)]; [done|]. exists k, r.
    apply (map_find_elem bytes_lt) in Hf; [done|apply Hrec].
  - intros (k & r & Hin & Ha & Hc). right. exists k, r.
    apply (map_find_elem bytes_lt) in Hin; [|apply Hrec]. split_and!; [|done..].
    eapply clash_candidate; [done|]. by eapply pair_conflicts_clash.
Qed.
End Query.

(** The index that the query uses, cached or built, describes the records. *)
Lemma query_index_ok s :
  store_wf s ->
  index_ok (records_ s)
    (match contradiction_index_ s with Some i => i | None => build_index (records_ s) end).
Proof.
  intros [Hok Hi]. destruct (contradiction_index_ s); [done|]. apply build_index_ok, Hok.
Qed.

(** [c] is a contradiction between the payload and an active record. *)
Definition activates_contradiction (s : EvidenceStore) (payload : FactPayload) (key : bytes)
    (generation : Z) (c : EvidenceConflict) : Prop :=
  exists k r, (k, r) ∈ records_ s /\ record_active generation r = true /\
    c ∈ (if bytes_lt key k then conflicts_between true payload (er_payload r)
         else conflicts_between true (er_payload r) payload).

Lemma incapable_no_contradiction s payload key generation c :
  records_ok (records_ s) -> validate_payload payload = Ok tt ->
  contradiction_capable payload = false -> ~ activates_contradiction s payload key generation c.
Proof.
  intros Hok Hv Hcap (k & r & Hin & _ & Hc).
  apply (map_find_elem bytes_lt) in Hin; [|apply Hok].
  assert (clash (er_payload r) payload) as Hcl by by eapply (pair_conflicts_clash s payload key).
  unfold contradiction_capable in Hcap. apply index_subject_clash in Hcl as [(x & _ & Hx)|Hcl].
  - by rewrite Hx in Hcap.
  - destruct Hcl as (l & g & _ & -> & _). done.
Qed.

Lemma new_contradiction_spec s payload generation key :
  store_wf s -> payload_typed payload -> validate_payload payload = Ok tt ->
  encode_payload payload = Ok key ->
  let '(result, stats, s') := new_contradiction payload generation s in
  store_wf s' /\ records_ s' = records_ s /\
  match find payload s with
  | Some r => if record_active generation r then result = None else True
  | None => True
  end /\
  (match find payload s with Some r => record_active generation r = false | None => True end ->
   match result with
   | Some c => activates_contradiction s payload key generation c /\
               forall d, activates_contradiction s payload key generation d -> conflict_less d c = false
   | None => forall d, ~ activates_contradiction s payload key generation d
   end).
Proof.
  intros Hwf Ht Hv Hk. pose proof Hwf as [Hok _]. pose proof (query_index_ok s Hwf) as Hidx.
  unfold new_contradiction. destruct (contradiction_capable payload) eqn:Ecap; cbn [negb].
  2: { split_and!; [done|done|by destruct (find payload s) as [r|]; [destruct (record_active generation r)|]|].
       intros _ d. by apply incapable_no_contradiction. }
  rewrite Hk. unfold find. rewrite Hk.
  destruct (match map_find bytes_lt key (records_ s) with
            | Some r => record_active generation r | None => false end) eqn:Eex.
  { destruct (map_find bytes_lt key (records_ s)) as [r|]; [|done]. rewrite Eex.
    split_and!; [done..|]. congruence. }
  set (index := match contradiction_index_ s with
                | Some i => i | None => build_index (records_ s) end) in *.
  assert ((match contradiction_index_ s with
           | Some i => (i, 0) | None => (build_index (records_ s), zlen (records_ s)) end) =
          (index, match contradiction_index_ s with Some _ => 0 | None => zlen (records_ s) end))
    as -> by (unfold index; by destruct (contradiction_index_ s)).
  cbn zeta. set (s' := {| records_ := records_ s; contradiction_index_ := Some index |}).
  pose proof (query_conflicts s' index payload key generation Hok Hidx Ht Hv) as Hq.
  match goal with |- context [foldl ?f ?a ?l] => destruct (foldl f a l) as [examined out] eqn:Eo end.
  assert (forall c, c ∈ ca_conflicts out <-> activates_contradiction s payload key generation c) as Hout.
  { intros c. exact (Hq c). }
  pose proof (min_element_spec conflict_less (ca_conflicts out)) as Hmin.
  split_and!; [by split|done| |].
  - destruct (map_find bytes_lt key (records_ s)) as [r|]; [|done]. by rewrite Eex.
  - intros _. destruct (min_element conflict_less (ca_conflicts out)) as [c|].
    + destruct Hmin as [Hin Hle]. split; [by apply Hout|]. intros d Hd. by apply Hle, Hout.
    + intros d Hd%Hout. rewrite Hmin in Hd. by apply elem_of_nil in Hd.
Qed.

Lemma new_contradiction_store s payload generation :
  store_wf s ->
  store_wf (new_contradiction payload generation s).2 /\
  records_ (new_contradiction payload generation s).2 = records_ s.
Proof.
  intros Hwf. pose proof Hwf as [Hok _]. pose proof (query_index_ok s Hwf) as Hidx.
  unfold new_contradiction. destruct (negb _); [done|].
  destruct (encode_payload payload) as [key|]; [|done].
  destruct (match map_find bytes_lt key (records_ s) with
            | Some r => record_active generation r | None => false end); [done|].
  destruct (contradiction_index_ s) as [i|]; cbn zeta;
    match goal with |- context [foldl ?f ?a ?l] => destruct (foldl f a l) as [examined out] end;
    (split; [by split|done]).
Qed.

(** ** Clashes in the whole store *)

(** The contradicted digests, without the order of the pair. *)
Lemma contradicted_members s d :
  records_ok (records_ s) ->
  d ∈ (contradicted_payload_digests s).1 <->
  exists k1 r1 k2 r2, (k1, r1) ∈ records_ s /\ (k2, r2) ∈ records_ s /\
    clash (er_payload r1) (er_payload r2) /\ d = sha256_bytes k1.
Proof.
  intros Hok. rewrite (proj2 (contradicted_all_pairs s d Hok)). split.
  - intros ([i [k1 r1]] & [j [k2 r2]] & Hb & Hc & Hd). pose proof Hb as [Hx%item_entry Hy%item_entry]%before_elem.
    cbn [fst snd] in *. destruct Hd as [->| ->].
    + by exists k1, r1, k2, r2.
    + exists k2, r2, k1, r1. split_and!; [done|done|by apply clash_sym|done].
  - intros (k1 & r1 & k2 & r2 & H1 & H2 & Hc & ->).
    assert (exists i1, (i1, (k1, r1)) ∈ ordered_items (records_ s)) as [i1 Hi1] by by apply entry_item.
    assert (exists i2, (i2, (k2, r2)) ∈ ordered_items (records_ s)) as [i2 Hi2] by by apply entry_item.
    pose proof (before_sorted _ _ item_order_asym (items_sorted (records_ s))) as Hbi.
    destruct (Nat.lt_trichotomy i1 i2) as [Hlt|[Heq|Hlt]].
    + exists (i1, (k1, r1)), (i2, (k2, r2)). split_and!; [by apply Hbi|done|by left].
    + exfalso. pose proof (item_index_inj _ _ _ Hi1 Hi2 Heq) as [= _ _ ->].
      eapply clash_irrefl; [|exact Hc]. by apply (proj2 Hok _ _ H2).
    + exists (i2, (k2, r2)), (i1, (k1, r1)). split_and!; [by apply Hbi|by apply clash_sym|by right].
Qed.

(** A clash with an active record is reported by the query. *)
Lemma clash_activates s payload key generation k r :
  records_ok (records_ s) -> validate_payload payload = Ok tt ->
  (k, r) ∈ records_ s -> record_active generation r = true -> clash (er_payload r) payload ->
  exists c, activates_contradiction s payload key generation c.
Proof.
  intros Hok Hv Hin Ha Hc. destruct (proj2 Hok _ _ Hin) as (_ & _ & Hvr & _).
  assert (forall p q, validate_payload q = Ok tt -> clash p q ->
            exists c, c ∈ conflicts_between true p q) as H.
  { intros p q Hq Hpq. apply contradicts_iff in Hpq; [|done].
    apply existsb_iff in Hpq as (cl & Hcl & Hs). eexists. unfold conflicts_between.
    apply list_elem_of_fmap. exists cl. split; [done|]. apply elem_of_filter. split; [|done].
    unfold recorded. cbn [andb]. unfold is_contradiction in Hs. by rewrite negb_involutive. }
  destruct (bytes_lt key k) eqn:E.
  - destruct (H payload (er_payload r) Hvr (clash_sym _ _ Hc)) as [c Hcc].
    exists c, k, r. rewrite E. done.
  - destruct (H (er_payload r) payload Hv Hc) as [c Hcc]. exists c, k, r. rewrite E. done.
Qed.

Lemma record_active_zero r : er_observations r <> [] -> record_active 0 r = true.
Proof. unfold record_active. by destruct (er_observations r). Qed.

(** ** The report of a merge *)

Lemma add_observation_count s fact :
  store_wf s -> fact_typed fact ->
  observation_count (add fact s).2 =
    observation_count s +
    match ar_disposition (add fact s).1 with
    | AddDisposition_InsertedRecord | AddDisposition_AddedObservation => 1
    | _ => 0
    end.
Proof.
  intros Hs Ht. pose proof (add_disposition s fact Hs Ht) as Hd.
  pose proof (add_wf s fact Hs Ht) as [Hok' _].
  pose proof (fun f => add_facts s fact f (proj1 Hs) Ht) as Hf.
  destruct (add fact s) as [res s']. cbn [fst snd] in *.
  assert (forall f, accept fact = Ok f -> f ∉ flattened_facts s ->
            observation_count s' = observation_count s + 1) as Hone.
  { intros f Ha Hnew. rewrite !observation_count_flattened. unfold zlen.
    rewrite (Permutation_length (l := flattened_facts s') (l' := f :: flattened_facts s)); [cbn; lia|].
    apply NoDup_Permutation; [by apply flattened_NoDup| |].
    - apply NoDup_cons. split; [done|]. apply flattened_NoDup, Hs.
    - intros x. rewrite (proj2 (Hf f Ha)), elem_of_cons. done. }
  destruct (ar_disposition res).
  - destruct Hd as (_ & f & Ha & Hn & _). by apply (Hone f).
  - destruct Hd as (_ & f & Ha & Hn & _). by apply (Hone f).
  - destruct Hd as (-> & _). lia.
  - destruct Hd as (-> & _). lia.
Qed.

Lemma merge_loop_report facts report s :
  store_wf s -> Forall (fun f => fact_typed f /\ accept f = Ok f) facts ->
  let '(report', s') := merge_loop facts report s in
  let inserted := mr_inserted_records report' - mr_inserted_records report in
  let added := mr_added_observations report' - mr_added_observations report in
  let duplicate := mr_duplicate_observations report' - mr_duplicate_observations report in
  inserted + added + duplicate = zlen facts /\
  record_count s' = record_count s + inserted /\
  observation_count s' = observation_count s + inserted + added /\
  mr_rejected_observations report' = mr_rejected_observations report /\
  mr_errors report' = mr_errors report.
Proof.
  intros Hs Hl. revert report s Hs. induction Hl as [|f l [Ht Ha] Hl IH]; intros report s Hs.
  { cbn [merge_loop]. cbn zeta. rewrite zlen_nil. split_and!; [lia|lia|lia|done|done]. }
  pose proof (add_disposition s f Hs Ht) as Hd. pose proof (add_observation_count s f Hs Ht) as Ho.
  pose proof (add_wf s f Hs Ht) as Hs'.
  cbn [merge_loop]. destruct (add f s) as [res s1]. cbn [fst snd] in *.
  specialize (IH (count_result res report) s1 Hs').
  destruct (merge_loop l (count_result res report) s1) as [report' s']. cbn zeta in *.
  destruct IH as (H1 & H2 & H3 & H4 & H5). rewrite zlen_cons.
  unfold count_result in *.
  destruct (ar_disposition res); cbn [mr_inserted_records mr_added_observations
    mr_duplicate_observations mr_rejected_observations mr_errors] in *; rewrite ?app_nil_r in H5;
    [destruct Hd as (Hd & _)|destruct Hd as (Hd & _)|destruct Hd as (-> & _)|
     by destruct Hd as [_ Hd]; rewrite Ha in Hd];
    (split_and!; [lia|lia|lia|lia|done]).
Qed.

Lemma merge_fst other b s :
  (merge other b s).2 = ledger_add_all (flattened_facts other) s.
Proof.
  unfold merge. pose proof (merge_loop_store (flattened_facts other) empty_report s) as H.
  destruct (merge_loop _ _ _) as [report s']. cbn [snd] in *. done.
Qed.

(** ** Properties *)

(** C25: the incremental query returns the least new contradiction.  For a valid
    payload the query never changes the records.  It reports nothing when the
    payload is already active in the generation; otherwise it reports the least
    conflict, in canonical order, among all contradictions between the payload and
    active records, and nothing exactly when there is none, although it looks only
    at the index bucket or at a window of the start-ordered regions. *)
Theorem new_contradiction_exact s payload generation key :
  store_wf s -> payload_typed payload -> validate_payload payload = Ok tt ->
  encode_payload payload = Ok key ->
  let '(result, stats, s') := new_contradiction payload generation s in
  let new c := exists k r, (k, r) ∈ records_ s /\ record_active generation r = true /\
    c ∈ (if bytes_lt key k then conflicts_between true payload (er_payload r)
         else conflicts_between true (er_payload r) payload) in
  store_wf s' /\ records_ s' = records_ s /\
  match find payload s with
  | Some r => if record_active generation r then result = None else True
  | None => True
  end /\
  (match find payload s with Some r => record_active generation r = false | None => True end ->
   match result with
   | Some c => new c /\ forall d, new d -> conflict_less d c = false
   | None => forall d, ~ new d
   end).
Proof. exact (new_contradiction_spec s payload generation key). Qed.

Definition sample_region : FactPayload :=
  P_CodeRegion {| cr_start := 4096; cr_end := 4112; cr_kind := CodeRegionKind_Code |}.

Lemma new_contradiction_exact_witness :
  exists key, encode_payload sample_region = Ok key /\
    records_ (new_contradiction sample_region 0 (add sample_fact empty_store).2).2 =
    records_ (add sample_fact empty_store).2.
Proof.
  eexists. split; [vm_compute; reflexivity|].
  pose proof (new_contradiction_exact (add sample_fact empty_store).2 sample_region 0 _
    (add_wf _ _ empty_store_wf sample_fact_typed) ltac:(cbn; unfold is_u64; lia)
    ltac:(vm_compute; reflexivity) ltac:(vm_compute; reflexivity)) as H.
  destruct (new_contradiction _ _ _) as [[result stats] s']. cbn [snd]. exact (proj1 (proj2 H)).
Defined.

(** A query that reports nothing clears the payload for insertion.  If a payload
    is not in the store and the query over all observations reports no
    contradiction, then adding any valid fact with that payload leaves the set of
    contradicted payloads as it was. *)
Theorem query_guards_insertion s fact :
  store_wf s -> fact_typed fact -> normalize_fact fact = Ok fact ->
  is_ok (encode_payload (af_payload fact)) = true ->
  find (af_payload fact) s = None ->
  (new_contradiction (af_payload fact) 0 s).1.1 = None ->
  (contradicted_payload_digests (add fact s).2).1 = (contradicted_payload_digests s).1.
Proof.
  intros Hwf Ht Hn Hok Hfind Hq. destruct (encode_payload (af_payload fact)) as [key|] eqn:Ek; [|done].
  pose proof Hwf as [Hrec _]. pose proof (normalize_fact_ok _ _ Hn) as (_ & _ & Hv & _).
  apply validate_fact_parts in Hv as [Hv _].
  pose proof (new_contradiction_spec s (af_payload fact) 0 key Hwf (proj1 Ht) Hv Ek) as Hspec.
  destruct (new_contradiction _ _ _) as [[result stats] s']. cbn [fst] in Hq. subst result.
  destruct Hspec as (_ & _ & _ & Hspec). rewrite Hfind in Hspec. specialize (Hspec I).
  assert (forall k r, (k, r) ∈ records_ s -> ~ clash (er_payload r) (af_payload fact)) as Hno.
  { intros k r Hin Hc. destruct (clash_activates s (af_payload fact) key 0 k r) as [c Hcc]; try done.
    - apply record_active_zero, (proj2 Hrec _ _ Hin).
    - by eapply Hspec. }
  assert (accept fact = Ok fact) as Ha by (unfold accept; rewrite Hn; cbn [result_bind]; by rewrite Ek).
  pose proof (add_wf _ _ Hwf Ht) as [Hrec' _].
  destruct (add_accepted s fact fact key Hrec Ht Ha Ek)
    as [(Hf & Hr & Hadd)|(r & Hf & _)]; [|unfold find in Hfind; by rewrite Ek, Hf in Hfind].
  apply (StrictSorted_ext digest_lt); [by apply (contradicted_all_pairs _ zero_digest)..|].
  intros d. rewrite !contradicted_members by done. rewrite Hadd in *. cbn [snd records_] in *. split.
  - intros (k1 & r1 & k2 & r2 & H1 & H2 & Hc & ->).
    apply (elem_of_map_set bytes_lt) in H1; [|apply Hrec].
    apply (elem_of_map_set bytes_lt) in H2; [|apply Hrec].
    destruct H1 as [[-> ->]|[_ H1]], H2 as [[-> ->]|[_ H2]].
    + by destruct (clash_irrefl _ Hv Hc).
    + by destruct (Hno _ _ H2 (clash_sym _ _ Hc)).
    + by destruct (Hno _ _ H1 Hc).
    + by exists k1, r1, k2, r2.
  - intros (k1 & r1 & k2 & r2 & H1 & H2 & Hc & ->). exists k1, r1, k2, r2.
    assert (forall k r, (k, r) ∈ records_ s -> k <> key) as Hne.
    { intros k r Hin ->. apply (map_find_elem bytes_lt) in Hin; [congruence|apply Hrec]. }
    rewrite !(elem_of_map_set bytes_lt) by apply Hrec. split_and!; [right|right|done|done];
      (split; [by eapply Hne|done]).
Qed.

Definition static_evidence : Evidence :=
  {| ev_producer := "static"; ev_method := "scan"; ev_proof := ProofKind_StaticProof;
     ev_confidence := 10000;
     ev_scope := {| sc_run_id := None; sc_seed := None; sc_function_start := None;
                    sc_function_end := None; sc_generation := 0 |};
     ev_support_addresses := [4096]; ev_detail := "" |}.
Definition region_fact : AnalysisFact :=
  {| af_payload := sample_region; af_evidence := static_evidence |}.

Lemma region_fact_typed : fact_typed region_fact.
Proof. split; simpl; unfold is_u16, is_u64; split_and!; repeat constructor; simpl; unfold is_u64; lia. Qed.

Lemma query_guards_insertion_witness :
  find sample_region (add sample_fact empty_store).2 = None /\
  (contradicted_payload_digests (add region_fact (add sample_fact empty_store).2).2).1 =
  (contradicted_payload_digests (add sample_fact empty_store).2).1.
Proof.
  split; [vm_compute; reflexivity|].
  apply (query_guards_insertion (add sample_fact empty_store).2 region_fact).
  - exact (add_wf _ _ empty_store_wf sample_fact_typed).
  - exact region_fact_typed.
  - vm_compute. reflexivity.
  - vm_compute. reflexivity.
  - vm_compute. reflexivity.
  - vm_compute. reflexivity.
Defined.

(** Merging two well-formed stores gives a well-formed store that holds exactly
    the facts of both, and the report is exact: nothing is rejected, every
    observation of the other store is counted once as inserted, added or
    duplicate, the totals after the merge follow from the totals before, and the
    conflicts are counted only on request. *)
Theorem merge_report_exact s t count :
  store_wf s -> store_wf t ->
  let '(report, s') := merge t count s in
  store_wf s' /\
  (forall f, f ∈ flattened_facts s' <-> f ∈ flattened_facts s \/ f ∈ flattened_facts t) /\
  mr_rejected_observations report = 0 /\ mr_errors report = [] /\
  mr_inserted_records report + mr_added_observations report + mr_duplicate_observations report =
    observation_count t /\
  mr_records_after report = record_count s + mr_inserted_records report /\
  mr_observations_after report =
    observation_count s + mr_inserted_records report + mr_added_observations report /\
  mr_records_after report = record_count s' /\
  mr_observations_after report = observation_count s' /\
  mr_conflicts_after report = if count then zlen (detect_conflicts s') else 0.
Proof.
  intros Hs Ht. pose proof (merge_fst t count s) as Hfst.
  pose proof (ledger_merge_ok s t Hs Ht : store_wf _) as Hwf.
  pose proof (ledger_merge_facts s t) as Hfacts.
  assert (Forall (fun f => fact_typed f /\ accept f = Ok f) (flattened_facts t)) as Hl.
  { apply Forall_forall. intros f Hf. destruct (flattened_ok _ _ (proj1 Ht) Hf) as (? & _ & ?). done. }
  pose proof (merge_loop_report (flattened_facts t) empty_report s Hs Hl) as Hr.
  unfold merge in *. destruct (merge_loop (flattened_facts t) empty_report s) as [report s'].
  cbn [snd] in Hfst. cbn zeta in Hr. destruct Hr as (H1 & H2 & H3 & H4 & H5).
  cbn [empty_report mr_inserted_records mr_added_observations mr_duplicate_observations
       mr_rejected_observations mr_errors] in *.
  cbn [mr_inserted_records mr_added_observations mr_duplicate_observations mr_errors
       mr_rejected_observations mr_records_after mr_observations_after mr_conflicts_after].
  rewrite observation_count_flattened. rewrite Hfst in *.
  split_and!; try done; try lia. intros f. by apply Hfacts.
Qed.

Lemma merge_report_exact_witness :
  store_wf (add region_fact empty_store).2 /\
  let '(report, s') := merge (add region_fact empty_store).2 true (add sample_fact empty_store).2 in
  mr_rejected_observations report = 0.
Proof.
  assert (store_wf (add region_fact empty_store).2) as H
    by (apply add_wf; [exact empty_store_wf|exact region_fact_typed]).
  split; [exact H|].
  pose proof (merge_report_exact (add sample_fact empty_store).2 _ true
    (add_wf _ _ empty_store_wf sample_fact_typed) H) as Hm.
  destruct (merge _ _ _) as [report s']. apply Hm.
Defined.

(** Merging is a join.  On well-formed stores the records after a merge do not
    depend on which store absorbs the other or on how several merges are
    associated, and absorbing a store whose facts are all held changes nothing. *)
Theorem merge_semilattice s t u c1 c2 :
  store_wf s -> store_wf t -> store_wf u ->
  records_ (merge t c1 s).2 = records_ (merge s c2 t).2 /\
  records_ (merge u c1 (merge t c1 s).2).2 = records_ (merge (merge u c2 t).2 c2 s).2 /\
  ((forall f, f ∈ flattened_facts t -> f ∈ flattened_facts s) ->
   records_ (merge t c1 s).2 = records_ s).
Proof.
  intros Hs Ht Hu. rewrite !merge_fst. split_and!.
  - exact (ledger_merge_comm s t Hs Ht).
  - exact (ledger_merge_assoc s t u Hs Ht Hu).
  - exact (ledger_merge_absorb s t Hs Ht).
Qed.

Lemma merge_semilattice_witness :
  store_wf (add region_fact empty_store).2 /\
  records_ (merge (add region_fact empty_store).2 true (add sample_fact empty_store).2).2 =
  records_ (merge (add sample_fact empty_store).2 false (add region_fact empty_store).2).2.
Proof.
  assert (store_wf (add region_fact empty_store).2) as H
    by (apply add_wf; [exact empty_store_wf|exact region_fact_typed]).
  split; [exact H|].
  exact (proj1 (merge_semilattice (add sample_fact empty_store).2 (add region_fact empty_store).2
    empty_store true false (add_wf _ _ empty_store_wf sample_fact_typed) H empty_store_wf)).
Defined.
