(* ===== verification/StoreCodec.v ===== *)
(** The store envelope ([src/src/evidence_store.cpp]: [StoreWriter], [StoreReader],
    [serialize], [deserialize], [persist] and [restore]).

    [deserialize] and [restore] assign their output only when everything has
    succeeded; here they return it, so a failure has no store to show. *)
From stdpp Require Import base numbers list strings option sets.
From Stdlib Require Import ZArith Init.Byte Sorting.Sorted Lia.
From S2P Require Import Prelude OrderedMap Ledger FactTypes Sha256 Wire Validate FactCodec.
From S2P Require Import Store Conflicts ConflictScan ConflictQuery.

(** ** Envelope *)

Definition kStoreMagic : bytes := str_bytes "VIYEVDB" ++ [x00].
Definition kStoreMajor : Z := 1.
Definition kStoreMinor : Z := 0.
Definition kStoreFlagSha256 : Z := 1.
Definition kDigestSize : Z := 32.

Record StoreCodecLimits := {
  max_blob_bytes : Z;
  max_observations : Z;
  fact_limits : FactCodecLimits
}.

(** The defaults of the header. *)
Definition default_store_limits : StoreCodecLimits :=
  {| max_blob_bytes := 64 * 1024 * 1024; max_observations := 1000000;
     fact_limits := default_limits |}.

(** [StoreReader]: the reader operations with this class's error text. *)
Definition truncated_envelope : string := "truncated evidence-store envelope".
Definition sr_u16 : Reader Z := r_u16_msg truncated_envelope.
Definition sr_u32 : Reader Z := r_u32_msg truncated_envelope.
Definition sr_u64 : Reader Z := r_u64_msg truncated_envelope.
Definition sr_blob : Z -> Reader bytes :=
  r_raw_msg "truncated length-delimited fact in evidence store".
Definition sr_magic : Reader unit :=
  actual <~ r_raw_msg truncated_envelope 8;
  if actual == kStoreMagic then rd_ret tt
  else rd_fail "evidence-store envelope has the wrong magic".

(** The loop of [serialize] over the facts. *)
Fixpoint write_facts (facts : list AnalysisFact) : result bytes :=
  match facts with
  | [] => Ok []
  | fact :: r =>
      let* encoded := encode_analysis_fact fact in
      reject "encoded analysis fact exceeds store length limit" when u32_max <? zlen encoded ;;
      let* rest := write_facts r in
      Ok (w_u32 (zlen encoded) ++ encoded ++ rest)
  end.

Definition serialize (store : EvidenceStore) : result bytes :=
  let facts := flattened_facts store in
  reject "evidence store contains too many observations to serialize"
    when u64_max <? zlen facts ;;
  let* body := write_facts facts in
  let envelope := kStoreMagic ++ w_u16 kStoreMajor ++ w_u16 kStoreMinor ++
                  w_u32 kStoreFlagSha256 ++ w_u64 (zlen facts) ++ body in
  Ok (envelope ++ fd_bytes (sha256_bytes envelope)).

Definition read_header : Reader (Z * (Z * (Z * Z))) :=
  _ <~ sr_magic; major <~ sr_u16; minor <~ sr_u16; flags <~ sr_u32; count <~ sr_u64;
  rd_ret (major, (minor, (flags, count))).

(** [for (i = 0; i != count; ++i)] of [deserialize]. *)
Fixpoint read_facts (limits : StoreCodecLimits) (count : nat) (previous : option AnalysisFact)
    (decoded : EvidenceStore) (input : bytes) : result (EvidenceStore * bytes) :=
  match count with
  | O => Ok (decoded, input)
  | S count =>
      match sr_u32 input with
      | RFail e => Err e
      | RGood fact_size rest =>
      reject "encoded fact exceeds configured decode limit"
        when max_fact_bytes (fact_limits limits) <? fact_size ;;
      match sr_blob fact_size rest with
      | RFail e => Err e
      | RGood fact_bytes rest =>
      match decode_analysis_fact (fact_limits limits) fact_bytes with
      | Err e => Err (String.append "invalid fact in evidence store: " e)
      | Ok fact =>
      reject "evidence-store observations are duplicated or non-canonical"
        when match previous with
             | Some p => negb (analysis_fact_less p fact)
             | None => false
             end ;;
      let '(added, decoded) := add fact decoded in
      match ar_disposition added with
      | AddDisposition_DuplicateObservation | AddDisposition_RejectedInvalid =>
          Err "evidence-store contains a duplicate or rejected observation"
      | _ => read_facts limits count (Some fact) decoded rest
      end end end end
  end.

(** [difference |= expected[i] ^ trailer[i]] over the 32 bytes. *)
Definition digest_difference (expected trailer : bytes) : Z :=
  foldl (fun difference p => Z.lor difference (Z.lxor (b2z p.1) (b2z p.2))) 0
    (zip expected trailer).

Definition deserialize (limits : StoreCodecLimits) (blob : bytes) : result EvidenceStore :=
  let minimum_size := zlen kStoreMagic + 2 + 2 + 4 + 8 + kDigestSize in
  reject "evidence-store blob exceeds configured decode limit"
    when max_blob_bytes limits <? zlen blob ;;
  reject "evidence-store blob is too short" when zlen blob <? minimum_size ;;
  let split := Z.to_nat (zlen blob - kDigestSize) in
  let envelope := take split blob in
  reject "evidence-store SHA-256 integrity check failed"
    when negb (digest_difference (fd_bytes (sha256_bytes envelope)) (drop split blob) =? 0) ;;
  match read_header envelope with
  | RFail e => Err e
  | RGood (major, (minor, (flags, count))) rest =>
      reject "unsupported evidence-store schema version"
        when negb (major =? kStoreMajor) || negb (minor =? kStoreMinor) ;;
      reject "unsupported evidence-store feature flags" when negb (flags =? kStoreFlagSha256) ;;
      reject "evidence-store observation count exceeds configured limit"
        when (max_observations limits <? count) || (u64_max <? count) ;;
      let* (decoded, remaining) := read_facts limits (Z.to_nat count) None empty_store rest in
      reject "evidence-store envelope has trailing bytes" when negb (zlen remaining =? 0) ;;
      match serialize decoded with
      | Err e => Err (String.append "failed to re-encode evidence store: " e)
      | Ok canonical =>
          reject "evidence-store blob is valid but non-canonical" when canonical != blob ;;
          Ok decoded
      end
  end.

(** ** Persistence

    [EvidencePersistenceAdapter] is an abstract class: the host supplies it.  Its
    state is [A]; a failed call returns the error text. *)

Inductive RestoreMode := RestoreMode_Replace | RestoreMode_Merge.

Section Persistence.
Context {A : Type} (read_blob : A -> result bytes) (write_blob : bytes -> A -> result unit * A).

Definition adapter_error (error fallback : string) : string :=
  if error == "" then fallback else error.

Definition persist (store : EvidenceStore) (adapter : A) : result unit * A :=
  match serialize store with
  | Err e => (Err e, adapter)
  | Ok blob =>
      let '(written, adapter) := write_blob blob adapter in
      (match written with
       | Err e => Err (adapter_error e "persistence adapter write failed")
       | Ok _ => Ok tt
       end, adapter)
  end.

(** The report is filled only when the caller passed one ([report]). *)
Definition restore (limits : StoreCodecLimits) (adapter : A) (mode : RestoreMode) (report : bool)
    (store : EvidenceStore) : result (option MergeReport) * EvidenceStore :=
  match read_blob adapter with
  | Err e => (Err (adapter_error e "persistence adapter read failed"), store)
  | Ok blob =>
  match deserialize limits blob with
  | Err e => (Err e, store)
  | Ok decoded =>
  match mode with
  | RestoreMode_Replace =>
      let replacement :=
        {| mr_inserted_records := record_count decoded;
           mr_added_observations := observation_count decoded - record_count decoded;
           mr_duplicate_observations := 0; mr_rejected_observations := 0;
           mr_records_after := record_count decoded;
           mr_observations_after := observation_count decoded;
           mr_conflicts_after := if report then zlen (detect_conflicts decoded) else 0;
           mr_errors := [] |} in
      (Ok (if report then Some replacement else None), decoded)
  | RestoreMode_Merge =>
      let '(merged, store) := merge decoded report store in
      (Ok (if report then Some merged else None), store)
  end end end.
End Persistence.

(** ** The flattened facts are in canonical order *)

Definition fact_before (f g : AnalysisFact) : Prop := analysis_fact_less f g = true.

Lemma record_payload_key key r : record_ok key r -> payload_key (er_payload r) = key.
Proof. intros (Hk & _ & Hv & _). by apply payload_key_eq. Qed.

Lemma flattened_sorted s :
  records_ok (records_ s) -> StronglySorted fact_before (flattened_facts s).
Proof.
  intros [Hok Hr]. unfold flattened_facts. revert Hok Hr.
  induction (records_ s) as [|[key r] m IH]; intros Hok Hr; cbn [map concat snd]; [constructor|].
  apply (map_ok_cons bytes_lt) in Hok as [Hok Hlt].
  assert (record_ok key r) as Hkr by (apply Hr; by left).
  apply StronglySorted_app. split_and!.
  - intros f g (e & -> & He)%list_elem_of_fmap Hg.
    apply elem_of_concat_map in Hg as ([key' r'] & Hin & (e' & -> & He')%list_elem_of_fmap).
    assert (record_ok key' r') as Hkr' by (apply Hr; by right).
    unfold fact_before. rewrite analysis_fact_less_key. unfold fact_key, pair_lt.
    cbn [af_payload af_evidence fst snd].
    rewrite (record_payload_key _ _ Hkr), (record_payload_key _ _ Hkr').
    by rewrite (Hlt _ _ Hin).
  - pose proof Hkr as (_ & _ & _ & _ & _ & Hs).
    unfold StrictSorted in Hs. rewrite StronglySorted_map in Hs.
    unfold record_facts. induction Hs as [|e l Hs IHs He]; cbn [map]; [constructor|].
    constructor; [done|]. rewrite Forall_forall in He. apply Forall_forall.
    intros f (e' & -> & He')%list_elem_of_fmap. unfold fact_before. rewrite analysis_fact_less_key.
    unfold fact_key, pair_lt. cbn [af_payload af_evidence fst snd].
    rewrite (lt_irrefl (lt := bytes_lt)). by apply He.
  - apply IH; [done|]. intros. apply Hr. by right.
Qed.

(** ** Reading back what was written *)

Lemma add_index_none s fact :
  contradiction_index_ s = None -> contradiction_index_ (add fact s).2 = None.
Proof.
  intros Hn. unfold add. cbn zeta. destruct (normalize_fact fact) as [f|]; [|done].
  destruct (encode_payload (af_payload f)) as [key|]; [|done].
  destruct (map_find bytes_lt key (records_ s)); cbn [snd contradiction_index_].
  - destruct (lower_bound _ _) as [low high].
    destruct (match high with o :: _ => _ | [] => _ end); done.
  - by rewrite Hn.
Qed.

Lemma add_not_duplicate s fact :
  store_wf s -> fact_typed fact -> accept fact = Ok fact -> fact ∉ flattened_facts s ->
  match ar_disposition (add fact s).1 with
  | AddDisposition_DuplicateObservation | AddDisposition_RejectedInvalid => False
  | _ => True
  end.
Proof.
  intros Hs Ht Ha Hn. pose proof (add_disposition s fact Hs Ht) as Hd.
  destruct (add fact s) as [result s']. cbn [fst]. destruct (ar_disposition result); try done.
  - destruct Hd as (_ & f & Ha' & Hf). congruence.
  - destruct Hd as (_ & Hd). congruence.
Qed.

Lemma accept_valid f : fact_typed f -> accept f = Ok f -> validate_fact f = Ok tt.
Proof. intros Ht Ha. by destruct (accept_ok _ _ Ht Ha) as (_ & _ & ? & _). Qed.

(** What a decoder's limits must allow for. *)
Definition fact_fits (limits : StoreCodecLimits) (f : AnalysisFact) : Prop :=
  fact_within (fact_limits limits) f /\
  forall w, encode_analysis_fact f = Ok w -> zlen w <= max_fact_bytes (fact_limits limits).

Definition after (previous : option AnalysisFact) (facts : list AnalysisFact) : Prop :=
  match previous, facts with
  | Some p, f :: _ => fact_before p f
  | _, _ => True
  end.

Lemma read_written_facts limits facts body previous s rest :
  write_facts facts = Ok body ->
  Forall (fun f => fact_typed f /\ accept f = Ok f) facts -> Forall (fact_fits limits) facts ->
  StronglySorted fact_before facts -> after previous facts -> NoDup facts ->
  store_wf s -> contradiction_index_ s = None -> (forall f, f ∈ facts -> f ∉ flattened_facts s) ->
  exists s', read_facts limits (length facts) previous s (body ++ rest) = Ok (s', rest) /\
    store_wf s' /\ contradiction_index_ s' = None /\
    forall f, f ∈ flattened_facts s' <-> f ∈ flattened_facts s \/ f ∈ facts.
Proof.
  intros Hw Hl. revert body previous s Hw.
  induction Hl as [|f l [Ht Ha] Hl IH]; intros body previous s Hw Hfit Hsort Haft Hnd Hs Hi Hnew.
  { cbn in Hw. injection Hw as <-. exists s. split_and!; [done..|]. set_solver. }
  cbn [write_facts] in Hw. inv_ok Hw. inj_ok Hw.
  apply NoDup_cons in Hnd as [Hfl Hnd]. apply Forall_cons in Hfit as [[Hwithin Hsize] Hfit].
  apply StronglySorted_inv in Hsort as [Hsort Hf].
  specialize (Hsize _ Hm). cbn [length read_facts].
  assert (is_u32 (zlen a)) as Hu by (apply zlen_u32; lia).
  rewrite <- app_assoc. unfold sr_u32. rewrite (reads_u32_msg truncated_envelope _ Hu).
  destruct (Z.ltb_spec (max_fact_bytes (fact_limits limits)) (zlen a)); [lia|].
  rewrite <- app_assoc. unfold sr_blob. rewrite r_raw_app.
  rewrite (decode_encoded_fact _ f) by (done || by eapply accept_valid).
  assert (match previous with Some p => negb (analysis_fact_less p f) | None => false end = false) as ->.
  { destruct previous as [p|]; [|done]. cbn in Haft. unfold fact_before in Haft. by rewrite Haft. }
  pose proof (add_not_duplicate s f Hs Ht Ha (Hnew f ltac:(by left))) as Hd.
  pose proof (add_wf s f Hs Ht) as Hs'. pose proof (add_index_none s f Hi) as Hi'.
  pose proof (add_facts_iff s f) as Hfacts.
  destruct (add f s) as [result s1]. cbn [fst snd] in *.
  destruct (IH a0 (Some f) s1 eq_refl) as (s' & Hread & Hwf' & Hnone & Hall); try done.
  - destruct l as [|g l]; [done|]. rewrite Forall_forall in Hf. apply Hf. by left.
  - intros g Hgl. rewrite (Hfacts g (proj1 Hs) Ht), Ha. intros [[= ->]|Hin]; [done|].
    by destruct (Hnew g ltac:(by right)).
  - exists s'. split_and!; [by destruct (ar_disposition result)|done|done|].
    intros g. rewrite Hall, (Hfacts g (proj1 Hs) Ht), Ha, elem_of_cons. naive_solver.
Qed.


(** ** The trailer *)

Lemma digest_difference_zero a b :
  length a = length b -> digest_difference a b = 0 <-> a = b.
Proof.
  unfold digest_difference. intros Hl.
  assert (forall d, 0 <= d ->
    (foldl (fun difference p => Z.lor difference (Z.lxor (b2z p.1) (b2z p.2))) d (zip a b) = 0 <->
     d = 0 /\ a = b)) as H.
  { revert b Hl. induction a as [|x a IH]; intros [|y b] Hl d Hd; try done.
    { cbn. naive_solver. }
    cbn [zip zip_with foldl fst snd]. pose proof (b2z_range x). pose proof (b2z_range y).
    assert (0 <= Z.lxor (b2z x) (b2z y)) by (apply Z.lxor_nonneg; lia).
    rewrite IH by first [by cbn in Hl; lia | by apply Z.lor_nonneg]. rewrite Z.lor_eq_0_iff. split.
    - intros [[-> Hx] ->]. apply Z.lxor_eq in Hx. apply b2z_inj in Hx as ->. done.
    - intros [-> [= -> ->]]. by rewrite Z.lxor_nilpotent. }
  rewrite H by done. naive_solver.
Qed.

(** ** Serialization *)

Definition envelope_of (s : EvidenceStore) (body : bytes) : bytes :=
  kStoreMagic ++ w_u16 kStoreMajor ++ w_u16 kStoreMinor ++ w_u32 kStoreFlagSha256 ++
  w_u64 (zlen (flattened_facts s)) ++ body.

Lemma serialize_ok s blob :
  serialize s = Ok blob ->
  exists body, write_facts (flattened_facts s) = Ok body /\ zlen (flattened_facts s) <= u64_max /\
    blob = envelope_of s body ++ fd_bytes (sha256_bytes (envelope_of s body)).
Proof.
  unfold serialize. cbn zeta. intros H. inv_ok H. inj_ok H. exists a. split_and!; [done|lia|done].
Qed.

Lemma serialize_proper s t : store_equiv s t -> serialize s = serialize t.
Proof. intros H. unfold serialize. rewrite (flattened_facts_proper s t H). reflexivity. Qed.

Lemma header_reads n :
  is_u64 n ->
  reads read_header (kStoreMagic ++ w_u16 kStoreMajor ++ w_u16 kStoreMinor ++
                     w_u32 kStoreFlagSha256 ++ w_u64 n)
        (kStoreMajor, (kStoreMinor, (kStoreFlagSha256, n))).
Proof.
  intros Hn. unfold read_header.
  eapply reads_bind.
  { unfold sr_magic. eapply reads_bind_ret; [by apply r_raw_app_size|].
    rewrite bool_decide_eq_true_2 by done. apply reads_ret. }
  eapply reads_bind; [by apply reads_u16_msg|]. eapply reads_bind; [by apply reads_u16_msg|].
  eapply reads_bind; [by apply reads_u32_msg|].
  eapply reads_bind_ret; [by apply reads_u64_msg|]. apply reads_ret.
Qed.

Lemma take_drop_split (a b : bytes) :
  length b = 32%nat ->
  take (Z.to_nat (zlen (a ++ b) - kDigestSize)) (a ++ b) = a /\
  drop (Z.to_nat (zlen (a ++ b) - kDigestSize)) (a ++ b) = b.
Proof.
  intros Hb. assert (Z.to_nat (zlen (a ++ b) - kDigestSize) = length a) as ->.
  { unfold zlen, kDigestSize. rewrite length_app, Hb. lia. }
  by rewrite take_app_length, drop_app_length.
Qed.

Lemma deserialize_serialized limits s blob :
  store_wf s -> serialize s = Ok blob -> zlen blob <= max_blob_bytes limits ->
  zlen (flattened_facts s) <= max_observations limits ->
  Forall (fact_fits limits) (flattened_facts s) ->
  deserialize limits blob = Ok (store_copy s).
Proof.
  intros Hs Hser Hblob Hcount Hfit.
  destruct (serialize_ok _ _ Hser) as (body & Hbody & Hn & Hblob_eq).
  set (e := envelope_of s body) in *.
  pose proof (take_drop_split e (fd_bytes (sha256_bytes e)) (sha256_length e)) as [Htake Hdrop].
  unfold deserialize. cbn zeta.
  destruct (Z.ltb_spec (max_blob_bytes limits) (zlen blob)); [lia|].
  assert (zlen blob = zlen e + 32) as Hlen.
  { rewrite Hblob_eq, zlen_app. unfold zlen at 2. by rewrite sha256_length. }
  assert (24 <= zlen e) as He24.
  { unfold e, envelope_of. rewrite !zlen_app. change (zlen kStoreMagic) with 8.
    change (zlen (w_u16 kStoreMajor)) with 2. change (zlen (w_u16 kStoreMinor)) with 2.
    change (zlen (w_u32 kStoreFlagSha256)) with 4. rewrite zlen_w_u64.
    pose proof (zlen_nonneg body). lia. }
  change (zlen kStoreMagic) with 8. unfold kDigestSize in *.
  destruct (Z.ltb_spec (zlen blob) (8 + 2 + 2 + 4 + 8 + 32)); [lia|].
  rewrite <- Hblob_eq in Htake, Hdrop. rewrite Htake, Hdrop.
  rewrite (proj2 (digest_difference_zero _ _ eq_refl) eq_refl). cbn [Z.eqb negb].
  assert (is_u64 (zlen (flattened_facts s))) as Hu.
  { pose proof (zlen_nonneg (flattened_facts s)). unfold is_u64, u64_max in *. lia. }
  pose proof (header_reads _ Hu body) as Hh. rewrite <- !app_assoc in Hh.
  fold (envelope_of s body) in Hh. fold e in Hh. rewrite Hh.
  cbn [kStoreMajor kStoreMinor kStoreFlagSha256 Z.eqb negb orb Pos.eqb].
  destruct (Z.ltb_spec (max_observations limits) (zlen (flattened_facts s))); [lia|].
  destruct (Z.ltb_spec u64_max (zlen (flattened_facts s))); [lia|]. cbn [orb].
  assert (Forall (fun f => fact_typed f /\ accept f = Ok f) (flattened_facts s)) as Hl.
  { apply Forall_forall. intros f Hf. destruct (flattened_ok _ _ (proj1 Hs) Hf) as (? & _ & ?). done. }
  destruct (read_written_facts limits (flattened_facts s) body None empty_store []) as
    (s' & Hread & Hwf' & Hnone & Hfacts); try done.
  { apply flattened_sorted, Hs. }
  { apply flattened_NoDup, Hs. }
  { apply empty_store_wf. }
  { intros f _ Hf. by apply elem_of_nil in Hf. }
  rewrite app_nil_r in Hread. unfold zlen at 1. rewrite Nat2Z.id, Hread. cbn [result_bind].
  rewrite zlen_eqb_nil. cbn [negb].
  assert (store_equiv s' s) as Heq.
  { apply records_ext; [apply Hwf'|apply Hs|]. intros f. rewrite Hfacts.
    split; [intros [Hf|?]; [by apply elem_of_nil in Hf|done]|by right]. }
  rewrite (serialize_proper _ _ Heq), Hser. rewrite bool_decide_eq_true_2 by done. cbn [negb].
  f_equal. apply store_eq; [exact Heq|done].
Qed.

(** ** What [deserialize] accepts *)

Lemma read_facts_wf limits count previous s input s' rest :
  store_wf s -> contradiction_index_ s = None ->
  read_facts limits count previous s input = Ok (s', rest) ->
  store_wf s' /\ contradiction_index_ s' = None.
Proof.
  revert previous s input. induction count as [|count IH]; intros previous s input Hs Hi H.
  { injection H as -> ->. done. }
  cbn [read_facts] in H. destruct (sr_u32 input) as [fact_size rest1|]; [|done].
  destruct (_ <? _); [done|]. destruct (sr_blob fact_size rest1) as [fact_bytes rest2|]; [|done].
  destruct (decode_analysis_fact _ fact_bytes) as [fact|] eqn:Ed; [|done].
  destruct (match previous with Some p => _ | None => false end); [done|].
  apply decode_analysis_fact_ok in Ed as (Ht & _ & _).
  pose proof (add_wf s fact Hs Ht) as Hwf. pose proof (add_index_none s fact Hi) as Hnone.
  destruct (add fact s) as [added s1]. cbn [snd] in *.
  destruct (ar_disposition added); try done; by eapply IH.
Qed.

Lemma deserialize_ok limits blob s :
  deserialize limits blob = Ok s ->
  store_wf s /\ contradiction_index_ s = None /\ serialize s = Ok blob.
Proof.
  unfold deserialize. cbn zeta. intros H. inv_ok H.
  destruct (read_header _) as [[major [minor [flags count]]] rest|]; [|done]. inv_ok H.
  match goal with H : context [let '(_, _) := ?r in _] |- _ => destruct r as [decoded remaining] end.
  inv_ok H. destruct (serialize decoded) as [canonical|] eqn:Es; [|done]. inv_ok H. inj_ok H.
  destruct (read_facts_wf limits (Z.to_nat count) None empty_store rest s remaining
    empty_store_wf eq_refl Hm) as [Hwf Hnone].
  apply negb_false_iff, bool_decide_eq_true in Hg6. subst. done.
Qed.

(** Limits that admit whatever was serialized. *)
Definition unlimited_store (blob : bytes) : StoreCodecLimits :=
  {| max_blob_bytes := zlen blob; max_observations := u64_max; fact_limits := unlimited |}.

Lemma write_facts_encodes facts body f :
  write_facts facts = Ok body -> f ∈ facts -> exists w, encode_analysis_fact f = Ok w.
Proof.
  revert body. induction facts as [|g l IH]; intros body H; [by intros ?%elem_of_nil|].
  cbn [write_facts] in H. destruct (encode_analysis_fact g) as [w|] eqn:Eg; [|done].
  cbn [result_bind] in H. destruct (_ <? _); [done|].
  destruct (write_facts l) as [b|] eqn:El; [|done]. intros [->|Hf]%elem_of_cons; [by eexists|by eapply IH].
Qed.

Lemma facts_fit_unlimited s body blob :
  store_wf s -> write_facts (flattened_facts s) = Ok body ->
  Forall (fact_fits (unlimited_store blob)) (flattened_facts s).
Proof.
  intros [Hok _] Hbody. apply Forall_forall. intros f Hf.
  destruct (write_facts_encodes _ _ _ Hbody Hf) as [w Hw].
  destruct (flattened_ok _ _ Hok Hf) as (_ & Hv & _).
  destruct (encoded_fact_unlimited f w Hv Hw) as [H1 H2]. split; [done|].
  intros w' Hw'. assert (w' = w) as -> by congruence. done.
Qed.

Lemma deserialize_unlimited s blob :
  store_wf s -> serialize s = Ok blob -> deserialize (unlimited_store blob) blob = Ok (store_copy s).
Proof.
  intros Hs Hser. pose proof (serialize_ok _ _ Hser) as (body & Hbody & Hn & _).
  apply deserialize_serialized; [done..|]. by eapply facts_fit_unlimited.
Qed.

(** ** Properties *)

(** C1: the store survives a round trip.  Whatever a well-formed store serializes to
    deserializes, under limits that admit it, to a store with the same records. *)
Theorem store_roundtrip limits s blob :
  store_wf s -> serialize s = Ok blob -> zlen blob <= max_blob_bytes limits ->
  zlen (flattened_facts s) <= max_observations limits ->
  Forall (fact_fits limits) (flattened_facts s) ->
  deserialize limits blob = Ok (store_copy s).
Proof. exact (deserialize_serialized limits s blob). Qed.

Definition region_store : EvidenceStore := (add region_fact empty_store).2.

Lemma region_store_wf : store_wf region_store.
Proof. exact (add_wf _ _ empty_store_wf region_fact_typed). Qed.

Lemma region_store_facts : flattened_facts region_store = [region_fact].
Proof. vm_compute. reflexivity. Qed.

Lemma region_store_serializes : is_ok (serialize region_store) = true.
Proof. vm_compute. reflexivity. Qed.

Lemma store_roundtrip_witness :
  exists blob limits, serialize region_store = Ok blob /\
                      deserialize limits blob = Ok (store_copy region_store).
Proof.
  pose proof region_store_serializes as H.
  destruct (serialize region_store) as [blob|] eqn:E; [|discriminate H]. exists blob.
  exists {| max_blob_bytes := zlen blob; max_observations := 10; fact_limits := default_limits |}.
  split; [reflexivity|]. apply (store_roundtrip _ region_store blob region_store_wf E).
  - apply Z.le_refl.
  - rewrite region_store_facts. vm_compute. discriminate.
  - rewrite region_store_facts. constructor; [|constructor]. split.
    + split; [exact I|]. split_and!; vm_compute; discriminate.
    + intros w Hw. vm_compute in Hw. injection Hw as <-. vm_compute. discriminate.
Defined.

(** Only genuine blobs are accepted.  A blob that deserializes is an envelope
    followed by that envelope's SHA-256, and it is exactly the serialization of the
    well-formed store it deserializes to; every other blob, however well formed its
    parts, is rejected. *)
Theorem store_deserialize_canonical limits blob s :
  deserialize limits blob = Ok s ->
  store_wf s /\ contradiction_index_ s = None /\ serialize s = Ok blob /\
  exists envelope, blob = envelope ++ fd_bytes (sha256_bytes envelope).
Proof.
  intros H. pose proof (deserialize_ok _ _ _ H) as (Hwf & Hi & Hs).
  split_and!; [exact Hwf|exact Hi|exact Hs|].
  destruct (serialize_ok _ _ Hs) as (body & _ & _ & ->). by eexists.
Qed.

Lemma store_deserialize_canonical_witness :
  exists limits blob, deserialize limits blob = Ok (store_copy region_store) /\
                      serialize (store_copy region_store) = Ok blob.
Proof.
  pose proof region_store_serializes as H.
  destruct (serialize region_store) as [blob|] eqn:E; [|discriminate H].
  exists (unlimited_store blob), blob.
  pose proof (deserialize_unlimited region_store blob region_store_wf E) as Hd.
  split; [exact Hd|].
  exact (proj1 (proj2 (proj2 (store_deserialize_canonical (unlimited_store blob) blob _ Hd)))).
Defined.

(** A blob identifies the records.  Two well-formed stores serialize to the same
    bytes exactly when they have the same records, so the bytes do not depend on
    how the store was built. *)
Theorem serialization_identity s t blob :
  store_wf s -> store_wf t -> serialize s = Ok blob ->
  serialize t = Ok blob <-> records_ t = records_ s.
Proof.
  intros Hs Ht Hser. split.
  - intros Hser'. pose proof (deserialize_unlimited s blob Hs Hser) as H1.
    pose proof (deserialize_unlimited t blob Ht Hser') as H2. rewrite H1 in H2.
    injection H2 as H2. by symmetry.
  - intros Heq. rewrite <- Hser. apply serialize_proper. exact Heq.
Qed.

Lemma serialization_identity_witness :
  exists blob, serialize region_store = Ok blob /\
    (serialize (add region_fact region_store).2 = Ok blob <->
     records_ (add region_fact region_store).2 = records_ region_store).
Proof.
  pose proof region_store_serializes as H.
  destruct (serialize region_store) as [blob|] eqn:E; [|discriminate H].
  exists blob. split; [reflexivity|].
  exact (serialization_identity region_store (add region_fact region_store).2 blob region_store_wf
    (add_wf _ _ region_store_wf region_fact_typed) E).
Defined.

(** What the limits must allow for a store to be read back. *)
Definition limits_admit (limits : StoreCodecLimits) (s : EvidenceStore) : Prop :=
  (forall blob, serialize s = Ok blob -> zlen blob <= max_blob_bytes limits) /\
  zlen (flattened_facts s) <= max_observations limits /\
  Forall (fact_fits limits) (flattened_facts s).

(** Persistence keeps the evidence.  With any adapter that reads back what it
    reported as written, restoring a persisted store in [Replace] mode yields its
    records and reports their numbers; in [Merge] mode the target ends with the
    facts of both.  A restore that fails, for whatever reason, leaves the target
    as it was. *)
Theorem persist_restore_exact {A} (read_blob : A -> result bytes)
    (write_blob : bytes -> A -> result unit * A)
    (adapter_reads_back : forall b a a', write_blob b a = (Ok tt, a') -> read_blob a' = Ok b)
    limits s t a a' :
  store_wf s -> store_wf t -> limits_admit limits s -> persist write_blob s a = (Ok tt, a') ->
  (exists report, restore read_blob limits a' RestoreMode_Replace true t =
                    (Ok (Some report), store_copy s) /\
     mr_inserted_records report = record_count s /\
     mr_inserted_records report + mr_added_observations report = observation_count s /\
     mr_conflicts_after report = zlen (detect_conflicts s)) /\
  (exists t', restore read_blob limits a' RestoreMode_Merge false t = (Ok None, t') /\
     store_wf t' /\
     forall f, f ∈ flattened_facts t' <-> f ∈ flattened_facts t \/ f ∈ flattened_facts s) /\
  (forall a0 mode report e, (restore read_blob limits a0 mode report t).1 = Err e ->
     (restore read_blob limits a0 mode report t).2 = t).
Proof.
  intros Hs Ht (Hsize & Hcount & Hfit) Hp. split_and!.
  3: { intros a0 mode report e. unfold restore. destruct (read_blob a0) as [b|]; [|done].
       destruct (deserialize limits b); [|done]. destruct mode; [done|].
       by destruct (merge _ _ _). }
  all: unfold persist in Hp; destruct (serialize s) as [blob|] eqn:Eser; [|done];
    destruct (write_blob blob a) as [written a1] eqn:Ew;
    destruct written as [[]|]; [|done]; injection Hp as ->;
    apply adapter_reads_back in Ew;
    pose proof (deserialize_serialized limits s blob Hs Eser (Hsize _ eq_refl) Hcount Hfit) as Hd;
    unfold restore; rewrite Ew, Hd.
  - eexists. split; [reflexivity|].
    cbn [mr_inserted_records mr_added_observations mr_conflicts_after].
    split; [reflexivity|]. split; [|reflexivity].
    change (observation_count (store_copy s)) with (observation_count s).
    change (record_count (store_copy s)) with (record_count s). lia.
  - pose proof (ledger_merge_ok t (store_copy s) Ht (conj (proj1 Hs) I)) as Hwf.
    pose proof (merge_fst (store_copy s) false t) as Hm.
    destruct (merge (store_copy s) false t) as [report t']. cbn [snd] in Hm. subst t'.
    eexists. split; [reflexivity|]. split; [exact Hwf|]. intros f.
    exact (ledger_merge_facts t (store_copy s) f Ht (conj (proj1 Hs) I)).
Qed.

(** An adapter that keeps the last blob in memory. *)
Definition memory_read (a : option bytes) : result bytes :=
  match a with Some b => Ok b | None => Err "not found" end.
Definition memory_write (b : bytes) (a : option bytes) : result unit * option bytes := (Ok tt, Some b).

Lemma persist_restore_exact_witness :
  exists limits a', persist memory_write region_store None = (Ok tt, a') /\
    exists t', restore memory_read limits a' RestoreMode_Merge false empty_store = (Ok None, t') /\
               store_wf t'.
Proof.
  pose proof region_store_serializes as H.
  destruct (serialize region_store) as [blob|] eqn:E; [|discriminate H].
  exists (unlimited_store blob), (Some blob).
  assert (persist memory_write region_store None = (Ok tt, Some blob)) as Hp
    by (unfold persist; rewrite E; reflexivity).
  split; [exact Hp|].
  assert (limits_admit (unlimited_store blob) region_store) as Hadm.
  { destruct (serialize_ok _ _ E) as (body & Hbody & _). split_and!.
    - intros b Hb. assert (b = blob) as -> by congruence. apply Z.le_refl.
    - rewrite region_store_facts. vm_compute. discriminate.
    - exact (facts_fit_unlimited region_store body blob region_store_wf Hbody). }
  destruct (proj1 (proj2 (persist_restore_exact memory_read memory_write
    ltac:(intros b a a' [= <-]; reflexivity) (unlimited_store blob) region_store empty_store None
    (Some blob) region_store_wf empty_store_wf Hadm Hp))) as (t' & Ht' & Hwf & _).
  exists t'. split; [exact Ht'|exact Hwf].
Defined.
