(* ===== verification/StoreSystem.v ===== *)
(** The store as a state machine: the states its public operations reach, their
    invariant, and the fact that the cached index cannot be observed. *)
From stdpp Require Import base numbers list strings option sets.
From Stdlib Require Import ZArith Init.Byte Sorting.Sorted Lia.
From S2P Require Import Prelude OrderedMap Ledger FactTypes Sha256 Validate FactCodec Store.
From S2P Require Import Conflicts ConflictScan ConflictQuery StoreCodec.

(** One constructor per public operation that produces a store. *)
Inductive reachable : EvidenceStore -> Prop :=
| reachable_empty : reachable empty_store
| reachable_add s fact : reachable s -> fact_typed fact -> reachable (add fact s).2
| reachable_merge s t count : reachable s -> reachable t -> reachable (merge t count s).2
| reachable_clear s : reachable s -> reachable (clear s)
| reachable_copy s : reachable s -> reachable (store_copy s)
| reachable_view s : reachable s -> reachable (latest_generation_view s)
| reachable_query s payload generation :
    reachable s -> reachable (new_contradiction payload generation s).2
| reachable_restore {A} (read_blob : A -> result bytes) limits a mode report s :
    reachable s -> reachable (restore read_blob limits a mode report s).2.

Lemma merge_wf s t count : store_wf s -> store_wf t -> store_wf (merge t count s).2.
Proof. intros Hs Ht. rewrite merge_fst. exact (ledger_merge_ok s t Hs Ht). Qed.

Lemma restore_wf {A} (read_blob : A -> result bytes) limits a mode report s :
  store_wf s -> store_wf (restore read_blob limits a mode report s).2.
Proof.
  intros Hs. unfold restore. destruct (read_blob a) as [b|]; [|done].
  destruct (deserialize limits b) as [decoded|] eqn:Ed; [|done].
  apply deserialize_ok in Ed as (Hd & _ & _). destruct mode; [done|].
  pose proof (merge_wf s decoded report Hs Hd). by destruct (merge decoded report s).
Qed.

Lemma reachable_store_wf s : reachable s -> store_wf s.
Proof.
  induction 1.
  - exact empty_store_wf.
  - by apply add_wf.
  - by apply merge_wf.
  - exact empty_store_wf.
  - split; [|exact I]. by destruct IHreachable.
  - by apply view_wf.
  - by apply new_contradiction_store.
  - by apply restore_wf.
Qed.

(** What a client can see of a store. *)
Definition observations (s : EvidenceStore) :=
  (records s, flattened_facts s, (record_count s, observation_count s), serialize s,
   detect_conflicts s, contradicted_payload_digests s).

Lemma observations_proper s t : store_equiv s t -> observations s = observations t.
Proof.
  unfold store_equiv, observations, records, flattened_facts, record_count, observation_count,
    serialize, detect_conflicts, contradicted_payload_digests, contradiction_scan, flattened_facts.
  intros ->. reflexivity.
Qed.

Lemma add_proper s t fact :
  store_equiv s t -> (add fact s).1 = (add fact t).1 /\ store_equiv (add fact s).2 (add fact t).2.
Proof.
  unfold store_equiv. intros H. unfold add. cbn zeta. rewrite H.
  destruct (normalize_fact fact) as [f|]; [|split; [reflexivity|exact H]].
  destruct (encode_payload (af_payload f)) as [key|]; [|split; [reflexivity|exact H]].
  destruct (map_find bytes_lt key (records_ t)) as [r|]; [|split; reflexivity].
  destruct (lower_bound _ _) as [low high].
  destruct (match high with o :: _ => _ | [] => _ end); (split; [reflexivity|first [exact H|reflexivity]]).
Qed.

Lemma new_contradiction_proper s t payload generation :
  store_wf s -> store_wf t -> store_equiv s t ->
  payload_typed payload -> validate_payload payload = Ok tt ->
  (new_contradiction payload generation s).1.1 = (new_contradiction payload generation t).1.1.
Proof.
  intros Hs Ht H Hp Hv. destruct (encode_payload payload) as [key|] eqn:Ek.
  2: { unfold new_contradiction. rewrite Ek. by destruct (negb _). }
  pose proof (new_contradiction_spec s payload generation key Hs Hp Hv Ek) as H1.
  pose proof (new_contradiction_spec t payload generation key Ht Hp Hv Ek) as H2.
  destruct (new_contradiction payload generation s) as [[r1 st1] s1].
  destruct (new_contradiction payload generation t) as [[r2 st2] s2]. cbn [fst].
  destruct H1 as (_ & _ & Ha1 & Hb1), H2 as (_ & _ & Ha2 & Hb2).
  rewrite (find_proper payload s t H) in Ha1, Hb1.
  assert (forall c, activates_contradiction s payload key generation c <->
                    activates_contradiction t payload key generation c) as Hact
    by (intros c; unfold activates_contradiction; by rewrite H).
  assert (match find payload t with Some r => record_active generation r = false | None => True end ->
          r1 = r2) as Hinact.
  { intros Hno. specialize (Hb1 Hno). specialize (Hb2 Hno).
    destruct r1 as [c1|], r2 as [c2|]; [| | |done].
    - f_equal. destruct Hb1 as [Hc1 Hm1], Hb2 as [Hc2 Hm2].
      apply (lt_total (lt := conflict_less)); [apply Hm2, Hact, Hc1|apply Hm1, Hact, Hc2].
    - exfalso. destruct Hb1 as [Hc1 _]. by eapply Hb2, Hact.
    - exfalso. destruct Hb2 as [Hc2 _]. by eapply Hb1, Hact. }
  destruct (find payload t) as [r|]; [|by apply Hinact].
  destruct (record_active generation r); [congruence|by apply Hinact].
Qed.

(** ** Properties *)

(** C9: every state that the public operations reach, in any order and interleaved
    with queries, copies, views and restores from any adapter, is well formed: its
    records are canonical, valid and sorted, and a cached index describes exactly
    the current records.  In particular every held fact is in normal form and is
    accepted again as it is. *)
Theorem reachable_invariant s :
  reachable s ->
  store_wf s /\ NoDup (flattened_facts s) /\
  forall f, f ∈ flattened_facts s -> fact_typed f /\ normalize_fact f = Ok f.
Proof.
  intros Hs%reachable_store_wf. split_and!; [done|apply flattened_NoDup, Hs|].
  intros f Hf. destruct (flattened_ok _ _ (proj1 Hs) Hf) as (? & ? & _).
  split; [done|by apply normalize_fact_valid].
Qed.

Lemma reachable_invariant_witness :
  reachable (new_contradiction sample_region 0 (add sample_fact empty_store).2).2 /\
  NoDup (flattened_facts (new_contradiction sample_region 0 (add sample_fact empty_store).2).2).
Proof.
  assert (reachable (new_contradiction sample_region 0 (add sample_fact empty_store).2).2) as H
    by (apply reachable_query, reachable_add; [apply reachable_empty|exact sample_fact_typed]).
  split; [exact H|]. exact (proj1 (proj2 (reachable_invariant _ H))).
Defined.

(** The cached index is unobservable.  Two well-formed stores with the same
    records, whether or not either has built its index, show the same records,
    facts, counts, serialization and conflicts, give the same answer to every
    query, and stay equal in this sense under insertion and after queries. *)
Theorem index_unobservable s t :
  store_wf s -> store_wf t -> records_ s = records_ t ->
  observations s = observations t /\
  (forall fact, fact_typed fact ->
     (add fact s).1 = (add fact t).1 /\ records_ (add fact s).2 = records_ (add fact t).2) /\
  (forall payload generation, payload_typed payload -> validate_payload payload = Ok tt ->
     (new_contradiction payload generation s).1.1 = (new_contradiction payload generation t).1.1 /\
     records_ (new_contradiction payload generation s).2 =
       records_ (new_contradiction payload generation t).2).
Proof.
  intros Hs Ht H. split_and!; [by apply observations_proper|..].
  - intros fact _. by apply add_proper.
  - intros payload generation Hp Hv. split; [by apply new_contradiction_proper|].
    rewrite (proj2 (new_contradiction_store s payload generation Hs)).
    by rewrite (proj2 (new_contradiction_store t payload generation Ht)).
Qed.

Lemma index_unobservable_witness :
  records_ (new_contradiction sample_region 0 region_store).2 = records_ region_store /\
  observations (new_contradiction sample_region 0 region_store).2 = observations region_store.
Proof.
  pose proof (new_contradiction_store region_store sample_region 0 region_store_wf) as [Hwf Heq].
  split; [exact Heq|].
  exact (proj1 (index_unobservable _ region_store Hwf region_store_wf Heq)).
Defined.
