(* ===== verification/Lifecycle.v ===== *)
(** Evidence generations and the active view ([src/src/evidence_lifecycle.hpp],
    [src/src/evidence_lifecycle.cpp]): the allocator of generation identities that
    a restored ledger has not used, and the policy that selects the facts of the
    current generations.  The client half of the [Ledger] contract carries the
    proofs about the view. *)
From stdpp Require Import base numbers list strings option sets.
From Stdlib Require Import ZArith Init.Byte Sorting.Sorted Lia.
From S2P Require Import Prelude OrderedMap Ledger FactTypes Sha256 Validate FactCodec Store.
From S2P Require Import Conflicts ConflictScan ConflictQuery.

(** ** The allocator *)

Record EvidenceGenerationAllocator := {
  used_ : list Z;
  cursor_ : Z
}.

Definition new_allocator : EvidenceGenerationAllocator := {| used_ := []; cursor_ := 1 |}.

(** [x == max ? 1 : x + 1]: the next candidate; 0 is never one. *)
Definition next_generation (x : Z) : Z := if x =? u64_max then 1 else x + 1.

(** [seed] replaces the whole state of the allocator. *)
Definition seed (history : EvidenceStore) (_ : EvidenceGenerationAllocator) :
    EvidenceGenerationAllocator :=
  let used :=
    foldl (fun used fact =>
             set_insert Z.ltb (sc_generation (ev_scope (af_evidence fact))) used)
      [] (flattened_facts history) in
  {| used_ := used;
     cursor_ :=
       match last used with
       | Some largest => if largest =? u64_max then 1 else largest + 1
       | None => 1
       end |}.

(** The loop of [allocate]. *)
Fixpoint first_unused (fuel : nat) (used : list Z) (candidate : Z) : option Z :=
  if set_count Z.ltb candidate used then
    match fuel with
    | O => None
    | S fuel => first_unused fuel used (next_generation candidate)
    end
  else Some candidate.

(** One test more than there are used values is enough ([first_unused_total]). *)
Definition allocate (a : EvidenceGenerationAllocator) :
    option (Z * EvidenceGenerationAllocator) :=
  match first_unused (length (used_ a)) (used_ a) (if cursor_ a =? 0 then 1 else cursor_ a) with
  | Some candidate =>
      Some (candidate, {| used_ := set_insert Z.ltb candidate (used_ a);
                          cursor_ := next_generation candidate |})
  | None => None
  end.

(** A session: [n] allocations in a row. *)
Fixpoint allocate_many (n : nat) (a : EvidenceGenerationAllocator) :
    option (list Z * EvidenceGenerationAllocator) :=
  match n with
  | O => Some ([], a)
  | S n =>
      match allocate a with
      | None => None
      | Some (g, a) =>
          match allocate_many n a with
          | None => None
          | Some (gs, a) => Some (g :: gs, a)
          end
      end
  end.

(** ** The active view *)

Record ActiveEvidencePolicy := {
  provider_generation : Z;
  provider_functions : list Address;
  function_generations : omap Address Z
}.

Definition complete_provider (producer : string) : bool :=
  bool_decide (producer = "viy.native.ida"%string) ||
  bool_decide (producer = "viy.deobf.ida"%string).

Definition is_active (policy : ActiveEvidencePolicy) (fact : AnalysisFact) : bool :=
  let observation := af_evidence fact in
  let scope := ev_scope observation in
  if ev_proof observation == ProofKind_UserAsserted then true
  else if complete_provider (ev_producer observation) then
    if (provider_generation policy =? 0) ||
       negb (sc_generation scope =? provider_generation policy)
    then false
    else
      match sc_function_start scope with
      | None => true
      | Some start => set_count Z.ltb start (provider_functions policy)
      end
  else
    match sc_function_start scope with
    | None => false
    | Some start =>
        match map_find Z.ltb start (function_generations policy) with
        | Some expected => sc_generation scope =? expected
        | None => false
        end
    end.

Definition view (policy : ActiveEvidencePolicy) (history : EvidenceStore) : EvidenceStore :=
  foldl (fun active fact => if is_active policy fact then (add fact active).2 else active)
    empty_store (flattened_facts history).

(** ** The candidates of the loop *)

Definition allocator_ok (a : EvidenceGenerationAllocator) : Prop :=
  StrictSorted Z.ltb (used_ a) /\ Forall is_u64 (used_ a) /\ is_u64 (cursor_ a).

(** The candidate after [i] steps: the candidates cycle through [1 .. 2^64 - 1]. *)
Definition nth_candidate (c : Z) (i : nat) : Z := (c - 1 + Z.of_nat i) mod u64_max + 1.

Lemma nth_candidate_0 c : 1 <= c <= u64_max -> nth_candidate c 0 = c.
Proof. intros H. unfold nth_candidate. rewrite Z.mod_small; lia. Qed.

Lemma nth_candidate_range c i : 1 <= nth_candidate c i <= u64_max.
Proof.
  unfold nth_candidate. pose proof (Z.mod_pos_bound (c - 1 + Z.of_nat i) u64_max eq_refl). lia.
Qed.

Lemma next_generation_range c : 1 <= c <= u64_max -> 1 <= next_generation c <= u64_max.
Proof. unfold next_generation. intros H. destruct (Z.eqb_spec c u64_max); lia. Qed.

Lemma nth_candidate_next c i :
  1 <= c <= u64_max -> nth_candidate (next_generation c) i = nth_candidate c (S i).
Proof.
  intros H. unfold nth_candidate, next_generation. destruct (Z.eqb_spec c u64_max) as [->|].
  - f_equal. replace (u64_max - 1 + Z.of_nat (S i)) with (1 - 1 + Z.of_nat i + 1 * u64_max) by lia.
    by rewrite Z.mod_add.
  - do 2 f_equal. lia.
Qed.

Lemma nth_candidate_inj c i j :
  Z.of_nat i < u64_max -> Z.of_nat j < u64_max -> nth_candidate c i = nth_candidate c j -> i = j.
Proof.
  unfold nth_candidate. intros Hi Hj H.
  assert ((c - 1 + Z.of_nat i) mod u64_max = (c - 1 + Z.of_nat j) mod u64_max) as E by lia.
  pose proof (Z.div_mod (c - 1 + Z.of_nat i) u64_max ltac:(done)) as Ei.
  pose proof (Z.div_mod (c - 1 + Z.of_nat j) u64_max ltac:(done)) as Ej.
  rewrite E in Ei. set (qi := (c - 1 + Z.of_nat i) / u64_max) in *.
  set (qj := (c - 1 + Z.of_nat j) / u64_max) in *.
  assert (Z.of_nat i - Z.of_nat j = u64_max * (qi - qj)) as Ed by lia.
  assert (qi = qj) as Eq by (unfold u64_max in *; nia). rewrite Eq in Ed. lia.
Qed.

Section Loop.
Context (used : list Z) (Hsort : StrictSorted Z.ltb used).

Lemma first_unused_some fuel c g :
  1 <= c <= u64_max -> first_unused fuel used c = Some g ->
  exists i, (i <= fuel)%nat /\ g = nth_candidate c i /\ g ∉ used /\
    forall j, (j < i)%nat -> nth_candidate c j ∈ used.
Proof.
  revert c. induction fuel as [|fuel IH]; intros c Hc; cbn;
    destruct (set_count Z.ltb c used) eqn:E; [done|..|].
  1,3: intros [= <-]; exists 0%nat; rewrite nth_candidate_0 by done; split_and!; [lia|done| |lia];
    rewrite <- (set_count_elem Z.ltb) by done; congruence.
  intros (i & Hi & -> & Hfree & Hall)%IH; [|by apply next_generation_range].
  exists (S i). rewrite nth_candidate_next in * by done. split_and!; [lia|done|done|].
  intros [|j] Hj; [|rewrite <- nth_candidate_next by done; apply Hall; lia].
  rewrite nth_candidate_0 by done. by apply (set_count_elem Z.ltb).
Qed.

Lemma first_unused_none fuel c :
  1 <= c <= u64_max -> first_unused fuel used c = None ->
  forall i, (i <= fuel)%nat -> nth_candidate c i ∈ used.
Proof.
  revert c. induction fuel as [|fuel IH]; intros c Hc; cbn;
    destruct (set_count Z.ltb c used) eqn:E; try done;
    apply (set_count_elem Z.ltb) in E; try done.
  - intros _ i Hi. replace i with 0%nat by lia. by rewrite nth_candidate_0.
  - intros H [|i] Hi; [by rewrite nth_candidate_0|]. rewrite <- nth_candidate_next by done.
    apply IH; [by apply next_generation_range|done|lia].
Qed.

(** While a nonzero value is unused the loop ends within the fuel: the
    candidates it has passed are different used values. *)
Lemma first_unused_total c :
  1 <= c <= u64_max -> zlen used < u64_max -> exists g, first_unused (length used) used c = Some g.
Proof.
  intros Hc Hlen. destruct (first_unused (length used) used c) as [g|] eqn:E; [by exists g|].
  exfalso. pose proof (first_unused_none _ _ Hc E) as Hall. unfold zlen in Hlen.
  assert (NoDup (map (nth_candidate c) (seq 0 (S (length used))))) as Hnd.
  { apply NoDup_fmap_2_strong; [|apply NoDup_seq]. intros i j Hi%elem_of_seq Hj%elem_of_seq.
    apply nth_candidate_inj; lia. }
  assert (map (nth_candidate c) (seq 0 (S (length used))) ⊆ used) as Hsub.
  { intros x (i & -> & Hi%elem_of_seq)%list_elem_of_fmap. apply Hall. lia. }
  pose proof (NoDup_submseteq _ _ Hnd Hsub) as Hs%submseteq_length.
  rewrite length_map, length_seq in Hs. lia.
Qed.
End Loop.

Lemma cursor_start a : is_u64 (cursor_ a) ->
  1 <= (if cursor_ a =? 0 then 1 else cursor_ a) <= u64_max.
Proof. unfold is_u64, u64_max. destruct (Z.eqb_spec (cursor_ a) 0); lia. Qed.

(** What one allocation returns and leaves behind. *)
Lemma allocate_some a g a' :
  allocator_ok a -> allocate a = Some (g, a') ->
  allocator_ok a' /\ g ∉ used_ a /\ 1 <= g <= u64_max /\
  (forall x, x ∈ used_ a' <-> x = g \/ x ∈ used_ a) /\ cursor_ a' = next_generation g.
Proof.
  intros (Hs & Hu & Hc) H. unfold allocate in H. pose proof (cursor_start _ Hc) as Hr.
  destruct (first_unused _ _ _) as [c|] eqn:E; [|done]. injection H as -> <-. cbn [used_ cursor_].
  destruct (first_unused_some _ Hs _ _ _ Hr E) as (i & _ & Hg & Hfree & _).
  pose proof (nth_candidate_range (if cursor_ a =? 0 then 1 else cursor_ a) i) as Hrg.
  rewrite <- Hg in Hrg. pose proof (next_generation_range g Hrg) as Hn.
  assert (forall x, x ∈ set_insert Z.ltb g (used_ a) <-> x = g \/ x ∈ used_ a) as Hin
    by (intros x; by apply elem_of_set_insert, _).
  split_and!; [|done|lia|lia|done|done].
  split_and!; cbn [used_ cursor_]; [by apply set_insert_sorted, Hs; apply _| |].
  - rewrite Forall_forall in Hu |- *. intros x [->|Hx]%Hin; [|by apply Hu].
    unfold is_u64, u64_max in *; lia.
  - unfold is_u64, u64_max in *; lia.
Qed.

Lemma set_insert_new_length {A} (lt : A -> A -> bool) `{!StrictTotal lt} x s :
  StrictSorted lt s -> x ∉ s -> zlen (set_insert lt x s) = zlen s + 1.
Proof.
  intros Hs Hx. assert (Permutation (set_insert lt x s) (x :: s)) as Hp.
  { apply NoDup_Permutation.
    - by apply (StrictSorted_NoDup lt), set_insert_sorted.
    - constructor; [done|]. by apply (StrictSorted_NoDup lt).
    - intros y. by rewrite elem_of_set_insert, elem_of_cons by done. }
  unfold zlen. rewrite Hp. cbn. lia.
Qed.

Lemma allocate_length a g a' :
  allocator_ok a -> allocate a = Some (g, a') -> zlen (used_ a') = zlen (used_ a) + 1.
Proof.
  intros Ha H. destruct (allocate_some _ _ _ Ha H) as (_ & Hg & _). unfold allocate in H.
  destruct (first_unused _ _ _); [|done]. injection H as -> <-. cbn [used_].
  apply set_insert_new_length; [apply _|apply Ha|done].
Qed.

Lemma allocate_total a :
  allocator_ok a -> zlen (used_ a) < u64_max -> exists g a', allocate a = Some (g, a').
Proof.
  intros (Hs & _ & Hc) Hlen. unfold allocate.
  destruct (first_unused_total _ Hs _ (cursor_start _ Hc) Hlen) as [g ->]. eauto.
Qed.

Lemma nth_candidate_onto c x :
  1 <= c <= u64_max -> 1 <= x <= u64_max ->
  exists i, Z.of_nat i < u64_max /\ nth_candidate c i = x.
Proof.
  intros Hc Hx. exists (Z.to_nat ((x - c) mod u64_max)).
  pose proof (Z.mod_pos_bound (x - c) u64_max eq_refl) as Hm.
  rewrite Z2Nat.id by lia. split; [lia|]. unfold nth_candidate. rewrite Z2Nat.id by lia.
  rewrite Z.add_mod_idemp_r by done. replace (c - 1 + (x - c)) with (x - 1) by lia.
  rewrite Z.mod_small; lia.
Qed.

(** Without a result every nonzero value is used: the loop would never end. *)
Lemma allocate_none a :
  allocator_ok a -> allocate a = None -> forall x, 1 <= x <= u64_max -> x ∈ used_ a.
Proof.
  intros Ha H x Hx. destruct (Z.lt_ge_cases (zlen (used_ a)) u64_max) as [Hlt|Hge].
  { destruct (allocate_total a Ha Hlt) as (g & a' & E). congruence. }
  destruct Ha as (Hs & _ & Hc). unfold allocate in H. pose proof (cursor_start _ Hc) as Hr.
  destruct (first_unused _ _ _) eqn:E; [done|].
  destruct (nth_candidate_onto _ x Hr Hx) as (i & Hi & <-).
  apply (first_unused_none _ Hs _ _ Hr E). unfold zlen in Hge. lia.
Qed.

(** ** Seeding from a ledger *)

Definition generation_of (f : AnalysisFact) : Z := sc_generation (ev_scope (af_evidence f)).

Lemma seed_used history a x :
  x ∈ used_ (seed history a) <-> exists f, f ∈ flattened_facts history /\ x = generation_of f.
Proof.
  unfold seed. cbn [used_].
  rewrite <- (foldl_fmap (fun used g => set_insert Z.ltb g used) [] _ generation_of).
  rewrite foldl_set_insert by apply _. rewrite list_elem_of_fmap. set_solver.
Qed.

Lemma seed_sorted history a : StrictSorted Z.ltb (used_ (seed history a)).
Proof.
  unfold seed. cbn [used_].
  rewrite <- (foldl_fmap (fun used g => set_insert Z.ltb g used) [] _ generation_of).
  apply foldl_set_insert_sorted; [apply _|constructor].
Qed.

Lemma sorted_last_greatest l m :
  StrictSorted Z.ltb l -> last l = Some m -> m ∈ l /\ forall x, x ∈ l -> x <= m.
Proof.
  intros Hs Hl. apply last_Some in Hl as [l' ->].
  apply StronglySorted_app in Hs as (Hlt & _ & _). split; [set_solver|].
  intros x [Hx| ->%list_elem_of_singleton]%elem_of_app; [|done].
  assert (Z.ltb x m = true) as H by (apply Hlt; [done|set_solver]). lia.
Qed.

Lemma generation_range history f :
  store_wf history -> f ∈ flattened_facts history -> is_u64 (generation_of f).
Proof.
  intros [Hok _] Hf. destruct (flattened_ok _ _ Hok Hf) as ([_ He] & _). apply He.
Qed.

Lemma seed_ok history a : store_wf history -> allocator_ok (seed history a).
Proof.
  intros Hs. split_and!; [apply seed_sorted|..].
  - apply Forall_forall. intros x (f & Hf & ->)%seed_used. by eapply generation_range.
  - pose proof (seed_sorted history a) as Hsort. pose proof (seed_used history a) as Hin.
    unfold seed in *. cbn [used_ cursor_] in *. destruct (last _) as [m|] eqn:El; [|unfold is_u64; lia].
    destruct (sorted_last_greatest _ _ Hsort El) as [Hm _]. apply Hin in Hm as (f & Hf & ->).
    pose proof (generation_range _ _ Hs Hf) as Hr. unfold is_u64, u64_max in *.
    destruct (Z.eqb_spec (generation_of f) (2 ^ 64 - 1)); lia.
Qed.

Lemma foldl_set_insert_length l s :
  zlen (foldl (fun s x => set_insert Z.ltb x s) s l) <= zlen s + zlen l.
Proof.
  revert s. induction l as [|x l IH]; intros s; cbn [foldl]; [rewrite zlen_nil; lia|].
  rewrite zlen_cons. etransitivity; [apply IH|].
  enough (zlen (set_insert Z.ltb x s) <= zlen s + 1) by lia. clear.
  induction s as [|y s IH]; cbn [set_insert]; [by cbn|].
  repeat case_match; rewrite ?zlen_cons in *; lia.
Qed.

Lemma seed_length history a : zlen (used_ (seed history a)) <= zlen (flattened_facts history).
Proof.
  unfold seed. cbn [used_].
  rewrite <- (foldl_fmap (fun used g => set_insert Z.ltb g used) [] _ generation_of).
  etransitivity; [apply foldl_set_insert_length|]. unfold zlen. rewrite length_fmap. cbn. lia.
Qed.

(** The cursor after seeding, when there is room above the greatest generation. *)
Lemma seed_cursor history a b :
  (forall f, f ∈ flattened_facts history -> generation_of f <= b) -> 0 <= b < u64_max ->
  (b = 0 \/ exists f, f ∈ flattened_facts history /\ generation_of f = b) ->
  (forall f, f ∈ flattened_facts history -> 0 <= generation_of f) ->
  cursor_ (seed history a) = b + 1.
Proof.
  intros Hall Hb Hwit Hpos. pose proof (seed_sorted history a) as Hsort.
  pose proof (seed_used history a) as Hin. unfold seed in *. cbn [used_ cursor_] in *.
  destruct (last _) as [m|] eqn:El.
  - destruct (sorted_last_greatest _ _ Hsort El) as [Hm Hmax].
    pose proof Hm as (f & Hf & ->)%Hin. pose proof (Hall _ Hf). pose proof (Hpos _ Hf).
    assert (generation_of f = b) as Hfb.
    { destruct Hwit as [->|(f' & Hf' & <-)]; [lia|].
      pose proof (Hmax (generation_of f') (proj2 (Hin _) ltac:(by exists f'))). lia. }
    rewrite Hfb. destruct (Z.eqb_spec b u64_max); lia.
  - apply last_None in El. destruct Hwit as [->|(f & Hf & _)]; [done|].
    assert (generation_of f ∈ @nil Z) as Hn by (rewrite <- El; apply Hin; by exists f).
    by apply elem_of_nil in Hn.
Qed.

(** ** Sessions *)

Lemma allocate_many_some n a :
  allocator_ok a -> zlen (used_ a) + Z.of_nat n <= u64_max ->
  exists gs a', allocate_many n a = Some (gs, a') /\ length gs = n /\ NoDup gs /\
    Forall (fun g => 1 <= g <= u64_max /\ g ∉ used_ a) gs.
Proof.
  revert a. induction n as [|n IH]; intros a Ha Hlen.
  { exists [], a. split_and!; [done|done|constructor|constructor]. }
  destruct (allocate_total a Ha ltac:(lia)) as (g & a1 & E).
  destruct (allocate_some _ _ _ Ha E) as (Ha1 & Hg & Hr & Hin & _).
  pose proof (allocate_length _ _ _ Ha E) as Hl1.
  destruct (IH a1 Ha1 ltac:(lia)) as (gs & a2 & E2 & Hlgs & Hnd & Hall).
  exists (g :: gs), a2. cbn [allocate_many]. rewrite E, E2. rewrite Forall_forall in Hall.
  split_and!; [done|by cbn; rewrite Hlgs| |].
  - constructor; [|done]. intros Hgs. destruct (Hall _ Hgs) as [_ Hn]. apply Hn, Hin. by left.
  - constructor; [done|]. apply Forall_forall. intros x Hx. destruct (Hall _ Hx) as [? Hn].
    split; [done|]. intros Hu. apply Hn, Hin. by right.
Qed.

(** With nothing used from the cursor on, a session counts up from the cursor. *)
Lemma allocate_many_consecutive n a :
  allocator_ok a -> 1 <= cursor_ a -> (forall x, x ∈ used_ a -> x < cursor_ a) ->
  cursor_ a + Z.of_nat n <= u64_max + 1 ->
  exists a', allocate_many n a = Some (seqZ (cursor_ a) (Z.of_nat n), a').
Proof.
  revert a. induction n as [|n IH]; intros a Ha Hc Hused Hlen; [by exists a|].
  assert (allocate a = Some (cursor_ a, {| used_ := set_insert Z.ltb (cursor_ a) (used_ a);
                                           cursor_ := next_generation (cursor_ a) |})) as E.
  { unfold allocate. rewrite (proj2 (Z.eqb_neq _ _)) by lia.
    assert (set_count Z.ltb (cursor_ a) (used_ a) = false) as Hn.
    { apply not_true_iff_false. rewrite (set_count_elem Z.ltb) by apply Ha.
      intros Hx%Hused. lia. }
    destruct (length (used_ a)); cbn [first_unused]; by rewrite Hn. }
  cbn [allocate_many]. rewrite E. destruct (allocate_some _ _ _ Ha E) as (Ha1 & _ & _ & Hin & _).
  rewrite seqZ_cons by lia. replace (Z.pred (Z.of_nat (S n))) with (Z.of_nat n) by lia.
  destruct n as [|n]; [by eexists|].
  assert (next_generation (cursor_ a) = Z.succ (cursor_ a)) as En.
  { unfold next_generation. rewrite (proj2 (Z.eqb_neq _ _)) by lia. lia. }
  edestruct IH as [a' E']; [exact Ha1|..].
  - cbn [cursor_]. rewrite En. lia.
  - intros x [->|Hx%Hused]%Hin; cbn [cursor_]; rewrite En; lia.
  - cbn [cursor_]. rewrite En. lia.
  - cbn [cursor_] in E'. rewrite En in E'. rewrite En, E'. by eexists.
Qed.

(** ** The view as insertions into a ledger *)

Lemma view_add_all policy history :
  view policy history =
  ledger_add_all (List.filter (is_active policy) (flattened_facts history)) empty_store.
Proof.
  unfold view, ledger_add_all. generalize empty_store.
  induction (flattened_facts history) as [|f l IH]; intros s; cbn [foldl List.filter]; [done|].
  destruct (is_active policy f); cbn [foldl]; apply IH.
Qed.

Lemma active_view_facts policy history x :
  store_wf history ->
  x ∈ flattened_facts (view policy history) <->
  x ∈ flattened_facts history /\ is_active policy x = true.
Proof.
  intros Hs. rewrite view_add_all. pose proof (ledger_facts_inputs history Hs) as Hin.
  rewrite Forall_forall in Hin.
  assert (Forall ledger_input (List.filter (is_active policy) (flattened_facts history))) as Hl
    by (apply Forall_forall; intros f [_ Hf]%elem_of_filter; by apply Hin).
  apply (iff_trans (@ledger_add_all_facts _ _ store_ledger _ empty_store x empty_store_wf Hl)).
  split.
  - intros [(f & [Ha Hf]%elem_of_filter & Hacc)|Hx]; [|by apply elem_of_nil in Hx].
    destruct (@ledger_facts_input _ _ store_ledger history f Hs Hf) as [_ Hacc'].
    assert (f = x) as -> by congruence. done.
  - intros [Hx Ha]. left. exists x. split; [by apply elem_of_filter|].
    by apply (@ledger_facts_input _ _ store_ledger history).
Qed.

Lemma active_view_wf policy history : store_wf history -> store_wf (view policy history).
Proof.
  intros Hs. rewrite view_add_all. apply (@ledger_add_all_ok _ _ store_ledger); [exact empty_store_wf|].
  pose proof (ledger_facts_inputs history Hs) as Hin. rewrite Forall_forall in Hin.
  apply Forall_forall. intros f [_ Hf]%elem_of_filter. by apply Hin.
Qed.

(** ** Properties *)

(** An allocation returns the first unused nonzero 64-bit value at or after
    the cursor, counting up and from the maximum on to 1, and records it as used;
    the loop ends after at most one test more than there are used values.  It
    has no result exactly when every nonzero value is used. *)
Theorem allocate_exact a :
  allocator_ok a ->
  let start := if cursor_ a =? 0 then 1 else cursor_ a in
  match allocate a with
  | Some (g, a') =>
      1 <= g <= u64_max /\ g ∉ used_ a /\
      (exists i, (i <= length (used_ a))%nat /\ g = (start - 1 + Z.of_nat i) mod u64_max + 1 /\
         forall j, (j < i)%nat -> (start - 1 + Z.of_nat j) mod u64_max + 1 ∈ used_ a) /\
      (forall x, x ∈ used_ a' <-> x = g \/ x ∈ used_ a) /\
      cursor_ a' = (if g =? u64_max then 1 else g + 1) /\ allocator_ok a'
  | None => forall x, 1 <= x <= u64_max -> x ∈ used_ a
  end.
Proof.
  intros Ha. cbn zeta. destruct (allocate a) as [[g a']|] eqn:E; [|by apply allocate_none].
  destruct (allocate_some _ _ _ Ha E) as (Ha' & Hg & Hr & Hin & Hc).
  split_and!; try done; try lia. unfold allocate in E. destruct Ha as (Hs & _ & Hcur).
  destruct (first_unused _ _ _) as [c|] eqn:Ef; [|done]. injection E as -> _.
  destruct (first_unused_some _ Hs _ _ _ (cursor_start _ Hcur) Ef) as (i & Hi & -> & _ & Hall).
  by exists i.
Qed.

Lemma allocate_exact_witness :
  let a := {| used_ := [1; 2; u64_max]; cursor_ := u64_max |} in
  allocate a = Some (3, {| used_ := [1; 2; 3; u64_max]; cursor_ := 4 |}) /\ 3 ∉ used_ a.
Proof.
  cbv zeta. assert (allocator_ok {| used_ := [1; 2; u64_max]; cursor_ := u64_max |}) as H.
  { split_and!; cbn [used_ cursor_]; [|repeat constructor; unfold is_u64, u64_max; lia|
      unfold is_u64, u64_max; lia].
    repeat constructor. }
  split; [reflexivity|]. exact (proj1 (proj2 (allocate_exact _ H))).
Defined.

(** Generations allocated after seeding from a ledger are fresh.  As long as
    the ledger and the session leave a value free, every allocation of the session
    succeeds with a nonzero value that no held fact carries and that no other
    allocation of the session returns, whatever generations the ledger holds.  When
    there is room above the greatest held generation the session counts up from it. *)
Theorem allocated_generations_fresh history a n :
  store_wf history -> zlen (flattened_facts history) + Z.of_nat n <= u64_max ->
  exists gs a', allocate_many n (seed history a) = Some (gs, a') /\
    length gs = n /\ NoDup gs /\
    (forall g, g ∈ gs -> 1 <= g <= u64_max /\
       forall f, f ∈ flattened_facts history -> sc_generation (ev_scope (af_evidence f)) <> g) /\
    (forall b, (forall f, f ∈ flattened_facts history ->
                  sc_generation (ev_scope (af_evidence f)) <= b) ->
       (b = 0 \/ exists f, f ∈ flattened_facts history /\
                           sc_generation (ev_scope (af_evidence f)) = b) ->
       b + Z.of_nat n <= u64_max -> b < u64_max -> gs = seqZ (b + 1) (Z.of_nat n)).
Proof.
  intros Hs Hlen. pose proof (seed_ok history a Hs) as Hok. pose proof (seed_length history a) as Hl.
  destruct (allocate_many_some n _ Hok ltac:(lia)) as (gs & a' & E & Hn & Hnd & Hall).
  exists gs, a'. rewrite Forall_forall in Hall. split_and!; [done..| |].
  - intros g Hg. destruct (Hall _ Hg) as [Hr Hu]. split; [done|]. intros f Hf Hfg.
    apply Hu, seed_used. by exists f.
  - intros b Hb Hwit Hroom Hlt.
    assert (forall f, f ∈ flattened_facts history -> 0 <= generation_of f) as Hpos
      by (intros f Hf; by apply (generation_range history)).
    assert (0 <= b) as Hb0 by (destruct Hwit as [->|(f & Hf & <-)]; [done|by apply Hpos]).
    pose proof (seed_cursor history a b Hb ltac:(lia) Hwit Hpos) as Hc.
    destruct (allocate_many_consecutive n _ Hok) as [a2 E2]; rewrite ?Hc; [lia| |lia|].
    + intros x (f & Hf & ->)%seed_used. specialize (Hb _ Hf). unfold generation_of. lia.
    + rewrite E2, Hc in E. by injection E as <- _.
Qed.

Lemma allocated_generations_fresh_witness :
  let history := (add sample_fact (add region_fact empty_store).2).2 in
  store_wf history /\
  exists gs a', allocate_many 2 (seed history new_allocator) = Some (gs, a') /\ length gs = 2%nat.
Proof.
  cbv zeta. assert (store_wf (add sample_fact (add region_fact empty_store).2).2) as H
    by (apply add_wf; [apply add_wf; [exact empty_store_wf|exact region_fact_typed]|
        exact sample_fact_typed]).
  split; [exact H|].
  destruct (allocated_generations_fresh _ new_allocator 2 H) as (gs & a' & E & Hn & _).
  - vm_compute. discriminate.
  - exists gs, a'. split; [exact E|exact Hn].
Defined.

(** The active view of a well-formed ledger is a well-formed store that holds
    exactly the held facts that the policy calls active, and applying the policy to
    the view again changes nothing. *)
Theorem active_view_exact policy history :
  store_wf history ->
  store_wf (view policy history) /\
  (forall f, f ∈ flattened_facts (view policy history) <->
     f ∈ flattened_facts history /\ is_active policy f = true) /\
  records_ (view policy (view policy history)) = records_ (view policy history).
Proof.
  intros Hs. pose proof (active_view_wf policy history Hs) as Hv. split_and!; [done|..].
  - intros f. by apply active_view_facts.
  - apply records_ext; [apply (active_view_wf policy), Hv|apply Hv|]. intros f.
    rewrite !active_view_facts by done. tauto.
Qed.

(** Active when function 16 is at generation 3. *)
Definition sample_policy : ActiveEvidencePolicy :=
  {| provider_generation := 0; provider_functions := []; function_generations := [(16, 3)] |}.

Lemma active_view_exact_witness :
  store_wf (add sample_fact empty_store).2 /\
  store_wf (view sample_policy (add sample_fact empty_store).2).
Proof.
  split; [exact (add_wf _ _ empty_store_wf sample_fact_typed)|].
  exact (proj1 (active_view_exact sample_policy _ (add_wf _ _ empty_store_wf sample_fact_typed))).
Defined.

(** A new analysis starts without stale evidence.  When every generation that
    the policy names was allocated after seeding from the ledger (or the provider
    generation is still 0), the active view of that ledger holds exactly its
    user-asserted facts. *)
Theorem fresh_policy_retires_history policy history a n gs a' :
  store_wf history -> allocate_many n (seed history a) = Some (gs, a') ->
  zlen (flattened_facts history) + Z.of_nat n <= u64_max ->
  (provider_generation policy = 0 \/ provider_generation policy ∈ gs) ->
  (forall start g, (start, g) ∈ function_generations policy -> g ∈ gs) ->
  map_ok Z.ltb (function_generations policy) ->
  forall f, f ∈ flattened_facts (view policy history) <->
    f ∈ flattened_facts history /\ ev_proof (af_evidence f) = ProofKind_UserAsserted.
Proof.
  intros Hs E Hlen Hprov Hfun Hmap f. rewrite active_view_facts by done.
  pose proof (seed_ok history a Hs) as Hok. pose proof (seed_length history a) as Hl.
  destruct (allocate_many_some n _ Hok ltac:(lia)) as (gs' & a2 & E' & _ & _ & Hall).
  rewrite E in E'. injection E' as <- _. rewrite Forall_forall in Hall.
  split; [|intros [Hf Hu]; split; [done|]; unfold is_active; cbn zeta; by rewrite Hu].
  intros [Hf Hact]. split; [done|].
  assert (generation_of f ∉ gs) as Hstale.
  { intros [_ Hn]%Hall. apply Hn, seed_used. by exists f. }
  unfold is_active in Hact. cbn zeta in Hact.
  destruct (bool_decide (ev_proof (af_evidence f) = ProofKind_UserAsserted)) eqn:Eu;
    [by apply bool_decide_eq_true in Eu|].
  exfalso. apply Hstale. destruct (complete_provider _).
  - destruct (Z.eqb_spec (provider_generation policy) 0) as [|Hne]; [done|].
    destruct Hprov as [|Hprov]; [done|]. cbn [orb] in Hact.
    destruct (Z.eqb_spec (sc_generation (ev_scope (af_evidence f))) (provider_generation policy)) as [Eg|];
      [|done]. unfold generation_of. by rewrite Eg.
  - destruct (sc_function_start _) as [start|]; [|done].
    destruct (map_find _ _ _) as [g|] eqn:Eg; [|done]. apply Z.eqb_eq in Hact.
    unfold generation_of. rewrite Hact. eapply Hfun. by apply (map_find_elem Z.ltb) in Eg.
Qed.

Lemma fresh_policy_retires_history_witness :
  let history := (add sample_fact empty_store).2 in
  let policy := {| provider_generation := 4; provider_functions := [4096];
                   function_generations := [(4096, 4)] |} in
  allocate_many 1 (seed history new_allocator) = Some ([4], {| used_ := [3; 4]; cursor_ := 5 |}) /\
  forall f, f ∈ flattened_facts (view policy history) <->
    f ∈ flattened_facts history /\ ev_proof (af_evidence f) = ProofKind_UserAsserted.
Proof.
  cbv zeta.
  assert (allocate_many 1 (seed (add sample_fact empty_store).2 new_allocator) =
          Some ([4], {| used_ := [3; 4]; cursor_ := 5 |})) as E by (vm_compute; reflexivity).
  split; [exact E|].
  apply (fresh_policy_retires_history _ _ _ 1 _ _
           (add_wf _ _ empty_store_wf sample_fact_typed) E).
  - vm_compute. discriminate.
  - right. by apply list_elem_of_singleton.
  - intros start g H. apply list_elem_of_singleton in H. injection H as _ ->.
    by apply list_elem_of_singleton.
  - repeat constructor.
Defined.
