(* ===== verification/ApplyPolicy.v ===== *)
(** The application policy ([src/src/evidence_apply_policy.hpp],
    [src/src/evidence_apply_policy.cpp]): which stored facts may change the
    database, and the plan of decisions for a whole store. *)
From stdpp Require Import base numbers list strings option sets.
From Stdlib Require Import ZArith Init.Byte Sorting.Sorted Lia.
From S2P Require Import Prelude OrderedMap Ledger Loops FactTypes Sha256 Validate FactCodec.
From S2P Require Import Store Conflicts ConflictScan ConflictQuery.

(** ** Data *)

Definition kAutomaticProofConfidence : Z := 9000.
Definition kCorroboratedRunConfidence : Z := 8000.
Definition kCorroboratedRunFloor : Z := 2.
Definition kFunctionCandidateStaticConfidence : Z := 7500.

Record EvidenceApplyPolicy := {
  allow_function_recovery : bool;
  allow_unreachable_comments : bool
}.

Definition default_policy : EvidenceApplyPolicy :=
  {| allow_function_recovery := true; allow_unreachable_comments := true |}.

Inductive EvidenceActionKind :=
| EvidenceActionKind_None
| EvidenceActionKind_AddCallReference
| EvidenceActionKind_AddJumpReference
| EvidenceActionKind_CreateFunction
| EvidenceActionKind_CommentProvenUnreachable.

Inductive EvidenceDecisionReason :=
| EvidenceDecisionReason_Actionable
| EvidenceDecisionReason_Contradicted
| EvidenceDecisionReason_BelowTrustThreshold
| EvidenceDecisionReason_DisabledByConfiguration
| EvidenceDecisionReason_UnsupportedTargetKind
| EvidenceDecisionReason_UnsupportedPayloadKind
| EvidenceDecisionReason_NonActionableReachability.

#[export] Instance action_eq_decision : EqDecision EvidenceActionKind.
Proof. solve_decision. Defined.
#[export] Instance reason_eq_decision : EqDecision EvidenceDecisionReason.
Proof. solve_decision. Defined.

Record EvidenceApplyDecision := {
  ad_payload : FactPayload;
  ad_action : EvidenceActionKind;
  ad_reason : EvidenceDecisionReason
}.

Record EvidenceApplyPlan := {
  pl_decisions : list EvidenceApplyDecision;
  pl_contradiction_suppressed : Z;
  pl_below_trust_threshold : Z;
  pl_disabled_by_configuration : Z;
  pl_contradiction_scan : ContradictionScanStats
}.

(** ** Trust *)

Definition trusted_proof (proof : ProofKind) : bool :=
  (proof == ProofKind_StaticProof) || (proof == ProofKind_SymbolicProof) ||
  (proof == ProofKind_UserAsserted).

Definition has_strong_proof (record : EvidenceRecord) : bool :=
  existsb (fun evidence => trusted_proof (ev_proof evidence) &&
                           (kAutomaticProofConfidence <=? ev_confidence evidence))
    (er_observations record).

Definition evidence_is_automatically_actionable (record : EvidenceRecord) : bool :=
  has_strong_proof record ||
  is_corroborated record kCorroboratedRunFloor 1 kCorroboratedRunConfidence.

Definition function_candidate_is_actionable (record : EvidenceRecord) : bool :=
  existsb (fun evidence => (ev_proof evidence == ProofKind_StaticProof) &&
                           (kFunctionCandidateStaticConfidence <=? ev_confidence evidence))
    (er_observations record) ||
  is_corroborated record kCorroboratedRunFloor 1 kCorroboratedRunConfidence.

(** ** Decisions *)

(** The switch on the kind of a code target: the action it selects, or nothing
    where it returns.  A value outside the enumeration matches no case and keeps
    the initial action. *)
Definition target_action (kind : CodeTargetKind) : option EvidenceActionKind :=
  match kind with
  | CodeTargetKind_Call => Some EvidenceActionKind_AddCallReference
  | CodeTargetKind_Jump | CodeTargetKind_TableEntry => Some EvidenceActionKind_AddJumpReference
  | CodeTargetKind_Unknown | CodeTargetKind_Fallthrough | CodeTargetKind_Return
  | CodeTargetKind_Exception => None
  | CodeTargetKind_Invalid => Some EvidenceActionKind_None
  end.

Definition classify_record (record : EvidenceRecord) (contradicted : bool)
    (policy : EvidenceApplyPolicy) : EvidenceApplyDecision :=
  let decide action reason :=
    {| ad_payload := er_payload record; ad_action := action; ad_reason := reason |} in
  if contradicted
  then decide EvidenceActionKind_None EvidenceDecisionReason_Contradicted
  else
    match er_payload record with
    | P_CodeTarget target =>
        match target_action (ct_kind target) with
        | None => decide EvidenceActionKind_None EvidenceDecisionReason_UnsupportedTargetKind
        | Some action =>
            if negb (evidence_is_automatically_actionable record)
            then decide EvidenceActionKind_None EvidenceDecisionReason_BelowTrustThreshold
            else decide action EvidenceDecisionReason_Actionable
        end
    | P_FunctionCandidate _ =>
        if negb (allow_function_recovery policy)
        then decide EvidenceActionKind_None EvidenceDecisionReason_DisabledByConfiguration
        else if negb (function_candidate_is_actionable record)
        then decide EvidenceActionKind_None EvidenceDecisionReason_BelowTrustThreshold
        else decide EvidenceActionKind_CreateFunction EvidenceDecisionReason_Actionable
    | P_BranchReachability reach =>
        if negb (br_state reach == Reachability_ProvenUnreachable)
        then decide EvidenceActionKind_None EvidenceDecisionReason_NonActionableReachability
        else if negb (allow_unreachable_comments policy)
        then decide EvidenceActionKind_None EvidenceDecisionReason_DisabledByConfiguration
        else if negb (evidence_is_automatically_actionable record)
        then decide EvidenceActionKind_None EvidenceDecisionReason_BelowTrustThreshold
        else decide EvidenceActionKind_CommentProvenUnreachable EvidenceDecisionReason_Actionable
    | _ => decide EvidenceActionKind_None EvidenceDecisionReason_UnsupportedPayloadKind
    end.

Definition account_decision (plan : EvidenceApplyPlan) (reason : EvidenceDecisionReason) :
    EvidenceApplyPlan :=
  let count suppressed below disabled :=
    {| pl_decisions := pl_decisions plan;
       pl_contradiction_suppressed := pl_contradiction_suppressed plan + suppressed;
       pl_below_trust_threshold := pl_below_trust_threshold plan + below;
       pl_disabled_by_configuration := pl_disabled_by_configuration plan + disabled;
       pl_contradiction_scan := pl_contradiction_scan plan |} in
  match reason with
  | EvidenceDecisionReason_Contradicted => count 1 0 0
  | EvidenceDecisionReason_BelowTrustThreshold => count 0 1 0
  | EvidenceDecisionReason_DisabledByConfiguration => count 0 0 1
  | EvidenceDecisionReason_Actionable | EvidenceDecisionReason_UnsupportedTargetKind
  | EvidenceDecisionReason_UnsupportedPayloadKind
  | EvidenceDecisionReason_NonActionableReachability => plan
  end.

Definition push_decision (decision : EvidenceApplyDecision) (plan : EvidenceApplyPlan) :
    EvidenceApplyPlan :=
  {| pl_decisions := pl_decisions plan ++ [decision];
     pl_contradiction_suppressed := pl_contradiction_suppressed plan;
     pl_below_trust_threshold := pl_below_trust_threshold plan;
     pl_disabled_by_configuration := pl_disabled_by_configuration plan;
     pl_contradiction_scan := pl_contradiction_scan plan |}.

(** A record whose digest cannot be computed counts as contradicted. *)
Definition is_contradicted (contradicted : list FactDigest) (record : EvidenceRecord) : bool :=
  match payload_digest (er_payload record) with
  | Err _ => true
  | Ok digest => set_count digest_lt digest contradicted
  end.

Definition plan_record (contradicted : list FactDigest) (policy : EvidenceApplyPolicy)
    (plan : EvidenceApplyPlan) (record : EvidenceRecord) : EvidenceApplyPlan :=
  let decision := classify_record record (is_contradicted contradicted record) policy in
  push_decision decision (account_decision plan (ad_reason decision)).

Definition plan_evidence_application (store : EvidenceStore) (policy : EvidenceApplyPolicy) :
    EvidenceApplyPlan :=
  let '(contradicted, stats) := contradicted_payload_digests store in
  foldl (plan_record contradicted policy)
    {| pl_decisions := []; pl_contradiction_suppressed := 0; pl_below_trust_threshold := 0;
       pl_disabled_by_configuration := 0; pl_contradiction_scan := stats |}
    (records store).

(** ** What the policy promises *)

(** Two observations of different runs, each of confidence 8000 or more. *)
Definition corroborated (observations : list Evidence) : Prop :=
  exists e1 e2 run1 run2, e1 ∈ observations /\ e2 ∈ observations /\
    sc_run_id (ev_scope e1) = Some run1 /\ sc_run_id (ev_scope e2) = Some run2 /\ run1 <> run2 /\
    8000 <= ev_confidence e1 /\ 8000 <= ev_confidence e2.

(** A static, symbolic or user proof of confidence 9000 or more. *)
Definition strongly_proved (observations : list Evidence) : Prop :=
  exists e, e ∈ observations /\ 9000 <= ev_confidence e /\
    (ev_proof e = ProofKind_StaticProof \/ ev_proof e = ProofKind_SymbolicProof \/
     ev_proof e = ProofKind_UserAsserted).

Definition statically_found (observations : list Evidence) : Prop :=
  exists e, e ∈ observations /\ 7500 <= ev_confidence e /\ ev_proof e = ProofKind_StaticProof.

(** The actions that a payload with these observations supports. *)
Inductive supports (policy : EvidenceApplyPolicy) :
    FactPayload -> list Evidence -> EvidenceActionKind -> Prop :=
| supports_call f obs :
    ct_kind f = CodeTargetKind_Call -> strongly_proved obs \/ corroborated obs ->
    supports policy (P_CodeTarget f) obs EvidenceActionKind_AddCallReference
| supports_jump f obs :
    ct_kind f = CodeTargetKind_Jump \/ ct_kind f = CodeTargetKind_TableEntry ->
    strongly_proved obs \/ corroborated obs ->
    supports policy (P_CodeTarget f) obs EvidenceActionKind_AddJumpReference
| supports_function f obs :
    allow_function_recovery policy = true -> statically_found obs \/ corroborated obs ->
    supports policy (P_FunctionCandidate f) obs EvidenceActionKind_CreateFunction
| supports_comment f obs :
    br_state f = Reachability_ProvenUnreachable -> allow_unreachable_comments policy = true ->
    strongly_proved obs \/ corroborated obs ->
    supports policy (P_BranchReachability f) obs EvidenceActionKind_CommentProvenUnreachable.

Lemma sorted_two {A} (lt : A -> A -> bool) `{!StrictTotal lt} s :
  StrictSorted lt s -> 2 <= zlen s <-> exists x y, x ∈ s /\ y ∈ s /\ x <> y.
Proof.
  intros Hs%StrictSorted_NoDup; [|done]. split.
  - destruct s as [|x [|y s]]; [by cbn|by cbn|]. intros _. exists x, y.
    apply NoDup_cons in Hs as [Hx _]. split_and!; set_solver.
  - intros (x & y & Hx & Hy & Hne). destruct s as [|a [|b s]].
    + by apply elem_of_nil in Hx.
    + apply list_elem_of_singleton in Hx, Hy. congruence.
    + rewrite !zlen_cons. pose proof (zlen_nonneg s). lia.
Qed.

Lemma elem_of_present {A} (f : Evidence -> option A) l x :
  x ∈ present f l <-> exists e, e ∈ l /\ f e = Some x.
Proof.
  unfold present. rewrite elem_of_concat_map. split; intros (e & He & Hx); exists e; split; try done.
  - destruct (f e); [|by apply elem_of_nil in Hx]. apply list_elem_of_singleton in Hx. congruence.
  - rewrite Hx. by apply list_elem_of_singleton.
Qed.

Lemma corroborated_iff r :
  is_corroborated r kCorroboratedRunFloor 1 kCorroboratedRunConfidence = true <->
  corroborated (er_observations r).
Proof.
  unfold is_corroborated. change (kMaxConfidence <? kCorroboratedRunConfidence) with false. cbn iota.
  pose proof (corroborating_sets kCorroboratedRunConfidence (er_observations r) [] []
    ltac:(constructor) ltac:(constructor)) as Hsets.
  destruct (foldl _ _ _) as [runs producers]. destruct Hsets as (Hr & Hp & Hrin & Hpin).
  rewrite andb_true_iff, !Z.leb_le. unfold kCorroboratedRunFloor.
  rewrite (sorted_two Z.ltb) by done.
  assert (forall run, run ∈ runs <-> exists e, e ∈ er_observations r /\ 8000 <= ev_confidence e /\
                                             sc_run_id (ev_scope e) = Some run) as Hruns.
  { intros run. rewrite Hrin, elem_of_present. setoid_rewrite elem_of_filter.
    setoid_rewrite Z.leb_le. change kCorroboratedRunConfidence with 8000. set_solver. }
  unfold corroborated. split.
  - intros [(x & y & (e1 & ? & ? & ?)%Hruns & (e2 & ? & ? & ?)%Hruns & Hne) _].
    by exists e1, e2, x, y.
  - intros (e1 & e2 & x & y & H1 & H2 & Hx & Hy & Hne & Hc1 & Hc2). split.
    + exists x, y. rewrite !Hruns. eauto 10.
    + assert (ev_producer e1 ∈ producers) as Hin.
      { apply Hpin. right. apply list_elem_of_fmap. exists e1. split; [done|].
        apply elem_of_filter. split; [|done]. by apply Z.leb_le. }
      destruct producers; [by apply elem_of_nil in Hin|]. rewrite zlen_cons.
      pose proof (zlen_nonneg producers). lia.
Qed.

Lemma existsb_elem {A} (p : A -> bool) l : existsb p l = true <-> exists x, x ∈ l /\ p x = true.
Proof. rewrite existsb_exists. by setoid_rewrite list_elem_of_In. Qed.

Lemma strong_iff r : has_strong_proof r = true <-> strongly_proved (er_observations r).
Proof.
  unfold has_strong_proof, strongly_proved, trusted_proof. rewrite existsb_elem.
  setoid_rewrite andb_true_iff. setoid_rewrite orb_true_iff. setoid_rewrite orb_true_iff.
  setoid_rewrite bool_decide_eq_true. setoid_rewrite Z.leb_le.
  change kAutomaticProofConfidence with 9000. naive_solver.
Qed.

Lemma actionable_iff r :
  evidence_is_automatically_actionable r = true <->
  strongly_proved (er_observations r) \/ corroborated (er_observations r).
Proof.
  unfold evidence_is_automatically_actionable. by rewrite orb_true_iff, strong_iff, corroborated_iff.
Qed.

Lemma candidate_iff r :
  function_candidate_is_actionable r = true <->
  statically_found (er_observations r) \/ corroborated (er_observations r).
Proof.
  unfold function_candidate_is_actionable, statically_found.
  rewrite orb_true_iff, corroborated_iff, existsb_elem.
  setoid_rewrite andb_true_iff. setoid_rewrite bool_decide_eq_true. setoid_rewrite Z.leb_le.
  change kFunctionCandidateStaticConfidence with 7500. naive_solver.
Qed.

(** ** One decision *)

Lemma valid_target_kind f :
  validate_payload (P_CodeTarget f) = Ok tt -> ct_kind f <> CodeTargetKind_Invalid.
Proof. intros Hv E. unfold validate_payload in Hv. by rewrite E in Hv. Qed.

Lemma supports_classified r policy a :
  supports policy (er_payload r) (er_observations r) a ->
  ad_action (classify_record r false policy) = a /\ a <> EvidenceActionKind_None.
Proof.
  remember (er_payload r) as p eqn:Ep. remember (er_observations r) as obs eqn:Eo.
  intros H. unfold classify_record. rewrite <- Ep. destruct H as [f obs Hk Ht|f obs Hk Ht|f obs Hk Ht|f obs Hk Hc Ht];
    subst obs; first [apply actionable_iff in Ht|apply candidate_iff in Ht]; cbn [negb]; cbn zeta.
  - by rewrite Hk, Ht.
  - destruct Hk as [Hk|Hk]; by rewrite Hk, Ht.
  - by rewrite Hk, Ht.
  - by rewrite Hk, Hc, Ht.
Qed.

Lemma classified_supports r policy :
  validate_payload (er_payload r) = Ok tt ->
  let decision := classify_record r false policy in
  (ad_reason decision = EvidenceDecisionReason_Actionable /\
   supports policy (er_payload r) (er_observations r) (ad_action decision)) \/
  (ad_reason decision <> EvidenceDecisionReason_Actionable /\
   ad_action decision = EvidenceActionKind_None).
Proof.
  intros Hv. cbn zeta. unfold classify_record. cbn zeta.
  destruct (er_payload r) as [f|f|f|f|f|f|f|f|f|f|f|f|f] eqn:Ep; try (by right).
  - apply valid_target_kind in Hv.
    destruct (evidence_is_automatically_actionable r) eqn:Et.
    + apply actionable_iff in Et. destruct (ct_kind f) eqn:Ek; cbn [target_action negb];
        try (by right); try done; left; (split; [done|]); econstructor; eauto.
    + right. by destruct (ct_kind f).
  - destruct (br_state f == Reachability_ProvenUnreachable) eqn:Es; [|by right].
    destruct (allow_unreachable_comments policy) eqn:Ea; [|by right].
    destruct (evidence_is_automatically_actionable r) eqn:Et; [|by right].
    left. split; [done|]. apply bool_decide_eq_true in Es. apply actionable_iff in Et. by constructor.
  - destruct (allow_function_recovery policy) eqn:Ea; [|by right].
    destruct (function_candidate_is_actionable r) eqn:Et; [|by right].
    left. split; [done|]. apply candidate_iff in Et. by constructor.
Qed.

(** ** The plan of a store *)

Definition count_reason (reason : EvidenceDecisionReason) (decisions : list EvidenceApplyDecision) : Z :=
  zlen (List.filter (fun d => ad_reason d == reason) decisions).

Definition decide_record (s : EvidenceStore) (policy : EvidenceApplyPolicy) (r : EvidenceRecord) :
    EvidenceApplyDecision :=
  classify_record r (is_contradicted (contradicted_payload_digests s).1 r) policy.

Lemma plan_fold contradicted policy rs plan :
  let decisions := map (fun r => classify_record r (is_contradicted contradicted r) policy) rs in
  let plan' := foldl (plan_record contradicted policy) plan rs in
  pl_decisions plan' = pl_decisions plan ++ decisions /\
  pl_contradiction_suppressed plan' =
    pl_contradiction_suppressed plan + count_reason EvidenceDecisionReason_Contradicted decisions /\
  pl_below_trust_threshold plan' =
    pl_below_trust_threshold plan + count_reason EvidenceDecisionReason_BelowTrustThreshold decisions /\
  pl_disabled_by_configuration plan' =
    pl_disabled_by_configuration plan +
    count_reason EvidenceDecisionReason_DisabledByConfiguration decisions /\
  pl_contradiction_scan plan' = pl_contradiction_scan plan.
Proof.
  cbn zeta. revert plan. induction rs as [|r rs IH]; intros plan.
  { cbn. rewrite app_nil_r. unfold count_reason. cbn. rewrite !zlen_nil. split_and!; try done; lia. }
  cbn [foldl map]. destruct (IH (plan_record contradicted policy plan r)) as (-> & -> & -> & -> & ->).
  clear IH. unfold plan_record, count_reason. cbn zeta. cbn [List.filter].
  destruct (ad_reason (classify_record r (is_contradicted contradicted r) policy));
    repeat first [rewrite bool_decide_true by done|rewrite bool_decide_false by done];
    unfold account_decision, push_decision; cbn [pl_decisions pl_contradiction_suppressed
      pl_below_trust_threshold pl_disabled_by_configuration pl_contradiction_scan];
    rewrite ?zlen_cons, <- ?app_assoc; split_and!; try done; try lia.
Qed.

Lemma stored_digest s key r :
  records_ok (records_ s) -> (key, r) ∈ records_ s ->
  payload_digest (er_payload r) = Ok (sha256_bytes key).
Proof.
  intros Hok Hin. destruct (proj2 Hok _ _ Hin) as (Hk & _ & Hv & _). unfold payload_digest.
  by rewrite (encode_payload_valid _ Hv), Hk.
Qed.

(** A clash with any other held payload suppresses a record, and a suppressed
    record has the digest of a payload in a clash. *)
Lemma is_contradicted_iff s key r :
  records_ok (records_ s) -> (key, r) ∈ records_ s ->
  is_contradicted (contradicted_payload_digests s).1 r = true <->
  exists k1 r1 k2 r2, (k1, r1) ∈ records_ s /\ (k2, r2) ∈ records_ s /\
    clash (er_payload r1) (er_payload r2) /\ sha256_bytes key = sha256_bytes k1.
Proof.
  intros Hok Hin. unfold is_contradicted. rewrite (stored_digest s key r) by done.
  rewrite (set_count_elem digest_lt) by (by apply (contradicted_all_pairs s zero_digest)).
  by apply contradicted_members.
Qed.

Lemma plan_decisions s policy :
  pl_decisions (plan_evidence_application s policy) = map (decide_record s policy) (records s).
Proof.
  unfold plan_evidence_application, decide_record.
  destruct (contradicted_payload_digests s) as [contradicted stats]. cbn [fst].
  by destruct (plan_fold contradicted policy (records s)
    {| pl_decisions := []; pl_contradiction_suppressed := 0; pl_below_trust_threshold := 0;
       pl_disabled_by_configuration := 0; pl_contradiction_scan := stats |}) as (-> & _).
Qed.

Lemma elem_of_records s r : r ∈ records s <-> exists key, (key, r) ∈ records_ s.
Proof.
  unfold records. rewrite list_elem_of_fmap. split.
  - intros ([key r'] & -> & Hin). by exists key.
  - intros [key Hin]. by exists (key, r).
Qed.

Lemma decide_contradicted s policy r :
  is_contradicted (contradicted_payload_digests s).1 r = true ->
  ad_reason (decide_record s policy r) = EvidenceDecisionReason_Contradicted /\
  ad_action (decide_record s policy r) = EvidenceActionKind_None.
Proof. intros H. unfold decide_record. by rewrite H. Qed.

Lemma decide_payload s policy r : ad_payload (decide_record s policy r) = er_payload r.
Proof.
  unfold decide_record, classify_record. cbn zeta.
  repeat case_match; cbn [ad_payload]; congruence.
Qed.

Lemma classify_reason r policy :
  ad_reason (classify_record r false policy) <> EvidenceDecisionReason_Contradicted.
Proof.
  unfold classify_record. cbn zeta.
  repeat (case_match; cbn [ad_reason]; try discriminate).
Qed.

(** The records of a store are found again in every store with more facts. *)
Lemma records_monotone s t key r :
  records_ok (records_ s) -> records_ok (records_ t) ->
  (forall f, f ∈ flattened_facts s -> f ∈ flattened_facts t) ->
  (key, r) ∈ records_ s -> exists r', (key, r') ∈ records_ t /\ er_payload r' = er_payload r.
Proof.
  intros Hs Ht Hsub Hin. destruct (proj2 Hs _ _ Hin) as (Hk & _ & _ & Hne & _).
  destruct (er_observations r) as [|e obs] eqn:Eo; [done|].
  assert ({| af_payload := er_payload r; af_evidence := e |} ∈ flattened_facts t) as Hf.
  { apply Hsub, elem_of_flattened. exists key, r. cbn [af_payload af_evidence]. rewrite Eo.
    split_and!; [done|done|by left]. }
  apply elem_of_flattened in Hf as (key' & r' & Hin' & Hp & _). cbn [af_payload] in Hp.
  exists r'. split; [|done]. destruct (proj2 Ht _ _ Hin') as (Hk' & _).
  rewrite Hp in Hk'. congruence.
Qed.

Lemma suppressed_monotone s t key r r' :
  records_ok (records_ s) -> records_ok (records_ t) ->
  (forall f, f ∈ flattened_facts s -> f ∈ flattened_facts t) ->
  (key, r) ∈ records_ s -> (key, r') ∈ records_ t ->
  is_contradicted (contradicted_payload_digests s).1 r = true ->
  is_contradicted (contradicted_payload_digests t).1 r' = true.
Proof.
  intros Hs Ht Hsub Hin Hin'. rewrite (is_contradicted_iff s key), (is_contradicted_iff t key) by done.
  intros (k1 & r1 & k2 & r2 & H1 & H2 & Hc & Hd).
  destruct (records_monotone s t k1 r1 Hs Ht Hsub H1) as (r1' & H1' & Hp1).
  destruct (records_monotone s t k2 r2 Hs Ht Hsub H2) as (r2' & H2' & Hp2).
  exists k1, r1', k2, r2'. by rewrite Hp1, Hp2.
Qed.

(** ** Properties *)

(** C5: the plan authorises exactly the supported changes.  For a well-formed store
    and an action other than none, a decision for the payload with this action is in
    the plan if and only if the payload is held, its kind and observations support
    the action under the policy (a strong proof, or two different runs of confidence
    8000; a static proof of 7500 for functions), and no contradiction that conflict
    detection reports has the payload as a participant. *)
Theorem plan_authorises_exactly s policy p a :
  store_wf s -> a <> EvidenceActionKind_None ->
  (exists d, d ∈ pl_decisions (plan_evidence_application s policy) /\
             ad_payload d = p /\ ad_action d = a) <->
  exists r, r ∈ records s /\ er_payload r = p /\ supports policy p (er_observations r) a /\
    forall c digest, c ∈ detect_conflicts s -> ec_severity c = ConflictSeverity_Contradiction ->
      payload_digest p = Ok digest -> ec_left c <> digest /\ ec_right c <> digest.
Proof.
  intros [Hok _] Ha. rewrite plan_decisions.
  assert (forall key r, (key, r) ∈ records_ s ->
    is_contradicted (contradicted_payload_digests s).1 r = false <->
    forall c digest, c ∈ detect_conflicts s -> ec_severity c = ConflictSeverity_Contradiction ->
      payload_digest (er_payload r) = Ok digest -> ec_left c <> digest /\ ec_right c <> digest) as Hclean.
  { intros key r Hin. rewrite <- not_true_iff_false. unfold is_contradicted.
    rewrite (stored_digest s key r) by done.
    rewrite (set_count_elem digest_lt) by (by apply (contradicted_all_pairs s zero_digest)).
    rewrite contradicted_reported by done. split.
    - intros Hn c d Hc Hsev [= <-]. split; intros E; apply Hn; exists c; auto.
    - intros H (c & Hc & Hsev & Hd). destruct (H c _ Hc Hsev eq_refl). tauto. }
  split.
  - intros (d & (r & -> & [key Hin]%elem_of_records)%list_elem_of_fmap & Hp & Hact).
    rewrite decide_payload in Hp. exists r. split; [by apply elem_of_records; exists key|].
    split; [done|]. subst p.
    destruct (is_contradicted (contradicted_payload_digests s).1 r) eqn:Ec.
    { destruct (decide_contradicted s policy r Ec) as [_ E]. congruence. }
    split; [|by apply (Hclean key)]. unfold decide_record in Hact. rewrite Ec in Hact.
    destruct (classified_supports r policy) as [[_ Hs]|[_ Hs]];
      [by destruct (proj2 Hok _ _ Hin) as (_ & _ & ? & _)| |congruence].
    by rewrite Hact in Hs.
  - intros (r & [key Hin]%elem_of_records & <- & Hsup & Hno). apply (Hclean key r Hin) in Hno.
    exists (decide_record s policy r). rewrite decide_payload. split_and!; [|done|].
    + apply list_elem_of_fmap. exists r. split; [done|]. apply elem_of_records. by exists key.
    + unfold decide_record. rewrite Hno. by apply supports_classified.
Qed.

(** A statically proved call. *)
Definition call_fact : AnalysisFact :=
  {| af_payload := P_CodeTarget {| ct_from := 4096; ct_target := 8192;
                                   ct_kind := CodeTargetKind_Call; ct_unique := true |};
     af_evidence := static_evidence |}.

Lemma call_fact_typed : fact_typed call_fact.
Proof. split; simpl; unfold is_u16, is_u64; split_and!; repeat constructor; simpl; unfold is_u64; lia. Qed.

Lemma plan_authorises_exactly_witness :
  store_wf (add call_fact empty_store).2 /\
  exists d, d ∈ pl_decisions (plan_evidence_application (add call_fact empty_store).2 default_policy) /\
    ad_payload d = af_payload call_fact /\ ad_action d = EvidenceActionKind_AddCallReference.
Proof.
  pose proof (add_wf _ _ empty_store_wf call_fact_typed) as H.
  split; [exact H|].
  apply (plan_authorises_exactly _ default_policy (af_payload call_fact)
           EvidenceActionKind_AddCallReference H); [discriminate|].
  exists {| er_payload := af_payload call_fact; er_observations := [static_evidence] |}.
  split_and!.
  - assert (records (add call_fact empty_store).2 =
            [{| er_payload := af_payload call_fact; er_observations := [static_evidence] |}]) as ->
      by (vm_compute; reflexivity).
    by apply list_elem_of_singleton.
  - reflexivity.
  - apply supports_call; [reflexivity|]. left. exists static_evidence.
    split; [by apply list_elem_of_singleton|]. split; [cbn; lia|by left].
  - intros c digest Hc. assert (detect_conflicts (add call_fact empty_store).2 = []) as E
      by (vm_compute; reflexivity).
    rewrite E in Hc. by apply elem_of_nil in Hc.
Defined.

(** The plan decides every record once, in the order of the store, and explains
    each decision.  A record whose payload clashes with a held payload is reported as
    contradicted; a record is so reported only when its digest belongs to a held
    payload in a clash; a decision is actionable exactly when it has an action. *)
Theorem plan_explains_every_record s policy :
  store_wf s ->
  Forall2 (fun entry d =>
      ad_payload d = er_payload entry.2 /\
      ((exists other, other ∈ records s /\ clash (er_payload entry.2) (er_payload other)) ->
       ad_reason d = EvidenceDecisionReason_Contradicted) /\
      (ad_reason d = EvidenceDecisionReason_Contradicted ->
       exists r1 r2, r1 ∈ records s /\ r2 ∈ records s /\ clash (er_payload r1) (er_payload r2) /\
         payload_digest (er_payload r1) = payload_digest (er_payload entry.2)) /\
      (ad_reason d = EvidenceDecisionReason_Actionable <-> ad_action d <> EvidenceActionKind_None))
    (records_ s) (pl_decisions (plan_evidence_application s policy)).
Proof.
  intros [Hok _]. rewrite plan_decisions. unfold records. rewrite Forall2_fmap_r, Forall2_fmap_r.
  apply Forall_Forall2_diag, Forall_forall. intros [key r] Hin. fold (records s).
  unfold compose. cbn [snd]. rewrite decide_payload. split; [done|].
  destruct (is_contradicted (contradicted_payload_digests s).1 r) eqn:Ec.
  - destruct (decide_contradicted s policy r Ec) as [-> ->]. split_and!; [done| |done].
    intros _. apply (is_contradicted_iff s key) in Ec as (k1 & r1 & k2 & r2 & H1 & H2 & Hc & Hd); [|done..].
    exists r1, r2. rewrite (stored_digest s k1), (stored_digest s key), Hd by done.
    split_and!; [apply elem_of_records; by eexists..|done|done].
  - split_and!.
    + intros (other & [k2 H2]%elem_of_records & Hc). exfalso. apply not_true_iff_false in Ec.
      apply Ec, (is_contradicted_iff s key); [done..|]. by exists key, r, k2, other.
    + intros Hr. unfold decide_record in Hr. rewrite Ec in Hr. by destruct (classify_reason r policy).
    + unfold decide_record. rewrite Ec.
      destruct (classified_supports r policy) as [[-> Hs]|[Hne ->]];
        [by destruct (proj2 Hok _ _ Hin) as (_ & _ & ? & _)|by destruct Hs|done].
Qed.

Lemma plan_explains_every_record_witness :
  store_wf (add call_fact empty_store).2 /\
  length (records_ (add call_fact empty_store).2) =
    length (pl_decisions (plan_evidence_application (add call_fact empty_store).2 default_policy)).
Proof.
  pose proof (add_wf _ _ empty_store_wf call_fact_typed) as H.
  split; [exact H|]. exact (Forall2_length _ _ _ (plan_explains_every_record _ default_policy H)).
Defined.

(** Suppression is monotone.  If one well-formed store holds all facts of
    another, every payload that the plan of the smaller store reports as contradicted
    is also reported so by the plan of the larger one: no added evidence makes a
    contradicted payload actionable again. *)
Theorem suppression_monotone s t policy policy' d :
  store_wf s -> store_wf t ->
  (forall f, f ∈ flattened_facts s -> f ∈ flattened_facts t) ->
  d ∈ pl_decisions (plan_evidence_application s policy) ->
  ad_reason d = EvidenceDecisionReason_Contradicted ->
  forall d', d' ∈ pl_decisions (plan_evidence_application t policy') ->
    ad_payload d' = ad_payload d ->
    ad_reason d' = EvidenceDecisionReason_Contradicted /\ ad_action d' = EvidenceActionKind_None.
Proof.
  intros [Hs _] [Ht _] Hsub. rewrite !plan_decisions.
  intros (r & -> & [key Hin]%elem_of_records)%list_elem_of_fmap Hr d'
    (r' & -> & [key' Hin']%elem_of_records)%list_elem_of_fmap.
  rewrite !decide_payload. intros Hp.
  assert (key' = key) as ->.
  { destruct (proj2 Hs _ _ Hin) as (Hk & _), (proj2 Ht _ _ Hin') as (Hk' & _). congruence. }
  apply decide_contradicted, (suppressed_monotone s t key r); try done.
  apply not_false_iff_true. intros Ec. unfold decide_record in Hr. rewrite Ec in Hr.
  by destruct (classify_reason r policy).
Qed.

(** The same transfer with another sole target. *)
Definition rival_fact : AnalysisFact :=
  {| af_payload := P_CodeTarget {| ct_from := 4096; ct_target := 12288;
                                   ct_kind := CodeTargetKind_Call; ct_unique := true |};
     af_evidence := static_evidence |}.

Lemma rival_fact_typed : fact_typed rival_fact.
Proof. split; simpl; unfold is_u16, is_u64; split_and!; repeat constructor; simpl; unfold is_u64; lia. Qed.

Definition rivals : EvidenceStore := (add rival_fact (add call_fact empty_store).2).2.

Lemma rivals_wf : store_wf rivals.
Proof. apply add_wf; [exact (add_wf _ _ empty_store_wf call_fact_typed)|exact rival_fact_typed]. Qed.

Definition call_record : EvidenceRecord :=
  {| er_payload := af_payload call_fact; er_observations := [static_evidence] |}.
Definition rival_record : EvidenceRecord :=
  {| er_payload := af_payload rival_fact; er_observations := [static_evidence] |}.

Lemma rivals_records : records rivals = [call_record; rival_record].
Proof. vm_compute. reflexivity. Qed.

Lemma rivals_suppressed :
  is_contradicted (contradicted_payload_digests rivals).1 call_record = true.
Proof.
  assert (exists key, (key, call_record) ∈ records_ rivals) as [key H1]
    by (apply elem_of_records; rewrite rivals_records; apply elem_of_cons; by left).
  assert (exists key, (key, rival_record) ∈ records_ rivals) as [key' H2]
    by (apply elem_of_records; rewrite rivals_records; set_solver).
  apply (is_contradicted_iff rivals key); [apply rivals_wf|done|].
  exists key, call_record, key', rival_record. split_and!; [done|done| |done].
  left. eexists _, _. split_and!; try reflexivity; [discriminate|by left].
Qed.

Lemma suppression_monotone_witness :
  store_wf rivals /\
  forall d', d' ∈ pl_decisions (plan_evidence_application (add region_fact rivals).2 default_policy) ->
    ad_payload d' = af_payload call_fact ->
    ad_reason d' = EvidenceDecisionReason_Contradicted /\ ad_action d' = EvidenceActionKind_None.
Proof.
  split; [exact rivals_wf|].
  apply (suppression_monotone rivals _ default_policy default_policy
           (decide_record rivals default_policy call_record)).
  - exact rivals_wf.
  - exact (add_wf _ _ rivals_wf region_fact_typed).
  - intros f Hf. apply add_facts_iff; [apply rivals_wf|exact region_fact_typed|by right].
  - rewrite plan_decisions, rivals_records. apply list_elem_of_fmap. exists call_record.
    split; [reflexivity|]. apply elem_of_cons. by left.
  - apply decide_contradicted, rivals_suppressed.
Defined.

(** The plan is determined by the facts held, not by how they were inserted or
    whether the store has built its index, and its counters count its decisions. *)
Theorem plan_determined_by_facts s t policy :
  store_wf s -> store_wf t ->
  (forall f, f ∈ flattened_facts s <-> f ∈ flattened_facts t) ->
  plan_evidence_application s policy = plan_evidence_application t policy /\
  let plan := plan_evidence_application s policy in
  zlen (pl_decisions plan) = record_count s /\
  pl_contradiction_suppressed plan =
    count_reason EvidenceDecisionReason_Contradicted (pl_decisions plan) /\
  pl_below_trust_threshold plan =
    count_reason EvidenceDecisionReason_BelowTrustThreshold (pl_decisions plan) /\
  pl_disabled_by_configuration plan =
    count_reason EvidenceDecisionReason_DisabledByConfiguration (pl_decisions plan) /\
  pl_contradiction_scan plan = (contradicted_payload_digests s).2.
Proof.
  intros [Hs _] [Ht _] Heq. split.
  - unfold plan_evidence_application, contradicted_payload_digests, contradiction_scan, records.
    by rewrite (records_ext s t Hs Ht Heq).
  - cbn zeta. rewrite plan_decisions. unfold plan_evidence_application, decide_record.
    destruct (contradicted_payload_digests s) as [contradicted stats]. cbn [fst snd].
    pose proof (plan_fold contradicted policy (records s)
      {| pl_decisions := []; pl_contradiction_suppressed := 0; pl_below_trust_threshold := 0;
         pl_disabled_by_configuration := 0; pl_contradiction_scan := stats |}) as H.
    cbn zeta in H. destruct H as (_ & -> & -> & -> & ->). split_and!; try done.
    unfold zlen, record_count, records. by rewrite !length_fmap.
Qed.

Lemma plan_determined_by_facts_witness :
  let s := (add region_fact (add call_fact empty_store).2).2 in
  let t := (add call_fact (add region_fact empty_store).2).2 in
  plan_evidence_application s default_policy = plan_evidence_application t default_policy.
Proof.
  cbv zeta. refine (proj1 (plan_determined_by_facts _ _ default_policy _ _ _)).
  - exact (add_wf _ _ (add_wf _ _ empty_store_wf call_fact_typed) region_fact_typed).
  - exact (add_wf _ _ (add_wf _ _ empty_store_wf region_fact_typed) call_fact_typed).
  - assert (flattened_facts (add region_fact (add call_fact empty_store).2).2 =
            flattened_facts (add call_fact (add region_fact empty_store).2).2) as ->
      by (vm_compute; reflexivity).
    intros f. exact (iff_refl _).
Defined.

(** Configuration only removes changes.  Against the plan with everything
    allowed, the plan under any policy differs only in records that it reports as
    disabled, without an action; the switches for functions and comments govern
    exactly those two actions. *)
Theorem configuration_only_restricts s policy :
  store_wf s ->
  Forall2 (fun d d' =>
      d' = d \/
      (ad_payload d' = ad_payload d /\ ad_action d' = EvidenceActionKind_None /\
       ad_reason d' = EvidenceDecisionReason_DisabledByConfiguration))
    (pl_decisions (plan_evidence_application s default_policy))
    (pl_decisions (plan_evidence_application s policy)) /\
  forall d, d ∈ pl_decisions (plan_evidence_application s policy) ->
    (ad_action d = EvidenceActionKind_CreateFunction -> allow_function_recovery policy = true) /\
    (ad_action d = EvidenceActionKind_CommentProvenUnreachable ->
     allow_unreachable_comments policy = true) /\
    (ad_reason d = EvidenceDecisionReason_DisabledByConfiguration ->
     allow_function_recovery policy = false \/ allow_unreachable_comments policy = false).
Proof.
  intros [Hok _]. rewrite !plan_decisions. split.
  - rewrite Forall2_fmap. apply Forall_Forall2_diag, Forall_forall. intros r _.
    unfold decide_record, classify_record, default_policy. cbn zeta.
    cbn [allow_function_recovery allow_unreachable_comments negb].
    repeat case_match; auto.
  - intros d (r & -> & [key Hin]%elem_of_records)%list_elem_of_fmap.
    destruct (proj2 Hok _ _ Hin) as (_ & _ & Hv & _). unfold decide_record.
    destruct (is_contradicted _ _); [done|]. split_and!.
    1,2: intros Ha; destruct (classified_supports r policy Hv) as [[_ Hs]|[_ E]]; [|congruence];
      rewrite Ha in Hs; by inversion Hs.
    unfold classify_record. cbn zeta.
    destruct (allow_function_recovery policy), (allow_unreachable_comments policy); auto.
    intros Hr. exfalso. repeat (case_match; cbn [negb ad_reason] in *; try discriminate).
Qed.

Lemma configuration_only_restricts_witness :
  store_wf (add call_fact empty_store).2 /\
  Forall2 (fun d d' =>
      d' = d \/
      (ad_payload d' = ad_payload d /\ ad_action d' = EvidenceActionKind_None /\
       ad_reason d' = EvidenceDecisionReason_DisabledByConfiguration))
    (pl_decisions (plan_evidence_application (add call_fact empty_store).2 default_policy))
    (pl_decisions (plan_evidence_application (add call_fact empty_store).2
       {| allow_function_recovery := false; allow_unreachable_comments := false |})).
Proof.
  pose proof (add_wf _ _ empty_store_wf call_fact_typed) as H.
  split; [exact H|]. exact (proj1 (configuration_only_restricts _ _ H)).
Defined.
