(* ===== verification/ProgramModel.v ===== *)
(** The program image ([src/src/program_model.hpp], [src/src/program_model_core.cpp]):
    queries on segments and functions, and the content hashes.  The hashes are
    modelled with their fast paths (runs of zero words, the forward walk over the
    segments) and compared with byte-by-byte references. *)
From stdpp Require Import base numbers list strings option sets.
From Stdlib Require Import ZArith Init.Byte Sorting.Sorted Lia.
From S2P Require Import Prelude OrderedMap FactTypes Wire.

(** ** Data *)

Inductive ViyArch :=
| UNSUPPORTED | X86_16 | X86_32 | X86_64 | ARM64 | ARM32 | RISCV64 | CORTEX_M | HEXAGON.

Definition arch_value (arch : ViyArch) : Z :=
  match arch with
  | UNSUPPORTED => 0 | X86_16 => 1 | X86_32 => 2 | X86_64 => 3 | ARM64 => 4 | ARM32 => 5
  | RISCV64 => 6 | CORTEX_M => 7 | HEXAGON => 8
  end.

Inductive ViySegPerm := SegPerm_EXEC | SegPerm_WRITE | SegPerm_READ.

Definition perm_bits (required : ViySegPerm) : Z :=
  match required with SegPerm_EXEC => 1 | SegPerm_WRITE => 2 | SegPerm_READ => 4 end.

(** The view points into [bytes] of a segment: its offset there, or null. *)
Record LoadedByteView := { lv_data : option Z; lv_size : Z }.

Definition null_view : LoadedByteView := {| lv_data := None; lv_size := 0 |}.

Record SegImage := {
  sg_start : Z;
  sg_end : Z;
  sg_perm : Z;
  sg_bitness : Z;
  sg_bytes : bytes;
  sg_mask : bytes
}.

Record FuncChunk := { ch_start : Z; ch_end : Z }.

Record FuncRange := {
  fr_start : Z;
  fr_end : Z;
  fr_chunks : list FuncChunk;
  fr_byte_hash : Z;
  fr_generation : Z
}.

Record ProgramImage := {
  im_arch : ViyArch;
  im_big_endian : bool;
  im_lo : Z;
  im_hi : Z;
  im_segs : list SegImage;
  im_entries : list FuncRange;
  im_content_hash : Z;
  im_generation : Z
}.

Definition VIY_FUNCTION_HASH_VERSION : Z := 1.

(** ** Segments *)

Definition seg_contains (s : SegImage) (ea : Z) : bool := (sg_start s <=? ea) && (ea <? sg_end s).

(** [mask[off / 8] & (1u << (off & 7))] with its bounds check. *)
Definition mask_loaded (mask : bytes) (off : Z) : bool :=
  (off / 8 <? zlen mask) &&
  negb (Z.land (b2z (nth (Z.to_nat (off / 8)) mask x00)) (Z.shiftl 1 (Z.land off 7)) =? 0).

Definition seg_byte_loaded (s : SegImage) (ea : Z) : bool :=
  if negb (seg_contains s ea) then false else mask_loaded (sg_mask s) (ea - sg_start s).

Definition seg_has_perm (s : SegImage) (required : ViySegPerm) : bool :=
  Z.land (sg_perm s) (perm_bits required) =? perm_bits required.

(** [for (i = 0; i < count && (bits & (1u << i)) != 0; ++i) ++length;] *)
Fixpoint count_low_bits (count : nat) (bits : Z) (i : Z) : Z :=
  match count with
  | O => 0
  | S count =>
      if negb (Z.land bits (Z.shiftl 1 i) =? 0) then 1 + count_low_bits count bits (i + 1) else 0
  end.

(** The loop over the bitmap.  Every turn that goes on adds a byte or more, so
    [limit] turns are enough ([view_loop_exact]). *)
Fixpoint view_loop (fuel : nat) (mask : bytes) (begin limit length : Z) : Z :=
  match fuel with
  | O => length
  | S fuel =>
      if limit <=? length then length
      else
        let current := begin + length in
        if zlen mask <=? current / 8 then length
        else
          let count := Z.min (8 - Z.land current 7) (limit - length) in
          let bits := Z.shiftr (b2z (nth (Z.to_nat (current / 8)) mask x00)) (Z.land current 7) in
          let required := Z.shiftl 1 count - 1 in
          if negb (Z.land bits required =? required)
          then length + count_low_bits (Z.to_nat count) bits 0
          else view_loop fuel mask begin limit (length + count)
  end.

Definition seg_loaded_view (s : SegImage) (ea maximum_bytes : Z) : LoadedByteView :=
  if negb (seg_contains s ea) || (maximum_bytes =? 0) then null_view
  else
    let offset := ea - sg_start s in
    if zlen (sg_bytes s) <=? offset then null_view
    else
      let limit := Z.min (sg_end s - ea) (Z.min maximum_bytes (zlen (sg_bytes s) - offset)) in
      let length := view_loop (Z.to_nat limit) (sg_mask s) offset limit 0 in
      if length =? 0 then null_view else {| lv_data := Some offset; lv_size := length |}.

(** ** Functions *)

Definition chunk_contains (c : FuncChunk) (ea : Z) : bool := (ch_start c <=? ea) && (ea <? ch_end c).

Definition chunk_size (c : FuncChunk) : Z :=
  if ch_start c <? ch_end c then ch_end c - ch_start c else 0.

Definition func_contains (f : FuncRange) (ea : Z) : bool :=
  match fr_chunks f with
  | [] => (fr_start f <=? ea) && (ea <? fr_end f)
  | chunks => existsb (fun c => chunk_contains c ea) chunks
  end.

Fixpoint sum_sizes (chunks : list FuncChunk) (total : Z) : Z :=
  match chunks with
  | [] => total
  | c :: r =>
      let n := chunk_size c in
      if u64_max - total <? n then u64_max else sum_sizes r (total + n)
  end.

Definition byte_size (f : FuncRange) : Z :=
  match fr_chunks f with
  | [] => if fr_start f <? fr_end f then fr_end f - fr_start f else 0
  | chunks => sum_sizes chunks 0
  end.

(** ** The image *)

(** The binary search of [segment_at]; the interval shrinks in every turn. *)
Fixpoint search_segment (fuel : nat) (segs : list SegImage) (ea : Z) (first last : nat) : nat :=
  match fuel with
  | O => first
  | S fuel =>
      if Nat.ltb first last then
        let mid := (first + (last - first) / 2)%nat in
        match segs !! mid with
        | Some s =>
            if sg_start s <=? ea then search_segment fuel segs ea (S mid) last
            else search_segment fuel segs ea first mid
        | None => first
        end
      else first
  end.

Definition segment_at (img : ProgramImage) (ea : Z) : option SegImage :=
  match search_segment (length (im_segs img)) (im_segs img) ea 0 (length (im_segs img)) with
  | O => None
  | S n =>
      match im_segs img !! n with
      | Some candidate => if seg_contains candidate ea then Some candidate else None
      | None => None
      end
  end.

Definition img_contains (img : ProgramImage) (ea : Z) : bool :=
  match segment_at img ea with Some _ => true | None => false end.

Definition img_byte_loaded (img : ProgramImage) (ea : Z) : bool :=
  match segment_at img ea with Some s => seg_byte_loaded s ea | None => false end.

Definition img_loaded_view (img : ProgramImage) (ea maximum_bytes : Z) : LoadedByteView :=
  match segment_at img ea with
  | None => null_view
  | Some s => seg_loaded_view s ea maximum_bytes
  end.

Definition img_has_perm (img : ProgramImage) (ea : Z) (required : ViySegPerm) (allow_unknown : bool) :
    bool :=
  match segment_at img ea with
  | None => false
  | Some s => (allow_unknown && (sg_perm s =? 0)) || seg_has_perm s required
  end.

Definition executable (img : ProgramImage) (ea : Z) (allow_unknown : bool) : bool :=
  img_has_perm img ea SegPerm_EXEC allow_unknown.
Definition writable (img : ProgramImage) (ea : Z) (allow_unknown : bool) : bool :=
  img_has_perm img ea SegPerm_WRITE allow_unknown.
Definition readable (img : ProgramImage) (ea : Z) (allow_unknown : bool) : bool :=
  img_has_perm img ea SegPerm_READ allow_unknown.

Definition function_at (img : ProgramImage) (ea : Z) : option FuncRange :=
  let '(low, high) := lower_bound (fun f => fr_start f <? ea) (im_entries img) in
  let scan := List.find (fun f => func_contains f ea) (im_entries img) in
  let previous :=
    match last low with
    | Some candidate => if func_contains candidate ea then Some candidate else scan
    | None => scan
    end in
  match high with
  | f :: _ => if fr_start f =? ea then Some f else previous
  | [] => previous
  end.

(** ** Hashes *)

Definition kFnvOffset : Z := 14695981039346656037.
Definition kFnvPrime : Z := 1099511628211.

Definition mul64 (a b : Z) : Z := (a * b) mod 2 ^ 64.

Definition hash_byte (hash value : Z) : Z := mul64 (Z.lxor hash value) kFnvPrime.

Fixpoint zero_byte_multiplier (count : nat) : Z :=
  match count with O => 1 | S count => mul64 (zero_byte_multiplier count) kFnvPrime end.

(** [memcpy] of eight bytes to a word; only its being zero is ever looked at. *)
Definition load_word (data : bytes) : Z := be_combine (take 8 data).

(** [do ... while (word == 0)]: the rest after the zero words, and their number. *)
Fixpoint skip_zero_words (fuel : nat) (data : bytes) (words : Z) : bytes * Z :=
  match fuel with
  | O => (data, words)
  | S fuel =>
      if zlen data <? 8 then (data, words)
      else if load_word data =? 0 then skip_zero_words fuel (drop 8 data) (words + 1)
      else (data, words)
  end.

(** [while (words != 0)]: exponentiation by squaring; 64 turns empty a word. *)
Fixpoint multiply_words (fuel : nat) (hash multiplier words : Z) : Z :=
  match fuel with
  | O => hash
  | S fuel =>
      if words =? 0 then hash
      else
        let hash := if negb (Z.land words 1 =? 0) then mul64 hash multiplier else hash in
        multiply_words fuel hash (mul64 multiplier multiplier) (Z.shiftr words 1)
  end.

(** [hash_byte] on each byte in turn. *)
Definition hash_each (hash : Z) (data : bytes) : Z :=
  foldl (fun h b => hash_byte h (b2z b)) hash data.

(** The loop of [hash_bytes] over [data] from [offset] on. *)
Fixpoint hash_bytes_loop (fuel : nat) (hash : Z) (data : bytes) : Z :=
  match fuel with
  | O => hash
  | S fuel =>
      if 8 <=? zlen data then
        if load_word data =? 0 then
          let '(rest, words) := skip_zero_words (length data) (drop 8 data) 1 in
          hash_bytes_loop fuel (multiply_words 64 hash (zero_byte_multiplier 8) words) rest
        else
          hash_bytes_loop fuel (hash_each hash (take 8 data)) (drop 8 data)
      else hash_each hash data
  end.

Definition hash_bytes (hash : Z) (data : bytes) : Z := hash_bytes_loop (S (length data)) hash data.

Fixpoint hash_u64_loop (n : nat) (hash value shift : Z) : Z :=
  match n with
  | O => hash
  | S n => hash_u64_loop n (hash_byte hash (Z.shiftr value shift mod 256)) value (shift + 8)
  end.

Definition hash_u64 (hash value : Z) : Z := hash_u64_loop 8 hash value 0.

(** The bytes of a mapped run, from offset [off] in its segment. *)
Fixpoint hash_run (count : nat) (s : SegImage) (hash off : Z) : Z :=
  match count with
  | O => hash
  | S count =>
      let loaded := mask_loaded (sg_mask s) off in
      let hash := hash_byte hash (if loaded then 2 else 1) in
      let hash :=
        if loaded
        then hash_byte hash
               (if off <? zlen (sg_bytes s) then b2z (nth (Z.to_nat off) (sg_bytes s) x00) else 0)
        else hash in
      hash_run count s hash (off + 1)
  end.

(** [while (segment != end && segment->end <= ea) ++segment;] *)
Fixpoint skip_segments (segs : list SegImage) (ea : Z) : list SegImage :=
  match segs with
  | s :: r => if sg_end s <=? ea then skip_segments r ea else segs
  | [] => []
  end.

(** The walk over the chunk; [None] when the fuel does not reach its end. *)
Fixpoint walk_chunk (fuel : nat) (segment : list SegImage) (hash ea chunk_end : Z) : option Z :=
  if ea <? chunk_end then
    match fuel with
    | O => None
    | S fuel =>
        match skip_segments segment ea with
        | (s :: _) as segment =>
            if seg_contains s ea then
              let run_end := Z.min chunk_end (sg_end s) in
              walk_chunk fuel segment
                (hash_run (Z.to_nat (run_end - ea)) s hash (ea - sg_start s)) run_end chunk_end
            else
              let next := Z.min chunk_end (sg_start s) in
              walk_chunk fuel segment (hash_u64 (hash_byte hash 0) (next - ea)) next chunk_end
        | [] =>
            walk_chunk fuel [] (hash_u64 (hash_byte hash 0) (chunk_end - ea)) chunk_end chunk_end
        end
    end
  else Some hash.

(** [std::upper_bound] on the starts, and one segment back. *)
Definition first_segment (segs : list SegImage) (ea : Z) : list SegImage :=
  let '(low, high) := lower_bound (fun s => negb (ea <? sg_start s)) segs in
  match last low with Some s => s :: high | None => high end.

(** A gap and a mapped run per segment, and a last gap. *)
Definition walk_fuel (segs : list SegImage) : nat := (2 * length segs + 1)%nat.

Definition hash_chunk_bytes (img : ProgramImage) (func : FuncRange) (hash : Z) (chunk : FuncChunk) :
    option Z :=
  let hash := hash_u64 hash ((ch_start chunk - fr_start func) mod 2 ^ 64) in
  let hash := hash_u64 hash (chunk_size chunk) in
  walk_chunk (walk_fuel (im_segs img)) (first_segment (im_segs img) (ch_start chunk)) hash
    (ch_start chunk) (ch_end chunk).

Fixpoint hash_chunks (img : ProgramImage) (func : FuncRange) (hash : Z) (chunks : list FuncChunk) :
    option Z :=
  match chunks with
  | [] => Some hash
  | c :: r =>
      match hash_chunk_bytes img func hash c with
      | Some hash => hash_chunks img func hash r
      | None => None
      end
  end.

Definition viy_function_byte_hash (img : ProgramImage) (func : FuncRange) : option Z :=
  let hash := hash_u64 kFnvOffset VIY_FUNCTION_HASH_VERSION in
  let nchunks := if zlen (fr_chunks func) =? 0 then 1 else zlen (fr_chunks func) in
  let hash := hash_u64 hash nchunks in
  match fr_chunks func with
  | [] => hash_chunk_bytes img func hash {| ch_start := fr_start func; ch_end := fr_end func |}
  | chunks => hash_chunks img func hash chunks
  end.

Definition hash_segment (lo hash : Z) (s : SegImage) : Z :=
  let hash := hash_u64 hash (if lo <=? sg_start s then sg_start s - lo else sg_start s) in
  let hash := hash_u64 hash (if sg_start s <? sg_end s then sg_end s - sg_start s else 0) in
  let hash := hash_u64 hash (sg_perm s) in
  let hash := hash_byte hash (sg_bitness s) in
  let hash := hash_u64 hash (zlen (sg_bytes s)) in
  let hash := hash_u64 hash (zlen (sg_mask s)) in
  hash_bytes (hash_bytes hash (sg_mask s)) (sg_bytes s).

Definition viy_program_content_hash (img : ProgramImage) : Z :=
  let hash := hash_u64 kFnvOffset (arch_value (im_arch img)) in
  let hash := hash_byte hash (if im_big_endian img then 1 else 0) in
  let hash := hash_u64 hash (zlen (im_segs img)) in
  foldl (hash_segment (im_lo img)) hash (im_segs img).

(** ** The bitmap *)

Lemma land_7 n : Z.land n 7 = n mod 8.
Proof. change 7 with (Z.ones 3). by rewrite Z.land_ones. Qed.

Lemma mask_loaded_bit mask off :
  0 <= off ->
  mask_loaded mask off =
  (off / 8 <? zlen mask) && Z.testbit (b2z (nth (Z.to_nat (off / 8)) mask x00)) (off mod 8).
Proof.
  intros Ho. unfold mask_loaded. rewrite land_bit_test, land_7; [done|].
  rewrite land_7. by apply Z.mod_pos_bound.
Qed.

(** The length of the longest prefix of at most [n] numbers with a property. *)
Definition longest (p : Z -> bool) (n k : Z) : Prop :=
  0 <= k <= n /\ (forall j, 0 <= j < k -> p j = true) /\ (k = n \/ p k = false).

Lemma count_low_bits_longest count bits i :
  0 <= i -> longest (fun j => Z.testbit bits (i + j)) (Z.of_nat count) (count_low_bits count bits i).
Proof.
  revert i. induction count as [|count IH]; intros i Hi; cbn [count_low_bits].
  { split_and!; [lia|lia|lia|by left]. }
  rewrite land_bit_test by done. destruct (Z.testbit bits i) eqn:E.
  - destruct (IH (i + 1) ltac:(lia)) as (Hr & Hall & Hend). split_and!; [lia|lia| |].
    + intros j Hj. destruct (Z.eq_dec j 0) as [->|]; [by rewrite Z.add_0_r|].
      replace (i + j) with (i + 1 + (j - 1)) by lia. apply Hall. lia.
    + destruct Hend as [->|Hend]; [left; lia|right].
      by replace (i + (1 + count_low_bits count bits (i + 1))) with
         (i + 1 + count_low_bits count bits (i + 1)) by lia.
  - split_and!; [lia|lia|lia|]. right. by rewrite Z.add_0_r.
Qed.

Lemma all_ones_iff bits count :
  0 <= count ->
  Z.land bits (Z.shiftl 1 count - 1) = Z.shiftl 1 count - 1 <->
  forall j, 0 <= j < count -> Z.testbit bits j = true.
Proof.
  intros Hc. replace (Z.shiftl 1 count - 1) with (Z.ones count) by (rewrite Z.ones_equiv, Z.shiftl_1_l; lia).
  split.
  - intros H j Hj. apply (f_equal (fun x => Z.testbit x j)) in H.
    rewrite Z.land_spec, Z.ones_spec_low, andb_true_r in H by done. done.
  - intros H. apply Z.bits_inj'. intros n Hn. rewrite Z.land_spec.
    destruct (Z.lt_ge_cases n count).
    + by rewrite H, Z.ones_spec_low by lia.
    + by rewrite Z.ones_spec_high, andb_false_r by lia.
Qed.

Lemma view_loop_exact fuel mask begin limit length :
  0 <= begin -> 0 <= length <= limit -> limit - length <= Z.of_nat fuel ->
  longest (fun j => mask_loaded mask (begin + length + j)) (limit - length)
    (view_loop fuel mask begin limit length - length).
Proof.
  revert length. induction fuel as [|fuel IH]; intros length Hb Hl Hf; cbn [view_loop].
  { split_and!; [lia..|]. left. lia. }
  destruct (Z.leb_spec limit length); [split_and!; [lia..|]; left; lia|].
  cbn zeta. set (current := begin + length).
  destruct (Z.leb_spec (zlen mask) (current / 8)) as [Hm|Hm].
  { split_and!; [lia|lia|lia|]. right. rewrite mask_loaded_bit by lia.
    replace (current + (length - length)) with current by lia.
    by rewrite (proj2 (Z.ltb_ge _ _) Hm). }
  rewrite land_7. set (byte_ := b2z (nth (Z.to_nat (current / 8)) mask x00)).
  set (bits := Z.shiftr byte_ (current mod 8)).
  pose proof (Z.mod_pos_bound current 8 eq_refl) as Hmod.
  pose proof (Z.div_mod current 8 ltac:(done)) as Hdm.
  assert (forall j, 0 <= j < 8 - current mod 8 ->
            mask_loaded mask (current + j) = Z.testbit bits j) as Hbits.
  { intros j Hj. rewrite mask_loaded_bit by lia.
    assert ((current + j) / 8 = current / 8 /\ (current + j) mod 8 = current mod 8 + j) as [-> ->].
    { replace (current + j) with (current mod 8 + j + (current / 8) * 8) by lia.
      rewrite Z.div_add, Z.mod_add, Z.div_small, Z.mod_small by lia. lia. }
    unfold bits. rewrite Z.shiftr_spec by lia. rewrite (proj2 (Z.ltb_lt _ _) Hm).
    cbn [andb]. f_equal. lia. }
  set (count := Z.min (8 - current mod 8) (limit - length)).
  destruct (Z.eqb_spec (Z.land bits (Z.shiftl 1 count - 1)) (Z.shiftl 1 count - 1)) as [Hall|Hnot];
    cbn [negb].
  - pose proof (proj1 (all_ones_iff bits count ltac:(lia)) Hall) as Hset.
    destruct (IH (length + count) Hb ltac:(lia) ltac:(lia)) as (Hr & Hin & Hend).
    set (r := view_loop fuel mask begin limit (length + count)) in *.
    split_and!; [lia|lia| |].
    + intros j Hj. destruct (Z.lt_ge_cases j count).
      * rewrite Hbits by lia. apply Hset. lia.
      * replace (current + j) with (begin + (length + count) + (j - count)) by lia. apply Hin. lia.
    + destruct Hend as [He|He]; [left; lia|right]. rewrite <- He. f_equal. lia.
  - destruct (count_low_bits_longest (Z.to_nat count) bits 0 ltac:(lia)) as (Hr & Hin & Hend).
    set (k := count_low_bits (Z.to_nat count) bits 0) in *.
    replace (length + k - length) with k by lia. rewrite Z2Nat.id in * by lia.
    assert (k <> count) as Hk.
    { intros ->. apply Hnot, all_ones_iff; [lia|]. intros j Hj. by apply Hin. }
    split_and!; [lia|lia| |right].
    + intros j Hj. rewrite Hbits by lia. by apply Hin.
    + destruct Hend as [?|Hend]; [done|]. rewrite Hbits by lia. done.
Qed.

(** What a view may cover: bytes that are loaded and backed by the buffer. *)
Definition viewable (s : SegImage) (ea : Z) : bool :=
  seg_byte_loaded s ea && (ea - sg_start s <? zlen (sg_bytes s)).

Lemma loaded_view_longest s ea maximum :
  0 <= maximum ->
  let view := seg_loaded_view s ea maximum in
  longest (fun j => viewable s (ea + j)) maximum (lv_size view) /\
  lv_data view = if lv_size view =? 0 then None else Some (ea - sg_start s).
Proof.
  intros Hm. cbn zeta. unfold seg_loaded_view.
  assert (viewable s ea = false ->
    longest (fun j => viewable s (ea + j)) maximum (lv_size null_view) /\
    lv_data null_view = if lv_size null_view =? 0 then None else Some (ea - sg_start s)) as Hnull.
  { intros E. split; [|done]. split_and!; [done|done|cbn; lia|]. right. cbn. by rewrite Z.add_0_r. }
  destruct (seg_contains s ea) eqn:Ec; cbn [negb orb].
  2: { apply Hnull. unfold viewable, seg_byte_loaded. by rewrite Ec. }
  destruct (Z.eqb_spec maximum 0) as [->|Hmne].
  { split; [|done]. split_and!; [done|done|cbn; lia|by left]. }
  cbn zeta. destruct (Z.leb_spec (zlen (sg_bytes s)) (ea - sg_start s)).
  { apply Hnull. unfold viewable. by rewrite (proj2 (Z.ltb_ge _ _)), andb_false_r by lia. }
  set (offset := ea - sg_start s). apply andb_true_iff in Ec as [Hs%Z.leb_le He%Z.ltb_lt].
  set (limit := Z.min (sg_end s - ea) (Z.min maximum (zlen (sg_bytes s) - offset))).
  destruct (view_loop_exact (Z.to_nat limit) (sg_mask s) offset limit 0 ltac:(lia) ltac:(lia) ltac:(lia))
    as (Hr & Hin & Hend). rewrite !Z.sub_0_r in *.
  set (n := view_loop (Z.to_nat limit) (sg_mask s) offset limit 0) in *.
  assert (forall j, 0 <= j < limit ->
            viewable s (ea + j) = mask_loaded (sg_mask s) (offset + 0 + j)) as Hv.
  { intros j Hj. unfold viewable, seg_byte_loaded, seg_contains.
    rewrite (proj2 (Z.leb_le _ _)), !(proj2 (Z.ltb_lt _ _)) by lia. cbn [andb negb].
    rewrite andb_true_r. f_equal. lia. }
  assert (longest (fun j => viewable s (ea + j)) maximum n) as Hl.
  { split_and!; [lia|lia| |].
    - intros j Hj. rewrite Hv by lia. by apply Hin.
    - destruct (Z.eq_dec n limit) as [Hnl|Hnl]; [|right; rewrite Hv by lia; destruct Hend; done].
      destruct (Z.eq_dec n maximum); [by left|right]. unfold viewable, seg_byte_loaded, seg_contains.
      destruct (Z.ltb_spec (ea + n) (sg_end s)).
      + rewrite (proj2 (Z.ltb_ge (ea + n - sg_start s) _)) by lia. by rewrite andb_false_r.
      + by rewrite andb_false_r. }
  destruct (Z.eqb_spec n 0) as [E0|]; cbn [lv_size lv_data].
  - rewrite E0 in Hl. by split.
  - split; [done|]. by rewrite (proj2 (Z.eqb_neq _ _)).
Qed.

(** ** Segment and function lookup *)

(** The documented snapshot invariant: sorted, positive sizes, no overlaps. *)
Definition segs_ok (segs : list SegImage) : Prop :=
  StronglySorted (fun a b => sg_end a <= sg_start b) segs /\
  Forall (fun s => sg_start s < sg_end s) segs.

Lemma segs_ok_cons s segs :
  segs_ok (s :: segs) <->
  segs_ok segs /\ sg_start s < sg_end s /\ forall t, t ∈ segs -> sg_end s <= sg_start t.
Proof.
  unfold segs_ok. rewrite Forall_cons. split.
  - intros [[Hs Hf]%StronglySorted_inv [? ?]]. rewrite Forall_forall in Hf. done.
  - intros [[? ?] [? Hf]]. split_and!; try done. constructor; [done|]. by apply Forall_forall.
Qed.

Lemma segs_ok_lookup segs i j s t :
  segs_ok segs -> segs !! i = Some s -> segs !! j = Some t -> (i < j)%nat -> sg_end s <= sg_start t.
Proof.
  intros Hok. revert i j. induction segs as [|u segs IH]; intros i j Hi Hj Hlt; [done|].
  apply segs_ok_cons in Hok as (Hok & _ & Hall). destruct j as [|j]; [lia|]. cbn in Hj.
  destruct i as [|i]; cbn in Hi.
  - injection Hi as ->. apply Hall. by eapply list_elem_of_lookup_2.
  - apply (IH Hok i j); [done..|lia].
Qed.

Lemma segs_ok_pos segs s : segs_ok segs -> s ∈ segs -> sg_start s < sg_end s.
Proof. intros [_ H] Hs. rewrite Forall_forall in H. by apply H. Qed.

Lemma search_segment_spec fuel segs ea first last :
  segs_ok segs -> (first <= last <= length segs)%nat -> (last - first <= fuel)%nat ->
  (forall i s, segs !! i = Some s -> (i < first)%nat -> sg_start s <= ea) ->
  (forall i s, segs !! i = Some s -> (last <= i)%nat -> ea < sg_start s) ->
  let r := search_segment fuel segs ea first last in
  (r <= length segs)%nat /\
  (forall i s, segs !! i = Some s -> (i < r)%nat -> sg_start s <= ea) /\
  (forall i s, segs !! i = Some s -> (r <= i)%nat -> ea < sg_start s).
Proof.
  intros Hok. cbn zeta. revert first last. induction fuel as [|fuel IH]; intros first last Hr Hf Hlo Hhi;
    cbn [search_segment].
  { replace last with first in Hhi by lia. split_and!; [lia|done|done]. }
  destruct (Nat.ltb_spec first last); [|replace last with first in Hhi by lia; by split_and!; [lia|..]].
  set (mid := (first + (last - first) / 2)%nat).
  assert (first <= mid < last)%nat as Hmid.
  { unfold mid. pose proof (Nat.div_lt (last - first) 2 ltac:(lia) ltac:(lia)).
    pose proof (Nat.le_0_l ((last - first) / 2)). lia. }
  destruct (segs !! mid) as [m|] eqn:Em; [|apply lookup_ge_None in Em; lia].
  pose proof (segs_ok_pos _ _ Hok (list_elem_of_lookup_2 _ _ _ Em)) as Hpos.
  destruct (Z.leb_spec (sg_start m) ea).
  - apply IH; [lia|lia| |done]. intros i s Hi Hlt.
    destruct (Nat.eq_dec i mid) as [->|]; [congruence|].
    pose proof (segs_ok_lookup _ i mid s m Hok Hi Em ltac:(lia)).
    pose proof (segs_ok_pos _ _ Hok (list_elem_of_lookup_2 _ _ _ Hi)). lia.
  - apply IH; [lia|lia|done|]. intros i s Hi Hle.
    destruct (Nat.eq_dec i mid) as [->|]; [congruence|].
    pose proof (segs_ok_lookup _ mid i m s Hok Em Hi ltac:(lia)). lia.
Qed.

Lemma segment_at_iff img ea s :
  segs_ok (im_segs img) ->
  segment_at img ea = Some s <-> s ∈ im_segs img /\ seg_contains s ea = true.
Proof.
  intros Hok. unfold segment_at. set (segs := im_segs img) in *.
  destruct (search_segment_spec (length segs) segs ea 0 (length segs) Hok) as (Hr & Hlo & Hhi);
    [lia|lia|intros; lia|intros i t Hi; apply lookup_lt_Some in Hi; lia|].
  set (r := search_segment (length segs) segs ea 0 (length segs)) in *. split.
  - destruct r as [|n]; [done|]. destruct (segs !! n) as [c|] eqn:Ec; [|done].
    destruct (seg_contains c ea) eqn:E; [|done]. intros [= <-]. split; [|done].
    by eapply list_elem_of_lookup_2.
  - intros [(i & Hi)%list_elem_of_lookup_1 Hc]. pose proof Hc as [Hs%Z.leb_le He%Z.ltb_lt]%andb_true_iff.
    destruct r as [|n]; [specialize (Hhi i s Hi ltac:(lia)); lia|].
    destruct (segs !! n) as [c|] eqn:Ec; [|apply lookup_ge_None in Ec; lia].
    assert (i = n) as ->.
    { destruct (Nat.lt_trichotomy i n) as [Hlt|[?|Hlt]]; [|done|].
      - pose proof (segs_ok_lookup _ _ _ _ _ Hok Hi Ec Hlt). specialize (Hlo n c Ec ltac:(lia)). lia.
      - specialize (Hhi i s Hi ltac:(lia)). lia. }
    assert (c = s) as -> by congruence. by rewrite Hc.
Qed.

Lemma find_some_elem {A} (p : A -> bool) l x : List.find p l = Some x -> x ∈ l /\ p x = true.
Proof. intros H%find_some. by rewrite list_elem_of_In. Qed.

Lemma find_none_elem {A} (p : A -> bool) l : List.find p l = None <-> forall x, x ∈ l -> p x = false.
Proof.
  split.
  - intros H x Hx%list_elem_of_In. by apply (find_none _ _ H).
  - induction l as [|a l IH]; intros H; [done|]. cbn. rewrite (H a) by (by left).
    apply IH. intros x Hx. apply H. by right.
Qed.

(** A function starting at the address wins; otherwise the result contains it. *)
Lemma function_at_some img ea f :
  function_at img ea = Some f -> f ∈ im_entries img /\ (fr_start f = ea \/ func_contains f ea = true).
Proof.
  unfold function_at. pose proof (lower_bound_app (fun f => fr_start f <? ea) (im_entries img)) as Happ.
  destruct (lower_bound _ _) as [low high]. cbn in Happ.
  assert (forall g, match last low with
            | Some candidate => if func_contains candidate ea then Some candidate
                                else List.find (fun f => func_contains f ea) (im_entries img)
            | None => List.find (fun f => func_contains f ea) (im_entries img)
            end = Some g -> g ∈ im_entries img /\ func_contains g ea = true) as Hprev.
  { intros g. destruct (last low) as [c|] eqn:El; [|apply (find_some_elem (fun f => func_contains f ea))].
    destruct (func_contains c ea) eqn:Ec; [|apply (find_some_elem (fun f => func_contains f ea))]. intros [= <-].
    split; [|done]. apply last_Some in El as [l ->]. rewrite <- Happ. set_solver. }
  destruct high as [|h high]; [intros [? ?]%Hprev; auto|].
  destruct (Z.eqb_spec (fr_start h) ea) as [E|]; [|intros [? ?]%Hprev; auto].
  intros [= <-]. split; [|by left]. rewrite <- Happ. set_solver.
Qed.

Lemma function_at_none img ea :
  function_at img ea = None <->
  (forall f, f ∈ im_entries img -> func_contains f ea = false) /\
  match (lower_bound (fun f => fr_start f <? ea) (im_entries img)).2 with
  | f :: _ => fr_start f <> ea
  | [] => True
  end.
Proof.
  unfold function_at. pose proof (lower_bound_app (fun f => fr_start f <? ea) (im_entries img)) as Happ.
  destruct (lower_bound _ _) as [low high]. cbn in Happ. cbn [snd].
  assert (match last low with
          | Some candidate => if func_contains candidate ea then Some candidate
                              else List.find (fun f => func_contains f ea) (im_entries img)
          | None => List.find (fun f => func_contains f ea) (im_entries img)
          end = None <-> forall f, f ∈ im_entries img -> func_contains f ea = false) as Hprev.
  { rewrite <- find_none_elem. destruct (last low) as [c|] eqn:El; [|done].
    destruct (func_contains c ea) eqn:Ec; [|done]. split; [done|]. rewrite find_none_elem.
    intros H. rewrite H in Ec; [done|]. apply last_Some in El as [l ->]. rewrite <- Happ. set_solver. }
  destruct high as [|h high]; [rewrite Hprev; tauto|].
  destruct (Z.eqb_spec (fr_start h) ea) as [E|]; [|rewrite Hprev; tauto].
  split; [done|]. by intros [_ ?].
Qed.

(** ** The hash of a byte sequence *)

Lemma mul64_range a b : is_u64 (mul64 a b).
Proof. unfold mul64, is_u64. by apply Z.mod_pos_bound. Qed.

Lemma mul64_mod_l a b : mul64 (a mod 2 ^ 64) b = mul64 a b.
Proof. unfold mul64. by rewrite Z.mul_mod_idemp_l. Qed.

Lemma mul64_mod_r a b : mul64 a (b mod 2 ^ 64) = mul64 a b.
Proof. unfold mul64. by rewrite Z.mul_mod_idemp_r. Qed.

Lemma mul64_assoc a b c : mul64 (mul64 a b) c = mul64 a (b * c).
Proof. unfold mul64 at 2. rewrite mul64_mod_l. unfold mul64. by rewrite Z.mul_assoc. Qed.

Lemma mul64_1_r a : is_u64 a -> mul64 a 1 = a.
Proof. unfold is_u64, mul64. intros. by rewrite Z.mul_1_r, Z.mod_small. Qed.

Lemma hash_each_app hash l1 l2 : hash_each hash (l1 ++ l2) = hash_each (hash_each hash l1) l2.
Proof. apply foldl_app. Qed.

Lemma hash_each_range hash data : is_u64 hash -> is_u64 (hash_each hash data).
Proof.
  revert hash. induction data as [|b data IH]; intros hash H; [done|]. apply IH, mul64_range.
Qed.

Lemma hash_each_zeros n hash :
  is_u64 hash -> hash_each hash (repeat x00 n) = mul64 hash (kFnvPrime ^ Z.of_nat n).
Proof.
  revert hash. induction n as [|n IH]; intros hash H; [by rewrite mul64_1_r|].
  change (hash_each hash (repeat x00 (S n))) with (hash_each (hash_byte hash 0) (repeat x00 n)).
  unfold hash_byte. rewrite Z.lxor_0_r, IH by apply mul64_range. rewrite mul64_assoc.
  f_equal. rewrite Nat2Z.inj_succ, Z.pow_succ_r by lia. lia.
Qed.

Lemma zero_byte_multiplier_pow n : zero_byte_multiplier n = kFnvPrime ^ Z.of_nat n mod 2 ^ 64.
Proof.
  induction n as [|n IH]; [done|]. cbn [zero_byte_multiplier]. rewrite IH, mul64_mod_l. unfold mul64.
  rewrite Nat2Z.inj_succ, Z.pow_succ_r by lia. by rewrite Z.mul_comm.
Qed.

Lemma multiply_words_pow fuel hash m words :
  is_u64 hash -> 0 <= words < 2 ^ Z.of_nat fuel ->
  multiply_words fuel hash m words = mul64 hash (m ^ words).
Proof.
  revert hash m words. induction fuel as [|fuel IH]; intros hash m words Hh Hw.
  { replace words with 0 by (cbn in Hw; lia). by rewrite mul64_1_r. }
  rewrite Nat2Z.inj_succ, Z.pow_succ_r in Hw by lia. cbn [multiply_words].
  destruct (Z.eqb_spec words 0) as [->|Hne]; [by rewrite mul64_1_r|].
  rewrite Z.shiftr_div_pow2 by lia. change (2 ^ 1) with 2.
  change (Z.land words 1) with (Z.land words (Z.ones 1)). rewrite Z.land_ones by lia. change (2 ^ 1) with 2.
  pose proof (Z.div_mod words 2 ltac:(done)) as Hdm. pose proof (Z.mod_pos_bound words 2 eq_refl).
  assert (mul64 m m ^ (words / 2) mod 2 ^ 64 = m ^ (2 * (words / 2)) mod 2 ^ 64) as Hsq.
  { unfold mul64. rewrite Z.mod_pow_l. rewrite Z.pow_mul_r by lia.
    by rewrite Z.pow_2_r. }
  cbn zeta. rewrite IH; [|by destruct (negb _); [apply mul64_range|]|lia].
  rewrite <- mul64_mod_r, Hsq, mul64_mod_r.
  destruct (Z.eqb_spec (words mod 2) 0) as [E|E]; cbn [negb].
  - f_equal. f_equal. lia.
  - rewrite mul64_assoc. f_equal. rewrite <- Z.pow_succ_r by lia. f_equal. lia.
Qed.

Lemma be_value_zero bs : be_value bs = 0 -> bs = repeat x00 (length bs).
Proof.
  induction bs as [|b bs IH]; [done|]. cbn [be_value length repeat]. intros H.
  pose proof (b2z_range b). pose proof (be_value_range bs).
  assert (0 < 2 ^ (8 * zlen bs)) by (apply Z.pow_pos_nonneg; [done|pose proof (zlen_nonneg bs); lia]).
  assert (b2z b = 0) as Hb by nia. rewrite <- IH by nia. f_equal. by apply b2z_inj.
Qed.

Lemma zero_word data :
  8 <= zlen data -> load_word data = 0 -> data = repeat x00 8 ++ drop 8 data.
Proof.
  intros Hl Hw. unfold load_word in Hw. rewrite be_combine_value in Hw.
  apply be_value_zero in Hw. unfold zlen in Hl. rewrite length_take, Nat.min_l in Hw by lia.
  rewrite <- Hw. symmetry. apply take_drop.
Qed.

Lemma skip_zero_words_spec fuel data words :
  (length data <= fuel)%nat ->
  let '(rest, words') := skip_zero_words fuel data words in
  exists n, words' = words + Z.of_nat n /\ data = repeat x00 (8 * n) ++ rest.
Proof.
  revert data words. induction fuel as [|fuel IH]; intros data words Hf; cbn [skip_zero_words].
  { exists 0%nat. split; [lia|done]. }
  destruct (Z.ltb_spec (zlen data) 8); [exists 0%nat; split; [lia|done]|].
  destruct (Z.eqb_spec (load_word data) 0) as [E|]; [|exists 0%nat; split; [lia|done]].
  pose proof (zero_word data ltac:(lia) E) as Hd. unfold zlen in *.
  specialize (IH (drop 8 data) (words + 1) ltac:(rewrite length_drop; lia)).
  destruct (skip_zero_words fuel (drop 8 data) (words + 1)) as [rest words'].
  destruct IH as (n & -> & Hr). exists (S n). split; [lia|].
  rewrite Hd at 1. rewrite Hr at 1. rewrite app_assoc, <- repeat_app. do 2 f_equal. lia.
Qed.

Lemma hash_bytes_loop_each fuel hash data :
  is_u64 hash -> zlen data < 2 ^ 64 -> (length data < fuel)%nat ->
  hash_bytes_loop fuel hash data = hash_each hash data.
Proof.
  revert hash data. induction fuel as [|fuel IH]; intros hash data Hh Hz Hf; [lia|].
  cbn [hash_bytes_loop]. destruct (Z.leb_spec 8 (zlen data)) as [Hl|]; [|done]. unfold zlen in Hl.
  destruct (Z.eqb_spec (load_word data) 0) as [E|].
  - pose proof (zero_word data Hl E) as Hd.
    pose proof (skip_zero_words_spec (length data) (drop 8 data) 1
                  ltac:(rewrite length_drop; lia)) as Hskip.
    destruct (skip_zero_words _ _ _) as [rest words]. destruct Hskip as (n & -> & Hr).
    rewrite Hr in Hd. rewrite app_assoc, <- repeat_app in Hd.
    assert (length data = (8 + 8 * n + length rest)%nat) as Hlen
      by (rewrite Hd at 1; rewrite length_app, repeat_length; lia).
    unfold zlen in Hz.
    rewrite multiply_words_pow; [|done|change (2 ^ Z.of_nat 64) with (2 ^ 64); lia].
    rewrite zero_byte_multiplier_pow, <- mul64_mod_r, Z.mod_pow_l.
    rewrite mul64_mod_r, <- Z.pow_mul_r by lia. rewrite Hd at 1.
    rewrite hash_each_app, hash_each_zeros by done.
    rewrite IH; [|apply mul64_range|unfold zlen; lia|lia].
    by replace (Z.of_nat (8 + 8 * n)) with (Z.of_nat 8 * (1 + Z.of_nat n)) by lia.
  - rewrite <- (take_drop 8 data) at 3. rewrite hash_each_app.
    apply IH; [by apply hash_each_range|unfold zlen in *; rewrite length_drop; lia|].
    rewrite length_drop. lia.
Qed.

Lemma hash_bytes_each hash data :
  is_u64 hash -> zlen data < 2 ^ 64 -> hash_bytes hash data = hash_each hash data.
Proof. intros. apply hash_bytes_loop_each; [done|done|lia]. Qed.

(** ** The bytes that a function hash covers *)

Definition u64_le (value : Z) : bytes :=
  map (fun i => z2b (Z.shiftr value (8 * Z.of_nat i))) (seq 0 8).

(** What an address holds: nothing mapped, a byte not loaded, or a loaded byte. *)
Notation status := (option (option byte)).

Definition covering (segs : list SegImage) (ea : Z) : option SegImage :=
  List.find (fun s => seg_contains s ea) segs.

Definition seg_status (s : SegImage) (off : Z) : option byte :=
  if mask_loaded (sg_mask s) off
  then Some (if off <? zlen (sg_bytes s) then nth (Z.to_nat off) (sg_bytes s) x00 else x00)
  else None.

Definition status_at (segs : list SegImage) (ea : Z) : status :=
  match covering segs ea with
  | Some s => Some (seg_status s (ea - sg_start s))
  | None => None
  end.

Fixpoint statuses (segs : list SegImage) (n : nat) (ea : Z) : list status :=
  match n with O => [] | S n => status_at segs ea :: statuses segs n (ea + 1) end.

Definition gap_bytes (gap : Z) : bytes := if gap =? 0 then [] else x00 :: u64_le gap.

Definition status_bytes (o : option byte) : bytes :=
  match o with Some v => [x02; v] | None => [x01] end.

(** Loaded and unloaded bytes one by one, each maximal unmapped run as its length. *)
Fixpoint encode_statuses (gap : Z) (l : list status) : bytes :=
  match l with
  | [] => gap_bytes gap
  | None :: r => encode_statuses (gap + 1) r
  | Some o :: r => gap_bytes gap ++ status_bytes o ++ encode_statuses 0 r
  end.

Definition chunk_statuses (img : ProgramImage) (c : FuncChunk) : list status :=
  statuses (im_segs img) (Z.to_nat (chunk_size c)) (ch_start c).

Definition chunk_stream (img : ProgramImage) (func : FuncRange) (c : FuncChunk) : bytes :=
  u64_le ((ch_start c - fr_start func) mod 2 ^ 64) ++ u64_le (chunk_size c) ++
  encode_statuses 0 (chunk_statuses img c).

Definition all_chunks (func : FuncRange) : list FuncChunk :=
  match fr_chunks func with
  | [] => [{| ch_start := fr_start func; ch_end := fr_end func |}]
  | chunks => chunks
  end.

Definition function_stream (img : ProgramImage) (func : FuncRange) : bytes :=
  u64_le VIY_FUNCTION_HASH_VERSION ++ u64_le (zlen (all_chunks func)) ++
  concat (map (chunk_stream img func) (all_chunks func)).

Lemma hash_u64_each hash value : hash_u64 hash value = hash_each hash (u64_le value).
Proof.
  unfold hash_u64, u64_le, hash_each. cbn [hash_u64_loop seq map foldl].
  rewrite !b2z_z2b. reflexivity.
Qed.

Lemma hash_byte_each hash b : hash_byte hash (b2z b) = hash_each hash [b].
Proof. done. Qed.

Lemma hash_run_each count s hash off :
  hash_run count s hash off =
  hash_each hash (concat (map (fun i => status_bytes (seg_status s (off + Z.of_nat i))) (seq 0 count))).
Proof.
  revert hash off. induction count as [|count IH]; intros hash off; [done|].
  cbn [hash_run seq map concat]. rewrite IH, hash_each_app. cbn zeta.
  rewrite <- seq_shift, map_map. f_equal.
  - rewrite Z.add_0_r. unfold seg_status. destruct (mask_loaded (sg_mask s) off); [|done].
    cbn [status_bytes hash_each foldl]. by destruct (off <? zlen (sg_bytes s)).
  - f_equal. apply List.map_ext. intros i. do 2 f_equal. lia.
Qed.

Lemma statuses_app segs n m ea :
  statuses segs (n + m) ea = statuses segs n ea ++ statuses segs m (ea + Z.of_nat n).
Proof.
  revert ea. induction n as [|n IH]; intros ea; cbn [statuses Nat.add app]; [f_equal; lia|].
  rewrite IH. do 3 f_equal. lia.
Qed.

Lemma statuses_length segs n ea : length (statuses segs n ea) = n.
Proof. revert ea. induction n as [|n IH]; intros ea; cbn; [done|by rewrite IH]. Qed.

Lemma encode_unmapped gap n r : encode_statuses gap (repeat None n ++ r) = encode_statuses (gap + Z.of_nat n) r.
Proof.
  revert gap. induction n as [|n IH]; intros gap; cbn [repeat app encode_statuses]; [f_equal; lia|].
  rewrite IH. f_equal. lia.
Qed.

Lemma encode_flush gap l :
  match l with None :: _ => False | _ => True end ->
  encode_statuses gap l = gap_bytes gap ++ encode_statuses 0 l.
Proof. destruct l as [|[o|] r]; [|done|done]. intros _. cbn. by rewrite app_nil_r. Qed.

Lemma encode_mapped l r :
  encode_statuses 0 (map Some l ++ r) = concat (map status_bytes l) ++ encode_statuses 0 r.
Proof.
  induction l as [|o l IH]; [done|]. cbn [map app encode_statuses concat]. rewrite IH.
  by rewrite <- app_assoc.
Qed.

Lemma statuses_unmapped segs n ea :
  (forall j, 0 <= j < Z.of_nat n -> covering segs (ea + j) = None) ->
  statuses segs n ea = repeat None n.
Proof.
  revert ea. induction n as [|n IH]; intros ea H; [done|]. cbn [statuses repeat]. f_equal.
  - unfold status_at. pose proof (H 0 ltac:(lia)) as E. rewrite Z.add_0_r in E. by rewrite E.
  - apply IH. intros j Hj. rewrite <- (H (j + 1)) by lia. f_equal. lia.
Qed.

Lemma statuses_mapped segs s n ea :
  (forall j, 0 <= j < Z.of_nat n -> covering segs (ea + j) = Some s) ->
  statuses segs n ea = map (fun i => Some (seg_status s (ea - sg_start s + Z.of_nat i))) (seq 0 n).
Proof.
  revert ea. induction n as [|n IH]; intros ea H; [done|]. cbn [statuses seq map]. f_equal.
  - unfold status_at. pose proof (H 0 ltac:(lia)) as E. rewrite Z.add_0_r in E. rewrite E.
    do 2 f_equal. lia.
  - rewrite IH by (intros j Hj; rewrite <- (H (j + 1)) by lia; f_equal; lia).
    rewrite <- seq_shift, map_map. apply List.map_ext. intros i. do 2 f_equal. lia.
Qed.

(** ** The walk over the segments of a chunk *)

Lemma covering_some segs ea s :
  segs_ok segs -> s ∈ segs -> seg_contains s ea = true -> covering segs ea = Some s.
Proof.
  unfold covering. induction segs as [|t segs IH]; intros Hok Hs Hc; [by apply elem_of_nil in Hs|].
  apply segs_ok_cons in Hok as (Hok & Hpos & Hall). cbn [List.find].
  apply elem_of_cons in Hs as [->|Hs]; [by rewrite Hc|].
  destruct (seg_contains t ea) eqn:E; [|by apply IH]. exfalso. specialize (Hall s Hs).
  unfold seg_contains in *. lia.
Qed.

Lemma covering_none segs ea :
  (forall s, s ∈ segs -> seg_contains s ea = false) -> covering segs ea = None.
Proof. intros H. by apply find_none_elem. Qed.

(** The iterator has passed only segments that end before the address. *)
Definition passed (segs segment : list SegImage) (ea : Z) : Prop :=
  exists before, segs = before ++ segment /\ forall s, s ∈ before -> sg_end s <= ea.

Lemma passed_skip segs segment ea :
  passed segs segment ea -> passed segs (skip_segments segment ea) ea.
Proof.
  intros (before & -> & Hb). revert before Hb. induction segment as [|s r IH]; intros before Hb; cbn.
  { by exists before. }
  destruct (Z.leb_spec (sg_end s) ea); [|by exists before].
  destruct (IH (before ++ [s])) as (b & E & Hall).
  - intros t. rewrite elem_of_app, list_elem_of_singleton. intros [?| ->]; [by apply Hb|done].
  - exists b. split; [|done]. rewrite <- E, <- app_assoc. done.
Qed.

Lemma passed_later segs segment ea ea' : passed segs segment ea -> ea <= ea' -> passed segs segment ea'.
Proof. intros (b & -> & Hb) Hle. exists b. split; [done|]. intros s Hs. specialize (Hb s Hs). lia. Qed.

Lemma skip_head segment ea s r : skip_segments segment ea = s :: r -> ea < sg_end s.
Proof.
  induction segment as [|t segment IH]; cbn; [done|].
  destruct (Z.leb_spec (sg_end t) ea); [done|]. by intros [= <- _].
Qed.

Lemma skip_length segment ea : (length (skip_segments segment ea) <= length segment)%nat.
Proof. induction segment as [|t segment IH]; cbn; [done|]. destruct (_ <=? _); cbn; lia. Qed.

Lemma skip_id s r ea : ea < sg_end s -> skip_segments (s :: r) ea = s :: r.
Proof. intros H. cbn. by rewrite (proj2 (Z.leb_gt _ _)). Qed.

Lemma skip_idem segment ea : skip_segments (skip_segments segment ea) ea = skip_segments segment ea.
Proof.
  destruct (skip_segments segment ea) as [|s r] eqn:E; [done|]. by apply skip_id, (skip_head segment ea s r).
Qed.

Lemma passed_not_contains segs segment ea s x :
  passed segs segment ea -> s ∈ segs -> s ∉ segment -> ea <= x -> seg_contains s x = false.
Proof.
  intros (b & -> & Hb) [Hs|Hs]%elem_of_app Hn Hx; [|done]. specialize (Hb s Hs).
  unfold seg_contains. rewrite (proj2 (Z.ltb_ge x _)) by lia. by rewrite andb_false_r.
Qed.

(** Before the first remaining segment nothing is mapped. *)
Lemma covering_before segs s r ea x :
  segs_ok segs -> passed segs (s :: r) ea -> ea <= x < sg_start s -> covering segs x = None.
Proof.
  intros Hok Hp Hx. apply covering_none. intros t Ht.
  destruct Hp as (b & -> & Hb). apply elem_of_app in Ht as [Ht|Ht].
  - specialize (Hb t Ht). unfold seg_contains. rewrite (proj2 (Z.ltb_ge x _)) by lia.
    by rewrite andb_false_r.
  - assert (sg_start s <= sg_start t).
    { apply elem_of_cons in Ht as [->|Ht]; [lia|].
      assert (segs_ok (s :: r)) as Hsuf.
      { destruct Hok as [H1 H2]. apply StronglySorted_app in H1 as (_ & _ & H1).
        apply Forall_app in H2 as [_ H2]. by split. }
      apply segs_ok_cons in Hsuf as (_ & Hpos & Hall). specialize (Hall t Ht). lia. }
    unfold seg_contains. rewrite (proj2 (Z.leb_gt _ x)) by lia. done.
Qed.

Lemma covering_passed segs ea x :
  passed segs [] ea -> ea <= x -> covering segs x = None.
Proof.
  intros Hp Hx. apply covering_none. intros t Ht. eapply passed_not_contains; [done|done| |done].
  by intros Hn%elem_of_nil.
Qed.

Definition walk_need (segment : list SegImage) (ea : Z) : nat :=
  match skip_segments segment ea with
  | [] => 1
  | s :: r => (2 * length (s :: r) + if seg_contains s ea then 0 else 1)%nat
  end.

Definition walk_stream (segs : list SegImage) (ea chunk_end : Z) : bytes :=
  encode_statuses 0 (statuses segs (Z.to_nat (chunk_end - ea)) ea).

(** A stretch of unmapped addresses that ends at a mapped one or at the end. *)
Lemma stream_gap segs ea next chunk_end :
  ea < next <= chunk_end -> (forall x, ea <= x < next -> covering segs x = None) ->
  (next = chunk_end \/ covering segs next <> None) ->
  walk_stream segs ea chunk_end = (x00 :: u64_le (next - ea)) ++ walk_stream segs next chunk_end.
Proof.
  intros Hr Hgap Hnext. unfold walk_stream.
  replace (Z.to_nat (chunk_end - ea)) with (Z.to_nat (next - ea) + Z.to_nat (chunk_end - next))%nat by lia.
  rewrite statuses_app, statuses_unmapped by (intros j Hj; apply Hgap; lia).
  rewrite encode_unmapped, Z2Nat.id by lia. replace (ea + (next - ea)) with next by lia.
  rewrite encode_flush.
  - unfold gap_bytes. by rewrite (proj2 (Z.eqb_neq _ _)) by lia.
  - destruct (Z.to_nat (chunk_end - next)) as [|n] eqn:E; [done|]. cbn [statuses].
    destruct Hnext as [->|Hn]; [lia|]. unfold status_at. by destruct (covering segs next).
Qed.

Lemma stream_run segs s ea run_end chunk_end :
  ea <= run_end <= chunk_end -> (forall x, ea <= x < run_end -> covering segs x = Some s) ->
  walk_stream segs ea chunk_end =
  concat (map (fun i => status_bytes (seg_status s (ea - sg_start s + Z.of_nat i)))
            (seq 0 (Z.to_nat (run_end - ea)))) ++ walk_stream segs run_end chunk_end.
Proof.
  intros Hr Hrun. unfold walk_stream.
  replace (Z.to_nat (chunk_end - ea)) with (Z.to_nat (run_end - ea) + Z.to_nat (chunk_end - run_end))%nat by lia.
  rewrite statuses_app, (statuses_mapped segs s) by (intros j Hj; apply Hrun; lia).
  rewrite Z2Nat.id by lia. replace (ea + (run_end - ea)) with run_end by lia.
  rewrite <- (map_map (fun i => seg_status s (ea - sg_start s + Z.of_nat i)) Some).
  by rewrite encode_mapped, map_map.
Qed.

Lemma walk_stream_done segs ea chunk_end : chunk_end <= ea -> walk_stream segs ea chunk_end = [].
Proof. intros H. unfold walk_stream. by replace (Z.to_nat (chunk_end - ea)) with 0%nat by lia. Qed.

Lemma walk_chunk_each segs fuel segment hash ea chunk_end :
  segs_ok segs -> passed segs segment ea -> (walk_need segment ea <= fuel)%nat ->
  walk_chunk fuel segment hash ea chunk_end = Some (hash_each hash (walk_stream segs ea chunk_end)).
Proof.
  intros Hok. revert segment hash ea. induction fuel as [|fuel IH]; intros segment hash ea Hp Hf;
    cbn [walk_chunk]; destruct (Z.ltb_spec ea chunk_end) as [Hlt|Hge];
    try (rewrite walk_stream_done by lia; done).
  { unfold walk_need in Hf. destruct (skip_segments segment ea) as [|s r]; cbn in Hf; lia. }
  pose proof (passed_skip _ _ _ Hp) as Hp'. unfold walk_need in Hf.
  destruct (skip_segments segment ea) as [|s r] eqn:Esk; cbn iota in Hf.
  - rewrite hash_u64_each. change (hash_byte hash 0) with (hash_each hash [x00]).
    rewrite <- hash_each_app, (stream_gap segs ea chunk_end chunk_end), walk_stream_done, app_nil_r;
      [|lia|lia|intros x Hx; by apply (covering_passed segs ea); [|lia]|by left].
    destruct fuel; cbn [walk_chunk]; by rewrite Z.ltb_irrefl.
  - pose proof (skip_head _ _ _ _ Esk) as Hend.
    assert (s ∈ segs) as Hin by (destruct Hp' as (b & -> & _); set_solver).
    pose proof (segs_ok_pos _ _ Hok Hin) as Hpos.
    destruct (seg_contains s ea) eqn:Ec.
    + set (run_end := Z.min chunk_end (sg_end s)).
      rewrite hash_run_each, (stream_run segs s ea run_end), hash_each_app; [|lia|].
      2: { intros x Hx. apply covering_some; [done|done|]. unfold seg_contains in *. lia. }
      destruct (Z.le_gt_cases chunk_end run_end).
      { replace run_end with chunk_end by lia. rewrite walk_stream_done by lia.
        destruct fuel; cbn [walk_chunk]; by rewrite Z.ltb_irrefl. }
      apply IH; [apply (passed_later _ _ ea); [done|lia]|]. unfold walk_need. cbn [skip_segments].
      rewrite (proj2 (Z.leb_le _ _)) by lia. cbn [length] in Hf.
      pose proof (skip_length r run_end).
      destruct (skip_segments r run_end) as [|t r'] eqn:Er; [lia|]. cbn [length] in *.
      destruct (seg_contains t run_end); lia.
    + assert (ea < sg_start s) as Hstart by (unfold seg_contains in Ec; lia).
      set (next := Z.min chunk_end (sg_start s)).
      rewrite hash_u64_each. change (hash_byte hash 0) with (hash_each hash [x00]).
      rewrite (stream_gap segs ea next), hash_each_app, <- hash_each_app; [|lia| |].
      * destruct (Z.le_gt_cases chunk_end (sg_start s)).
        { replace next with chunk_end by lia. rewrite walk_stream_done by lia.
          destruct fuel; cbn [walk_chunk]; rewrite Z.ltb_irrefl; exact eq_refl. }
        apply IH; [apply (passed_later _ _ ea); [done|lia]|]. unfold walk_need. rewrite skip_id by lia.
        assert (seg_contains s next = true) as -> by (unfold seg_contains; lia).
        cbn [length] in *. lia.
      * intros x Hx. by apply (covering_before segs s r ea); [..|lia].
      * destruct (Z.le_gt_cases chunk_end (sg_start s)); [left; lia|right].
        rewrite (covering_some segs next s); [done|done|done|]. unfold seg_contains. lia.
Qed.

Lemma first_segment_passed segs ea : segs_ok segs -> passed segs (first_segment segs ea) ea.
Proof.
  intros Hok. unfold first_segment.
  pose proof (lower_bound_app (fun s => negb (ea <? sg_start s)) segs) as Happ.
  pose proof (lower_bound_low (fun s => negb (ea <? sg_start s)) segs) as Hlow.
  destruct (lower_bound _ _) as [low high]. cbn [fst snd] in *. subst segs.
  destruct (last low) as [s|] eqn:El.
  - apply last_Some in El as [l ->]. exists l. rewrite <- app_assoc. split; [done|].
    intros b Hb. specialize (Hlow s ltac:(set_solver)). apply negb_true_iff, Z.ltb_ge in Hlow.
    destruct Hok as [Hs _]. rewrite <- app_assoc in Hs.
    apply StronglySorted_app in Hs as (Hs & _ & _). specialize (Hs b s Hb ltac:(set_solver)).
    cbn in Hs. lia.
  - apply last_None in El as ->. exists []. split; [done|]. by intros b Hb%elem_of_nil.
Qed.

Lemma passed_length segs segment ea : passed segs segment ea -> (length segment <= length segs)%nat.
Proof. intros (b & -> & _). rewrite length_app. lia. Qed.

Lemma walk_need_bound segment ea : (walk_need segment ea <= 2 * length segment + 1)%nat.
Proof.
  unfold walk_need. pose proof (skip_length segment ea) as Hl.
  destruct (skip_segments segment ea) as [|s r]; [lia|]. destruct (seg_contains s ea); lia.
Qed.

Lemma hash_chunk_each img func hash c :
  segs_ok (im_segs img) ->
  hash_chunk_bytes img func hash c = Some (hash_each hash (chunk_stream img func c)).
Proof.
  intros Hok. unfold hash_chunk_bytes. cbn zeta.
  pose proof (first_segment_passed (im_segs img) (ch_start c) Hok) as Hp.
  rewrite (walk_chunk_each (im_segs img)); [|done|done|].
  2: { pose proof (walk_need_bound (first_segment (im_segs img) (ch_start c)) (ch_start c)).
       pose proof (passed_length _ _ _ Hp). unfold walk_fuel. lia. }
  rewrite !hash_u64_each. unfold chunk_stream, chunk_statuses, walk_stream. rewrite !hash_each_app.
  unfold chunk_size. destruct (Z.ltb_spec (ch_start c) (ch_end c)); [done|].
  by replace (Z.to_nat (ch_end c - ch_start c)) with 0%nat by lia.
Qed.

Lemma hash_chunks_each img func hash chunks :
  segs_ok (im_segs img) ->
  hash_chunks img func hash chunks =
  Some (hash_each hash (concat (map (chunk_stream img func) chunks))).
Proof.
  intros Hok. revert hash. induction chunks as [|c chunks IH]; intros hash; [done|].
  cbn [hash_chunks map concat]. rewrite hash_chunk_each by done. by rewrite IH, hash_each_app.
Qed.

Lemma function_hash_each img func :
  segs_ok (im_segs img) ->
  viy_function_byte_hash img func = Some (hash_each kFnvOffset (function_stream img func)).
Proof.
  intros Hok. unfold viy_function_byte_hash, function_stream, all_chunks. cbn zeta.
  rewrite !hash_each_app, <- !hash_u64_each.
  destruct (fr_chunks func) as [|c chunks] eqn:E.
  - rewrite hash_chunk_each by done. cbn [map concat]. by rewrite app_nil_r.
  - rewrite hash_chunks_each by done.
    by rewrite (proj2 (Z.eqb_neq (zlen (c :: chunks)) 0)) by (rewrite zlen_cons; pose proof (zlen_nonneg chunks); lia).
Qed.

(** ** Moving the image *)

Definition move (d ea : Z) : Z := (ea + d) mod 2 ^ 64.

Definition move_seg (d : Z) (s : SegImage) : SegImage :=
  {| sg_start := move d (sg_start s); sg_end := move d (sg_end s); sg_perm := sg_perm s;
     sg_bitness := sg_bitness s; sg_bytes := sg_bytes s; sg_mask := sg_mask s |}.

Definition move_chunk (d : Z) (c : FuncChunk) : FuncChunk :=
  {| ch_start := move d (ch_start c); ch_end := move d (ch_end c) |}.

Definition move_func (d : Z) (f : FuncRange) : FuncRange :=
  {| fr_start := move d (fr_start f); fr_end := move d (fr_end f);
     fr_chunks := map (move_chunk d) (fr_chunks f);
     fr_byte_hash := fr_byte_hash f; fr_generation := fr_generation f |}.

Definition move_image (d : Z) (img : ProgramImage) : ProgramImage :=
  {| im_arch := im_arch img; im_big_endian := im_big_endian img;
     im_lo := move d (im_lo img); im_hi := move d (im_hi img);
     im_segs := map (move_seg d) (im_segs img); im_entries := map (move_func d) (im_entries img);
     im_content_hash := im_content_hash img; im_generation := im_generation img |}.

(** The move of an address does not wrap. *)
Definition movable (d ea : Z) : Prop := 0 <= ea + d < 2 ^ 64.

Lemma move_eq d ea : movable d ea -> move d ea = ea + d.
Proof. intros H. unfold move. by apply Z.mod_small. Qed.

Definition seg_movable (d : Z) (s : SegImage) : Prop := movable d (sg_start s) /\ movable d (sg_end s).
Definition chunk_movable (d : Z) (c : FuncChunk) : Prop := movable d (ch_start c) /\ movable d (ch_end c).

Lemma covering_moved d segs ea :
  Forall (seg_movable d) segs ->
  covering (map (move_seg d) segs) (ea + d) = option_map (move_seg d) (covering segs ea).
Proof.
  unfold covering. induction 1 as [|s segs [Hs He] _ IH]; [done|]. cbn [map List.find].
  assert (seg_contains (move_seg d s) (ea + d) = seg_contains s ea) as ->.
  { unfold seg_contains, move_seg. cbn [sg_start sg_end]. rewrite !move_eq by done.
    apply eq_true_iff_eq. rewrite !andb_true_iff, !Z.leb_le, !Z.ltb_lt. lia. }
  by destruct (seg_contains s ea).
Qed.

Lemma statuses_moved d segs n ea :
  Forall (seg_movable d) segs -> statuses (map (move_seg d) segs) n (ea + d) = statuses segs n ea.
Proof.
  intros Hm. revert ea. induction n as [|n IH]; intros ea; [done|]. cbn [statuses].
  replace (ea + d + 1) with (ea + 1 + d) by lia. rewrite IH. f_equal.
  unfold status_at. rewrite covering_moved by done.
  destruct (covering segs ea) as [s|] eqn:E; [|done]. cbn [option_map].
  apply find_some_elem in E as [Hs _]. rewrite Forall_forall in Hm. destruct (Hm s Hs) as [H1 _].
  unfold seg_status, move_seg. cbn [sg_start sg_mask sg_bytes]. rewrite move_eq by done.
  by replace (ea + d - (sg_start s + d)) with (ea - sg_start s) by lia.
Qed.

Lemma chunk_stream_moved d img func c :
  Forall (seg_movable d) (im_segs img) -> movable d (fr_start func) -> chunk_movable d c ->
  chunk_stream (move_image d img) (move_func d func) (move_chunk d c) = chunk_stream img func c.
Proof.
  intros Hs Hf [H1 H2]. unfold chunk_stream, chunk_statuses, chunk_size, move_image, move_func, move_chunk.
  cbn [ch_start ch_end fr_start im_segs]. rewrite !move_eq by done.
  replace (ch_start c + d - (fr_start func + d)) with (ch_start c - fr_start func) by lia.
  replace (ch_end c + d - (ch_start c + d)) with (ch_end c - ch_start c) by lia.
  replace (ch_start c + d <? ch_end c + d) with (ch_start c <? ch_end c)
    by (apply eq_true_iff_eq; rewrite !Z.ltb_lt; lia).
  by rewrite statuses_moved.
Qed.

Lemma segs_ok_moved d segs :
  Forall (seg_movable d) segs -> segs_ok segs -> segs_ok (map (move_seg d) segs).
Proof.
  induction 1 as [|s segs [Hs He] Hm IH]; [done|]. intros (Hok & Hpos & Hall)%segs_ok_cons.
  cbn [map]. apply segs_ok_cons. split; [by apply IH|]. cbn [move_seg sg_start sg_end].
  rewrite !move_eq by done. split; [lia|].
  intros t (u & -> & Hu)%list_elem_of_fmap. cbn [move_seg sg_start].
  rewrite Forall_forall in Hm. destruct (Hm u Hu) as [Hum _]. rewrite move_eq by done.
  specialize (Hall u Hu). lia.
Qed.

(** ** What the hashed bytes determine *)

Lemma u64_le_inj v w : is_u64 v -> is_u64 w -> u64_le v = u64_le w -> v = w.
Proof.
  intros Hv Hw H. unfold is_u64 in *. apply Z.bits_inj'. intros n Hn.
  destruct (Z.lt_ge_cases n 64) as [Hlt|Hge].
  - assert (z2b (Z.shiftr v (8 * (n / 8))) = z2b (Z.shiftr w (8 * (n / 8)))) as Hb.
    { assert (0 <= n / 8 < 8) as Hi by (split; [apply Z.div_pos; lia|apply Z.div_lt_upper_bound; lia]).
      pose proof (f_equal (fun l => nth_error l (Z.to_nat (n / 8))) H) as E. unfold u64_le in E.
      rewrite !nth_error_map in E. rewrite (nth_error_nth' (seq 0 8) 0%nat) in E by (cbn; lia).
      rewrite seq_nth in E by lia. cbn [option_map] in E. injection E as E.
      by rewrite Z2Nat.id in E by lia. }
    apply (f_equal b2z) in Hb. rewrite !b2z_z2b in Hb. change 256 with (2 ^ 8) in Hb.
    apply (f_equal (fun x => Z.testbit x (n mod 8))) in Hb.
    pose proof (Z.mod_pos_bound n 8 eq_refl). pose proof (Z.div_mod n 8 ltac:(done)) as Hdm.
    rewrite !Z.mod_pow2_bits_low, !Z.shiftr_spec in Hb by lia.
    by replace (n mod 8 + 8 * (n / 8)) with n in Hb by lia.
  - assert (v / 2 ^ 64 = 0 /\ w / 2 ^ 64 = 0) as [H1 H2] by (split; by apply Z.div_small).
    replace n with (n - 64 + 64) by lia. rewrite <- !Z.div_pow2_bits, H1, H2 by lia. done.
Qed.

Lemma u64_le_app_inj v w l r :
  is_u64 v -> is_u64 w -> u64_le v ++ l = u64_le w ++ r -> v = w /\ l = r.
Proof.
  intros Hv Hw H. apply app_inj_1 in H as [H ->]; [|done]. split; [by apply u64_le_inj|done].
Qed.

Lemma statuses_split (l : list status) :
  exists n r, l = repeat None n ++ r /\ match r with None :: _ => False | _ => True end.
Proof.
  induction l as [|[o|] l (n & r & -> & Hr)]; [by exists 0%nat, []|by exists 0%nat, (Some o :: repeat None n ++ r)|].
  by exists (S n), r.
Qed.

Lemma encode_split n r :
  match r with None :: _ => False | _ => True end ->
  encode_statuses 0 (repeat None n ++ r) = gap_bytes (Z.of_nat n) ++ encode_statuses 0 r.
Proof. intros Hr. by rewrite encode_unmapped, encode_flush. Qed.

Lemma encode_inj k l l' r r' :
  (length l <= k)%nat -> length l = length l' -> zlen l < 2 ^ 64 ->
  encode_statuses 0 l ++ r = encode_statuses 0 l' ++ r' -> l = l' /\ r = r'.
Proof.
  revert l l' r r'. induction k as [|k IH]; intros l l' r r' Hk Hlen Hz H.
  { destruct l; [|cbn in Hk; lia]. by destruct l'. }
  destruct (statuses_split l) as (n & t & -> & Ht), (statuses_split l') as (n' & t' & -> & Ht').
  rewrite !encode_split in H by done. unfold zlen in Hz.
  rewrite !length_app, !repeat_length in *.
  destruct n as [|n], n' as [|n']; cbn [gap_bytes Z.of_nat Z.eqb app repeat] in H |- *.
  - destruct t as [|[o|] t], t' as [|[o'|] t']; try done. cbn [encode_statuses] in H.
    change (gap_bytes 0) with (@nil byte) in H. cbn [app] in H. cbn [length Nat.add] in *.
    rewrite <- !app_assoc in H.
    assert (o = o' /\ encode_statuses 0 t ++ r = encode_statuses 0 t' ++ r') as [<- Heq]
      by (destruct o, o'; cbn in H; by simplify_eq).
    destruct (IH t t' r r') as [-> ->]; [lia|lia|unfold zlen; lia|done|done].
  - destruct t as [|[o|] t]; [cbn in Hlen; lia| |done]. by destruct o.
  - destruct t' as [|[o|] t']; [cbn in Hlen; lia| |done]. by destruct o.
  - unfold gap_bytes in H. rewrite !(proj2 (Z.eqb_neq _ _)) in H by lia.
    cbn [app] in H. apply (f_equal (@tl byte)) in H. cbn [tl] in H. rewrite <- !app_assoc in H.
    apply u64_le_app_inj in H as [Hn Heq]; [|unfold is_u64; lia..].
    assert (n = n') as -> by lia.
    destruct (IH t t' r r') as [-> ->]; [lia|lia|unfold zlen; lia|done|done].
Qed.

(** The topology and content of a function, free of absolute addresses. *)
Definition chunk_shape (img : ProgramImage) (func : FuncRange) (c : FuncChunk) :=
  ((ch_start c - fr_start func) mod 2 ^ 64, chunk_size c, chunk_statuses img c).

Definition function_shape (img : ProgramImage) (func : FuncRange) :=
  map (chunk_shape img func) (all_chunks func).

Definition func_typed (f : FuncRange) : Prop :=
  Forall (fun c => is_u64 (ch_start c) /\ is_u64 (ch_end c)) (all_chunks f) /\
  is_u64 (zlen (all_chunks f)).

Lemma chunk_size_range c : is_u64 (ch_start c) -> is_u64 (ch_end c) -> is_u64 (chunk_size c).
Proof. unfold is_u64, chunk_size. intros. destruct (Z.ltb_spec (ch_start c) (ch_end c)); lia. Qed.

Lemma chunk_stream_inj img img' f f' c c' r r' :
  is_u64 (ch_start c) -> is_u64 (ch_end c) -> is_u64 (ch_start c') -> is_u64 (ch_end c') ->
  chunk_stream img f c ++ r = chunk_stream img' f' c' ++ r' ->
  chunk_shape img f c = chunk_shape img' f' c' /\ r = r'.
Proof.
  intros H1 H2 H3 H4 H. unfold chunk_stream in H. rewrite <- !app_assoc in H.
  apply u64_le_app_inj in H as [Hs H]; [|apply Z.mod_pos_bound; done..].
  apply u64_le_app_inj in H as [Hz H]; [|by apply chunk_size_range..].
  pose proof (chunk_size_range _ H1 H2) as Hr. unfold is_u64 in Hr.
  assert (length (chunk_statuses img c) = length (chunk_statuses img' c')) as Hl
    by (unfold chunk_statuses; by rewrite !statuses_length, Hz).
  apply (encode_inj (length (chunk_statuses img c))) in H as [Hst Hrest]; [|done|done|].
  - unfold chunk_shape. by rewrite Hs, Hz, Hst.
  - unfold zlen, chunk_statuses. rewrite statuses_length. lia.
Qed.

Lemma function_stream_inj img img' f f' :
  func_typed f -> func_typed f' ->
  function_stream img f = function_stream img' f' <-> function_shape img f = function_shape img' f'.
Proof.
  intros [Hf Hn] [Hf' Hn']. unfold function_stream, function_shape. split.
  - intros [Hl H]%app_inv_head_iff%u64_le_app_inj; [|done|done]. unfold zlen in Hl.
    apply Nat2Z.inj in Hl. clear Hn Hn'. revert Hl H Hf'. generalize (all_chunks f') as l'.
    induction Hf as [|c l [H1 H2] _ IH]; intros [|c' l'] Hl H Hf'; try done.
    apply Forall_cons in Hf' as [[H3 H4] Hf']. cbn [map concat length] in *.
    apply chunk_stream_inj in H as [-> H]; [|done..]. f_equal. apply IH; [lia|done|done].
  - intros H. pose proof (f_equal (@length _) H) as Hl. rewrite !length_map in Hl.
    unfold zlen. rewrite Hl. do 2 f_equal. clear Hl Hn Hn' Hf Hf'.
    revert H. generalize (all_chunks f) as l, (all_chunks f') as l'.
    induction l as [|c l IH]; intros [|c' l'] H; try done. cbn [map concat] in *.
    injection H as H1 H2 H3 H. rewrite (IH l' H). f_equal. unfold chunk_stream. by rewrite H1, H2, H3.
Qed.

(** ** The content of a whole image *)

Definition seg_typed (s : SegImage) : Prop :=
  is_u64 (sg_start s) /\ is_u64 (sg_end s) /\ 0 <= sg_bitness s < 256 /\
  zlen (sg_bytes s) < 2 ^ 64 /\ zlen (sg_mask s) < 2 ^ 64.

Definition segment_stream (lo : Z) (s : SegImage) : bytes :=
  u64_le (if lo <=? sg_start s then sg_start s - lo else sg_start s) ++
  u64_le (if sg_start s <? sg_end s then sg_end s - sg_start s else 0) ++
  u64_le (sg_perm s) ++ [z2b (sg_bitness s)] ++
  u64_le (zlen (sg_bytes s)) ++ u64_le (zlen (sg_mask s)) ++ sg_mask s ++ sg_bytes s.

Definition content_stream (img : ProgramImage) : bytes :=
  u64_le (arch_value (im_arch img)) ++ [if im_big_endian img then x01 else x00] ++
  u64_le (zlen (im_segs img)) ++ concat (map (segment_stream (im_lo img)) (im_segs img)).

Lemma hash_segment_each lo hash s :
  is_u64 hash -> seg_typed s -> hash_segment lo hash s = hash_each hash (segment_stream lo s).
Proof.
  intros Hh (_ & _ & Hb & Hl & Hm). unfold hash_segment, segment_stream. cbn zeta.
  rewrite !hash_each_app, !hash_u64_each.
  rewrite (hash_bytes_each _ (sg_mask s)); [|by repeat first [apply hash_each_range|apply mul64_range]|done].
  rewrite (hash_bytes_each _ (sg_bytes s)); [|by repeat first [apply hash_each_range|apply mul64_range]|done].
  do 4 f_equal. rewrite <- hash_byte_each, b2z_z2b, Z.mod_small by done. reflexivity.
Qed.

Lemma hash_segments_each lo hash segs :
  is_u64 hash -> Forall seg_typed segs ->
  foldl (hash_segment lo) hash segs = hash_each hash (concat (map (segment_stream lo) segs)).
Proof.
  intros Hh Hs. revert hash Hh. induction Hs as [|s segs Hs _ IH]; intros hash Hh; [done|].
  cbn [foldl map concat]. rewrite hash_segment_each, hash_each_app by done.
  by apply IH, hash_each_range.
Qed.

Lemma content_hash_each img :
  Forall seg_typed (im_segs img) ->
  viy_program_content_hash img = hash_each kFnvOffset (content_stream img).
Proof.
  intros Hs. unfold viy_program_content_hash, content_stream. cbn zeta.
  rewrite !hash_each_app, !hash_u64_each. rewrite hash_segments_each; [|by repeat first [apply hash_each_range|apply mul64_range]|done].
  rewrite <- hash_byte_each. by destruct (im_big_endian img).
Qed.

Lemma segment_stream_moved d lo s :
  movable d lo -> seg_movable d s -> lo <= sg_start s ->
  segment_stream (move d lo) (move_seg d s) = segment_stream lo s.
Proof.
  intros Hlo [H1 H2] Hle. unfold segment_stream, move_seg.
  cbn [sg_start sg_end sg_perm sg_bitness sg_bytes sg_mask]. rewrite !move_eq by done.
  rewrite !(proj2 (Z.leb_le _ _)) by lia.
  replace (sg_start s + d - (lo + d)) with (sg_start s - lo) by lia.
  replace (sg_end s + d - (sg_start s + d)) with (sg_end s - sg_start s) by lia.
  by replace (sg_start s + d <? sg_end s + d) with (sg_start s <? sg_end s)
    by (apply eq_true_iff_eq; rewrite !Z.ltb_lt; lia).
Qed.

Lemma content_stream_moved d img :
  movable d (im_lo img) -> Forall (seg_movable d) (im_segs img) ->
  Forall (fun s => im_lo img <= sg_start s) (im_segs img) ->
  content_stream (move_image d img) = content_stream img.
Proof.
  intros Hlo Hs Hle. unfold content_stream, move_image. cbn [im_arch im_big_endian im_lo im_segs].
  unfold zlen. rewrite length_map. do 4 f_equal. rewrite map_map.
  induction Hs as [|s segs Hm _ IH]; [done|]. apply Forall_cons in Hle as [H Hle].
  cbn [map]. by rewrite segment_stream_moved, IH.
Qed.

Lemma sum_sizes_saturates chunks total :
  Forall (fun c => is_u64 (ch_start c) /\ is_u64 (ch_end c)) chunks -> 0 <= total <= u64_max ->
  sum_sizes chunks total = Z.min u64_max (foldl (fun n c => n + chunk_size c) total chunks).
Proof.
  intros Hc. revert total. induction Hc as [|c chunks [H1 H2] Hc IH]; intros total Ht; cbn [sum_sizes foldl].
  { lia. }
  pose proof (chunk_size_range _ H1 H2) as Hr. unfold is_u64 in Hr.
  destruct (Z.ltb_spec (u64_max - total) (chunk_size c)) as [Hlt|Hge]; [|apply IH; lia].
  assert (forall t, u64_max < t -> u64_max < foldl (fun n c => n + chunk_size c) t chunks) as Hbig.
  { clear -Hc. induction Hc as [|c chunks [H1 H2] Hc IH]; intros t Ht; [done|]. cbn [foldl]. apply IH.
    pose proof (chunk_size_range _ H1 H2) as Hr. unfold is_u64 in Hr. lia. }
  specialize (Hbig (total + chunk_size c) ltac:(lia)). lia.
Qed.

(** ** Properties *)

(** The lookups of the image find what an exhaustive search finds.  In an image
    with the documented invariant, the binary search for a segment succeeds exactly
    for the segment that contains the address, and the queries for loaded bytes and
    permissions answer for that segment.  With entries sorted by start, the function
    lookup fails exactly when no function starts at or contains the address, and
    otherwise returns a function that starts there, or else contains it. *)
Theorem image_lookups_exact img ea :
  segs_ok (im_segs img) -> StronglySorted (fun f g => fr_start f <= fr_start g) (im_entries img) ->
  (forall s, segment_at img ea = Some s <-> s ∈ im_segs img /\ seg_contains s ea = true) /\
  (img_byte_loaded img ea = true <-> exists s, s ∈ im_segs img /\ seg_byte_loaded s ea = true) /\
  (forall required unknown, img_has_perm img ea required unknown = true <->
     exists s, s ∈ im_segs img /\ seg_contains s ea = true /\
       (seg_has_perm s required = true \/ (unknown = true /\ sg_perm s = 0))) /\
  (forall f, function_at img ea = Some f ->
     f ∈ im_entries img /\ (fr_start f = ea \/ func_contains f ea = true)) /\
  (function_at img ea = None <->
     forall f, f ∈ im_entries img -> fr_start f <> ea /\ func_contains f ea = false).
Proof.
  intros Hok Hsort. pose proof (fun s => segment_at_iff img ea s Hok) as Hseg. split_and!.
  - done.
  - unfold img_byte_loaded. destruct (segment_at img ea) as [s|] eqn:E.
    + pose proof (proj1 (Hseg s) eq_refl) as [Hs Hc]. split; [by exists s|]. intros (t & Ht & Hl).
      assert (seg_contains t ea = true) as Htc
        by (unfold seg_byte_loaded in Hl; by destruct (seg_contains t ea)).
      pose proof (proj2 (Hseg t) (conj Ht Htc)) as E1. pose proof (proj2 (Hseg s) (conj Hs Hc)) as E2.
      congruence.
    + split; [done|]. intros (t & Ht & Hl).
      assert (seg_contains t ea = true) as Htc
        by (unfold seg_byte_loaded in Hl; by destruct (seg_contains t ea)).
      pose proof (proj2 (Hseg t) (conj Ht Htc)). congruence.
  - intros required unknown. unfold img_has_perm. destruct (segment_at img ea) as [s|] eqn:E.
    + rewrite orb_true_iff, andb_true_iff, Z.eqb_eq. split.
      * intros H. exists s. pose proof (proj1 (Hseg s) eq_refl). tauto.
      * intros (t & Ht & Hc & H). pose proof (proj2 (Hseg t) (conj Ht Hc)) as E1.
        assert (s = t) as -> by congruence. tauto.
    + split; [done|]. intros (t & Ht & Hc & _). pose proof (proj2 (Hseg t) (conj Ht Hc)). congruence.
  - apply function_at_some.
  - rewrite function_at_none. pose proof (lower_bound_app (fun f => fr_start f <? ea) (im_entries img)) as Happ.
    pose proof (lower_bound_low (fun f => fr_start f <? ea) (im_entries img)) as Hlow.
    pose proof (lower_bound_high (fun f => fr_start f <? ea) (im_entries img)) as Hhigh.
    destruct (lower_bound _ _) as [low high]. cbn [fst snd] in *. split.
    + intros [Hno Hh] f Hf. split; [|by apply Hno]. intros Hfe. rewrite <- Happ in Hf, Hsort.
      apply elem_of_app in Hf as [Hf|Hf]; [apply Hlow, Z.ltb_lt in Hf; lia|].
      destruct high as [|h high]; [by apply elem_of_nil in Hf|].
      specialize (Hhigh h high eq_refl). apply Z.ltb_ge in Hhigh.
      apply StronglySorted_app in Hsort as (_ & _ & Hsort). apply StronglySorted_inv in Hsort as [_ Hall].
      rewrite Forall_forall in Hall. apply elem_of_cons in Hf as [->|Hf]; [done|].
      specialize (Hall f Hf). lia.
    + intros H. split; [intros f Hf; by apply H|]. destruct high as [|h high]; [done|].
      apply H. rewrite <- Happ. set_solver.
Qed.

Definition sample_seg (start : Z) (perm : Z) : SegImage :=
  {| sg_start := start; sg_end := start + 4; sg_perm := perm; sg_bitness := 2;
     sg_bytes := [x11; x22; x00; x44]; sg_mask := [x0b] |}.
Definition sample_func (start : Z) : FuncRange :=
  {| fr_start := start; fr_end := start + 8; fr_chunks := []; fr_byte_hash := 0; fr_generation := 0 |}.
Definition sample_image : ProgramImage :=
  {| im_arch := X86_64; im_big_endian := false; im_lo := 4096; im_hi := 4112;
     im_segs := [sample_seg 4096 5; sample_seg 4102 0]; im_entries := [sample_func 4096];
     im_content_hash := 0; im_generation := 0 |}.

Lemma sample_image_ok : segs_ok (im_segs sample_image).
Proof. split; repeat constructor; cbn; lia. Qed.

Lemma image_lookups_exact_witness :
  segment_at sample_image 4103 = Some (sample_seg 4102 0) /\
  function_at sample_image 4200 = None /\
  (forall f, f ∈ im_entries sample_image -> fr_start f <> 4200 /\ func_contains f 4200 = false).
Proof.
  split; [reflexivity|]. split; [reflexivity|].
  apply (image_lookups_exact sample_image 4200).
  - exact sample_image_ok.
  - repeat constructor.
  - reflexivity.
Defined.

(** A view covers exactly the longest run of usable bytes.  From an address in a
    segment it covers the bytes from there on that are marked as loaded and backed by
    the buffer, up to the first that is not and at most as many as asked for; the
    fast path over whole bitmap bytes changes nothing.  Outside every segment, or
    when the run is empty, the view is null. *)
Theorem loaded_view_exact img ea maximum :
  segs_ok (im_segs img) -> 0 <= maximum ->
  let view := img_loaded_view img ea maximum in
  (forall s, s ∈ im_segs img -> seg_contains s ea = true ->
     let usable j := seg_byte_loaded s (ea + j) && (ea + j - sg_start s <? zlen (sg_bytes s)) in
     0 <= lv_size view <= maximum /\
     (forall j, 0 <= j < lv_size view -> usable j = true) /\
     (lv_size view = maximum \/ usable (lv_size view) = false) /\
     lv_data view = if lv_size view =? 0 then None else Some (ea - sg_start s)) /\
  ((forall s, s ∈ im_segs img -> seg_contains s ea = false) -> view = null_view).
Proof.
  intros Hok Hm. cbn zeta. unfold img_loaded_view. split.
  - intros s Hs Hc. rewrite (proj2 (segment_at_iff img ea s Hok) (conj Hs Hc)).
    destruct (loaded_view_longest s ea maximum Hm) as ((Hr & Hall & Hend) & Hd). done.
  - intros Hno. destruct (segment_at img ea) as [s|] eqn:E; [|done].
    apply segment_at_iff in E as [Hs Hc]; [|done]. rewrite (Hno s Hs) in Hc. done.
Qed.

Lemma loaded_view_exact_witness :
  img_loaded_view sample_image 4096 10 = {| lv_data := Some 0; lv_size := 2 |} /\
  (4096 + 2 - sg_start (sample_seg 4096 5) <? zlen (sg_bytes (sample_seg 4096 5))) = true /\
  ((forall s, s ∈ im_segs sample_image -> seg_contains s 4096 = false) ->
   img_loaded_view sample_image 4096 10 = null_view).
Proof.
  split; [reflexivity|]. split; [reflexivity|].
  exact (proj2 (loaded_view_exact sample_image 4096 10 sample_image_ok ltac:(lia))).
Defined.

(** C23: the function hash is the FNV-1a hash of the function's shape.  In an image
    with the documented invariant the walk over the segments ends and hashes exactly
    the reference byte stream (version, chunks with their relative starts and sizes,
    and for every address whether it is mapped, loaded, and its byte); this stream is
    the same for two functions exactly when their shapes are, and moving image and
    function together does not change the hash. *)
Theorem function_hash_exact img func :
  segs_ok (im_segs img) ->
  viy_function_byte_hash img func = Some (hash_each kFnvOffset (function_stream img func)) /\
  (forall img' func', func_typed func -> func_typed func' ->
     function_stream img func = function_stream img' func' <->
     function_shape img func = function_shape img' func') /\
  (forall d, Forall (seg_movable d) (im_segs img) -> movable d (fr_start func) ->
     Forall (chunk_movable d) (all_chunks func) ->
     viy_function_byte_hash (move_image d img) (move_func d func) = viy_function_byte_hash img func).
Proof.
  intros Hok. split_and!; [by apply function_hash_each|intros; by apply function_stream_inj|].
  intros d Hs Hf Hc. rewrite !function_hash_each; [|done|by apply segs_ok_moved].
  do 2 f_equal. unfold function_stream.
  assert (all_chunks (move_func d func) = map (move_chunk d) (all_chunks func)) as ->
    by (unfold all_chunks, move_func; cbn [fr_chunks fr_start fr_end]; by destruct (fr_chunks func)).
  unfold zlen. rewrite length_map. do 3 f_equal. rewrite map_map.
  induction Hc as [|c l H _ IH]; [done|]. cbn [map]. by rewrite chunk_stream_moved, IH.
Qed.

Lemma function_hash_exact_witness :
  segs_ok (im_segs sample_image) /\
  viy_function_byte_hash (move_image 65536 sample_image) (move_func 65536 (sample_func 4096)) =
  viy_function_byte_hash sample_image (sample_func 4096).
Proof.
  split; [exact sample_image_ok|].
  apply (proj2 (proj2 (function_hash_exact sample_image (sample_func 4096) sample_image_ok)) 65536).
  - repeat constructor; cbn; lia.
  - unfold movable. cbn. lia.
  - repeat constructor; cbn; lia.
Defined.

(** The content hash is the FNV-1a hash of the image content.  The fast path over
    runs of zero words computes the byte-by-byte hash of the reference stream
    (architecture, byte order, and for each segment its relative start, size,
    permissions, bitness, bitmap and bytes), and moving the image as a whole does not
    change the hash. *)
Theorem content_hash_exact img :
  Forall seg_typed (im_segs img) ->
  viy_program_content_hash img = hash_each kFnvOffset (content_stream img) /\
  (forall hash data, is_u64 hash -> zlen data < 2 ^ 64 -> hash_bytes hash data = hash_each hash data) /\
  (forall d, movable d (im_lo img) -> Forall (seg_movable d) (im_segs img) ->
     Forall (fun s => im_lo img <= sg_start s) (im_segs img) ->
     viy_program_content_hash (move_image d img) = viy_program_content_hash img).
Proof.
  intros Hs. split_and!; [by apply content_hash_each|exact hash_bytes_each|].
  intros d Hlo Hm Hle. rewrite !content_hash_each; [by rewrite content_stream_moved|done|].
  unfold move_image. cbn [im_segs]. apply Forall_forall.
  intros t (s & -> & Hin)%list_elem_of_fmap. rewrite Forall_forall in Hs.
  destruct (Hs s Hin) as (_ & _ & Hrest). split; [by apply Z.mod_pos_bound|]. split; [by apply Z.mod_pos_bound|exact Hrest].
Qed.

Lemma content_hash_exact_witness :
  Forall seg_typed (im_segs sample_image) /\
  viy_program_content_hash (move_image 65536 sample_image) = viy_program_content_hash sample_image.
Proof.
  assert (Forall seg_typed (im_segs sample_image)) as H
    by (repeat constructor; cbn; unfold is_u64, zlen; cbn; lia).
  split; [exact H|]. apply (proj2 (proj2 (content_hash_exact sample_image H)) 65536).
  - unfold movable. cbn. lia.
  - repeat constructor; cbn; lia.
  - repeat constructor; cbn; lia.
Defined.

(** The byte count of a function adds up its chunks and saturates instead of
    wrapping. *)
Theorem byte_size_saturates f :
  func_typed f ->
  byte_size f = Z.min u64_max (foldl (fun n c => n + chunk_size c) 0 (all_chunks f)).
Proof.
  intros [Hf _]. unfold byte_size, all_chunks in *. destruct (fr_chunks f) as [|c l].
  - apply Forall_cons in Hf as [[H1 H2] _]. pose proof (chunk_size_range _ H1 H2) as Hr.
    unfold is_u64, u64_max, chunk_size in *. cbn [foldl ch_start ch_end] in *. lia.
  - apply sum_sizes_saturates; [done|]. unfold u64_max. lia.
Qed.
