(* ===== verification/Deobf.v ===== *)
(** The deobfuscation classifiers ([src/src/deobf_analysis_core.hpp] and [.cpp]):
    the instruction form they read, their limits, and the arithmetic on widths and
    addresses that they share.  Register identifiers are [int32_t], deltas [int64_t];
    both are integers here, and an immediate is the unsigned word it is. *)
From stdpp Require Import base numbers list strings option sets.
From Stdlib Require Import ZArith Sorting.Sorted Lia.
From S2P Require Import Prelude OrderedMap.

Definition kBadAddress : Z := u64_max.
Definition kNoRegister : Z := -1.

Inductive InstructionKind :=
| Kind_Other
| Kind_Nop
| Kind_DirectCall
| Kind_IndirectCall
| Kind_DirectJump
| Kind_IndirectJump
| Kind_ConditionalBranch
| Kind_Return
| Kind_PopRegister
| Kind_PushRegister
| Kind_PushImmediate
| Kind_ReadStackTop
| Kind_AddStackTopImmediate
| Kind_AdjustStackPointerImmediate
| Kind_LoadImmediate
| Kind_LoadAddress
| Kind_LoadReadOnlyConstant
| Kind_CopyRegister
| Kind_AddImmediate
| Kind_SubImmediate
| Kind_XorImmediate
| Kind_AndImmediate
| Kind_OrImmediate
| Kind_ShiftLeftImmediate
| Kind_ReplaceHigh16
| Kind_CompareImmediate
| Kind_TestImmediate.

#[export] Instance InstructionKind_eq_dec : EqDecision InstructionKind.
Proof. solve_decision. Defined.

Inductive X86Condition :=
| Cond_Overflow
| Cond_NotOverflow
| Cond_Carry
| Cond_NotCarry
| Cond_Zero
| Cond_NotZero
| Cond_BelowOrEqual
| Cond_Above
| Cond_Sign
| Cond_NotSign
| Cond_Parity
| Cond_NotParity
| Cond_Less
| Cond_GreaterOrEqual
| Cond_LessOrEqual
| Cond_Greater
| Cond_Unknown.

#[export] Instance X86Condition_eq_dec : EqDecision X86Condition.
Proof. solve_decision. Defined.

Definition condition_value (c : X86Condition) : Z :=
  match c with
  | Cond_Overflow => 0 | Cond_NotOverflow => 1 | Cond_Carry => 2 | Cond_NotCarry => 3
  | Cond_Zero => 4 | Cond_NotZero => 5 | Cond_BelowOrEqual => 6 | Cond_Above => 7
  | Cond_Sign => 8 | Cond_NotSign => 9 | Cond_Parity => 10 | Cond_NotParity => 11
  | Cond_Less => 12 | Cond_GreaterOrEqual => 13 | Cond_LessOrEqual => 14 | Cond_Greater => 15
  | Cond_Unknown => 255
  end.

Inductive FlagEffect := Flags_Preserve | Flags_KnownCompare | Flags_KnownTest | Flags_UnknownWrite.

#[export] Instance FlagEffect_eq_dec : EqDecision FlagEffect.
Proof. solve_decision. Defined.

Record Instruction := {
  in_address : Z;
  in_size : Z;
  in_kind : InstructionKind;
  in_destination_register : Z;
  in_source_register : Z;
  in_destination_name : string;
  in_source_name : string;
  in_value_width : Z;
  in_immediate : Z;
  in_target : Z;
  in_memory_address : Z;
  in_condition : X86Condition;
  in_flag_effect : FlagEffect;
  in_register_is_left_operand : bool;
  in_alternate_predecessor : bool;
  in_writes_global_memory : bool;
  in_plumbing : bool
}.

Definition default_instruction : Instruction :=
  {| in_address := kBadAddress; in_size := 0; in_kind := Kind_Other;
     in_destination_register := kNoRegister; in_source_register := kNoRegister;
     in_destination_name := ""; in_source_name := ""; in_value_width := 0; in_immediate := 0;
     in_target := kBadAddress; in_memory_address := kBadAddress; in_condition := Cond_Unknown;
     in_flag_effect := Flags_UnknownWrite; in_register_is_left_operand := true;
     in_alternate_predecessor := false; in_writes_global_memory := false; in_plumbing := false |}.

Record Block := {
  bl_start : Z;
  bl_end : Z;
  bl_successors : list Z;
  bl_predecessor_count : Z;
  bl_instructions : list Instruction
}.

Record ClassifierLimits := {
  gadget_depth : Z;
  maximum_gap : Z;
  entry_predicate_window : Z;
  wrapper_maximum_instructions : Z;
  wrapper_maximum_callers : Z;
  minimum_constant_steps : Z;
  minimum_dispatch_cases : Z;
  maximum_dispatch_cases : Z
}.

Definition default_classifier_limits : ClassifierLimits :=
  {| gadget_depth := 12; maximum_gap := 256; entry_predicate_window := 64;
     wrapper_maximum_instructions := 12; wrapper_maximum_callers := 32;
     minimum_constant_steps := 2; minimum_dispatch_cases := 3; maximum_dispatch_cases := 256 |}.

Definition Instruction_end (insn : Instruction) : Z :=
  if (in_address insn =? kBadAddress) || (u64_max - in_size insn <? in_address insn)
  then kBadAddress
  else in_address insn + in_size insn.

Definition width_mask (width : Z) : Z :=
  if (width =? 0) || (8 <? width) then 0
  else if width =? 8 then u64_max
  else Z.shiftl 1 (width * 8) - 1.

Definition truncate_width (value width : Z) : Z := Z.land value (width_mask width).

(** [static_cast<int64_t>] of a 64-bit word. *)
Definition to_i64 (value : Z) : Z := if value <=? i64_max then value else value - 2 ^ 64.

Definition add_signed_address (base delta : Z) : option Z :=
  if 0 <=? delta then
    if u64_max - delta <? base then None else Some (base + delta)
  else
    let sub := - (delta + 1) + 1 in
    if base <? sub then None else Some (base - sub).

Definition add_delta (value delta : Z) : option Z :=
  if (0 <? delta) && (i64_max - delta <? value) then None
  else if (delta <? 0) && (value <? - 2 ^ 63 - delta) then None
  else Some (value + delta).

Definition normalize_support (support : list Z) : list Z :=
  std_unique Z.eqb (std_sort Z.ltb (List.filter (fun a => negb (a =? kBadAddress)) support)).

(** Close the range conditions of a concrete instruction. *)
Ltac decide_ranges := repeat split; vm_compute; first [reflexivity | discriminate].

(** An instruction of one byte with the fields a sample needs. *)
Definition sample_insn (address : Z) (kind : InstructionKind) (destination source width immediate : Z) :
    Instruction :=
  {| in_address := address; in_size := 1; in_kind := kind; in_destination_register := destination;
     in_source_register := source; in_destination_name := ""; in_source_name := "";
     in_value_width := width; in_immediate := immediate; in_target := kBadAddress;
     in_memory_address := kBadAddress; in_condition := Cond_Unknown; in_flag_effect := Flags_Preserve;
     in_register_is_left_operand := true; in_alternate_predecessor := false;
     in_writes_global_memory := false; in_plumbing := false |}.

(** What the C++ types impose. *)
Definition insn_typed (insn : Instruction) : Prop :=
  is_u64 (in_address insn) /\ is_u16 (in_size insn) /\ 0 <= in_value_width insn < 256 /\
  is_u64 (in_immediate insn) /\ is_u64 (in_target insn).

(** ** Words of [width] bytes *)

(** The low [width] bytes of an integer. *)
Definition low (width v : Z) : Z := v mod 2 ^ (8 * width).

Definition width_ok (width : Z) : Prop := 1 <= width <= 8.

(** The two's complement reading of the low [width] bytes. *)
Definition signed (width v : Z) : Z :=
  if low width v <? 2 ^ (8 * width - 1) then low width v else low width v - 2 ^ (8 * width).

Lemma low_range w v : 0 <= w -> 0 <= low w v < 2 ^ (8 * w).
Proof. intros. apply Z.mod_pos_bound. lia. Qed.

Lemma pow_width_pos w : 0 <= w -> 0 < 2 ^ (8 * w).
Proof. intros. apply Z.pow_pos_nonneg; lia. Qed.

Lemma pow_width_half w : 1 <= w -> 2 ^ (8 * w) = 2 * 2 ^ (8 * w - 1).
Proof. intros. rewrite <- Z.pow_succ_r by lia. f_equal. lia. Qed.

Lemma width_mask_ones w : width_ok w -> width_mask w = Z.ones (8 * w).
Proof.
  intros Hw. unfold width_mask. rewrite Z.ones_equiv, Z.shiftl_mul_pow2 by (unfold width_ok in *; lia).
  destruct (Z.eqb_spec w 0), (Z.ltb_spec 8 w), (Z.eqb_spec w 8); unfold width_ok in *; try lia; cbn [orb].
  - by subst.
  - rewrite (Z.mul_comm w 8). lia.
Qed.

Lemma truncate_low v w : width_ok w -> truncate_width v w = low w v.
Proof.
  intros Hw. unfold truncate_width, low. rewrite width_mask_ones by done.
  apply Z.land_ones. unfold width_ok in Hw. lia.
Qed.

Lemma land_mask_low v w : width_ok w -> Z.land v (width_mask w) = low w v.
Proof. exact (truncate_low v w). Qed.

Lemma width_mask_zero w : 0 <= w -> width_mask w = 0 <-> ~ width_ok w.
Proof.
  intros Hw. unfold width_mask, width_ok. destruct (Z.eqb_spec w 0) as [|H0]; [cbn [orb]; lia|].
  destruct (Z.ltb_spec 8 w) as [|H8]; cbn [orb]; [lia|].
  destruct (Z.eqb_spec w 8) as [->|]; [unfold u64_max; lia|].
  rewrite Z.shiftl_mul_pow2 by lia.
  assert (2 ^ 1 <= 2 ^ (w * 8)) by (apply Z.pow_le_mono_r; lia). lia.
Qed.

Lemma low_id w v : 0 <= v < 2 ^ (8 * w) -> low w v = v.
Proof. apply Z.mod_small. Qed.

Lemma low_idem w v : 0 <= w -> low w (low w v) = low w v.
Proof. intros. by apply low_id, low_range. Qed.

Lemma low_u64 w v : width_ok w -> is_u64 (low w v).
Proof.
  intros Hw. pose proof (low_range w v ltac:(unfold width_ok in Hw; lia)).
  assert (2 ^ (8 * w) <= 2 ^ 64) by (apply Z.pow_le_mono_r; unfold width_ok in Hw; lia).
  unfold is_u64. lia.
Qed.

(** Fewer bytes of a word's low bytes are the low bytes of the word. *)
Lemma low_low w w' v : 0 <= w <= w' -> low w (low w' v) = low w v.
Proof.
  intros Hw. apply Z.bits_inj'. intros i Hi. unfold low.
  destruct (Z.ltb_spec i (8 * w)).
  - rewrite !(Z.mod_pow2_bits_low _ (8 * w)) by lia. by rewrite Z.mod_pow2_bits_low by lia.
  - by rewrite !(Z.mod_pow2_bits_high _ (8 * w)) by lia.
Qed.

(** What a word operation reads of its left operand: only as many bytes as it
    writes. *)
Definition low_bytes_only (f : Z -> Z) : Prop :=
  forall w v v', 0 <= w -> low w v = low w v' -> low w (f v) = low w (f v').

Lemma low_bytes_bitwise (f : Z -> Z) :
  (forall v v' i, 0 <= i -> Z.testbit v i = Z.testbit v' i -> Z.testbit (f v) i = Z.testbit (f v') i) ->
  low_bytes_only f.
Proof.
  intros Hf w v v' Hw Heq. apply Z.bits_inj'. intros i Hi. unfold low in *.
  destruct (Z.ltb_spec i (8 * w)).
  - rewrite !Z.mod_pow2_bits_low by lia. apply Hf; [done|].
    rewrite <- (Z.mod_pow2_bits_low v (8 * w)), <- (Z.mod_pow2_bits_low v' (8 * w)) by lia. by rewrite Heq.
  - by rewrite !Z.mod_pow2_bits_high by lia.
Qed.

Lemma low_bytes_land c : low_bytes_only (fun v => Z.land v c).
Proof. apply low_bytes_bitwise. intros v v' i Hi H. by rewrite !Z.land_spec, H. Qed.

Lemma low_bytes_lor c : low_bytes_only (fun v => Z.lor v c).
Proof. apply low_bytes_bitwise. intros v v' i Hi H. by rewrite !Z.lor_spec, H. Qed.

Lemma low_bytes_lxor c : low_bytes_only (fun v => Z.lxor v c).
Proof. apply low_bytes_bitwise. intros v v' i Hi H. by rewrite !Z.lxor_spec, H. Qed.

Lemma low_bytes_add c : low_bytes_only (fun v => v + c).
Proof. intros w v v' Hw H. unfold low in *. by rewrite <- Zplus_mod_idemp_l, H, Zplus_mod_idemp_l. Qed.

Lemma low_bytes_mul c : low_bytes_only (fun v => v * c).
Proof. intros w v v' Hw H. unfold low in *. by rewrite <- Zmult_mod_idemp_l, H, Zmult_mod_idemp_l. Qed.

Lemma low_bytes_low w f v : low_bytes_only f -> 0 <= w -> low w (f (low w v)) = low w (f v).
Proof. intros Hf Hw. apply Hf; [done|]. by apply low_idem. Qed.

(** ** Support lists *)

Lemma normalize_support_spec support :
  StrictSorted Z.ltb (normalize_support support) /\
  forall a, a ∈ normalize_support support <-> a ∈ support /\ a <> kBadAddress.
Proof.
  unfold normalize_support. split; [apply sort_unique_strict; [apply _|apply Z.eqb_eq]|].
  intros a. rewrite elem_of_sort_unique by (apply _ || apply Z.eqb_eq).
  rewrite elem_of_filter, negb_true_iff, Z.eqb_neq. tauto.
Qed.

(** ** Addresses *)

Lemma add_signed_address_exact base delta :
  is_u64 base -> is_i64 delta ->
  add_signed_address base delta = if (0 <=? base + delta) && (base + delta <=? u64_max)
                                  then Some (base + delta) else None.
Proof.
  unfold is_u64, is_i64, add_signed_address, u64_max. intros Hb Hd.
  destruct (Z.leb_spec 0 delta), (Z.leb_spec 0 (base + delta)), (Z.leb_spec (base + delta) (2 ^ 64 - 1));
    cbn [andb]; try lia.
  all: try destruct (Z.ltb_spec (2 ^ 64 - 1 - delta) base); try destruct (Z.ltb_spec base (- (delta + 1) + 1));
    try lia; f_equal; lia.
Qed.

Lemma add_delta_exact value delta :
  is_i64 value -> is_i64 delta ->
  add_delta value delta = if (- 2 ^ 63 <=? value + delta) && (value + delta <=? i64_max)
                          then Some (value + delta) else None.
Proof.
  unfold is_i64, add_delta, i64_max. intros Hv Hd.
  destruct (Z.ltb_spec 0 delta), (Z.ltb_spec delta 0), (Z.ltb_spec (2 ^ 63 - 1 - delta) value),
    (Z.ltb_spec value (- 2 ^ 63 - delta)), (Z.leb_spec (- 2 ^ 63) (value + delta)),
    (Z.leb_spec (value + delta) (2 ^ 63 - 1)); cbn [andb]; try lia; done.
Qed.

Lemma to_i64_range v : is_u64 v -> is_i64 (to_i64 v).
Proof.
  unfold is_u64, is_i64, to_i64, i64_max. intros. destruct (Z.leb_spec v (2 ^ 63 - 1)); lia.
Qed.

Lemma low_to_i64 w v : width_ok w -> low w (to_i64 v) = low w v.
Proof.
  intros Hw. unfold to_i64. destruct (Z.leb_spec v i64_max); [done|]. unfold low, width_ok in *.
  replace (v - 2 ^ 64) with (v + - 2 ^ (64 - 8 * w) * 2 ^ (8 * w)); [apply Z.mod_add, Z.pow_nonzero; lia|].
  rewrite Z.mul_opp_l, <- Z.pow_add_r by lia. replace (64 - 8 * w + 8 * w) with 64 by lia. lia.
Qed.

Lemma Instruction_end_exact insn :
  is_u64 (in_address insn) -> 0 <= in_size insn ->
  Instruction_end insn <> kBadAddress ->
  Instruction_end insn = in_address insn + in_size insn /\ is_u64 (Instruction_end insn).
Proof.
  unfold Instruction_end, is_u64, u64_max. intros Ha Hs.
  destruct (Z.eqb_spec (in_address insn) kBadAddress); cbn [orb]; [done|].
  destruct (Z.ltb_spec (2 ^ 64 - 1 - in_size insn) (in_address insn)); [done|]. intros. lia.
Qed.
