(* ===== verification/DeobfFlags.v ===== *)
(** Arithmetic flags ([compare_flags], [test_flags] and [evaluate_condition] of
    [src/src/deobf_analysis_core.cpp]) and what each condition means for the compared
    integers. *)
From stdpp Require Import base numbers list strings option sets.
From Stdlib Require Import ZArith Lia.
From S2P Require Import Prelude Deobf.

Record ArithmeticFlags := {
  fl_carry : bool;
  fl_zero : bool;
  fl_sign : bool;
  fl_overflow : bool;
  fl_parity : bool
}.

(** [for (i = 0; i < 8; ++i) ones += (value >> i) & 1u;] *)
Fixpoint sum_bits (count : nat) (value i : Z) : Z :=
  match count with
  | O => 0
  | S count => Z.land (Z.shiftr value i) 1 + sum_bits count value (i + 1)
  end.

Definition even_parity (value : Z) : bool := Z.land (sum_bits 8 value 0) 1 =? 0.

Definition compare_flags (lhs rhs width : Z) : option ArithmeticFlags :=
  let mask := width_mask width in
  if mask =? 0 then None
  else
    let lhs := Z.land lhs mask in
    let rhs := Z.land rhs mask in
    let result := Z.land ((lhs - rhs) mod 2 ^ 64) mask in
    let sign_bit := Z.shiftl 1 (width * 8 - 1) in
    Some {| fl_carry := lhs <? rhs;
            fl_zero := result =? 0;
            fl_sign := negb (Z.land result sign_bit =? 0);
            fl_overflow :=
              negb (Z.land (Z.land (Z.lxor lhs rhs) (Z.lxor lhs result)) sign_bit =? 0);
            fl_parity := even_parity (result mod 256) |}.

Definition test_flags (lhs rhs width : Z) : option ArithmeticFlags :=
  let mask := width_mask width in
  if mask =? 0 then None
  else
    let result := Z.land (Z.land lhs rhs) mask in
    let sign_bit := Z.shiftl 1 (width * 8 - 1) in
    Some {| fl_carry := false;
            fl_zero := result =? 0;
            fl_sign := negb (Z.land result sign_bit =? 0);
            fl_overflow := false;
            fl_parity := even_parity (result mod 256) |}.

Definition evaluate_condition (condition : X86Condition) (f : ArithmeticFlags) : option bool :=
  match condition with
  | Cond_Overflow => Some (fl_overflow f)
  | Cond_NotOverflow => Some (negb (fl_overflow f))
  | Cond_Carry => Some (fl_carry f)
  | Cond_NotCarry => Some (negb (fl_carry f))
  | Cond_Zero => Some (fl_zero f)
  | Cond_NotZero => Some (negb (fl_zero f))
  | Cond_BelowOrEqual => Some (fl_carry f || fl_zero f)
  | Cond_Above => Some (negb (fl_carry f) && negb (fl_zero f))
  | Cond_Sign => Some (fl_sign f)
  | Cond_NotSign => Some (negb (fl_sign f))
  | Cond_Parity => Some (fl_parity f)
  | Cond_NotParity => Some (negb (fl_parity f))
  | Cond_Less => Some (negb (eqb (fl_sign f) (fl_overflow f)))
  | Cond_GreaterOrEqual => Some (eqb (fl_sign f) (fl_overflow f))
  | Cond_LessOrEqual => Some (fl_zero f || negb (eqb (fl_sign f) (fl_overflow f)))
  | Cond_Greater => Some (negb (fl_zero f) && eqb (fl_sign f) (fl_overflow f))
  | Cond_Unknown => None
  end.

(** ** What the conditions mean *)

(** The number of ones among the low eight bits is even. *)
Definition byte_parity (v : Z) : bool :=
  Nat.even (length (List.filter (fun i => Z.testbit v (Z.of_nat i)) (seq 0 8))).

(** After a comparison of [l] with [r], as integers of [w] bytes. *)
Definition compare_meaning (c : X86Condition) (w l r : Z) : option bool :=
  let difference := signed w l - signed w r in
  let fits := (- 2 ^ (8 * w - 1) <=? difference) && (difference <? 2 ^ (8 * w - 1)) in
  match c with
  | Cond_Overflow => Some (negb fits)
  | Cond_NotOverflow => Some fits
  | Cond_Carry => Some (low w l <? low w r)
  | Cond_NotCarry => Some (low w r <=? low w l)
  | Cond_Zero => Some (low w l =? low w r)
  | Cond_NotZero => Some (negb (low w l =? low w r))
  | Cond_BelowOrEqual => Some (low w l <=? low w r)
  | Cond_Above => Some (low w r <? low w l)
  | Cond_Sign => Some (signed w (l - r) <? 0)
  | Cond_NotSign => Some (0 <=? signed w (l - r))
  | Cond_Parity => Some (byte_parity (low w (l - r)))
  | Cond_NotParity => Some (negb (byte_parity (low w (l - r))))
  | Cond_Less => Some (signed w l <? signed w r)
  | Cond_GreaterOrEqual => Some (signed w r <=? signed w l)
  | Cond_LessOrEqual => Some (signed w l <=? signed w r)
  | Cond_Greater => Some (signed w r <? signed w l)
  | Cond_Unknown => None
  end.

(** After a test of [l] and [r]: the conditions of the bits both have, compared with
    zero. *)
Definition test_meaning (c : X86Condition) (w l r : Z) : option bool :=
  compare_meaning c w (Z.land l r) 0.

(** Conditions come in pairs of a predicate and its inverse, numbered by xor with
    one. *)
Definition inverse_condition (c : X86Condition) : X86Condition :=
  match c with
  | Cond_Overflow => Cond_NotOverflow | Cond_NotOverflow => Cond_Overflow
  | Cond_Carry => Cond_NotCarry | Cond_NotCarry => Cond_Carry
  | Cond_Zero => Cond_NotZero | Cond_NotZero => Cond_Zero
  | Cond_BelowOrEqual => Cond_Above | Cond_Above => Cond_BelowOrEqual
  | Cond_Sign => Cond_NotSign | Cond_NotSign => Cond_Sign
  | Cond_Parity => Cond_NotParity | Cond_NotParity => Cond_Parity
  | Cond_Less => Cond_GreaterOrEqual | Cond_GreaterOrEqual => Cond_Less
  | Cond_LessOrEqual => Cond_Greater | Cond_Greater => Cond_LessOrEqual
  | Cond_Unknown => Cond_Unknown
  end.

Lemma land_1_odd v : Z.land v 1 = if Z.odd v then 1 else 0.
Proof.
  change 1 with (Z.ones 1) at 1. rewrite Z.land_ones by lia. change (2 ^ 1) with 2.
  by rewrite Zmod_odd.
Qed.

Lemma sum_bits_filter count value i :
  0 <= i ->
  sum_bits count value i =
  Z.of_nat (length (List.filter (fun k => Z.testbit value (Z.of_nat k)) (seq (Z.to_nat i) count))).
Proof.
  revert i. induction count as [|count IH]; intros i Hi; [done|]. cbn [sum_bits seq List.filter].
  rewrite IH by lia. replace (Z.to_nat (i + 1)) with (S (Z.to_nat i)) by lia.
  rewrite Z2Nat.id by lia. rewrite land_1_odd, <- Z.bit0_odd, Z.shiftr_spec, Z.add_0_l by lia.
  destruct (Z.testbit value i); cbn [length]; lia.
Qed.

Lemma even_parity_exact v : 0 <= v -> even_parity (v mod 256) = byte_parity v.
Proof.
  intros Hv. unfold even_parity, byte_parity. rewrite sum_bits_filter, land_1_odd by lia.
  change (Z.to_nat 0) with 0%nat.
  assert (List.filter (fun k => Z.testbit (v mod 256) (Z.of_nat k)) (seq 0 8) =
          List.filter (fun i => Z.testbit v (Z.of_nat i)) (seq 0 8)) as ->.
  { apply List.filter_ext_in. intros k Hk%in_seq. change 256 with (2 ^ 8).
    by rewrite Z.mod_pow2_bits_low by lia. }
  rewrite <- Z.negb_even. destruct (Nat.even _) eqn:E;
    rewrite ?Nat.even_spec in E.
  - destruct E as [k ->]. rewrite Nat2Z.inj_mul, Z.even_mul. done.
  - rewrite <- Nat.negb_odd in E. apply negb_false_iff, Nat.odd_spec in E as [k ->].
    rewrite Nat2Z.inj_add, Nat2Z.inj_mul, Z.even_add, Z.even_mul. done.
Qed.

Lemma testbit_top n v : 1 <= n -> 0 <= v < 2 ^ n -> Z.testbit v (n - 1) = (2 ^ (n - 1) <=? v).
Proof.
  intros Hn Hv.
  pose proof (Z.pow_pos_nonneg 2 (n - 1) ltac:(lia) ltac:(lia)).
  assert (2 ^ n = 2 * 2 ^ (n - 1)) as Hd by (rewrite <- Z.pow_succ_r by lia; f_equal; lia).
  rewrite Z.testbit_odd, Z.shiftr_div_pow2 by lia.
  destruct (Z.leb_spec (2 ^ (n - 1)) v).
  - replace (v / 2 ^ (n - 1)) with 1; [done|]. apply (Z.div_unique _ _ 1 (v - 2 ^ (n - 1))); lia.
  - by rewrite Z.div_small by lia.
Qed.

Lemma low_wrap w v : width_ok w -> low w (v mod 2 ^ 64) = low w v.
Proof. intros Hw. apply (low_low w 8). unfold width_ok in Hw. lia. Qed.

Lemma low_sub w l r : 0 <= w -> low w (low w l - low w r) = low w (l - r).
Proof. intros Hw. unfold low. by rewrite <- Zminus_mod. Qed.

(** The three words of a comparison, as integers below [2 * half]. *)
Lemma difference_cases w l r (half := 2 ^ (8 * w - 1)) :
  width_ok w ->
  0 <= low w l < 2 * half /\ 0 <= low w r < 2 * half /\
  low w (l - r) = if low w r <=? low w l then low w l - low w r
                  else low w l - low w r + 2 * half.
Proof.
  intros Hw. assert (2 ^ (8 * w) = 2 * half) as Hp by (apply pow_width_half; unfold width_ok in Hw; lia).
  pose proof (low_range w l ltac:(unfold width_ok in Hw; lia)) as Hl.
  pose proof (low_range w r ltac:(unfold width_ok in Hw; lia)) as Hr.
  rewrite Hp in Hl, Hr. split_and!; try lia.
  rewrite <- low_sub by (unfold width_ok in Hw; lia). unfold low at 1. rewrite Hp.
  destruct (Z.leb_spec (low w r) (low w l)).
  - apply Z.mod_small. lia.
  - symmetry. apply (Z.mod_unique _ _ (-1)); lia.
Qed.

Lemma sign_bit_test w v :
  width_ok w ->
  negb (Z.land (low w v) (Z.shiftl 1 (w * 8 - 1)) =? 0) = (2 ^ (8 * w - 1) <=? low w v).
Proof.
  intros Hw. unfold width_ok in Hw. rewrite land_bit_test by lia. rewrite (Z.mul_comm w 8).
  apply testbit_top; [lia|]. apply low_range. lia.
Qed.

Lemma overflow_test w a b d :
  width_ok w -> 0 <= a < 2 ^ (8 * w) -> 0 <= b < 2 ^ (8 * w) -> 0 <= d < 2 ^ (8 * w) ->
  let negative v := 2 ^ (8 * w - 1) <=? v in
  negb (Z.land (Z.land (Z.lxor a b) (Z.lxor a d)) (Z.shiftl 1 (w * 8 - 1)) =? 0) =
  xorb (negative a) (negative b) && xorb (negative a) (negative d).
Proof.
  intros Hw Ha Hb Hd. unfold width_ok in Hw. cbn zeta. rewrite land_bit_test by lia.
  rewrite (Z.mul_comm w 8), Z.land_spec, !Z.lxor_spec. by rewrite !testbit_top by lia.
Qed.

(** Close a boolean equation between integer comparisons. *)
Ltac decide_bools :=
  repeat match goal with
  | |- context [?a <? ?b] => destruct (Z.ltb_spec a b)
  | |- context [?a <=? ?b] => destruct (Z.leb_spec a b)
  | |- context [?a =? ?b] => destruct (Z.eqb_spec a b)
  end; try reflexivity; exfalso; lia.

Lemma compare_flags_meaning l r w :
  width_ok w ->
  exists f, compare_flags l r w = Some f /\
            forall c, evaluate_condition c f = compare_meaning c w l r.
Proof.
  intros Hw. unfold compare_flags. destruct (Z.eqb_spec (width_mask w) 0) as [E|_].
  { apply width_mask_zero in E; [done|unfold width_ok in Hw; lia]. }
  eexists. split; [reflexivity|]. rewrite !land_mask_low by done.
  rewrite low_wrap, low_sub by (done || unfold width_ok in Hw; lia).
  rewrite overflow_test, sign_bit_test by (done || apply low_range; unfold width_ok in Hw; lia).
  rewrite even_parity_exact by (apply low_range; unfold width_ok in Hw; lia).
  destruct (difference_cases w l r Hw) as (Hl & Hr & Hd). cbn zeta.
  unfold compare_meaning, signed. rewrite (pow_width_half w) by (unfold width_ok in Hw; lia).
  generalize (byte_parity (low w (l - r))). intros parity. rewrite Hd.
  generalize dependent (low w l). generalize dependent (low w r).
  generalize (2 ^ (8 * w - 1)). clear. intros half R Hr L Hl _ c.
  destruct (Z.leb_spec R L), (Z.ltb_spec L half), (Z.ltb_spec R half);
    destruct c; cbn [evaluate_condition fl_carry fl_zero fl_sign fl_overflow fl_parity]; f_equal.
  all: repeat match goal with |- context [if ?a <? ?b then _ else _] => destruct (Z.ltb_spec a b) end.
  all: decide_bools.
Qed.

Lemma test_flags_meaning l r w :
  width_ok w ->
  exists f, test_flags l r w = Some f /\
            forall c, evaluate_condition c f = test_meaning c w l r.
Proof.
  intros Hw. unfold test_flags. destruct (Z.eqb_spec (width_mask w) 0) as [E|_].
  { apply width_mask_zero in E; [done|unfold width_ok in Hw; lia]. }
  eexists. split; [reflexivity|]. rewrite land_mask_low, sign_bit_test by done.
  rewrite even_parity_exact by (apply low_range; unfold width_ok in Hw; lia).
  unfold test_meaning, compare_meaning, signed. rewrite Z.sub_0_r.
  assert (low w 0 = 0) as -> by (unfold low; by rewrite Z.mod_0_l by (apply Z.pow_nonzero; unfold width_ok in Hw; lia)).
  pose proof (low_range w (Z.land l r) ltac:(unfold width_ok in Hw; lia)) as Hv.
  generalize (byte_parity (low w (Z.land l r))). intros parity.
  pose proof (pow_width_half w ltac:(unfold width_ok in Hw; lia)) as Hp. rewrite Hp in Hv |- *.
  generalize dependent (low w (Z.land l r)). clear Hp.
  assert (0 < 2 ^ (8 * w - 1)) as Hh by (apply Z.pow_pos_nonneg; unfold width_ok in Hw; lia).
  revert Hh. generalize (2 ^ (8 * w - 1)). clear. intros half Hh v Hv c.
  destruct (Z.ltb_spec v half), (Z.ltb_spec 0 half); try lia;
    destruct c; cbn [evaluate_condition fl_carry fl_zero fl_sign fl_overflow fl_parity]; f_equal.
  all: decide_bools.
Qed.

(** The flags decide every condition the way the integers do.  For a width of one
    to eight bytes the flags of a comparison make each condition evaluate to what it
    means for the unsigned and signed readings of the operands (below, less, overflow
    of the signed difference, even parity of its low byte, ...), those of a test to
    what it means for the common bits against zero; no other width has flags.  The
    enumeration numbers a condition and its inverse by xor with one, and the two
    always evaluate to opposite values. *)
Theorem conditions_exact l r w :
  0 <= w ->
  match compare_flags l r w with
  | Some f => width_ok w /\ forall c, evaluate_condition c f = compare_meaning c w l r
  | None => ~ width_ok w
  end /\
  match test_flags l r w with
  | Some f => width_ok w /\ forall c, evaluate_condition c f = test_meaning c w l r
  | None => ~ width_ok w
  end /\
  (forall c f, c <> Cond_Unknown ->
     condition_value (inverse_condition c) = Z.lxor (condition_value c) 1 /\
     evaluate_condition (inverse_condition c) f = negb <$> evaluate_condition c f).
Proof.
  intros Hw.
  assert (width_ok w \/ ~ width_ok w) as [Hok|Hno] by (unfold width_ok; lia).
  - destruct (compare_flags_meaning l r w Hok) as (f & -> & Hf).
    destruct (test_flags_meaning l r w Hok) as (g & -> & Hg). split_and!; try done.
    intros [] [[] [] [] [] []] Hc; done.
  - pose proof (proj2 (width_mask_zero w Hw) Hno) as Hz. unfold compare_flags, test_flags. rewrite Hz.
    split_and!; try done. intros [] [[] [] [] [] []] Hc; done.
Qed.

Lemma conditions_exact_witness :
  compare_meaning Cond_Overflow 1 128 1 = Some true /\
  exists f, compare_flags 128 1 1 = Some f /\
            evaluate_condition Cond_Overflow f = compare_meaning Cond_Overflow 1 128 1.
Proof.
  split; [reflexivity|]. eexists. split; [reflexivity|].
  apply (proj2 (proj1 (conditions_exact 128 1 1 ltac:(lia)))).
Defined.
