(* ===== verification/DeobfMachine.v ===== *)
(** A machine for the instruction form of the deobfuscation classifiers: what an
    instruction of each kind may do to registers, stack and flags.  It is the
    specification that the classifiers' claims about values, targets and branch
    directions are proved against.

    The machine follows the names and comments of the instruction form, and is liberal
    where the form says nothing.  An instruction of kind [Other] may do anything to the
    registers and to the stack, whether it names a destination or not; a write to a
    register may change any register that overlaps it, and a write to the stack pointer
    makes the stack another one; an instruction that the processor executes under a
    condition may be skipped.  What the processor is, the class [Processor] says. *)
From stdpp Require Import base numbers list strings option sets.
From Stdlib Require Import ZArith Lia.
From S2P Require Import Prelude Deobf DeobfFlags.

Record cpu := {
  cpu_regs : Z -> Z;
  cpu_stack : list Z;
  cpu_taken : X86Condition -> bool
}.

(** Every register holds a 64-bit word. *)
Definition words (regs : Z -> Z) : Prop := forall r, is_u64 (regs r).

(** What an instruction computes from its left operand; [None] when the result
    depends on the processor. *)
Definition word_operation (kind : InstructionKind) (w v imm : Z) : option Z :=
  match kind with
  | Kind_AddImmediate => Some (v + imm)
  | Kind_SubImmediate => Some (v - imm)
  | Kind_XorImmediate => Some (Z.lxor v imm)
  | Kind_AndImmediate => Some (Z.land v imm)
  | Kind_OrImmediate => Some (Z.lor v imm)
  | Kind_ShiftLeftImmediate => if imm <? 8 * w then Some (v * 2 ^ imm) else None
  | Kind_ReplaceHigh16 => if 4 <=? w then Some (v mod 2 ^ 16 + (imm mod 2 ^ 16) * 2 ^ 16) else None
  | _ => None
  end.

(** What the instruction form leaves to the processor.  [word] is the width of a machine
    word, which is meant where an instruction gives no width; writing [w] bytes of a
    register clears the others if [zero_extends w]; [overlaps d r] when register numbers
    name registers that share bits, as the numbers of [eax] and [al] do; [stack_register]
    tells the numbers of the stack pointer; the instruction at an address that is
    [conditional] may be skipped, as an ARM instruction with a condition. *)
Class Processor := {
  word : Z;
  zero_extends : Z -> bool;
  overlaps : Z -> Z -> bool;
  stack_register : Z -> bool;
  conditional : Z -> bool
}.

(** A processor with 64-bit words and disjoint registers, where 32-bit results clear the
    rest of their register. *)
Definition plain_processor : Processor := {|
  word := 8; zero_extends w := 4 <=? w; overlaps _ _ := false; stack_register _ := false;
  conditional _ := false |}.

Section Machine.
Context {P : Processor}.

Definition op_width (insn : Instruction) : Z :=
  if in_value_width insn =? 0 then word else in_value_width insn.

(** A write to [d] leaves [r] alone. *)
Definition apart (d r : Z) : bool := negb (r =? d) && negb (overlaps d r).

(** [regs'] is [regs] with the low [w] bytes of [d] set to those of [v]. *)
Definition writes (regs : Z -> Z) (d w v : Z) (regs' : Z -> Z) : Prop :=
  (forall r, apart d r = true -> regs' r = regs r) /\
  low w (regs' d) = low w v /\
  (zero_extends w = true -> regs' d = low w v).

(** [regs'] is [regs] with anything in [d]. *)
Definition clobbers (regs : Z -> Z) (d : Z) (regs' : Z -> Z) : Prop :=
  forall r, apart d r = true -> regs' r = regs r.

Definition same (regs regs' : Z -> Z) : Prop := forall r, regs' r = regs r.

(** The destination receives [value], if there is one that the form determines. *)
Definition receives (insn : Instruction) (regs : Z -> Z) (value : option Z) (regs' : Z -> Z) : Prop :=
  if in_destination_register insn =? kNoRegister then same regs regs'
  else
    match value with
    | Some v =>
        if (1 <=? op_width insn) && (op_width insn <=? 8)
        then writes regs (in_destination_register insn) (op_width insn) v regs'
        else clobbers regs (in_destination_register insn) regs'
    | None => clobbers regs (in_destination_register insn) regs'
    end.

(** The left operand of an operation with an immediate. *)
Definition base_register (insn : Instruction) : Z :=
  if in_source_register insn =? kNoRegister
  then in_destination_register insn else in_source_register insn.

(** The kinds that write their destination and nothing else, and what they write. *)
Definition writes_destination (kind : InstructionKind) : bool :=
  match kind with
  | Kind_LoadImmediate | Kind_LoadAddress | Kind_LoadReadOnlyConstant | Kind_CopyRegister
  | Kind_AddImmediate | Kind_SubImmediate | Kind_XorImmediate | Kind_AndImmediate
  | Kind_OrImmediate | Kind_ShiftLeftImmediate | Kind_ReplaceHigh16
  | Kind_PopRegister | Kind_ReadStackTop => true
  | _ => false
  end.

Definition written_value (insn : Instruction) (c : cpu) : option Z :=
  match in_kind insn with
  | Kind_LoadImmediate | Kind_LoadAddress | Kind_LoadReadOnlyConstant => Some (in_immediate insn)
  | Kind_CopyRegister => Some (cpu_regs c (in_source_register insn))
  | Kind_PopRegister | Kind_ReadStackTop => head (cpu_stack c)
  | kind =>
      word_operation kind (op_width insn) (cpu_regs c (base_register insn)) (in_immediate insn)
  end.

Definition regs_effect (insn : Instruction) (c : cpu) (regs' : Z -> Z) : Prop :=
  match in_kind insn with
  | Kind_DirectCall | Kind_IndirectCall | Kind_Other => True
  | kind =>
      if writes_destination kind then receives insn (cpu_regs c) (written_value insn c) regs'
      else same (cpu_regs c) regs'
  end.

(** The instruction writes the stack pointer as it would another register. *)
Definition moves_stack (insn : Instruction) : bool :=
  writes_destination (in_kind insn) && stack_register (in_destination_register insn).

Definition stack_effect (insn : Instruction) (c : cpu) (stack' : list Z) : Prop :=
  let stack := cpu_stack c in
  if moves_stack insn then True else
  match in_kind insn with
  | Kind_PushRegister =>
      exists v, stack' = v :: stack /\
                low (op_width insn) v = low (op_width insn) (cpu_regs c (in_source_register insn))
  | Kind_PushImmediate =>
      exists v, stack' = v :: stack /\ low (op_width insn) v = low (op_width insn) (in_immediate insn)
  | Kind_PopRegister | Kind_Return => stack' = tail stack
  | Kind_AddStackTopImmediate =>
      match stack with
      | v :: rest =>
          exists v', stack' = v' :: rest /\
                     low (op_width insn) v' = low (op_width insn) (v + in_immediate insn)
      | [] => stack' = []
      end
  | Kind_AdjustStackPointerImmediate | Kind_DirectCall | Kind_IndirectCall | Kind_Other => True
  | _ => stack' = stack
  end.

Definition is_call (insn : Instruction) : bool :=
  match in_kind insn with Kind_DirectCall | Kind_IndirectCall => true | _ => false end.

(** The operands of a comparison, in the order of the subtraction. *)
Definition compared (insn : Instruction) (regs : Z -> Z) : Z * Z :=
  let v := regs (in_destination_register insn) in
  if in_register_is_left_operand insn then (v, in_immediate insn) else (in_immediate insn, v).

Definition flags_effect (insn : Instruction) (c : cpu) (taken' : X86Condition -> bool) : Prop :=
  if is_call insn then True
  else
    let w := in_value_width insn in
    match in_flag_effect insn with
    | Flags_Preserve => forall cond, taken' cond = cpu_taken c cond
    | Flags_KnownCompare =>
        let '(l, r) := compared insn (cpu_regs c) in
        width_ok w -> forall cond b, compare_meaning cond w l r = Some b -> taken' cond = b
    | Flags_KnownTest =>
        width_ok w -> forall cond b,
          test_meaning cond w (cpu_regs c (in_destination_register insn)) (in_immediate insn) = Some b ->
          taken' cond = b
    | Flags_UnknownWrite => True
    end.

(** What executing [insn] may do. *)
Definition effect (insn : Instruction) (c c' : cpu) : Prop :=
  regs_effect insn c (cpu_regs c') /\
  stack_effect insn c (cpu_stack c') /\
  flags_effect insn c (cpu_taken c').

(** One step: at [insn] the machine may go from [c] to [c']. *)
Definition exec (insn : Instruction) (c c' : cpu) : Prop :=
  words (cpu_regs c') /\
  (effect insn c c' \/ conditional (in_address insn) = true /\ c' = c).

(** Arriving at an instruction of a block: by falling through from the one before it,
    which ended at [expected], or by an edge from elsewhere with any machine state. *)
Definition arrive (expected : Z) (insn : Instruction) (c c' : cpu) : Prop :=
  words (cpu_regs c') /\
  (in_address insn = expected -> in_alternate_predecessor insn = false -> c' = c).

(** [runs expected insns c c']: a machine that is about to fall into [insns] at
    address [expected] in state [c] may leave them in state [c']. *)
Inductive runs : Z -> list Instruction -> cpu -> cpu -> Prop :=
| runs_nil expected c : runs expected [] c c
| runs_cons expected insn insns c c1 c2 c3 :
    arrive expected insn c c1 -> exec insn c1 c2 ->
    runs (Instruction_end insn) insns c2 c3 ->
    runs expected (insn :: insns) c c3.

(** Where execution continues after the instructions of a block. *)
Definition next_address (expected : Z) (insns : list Instruction) : Z :=
  match last insns with Some insn => Instruction_end insn | None => expected end.

(** Straight-line execution. *)
Inductive executes : list Instruction -> cpu -> cpu -> Prop :=
| executes_nil c : executes [] c c
| executes_cons insn insns c c1 c2 :
    exec insn c c1 -> executes insns c1 c2 -> executes (insn :: insns) c c2.

Lemma runs_snoc expected insns insn c c3 :
  runs expected (insns ++ [insn]) c c3 <->
  exists c1 c2, runs expected insns c c1 /\ arrive (next_address expected insns) insn c1 c2 /\
                exec insn c2 c3.
Proof.
  revert expected c. induction insns as [|i insns IH]; intros expected c; cbn [app].
  - split.
    + intros H. inversion H as [|? ? ? ? c1 c2 ? Ha Hx Hr]; subst. inversion Hr; subst.
      exists c, c1. split_and!; [constructor|done|done].
    + intros (c1 & c2 & H1 & H2 & H3). inversion H1; subst. econstructor; [done|done|constructor].
  - assert (next_address expected (i :: insns) = next_address (Instruction_end i) insns) as Hn.
    { unfold next_address. rewrite last_cons. by destruct (last insns). }
    rewrite Hn. split.
    + intros H. inversion H as [|? ? ? ? c1 c2 ? Ha Hx Hr]; subst.
      apply IH in Hr as (d1 & d2 & H1 & H2 & H3). exists d1, d2. split_and!; [by econstructor|done|done].
    + intros (c1 & c2 & H1 & H2 & H3). inversion H1 as [|? ? ? ? d1 d2 ? Ha Hx Hr]; subst.
      econstructor; [done|done|]. apply IH. by exists c1, c2.
Qed.

Lemma next_address_snoc expected insns insn :
  next_address expected (insns ++ [insn]) = Instruction_end insn.
Proof. unfold next_address. by rewrite last_snoc. Qed.

Lemma executes_app l1 l2 c c' :
  executes (l1 ++ l2) c c' <-> exists c1, executes l1 c c1 /\ executes l2 c1 c'.
Proof.
  revert c. induction l1 as [|i l1 IH]; intros c; cbn [app].
  - split; [|intros (c1 & H1 & H2); by inversion H1; subst]. intros. exists c. split; [constructor|done].
  - split.
    + intros H. inversion H as [|? ? ? c1 ? Hx Hr]; subst. apply IH in Hr as (c2 & H1 & H2).
      exists c2. split; [by econstructor|done].
    + intros (c2 & H1 & H2). inversion H1 as [|? ? ? c1 ? Hx Hr]; subst.
      econstructor; [done|]. apply IH. by exists c2.
Qed.

Lemma receives_other insn regs value regs' r :
  receives insn regs value regs' ->
  apart (in_destination_register insn) r = true \/ in_destination_register insn = kNoRegister ->
  regs' r = regs r.
Proof.
  unfold receives. intros H Hr. destruct (Z.eqb_spec (in_destination_register insn) kNoRegister); [apply H|].
  destruct Hr as [Hr|]; [|done]. destruct value; [case_match|]; by apply H.
Qed.

Lemma regs_effect_write insn c regs' :
  writes_destination (in_kind insn) = true ->
  regs_effect insn c regs' <-> receives insn (cpu_regs c) (written_value insn c) regs'.
Proof. unfold regs_effect. by destruct (in_kind insn). Qed.

(** Calls and instructions of kind [Other] may do anything. *)
Definition opaque (insn : Instruction) : bool :=
  is_call insn || bool_decide (in_kind insn = Kind_Other).

Lemma regs_effect_keeps insn c regs' r :
  regs_effect insn c regs' -> opaque insn = false ->
  (writes_destination (in_kind insn) = true -> apart (in_destination_register insn) r = true) ->
  regs' r = cpu_regs c r.
Proof.
  unfold regs_effect, opaque, is_call. intros H [Hc Ho%bool_decide_eq_false]%orb_false_iff Hr.
  destruct (in_kind insn); try done; cbn [writes_destination] in H, Hr;
    first [exact (H r) | (eapply receives_other; [exact H|left; exact (Hr eq_refl)])].
Qed.

(** Some flags are always possible. *)
Lemma flags_effect_total insn c : exists taken', flags_effect insn c taken'.
Proof.
  unfold flags_effect. destruct (is_call insn); [by exists (cpu_taken c)|].
  destruct (in_flag_effect insn); [by exists (cpu_taken c)| | |by exists (cpu_taken c)].
  - destruct (compared insn (cpu_regs c)) as [l r].
    exists (fun cond => default false (compare_meaning cond (in_value_width insn) l r)).
    intros _ cond b H. by rewrite H.
  - exists (fun cond => default false (test_meaning cond (in_value_width insn)
                                       (cpu_regs c (in_destination_register insn)) (in_immediate insn))).
    intros _ cond b H. by rewrite H.
Qed.

Lemma exec_words insn c c' : exec insn c c' -> words (cpu_regs c').
Proof. by intros [? _]. Qed.

(** An instruction that names no destination, or whose kind does not write its
    destination, leaves the registers alone, unless it is a call. *)
Lemma op_width_given insn : width_ok (in_value_width insn) -> op_width insn = in_value_width insn.
Proof. unfold width_ok, op_width. intros. destruct (Z.eqb_spec (in_value_width insn) 0); [lia|done]. Qed.
End Machine.

(** Each instruction starts where the one before it ends, and is entered only from
    there. *)
Fixpoint linear (expected : Z) (insns : list Instruction) : Prop :=
  match insns with
  | [] => True
  | insn :: rest =>
      in_address insn = expected /\ in_alternate_predecessor insn = false /\
      linear (Instruction_end insn) rest
  end.

Lemma linear_snoc expected insns insn :
  linear expected (insns ++ [insn]) <->
  linear expected insns /\ in_address insn = next_address expected insns /\
  in_alternate_predecessor insn = false.
Proof.
  revert expected. induction insns as [|i insns IH]; intros expected; cbn [app linear].
  - unfold next_address. cbn. tauto.
  - rewrite IH. assert (next_address expected (i :: insns) = next_address (Instruction_end i) insns) as ->
      by (unfold next_address; rewrite last_cons; by destruct (last insns)). tauto.
Qed.

#[export] Hint Constructors runs executes : machine.
