(* ===== verification/DeobfConstants.v ===== *)
(** Constants inside a basic block ([update_constants] and [analyze_constant_block] of
    [src/src/deobf_analysis_core.cpp]), and their soundness for every execution of the
    block on the machine of [DeobfMachine]. *)
From stdpp Require Import base numbers list strings option sets gmap.
From Stdlib Require Import ZArith Sorting.Sorted Lia.
From S2P Require Import Prelude OrderedMap Deobf DeobfFlags DeobfMachine.

(** ** The constant state *)

Record ConstantState := {
  cs_value : Z;
  cs_width : Z;
  cs_steps : Z;
  cs_read_only_load : bool;
  cs_support : list Z
}.

(** [std::unordered_map<int32_t, ConstantState>]. *)
Notation StateMap := (gmap Z ConstantState).

Definition erase_destination (state : StateMap) (insn : Instruction) : StateMap :=
  if negb (in_destination_register insn =? kNoRegister)
  then delete (in_destination_register insn) state else state.

Definition valid_integer_instruction (insn : Instruction) : bool :=
  negb (in_destination_register insn =? kNoRegister) &&
  (1 <=? in_value_width insn) && (in_value_width insn <=? 8).

Definition assign_constant (state : StateMap) (insn : Instruction) (value steps : Z)
    (read_only : bool) (support : list Z) : StateMap :=
  if negb (valid_integer_instruction insn) then erase_destination state insn
  else
    <[in_destination_register insn :=
      {| cs_value := truncate_width value (in_value_width insn);
         cs_width := in_value_width insn;
         cs_steps := steps;
         cs_read_only_load := read_only;
         cs_support := normalize_support (support ++ [in_address insn]) |}]> state.

(** [next] with a new value: one more step, and the instruction in its support. *)
Definition advance (next : ConstantState) (insn : Instruction) (value : Z) : ConstantState :=
  {| cs_value := value;
     cs_width := in_value_width insn;
     cs_steps := cs_steps next + 1;
     cs_read_only_load := cs_read_only_load next;
     cs_support := normalize_support (cs_support next ++ [in_address insn]) |}.

(** The inner switch; [None] where it erases the destination and returns.  Unsigned
    arithmetic is modulo [2 ^ 64]. *)
Definition immediate_result (kind : InstructionKind) (value immediate width : Z) : option Z :=
  let mask := width_mask width in
  match kind with
  | Kind_AddImmediate => Some (Z.land ((value + immediate) mod 2 ^ 64) mask)
  | Kind_SubImmediate => Some (Z.land ((value - immediate) mod 2 ^ 64) mask)
  | Kind_XorImmediate => Some (Z.land (Z.lxor value immediate) mask)
  | Kind_AndImmediate => Some (Z.land (Z.land value immediate) mask)
  | Kind_OrImmediate => Some (Z.land (Z.lor value immediate) mask)
  | Kind_ShiftLeftImmediate =>
      if width * 8 <=? immediate then None
      else Some (Z.land (Z.shiftl value immediate mod 2 ^ 64) mask)
  | Kind_ReplaceHigh16 =>
      if width <? 4 then None
      else Some (Z.land (Z.lor (Z.land value 65535) (Z.shiftl (Z.land immediate 65535) 16)) mask)
  | _ => Some value
  end.

Definition update_constants (state : StateMap) (insn : Instruction) : StateMap :=
  match in_kind insn with
  | Kind_LoadImmediate | Kind_LoadAddress =>
      assign_constant state insn (in_immediate insn) 1 false []
  | Kind_LoadReadOnlyConstant =>
      assign_constant state insn (in_immediate insn) 1 true [in_memory_address insn]
  | Kind_CopyRegister =>
      match state !! in_source_register insn with
      | None => erase_destination state insn
      | Some source =>
          if negb (valid_integer_instruction insn) then erase_destination state insn
          else <[in_destination_register insn :=
                 advance source insn (truncate_width (cs_value source) (in_value_width insn))]> state
      end
  | (Kind_AddImmediate | Kind_SubImmediate | Kind_XorImmediate | Kind_AndImmediate
     | Kind_OrImmediate | Kind_ShiftLeftImmediate | Kind_ReplaceHigh16) as kind =>
      match state !! base_register insn with
      | None => erase_destination state insn
      | Some base =>
          if negb (valid_integer_instruction insn) || negb (cs_width base =? in_value_width insn)
          then erase_destination state insn
          else
            match immediate_result kind (cs_value base) (in_immediate insn) (in_value_width insn) with
            | None => erase_destination state insn
            | Some value => <[in_destination_register insn := advance base insn value]> state
            end
      end
  | Kind_DirectCall | Kind_IndirectCall => ∅
  | Kind_Other => if negb (in_destination_register insn =? kNoRegister) then ∅ else state
  | _ => state
  end.

(** ** The block analysis *)

Inductive ConstantTargetKind := Target_IndirectCall | Target_IndirectJump | Target_PushReturn.

#[export] Instance ConstantTargetKind_eq_dec : EqDecision ConstantTargetKind.
Proof. solve_decision. Defined.

Definition target_kind_value (k : ConstantTargetKind) : Z :=
  match k with Target_IndirectCall => 0 | Target_IndirectJump => 1 | Target_PushReturn => 2 end.

Record ConstantTargetCandidate := {
  ct_instruction : Z;
  ct_target : Z;
  ct_kind : ConstantTargetKind;
  ct_register_id : Z;
  ct_register_name : string;
  ct_value_width : Z;
  ct_transformation_steps : Z;
  ct_used_read_only_load : bool;
  ct_support : list Z
}.

Record ConstantAssignment := {
  ca_instruction : Z;
  ca_register_id : Z;
  ca_value : Z;
  ca_value_width : Z;
  ca_transformation_steps : Z;
  ca_support : list Z
}.

Record ConstantBlockResult := {
  cr_targets : list ConstantTargetCandidate;
  cr_final_assignments : list ConstantAssignment
}.

Definition target_candidate (insn : Instruction) (kind : ConstantTargetKind) (reg : Z)
    (name : string) (value : ConstantState) : ConstantTargetCandidate :=
  {| ct_instruction := in_address insn;
     ct_target := cs_value value;
     ct_kind := kind;
     ct_register_id := reg;
     ct_register_name := name;
     ct_value_width := cs_width value;
     ct_transformation_steps := cs_steps value;
     ct_used_read_only_load := cs_read_only_load value;
     ct_support := normalize_support (cs_support value ++ [in_address insn]) |}.

(** The register is known at the width the instruction uses. *)
Definition known_at (state : StateMap) (reg width : Z) : option ConstantState :=
  match state !! reg with
  | Some value => if (width =? 0) || (cs_width value =? width) then Some value else None
  | None => None
  end.

Definition indirect_target (limits : ClassifierLimits) (state : StateMap) (insn : Instruction) :
    option ConstantTargetCandidate :=
  let candidate kind :=
    match known_at state (base_register insn) (in_value_width insn) with
    | Some value =>
        if minimum_constant_steps limits <=? cs_steps value then
          Some (target_candidate insn kind (base_register insn)
                  (if String.eqb (in_source_name insn) "" then in_destination_name insn
                   else in_source_name insn) value)
        else None
    | None => None
    end in
  match in_kind insn with
  | Kind_IndirectCall => candidate Target_IndirectCall
  | Kind_IndirectJump => candidate Target_IndirectJump
  | _ => None
  end.

(** [pending_push] after the instruction, and the candidate that a return makes of the
    one before it. *)
Definition push_step (limits : ClassifierLimits) (state : StateMap)
    (pending : option (Z * ConstantState)) (insn : Instruction) :
    option (Z * ConstantState) * option ConstantTargetCandidate :=
  match in_kind insn with
  | Kind_PushImmediate =>
      (Some (kNoRegister,
             {| cs_value := truncate_width (in_immediate insn) (in_value_width insn);
                cs_width := in_value_width insn;
                cs_steps := 1;
                cs_read_only_load := false;
                cs_support := [in_address insn] |}), None)
  | Kind_PushRegister =>
      ((fun value => (in_source_register insn, value)) <$>
         known_at state (in_source_register insn) (in_value_width insn), None)
  | Kind_Return =>
      (None,
       match pending with
       | Some (reg, value) =>
           if (reg =? kNoRegister) || (minimum_constant_steps limits <=? cs_steps value)
           then Some (target_candidate insn Target_PushReturn reg "" value)
           else None
       | None => None
       end)
  | Kind_Nop => (pending, None)
  | _ => (None, None)
  end.

Record BlockScan := {
  bs_state : StateMap;
  bs_pending : option (Z * ConstantState);
  bs_targets : list ConstantTargetCandidate
}.

(** A join with other code inside the block forgets everything. *)
Definition joined (expected : Z) (insn : Instruction) : bool :=
  negb (in_address insn =? expected) || in_alternate_predecessor insn.

Definition scan_instruction (limits : ClassifierLimits) (scan : BlockScan) (insn : Instruction) :
    BlockScan :=
  let '(pending, target) := push_step limits (bs_state scan) (bs_pending scan) insn in
  {| bs_state := update_constants (bs_state scan) insn;
     bs_pending := pending;
     bs_targets := bs_targets scan ++ option_list (indirect_target limits (bs_state scan) insn)
                     ++ option_list target |}.

Definition enter (expected : Z) (insn : Instruction) (scan : BlockScan) : BlockScan :=
  if joined expected insn
  then {| bs_state := ∅; bs_pending := None; bs_targets := bs_targets scan |} else scan.

Fixpoint scan_block (limits : ClassifierLimits) (expected : Z) (insns : list Instruction)
    (scan : BlockScan) : BlockScan :=
  match insns with
  | [] => scan
  | insn :: rest =>
      let scan := enter expected insn scan in
      let expected := Instruction_end insn in
      if expected =? kBadAddress then scan
      else scan_block limits expected rest (scan_instruction limits scan insn)
  end.

Definition assignment_of (item : Z * ConstantState) : ConstantAssignment :=
  {| ca_instruction := match last (cs_support item.2) with Some a => a | None => kBadAddress end;
     ca_register_id := item.1;
     ca_value := cs_value item.2;
     ca_value_width := cs_width item.2;
     ca_transformation_steps := cs_steps item.2;
     ca_support := cs_support item.2 |}.

Definition target_lt (a b : ConstantTargetCandidate) : bool :=
  if negb (ct_instruction a =? ct_instruction b) then ct_instruction a <? ct_instruction b
  else if negb (ct_target a =? ct_target b) then ct_target a <? ct_target b
  else target_kind_value (ct_kind a) <? target_kind_value (ct_kind b).

Definition empty_scan : BlockScan := {| bs_state := ∅; bs_pending := None; bs_targets := [] |}.

Definition analyze_constant_block (block : Block) (limits : ClassifierLimits) : ConstantBlockResult :=
  let scan := scan_block limits (bl_start block) (bl_instructions block) empty_scan in
  {| cr_targets := std_sort target_lt (bs_targets scan);
     cr_final_assignments :=
       std_sort (fun a b => ca_register_id a <? ca_register_id b)
         (map assignment_of (map_to_list (bs_state scan))) |}.

(** ** Soundness of a step *)

Definition width_in_range (w : Z) : bool := (1 <=? w) && (w <=? 8).

Lemma valid_integer_iff insn :
  valid_integer_instruction insn = true <->
  in_destination_register insn <> kNoRegister /\ width_ok (in_value_width insn).
Proof.
  unfold valid_integer_instruction, width_ok. rewrite !andb_true_iff, negb_true_iff, Z.eqb_neq. lia.
Qed.

(** The widths and values of the state fit, and no register has the number that means
    none. *)
Definition state_ok (state : StateMap) : Prop :=
  forall r s, state !! r = Some s ->
    r <> kNoRegister /\ width_ok (cs_width s) /\ low (cs_width s) (cs_value s) = cs_value s.

Lemma state_ok_empty : state_ok ∅.
Proof. intros r s H. by rewrite lookup_empty in H. Qed.

Lemma state_ok_erase state insn : state_ok state -> state_ok (erase_destination state insn).
Proof.
  intros H. unfold erase_destination. case_match; [|done]. intros r s Hl.
  apply lookup_delete_Some in Hl as [_ Hl]. by apply H.
Qed.

Lemma state_ok_insert state r s :
  state_ok state -> r <> kNoRegister -> width_ok (cs_width s) ->
  low (cs_width s) (cs_value s) = cs_value s -> state_ok (<[r := s]> state).
Proof.
  intros H ??? r' s' Hl. apply lookup_insert_Some in Hl as [[<- <-]|[_ Hl]]; [done|by apply H].
Qed.

(** The inner switch computes the word operation on the low bytes. *)
Lemma immediate_result_exact kind v imm w :
  width_ok w -> 0 <= imm ->
  kind ∈ [Kind_AddImmediate; Kind_SubImmediate; Kind_XorImmediate; Kind_AndImmediate;
          Kind_OrImmediate; Kind_ShiftLeftImmediate; Kind_ReplaceHigh16] ->
  immediate_result kind (low w v) imm w = low w <$> word_operation kind w v imm.
Proof.
  intros Hw Hi Hk. assert (0 <= w) as Hw0 by (unfold width_ok in Hw; lia).
  rewrite !elem_of_cons, elem_of_nil in Hk.
  destruct Hk as [->|[->|[->|[->|[->|[->|[->|[]]]]]]]]; cbn [immediate_result word_operation fmap option_fmap option_map].
  - rewrite land_mask_low, low_wrap by done. f_equal. by apply (low_bytes_low w (fun v => v + imm) v (low_bytes_add imm)).
  - rewrite land_mask_low, low_wrap by done. f_equal. by apply (low_bytes_low w (fun v => v + - imm) v (low_bytes_add (- imm))).
  - rewrite land_mask_low by done. f_equal. by apply (low_bytes_low w _ v (low_bytes_lxor imm)).
  - rewrite land_mask_low by done. f_equal. by apply (low_bytes_low w _ v (low_bytes_land imm)).
  - rewrite land_mask_low by done. f_equal. by apply (low_bytes_low w _ v (low_bytes_lor imm)).
  - destruct (Z.leb_spec (w * 8) imm), (Z.ltb_spec imm (8 * w)); try lia; [done|].
    rewrite land_mask_low, low_wrap by done. cbn. f_equal. rewrite Z.shiftl_mul_pow2 by done.
    by apply (low_bytes_low w (fun v => v * 2 ^ imm) v (low_bytes_mul (2 ^ imm))).
  - destruct (Z.ltb_spec w 4), (Z.leb_spec 4 w); try lia; [done|]. rewrite land_mask_low by done. cbn. f_equal.
    f_equal. change 65535 with (Z.ones 16). rewrite !Z.land_ones, Z.lor_comm by lia.
    rewrite lor_shiftl_add by (try lia; apply Z.mod_pos_bound; lia).
    pose proof (low_low 2 w v ltac:(lia)) as H2. unfold low in H2. change (8 * 2) with 16 in H2. unfold low. rewrite H2. lia.
Qed.

Lemma update_constants_ok state insn :
  insn_typed insn -> state_ok state -> state_ok (update_constants state insn).
Proof.
  intros (_ & _ & _ & Hi & _) Hs. unfold update_constants, assign_constant.
  assert (forall v, width_ok (in_value_width insn) ->
            low (in_value_width insn) (truncate_width v (in_value_width insn)) =
            truncate_width v (in_value_width insn)) as Htr
    by (intros v Hw; rewrite truncate_low by done; apply low_idem; unfold width_ok in Hw; lia).
  assert (state_ok (erase_destination state insn)) as He by by apply state_ok_erase.
  destruct (in_kind insn) eqn:Ek; try done; repeat case_match; try done; try apply state_ok_empty.
  all: repeat match goal with
  | H : negb _ = false |- _ => apply negb_false_iff in H
  | H : _ || _ = false |- _ => apply orb_false_iff in H as [? ?]
  | H : valid_integer_instruction _ = true |- _ => apply valid_integer_iff in H as [? ?]
  end.
  all: try (apply state_ok_insert; cbn [cs_width cs_value advance]; by auto).
  all: match goal with
  | H1 : (cs_width ?b =? _) = true, H2 : immediate_result _ _ _ _ = Some ?z, H3 : _ !! _ = Some ?b |- _ =>
      destruct (Hs _ _ H3) as (_ & Hw & Hv); apply Z.eqb_eq in H1;
      rewrite <- Hv, H1, immediate_result_exact in H2 by (done || unfold is_u64 in Hi; lia || set_solver);
      apply fmap_Some in H2 as (x & _ & ->)
  end.
  all: apply state_ok_insert; cbn [cs_width cs_value advance]; try done.
  all: apply low_idem; unfold width_ok in *; lia.
Qed.

Section Soundness.
Context {P : Processor}.

(** What the state says of the content of a register. *)
Definition holds (s : ConstantState) (v : Z) : Prop :=
  low (cs_width s) v = cs_value s /\ (zero_extends (cs_width s) = true -> v = cs_value s).

Definition agrees (state : StateMap) (regs : Z -> Z) : Prop :=
  forall r s, state !! r = Some s -> holds s (regs r).

(** No register that the state describes shares bits with [d]. *)
Definition spared (state : StateMap) (d : Z) : bool :=
  bool_decide (map_Forall (fun r _ => r = d \/ apart d r = true) state).

(** The steps that the analysis handles soundly.  It keeps what it knows of a register
    that is popped into or receives the top of the stack, and widens a copy as if
    every narrow write cleared the rest of the register; it keeps what it knows when an
    instruction of kind [Other] names no destination, and what it knows of a register
    when an overlapping one is written. *)
Definition step_safe (state : StateMap) (insn : Instruction) : bool :=
  match in_kind insn with
  | Kind_Other => negb (in_destination_register insn =? kNoRegister) || bool_decide (state = ∅)
  | kind =>
      negb (writes_destination kind) || (in_destination_register insn =? kNoRegister) ||
      (spared state (in_destination_register insn) &&
       match kind with
       | Kind_CopyRegister =>
           match state !! in_source_register insn with
           | Some s =>
               negb (valid_integer_instruction insn) || (in_value_width insn <=? cs_width s) ||
               zero_extends (cs_width s)
           | None => true
           end
       | Kind_PopRegister | Kind_ReadStackTop =>
           match state !! in_destination_register insn with Some _ => false | None => true end
       | _ => true
       end)
  end.

Definition is_push (insn : Instruction) : bool :=
  match in_kind insn with Kind_PushRegister | Kind_PushImmediate => true | _ => false end.

(** The analysis takes it that the instruction is executed, not skipped. *)
Definition steady (insn : Instruction) : bool :=
  negb (conditional (in_address insn)) || negb (writes_destination (in_kind insn) || is_push insn).

Lemma agrees_empty regs : agrees ∅ regs.
Proof. intros r s H. by rewrite lookup_empty in H. Qed.

(** The destination is none or spares the state. *)
Definition harmless (state : StateMap) (insn : Instruction) : Prop :=
  in_destination_register insn = kNoRegister \/ spared state (in_destination_register insn) = true.

Lemma harmless_other state insn regs value regs' r s :
  harmless state insn -> receives insn regs value regs' ->
  state !! r = Some s -> r <> in_destination_register insn \/ in_destination_register insn = kNoRegister ->
  regs' r = regs r.
Proof.
  intros Hh Hr Hl Hne. apply (receives_other _ _ _ _ _ Hr). destruct Hh as [Hn|Hsp]; [by right|].
  destruct Hne as [Hne|]; [left|by right]. unfold spared in Hsp. apply bool_decide_eq_true in Hsp.
  by destruct (Hsp r s Hl).
Qed.

(** Forgetting the destination is sound whatever it receives. *)
Lemma agrees_erase state insn regs value regs' :
  harmless state insn -> agrees state regs -> receives insn regs value regs' ->
  agrees (erase_destination state insn) regs'.
Proof.
  intros Hh Ha Hr r s Hl. unfold erase_destination in Hl.
  destruct (Z.eqb_spec (in_destination_register insn) kNoRegister); cbn [negb] in Hl.
  - rewrite (harmless_other _ _ _ _ _ _ _ Hh Hr Hl) by by right. by apply Ha.
  - apply lookup_delete_Some in Hl as [Hne Hl].
    rewrite (harmless_other _ _ _ _ _ _ _ Hh Hr Hl) by (left; congruence). by apply Ha.
Qed.

(** Recording the value that the destination receives is sound. *)
Lemma agrees_record state insn regs v regs' s :
  harmless state insn -> agrees state regs -> valid_integer_instruction insn = true ->
  receives insn regs (Some v) regs' ->
  cs_width s = in_value_width insn -> cs_value s = low (in_value_width insn) v ->
  agrees (<[in_destination_register insn := s]> state) regs'.
Proof.
  intros Hh Ha [Hd Hw]%valid_integer_iff Hr Hsw Hsv r s' Hl.
  apply lookup_insert_Some in Hl as [[<- <-]|[Hne Hl]].
  - unfold receives in Hr. rewrite op_width_given in Hr by done.
    destruct (Z.eqb_spec (in_destination_register insn) kNoRegister); [done|].
    destruct (Z.leb_spec 1 (in_value_width insn)), (Z.leb_spec (in_value_width insn) 8);
      unfold width_ok in Hw; try lia. cbn [andb] in Hr. destruct Hr as (_ & H1 & H2).
    unfold holds. rewrite Hsw, Hsv. by split.
  - rewrite (harmless_other _ _ _ _ _ _ _ Hh Hr Hl) by (left; congruence). by apply Ha.
Qed.

Lemma agrees_same state regs regs' : agrees state regs -> same regs regs' -> agrees state regs'.
Proof. intros Ha H r s Hl. rewrite H. by apply Ha. Qed.

Lemma agrees_assign state insn regs v regs' steps ro support :
  harmless state insn -> agrees state regs -> receives insn regs (Some v) regs' ->
  agrees (assign_constant state insn v steps ro support) regs'.
Proof.
  intros Hh Ha Hr. unfold assign_constant. destruct (valid_integer_instruction insn) eqn:E; cbn [negb].
  - eapply agrees_record; [done|done|done|done|done|]. apply truncate_low, valid_integer_iff. done.
  - by eapply agrees_erase.
Qed.

Lemma agrees_immediate state insn regs regs' kind :
  insn_typed insn -> state_ok state -> harmless state insn -> agrees state regs ->
  kind ∈ [Kind_AddImmediate; Kind_SubImmediate; Kind_XorImmediate; Kind_AndImmediate;
          Kind_OrImmediate; Kind_ShiftLeftImmediate; Kind_ReplaceHigh16] ->
  receives insn regs
    (word_operation kind (op_width insn) (regs (base_register insn)) (in_immediate insn)) regs' ->
  agrees (match state !! base_register insn with
          | None => erase_destination state insn
          | Some base =>
              if negb (valid_integer_instruction insn) || negb (cs_width base =? in_value_width insn)
              then erase_destination state insn
              else
                match immediate_result kind (cs_value base) (in_immediate insn) (in_value_width insn) with
                | None => erase_destination state insn
                | Some value => <[in_destination_register insn := advance base insn value]> state
                end
          end) regs'.
Proof.
  intros (_ & _ & _ & Hi & _) Hs Hh Ha Hk Hr. pose proof (agrees_erase _ _ _ _ _ Hh Ha Hr) as He.
  destruct (state !! base_register insn) as [base|] eqn:Eb; [|done].
  destruct (valid_integer_instruction insn) eqn:Ev; [|done].
  destruct (Z.eqb_spec (cs_width base) (in_value_width insn)) as [Ew|]; [|done]. cbn [negb orb].
  pose proof (proj1 (valid_integer_iff insn) Ev) as [_ Hw].
  destruct (Ha _ _ Eb) as [Hb _]. rewrite <- Hb, Ew. rewrite op_width_given in Hr by done.
  rewrite immediate_result_exact by (done || unfold is_u64 in Hi; lia).
  destruct (word_operation _ _ _ _) as [x|]; cbn [fmap option_fmap option_map]; [|done].
  by eapply agrees_record.
Qed.

(** Executing a write that is handled soundly. *)
Lemma update_write_sound state insn c regs' :
  insn_typed insn -> state_ok state -> step_safe state insn = true ->
  writes_destination (in_kind insn) = true -> agrees state (cpu_regs c) ->
  receives insn (cpu_regs c) (written_value insn c) regs' -> agrees (update_constants state insn) regs'.
Proof.
  intros Ht Hs Hsafe Hwd Ha Hr. unfold written_value in Hr.
  assert (harmless state insn) as Hh.
  { unfold harmless, step_safe in *. destruct (Z.eqb_spec (in_destination_register insn) kNoRegister); [by left|right].
    destruct (in_kind insn); try done; cbn [writes_destination negb orb] in Hsafe; by apply andb_true_iff in Hsafe as [? _]. }
  assert (forall s, in_kind insn = Kind_PopRegister \/ in_kind insn = Kind_ReadStackTop ->
    in_destination_register insn <> kNoRegister -> state !! in_destination_register insn = Some s -> False) as Hpop.
  { intros s Hk Hd Hl. unfold step_safe in Hsafe. rewrite Hl in Hsafe.
    rewrite (proj2 (Z.eqb_neq _ _) Hd) in Hsafe.
    destruct Hk as [Hk|Hk]; rewrite Hk in Hsafe; cbn [writes_destination negb orb] in Hsafe; by rewrite andb_false_r in Hsafe. }
  assert (in_kind insn = Kind_PopRegister \/ in_kind insn = Kind_ReadStackTop -> agrees state regs') as Htop.
  { intros Hk r s Hl. rewrite (harmless_other _ _ _ _ _ _ _ Hh Hr Hl); [by apply Ha|].
    destruct (Z.eq_dec (in_destination_register insn) kNoRegister) as [|Hd]; [by right|left].
    intros ->. by apply (Hpop s). }
  unfold update_constants.
  destruct (in_kind insn) eqn:Ek; try done; try (by eapply agrees_assign); try (by apply Htop; auto);
    try (eapply agrees_immediate; by (done || set_solver)).
  destruct (state !! in_source_register insn) as [s|] eqn:E; [|by eapply agrees_erase].
  destruct (valid_integer_instruction insn) eqn:Ev; cbn [negb]; [|by eapply agrees_erase].
  pose proof (proj1 (valid_integer_iff insn) Ev) as [Hd Hw].
  eapply agrees_record; [done|done|done|done|done|]. cbn [advance cs_value]. rewrite truncate_low by done.
  destruct (Ha _ _ E) as [Hl Hz]. unfold step_safe in Hsafe. rewrite Ek, E, Ev in Hsafe.
  rewrite (proj2 (Z.eqb_neq _ _) Hd) in Hsafe. cbn [writes_destination negb orb] in Hsafe.
  apply andb_true_iff in Hsafe as [_ [Hle|Hz']%orb_true_iff].
  - rewrite <- Hl. apply low_low. apply Z.leb_le in Hle. unfold width_ok in Hw. lia.
  - by rewrite Hz.
Qed.

Lemma update_constants_sound state insn c c' :
  insn_typed insn -> state_ok state -> step_safe state insn = true -> steady insn = true ->
  agrees state (cpu_regs c) -> exec insn c c' ->
  agrees (update_constants state insn) (cpu_regs c').
Proof.
  intros Ht Hs Hsafe Hst Ha [_ [(Hr & _ & _)|[Hc ->]]].
  - destruct (writes_destination (in_kind insn)) eqn:Ew.
    + apply (update_write_sound state insn c); [done..|]. by apply regs_effect_write in Hr.
    + unfold regs_effect in Hr. unfold update_constants, step_safe in *.
      destruct (in_kind insn); try done; try apply agrees_empty; try (by eapply agrees_same).
      destruct (in_destination_register insn =? kNoRegister); cbn [negb orb] in *; [|apply agrees_empty].
      apply bool_decide_eq_true in Hsafe as ->. apply agrees_empty.
  - unfold steady in Hst. rewrite Hc in Hst. cbn [negb orb] in Hst. apply negb_true_iff in Hst.
    apply orb_false_iff in Hst as [Hw _]. unfold update_constants.
    destruct (in_kind insn); try done; try apply agrees_empty. case_match; [apply agrees_empty|done].
Qed.

Lemma exec_exists insn c regs' stack' :
  words regs' -> regs_effect insn c regs' -> stack_effect insn c stack' ->
  exists c', exec insn c c' /\ cpu_regs c' = regs'.
Proof.
  intros H1 H2 H3. destruct (flags_effect_total insn c) as [taken' H4].
  exists {| cpu_regs := regs'; cpu_stack := stack'; cpu_taken := taken' |}. split; [|done]. split; [done|by left].
Qed.

Lemma write_exists insn c regs' :
  writes_destination (in_kind insn) = true -> words regs' ->
  receives insn (cpu_regs c) (written_value insn c) regs' ->
  exists c', exec insn c c' /\ cpu_regs c' = regs'.
Proof.
  intros Hw H1 H2.
  apply (exec_exists insn c regs'
    (if bool_decide (in_kind insn = Kind_PopRegister) then tail (cpu_stack c) else cpu_stack c)); [done| |].
  - by apply regs_effect_write.
  - unfold stack_effect. destruct (moves_stack insn); [done|]. by destruct (in_kind insn).
Qed.

(** [d] receives [v] in [regs], the rest of the destination being cleared, and anything may
    become of the registers that overlap it. *)
Lemma receives_set insn (regs regs' : Z -> Z) value :
  in_destination_register insn <> kNoRegister ->
  (forall r, apart (in_destination_register insn) r = true -> regs' r = regs r) ->
  (forall v, value = Some v -> regs' (in_destination_register insn) = low (op_width insn) v) ->
  receives insn regs value regs'.
Proof.
  intros Hd Ho Hv. unfold receives. destruct (Z.eqb_spec (in_destination_register insn) kNoRegister); [done|].
  destruct value as [v|]; [|done].
  destruct ((1 <=? op_width insn) && (op_width insn <=? 8)) eqn:E; [|done].
  apply andb_true_iff in E as [E1%Z.leb_le E2%Z.leb_le]. unfold writes. rewrite (Hv v eq_refl).
  split_and!; [done|apply low_idem; lia|done].
Qed.

Definition put (regs : Z -> Z) (d v r : Z) : Z := if r =? d then v else regs r.

Lemma put_apart regs d v r : apart d r = true -> put regs d v r = regs r.
Proof. unfold apart, put. intros [Hr%negb_true_iff _]%andb_true_iff. by rewrite Hr. Qed.

Lemma put_words regs d v : words regs -> is_u64 v -> words (put regs d v).
Proof. intros Hr Hv r. unfold put. by destruct (r =? d). Qed.

(** A small number that is not [x]. *)
Definition other_than (x : Z) : Z := if x =? 0 then 1 else 0.

Lemma other_than_spec x w : width_ok w -> low w (other_than x) = other_than x /\ other_than x <> x.
Proof.
  intros ?. split; [|unfold other_than; destruct (Z.eqb_spec x 0); lia]. apply low_id.
  assert (2 ^ 8 <= 2 ^ (8 * w)) by (apply Z.pow_le_mono_r; unfold width_ok in *; lia).
  unfold other_than. destruct (x =? 0); lia.
Qed.

Lemma other_than_u64 x : is_u64 (other_than x).
Proof. unfold other_than, is_u64. destruct (x =? 0); lia. Qed.

(** Some execution refutes what the analysis makes of the state. *)
Definition refuted (state : StateMap) (insn : Instruction) : Prop :=
  exists c c', words (cpu_regs c) /\ agrees state (cpu_regs c) /\ exec insn c c' /\
               ~ agrees (update_constants state insn) (cpu_regs c').

(** The registers that the state describes. *)
Definition described_regs (state : StateMap) : Z -> Z :=
  fun r => match state !! r with Some s => cs_value s | None => 0 end.

Lemma described_regs_spec state :
  state_ok state -> words (described_regs state) /\ agrees state (described_regs state).
Proof.
  intros Hs. unfold described_regs. split.
  - intros r. destruct (state !! r) as [s|] eqn:E; [|unfold is_u64; lia].
    destruct (Hs _ _ E) as (_ & Hw & <-). by apply low_u64.
  - intros r s Hl. rewrite Hl. destruct (Hs _ _ Hl) as (_ & _ & ?). by split.
Qed.

(** A register that holds something else than the state says refutes it. *)
Lemma other_refutes state regs r s :
  state_ok state -> state !! r = Some s -> regs r = other_than (cs_value s) -> ~ agrees state regs.
Proof.
  intros Hs Hl Hr Ha. destruct (Hs _ _ Hl) as (_ & Hw & _). destruct (Ha _ _ Hl) as [Hh _].
  destruct (other_than_spec (cs_value s) (cs_width s) Hw) as [Hlow Hne]. congruence.
Qed.

(** A register that receives the top of the stack can lose the value the state has for
    it. *)
Lemma stack_read_unsafe state insn s :
  state_ok state -> in_kind insn = Kind_PopRegister \/ in_kind insn = Kind_ReadStackTop ->
  state !! in_destination_register insn = Some s -> width_ok (op_width insn) -> refuted state insn.
Proof.
  intros Hs Hk Hl How. destruct (Hs _ _ Hl) as (Hn & Hw & Hv).
  destruct (described_regs_spec state Hs) as [Hc Hac].
  set (v := other_than (cs_value s)). set (d := in_destination_register insn) in *.
  set (c := {| cpu_regs := described_regs state; cpu_stack := [v]; cpu_taken := fun _ => false |}).
  destruct (write_exists insn c (put (cpu_regs c) d v)) as (c' & Hx & Hr').
  - by destruct Hk as [-> | ->].
  - apply put_words; [done|apply other_than_u64].
  - apply receives_set; [done|intros r; apply put_apart|]. intros x Hwv.
    assert (x = v) as -> by (unfold written_value in Hwv; destruct Hk as [Hk|Hk]; rewrite Hk in Hwv; by injection Hwv).
    unfold put. fold d. rewrite Z.eqb_refl. symmetry. by apply other_than_spec.
  - exists c, c'. split_and!; [done..|].
    assert (update_constants state insn = state) as -> by (unfold update_constants; by destruct Hk as [-> | ->]).
    apply (other_refutes state _ d s); [done|done|]. rewrite Hr'. unfold put. by rewrite Z.eqb_refl.
Qed.

(** A register that shares bits with the destination can lose its value as well. *)
Lemma overlap_unsafe state insn r s :
  state_ok state -> writes_destination (in_kind insn) = true -> in_destination_register insn <> kNoRegister ->
  state !! r = Some s -> r <> in_destination_register insn -> apart (in_destination_register insn) r = false ->
  width_ok (op_width insn) -> refuted state insn.
Proof.
  intros Hs Hwd Hd Hl Hne Hov How. destruct (described_regs_spec state Hs) as [Hc Hac].
  set (d := in_destination_register insn) in *.
  set (c := {| cpu_regs := described_regs state; cpu_stack := []; cpu_taken := fun _ => false |}).
  set (v := match written_value insn c with Some v => low (op_width insn) v | None => 0 end).
  destruct (write_exists insn c (put (put (cpu_regs c) r (other_than (cs_value s))) d v)) as (c' & Hx & Hr').
  - done.
  - apply put_words; [apply put_words; [done|apply other_than_u64]|].
    unfold v. destruct (written_value insn c); [by apply low_u64|unfold is_u64; lia].
  - apply receives_set; [done| |].
    + fold d. intros x Hx. rewrite put_apart by done. unfold put. destruct (Z.eqb_spec x r); [congruence|done].
    + intros x Hwv. unfold put. fold d. rewrite Z.eqb_refl. unfold v. by rewrite Hwv.
  - exists c, c'. split_and!; [done..|]. intros Ha.
    assert (update_constants state insn !! r = Some s) as Hl'.
    { rewrite <- Hl. unfold update_constants, assign_constant, erase_destination. fold d.
      destruct (in_kind insn); try done; repeat case_match; try done;
        first [by apply lookup_insert_ne | by apply lookup_delete_ne]. }
    destruct (Hs _ _ Hl) as (_ & Hw & _). destruct (Ha _ _ Hl') as [Hh _].
    rewrite Hr' in Hh. unfold put in Hh. rewrite (proj2 (Z.eqb_neq r d)), Z.eqb_refl in Hh by done.
    destruct (other_than_spec (cs_value s) (cs_width s) Hw) as [Hlow Hneq]. congruence.
Qed.

(** An instruction whose writes are not described can change any register. *)
Lemma silent_write_unsafe state insn :
  state_ok state -> in_kind insn = Kind_Other -> in_destination_register insn = kNoRegister ->
  state <> ∅ -> refuted state insn.
Proof.
  intros Hs Hk Hd Hne. destruct (map_choose state Hne) as (r & s & Hl).
  destruct (described_regs_spec state Hs) as [Hc Hac].
  set (c := {| cpu_regs := described_regs state; cpu_stack := []; cpu_taken := fun _ => false |}).
  destruct (exec_exists insn c (put (cpu_regs c) r (other_than (cs_value s))) []) as (c' & Hx & Hr').
  - apply put_words; [done|apply other_than_u64].
  - unfold regs_effect. by rewrite Hk.
  - unfold stack_effect, moves_stack. by rewrite Hk.
  - exists c, c'. split_and!; [done..|].
    assert (update_constants state insn = state) as -> by (unfold update_constants; by rewrite Hk, Hd).
    apply (other_refutes state _ r s); [done|done|]. rewrite Hr'. unfold put. by rewrite Z.eqb_refl.
Qed.

(** A copy wider than what is known of its source can bring bytes that the state
    takes for zero. *)
Lemma widening_copy_unsafe state insn s :
  state_ok state -> in_kind insn = Kind_CopyRegister ->
  state !! in_source_register insn = Some s -> valid_integer_instruction insn = true ->
  cs_width s < in_value_width insn -> zero_extends (cs_width s) = false -> refuted state insn.
Proof.
  intros Hs Hk Hl Hv Hlt Hz. destruct (Hs _ _ Hl) as (Hn & Hw & Hsv).
  pose proof (proj1 (valid_integer_iff insn) Hv) as [Hd Hiw]. unfold width_ok in Hw, Hiw.
  set (v := cs_value s + 2 ^ (8 * cs_width s)).
  pose proof (low_range (cs_width s) (cs_value s) ltac:(lia)) as Hrange. rewrite Hsv in Hrange.
  assert (2 ^ (8 * cs_width s) * 2 ^ 8 <= 2 ^ (8 * in_value_width insn)) as Hp
    by (rewrite <- Z.pow_add_r by lia; apply Z.pow_le_mono_r; lia).
  assert (2 ^ (8 * in_value_width insn) <= 2 ^ 64) as Hp' by (apply Z.pow_le_mono_r; lia).
  assert (is_u64 v) as Hv64 by (unfold is_u64, v; lia).
  destruct (described_regs_spec state Hs) as [Hc Hac].
  set (src := in_source_register insn) in *. set (d := in_destination_register insn) in *.
  set (c := {| cpu_regs := put (described_regs state) src v; cpu_stack := []; cpu_taken := fun _ => false |}).
  assert (words (cpu_regs c)) as Hcw by by apply put_words.
  assert (written_value insn c = Some v) as Hwv
    by (unfold written_value; rewrite Hk; cbn; unfold put; fold src; by rewrite Z.eqb_refl).
  destruct (write_exists insn c (put (cpu_regs c) d (low (op_width insn) v))) as (c' & Hx & Hr').
  - by rewrite Hk.
  - apply put_words; [done|]. rewrite op_width_given by done. by apply low_u64.
  - rewrite Hwv. apply receives_set; [done|intros r; apply put_apart|].
    intros x [= <-]. unfold put. fold d. by rewrite Z.eqb_refl.
  - exists c, c'. split_and!; [done| |done|].
    + intros r s' Hl'. cbn. unfold put. destruct (Z.eqb_spec r src) as [->|]; [|by apply Hac].
      assert (s' = s) as -> by congruence. split; [|congruence].
      unfold v, low. replace (cs_value s + 2 ^ (8 * cs_width s)) with (cs_value s + 1 * 2 ^ (8 * cs_width s)) by lia.
      rewrite Z.mod_add by lia. exact Hsv.
    + unfold update_constants. rewrite Hk. fold src. rewrite Hl, Hv. cbn [negb]. intros Ha. fold d in Ha.
      destruct (Ha d _ (lookup_insert_eq _ _ _)) as [Hh _]. cbn [advance cs_width cs_value] in Hh.
      rewrite Hr' in Hh. unfold put at 1 in Hh. rewrite Z.eqb_refl, op_width_given, truncate_low in Hh by done.
      rewrite low_idem, !low_id in Hh by lia. lia.
Qed.

(** ** Soundness of the block analysis *)

(** The instructions the scan gets to, and whether it handles each of them soundly and
    execution cannot skip them. *)
Fixpoint processed (insns : list Instruction) : list Instruction :=
  match insns with
  | [] => []
  | insn :: rest => if Instruction_end insn =? kBadAddress then [] else insn :: processed rest
  end.

Fixpoint safe_from (expected : Z) (insns : list Instruction) (state : StateMap) : bool :=
  match insns with
  | [] => true
  | insn :: rest =>
      if Instruction_end insn =? kBadAddress then true
      else
        let state := if joined expected insn then ∅ else state in
        steady insn && step_safe state insn && safe_from (Instruction_end insn) rest (update_constants state insn)
  end.

(** No instruction handles more than a machine word. *)
Definition insn_fits (insn : Instruction) : Prop := insn_typed insn /\ in_value_width insn <= word.

Definition state_fits (state : StateMap) : Prop :=
  state_ok state /\ forall r s, state !! r = Some s -> cs_width s <= word.

Definition pending_holds (pending : option (Z * ConstantState)) (stack : list Z) : Prop :=
  match pending with
  | Some (_, s) =>
      cs_width s <= word /\ exists v rest, stack = v :: rest /\ low (cs_width s) v = cs_value s
  | None => True
  end.

(** What a candidate says of the machine that is about to execute its instruction. *)
Definition target_holds (t : ConstantTargetCandidate) (c : cpu) : Prop :=
  match ct_kind t with
  | Target_PushReturn =>
      exists v rest, cpu_stack c = v :: rest /\ low (ct_value_width t) v = ct_target t
  | _ => low (ct_value_width t) (cpu_regs c (ct_register_id t)) = ct_target t
  end.

Definition target_insn_kind (k : ConstantTargetKind) : InstructionKind :=
  match k with
  | Target_IndirectCall => Kind_IndirectCall
  | Target_IndirectJump => Kind_IndirectJump
  | Target_PushReturn => Kind_Return
  end.

(** The candidate belongs to an instruction, and holds whenever execution gets
    there. *)
Definition target_sound (start : Z) (insns : list Instruction) (t : ConstantTargetCandidate) : Prop :=
  exists before insn after,
    insns = before ++ insn :: after /\
    in_address insn = ct_instruction t /\ in_kind insn = target_insn_kind (ct_kind t) /\
    in_address insn ∈ ct_support t ++ [kBadAddress] /\
    forall c0 c c1, words (cpu_regs c0) -> runs start before c0 c ->
      arrive (next_address start before) insn c c1 -> target_holds t c1.

Definition scan_sound (start : Z) (insns : list Instruction) (scan : BlockScan) : Prop :=
  state_fits (bs_state scan) /\
  (forall c0 c, words (cpu_regs c0) -> runs start insns c0 c ->
     words (cpu_regs c) /\ agrees (bs_state scan) (cpu_regs c) /\
     pending_holds (bs_pending scan) (cpu_stack c)) /\
  (forall t, t ∈ bs_targets scan -> target_sound start insns t).

Lemma target_sound_app start insns insns' t :
  target_sound start insns t -> target_sound start (insns ++ insns') t.
Proof.
  intros (b & i & a & -> & H). exists b, i, (a ++ insns'). by rewrite <- app_assoc.
Qed.

Lemma update_constants_width state insn :
  insn_fits insn -> state_fits state -> state_fits (update_constants state insn).
Proof.
  intros [Ht Hw] [Hs Hws]. split; [by apply update_constants_ok|]. intros r s.
  assert (forall r s, erase_destination state insn !! r = Some s -> cs_width s <= word) as He.
  { intros r' s' Hl. unfold erase_destination in Hl. case_match; [|by eapply Hws].
    apply lookup_delete_Some in Hl as [_ Hl]. by eapply Hws. }
  assert (forall s' r s, cs_width s' = in_value_width insn ->
            <[in_destination_register insn := s']> state !! r = Some s -> cs_width s <= word) as Hi.
  { intros s' r' s'' Hs' Hl. apply lookup_insert_Some in Hl as [[_ <-]|[_ Hl]]; [lia|by eapply Hws]. }
  unfold update_constants, assign_constant.
  destruct (in_kind insn); repeat case_match; intros Hl;
    first [exact (Hws _ _ Hl) | exact (He _ _ Hl) | (refine (Hi _ _ _ _ Hl); reflexivity) | by rewrite lookup_empty in Hl].
Qed.

Lemma known_at_spec state r w s :
  known_at state r w = Some s -> state !! r = Some s /\ (w = 0 \/ cs_width s = w).
Proof.
  unfold known_at. destruct (state !! r) as [s'|]; [|done].
  destruct (Z.eqb_spec w 0), (Z.eqb_spec (cs_width s') w); cbn [orb]; naive_solver.
Qed.

Context (Hword : width_ok word).

Lemma enter_sound start before scan insn c0 c c1 :
  scan_sound start before scan -> words (cpu_regs c0) ->
  runs start before c0 c -> arrive (next_address start before) insn c c1 ->
  let scan := enter (next_address start before) insn scan in
  words (cpu_regs c1) /\ agrees (bs_state scan) (cpu_regs c1) /\
  pending_holds (bs_pending scan) (cpu_stack c1).
Proof.
  intros (_ & Hrun & _) H0 Hr [Hw1 Ha]. cbn zeta. split; [done|]. unfold enter, joined.
  destruct (Z.eqb_spec (in_address insn) (next_address start before)) as [E|]; cbn [negb orb].
  - destruct (in_alternate_predecessor insn) eqn:Eb; cbn [bs_state bs_pending]; [by split; [apply agrees_empty|]|].
    rewrite Ha by done. by apply (Hrun c0).
  - by split; [apply agrees_empty|].
Qed.

Lemma enter_fits expected insn scan :
  state_fits (bs_state scan) -> state_fits (bs_state (enter expected insn scan)).
Proof.
  intros H. unfold enter. destruct (joined _ _); [|done]. cbn [bs_state].
  split; [apply state_ok_empty|]. intros r s Hl. by rewrite lookup_empty in Hl.
Qed.

Lemma pushed_width insn v x :
  0 <= in_value_width insn <= word -> low (op_width insn) v = low (op_width insn) x ->
  low (in_value_width insn) v = low (in_value_width insn) x.
Proof.
  intros Hw. unfold op_width. destruct (Z.eqb_spec (in_value_width insn) 0) as [->|]; [|done].
  intros _. unfold low. by rewrite !Z.mod_1_r.
Qed.

Lemma push_step_sound limits state pending insn c1 c2 :
  insn_fits insn -> state_fits state -> agrees state (cpu_regs c1) ->
  pending_holds pending (cpu_stack c1) -> steady insn = true -> exec insn c1 c2 ->
  pending_holds (push_step limits state pending insn).1 (cpu_stack c2).
Proof.
  intros [(_ & _ & Hw & _) Hle] [Hok Hfit] Ha Hp Hst [_ [(_ & Hs & _)|[Hc ->]]].
  2: { unfold steady, is_push in Hst. rewrite Hc in Hst. unfold push_step. by destruct (in_kind insn). }
  unfold stack_effect, moves_stack in Hs. unfold push_step.
  destruct (in_kind insn); cbn [writes_destination andb] in Hs; cbn [fst pending_holds]; try done.
  - by rewrite Hs.
  - destruct (known_at state _ _) as [s|] eqn:E; [|done]. cbn [fmap option_fmap option_map pending_holds].
    apply known_at_spec in E as [El Ew]. specialize (Hfit _ _ El). split; [done|].
    destruct Hs as (v & Hs & Hv). exists v, (cpu_stack c1). split; [done|].
    destruct (Ha _ _ El) as [<- _]. destruct (Hok _ _ El) as (_ & Hsw & _). unfold width_ok in Hsw.
    destruct Ew as [Ew|Ew].
    + unfold op_width in Hv. rewrite Ew in Hv. cbn in Hv.
      rewrite <- (low_low _ word v), Hv, low_low by lia. done.
    + rewrite Ew. apply pushed_width; [lia|done].
  - cbn [cs_width cs_value]. split; [done|]. destruct Hs as (v & Hs & Hv). exists v, (cpu_stack c1). split; [done|].
    rewrite (pushed_width insn v (in_immediate insn)) by (lia || done).
    destruct (Z.eqb_spec (in_value_width insn) 0) as [->|].
    + unfold low, truncate_width, width_mask. cbn. by rewrite Z.mod_1_r, Z.land_0_r.
    + symmetry. apply truncate_low. unfold width_ok in *. lia.
Qed.

(** The candidates of an instruction hold when execution is at it. *)
Lemma candidates_sound limits state pending insn c1 t :
  agrees state (cpu_regs c1) -> pending_holds pending (cpu_stack c1) ->
  t ∈ option_list (indirect_target limits state insn) ++
      option_list (push_step limits state pending insn).2 ->
  target_holds t c1.
Proof.
  intros Ha Hp [Ht|Ht]%elem_of_app.
  - unfold indirect_target in Ht. unfold target_holds.
    destruct (in_kind insn); try by apply elem_of_nil in Ht.
    all: destruct (known_at _ _ _) as [s|] eqn:E; [|by apply elem_of_nil in Ht].
    all: apply known_at_spec in E as [El _]; destruct (Ha _ _ El) as [Hv _].
    all: destruct (minimum_constant_steps limits <=? cs_steps s); [|by apply elem_of_nil in Ht].
    all: cbn in Ht; by apply list_elem_of_singleton in Ht as ->.
  - unfold push_step in Ht. unfold target_holds.
    destruct (in_kind insn); try by apply elem_of_nil in Ht. cbn [snd] in Ht.
    destruct pending as [[reg s]|]; [|by apply elem_of_nil in Ht].
    destruct (_ || _); [|by apply elem_of_nil in Ht]. cbn in Ht. apply list_elem_of_singleton in Ht as ->.
    by destruct Hp as [_ Hp].
Qed.

Lemma candidates_shape limits state pending insn t :
  t ∈ option_list (indirect_target limits state insn) ++
      option_list (push_step limits state pending insn).2 ->
  in_address insn = ct_instruction t /\ in_kind insn = target_insn_kind (ct_kind t) /\
  in_address insn ∈ ct_support t ++ [kBadAddress].
Proof.
  assert (forall kind reg name s, in_address insn ∈ ct_support (target_candidate insn kind reg name s) ++ [kBadAddress])
    as Hsup.
  { intros. cbn [target_candidate ct_support]. apply elem_of_app.
    destruct (Z.eq_dec (in_address insn) kBadAddress) as [->|]; [right; set_solver|left].
    apply normalize_support_spec. set_solver. }
  intros [Ht|Ht]%elem_of_app; unfold indirect_target, push_step in Ht; destruct (in_kind insn);
    repeat case_match; cbn in Ht; try (by apply elem_of_nil in Ht); apply list_elem_of_singleton in Ht as ->; done.
Qed.

Lemma scan_instruction_sound limits start before scan insn :
  insn_fits insn -> scan_sound start before scan ->
  let scan := enter (next_address start before) insn scan in
  steady insn = true -> step_safe (bs_state scan) insn = true ->
  scan_sound start (before ++ [insn]) (scan_instruction limits scan insn).
Proof.
  intros Hi Hs. cbn zeta. intros Hst Hsafe. pose proof (enter_fits (next_address start before) insn scan) as Hfit.
  pose proof (fun c0 c c1 => enter_sound start before scan insn c0 c c1 Hs) as He. cbn zeta in He.
  assert (bs_targets (enter (next_address start before) insn scan) = bs_targets scan) as Hts
    by (unfold enter; by destruct (joined _ _)).
  destruct Hs as (Hf & _ & Ht). specialize (Hfit Hf).
  generalize dependent (enter (next_address start before) insn scan). intros scan' Hsafe Hfit He Hts.
  unfold scan_instruction. destruct (push_step limits (bs_state scan') (bs_pending scan') insn) as [pending target] eqn:Ep.
  pose proof (push_step_sound limits (bs_state scan') (bs_pending scan') insn) as Hpush.
  pose proof (candidates_sound limits (bs_state scan') (bs_pending scan') insn) as Hc.
  pose proof (candidates_shape limits (bs_state scan') (bs_pending scan') insn) as Hsh.
  rewrite Ep in Hpush, Hc, Hsh. cbn [fst snd] in *.
  split_and!; cbn [bs_state bs_pending bs_targets].
  - by apply update_constants_width.
  - intros c0 c3 H0 (c & c1 & Hr & Ha & Hx)%runs_snoc.
    destruct (He c0 c c1 H0 Hr Ha) as (Hw & Hag & Hp). split_and!; [by apply Hx| |by eapply Hpush].
    by eapply update_constants_sound; [apply Hi|apply Hfit| | | |].
  - intros t. rewrite Hts, elem_of_app. intros [Hin|Hin]; [by apply target_sound_app, Ht|].
    destruct (Hsh t Hin) as (H1 & H2 & H3). exists before, insn, []. split_and!; [done..|].
    intros c0 c c1 H0 Hr Ha. destruct (He c0 c c1 H0 Hr Ha) as (Hw & Hag & Hp). by eapply Hc.
Qed.

Lemma enter_scan_sound start before scan expected insn :
  scan_sound start before scan -> scan_sound start before (enter expected insn scan).
Proof.
  intros (Hf & Hr & Ht). pose proof (enter_fits expected insn scan Hf) as Hf'. unfold enter in *.
  destruct (joined expected insn); [|done]. split_and!; [done| |done].
  intros c0 c H0 Hx. split; [by apply (Hr c0)|]. split; [apply agrees_empty|done].
Qed.

Lemma processed_prefix insns : exists rest, insns = processed insns ++ rest.
Proof.
  induction insns as [|i insns [rest IH]]; [by exists []|]. cbn [processed].
  destruct (Instruction_end i =? kBadAddress); [by exists (i :: insns)|].
  exists rest. cbn [app]. by rewrite <- IH.
Qed.

Lemma scan_block_sound limits start insns before scan :
  Forall insn_fits insns -> scan_sound start before scan ->
  safe_from (next_address start before) insns (bs_state scan) = true ->
  scan_sound start (before ++ processed insns)
    (scan_block limits (next_address start before) insns scan).
Proof.
  revert before scan. induction insns as [|i insns IH]; intros before scan Hf Hs Hsafe; cbn [processed scan_block].
  { by rewrite app_nil_r. }
  apply Forall_cons in Hf as [Hi Hf]. cbn [safe_from] in Hsafe.
  destruct (Instruction_end i =? kBadAddress).
  { rewrite app_nil_r. by apply enter_scan_sound. }
  apply andb_true_iff in Hsafe as [[Hst Hstep]%andb_true_iff Hrest].
  assert (bs_state (enter (next_address start before) i scan) =
          if joined (next_address start before) i then ∅ else bs_state scan) as He
    by (unfold enter; by destruct (joined _ _)).
  rewrite <- He in Hstep, Hrest.
  pose proof (scan_instruction_sound limits start before scan i Hi Hs Hst Hstep) as Hs'.
  specialize (IH (before ++ [i]) _ Hf Hs'). rewrite next_address_snoc, <- app_assoc in IH. cbn [app] in IH.
  apply IH. unfold scan_instruction. by destruct (push_step _ _ _ _).
Qed.

Lemma empty_scan_sound start : scan_sound start [] empty_scan.
Proof.
  split_and!; cbn [empty_scan bs_state bs_pending bs_targets].
  - split; [apply state_ok_empty|]. intros r s Hl. by rewrite lookup_empty in Hl.
  - intros c0 c H0 Hr. inversion Hr; subst. split; [done|]. split; [apply agrees_empty|done].
  - intros t Ht. by apply elem_of_nil in Ht.
Qed.
End Soundness.

(** ** Properties *)

(** A block on which the analysis meets none of the steps it mishandles, and whose writes
    and pushes are not skipped. *)
Definition block_safe {P : Processor} (block : Block) : bool :=
  safe_from (bl_start block) (bl_instructions block) ∅.

Lemma final_assignments_sorted block limits :
  StrictSorted Z.ltb (map ca_register_id (cr_final_assignments (analyze_constant_block block limits))).
Proof.
  cbn [analyze_constant_block cr_final_assignments]. apply (StronglySorted_map ca_register_id (fun x y => (x <? y) = true)).
  apply (sort_by_key_strict Z.ltb ca_register_id).
  rewrite map_map. cbn [ca_register_id assignment_of]. apply NoDup_fst_map_to_list.
Qed.

(** A step of the constant analysis is sound exactly when it is not one of those it
    mishandles.  If the state describes the registers before an instruction that is not
    skipped, then after any execution of the instruction the new state describes them
    again - unless the instruction pops or reads the stack top into a register the state
    knows, or copies more bytes than the state knows of a register whose narrow writes keep
    the rest, or writes a register that overlaps one the state knows, or is of kind
    [Other] without a destination; and in each of those cases some execution refutes the
    new state. *)
Theorem update_constants_exact {P : Processor} state insn :
  width_ok word -> insn_typed insn -> in_value_width insn <= 8 -> state_ok state ->
  conditional (in_address insn) = false ->
  step_safe state insn = true <->
  (forall c c', words (cpu_regs c) -> agrees state (cpu_regs c) ->
     exec insn c c' -> agrees (update_constants state insn) (cpu_regs c')).
Proof.
  intros Hword Ht Hw Hs Hcond. split.
  { intros. eapply update_constants_sound; [done..| |done|done]. unfold steady. by rewrite Hcond. }
  intros Hall. destruct (step_safe state insn) eqn:E; [done|exfalso].
  assert (refuted state insn -> False) as Hno by (intros (c & c' & ? & ? & ? & Hno); by apply Hno, (Hall c c')).
  assert (width_ok (op_width insn)) as How.
  { destruct Ht as (_ & _ & ? & _). unfold width_ok, op_width in *. destruct (Z.eqb_spec (in_value_width insn) 0); lia. }
  apply Hno. clear Hall Hno Ht. unfold step_safe in E.
  destruct (in_kind insn) eqn:Ek; cbn [writes_destination negb orb] in E; try done.
  { apply orb_false_iff in E as [Ed%negb_false_iff%Z.eqb_eq Ee%bool_decide_eq_false]. by apply silent_write_unsafe. }
  all: apply orb_false_iff in E as [Ed%Z.eqb_neq E].
  all: apply andb_false_iff in E as [E|E]; [|try done].
  all: try (unfold spared in E; apply bool_decide_eq_false in E; apply map_not_Forall in E as (r & s & Hl & Hn);
    [|apply _]; apply Decidable.not_or in Hn as [Hne Hap%not_true_is_false];
    apply (overlap_unsafe state insn r s); [done|by rewrite Ek|done..]).
  1, 2: destruct (state !! in_destination_register insn) as [s|] eqn:El; [|done];
    by apply (stack_read_unsafe state insn s); auto.
  destruct (state !! in_source_register insn) as [s|] eqn:El; [|done].
  apply orb_false_iff in E as [[Ev Ele]%orb_false_iff Ez]. apply negb_false_iff in Ev.
  apply (widening_copy_unsafe state insn s); [try done; lia..].
Qed.

Lemma update_constants_exact_witness :
  let state := update_constants ∅ (sample_insn 4096 Kind_LoadImmediate 1 kNoRegister 8 5) in
  let pop := sample_insn 4097 Kind_PopRegister 1 kNoRegister 8 0 in
  state_ok state /\
  ~ (forall c c', words (cpu_regs c) -> agrees (P := plain_processor) state (cpu_regs c) ->
       exec (P := plain_processor) pop c c' ->
       agrees (P := plain_processor) (update_constants state pop) (cpu_regs c')).
Proof.
  set (state := update_constants ∅ (sample_insn 4096 Kind_LoadImmediate 1 kNoRegister 8 5)).
  set (pop := sample_insn 4097 Kind_PopRegister 1 kNoRegister 8 0). cbn zeta.
  assert (state_ok state) as Hs.
  { apply update_constants_ok; [decide_ranges|apply state_ok_empty]. }
  split; [exact Hs|]. intros H.
  assert (step_safe (P := plain_processor) state pop = true) as Hsafe; [|vm_compute in Hsafe; discriminate Hsafe].
  apply (update_constants_exact (P := plain_processor) state pop); [decide_ranges..|exact Hs|reflexivity|exact H].
Defined.

(** A reported target is the value that the machine finds. *)
Lemma block_targets_sound {P : Processor} block limits t :
  width_ok word -> Forall insn_fits (bl_instructions block) -> block_safe block = true ->
  t ∈ cr_targets (analyze_constant_block block limits) ->
  target_sound (bl_start block) (bl_instructions block) t.
Proof.
  intros Hword Hf Hsafe.
  pose proof (scan_block_sound Hword limits (bl_start block) (bl_instructions block) []
                empty_scan Hf (empty_scan_sound _) Hsafe) as (_ & _ & Ht). cbn [app] in *.
  cbn [analyze_constant_block cr_targets]. intros Hin%elem_of_std_sort_any%Ht.
  destruct (processed_prefix (bl_instructions block)) as [rest Hr]. rewrite Hr.
  by apply target_sound_app.
Qed.


Definition sample_block : Block :=
  {| bl_start := 20480; bl_end := 20483; bl_successors := []; bl_predecessor_count := 0;
     bl_instructions := [sample_insn 20480 Kind_LoadImmediate 1 kNoRegister 4 4294967280;
                         sample_insn 20481 Kind_AddImmediate 1 kNoRegister 4 32;
                         sample_insn 20482 Kind_IndirectJump kNoRegister 1 4 0] |}.


(** The instruction of a final assignment is the greatest address of its support,
    which need not be an instruction: a read-only load lists the address it reads. *)
Example assignment_instruction_is_greatest_support :
  map ca_instruction (cr_final_assignments (analyze_constant_block
    {| bl_start := 20480; bl_end := 20481; bl_successors := []; bl_predecessor_count := 0;
       bl_instructions :=
         [{| in_address := 20480; in_size := 1; in_kind := Kind_LoadReadOnlyConstant;
             in_destination_register := 2; in_source_register := kNoRegister; in_destination_name := "";
             in_source_name := ""; in_value_width := 8; in_immediate := 32768; in_target := kBadAddress;
             in_memory_address := 36864; in_condition := Cond_Unknown; in_flag_effect := Flags_Preserve;
             in_register_is_left_operand := true; in_alternate_predecessor := false;
             in_writes_global_memory := false; in_plumbing := false |}] |}
    default_classifier_limits)) = [36864].
Proof. vm_compute. reflexivity. Qed.

(** A value that was overwritten from the stack is still reported as a jump target. *)
Example popped_register_keeps_its_constant :
  map ct_target (cr_targets (analyze_constant_block
    {| bl_start := 20480; bl_end := 20484; bl_successors := []; bl_predecessor_count := 0;
       bl_instructions := [sample_insn 20480 Kind_LoadImmediate 1 kNoRegister 8 4096;
                           sample_insn 20481 Kind_PopRegister 1 kNoRegister 8 0;
                           sample_insn 20482 Kind_AddImmediate 1 kNoRegister 8 32;
                           sample_insn 20483 Kind_IndirectJump kNoRegister 1 8 0] |}
    default_classifier_limits)) = [4128].
Proof. vm_compute. reflexivity. Qed.
