(* ===== verification/DeobfEntry.v ===== *)
(** The first branch of a function ([classify_entry_predicate] of
    [src/src/deobf_analysis_core.cpp]): when its direction is fixed, when it depends on
    the flags at entry, and that both claims hold for every execution. *)
From stdpp Require Import base numbers list strings option sets gmap.
From Stdlib Require Import ZArith Lia.
From S2P Require Import Prelude OrderedMap Deobf DeobfFlags DeobfMachine DeobfConstants.

Inductive PredicateKnowledge :=
| Predicate_Unknown | Predicate_EntryFlagsUnspecified | Predicate_ConstantOutcome.

Record EntryPredicateCandidate := {
  ep_branch : Z;
  ep_target : Z;
  ep_fallthrough : Z;
  ep_knowledge : PredicateKnowledge;
  ep_taken : option bool;
  ep_support : list Z
}.

(** The local variables of the loop. *)
Record EntryScan := {
  es_constants : StateMap;
  es_known_flags : option ArithmeticFlags;
  es_saw_flag_writer : bool;
  es_flag_support : list Z
}.

Definition initial_entry_scan : EntryScan :=
  {| es_constants := ∅; es_known_flags := None; es_saw_flag_writer := false; es_flag_support := [] |}.

(** The flags that a known comparison or test gives a known register. *)
Definition flags_of (insn : Instruction) (value : ConstantState) : option ArithmeticFlags :=
  let reg_value := cs_value value in
  match in_flag_effect insn with
  | Flags_KnownTest => test_flags reg_value (in_immediate insn) (in_value_width insn)
  | _ =>
      if in_register_is_left_operand insn
      then compare_flags reg_value (in_immediate insn) (in_value_width insn)
      else compare_flags (in_immediate insn) reg_value (in_value_width insn)
  end.

Definition flag_step (scan : EntryScan) (insn : Instruction) : EntryScan :=
  let forget := {| es_constants := es_constants scan; es_known_flags := None;
                   es_saw_flag_writer := true; es_flag_support := [] |} in
  match in_kind insn with
  | Kind_DirectCall | Kind_IndirectCall => forget
  | _ =>
      match in_flag_effect insn with
      | Flags_KnownCompare | Flags_KnownTest =>
          let reset := {| es_constants := es_constants scan; es_known_flags := None;
                          es_saw_flag_writer := true; es_flag_support := es_flag_support scan |} in
          match es_constants scan !! in_destination_register insn with
          | Some value =>
              if cs_width value =? in_value_width insn then
                match flags_of insn value with
                | Some f =>
                    {| es_constants := es_constants scan; es_known_flags := Some f;
                       es_saw_flag_writer := true;
                       es_flag_support := cs_support value ++ [in_address insn] |}
                | None => reset
                end
              else reset
          | None => reset
          end
      | Flags_UnknownWrite => forget
      | Flags_Preserve => scan
      end
  end.

Definition entry_step (scan : EntryScan) (insn : Instruction) : EntryScan :=
  let scan := flag_step scan insn in
  {| es_constants := update_constants (es_constants scan) insn;
     es_known_flags := es_known_flags scan;
     es_saw_flag_writer := es_saw_flag_writer scan;
     es_flag_support := es_flag_support scan |}.

Definition is_modeled_branch (insn : Instruction) : bool :=
  (in_kind insn == Kind_ConditionalBranch) && (in_condition insn != Cond_Unknown) &&
  negb (in_target insn =? kBadAddress).

Definition classify_branch (function_entry : Z) (scan : EntryScan) (insn : Instruction) :
    option EntryPredicateCandidate :=
  let candidate knowledge taken support :=
    {| ep_branch := in_address insn; ep_target := in_target insn;
       ep_fallthrough := Instruction_end insn; ep_knowledge := knowledge; ep_taken := taken;
       ep_support := normalize_support support |} in
  match es_known_flags scan with
  | Some f =>
      match evaluate_condition (in_condition insn) f with
      | None => None
      | Some taken =>
          Some (candidate Predicate_ConstantOutcome (Some taken) (es_flag_support scan ++ [in_address insn]))
      end
  | None =>
      if negb (es_saw_flag_writer scan)
      then Some (candidate Predicate_EntryFlagsUnspecified None [function_entry; in_address insn])
      else None
  end.

Fixpoint entry_loop (limits : ClassifierLimits) (function_entry : Z) (first : bool)
    (previous_end : Z) (insns : list Instruction) (scan : EntryScan) :
    option EntryPredicateCandidate :=
  match insns with
  | [] => None
  | insn :: rest =>
      if (in_address insn <? function_entry) ||
         (entry_predicate_window limits <? in_address insn - function_entry) then None
      else if negb first && (negb (in_address insn =? previous_end) || in_alternate_predecessor insn)
      then None
      else
        let previous_end := Instruction_end insn in
        if previous_end =? kBadAddress then None
        else if is_modeled_branch insn then classify_branch function_entry scan insn
        else entry_loop limits function_entry false previous_end rest (entry_step scan insn)
  end.

Definition classify_entry_predicate (function_entry : Z) (entry_block : list Instruction)
    (limits : ClassifierLimits) : option EntryPredicateCandidate :=
  if function_entry =? kBadAddress then None
  else entry_loop limits function_entry true function_entry entry_block initial_entry_scan.

(** ** Soundness *)

Section Soundness.
Context {P : Processor}.

(** Every step of a straight line is one that the constants handle soundly, and none is
    skipped. *)
Fixpoint safe_line (state : StateMap) (insns : list Instruction) : bool :=
  match insns with
  | [] => true
  | insn :: rest =>
      negb (conditional (in_address insn)) && step_safe state insn &&
      safe_line (update_constants state insn) rest
  end.

Lemma safe_line_snoc state insns insn :
  safe_line state (insns ++ [insn]) =
  safe_line state insns &&
  (negb (conditional (in_address insn)) && step_safe (foldl update_constants state insns) insn).
Proof.
  revert state. induction insns as [|i insns IH]; intros state; cbn [app safe_line foldl].
  - by rewrite andb_true_r.
  - by rewrite IH, andb_assoc.
Qed.

(** What is known of the flags. *)
Definition flags_hold (scan : EntryScan) (c : cpu) : Prop :=
  forall f, es_known_flags scan = Some f ->
    forall cond b, evaluate_condition cond f = Some b -> cpu_taken c cond = b.

Definition line_sound (insns : list Instruction) (scan : EntryScan) : Prop :=
  es_constants scan = foldl update_constants ∅ insns /\ state_ok (es_constants scan) /\
  (safe_line ∅ insns = true ->
   forall c0 c, words (cpu_regs c0) -> executes insns c0 c ->
     words (cpu_regs c) /\ agrees (es_constants scan) (cpu_regs c) /\ flags_hold scan c) /\
  (es_saw_flag_writer scan = false ->
   es_known_flags scan = None /\
   forall c0 c, executes insns c0 c -> forall cond, cpu_taken c cond = cpu_taken c0 cond).

Lemma flags_of_meaning insn value f regs :
  width_ok (in_value_width insn) -> cs_width value = in_value_width insn ->
  low (cs_width value) (regs (in_destination_register insn)) = cs_value value ->
  flags_of insn value = Some f ->
  forall cond, evaluate_condition cond f =
    match in_flag_effect insn with
    | Flags_KnownTest =>
        test_meaning cond (in_value_width insn) (regs (in_destination_register insn)) (in_immediate insn)
    | _ => compare_meaning cond (in_value_width insn) (compared insn regs).1 (compared insn regs).2
    end.
Proof.
  intros Hw Hcw Hv Hf cond. rewrite Hcw in Hv. set (v := regs (in_destination_register insn)) in *.
  assert (forall a b, low (in_value_width insn) a = low (in_value_width insn) b ->
            forall x, compare_meaning cond (in_value_width insn) a x = compare_meaning cond (in_value_width insn) b x /\
                      compare_meaning cond (in_value_width insn) x a = compare_meaning cond (in_value_width insn) x b)
    as Hcong.
  { intros a b Hab x. unfold compare_meaning, signed.
    assert (low (in_value_width insn) (a - x) = low (in_value_width insn) (b - x) /\
            low (in_value_width insn) (x - a) = low (in_value_width insn) (x - b)) as [-> ->]
      by (rewrite <- (low_sub _ a x), <- (low_sub _ b x), <- (low_sub _ x a), <- (low_sub _ x b), Hab
            by (unfold width_ok in Hw; lia); done).
    by rewrite Hab. }
  assert (low (in_value_width insn) (cs_value value) = low (in_value_width insn) v) as Heq
    by (rewrite <- Hv; apply low_idem; unfold width_ok in Hw; lia).
  unfold flags_of in Hf. unfold compared. fold v.
  assert (forall g l r, compare_flags l r (in_value_width insn) = Some g ->
            evaluate_condition cond g = compare_meaning cond (in_value_width insn) l r) as Hcmp.
  { intros g l r Hg. destruct (compare_flags_meaning l r _ Hw) as (g' & Hg' & H). by simplify_eq. }
  destruct (in_flag_effect insn);
    try (destruct (in_register_is_left_operand insn); cbn [fst snd]; rewrite (Hcmp _ _ _ Hf); by apply Hcong).
  destruct (test_flags_meaning (cs_value value) (in_immediate insn) _ Hw) as (g & Hg & H). simplify_eq.
  rewrite H. unfold test_meaning. apply Hcong.
  by apply (low_bytes_land (in_immediate insn)); [unfold width_ok in Hw; lia|].
Qed.

Lemma flag_step_sound scan insn c c' :
  state_ok (es_constants scan) -> agrees (es_constants scan) (cpu_regs c) ->
  flags_hold scan c -> flags_effect insn c (cpu_taken c') -> flags_hold (flag_step scan insn) c'.
Proof.
  intros Hok Ha Hf Hx. unfold flags_effect, is_call in Hx.
  assert (forall support, flags_hold
            {| es_constants := es_constants scan; es_known_flags := None; es_saw_flag_writer := true;
               es_flag_support := support |} c') as Hnone by done.
  unfold flag_step. destruct (in_kind insn); try apply Hnone.
  all: destruct (in_flag_effect insn) eqn:Ee; try apply Hnone;
    [intros f E cond b Hb; rewrite Hx; by eapply Hf| |].
  all: destruct (es_constants scan !! in_destination_register insn) as [value|] eqn:El; [|apply Hnone];
    destruct (Z.eqb_spec (cs_width value) (in_value_width insn)) as [Ew|]; [|apply Hnone];
    destruct (flags_of insn value) as [f|] eqn:Ef; [|apply Hnone];
    intros g [= <-] cond b Hb;
    destruct (Hok _ _ El) as (_ & Hw & _); destruct (Ha _ _ El) as [Hv _];
    rewrite Ew in Hw; rewrite (flags_of_meaning insn value f (cpu_regs c)), Ee in Hb by done.
  all: try (destruct (compared insn (cpu_regs c)) as [l r]); by eapply Hx.
Qed.

(** As long as no flag writer was seen, every instruction preserves the flags. *)
Lemma flag_step_unseen scan insn c c' :
  es_saw_flag_writer (flag_step scan insn) = false -> flags_effect insn c (cpu_taken c') ->
  flag_step scan insn = scan /\ forall cond, cpu_taken c' cond = cpu_taken c cond.
Proof.
  unfold flag_step, flags_effect, is_call. intros Hs Hx.
  destruct (in_kind insn); cbn in Hs; try done; destruct (in_flag_effect insn); repeat case_match; done.
Qed.

Lemma entry_step_sound insns scan insn :
  insn_typed insn -> line_sound insns scan -> line_sound (insns ++ [insn]) (entry_step scan insn).
Proof.
  intros Ht (Hc & Hok & Hs & Hun).
  assert (es_constants (flag_step scan insn) = es_constants scan) as Hfc
    by (unfold flag_step; repeat case_match; done).
  unfold line_sound, entry_step. cbn [es_constants es_saw_flag_writer es_known_flags].
  rewrite Hfc, foldl_app. cbn [foldl].
  split_and!; [by rewrite Hc|by apply update_constants_ok| |].
  - rewrite safe_line_snoc, !andb_true_iff, <- Hc. intros (Hsafe & Hcond%negb_true_iff & Hstep) c0 c' H0 (c & Hx & Hlast)%executes_app.
    inversion Hlast as [|? ? ? c1 ? He Hnil]; subst. inversion Hnil; subst.
    destruct (Hs Hsafe c0 c H0 Hx) as (Hw & Ha & Hf). split_and!; [by apply He| |].
    { eapply update_constants_sound; [done..| |done|done]. unfold steady. by rewrite Hcond. }
    destruct He as (_ & [(_ & _ & He)|[He _]]); [|congruence]. exact (flag_step_sound scan insn c c' Hok Ha Hf He).
  - intros Hsaw. assert (flag_step scan insn = scan) as Hid
      by (revert Hsaw; unfold flag_step; repeat case_match; done).
    assert (es_saw_flag_writer scan = false) as Hsaw' by by rewrite <- Hid.
    destruct (Hun Hsaw') as [Hn Hsame]. rewrite Hid. split; [done|].
    intros c0 c' (c & Hx & Hlast)%executes_app cond.
    inversion Hlast as [|? ? ? c1 ? He Hnil]; subst. inversion Hnil; subst.
    rewrite <- (Hsame c0 c Hx). destruct He as (_ & [(_ & _ & He)|[_ ->]]); [|done]. by eapply flag_step_unseen.
Qed.

Lemma initial_line_sound : line_sound [] initial_entry_scan.
Proof.
  split_and!; [done|apply state_ok_empty| |].
  - intros _ c0 c H0 Hx. inversion Hx; subst. split_and!; [done|apply agrees_empty|done].
  - intros _. split; [done|]. intros c0 c Hx cond. by inversion Hx; subst.
Qed.
End Soundness.

(** What a candidate claims of the executions that get to its branch. *)
Definition direction_claim {P : Processor} (before : list Instruction)
    (cond : X86Condition) (r : EntryPredicateCandidate) : Prop :=
  match ep_knowledge r, ep_taken r with
  | Predicate_ConstantOutcome, Some b =>
      safe_line ∅ before = true ->
      forall c0 c, words (cpu_regs c0) -> executes before c0 c -> cpu_taken c cond = b
  | Predicate_EntryFlagsUnspecified, None =>
      forall c0 c, executes before c0 c -> cpu_taken c cond = cpu_taken c0 cond
  | _, _ => False
  end.

Lemma classify_branch_sound {P : Processor} entry before scan insn r :
  line_sound before scan -> classify_branch entry scan insn = Some r ->
  ep_branch r = in_address insn /\ ep_target r = in_target insn /\
  ep_fallthrough r = Instruction_end insn /\
  direction_claim before (in_condition insn) r.
Proof.
  intros (_ & _ & Hs & Hun). unfold classify_branch.
  destruct (es_known_flags scan) as [f|] eqn:Ef.
  - destruct (evaluate_condition _ _) as [taken|] eqn:Et; [|done]. intros [= <-]. split_and!; try done.
    intros Hsafe c0 c H0 Hx. destruct (Hs Hsafe c0 c H0 Hx) as (_ & _ & Hf). by eapply Hf.
  - destruct (es_saw_flag_writer scan) eqn:Esaw; cbn [negb]; [done|]. intros [= <-]. split_and!; try done.
    intros c0 c Hx. by apply Hun.
Qed.

(** The part of the block before the instruction the loop is at. *)
Definition line_before (first : bool) (previous_end : Z) (before : list Instruction) : Prop :=
  match before with
  | [] => first = true
  | i :: line => first = false /\ linear (Instruction_end i) line /\
                 next_address (Instruction_end i) line = previous_end
  end.

Lemma entry_loop_sound {P : Processor} limits entry first previous_end insns scan before r :
  Forall insn_typed insns -> line_sound before scan ->
  line_before first previous_end before -> Forall (fun i => is_modeled_branch i = false) before ->
  entry_loop limits entry first previous_end insns scan = Some r ->
  exists line insn after,
    insns = line ++ insn :: after /\ is_modeled_branch insn = true /\
    Forall (fun i => is_modeled_branch i = false) (before ++ line) /\
    match before ++ line with [] => True | i :: l => linear (Instruction_end i) (l ++ [insn]) end /\
    entry <= in_address insn <= entry + entry_predicate_window limits /\
    ep_branch r = in_address insn /\ ep_target r = in_target insn /\
    ep_fallthrough r = Instruction_end insn /\
    direction_claim (before ++ line) (in_condition insn) r.
Proof.
  intros Ht. revert first previous_end scan before.
  induction Ht as [|insn insns Hti Ht IH]; intros first previous_end scan before Hs Hb Hn H; [done|].
  cbn [entry_loop] in H.
  destruct (_ || _) eqn:Ewin; [done|]. apply orb_false_iff in Ewin as [E1%Z.ltb_ge E2%Z.ltb_ge].
  destruct (negb first && _) eqn:Ejoin; [done|]. destruct (Instruction_end insn =? kBadAddress); [done|].
  assert (match before with [] => True | i :: l => linear (Instruction_end i) (l ++ [insn]) end) as Hlin.
  { destruct before as [|i l]; [done|]. destruct Hb as (-> & Hl & Hne). cbn [negb andb] in Ejoin.
    apply orb_false_iff in Ejoin as [Ea%negb_false_iff%Z.eqb_eq Ealt].
    apply linear_snoc. split_and!; [done|congruence|done]. }
  destruct (is_modeled_branch insn) eqn:Em.
  - exists [], insn, insns. rewrite !app_nil_r. split_and!; try done; try lia; by eapply classify_branch_sound.
  - destruct (IH false (Instruction_end insn) (entry_step scan insn) (before ++ [insn])) as (line & x & after & -> & Hrest).
    + by apply entry_step_sound.
    + destruct before as [|i l]; cbn [app line_before]; [by split_and!|].
      split_and!; [done|done|apply next_address_snoc].
    + apply Forall_app. by split; [|apply Forall_singleton].
    + done.
    + rewrite <- app_assoc in Hrest. by exists (insn :: line), x, after.
Qed.


Definition sample_entry : list Instruction :=
  [sample_insn 12288 Kind_LoadImmediate 1 kNoRegister 4 7;
   {| in_address := 12289; in_size := 1; in_kind := Kind_CompareImmediate; in_destination_register := 1;
      in_source_register := kNoRegister; in_destination_name := ""; in_source_name := "";
      in_value_width := 4; in_immediate := 8; in_target := kBadAddress; in_memory_address := kBadAddress;
      in_condition := Cond_Unknown; in_flag_effect := Flags_KnownCompare;
      in_register_is_left_operand := true; in_alternate_predecessor := false;
      in_writes_global_memory := false; in_plumbing := false |};
   {| in_address := 12290; in_size := 2; in_kind := Kind_ConditionalBranch;
      in_destination_register := kNoRegister; in_source_register := kNoRegister;
      in_destination_name := ""; in_source_name := ""; in_value_width := 0; in_immediate := 0;
      in_target := 12304; in_memory_address := kBadAddress; in_condition := Cond_Less;
      in_flag_effect := Flags_Preserve; in_register_is_left_operand := true;
      in_alternate_predecessor := false; in_writes_global_memory := false; in_plumbing := false |}].


(** A register that is popped after its load still fixes the direction of a branch. *)
Example popped_register_fixes_direction :
  ep_taken <$> classify_entry_predicate 12287
    (sample_insn 12287 Kind_LoadImmediate 1 kNoRegister 4 7 ::
     map (fun i => if in_address i =? 12288 then sample_insn 12288 Kind_PopRegister 1 kNoRegister 4 0 else i)
       sample_entry) default_classifier_limits = Some (Some true).
Proof. vm_compute. reflexivity. Qed.
