(* ===== verification/DeobfGadget.v ===== *)
(** Call-based gadgets, jumped-over gaps and wrappers ([classify_get_pc_gadget],
    [classify_jump_gap] and [classify_wrapper] of
    [src/src/deobf_analysis_core.cpp]). *)
From stdpp Require Import base numbers list strings option sets.
From Stdlib Require Import ZArith Lia.
From S2P Require Import Prelude OrderedMap Deobf DeobfFlags DeobfMachine.

(** ** Get-PC gadgets *)

Inductive GetPcMode :=
| PopReturnAddress | ReadReturnAddress | AdjustReturnAddress | DiscardReturnAddress.

#[export] Instance GetPcMode_eq_dec : EqDecision GetPcMode.
Proof. solve_decision. Defined.

Record GetPcCandidate := {
  gp_call : Z;
  gp_gadget : Z;
  gp_pushed_return : Z;
  gp_return_instruction : Z;
  gp_resumed_at : option Z;
  gp_pc_register : Z;
  gp_pc_register_name : string;
  gp_register_value_at_return : option Z;
  gp_delta : Z;
  gp_mode : GetPcMode;
  gp_support : list Z
}.

(** What the first instruction of the gadget fixes: [mode], [pc_register] with its name
    and width, [stack_target_adjusted] and the first [register_known] and [delta]. *)
Record GadgetEntry := {
  ge_mode : GetPcMode;
  ge_register : Z;
  ge_name : string;
  ge_width : Z;
  ge_adjusted : bool;
  ge_known : bool;
  ge_delta : Z
}.

Definition gadget_entry (entry : Instruction) : option GadgetEntry :=
  let takes mode :=
    if in_destination_register entry =? kNoRegister then None
    else Some {| ge_mode := mode; ge_register := in_destination_register entry;
                 ge_name := in_destination_name entry; ge_width := in_value_width entry;
                 ge_adjusted := false; ge_known := true; ge_delta := 0 |} in
  match in_kind entry with
  | Kind_PopRegister => takes PopReturnAddress
  | Kind_ReadStackTop => takes ReadReturnAddress
  | Kind_AddStackTopImmediate =>
      Some {| ge_mode := AdjustReturnAddress; ge_register := kNoRegister; ge_name := "";
              ge_width := 0; ge_adjusted := true; ge_known := false;
              ge_delta := to_i64 (in_immediate entry) |}
  | Kind_AdjustStackPointerImmediate =>
      if to_i64 (in_immediate entry) <=? 0 then None
      else Some {| ge_mode := DiscardReturnAddress; ge_register := kNoRegister; ge_name := "";
                   ge_width := 0; ge_adjusted := false; ge_known := false; ge_delta := 0 |}
  | _ => None
  end.

(** The variables of the loop. *)
Record GadgetScan := {
  ga_pushed : bool;
  ga_pushed_delta : Z;
  ga_known : bool;
  ga_delta : Z;
  ga_support : list Z
}.

(** [register_known] and [delta] after an instruction that names the register as its
    destination; [None] where the code returns. *)
Definition track_register (entry : GadgetEntry) (scan : GadgetScan) (insn : Instruction) :
    option (bool * Z) :=
  if ga_known scan && (in_destination_register insn =? ge_register entry) then
    let known := negb (negb (ge_width entry =? 0) && negb (in_value_width insn =? 0) &&
                       negb (in_value_width insn =? ge_width entry)) in
    let adjust adjustment := (fun delta => (true, delta)) <$> add_delta (ga_delta scan) adjustment in
    match in_kind insn with
    | Kind_AddImmediate =>
        if known then adjust (to_i64 (in_immediate insn)) else Some (false, ga_delta scan)
    | Kind_SubImmediate =>
        if known then
          let value := to_i64 (in_immediate insn) in
          if value =? - 2 ^ 63 then None else adjust (- value)
        else Some (false, ga_delta scan)
    | _ => Some (false, ga_delta scan)
    end
  else Some (ga_known scan, ga_delta scan).

Definition push_tracked (entry : GadgetEntry) (known : bool) (insn : Instruction) : bool :=
  known && (in_source_register insn =? ge_register entry) &&
  ((ge_width entry =? 0) || (in_value_width insn =? 0) || (in_value_width insn =? ge_width entry)).

(** One instruction that is no return; [None] where the code gives up. *)
Definition gadget_step (entry : GadgetEntry) (scan : GadgetScan) (insn : Instruction) :
    option GadgetScan :=
  match in_kind insn with
  | Kind_DirectCall | Kind_IndirectCall | Kind_DirectJump | Kind_IndirectJump
  | Kind_ConditionalBranch | Kind_PushImmediate | Kind_PopRegister | Kind_AddStackTopImmediate
  | Kind_AdjustStackPointerImmediate => None
  | kind =>
      match track_register entry scan insn with
      | None => None
      | Some (known, delta) =>
          match kind with
          | Kind_PushRegister =>
              if push_tracked entry known insn then
                Some {| ga_pushed := true; ga_pushed_delta := delta; ga_known := known;
                        ga_delta := delta; ga_support := ga_support scan |}
              else None
          | _ =>
              Some {| ga_pushed := ga_pushed scan; ga_pushed_delta := ga_pushed_delta scan;
                      ga_known := known; ga_delta := delta; ga_support := ga_support scan |}
          end
      end
  end.

Section Candidate.
Context (call : Instruction) (entry : GadgetEntry).

Definition get_pc_candidate (scan : GadgetScan) (return_instruction : Z)
    (resumed value : option Z) : GetPcCandidate :=
  {| gp_call := in_address call;
     gp_gadget := in_target call;
     gp_pushed_return := Instruction_end call;
     gp_return_instruction := return_instruction;
     gp_resumed_at := resumed;
     gp_pc_register := ge_register entry;
     gp_pc_register_name := ge_name entry;
     gp_register_value_at_return := value;
     gp_delta := ga_delta scan;
     gp_mode := ge_mode entry;
     gp_support := normalize_support (ga_support scan) |}.

(** An address the code computes when it has to: [None] where it returns instead. *)
Definition address_if (needed : bool) (delta : Z) : option (option Z) :=
  if needed then Some <$> add_signed_address (Instruction_end call) delta else Some None.

Definition finish_gadget (scan : GadgetScan) (insn : Instruction) : option GetPcCandidate :=
  match address_if (ge_adjusted entry || ga_pushed scan)
          (if ga_pushed scan then ga_pushed_delta scan else ga_delta scan) with
  | None => None
  | Some resumed =>
      match address_if (ga_known scan) (ga_delta scan) with
      | None => None
      | Some value =>
          if (ge_mode entry == ReadReturnAddress) && negb (ga_pushed scan) then None
          else Some (get_pc_candidate scan (in_address insn) resumed value)
      end
  end.

Definition support_insn (scan : GadgetScan) (insn : Instruction) : GadgetScan :=
  {| ga_pushed := ga_pushed scan; ga_pushed_delta := ga_pushed_delta scan; ga_known := ga_known scan;
     ga_delta := ga_delta scan; ga_support := ga_support scan ++ [in_address insn] |}.

Fixpoint gadget_loop (expected : Z) (insns : list Instruction) (scan : GadgetScan) :
    option GetPcCandidate :=
  match insns with
  | [] =>
      if ge_mode entry == DiscardReturnAddress
      then Some (get_pc_candidate scan kBadAddress None None) else None
  | insn :: rest =>
      if negb (in_address insn =? expected) || in_alternate_predecessor insn then None
      else
        let expected := Instruction_end insn in
        if expected =? kBadAddress then None
        else
          let scan := support_insn scan insn in
          if in_kind insn == Kind_Return then finish_gadget scan insn
          else
            match gadget_step entry scan insn with
            | None => None
            | Some scan => gadget_loop expected rest scan
            end
  end.
End Candidate.

Definition classify_get_pc_gadget (call : Instruction) (gadget : list Instruction)
    (other_callers : bool) (limits : ClassifierLimits) : option GetPcCandidate :=
  match gadget with
  | [] => None
  | first :: _ =>
      if (in_kind call != Kind_DirectCall) || (in_size call =? 0) ||
         (in_target call =? kBadAddress) || other_callers ||
         negb (in_address first =? in_target call) || (gadget_depth limits =? 0) then None
      else
        let pushed_return := Instruction_end call in
        if (pushed_return =? kBadAddress) || (in_target call =? pushed_return) then None
        else if (pushed_return <? in_target call) &&
                (maximum_gap limits <? in_target call - pushed_return) then None
        else
          match gadget_entry first with
          | None => None
          | Some entry =>
              let expected := Instruction_end first in
              if expected =? kBadAddress then None
              else
                let count := Z.min (zlen gadget) ((gadget_depth limits + 1) mod 2 ^ 64) in
                gadget_loop call entry expected (tail (take (Z.to_nat count) gadget))
                  {| ga_pushed := false; ga_pushed_delta := 0; ga_known := ge_known entry;
                     ga_delta := ge_delta entry; ga_support := [in_address call; in_target call] |}
          end
  end.

(** ** Gaps behind jumps *)

Record GapCandidate := { gc_branch : Z; gc_start : Z; gc_end : Z }.

Definition classify_jump_gap (branch : Instruction) (gap_is_loaded gap_is_unreferenced : bool)
    (limits : ClassifierLimits) : option GapCandidate :=
  if (in_kind branch != Kind_DirectJump) || (in_size branch =? 0) ||
     (in_target branch =? kBadAddress) || negb gap_is_loaded || negb gap_is_unreferenced then None
  else
    let start := Instruction_end branch in
    if (start =? kBadAddress) || (in_target branch <=? start) then None
    else if maximum_gap limits <? in_target branch - start then None
    else Some {| gc_branch := in_address branch; gc_start := start; gc_end := in_target branch |}.

(** ** Wrappers *)

Record FunctionShape := {
  fs_entry : Z;
  fs_end : Z;
  fs_instructions : list Instruction;
  fs_caller_count : Z;
  fs_has_tail_chunks : bool;
  fs_already_special : bool;
  fs_direct_callee_returns : bool;
  fs_scan_complete : bool
}.

Record WrapperCandidate := {
  wc_function : Z;
  wc_target : Z;
  wc_thunk : bool;
  wc_tail_call : bool;
  wc_instruction_count : Z
}.

Record WrapperScan := {
  ws_calls : Z;
  ws_returns : Z;
  ws_jumps : Z;
  ws_conditional : Z;
  ws_all_plumbing : bool;
  ws_target : Z
}.

Definition initial_wrapper_scan : WrapperScan :=
  {| ws_calls := 0; ws_returns := 0; ws_jumps := 0; ws_conditional := 0; ws_all_plumbing := true;
     ws_target := kBadAddress |}.

Definition wrapper_step (scan : WrapperScan) (insn : Instruction) : option WrapperScan :=
  if in_writes_global_memory insn then None
  else
    match in_kind insn with
    | Kind_DirectCall =>
        Some {| ws_calls := ws_calls scan + 1; ws_returns := ws_returns scan; ws_jumps := ws_jumps scan;
                ws_conditional := ws_conditional scan; ws_all_plumbing := ws_all_plumbing scan;
                ws_target := in_target insn |}
    | Kind_IndirectCall | Kind_IndirectJump => None
    | Kind_DirectJump =>
        Some {| ws_calls := ws_calls scan; ws_returns := ws_returns scan; ws_jumps := ws_jumps scan + 1;
                ws_conditional := ws_conditional scan; ws_all_plumbing := ws_all_plumbing scan;
                ws_target := in_target insn |}
    | Kind_ConditionalBranch =>
        Some {| ws_calls := ws_calls scan; ws_returns := ws_returns scan; ws_jumps := ws_jumps scan;
                ws_conditional := ws_conditional scan + 1; ws_all_plumbing := ws_all_plumbing scan;
                ws_target := ws_target scan |}
    | Kind_Return =>
        Some {| ws_calls := ws_calls scan; ws_returns := ws_returns scan + 1; ws_jumps := ws_jumps scan;
                ws_conditional := ws_conditional scan; ws_all_plumbing := ws_all_plumbing scan;
                ws_target := ws_target scan |}
    | _ =>
        Some {| ws_calls := ws_calls scan; ws_returns := ws_returns scan; ws_jumps := ws_jumps scan;
                ws_conditional := ws_conditional scan;
                ws_all_plumbing := ws_all_plumbing scan && in_plumbing insn;
                ws_target := ws_target scan |}
    end.

Fixpoint wrapper_loop (scan : WrapperScan) (insns : list Instruction) : option WrapperScan :=
  match insns with
  | [] => Some scan
  | insn :: rest =>
      match wrapper_step scan insn with
      | Some scan => wrapper_loop scan rest
      | None => None
      end
  end.

Definition classify_wrapper (function : FunctionShape) (limits : ClassifierLimits) :
    option WrapperCandidate :=
  if (fs_entry function =? kBadAddress) || fs_already_special function ||
     fs_has_tail_chunks function || negb (fs_scan_complete function) ||
     (zlen (fs_instructions function) =? 0) ||
     (wrapper_maximum_instructions limits <? zlen (fs_instructions function)) ||
     (negb (wrapper_maximum_callers limits =? 0) &&
      (wrapper_maximum_callers limits <? fs_caller_count function)) then None
  else
    match wrapper_loop initial_wrapper_scan (fs_instructions function) with
    | None => None
    | Some scan =>
        if (ws_target scan =? kBadAddress) || negb (ws_conditional scan =? 0) then None
        else
          let result tail_call :=
            {| wc_function := fs_entry function; wc_target := ws_target scan;
               wc_thunk := ws_all_plumbing scan; wc_tail_call := tail_call;
               wc_instruction_count := zlen (fs_instructions function) |} in
          if (ws_calls scan =? 0) && (ws_jumps scan =? 1) && (ws_returns scan =? 0)
          then Some (result true)
          else if negb (ws_calls scan =? 1) || negb (ws_jumps scan =? 0) then None
          else if ws_returns scan =? 0
               then if fs_direct_callee_returns function then None else Some (result false)
               else if negb (ws_returns scan =? 1) then None else Some (result false)
    end.

(** ** Soundness of the get-PC classifier *)

(** The effects the classifier follows: the instruction is not skipped, is not of kind
    [Other], does not write the stack pointer as a register nor a register that overlaps the
    tracked one, and an addition to the tracked register works in place. *)
Definition followed {P : Processor} (register : Z) (insn : Instruction) : bool :=
  negb (conditional (in_address insn)) && negb (bool_decide (in_kind insn = Kind_Other)) &&
  negb (moves_stack insn) &&
  (negb (writes_destination (in_kind insn)) || (in_destination_register insn =? register) ||
   apart (in_destination_register insn) register) &&
  match in_kind insn with
  | Kind_AddImmediate | Kind_SubImmediate =>
      negb (in_destination_register insn =? register) || (base_register insn =? register)
  | _ => true
  end.

Section Soundness.
Context {P : Processor} (Hword : width_ok word).
Context (call : Instruction) (entry : GadgetEntry).

(** A word that holds the return address plus [delta]. *)
Definition return_plus (delta v : Z) : Prop := low word v = low word (Instruction_end call + delta).

Definition top_is (delta : Z) (stack : list Z) : Prop :=
  exists t s, stack = t :: s /\ return_plus delta t.

Definition entry_ok : Prop :=
  (ge_known entry = true -> ge_width entry = word /\ ge_register entry <> kNoRegister) /\
  (ge_adjusted entry = true -> ge_known entry = false).

Definition gadget_inv (scan : GadgetScan) (c : cpu) : Prop :=
  is_i64 (ga_delta scan) /\ is_i64 (ga_pushed_delta scan) /\
  (ga_known scan = true -> ge_known entry = true /\ return_plus (ga_delta scan) (cpu_regs c (ge_register entry))) /\
  (ga_pushed scan = true -> ge_adjusted entry = false /\ top_is (ga_pushed_delta scan) (cpu_stack c)) /\
  (ge_adjusted entry = true -> top_is (ga_delta scan) (cpu_stack c)).

Lemma return_plus_add delta v imm :
  return_plus delta v -> forall v', low word v' = low word (v + imm) ->
  return_plus (delta + to_i64 imm) v'.
Proof.
  unfold return_plus. intros H v' ->. rewrite Z.add_assoc.
  rewrite <- (low_bytes_low word _ v (low_bytes_add imm)) by (unfold width_ok in Hword; lia). rewrite H.
  rewrite (low_bytes_low word _ _ (low_bytes_add imm)) by (unfold width_ok in Hword; lia).
  rewrite !(Z.add_comm _ imm), !(Z.add_comm _ (to_i64 imm)).
  apply (low_bytes_add (Instruction_end call + delta)); [unfold width_ok in Hword; lia|].
  symmetry. by apply low_to_i64.
Qed.

Lemma return_plus_sub delta v imm :
  return_plus delta v -> forall v', low word v' = low word (v - imm) ->
  return_plus (delta - to_i64 imm) v'.
Proof.
  unfold return_plus. intros H v' ->. assert (0 <= word) as H0 by (unfold width_ok in Hword; lia).
  rewrite Z.add_sub_assoc, <- (low_sub word v imm), H by done.
  rewrite <- (low_to_i64 word imm) by done. by rewrite low_sub.
Qed.

Lemma add_delta_some d a r :
  is_i64 d -> is_i64 a -> add_delta d a = Some r -> r = d + a /\ is_i64 r.
Proof.
  intros Hd Ha. rewrite add_delta_exact by done. destruct (_ && _) eqn:E; [|done]. intros [= <-].
  apply andb_true_iff in E as [?%Z.leb_le ?%Z.leb_le]. unfold is_i64, i64_max in *. lia.
Qed.

(** The width the classifier checks is that of the machine word. *)
Lemma checked_width insn :
  ge_width entry = word -> in_value_width insn = 0 \/ in_value_width insn = ge_width entry ->
  op_width insn = word.
Proof. intros He H. unfold op_width. destruct (Z.eqb_spec (in_value_width insn) 0); [done|]. lia. Qed.

Lemma receives_word insn regs v regs' :
  op_width insn = word -> in_destination_register insn <> kNoRegister ->
  receives insn regs (Some v) regs' ->
  low word (regs' (in_destination_register insn)) = low word v.
Proof.
  intros Hw Hd. unfold receives. rewrite Hw. destruct (Z.eqb_spec (in_destination_register insn) kNoRegister); [done|].
  destruct (Z.leb_spec 1 word), (Z.leb_spec word 8); unfold width_ok in Hword; try lia. by intros (_ & ? & _).
Qed.

Lemma track_register_sound scan insn c c' known delta :
  insn_typed insn -> entry_ok -> followed (ge_register entry) insn = true -> is_call insn = false ->
  gadget_inv scan c -> regs_effect insn c (cpu_regs c') ->
  track_register entry scan insn = Some (known, delta) ->
  is_i64 delta /\ (known = true -> ga_known scan = true /\ return_plus delta (cpu_regs c' (ge_register entry))) /\
  (ga_known scan = false -> delta = ga_delta scan).
Proof.
  intros (_ & _ & _ & Himm & _) [He _] Hf Hc (Hd & _ & Hk & _) Hr. unfold track_register.
  destruct (ga_known scan) eqn:Ek; cbn [andb]; [|by intros [= <- <-]].
  destruct (Hk eq_refl) as [Hek Hreg]. destruct (He Hek) as [Hew Hen].
  destruct (Z.eqb_spec (in_destination_register insn) (ge_register entry)) as [Edst|Edst].
  2: { intros [= <- <-]. split_and!; [done| |done]. intros _. split; [done|].
       rewrite (regs_effect_keeps insn c _ (ge_register entry) Hr); [done| |].
       - unfold opaque. rewrite Hc, bool_decide_false by (unfold followed in Hf; rewrite !andb_true_iff in Hf;
           by destruct Hf as [[[[_ Ho%negb_true_iff%bool_decide_eq_false] _] _] _]). done.
       - intros Hw. unfold followed in Hf. rewrite Hw, !andb_true_iff in Hf. destruct Hf as [[_ Hap] _].
         cbn [negb orb] in Hap. rewrite (proj2 (Z.eqb_neq _ _) Edst) in Hap. exact Hap. }
  pose proof (to_i64_range _ Himm) as Hti.
  assert (negb (negb (ge_width entry =? 0) && negb (in_value_width insn =? 0) &&
                negb (in_value_width insn =? ge_width entry)) = true -> op_width insn = word) as Hwidth.
  { intros H. apply checked_width; [done|]. unfold width_ok in Hword.
    destruct (Z.eqb_spec (ge_width entry) 0), (Z.eqb_spec (in_value_width insn) 0),
      (Z.eqb_spec (in_value_width insn) (ge_width entry)); cbn in H; try done; lia. }
  assert (in_destination_register insn <> kNoRegister) as Hdn by congruence.
  unfold followed in Hf. apply andb_true_iff in Hf as [_ Hf].
  unfold regs_effect, written_value in Hr.
  destruct (in_kind insn) eqn:Eki; cbn [writes_destination] in Hr; try (intros [= <- <-]; done);
    destruct (negb (_ && _ && _)); try (intros [= <- <-]; done); specialize (Hwidth eq_refl);
    cbn [word_operation] in Hr; apply (receives_word _ _ _ _ Hwidth Hdn) in Hr;
    rewrite Edst, Z.eqb_refl in Hf; cbn [negb orb] in Hf; apply Z.eqb_eq in Hf; rewrite Edst, Hf in Hr.
  - destruct (add_delta _ _) as [d|] eqn:Ea; [|done]. intros [= <- <-].
    destruct (add_delta_some _ _ _ Hd Hti Ea) as [-> ?]. split_and!; [done| |done].
    intros _. split; [done|]. by eapply return_plus_add.
  - destruct (Z.eqb_spec (to_i64 (in_immediate insn)) (- 2 ^ 63)); [done|].
    destruct (add_delta _ _) as [d|] eqn:Ea; [|done]. intros [= <- <-].
    apply add_delta_some in Ea as [-> ?]; [|done|unfold is_i64 in *; lia]. split_and!; [done| |done].
    intros _. split; [done|]. rewrite Z.add_opp_r. by eapply return_plus_sub.
Qed.

Lemma track_push scan insn known delta :
  in_kind insn = Kind_PushRegister -> track_register entry scan insn = Some (known, delta) ->
  known = true -> ga_known scan = true /\ delta = ga_delta scan.
Proof.
  unfold track_register. intros -> H ->. destruct (ga_known scan) eqn:Ek, (_ =? _); cbn [andb] in H; naive_solver.
Qed.

Lemma gadget_step_sound scan scan' insn c c' :
  insn_typed insn -> entry_ok -> followed (ge_register entry) insn = true -> in_kind insn <> Kind_Return ->
  gadget_inv scan c -> exec insn c c' -> gadget_step entry scan insn = Some scan' ->
  gadget_inv scan' c'.
Proof.
  intros Ht Hen Hf Hret Hinv [_ [(Hr & Hs & _)|[Hcd _]]] Hstep.
  2: { unfold followed in Hf. by rewrite Hcd in Hf. }
  assert (is_call insn = false) as Hc by (unfold gadget_step in Hstep; unfold is_call; by destruct (in_kind insn)).
  destruct (track_register entry scan insn) as [[known delta]|] eqn:Etr.
  2: { unfold gadget_step in Hstep. rewrite Etr in Hstep. by destruct (in_kind insn). }
  pose proof (track_register_sound scan insn c c' known delta Ht Hen Hf Hc Hinv Hr Etr) as (Hd & Hk & Hsame).
  pose proof (track_push scan insn known delta) as Hpush.
  destruct Hinv as (Hgd & Hgp & Hgk & Hgpu & Hga). destruct Hen as [He1 He2].
  assert (ge_adjusted entry = true -> ga_known scan = false) as Hadj.
  { intros Ha. specialize (He2 Ha). destruct (ga_known scan) eqn:E; [|done]. destruct (Hgk eq_refl). congruence. }
  assert (known = true -> ge_known entry = true /\ return_plus delta (cpu_regs c' (ge_register entry))) as Hk'.
  { intros Hkn. destruct (Hk Hkn) as [Hks Hp]. by destruct (Hgk Hks). }
  unfold gadget_step in Hstep. rewrite Etr in Hstep. unfold stack_effect in Hs.
  assert (moves_stack insn = false) as Hmv
    by (unfold followed in Hf; rewrite !andb_true_iff in Hf; by destruct Hf as [[[_ Hm%negb_true_iff] _] _]).
  assert (in_kind insn <> Kind_Other) as Hno
    by (unfold followed in Hf; rewrite !andb_true_iff in Hf;
        by destruct Hf as [[[[_ Ho%negb_true_iff%bool_decide_eq_false] _] _] _]).
  rewrite Hmv in Hs.
  destruct (in_kind insn) eqn:Eki; try done.
  2: { destruct (push_tracked entry known insn) eqn:Ep; [|done]. injection Hstep as <-.
       unfold push_tracked in Ep. apply andb_true_iff in Ep as [[Ekn Esrc%Z.eqb_eq]%andb_true_iff Ew].
       destruct (Hpush eq_refl Etr Ekn) as [Eks ->]. destruct (Hgk Eks) as [Hek Hp]. destruct (He1 Hek) as [Hew Hrn].
       assert (op_width insn = word) as How.
       { apply checked_width; [done|]. unfold width_ok in Hword.
         destruct (Z.eqb_spec (ge_width entry) 0), (Z.eqb_spec (in_value_width insn) 0),
           (Z.eqb_spec (in_value_width insn) (ge_width entry)); cbn in Ew; try done; lia. }
       destruct Hs as (v & Hs & Hv). rewrite How, Esrc in Hv.
       split_and!; cbn [ga_delta ga_pushed_delta ga_known ga_pushed]; try done.
       - intros _. split; [destruct (ge_adjusted entry) eqn:E; [|done]; specialize (Hadj eq_refl); congruence|].
         exists v, (cpu_stack c). split; [done|]. unfold return_plus in *. congruence.
       - intros E. specialize (Hadj E). congruence. }
  all: injection Hstep as <-; split_and!; cbn [ga_delta ga_pushed_delta ga_known ga_pushed];
    first [done | rewrite Hs; exact Hgpu
          | intros E; rewrite Hs, (Hsame (Hadj E)); exact (Hga E)].
Qed.

(** What a candidate says of the machine that is about to return. *)
Definition candidate_holds (r : GetPcCandidate) (c : cpu) : Prop :=
  (forall a, gp_resumed_at r = Some a ->
     is_u64 a /\ exists t s, cpu_stack c = t :: s /\ low word t = low word a) /\
  (forall a, gp_register_value_at_return r = Some a ->
     is_u64 a /\ low word (cpu_regs c (gp_pc_register r)) = low word a).

Lemma address_if_some needed delta a :
  is_u64 (Instruction_end call) -> is_i64 delta -> address_if call needed delta = Some (Some a) ->
  needed = true /\ is_u64 a /\ a = Instruction_end call + delta.
Proof.
  intros Hc Hd. unfold address_if. destruct needed; [|done].
  rewrite add_signed_address_exact by done. destruct (_ && _) eqn:E; cbn; [|done]. intros [= <-].
  apply andb_true_iff in E as [?%Z.leb_le ?%Z.leb_le]. unfold is_u64, u64_max in *. split_and!; [done|lia|lia|done].
Qed.

Lemma finish_gadget_sound scan insn r c :
  is_u64 (Instruction_end call) -> gadget_inv scan c -> finish_gadget call entry scan insn = Some r ->
  gp_return_instruction r = in_address insn /\ candidate_holds r c.
Proof.
  intros Hc (Hd & Hp & Hk & Hpu & Ha). unfold finish_gadget.
  destruct (address_if call (_ || _) _) as [resumed|] eqn:Er; [|done].
  destruct (address_if call (ga_known scan) _) as [value|] eqn:Ev; [|done].
  destruct (_ && _); [done|]. intros [= <-]. split; [done|].
  split; cbn [get_pc_candidate gp_resumed_at gp_register_value_at_return gp_pc_register]; intros a ->.
  - apply address_if_some in Er as (Hn & Hu & ->); [|done|by destruct (ga_pushed scan)]. split; [done|].
    destruct (ga_pushed scan) eqn:Epu.
    + by destruct (Hpu eq_refl) as [_ Ht].
    + rewrite orb_false_r in Hn. by apply Ha.
  - apply address_if_some in Ev as (Hn & Hu & ->); [|done|done]. split; [done|]. by apply Hk.
Qed.

Lemma gadget_loop_sound expected insns scan r :
  gadget_loop call entry expected insns scan = Some r ->
  exists before after,
    insns = before ++ after /\
    Forall (fun i => in_kind i <> Kind_Return) before /\
    (gp_call r = in_address call /\ gp_gadget r = in_target call /\
     gp_pushed_return r = Instruction_end call /\ gp_pc_register r = ge_register entry) /\
    match after with
    | ret :: _ => in_kind ret = Kind_Return /\ gp_return_instruction r = in_address ret /\
                  linear expected (before ++ [ret])
    | [] => gp_mode r = DiscardReturnAddress /\ gp_resumed_at r = None /\
            gp_register_value_at_return r = None /\ linear expected before
    end /\
    (is_u64 (Instruction_end call) -> entry_ok -> Forall insn_typed insns ->
     Forall (fun i => followed (ge_register entry) i = true) insns ->
     forall c c', gadget_inv scan c -> executes before c c' -> candidate_holds r c').
Proof.
  revert expected scan. induction insns as [|insn insns IH]; intros expected scan H; cbn [gadget_loop] in H.
  - exists [], []. destruct (bool_decide_reflect (ge_mode entry = DiscardReturnAddress)); [|done]. injection H as <-.
    by split_and!.
  - destruct (_ || _) eqn:Ej; [done|]. apply orb_false_iff in Ej as [Ea%negb_false_iff%Z.eqb_eq Ealt].
    destruct (Instruction_end insn =? kBadAddress); [done|].
    assert (forall c, gadget_inv scan c -> gadget_inv (support_insn scan insn) c) as Hsup by done.
    destruct (bool_decide_reflect (in_kind insn = Kind_Return)) as [Ek|Ek].
    + exists [], (insn :: insns). split; [done|]. split; [done|].
      split; [|split]; [| |intros Hu _ _ _ c c' Hi Hx; inversion Hx; subst; by eapply finish_gadget_sound; [|apply Hsup|]].
      all: revert H; unfold finish_gadget; destruct (address_if call (_ || _) _); [|done];
        destruct (address_if call (ga_known _) _); [|done]; destruct (_ && _); [done|]; intros [= <-]; by cbn; split_and!.
    + destruct (gadget_step entry (support_insn scan insn) insn) as [scan'|] eqn:Es; [|done].
      destruct (IH _ _ H) as (before & after & -> & Hn & Hfields & Hafter & Hh).
      exists (insn :: before), after. split; [done|]. split; [by constructor|]. split; [done|]. split.
      * destruct after as [|ret after]; cbn [app linear]; naive_solver.
      * intros Hu He [Hti Ht]%Forall_cons [Hfi Hf]%Forall_cons c c' Hi Hx.
        inversion Hx as [|? ? ? c1 ? Hx1 Hx2]; subst.
        eapply Hh; [done..| |done]. eapply gadget_step_sound; [done..|by apply Hsup|done|done].
Qed.

Lemma gadget_entry_ok first :
  gadget_entry first = Some entry -> in_value_width first = word -> entry_ok.
Proof.
  unfold gadget_entry, entry_ok. intros H Hw.
  destruct (in_kind first); try done; repeat case_match; try done; injection H as <-; cbn; split; try done.
  all: intros _; split; [done|]. all: by apply Z.eqb_neq.
Qed.

Lemma gadget_entry_sound first support c0 c1 :
  insn_typed first -> gadget_entry first = Some entry -> in_value_width first = word ->
  followed (ge_register entry) first = true -> top_is 0 (cpu_stack c0) -> exec first c0 c1 ->
  gadget_inv {| ga_pushed := false; ga_pushed_delta := 0; ga_known := ge_known entry;
                ga_delta := ge_delta entry; ga_support := support |} c1.
Proof.
  intros (_ & _ & _ & Himm & _) He Hw Hf (v & s & Hst & Hv) [_ [(Hr & Hs & _)|[Hcd _]]].
  2: { unfold followed in Hf. by rewrite Hcd in Hf. }
  assert (moves_stack first = false) as Hmv
    by (unfold followed in Hf; rewrite !andb_true_iff in Hf; by destruct Hf as [[[_ Hm%negb_true_iff] _] _]).
  assert (op_width first = word) as How by (unfold op_width; destruct (in_value_width first =? 0); done).
  assert (is_i64 0) as H0 by (unfold is_i64; lia).
  unfold gadget_entry in He. unfold regs_effect, written_value, stack_effect in *. rewrite Hmv in Hs. rewrite Hst in Hr, Hs.
  unfold gadget_inv. cbn [ga_delta ga_pushed_delta ga_known ga_pushed].
  destruct (in_kind first) eqn:Ek; try done.
  1, 2: destruct (Z.eqb_spec (in_destination_register first) kNoRegister) as [|Hd]; [done|];
    injection He as He; rewrite <- He; cbn [head] in Hr; apply (receives_word _ _ _ _ How Hd) in Hr;
    (split; [exact H0|]); (split; [exact H0|]); (split; [|by split]);
    intros _; (split; [done|]); unfold return_plus in *; cbn [ge_register ge_delta]; congruence.
  - injection He as He. rewrite <- He. cbn [ge_delta ge_known ge_adjusted].
    split; [by apply to_i64_range|]. split; [exact H0|]. split; [done|]. split; [done|].
    intros _. destruct Hs as (v' & Hs & Hv'). exists v', s. split; [done|]. rewrite How in Hv'.
    pose proof (return_plus_add 0 v (in_immediate first) Hv v' Hv') as H. by rewrite Z.add_0_l in H.
  - destruct (to_i64 _ <=? 0); [done|]. injection He as He. rewrite <- He.
    split; [exact H0|]. split; [exact H0|]. by split_and!.
Qed.
End Soundness.


(** The test's gadget: pop the return address, add seven, push it and return. *)
Definition sample_gadget : list Instruction :=
  [sample_insn 4112 Kind_PopRegister 1 kNoRegister 8 0;
   sample_insn 4113 Kind_AddImmediate 1 kNoRegister 8 7;
   sample_insn 4114 Kind_PushRegister kNoRegister 1 8 0;
   sample_insn 4115 Kind_Return kNoRegister kNoRegister 0 0].

Definition sample_branch (address size : Z) (kind : InstructionKind) (target : Z) : Instruction :=
  {| in_address := address; in_size := size; in_kind := kind; in_destination_register := kNoRegister;
     in_source_register := kNoRegister; in_destination_name := ""; in_source_name := "";
     in_value_width := 0; in_immediate := 0; in_target := target; in_memory_address := kBadAddress;
     in_condition := Cond_Unknown; in_flag_effect := Flags_Preserve; in_register_is_left_operand := true;
     in_alternate_predecessor := false; in_writes_global_memory := false; in_plumbing := false |}.


(** ** Gaps *)

(** A jump gap is exactly the range between a direct jump and its target.  A
    candidate is reported for a direct jump of known size with a known target ahead of
    its end, by at most [maximum_gap] bytes, when the host found the gap loaded and
    unreferenced, and in no other case; its range is not empty and no address in the
    computation wraps around. *)
Theorem jump_gap_exact branch loaded unreferenced limits g :
  insn_typed branch ->
  classify_jump_gap branch loaded unreferenced limits = Some g <->
  in_kind branch = Kind_DirectJump /\ 0 < in_size branch /\ loaded = true /\ unreferenced = true /\
  in_target branch <> kBadAddress /\
  in_address branch + in_size branch < in_target branch /\
  in_target branch - (in_address branch + in_size branch) <= maximum_gap limits /\
  g = {| gc_branch := in_address branch; gc_start := in_address branch + in_size branch;
         gc_end := in_target branch |}.
Proof.
  intros (Ha & Hs & _ & _ & Ht). unfold is_u64, is_u16 in *. unfold classify_jump_gap, Instruction_end, kBadAddress, u64_max.
  destruct (bool_decide_reflect (in_kind branch = Kind_DirectJump)) as [|]; cbn [negb orb]; [|naive_solver].
  destruct (Z.eqb_spec (in_size branch) 0); cbn [negb orb]; [naive_solver lia|].
  destruct (Z.eqb_spec (in_target branch) (2 ^ 64 - 1)); cbn [negb orb]; [naive_solver|].
  destruct loaded, unreferenced; cbn [negb orb]; try naive_solver.
  destruct (Z.eqb_spec (in_address branch) (2 ^ 64 - 1)), (Z.ltb_spec (2 ^ 64 - 1 - in_size branch) (in_address branch));
    cbn [orb]; rewrite ?Z.eqb_refl; cbn [orb]; try (split; [done|naive_solver lia]).
  destruct (Z.eqb_spec (in_address branch + in_size branch) (2 ^ 64 - 1)); cbn [orb]; [naive_solver lia|].
  destruct (Z.leb_spec (in_target branch) (in_address branch + in_size branch)); [naive_solver lia|].
  destruct (Z.ltb_spec (maximum_gap limits) (in_target branch - (in_address branch + in_size branch))); [naive_solver lia|].
  split; [intros [= <-]; split_and!; try done; lia|]. naive_solver.
Qed.

Lemma jump_gap_exact_witness :
  classify_jump_gap (sample_branch 8192 2 Kind_DirectJump 8208) true true default_classifier_limits =
  Some {| gc_branch := 8192; gc_start := 8194; gc_end := 8208 |}.
Proof.
  apply (jump_gap_exact (sample_branch 8192 2 Kind_DirectJump 8208) true true default_classifier_limits).
  - decide_ranges.
  - cbn. unfold kBadAddress, u64_max. repeat split; lia.
Defined.

(** ** Wrappers *)

(** What stops the loop: a store to global memory or an indirect transfer. *)
Definition wrapper_allows (insn : Instruction) : bool :=
  negb (in_writes_global_memory insn) &&
  match in_kind insn with Kind_IndirectCall | Kind_IndirectJump => false | _ => true end.

Definition count_kind (kind : InstructionKind) (insns : list Instruction) : Z :=
  zlen (List.filter (fun i => in_kind i == kind) insns).

(** Plumbing, or an instruction that transfers control. *)
Definition is_plumbing (insn : Instruction) : bool :=
  match in_kind insn with
  | Kind_DirectCall | Kind_DirectJump | Kind_ConditionalBranch | Kind_Return => true
  | _ => in_plumbing insn
  end.

Definition is_transfer (insn : Instruction) : bool :=
  match in_kind insn with Kind_DirectCall | Kind_DirectJump => true | _ => false end.

Definition last_target (insns : list Instruction) (target : Z) : Z :=
  foldl (fun t i => if is_transfer i then in_target i else t) target insns.

(** The scan after the instructions of [insns]. *)
Definition scanned (scan : WrapperScan) (insns : list Instruction) : WrapperScan :=
  {| ws_calls := ws_calls scan + count_kind Kind_DirectCall insns;
     ws_returns := ws_returns scan + count_kind Kind_Return insns;
     ws_jumps := ws_jumps scan + count_kind Kind_DirectJump insns;
     ws_conditional := ws_conditional scan + count_kind Kind_ConditionalBranch insns;
     ws_all_plumbing := ws_all_plumbing scan && forallb is_plumbing insns;
     ws_target := last_target insns (ws_target scan) |}.

Lemma count_kind_app kind l1 l2 : count_kind kind (l1 ++ l2) = count_kind kind l1 + count_kind kind l2.
Proof. unfold count_kind. by rewrite List.filter_app, zlen_app. Qed.

Lemma scanned_app scan l1 l2 : scanned scan (l1 ++ l2) = scanned (scanned scan l1) l2.
Proof.
  unfold scanned, last_target. cbn. rewrite !count_kind_app, forallb_app, foldl_app, andb_assoc.
  by rewrite !Z.add_assoc.
Qed.

Lemma wrapper_step_exact scan insn :
  wrapper_step scan insn = if wrapper_allows insn then Some (scanned scan [insn]) else None.
Proof.
  unfold wrapper_step, wrapper_allows, scanned, count_kind, last_target, is_plumbing, is_transfer. cbn.
  destruct (in_writes_global_memory insn); [done|].
  destruct (in_kind insn); cbn; rewrite ?Z.add_0_r, ?andb_true_r; try done.
Qed.

Lemma wrapper_loop_exact scan insns :
  wrapper_loop scan insns = if forallb wrapper_allows insns then Some (scanned scan insns) else None.
Proof.
  revert scan. induction insns as [|insn insns IH]; intros scan; cbn [wrapper_loop forallb].
  { destruct scan. unfold scanned, count_kind. cbn. by rewrite !Z.add_0_r, andb_true_r. }
  rewrite wrapper_step_exact. destruct (wrapper_allows insn); [|done]. cbn [andb]. rewrite IH.
  change (insn :: insns) with ([insn] ++ insns). by rewrite scanned_app.
Qed.

Lemma count_transfers insns :
  count_kind Kind_DirectCall insns + count_kind Kind_DirectJump insns = zlen (List.filter is_transfer insns).
Proof.
  induction insns as [|i insns IH]; [done|]. change (i :: insns) with ([i] ++ insns).
  rewrite !count_kind_app, List.filter_app, zlen_app, <- IH.
  assert (count_kind Kind_DirectCall [i] + count_kind Kind_DirectJump [i] = zlen (List.filter is_transfer [i])) as <-
    by (unfold count_kind, is_transfer; cbn; by destruct (in_kind i)). lia.
Qed.

Lemma count_kind_zero kind insns : count_kind kind insns = 0 <-> Forall (fun i => in_kind i <> kind) insns.
Proof.
  unfold count_kind. induction insns as [|i insns IH]; cbn [List.filter]; [by split|].
  rewrite Forall_cons, <- IH. case_bool_decide; rewrite ?zlen_cons; [|tauto].
  pose proof (zlen_nonneg (List.filter (fun i => in_kind i == kind) insns)). split; [lia|]. by intros [? _].
Qed.

Lemma last_target_none insns target : List.filter is_transfer insns = [] -> last_target insns target = target.
Proof.
  revert target. induction insns as [|i insns IH]; intros target H; [done|]. cbn in H |- *.
  destruct (is_transfer i); [done|]. by apply IH.
Qed.

(** A list with one transfer, and what the counts say of it. *)
Lemma one_transfer insns target :
  zlen (List.filter is_transfer insns) = 1 ->
  exists before x after, insns = before ++ x :: after /\ is_transfer x = true /\
    List.filter is_transfer (before ++ after) = [] /\ last_target insns target = in_target x.
Proof.
  intros H. assert (exists x, List.filter is_transfer insns = [x]) as [x Hx].
  { destruct (List.filter is_transfer insns) as [|x [|y l]]; unfold zlen in H; cbn in H; [lia|by exists x|lia]. }
  clear H. revert target. induction insns as [|i insns IH]; intros target; [done|]. cbn in Hx.
  destruct (is_transfer i) eqn:Ei.
  - injection Hx as -> Hnone. exists [], x, insns. split_and!; try done.
    cbn. rewrite Ei. by apply last_target_none.
  - destruct (IH Hx (if is_transfer i then in_target i else target)) as (b & y & a & -> & Hy & Hf & Hl).
    exists (i :: b), y, a. split_and!; try done. cbn. by rewrite Ei.
Qed.

Lemma transfer_at before x after target :
  is_transfer x = true -> List.filter is_transfer (before ++ after) = [] ->
  last_target (before ++ x :: after) target = in_target x /\
  zlen (List.filter is_transfer (before ++ x :: after)) = 1.
Proof.
  intros Hx. rewrite List.filter_app. intros [Hb Ha]%app_eq_nil. unfold last_target. rewrite foldl_app. cbn [foldl].
  rewrite Hx. rewrite List.filter_app. cbn [List.filter]. rewrite Hx, Hb, Ha. split; [|done].
  by apply last_target_none.
Qed.

(** In such a list the counts of calls and jumps are those of the transfer. *)
Lemma transfer_counts before x after :
  is_transfer x = true -> List.filter is_transfer (before ++ after) = [] ->
  count_kind Kind_DirectCall (before ++ x :: after) = (if in_kind x == Kind_DirectCall then 1 else 0) /\
  count_kind Kind_DirectJump (before ++ x :: after) = (if in_kind x == Kind_DirectJump then 1 else 0).
Proof.
  intros Hx Hf. assert (forall k l, List.filter is_transfer l = [] -> k = Kind_DirectCall \/ k = Kind_DirectJump ->
    count_kind k l = 0) as H0.
  { intros k l Hl Hk. pose proof (count_transfers l) as Hc. rewrite Hl, zlen_nil in Hc.
    assert (0 <= count_kind Kind_DirectCall l /\ 0 <= count_kind Kind_DirectJump l) by (split; apply zlen_nonneg).
    destruct Hk as [-> | ->]; lia. }
  rewrite List.filter_app in Hf. apply app_eq_nil in Hf as [Hb Ha].
  change (x :: after) with ([x] ++ after). rewrite !count_kind_app, !(H0 _ before), !(H0 _ after) by auto.
  unfold count_kind. cbn. destruct (in_kind x); done.
Qed.

(** The function is small and ordinary enough to be looked at. *)
Definition wrapper_eligible (function : FunctionShape) (limits : ClassifierLimits) : Prop :=
  fs_entry function <> kBadAddress /\ fs_already_special function = false /\
  fs_has_tail_chunks function = false /\ fs_scan_complete function = true /\
  1 <= zlen (fs_instructions function) <= wrapper_maximum_instructions limits /\
  (wrapper_maximum_callers limits = 0 \/ fs_caller_count function <= wrapper_maximum_callers limits).

(** How the single transfer and the returns must fit: a tail jump and no return, or a
    call and one return - or none if the callee does not come back. *)
Definition wrapper_shape (function : FunctionShape) (x : Instruction) (tail_call : bool) : Prop :=
  let returns := count_kind Kind_Return (fs_instructions function) in
  match in_kind x with
  | Kind_DirectJump => tail_call = true /\ returns = 0
  | Kind_DirectCall =>
      tail_call = false /\ (returns = 1 \/ (returns = 0 /\ fs_direct_callee_returns function = false))
  | _ => False
  end.

Lemma wrapper_eligible_iff function limits :
  (fs_entry function =? kBadAddress) || fs_already_special function ||
  fs_has_tail_chunks function || negb (fs_scan_complete function) ||
  (zlen (fs_instructions function) =? 0) ||
  (wrapper_maximum_instructions limits <? zlen (fs_instructions function)) ||
  (negb (wrapper_maximum_callers limits =? 0) &&
   (wrapper_maximum_callers limits <? fs_caller_count function)) = false <->
  wrapper_eligible function limits.
Proof.
  unfold wrapper_eligible. pose proof (zlen_nonneg (fs_instructions function)).
  rewrite !orb_false_iff, andb_false_iff, !negb_false_iff, !Z.eqb_neq, Z.eqb_eq, !Z.ltb_ge.
  intuition lia.
Qed.

(** What the counts decide. *)
Definition wrapper_counts (function : FunctionShape) (tail_call : bool) : Prop :=
  let insns := fs_instructions function in
  count_kind Kind_ConditionalBranch insns = 0 /\
  if tail_call
  then count_kind Kind_DirectCall insns = 0 /\ count_kind Kind_DirectJump insns = 1 /\
       count_kind Kind_Return insns = 0
  else count_kind Kind_DirectCall insns = 1 /\ count_kind Kind_DirectJump insns = 0 /\
       (count_kind Kind_Return insns = 1 \/
        (count_kind Kind_Return insns = 0 /\ fs_direct_callee_returns function = false)).

Lemma classify_wrapper_counts function limits w :
  classify_wrapper function limits = Some w <->
  wrapper_eligible function limits /\ forallb wrapper_allows (fs_instructions function) = true /\
  last_target (fs_instructions function) kBadAddress <> kBadAddress /\
  wrapper_counts function (wc_tail_call w) /\
  w = {| wc_function := fs_entry function; wc_target := last_target (fs_instructions function) kBadAddress;
         wc_thunk := forallb is_plumbing (fs_instructions function); wc_tail_call := wc_tail_call w;
         wc_instruction_count := zlen (fs_instructions function) |}.
Proof.
  unfold classify_wrapper. pose proof (wrapper_eligible_iff function limits) as Hel.
  destruct (_ || _); [split; [done|]; intros [H _]; by apply Hel in H|].
  assert (wrapper_eligible function limits) as He by by apply Hel. clear Hel.
  rewrite wrapper_loop_exact. destruct (forallb wrapper_allows _); [|split; [done|]; by intros (_ & ? & _)].
  unfold wrapper_counts. cbn [scanned initial_wrapper_scan ws_calls ws_returns ws_jumps ws_conditional ws_all_plumbing ws_target].
  rewrite andb_true_l, !Z.add_0_l. set (insns := fs_instructions function).
  destruct (Z.eqb_spec (last_target insns kBadAddress) kBadAddress); cbn [orb]; [naive_solver|].
  destruct (Z.eqb_spec (count_kind Kind_ConditionalBranch insns) 0); cbn [negb]; [|naive_solver].
  destruct (Z.eqb_spec (count_kind Kind_DirectCall insns) 0), (Z.eqb_spec (count_kind Kind_DirectCall insns) 1),
    (Z.eqb_spec (count_kind Kind_DirectJump insns) 0), (Z.eqb_spec (count_kind Kind_DirectJump insns) 1),
    (Z.eqb_spec (count_kind Kind_Return insns) 0), (Z.eqb_spec (count_kind Kind_Return insns) 1),
    (fs_direct_callee_returns function); try lia; cbn [andb negb orb];
    (split; [first [discriminate | intros [= <-]; cbn; tauto]|]);
    intros (_ & _ & _ & Hc & Hw); destruct w as [f t th []]; cbn in Hc, Hw; first [exfalso; lia | by rewrite Hw | idtac].
  all: first [naive_solver lia | idtac].
Qed.

(** A function is classified as a wrapper exactly when it has a wrapper's shape.
    The candidate is reported when the function is eligible, stores to no global memory,
    has no indirect transfer and no conditional branch, and has exactly one direct call
    or jump, to a known target and matched by its returns; it then carries that target,
    is a thunk exactly when every other instruction is plumbing, and a tail call exactly
    when the transfer is the jump. *)
Theorem wrapper_exact function limits w :
  classify_wrapper function limits = Some w <->
  wrapper_eligible function limits /\
  exists before x after,
    fs_instructions function = before ++ x :: after /\
    Forall (fun i => is_transfer i = false) (before ++ after) /\
    Forall (fun i => wrapper_allows i = true /\ in_kind i <> Kind_ConditionalBranch)
      (fs_instructions function) /\
    in_target x <> kBadAddress /\ wrapper_shape function x (wc_tail_call w) /\
    wc_function w = fs_entry function /\ wc_target w = in_target x /\
    wc_thunk w = forallb is_plumbing (fs_instructions function) /\
    wc_instruction_count w = zlen (fs_instructions function).
Proof.
  rewrite classify_wrapper_counts. set (insns := fs_instructions function). split.
  - intros (He & Hal & Ht & [Hcb Hcounts] & Hw). split; [done|].
    fold insns in Hcb, Hcounts.
    assert (zlen (List.filter is_transfer insns) = 1) as H1
      by (rewrite <- count_transfers; destruct (wc_tail_call w); lia).
    destruct (one_transfer insns kBadAddress H1) as (b & x & a & Hins & Hx & Hnone & Hlast).
    destruct (transfer_counts b x a Hx Hnone) as [Hdc Hdj]. rewrite <- Hins in Hdc, Hdj.
    rewrite Hdc, Hdj in Hcounts. rewrite Hw. cbn [wc_function wc_target wc_thunk wc_instruction_count wc_tail_call].
    exists b, x, a. split_and!; [done| | |by rewrite <- Hlast| |done|by rewrite <- Hlast|done|done].
    + apply Forall_forall. intros i Hi. destruct (is_transfer i) eqn:Ei; [|done]. exfalso.
      apply (not_elem_of_nil i). rewrite <- Hnone. by apply elem_of_filter.
    + apply Forall_forall. intros i Hi. apply count_kind_zero in Hcb. rewrite Forall_forall in Hcb.
      rewrite forallb_forall in Hal. split; [by apply Hal, list_elem_of_In|by apply Hcb].
    + unfold wrapper_shape. fold insns. unfold is_transfer in Hx.
      destruct (in_kind x), (wc_tail_call w); cbn in Hcounts; try done; naive_solver lia.
  - intros (He & b & x & a & Hins & Hnone & Hal & Ht & Hshape & H1 & H2 & H3 & H4). split; [done|].
    assert (is_transfer x = true) as Hx by (unfold wrapper_shape in Hshape; unfold is_transfer; by destruct (in_kind x)).
    assert (List.filter is_transfer (b ++ a) = []) as Hf.
    { destruct (List.filter is_transfer (b ++ a)) as [|i l] eqn:E; [done|]. exfalso.
      assert (i ∈ List.filter is_transfer (b ++ a)) as Hi by (rewrite E; set_solver).
      apply elem_of_filter in Hi as [Hi Hin]. rewrite Forall_forall in Hnone. rewrite (Hnone i Hin) in Hi. done. }
    destruct (transfer_at b x a kBadAddress Hx Hf) as [Hlast _].
    destruct (transfer_counts b x a Hx Hf) as [Hdc Hdj]. fold insns in Hins, Hal, H3, H4.
    rewrite <- Hins in Hlast, Hdc, Hdj. rewrite Forall_forall in Hal. split_and!.
    + apply forallb_forall. intros i Hi. by apply Hal, list_elem_of_In.
    + by rewrite Hlast.
    + unfold wrapper_counts. fold insns. rewrite Hdc, Hdj. split.
      * apply count_kind_zero, Forall_forall. intros i Hi. by apply Hal.
      * unfold wrapper_shape in Hshape. fold insns in Hshape.
        destruct (in_kind x); try done; destruct Hshape as [-> Hr]; cbn; tauto.
    + fold insns. rewrite Hlast, <- H1, <- H2, <- H3, <- H4. by destruct w.
Qed.

Definition sample_shape : FunctionShape :=
  {| fs_entry := 16384; fs_end := 16388;
     fs_instructions := [sample_insn 16384 Kind_Nop kNoRegister kNoRegister 0 0;
                         sample_branch 16385 1 Kind_DirectCall 20480;
                         sample_insn 16386 Kind_Return kNoRegister kNoRegister 0 0];
     fs_caller_count := 2; fs_has_tail_chunks := false; fs_already_special := false;
     fs_direct_callee_returns := true; fs_scan_complete := true |}.

Example wrapper_sample :
  classify_wrapper sample_shape default_classifier_limits =
  Some {| wc_function := 16384; wc_target := 20480; wc_thunk := false; wc_tail_call := false;
          wc_instruction_count := 3 |}.
Proof. reflexivity. Qed.

(** An addition to the register is followed as if it worked in place, also when it adds
    to another register. *)
Example addition_from_another_register_is_followed :
  gp_resumed_at <$> classify_get_pc_gadget (sample_branch 4096 5 Kind_DirectCall 4112)
    (map (fun i => if in_address i =? 4113 then sample_insn 4113 Kind_AddImmediate 1 2 8 7 else i) sample_gadget)
    false default_classifier_limits = Some (Some 4108).
Proof. vm_compute. reflexivity. Qed.
