(* ===== verification/DeobfDispatch.v ===== *)
(** Compare-and-branch dispatchers ([parse_dispatch_node], [selector_entropy] and
    [find_dispatch_candidates] of [src/src/deobf_analysis_core.cpp]), and that the map a
    candidate reports is the one the blocks execute. *)
From stdpp Require Import base numbers list strings option sets relations.
From Stdlib Require Import ZArith Sorting.Sorted Lia.
From S2P Require Import Prelude OrderedMap Deobf DeobfFlags DeobfMachine.

Record DispatchNode := {
  dn_block : Z;
  dn_site : Z;
  dn_reg : Z;
  dn_reg_name : string;
  dn_width : Z;
  dn_selector : Z;
  dn_case_target : Z;
  dn_next : Z
}.

Record DispatchCandidate := {
  dc_entry_block : Z;
  dc_site : Z;
  dc_state_register : Z;
  dc_state_register_name : string;
  dc_state_width : Z;
  dc_cases : list (Z * Z);
  dc_default_target : option Z;
  dc_comparison_sites : list Z;
  dc_loop_backed : bool;
  dc_selector_one_bit_percent : Z
}.

(** ** One node *)

Definition writes_destination_value (insn : Instruction) : bool :=
  if in_destination_register insn =? kNoRegister then false
  else
    match in_kind insn with
    | Kind_PopRegister | Kind_ReadStackTop | Kind_LoadImmediate | Kind_LoadAddress
    | Kind_LoadReadOnlyConstant | Kind_CopyRegister | Kind_AddImmediate | Kind_SubImmediate
    | Kind_XorImmediate | Kind_AndImmediate | Kind_OrImmediate | Kind_ShiftLeftImmediate
    | Kind_ReplaceHigh16 | Kind_Other => true
    | _ => false
    end.

(** The backward loop from the branch: the comparison with the instructions before it
    (in reverse) and after it. *)
Fixpoint find_compare (rev_body after : list Instruction) :
    option (list Instruction * Instruction * list Instruction) :=
  match rev_body with
  | [] => None
  | insn :: rest =>
      if in_kind insn == Kind_CompareImmediate then Some (rest, insn, after)
      else if in_flag_effect insn == Flags_UnknownWrite then None
      else find_compare rest (insn :: after)
  end.

Definition has_successor (block : Block) (value : Z) : bool :=
  existsb (fun s => s =? value) (bl_successors block).

Definition make_node (block : Block) (branch compare : Instruction) : DispatchNode :=
  let zero := in_condition branch == Cond_Zero in
  let fallthrough := Instruction_end branch in
  {| dn_block := bl_start block;
     dn_site := in_address branch;
     dn_reg := in_destination_register compare;
     dn_reg_name := in_destination_name compare;
     dn_width := in_value_width compare;
     dn_selector := truncate_width (in_immediate compare) (in_value_width compare);
     dn_case_target := if zero then in_target branch else fallthrough;
     dn_next := if zero then fallthrough else in_target branch |}.

(** The last instruction and the ones before it, in reverse. *)
Definition parse_dispatch_node (block : Block) : option DispatchNode :=
  match rev (bl_instructions block) with
  | [] | [_] => None
  | branch :: rev_body =>
      if (in_kind branch != Kind_ConditionalBranch) || (in_target branch =? kBadAddress) ||
         ((in_condition branch != Cond_Zero) && (in_condition branch != Cond_NotZero)) then None
      else if Instruction_end branch =? kBadAddress then None
      else
        match find_compare rev_body [] with
        | None => None
        | Some (before, compare, after) =>
            if (in_destination_register compare =? kNoRegister) ||
               negb (in_register_is_left_operand compare) ||
               (in_value_width compare =? 0) || (8 <? in_value_width compare) then None
            else if existsb (fun insn =>
                       (in_destination_register insn =? in_destination_register compare) &&
                       writes_destination_value insn) (rev before ++ after) then None
            else if negb (has_successor block (in_target branch)) ||
                    negb (has_successor block (Instruction_end branch)) then None
            else Some (make_node block branch compare)
        end
  end.

(** ** The chains *)

Notation NodeMap := (omap Z DispatchNode).

Definition collect_nodes (blocks : list Block) : NodeMap :=
  foldl (fun nodes block =>
           match parse_dispatch_node block with
           | Some node => map_emplace Z.ltb (dn_block node) node nodes
           | None => nodes
           end) [] blocks.

Definition compatible_next_targets (nodes : NodeMap) : list Z :=
  foldl (fun targets item =>
           match map_find Z.ltb (dn_next item.2) nodes with
           | Some next =>
               if (dn_reg next =? dn_reg item.2) && (dn_width next =? dn_width item.2)
               then set_insert Z.ltb (dn_next item.2) targets else targets
           | None => targets
           end) [] nodes.

Definition chain_starts (nodes : NodeMap) : list Z :=
  let targets := compatible_next_targets nodes in
  match List.filter (fun a => negb (set_count Z.ltb a targets)) (map fst nodes) with
  | [] => match nodes with [] => [] | item :: _ => [item.1] end
  | starts => starts
  end.

(** The state of the chain loop. *)
Record ChainScan := {
  ch_chain : list DispatchNode;
  ch_visited : list Z;
  ch_cursor : Z;
  ch_state_reg : Z
}.

Definition initial_chain (start : Z) : ChainScan :=
  {| ch_chain := []; ch_visited := []; ch_cursor := start; ch_state_reg := kNoRegister |}.

(** [while (chain.size() < maximum)]; [None] when the fuel runs out. *)
Fixpoint chain_loop (fuel : nat) (nodes : NodeMap) (maximum : Z) (scan : ChainScan) :
    option ChainScan :=
  if zlen (ch_chain scan) <? maximum then
    match fuel with
    | O => None
    | S fuel =>
        match map_find Z.ltb (ch_cursor scan) nodes with
        | None => Some scan
        | Some found =>
            if set_count Z.ltb (ch_cursor scan) (ch_visited scan) then Some scan
            else
              let visited := set_insert Z.ltb (ch_cursor scan) (ch_visited scan) in
              let state_reg := if ch_state_reg scan =? kNoRegister then dn_reg found
                               else ch_state_reg scan in
              if negb (dn_reg found =? state_reg) ||
                 match ch_chain scan with
                 | [] => false
                 | front :: _ => negb (dn_width found =? dn_width front)
                 end
              then Some {| ch_chain := ch_chain scan; ch_visited := visited;
                           ch_cursor := ch_cursor scan; ch_state_reg := state_reg |}
              else
                chain_loop fuel nodes maximum
                  {| ch_chain := ch_chain scan ++ [found]; ch_visited := visited;
                     ch_cursor := dn_next found; ch_state_reg := state_reg |}
        end
    end
  else Some scan.

(** [selector_targets]; [None] on a contradiction. *)
Fixpoint selector_map (chain : list DispatchNode) (targets : omap Z Z) : option (omap Z Z) :=
  match chain with
  | [] => Some targets
  | node :: rest =>
      match map_find Z.ltb (dn_selector node) targets with
      | Some prior =>
          if negb (prior =? dn_case_target node) then None
          else selector_map rest (map_set Z.ltb (dn_selector node) (dn_case_target node) targets)
      | None => selector_map rest (map_set Z.ltb (dn_selector node) (dn_case_target node) targets)
      end
  end.

Definition selector_entropy (nodes : list DispatchNode) : Z :=
  let total := foldl (fun n node => n + dn_width node * 8) 0 nodes in
  let ones := foldl (fun n node => n + sum_bits (Z.to_nat (dn_width node * 8)) (dn_selector node) 0) 0 nodes in
  if total =? 0 then 0 else (ones * 100 / total) mod 256.

Definition make_candidate (blocks : list Block) (start : Z) (front : DispatchNode)
    (scan : ChainScan) (targets : omap Z Z) : DispatchCandidate :=
  {| dc_entry_block := start;
     dc_site := dn_site front;
     dc_state_register := ch_state_reg scan;
     dc_state_register_name := dn_reg_name front;
     dc_state_width := dn_width front;
     dc_cases := targets;
     dc_default_target :=
       if negb (set_count Z.ltb (ch_cursor scan) (ch_visited scan)) && negb (ch_cursor scan =? kBadAddress)
       then Some (ch_cursor scan) else None;
     dc_comparison_sites := map dn_site (ch_chain scan);
     dc_loop_backed :=
       existsb (fun block => negb (set_count Z.ltb (bl_start block) (ch_visited scan)) &&
                             has_successor block start) blocks;
     dc_selector_one_bit_percent := selector_entropy (ch_chain scan) |}.

(** One turn of the loop over the starts: the candidate, if any, and the emitted sites. *)
Definition start_step (blocks : list Block) (nodes : NodeMap) (limits : ClassifierLimits)
    (start : Z) (scan : ChainScan) (emitted : list Z) : option DispatchCandidate * list Z :=
  match ch_chain scan with
  | [] => (None, emitted)
  | front :: _ =>
      if (zlen (ch_chain scan) <? minimum_dispatch_cases limits) then (None, emitted)
      else if set_count Z.ltb (dn_site front) emitted then (None, emitted)
      else
        let emitted := set_insert Z.ltb (dn_site front) emitted in
        match selector_map (ch_chain scan) [] with
        | None => (None, emitted)
        | Some targets =>
            if zlen targets <? minimum_dispatch_cases limits then (None, emitted)
            else (Some (make_candidate blocks start front scan targets), emitted)
        end
  end.

Fixpoint starts_loop (blocks : list Block) (nodes : NodeMap) (limits : ClassifierLimits)
    (starts emitted : list Z) (out : list DispatchCandidate) : option (list DispatchCandidate) :=
  match starts with
  | [] => Some out
  | start :: rest =>
      match chain_loop (S (length nodes)) nodes (maximum_dispatch_cases limits) (initial_chain start) with
      | None => None
      | Some scan =>
          let '(candidate, emitted) := start_step blocks nodes limits start scan emitted in
          starts_loop blocks nodes limits rest emitted (out ++ option_list candidate)
      end
  end.

Definition find_dispatch_candidates (blocks : list Block) (limits : ClassifierLimits) :
    option (list DispatchCandidate) :=
  if (minimum_dispatch_cases limits =? 0) ||
     (maximum_dispatch_cases limits <? minimum_dispatch_cases limits) then Some []
  else
    let nodes := collect_nodes blocks in
    std_sort (fun a b => dc_site a <? dc_site b) <$>
      starts_loop blocks nodes limits (chain_starts nodes) [] [].

(** ** The loops end *)

Lemma collect_nodes_spec blocks :
  map_ok Z.ltb (collect_nodes blocks) /\
  forall a node, map_find Z.ltb a (collect_nodes blocks) = Some node ->
    exists block, block ∈ blocks /\ parse_dispatch_node block = Some node /\ bl_start block = a.
Proof.
  unfold collect_nodes.
  enough (forall nodes, map_ok Z.ltb nodes ->
    let r := foldl (fun nodes block => match parse_dispatch_node block with
                    | Some node => map_emplace Z.ltb (dn_block node) node nodes | None => nodes end) nodes blocks in
    map_ok Z.ltb r /\ forall a node, map_find Z.ltb a r = Some node ->
      map_find Z.ltb a nodes = Some node \/
      exists block, block ∈ blocks /\ parse_dispatch_node block = Some node /\ dn_block node = a) as H.
  { destruct (H [] ltac:(constructor)) as [H1 H2]. split; [done|]. intros a node Hn.
    destruct (H2 a node Hn) as [?|(b & Hb & Hp & Ha)]; [done|]. exists b. split_and!; [done..|].
    rewrite <- Ha. revert Hp. unfold parse_dispatch_node. repeat case_match; try done; by intros [= <-]. }
  induction blocks as [|b blocks IH]; intros nodes Hok; cbn [foldl]; [split; [done|by left]|].
  destruct (parse_dispatch_node b) as [n|] eqn:Eb.
  - destruct (IH _ (map_emplace_ok Z.ltb nodes (dn_block n) n Hok)) as [H1 H2]. split; [done|].
    intros a node Hn. destruct (H2 a node Hn) as [Hm|(b' & ? & ? & ?)].
    + unfold map_emplace in Hm. destruct (map_find Z.ltb (dn_block n) nodes) eqn:Ef; [by left|].
      rewrite (map_find_set Z.ltb) in Hm by done. destruct (equiv_by Z.ltb (dn_block n) a) eqn:Ea; [|by left].
      apply (equiv_by_eq Z.ltb) in Ea. injection Hm as <-. right. exists b. split_and!; [set_solver|done|done].
    + right. exists b'. split_and!; [set_solver|done|done].
  - destruct (IH nodes Hok) as [H1 H2]. split; [done|]. intros a node Hn.
    destruct (H2 a node Hn) as [?|(b' & ? & ? & ?)]; [by left|]. right. exists b'. split_and!; [set_solver|done|done].
Qed.

(** The chain follows the links of the nodes to [cursor]. *)
Fixpoint linked (nodes : NodeMap) (a : Z) (chain : list DispatchNode) (cursor : Z) : Prop :=
  match chain with
  | [] => a = cursor
  | node :: rest => map_find Z.ltb a nodes = Some node /\ linked nodes (dn_next node) rest cursor
  end.

Lemma linked_snoc nodes a chain node cursor :
  linked nodes a chain cursor -> map_find Z.ltb cursor nodes = Some node ->
  linked nodes a (chain ++ [node]) (dn_next node).
Proof.
  revert a. induction chain as [|n chain IH]; intros a; cbn [app linked]; [by intros ->|].
  intros [H1 H2] H. split; [done|by apply IH].
Qed.

Definition chain_ok (nodes : NodeMap) (start maximum : Z) (scan : ChainScan) : Prop :=
  linked nodes start (ch_chain scan) (ch_cursor scan) /\
  StrictSorted Z.ltb (ch_visited scan) /\
  (forall a, a ∈ ch_visited scan -> a ∈ map fst nodes) /\
  zlen (ch_chain scan) <= Z.max 0 maximum /\
  match ch_chain scan with
  | [] => True
  | front :: _ =>
      Forall (fun n => dn_reg n = ch_state_reg scan /\ dn_width n = dn_width front) (ch_chain scan)
  end.

Definition nodes_named (nodes : NodeMap) : Prop :=
  forall a node, map_find Z.ltb a nodes = Some node -> dn_reg node <> kNoRegister.

Lemma map_find_key (nodes : NodeMap) a node :
  map_ok Z.ltb nodes -> map_find Z.ltb a nodes = Some node -> a ∈ map fst nodes.
Proof.
  intros Hok H. apply (map_find_elem Z.ltb) in H; [|done]. apply list_elem_of_fmap. by exists (a, node).
Qed.

(** Every turn visits a node it has not visited. *)
Lemma chain_loop_total fuel nodes start maximum scan :
  map_ok Z.ltb nodes -> nodes_named nodes -> chain_ok nodes start maximum scan ->
  (length nodes < fuel + length (ch_visited scan))%nat ->
  exists scan', chain_loop fuel nodes maximum scan = Some scan' /\ chain_ok nodes start maximum scan'.
Proof.
  intros Hok Hnamed. revert scan. induction fuel as [|fuel IH]; intros scan Hs Hf; cbn [chain_loop];
    (destruct (Z.ltb_spec (zlen (ch_chain scan)) maximum) as [Hlt|]; [|by exists scan]).
  - exfalso. destruct Hs as (_ & Hsort & Hin & _).
    assert (length (ch_visited scan) <= length (map fst nodes))%nat as Hle; [|rewrite length_map in Hle; lia].
    apply submseteq_length, NoDup_submseteq; [by apply (StrictSorted_NoDup Z.ltb)|done].
  - destruct (map_find Z.ltb (ch_cursor scan) nodes) as [found|] eqn:Efound; [|by exists scan].
    destruct (set_count Z.ltb (ch_cursor scan) (ch_visited scan)) eqn:Ev; [by exists scan|].
    destruct Hs as (Hl & Hsort & Hin & Hlen & Hall).
    set (state_reg := if ch_state_reg scan =? kNoRegister then dn_reg found else ch_state_reg scan).
    assert (forall a, a ∈ set_insert Z.ltb (ch_cursor scan) (ch_visited scan) -> a ∈ map fst nodes) as Hin'.
    { intros a [->|Ha]%(elem_of_set_insert Z.ltb); [|by apply Hin|done..]. by eapply map_find_key. }
    assert (StrictSorted Z.ltb (set_insert Z.ltb (ch_cursor scan) (ch_visited scan))) as Hsort'
      by by apply (set_insert_sorted Z.ltb).
    assert (match ch_chain scan with [] => True | _ :: _ => state_reg = ch_state_reg scan end) as Hreg.
    { destruct (ch_chain scan) as [|front chain]; [done|]. unfold state_reg.
      destruct (Z.eqb_spec (ch_state_reg scan) kNoRegister) as [E|]; [|done]. exfalso.
      apply Forall_cons in Hall as [[Hr _] _]. destruct Hl as [Hf' _]. apply (Hnamed _ _ Hf'). congruence. }
    destruct (_ || _) eqn:Ecompat.
    + eexists. split; [reflexivity|]. split_and!; cbn [ch_chain ch_visited ch_cursor ch_state_reg]; try done.
      destruct (ch_chain scan) as [|front chain]; [done|]. rewrite Hreg. exact Hall.
    + apply orb_false_iff in Ecompat as [Er%negb_false_iff%Z.eqb_eq Ew].
      apply IH.
      * split_and!; cbn [ch_chain ch_visited ch_cursor ch_state_reg]; try done.
        -- by eapply linked_snoc.
        -- rewrite zlen_app, zlen_cons, zlen_nil. lia.
        -- destruct (ch_chain scan) as [|front chain]; cbn [app].
           ++ by repeat constructor.
           ++ rewrite app_comm_cons. apply Forall_app. split; [by rewrite Hreg|].
              apply negb_false_iff, Z.eqb_eq in Ew. by repeat constructor.
      * cbn [ch_visited]. assert (length (set_insert Z.ltb (ch_cursor scan) (ch_visited scan)) =
                                   S (length (ch_visited scan))) as ->; [|lia].
        by apply (set_insert_length Z.ltb).
Qed.

(** Where a candidate comes from. *)
Definition from_chain (blocks : list Block) (nodes : NodeMap) (limits : ClassifierLimits)
    (d : DispatchCandidate) : Prop :=
  exists start scan front rest targets,
    ch_chain scan = front :: rest /\
    chain_ok nodes start (maximum_dispatch_cases limits) scan /\
    selector_map (ch_chain scan) [] = Some targets /\
    minimum_dispatch_cases limits <= zlen targets /\
    d = make_candidate blocks start front scan targets.

Definition output_ok (blocks : list Block) (nodes : NodeMap) (limits : ClassifierLimits)
    (emitted : list Z) (out : list DispatchCandidate) : Prop :=
  StrictSorted Z.ltb emitted /\ NoDup (map dc_site out) /\
  (forall d, d ∈ out -> dc_site d ∈ emitted /\ from_chain blocks nodes limits d).

Lemma initial_chain_ok nodes start maximum : chain_ok nodes start maximum (initial_chain start).
Proof.
  split_and!; cbn [initial_chain ch_chain ch_visited ch_cursor ch_state_reg linked]; try done.
  - constructor.
  - intros a Ha. by apply elem_of_nil in Ha.
  - rewrite zlen_nil. lia.
Qed.

Lemma start_step_ok blocks nodes limits start scan emitted out :
  chain_ok nodes start (maximum_dispatch_cases limits) scan ->
  output_ok blocks nodes limits emitted out ->
  let '(candidate, emitted') := start_step blocks nodes limits start scan emitted in
  output_ok blocks nodes limits emitted' (out ++ option_list candidate).
Proof.
  intros Hc (Hs & Hn & Ho).
  assert (output_ok blocks nodes limits emitted (out ++ option_list None)) as Hsame
    by (cbn [option_list]; by rewrite app_nil_r).
  unfold start_step. destruct (ch_chain scan) as [|front rest] eqn:Ech; [done|].
  destruct (zlen (front :: rest) <? minimum_dispatch_cases limits); [done|].
  destruct (set_count Z.ltb (dn_site front) emitted) eqn:Ee; [done|].
  assert (forall d, dc_site d ∈ emitted -> dc_site d ∈ set_insert Z.ltb (dn_site front) emitted) as Hmono
    by (intros d Hd; apply (elem_of_set_insert Z.ltb); by right).
  assert (output_ok blocks nodes limits (set_insert Z.ltb (dn_site front) emitted) (out ++ option_list None)) as Hins.
  { cbn [option_list]. rewrite app_nil_r. split_and!; [by apply (set_insert_sorted Z.ltb)|done|].
    intros d Hd. destruct (Ho d Hd). split; [by apply Hmono|done]. }
  destruct (selector_map (front :: rest) []) as [targets|] eqn:Em; [|done].
  destruct (Z.ltb_spec (zlen targets) (minimum_dispatch_cases limits)) as [|Hmin]; [done|].
  destruct Hins as (H1 & _ & _). split_and!; [done| |].
  - cbn [option_list]. rewrite map_app. apply NoDup_app. split_and!; [done| |cbn; apply NoDup_singleton].
    intros a (d & -> & Hd)%list_elem_of_fmap. cbn. intros Heq%list_elem_of_singleton.
    destruct (Ho d Hd) as [Hin _]. apply (set_count_elem Z.ltb) in Hin; [|done].
    unfold make_candidate in Heq. cbn in Heq. congruence.
  - intros d [Hd|Hd]%elem_of_app; [destruct (Ho d Hd); split; [by apply Hmono|done]|].
    cbn in Hd. apply list_elem_of_singleton in Hd as ->. split.
    + cbn. apply (elem_of_set_insert Z.ltb). by left.
    + exists start, scan, front, rest, targets. by rewrite Ech.
Qed.

Lemma starts_loop_total blocks nodes limits starts emitted out :
  map_ok Z.ltb nodes -> nodes_named nodes -> output_ok blocks nodes limits emitted out ->
  exists out' emitted', starts_loop blocks nodes limits starts emitted out = Some out' /\
                        output_ok blocks nodes limits emitted' out'.
Proof.
  intros Hok Hnamed. revert emitted out. induction starts as [|start starts IH]; intros emitted out Ho; cbn [starts_loop].
  { by exists out, emitted. }
  destruct (chain_loop_total (S (length nodes)) nodes start (maximum_dispatch_cases limits) (initial_chain start)
              Hok Hnamed (initial_chain_ok _ _ _)) as (scan & -> & Hc); [cbn; lia|].
  pose proof (start_step_ok blocks nodes limits start scan emitted out Hc Ho) as Hstep.
  destruct (start_step blocks nodes limits start scan emitted) as [candidate emitted']. by apply IH.
Qed.

Lemma parse_dispatch_node_shape block node :
  parse_dispatch_node block = Some node ->
  exists rev_before compare after branch,
    bl_instructions block = rev rev_before ++ compare :: after ++ [branch] /\
    node = make_node block branch compare /\
    in_kind branch = Kind_ConditionalBranch /\ in_target branch <> kBadAddress /\
    (in_condition branch = Cond_Zero \/ in_condition branch = Cond_NotZero) /\
    in_kind compare = Kind_CompareImmediate /\ in_destination_register compare <> kNoRegister /\
    in_register_is_left_operand compare = true /\
    in_value_width compare <> 0 /\ in_value_width compare <= 8 /\
    Forall (fun i => in_kind i <> Kind_CompareImmediate) after /\
    Forall (fun i => in_destination_register i = in_destination_register compare ->
                     writes_destination_value i = false) (rev rev_before ++ after).
Proof.
  assert (forall l after b c a, find_compare l after = Some (b, c, a) ->
    exists mid, rev l ++ after = rev b ++ c :: mid ++ after /\ a = mid ++ after /\
      in_kind c = Kind_CompareImmediate /\ Forall (fun i => in_kind i <> Kind_CompareImmediate) mid) as Hfind.
  { induction l as [|i l IH]; intros after b c a; cbn [find_compare rev]; [done|].
    destruct (bool_decide_reflect (in_kind i = Kind_CompareImmediate)).
    - intros [= <- <- <-]. exists []. rewrite <- app_assoc. by split_and!.
    - destruct (in_flag_effect i == Flags_UnknownWrite); [done|]. intros H.
      destruct (IH _ _ _ _ H) as (mid & H1 & H2 & H3 & H4). exists (mid ++ [i]).
      rewrite <- !app_assoc. cbn [app]. split_and!; try done. apply Forall_app. by split; [|apply Forall_singleton]. }
  unfold parse_dispatch_node. destruct (rev (bl_instructions block)) as [|branch rev_body] eqn:Er; [done|].
  assert (bl_instructions block = rev rev_body ++ [branch]) as Hb
    by (rewrite <- (rev_involutive (bl_instructions block)), Er; done).
  destruct rev_body as [|i0 l0]; [done|]. remember (i0 :: l0) as rev_body eqn:E0. clear E0.
  destruct (bool_decide_reflect (in_kind branch = Kind_ConditionalBranch)); [|done].
  destruct (Z.eqb_spec (in_target branch) kBadAddress); [done|]. cbn [negb orb].
  destruct (_ && _) eqn:Econd; [done|]. cbn [orb]. destruct (Instruction_end branch =? kBadAddress); [done|].
  destruct (find_compare rev_body []) as [[[b c] a]|] eqn:Ef; [|done].
  destruct (Hfind _ _ _ _ _ Ef) as (mid & H1 & H2 & H3 & H4). rewrite app_nil_r in H2. subst mid.
  rewrite !app_nil_r in H1.
  destruct (_ || _) eqn:Ecmp; [done|]. destruct (existsb _ _) eqn:Ew; [done|].
  destruct (negb (has_successor block _) || _); [done|]. intros [= <-].
  apply orb_false_iff in Ecmp as [[[E1%Z.eqb_neq E2%negb_false_iff]%orb_false_iff E3%Z.eqb_neq]%orb_false_iff E4%Z.ltb_ge].
  exists b, c, a, branch. split; [rewrite Hb, H1; by rewrite <- app_assoc|].
  split_and!; try done.
  - apply andb_false_iff in Econd as [E|E]; apply negb_false_iff, bool_decide_eq_true in E; [by left|by right].
  - apply Forall_forall. intros i Hi Hd. destruct (writes_destination_value i) eqn:Ewr; [|done]. exfalso.
    rewrite <- not_true_iff_false in Ew. apply Ew, existsb_exists. exists i.
    split; [by apply list_elem_of_In|]. by rewrite Hd, Z.eqb_refl, Ewr.
Qed.

Lemma collected_named blocks : nodes_named (collect_nodes blocks).
Proof.
  intros a node H. destruct (collect_nodes_spec blocks) as [_ Hs].
  destruct (Hs a node H) as (b & _ & Hp & _).
  by apply parse_dispatch_node_shape in Hp as (? & c & ? & br & _ & -> & _ & _ & _ & _ & Hd & _).
Qed.

(** ** What the chains execute *)

Lemma selector_map_spec chain m m' :
  map_ok Z.ltb m -> selector_map chain m = Some m' ->
  map_ok Z.ltb m' /\
  (forall s t, map_find Z.ltb s m = Some t -> map_find Z.ltb s m' = Some t) /\
  (forall n, n ∈ chain -> map_find Z.ltb (dn_selector n) m' = Some (dn_case_target n)) /\
  (forall s t, map_find Z.ltb s m' = Some t ->
     map_find Z.ltb s m = Some t \/ exists n, n ∈ chain /\ dn_selector n = s).
Proof.
  revert m. induction chain as [|n chain IH]; intros m Hok H; cbn [selector_map] in H.
  { injection H as <-. split_and!; [done|done| |by left]. intros n Hn. by apply elem_of_nil in Hn. }
  assert (selector_map chain (map_set Z.ltb (dn_selector n) (dn_case_target n) m) = Some m' /\
          forall t, map_find Z.ltb (dn_selector n) m = Some t -> t = dn_case_target n) as [H' Hsame].
  { destruct (map_find Z.ltb (dn_selector n) m) as [p|]; [|by split].
    destruct (Z.eqb_spec p (dn_case_target n)) as [E|]; [|done]. split; [done|]. intros t Ht. congruence. }
  destruct (IH _ (map_ok_set Z.ltb m _ _ Hok) H') as (H1 & H2 & H3 & H4). split_and!; [done| | |].
  - intros s t Hs. apply H2. rewrite (map_find_set Z.ltb) by done.
    destruct (equiv_by Z.ltb (dn_selector n) s) eqn:E; [|done].
    apply (equiv_by_eq Z.ltb) in E as <-. by rewrite (Hsame t Hs).
  - intros x [->|Hx]%elem_of_cons; [|by apply H3]. apply H2. by rewrite (map_find_set_eq Z.ltb).
  - intros s t Hs. apply H4 in Hs as [Hs|(x & ? & ?)]; [|right; exists x; split; [set_solver|done]].
    rewrite (map_find_set Z.ltb) in Hs by done. destruct (equiv_by Z.ltb (dn_selector n) s) eqn:E; [|by left].
    apply (equiv_by_eq Z.ltb) in E. right. exists n. split; [set_solver|done].
Qed.

Lemma selector_map_length chain m m' :
  map_ok Z.ltb m -> selector_map chain m = Some m' -> zlen m' <= zlen m + zlen chain.
Proof.
  revert m. induction chain as [|n chain IH]; intros m Hok H; cbn [selector_map] in H.
  { injection H as <-. rewrite zlen_nil. lia. }
  assert (selector_map chain (map_set Z.ltb (dn_selector n) (dn_case_target n) m) = Some m') as H'
    by (repeat case_match; done).
  apply IH in H'; [|by apply (map_ok_set Z.ltb)]. rewrite zlen_cons.
  rewrite (map_set_length Z.ltb) in H' by done. destruct (map_find _ _ _); lia.
Qed.

Section Execution.
Context {P : Processor}.

(** Executing a block from its start may lead to address [a] in state [c']. *)
Definition block_run (block : Block) (c : cpu) (a : Z) (c' : cpu) : Prop :=
  match rev (bl_instructions block) with
  | branch :: rev_body =>
      executes (rev rev_body) c c' /\
      match in_kind branch with
      | Kind_ConditionalBranch =>
          a = if cpu_taken c' (in_condition branch) then in_target branch else Instruction_end branch
      | _ => a ∈ bl_successors block
      end
  | [] => c' = c /\ a ∈ bl_successors block
  end.

Inductive goes (blocks : list Block) : Z * cpu -> Z * cpu -> Prop :=
| goes_block block c a c' :
    block ∈ blocks -> block_run block c a c' -> goes blocks (bl_start block, c) (a, c').

(** The comparison is not skipped, and from there to the branch nothing touches the flags. *)
Fixpoint flags_clean (rev_body : list Instruction) : bool :=
  match rev_body with
  | [] => true
  | insn :: rest =>
      if in_kind insn == Kind_CompareImmediate then (in_flag_effect insn == Flags_KnownCompare) && negb (conditional (in_address insn))
      else (in_flag_effect insn == Flags_Preserve) && flags_clean rest
  end.

(** No call, nothing of kind [Other], and no write to a register that overlaps [r]. *)
Definition tame (r : Z) (insn : Instruction) : bool :=
  negb (opaque insn) &&
  (negb (writes_destination (in_kind insn)) || (in_destination_register insn =? r) ||
   apart (in_destination_register insn) r).

(** A block that compares a register: its instructions are tame and its flags clean. *)
Definition clean_block (block : Block) : bool :=
  match parse_dispatch_node block with
  | Some node =>
      forallb (tame (dn_reg node)) (bl_instructions block) && flags_clean (tail (rev (bl_instructions block)))
  | None => true
  end.

Lemma tame_keeps insn c c' r :
  tame r insn = true -> r <> kNoRegister ->
  (in_destination_register insn = r -> writes_destination_value insn = false) ->
  exec insn c c' -> cpu_regs c' r = cpu_regs c r.
Proof.
  intros Ht Hr Hw [_ [(Hx & _)|[_ ->]]]; [|done].
  unfold tame in Ht. apply andb_true_iff in Ht as [Ho%negb_true_iff Ha].
  apply (regs_effect_keeps insn c); [done..|]. intros Hwd. rewrite Hwd in Ha. cbn [negb orb] in Ha.
  destruct (Z.eqb_spec (in_destination_register insn) r) as [E|]; [|exact Ha]. exfalso.
  specialize (Hw E). unfold writes_destination_value in Hw.
  destruct (Z.eqb_spec (in_destination_register insn) kNoRegister); [congruence|]. by destruct (in_kind insn).
Qed.

Lemma tame_executes insns c c' r :
  Forall (fun i => tame r i = true) insns -> r <> kNoRegister ->
  Forall (fun i => in_destination_register i = r -> writes_destination_value i = false) insns ->
  executes insns c c' -> cpu_regs c' r = cpu_regs c r.
Proof.
  intros Ht Hr Hw Hx. induction Hx as [|i insns c c1 c2 Hi Hx IH]; [done|].
  apply Forall_cons in Ht as [Hti Ht]. apply Forall_cons in Hw as [Hwi Hw].
  rewrite IH by done. by eapply tame_keeps.
Qed.

Lemma preserve_executes r insns c c' cond :
  Forall (fun i => tame r i = true) insns -> Forall (fun i => in_flag_effect i = Flags_Preserve) insns ->
  executes insns c c' -> cpu_taken c' cond = cpu_taken c cond.
Proof.
  intros Ht Hf Hx. induction Hx as [|i insns c c1 c2 [_ Hi] Hx IH]; [done|].
  apply Forall_cons in Ht as [Hti Ht]. apply Forall_cons in Hf as [Hfi Hf]. rewrite IH by done.
  destruct Hi as [(_ & _ & Hi)|[_ ->]]; [|done].
  unfold flags_effect in Hi. unfold tame in Hti.
  apply andb_true_iff in Hti as [[Hc _]%negb_true_iff%orb_false_iff _].
  rewrite Hc, Hfi in Hi. exact (Hi cond).
Qed.

Lemma flags_clean_spec rev_before compare after :
  in_kind compare = Kind_CompareImmediate -> Forall (fun i => in_kind i <> Kind_CompareImmediate) after ->
  flags_clean (rev (rev rev_before ++ compare :: after)) = true ->
  (in_flag_effect compare = Flags_KnownCompare /\ conditional (in_address compare) = false) /\
  Forall (fun i => in_flag_effect i = Flags_Preserve) after.
Proof.
  intros Hc Ha. rewrite rev_app_distr, rev_involutive. cbn [rev]. rewrite <- app_assoc. cbn [app].
  assert (Forall (fun i => in_kind i <> Kind_CompareImmediate) (rev after)) as Ha' by by apply List.Forall_rev.
  rewrite <- (rev_involutive after) at 2. revert Ha'. generalize (rev after). clear Ha after.
  intros l Hl H.
  enough ((in_flag_effect compare = Flags_KnownCompare /\ conditional (in_address compare) = false) /\
          Forall (fun i => in_flag_effect i = Flags_Preserve) l)
    as [? ?] by (split; [done|by apply List.Forall_rev]).
  induction l as [|i l IH]; cbn [app flags_clean] in H.
  - rewrite Hc in H. cbn in H. by apply andb_true_iff in H as [H%bool_decide_eq_true Hn%negb_true_iff].
  - apply Forall_cons in Hl as [Hi Hl]. rewrite bool_decide_false in H by done.
    apply andb_true_iff in H as [Hf%bool_decide_eq_true H]. destruct (IH Hl H). split; [done|by constructor].
Qed.

(** A node does what it says: the selector goes to its case, anything else to the
    next node, and the state register keeps its value. *)
Lemma node_run block node c a c' :
  parse_dispatch_node block = Some node -> clean_block block = true ->
  Forall insn_typed (bl_instructions block) -> block_run block c a c' ->
  cpu_regs c' (dn_reg node) = cpu_regs c (dn_reg node) /\
  a = if low (dn_width node) (cpu_regs c (dn_reg node)) =? dn_selector node
      then dn_case_target node else dn_next node.
Proof.
  intros Hp Hclean Ht Hrun.
  destruct (parse_dispatch_node_shape block node Hp)
    as (rb & cmp & aft & br & Hb & -> & Hk & _ & Hcond & Hkc & Hd & Hleft & Hw0 & Hw8 & Hna & Hwr).
  unfold clean_block in Hclean. rewrite Hp in Hclean. apply andb_true_iff in Hclean as [Htame Hflags].
  cbn [make_node dn_reg] in Htame.
  assert (rev (bl_instructions block) = br :: rev (rev rb ++ cmp :: aft)) as Hrev.
  { rewrite Hb. change (cmp :: aft ++ [br]) with ((cmp :: aft) ++ [br]). rewrite app_assoc, rev_app_distr. done. }
  unfold block_run in Hrun. rewrite Hrev in Hrun, Hflags. rewrite rev_involutive, Hk in Hrun.
  cbn [tail] in Hflags. destruct (flags_clean_spec rb cmp aft Hkc Hna Hflags) as [[Hfc Hcd] Hfa].
  destruct Hrun as [Hx Ha]. apply executes_app in Hx as (c1 & Hx1 & Hx2).
  inversion Hx2 as [|? ? ? c2 ? Hxc Hx3]; subst.
  assert (Forall (fun i => tame (in_destination_register cmp) i = true) (rev rb) /\ tame (in_destination_register cmp) cmp = true /\
      Forall (fun i => tame (in_destination_register cmp) i = true) aft)
    as (Ht1 & Ht2 & Ht3).
  { rewrite forallb_forall in Htame. rewrite Hb in Htame.
    split_and!; [apply Forall_forall; intros i Hi| |apply Forall_forall; intros i Hi];
      apply Htame, list_elem_of_In; set_solver. }
  apply Forall_app in Hwr as [Hwr1 Hwr2].
  pose proof (tame_executes _ _ _ _ Ht1 Hd Hwr1 Hx1) as E1.
  pose proof (tame_executes _ _ _ _ Ht3 Hd Hwr2 Hx3) as E3.
  assert (cpu_regs c2 (in_destination_register cmp) = cpu_regs c1 (in_destination_register cmp)) as E2.
  { eapply tame_keeps; [done|done| |done]. intros _. unfold writes_destination_value. rewrite Hkc. by destruct (_ =? _). }
  cbn [make_node dn_reg dn_width dn_selector dn_case_target dn_next]. split; [congruence|].
  pose proof (preserve_executes _ _ _ _ (in_condition br) Ht3 Hfa Hx3) as Hpres.
  assert (width_ok (in_value_width cmp)) as Hw.
  { rewrite Forall_forall in Ht. assert (insn_typed cmp) as (_ & _ & Hwt & _) by (apply Ht; rewrite Hb; set_solver).
    unfold width_ok. lia. }
  destruct Hxc as (_ & [(_ & _ & Hfx)|[Hcd' _]]); [|congruence]. unfold flags_effect in Hfx. rewrite Hfc in Hfx.
  unfold tame in Ht2. apply andb_true_iff in Ht2 as [[Hcall _]%negb_true_iff%orb_false_iff _]. rewrite Hcall in Hfx.
  unfold compared in Hfx. rewrite Hleft in Hfx. specialize (Hfx Hw).
  rewrite truncate_low, Hpres by done. rewrite <- E1.
  destruct Hcond as [Hc0|Hc0]; rewrite Hc0.
  - rewrite bool_decide_true by done. by rewrite (Hfx Cond_Zero _ eq_refl).
  - rewrite bool_decide_false by done. rewrite (Hfx Cond_NotZero _ eq_refl). by destruct (_ =? _).
Qed.

(** Blocks that are ready for the theorem: distinct starts, and in a block that compares a
    register no instruction whose effects the parser does not look at. *)
Definition blocks_ok (blocks : list Block) : Prop :=
  NoDup (map bl_start blocks) /\ forallb clean_block blocks = true /\
  Forall (fun b => Forall insn_typed (bl_instructions b)) blocks.

Lemma start_unique (blocks : list Block) b b' :
  NoDup (map bl_start blocks) -> b ∈ blocks -> b' ∈ blocks -> bl_start b = bl_start b' -> b = b'.
Proof.
  induction blocks as [|x blocks IH]; intros Hn Hb Hb' Heq; [by apply elem_of_nil in Hb|].
  cbn in Hn. apply NoDup_cons in Hn as [Hx Hn].
  apply elem_of_cons in Hb as [->|Hb], Hb' as [->|Hb']; [done| | |by apply IH];
    exfalso; apply Hx, list_elem_of_fmap; [by exists b'|by exists b].
Qed.

Lemma goes_node blocks a c a' c' node :
  blocks_ok blocks -> map_find Z.ltb a (collect_nodes blocks) = Some node ->
  goes blocks (a, c) (a', c') ->
  cpu_regs c' (dn_reg node) = cpu_regs c (dn_reg node) /\
  a' = if low (dn_width node) (cpu_regs c (dn_reg node)) =? dn_selector node
       then dn_case_target node else dn_next node.
Proof.
  intros (Hn & Hc & Ht) Hf Hg. destruct (collect_nodes_spec blocks) as [_ Hs].
  destruct (Hs a node Hf) as (b & Hb & Hp & Ha). inversion Hg as [b' ? ? ? Hb' Hr]; subst.
  rewrite (start_unique blocks b' b) in Hr by done.
  rewrite forallb_forall in Hc. rewrite Forall_forall in Ht.
  eapply node_run; [done|by apply Hc, list_elem_of_In|by apply Ht|done].
Qed.

(** While the selectors differ the execution follows the chain. *)
Lemma chain_passes blocks a chain cursor r w v c a' c' :
  blocks_ok blocks -> linked (collect_nodes blocks) a chain cursor ->
  Forall (fun n => dn_reg n = r /\ dn_width n = w /\ dn_selector n <> v) chain ->
  low w (cpu_regs c r) = v -> nsteps (goes blocks) (length chain) (a, c) (a', c') ->
  a' = cursor /\ cpu_regs c' r = cpu_regs c r.
Proof.
  intros Hok. revert a c. induction chain as [|n chain IH]; intros a c Hl Hall Hv Hx; cbn [linked length] in *.
  { inversion Hx; subst. done. }
  apply Forall_cons in Hall as [(Hr & Hw & Hs) Hall]. destruct Hl as [Hf Hl].
  inversion Hx as [|? ? [a1 c1] ? H1 H2]; subst.
  destruct (goes_node blocks a c a1 c1 n Hok Hf H1) as [Hk ->].
  destruct (Z.eqb_spec (low (dn_width n) (cpu_regs c (dn_reg n))) (dn_selector n)); [congruence|].
  rewrite <- Hk. apply (IH _ _ Hl); [exact Hall|by rewrite Hk|done].
Qed.

Lemma linked_app nodes a l1 l2 cursor :
  linked nodes a (l1 ++ l2) cursor <-> exists mid, linked nodes a l1 mid /\ linked nodes mid l2 cursor.
Proof.
  revert a. induction l1 as [|n l1 IH]; intros a; cbn [app linked]; [naive_solver|].
  rewrite IH. naive_solver.
Qed.

(** The first node of a chain with a given selector. *)
Lemma first_selector (chain : list DispatchNode) v :
  Forall (fun n => dn_selector n <> v) chain \/
  exists before n after, chain = before ++ n :: after /\ dn_selector n = v /\
                         Forall (fun n => dn_selector n <> v) before.
Proof.
  induction chain as [|n chain IH]; [by left|]. destruct (Z.eq_dec (dn_selector n) v) as [E|E].
  { right. by exists [], n, chain. }
  destruct IH as [IH|(b & x & a & -> & Hx & Hb)]; [left; by constructor|].
  right. exists (n :: b), x, a. split_and!; [done|done|by constructor].
Qed.

(** What a candidate says of the execution of its blocks. *)
Definition dispatches (blocks : list Block) (d : DispatchCandidate) (c : cpu) : Prop :=
  let r := dc_state_register d in
  let v := low (dc_state_width d) (cpu_regs c r) in
  (forall t, (v, t) ∈ dc_cases d ->
     exists n, (1 <= n <= length (dc_comparison_sites d))%nat /\
       forall a' c', nsteps (goes blocks) n (dc_entry_block d, c) (a', c') ->
                     a' = t /\ cpu_regs c' r = cpu_regs c r) /\
  ((forall t, ~ (v, t) ∈ dc_cases d) ->
     forall a' c' t, nsteps (goes blocks) (length (dc_comparison_sites d)) (dc_entry_block d, c) (a', c') ->
                     dc_default_target d = Some t -> a' = t /\ cpu_regs c' r = cpu_regs c r).

Lemma candidate_dispatches blocks limits d c :
  blocks_ok blocks -> from_chain blocks (collect_nodes blocks) limits d -> dispatches blocks d c.
Proof.
  intros Hok (start & scan & front & rest & targets & Hch & (Hl & _ & _ & _ & Hall) & Hm & _ & ->).
  rewrite Hch in Hall, Hm, Hl.
  destruct (selector_map_spec (front :: rest) [] targets ltac:(constructor) Hm) as (Hmok & _ & Hin & Hfrom).
  set (r := ch_state_reg scan) in *. set (w := dn_width front) in *.
  unfold dispatches. cbn [make_candidate dc_state_register dc_state_width dc_cases dc_comparison_sites
    dc_entry_block dc_default_target]. fold r w. set (v := low w (cpu_regs c r)).
  rewrite length_map, Hch. split.
  - intros t Ht. apply (map_find_elem Z.ltb) in Ht; [|done].
    destruct (first_selector (front :: rest) v) as [Hnone|(b & n & a & Heq & Hsel & Hb)].
    { exfalso. apply Hfrom in Ht as [Ht|(n & Hn & Hs)]; [done|]. rewrite Forall_forall in Hnone. by apply (Hnone n). }
    rewrite Heq in Hl, Hall, Hin |- *. exists (S (length b)). rewrite length_app. cbn [length]. split; [lia|].
    intros a' c' Hx. replace (S (length b)) with (length b + 1)%nat in Hx by lia.
    apply nsteps_add_inv in Hx as ([a1 c1] & Hx1 & Hx2). apply nsteps_once_inv in Hx2.
    apply linked_app in Hl as (mid & Hl1 & Hf & _).
    apply Forall_app in Hall as [Hab [[Hnr Hnw] _]%Forall_cons].
    destruct (chain_passes blocks start b mid r w v c a1 c1 Hok Hl1) as [-> Hk]; [|done|done|].
    { rewrite Forall_forall in Hab, Hb |- *. intros x Hx. destruct (Hab x Hx). split_and!; [done|done|by apply Hb]. }
    destruct (goes_node blocks mid c1 a' c' n Hok Hf Hx2) as [Hk' ->]. rewrite Hnr in Hk'. rewrite Hnr, Hnw, Hk.
    fold v. rewrite Hsel, Z.eqb_refl. split; [|congruence].
    specialize (Hin n ltac:(set_solver)). rewrite Hsel in Hin. congruence.
  - intros Hno a' c' t Hx Hdef.
    destruct (chain_passes blocks start (front :: rest) (ch_cursor scan) r w v c a' c' Hok Hl) as [-> Hk]; [|done|done|].
    + rewrite Forall_forall in Hall |- *. intros n Hn. destruct (Hall n Hn). split_and!; [done|done|].
      intros Hs. apply (Hno (dn_case_target n)). apply (map_find_elem Z.ltb); [done|]. rewrite <- Hs. by apply Hin.
    + split; [|done]. by destruct (_ && _); [injection Hdef as <-|].
Qed.
End Execution.

(** ** Properties *)

(** C27: the search for dispatchers always ends, with an ordered list.  Every chain loop
    visits a block at most once, also when the blocks form cycles, so that the result is
    reached for every input; the candidates are listed by ascending branch address
    without repetition, each has its selectors in ascending order, at least the minimum
    and no more than the maximum number of cases, and no more comparison sites than that
    maximum. *)
Theorem dispatch_search_total blocks limits :
  exists out,
    find_dispatch_candidates blocks limits = Some out /\
    StrictSorted Z.ltb (map dc_site out) /\
    forall d, d ∈ out ->
      StrictSorted Z.ltb (map fst (dc_cases d)) /\
      minimum_dispatch_cases limits <= zlen (dc_cases d) /\
      zlen (dc_cases d) <= zlen (dc_comparison_sites d) <= Z.max 0 (maximum_dispatch_cases limits).
Proof.
  unfold find_dispatch_candidates. destruct (_ || _).
  { exists []. split; [done|]. split; [constructor|]. intros d Hd. by apply elem_of_nil in Hd. }
  destruct (collect_nodes_spec blocks) as [Hok _].
  destruct (starts_loop_total blocks (collect_nodes blocks) limits (chain_starts (collect_nodes blocks)) [] [] Hok
              (collected_named blocks)) as (out & emitted & -> & _ & Hn & Ho).
  { split; [constructor|]. split; [constructor|]. intros d Hd. by apply elem_of_nil in Hd. }
  eexists. split; [reflexivity|]. split.
  { apply (StronglySorted_map dc_site (fun x y => (x <? y) = true)). by apply (sort_by_key_strict Z.ltb dc_site). }
  intros d [_ (start & scan & front & rest & targets & Hch & (_ & _ & _ & Hmax & _) & Hm & Hmin & ->)]%elem_of_std_sort_any%Ho.
  destruct (selector_map_spec _ [] targets ltac:(constructor) Hm) as (Hmok & _).
  cbn [make_candidate dc_cases dc_comparison_sites]. split; [exact Hmok|]. split; [done|].
  assert (zlen (map dn_site (ch_chain scan)) = zlen (ch_chain scan)) as -> by (unfold zlen; by rewrite length_map).
  split; [|done]. apply (selector_map_length _ [] targets ltac:(constructor) Hm).
Qed.

(** C12: a dispatcher candidate maps selectors to the code that runs for them, when the
    parser sees all that its comparison blocks do.  The condition is [blocks_ok]: blocks
    start at distinct addresses, instructions are well typed, and in a block that the parser
    takes for a comparison of the state register no instruction is a call or of kind
    [Other], none writes a register that overlaps the state register, the comparison sets
    the flags and is not skipped, and nothing between it and the branch writes flags.  Then
    take any machine at a candidate's entry block: if the value of its state register,
    at the candidate's width, is a listed selector, then executing blocks from there on the
    machine of DeobfMachine.v
    arrives at the listed target after at most as many blocks as there are comparison
    sites; if it is not listed and there is a default target, then the execution
    arrives there after all the comparisons; the register keeps its value. *)
Theorem dispatch_candidates_sound {P : Processor} blocks limits out d c :
  blocks_ok blocks -> find_dispatch_candidates blocks limits = Some out -> d ∈ out ->
  dispatches blocks d c.
Proof.
  intros Hok. unfold find_dispatch_candidates. destruct (_ || _).
  { intros [= <-] Hd. by apply elem_of_nil in Hd. }
  destruct (collect_nodes_spec blocks) as [Hmok _].
  destruct (starts_loop_total blocks (collect_nodes blocks) limits (chain_starts (collect_nodes blocks)) [] [] Hmok
              (collected_named blocks)) as (out' & emitted & -> & _ & _ & Ho).
  { split; [constructor|]. split; [constructor|]. intros x Hd. by apply elem_of_nil in Hd. }
  intros [= <-] [_ Hf]%elem_of_std_sort_any%Ho. by apply (candidate_dispatches blocks limits).
Qed.

(** A block that compares register 7 with [selector]. *)
Definition sample_compare (address selector : Z) : Instruction :=
  {| in_address := address; in_size := 1; in_kind := Kind_CompareImmediate;
     in_destination_register := 7; in_source_register := kNoRegister; in_destination_name := "state";
     in_source_name := ""; in_value_width := 4; in_immediate := selector; in_target := kBadAddress;
     in_memory_address := kBadAddress; in_condition := Cond_Unknown; in_flag_effect := Flags_KnownCompare;
     in_register_is_left_operand := true; in_alternate_predecessor := false;
     in_writes_global_memory := false; in_plumbing := false |}.

Definition sample_jump (address target : Z) : Instruction :=
  {| in_address := address; in_size := 1; in_kind := Kind_ConditionalBranch;
     in_destination_register := kNoRegister; in_source_register := kNoRegister;
     in_destination_name := ""; in_source_name := ""; in_value_width := 0; in_immediate := 0;
     in_target := target; in_memory_address := kBadAddress; in_condition := Cond_Zero;
     in_flag_effect := Flags_Preserve; in_register_is_left_operand := true;
     in_alternate_predecessor := false; in_writes_global_memory := false; in_plumbing := false |}.

Definition sample_dispatch_block (start selector target : Z) (extra : list Instruction) : Block :=
  {| bl_start := start; bl_end := start + 2; bl_successors := [target; start + 2];
     bl_predecessor_count := 1;
     bl_instructions := sample_compare start selector :: extra ++ [sample_jump (start + 1) target] |}.

Definition sample_blocks : list Block :=
  [sample_dispatch_block 24576 17 28672 []; sample_dispatch_block 24578 34 28688 [];
   sample_dispatch_block 24580 51 28704 []].

Lemma dispatch_candidates_sound_witness :
  exists out d, find_dispatch_candidates sample_blocks default_classifier_limits = Some out /\ d ∈ out /\
    dc_cases d = [(17, 28672); (34, 28688); (51, 28704)] /\ dc_default_target d = Some 24582 /\
    forall c, dispatches (P := plain_processor) sample_blocks d c.
Proof.
  eexists _, _. split; [vm_compute; reflexivity|]. split; [by left|]. split; [reflexivity|]. split; [reflexivity|].
  intros c.
  eapply (dispatch_candidates_sound (P := plain_processor) sample_blocks default_classifier_limits);
    [| |by left].
  - split; [|split].
    + apply (bool_decide_unpack (NoDup (map bl_start sample_blocks))). vm_compute. exact I.
    + reflexivity.
    + repeat (constructor; [repeat (constructor; [decide_ranges|]); constructor|]). constructor.
  - vm_compute. reflexivity.
Defined.

(** Flags set by a test between the comparison and the branch do not stop the parser:
    the branch depends on register 3, the node says it depends on register 7. *)
Example test_before_branch_is_parsed :
  let test := {| in_address := 24577; in_size := 1; in_kind := Kind_TestImmediate;
                 in_destination_register := 3; in_source_register := kNoRegister;
                 in_destination_name := ""; in_source_name := ""; in_value_width := 4; in_immediate := 1;
                 in_target := kBadAddress; in_memory_address := kBadAddress; in_condition := Cond_Unknown;
                 in_flag_effect := Flags_KnownTest; in_register_is_left_operand := true;
                 in_alternate_predecessor := false; in_writes_global_memory := false; in_plumbing := false |} in
  let block := sample_dispatch_block 24576 17 28672 [test] in
  dn_reg <$> parse_dispatch_node block = Some 7 /\ clean_block (P := plain_processor) block = false.
Proof. split; reflexivity. Qed.

(** A closed ring of comparison blocks is analyzed from its lowest address only when no
    other chain has a head: beside another dispatcher the ring is not reported. *)
Definition sample_ring : list Block :=
  let node start selector next :=
    {| bl_start := start; bl_end := start + 2; bl_successors := [start + 2; next];
       bl_predecessor_count := 1;
       bl_instructions :=
         [sample_compare start selector;
          {| in_address := start + 1; in_size := 1; in_kind := Kind_ConditionalBranch;
             in_destination_register := kNoRegister; in_source_register := kNoRegister;
             in_destination_name := ""; in_source_name := ""; in_value_width := 0; in_immediate := 0;
             in_target := next; in_memory_address := kBadAddress; in_condition := Cond_NotZero;
             in_flag_effect := Flags_Preserve; in_register_is_left_operand := true;
             in_alternate_predecessor := false; in_writes_global_memory := false; in_plumbing := false |}] |} in
  [node 40960 1 40976; node 40976 2 40992; node 40992 3 40960].

Example ring_beside_a_chain_is_not_reported :
  map dc_site <$> find_dispatch_candidates sample_ring default_classifier_limits = Some [40961] /\
  map dc_site <$> find_dispatch_candidates (sample_blocks ++ sample_ring) default_classifier_limits = Some [24577].
Proof. split; vm_compute; reflexivity. Qed.
