(* ===== verification/RuntimeText.v ===== *)
(** The text decoders of the runtime enrichment ([src/src/runtime_enrich_core.cpp]):
    [scalar_is_text], the three exact decoders, [append_utf8] and [escaped_preview].
    The decoders accept exactly the encodings (Text.v) of sequences of text scalars and
    return that sequence. *)
From stdpp Require Import base numbers list strings option sets.
From Stdlib Require Import ZArith Init.Byte Lia.
From S2P Require Import Prelude OrderedMap FactTypes Text.

(** ** Encodings and layouts *)

Inductive RuntimeEncoding : Type :=
| RuntimeEncoding_ASCII
| RuntimeEncoding_UTF8
| RuntimeEncoding_UTF16_LE
| RuntimeEncoding_UTF16_BE
| RuntimeEncoding_UTF32_LE
| RuntimeEncoding_UTF32_BE.

Inductive StringLayout : Type :=
| NUL_TERMINATED
| PASCAL8
| PASCAL16
| PASCAL32.

#[export] Instance RuntimeEncoding_eq_dec : EqDecision RuntimeEncoding.
Proof. solve_decision. Defined.

#[export] Instance StringLayout_eq_dec : EqDecision StringLayout.
Proof. solve_decision. Defined.

(** The values of the enumerators, which the orders compare. *)
Definition encoding_value (encoding : RuntimeEncoding) : Z :=
  match encoding with
  | RuntimeEncoding_ASCII => 0
  | RuntimeEncoding_UTF8 => 1
  | RuntimeEncoding_UTF16_LE => 2
  | RuntimeEncoding_UTF16_BE => 3
  | RuntimeEncoding_UTF32_LE => 4
  | RuntimeEncoding_UTF32_BE => 5
  end.

Definition layout_value (layout : StringLayout) : Z :=
  match layout with NUL_TERMINATED => 0 | PASCAL8 => 1 | PASCAL16 => 2 | PASCAL32 => 3 end.

Definition encoding_name (encoding : RuntimeEncoding) : string :=
  match encoding with
  | RuntimeEncoding_ASCII => "ASCII"
  | RuntimeEncoding_UTF8 => "UTF-8"
  | RuntimeEncoding_UTF16_LE => "UTF-16LE"
  | RuntimeEncoding_UTF16_BE => "UTF-16BE"
  | RuntimeEncoding_UTF32_LE => "UTF-32LE"
  | RuntimeEncoding_UTF32_BE => "UTF-32BE"
  end.

Definition layout_name (layout : StringLayout) : string :=
  match layout with
  | NUL_TERMINATED => "NUL-terminated"
  | PASCAL8 => "Pascal-8"
  | PASCAL16 => "Pascal-16"
  | PASCAL32 => "Pascal-32"
  end.

Definition layout_prefix_size (layout : StringLayout) : Z :=
  match layout with NUL_TERMINATED => 0 | PASCAL8 => 1 | PASCAL16 => 2 | PASCAL32 => 4 end.

(** ** Which scalars are evidence of text *)

Definition scalar_is_text (cp : Z) : bool :=
  if (cp =? 9) || (cp =? 10) || (cp =? 13) then true
  else if (cp <? 0x20) || ((0x7f <=? cp) && (cp <=? 0x9f)) then false
  else if ((0xe000 <=? cp) && (cp <=? 0xf8ff)) || ((0xf0000 <=? cp) && (cp <=? 0xffffd)) ||
          ((0x100000 <=? cp) && (cp <=? 0x10fffd)) || ((0xfdd0 <=? cp) && (cp <=? 0xfdef)) ||
          (0xfffe <=? Z.land cp 0xffff)
  then false
  else (cp <=? 0x10ffff) && negb ((0xd800 <=? cp) && (cp <=? 0xdfff)).

(** ** Decoders

    The pointer and the remaining size are the list of the remaining bytes. *)

Definition read_u16 (a b : byte) (big_endian : bool) : Z :=
  if big_endian then Z.lor (Z.shiftl (b2z a) 8) (b2z b)
  else Z.lor (b2z a) (Z.shiftl (b2z b) 8).

Definition read_u32 (a b c d : byte) (big_endian : bool) : Z :=
  if big_endian
  then Z.lor (Z.lor (Z.lor (Z.shiftl (b2z a) 24) (Z.shiftl (b2z b) 16))
                    (Z.shiftl (b2z c) 8)) (b2z d)
  else Z.lor (Z.lor (Z.lor (b2z a) (Z.shiftl (b2z b) 8)) (Z.shiftl (b2z c) 16))
             (Z.shiftl (b2z d) 24).

(** The loop of a decoder around its body: [step] consumes the bytes of one code
    point, [push] keeps it.  Every turn consumes a byte, so the length is enough fuel. *)
Fixpoint decode_loop {S} (step : bytes -> option (Z * bytes)) (push : S -> Z -> S)
    (fuel : nat) (bs : bytes) (acc : S) : option S :=
  match bs, fuel with
  | [], _ => Some acc
  | _, O => None
  | _, Datatypes.S fuel' =>
      match step bs with
      | None => None
      | Some (cp, rest) => decode_loop step push fuel' rest (push acc cp)
      end
  end.

Definition push_back (result : list Z) (cp : Z) : list Z := result ++ [cp].

(** Initial bits of the code point and the number of continuation bytes. *)
Definition utf8_first (first : Z) : option (Z * nat) :=
  if first <? 0x80 then Some (first, 0%nat)
  else if (0xc2 <=? first) && (first <=? 0xdf) then Some (Z.land first 0x1f, 1%nat)
  else if (0xe0 <=? first) && (first <=? 0xef) then Some (Z.land first 0x0f, 2%nat)
  else if (0xf0 <=? first) && (first <=? 0xf4) then Some (Z.land first 0x07, 3%nat)
  else None.

Definition utf8_step (bs : bytes) : option (Z * bytes) :=
  match bs with
  | [] => None
  | b :: r =>
      match utf8_first (b2z b) with
      | None => None
      | Some (cp, extra) =>
          if zlen bs <=? Z.of_nat extra then None
          else
            match utf8_continuations extra cp r with
            | None => None
            | Some (cp, rest) =>
                if (Nat.eqb extra 2 && (cp <? 0x800)) || (Nat.eqb extra 3 && (cp <? 0x10000)) ||
                   negb (scalar_is_text cp)
                then None else Some (cp, rest)
            end
      end
  end.

Definition utf8_push (acc : bool * list Z) (cp : Z) : bool * list Z :=
  (acc.1 && (cp <? 0x80), push_back acc.2 cp).

Definition decode_utf8_exact (bs : bytes) (minimum_characters : Z) :
    option (list Z * RuntimeEncoding) :=
  match decode_loop utf8_step utf8_push (length bs) bs (true, []) with
  | None => None
  | Some (all_ascii, result) =>
      if zlen result <? minimum_characters then None
      else Some (result, if all_ascii then RuntimeEncoding_ASCII else RuntimeEncoding_UTF8)
  end.

Definition utf16_step (big_endian : bool) (bs : bytes) : option (Z * bytes) :=
  match bs with
  | a :: b :: r =>
      let first := read_u16 a b big_endian in
      if (0xd800 <=? first) && (first <=? 0xdbff) then
        match r with
        | c :: d :: r' =>
            let second := read_u16 c d big_endian in
            if (second <? 0xdc00) || (0xdfff <? second) then None
            else
              let cp := 0x10000 + Z.lor (Z.shiftl (first - 0xd800) 10) (second - 0xdc00) in
              if negb (scalar_is_text cp) then None else Some (cp, r')
        | _ => None
        end
      else if (0xdc00 <=? first) && (first <=? 0xdfff) then None
      else if negb (scalar_is_text first) then None else Some (first, r)
  | _ => None
  end.

Definition decode_utf16_exact (bs : bytes) (big_endian : bool) (minimum_characters : Z) :
    option (list Z) :=
  if (zlen bs =? 0) || negb (zlen bs mod 2 =? 0) then None
  else
    match decode_loop (utf16_step big_endian) push_back (length bs) bs [] with
    | None => None
    | Some result => if zlen result <? minimum_characters then None else Some result
    end.

Definition utf32_step (big_endian : bool) (bs : bytes) : option (Z * bytes) :=
  match bs with
  | a :: b :: c :: d :: r =>
      let cp := read_u32 a b c d big_endian in
      if negb (scalar_is_text cp) then None else Some (cp, r)
  | _ => None
  end.

Definition decode_utf32_exact (bs : bytes) (big_endian : bool) (minimum_characters : Z) :
    option (list Z) :=
  if (zlen bs =? 0) || negb (zlen bs mod 4 =? 0) then None
  else
    match decode_loop (utf32_step big_endian) push_back (length bs) bs [] with
    | None => None
    | Some result => if zlen result <? minimum_characters then None else Some result
    end.

(** ** Previews *)

Definition append_utf8 (out : bytes) (cp : Z) : bytes :=
  if cp <=? 0x7f then out ++ [z2b cp]
  else if cp <=? 0x7ff then
    out ++ [z2b (Z.lor 0xc0 (Z.shiftr cp 6)); z2b (Z.lor 0x80 (Z.land cp 0x3f))]
  else if cp <=? 0xffff then
    out ++ [z2b (Z.lor 0xe0 (Z.shiftr cp 12));
            z2b (Z.lor 0x80 (Z.land (Z.shiftr cp 6) 0x3f)); z2b (Z.lor 0x80 (Z.land cp 0x3f))]
  else
    out ++ [z2b (Z.lor 0xf0 (Z.shiftr cp 18));
            z2b (Z.lor 0x80 (Z.land (Z.shiftr cp 12) 0x3f));
            z2b (Z.lor 0x80 (Z.land (Z.shiftr cp 6) 0x3f)); z2b (Z.lor 0x80 (Z.land cp 0x3f))].

(** One turn of the preview's loop: a backslash before the characters that need one. *)
Definition append_escaped (out : bytes) (cp : Z) : bytes :=
  if cp =? 92 then out ++ [x5c; x5c]
  else if cp =? 34 then out ++ [x5c; x22]
  else if cp =? 10 then out ++ [x5c; x6e]
  else if cp =? 13 then out ++ [x5c; x72]
  else if cp =? 9 then out ++ [x5c; x74]
  else append_utf8 out cp.

Fixpoint preview_loop (codepoints : list Z) (shown : Z) (out : bytes) : bytes :=
  match codepoints with
  | [] => out
  | cp :: rest =>
      if (shown =? 80) || (160 <? zlen out) then out ++ str_bytes "..."
      else preview_loop rest (shown + 1) (append_escaped out cp)
  end.

Definition escaped_preview (codepoints : list Z) : bytes := preview_loop codepoints 0 [].

Example preview_example :
  bytes_str (escaped_preview [72; 105; 10; 34]) = bytes_str ([x48; x69; x5c; x6e; x5c; x22]).
Proof. reflexivity. Qed.

(** ** What text is (The Unicode Standard, chapters 3 and 23) *)

Definition control (cp : Z) : Prop := 0 <= cp < 0x20 \/ 0x7f <= cp <= 0x9f.

Definition private_use (cp : Z) : Prop :=
  0xe000 <= cp <= 0xf8ff \/ 0xf0000 <= cp <= 0xffffd \/ 0x100000 <= cp <= 0x10fffd.

Definition noncharacter (cp : Z) : Prop :=
  0xfdd0 <= cp <= 0xfdef \/ 0xfffe <= cp mod 65536.

(** A scalar with a meaning of its own; of the controls only tab, line feed and
    carriage return. *)
Definition text_scalar (cp : Z) : Prop :=
  scalar cp /\ ~ private_use cp /\ ~ noncharacter cp /\
  (control cp -> cp = 9 \/ cp = 10 \/ cp = 13).

(** The bytes of [cps] in a runtime encoding. *)
Definition runtime_encode (encoding : RuntimeEncoding) (cps : list Z) : bytes :=
  match encoding with
  | RuntimeEncoding_ASCII | RuntimeEncoding_UTF8 => concat (map utf8_encode cps)
  | RuntimeEncoding_UTF16_LE => concat (map (utf16_encode true) cps)
  | RuntimeEncoding_UTF16_BE => concat (map (utf16_encode false) cps)
  | RuntimeEncoding_UTF32_LE => concat (map (utf32_encode true) cps)
  | RuntimeEncoding_UTF32_BE => concat (map (utf32_encode false) cps)
  end.

Definition all_ascii (cps : list Z) : bool := forallb (fun cp => cp <? 0x80) cps.

Lemma scalar_is_text_iff cp : 0 <= cp -> scalar_is_text cp = true <-> text_scalar cp.
Proof.
  intros H0. unfold scalar_is_text, text_scalar, scalar, private_use, noncharacter, control.
  change 0xffff with (Z.ones 16). rewrite Z.land_ones by lia. change (2 ^ 16) with 65536.
  assert (0 <= cp mod 65536 < 65536) by (apply Z.mod_pos_bound; lia).
  destruct (Z.eqb_spec cp 9); [split; [intros _; split_and!; div_mod_lia|done]|].
  destruct (Z.eqb_spec cp 10); [split; [intros _; split_and!; div_mod_lia|done]|].
  destruct (Z.eqb_spec cp 13); [split; [intros _; split_and!; div_mod_lia|done]|].
  cbn [orb]. bool_cases; (split; [intros [=]; split_and!; lia|intros (? & ? & ? & ?); lia]).
Qed.

Lemma text_scalar_range cp : text_scalar cp -> 0 <= cp <= 0x10ffff.
Proof. by intros [[? _] _]. Qed.

Lemma text_scalar_true cp : text_scalar cp -> scalar_is_text cp = true.
Proof. intros H. apply scalar_is_text_iff; [apply (text_scalar_range _ H)|done]. Qed.

(** ** The loop

    What an exact body gives its loop: the code points are exactly those whose
    encodings make up the input. *)
Section DecodeLoop.
Context {S : Type} (step : bytes -> option (Z * bytes)) (push : S -> Z -> S).
Context (encode : Z -> bytes).
Hypothesis step_iff : forall bs cp rest,
  step bs = Some (cp, rest) <-> text_scalar cp /\ bs = encode cp ++ rest.
Hypothesis encode_nonempty : forall cp, (0 < length (encode cp))%nat.

Lemma decode_loop_complete fuel cps acc :
  Forall text_scalar cps -> (length (concat (map encode cps)) <= fuel)%nat ->
  decode_loop step push fuel (concat (map encode cps)) acc = Some (foldl push acc cps).
Proof.
  intros H. revert fuel acc. induction H as [|cp cps Hcp _ IH]; intros fuel acc Hf;
    [by destruct fuel|].
  cbn [map concat foldl] in *. rewrite length_app in Hf. pose proof (encode_nonempty cp).
  destruct (encode cp) as [|b e] eqn:E; [simpl in *; lia|].
  assert (step ((b :: e) ++ concat (map encode cps)) = Some (cp, concat (map encode cps))) as Hs
    by (apply step_iff; by rewrite E).
  destruct fuel as [|fuel]; [simpl in *; lia|]. cbn [app decode_loop]. cbn [app] in Hs.
  rewrite Hs. apply IH. simpl in *. lia.
Qed.

Lemma decode_loop_sound fuel bs acc acc' :
  decode_loop step push fuel bs acc = Some acc' ->
  exists cps, Forall text_scalar cps /\ bs = concat (map encode cps) /\ acc' = foldl push acc cps.
Proof.
  revert bs acc. induction fuel as [|fuel IH]; intros [|b bs] acc; cbn [decode_loop].
  1, 3: intros [= <-]; by exists []. 1: done.
  destruct (step (b :: bs)) as [[cp rest]|] eqn:E; [|done].
  apply step_iff in E as [Hcp ->]. intros (cps & Hcps & -> & ->)%IH.
  exists (cp :: cps). split_and!; [by constructor|done|done].
Qed.

Lemma decode_loop_iff bs acc acc' :
  decode_loop step push (length bs) bs acc = Some acc' <->
  exists cps, Forall text_scalar cps /\ bs = concat (map encode cps) /\ acc' = foldl push acc cps.
Proof.
  split; [apply decode_loop_sound|]. intros (cps & H & -> & ->).
  by apply decode_loop_complete.
Qed.
End DecodeLoop.

Lemma foldl_push_back cps acc : foldl push_back acc cps = acc ++ cps.
Proof.
  revert acc. induction cps as [|cp cps IH]; intros acc; cbn [foldl]; [by rewrite app_nil_r|].
  rewrite IH. unfold push_back. by rewrite <- app_assoc.
Qed.

Lemma foldl_utf8_push cps acc :
  foldl utf8_push acc cps = (acc.1 && all_ascii cps, acc.2 ++ cps).
Proof.
  revert acc. induction cps as [|cp cps IH]; intros [a l]; cbn [foldl].
  { cbn. by rewrite andb_true_r, app_nil_r. }
  rewrite IH. unfold utf8_push, push_back. cbn [fst snd all_ascii forallb].
  by rewrite <- app_assoc, andb_assoc.
Qed.

(** ** The bodies *)

Lemma read_u16_text a b be : read_u16 a b be = read_u16_code_unit a b (negb be).
Proof. by destruct be. Qed.

Lemma read_u32_text a b c d be : read_u32 a b c d be = read_u32_code_unit a b c d (negb be).
Proof. by destruct be. Qed.

Lemma utf8_first_value (b : byte) :
  utf8_first (b2z b) =
    if b2z b <? 0x80 then Some (b2z b, 0%nat)
    else if (0xc2 <=? b2z b) && (b2z b <=? 0xdf) then Some (b2z b - 0xc0, 1%nat)
    else if (0xe0 <=? b2z b) && (b2z b <=? 0xef) then Some (b2z b - 0xe0, 2%nat)
    else if (0xf0 <=? b2z b) && (b2z b <=? 0xf4) then Some (b2z b - 0xf0, 3%nat)
    else None.
Proof. by destruct b. Qed.

Lemma utf8_step_complete cp rest :
  text_scalar cp -> utf8_step (utf8_encode cp ++ rest) = Some (cp, rest).
Proof.
  intros Ht. pose proof (text_scalar_true cp Ht) as Hb. destruct Ht as [[Hr Hs] _].
  unfold utf8_encode. pose proof (zlen_nonneg rest).
  destruct (Z.ltb_spec cp 0x80); [|destruct (Z.ltb_spec cp 0x800);
    [|destruct (Z.ltb_spec cp 0x10000)]];
    cbn [app utf8_step]; rewrite utf8_first_value, !zlen_cons, !b2z_z2b.
  - bool_cases. cbn [utf8_continuations Nat.eqb]. rewrite Z.mod_small by lia. cbn [andb orb].
    by rewrite Hb.
  - bool_cases. rewrite !utf8_continuations_step, !b2z_z2b. bool_cases.
    cbn [utf8_continuations Nat.eqb andb orb].
    replace (_ + _) with cp by div_mod_lia. by rewrite Hb.
  - bool_cases. rewrite !utf8_continuations_step, !b2z_z2b. bool_cases.
    cbn [utf8_continuations Nat.eqb andb orb].
    replace (_ * 64 + _) with cp by div_mod_lia. bool_cases. by rewrite Hb.
  - bool_cases. rewrite !utf8_continuations_step, !b2z_z2b. bool_cases.
    cbn [utf8_continuations Nat.eqb andb orb].
    replace (_ * 64 + _) with cp by div_mod_lia. bool_cases. by rewrite Hb.
Qed.

Lemma utf8_step_sound bs cp rest :
  utf8_step bs = Some (cp, rest) -> text_scalar cp /\ bs = utf8_encode cp ++ rest.
Proof.
  assert (forall v, 0 <= v -> negb (scalar_is_text v) = false -> text_scalar v) as Htext.
  { intros v Hv Hn. apply scalar_is_text_iff; [done|]. by apply negb_false_iff. }
  destruct bs as [|b r]; [done|]. cbn [utf8_step]. rewrite utf8_first_value.
  pose proof (b2z_range b). intros Hv. destruct (b2z b <? 0x80) eqn:E1.
  { cbn [utf8_continuations Nat.eqb andb orb] in Hv. accepted; try done.
    injection Hv as <- <-. split; [apply Htext; [lia|done]|]. unfold utf8_encode. bool_cases.
    cbn [app]. by rewrite z2b_b2z. }
  destruct ((0xc2 <=? b2z b) && (b2z b <=? 0xdf)) eqn:E2;
    [|destruct ((0xe0 <=? b2z b) && (b2z b <=? 0xef)) eqn:E3;
      [|destruct ((0xf0 <=? b2z b) && (b2z b <=? 0xf4)) eqn:E4; [|done]]].
  - destruct r as [|c1 r]; [done|]. rewrite !utf8_continuations_step in Hv.
    cbn [utf8_continuations Nat.eqb] in Hv. pose proof (b2z_range c1). accepted; try done.
    injection Hv as <- <-. split; [apply Htext; [lia|done]|].
    unfold utf8_encode. bool_cases.
    cbn [app]. repeat f_equal; symmetry; apply z2b_eq; div_mod_lia.
  - destruct r as [|c1 [|c2 r]]; [done|by accepted|]. rewrite !utf8_continuations_step in Hv.
    cbn [utf8_continuations Nat.eqb] in Hv. pose proof (b2z_range c1). pose proof (b2z_range c2).
    accepted; try done;
    (injection Hv as <- <-; split; [apply Htext; [lia|done]|];
     unfold utf8_encode; bool_cases;
     cbn [app]; repeat f_equal; symmetry; apply z2b_eq; div_mod_lia).
  - destruct r as [|c1 [|c2 [|c3 r]]]; [done|by accepted|by accepted|].
    rewrite !utf8_continuations_step in Hv.
    cbn [utf8_continuations Nat.eqb] in Hv. pose proof (b2z_range c1). pose proof (b2z_range c2).
    pose proof (b2z_range c3). accepted; try done;
    (injection Hv as <- <-; 
     match goal with H : negb (scalar_is_text _) = false |- _ => apply Htext in H; [|lia] end;
     match goal with H : text_scalar _ |- _ => pose proof (text_scalar_range _ H) end;
     split; [done|]; unfold utf8_encode; bool_cases;
     cbn [app]; repeat f_equal; symmetry; apply z2b_eq; div_mod_lia).
Qed.

Lemma utf8_step_iff bs cp rest :
  utf8_step bs = Some (cp, rest) <-> text_scalar cp /\ bs = utf8_encode cp ++ rest.
Proof.
  split; [apply utf8_step_sound|]. intros [H ->]. by apply utf8_step_complete.
Qed.

Lemma utf16_step_complete be cp rest :
  text_scalar cp -> utf16_step be (utf16_encode (negb be) cp ++ rest) = Some (cp, rest).
Proof.
  intros Ht. pose proof (text_scalar_true cp Ht) as Hb. destruct Ht as [[Hr Hs] _].
  unfold utf16_encode. destruct (Z.ltb_spec cp 0x10000).
  - destruct (unit16_two (negb be) cp) as (a & b & Hab).
    pose proof (read_unit16 (negb be) cp a b ltac:(lia) Hab) as Hu.
    rewrite Hab. cbn [app utf16_step]. rewrite read_u16_text, Hu. bool_cases; by rewrite Hb.
  - set (hi := 0xd800 + (cp - 0x10000) / 1024). set (lo := 0xdc00 + (cp - 0x10000) mod 1024).
    assert (0xd800 <= hi <= 0xdbff) by (unfold hi; div_mod_lia).
    assert (0xdc00 <= lo <= 0xdfff) by (unfold lo; div_mod_lia).
    destruct (unit16_two (negb be) hi) as (a & b & Hab), (unit16_two (negb be) lo) as (c & d & Hcd).
    rewrite Hab, Hcd. cbn [app utf16_step].
    rewrite !read_u16_text, (read_unit16 _ hi a b ltac:(lia) Hab), (read_unit16 _ lo c d ltac:(lia) Hcd).
    bool_cases. rewrite lor_shiftl_add by lia.
    replace (0x10000 + _) with cp by (unfold hi, lo; div_mod_lia). by rewrite Hb.
Qed.

Lemma utf16_step_sound be bs cp rest :
  utf16_step be bs = Some (cp, rest) -> text_scalar cp /\ bs = utf16_encode (negb be) cp ++ rest.
Proof.
  destruct bs as [|a [|b r]]; [done..|]. cbn [utf16_step].
  assert (forall a b, 0 <= read_u16 a b be < 65536) as Hrange.
  { intros x y. rewrite read_u16_text, read_u16_value.
    pose proof (b2z_range x). pose proof (b2z_range y). destruct (negb be); lia. }
  pose proof (Hrange a b). intros Hv. pose proof (unit16_read (negb be) a b) as Hu.
  rewrite <- read_u16_text in Hu. set (u := read_u16 a b be) in *.
  destruct ((0xd800 <=? u) && (u <=? 0xdbff)) eqn:Ehi.
  - destruct r as [|c [|d r]]; [done..|]. pose proof (Hrange c d).
    pose proof (unit16_read (negb be) c d) as Hl. rewrite <- read_u16_text in Hl.
    set (l := read_u16 c d be) in *.
    destruct ((l <? 0xdc00) || (0xdfff <? l)) eqn:Elo; [done|].
    apply orb_false_iff in Elo as [? ?]. apply andb_true_iff in Ehi as [? ?].
    rewrite lor_shiftl_add in Hv by lia. destruct (negb (scalar_is_text _)) eqn:Et; [done|].
    injection Hv as <- <-. split; [apply scalar_is_text_iff; [lia|by apply negb_false_iff]|].
    unfold utf16_encode. bool_cases. rewrite <- app_assoc.
    replace (0xd800 + _) with u by div_mod_lia. replace (0xdc00 + _) with l by div_mod_lia.
    by rewrite Hu, Hl.
  - destruct ((0xdc00 <=? u) && (u <=? 0xdfff)); [done|].
    destruct (negb (scalar_is_text u)) eqn:Et; [done|]. injection Hv as <- <-.
    split; [apply scalar_is_text_iff; [lia|by apply negb_false_iff]|].
    unfold utf16_encode. bool_cases. by rewrite Hu.
Qed.

Lemma utf16_step_iff be bs cp rest :
  utf16_step be bs = Some (cp, rest) <-> text_scalar cp /\ bs = utf16_encode (negb be) cp ++ rest.
Proof.
  split; [apply utf16_step_sound|]. intros [H ->]. by apply utf16_step_complete.
Qed.

Lemma utf32_step_iff be bs cp rest :
  utf32_step be bs = Some (cp, rest) <-> text_scalar cp /\ bs = utf32_encode (negb be) cp ++ rest.
Proof.
  split.
  - destruct bs as [|a [|b [|c [|d r]]]]; [done..|]. cbn [utf32_step].
    pose proof (utf32_encode_read (negb be) a b c d) as Hr. rewrite <- read_u32_text in Hr.
    assert (0 <= read_u32 a b c d be) as H0.
    { rewrite read_u32_text, read_u32_value. pose proof (b2z_range a). pose proof (b2z_range b).
      pose proof (b2z_range c). pose proof (b2z_range d). destruct (negb be); lia. }
    destruct (negb (scalar_is_text _)) eqn:Et; [done|]. intros [= <- <-]. rewrite Hr.
    split; [apply scalar_is_text_iff; [done|by apply negb_false_iff]|done].
  - intros [Ht ->]. pose proof (text_scalar_true cp Ht) as Hb.
    destruct (utf32_encode_bytes (negb be) cp (proj1 Ht)) as (a & b & c & d & -> & Hread).
    cbn [app utf32_step]. by rewrite read_u32_text, Hread, Hb.
Qed.

Lemma utf16_encode_nonempty le cp : (0 < length (utf16_encode le cp))%nat.
Proof. unfold utf16_encode, unit16. repeat case_match; simpl; lia. Qed.

Lemma utf32_encode_length le cp : length (utf32_encode le cp) = 4%nat.
Proof. by destruct le. Qed.

Lemma utf32_encode_nonempty le cp : (0 < length (utf32_encode le cp))%nat.
Proof. rewrite utf32_encode_length. lia. Qed.

Lemma utf32_concat_length le cps : zlen (concat (map (utf32_encode le) cps)) = 4 * zlen cps.
Proof.
  induction cps as [|cp cps IH]; [done|]. cbn [map concat]. rewrite zlen_app, zlen_cons, IH.
  unfold zlen. rewrite utf32_encode_length. lia.
Qed.

(** ** The decoders *)

Lemma decode_utf8_iff bs minimum cps encoding :
  decode_utf8_exact bs minimum = Some (cps, encoding) <->
  Forall text_scalar cps /\ bs = concat (map utf8_encode cps) /\ minimum <= zlen cps /\
  encoding = if all_ascii cps then RuntimeEncoding_ASCII else RuntimeEncoding_UTF8.
Proof.
  pose proof (decode_loop_iff utf8_step utf8_push utf8_encode utf8_step_iff utf8_encode_nonempty
                bs (true, [])) as Hl.
  unfold decode_utf8_exact. split.
  - destruct (decode_loop _ _ _ _ _) as [[a result]|]; [|done].
    destruct (proj1 (Hl _) eq_refl) as (l & H & -> & Heq).
    rewrite foldl_utf8_push in Heq. injection Heq as -> ->. cbn [fst snd app andb].
    destruct (Z.ltb_spec (zlen l) minimum); [done|]. by intros [= -> ->].
  - intros (H & Hb & Hm & ->).
    rewrite (proj2 (Hl (all_ascii cps, cps))).
    + by destruct (Z.ltb_spec (zlen cps) minimum); [lia|].
    + exists cps. by rewrite foldl_utf8_push.
Qed.

(** The fixed-width decoders, which reject the empty input and other lengths first. *)
Lemma decode_units_iff (unit : Z) step encode bs minimum cps :
  (forall bs cp rest, step bs = Some (cp, rest) <-> text_scalar cp /\ bs = encode cp ++ rest) ->
  (forall cp, (0 < length (encode cp))%nat) ->
  (forall cps, zlen (concat (map encode cps)) mod unit = 0) ->
  (if (zlen bs =? 0) || negb (zlen bs mod unit =? 0) then None
   else
     match decode_loop step push_back (length bs) bs [] with
     | None => None
     | Some result => if zlen result <? minimum then None else Some result
     end) = Some cps <->
  cps <> [] /\ Forall text_scalar cps /\ bs = concat (map encode cps) /\ minimum <= zlen cps.
Proof.
  intros Hs Hne Hu.
  pose proof (decode_loop_iff step push_back encode Hs Hne bs []) as Hl. split.
  - destruct (Z.eqb_spec (zlen bs) 0) as [|H0]; [done|].
    destruct (negb _); [done|]. cbn [orb].
    destruct (decode_loop _ _ _ _ _) as [result|]; [|done].
    destruct (proj1 (Hl _) eq_refl) as (l & H & -> & Heq).
    rewrite foldl_push_back in Heq. subst result. cbn [app].
    destruct (Z.ltb_spec (zlen l) minimum); [done|]. intros [= ->].
    split_and!; [by intros ->|done..].
  - intros (H0 & H & Hb & Hm). rewrite (proj2 (Hl cps)) by (exists cps; by rewrite foldl_push_back).
    rewrite (proj2 (Z.eqb_eq (zlen bs mod unit) 0)) by (rewrite Hb; apply Hu).
    destruct (Z.eqb_spec (zlen bs) 0) as [Hz|_].
    + destruct cps as [|cp cps]; [done|]. subst bs. cbn [map concat] in Hz.
      rewrite zlen_app in Hz. pose proof (zlen_nonneg (concat (map encode cps))).
      specialize (Hne cp). unfold zlen in *. lia.
    + cbn [orb negb]. by destruct (Z.ltb_spec (zlen cps) minimum); [lia|].
Qed.

Lemma decode_utf16_iff bs be minimum cps :
  decode_utf16_exact bs be minimum = Some cps <->
  cps <> [] /\ Forall text_scalar cps /\ bs = concat (map (utf16_encode (negb be)) cps) /\
  minimum <= zlen cps.
Proof.
  apply decode_units_iff; [apply utf16_step_iff|apply utf16_encode_nonempty|].
  intros l. destruct (utf16_concat_length (negb be) l) as [k Hk]. unfold zlen. rewrite Hk.
  div_mod_lia.
Qed.

Lemma decode_utf32_iff bs be minimum cps :
  decode_utf32_exact bs be minimum = Some cps <->
  cps <> [] /\ Forall text_scalar cps /\ bs = concat (map (utf32_encode (negb be)) cps) /\
  minimum <= zlen cps.
Proof.
  apply decode_units_iff; [apply utf32_step_iff|apply utf32_encode_nonempty|].
  intros l. rewrite utf32_concat_length. div_mod_lia.
Qed.

(** Text is determined by its bytes. *)
Lemma runtime_encode_inj encoding cps1 cps2 :
  Forall text_scalar cps1 -> Forall text_scalar cps2 ->
  runtime_encode encoding cps1 = runtime_encode encoding cps2 -> cps1 = cps2.
Proof.
  intros H1 H2.
  assert (forall (step : bytes -> option (Z * bytes)) (encode : Z -> bytes),
    (forall bs cp rest, step bs = Some (cp, rest) <-> text_scalar cp /\ bs = encode cp ++ rest) ->
    (forall cp, (0 < length (encode cp))%nat) ->
    concat (map encode cps1) = concat (map encode cps2) -> cps1 = cps2) as Hgen.
  { intros step encode Hs Hne Heq.
    pose proof (decode_loop_complete step push_back encode Hs Hne _ cps1 [] H1 (le_n _)) as E1.
    rewrite Heq, (decode_loop_complete step push_back encode Hs Hne _ cps2 [] H2) in E1 by lia.
    rewrite !foldl_push_back in E1. by injection E1. }
  destruct encoding; cbn [runtime_encode].
  1, 2: apply (Hgen _ _ utf8_step_iff utf8_encode_nonempty).
  - apply (Hgen _ _ (utf16_step_iff false) (utf16_encode_nonempty true)).
  - apply (Hgen _ _ (utf16_step_iff true) (utf16_encode_nonempty false)).
  - apply (Hgen _ _ (utf32_step_iff false) (utf32_encode_nonempty true)).
  - apply (Hgen _ _ (utf32_step_iff true) (utf32_encode_nonempty false)).
Qed.

(** ** Previews *)

Lemma lor_low a b k : 0 <= k -> 0 <= b < 2 ^ k -> a mod 2 ^ k = 0 -> Z.lor a b = a + b.
Proof.
  intros Hk Hb Ha. pose proof (lor_shiftl_add (a / 2 ^ k) b k Hk Hb) as H.
  rewrite Z.shiftl_mul_pow2 in H by done.
  replace (a / 2 ^ k * 2 ^ k) with a in H; [done|].
  pose proof (Z.div_mod a (2 ^ k) ltac:(apply Z.pow_nonzero; lia)). lia.
Qed.

Lemma append_utf8_encode out cp : 0 <= cp <= 0x10ffff -> append_utf8 out cp = out ++ utf8_encode cp.
Proof.
  intros Hr. unfold append_utf8, utf8_encode.
  assert (forall v, Z.land v 0x3f = v mod 64) as Hl.
  { intros v. change 0x3f with (Z.ones 6). by rewrite Z.land_ones. }
  rewrite !Hl, !Z.shiftr_div_pow2 by lia.
  change (2 ^ 6) with 64. change (2 ^ 12) with 4096. change (2 ^ 18) with 262144.
  assert (forall v, Z.lor 0x80 (v mod 64) = 0x80 + v mod 64) as H80.
  { intros v. apply (lor_low _ _ 6); [lia| |done]. apply Z.mod_pos_bound. lia. }
  rewrite !H80. bool_cases; [done|..]; repeat f_equal.
  - apply (lor_low _ _ 5); [lia|div_mod_lia|done].
  - apply (lor_low _ _ 4); [lia|div_mod_lia|done].
  - apply (lor_low _ _ 3); [lia|div_mod_lia|done].
Qed.

(** What the preview shows for a code point. *)
Definition escaped (cp : Z) : list Z :=
  if bool_decide (cp = 92 \/ cp = 34) then [92; cp]
  else if bool_decide (cp = 10) then [92; 110]
  else if bool_decide (cp = 13) then [92; 114]
  else if bool_decide (cp = 9) then [92; 116]
  else [cp].

Definition utf8 (cps : list Z) : bytes := concat (map utf8_encode cps).

Lemma utf8_app l1 l2 : utf8 (l1 ++ l2) = utf8 l1 ++ utf8 l2.
Proof. unfold utf8. by rewrite map_app, concat_app. Qed.

Lemma append_escaped_spec out cp :
  0 <= cp <= 0x10ffff -> append_escaped out cp = out ++ utf8 (escaped cp).
Proof.
  intros Hr. unfold append_escaped, escaped.
  destruct (Z.eqb_spec cp 92) as [->|]; [done|]. destruct (Z.eqb_spec cp 34) as [->|]; [done|].
  rewrite (bool_decide_eq_false_2 (cp = 92 \/ cp = 34)) by lia.
  destruct (Z.eqb_spec cp 10) as [->|]; [done|]. destruct (Z.eqb_spec cp 13) as [->|]; [done|].
  destruct (Z.eqb_spec cp 9) as [->|]; [done|].
  rewrite !bool_decide_eq_false_2 by done. unfold utf8. cbn [map concat].
  rewrite app_nil_r. by apply append_utf8_encode.
Qed.

Lemma escaped_size cp : 0 <= cp <= 0x10ffff -> zlen (utf8 (escaped cp)) <= 4.
Proof.
  intros Hr. unfold escaped.
  destruct (bool_decide_reflect (cp = 92 \/ cp = 34)) as [[->| ->]|]; [done..|].
  repeat case_bool_decide; try done. unfold utf8. cbn [map concat]. rewrite app_nil_r.
  unfold utf8_encode. repeat case_match; unfold zlen; simpl; lia.
Qed.

Lemma escaped_printable cp :
  text_scalar cp -> Forall (fun c => scalar c /\ ~ control c) (escaped cp).
Proof.
  intros (Hs & _ & _ & Hc). unfold escaped, scalar, control in *.
  repeat case_bool_decide; repeat constructor; lia.
Qed.

Lemma preview_loop_spec cps shown out :
  Forall (fun cp => 0 <= cp <= 0x10ffff) cps -> 0 <= shown <= 80 -> zlen out <= 164 ->
  exists n, (n <= length cps)%nat /\ shown + Z.of_nat n <= 80 /\
    let text := out ++ utf8 (concat (map escaped (take n cps))) in
    zlen text <= 164 /\
    preview_loop cps shown out = text ++ (if (n <? length cps)%nat then str_bytes "..." else []) /\
    ((n < length cps)%nat -> shown + Z.of_nat n = 80 \/ 160 < zlen text).
Proof.
  intros H. revert shown out. induction H as [|cp cps Hcp H IH]; intros shown out Hs Ho.
  { exists 0%nat. cbn. rewrite !app_nil_r. split_and!; [lia..|done|lia]. }
  cbn [preview_loop]. destruct ((shown =? 80) || (160 <? zlen out)) eqn:Estop.
  { exists 0%nat. cbn. rewrite app_nil_r. split_and!; [lia..|done|].
    intros _. apply orb_true_iff in Estop as [?|?]; lia. }
  apply orb_false_iff in Estop as [??]. rewrite append_escaped_spec by done.
  destruct (IH (shown + 1) (out ++ utf8 (escaped cp))) as (n & Hn & Hc & Hz & Heq & Hmax);
    [lia|rewrite zlen_app; pose proof (escaped_size cp Hcp); lia|].
  exists (S n). cbn [take map concat length]. rewrite utf8_app, app_assoc.
  split_and!; [lia..|done|exact Heq|]. intros Hlt. destruct Hmax as [?|?]; [lia|lia|by right].
Qed.

(** ** Properties *)

(** The three decoders of the runtime enrichment accept exactly the encodings of
    text: UTF-8 input is accepted exactly when it is the UTF-8 form of a sequence of
    text scalars (Unicode scalars that are no private-use characters, no
    noncharacters and no controls other than tab, line feed and carriage return) with
    the demanded number of characters; that sequence is the result, and the input is
    called ASCII exactly when all of them are.  The UTF-16 and UTF-32 decoders do the
    same for non-empty input in the given byte order.  Overlong forms, unpaired or
    swapped surrogates, values beyond U+10FFFF and truncated units are all rejected. *)
Theorem text_decoders_exact (bs : bytes) (big_endian : bool) (minimum : Z) :
  (forall cps encoding, decode_utf8_exact bs minimum = Some (cps, encoding) <->
     Forall text_scalar cps /\ bs = runtime_encode encoding cps /\ minimum <= zlen cps /\
     encoding = if all_ascii cps then RuntimeEncoding_ASCII else RuntimeEncoding_UTF8) /\
  (forall cps, decode_utf16_exact bs big_endian minimum = Some cps <->
     cps <> [] /\ Forall text_scalar cps /\ minimum <= zlen cps /\
     bs = runtime_encode (if big_endian then RuntimeEncoding_UTF16_BE
                          else RuntimeEncoding_UTF16_LE) cps) /\
  (forall cps, decode_utf32_exact bs big_endian minimum = Some cps <->
     cps <> [] /\ Forall text_scalar cps /\ minimum <= zlen cps /\
     bs = runtime_encode (if big_endian then RuntimeEncoding_UTF32_BE
                          else RuntimeEncoding_UTF32_LE) cps).
Proof.
  split_and!; intros.
  - rewrite decode_utf8_iff.
    assert (encoding = (if all_ascii cps then RuntimeEncoding_ASCII else RuntimeEncoding_UTF8) ->
            runtime_encode encoding cps = concat (map utf8_encode cps)) as He
      by (intros ->; by destruct (all_ascii cps)).
    split; intros (? & Hb & ? & Hx); by rewrite ?He, <- ?He in * by done.
  - rewrite decode_utf16_iff. destruct big_endian; naive_solver.
  - rewrite decode_utf32_iff. destruct big_endian; naive_solver.
Qed.

(** The preview of a string is bounded and printable: it is the UTF-8 form of a
    prefix of the string in which backslashes, quotes, line feeds, carriage returns and
    tabs are escaped, with three dots behind it exactly when the prefix is not the
    whole string; it stops early only after 80 characters or more than 160 bytes, is
    never longer than 167 bytes, and contains no control character. *)
Theorem preview_bounded_and_printable (cps : list Z) :
  Forall text_scalar cps ->
  exists n, (n <= length cps)%nat /\ (n <= 80)%nat /\
    let text := concat (map escaped (take n cps)) in
    escaped_preview cps = utf8 (text ++ if (n <? length cps)%nat then [46; 46; 46] else []) /\
    ((n < length cps)%nat -> n = 80%nat \/ 160 < zlen (utf8 text)) /\
    zlen (escaped_preview cps) <= 167 /\ valid_utf8 (escaped_preview cps) = true /\
    Forall (fun c => ~ control c) text.
Proof.
  intros H.
  destruct (preview_loop_spec cps 0 []) as (n & Hn & Hc & Hz & Heq & Hmax);
    [by eapply Forall_impl; [exact H|apply text_scalar_range]|lia|done|].
  cbn [app] in *. exists n. unfold escaped_preview. cbn zeta.
  assert (Forall (fun c => scalar c /\ ~ control c) (concat (map escaped (take n cps)))) as Hp.
  { apply Forall_forall. intros c. rewrite elem_of_concat_map. intros (cp & Hcp & Hin).
    apply elem_of_take in Hcp as (i & Hi & _). apply list_elem_of_lookup_2 in Hi.
    rewrite Forall_forall in H. pose proof (escaped_printable cp (H cp Hi)) as Hf.
    rewrite Forall_forall in Hf. by apply Hf. }
  assert (utf8 (if (n <? length cps)%nat then [46; 46; 46] else []) =
          if (n <? length cps)%nat then str_bytes "..." else []) as Hd by (by case_match).
  rewrite utf8_app, Hd, Heq. split_and!; [lia..|done| | | |].
  - intros Hlt. destruct (Hmax Hlt); [left; lia|by right].
  - rewrite zlen_app. case_match; unfold zlen in *; simpl; lia.
  - apply valid_utf8_iff.
    exists (concat (map escaped (take n cps)) ++ if (n <? length cps)%nat then [46; 46; 46] else []).
    split; [|by rewrite <- Hd, <- utf8_app]. apply Forall_app. split.
    + eapply Forall_impl; [exact Hp|]. by intros ? [? _].
    + case_match; repeat constructor; unfold scalar; lia.
  - eapply Forall_impl; [exact Hp|]. by intros ? [_ ?].
Qed.

(** A preview with an escape and a character outside ASCII. *)
Lemma preview_bounded_and_printable_witness :
  Forall text_scalar [72; 10; 233] /\
  zlen (escaped_preview [72; 10; 233]) <= 167.
Proof.
  assert (Forall text_scalar [72; 10; 233]) as H
    by (repeat (apply List.Forall_cons; [by apply scalar_is_text_iff|]); apply List.Forall_nil).
  split; [exact H|].
  destruct (preview_bounded_and_printable [72; 10; 233] H) as (n & _ & _ & _ & _ & Hz & _).
  exact Hz.
Defined.
