(* ===== verification/RuntimeCandidates.v ===== *)
(** String candidates at one place of a written buffer ([decode_nul_*],
    [best_nul_candidate], [add_pascal_interpretations], [unique_pascal_candidate] and
    [same_candidate] of [src/src/runtime_enrich_core.cpp]), and the readings of the bytes
    that they stand for. *)
From stdpp Require Import base numbers list strings option sets.
From Stdlib Require Import ZArith Init.Byte Lia.
From S2P Require Import Prelude OrderedMap Text RuntimeText.

(** ** Options and candidates *)

Definition kDefaultMinimumStringChars : Z := 4.
Definition kDefaultMaxStringCandidatesPerWrite : Z := 64.
Definition kDefaultMaxRuntimeStringBytes : Z := 4096.

Record StringScanOptions : Type := {
  image_big_endian : bool;
  allow_unicode : bool;
  allow_length_prefixed : bool;
  minimum_characters : Z;
  max_candidate_bytes : Z;
  max_candidates_per_write : Z;
  pointer_width : Z;
  pointer_ranges : list (Z * Z)
}.

Definition default_scan_options : StringScanOptions := {|
  image_big_endian := false;
  allow_unicode := true;
  allow_length_prefixed := true;
  minimum_characters := kDefaultMinimumStringChars;
  max_candidate_bytes := kDefaultMaxRuntimeStringBytes;
  max_candidates_per_write := kDefaultMaxStringCandidatesPerWrite;
  pointer_width := 8;
  pointer_ranges := []
|}.

Record DecodedString : Type := {
  ds_encoding : RuntimeEncoding;
  ds_layout : StringLayout;
  ds_raw_size : Z;
  ds_codepoints : list Z;
  ds_raw : bytes
}.

Definition assign_candidate (start : bytes) (raw_size : Z) (encoding : RuntimeEncoding)
    (layout : StringLayout) (codepoints : list Z) : DecodedString := {|
  ds_encoding := encoding;
  ds_layout := layout;
  ds_raw_size := raw_size;
  ds_codepoints := codepoints;
  ds_raw := take (Z.to_nat raw_size) start
|}.

(** ** NUL-terminated strings

    The searches for the terminator return the size of the payload before it. *)

(** [std::find] of a zero byte. *)
Fixpoint find_nul8 (bs : bytes) (payload_size : Z) : option Z :=
  match bs with
  | [] => None
  | b :: r => if b2z b =? 0 then Some payload_size else find_nul8 r (payload_size + 1)
  end.

Fixpoint find_nul16 (big_endian : bool) (bs : bytes) (payload_size : Z) : option Z :=
  match bs with
  | a :: b :: r =>
      if negb (read_u16 a b big_endian =? 0) then find_nul16 big_endian r (payload_size + 2)
      else Some payload_size
  | _ => None
  end.

Fixpoint find_nul32 (big_endian : bool) (bs : bytes) (payload_size : Z) : option Z :=
  match bs with
  | a :: b :: c :: d :: r =>
      if negb (read_u32 a b c d big_endian =? 0) then find_nul32 big_endian r (payload_size + 4)
      else Some payload_size
  | _ => None
  end.

Definition decode_nul_utf8 (bs : bytes) (minimum : Z) : option DecodedString :=
  match find_nul8 bs 0 with
  | None => None
  | Some payload_size =>
      match decode_utf8_exact (take (Z.to_nat payload_size) bs) minimum with
      | None => None
      | Some (codepoints, encoding) =>
          Some (assign_candidate bs (payload_size + 1) encoding NUL_TERMINATED codepoints)
      end
  end.

Definition decode_nul_utf16 (bs : bytes) (big_endian : bool) (minimum : Z) :
    option DecodedString :=
  match find_nul16 big_endian bs 0 with
  | None => None
  | Some payload_size =>
      match decode_utf16_exact (take (Z.to_nat payload_size) bs) big_endian minimum with
      | None => None
      | Some codepoints =>
          Some (assign_candidate bs (payload_size + 2)
                  (if big_endian then RuntimeEncoding_UTF16_BE else RuntimeEncoding_UTF16_LE)
                  NUL_TERMINATED codepoints)
      end
  end.

Definition decode_nul_utf32 (bs : bytes) (big_endian : bool) (minimum : Z) :
    option DecodedString :=
  match find_nul32 big_endian bs 0 with
  | None => None
  | Some payload_size =>
      match decode_utf32_exact (take (Z.to_nat payload_size) bs) big_endian minimum with
      | None => None
      | Some codepoints =>
          Some (assign_candidate bs (payload_size + 4)
                  (if big_endian then RuntimeEncoding_UTF32_BE else RuntimeEncoding_UTF32_LE)
                  NUL_TERMINATED codepoints)
      end
  end.

(** [std::max_element]: the first of the greatest elements. *)
Definition max_element {A} (lt : A -> A -> bool) (l : list A) : option A :=
  match l with
  | [] => None
  | x :: r => Some (foldl (fun largest y => if lt largest y then y else largest) x r)
  end.

(** More code points first, then more raw bytes. *)
Definition candidate_lt (a b : DecodedString) : bool :=
  pair_lt Z.ltb Z.ltb (zlen (ds_codepoints a), ds_raw_size a)
                      (zlen (ds_codepoints b), ds_raw_size b).

Definition nul_candidates (bs : bytes) (options : StringScanOptions) : list DecodedString :=
  (if allow_unicode options
   then option_list (decode_nul_utf32 bs (image_big_endian options) (minimum_characters options)) ++
        option_list (decode_nul_utf16 bs (image_big_endian options) (minimum_characters options))
   else []) ++
  option_list (decode_nul_utf8 bs (minimum_characters options)).

Definition best_nul_candidate (bs : bytes) (options : StringScanOptions) : option DecodedString :=
  max_element candidate_lt (nul_candidates bs options).

(** ** Length-prefixed strings *)

Definition read_prefix (bs : bytes) (width : Z) (big_endian : bool) : Z :=
  match bs with
  | a :: r =>
      if width =? 1 then b2z a
      else
        match r with
        | b :: r' =>
            if width =? 2 then read_u16 a b big_endian
            else
              match r' with
              | c :: d :: _ => if width =? 4 then read_u32 a b c d big_endian else 0
              | _ => 0
              end
        | [] => 0
        end
  | [] => 0
  end.

(** The sizes of the payload and of the whole string, unless the limit is passed. *)
Definition checked_payload_size (units unit_width prefix_width maximum : Z) : option (Z * Z) :=
  if (units =? 0) || (u64_max / unit_width <? units) then None
  else
    let payload := units * unit_width in
    if (maximum <? payload) || (maximum - payload <? prefix_width) then None
    else Some (payload, prefix_width + payload).

(** One of the three attempts: the size check of a unit width, then the decoder. *)
Definition pascal_attempt (bs : bytes) (prefix_width : Z) (layout : StringLayout)
    (options : StringScanOptions) (unit_width : Z)
    (decode : bytes -> option (list Z * RuntimeEncoding)) : option DecodedString :=
  let units := read_prefix bs prefix_width (image_big_endian options) in
  let payload := drop (Z.to_nat prefix_width) bs in
  let available := zlen bs - prefix_width in
  match checked_payload_size units unit_width prefix_width (max_candidate_bytes options) with
  | None => None
  | Some (payload_size, raw_size) =>
      if available <? payload_size then None
      else
        match decode (take (Z.to_nat payload_size) payload) with
        | None => None
        | Some (codepoints, encoding) =>
            Some (assign_candidate bs raw_size encoding layout codepoints)
        end
  end.

Definition in_encoding (encoding : RuntimeEncoding) (decoded : option (list Z)) :
    option (list Z * RuntimeEncoding) :=
  match decoded with Some codepoints => Some (codepoints, encoding) | None => None end.

Definition add_pascal_interpretations (bs : bytes) (prefix_width : Z) (layout : StringLayout)
    (options : StringScanOptions) (candidates : list DecodedString) : list DecodedString :=
  if zlen bs <? prefix_width then candidates
  else
    let minimum := minimum_characters options in
    let candidates := candidates ++
      option_list (pascal_attempt bs prefix_width layout options 1
                     (fun payload => decode_utf8_exact payload minimum)) in
    if negb (allow_unicode options) then candidates
    else
      let string_big_endian := image_big_endian options in
      let candidates := candidates ++
        option_list (pascal_attempt bs prefix_width layout options 2
                       (fun payload =>
                          in_encoding (if string_big_endian then RuntimeEncoding_UTF16_BE
                                       else RuntimeEncoding_UTF16_LE)
                                      (decode_utf16_exact payload string_big_endian minimum))) in
      candidates ++
        option_list (pascal_attempt bs prefix_width layout options 4
                       (fun payload =>
                          in_encoding (if string_big_endian then RuntimeEncoding_UTF32_BE
                                       else RuntimeEncoding_UTF32_LE)
                                      (decode_utf32_exact payload string_big_endian minimum))).

Definition pascal_candidates (bs : bytes) (options : StringScanOptions) : list DecodedString :=
  add_pascal_interpretations bs 4 PASCAL32 options
    (add_pascal_interpretations bs 2 PASCAL16 options
       (add_pascal_interpretations bs 1 PASCAL8 options [])).

Definition unique_pascal_candidate (bs : bytes) (options : StringScanOptions) :
    option DecodedString :=
  if negb (allow_length_prefixed options) then None
  else match pascal_candidates bs options with [candidate] => Some candidate | _ => None end.

Definition same_candidate (a b : DecodedString) : bool :=
  (ds_encoding a == ds_encoding b) && (ds_layout a == ds_layout b) &&
  (ds_raw a == ds_raw b) && (ds_codepoints a == ds_codepoints b).

(** "Hello" behind its length, and with a terminator. *)
Example pascal_hello :
  option_map ds_raw_size (unique_pascal_candidate
    [x05; x48; x65; x6c; x6c; x6f; x00; x01] default_scan_options) = Some 6.
Proof. vm_compute. reflexivity. Qed.

Example nul_hello :
  option_map (fun d => (ds_encoding d, ds_codepoints d)) (best_nul_candidate
    [x48; x65; x6c; x6c; x6f; x00; x01; x00] default_scan_options) =
  Some (RuntimeEncoding_ASCII, [72; 101; 108; 108; 111]).
Proof. vm_compute. reflexivity. Qed.

(** Eight letters before a wide terminator are a byte string and four UTF-16 characters;
    the longer text is chosen, the ambiguity is not reported. *)
Example two_readings_one_candidate :
  let bs := str_bytes "abcdefgh" ++ [x00; x00] in
  map ds_encoding (nul_candidates bs default_scan_options) =
    [RuntimeEncoding_UTF16_LE; RuntimeEncoding_ASCII] /\
  option_map ds_encoding (best_nul_candidate bs default_scan_options) = Some RuntimeEncoding_ASCII.
Proof. vm_compute. done. Qed.

(** Behind a tab, eighteen letters are nine characters with a length prefix in two encodings.
    Neither is reported, and the NUL-terminated reading of the same bytes is no longer held
    back by them. *)
Example two_prefixed_readings_release_the_guard :
  let bs := [x09] ++ str_bytes "abcdefghijklmnopqr" ++ [x00; x00] in
  map ds_encoding (pascal_candidates bs default_scan_options) =
    [RuntimeEncoding_ASCII; RuntimeEncoding_UTF16_LE] /\
  unique_pascal_candidate bs default_scan_options = None /\
  option_map ds_layout (best_nul_candidate bs default_scan_options) = Some NUL_TERMINATED.
Proof. vm_compute. done. Qed.

(** ** Readings

    What a candidate stands for: a text, and the bytes that a string of its encoding and
    layout has in memory. *)

Definition unit_width (encoding : RuntimeEncoding) : Z :=
  match encoding with
  | RuntimeEncoding_ASCII | RuntimeEncoding_UTF8 => 1
  | RuntimeEncoding_UTF16_LE | RuntimeEncoding_UTF16_BE => 2
  | RuntimeEncoding_UTF32_LE | RuntimeEncoding_UTF32_BE => 4
  end.

(** [value] in [width] bytes. *)
Definition fixed_bytes (big_endian : bool) (width value : Z) : bytes :=
  if width =? 1 then [z2b value]
  else if width =? 2 then unit16 (negb big_endian) value
  else utf32_encode (negb big_endian) value.

Definition string_bytes (big_endian : bool) (layout : StringLayout) (encoding : RuntimeEncoding)
    (cps : list Z) : bytes :=
  let payload := runtime_encode encoding cps in
  match layout with
  | NUL_TERMINATED => payload ++ fixed_bytes big_endian (unit_width encoding) 0
  | _ => fixed_bytes big_endian (layout_prefix_size layout)
           (zlen payload / unit_width encoding) ++ payload
  end.

(** The encodings that are tried: bytes, called ASCII when they are, and with
    [allow_unicode] the wide ones in the byte order of the image. *)
Definition encoding_tried (options : StringScanOptions) (encoding : RuntimeEncoding)
    (cps : list Z) : Prop :=
  match encoding with
  | RuntimeEncoding_ASCII => all_ascii cps = true
  | RuntimeEncoding_UTF8 => all_ascii cps = false
  | RuntimeEncoding_UTF16_LE | RuntimeEncoding_UTF32_LE =>
      allow_unicode options = true /\ image_big_endian options = false
  | RuntimeEncoding_UTF16_BE | RuntimeEncoding_UTF32_BE =>
      allow_unicode options = true /\ image_big_endian options = true
  end.

(** [d] is a string that starts at [bs]. *)
Record reading (options : StringScanOptions) (bs : bytes) (d : DecodedString) : Prop := {
  reading_text : Forall text_scalar (ds_codepoints d);
  reading_minimum : minimum_characters options <= zlen (ds_codepoints d);
  reading_encoding : encoding_tried options (ds_encoding d) (ds_codepoints d);
  reading_raw : ds_raw d = string_bytes (image_big_endian options) (ds_layout d)
                             (ds_encoding d) (ds_codepoints d);
  reading_size : ds_raw_size d = zlen (ds_raw d);
  reading_prefix : ds_raw d `prefix_of` bs
}.

Definition nul_reading options bs d : Prop :=
  reading options bs d /\ ds_layout d = NUL_TERMINATED.

(** The length fits its prefix, and the whole the limit. *)
Definition pascal_reading options bs d : Prop :=
  reading options bs d /\ ds_layout d <> NUL_TERMINATED /\
  zlen (ds_raw d) <= max_candidate_bytes options /\
  zlen (runtime_encode (ds_encoding d) (ds_codepoints d)) / unit_width (ds_encoding d) <
    2 ^ (8 * layout_prefix_size (ds_layout d)).

(** ** The terminator *)

Definition nul_unit (width : nat) : bytes := replicate width x00.

(** A search [find] for zero units of [width] bytes: over the code units of text it
    goes on, at a zero unit it stops, and where it stops there is one. *)
Record finds_nul (find : bytes -> Z -> option Z) (width : nat) (encode : Z -> bytes) : Prop := {
  find_width : (0 < width)%nat;
  find_skips : forall cp rest p,
    text_scalar cp -> find (encode cp ++ rest) p = find rest (p + zlen (encode cp));
  find_stops : forall rest p, find (nul_unit width ++ rest) p = Some p;
  find_sound : forall bs p q, find bs p = Some q ->
    p <= q /\ nul_unit width `prefix_of` drop (Z.to_nat (q - p)) bs
}.

Lemma finds_text find width encode cps rest p :
  finds_nul find width encode -> Forall text_scalar cps ->
  find (concat (map encode cps) ++ nul_unit width ++ rest) p =
    Some (p + zlen (concat (map encode cps))).
Proof.
  intros Hf H. revert p. induction H as [|cp cps Hcp _ IH]; intros p; cbn [map concat].
  - cbn [app]. rewrite (find_stops _ _ _ Hf), zlen_nil. f_equal. lia.
  - rewrite <- app_assoc, (find_skips _ _ _ Hf) by done. rewrite IH, zlen_app. f_equal. lia.
Qed.

(** The common shape of the three decoders of NUL-terminated strings. *)
Definition nul_candidate (find : bytes -> Z -> option Z) (width : nat)
    (decode : bytes -> option (list Z * RuntimeEncoding)) (bs : bytes) : option DecodedString :=
  match find bs 0 with
  | None => None
  | Some payload_size =>
      match decode (take (Z.to_nat payload_size) bs) with
      | None => None
      | Some (codepoints, encoding) =>
          Some (assign_candidate bs (payload_size + Z.of_nat width) encoding NUL_TERMINATED codepoints)
      end
  end.

Lemma take_zlen_app {A} (l1 l2 : list A) : take (Z.to_nat (zlen l1)) (l1 ++ l2) = l1.
Proof. unfold zlen. rewrite Nat2Z.id. by rewrite take_app_length. Qed.

Lemma nul_candidate_iff find width encode (decode : bytes -> option (list Z * RuntimeEncoding))
    (ok : list Z -> RuntimeEncoding -> Prop) bs d :
  finds_nul find width encode ->
  (forall payload cps encoding, decode payload = Some (cps, encoding) <->
     Forall text_scalar cps /\ payload = concat (map encode cps) /\ ok cps encoding) ->
  nul_candidate find width decode bs = Some d <->
  Forall text_scalar (ds_codepoints d) /\ ok (ds_codepoints d) (ds_encoding d) /\
  ds_layout d = NUL_TERMINATED /\
  ds_raw d = concat (map encode (ds_codepoints d)) ++ nul_unit width /\
  ds_raw_size d = zlen (ds_raw d) /\ ds_raw d `prefix_of` bs.
Proof.
  intros Hf Hd. unfold nul_candidate. split.
  - destruct (find bs 0) as [p|] eqn:E; [|done].
    destruct (find_sound _ _ _ Hf _ _ _ E) as [Hp [rest Hrest]].
    replace (p - 0) with p in Hrest by lia.
    destruct (decode _) as [[cps encoding]|] eqn:Ed; [|done].
    apply Hd in Ed as (Ht & Htake & Hok). intros [= <-].
    unfold assign_candidate. cbn [ds_codepoints ds_encoding ds_layout ds_raw ds_raw_size].
    assert (bs = concat (map encode cps) ++ nul_unit width ++ rest) as Hbs
      by (rewrite <- (take_drop (Z.to_nat p) bs), Htake at 1; by rewrite Hrest).
    assert (zlen (concat (map encode cps)) = p) as Hlen.
    { unfold zlen. rewrite <- Htake, length_take. apply (f_equal length) in Hrest.
      rewrite length_drop, length_app in Hrest. unfold nul_unit in Hrest.
      rewrite length_replicate in Hrest. pose proof (find_width _ _ _ Hf). lia. }
    assert (take (Z.to_nat (p + Z.of_nat width)) bs =
            concat (map encode cps) ++ nul_unit width) as ->.
    { rewrite Hbs, app_assoc. replace (p + Z.of_nat width)
        with (zlen (concat (map encode cps) ++ nul_unit width)); [apply take_zlen_app|].
      rewrite zlen_app, Hlen. unfold zlen, nul_unit. by rewrite length_replicate. }
    split_and!; [done..| |].
    + rewrite zlen_app, Hlen. unfold zlen, nul_unit. by rewrite length_replicate.
    + exists rest. rewrite <- app_assoc. exact Hbs.
  - destruct d as [encoding layout size cps raw]. cbn [ds_codepoints ds_encoding ds_layout ds_raw ds_raw_size].
    intros (Ht & Hok & -> & -> & -> & [rest ->]). rewrite <- app_assoc.
    rewrite (finds_text _ _ _ _ _ _ Hf Ht), Z.add_0_l, take_zlen_app.
    rewrite (proj2 (Hd _ cps encoding)) by done. do 2 f_equal. unfold assign_candidate.
    replace (zlen (concat (map encode cps)) + Z.of_nat width)
      with (zlen (concat (map encode cps) ++ nul_unit width)).
    + by rewrite app_assoc, take_zlen_app.
    + rewrite zlen_app. unfold zlen, nul_unit. by rewrite length_replicate.
Qed.

Lemma text_scalar_positive cp : text_scalar cp -> 9 <= cp.
Proof. intros ([Hr _] & _ & _ & Hc). unfold control in Hc. lia. Qed.

Lemma b2z_zero b : b2z b = 0 -> b = x00.
Proof. intros H. apply b2z_inj. by rewrite H. Qed.

Lemma find_nul8_nonzero l rest p :
  Forall (fun b => b2z b <> 0) l -> find_nul8 (l ++ rest) p = find_nul8 rest (p + zlen l).
Proof.
  intros H. revert p. induction H as [|b l Hb _ IH]; intros p; cbn [app find_nul8].
  - f_equal. rewrite zlen_nil. lia.
  - rewrite (proj2 (Z.eqb_neq (b2z b) 0)) by done. rewrite IH, zlen_cons. f_equal. lia.
Qed.

(** What the recursion over units gives the soundness of a search. *)
Lemma prefix_drop_step (width : nat) (unit rest : bytes) (p q : Z) :
  length unit = width -> p + Z.of_nat width <= q ->
  nul_unit width `prefix_of` drop (Z.to_nat (q - (p + Z.of_nat width))) rest ->
  nul_unit width `prefix_of` drop (Z.to_nat (q - p)) (unit ++ rest).
Proof.
  intros Hl Hq H. replace (Z.to_nat (q - p)) with (length unit + Z.to_nat (q - (p + Z.of_nat width)))%nat by lia.
  by rewrite drop_app_add.
Qed.

Lemma finds_nul8 : finds_nul find_nul8 1 utf8_encode.
Proof.
  split; [lia| |done|].
  - intros cp rest p Ht. apply find_nul8_nonzero.
    pose proof (text_scalar_positive cp Ht). pose proof (text_scalar_range cp Ht).
    unfold utf8_encode. bool_cases; repeat (apply List.Forall_cons; [rewrite b2z_z2b; div_mod_lia|]);
      apply List.Forall_nil.
  - induction bs as [|b bs IH]; intros p q; cbn [find_nul8]; [done|].
    destruct (Z.eqb_spec (b2z b) 0) as [Hb|_].
    + intros [= ->]. split; [lia|]. replace (q - q) with 0 by lia. cbn.
      rewrite (b2z_zero b Hb). by exists bs.
    + intros [Hp H]%IH. split; [lia|]. apply (prefix_drop_step 1 [b]); [done|lia|exact H].
Qed.

Lemma read_u16_zero a b be : read_u16 a b be = 0 -> a = x00 /\ b = x00.
Proof.
  rewrite read_u16_text, read_u16_value. pose proof (b2z_range a). pose proof (b2z_range b).
  intros Hz. split; apply b2z_zero; destruct (negb be); lia.
Qed.

Lemma read_u32_zero a b c d be :
  read_u32 a b c d be = 0 -> a = x00 /\ b = x00 /\ c = x00 /\ d = x00.
Proof.
  rewrite read_u32_text, read_u32_value. pose proof (b2z_range a). pose proof (b2z_range b).
  pose proof (b2z_range c). pose proof (b2z_range d).
  intros Hz. split_and!; apply b2z_zero; destruct (negb be); lia.
Qed.

Lemma find_nul16_unit be u rest p :
  0 < u < 65536 -> find_nul16 be (unit16 (negb be) u ++ rest) p = find_nul16 be rest (p + 2).
Proof.
  intros Hu. destruct (unit16_two (negb be) u) as (a & b & Hab). rewrite Hab.
  cbn [app find_nul16]. rewrite read_u16_text, (read_unit16 _ u a b ltac:(lia) Hab).
  by rewrite (proj2 (Z.eqb_neq u 0)) by lia.
Qed.

Lemma finds_nul16 be : finds_nul (find_nul16 be) 2 (utf16_encode (negb be)).
Proof.
  split; [lia| | |].
  - intros cp rest p Ht.
    pose proof (text_scalar_positive cp Ht). pose proof (text_scalar_range cp Ht).
    assert (forall u, zlen (unit16 (negb be) u) = 2) as Hlen by (by destruct be).
    unfold utf16_encode. bool_cases.
    + rewrite Hlen, find_nul16_unit by lia. done.
    + rewrite <- app_assoc, !find_nul16_unit, zlen_app, !Hlen by div_mod_lia. f_equal. lia.
  - intros rest p. by destruct be.
  - intros bs. remember (length bs) as n eqn:Hn. revert bs Hn.
    induction n as [n IH] using lt_wf_ind. intros bs -> p q.
    destruct bs as [|a [|b r]]; cbn [find_nul16]; [done..|].
    destruct (Z.eqb_spec (read_u16 a b be) 0) as [H0|_]; cbn [negb].
    + intros [= ->]. split; [lia|]. replace (q - q) with 0 by lia. cbn.
      apply read_u16_zero in H0 as [-> ->]. by exists r.
    + intros [Hp H]%(IH (length r)); [|simpl; lia|done]. split; [lia|].
      apply (prefix_drop_step 2 [a; b]); [done|lia|exact H].
Qed.

Lemma finds_nul32 be : finds_nul (find_nul32 be) 4 (utf32_encode (negb be)).
Proof.
  split; [lia| | |].
  - intros cp rest p Ht. pose proof (text_scalar_positive cp Ht).
    destruct (utf32_encode_bytes (negb be) cp (proj1 Ht)) as (a & b & c & d & -> & Hread).
    cbn [app find_nul32]. rewrite read_u32_text, Hread.
    rewrite (proj2 (Z.eqb_neq cp 0)) by lia. done.
  - intros rest p. by destruct be.
  - intros bs. remember (length bs) as n eqn:Hn. revert bs Hn.
    induction n as [n IH] using lt_wf_ind. intros bs -> p q.
    destruct bs as [|a [|b [|c [|d r]]]]; cbn [find_nul32]; [done..|].
    destruct (Z.eqb_spec (read_u32 a b c d be) 0) as [H0|_]; cbn [negb].
    + intros [= ->]. split; [lia|]. replace (q - q) with 0 by lia. cbn.
      apply read_u32_zero in H0 as (-> & -> & -> & ->). by exists r.
    + intros [Hp H]%(IH (length r)); [|simpl; lia|done]. split; [lia|].
      apply (prefix_drop_step 4 [a; b; c; d]); [done|lia|exact H].
Qed.

(** ** The three widths

    Each width has a decoder that answers with the encoding, and a code point of it has
    [width_encode] bytes. *)

Definition width_encode (options : StringScanOptions) (width : Z) : Z -> bytes :=
  if width =? 1 then utf8_encode
  else if width =? 2 then utf16_encode (negb (image_big_endian options))
  else utf32_encode (negb (image_big_endian options)).

Definition width_decode (options : StringScanOptions) (width : Z) (payload : bytes) :
    option (list Z * RuntimeEncoding) :=
  let be := image_big_endian options in
  let minimum := minimum_characters options in
  if width =? 1 then decode_utf8_exact payload minimum
  else if width =? 2 then
    in_encoding (if be then RuntimeEncoding_UTF16_BE else RuntimeEncoding_UTF16_LE)
      (decode_utf16_exact payload be minimum)
  else
    in_encoding (if be then RuntimeEncoding_UTF32_BE else RuntimeEncoding_UTF32_LE)
      (decode_utf32_exact payload be minimum).

Definition width_ok (options : StringScanOptions) (width : Z) (cps : list Z)
    (encoding : RuntimeEncoding) : Prop :=
  minimum_characters options <= zlen cps /\ encoding_tried options encoding cps /\
  unit_width encoding = width.

Lemma in_encoding_Some encoding decoded cps encoding' :
  in_encoding encoding decoded = Some (cps, encoding') <-> decoded = Some cps /\ encoding' = encoding.
Proof. unfold in_encoding. destruct decoded; naive_solver. Qed.

Lemma runtime_encode_width options encoding cps :
  encoding_tried options encoding cps ->
  runtime_encode encoding cps = concat (map (width_encode options (unit_width encoding)) cps).
Proof.
  destruct encoding; cbn [encoding_tried runtime_encode unit_width width_encode];
    unfold width_encode; try done; intros [_ ->]; done.
Qed.

Lemma elem_of_option_list {A} (o : option A) x : x ∈ option_list o <-> o = Some x.
Proof. destruct o; cbn; set_solver. Qed.

Section Widths.
Context (options : StringScanOptions).
Hypothesis minimum_positive : 1 <= minimum_characters options.

Lemma width_decode_iff width payload cps encoding :
  width = 1 \/ (allow_unicode options = true /\ (width = 2 \/ width = 4)) ->
  width_decode options width payload = Some (cps, encoding) <->
  Forall text_scalar cps /\ payload = concat (map (width_encode options width) cps) /\
  width_ok options width cps encoding.
Proof.
  intros [->|[Hu [->| ->]]]; unfold width_decode, width_encode, width_ok; cbn [Z.eqb Pos.eqb].
  - rewrite decode_utf8_iff. split.
    + intros (H & -> & Hm & ->). destruct (all_ascii cps) eqn:E; split_and!; done.
    + intros (H & -> & Hm & Ht & Hw). split_and!; [done..|].
      destruct encoding; try done; cbn in Ht; by rewrite Ht.
  - rewrite in_encoding_Some, decode_utf16_iff. split.
    + intros [(_ & H & -> & Hm) ->]. destruct (image_big_endian options) eqn:E; split_and!; done.
    + intros (H & -> & Hm & Ht & Hw). split_and!; [|done..|].
      * intros ->. rewrite zlen_nil in Hm. lia.
      * destruct encoding; try done; destruct Ht as [_ ->]; done.
  - rewrite in_encoding_Some, decode_utf32_iff. split.
    + intros [(_ & H & -> & Hm) ->]. destruct (image_big_endian options) eqn:E; split_and!; done.
    + intros (H & -> & Hm & Ht & Hw). split_and!; [|done..|].
      * intros ->. rewrite zlen_nil in Hm. lia.
      * destruct encoding; try done; destruct Ht as [_ ->]; done.
Qed.

(** *** NUL-terminated candidates *)

Definition decode_nul (width : Z) (bs : bytes) : option DecodedString :=
  if width =? 1 then decode_nul_utf8 bs (minimum_characters options)
  else if width =? 2 then
    decode_nul_utf16 bs (image_big_endian options) (minimum_characters options)
  else decode_nul_utf32 bs (image_big_endian options) (minimum_characters options).

Lemma nul_unit_fixed be encoding :
  fixed_bytes be (unit_width encoding) 0 = nul_unit (Z.to_nat (unit_width encoding)).
Proof. by destruct encoding, be. Qed.

Lemma decode_nul_iff width bs d :
  width = 1 \/ (allow_unicode options = true /\ (width = 2 \/ width = 4)) ->
  decode_nul width bs = Some d <->
  nul_reading options bs d /\ unit_width (ds_encoding d) = width.
Proof.
  intros Hw.
  assert (exists find, decode_nul width bs = nul_candidate find (Z.to_nat width) (width_decode options width) bs /\
            finds_nul find (Z.to_nat width) (width_encode options width)) as (find & -> & Hf).
  { destruct Hw as [->|[_ [->| ->]]]; cbn [Z.to_nat Pos.to_nat Pos.iter_op Init.Nat.add].
    - exists find_nul8. split; [done|exact finds_nul8].
    - exists (find_nul16 (image_big_endian options)). split; [|apply finds_nul16].
      unfold decode_nul, decode_nul_utf16, nul_candidate, width_decode, in_encoding. cbn [Z.eqb Pos.eqb].
      destruct (find_nul16 _ _ _); [|done]. by destruct (decode_utf16_exact _ _ _).
    - exists (find_nul32 (image_big_endian options)). split; [|apply finds_nul32].
      unfold decode_nul, decode_nul_utf32, nul_candidate, width_decode, in_encoding. cbn [Z.eqb Pos.eqb].
      destruct (find_nul32 _ _ _); [|done]. by destruct (decode_utf32_exact _ _ _). }
  rewrite (nul_candidate_iff find _ _ _ (width_ok options width) _ _ Hf)
    by (intros; by apply width_decode_iff).
  destruct d as [encoding layout size cps raw].
  cbn [ds_encoding ds_layout ds_raw_size ds_codepoints ds_raw]. unfold width_ok. split.
  - intros (Ht & (Hm & He & <-) & -> & Hraw & Hs & Hp). split; [|done]. split; [|done].
    split; try done. cbn [ds_encoding ds_layout ds_raw_size ds_codepoints ds_raw].
    unfold string_bytes. by rewrite (runtime_encode_width options) by done; rewrite nul_unit_fixed.
  - intros [[[Ht Hm He Hr Hs Hp] Hl] Hw']. cbn [ds_encoding ds_layout ds_raw_size ds_codepoints ds_raw] in *.
    subst layout width. split_and!; try done. rewrite Hr. unfold string_bytes.
    by rewrite (runtime_encode_width options), nul_unit_fixed by done.
Qed.

Lemma elem_of_nul_candidates bs d : d ∈ nul_candidates bs options <-> nul_reading options bs d.
Proof.
  pose proof (fun w => decode_nul_iff w bs d) as H.
  pose proof (H 1 (or_introl eq_refl)) as H1. unfold decode_nul in H1. cbn [Z.eqb] in H1.
  unfold nul_candidates. rewrite elem_of_app, elem_of_option_list, H1.
  destruct (allow_unicode options) eqn:Eu.
  - pose proof (H 2 (or_intror (conj eq_refl (or_introl eq_refl)))) as H2.
    pose proof (H 4 (or_intror (conj eq_refl (or_intror eq_refl)))) as H4.
    unfold decode_nul in H2, H4. cbn [Z.eqb Pos.eqb] in H2, H4.
    rewrite elem_of_app, !elem_of_option_list, H2, H4.
    destruct (ds_encoding d); cbn [unit_width]; intuition congruence.
  - rewrite elem_of_nil. split; [by intros [[]|[? _]]|]. intros Hr. right. split; [done|].
    destruct Hr as [[_ _ He _ _ _] _]. destruct (ds_encoding d); cbn in *; intuition congruence.
Qed.
End Widths.

(** ** [std::max_element] *)

Lemma max_element_spec {A} (lt : A -> A -> bool) (l : list A) x :
  (forall y, lt y y = false) ->
  (forall y z w, lt y z = true -> lt z w = true -> lt y w = true) ->
  max_element lt l = Some x -> x ∈ l /\ forall y, y ∈ l -> lt x y = false.
Proof.
  intros Hirr Htr. destruct l as [|x0 r]; [done|]. cbn [max_element].
  assert (forall largest seen, largest ∈ seen -> (forall y, y ∈ seen -> lt largest y = false) ->
    let m := foldl (fun largest y => if lt largest y then y else largest) largest r in
    m ∈ seen ++ r /\ forall y, y ∈ seen ++ r -> lt m y = false) as H.
  { induction r as [|y r IH]; intros largest seen Hin Hmax; cbn [foldl].
    { rewrite app_nil_r. done. }
    replace (seen ++ y :: r) with ((seen ++ [y]) ++ r) by (by rewrite <- app_assoc).
    destruct (lt largest y) eqn:E; (apply IH; [apply elem_of_app|]).
    - right. by apply list_elem_of_singleton.
    - intros z [Hz| ->%list_elem_of_singleton]%elem_of_app; [|apply Hirr].
      destruct (lt y z) eqn:E'; [|done]. specialize (Hmax z Hz).
      rewrite (Htr _ _ _ E E') in Hmax. done.
    - by left.
    - intros z [Hz| ->%list_elem_of_singleton]%elem_of_app; [by apply Hmax|done]. }
  intros [= <-]. apply (H x0 [x0]); [by apply list_elem_of_singleton|]. intros y ->%list_elem_of_singleton. apply Hirr.
Qed.

Lemma candidate_lt_irrefl d : candidate_lt d d = false.
Proof. apply (lt_irrefl (lt := pair_lt Z.ltb Z.ltb)). Qed.

Lemma candidate_lt_trans a b c :
  candidate_lt a b = true -> candidate_lt b c = true -> candidate_lt a c = true.
Proof. apply (lt_trans (lt := pair_lt Z.ltb Z.ltb)). Qed.

(** ** Prefixes *)

Definition prefix_width (width : Z) : Prop := width = 1 \/ width = 2 \/ width = 4.

Lemma fixed_bytes_length be width v : prefix_width width -> zlen (fixed_bytes be width v) = width.
Proof. intros [->|[->| ->]]; by destruct be. Qed.

Lemma read_prefix_fixed be width v rest :
  prefix_width width -> 0 <= v < 2 ^ (8 * width) ->
  read_prefix (fixed_bytes be width v ++ rest) width be = v.
Proof.
  intros [->|[->| ->]] Hv; unfold fixed_bytes; cbn [Z.eqb Pos.eqb].
  - cbn [app read_prefix Z.eqb Pos.eqb]. rewrite b2z_z2b. apply Z.mod_small. lia.
  - destruct (unit16_two (negb be) v) as (a & b & Hab). rewrite Hab.
    cbn [app read_prefix Z.eqb Pos.eqb]. rewrite read_u16_text. apply read_unit16; [lia|done].
  - assert (v / 65536 = v / 256 / 256) as E2 by (by rewrite Z.div_div).
    assert (v / 16777216 = v / 256 / 256 / 256) as E3 by (by rewrite !Z.div_div).
    assert (v / 256 / 256 / 256 < 256) by (rewrite !Z.div_div by lia; apply Z.div_lt_upper_bound; lia).
    assert (0 <= v / 256 / 256 / 256) by (repeat apply Z.div_pos; lia).
    pose proof (Z.div_mod v 256 ltac:(lia)). pose proof (Z.div_mod (v / 256) 256 ltac:(lia)).
    pose proof (Z.div_mod (v / 256 / 256) 256 ltac:(lia)).
    unfold utf32_encode. destruct be; cbn [negb rev app read_prefix Z.eqb Pos.eqb];
      rewrite read_u32_text, read_u32_value, !b2z_z2b, E2, E3; cbn [negb];
      rewrite (Z.mod_small (v / 256 / 256 / 256)) by lia; lia.
Qed.

Lemma read_prefix_bytes be width bs :
  prefix_width width -> width <= zlen bs ->
  0 <= read_prefix bs width be < 2 ^ (8 * width) /\
  bs = fixed_bytes be width (read_prefix bs width be) ++ drop (Z.to_nat width) bs.
Proof.
  intros [->|[->| ->]] Hl; unfold fixed_bytes; cbn [Z.eqb Pos.eqb].
  - destruct bs as [|a r]; [done|]. cbn [read_prefix Z.eqb Pos.eqb]. pose proof (b2z_range a).
    split; [lia|]. rewrite z2b_b2z. cbn. by rewrite ?drop_0.
  - destruct bs as [|a [|b r]]; [done..|]. cbn [read_prefix Z.eqb Pos.eqb].
    rewrite read_u16_text, unit16_read. split; [|cbn; by rewrite ?drop_0].
    rewrite read_u16_value. pose proof (b2z_range a). pose proof (b2z_range b).
    destruct (negb be); lia.
  - destruct bs as [|a [|b [|c [|d r]]]]; [done..|]. cbn [read_prefix Z.eqb Pos.eqb].
    rewrite read_u32_text, utf32_encode_read. split; [|cbn; by rewrite ?drop_0].
    rewrite read_u32_value. pose proof (b2z_range a). pose proof (b2z_range b).
    pose proof (b2z_range c). pose proof (b2z_range d). destruct (negb be); lia.
Qed.

Lemma checked_payload_size_iff units width prefix maximum payload raw :
  prefix_width width -> prefix_width prefix -> 0 <= units < 2 ^ (8 * prefix) ->
  checked_payload_size units width prefix maximum = Some (payload, raw) <->
  units <> 0 /\ payload = units * width /\ raw = prefix + payload /\ raw <= maximum.
Proof.
  intros Hw Hp Hu.
  assert (units < 2 ^ 32) as Hu'.
  { destruct Hp as [->|[->| ->]]; cbn in Hu; lia. }
  assert (u64_max / width <? units = false) as Hn.
  { apply Z.ltb_ge. destruct Hw as [->|[->| ->]]; unfold u64_max; div_mod_lia. }
  assert (0 < width) by (destruct Hw as [->|[->| ->]]; lia).
  assert (0 < prefix) by (destruct Hp as [->|[->| ->]]; lia).
  unfold checked_payload_size. rewrite Hn, orb_false_r. cbn zeta.
  destruct (Z.eqb_spec units 0) as [->|Hu0]; [split; [done|]; by intros [? _]|].
  destruct (Z.ltb_spec maximum (units * width)); cbn [orb].
  { split; [done|]. intros (_ & -> & -> & ?). lia. }
  destruct (Z.ltb_spec (maximum - units * width) prefix).
  { split; [done|]. intros (_ & -> & -> & ?). lia. }
  split; [intros [= <- <-]; split_and!; lia|]. intros (_ & -> & -> & _). done.
Qed.

(** *** Length-prefixed candidates *)

Section Pascal.
Context (options : StringScanOptions).
Hypothesis minimum_positive : 1 <= minimum_characters options.

Definition width_tried (width : Z) : Prop :=
  width = 1 \/ (allow_unicode options = true /\ (width = 2 \/ width = 4)).

Lemma width_tried_prefix width : width_tried width -> prefix_width width.
Proof. unfold width_tried, prefix_width. tauto. Qed.

Lemma layout_prefix_width layout : layout <> NUL_TERMINATED -> prefix_width (layout_prefix_size layout).
Proof. unfold prefix_width. destruct layout; cbn; tauto. Qed.

Lemma unit_width_prefix encoding : prefix_width (unit_width encoding).
Proof. unfold prefix_width. destruct encoding; cbn; tauto. Qed.

(** The bytes of a text are whole units. *)
Lemma runtime_encode_units encoding cps :
  zlen (runtime_encode encoding cps) =
    zlen (runtime_encode encoding cps) / unit_width encoding * unit_width encoding.
Proof.
  assert (forall le, zlen (concat (map (utf16_encode le) cps)) mod 2 = 0) as H2.
  { intros le. destruct (utf16_concat_length le cps) as [k Hk]. unfold zlen. rewrite Hk. div_mod_lia. }
  assert (forall le, zlen (concat (map (utf32_encode le) cps)) mod 4 = 0) as H4.
  { intros le. rewrite utf32_concat_length. div_mod_lia. }
  destruct encoding; cbn [runtime_encode unit_width]; rewrite ?Z.div_1_r, ?Z.mul_1_r; try done.
  - specialize (H2 true). div_mod_lia.
  - specialize (H2 false). div_mod_lia.
  - specialize (H4 true). div_mod_lia.
  - specialize (H4 false). div_mod_lia.
Qed.

Lemma runtime_encode_nonempty encoding cps : cps <> [] -> 0 < zlen (runtime_encode encoding cps).
Proof.
  destruct cps as [|cp cps]; [done|]. intros _.
  assert (forall encode : Z -> bytes, (0 < length (encode cp))%nat ->
    0 < zlen (concat (map encode (cp :: cps)))) as H.
  { intros encode He. cbn [map concat]. rewrite zlen_app. unfold zlen. lia. }
  destruct encoding; apply H; auto using utf8_encode_nonempty, utf16_encode_nonempty,
    utf32_encode_nonempty.
Qed.

Lemma string_bytes_pascal be layout encoding cps :
  layout <> NUL_TERMINATED ->
  string_bytes be layout encoding cps =
    fixed_bytes be (layout_prefix_size layout)
      (zlen (runtime_encode encoding cps) / unit_width encoding) ++ runtime_encode encoding cps.
Proof. by destruct layout. Qed.

(** What an attempt of a width and a layout returns, on a buffer that holds the prefix. *)
Lemma pascal_attempt_sound width layout bs d :
  width_tried width -> layout <> NUL_TERMINATED -> layout_prefix_size layout <= zlen bs ->
  pascal_attempt bs (layout_prefix_size layout) layout options width (width_decode options width) = Some d ->
  pascal_reading options bs d /\ unit_width (ds_encoding d) = width /\ ds_layout d = layout.
Proof.
  intros Hw Hl Hz. pose proof (layout_prefix_width layout Hl) as Hp.
  pose proof (width_tried_prefix width Hw) as Hwp.
  destruct (read_prefix_bytes (image_big_endian options) _ bs Hp Hz) as [Hu Hbs].
  unfold pascal_attempt. cbn zeta. set (units := read_prefix _ _ _) in *.
  set (rest := drop _ bs) in *. destruct (checked_payload_size _ _ _ _) as [[ps raw]|] eqn:Ec; [|done].
  apply checked_payload_size_iff in Ec as (Hu0 & -> & -> & Hmax); [|done..].
  pose proof (fixed_bytes_length (image_big_endian options) _ units Hp) as Hfl.
  assert (zlen bs - layout_prefix_size layout = zlen rest) as ->
    by (rewrite Hbs at 1; rewrite zlen_app, Hfl; lia).
  destruct (Z.ltb_spec (zlen rest) (units * width)) as [|Hav]; [done|].
  destruct (width_decode _ _ _) as [[cps encoding]|] eqn:Ed; [|done].
  apply width_decode_iff in Ed as (Ht & Htake & Hm & He & Hue); [|done..]. intros [= <-].
  rewrite <- Hue, <- runtime_encode_width in Htake by done. subst width.
  assert (zlen (runtime_encode encoding cps) = units * unit_width encoding) as Hlen.
  { rewrite <- Htake. unfold zlen. rewrite length_take. unfold zlen in Hav. 
    destruct Hwp as [E|[E|E]]; rewrite E in *; lia. }
  assert (zlen (runtime_encode encoding cps) / unit_width encoding = units) as Hdiv.
  { rewrite Hlen. apply Z.div_mul. destruct Hwp as [E|[E|E]]; rewrite E; done. }
  assert (take (Z.to_nat (layout_prefix_size layout + units * unit_width encoding)) bs =
          string_bytes (image_big_endian options) layout encoding cps) as Hraw.
  { rewrite string_bytes_pascal, Hdiv by done.
    rewrite Hbs, <- (take_drop (Z.to_nat (units * unit_width encoding)) rest), Htake, app_assoc.
    replace (layout_prefix_size layout + units * unit_width encoding)
      with (zlen (fixed_bytes (image_big_endian options) (layout_prefix_size layout) units ++
                  runtime_encode encoding cps)); [apply take_zlen_app|].
    by rewrite zlen_app, Hfl, Hlen. }
  unfold assign_candidate. rewrite Hraw. split_and!; [|done..].
  assert (zlen (string_bytes (image_big_endian options) layout encoding cps) =
          layout_prefix_size layout + units * unit_width encoding) as Hrl
    by (rewrite string_bytes_pascal, Hdiv, zlen_app, Hfl, Hlen by done; done).
  split_and!; cbn [ds_layout ds_raw ds_encoding ds_codepoints]; [|done|lia|rewrite Hdiv; lia].
  split; cbn [ds_layout ds_raw ds_encoding ds_codepoints ds_raw_size]; try done.
  rewrite <- Hraw. eexists. symmetry. apply take_drop.
Qed.

Lemma pascal_attempt_complete width layout bs d :
  width_tried width -> layout <> NUL_TERMINATED ->
  pascal_reading options bs d -> unit_width (ds_encoding d) = width -> ds_layout d = layout ->
  pascal_attempt bs (layout_prefix_size layout) layout options width (width_decode options width) = Some d.
Proof.
  intros Hw Hl ([Ht Hm He Hr Hs [rest Hbs]] & _ & Hmax & Hfit) Hue Hla.
  destruct d as [encoding layout' size cps raw].
  cbn [ds_layout ds_raw ds_encoding ds_codepoints ds_raw_size] in *. subst layout' width.
  pose proof (layout_prefix_width layout Hl) as Hp. pose proof (unit_width_prefix encoding) as Hwp.
  rewrite string_bytes_pascal in Hr by done.
  set (payload := runtime_encode encoding cps) in *.
  set (units := zlen payload / unit_width encoding) in *.
  assert (zlen payload = units * unit_width encoding) as Hlen by apply runtime_encode_units.
  assert (cps <> []) as Hne by (intros ->; rewrite zlen_nil in Hm; lia).
  pose proof (runtime_encode_nonempty encoding cps Hne) as Hpos. fold payload in Hpos.
  assert (0 < units) as Hu by (destruct Hwp as [E|[E|E]]; rewrite E in *; lia).
  pose proof (fixed_bytes_length (image_big_endian options) _ units Hp) as Hfl.
  unfold pascal_attempt. cbn zeta. rewrite Hbs, Hr, <- !app_assoc.
  rewrite read_prefix_fixed by (done || lia).
  assert (zlen raw = layout_prefix_size layout + units * unit_width encoding) as Hrl
    by (rewrite Hr, zlen_app, Hfl, Hlen; done).
  assert (checked_payload_size units (unit_width encoding) (layout_prefix_size layout)
            (max_candidate_bytes options) = Some (units * unit_width encoding,
              layout_prefix_size layout + units * unit_width encoding)) as ->
    by (apply checked_payload_size_iff; [done|done|lia|split_and!; lia]).
  rewrite !zlen_app, Hfl.
  destruct (Z.ltb_spec (layout_prefix_size layout + (zlen payload + zlen rest) - layout_prefix_size layout)
              (units * unit_width encoding)) as [Hbad|_]; [pose proof (zlen_nonneg rest); lia|].
  rewrite <- Hfl at 1. unfold zlen at 1. rewrite Nat2Z.id, drop_app_length.
  rewrite <- Hlen, take_zlen_app.
  rewrite (proj2 (width_decode_iff options minimum_positive _ _ cps encoding Hw)).
  - unfold assign_candidate. do 2 f_equal; [rewrite Hs, Hrl; lia|].
    rewrite Hlen, <- Hrl, app_assoc, <- Hr. apply take_zlen_app.
  - unfold width_ok, payload. by rewrite <- runtime_encode_width.
Qed.

(** The candidates that one layout adds. *)
Definition layout_candidates (layout : StringLayout) (bs : bytes) : list DecodedString :=
  let attempt width :=
    option_list (pascal_attempt bs (layout_prefix_size layout) layout options width
                   (width_decode options width)) in
  if zlen bs <? layout_prefix_size layout then []
  else attempt 1 ++ if allow_unicode options then attempt 2 ++ attempt 4 else [].

Lemma add_pascal_interpretations_eq bs layout candidates :
  layout <> NUL_TERMINATED ->
  add_pascal_interpretations bs (layout_prefix_size layout) layout options candidates =
    candidates ++ layout_candidates layout bs.
Proof.
  intros Hl. unfold add_pascal_interpretations, layout_candidates. cbn zeta.
  destruct (zlen bs <? layout_prefix_size layout); [by rewrite app_nil_r|].
  destruct (allow_unicode options); cbn [negb]; rewrite ?app_nil_r, ?app_assoc; done.
Qed.

Lemma elem_of_layout_candidates layout bs d :
  layout <> NUL_TERMINATED ->
  d ∈ layout_candidates layout bs <-> pascal_reading options bs d /\ ds_layout d = layout.
Proof.
  intros Hl. unfold layout_candidates. cbn zeta.
  destruct (Z.ltb_spec (zlen bs) (layout_prefix_size layout)) as [Hz|Hz].
  - split; [by intros ?%elem_of_nil|]. intros [([_ _ _ Hr _ [rest Hp]] & _) Hd]. exfalso.
    rewrite Hr, string_bytes_pascal, Hd in Hp by (by rewrite Hd). rewrite Hp in Hz.
    rewrite !zlen_app, fixed_bytes_length in Hz by (by apply layout_prefix_width).
    match type of Hz with _ + zlen ?a + zlen ?b < _ =>
      pose proof (zlen_nonneg a); pose proof (zlen_nonneg b) end. lia.
  - assert (forall width, width_tried width ->
      d ∈ option_list (pascal_attempt bs (layout_prefix_size layout) layout options width
                         (width_decode options width)) <->
      pascal_reading options bs d /\ unit_width (ds_encoding d) = width /\ ds_layout d = layout)
      as Ha.
    { intros width Hw. rewrite elem_of_option_list.
      split; [by apply pascal_attempt_sound|]. intros (? & ? & ?). by apply pascal_attempt_complete. }
    rewrite elem_of_app, (Ha 1) by (by left).
    destruct (allow_unicode options) eqn:Eu.
    + rewrite elem_of_app, (Ha 2), (Ha 4) by (right; auto).
      destruct (ds_encoding d); cbn [unit_width]; intuition congruence.
    + rewrite elem_of_nil. split; [by intros [(? & _ & ?)|[]]|]. intros [Hr Hd]. left.
      split_and!; [done| |done]. destruct Hr as [[_ _ He _ _ _] _].
      destruct (ds_encoding d); cbn in *; intuition congruence.
Qed.

(** Candidates of different attempts differ, so counting them counts readings. *)
Lemma layout_candidates_NoDup layout bs : layout <> NUL_TERMINATED -> NoDup (layout_candidates layout bs).
Proof.
  intros Hl. unfold layout_candidates. cbn zeta.
  destruct (Z.ltb_spec (zlen bs) (layout_prefix_size layout)) as [Hz|Hz]; [constructor|].
  assert (forall A (o : option A), NoDup (option_list o)) as Hn
    by (intros A [x|]; repeat constructor; apply not_elem_of_nil).
  assert (forall width d, width_tried width ->
    d ∈ option_list (pascal_attempt bs (layout_prefix_size layout) layout options width
                       (width_decode options width)) -> unit_width (ds_encoding d) = width) as Hu.
  { intros width d Hw Hd%elem_of_option_list. by apply pascal_attempt_sound in Hd as (_ & ? & _). }
  destruct (allow_unicode options) eqn:Eu; [|rewrite app_nil_r; apply Hn].
  assert (width_tried 1 /\ width_tried 2 /\ width_tried 4) as (H1 & H2 & H4)
    by (unfold width_tried; tauto).
  apply NoDup_app. split_and!; [apply Hn| |apply NoDup_app; split_and!; [apply Hn| |apply Hn]].
  - intros d Hd%(Hu 1 d H1) [Hd'%(Hu 2 d H2)|Hd'%(Hu 4 d H4)]%elem_of_app; congruence.
  - intros d Hd%(Hu 2 d H2) Hd'%(Hu 4 d H4). congruence.
Qed.

Lemma pascal_candidates_eq bs :
  pascal_candidates bs options =
    (layout_candidates PASCAL8 bs ++ layout_candidates PASCAL16 bs) ++ layout_candidates PASCAL32 bs.
Proof.
  unfold pascal_candidates.
  by rewrite (add_pascal_interpretations_eq bs PASCAL8), (add_pascal_interpretations_eq bs PASCAL16),
    (add_pascal_interpretations_eq bs PASCAL32).
Qed.

Lemma elem_of_pascal_candidates bs d :
  d ∈ pascal_candidates bs options <-> pascal_reading options bs d.
Proof.
  rewrite pascal_candidates_eq, !elem_of_app, !elem_of_layout_candidates by done.
  split; [tauto|]. intros Hr. assert (ds_layout d <> NUL_TERMINATED) as Hl by apply Hr.
  destruct (ds_layout d); tauto.
Qed.

Lemma pascal_candidates_NoDup bs : NoDup (pascal_candidates bs options).
Proof.
  rewrite pascal_candidates_eq.
  assert (forall l1 l2 d, l1 <> NUL_TERMINATED -> l2 <> NUL_TERMINATED -> l1 <> l2 ->
    d ∈ layout_candidates l1 bs -> d ∉ layout_candidates l2 bs) as Hx.
  { intros l1 l2 d H1 H2 Hne Hd1 Hd2. apply elem_of_layout_candidates in Hd1 as [_ ?]; [|done].
    apply elem_of_layout_candidates in Hd2 as [_ ?]; [|done]. congruence. }
  apply NoDup_app. split_and!; [apply NoDup_app; split_and!| |];
    try by apply layout_candidates_NoDup.
  - intros d. by apply Hx.
  - intros d [Hd|Hd]%elem_of_app; revert Hd; by apply Hx.
Qed.

End Pascal.

(** A list without duplicates has one element exactly when some element is the only one. *)
Lemma singleton_iff {A} (l : list A) x :
  NoDup l -> l = [x] <-> x ∈ l /\ forall y, y ∈ l -> y = x.
Proof.
  intros Hn. split.
  - intros ->. split; [by apply list_elem_of_singleton|]. by intros y ->%list_elem_of_singleton.
  - intros [Hx Hall]. destruct l as [|a [|b l]]; [by apply elem_of_nil in Hx| |].
    + by rewrite (Hall a) by (by left).
    + apply NoDup_cons in Hn as [Ha _]. exfalso. apply Ha.
      rewrite (Hall a) by (by left). rewrite (Hall b) by (right; left). by left.
Qed.

(** ** Properties *)

(** The NUL-terminated candidate of a place in a buffer is a best reading of the
    bytes there.  A reading is a text of at least the demanded number of characters in
    one of the tried encodings, whose encoded bytes and terminator are a prefix of the
    buffer.  When there is no reading the code finds none; otherwise the candidate is a
    reading, with its exact raw bytes, size and code points, and no reading has more
    characters, or as many and more bytes. *)
Theorem nul_candidate_exact (options : StringScanOptions) (bs : bytes) :
  1 <= minimum_characters options ->
  match best_nul_candidate bs options with
  | Some d =>
      nul_reading options bs d /\
      forall d', nul_reading options bs d' -> candidate_lt d d' = false
  | None => forall d, ~ nul_reading options bs d
  end.
Proof.
  intros Hm. pose proof (elem_of_nul_candidates options Hm bs) as Hin.
  destruct (best_nul_candidate bs options) as [d|] eqn:E; unfold best_nul_candidate in E.
  - destruct (max_element_spec _ _ _ candidate_lt_irrefl candidate_lt_trans E) as [Hd Hmax].
    split; [by apply Hin|]. intros d' Hd'. by apply Hmax, Hin.
  - intros d Hd%Hin. destruct (nul_candidates bs options); [|done]. by apply elem_of_nil in Hd.
Qed.

Lemma nul_candidate_exact_witness :
  exists d, best_nul_candidate [x54; x65; x78; x74; x00; x41] default_scan_options = Some d /\
            nul_reading default_scan_options [x54; x65; x78; x74; x00; x41] d.
Proof.
  pose proof (nul_candidate_exact default_scan_options [x54; x65; x78; x74; x00; x41] ltac:(done)) as H.
  destruct (best_nul_candidate [x54; x65; x78; x74; x00; x41] default_scan_options) as [d|] eqn:E.
  - exists d. split; [reflexivity|]. exact (proj1 H).
  - exfalso. vm_compute in E. discriminate E.
Defined.

(** A length-prefixed candidate is reported exactly when it is the only reading.  A
    reading is a text in one of the tried encodings behind a prefix of one, two or four
    bytes in the byte order of the image that counts its code units, complete within
    the buffer and within the size limit; the code reports [d] exactly when [d] is such
    a reading and there is no other, in any encoding or layout. *)
Theorem pascal_candidate_exact (options : StringScanOptions) (bs : bytes) (d : DecodedString) :
  1 <= minimum_characters options ->
  unique_pascal_candidate bs options = Some d <->
  allow_length_prefixed options = true /\ pascal_reading options bs d /\
  forall d', pascal_reading options bs d' -> d' = d.
Proof.
  intros Hm. pose proof (elem_of_pascal_candidates options Hm bs) as Hin.
  pose proof (singleton_iff _ d (pascal_candidates_NoDup options Hm bs)) as Hs.
  assert (unique_pascal_candidate bs options = Some d <->
          allow_length_prefixed options = true /\ pascal_candidates bs options = [d]) as ->.
  { unfold unique_pascal_candidate. destruct (allow_length_prefixed options); cbn [negb];
      [|naive_solver]. destruct (pascal_candidates bs options) as [|? [|? ?]]; naive_solver. }
  rewrite Hs. setoid_rewrite Hin. done.
Qed.

Lemma pascal_candidate_exact_witness :
  exists d, unique_pascal_candidate [x04; x54; x65; x78; x74; x00] default_scan_options = Some d /\
            pascal_reading default_scan_options [x04; x54; x65; x78; x74; x00] d.
Proof.
  destruct (unique_pascal_candidate [x04; x54; x65; x78; x74; x00] default_scan_options)
    as [d|] eqn:E.
  - exists d. split; [reflexivity|].
    apply (pascal_candidate_exact default_scan_options [x04; x54; x65; x78; x74; x00] d ltac:(done)) in E.
    exact (proj1 (proj2 E)).
  - exfalso. vm_compute in E. discriminate E.
Defined.
