(* ===== verification/RuntimeWrites.v ===== *)
(** Write groups and the overlap gates of the runtime enrichment
    ([checked_end], [ranges_overlap], [run_key], [collect_write_groups],
    [range_has_conflict], [write_then_execute_runs] and [read_precedes_edge] of
    [src/src/runtime_enrich_core.cpp]) over the observations of [src/src/emu_driver.hpp]. *)
From stdpp Require Import base numbers list strings option sets.
From Stdlib Require Import ZArith Init.Byte Sorting.Sorted Lia.
From S2P Require Import Prelude OrderedMap Loops.

(** ** Observations *)

Inductive DataScope : Type :=
| DataScope_IMAGE
| DataScope_STACK
| DataScope_HEAP
| DataScope_OTHER.

#[export] Instance DataScope_eq_dec : EqDecision DataScope.
Proof. solve_decision. Defined.

Definition scope_value (scope : DataScope) : Z :=
  match scope with
  | DataScope_IMAGE => 0
  | DataScope_STACK => 1
  | DataScope_HEAP => 2
  | DataScope_OTHER => 3
  end.

Inductive ExecEdgeKind : Type :=
| ExecEdge_Unknown
| ExecEdge_Call
| ExecEdge_Jump
| ExecEdge_Return.

Record ExecEdge : Type := {
  edge_from : Z;
  edge_to : Z;
  edge_run_id : Z;
  edge_seed : Z;
  edge_kind : ExecEdgeKind;
  edge_sequence : Z
}.

Record ExecPoint : Type := {
  pt_pc : Z;
  pt_sequence : Z;
  pt_run_id : Z;
  pt_seed : Z
}.

Record DataAcc : Type := {
  acc_from : Z;
  acc_addr : Z;
  acc_value : Z;
  acc_size : Z;
  acc_kind : Z;
  acc_scope : DataScope;
  acc_sequence : Z;
  acc_run_id : Z;
  acc_seed : Z
}.

Record MemoryBytes : Type := {
  mb_addr : Z;
  mb_bytes : bytes;
  mb_scope : DataScope;
  mb_run_id : Z;
  mb_seed : Z
}.

Record RunKey : Type := {
  rk_run_id : Z;
  rk_seed : Z
}.

#[export] Instance RunKey_eq_dec : EqDecision RunKey.
Proof. solve_decision. Defined.

Definition run_key_lt (a b : RunKey) : bool :=
  pair_lt Z.ltb Z.ltb (rk_run_id a, rk_seed a) (rk_run_id b, rk_seed b).

(** [run_key], for each kind of observation. *)
Definition run_key_of_bytes (observation : MemoryBytes) : RunKey :=
  {| rk_run_id := mb_run_id observation; rk_seed := mb_seed observation |}.
Definition run_key_of_access (observation : DataAcc) : RunKey :=
  {| rk_run_id := acc_run_id observation; rk_seed := acc_seed observation |}.
Definition run_key_of_edge (observation : ExecEdge) : RunKey :=
  {| rk_run_id := edge_run_id observation; rk_seed := edge_seed observation |}.
Definition run_key_of_point (observation : ExecPoint) : RunKey :=
  {| rk_run_id := pt_run_id observation; rk_seed := pt_seed observation |}.

(** ** Ranges *)

(** The end of a range, unless it passes the last address. *)
Definition checked_end (start size : Z) : option Z :=
  if u64_max - start <? size then None else Some (start + size).

Definition ranges_overlap (left left_size right right_size : Z) : bool :=
  if (left_size =? 0) || (right_size =? 0) then false
  else
    match checked_end left left_size, checked_end right right_size with
    | Some left_end, Some right_end => (left <? right_end) && (right <? left_end)
    | _, _ => false
    end.

(** ** Write groups *)

Record WriteKey : Type := {
  wk_addr : Z;
  wk_scope : DataScope;
  wk_bytes : bytes
}.

Definition write_key_lt (a b : WriteKey) : bool :=
  pair_lt Z.ltb (pair_lt Z.ltb bytes_lt)
    (scope_value (wk_scope a), (wk_addr a, wk_bytes a))
    (scope_value (wk_scope b), (wk_addr b, wk_bytes b)).

Record WriteGroup : Type := {
  wg_key : WriteKey;
  wg_runs : list RunKey
}.

Definition write_corroborated (group : WriteGroup) : bool := 2 <=? zlen (wg_runs group).

Record WriteCollection : Type := {
  wc_groups : omap WriteKey WriteGroup;
  wc_observations : Z;
  wc_corroborated_groups : Z;
  wc_uncorroborated_groups : Z
}.

Definition write_key (observation : MemoryBytes) : WriteKey :=
  {| wk_addr := mb_addr observation; wk_scope := mb_scope observation;
     wk_bytes := mb_bytes observation |}.

(** The body of the first loop: the group of the key, made when it is new. *)
Definition add_write (groups : omap WriteKey WriteGroup) (observation : MemoryBytes) :
    omap WriteKey WriteGroup :=
  match mb_bytes observation with
  | [] => groups
  | _ =>
      let key := write_key observation in
      let runs := match map_find write_key_lt key groups with
                  | Some group => wg_runs group
                  | None => []
                  end in
      map_set write_key_lt key
        {| wg_key := key; wg_runs := set_insert run_key_lt (run_key_of_bytes observation) runs |}
        groups
  end.

(** The body of the second loop. *)
Definition count_group (counts : Z * Z) (entry : WriteKey * WriteGroup) : Z * Z :=
  if write_corroborated entry.2 then (counts.1 + 1, counts.2) else (counts.1, counts.2 + 1).

Definition collect_write_groups (observations : list MemoryBytes) : WriteCollection :=
  let groups := foldl add_write [] observations in
  let counts := foldl count_group (0, 0) groups in
  {| wc_groups := groups;
     wc_observations := zlen observations;
     wc_corroborated_groups := counts.1;
     wc_uncorroborated_groups := counts.2 |}.

(** ** Conflicts *)

Definition byte_at (l : bytes) (offset : Z) : byte := nth (Z.to_nat offset) l x00.

(** One turn of the loop over the observations: whether it returns [true]. *)
Definition conflicts_with (addr : Z) (expected : bytes) (expected_end : Z) (scope : DataScope)
    (observation : MemoryBytes) : bool :=
  if (mb_scope observation != scope) || (mb_bytes observation == []) then false
  else
    match checked_end (mb_addr observation) (zlen (mb_bytes observation)) with
    | None => true
    | Some observed_end =>
        let lo := Z.max addr (mb_addr observation) in
        let hi := Z.min expected_end observed_end in
        if hi <=? lo then false
        else existsb (fun ea => byte_at expected (ea - addr) !=
                                byte_at (mb_bytes observation) (ea - mb_addr observation))
                     (seqZ lo (hi - lo))
    end.

Definition range_has_conflict (observations : list MemoryBytes) (addr : Z) (expected : bytes)
    (scope : DataScope) : bool :=
  match expected, checked_end addr (zlen expected) with
  | [], _ => true
  | _, None => true
  | _, Some expected_end => existsb (conflicts_with addr expected expected_end scope) observations
  end.

(** ** The temporal gates

    The kinds of an access are values of the emulator's interface. *)
Section Temporal.
Context (RAX_MEM_READ RAX_MEM_WRITE : Z).

Definition executed_after (addr end_ : Z) (access : DataAcc) (point : ExecPoint) : bool :=
  (pt_run_id point =? acc_run_id access) && (pt_seed point =? acc_seed access) &&
  (acc_sequence access <? pt_sequence point) && (addr <=? pt_pc point) && (pt_pc point <? end_).

Definition add_run_of_access (execution : list ExecPoint) (addr size end_ : Z)
    (scope : DataScope) (result : list RunKey) (access : DataAcc) : list RunKey :=
  if negb (acc_kind access =? RAX_MEM_WRITE) || (acc_scope access != scope) ||
     (acc_size access =? 0) || negb (ranges_overlap addr size (acc_addr access) (acc_size access))
  then result
  else if existsb (executed_after addr end_ access) execution
  then set_insert run_key_lt (run_key_of_access access) result
  else result.

Definition write_then_execute_runs (accesses : list DataAcc) (execution : list ExecPoint)
    (addr size : Z) (scope : DataScope) : list RunKey :=
  if size =? 0 then []
  else
    match checked_end addr size with
    | None => []
    | Some end_ => foldl (add_run_of_access execution addr size end_ scope) [] accesses
    end.

Definition read_precedes_edge (read : DataAcc) (edge : ExecEdge) : bool :=
  (acc_kind read =? RAX_MEM_READ) && (acc_run_id read =? edge_run_id edge) &&
  (acc_seed read =? edge_seed edge) && (acc_sequence read <? edge_sequence edge).
End Temporal.

(** ** Lemmas *)

#[export] Instance run_key_lt_total : StrictTotal run_key_lt.
Proof.
  apply (StrictTotal_inj (pair_lt Z.ltb Z.ltb) (fun r => (rk_run_id r, rk_seed r))).
  intros [] []; simpl; congruence.
Qed.

Lemma scope_value_inj a b : scope_value a = scope_value b -> a = b.
Proof. by destruct a, b. Qed.

#[export] Instance write_key_lt_total : StrictTotal write_key_lt.
Proof.
  apply (StrictTotal_inj (pair_lt Z.ltb (pair_lt Z.ltb bytes_lt))
           (fun k => (scope_value (wk_scope k), (wk_addr k, wk_bytes k)))).
  intros [a s b] [a' s' b']; simpl. intros [= Hs -> ->]. f_equal. by apply scope_value_inj.
Qed.

Lemma checked_end_Some start size e :
  checked_end start size = Some e <-> start + size <= u64_max /\ e = start + size.
Proof. unfold checked_end. destruct (Z.ltb_spec (u64_max - start) size); naive_solver lia. Qed.

Lemma ranges_overlap_iff left left_size right right_size :
  0 <= left_size -> 0 <= right_size ->
  ranges_overlap left left_size right right_size = true <->
  left + left_size <= u64_max /\ right + right_size <= u64_max /\
  exists ea, left <= ea < left + left_size /\ right <= ea < right + right_size.
Proof.
  intros Hl Hr. unfold ranges_overlap.
  destruct (Z.eqb_spec left_size 0) as [->|]; cbn [orb].
  { split; [done|]. intros (_ & _ & ea & ? & ?). lia. }
  destruct (Z.eqb_spec right_size 0) as [->|]; cbn [orb].
  { split; [done|]. intros (_ & _ & ea & ? & ?). lia. }
  unfold checked_end. destruct (Z.ltb_spec (u64_max - left) left_size).
  { split; [done|]. lia. }
  destruct (Z.ltb_spec (u64_max - right) right_size).
  { split; [done|]. lia. }
  rewrite andb_true_iff, !Z.ltb_lt. split.
  - intros [? ?]. split_and!; [lia..|]. exists (Z.max left right). lia.
  - intros (_ & _ & ea & ? & ?). lia.
Qed.

(** *** Groups *)

Definition make_write_group (observation : MemoryBytes) (runs : list RunKey) : WriteGroup :=
  {| wg_key := write_key observation; wg_runs := runs |}.

Definition is_written (observation : MemoryBytes) : bool :=
  match mb_bytes observation with [] => false | _ => true end.

Lemma is_written_iff o : is_written o = true <-> mb_bytes o <> [].
Proof. unfold is_written. by destruct (mb_bytes o). Qed.

Lemma collect_groups_eq observations groups :
  foldl add_write groups observations =
    foldl (group_item write_key_lt run_key_lt write_key run_key_of_bytes make_write_group wg_runs)
      groups (List.filter is_written observations).
Proof.
  revert groups. induction observations as [|o observations IH]; intros groups; [done|].
  cbn [foldl List.filter]. unfold add_write at 2. unfold is_written at 1.
  destruct (mb_bytes o); [apply IH|]. cbn [foldl]. by rewrite IH.
Qed.

Lemma make_write_group_same i j : write_key i = write_key j -> make_write_group i = make_write_group j.
Proof. intros H. unfold make_write_group. by rewrite H. Qed.

Lemma count_groups_spec groups counts :
  foldl count_group counts groups =
    (counts.1 + zlen (List.filter (fun e => write_corroborated e.2) groups),
     counts.2 + (zlen groups - zlen (List.filter (fun e => write_corroborated e.2) groups))).
Proof.
  revert counts. induction groups as [|e groups IH]; intros [a b]; cbn [foldl List.filter].
  { rewrite zlen_nil. cbn. f_equal; lia. }
  rewrite IH. unfold count_group. destruct (write_corroborated e.2); cbn [fst snd];
    rewrite ?zlen_cons; f_equal; lia.
Qed.

(** A sorted set of runs has two elements exactly when two runs differ. *)
Lemma two_runs l :
  StrictSorted run_key_lt l -> 2 <= zlen l <-> exists r r', r ∈ l /\ r' ∈ l /\ r <> r'.
Proof.
  intros Hs%StrictSorted_NoDup; [|apply _]. destruct l as [|a [|b l]].
  - split; [done|]. by intros (r & ? & ?%elem_of_nil & _).
  - split; [done|]. by intros (r & r' & ->%list_elem_of_singleton & ->%list_elem_of_singleton & ?).
  - split; [|unfold zlen; simpl; lia]. intros _. exists a, b.
    split_and!; [by left|right; by left|]. intros ->. apply NoDup_cons in Hs as [Hn _].
    apply Hn. by left.
Qed.

(** ** Properties *)

(** The write groups are exact.  There is one group for each distinct scope, address
    and byte string that some observation with bytes reports; its runs are exactly the
    runs of those observations, each once, and it counts as corroborated exactly when
    two different runs agree on the write.  The two counters partition the groups, and
    the order of the observations does not matter. *)
Theorem write_groups_exact (observations : list MemoryBytes) :
  let c := collect_write_groups observations in
  map_ok write_key_lt (wc_groups c) /\
  (forall k, (exists g, map_find write_key_lt k (wc_groups c) = Some g) <->
     exists o, o ∈ observations /\ mb_bytes o <> [] /\ write_key o = k) /\
  (forall k g, map_find write_key_lt k (wc_groups c) = Some g ->
     wg_key g = k /\ NoDup (wg_runs g) /\
     (forall r, r ∈ wg_runs g <->
        exists o, o ∈ observations /\ write_key o = k /\ run_key_of_bytes o = r) /\
     (write_corroborated g = true <->
        exists o o', o ∈ observations /\ o' ∈ observations /\ write_key o = k /\
                     write_key o' = k /\ run_key_of_bytes o <> run_key_of_bytes o')) /\
  wc_corroborated_groups c =
    zlen (List.filter (fun e => write_corroborated e.2) (wc_groups c)) /\
  wc_corroborated_groups c + wc_uncorroborated_groups c = zlen (wc_groups c) /\
  forall observations', observations ≡ₚ observations' -> collect_write_groups observations' = c.
Proof.
  cbn zeta. unfold collect_write_groups at 1 2 3. cbn [wc_groups].
  set (written := List.filter is_written observations).
  destruct (group_items_spec write_key_lt run_key_lt write_key run_key_of_bytes make_write_group
              wg_runs (fun _ _ => eq_refl) written) as [Hok Hfind].
  { intros i j _ _. apply make_write_group_same. }
  pose proof (collect_groups_eq observations []) as Heq. fold written in Heq.
  rewrite <- Heq in Hok, Hfind.
  assert (forall o, o ∈ written <-> mb_bytes o <> [] /\ o ∈ observations) as Hw.
  { intros o. unfold written. by rewrite elem_of_filter, is_written_iff. }
  split_and!; [done| | | | |].
  - intros k. split.
    + intros (g & (o & [? ?]%Hw & Hk & _)%Hfind). by exists o.
    + intros (o & Ho & Hb & Hk). exists (make_write_group o (runs_of_key write_key_lt run_key_lt
        write_key run_key_of_bytes k written)). apply Hfind. exists o. by rewrite Hw.
  - intros k g (o & Ho & Hk & ->)%Hfind. unfold make_write_group. cbn [wg_key wg_runs].
    assert (forall r, r ∈ runs_of_key write_key_lt run_key_lt write_key run_key_of_bytes k written <->
              exists o, o ∈ observations /\ write_key o = k /\ run_key_of_bytes o = r) as Hr.
    { intros r. rewrite elem_of_runs_of_key by apply _. setoid_rewrite Hw.
      split; [intros (o' & [_ ?] & ? & ?); by exists o'|]. intros (o' & Ho' & Hk' & Hr'). exists o'. split_and!; try done.
      apply Hw in Ho as [Hb _]. intros Hb'. apply Hb.
      rewrite <- Hk' in Hk. injection Hk as _ _ ->. exact Hb'. }
    split_and!; [done| |exact Hr|].
    + apply (StrictSorted_NoDup run_key_lt), set_of_list_sorted, _.
    + unfold write_corroborated. cbn [wg_runs].
      rewrite Z.leb_le, two_runs by (apply set_of_list_sorted, _). setoid_rewrite Hr. split.
      * intros (r & r' & (a & ? & ? & <-) & (b & ? & ? & <-) & ?). by exists a, b.
      * intros (a & b & ? & ? & ? & ? & ?). exists (run_key_of_bytes a), (run_key_of_bytes b).
        split_and!; [by exists a|by exists b|done].
  - unfold collect_write_groups. cbn [wc_corroborated_groups wc_groups].
    by rewrite count_groups_spec.
  - unfold collect_write_groups. cbn [wc_corroborated_groups wc_uncorroborated_groups wc_groups].
    rewrite count_groups_spec. cbn [fst snd]. lia.
  - intros observations' Hp. unfold collect_write_groups.
    assert (foldl add_write [] observations' = foldl add_write [] observations) as ->.
    { rewrite !collect_groups_eq. symmetry.
      apply (group_items_perm write_key_lt run_key_lt); [done| |].
      - intros i j _ _. apply make_write_group_same.
      - clear -Hp. induction Hp as [|o l l' _ IH|o o' l|l1 l2 l3 _ IH1 _ IH2]; cbn [List.filter].
        + done.
        + destruct (is_written o); [by constructor|done].
        + destruct (is_written o), (is_written o'); try done. constructor.
        + by rewrite IH1. }
    unfold zlen. by rewrite (Permutation_length Hp).
Qed.

(** The byte that [bs], stored from [addr] on, has at address [ea]. *)
Definition byte_of (addr : Z) (bs : bytes) (ea : Z) : option byte :=
  if ea <? addr then None else bs !! Z.to_nat (ea - addr).

Lemma byte_of_Some addr bs ea b :
  byte_of addr bs ea = Some b ->
  addr <= ea < addr + zlen bs /\ byte_at bs (ea - addr) = b.
Proof.
  unfold byte_of, byte_at. destruct (Z.ltb_spec ea addr); [done|]. intros Hl.
  pose proof (lookup_lt_Some _ _ _ Hl). unfold zlen. split; [lia|].
  by apply nth_lookup_Some.
Qed.

Lemma byte_of_in addr bs ea :
  addr <= ea < addr + zlen bs -> byte_of addr bs ea = Some (byte_at bs (ea - addr)).
Proof.
  intros Hr. unfold byte_of, byte_at. destruct (Z.ltb_spec ea addr); [lia|].
  rewrite nth_lookup. destruct (lookup_lt_is_Some_2 bs (Z.to_nat (ea - addr))) as [b ->]; [|done].
  unfold zlen in Hr. lia.
Qed.

Lemma conflicts_with_iff addr expected scope o :
  conflicts_with addr expected (addr + zlen expected) scope o = true <->
  mb_scope o = scope /\ mb_bytes o <> [] /\
  (u64_max < mb_addr o + zlen (mb_bytes o) \/
   exists ea b b', byte_of addr expected ea = Some b /\
                   byte_of (mb_addr o) (mb_bytes o) ea = Some b' /\ b <> b').
Proof.
  unfold conflicts_with.
  destruct (bool_decide_reflect (mb_scope o = scope)) as [Hs|]; cbn [negb orb]; [|naive_solver].
  destruct (bool_decide_reflect (mb_bytes o = [])) as [|Hb]; [naive_solver|].
  unfold checked_end. destruct (Z.ltb_spec (u64_max - mb_addr o) (zlen (mb_bytes o))) as [Ho|Ho].
  { split; [|done]. intros _. split_and!; [done..|]. left. lia. }
  set (lo := Z.max _ _). set (hi := Z.min _ _). cbn zeta.
  assert ((exists ea b b', byte_of addr expected ea = Some b /\
             byte_of (mb_addr o) (mb_bytes o) ea = Some b' /\ b <> b') <->
          exists ea, lo <= ea < hi /\
            byte_at expected (ea - addr) <> byte_at (mb_bytes o) (ea - mb_addr o)) as Hx.
  { split.
    - intros (ea & b & b' & [? <-]%byte_of_Some & [? <-]%byte_of_Some & Hne). exists ea.
      split; [unfold lo, hi; lia|done].
    - intros (ea & Hea & Hne). exists ea. do 2 eexists.
      rewrite !byte_of_in by (unfold lo, hi in Hea; lia). done. }
  destruct (Z.leb_spec hi lo).
  - split; [done|]. intros (_ & _ & [?|(ea & ? & _)%Hx]); lia.
  - rewrite existsb_exists. setoid_rewrite <- list_elem_of_In. setoid_rewrite elem_of_seqZ.
    setoid_rewrite negb_true_iff. setoid_rewrite bool_decide_eq_false.
    replace (lo + (hi - lo)) with hi by lia. split.
    + intros Hex. split_and!; [done..|]. right. by apply Hx.
    + intros (_ & _ & [?|Hex]); [lia|]. by apply Hx.
Qed.

(** The conflict gate of a range fails closed and is exact otherwise: it reports a
    conflict exactly when the expected bytes are empty or would end past the last
    address, or when some observation of the same scope itself ends past the last
    address or stores, at some address common to both, a byte other than the expected
    one.  In particular an observation elsewhere, in another scope, or without bytes
    never blocks. *)
Theorem range_conflict_exact (observations : list MemoryBytes) (addr : Z) (expected : bytes)
    (scope : DataScope) :
  range_has_conflict observations addr expected scope = true <->
  expected = [] \/ u64_max < addr + zlen expected \/
  exists o, o ∈ observations /\ mb_scope o = scope /\ mb_bytes o <> [] /\
    (u64_max < mb_addr o + zlen (mb_bytes o) \/
     exists ea b b', byte_of addr expected ea = Some b /\
                     byte_of (mb_addr o) (mb_bytes o) ea = Some b' /\ b <> b').
Proof.
  unfold range_has_conflict. destruct expected as [|x r]; [naive_solver|].
  destruct (checked_end addr (zlen (x :: r))) as [e|] eqn:E.
  - apply checked_end_Some in E as [? ->]. rewrite existsb_exists.
    setoid_rewrite <- list_elem_of_In. setoid_rewrite conflicts_with_iff. split; [by auto|].
    intros [?|[?|?]]; [done|lia|done].
  - unfold checked_end in E. destruct (Z.ltb_spec (u64_max - addr) (zlen (x :: r))); [|done].
    split; [|done]. intros _. right. left. lia.
Qed.

Lemma elem_of_runs_of_accesses RAX_MEM_WRITE execution addr size end_ scope accesses result r :
  r ∈ foldl (add_run_of_access RAX_MEM_WRITE execution addr size end_ scope) result accesses <->
  r ∈ result \/
  exists access, access ∈ accesses /\ run_key_of_access access = r /\
    acc_kind access = RAX_MEM_WRITE /\ acc_scope access = scope /\
    ranges_overlap addr size (acc_addr access) (acc_size access) = true /\
    existsb (executed_after addr end_ access) execution = true.
Proof.
  revert result. induction accesses as [|a accesses IH]; intros result; cbn [foldl].
  { split; [by left|]. intros [?|(a & ?%elem_of_nil & _)]; done. }
  rewrite IH.
  assert (r ∈ add_run_of_access RAX_MEM_WRITE execution addr size end_ scope result a <->
    r ∈ result \/ (run_key_of_access a = r /\ acc_kind a = RAX_MEM_WRITE /\ acc_scope a = scope /\
      ranges_overlap addr size (acc_addr a) (acc_size a) = true /\
      existsb (executed_after addr end_ a) execution = true)) as ->.
  { unfold add_run_of_access.
    destruct (Z.eqb_spec (acc_kind a) RAX_MEM_WRITE); cbn [negb orb]; [|naive_solver].
    destruct (bool_decide_reflect (acc_scope a = scope)); cbn [negb orb]; [|naive_solver].
    destruct (ranges_overlap addr size (acc_addr a) (acc_size a)) eqn:Er; cbn [negb].
    - destruct (Z.eqb_spec (acc_size a) 0) as [Hz|]; cbn [orb].
      { unfold ranges_overlap in Er. rewrite Hz, orb_true_r in Er. done. }
      destruct (existsb _ _); [|naive_solver]. rewrite elem_of_set_insert by apply _. naive_solver.
    - rewrite orb_true_r. naive_solver. }
  setoid_rewrite elem_of_cons. split.
  - intros [[?|?]|(a' & ? & ?)]; [by left|right; exists a; tauto|right; exists a'; tauto].
  - intros [?|(a' & [->|?] & ?)]; [by do 2 left|left; right; tauto|right; by exists a'].
Qed.

(** The temporal gate of self-modifying code is exact: a run is reported, once,
    exactly when the candidate range is not empty and ends at an address, and in that
    run a write of the same scope to a byte of the range was followed, strictly later
    in the run's event order, by the execution of an address inside the range. *)
Theorem write_then_execute_exact (RAX_MEM_WRITE : Z) (accesses : list DataAcc)
    (execution : list ExecPoint) (addr size : Z) (scope : DataScope) :
  0 <= size -> (forall access, access ∈ accesses -> 0 <= acc_size access) ->
  let runs := write_then_execute_runs RAX_MEM_WRITE accesses execution addr size scope in
  StrictSorted run_key_lt runs /\
  forall r, r ∈ runs <->
    addr + size <= u64_max /\
    exists access point, access ∈ accesses /\ point ∈ execution /\
      acc_kind access = RAX_MEM_WRITE /\ acc_scope access = scope /\
      acc_addr access + acc_size access <= u64_max /\
      (exists ea, addr <= ea < addr + size /\
                  acc_addr access <= ea < acc_addr access + acc_size access) /\
      run_key_of_access access = r /\ run_key_of_point point = r /\
      acc_sequence access < pt_sequence point /\ addr <= pt_pc point < addr + size.
Proof.
  intros Hsize Hacc. cbn zeta. unfold write_then_execute_runs. split.
  - destruct (size =? 0); [constructor|]. destruct (checked_end addr size) as [e|]; [|constructor].
    assert (StrictSorted run_key_lt []) as Hs by constructor. revert Hs.
    generalize (@nil RunKey) as result. induction accesses as [|a accesses IH]; intros result Hs; [done|].
    cbn [foldl]. apply IH; [intros ? ?; apply Hacc; by right|].
    unfold add_run_of_access. repeat case_match; try done. apply set_insert_sorted; [apply _|done].
  - intros r. destruct (Z.eqb_spec size 0) as [->|Hnz].
    { rewrite elem_of_nil. split; [done|]. intros (_ & a & p & _ & _ & _ & _ & _ & (ea & ? & _) & _). lia. }
    destruct (checked_end addr size) as [e|] eqn:E.
    + apply checked_end_Some in E as [He ->].
      rewrite elem_of_runs_of_accesses, elem_of_nil. setoid_rewrite existsb_exists. split.
      * intros [[]|(a & Ha & Hr & Hk & Hs & Ho & p & Hp & Hx)]. split; [done|].
        apply ranges_overlap_iff in Ho as (_ & ? & Hea); [|done|by apply Hacc].
        apply list_elem_of_In in Hp. unfold executed_after in Hx.
        rewrite !andb_true_iff, !Z.eqb_eq, !Z.leb_le, !Z.ltb_lt in Hx.
        destruct Hx as [[[[H1 H2] ?] ?] ?]. exists a, p. split_and!; try done.
        unfold run_key_of_point. rewrite H1, H2. exact Hr.
      * intros (_ & a & p & Ha & Hp & Hk & Hs & Hu & Hea & Hr & Hr' & Hq & Hpc). right.
        exists a. split_and!; try done.
        -- apply ranges_overlap_iff; [done|by apply Hacc|done].
        -- exists p. split; [by apply list_elem_of_In|]. unfold executed_after.
           unfold run_key_of_access in Hr. unfold run_key_of_point in Hr'.
           rewrite <- Hr in Hr'. injection Hr' as H1 H2. rewrite H1, H2, !Z.eqb_refl.
           rewrite !andb_true_iff, !Z.leb_le, !Z.ltb_lt. lia.
    + rewrite elem_of_nil. unfold checked_end in E. split; [done|]. intros [? _].
      destruct (Z.ltb_spec (u64_max - addr) size); [lia|done].
Qed.

(** A byte of the range is written and then executed. *)
Lemma write_then_execute_exact_witness :
  let access := {| acc_from := 4096; acc_addr := 8192; acc_value := 144; acc_size := 1;
                   acc_kind := 1; acc_scope := DataScope_IMAGE; acc_sequence := 5;
                   acc_run_id := 2; acc_seed := 9 |} in
  let point := {| pt_pc := 8192; pt_sequence := 6; pt_run_id := 2; pt_seed := 9 |} in
  write_then_execute_runs 1 [access] [point] 8192 4 DataScope_IMAGE =
    [{| rk_run_id := 2; rk_seed := 9 |}] /\
  StrictSorted run_key_lt (write_then_execute_runs 1 [access] [point] 8192 4 DataScope_IMAGE).
Proof.
  cbn zeta. split; [reflexivity|].
  refine (proj1 (write_then_execute_exact 1 [_] [_] 8192 4 DataScope_IMAGE _ _)); [lia|].
  intros a ->%list_elem_of_singleton. cbn. lia.
Defined.

Example read_precedes_edge_example :
  read_precedes_edge 0
    {| acc_from := 1; acc_addr := 2; acc_value := 3; acc_size := 8; acc_kind := 0;
       acc_scope := DataScope_IMAGE; acc_sequence := 4; acc_run_id := 1; acc_seed := 1 |}
    {| edge_from := 1; edge_to := 3; edge_run_id := 1; edge_seed := 1;
       edge_kind := ExecEdge_Call; edge_sequence := 4 |} = false.
Proof. reflexivity. Qed.
