(* ===== verification/RuntimeStrings.v ===== *)
(** The string scan of the runtime enrichment ([collect_string_groups] of
    [src/src/runtime_enrich_core.cpp]): the merge of the pointer ranges, the pointer words
    of a buffer, the scan for candidates from left to right, and the groups. *)
From stdpp Require Import base numbers list strings option sets.
From Stdlib Require Import ZArith Init.Byte Sorting.Sorted Lia.
From S2P Require Import Prelude OrderedMap Loops Text RuntimeText RuntimeCandidates RuntimeWrites.

(** ** Groups *)

Record StringKey : Type := {
  sk_addr : Z;
  sk_scope : DataScope;
  sk_encoding : RuntimeEncoding;
  sk_layout : StringLayout;
  sk_raw : bytes
}.

Definition string_key_tuple (k : StringKey) : Z * (Z * (Z * (Z * bytes))) :=
  (scope_value (sk_scope k), (sk_addr k, (encoding_value (sk_encoding k),
   (layout_value (sk_layout k), sk_raw k)))).

Definition string_key_lt (a b : StringKey) : bool :=
  pair_lt Z.ltb (pair_lt Z.ltb (pair_lt Z.ltb (pair_lt Z.ltb bytes_lt)))
    (string_key_tuple a) (string_key_tuple b).

Record StringGroup : Type := {
  sg_key : StringKey;
  sg_codepoints : list Z;
  sg_runs : list RunKey
}.

Definition string_corroborated (group : StringGroup) : bool := 2 <=? zlen (sg_runs group).

Record StringCollection : Type := {
  sc_groups : omap StringKey StringGroup;
  sc_observations : Z
}.

Definition empty_collection : StringCollection := {| sc_groups := []; sc_observations := 0 |}.

(** ** Pointer words *)

Definition range_lt : Z * Z -> Z * Z -> bool := pair_lt Z.ltb Z.ltb.

(** The body of the merge: empty ranges are skipped, one that touches the last merged
    range extends it. *)
Definition merge_range (mapped : list (Z * Z)) (range : Z * Z) : list (Z * Z) :=
  if range.2 <=? range.1 then mapped
  else
    match last mapped with
    | Some back =>
        if range.1 <=? back.2 then removelast mapped ++ [(back.1, Z.max back.2 range.2)]
        else mapped ++ [range]
    | None => mapped ++ [range]
    end.

Definition merge_ranges (ranges : list (Z * Z)) : list (Z * Z) :=
  foldl merge_range [] (std_sort range_lt ranges).

(** [std::upper_bound], and the range before it. *)
Definition is_pointer (mapped : list (Z * Z)) (value : Z) : bool :=
  if value =? 0 then false
  else
    match last (lower_bound (fun range => negb (value <? range.1)) mapped).1 with
    | Some range => value <? range.2
    | None => false
    end.

Definition word_at (big_endian : bool) (bs : bytes) (width off : Z) : Z :=
  foldl (fun value i =>
           Z.lor (Z.shiftl value 8)
                 (b2z (byte_at bs (off + if big_endian then i else width - i - 1))))
        0 (seqZ 0 width).

(** The loop over the aligned words; every turn advances by the width. *)
Fixpoint pointer_offsets_loop (fuel : nat) (big_endian : bool) (mapped : list (Z * Z))
    (bs : bytes) (width off : Z) (pointer_offsets : list Z) : list Z :=
  match fuel with
  | O => pointer_offsets
  | S fuel' =>
      if (off <? zlen bs) && (width <=? zlen bs - off) then
        pointer_offsets_loop fuel' big_endian mapped bs width (off + width)
          (if is_pointer mapped (word_at big_endian bs width off)
           then pointer_offsets ++ [off] else pointer_offsets)
      else pointer_offsets
  end.

Definition pointer_offsets (options : StringScanOptions) (mapped : list (Z * Z))
    (observation : MemoryBytes) : list Z :=
  let width := pointer_width options in
  match mapped with
  | [] => []
  | _ =>
      if (width =? 4) || (width =? 8) then
        let first := (width - mb_addr observation mod width) mod width in
        pointer_offsets_loop (S (length (mb_bytes observation))) (image_big_endian options)
          mapped (mb_bytes observation) width first []
      else []
  end.

Definition overlaps_pointer (width : Z) (offsets : list Z) (start length : Z) : bool :=
  let '(low, high) := lower_bound (fun off => off <? start) offsets in
  (match high with off :: _ => off - start <? length | [] => false end) ||
  (match last low with Some off => start - off <? width | None => false end).

(** ** The scan *)

Definition select_candidate (nul_candidate pascal_candidate : option DecodedString) :
    option DecodedString :=
  match nul_candidate, pascal_candidate with
  | Some n, Some p => if same_candidate n p then Some n else None
  | Some n, None => Some n
  | None, p => p
  end.

(** One turn of the scan: the string that is taken at [offset], if any. *)
Definition found_at (options : StringScanOptions) (offsets : list Z) (observation : MemoryBytes)
    (offset : Z) : option DecodedString :=
  let width := pointer_width options in
  if overlaps_pointer width offsets offset 1 then None
  else
    let remaining := zlen (mb_bytes observation) - offset in
    let probe_size := Z.min (max_candidate_bytes options) remaining in
    let probe := take (Z.to_nat probe_size) (drop (Z.to_nat offset) (mb_bytes observation)) in
    match select_candidate (best_nul_candidate probe options)
                           (unique_pascal_candidate probe options) with
    | None => None
    | Some selected =>
        if (ds_raw_size selected =? 0) || (remaining <? ds_raw_size selected) ||
           (u64_max - mb_addr observation <? offset)
        then None
        else
          match checked_end (mb_addr observation + offset) (ds_raw_size selected) with
          | None => None
          | Some _ =>
              if overlaps_pointer width offsets offset (ds_raw_size selected) then None
              else Some selected
          end
    end.

Definition string_key (observation : MemoryBytes) (offset : Z) (selected : DecodedString) :
    StringKey := {|
  sk_addr := mb_addr observation + offset;
  sk_scope := mb_scope observation;
  sk_encoding := ds_encoding selected;
  sk_layout := ds_layout selected;
  sk_raw := ds_raw selected
|}.

(** What the turn does with it. *)
Definition add_string (result : StringCollection) (observation : MemoryBytes) (offset : Z)
    (selected : DecodedString) : StringCollection :=
  let key := string_key observation offset selected in
  let runs := match map_find string_key_lt key (sc_groups result) with
              | Some group => sg_runs group
              | None => []
              end in
  {| sc_groups := map_set string_key_lt key
       {| sg_key := key; sg_codepoints := ds_codepoints selected;
          sg_runs := set_insert run_key_lt (run_key_of_bytes observation) runs |}
       (sc_groups result);
     sc_observations := sc_observations result + 1 |}.

(** Every turn advances, so the length of the buffer is enough fuel. *)
Fixpoint scan_loop (fuel : nat) (options : StringScanOptions) (offsets : list Z)
    (observation : MemoryBytes) (offset count : Z) (result : StringCollection) :
    StringCollection :=
  match fuel with
  | O => result
  | S fuel' =>
      if (offset <? zlen (mb_bytes observation)) && (count <? max_candidates_per_write options)
      then
        match found_at options offsets observation offset with
        | None => scan_loop fuel' options offsets observation (offset + 1) count result
        | Some selected =>
            scan_loop fuel' options offsets observation (offset + ds_raw_size selected) (count + 1)
              (add_string result observation offset selected)
        end
      else result
  end.

Definition scan_observation (options : StringScanOptions) (mapped : list (Z * Z))
    (result : StringCollection) (observation : MemoryBytes) : StringCollection :=
  scan_loop (length (mb_bytes observation)) options (pointer_offsets options mapped observation)
    observation 0 0 result.

Definition collect_string_groups (observations : list MemoryBytes) (options : StringScanOptions) :
    StringCollection :=
  if (minimum_characters options =? 0) || (max_candidate_bytes options =? 0) ||
     (max_candidates_per_write options =? 0)
  then empty_collection
  else
    foldl (scan_observation options (merge_ranges (pointer_ranges options))) empty_collection
      observations.

(** Two adjacent strings in one buffer. *)
Example scan_two_strings :
  map (fun e => (sk_addr e.1, sg_codepoints e.2)) (sc_groups (collect_string_groups
    [{| mb_addr := 4096; mb_bytes := str_bytes "spam" ++ [x00] ++ str_bytes "eggs" ++ [x00];
        mb_scope := DataScope_HEAP; mb_run_id := 1; mb_seed := 7 |}] default_scan_options)) =
  [(4096, [115; 112; 97; 109]); (4101, [101; 103; 103; 115])].
Proof. vm_compute. reflexivity. Qed.

(** ** Pointer ranges *)

(** [value] lies in one of the ranges. *)
Definition covered (ranges : list (Z * Z)) (value : Z) : Prop :=
  exists range, range ∈ ranges /\ range.1 <= value < range.2.

(** Merged ranges are not empty and leave a gap between neighbours. *)
Definition merged (mapped : list (Z * Z)) : Prop :=
  Forall (fun range => range.1 < range.2) mapped /\
  StronglySorted (fun x y : Z * Z => x.2 < y.1) mapped.

Lemma covered_app l1 l2 v : covered (l1 ++ l2) v <-> covered l1 v \/ covered l2 v.
Proof. unfold covered. setoid_rewrite elem_of_app. naive_solver. Qed.

Lemma covered_one r v : covered [r] v <-> r.1 <= v < r.2.
Proof.
  unfold covered. setoid_rewrite list_elem_of_singleton. split; [by intros (? & -> & ?)|].
  intros ?. by exists r.
Qed.

Lemma merged_snoc mapped r :
  merged (mapped ++ [r]) <-> merged mapped /\ r.1 < r.2 /\ forall x, x ∈ mapped -> x.2 < r.1.
Proof.
  unfold merged. rewrite Forall_app, Forall_singleton, StronglySorted_app. split.
  - intros ([? ?] & Hx & ? & _). split_and!; try done. intros x Hin. apply Hx; [done|by left].
  - intros ([? ?] & ? & Hx). split_and!; try done; [|repeat constructor].
    intros x y Hin ->%list_elem_of_singleton. by apply Hx.
Qed.

Lemma merge_range_spec mapped r :
  merged mapped -> (forall back, last mapped = Some back -> back.1 <= r.1) ->
  merged (merge_range mapped r) /\
  (forall v, covered (merge_range mapped r) v <-> covered mapped v \/ r.1 <= v < r.2) /\
  (forall back, last (merge_range mapped r) = Some back -> back.1 <= r.1).
Proof.
  intros Hm Hback. unfold merge_range. destruct (Z.leb_spec r.2 r.1) as [Hr|Hr].
  { split_and!; [done| |done]. intros v. split; [by left|]. intros [?|?]; [done|lia]. }
  destruct mapped as [|back init _] using rev_ind.
  { cbn [last app]. split_and!; [by apply (merged_snoc []); split_and!; [done|lia|]; intros ? ?%elem_of_nil| |].
    - intros v. rewrite covered_one. split; [by right|]. intros [(x & ?%elem_of_nil & _)|?]; done.
    - intros b [= <-]. lia. }
  rewrite last_snoc in *. specialize (Hback back eq_refl).
  apply merged_snoc in Hm as (Hi & Hb & Hgap). destruct (Z.leb_spec r.1 back.2) as [Hc|Hc].
  - rewrite removelast_last. split_and!.
    + apply merged_snoc. cbn [fst snd]. split_and!; [done|lia|]. exact Hgap.
    + intros v. rewrite !covered_app, !covered_one. cbn [fst snd].
      split; [intros [?|?]; [by do 2 left|]|intros [[?|?]|?]; [by left|right; lia..]].
      destruct (Z.ltb_spec v back.2); [left; right|right]; lia.
    + intros b. rewrite last_snoc. intros [= <-]. cbn. lia.
  - split_and!.
    + apply merged_snoc. split_and!; [by apply merged_snoc|done|].
      intros x [Hx| ->%list_elem_of_singleton]%elem_of_app; [|done]. specialize (Hgap x Hx). lia.
    + intros v. by rewrite covered_app, covered_one.
    + intros b. rewrite last_snoc. intros [= <-]. lia.
Qed.

Lemma merge_ranges_from mapped ranges :
  merged mapped -> StronglySorted (le_by range_lt) ranges ->
  (forall back r, last mapped = Some back -> r ∈ ranges -> back.1 <= r.1) ->
  merged (foldl merge_range mapped ranges) /\
  forall v, covered (foldl merge_range mapped ranges) v <-> covered mapped v \/ covered ranges v.
Proof.
  intros Hm Hs. revert mapped Hm. induction Hs as [|r ranges _ IH Hr]; intros mapped Hm Hback; cbn [foldl].
  { split; [done|]. intros v. split; [by left|]. by intros [?|(x & ?%elem_of_nil & _)]. }
  destruct (merge_range_spec mapped r Hm) as (Hm' & Hc' & Hb').
  { intros back Hl. apply Hback; [done|by left]. }
  destruct (IH _ Hm') as [Hm'' Hc''].
  { intros back x Hl Hx. specialize (Hb' back Hl). rewrite Forall_forall in Hr. specialize (Hr x Hx).
    unfold le_by, range_lt, pair_lt in Hr. destruct (Z.ltb_spec x.1 r.1); [done|]. lia. }
  split; [done|]. intros v. rewrite Hc'', Hc'. change (r :: ranges) with ([r] ++ ranges).
  rewrite covered_app, covered_one. tauto.
Qed.

#[export] Instance range_lt_total : StrictTotal range_lt.
Proof. apply pair_lt_total; apply _. Qed.

Lemma merge_ranges_spec ranges :
  merged (merge_ranges ranges) /\ forall v, covered (merge_ranges ranges) v <-> covered ranges v.
Proof.
  unfold merge_ranges. destruct (merge_ranges_from [] (std_sort range_lt ranges)) as [Hm Hc].
  - split; constructor.
  - apply std_sort_sorted, _.
  - done.
  - split; [done|]. intros v. rewrite Hc. unfold covered at 1 2. setoid_rewrite (elem_of_std_sort range_lt).
    split; [|by right]. intros [(x & ?%elem_of_nil & _)|?]; done.
Qed.

Lemma is_pointer_iff mapped value :
  merged mapped -> is_pointer mapped value = true <-> value <> 0 /\ covered mapped value.
Proof.
  intros [Hne Hs]. unfold is_pointer. destruct (Z.eqb_spec value 0) as [->|H0]; [naive_solver|].
  set (p := fun range : Z * Z => negb (value <? range.1)).
  pose proof (lower_bound_app p mapped) as Happ. pose proof (lower_bound_low p mapped) as Hlow.
  pose proof (lower_bound_high p mapped) as Hhigh.
  destruct (lower_bound p mapped) as [low high]. cbn [fst snd] in *. subst mapped.
  apply StronglySorted_app in Hs as (_ & Hsl & Hsh).
  assert (forall r, r ∈ low -> r.1 <= value) as Hle.
  { intros r Hr%Hlow. unfold p in Hr. apply negb_true_iff, Z.ltb_ge in Hr. lia. }
  assert (~ covered high value) as Hnh.
  { intros (r & Hr & Hv). destruct high as [|x high]; [by apply elem_of_nil in Hr|].
    specialize (Hhigh x high eq_refl). unfold p in Hhigh. apply negb_false_iff, Z.ltb_lt in Hhigh.
    apply StronglySorted_inv in Hsh as [_ Hx]. rewrite Forall_forall in Hx, Hne.
    assert (x.1 < x.2) by (apply Hne; set_solver).
    apply elem_of_cons in Hr as [->|Hr]; [lia|]. specialize (Hx r Hr). lia. }
  rewrite covered_app. destruct low as [|r low _] using rev_ind.
  { cbn [last]. split; [done|]. by intros [_ [(x & ?%elem_of_nil & _)|?]]. }
  rewrite last_snoc, Z.ltb_lt, covered_app, covered_one.
  assert (r.1 <= value) as Hr by (apply Hle; set_solver). split; [intros; split; [done|left; right; lia]|].
  intros [_ [[(x & Hx & Hv)|?]|?]]; [|lia|done].
  apply StronglySorted_app in Hsl as (Hcross & _ & _).
  specialize (Hcross x r Hx ltac:(by left)). cbn in Hcross. lia.
Qed.

(** ** Pointer words *)

Lemma byte_at_drop bs off i :
  0 <= off -> 0 <= i -> byte_at bs (off + i) = nth (Z.to_nat i) (drop (Z.to_nat off) bs) x00.
Proof.
  intros Ho Hi. unfold byte_at. rewrite Z2Nat.inj_add by done.
  by rewrite !nth_lookup, lookup_drop.
Qed.

Lemma lor_byte v b : Z.lor (Z.shiftl v 8) (b2z b) = 256 * v + b2z b.
Proof. pose proof (b2z_range b). rewrite lor_shiftl_add by lia. lia. Qed.

Lemma word_at_value be bs width off :
  width = 4 \/ width = 8 -> 0 <= off -> off + width <= zlen bs ->
  word_at be bs width off = word_value be (take (Z.to_nat width) (drop (Z.to_nat off) bs)).
Proof.
  intros Hw Ho Hl. unfold word_at.
  assert (Z.to_nat width <= length (drop (Z.to_nat off) bs))%nat as Hlen.
  { rewrite length_drop. unfold zlen in Hl. lia. }
  assert (forall v i, 0 <= i < width ->
    Z.lor (Z.shiftl v 8) (b2z (byte_at bs (off + (if be then i else width - i - 1)))) =
    256 * v + b2z (nth (Z.to_nat (if be then i else width - i - 1)) (drop (Z.to_nat off) bs) x00)) as Hs.
  { intros v i Hi. rewrite lor_byte, byte_at_drop by (destruct be; lia). done. }
  set (l := drop (Z.to_nat off) bs) in *.
  destruct Hw as [->| ->].
  - change (seqZ 0 4) with [0; 1; 2; 3]. cbn [foldl]. rewrite !Hs by lia.
    destruct l as [|b0 [|b1 [|b2 [|b3 l]]]]; try (simpl in Hlen; lia). by destruct be.
  - change (seqZ 0 8) with [0; 1; 2; 3; 4; 5; 6; 7]. cbn [foldl]. rewrite !Hs by lia.
    destruct l as [|b0 [|b1 [|b2 [|b3 [|b4 [|b5 [|b6 [|b7 l]]]]]]]]; try (simpl in Hlen; lia).
    by destruct be.
Qed.

(** The word at [off] is aligned, whole, and a pointer into one of the ranges. *)
Definition pointer_word (options : StringScanOptions) (observation : MemoryBytes) (off : Z) : Prop :=
  let width := pointer_width options in
  let word := take (Z.to_nat width) (drop (Z.to_nat off) (mb_bytes observation)) in
  (width = 4 \/ width = 8) /\ 0 <= off /\ off + width <= zlen (mb_bytes observation) /\
  (mb_addr observation + off) mod width = 0 /\
  word_value (image_big_endian options) word <> 0 /\
  covered (pointer_ranges options) (word_value (image_big_endian options) word).

Lemma pointer_offsets_loop_spec fuel be mapped bs width off acc :
  0 < width -> 0 <= off -> zlen bs - off < Z.of_nat fuel ->
  StronglySorted Z.lt acc -> (forall x, x ∈ acc -> x < off) ->
  let offsets := pointer_offsets_loop fuel be mapped bs width off acc in
  StronglySorted Z.lt offsets /\
  forall x, x ∈ offsets <-> x ∈ acc \/
    (off <= x /\ (x - off) mod width = 0 /\ x + width <= zlen bs /\
     is_pointer mapped (word_at be bs width x) = true).
Proof.
  intros Hw. cbn zeta. revert off acc.
  induction fuel as [|fuel IH]; intros off acc Ho Hf Hs Hlt; cbn [pointer_offsets_loop].
  { split; [done|]. intros x. split; [by left|]. intros [?|?]; [done|lia]. }
  destruct ((off <? zlen bs) && (width <=? zlen bs - off)) eqn:E.
  - apply andb_true_iff in E as [E1%Z.ltb_lt E2%Z.leb_le].
    assert (forall x, off <= x /\ (x - off) mod width = 0 /\ x + width <= zlen bs <->
              x = off \/ (off + width <= x /\ (x - (off + width)) mod width = 0 /\ x + width <= zlen bs))
      as Hx.
    { intros x. replace (x - (off + width)) with (x - off + -1 * width) by lia.
      rewrite Z_mod_plus_full. split; [|intros [->|?]; [|lia]].
      - intros (? & Hm & ?). destruct (Z.eq_dec x off); [by left|]. right. split_and!; [|done..].
        assert (width <= x - off); [|lia]. destruct (Z.le_gt_cases width (x - off)); [done|].
        rewrite Z.mod_small in Hm by lia. lia.
      - rewrite Z.sub_diag, Z.mod_0_l by lia. lia. }
    set (p := is_pointer mapped (word_at be bs width off)).
    destruct (IH (off + width) (if p then acc ++ [off] else acc)) as [Hs' Hin].
    + lia.
    + lia.
    + destruct p; [|done]. apply StronglySorted_app. split_and!; [|done|repeat constructor].
      intros x y Hin ->%list_elem_of_singleton. by apply Hlt.
    + intros x. destruct p; [|intros H; specialize (Hlt x H); lia].
      intros [H| ->%list_elem_of_singleton]%elem_of_app; [specialize (Hlt x H)|]; lia.
    + split; [done|]. intros x. rewrite Hin. specialize (Hx x).
      assert (x ∈ (if p then acc ++ [off] else acc) <-> x ∈ acc \/ (x = off /\ p = true)) as ->.
      { destruct p; [rewrite elem_of_app, list_elem_of_singleton|]; naive_solver. }
      split.
      * intros [[?|[-> ?]]|(? & ? & ? & ?)]; [by left|right|right].
        -- destruct Hx as [_ Hx]. destruct (Hx (or_introl eq_refl)) as (? & ? & ?). done.
        -- split_and!; [lia|apply Hx; right; done|done|done].
      * intros [?|(? & ? & ? & ?)]; [by do 2 left|].
        destruct Hx as [Hx _]. destruct Hx as [->|(? & ? & ?)]; [done|left; by right|by right].
  - split; [done|]. intros x. split; [by left|]. intros [?|(? & _ & ? & _)]; [done|].
    apply andb_false_iff in E as [E%Z.ltb_ge|E%Z.leb_gt]; lia.
Qed.

Lemma word_phase a width off :
  0 < width -> 0 <= off ->
  (a + off) mod width = 0 <->
  let first := (width - a mod width) mod width in first <= off /\ (off - first) mod width = 0.
Proof.
  intros Hw Ho. cbn zeta. set (first := (width - a mod width) mod width).
  pose proof (Z.mod_pos_bound (width - a mod width) width Hw) as Hb. fold first in Hb.
  assert ((a + off) mod width = (off - first) mod width) as Heq.
  { pose proof (Z.div_mod (width - a mod width) width ltac:(lia)) as H1. fold first in H1.
    pose proof (Z.div_mod a width ltac:(lia)) as H2.
    set (q1 := (width - a mod width) / width) in *. set (q2 := a / width) in *.
    assert (a + off = off - first + (1 + q2 - q1) * width) as ->; [|by rewrite Z_mod_plus_full].
    clearbody first q1 q2. set (m := a mod width) in *. clearbody m. lia. }
  rewrite Heq. split; [|tauto]. intros H0. split; [|done].
  destruct (Z.le_gt_cases first off) as [|Hlt]; [done|].
  rewrite <- (Z_mod_plus_full _ 1), Z.mod_small in H0 by lia. lia.
Qed.

Lemma pointer_offsets_spec options observation :
  let offsets := pointer_offsets options (merge_ranges (pointer_ranges options)) observation in
  StronglySorted Z.lt offsets /\
  forall off, off ∈ offsets <-> pointer_word options observation off.
Proof.
  cbn zeta. destruct (merge_ranges_spec (pointer_ranges options)) as [Hm Hc].
  unfold pointer_offsets, pointer_word. cbn zeta.
  set (width := pointer_width options). set (bs := mb_bytes observation).
  destruct (merge_ranges (pointer_ranges options)) as [|m0 mapped] eqn:Em.
  { split; [constructor|]. intros off. split; [by intros ?%elem_of_nil|].
    intros (_ & _ & _ & _ & _ & (r & ?%elem_of_nil & _)%Hc). done. }
  rewrite <- Em in *. clear Em m0 mapped. set (mapped := merge_ranges (pointer_ranges options)) in *.
  destruct ((width =? 4) || (width =? 8)) eqn:Ew.
  - assert (width = 4 \/ width = 8) as Hw by (apply orb_true_iff in Ew; lia). clear Ew.
    pose proof (Z.mod_pos_bound (width - mb_addr observation mod width) width ltac:(lia)) as Hb.
    set (first := _ mod width) in *.
    destruct (pointer_offsets_loop_spec (S (length bs)) (image_big_endian options) mapped bs width
                first []) as [Hs Hin]; [lia|lia|unfold zlen; lia|constructor|by intros ? ?%elem_of_nil|].
    split; [done|]. intros off. rewrite Hin, elem_of_nil. split.
    + intros [[]|(Hf & Hphase & Hl & Hp)]. assert (0 <= off) by lia.
      rewrite word_at_value in Hp by (done || lia).
      apply is_pointer_iff in Hp as [? ?%Hc]; [|done]. split_and!; try done.
      apply word_phase; [lia|done|]. by split.
    + intros (_ & Ho & Hl & Hphase & H0 & Hcov). right.
      apply word_phase in Hphase as [? ?]; [|lia|done]. split_and!; try done.
      rewrite word_at_value by (done || lia). apply is_pointer_iff; [done|]. by rewrite Hc.
  - split; [constructor|]. intros off. split; [by intros ?%elem_of_nil|].
    intros ([Hw|Hw] & _); rewrite Hw in Ew; done.
Qed.

Lemma overlaps_pointer_iff width offsets start length :
  0 < width -> 0 < length -> StronglySorted Z.lt offsets ->
  overlaps_pointer width offsets start length = true <->
  exists off, off ∈ offsets /\ off < start + length /\ start < off + width.
Proof.
  intros Hw Hl Hs. unfold overlaps_pointer. set (p := fun off => off <? start).
  pose proof (lower_bound_app p offsets) as Happ. pose proof (lower_bound_low p offsets) as Hlow.
  pose proof (lower_bound_high p offsets) as Hhigh.
  destruct (lower_bound p offsets) as [low high]. cbn [fst snd] in *. subst offsets.
  apply StronglySorted_app in Hs as (_ & Hsl & Hsh). rewrite orb_true_iff. split.
  - intros [H|H].
    + destruct high as [|off high]; [done|]. specialize (Hhigh off high eq_refl).
      unfold p in Hhigh. exists off. split; [apply elem_of_app; right; by left|]. lia.
    + destruct low as [|off low _] using rev_ind; [done|]. rewrite last_snoc in H.
      specialize (Hlow off ltac:(set_solver)). unfold p in Hlow.
      exists off. split; [set_solver|]. lia.
  - intros (off & [Hin|Hin]%elem_of_app & H1 & H2).
    + right. destruct low as [|b low _] using rev_ind; [by apply elem_of_nil in Hin|].
      rewrite last_snoc. apply StronglySorted_app in Hsl as (Hc & _ & _).
      apply elem_of_app in Hin as [Hin| ->%list_elem_of_singleton]; [|lia].
      specialize (Hc off b Hin ltac:(by left)). lia.
    + left. destruct high as [|b high]; [by apply elem_of_nil in Hin|].
      apply elem_of_cons in Hin as [->|Hin]; [lia|].
      apply StronglySorted_inv in Hsh as [_ Hf]. rewrite Forall_forall in Hf.
      specialize (Hf off Hin). lia.
Qed.

(** ** What a turn takes *)

(** The bytes that the candidates at [offset] are read from. *)
Definition probe_at (options : StringScanOptions) (observation : MemoryBytes) (offset : Z) : bytes :=
  take (Z.to_nat (Z.min (max_candidate_bytes options) (zlen (mb_bytes observation) - offset)))
       (drop (Z.to_nat offset) (mb_bytes observation)).

(** Exactly one of the two kinds of candidates is there. *)
Definition selects (options : StringScanOptions) (probe : bytes) (d : DecodedString) : Prop :=
  (best_nul_candidate probe options = Some d /\ unique_pascal_candidate probe options = None) \/
  (best_nul_candidate probe options = None /\ unique_pascal_candidate probe options = Some d).

(** The scan takes [d] at [offset]: it is selected, ends at an address, and shares no byte
    with a pointer word. *)
Definition takes (options : StringScanOptions) (observation : MemoryBytes) (offset : Z)
    (d : DecodedString) : Prop :=
  selects options (probe_at options observation offset) d /\
  mb_addr observation + offset + zlen (ds_raw d) <= u64_max /\
  forall off, pointer_word options observation off ->
    off + pointer_width options <= offset \/ offset + zlen (ds_raw d) <= off.

(** [d] is a string that starts at [offset]: NUL-terminated or, if those are asked for, with
    a length prefix, within the size limit. *)
Definition reads (options : StringScanOptions) (observation : MemoryBytes) (offset : Z)
    (d : DecodedString) : Prop :=
  nul_reading options (probe_at options observation offset) d \/
  (allow_length_prefixed options = true /\
   pascal_reading options (probe_at options observation offset) d).

(** [d] is the only one. *)
Definition reads_only (options : StringScanOptions) (observation : MemoryBytes) (offset : Z)
    (d : DecodedString) : Prop :=
  reads options observation offset d /\ forall d', reads options observation offset d' -> d' = d.

(** [d] ends at an address, and shares no byte with a pointer word. *)
Definition placed (options : StringScanOptions) (observation : MemoryBytes) (offset : Z)
    (d : DecodedString) : Prop :=
  mb_addr observation + offset + zlen (ds_raw d) <= u64_max /\
  forall off, pointer_word options observation off ->
    off + pointer_width options <= offset \/ offset + zlen (ds_raw d) <= off.

Section Scan.
Context (options : StringScanOptions).
Hypothesis minimum_positive : 1 <= minimum_characters options.
Implicit Types (observation : MemoryBytes) (d : DecodedString).

Lemma selects_reading probe d : selects options probe d -> reading options probe d.
Proof.
  intros [[H _]|[_ H]].
  - pose proof (nul_candidate_exact options probe minimum_positive) as Hn. rewrite H in Hn.
    by destruct Hn as [[? _] _].
  - apply pascal_candidate_exact in H as (_ & [? _] & _); done.
Qed.

(** Candidates of the two kinds have different layouts, so they are never the same. *)
Lemma select_candidate_iff probe d :
  select_candidate (best_nul_candidate probe options) (unique_pascal_candidate probe options) = Some d <->
  selects options probe d.
Proof.
  unfold selects, select_candidate. pose proof (nul_candidate_exact options probe minimum_positive) as Hn.
  destruct (best_nul_candidate probe options) as [n|]; [|naive_solver].
  destruct Hn as [[_ Hn] _].
  destruct (unique_pascal_candidate probe options) as [p|] eqn:E; [|naive_solver].
  apply pascal_candidate_exact in E as (_ & (_ & Hp & _) & _); [|done].
  unfold same_candidate. rewrite (bool_decide_eq_false_2 (ds_layout n = ds_layout p)) by congruence.
  rewrite andb_false_r. cbn [andb]. naive_solver.
Qed.

(** What the selection means for the readings at an offset: a string with a length prefix is
    the only reading, a NUL-terminated one is a longest of its kind and is not
    contested by a single reading with a length prefix; the only reading is selected. *)
Lemma takes_reads observation offset d :
  takes options observation offset d ->
  reads options observation offset d /\ placed options observation offset d /\
  (ds_layout d <> NUL_TERMINATED -> reads_only options observation offset d) /\
  (ds_layout d = NUL_TERMINATED ->
     forall d', nul_reading options (probe_at options observation offset) d' ->
                candidate_lt d d' = false).
Proof.
  intros [Hs Hp]. unfold reads_only, reads.
  pose proof (nul_candidate_exact options (probe_at options observation offset) minimum_positive) as Hn.
  destruct Hs as [[E _]|[E Hpas]]; rewrite E in Hn.
  - destruct Hn as [Hd Hmax]. split_and!; [by left|done| |done]. by intros []; destruct Hd.
  - apply pascal_candidate_exact in Hpas as (Hal & Hd & Hu); [|done].
    split_and!; [by right|done| |].
    + intros _. split; [by right|]. intros d' [H|[_ H]]; [by destruct (Hn d')|by apply Hu].
    + intros Hl. by destruct Hd as (_ & ? & _).
Qed.

(** A taken string has no single rival of the other kind. *)
Lemma takes_uncontested observation offset d p :
  takes options observation offset d -> ds_layout d = NUL_TERMINATED ->
  allow_length_prefixed options = true ->
  pascal_reading options (probe_at options observation offset) p ->
  ~ forall p', pascal_reading options (probe_at options observation offset) p' -> p' = p.
Proof.
  intros [[[E Hno]|[_ Hpas]] _] Hl Hal Hp Hall.
  - assert (unique_pascal_candidate (probe_at options observation offset) options = Some p); [|congruence].
    by apply pascal_candidate_exact.
  - apply pascal_candidate_exact in Hpas as (_ & (_ & ? & _) & _); done.
Qed.

Lemma reads_only_takes observation offset d :
  reads_only options observation offset d -> placed options observation offset d ->
  takes options observation offset d.
Proof.
  intros [Hd Hu] Hp. split; [|done].
  pose proof (nul_candidate_exact options (probe_at options observation offset) minimum_positive) as Hn.
  destruct (unique_pascal_candidate (probe_at options observation offset) options) as [p|] eqn:Ep.
  - apply pascal_candidate_exact in Ep as Hpas; [|done]. destruct Hpas as (Hal & Hpas & _).
    assert (p = d) as -> by (apply Hu; by right). right. split; [|done].
    destruct (best_nul_candidate _ _) as [n|]; [|done]. destruct Hn as [Hn _].
    assert (n = d) as -> by (apply Hu; by left). by destruct Hn, Hpas as (_ & ? & _).
  - destruct Hd as [Hd|[Hal Hd]].
    + left. split; [|done]. destruct (best_nul_candidate _ _) as [n|]; [|by destruct (Hn d)].
      f_equal. apply Hu. left. apply Hn.
    + exfalso. assert (unique_pascal_candidate (probe_at options observation offset) options = Some d);
        [|congruence].
      apply pascal_candidate_exact; [done|]. split_and!; [done..|]. intros d' Hd'. apply Hu. by right.
Qed.

Lemma reading_raw_nonempty probe d : reading options probe d -> 0 < zlen (ds_raw d).
Proof.
  intros [_ Hm _ Hr _ _]. rewrite Hr. pose proof (zlen_nonneg (ds_codepoints d)).
  pose proof (runtime_encode_nonempty (ds_encoding d) (ds_codepoints d)) as Hne.
  assert (ds_codepoints d <> []) as Hc by (intros E; rewrite E, zlen_nil in Hm; lia).
  specialize (Hne Hc). unfold string_bytes. destruct (ds_layout d); rewrite zlen_app;
    match goal with |- context [zlen (fixed_bytes ?a ?b ?c)] =>
      pose proof (zlen_nonneg (fixed_bytes a b c)) end; lia.
Qed.

Lemma probe_at_length observation offset :
  0 <= max_candidate_bytes options -> 0 <= offset <= zlen (mb_bytes observation) ->
  zlen (probe_at options observation offset) =
    Z.min (max_candidate_bytes options) (zlen (mb_bytes observation) - offset).
Proof.
  intros Hmax Ho. unfold probe_at. unfold zlen at 1. rewrite length_take, length_drop.
  unfold zlen in *. lia.
Qed.

Hypothesis limit_positive : 1 <= max_candidate_bytes options.

Lemma selects_size observation offset d :
  0 <= offset <= zlen (mb_bytes observation) ->
  selects options (probe_at options observation offset) d ->
  ds_raw_size d = zlen (ds_raw d) /\ 0 < zlen (ds_raw d) <= max_candidate_bytes options /\
  offset + zlen (ds_raw d) <= zlen (mb_bytes observation) /\
  ds_raw d = take (length (ds_raw d)) (drop (Z.to_nat offset) (mb_bytes observation)).
Proof.
  intros Ho Hs%selects_reading. pose proof (reading_raw_nonempty _ _ Hs) as Hpos.
  destruct Hs as [_ _ _ _ Hs [rest Hp]].
  pose proof (probe_at_length observation offset ltac:(lia) Ho) as Hl.
  rewrite Hp, zlen_app in Hl. pose proof (zlen_nonneg rest).
  split_and!; [done|lia|lia|lia|].
  unfold probe_at in Hp. apply (f_equal (take (length (ds_raw d)))) in Hp.
  rewrite take_app_length, take_take in Hp. rewrite <- Hp at 1. f_equal.
  unfold zlen in *. lia.
Qed.

Definition word_offsets (observation : MemoryBytes) : list Z :=
  pointer_offsets options (merge_ranges (pointer_ranges options)) observation.

Lemma overlaps_word observation start length :
  0 < length ->
  overlaps_pointer (pointer_width options) (word_offsets observation) start length = true <->
  exists off, pointer_word options observation off /\ off < start + length /\
              start < off + pointer_width options.
Proof.
  intros Hl. destruct (pointer_offsets_spec options observation) as [Hs Hin].
  destruct (Z.ltb_spec 0 (pointer_width options)) as [Hw|Hw].
  - unfold word_offsets. rewrite overlaps_pointer_iff by done. by setoid_rewrite Hin.
  - assert (word_offsets observation = []) as ->.
    { destruct (word_offsets observation) as [|off l] eqn:E; [done|]. exfalso.
      assert (pointer_word options observation off) as ([?|?] & _)
        by (apply Hin; fold (word_offsets observation); rewrite E; by left); lia. }
    split; [done|]. by intros (off & ([?|?] & _) & _); lia.
Qed.

Lemma found_at_iff observation offset d :
  0 <= offset < zlen (mb_bytes observation) ->
  found_at options (word_offsets observation) observation offset = Some d <->
  takes options observation offset d.
Proof.
  intros Ho. unfold found_at, takes. cbn zeta. fold (probe_at options observation offset).
  assert ((forall off, pointer_word options observation off ->
             off + pointer_width options <= offset \/ offset + zlen (ds_raw d) <= off) <->
          ~ (exists off, pointer_word options observation off /\ off < offset + zlen (ds_raw d) /\
                         offset < off + pointer_width options)) as ->.
  { split.
    - intros H (off & Hp & ? & ?). destruct (H off Hp); lia.
    - intros H off Hp. destruct (Z.le_gt_cases (off + pointer_width options) offset); [by left|].
      right. destruct (Z.le_gt_cases (offset + zlen (ds_raw d)) off); [done|].
      exfalso. apply H. exists off. split_and!; [done|lia|lia]. }
  destruct (overlaps_pointer _ _ offset 1) eqn:E1.
  { split; [done|]. intros (Hsel & _ & Hno). exfalso. apply Hno.
    destruct (selects_size observation offset d ltac:(lia) Hsel) as (_ & ? & _).
    apply overlaps_word in E1 as (off & Hp & ? & ?); [|lia]. exists off. split_and!; [done|lia|lia]. }
  destruct (select_candidate _ _) as [d'|] eqn:Es.
  - apply select_candidate_iff in Es as Hsel'.
    destruct (selects_size observation offset d' ltac:(lia) Hsel') as (Hsz & Hpos & Hfit & _).
    rewrite Hsz. rewrite (proj2 (Z.eqb_neq (zlen (ds_raw d')) 0)) by lia.
    destruct (Z.ltb_spec (zlen (mb_bytes observation) - offset) (zlen (ds_raw d'))); [lia|].
    cbn [orb].
    assert (selects options (probe_at options observation offset) d <-> d' = d) as ->.
    { rewrite <- select_candidate_iff, Es. naive_solver. }
    destruct (Z.ltb_spec (u64_max - mb_addr observation) offset).
    { split; [done|]. intros (-> & ? & _). lia. }
    unfold checked_end. destruct (Z.ltb_spec (u64_max - (mb_addr observation + offset)) (zlen (ds_raw d'))).
    { split; [done|]. intros (-> & ? & _). lia. }
    pose proof (overlaps_word observation offset (zlen (ds_raw d')) ltac:(lia)) as Hov.
    destruct (overlaps_pointer _ _ offset (zlen (ds_raw d'))).
    + split; [done|]. intros (-> & _ & Hno). exfalso. by apply Hno, Hov.
    + split.
      * intros [= <-]. split_and!; [done|lia|]. intros Hx%Hov. done.
      * by intros (-> & _ & _).
  - split; [done|]. intros (Hsel & _). apply select_candidate_iff in Hsel. congruence.
Qed.

(** *** The scan as a list of what it takes *)

Fixpoint scan_hits (fuel : nat) (observation : MemoryBytes) (offset count : Z) :
    list (Z * DecodedString) :=
  match fuel with
  | O => []
  | S fuel' =>
      if (offset <? zlen (mb_bytes observation)) && (count <? max_candidates_per_write options)
      then
        match found_at options (word_offsets observation) observation offset with
        | None => scan_hits fuel' observation (offset + 1) count
        | Some d => (offset, d) :: scan_hits fuel' observation (offset + ds_raw_size d) (count + 1)
        end
      else []
  end.

Lemma scan_loop_hits fuel observation offset count result :
  scan_loop fuel options (word_offsets observation) observation offset count result =
    foldl (fun c h => add_string c observation h.1 h.2) result (scan_hits fuel observation offset count).
Proof.
  revert offset count result. induction fuel as [|fuel IH]; intros offset count result; [done|].
  cbn [scan_loop scan_hits]. destruct (_ && _); [|done].
  destruct (found_at _ _ _ _); [|apply IH]. cbn [foldl fst snd]. apply IH.
Qed.

Definition hit_end (h : Z * DecodedString) : Z := h.1 + zlen (ds_raw h.2).

(** The hits are taken from left to right without overlap, no more than the limit, and
    below the limit nothing that could be taken is passed over. *)
Lemma scan_hits_spec fuel observation offset count :
  0 <= offset -> zlen (mb_bytes observation) - offset <= Z.of_nat fuel ->
  0 <= count <= max_candidates_per_write options ->
  let hits := scan_hits fuel observation offset count in
  (forall h, h ∈ hits -> offset <= h.1 < zlen (mb_bytes observation) /\
                         takes options observation h.1 h.2) /\
  StronglySorted (fun h h' => hit_end h <= h'.1) hits /\
  count + zlen hits <= max_candidates_per_write options /\
  (count + zlen hits < max_candidates_per_write options ->
   forall o, offset <= o < zlen (mb_bytes observation) ->
     (forall h, h ∈ hits -> ~ (h.1 <= o < hit_end h)) -> forall d, ~ takes options observation o d).
Proof.
  cbn zeta. revert offset count. induction fuel as [|fuel IH]; intros offset count Ho Hf Hc;
    cbn [scan_hits].
  { split_and!; [by intros ? ?%elem_of_nil|constructor|rewrite zlen_nil; lia|]. intros. lia. }
  destruct ((offset <? zlen (mb_bytes observation)) && (count <? max_candidates_per_write options)) eqn:E.
  2: { split_and!; [by intros ? ?%elem_of_nil|constructor|rewrite zlen_nil; lia|].
       rewrite zlen_nil. intros Hlt o Ho' _. apply andb_false_iff in E as [?|?]; lia. }
  apply andb_true_iff in E as [E1%Z.ltb_lt E2%Z.ltb_lt].
  destruct (found_at _ _ _ _) as [d|] eqn:Ef.
  - apply found_at_iff in Ef; [|lia]. pose proof (proj1 Ef) as Hsel.
    destruct (selects_size observation offset d ltac:(lia) Hsel) as (Hsz & Hpos & Hfit & _).
    rewrite Hsz. destruct (IH (offset + zlen (ds_raw d)) (count + 1)) as (Ht & Hs & Hn & Hall);
      [lia|lia|lia|]. rewrite zlen_cons. split_and!; [| |lia|].
    + intros h [->|Hh]%elem_of_cons; [split; [cbn; lia|done]|]. destruct (Ht h Hh). split; [lia|done].
    + constructor; [done|]. apply Forall_forall. intros h Hh. destruct (Ht h Hh). unfold hit_end.
      cbn [fst snd]. lia.
    + intros Hlt o Hr Hno. apply Hall; [lia| |].
      * destruct (Z.le_gt_cases (offset + zlen (ds_raw d)) o); [lia|]. exfalso.
        apply (Hno (offset, d)); [by left|]. unfold hit_end. cbn. lia.
      * intros h Hh. apply Hno. by right.
  - destruct (IH (offset + 1) count) as (Ht & Hs & Hn & Hall); [lia..|].
    split_and!; [|done|done|].
    + intros h Hh. destruct (Ht h Hh). split; [lia|done].
    + intros Hlt o Hr Hno. destruct (Z.eq_dec o offset) as [->|].
      * intros d Hd%found_at_iff; [congruence|lia].
      * apply Hall; [lia|lia|done].
Qed.

(** The hits of an observation. *)
Definition string_hits (observation : MemoryBytes) : list (Z * DecodedString) :=
  scan_hits (length (mb_bytes observation)) observation 0 0.

Lemma scan_observation_hits result observation :
  scan_observation options (merge_ranges (pointer_ranges options)) result observation =
    foldl (fun c h => add_string c observation h.1 h.2) result (string_hits observation).
Proof. apply scan_loop_hits. Qed.

End Scan.


(** ** Groups *)

(** One string that the scan took, with its observation. *)
Notation hit := (MemoryBytes * (Z * DecodedString))%type.

Definition hit_key (h : hit) : StringKey := string_key h.1 h.2.1 h.2.2.
Definition hit_run (h : hit) : RunKey := run_key_of_bytes h.1.
Definition make_string_group (h : hit) (runs : list RunKey) : StringGroup :=
  {| sg_key := hit_key h; sg_codepoints := ds_codepoints h.2.2; sg_runs := runs |}.

Definition all_hits (options : StringScanOptions) (observations : list MemoryBytes) : list hit :=
  concat (map (fun o => map (pair o) (string_hits options o)) observations).

#[export] Instance string_key_lt_total : StrictTotal string_key_lt.
Proof.
  apply (StrictTotal_inj (pair_lt Z.ltb (pair_lt Z.ltb (pair_lt Z.ltb (pair_lt Z.ltb bytes_lt))))
           string_key_tuple).
  intros [a s e l r] [a' s' e' l' r']. unfold string_key_tuple. cbn.
  intros [= Hs -> He Hl ->]. apply scope_value_inj in Hs as ->.
  f_equal; [by destruct e, e'|by destruct l, l'].
Qed.

Lemma add_hits_eq hits result :
  foldl (fun c (h : hit) => add_string c h.1 h.2.1 h.2.2) result hits =
    {| sc_groups := foldl (group_item string_key_lt run_key_lt hit_key hit_run make_string_group sg_runs)
                      (sc_groups result) hits;
       sc_observations := sc_observations result + zlen hits |}.
Proof.
  revert result. induction hits as [|h hits IH]; intros [groups n]; cbn [foldl].
  { cbn. f_equal. rewrite zlen_nil. lia. }
  rewrite IH. unfold add_string. cbn [sc_groups sc_observations]. f_equal. rewrite zlen_cons. lia.
Qed.

Lemma collect_string_groups_eq observations options :
  minimum_characters options <> 0 -> max_candidate_bytes options <> 0 ->
  max_candidates_per_write options <> 0 ->
  collect_string_groups observations options =
    {| sc_groups := foldl (group_item string_key_lt run_key_lt hit_key hit_run make_string_group sg_runs)
                      [] (all_hits options observations);
       sc_observations := zlen (all_hits options observations) |}.
Proof.
  intros H1 H2 H3. unfold collect_string_groups.
  rewrite (proj2 (Z.eqb_neq _ _) H1), (proj2 (Z.eqb_neq _ _) H2), (proj2 (Z.eqb_neq _ _) H3).
  cbn [orb].
  assert (forall result, foldl (scan_observation options (merge_ranges (pointer_ranges options))) result
            observations = foldl (fun c (h : hit) => add_string c h.1 h.2.1 h.2.2) result
            (all_hits options observations)) as ->.
  { induction observations as [|o observations IH]; intros result; [done|].
    unfold all_hits. cbn [foldl map concat]. rewrite foldl_app, IH. fold (all_hits options observations).
    f_equal. rewrite scan_observation_hits. generalize (string_hits options o) as hits. revert result.
    clear. intros result hits. revert result.
    induction hits as [|h hits IH]; intros result; [done|]. cbn [map foldl]. apply IH. }
  rewrite add_hits_eq. f_equal.
Qed.

(** The bytes of a string in its layout determine its text. *)
Lemma string_bytes_inj be layout encoding cps cps' :
  Forall text_scalar cps -> Forall text_scalar cps' ->
  string_bytes be layout encoding cps = string_bytes be layout encoding cps' -> cps = cps'.
Proof.
  intros H H' Heq. apply (runtime_encode_inj encoding); [done..|].
  destruct (decide (layout = NUL_TERMINATED)) as [->|Hl].
  - by apply app_inv_tail in Heq.
  - rewrite !string_bytes_pascal in Heq by done. apply app_inj_1 in Heq as [_ Heq]; [done|].
    pose proof (fixed_bytes_length be _ (zlen (runtime_encode encoding cps) / unit_width encoding)
                  (layout_prefix_width layout Hl)).
    pose proof (fixed_bytes_length be _ (zlen (runtime_encode encoding cps') / unit_width encoding)
                  (layout_prefix_width layout Hl)).
    unfold zlen in *. lia.
Qed.

Section AllHits.
Context (options : StringScanOptions).
Hypothesis minimum_positive : 1 <= minimum_characters options.
Hypothesis limit_positive : 1 <= max_candidate_bytes options.
Hypothesis count_positive : 1 <= max_candidates_per_write options.

Lemma elem_of_all_hits observations h :
  h ∈ all_hits options observations <-> h.1 ∈ observations /\ h.2 ∈ string_hits options h.1.
Proof.
  unfold all_hits. rewrite elem_of_concat_map. setoid_rewrite list_elem_of_fmap. split.
  - by intros (o & Ho & x & -> & Hx).
  - intros [Ho Hx]. exists h.1. split; [done|]. exists h.2. by destruct h.
Qed.

Lemma string_hits_taken observation h :
  h ∈ string_hits options observation ->
  0 <= h.1 < zlen (mb_bytes observation) /\ takes options observation h.1 h.2.
Proof.
  intros Hh. edestruct (scan_hits_spec options minimum_positive limit_positive
    (length (mb_bytes observation)) observation 0 0) as (Ht & _); [lia|unfold zlen; lia|lia|].
  by apply Ht.
Qed.

Lemma all_hits_same observations h h' :
  h ∈ all_hits options observations -> h' ∈ all_hits options observations ->
  hit_key h = hit_key h' -> make_string_group h = make_string_group h'.
Proof.
  intros [_ Hh]%elem_of_all_hits [_ Hh']%elem_of_all_hits Hk. unfold make_string_group. rewrite Hk.
  assert (ds_codepoints h.2.2 = ds_codepoints h'.2.2) as ->; [|done].
  apply string_hits_taken in Hh as [_ [Hs%selects_reading _]]; [|done].
  apply string_hits_taken in Hh' as [_ [Hs'%selects_reading _]]; [|done].
  destruct Hs as [Ht _ _ Hr _ _], Hs' as [Ht' _ _ Hr' _ _].
  unfold hit_key, string_key in Hk. injection Hk as _ _ He Hl Hraw.
  rewrite Hr, Hr', He, Hl in Hraw. by apply string_bytes_inj in Hraw.
Qed.
End AllHits.

(** ** Properties *)

(** The pointer filter is exact.  With the given ranges sorted and merged and the
    words of the buffer classified once, a stretch of bytes is rejected exactly when it
    shares a byte with an aligned word of the image's byte order and pointer width that
    lies wholly in the buffer and whose value is not null and falls into one of the given
    ranges; overlapping, adjacent, empty and unordered ranges make no difference. *)
Theorem pointer_overlap_exact (options : StringScanOptions) (observation : MemoryBytes)
    (start length : Z) :
  0 < length ->
  overlaps_pointer (pointer_width options)
    (pointer_offsets options (merge_ranges (pointer_ranges options)) observation) start length = true <->
  exists off, pointer_word options observation off /\ off < start + length /\
              start < off + pointer_width options.
Proof. apply overlaps_word. Qed.

Definition sample_options : StringScanOptions := {|
  image_big_endian := false;
  allow_unicode := true;
  allow_length_prefixed := true;
  minimum_characters := 4;
  max_candidate_bytes := 4096;
  max_candidates_per_write := 64;
  pointer_width := 4;
  pointer_ranges := [(8192, 12288); (4096, 8192)]
|}.

(** A word that points into the image, then a string. *)
Definition sample_write : MemoryBytes := {|
  mb_addr := 65536;
  mb_bytes := [x00; x20; x00; x00] ++ str_bytes "spam" ++ [x00];
  mb_scope := DataScope_STACK;
  mb_run_id := 3;
  mb_seed := 11
|}.

Lemma pointer_overlap_exact_witness :
  exists off, pointer_word sample_options sample_write off /\ off < 2 + 1 /\ 2 < off + 4.
Proof.
  apply (proj1 (pointer_overlap_exact sample_options sample_write 2 1 ltac:(lia))).
  vm_compute. reflexivity.
Defined.

(** C33: the scan of one buffer takes strings from left to right.  What it adds to the
    collection is a list of strings, each at an offset of the buffer where its bytes
    are, ending at an address and clear of all pointer words; they do not overlap, and
    there are no more of them than the limit.  A string with a length prefix is taken
    only where it is the one string that can be read there; a NUL-terminated one is a
    longest of its kind and is not taken where a single length-prefixed string can be read
    too.  As long as the limit is not reached, the scan is complete for the unambiguous
    offsets: outside of the strings taken there is none where exactly one string can be
    read that ends at an address and is clear of the pointer words. *)
Theorem string_scan_exact (options : StringScanOptions) (observation : MemoryBytes)
    (result : StringCollection) :
  1 <= minimum_characters options -> 1 <= max_candidate_bytes options ->
  1 <= max_candidates_per_write options ->
  let prefixed offset := pascal_reading options (probe_at options observation offset) in
  exists hits,
    scan_observation options (merge_ranges (pointer_ranges options)) result observation =
      foldl (fun c h => add_string c observation h.1 h.2) result hits /\
    (forall h, h ∈ hits ->
       0 <= h.1 /\ hit_end h <= zlen (mb_bytes observation) /\
       reads options observation h.1 h.2 /\ placed options observation h.1 h.2) /\
    (forall h, h ∈ hits -> ds_layout h.2 <> NUL_TERMINATED ->
       reads_only options observation h.1 h.2) /\
    (forall h, h ∈ hits -> ds_layout h.2 = NUL_TERMINATED ->
       (forall d, nul_reading options (probe_at options observation h.1) d ->
          candidate_lt h.2 d = false) /\
       (allow_length_prefixed options = true ->
        forall d, prefixed h.1 d -> ~ forall d', prefixed h.1 d' -> d' = d)) /\
    StronglySorted (fun h h' => hit_end h <= h'.1) hits /\
    zlen hits <= max_candidates_per_write options /\
    (zlen hits < max_candidates_per_write options ->
     forall offset, 0 <= offset < zlen (mb_bytes observation) ->
       (forall h, h ∈ hits -> ~ (h.1 <= offset < hit_end h)) ->
       forall d, reads_only options observation offset d -> ~ placed options observation offset d).
Proof.
  intros Hm Hl Hc. cbn zeta. exists (string_hits options observation).
  destruct (scan_hits_spec options Hm Hl (length (mb_bytes observation)) observation 0 0)
    as (Ht & Hs & Hn & Hall); [lia|unfold zlen; lia|lia|].
  assert (forall h, h ∈ string_hits options observation -> takes options observation h.1 h.2) as Htk
    by (intros h Hh; by apply Ht).
  split_and!; [apply scan_observation_hits| | | |done|exact Hn|].
  - intros h Hh. destruct (Ht h Hh) as [Hr [Hsel _]].
    destruct (takes_reads options Hm _ _ _ (Htk h Hh)) as (? & ? & _).
    split_and!; [lia| |done..].
    by destruct (selects_size options Hm Hl observation h.1 h.2 ltac:(lia) Hsel) as (_ & _ & ? & _).
  - intros h Hh. by apply takes_reads; [|apply Htk].
  - intros h Hh Hlay. split; [by apply takes_reads; [|apply Htk|]|].
    intros Hal d Hd. by eapply (takes_uncontested options Hm _ _ h.2); [apply Htk|..].
  - intros Hlt offset Ho Hout d Hd Hp. apply (Hall Hlt offset Ho Hout d). by apply reads_only_takes.
Qed.

Lemma string_scan_exact_witness :
  exists hits,
    scan_observation sample_options (merge_ranges (pointer_ranges sample_options)) empty_collection
      sample_write = foldl (fun c h => add_string c sample_write h.1 h.2) empty_collection hits /\
    zlen hits <= 64.
Proof.
  destruct (string_scan_exact sample_options sample_write empty_collection) as (hits & H & _ & _ & _ & _ & Hn & _);
    [done..|]. by exists hits.
Defined.

(** Every reported string is really there, and nothing about it is invented.  For a
    group of the result, the raw bytes are the encoded form, in the group's layout and
    encoding, of the reported code points, which are text of at least the demanded
    length; they fit the size limit and end at an address; the runs are exactly the runs
    of the observations in which the scan took this string, each once; and each such
    observation holds the raw bytes at the reported address, clear of its pointer words. *)
Theorem string_groups_exact (observations : list MemoryBytes) (options : StringScanOptions) :
  1 <= minimum_characters options -> 1 <= max_candidate_bytes options ->
  1 <= max_candidates_per_write options ->
  let c := collect_string_groups observations options in
  map_ok string_key_lt (sc_groups c) /\
  forall k g, map_find string_key_lt k (sc_groups c) = Some g ->
    sg_key g = k /\
    Forall text_scalar (sg_codepoints g) /\
    minimum_characters options <= zlen (sg_codepoints g) /\
    sk_raw k = string_bytes (image_big_endian options) (sk_layout k) (sk_encoding k) (sg_codepoints g) /\
    zlen (sk_raw k) <= max_candidate_bytes options /\
    sk_addr k + zlen (sk_raw k) <= u64_max /\
    sg_runs g <> [] /\ NoDup (sg_runs g) /\
    forall r, r ∈ sg_runs g ->
      exists observation offset, observation ∈ observations /\ run_key_of_bytes observation = r /\
        mb_scope observation = sk_scope k /\ mb_addr observation + offset = sk_addr k /\ 0 <= offset /\
        sk_raw k = take (length (sk_raw k)) (drop (Z.to_nat offset) (mb_bytes observation)) /\
        forall off, pointer_word options observation off ->
          off + pointer_width options <= offset \/ offset + zlen (sk_raw k) <= off.
Proof.
  intros Hm Hl Hc. cbn zeta. rewrite collect_string_groups_eq by lia. cbn [sc_groups].
  destruct (group_items_spec string_key_lt run_key_lt hit_key hit_run make_string_group sg_runs
              (fun _ _ => eq_refl) (all_hits options observations)) as [Hok Hf].
  { intros h h'. by apply all_hits_same. }
  split; [done|]. intros k g (h & Hh & <- & ->)%Hf.
  assert (forall h', h' ∈ all_hits options observations ->
    h'.1 ∈ observations /\ 0 <= h'.2.1 < zlen (mb_bytes h'.1) /\ takes options h'.1 h'.2.1 h'.2.2) as Ht.
  { intros h' [? ?]%elem_of_all_hits. split; [done|]. by apply string_hits_taken. }
  destruct (Ht h Hh) as (Hin & Hr & Hsel & Hend & _).
  pose proof (selects_reading options Hm _ _ Hsel) as [Htext Hmin _ Hraw _ _].
  destruct (selects_size options Hm Hl h.1 h.2.1 h.2.2 ltac:(lia) Hsel) as (_ & Hpos & _ & _).
  unfold make_string_group, hit_key, string_key. cbn [sg_key sg_codepoints sg_runs sk_raw sk_layout sk_encoding sk_addr sk_scope].
  split_and!; [done..|lia|exact Hend| | |].
  - intros Hnil. apply (not_elem_of_nil (hit_run h)). rewrite <- Hnil.
    apply elem_of_runs_of_key; [apply _..|]. by exists h.
  - apply (StrictSorted_NoDup run_key_lt), set_of_list_sorted, _.
  - intros r (h' & Hh' & Hk & <-)%elem_of_runs_of_key; [|apply _..].
    destruct (Ht h' Hh') as (Hin' & Hr' & Hsel' & _ & Hclear).
    destruct (selects_size options Hm Hl h'.1 h'.2.1 h'.2.2 ltac:(lia) Hsel') as (_ & _ & _ & Hslice).
    unfold hit_key, string_key in Hk. injection Hk as Ha Hs _ _ Hraw'.
    rewrite Hraw' in Hslice, Hclear. exists h'.1, h'.2.1. split_and!; try done. lia.
Qed.

Lemma string_groups_exact_witness :
  map_ok string_key_lt (sc_groups (collect_string_groups [sample_write] sample_options)) /\
  map (fun e => (sk_addr e.1, sg_codepoints e.2))
    (sc_groups (collect_string_groups [sample_write] sample_options)) =
    [(65540, [115; 112; 97; 109])].
Proof.
  split; [|vm_compute; reflexivity].
  refine (proj1 (string_groups_exact [sample_write] sample_options _ _ _)); done.
Defined.

(** The order in which the observations arrive does not matter: the same groups, with
    the same runs, are collected. *)
Theorem string_groups_order_independent (observations observations' : list MemoryBytes)
    (options : StringScanOptions) :
  1 <= minimum_characters options -> 1 <= max_candidate_bytes options ->
  1 <= max_candidates_per_write options -> observations ≡ₚ observations' ->
  collect_string_groups observations options = collect_string_groups observations' options.
Proof.
  intros Hm Hl Hc Hp. rewrite !collect_string_groups_eq by lia.
  assert (all_hits options observations ≡ₚ all_hits options observations') as Hh.
  { unfold all_hits. clear -Hp. induction Hp; cbn [map concat]; [done|by f_equiv| |by etrans].
    rewrite !app_assoc. f_equiv. apply Permutation_app_comm. }
  f_equal; [|unfold zlen; by rewrite (Permutation_length Hh)].
  apply (group_items_perm string_key_lt run_key_lt); [done| |done].
  intros h h'. by apply all_hits_same.
Qed.

Lemma string_groups_order_independent_witness :
  let other := {| mb_addr := 4096; mb_bytes := str_bytes "eggs" ++ [x00]; mb_scope := DataScope_HEAP;
                  mb_run_id := 1; mb_seed := 2 |} in
  collect_string_groups [sample_write; other] sample_options =
  collect_string_groups [other; sample_write] sample_options.
Proof.
  cbn zeta. apply string_groups_order_independent; [done..|]. apply Permutation_swap.
Defined.
