(* ===== verification/Config.v ===== *)
(** Configuration from the environment ([src/src/viy_config.hpp],
    [src/src/viy_config.cpp]): the parsers of environment values, with [strtoull] of the
    C library, and the limits that every loaded configuration satisfies. *)
From stdpp Require Import base numbers list strings option sets.
From Stdlib Require Import ZArith Init.Byte Lia.
From S2P Require Import Prelude.

(** ** [std::strtoull(v, &end, 0)]

    White space, a sign, then digits in the base the prefix announces.  The result is
    the value, whether it was out of range, and the text from [end] on; [None] when
    nothing was converted. *)

Definition is_space (b : byte) : bool :=
  (b2z b =? 32) || ((9 <=? b2z b) && (b2z b <=? 13)).

Definition digit_value (b : byte) : Z :=
  let c := b2z b in
  if (48 <=? c) && (c <=? 57) then c - 48
  else if (97 <=? c) && (c <=? 122) then c - 87
  else if (65 <=? c) && (c <=? 90) then c - 55
  else 36.

Fixpoint skip_spaces (v : bytes) : bytes :=
  match v with
  | b :: r => if is_space b then skip_spaces r else v
  | [] => []
  end.

(** The digits of a number: its value, how many there are, and the rest. *)
Fixpoint read_digits (base : Z) (v : bytes) (value : Z) (count : nat) : Z * nat * bytes :=
  match v with
  | b :: r =>
      if digit_value b <? base then read_digits base r (value * base + digit_value b) (S count)
      else (value, count, v)
  | [] => (value, count, [])
  end.

Definition is_hex_digit (v : bytes) : bool :=
  match v with b :: _ => digit_value b <? 16 | [] => false end.

(** The base that the prefix announces, and the text where the digits start. *)
Definition number_base (v : bytes) : Z * bytes :=
  match v with
  | b :: r =>
      if b2z b =? 48 then
        match r with
        | x :: r' =>
            if ((b2z x =? 120) || (b2z x =? 88)) && is_hex_digit r' then (16, r') else (8, v)
        | [] => (8, v)
        end
      else (10, v)
  | [] => (10, v)
  end.

Definition sign_of (v : bytes) : bool * bytes :=
  match v with
  | b :: r =>
      if b2z b =? 45 then (true, r) else if b2z b =? 43 then (false, r) else (false, v)
  | [] => (false, [])
  end.

Definition strtoull (v : bytes) : option (Z * bool * bytes) :=
  let '(negative, v) := sign_of (skip_spaces v) in
  let '(base, v) := number_base v in
  let '(value, count, rest) := read_digits base v 0 0 in
  if Nat.eqb count 0 then None
  else if u64_max <? value then Some (u64_max, true, rest)
  else Some (if negative then (- value) mod 2 ^ 64 else value, false, rest).

(** ** Environment values

    The environment maps names to C strings. *)

Notation environment := (string -> option bytes).

Definition env_bool (env : environment) (name : string) (dflt : bool) : bool :=
  match env name with
  | None | Some [] => dflt
  | Some v =>
      negb ((v == str_bytes "0") || (v == str_bytes "false") || (v == str_bytes "no") ||
            (v == str_bytes "off"))
  end.

Fixpoint skip_blanks (v : bytes) : bytes :=
  match v with
  | b :: r => if (b2z b =? 32) || (b2z b =? 9) then skip_blanks r else v
  | [] => []
  end.

Fixpoint skip_trailing (v : bytes) : bytes :=
  match v with
  | b :: r =>
      if (b2z b =? 32) || (b2z b =? 9) || (b2z b =? 13) || (b2z b =? 10) then skip_trailing r
      else v
  | [] => []
  end.

Definition starts_with_minus (v : bytes) : bool :=
  match v with b :: _ => b2z b =? 45 | [] => false end.

Definition env_u64 (env : environment) (name : string) (dflt : Z) : Z :=
  match env name with
  | None | Some [] => dflt
  | Some v =>
      let v := skip_blanks v in
      if starts_with_minus v then dflt
      else
        match strtoull v with
        | None => dflt
        | Some (parsed, out_of_range, end_) =>
            if out_of_range then dflt
            else match skip_trailing end_ with [] => parsed | _ => dflt end
        end
  end.

Definition int_max : Z := 2 ^ 31 - 1.

Definition env_int (env : environment) (name : string) (dflt : Z) : Z :=
  let parsed := env_u64 env name (dflt mod 2 ^ 64) in
  if int_max <? parsed then int_max else parsed.

(** ** The configuration *)

Inductive ViyLogLevel : Type := QUIET | SUMMARY | PROGRESS | TRACE.

Definition log_level_value (level : ViyLogLevel) : Z :=
  match level with QUIET => 0 | SUMMARY => 1 | PROGRESS => 2 | TRACE => 3 end.

(** [ViyLogLevel(value)] of a value in range. *)
Definition log_level_of (value : Z) : ViyLogLevel :=
  if value =? 0 then QUIET else if value =? 1 then SUMMARY
  else if value =? 2 then PROGRESS else TRACE.

Record ViyConfig : Type := {
  cfg_enabled : bool;
  cfg_log_level : ViyLogLevel;
  cfg_progress_interval_ms : Z;
  cfg_max_insns : Z;
  cfg_timeout_ms : Z;
  cfg_max_funcs : Z;
  cfg_funcs_per_tick : Z;
  cfg_tick_ms : Z;
  cfg_max_epochs : Z;
  cfg_explore_runs : Z;
  cfg_workers : Z;
  cfg_make_code : bool;
  cfg_want_drefs : bool;
  cfg_want_static : bool;
  cfg_want_native : bool;
  cfg_want_deobf : bool;
  cfg_persist_evidence : bool;
  cfg_strict_perms : bool;
  cfg_want_import_summaries : bool;
  cfg_want_ptr_refs : bool;
  cfg_want_data_types : bool;
  cfg_want_comments : bool;
  cfg_want_strings : bool;
  cfg_want_runtime_strings : bool;
  cfg_want_unicode_strings : bool;
  cfg_want_tables : bool;
  cfg_want_function_recovery : bool;
  cfg_want_tail_recovery : bool;
  cfg_want_smc_evidence : bool;
  cfg_apply_runtime_bytes : bool;
  cfg_max_runtime_bytes : Z;
  cfg_want_switch : bool;
  cfg_want_purge : bool;
  cfg_want_noret : bool;
  cfg_set_noret : bool;
  cfg_want_argregs : bool;
  cfg_want_opaque : bool;
  cfg_opaque_runs : Z;
  cfg_want_hexrays_bridge : bool
}.

Definition default_config : ViyConfig := {|
  cfg_enabled := true;
  cfg_log_level := PROGRESS;
  cfg_progress_interval_ms := 1000;
  cfg_max_insns := 200000;
  cfg_timeout_ms := 1000;
  cfg_max_funcs := 0;
  cfg_funcs_per_tick := 2;
  cfg_tick_ms := 15;
  cfg_max_epochs := 3;
  cfg_explore_runs := 4;
  cfg_workers := 0;
  cfg_make_code := true;
  cfg_want_drefs := true;
  cfg_want_static := true;
  cfg_want_native := true;
  cfg_want_deobf := true;
  cfg_persist_evidence := true;
  cfg_strict_perms := true;
  cfg_want_import_summaries := true;
  cfg_want_ptr_refs := true;
  cfg_want_data_types := true;
  cfg_want_comments := true;
  cfg_want_strings := true;
  cfg_want_runtime_strings := true;
  cfg_want_unicode_strings := true;
  cfg_want_tables := true;
  cfg_want_function_recovery := true;
  cfg_want_tail_recovery := false;
  cfg_want_smc_evidence := true;
  cfg_apply_runtime_bytes := false;
  cfg_max_runtime_bytes := Z.shiftl 1 20;
  cfg_want_switch := false;
  cfg_want_purge := true;
  cfg_want_noret := true;
  cfg_set_noret := false;
  cfg_want_argregs := true;
  cfg_want_opaque := false;
  cfg_opaque_runs := 3;
  cfg_want_hexrays_bridge := false
|}.

(** The overrides, before the limits are applied. *)
Definition load_overrides (env : environment) (c : ViyConfig) : ViyConfig := {|
  cfg_enabled := env_bool env "VIY_ENABLED" (cfg_enabled c);
  cfg_log_level :=
    log_level_of (Z.min (Z.max (env_int env "VIY_LOG_LEVEL" (log_level_value (cfg_log_level c)))
                               (log_level_value QUIET)) (log_level_value TRACE));
  cfg_progress_interval_ms := env_u64 env "VIY_PROGRESS_INTERVAL_MS" (cfg_progress_interval_ms c);
  cfg_max_insns := env_u64 env "VIY_MAX_INSNS" (cfg_max_insns c);
  cfg_timeout_ms := env_u64 env "VIY_TIMEOUT_MS" (cfg_timeout_ms c);
  cfg_max_funcs := env_u64 env "VIY_MAX_FUNCS" (cfg_max_funcs c);
  cfg_funcs_per_tick := env_int env "VIY_FUNCS_PER_TICK" (cfg_funcs_per_tick c);
  cfg_tick_ms := env_int env "VIY_TICK_MS" (cfg_tick_ms c);
  cfg_max_epochs := env_int env "VIY_MAX_EPOCHS" (cfg_max_epochs c);
  cfg_explore_runs := env_int env "VIY_EXPLORE_RUNS" (cfg_explore_runs c);
  cfg_workers := env_int env "VIY_WORKERS" (cfg_workers c);
  cfg_make_code := env_bool env "VIY_MAKE_CODE" (cfg_make_code c);
  cfg_want_drefs := env_bool env "VIY_WANT_DREFS" (cfg_want_drefs c);
  cfg_want_static := env_bool env "VIY_STATIC" (cfg_want_static c);
  cfg_want_native := env_bool env "VIY_NATIVE" (cfg_want_native c);
  cfg_want_deobf := env_bool env "VIY_DEOBF" (cfg_want_deobf c);
  cfg_persist_evidence := env_bool env "VIY_PERSIST_EVIDENCE" (cfg_persist_evidence c);
  cfg_strict_perms := env_bool env "VIY_STRICT_PERMS" (cfg_strict_perms c);
  cfg_want_import_summaries := env_bool env "VIY_IMPORT_SUMMARIES" (cfg_want_import_summaries c);
  cfg_want_ptr_refs := env_bool env "VIY_PTR_REFS" (cfg_want_ptr_refs c);
  cfg_want_data_types := env_bool env "VIY_TYPE_DATA" (cfg_want_data_types c);
  cfg_want_comments := env_bool env "VIY_COMMENTS" (cfg_want_comments c);
  cfg_want_strings := env_bool env "VIY_STRINGS" (cfg_want_strings c);
  cfg_want_runtime_strings := env_bool env "VIY_RUNTIME_STRINGS" (cfg_want_runtime_strings c);
  cfg_want_unicode_strings := env_bool env "VIY_UNICODE_STRINGS" (cfg_want_unicode_strings c);
  cfg_want_tables := env_bool env "VIY_TABLES" (cfg_want_tables c);
  cfg_want_function_recovery := env_bool env "VIY_FUNCTION_RECOVERY" (cfg_want_function_recovery c);
  cfg_want_tail_recovery := env_bool env "VIY_TAIL_RECOVERY" (cfg_want_tail_recovery c);
  cfg_want_smc_evidence := env_bool env "VIY_SMC_EVIDENCE" (cfg_want_smc_evidence c);
  cfg_apply_runtime_bytes := env_bool env "VIY_APPLY_RUNTIME_BYTES" (cfg_apply_runtime_bytes c);
  cfg_max_runtime_bytes := env_u64 env "VIY_MAX_RUNTIME_BYTES" (cfg_max_runtime_bytes c);
  cfg_want_switch := env_bool env "VIY_SWITCH" (cfg_want_switch c);
  cfg_want_purge := env_bool env "VIY_PURGE" (cfg_want_purge c);
  cfg_want_noret := env_bool env "VIY_NORET" (cfg_want_noret c);
  cfg_set_noret := env_bool env "VIY_SET_NORET" (cfg_set_noret c);
  cfg_want_argregs := env_bool env "VIY_ARGREGS" (cfg_want_argregs c);
  cfg_want_opaque := env_bool env "VIY_OPAQUE" (cfg_want_opaque c);
  cfg_opaque_runs := env_int env "VIY_OPAQUE_RUNS" (cfg_opaque_runs c);
  cfg_want_hexrays_bridge := env_bool env "VIY_HEXRAYS_BRIDGE" (cfg_want_hexrays_bridge c)
|}.

(** [if (v < lo) v = lo; if (v > hi) v = hi;] *)
Definition clamp (lo hi v : Z) : Z :=
  let v := if v <? lo then lo else v in if hi <? v then hi else v.

Definition at_least (lo v : Z) : Z := if v <? lo then lo else v.

Definition unless_zero (dflt v : Z) : Z := if v =? 0 then dflt else v.

Definition apply_limits (c : ViyConfig) : ViyConfig := {|
  cfg_enabled := cfg_enabled c;
  cfg_log_level := cfg_log_level c;
  cfg_progress_interval_ms := clamp 100 60000 (unless_zero 1000 (cfg_progress_interval_ms c));
  cfg_max_insns := unless_zero 200000 (cfg_max_insns c);
  cfg_timeout_ms := unless_zero 1000 (cfg_timeout_ms c);
  cfg_max_funcs := cfg_max_funcs c;
  cfg_funcs_per_tick := at_least 1 (cfg_funcs_per_tick c);
  cfg_tick_ms := at_least 1 (cfg_tick_ms c);
  cfg_max_epochs := clamp 1 16 (cfg_max_epochs c);
  cfg_explore_runs := clamp 1 64 (cfg_explore_runs c);
  cfg_workers := clamp 0 64 (cfg_workers c);
  cfg_make_code := cfg_make_code c;
  cfg_want_drefs := cfg_want_drefs c;
  cfg_want_static := cfg_want_static c;
  cfg_want_native := cfg_want_native c;
  cfg_want_deobf := cfg_want_deobf c;
  cfg_persist_evidence := cfg_persist_evidence c;
  cfg_strict_perms := cfg_strict_perms c;
  cfg_want_import_summaries := cfg_want_import_summaries c;
  cfg_want_ptr_refs := cfg_want_ptr_refs c;
  cfg_want_data_types := cfg_want_data_types c;
  cfg_want_comments := cfg_want_comments c;
  cfg_want_strings := cfg_want_strings c;
  cfg_want_runtime_strings := cfg_want_runtime_strings c;
  cfg_want_unicode_strings := cfg_want_unicode_strings c;
  cfg_want_tables := cfg_want_tables c;
  cfg_want_function_recovery := cfg_want_function_recovery c;
  cfg_want_tail_recovery := cfg_want_tail_recovery c;
  cfg_want_smc_evidence := cfg_want_smc_evidence c;
  cfg_apply_runtime_bytes := cfg_apply_runtime_bytes c;
  cfg_max_runtime_bytes :=
    if 64 * 1024 * 1024 <? cfg_max_runtime_bytes c then 64 * 1024 * 1024
    else cfg_max_runtime_bytes c;
  cfg_want_switch := cfg_want_switch c;
  cfg_want_purge := cfg_want_purge c;
  cfg_want_noret := cfg_want_noret c;
  cfg_set_noret := cfg_set_noret c;
  cfg_want_argregs := cfg_want_argregs c;
  cfg_want_opaque := cfg_want_opaque c;
  cfg_opaque_runs := clamp 2 16 (cfg_opaque_runs c);
  cfg_want_hexrays_bridge := cfg_want_hexrays_bridge c
|}.

Definition viy_load_config (env : environment) : ViyConfig :=
  apply_limits (load_overrides env default_config).

(** ** Numbers as text *)

(** What a text of digits denotes in a base. *)
Definition digits_value (base : Z) (digits : bytes) : Z :=
  foldl (fun value b => value * base + digit_value b) 0 digits.

Definition digits_of (base : Z) (digits : bytes) : Prop :=
  Forall (fun b => digit_value b < base) digits.

(** A literal: decimal, octal with a leading zero, or hexadecimal behind 0x. *)
Inductive literal : bytes -> Z -> Prop :=
| literal_decimal digits :
    digits_of 10 digits -> digits <> [] -> head digits <> Some x30 ->
    literal digits (digits_value 10 digits)
| literal_octal digits :
    digits_of 8 digits -> literal (x30 :: digits) (digits_value 8 digits)
| literal_hexadecimal x digits :
    x = x78 \/ x = x58 -> digits_of 16 digits -> digits <> [] ->
    literal (x30 :: x :: digits) (digits_value 16 digits).

Definition is_blank (b : byte) : Prop := b = x20 \/ b = x09.
Definition is_trailing (b : byte) : Prop := is_blank b \/ b = x0d \/ b = x0a.

(** A value that is taken over: white space, an optional sign, a literal in range and
    trailing white space.  A minus sign is refused when only blanks stand before it. *)
Definition accepted (v : bytes) (n : Z) : Prop :=
  exists spaces sign text value tail,
    v = spaces ++ sign ++ text ++ tail /\
    Forall (fun b => is_space b = true) spaces /\ Forall is_trailing tail /\
    literal text value /\ value <= u64_max /\
    ((sign = [] \/ sign = [x2b]) /\ n = value \/
     sign = [x2d] /\ ~ Forall is_blank spaces /\ n = (- value) mod 2 ^ 64).

Lemma digits_value_nonneg base digits acc :
  0 <= base -> 0 <= acc -> 0 <= foldl (fun value b => value * base + digit_value b) acc digits.
Proof.
  intros Hb. revert acc. induction digits as [|b digits IH]; intros acc Ha; [done|].
  cbn [foldl]. apply IH. assert (0 <= digit_value b) by (by destruct b). nia.
Qed.

Lemma read_digits_spec base v value count :
  let '(value', count', rest) := read_digits base v value count in
  exists digits, v = digits ++ rest /\ digits_of base digits /\
    value' = foldl (fun value b => value * base + digit_value b) value digits /\
    count' = (count + length digits)%nat /\
    match rest with b :: _ => base <= digit_value b | [] => True end.
Proof.
  revert value count. induction v as [|b r IH]; intros value count; cbn [read_digits].
  { exists []. split_and!; [done|constructor|done|cbn; lia|done]. }
  destruct (Z.ltb_spec (digit_value b) base).
  - specialize (IH (value * base + digit_value b) (S count)).
    destruct (read_digits _ _ _ _) as [[value' count'] rest].
    destruct IH as (digits & -> & Hd & -> & -> & Hrest). exists (b :: digits).
    split_and!; [done|by constructor|done|cbn; lia|done].
  - exists []. split_and!; [done|constructor|done|cbn; lia|done].
Qed.

Lemma read_digits_app base digits rest value count :
  digits_of base digits -> match rest with b :: _ => base <= digit_value b | [] => True end ->
  read_digits base (digits ++ rest) value count =
    (foldl (fun value b => value * base + digit_value b) value digits,
     (count + length digits)%nat, rest).
Proof.
  intros Hd Hr. revert value count. induction Hd as [|b digits Hb _ IH]; intros value count.
  - cbn [app foldl length]. rewrite Nat.add_0_r. destruct rest as [|b r]; [done|].
    cbn [read_digits]. by destruct (Z.ltb_spec (digit_value b) base); [lia|].
  - cbn [app read_digits foldl length]. destruct (Z.ltb_spec (digit_value b) base); [|lia].
    rewrite IH. do 2 f_equal. lia.
Qed.

Lemma skip_spaces_app spaces v :
  Forall (fun b => is_space b = true) spaces ->
  match v with b :: _ => is_space b = false | [] => True end ->
  skip_spaces (spaces ++ v) = v.
Proof.
  intros H Hv. induction H as [|b spaces Hb _ IH]; cbn [app skip_spaces].
  - destruct v as [|b r]; [done|]. cbn [skip_spaces]. by rewrite Hv.
  - by rewrite Hb.
Qed.

Lemma skip_spaces_spec v :
  exists spaces, v = spaces ++ skip_spaces v /\ Forall (fun b => is_space b = true) spaces /\
    match skip_spaces v with b :: _ => is_space b = false | [] => True end.
Proof.
  induction v as [|b r (spaces & Heq & Hs & Hh)]; cbn [skip_spaces].
  { exists []. split_and!; [done|constructor|done]. }
  destruct (is_space b) eqn:E.
  - exists (b :: spaces). split_and!; [by rewrite Heq at 1|by constructor|done].
  - exists []. split_and!; [done|constructor|done].
Qed.

Lemma blank_test b : (b2z b =? 32) || (b2z b =? 9) = true <-> is_blank b.
Proof. unfold is_blank. destruct b; cbn; intuition congruence. Qed.

Lemma skip_blanks_spec v :
  exists blanks, v = blanks ++ skip_blanks v /\ Forall is_blank blanks /\
    match skip_blanks v with b :: _ => ~ is_blank b | [] => True end.
Proof.
  induction v as [|b r (blanks & Heq & Hs & Hh)]; cbn [skip_blanks].
  { exists []. split_and!; [done|constructor|done]. }
  destruct ((b2z b =? 32) || (b2z b =? 9)) eqn:E.
  - exists (b :: blanks). split_and!; [by rewrite Heq at 1|constructor; [by apply blank_test|done]|done].
  - exists []. split_and!; [done|constructor|]. rewrite <- blank_test, E. done.
Qed.

Lemma trailing_test b :
  (b2z b =? 32) || (b2z b =? 9) || (b2z b =? 13) || (b2z b =? 10) = true <-> is_trailing b.
Proof. unfold is_trailing, is_blank. destruct b; cbn; intuition congruence. Qed.

Lemma skip_trailing_nil v : skip_trailing v = [] <-> Forall is_trailing v.
Proof.
  induction v as [|b r IH]; cbn [skip_trailing]; [by split|].
  rewrite Forall_cons, <- trailing_test, <- IH.
  destruct (_ || (b2z b =? 10)); [tauto|]. split; [done|]. by intros [? _].
Qed.

Lemma blank_is_space b : is_blank b -> is_space b = true.
Proof. by intros [->| ->]. Qed.

Lemma trailing_digit b : is_trailing b -> digit_value b = 36.
Proof. by intros [[->| ->]|[->| ->]]. Qed.

(** A text that can follow a literal: nothing of it could continue the number. *)
Definition ends_number (rest : bytes) : Prop :=
  match rest with b :: _ => digit_value b = 36 | [] => True end.

Lemma read_literal text value rest :
  literal text value -> ends_number rest ->
  let '(base, v) := number_base (text ++ rest) in
  let '(value', count, rest') := read_digits base v 0 0 in
  value' = value /\ count <> 0%nat /\ rest' = rest.
Proof.
  intros Hl Hr.
  assert (forall base, base <= 16 -> match rest with b :: _ => base <= digit_value b | [] => True end) as Hend.
  { intros base Hb. destruct rest; [done|]. cbn in Hr. lia. }
  assert (forall base digits, base <= 16 -> digits_of base digits -> digits <> [] ->
    let '(value', count, rest') := read_digits base (digits ++ rest) 0 0 in
    value' = digits_value base digits /\ count <> 0%nat /\ rest' = rest) as Hread.
  { intros base digits Hb Hd Hne. rewrite read_digits_app by (done || by apply Hend). split_and!; [done| |done].
    destruct digits; [done|cbn; lia]. }
  destruct Hl as [digits Hd Hne Hh|digits Hd|x digits Hx Hd Hne].
  - destruct digits as [|b digits]; [done|]. cbn [app number_base].
    destruct (Z.eqb_spec (b2z b) 48) as [E|_].
    { exfalso. apply Hh. cbn. f_equal. by apply b2z_inj. }
    apply (Hread 10 (b :: digits)); [lia|done|done].
  - assert (number_base ((x30 :: digits) ++ rest) = (8, (x30 :: digits) ++ rest)) as ->.
    { cbn [app number_base]. change (b2z x30 =? 48) with true. cbn iota.
      destruct (digits ++ rest) as [|y r] eqn:E; [done|].
      assert (digit_value y < 8 \/ digit_value y = 36) as Hy.
      { destruct digits as [|d digits]; cbn [app] in E.
        - subst rest. right. exact Hr.
        - injection E as -> _. left. by inversion_clear Hd. }
      assert ((b2z y =? 120) || (b2z y =? 88) = false) as ->; [|done].
      clear -Hy. destruct y; cbn in *; try done; lia. }
    apply (Hread 8 (x30 :: digits)); [lia|constructor; [cbn; lia|done]|done].
  - assert (number_base ((x30 :: x :: digits) ++ rest) = (16, digits ++ rest)) as ->.
    { cbn [app number_base]. change (b2z x30 =? 48) with true. cbn iota.
      assert ((b2z x =? 120) || (b2z x =? 88) = true) as -> by (by destruct Hx as [->| ->]).
      destruct digits as [|d digits]; [done|]. cbn [app is_hex_digit andb].
      inversion_clear Hd as [|? ? Hlt _]. by rewrite (proj2 (Z.ltb_lt _ _) Hlt). }
    by apply Hread.
Qed.

Lemma literal_head text value rest :
  literal text value ->
  exists b r, text ++ rest = b :: r /\ is_space b = false /\ b2z b <> 45 /\ b2z b <> 43.
Proof.
  assert (forall b, digit_value b < 10 -> is_space b = false /\ b2z b <> 45 /\ b2z b <> 43) as H.
  { intros b. destruct b; vm_compute; intros ?; try discriminate; by split_and!. }
  intros [digits Hd Hne Hh|digits Hd|x digits Hx Hd Hne].
  - destruct digits as [|b digits]; [done|]. inversion_clear Hd. eexists _, _. split; [done|]. by apply H.
  - eexists _, _. split; [done|]. by apply H.
  - eexists _, _. split; [done|]. by apply H.
Qed.

Definition signs (sign : bytes) (negative : bool) : Prop :=
  if negative then sign = [x2d] else sign = [] \/ sign = [x2b].

Definition signed_value (negative : bool) (value : Z) : Z :=
  if negative then (- value) mod 2 ^ 64 else value.

Lemma strtoull_complete spaces sign negative text value rest :
  Forall (fun b => is_space b = true) spaces -> signs sign negative -> literal text value ->
  ends_number rest ->
  strtoull (spaces ++ sign ++ text ++ rest) =
    Some (if u64_max <? value then u64_max else signed_value negative value, u64_max <? value, rest).
Proof.
  intros Hs Hsign Hl Hr. unfold strtoull. unfold signs in Hsign.
  destruct (literal_head text value rest Hl) as (b & r & Hb & Hsp & Hm & Hp).
  assert (sign_of (skip_spaces (spaces ++ sign ++ text ++ rest)) = (negative, text ++ rest)) as ->.
  { rewrite skip_spaces_app; [|done|].
    - destruct negative; [subst sign; done|]. destruct Hsign as [->| ->]; [|done].
      cbn [app]. rewrite Hb. cbn [sign_of].
      by rewrite (proj2 (Z.eqb_neq (b2z b) 45)), (proj2 (Z.eqb_neq (b2z b) 43)).
    - destruct negative; [by subst sign|]. destruct Hsign as [->| ->]; [|done].
      cbn [app]. by rewrite Hb. }
  pose proof (read_literal text value rest Hl Hr) as Hread.
  destruct (number_base (text ++ rest)) as [base v].
  destruct (read_digits base v 0 0) as [[value' count] rest']. destruct Hread as (-> & Hc & ->).
  destruct (Nat.eqb_spec count 0); [done|]. unfold signed_value.
  by destruct (u64_max <? value).
Qed.

Lemma strtoull_sound v parsed range rest :
  strtoull v = Some (parsed, range, rest) ->
  exists spaces sign negative text value,
    v = spaces ++ sign ++ text ++ rest /\ Forall (fun b => is_space b = true) spaces /\
    signs sign negative /\ literal text value /\ range = (u64_max <? value) /\
    (range = false -> parsed = signed_value negative value).
Proof.
  unfold strtoull. destruct (skip_spaces_spec v) as (spaces & Hv & Hs & _).
  set (w := skip_spaces v) in *.
  assert (exists sign negative w', sign_of w = (negative, w') /\ w = sign ++ w' /\ signs sign negative)
    as (sign & negative & w' & -> & Hw & Hsign).
  { unfold sign_of, signs. destruct w as [|b r]; [by exists [], false, []; auto|].
    destruct (Z.eqb_spec (b2z b) 45) as [E|_]; [exists [b], true, r|
      destruct (Z.eqb_spec (b2z b) 43) as [E|_]; [exists [b], false, r|exists [], false, (b :: r)]].
    - split_and!; [done|done|]. f_equal. by apply b2z_inj.
    - split_and!; [done|done|]. right. f_equal. by apply b2z_inj.
    - split_and!; [done|done|]. by left. }
  destruct (number_base w') as [base u] eqn:En.
  pose proof (read_digits_spec base u 0 0) as Hread.
  destruct (read_digits base u 0 0) as [[value count] rest'].
  destruct Hread as (digits & Hu & Hd & Hval & Hcount & Hrest).
  destruct (Nat.eqb_spec count 0) as [|Hc]; [done|].
  assert (exists text, w' = text ++ rest' /\ literal text value) as (text & Hw' & Hl).
  { assert (digits <> []) as Hne by (intros ->; done).
    fold (digits_value base digits) in Hval. subst value.
    unfold number_base in En. destruct w' as [|b r].
    { injection En as <- <-. by destruct digits. }
    destruct (Z.eqb_spec (b2z b) 48) as [E|E].
    - assert (b = x30) as -> by (by apply b2z_inj).
      assert (forall v', v' = x30 :: r -> (8, v') = (base, u) ->
        exists text, x30 :: r = text ++ rest' /\ literal text (digits_value base digits)) as Hoct.
      { intros v' -> [= <- <-]. destruct digits as [|d digits]; [done|]. injection Hu as <- ->.
        exists (x30 :: digits). split; [done|]. inversion_clear Hd.
        by apply (literal_octal digits). }
      destruct r as [|x r']; [by eapply Hoct|].
      destruct (((b2z x =? 120) || (b2z x =? 88)) && is_hex_digit r') eqn:Ex; [|by eapply Hoct].
      injection En as <- <-. apply andb_true_iff in Ex as [Ex _].
      exists (x30 :: x :: digits). split; [by rewrite Hu|]. apply literal_hexadecimal; [|done..].
      apply orb_true_iff in Ex as [Ex%Z.eqb_eq|Ex%Z.eqb_eq]; [left|right]; by apply b2z_inj.
    - injection En as <- <-. exists digits. split; [done|]. apply literal_decimal; [done..|].
      destruct digits as [|d digits]; [done|]. cbn. injection Hu as -> _. intros [= ->]. done. }
  intros Heq. exists spaces, sign, negative, text, value.
  assert (v = spaces ++ sign ++ text ++ rest') as Hfull by (by rewrite Hv, Hw, Hw').
  destruct (u64_max <? value); injection Heq as <- <- <-; split_and!; done.
Qed.

Lemma skip_blanks_app spaces w :
  match w with b :: _ => ~ is_blank b | [] => True end ->
  exists spaces', skip_blanks (spaces ++ w) = spaces' ++ w /\ spaces' `suffix_of` spaces /\
    (spaces' = [] <-> Forall is_blank spaces).
Proof.
  intros Hw. induction spaces as [|b spaces (spaces' & Heq & Hsuf & Hnil)]; cbn [app skip_blanks].
  - exists []. split_and!; [|done|by split]. destruct w as [|b r]; [done|]. cbn [skip_blanks].
    rewrite <- blank_test in Hw. by destruct (_ || _).
  - destruct ((b2z b =? 32) || (b2z b =? 9)) eqn:E.
    + exists spaces'. rewrite blank_test in E. split_and!; [done|by apply suffix_cons_r|].
      rewrite Forall_cons. tauto.
    + exists (b :: spaces). split_and!; [done|done|]. rewrite Forall_cons, <- blank_test, E.
      split; [done|]. by intros [? _].
Qed.

Lemma tail_ends_number tail : Forall is_trailing tail -> ends_number tail.
Proof. intros [|b r Hb _]; [done|]. by apply trailing_digit. Qed.

(** ** Properties *)

(** Numeric settings are parsed exactly.  A non-empty value is taken over when it is
    an accepted text (white space, a sign, a decimal, octal or hexadecimal literal of 64
    bits, trailing white space), and then with the number it denotes; every other value
    leaves the default.  A minus sign is refused only where blanks and tabs alone stand
    before it. *)
Theorem env_u64_exact (env : environment) (name : string) (dflt : Z) (v : bytes) :
  env name = Some v -> v <> [] ->
  (forall n, accepted v n -> env_u64 env name dflt = n) /\
  ((forall n, ~ accepted v n) -> env_u64 env name dflt = dflt).
Proof.
  intros Hv Hne. unfold env_u64. rewrite Hv. destruct v as [|b0 v0]; [done|].
  set (v := b0 :: v0) in *. clearbody v. cbn zeta. split.
  - intros n (spaces & sign & text & value & tail & -> & Hs & Ht & Hl & Hmax & Hn).
    destruct (literal_head text value tail Hl) as (b & r & Hb & Hsp & Hm & Hp).
    assert (exists negative, signs sign negative /\ n = signed_value negative value /\
              (negative = true -> ~ Forall is_blank spaces)) as (negative & Hsign & -> & Hminus).
    { destruct Hn as [[? ->]|(-> & ? & ->)]; [by exists false|by exists true]. }
    pose proof Hsign as Hsign'. unfold signs in Hsign.
    destruct (skip_blanks_app spaces (sign ++ text ++ tail)) as (spaces' & -> & Hsuf & Hnil).
    { destruct negative; [subst sign; cbn; by intros [?|?]|].
      destruct Hsign as [->| ->]; [|cbn; by intros [?|?]]. cbn [app]. rewrite Hb.
      intros Hbl%blank_is_space. congruence. }
    assert (Forall (fun b => is_space b = true) spaces') as Hs'.
    { destruct Hsuf as [pre ->]. by apply Forall_app in Hs as [_ ?]. }
    assert (starts_with_minus (spaces' ++ sign ++ text ++ tail) = false) as ->.
    { destruct spaces' as [|c spaces']; cbn [app starts_with_minus].
      - destruct negative; [by destruct (Hminus eq_refl (proj1 Hnil eq_refl))|].
        destruct Hsign as [->| ->]; [|done]. cbn [app]. rewrite Hb. cbn. by apply Z.eqb_neq.
      - inversion_clear Hs' as [|? ? Hc _]. apply Z.eqb_neq. intros E. unfold is_space in Hc.
        rewrite E in Hc. done. }
    rewrite (strtoull_complete spaces' sign negative text value tail Hs' Hsign' Hl
               (tail_ends_number tail Ht)).
    destruct (Z.ltb_spec u64_max value); [lia|].
    by rewrite (proj2 (skip_trailing_nil tail) Ht).
  - intros Hno. destruct (skip_blanks_spec v) as (blanks & Heq & Hbl & Hhead).
    set (w := skip_blanks v) in *. destruct (starts_with_minus w) eqn:Em; [done|].
    destruct (strtoull w) as [[[parsed range] rest]|] eqn:Es; [|done].
    destruct range; [done|]. destruct (skip_trailing rest) eqn:Er; [|done].
    exfalso. apply skip_trailing_nil in Er.
    destruct (strtoull_sound w parsed false rest Es)
      as (spaces & sign & negative & text & value & Hw & Hs & Hsign & Hl & Hr & Hp).
    apply (Hno parsed). exists (blanks ++ spaces), sign, text, value, rest.
    split_and!; [by rewrite Heq, Hw, <- app_assoc| |done|done|symmetry in Hr; by apply Z.ltb_ge in Hr|].
    + apply Forall_app. split; [|done]. eapply Forall_impl; [exact Hbl|]. apply blank_is_space.
    + unfold signs in Hsign. rewrite (Hp eq_refl). destruct negative; [right|by left].
      split_and!; [done| |done]. intros [_ Hbs]%Forall_app.
      destruct spaces as [|c spaces]; [rewrite Hw, Hsign in Em; done|].
      rewrite Hw in Hhead. inversion_clear Hbs. done.
Qed.

(** A hexadecimal value between blanks. *)
Lemma env_u64_exact_witness :
  env_u64 (fun _ => Some (str_bytes " 0x1F ")) "VIY_MAX_FUNCS" 7 = 31.
Proof.
  refine (proj1 (env_u64_exact (fun _ => Some (str_bytes " 0x1F ")) "VIY_MAX_FUNCS" 7 _ eq_refl _) 31 _);
    [done|].
  exists [x20], [], (str_bytes "0x1F"), 31, [x20]. split_and!; [done| | | |done|].
  - by repeat constructor.
  - constructor; [by left; left|constructor].
  - apply (literal_hexadecimal x78 (str_bytes "1F")); [by left| |done].
    repeat constructor.
  - left. split; [by left|done].
Defined.

(** A minus sign behind other white space is not refused, and the value wraps. *)
Example newline_hides_minus :
  env_u64 (fun _ => Some [x0a; x2d; x31]) "VIY_MAX_INSNS" 200000 = 2 ^ 64 - 1.
Proof. reflexivity. Qed.

Lemma clamp_bounds lo hi v : lo <= hi -> lo <= clamp lo hi v <= hi.
Proof. intros H. unfold clamp. repeat case_match; lia. Qed.

(** Whatever the environment holds, the loaded configuration stays within its
    limits: the run and time caps are never zero, the progress interval lies between
    100 and 60000 milliseconds, the loops, runs and workers between their bounds, and
    no more than 64 MiB are captured per run.  An empty environment gives the defaults. *)
Theorem config_within_limits (env : environment) :
  let c := viy_load_config env in
  cfg_max_insns c <> 0 /\ cfg_timeout_ms c <> 0 /\
  100 <= cfg_progress_interval_ms c <= 60000 /\
  2 <= cfg_opaque_runs c <= 16 /\
  1 <= cfg_funcs_per_tick c /\ 1 <= cfg_tick_ms c /\
  1 <= cfg_max_epochs c <= 16 /\ 1 <= cfg_explore_runs c <= 64 /\
  0 <= cfg_workers c <= 64 /\ cfg_max_runtime_bytes c <= 64 * 1024 * 1024 /\
  viy_load_config (fun _ => None) = default_config.
Proof.
  cbn zeta. unfold viy_load_config, apply_limits, unless_zero, at_least.
  cbn [cfg_max_insns cfg_timeout_ms cfg_progress_interval_ms cfg_opaque_runs cfg_funcs_per_tick
       cfg_tick_ms cfg_max_epochs cfg_explore_runs cfg_workers cfg_max_runtime_bytes].
  split_and!; try (by apply clamp_bounds); try (case_match; lia); reflexivity.
Qed.
