(* ===== verification/AbiPolicy.v ===== *)
(** Calling conventions and entry states ([src/src/abi_policy.hpp],
    [src/src/abi_policy.cpp], [src/src/emu_input.hpp]): the layout of each ABI, the corpus
    of seed values, and the plan of register and stack writes that puts the arguments of
    a run in place.  The register numbers belong to the emulator's interface and are a
    parameter. *)
From stdpp Require Import base numbers list strings option sets.
From Stdlib Require Import ZArith Init.Byte Lia.
From S2P Require Import Prelude ProgramModel.

(** ** Layouts *)

(** The register numbers of the emulator. *)
Record RaxRegisters : Type := {
  RAX_X86_REG_RDI : Z;
  RAX_X86_REG_RSI : Z;
  RAX_X86_REG_RDX : Z;
  RAX_X86_REG_RCX : Z;
  RAX_X86_REG_R8 : Z;
  RAX_X86_REG_R9 : Z;
  RAX_ARM_R : Z -> Z;
  RAX_ARM64_X : Z -> Z;
  RAX_RISCV_X : Z -> Z;
  RAX_CM_R : Z -> Z;
  RAX_HEX_R : Z -> Z
}.

Inductive ViyAbi : Type :=
| Abi_UNKNOWN
| Abi_X86_32
| Abi_X86_64_SYSV
| Abi_X86_64_WIN64
| Abi_AAPCS32
| Abi_AAPCS64
| Abi_RISCV64
| Abi_CORTEX_M
| Abi_HEXAGON.

#[export] Instance ViyAbi_eq_dec : EqDecision ViyAbi.
Proof. solve_decision. Defined.

Record ViyAbiLayout : Type := {
  al_abi : ViyAbi;
  al_name : string;
  al_pointer_size : Z;
  al_return_address_on_stack : bool;
  al_stack_argument_offset : Z;
  al_argument_registers : list Z;
  al_ida_argument_registers : list string
}.

Definition layout_supported (layout : ViyAbiLayout) : bool := al_abi layout != Abi_UNKNOWN.

Definition viy_abi_for_arch (arch : ViyArch) (windows_x64 : bool) : ViyAbi :=
  match arch with
  | X86_32 => Abi_X86_32
  | X86_64 => if windows_x64 then Abi_X86_64_WIN64 else Abi_X86_64_SYSV
  | ARM32 => Abi_AAPCS32
  | ARM64 => Abi_AAPCS64
  | RISCV64 => Abi_RISCV64
  | CORTEX_M => Abi_CORTEX_M
  | HEXAGON => Abi_HEXAGON
  | _ => Abi_UNKNOWN
  end.

Section Layouts.
Context (rax : RaxRegisters).

Definition layout_unknown : ViyAbiLayout :=
  {| al_abi := Abi_UNKNOWN; al_name := "unknown"; al_pointer_size := 0;
     al_return_address_on_stack := false; al_stack_argument_offset := 0;
     al_argument_registers := []; al_ida_argument_registers := [] |}.

Definition layout_x86_32 : ViyAbiLayout :=
  {| al_abi := Abi_X86_32; al_name := "x86-32 stack"; al_pointer_size := 4;
     al_return_address_on_stack := true; al_stack_argument_offset := 0;
     al_argument_registers := []; al_ida_argument_registers := [] |}.

Definition layout_x64_sysv : ViyAbiLayout :=
  {| al_abi := Abi_X86_64_SYSV; al_name := "x86-64 SysV"; al_pointer_size := 8;
     al_return_address_on_stack := true; al_stack_argument_offset := 0;
     al_argument_registers := [RAX_X86_REG_RDI rax; RAX_X86_REG_RSI rax; RAX_X86_REG_RDX rax;
                               RAX_X86_REG_RCX rax; RAX_X86_REG_R8 rax; RAX_X86_REG_R9 rax];
     al_ida_argument_registers := ["rdi"; "rsi"; "rdx"; "rcx"; "r8"; "r9"]%string |}.

Definition layout_x64_win : ViyAbiLayout :=
  {| al_abi := Abi_X86_64_WIN64; al_name := "x86-64 Windows"; al_pointer_size := 8;
     al_return_address_on_stack := true; al_stack_argument_offset := 32;
     al_argument_registers := [RAX_X86_REG_RCX rax; RAX_X86_REG_RDX rax; RAX_X86_REG_R8 rax;
                               RAX_X86_REG_R9 rax];
     al_ida_argument_registers := ["rcx"; "rdx"; "r8"; "r9"]%string |}.

Definition layout_aapcs32 : ViyAbiLayout :=
  {| al_abi := Abi_AAPCS32; al_name := "AAPCS32"; al_pointer_size := 4;
     al_return_address_on_stack := false; al_stack_argument_offset := 0;
     al_argument_registers := [RAX_ARM_R rax 0; RAX_ARM_R rax 1; RAX_ARM_R rax 2; RAX_ARM_R rax 3];
     al_ida_argument_registers := ["R0"; "R1"; "R2"; "R3"]%string |}.

Definition layout_aapcs64 : ViyAbiLayout :=
  {| al_abi := Abi_AAPCS64; al_name := "AAPCS64"; al_pointer_size := 8;
     al_return_address_on_stack := false; al_stack_argument_offset := 0;
     al_argument_registers := [RAX_ARM64_X rax 0; RAX_ARM64_X rax 1; RAX_ARM64_X rax 2;
                               RAX_ARM64_X rax 3; RAX_ARM64_X rax 4; RAX_ARM64_X rax 5;
                               RAX_ARM64_X rax 6; RAX_ARM64_X rax 7];
     al_ida_argument_registers := ["X0"; "X1"; "X2"; "X3"; "X4"; "X5"; "X6"; "X7"]%string |}.

Definition layout_riscv64 : ViyAbiLayout :=
  {| al_abi := Abi_RISCV64; al_name := "RISC-V LP64"; al_pointer_size := 8;
     al_return_address_on_stack := false; al_stack_argument_offset := 0;
     al_argument_registers := [RAX_RISCV_X rax 10; RAX_RISCV_X rax 11; RAX_RISCV_X rax 12;
                               RAX_RISCV_X rax 13; RAX_RISCV_X rax 14; RAX_RISCV_X rax 15;
                               RAX_RISCV_X rax 16; RAX_RISCV_X rax 17];
     al_ida_argument_registers := ["a0"; "a1"; "a2"; "a3"; "a4"; "a5"; "a6"; "a7"]%string |}.

Definition layout_cortex_m : ViyAbiLayout :=
  {| al_abi := Abi_CORTEX_M; al_name := "Cortex-M AAPCS"; al_pointer_size := 4;
     al_return_address_on_stack := false; al_stack_argument_offset := 0;
     al_argument_registers := [RAX_CM_R rax 0; RAX_CM_R rax 1; RAX_CM_R rax 2; RAX_CM_R rax 3];
     al_ida_argument_registers := ["R0"; "R1"; "R2"; "R3"]%string |}.

Definition layout_hexagon : ViyAbiLayout :=
  {| al_abi := Abi_HEXAGON; al_name := "Hexagon"; al_pointer_size := 4;
     al_return_address_on_stack := false; al_stack_argument_offset := 0;
     al_argument_registers := [RAX_HEX_R rax 0; RAX_HEX_R rax 1; RAX_HEX_R rax 2;
                               RAX_HEX_R rax 3; RAX_HEX_R rax 4; RAX_HEX_R rax 5];
     al_ida_argument_registers := ["R0"; "R1"; "R2"; "R3"; "R4"; "R5"]%string |}.

Definition viy_abi_layout (abi : ViyAbi) : ViyAbiLayout :=
  match abi with
  | Abi_X86_32 => layout_x86_32
  | Abi_X86_64_SYSV => layout_x64_sysv
  | Abi_X86_64_WIN64 => layout_x64_win
  | Abi_AAPCS32 => layout_aapcs32
  | Abi_AAPCS64 => layout_aapcs64
  | Abi_RISCV64 => layout_riscv64
  | Abi_CORTEX_M => layout_cortex_m
  | Abi_HEXAGON => layout_hexagon
  | Abi_UNKNOWN => layout_unknown
  end.

Definition viy_abi_name (abi : ViyAbi) : string := al_name (viy_abi_layout abi).
End Layouts.

(** ** Seed values *)

Inductive ViySeedValueKind : Type :=
| Seed_ZERO
| Seed_ONE
| Seed_U16_MAX
| Seed_I16_MAX
| Seed_I16_MIN
| Seed_IMAGE_POINTER
| Seed_STACK_POINTER
| Seed_MIXED.

Record ViySeedValue : Type := {
  sv_value : Z;
  sv_kind : ViySeedValueKind
}.

(** The sum, unless it passes the last address. *)
Definition checked_add (lhs rhs : Z) : option Z :=
  if u64_max - rhs <? lhs then None else Some (lhs + rhs).

Definition mix_start (seed : Z) : Z := (seed * 0x9E3779B97F4A7C15 + 0x1234567) mod 2 ^ 64.

(** The three lines that advance the mixed value in each turn. *)
Definition mix_step (mixed : Z) : Z :=
  let mixed := Z.lxor mixed (Z.shiftr mixed 33) in
  let mixed := (mixed * 0xFF51AFD7ED558CCD) mod 2 ^ 64 in
  Z.lxor mixed (Z.shiftr mixed 33).

(** The mapped half of the stack, from its middle to its end. *)
Definition stack_half (stack_base stack_size : Z) : option (Z * Z) :=
  if stack_size =? 0 then None
  else
    match checked_add stack_base stack_size, checked_add stack_base (stack_size / 2) with
    | Some stack_end, Some stack_middle =>
        if stack_middle <? stack_end then Some (stack_middle, stack_end) else None
    | _, _ => None
    end.

Definition seed_stack_value (stack : option (Z * Z)) (mixed index : Z) : ViySeedValue :=
  match stack with
  | None => {| sv_value := mixed; sv_kind := Seed_MIXED |}
  | Some (stack_middle, stack_end) =>
      let span := stack_end - stack_middle in
      let slots := 1 + (span - 1) / 0x100 in
      let slot := index mod slots in
      match checked_add stack_middle (slot * 0x100) with
      | Some pointer =>
          if stack_end <=? pointer then {| sv_value := mixed; sv_kind := Seed_MIXED |}
          else {| sv_value := pointer; sv_kind := Seed_STACK_POINTER |}
      | None => {| sv_value := mixed; sv_kind := Seed_MIXED |}
      end
  end.

Definition seed_value (seed index image_lo mixed : Z) (stack : option (Z * Z)) : ViySeedValue :=
  let class := ((seed + index) mod 2 ^ 64) mod 8 in
  if class =? 0 then {| sv_value := 0; sv_kind := Seed_ZERO |}
  else if class =? 1 then {| sv_value := 1; sv_kind := Seed_ONE |}
  else if class =? 2 then {| sv_value := u16_max; sv_kind := Seed_U16_MAX |}
  else if class =? 3 then {| sv_value := 2 ^ 15 - 1; sv_kind := Seed_I16_MAX |}
  else if class =? 4 then {| sv_value := (- 2 ^ 15) mod 2 ^ 64; sv_kind := Seed_I16_MIN |}
  else if class =? 5 then {| sv_value := image_lo; sv_kind := Seed_IMAGE_POINTER |}
  else if class =? 6 then seed_stack_value stack mixed index
  else {| sv_value := mixed; sv_kind := Seed_MIXED |}.

Fixpoint seed_loop (count : nat) (seed index image_lo mixed : Z) (stack : option (Z * Z)) :
    list ViySeedValue :=
  match count with
  | O => []
  | S count' =>
      let mixed := mix_step mixed in
      seed_value seed index image_lo mixed stack ::
      seed_loop count' seed (index + 1) image_lo mixed stack
  end.

Definition viy_seed_argument_corpus (seed count image_lo stack_base stack_size : Z) :
    list ViySeedValue :=
  seed_loop (Z.to_nat count) seed 0 image_lo (mix_start seed) (stack_half stack_base stack_size).

(** ** Plans *)

Record ArgOverride : Type := { ao_index : Z; ao_value : Z }.
Record RegisterOverride : Type := { ro_reg : Z; ro_value : Z }.

Record EmuInput : Type := {
  in_seed : Z;
  in_run_id : Z;
  in_args : list Z;
  in_arg_overrides : list ArgOverride;
  in_register_overrides : list RegisterOverride;
  in_stack_args : list Z;
  in_stack_arg_offset : Z
}.

Record ViyAbiRegisterWrite : Type := { rw_reg : Z; rw_value : Z }.
Record ViyAbiStackWrite : Type := { sw_address : Z; sw_bytes : bytes; sw_size : Z }.

Inductive ViyAbiPlanError : Type :=
| Plan_NONE
| Plan_UNSUPPORTED_ABI
| Plan_INVALID_REGISTER
| Plan_STACK_OFFSET_MISMATCH
| Plan_ADDRESS_OVERFLOW
| Plan_STACK_OUT_OF_RANGE.

Record ViyAbiInputPlan : Type := {
  pl_error : ViyAbiPlanError;
  pl_registers : list ViyAbiRegisterWrite;
  pl_stack : list ViyAbiStackWrite
}.

Definition plan_with (error : ViyAbiPlanError) (registers : list ViyAbiRegisterWrite)
    (stack : list ViyAbiStackWrite) : ViyAbiInputPlan :=
  {| pl_error := error; pl_registers := registers; pl_stack := stack |}.

(** The positional arguments that registers carry. *)
Fixpoint positional_writes (args registers : list Z) : list ViyAbiRegisterWrite :=
  match args, registers with
  | value :: args', reg :: registers' =>
      {| rw_reg := reg; rw_value := value |} :: positional_writes args' registers'
  | _, _ => []
  end.

Definition override_writes (registers : list Z) (overrides : list ArgOverride) :
    list ViyAbiRegisterWrite :=
  concat (map (fun argument =>
    match registers !! Z.to_nat (ao_index argument) with
    | Some reg => [{| rw_reg := reg; rw_value := ao_value argument |}]
    | None => []
    end) overrides).

(** The explicit writes up to the first invalid register, and whether there is one. *)
Fixpoint register_override_writes (overrides : list RegisterOverride) :
    list ViyAbiRegisterWrite * bool :=
  match overrides with
  | [] => ([], false)
  | reg :: rest =>
      if ro_reg reg <? 0 then ([], true)
      else
        let '(writes, invalid) := register_override_writes rest in
        ({| rw_reg := ro_reg reg; rw_value := ro_value reg |} :: writes, invalid)
  end.

(** The eight bytes of a stack write, of which [size] are used. *)
Definition stack_bytes (big_endian : bool) (size value : Z) : bytes :=
  map (fun byte =>
         if byte <? size then
           let shift_index := if big_endian then size - 1 - byte else byte in
           z2b (Z.shiftr value (8 * shift_index))
         else x00) (seqZ 0 8).

(** The loop over the stack values; [None] is the exit out of range. *)
Fixpoint stack_writes (big_endian : bool) (pointer_size stack_base stack_end destination : Z)
    (values : list Z) : option (list ViyAbiStackWrite) :=
  match values with
  | [] => Some []
  | value :: rest =>
      if destination <? stack_base then None
      else
        match checked_add destination pointer_size with
        | None => None
        | Some next =>
            if stack_end <? next then None
            else
              match stack_writes big_endian pointer_size stack_base stack_end next rest with
              | None => None
              | Some writes =>
                  Some ({| sw_address := destination;
                           sw_bytes := stack_bytes big_endian pointer_size value;
                           sw_size := pointer_size |} :: writes)
              end
        end
  end.

Definition return_slot (layout : ViyAbiLayout) : Z :=
  if al_return_address_on_stack layout then al_pointer_size layout else 0.

(** Where the first stack argument goes, unless an address overflows. *)
Definition stack_destination (layout : ViyAbiLayout) (entry_sp stack_base stack_size : Z) :
    option (Z * Z) :=
  match checked_add stack_base stack_size with
  | None => None
  | Some stack_end =>
      match checked_add entry_sp (return_slot layout) with
      | None => None
      | Some destination =>
          match checked_add destination (al_stack_argument_offset layout) with
          | None => None
          | Some destination => Some (stack_end, destination)
          end
      end
  end.

Definition viy_plan_abi_input (layout : ViyAbiLayout) (input : EmuInput)
    (entry_sp stack_base stack_size : Z) (big_endian : bool) : ViyAbiInputPlan :=
  if negb (layout_supported layout) ||
     (negb (al_pointer_size layout =? 4) && negb (al_pointer_size layout =? 8))
  then plan_with Plan_UNSUPPORTED_ABI [] []
  else if negb (in_stack_arg_offset input =? 0) &&
          negb (in_stack_arg_offset input =? al_stack_argument_offset layout)
  then plan_with Plan_STACK_OFFSET_MISMATCH [] []
  else
    let registers := positional_writes (in_args input) (al_argument_registers layout) ++
                     override_writes (al_argument_registers layout) (in_arg_overrides input) in
    let '(explicit, invalid) := register_override_writes (in_register_overrides input) in
    let registers := registers ++ explicit in
    if invalid then plan_with Plan_INVALID_REGISTER registers []
    else
      let stack_values := drop (length (al_argument_registers layout)) (in_args input) ++
                          in_stack_args input in
      match stack_destination layout entry_sp stack_base stack_size with
      | None => plan_with Plan_ADDRESS_OVERFLOW registers []
      | Some (stack_end, destination) =>
          match stack_writes big_endian (al_pointer_size layout) stack_base stack_end destination
                  stack_values with
          | None => plan_with Plan_STACK_OUT_OF_RANGE [] []
          | Some stack => plan_with Plan_NONE registers stack
          end
      end.

(** ** Seed values *)

(** The stack can be pointed into: it is not empty and ends at an address. *)
Definition stack_mapped (stack_base stack_size : Z) : Prop :=
  stack_size <> 0 /\ stack_base + stack_size <= u64_max.

Lemma stack_half_spec stack_base stack_size :
  0 <= stack_base -> 0 <= stack_size ->
  match stack_half stack_base stack_size with
  | Some (middle, end_) =>
      stack_mapped stack_base stack_size /\ middle = stack_base + stack_size / 2 /\
      end_ = stack_base + stack_size /\ middle < end_
  | None => ~ stack_mapped stack_base stack_size
  end.
Proof.
  intros Hb Hs. unfold stack_half, stack_mapped, checked_add.
  assert (stack_size / 2 <= stack_size) by (apply Z.div_le_upper_bound; lia).
  destruct (Z.eqb_spec stack_size 0); [naive_solver|].
  assert (stack_size / 2 < stack_size) by (apply Z.div_lt; lia).
  destruct (Z.ltb_spec (u64_max - stack_size) stack_base); [lia|].
  destruct (Z.ltb_spec (u64_max - stack_size / 2) stack_base); [lia|].
  destruct (Z.ltb_spec (stack_base + stack_size / 2) (stack_base + stack_size)); [|lia].
  split_and!; try lia; reflexivity.
Qed.

Lemma mix_step_range mixed : 0 <= mixed < 2 ^ 64 -> 0 <= mix_step mixed < 2 ^ 64.
Proof.
  intros _. unfold mix_step. cbn zeta.
  set (m := (_ * _) mod 2 ^ 64).
  assert (0 <= m < 2 ^ 64) as Hm by (apply Z.mod_pos_bound; lia). clearbody m.
  assert (0 <= Z.shiftr m 33 < 2 ^ 64) as Hs.
  { rewrite Z.shiftr_div_pow2 by lia. split; [apply Z.div_pos; lia|].
    apply Z.div_lt_upper_bound; lia. }
  split; [apply Z.lxor_nonneg; lia|].
  destruct (Z.eq_dec (Z.lxor m (Z.shiftr m 33)) 0) as [->|Hne]; [lia|].
  apply Z.log2_lt_pow2; [pose proof (Z.lxor_nonneg m (Z.shiftr m 33)); lia|].
  eapply Z.le_lt_trans; [apply Z.log2_lxor; lia|].
  apply Z.max_lub_lt; (destruct (Z.eq_dec m 0) as [->|]; [done|]).
  - apply Z.log2_lt_pow2; lia.
  - destruct (Z.eq_dec (Z.shiftr m 33) 0) as [->|]; [done|]. apply Z.log2_lt_pow2; lia.
Qed.

(** The mixed value of a position. *)
Definition mixed_at (seed : Z) (i : nat) : Z := Nat.iter (S i) mix_step (mix_start seed).

Lemma seed_loop_lookup count seed index image_lo mixed stack i :
  (i < count)%nat ->
  seed_loop count seed index image_lo mixed stack !! i =
    Some (seed_value seed (index + Z.of_nat i) image_lo (Nat.iter (S i) mix_step mixed) stack).
Proof.
  revert index mixed i. induction count as [|count IH]; intros index mixed i Hi; [lia|].
  cbn [seed_loop]. destruct i as [|i]; [cbn; by rewrite Z.add_0_r|].
  cbn [lookup]. etrans; [apply IH; lia|]. do 2 f_equal; [lia|].
  rewrite <- Nat.iter_succ_r. done.
Qed.

Lemma seed_loop_length count seed index image_lo mixed stack :
  length (seed_loop count seed index image_lo mixed stack) = count.
Proof. revert index mixed. induction count; intros; [done|]. cbn. by rewrite IHcount. Qed.

(** The kinds rotate with the position. *)
Definition class_kind (mapped : bool) (class : Z) : ViySeedValueKind :=
  if class =? 0 then Seed_ZERO
  else if class =? 1 then Seed_ONE
  else if class =? 2 then Seed_U16_MAX
  else if class =? 3 then Seed_I16_MAX
  else if class =? 4 then Seed_I16_MIN
  else if class =? 5 then Seed_IMAGE_POINTER
  else if (class =? 6) && mapped then Seed_STACK_POINTER
  else Seed_MIXED.

Lemma seed_stack_value_mapped middle end_ mixed index :
  0 <= middle < end_ -> end_ <= u64_max -> 0 <= index ->
  exists pointer, seed_stack_value (Some (middle, end_)) mixed index =
    {| sv_value := pointer; sv_kind := Seed_STACK_POINTER |} /\ middle <= pointer < end_.
Proof.
  intros Hm He Hi. unfold seed_stack_value. set (span := end_ - middle). set (slots := 1 + _). cbn zeta.
  assert (0 < slots) as Hsl by (unfold slots; pose proof (Z.div_pos (span - 1) 0x100); unfold span in *; lia).
  pose proof (Z.mod_pos_bound index slots Hsl) as Hslot. set (slot := index mod slots) in *.
  assert (slot * 0x100 < span) as Hlt.
  { assert (slot <= (span - 1) / 0x100) by (unfold slots in Hslot; lia).
    pose proof (Z.mul_div_le (span - 1) 0x100 ltac:(lia)). lia. }
  unfold checked_add. destruct (Z.ltb_spec (u64_max - slot * 0x100) middle); [unfold span in *; lia|].
  destruct (Z.leb_spec end_ (middle + slot * 0x100)); [unfold span in *; lia|].
  exists (middle + slot * 0x100). split; [done|]. unfold span in *. lia.
Qed.

(** ** The callee's view *)

(** The value of a register after the writes: the last one counts. *)
Definition final_register (writes : list ViyAbiRegisterWrite) (reg : Z) : option Z :=
  option_map rw_value (last (List.filter (fun w => rw_reg w =? reg) writes)).

Definition memory_byte (writes : list ViyAbiStackWrite) (ea : Z) : option byte :=
  foldl (fun found w =>
           if (sw_address w <=? ea) && (ea <? sw_address w + sw_size w)
           then sw_bytes w !! Z.to_nat (ea - sw_address w) else found) None writes.

Definition read_stack (writes : list ViyAbiStackWrite) (big_endian : bool) (size ea : Z) : option Z :=
  option_map (word_value big_endian) (mapM (fun k => memory_byte writes (ea + k)) (seqZ 0 size)).

Lemma shiftr_word (big_endian : bool) (size value : Z) :
  size = 4 \/ size = 8 ->
  word_value big_endian (take (Z.to_nat size) (stack_bytes big_endian size value)) =
    value mod 2 ^ (8 * size).
Proof.
  set (big := fix big (n : nat) (v : Z) : bytes :=
         match n with O => [] | S n' => big n' (Z.shiftr v 8) ++ [z2b v] end).
  assert (forall n v, foldl (fun value b => 256 * value + b2z b) 0 (big n v) =
                        v mod 2 ^ (8 * Z.of_nat n)) as Hbig.
  { induction n as [|n IH]; intros v; cbn [big]; [cbn; by rewrite Z.mod_1_r|].
    rewrite foldl_app, IH. cbn [foldl]. rewrite b2z_z2b, Z.shiftr_div_pow2 by lia.
    replace (2 ^ (8 * Z.of_nat (S n))) with (256 * 2 ^ (8 * Z.of_nat n)).
    - rewrite (Z.rem_mul_r v 256) by lia. change (2 ^ 8) with 256. lia.
    - replace (8 * Z.of_nat (S n)) with (8 + 8 * Z.of_nat n) by lia. by rewrite Z.pow_add_r by lia. }
  intros [->| ->].
  - change (8 * 4) with (8 * Z.of_nat 4). rewrite <- (Hbig 4%nat value). unfold stack_bytes, word_value.
    change (seqZ 0 8) with [0; 1; 2; 3; 4; 5; 6; 7].
    destruct big_endian; cbn [map Z.ltb Z.compare Pos.compare Pos.compare_cont Z.sub Z.mul];
      cbn [big]; rewrite !Z.shiftr_shiftr by lia; reflexivity.
  - change (8 * 8) with (8 * Z.of_nat 8). rewrite <- (Hbig 8%nat value). unfold stack_bytes, word_value.
    change (seqZ 0 8) with [0; 1; 2; 3; 4; 5; 6; 7].
    destruct big_endian; cbn [big]; rewrite !Z.shiftr_shiftr by lia; reflexivity.
Qed.

(** The stack writes without the checks. *)
Fixpoint plan_stack (big_endian : bool) (size destination : Z) (values : list Z) :
    list ViyAbiStackWrite :=
  match values with
  | [] => []
  | value :: rest =>
      {| sw_address := destination; sw_bytes := stack_bytes big_endian size value; sw_size := size |} ::
      plan_stack big_endian size (destination + size) rest
  end.

Definition fits (stack_base stack_end destination size : Z) (values : list Z) : Prop :=
  values = [] \/ (stack_base <= destination /\ destination + size * zlen values <= stack_end).

Lemma stack_writes_spec be size stack_base stack_end destination values :
  0 < size -> stack_end <= u64_max ->
  (fits stack_base stack_end destination size values ->
   stack_writes be size stack_base stack_end destination values =
     Some (plan_stack be size destination values)) /\
  (~ fits stack_base stack_end destination size values ->
   stack_writes be size stack_base stack_end destination values = None).
Proof.
  intros Hs He. revert destination. induction values as [|v values IH]; intros destination.
  { split; [done|]. intros H. exfalso. apply H. by left. }
  cbn [stack_writes plan_stack]. unfold checked_add.
  destruct (IH (destination + size)) as [Hyes Hno]. clear IH.
  pose proof (zlen_nonneg values). split.
  - intros [?|[Hb Hf]]; [done|]. rewrite zlen_cons in Hf.
    destruct (Z.ltb_spec destination stack_base); [lia|].
    destruct (Z.ltb_spec (u64_max - size) destination); [nia|].
    destruct (Z.ltb_spec stack_end (destination + size)); [nia|].
    rewrite Hyes; [done|]. right. split; [lia|]. nia.
  - intros Hf. destruct (Z.ltb_spec destination stack_base); [done|].
    destruct (Z.ltb_spec (u64_max - size) destination); [done|].
    destruct (Z.ltb_spec stack_end (destination + size)); [done|].
    rewrite Hno; [done|]. intros [->|[? ?]]; apply Hf; right; rewrite zlen_cons.
    + rewrite zlen_nil. lia.
    + lia.
Qed.

Lemma plan_stack_length be size destination values :
  length (plan_stack be size destination values) = length values.
Proof. revert destination. induction values; intros; cbn; auto. Qed.

(** Every write fills one of the slots, which lie inside the stack when the values fit. *)
Lemma plan_stack_slots be stack_base stack_end size destination values k w :
  0 < size -> fits stack_base stack_end destination size values ->
  plan_stack be size destination values !! k = Some w ->
  sw_address w = destination + size * Z.of_nat k /\ sw_size w = size /\
  stack_base <= destination + size * Z.of_nat k /\
  destination + size * Z.of_nat k + size <= stack_end.
Proof.
  intros Hs. revert destination k. induction values as [|v values IH]; intros destination k; [done|].
  intros [|[Hb He]]; [done|]. rewrite zlen_cons in He. 
  assert (0 <= size * zlen values) by (pose proof (zlen_nonneg values); nia).
  destruct k as [|k]; cbn [lookup list_lookup plan_stack].
  - intros [= <-]. cbn [sw_address sw_size]. change (Z.of_nat 0) with 0. split_and!; lia.
  - intros Hk. apply IH in Hk; [|right; split; nia]. split_and!; (tauto || nia).
Qed.

Lemma memory_byte_plan be size destination values found ea k v :
  0 < size -> values !! k = Some v ->
  destination + size * Z.of_nat k <= ea < destination + size * Z.of_nat k + size ->
  foldl (fun found w =>
           if (sw_address w <=? ea) && (ea <? sw_address w + sw_size w)
           then sw_bytes w !! Z.to_nat (ea - sw_address w) else found) found
    (plan_stack be size destination values) =
  stack_bytes be size v !! Z.to_nat (ea - (destination + size * Z.of_nat k)).
Proof.
  intros Hs. revert destination found k. induction values as [|x values IH]; intros destination found k; [done|].
  assert (forall dest found, ea < dest ->
    foldl (fun found w =>
             if (sw_address w <=? ea) && (ea <? sw_address w + sw_size w)
             then sw_bytes w !! Z.to_nat (ea - sw_address w) else found) found
      (plan_stack be size dest values) = found) as Hpast.
  { clear IH. induction values as [|y values IH]; intros dest f Hd; [done|]. cbn [plan_stack foldl].
    cbn [sw_address sw_size sw_bytes]. destruct (Z.leb_spec dest ea); [lia|]. apply IH. lia. }
  destruct k as [|k]; cbn [lookup list_lookup plan_stack foldl sw_address sw_size sw_bytes].
  - intros [= ->] Hr. destruct (Z.leb_spec destination ea); [|lia].
    destruct (Z.ltb_spec ea (destination + size)); [|lia]. cbn [andb].
    rewrite Hpast by lia. do 2 f_equal. lia.
  - intros Hk Hr. rewrite (IH _ _ k Hk) by lia. do 2 f_equal. lia.
Qed.

Lemma read_stack_plan be size destination values k v :
  size = 4 \/ size = 8 -> values !! k = Some v ->
  read_stack (plan_stack be size destination values) be size (destination + size * Z.of_nat k) =
    Some (v mod 2 ^ (8 * size)).
Proof.
  intros Hs Hk. rewrite <- (shiftr_word be) by done. unfold read_stack.
  assert (forall j, 0 <= j < size ->
    memory_byte (plan_stack be size destination values) (destination + size * Z.of_nat k + j) =
    stack_bytes be size v !! Z.to_nat j) as Hj.
  { intros j Hj. unfold memory_byte. rewrite (memory_byte_plan be size destination values None _ k v) by (done || lia).
    do 2 f_equal. lia. }
  destruct Hs as [->| ->].
  - change (seqZ 0 4) with [0; 1; 2; 3]. cbn [mapM]. rewrite !Hj by lia. done.
  - change (seqZ 0 8) with [0; 1; 2; 3; 4; 5; 6; 7]. cbn [mapM]. rewrite !Hj by lia. done.
Qed.

(** *** Registers *)

Lemma final_register_app l1 l2 reg :
  final_register (l1 ++ l2) reg =
    match final_register l2 reg with Some v => Some v | None => final_register l1 reg end.
Proof.
  unfold final_register. rewrite List.filter_app, last_app.
  by destruct (last (List.filter _ l2)).
Qed.

Lemma positional_other args registers reg :
  reg ∉ registers -> final_register (positional_writes args registers) reg = None.
Proof.
  revert args. induction registers as [|r registers IH]; intros [|v args] Hr; try done.
  cbn [positional_writes]. change (final_register (?x :: ?l) reg) with (final_register ([x] ++ l) reg).
  rewrite final_register_app, IH by set_solver. unfold final_register. cbn.
  destruct (Z.eqb_spec r reg) as [->|]; [set_solver|done].
Qed.

Lemma override_other registers overrides reg :
  reg ∉ registers -> final_register (override_writes registers overrides) reg = None.
Proof.
  intros Hr. induction overrides as [|o overrides IH]; [done|].
  unfold override_writes. cbn [map concat]. fold (override_writes registers overrides).
  rewrite final_register_app, IH.
  destruct (registers !! Z.to_nat (ao_index o)) as [r|] eqn:E; [|done].
  unfold final_register. cbn. destruct (Z.eqb_spec r reg) as [->|]; [|done].
  exfalso. apply Hr. by eapply list_elem_of_lookup_2.
Qed.

Lemma positional_final args registers i reg :
  NoDup registers -> registers !! i = Some reg ->
  final_register (positional_writes args registers) reg = args !! i.
Proof.
  intros Hn. revert args i. induction Hn as [|r registers Hr Hn IH]; intros args i; [done|].
  destruct args as [|v args]; [by destruct registers|]. cbn [positional_writes].
  change ({| rw_reg := r; rw_value := v |} :: positional_writes args registers)
    with ([{| rw_reg := r; rw_value := v |}] ++ positional_writes args registers).
  rewrite final_register_app. destruct i as [|i]; cbn [lookup list_lookup].
  - intros [= ->]. rewrite positional_other by done. unfold final_register. cbn. by rewrite Z.eqb_refl.
  - intros Hi. rewrite (IH args i Hi). destruct (args !! i); [done|].
    unfold final_register. cbn. destruct (Z.eqb_spec r reg) as [->|]; [|done].
    exfalso. apply Hr. by eapply list_elem_of_lookup_2.
Qed.

(** The last argument override of a position. *)
Definition override_of (overrides : list ArgOverride) (i : nat) : option Z :=
  option_map ao_value (last (List.filter (fun o => ao_index o =? Z.of_nat i) overrides)).

Lemma override_final registers overrides i reg :
  NoDup registers -> registers !! i = Some reg -> Forall (fun o => 0 <= ao_index o) overrides ->
  final_register (override_writes registers overrides) reg = override_of overrides i.
Proof.
  intros Hn Hi Ho. induction overrides as [|o overrides IH] using rev_ind; [done|].
  apply Forall_app in Ho as [Ho Hp]. apply Forall_inv in Hp. unfold override_of.
  rewrite List.filter_app, last_app. unfold override_writes. rewrite map_app, concat_app, final_register_app.
  fold (override_writes registers overrides). rewrite (IH Ho).
  cbn [map concat List.filter]. rewrite app_nil_r.
  destruct (Z.eqb_spec (ao_index o) (Z.of_nat i)) as [E|E].
  - rewrite E, Nat2Z.id, Hi. unfold final_register. cbn. by rewrite Z.eqb_refl.
  - cbn [last]. fold (override_of overrides i).
    destruct (registers !! Z.to_nat (ao_index o)) as [r|] eqn:Er; [|done].
    unfold final_register. cbn. destruct (Z.eqb_spec r reg) as [->|]; [|done].
    pose proof (NoDup_lookup _ _ _ _ Hn Hi Er). lia.
Qed.

(** The last explicit write of a register. *)
Definition explicit_of (overrides : list RegisterOverride) (reg : Z) : option Z :=
  option_map ro_value (last (List.filter (fun o => ro_reg o =? reg) overrides)).

Lemma register_override_spec overrides :
  (Forall (fun o => 0 <= ro_reg o) overrides ->
   register_override_writes overrides =
     (map (fun o => {| rw_reg := ro_reg o; rw_value := ro_value o |}) overrides, false)) /\
  (~ Forall (fun o => 0 <= ro_reg o) overrides -> (register_override_writes overrides).2 = true).
Proof.
  induction overrides as [|o overrides [IH1 IH2]]; cbn [register_override_writes].
  { split; [done|]. intros H. by destruct H. }
  destruct (Z.ltb_spec (ro_reg o) 0).
  - split; [|done]. intros H'. inversion_clear H'. lia.
  - rewrite Forall_cons. split.
    + intros [_ Hall]. by rewrite (IH1 Hall).
    + intros Hn. destruct (register_override_writes overrides) as [writes invalid]. cbn in *.
      apply IH2. tauto.
Qed.

Lemma explicit_final overrides reg :
  final_register (map (fun o => {| rw_reg := ro_reg o; rw_value := ro_value o |}) overrides) reg =
    explicit_of overrides reg.
Proof.
  unfold final_register, explicit_of. induction overrides as [|o overrides IH] using rev_ind; [done|].
  rewrite map_app, !List.filter_app, !last_app. cbn [map List.filter rw_reg].
  by destruct (ro_reg o =? reg).
Qed.

(** ** Properties *)

(** The seed corpus has the demanded length and covers its classes in rotation: the
    value at a position is zero, one, the 16-bit boundaries, the start of the image, a
    pointer into the upper half of the stack, or a mixed number, by the sum of seed and
    position modulo eight.  A stack pointer is produced exactly when the stack is not
    empty and ends at an address, and then it always points into the stack; otherwise
    that class gives a mixed number.  Every value is a 64-bit word. *)
Theorem seed_corpus_exact (seed count image_lo stack_base stack_size : Z) :
  is_u64 seed -> is_u64 image_lo -> is_u64 stack_base -> is_u64 stack_size ->
  let corpus := viy_seed_argument_corpus seed count image_lo stack_base stack_size in
  length corpus = Z.to_nat count /\
  forall i item, corpus !! i = Some item ->
    let class := ((seed + Z.of_nat i) mod 2 ^ 64) mod 8 in
    sv_kind item = class_kind (bool_decide (stack_size <> 0 /\ stack_base + stack_size <= u64_max)) class /\
    is_u64 (sv_value item) /\
    match sv_kind item with
    | Seed_ZERO => sv_value item = 0
    | Seed_ONE => sv_value item = 1
    | Seed_U16_MAX => sv_value item = 2 ^ 16 - 1
    | Seed_I16_MAX => sv_value item = 2 ^ 15 - 1
    | Seed_I16_MIN => sv_value item = 2 ^ 64 - 2 ^ 15
    | Seed_IMAGE_POINTER => sv_value item = image_lo
    | Seed_STACK_POINTER =>
        stack_base + stack_size / 2 <= sv_value item < stack_base + stack_size
    | Seed_MIXED => sv_value item = mixed_at seed i
    end.
Proof.
  intros Hseed Himg Hb Hs. cbn zeta. unfold viy_seed_argument_corpus.
  split; [apply seed_loop_length|]. intros i item Hi.
  assert (i < Z.to_nat count)%nat as Hlt.
  { rewrite <- (seed_loop_length (Z.to_nat count) seed 0 image_lo (mix_start seed)
      (stack_half stack_base stack_size)). by eapply lookup_lt_Some. }
  rewrite seed_loop_lookup in Hi by done. injection Hi as <-. rewrite Z.add_0_l.
  change (Nat.iter (S i) mix_step (mix_start seed)) with (mixed_at seed i).
  assert (is_u64 (mixed_at seed i)) as Hmix.
  { unfold mixed_at. induction i as [|i IH]; cbn [Nat.iter]; apply mix_step_range.
    - apply Z.mod_pos_bound. lia.
    - apply IH. lia. }
  unfold seed_value. cbn zeta. set (class := _ mod 8).
  assert (0 <= class < 8) as Hc by (apply Z.mod_pos_bound; lia). clearbody class.
  unfold is_u64 in *.
  destruct (Z.eqb_spec class 0) as [->|]; [by vm_compute|].
  destruct (Z.eqb_spec class 1) as [->|]; [by vm_compute|].
  destruct (Z.eqb_spec class 2) as [->|]; [by vm_compute|].
  destruct (Z.eqb_spec class 3) as [->|]; [by vm_compute|].
  destruct (Z.eqb_spec class 4) as [->|]; [by vm_compute|].
  destruct (Z.eqb_spec class 5) as [->|]; [cbn [sv_kind sv_value]; split_and!; done || lia|].
  unfold class_kind.
  change (mix_step (Nat.iter i mix_step (mix_start seed))) with (mixed_at seed i).
  rewrite (proj2 (Z.eqb_neq class 0)), (proj2 (Z.eqb_neq class 1)), (proj2 (Z.eqb_neq class 2)),
    (proj2 (Z.eqb_neq class 3)), (proj2 (Z.eqb_neq class 4)), (proj2 (Z.eqb_neq class 5)) by done.
  destruct (Z.eqb_spec class 6) as [->|];
    [|cbn [sv_kind sv_value andb]; split_and!; done || lia].
  pose proof (stack_half_spec stack_base stack_size ltac:(lia) ltac:(lia)) as Hh.
  destruct (stack_half stack_base stack_size) as [[middle end_]|].
  - destruct Hh as ([Hm1 Hm2] & -> & -> & Hlt2).
    rewrite bool_decide_eq_true_2 by done. cbn [andb].
    assert (0 <= stack_size / 2) by (apply Z.div_pos; lia).
    destruct (seed_stack_value_mapped (stack_base + stack_size / 2) (stack_base + stack_size)
                (mixed_at seed i) (Z.of_nat i)) as (pointer & -> & Hp); [lia..|].
    cbn [sv_kind sv_value]. unfold u64_max in *. split_and!; [done|lia|lia|lia|lia].
  - unfold stack_mapped in Hh. rewrite bool_decide_eq_false_2 by done. cbn. done.
Qed.

(** A corpus with a stack pointer at position six. *)
Lemma seed_corpus_exact_witness :
  let corpus := viy_seed_argument_corpus 0 8 4096 65536 4096 in
  length corpus = 8%nat /\
  option_map sv_kind (corpus !! 6%nat) = Some Seed_STACK_POINTER.
Proof.
  cbn zeta. split; [|vm_compute; reflexivity].
  refine (proj1 (seed_corpus_exact 0 8 4096 65536 4096 _ _ _ _)); unfold is_u64; lia.
Defined.

(** What an argument register holds when the code starts. *)
Definition effective_argument (input : EmuInput) (i : nat) (reg : Z) : option Z :=
  match explicit_of (in_register_overrides input) reg with
  | Some v => Some v
  | None =>
      match override_of (in_arg_overrides input) i with
      | Some v => Some v
      | None => in_args input !! i
      end
  end.

Definition first_stack_argument (layout : ViyAbiLayout) (entry_sp : Z) : Z :=
  entry_sp + return_slot layout + al_stack_argument_offset layout.

Definition stack_values (layout : ViyAbiLayout) (input : EmuInput) : list Z :=
  drop (length (al_argument_registers layout)) (in_args input) ++ in_stack_args input.

Definition input_typed (input : EmuInput) : Prop :=
  Forall (fun o => 0 <= ao_index o) (in_arg_overrides input).

(** The conditions under which a plan is made. *)
Definition plannable (layout : ViyAbiLayout) (input : EmuInput)
    (entry_sp stack_base stack_size : Z) : Prop :=
  al_abi layout <> Abi_UNKNOWN /\ (al_pointer_size layout = 4 \/ al_pointer_size layout = 8) /\
  (in_stack_arg_offset input = 0 \/ in_stack_arg_offset input = al_stack_argument_offset layout) /\
  Forall (fun o => 0 <= ro_reg o) (in_register_overrides input) /\
  stack_base + stack_size <= u64_max /\ first_stack_argument layout entry_sp <= u64_max /\
  fits stack_base (stack_base + stack_size) (first_stack_argument layout entry_sp)
    (al_pointer_size layout) (stack_values layout input).

Lemma checked_add_spec a b :
  match checked_add a b with Some c => c = a + b /\ a + b <= u64_max | None => u64_max < a + b end.
Proof. unfold checked_add. destruct (Z.ltb_spec (u64_max - b) a); lia. Qed.

Lemma return_slot_range layout :
  al_pointer_size layout = 4 \/ al_pointer_size layout = 8 -> 0 <= return_slot layout <= 8.
Proof. unfold return_slot. intros ?. case_match; lia. Qed.

(** What the plan is, when it is made and when it is not. *)
Lemma plan_cases layout input entry_sp stack_base stack_size be :
  0 <= al_stack_argument_offset layout ->
  let plan := viy_plan_abi_input layout input entry_sp stack_base stack_size be in
  (plannable layout input entry_sp stack_base stack_size /\
   pl_error plan = Plan_NONE /\
   pl_registers plan =
     (positional_writes (in_args input) (al_argument_registers layout) ++
      override_writes (al_argument_registers layout) (in_arg_overrides input)) ++
     map (fun o => {| rw_reg := ro_reg o; rw_value := ro_value o |}) (in_register_overrides input) /\
   pl_stack plan = plan_stack be (al_pointer_size layout) (first_stack_argument layout entry_sp)
                     (stack_values layout input)) \/
  (~ plannable layout input entry_sp stack_base stack_size /\
   pl_error plan <> Plan_NONE /\ pl_stack plan = []).
Proof.
  intros Hoff. cbn zeta. unfold viy_plan_abi_input, layout_supported, plannable.
  destruct (bool_decide_reflect (al_abi layout = Abi_UNKNOWN)) as [|Habi]; cbn [negb orb].
  { right. split_and!; [naive_solver|done|done]. }
  destruct (negb (al_pointer_size layout =? 4) && negb (al_pointer_size layout =? 8)) eqn:Ep.
  { right. apply andb_true_iff in Ep as [E1%negb_true_iff%Z.eqb_neq E2%negb_true_iff%Z.eqb_neq].
    split_and!; [naive_solver|done|done]. }
  assert (al_pointer_size layout = 4 \/ al_pointer_size layout = 8) as Hp.
  { apply andb_false_iff in Ep as [E%negb_false_iff%Z.eqb_eq|E%negb_false_iff%Z.eqb_eq]; auto. }
  destruct (negb (in_stack_arg_offset input =? 0) &&
            negb (in_stack_arg_offset input =? al_stack_argument_offset layout)) eqn:Eo.
  { right. apply andb_true_iff in Eo as [E1%negb_true_iff%Z.eqb_neq E2%negb_true_iff%Z.eqb_neq].
    split_and!; [naive_solver|done|done]. }
  assert (in_stack_arg_offset input = 0 \/
          in_stack_arg_offset input = al_stack_argument_offset layout) as Ho.
  { apply andb_false_iff in Eo as [E%negb_false_iff%Z.eqb_eq|E%negb_false_iff%Z.eqb_eq]; auto. }
  destruct (register_override_spec (in_register_overrides input)) as [Hr1 Hr2].
  destruct (decide (Forall (fun o => 0 <= ro_reg o) (in_register_overrides input))) as [Hr|Hr].
  2: { right. specialize (Hr2 Hr). destruct (register_override_writes _) as [writes invalid].
       cbn in Hr2. subst invalid. split_and!; [naive_solver|done|done]. }
  rewrite (Hr1 Hr). fold (stack_values layout input). unfold stack_destination.
  pose proof (return_slot_range layout Hp).
  pose proof (checked_add_spec stack_base stack_size) as H1.
  destruct (checked_add stack_base stack_size) as [stack_end|].
  2: { right. split_and!; [intros (_ & _ & _ & _ & ? & _); lia|done|done]. }
  destruct H1 as [-> H1]. pose proof (checked_add_spec entry_sp (return_slot layout)) as H2.
  destruct (checked_add entry_sp _) as [d|].
  2: { right. split_and!; [|done|done]. unfold first_stack_argument.
       intros (_ & _ & _ & _ & _ & ? & _). lia. }
  destruct H2 as [-> H2].
  pose proof (checked_add_spec (entry_sp + return_slot layout) (al_stack_argument_offset layout)) as H3.
  destruct (checked_add (entry_sp + _) _) as [d|].
  2: { right. split_and!; [|done|done]. unfold first_stack_argument.
       intros (_ & _ & _ & _ & _ & ? & _). lia. }
  destruct H3 as [-> H3]. fold (first_stack_argument layout entry_sp) in *.
  destruct (stack_writes_spec be (al_pointer_size layout) stack_base (stack_base + stack_size)
              (first_stack_argument layout entry_sp) (stack_values layout input)) as [Hy Hn]; [lia|lia|].
  assert ({fits stack_base (stack_base + stack_size) (first_stack_argument layout entry_sp)
             (al_pointer_size layout) (stack_values layout input)} +
          {~ fits stack_base (stack_base + stack_size) (first_stack_argument layout entry_sp)
             (al_pointer_size layout) (stack_values layout input)}) as [Hf|Hf]
    by (unfold fits; apply or_dec; [apply list_eq_dec|apply and_dec; apply _]).
  - left. rewrite (Hy Hf). split_and!; done.
  - right. rewrite (Hn Hf). split_and!; [naive_solver|done|done].
Qed.

(** C31: a plan delivers the arguments and nothing else.  When a plan is made, a callee of
    the ABI finds in each argument register the last explicit value for the register, else
    the last override of the argument, else the positional argument, and a register of no
    argument is written exactly when the input names it.  The callee finds the remaining
    positional arguments and the extra stack arguments, truncated to the pointer width
    and in the byte order of the image, at consecutive slots above the return address
    and the home area.  The stack writes are those slots, one for each value and no
    other: each has the pointer's width, lies inside the stack, and starts above the slot
    of the return address. *)
Theorem plan_delivers_arguments (layout : ViyAbiLayout) (input : EmuInput)
    (entry_sp stack_base stack_size : Z) (big_endian : bool) :
  0 <= al_stack_argument_offset layout -> NoDup (al_argument_registers layout) -> input_typed input ->
  let plan := viy_plan_abi_input layout input entry_sp stack_base stack_size big_endian in
  let slot k := first_stack_argument layout entry_sp + al_pointer_size layout * Z.of_nat k in
  pl_error plan = Plan_NONE ->
  (forall i reg, al_argument_registers layout !! i = Some reg ->
     final_register (pl_registers plan) reg = effective_argument input i reg) /\
  (forall reg, reg ∉ al_argument_registers layout ->
     final_register (pl_registers plan) reg = explicit_of (in_register_overrides input) reg) /\
  (forall k v, stack_values layout input !! k = Some v ->
     read_stack (pl_stack plan) big_endian (al_pointer_size layout) (slot k) =
       Some (v mod 2 ^ (8 * al_pointer_size layout))) /\
  length (pl_stack plan) = length (stack_values layout input) /\
  (forall k w, pl_stack plan !! k = Some w ->
     sw_address w = slot k /\ sw_size w = al_pointer_size layout /\
     stack_base <= sw_address w /\ sw_address w + sw_size w <= stack_base + stack_size /\
     entry_sp + return_slot layout <= sw_address w).
Proof.
  intros Hoff Hn Ht. cbn zeta. intros He.
  destruct (plan_cases layout input entry_sp stack_base stack_size big_endian Hoff)
    as [((_ & Hp & _ & _ & _ & _ & Hfit) & _ & -> & ->)|(_ & ? & _)]; [|done].
  split_and!.
  - intros i reg Hi. rewrite !final_register_app, explicit_final,
      (override_final _ _ i reg Hn Hi Ht), (positional_final _ _ i reg Hn Hi).
    unfold effective_argument. done.
  - intros reg Hreg. rewrite !final_register_app, explicit_final,
      override_other, positional_other by done. by destruct (explicit_of _ reg).
  - intros k v Hk. by apply read_stack_plan.
  - apply plan_stack_length.
  - intros k w Hk. apply (plan_stack_slots _ stack_base (stack_base + stack_size)) in Hk; [|lia|done].
    unfold first_stack_argument in *. destruct Hk as (-> & -> & ? & ?). split_and!; (done || nia).
Qed.

(** Five arguments of a Windows x64 function: four registers and a slot above the home area. *)
Definition sample_registers : RaxRegisters := {|
  RAX_X86_REG_RDI := 7; RAX_X86_REG_RSI := 6; RAX_X86_REG_RDX := 2; RAX_X86_REG_RCX := 1;
  RAX_X86_REG_R8 := 8; RAX_X86_REG_R9 := 9;
  RAX_ARM_R := fun i => 100 + i; RAX_ARM64_X := fun i => 200 + i; RAX_RISCV_X := fun i => 300 + i;
  RAX_CM_R := fun i => 400 + i; RAX_HEX_R := fun i => 500 + i
|}.

Definition sample_input : EmuInput := {|
  in_seed := 1; in_run_id := 1; in_args := [11; 22; 33; 44; 55];
  in_arg_overrides := [{| ao_index := 1; ao_value := 77 |}]; in_register_overrides := [];
  in_stack_args := []; in_stack_arg_offset := 0
|}.

Lemma plan_delivers_arguments_witness :
  let plan := viy_plan_abi_input (layout_x64_win sample_registers) sample_input 8192 4096 65536 false in
  final_register (pl_registers plan) 2 = Some 77 /\
  read_stack (pl_stack plan) false 8 (8192 + 8 + 32) = Some 55.
Proof.
  cbn zeta.
  destruct (plan_delivers_arguments (layout_x64_win sample_registers) sample_input 8192 4096 65536 false)
    as (Hr & _ & Hs & _); [done|apply (bool_decide_unpack _); vm_compute; exact I| |reflexivity|].
  - apply List.Forall_cons; [cbn; lia|apply List.Forall_nil].
  - split; [exact (Hr 1%nat 2 eq_refl)|exact (Hs 0%nat 55 eq_refl)].
Defined.

(** Planning fails exactly when it must: for an unknown ABI, a stack offset that does
    not match, an invalid register number, an address that overflows, or stack
    arguments that do not fit into the stack; each gives its own error, and a plan with
    an error writes nothing to the stack.  The first condition that fails decides. *)
Theorem plan_errors_exact (layout : ViyAbiLayout) (input : EmuInput)
    (entry_sp stack_base stack_size : Z) (big_endian : bool) :
  0 <= al_stack_argument_offset layout ->
  let plan := viy_plan_abi_input layout input entry_sp stack_base stack_size big_endian in
  (pl_error plan = Plan_NONE <-> plannable layout input entry_sp stack_base stack_size) /\
  (pl_error plan <> Plan_NONE -> pl_stack plan = []) /\
  (pl_error plan = Plan_STACK_OUT_OF_RANGE ->
     pl_registers plan = [] /\
     ~ fits stack_base (stack_base + stack_size) (first_stack_argument layout entry_sp)
         (al_pointer_size layout) (stack_values layout input)) /\
  (pl_error plan = Plan_INVALID_REGISTER ->
     exists o, o ∈ in_register_overrides input /\ ro_reg o < 0) /\
  (pl_error plan = Plan_ADDRESS_OVERFLOW ->
     u64_max < stack_base + stack_size \/ u64_max < first_stack_argument layout entry_sp) /\
  (pl_error plan = Plan_STACK_OFFSET_MISMATCH ->
     in_stack_arg_offset input <> al_stack_argument_offset layout).
Proof.
  intros Hoff. cbn zeta.
  pose proof (plan_cases layout input entry_sp stack_base stack_size big_endian Hoff) as Hc.
  cbn zeta in Hc. split; [naive_solver|]. split; [naive_solver|]. clear Hc.
  unfold viy_plan_abi_input.
  destruct (negb (layout_supported layout) || _) eqn:Es; [split_and!; done|].
  assert (al_pointer_size layout = 4 \/ al_pointer_size layout = 8) as Hp.
  { apply orb_false_iff in Es as [_ Es].
    apply andb_false_iff in Es as [E%negb_false_iff%Z.eqb_eq|E%negb_false_iff%Z.eqb_eq]; auto. }
  destruct (negb (in_stack_arg_offset input =? 0) && _) eqn:Eo.
  { split_and!; try done. intros _. apply andb_true_iff in Eo as [_ E%negb_true_iff%Z.eqb_neq]. done. }
  destruct (register_override_spec (in_register_overrides input)) as [Hr1 Hr2].
  destruct (register_override_writes (in_register_overrides input)) as [writes invalid] eqn:Ew.
  destruct invalid.
  { split_and!; try done. intros _.
    destruct (decide (Forall (fun o => 0 <= ro_reg o) (in_register_overrides input))) as [Hr|Hr].
    - by specialize (Hr1 Hr).
    - apply not_Forall_Exists in Hr; [|apply _]. apply Exists_exists in Hr as (o & Ho & Hneg).
      exists o. split; [done|]. cbn in Hneg. lia. }
  unfold stack_destination. pose proof (return_slot_range layout Hp).
  pose proof (checked_add_spec stack_base stack_size) as H1.
  destruct (checked_add stack_base stack_size) as [stack_end|]; [|split_and!; try done; by left].
  destruct H1 as [-> H1]. pose proof (checked_add_spec entry_sp (return_slot layout)) as H2.
  unfold first_stack_argument.
  destruct (checked_add entry_sp _) as [d|]; [|split_and!; try done; right; lia].
  destruct H2 as [-> H2].
  pose proof (checked_add_spec (entry_sp + return_slot layout) (al_stack_argument_offset layout)) as H3.
  destruct (checked_add (entry_sp + _) _) as [d|]; [|split_and!; try done; right; lia].
  destruct H3 as [-> H3].
  destruct (stack_writes _ _ _ _ _ _) eqn:Eq; [split_and!; done|]. split_and!; try done.
  intros _. split; [done|]. intros Hf.
  destruct (stack_writes_spec big_endian (al_pointer_size layout) stack_base (stack_base + stack_size)
              (entry_sp + return_slot layout + al_stack_argument_offset layout)
              (stack_values layout input)) as [Hy _]; [lia|lia|].
  unfold stack_values in *. rewrite (Hy Hf) in Eq. done.
Qed.

(** A stack that is too small for the fifth argument. *)
Lemma plan_errors_exact_witness :
  pl_stack (viy_plan_abi_input (layout_x64_win sample_registers) sample_input 8192 4096 4100 false) = [] /\
  pl_error (viy_plan_abi_input (layout_x64_win sample_registers) sample_input 8192 4096 4100 false) =
    Plan_STACK_OUT_OF_RANGE.
Proof.
  split; [|reflexivity].
  refine (proj1 (proj2 (plan_errors_exact (layout_x64_win sample_registers) sample_input 8192 4096 4100
                          false _)) _); [done|discriminate].
Defined.

(** The tables are consistent: every supported ABI has a pointer size of four or eight
    bytes and as many register names as registers. *)
Lemma abi_tables_consistent rax arch windows :
  let abi := viy_abi_for_arch arch windows in
  let layout := viy_abi_layout rax abi in
  al_abi layout = abi /\
  length (al_argument_registers layout) = length (al_ida_argument_registers layout) /\
  (layout_supported layout = true -> al_pointer_size layout = 4 \/ al_pointer_size layout = 8).
Proof. destruct arch, windows; split_and!; (reflexivity || (vm_compute; auto; discriminate)). Qed.
