(* ===== verification/DecoderCore.v ===== *)
(** The policy of the static decoders ([src/src/decoder_core.hpp],
    [src/src/decoder_core.cpp]): decode windows, the validation of a decoder's answer,
    direct targets, and the comparison of two decoders.  The decoder itself and the
    numbers of its interface are parameters. *)
From stdpp Require Import base numbers list strings option sets.
From Stdlib Require Import ZArith Init.Byte Lia.
From S2P Require Import Prelude ProgramModel.

(** ** The decoder's interface *)

(** The constants of the interface. *)
Record RaxDecoder : Type := {
  RAX_ARCH_X86 : Z;
  RAX_ARCH_ARM : Z;
  RAX_ARCH_ARM64 : Z;
  RAX_ARCH_RISCV64 : Z;
  RAX_ARCH_CORTEXM : Z;
  RAX_ARCH_HEXAGON : Z;
  RAX_MODE_16 : Z;
  RAX_MODE_32 : Z;
  RAX_MODE_64 : Z;
  RAX_MODE_ARM : Z;
  RAX_MODE_THUMB : Z;
  RAX_MODE_LITTLE_ENDIAN : Z;
  RAX_MODE_BIG_ENDIAN : Z;
  RAX_OK : Z;
  RAX_FLOW_FALLTHROUGH : Z;
  RAX_FLOW_BRANCH : Z;
  RAX_FLOW_COND_BRANCH : Z;
  RAX_FLOW_INDIRECT_JUMP : Z;
  RAX_FLOW_CALL : Z;
  RAX_FLOW_INDIRECT_CALL : Z;
  RAX_FLOW_RETURN : Z;
  RAX_FLOW_TRAP : Z;
  RAX_FLOW_SYSCALL : Z;
  RAX_FLOW_UNKNOWN : Z
}.

(** The flows are numbered without gaps from the first to the last. *)
Definition flows_numbered (rax : RaxDecoder) : Prop :=
  [RAX_FLOW_FALLTHROUGH rax; RAX_FLOW_BRANCH rax; RAX_FLOW_COND_BRANCH rax;
   RAX_FLOW_INDIRECT_JUMP rax; RAX_FLOW_CALL rax; RAX_FLOW_INDIRECT_CALL rax;
   RAX_FLOW_RETURN rax; RAX_FLOW_TRAP rax; RAX_FLOW_SYSCALL rax; RAX_FLOW_UNKNOWN rax] ≡ₚ
  seqZ (RAX_FLOW_FALLTHROUGH rax) 10 /\
  RAX_FLOW_UNKNOWN rax = RAX_FLOW_FALLTHROUGH rax + 9.

(** What the decoder fills in: the fields the policy reads. *)
Record rax_decoded : Type := {
  rd_valid : Z;
  rd_size : Z;
  rd_flow : Z;
  rd_is_indirect : Z;
  rd_has_target : Z;
  rd_target : Z
}.

Definition zero_decoded : rax_decoded :=
  {| rd_valid := 0; rd_size := 0; rd_flow := 0; rd_is_indirect := 0; rd_has_target := 0;
     rd_target := 0 |}.

(** ** Architectures and modes *)

Record DecoderArchitecture : Type := {
  da_valid : bool;
  da_rax_arch : Z;
  da_base_mode : Z;
  da_per_instruction_thumb : bool
}.

Inductive DecoderArmState : Type := Arm_Unknown | Arm_Arm | Arm_Thumb.

#[export] Instance DecoderArmState_eq_dec : EqDecision DecoderArmState.
Proof. solve_decision. Defined.

(** [remaining > SIZE_MAX] never holds where [size_t] has 64 bits. *)
Definition viy_decoder_window_size (pc chunk_end maximum_bytes : Z) : Z :=
  if (maximum_bytes =? 0) || (chunk_end <=? pc) then 0
  else
    let remaining := chunk_end - pc in
    let bounded_remaining := if u64_max <? remaining then u64_max else remaining in
    Z.min maximum_bytes bounded_remaining.

(** ** Instructions *)

Inductive DecoderTargetKind : Type := Target_None | Target_Call | Target_Jump.

#[export] Instance DecoderTargetKind_eq_dec : EqDecision DecoderTargetKind.
Proof. solve_decision. Defined.

Record DecoderInstruction : Type := {
  di_valid : bool;
  di_size : Z;
  di_flow : Z;
  di_indirect : bool;
  di_has_target : bool;
  di_target : Z
}.

Record DecoderDirectTarget : Type := {
  dt_valid : bool;
  dt_kind : DecoderTargetKind;
  dt_address : Z
}.

Definition no_target : DecoderDirectTarget :=
  {| dt_valid := false; dt_kind := Target_None; dt_address := 0 |}.

Inductive DecoderDecodeStatus : Type :=
| Decode_Valid
| Decode_Unavailable
| Decode_InvalidInput
| Decode_BackendError
| Decode_InvalidEncoding
| Decode_MalformedResult.

Record DecoderDecodeResult : Type := {
  dr_status : DecoderDecodeStatus;
  dr_instruction : DecoderInstruction
}.

Record DecoderComparison : Type := {
  dc_comparable : bool;
  dc_size_disagreement : bool;
  dc_flow_disagreement : bool;
  dc_targets_comparable : bool;
  dc_target_disagreement : bool;
  dc_left_target : DecoderDirectTarget;
  dc_right_target : DecoderDirectTarget
}.

Section Policy.
Context (rax : RaxDecoder).

Definition known_flow (flow : Z) : bool :=
  (RAX_FLOW_FALLTHROUGH rax <=? flow) && (flow <=? RAX_FLOW_UNKNOWN rax).

Definition direct_flow (flow : Z) : bool :=
  (flow =? RAX_FLOW_CALL rax) || (flow =? RAX_FLOW_BRANCH rax) || (flow =? RAX_FLOW_COND_BRANCH rax).

Definition indirect_flow (flow : Z) : bool :=
  (flow =? RAX_FLOW_INDIRECT_CALL rax) || (flow =? RAX_FLOW_INDIRECT_JUMP rax).

Definition architecture_of (rax_arch base_mode : Z) (thumb : bool) : DecoderArchitecture :=
  {| da_valid := true; da_rax_arch := rax_arch; da_base_mode := base_mode;
     da_per_instruction_thumb := thumb |}.

Definition viy_decoder_architecture (arch : ViyArch) (big_endian : bool) : DecoderArchitecture :=
  let endian := if big_endian then RAX_MODE_BIG_ENDIAN rax else RAX_MODE_LITTLE_ENDIAN rax in
  match arch with
  | X86_16 => architecture_of (RAX_ARCH_X86 rax) (RAX_MODE_16 rax) false
  | X86_32 => architecture_of (RAX_ARCH_X86 rax) (RAX_MODE_32 rax) false
  | X86_64 => architecture_of (RAX_ARCH_X86 rax) (RAX_MODE_64 rax) false
  | ARM32 => architecture_of (RAX_ARCH_ARM rax) endian true
  | ARM64 => architecture_of (RAX_ARCH_ARM64 rax) endian false
  | RISCV64 => architecture_of (RAX_ARCH_RISCV64 rax) endian false
  | CORTEX_M => architecture_of (RAX_ARCH_CORTEXM rax) (Z.lor endian (RAX_MODE_THUMB rax)) false
  | HEXAGON => architecture_of (RAX_ARCH_HEXAGON rax) endian false
  | UNSUPPORTED => {| da_valid := false; da_rax_arch := 0; da_base_mode := 0;
                      da_per_instruction_thumb := false |}
  end.

(** The mode, or [None] where the code returns false. *)
Definition viy_decoder_mode (architecture : DecoderArchitecture) (arm_state : DecoderArmState) :
    option Z :=
  if negb (da_valid architecture) then None
  else if negb (da_per_instruction_thumb architecture) then Some (da_base_mode architecture)
  else
    match arm_state with
    | Arm_Unknown => None
    | Arm_Thumb => Some (Z.lor (da_base_mode architecture) (RAX_MODE_THUMB rax))
    | Arm_Arm => Some (Z.lor (da_base_mode architecture) (RAX_MODE_ARM rax))
    end.

Definition viy_decoder_direct_target (instruction : DecoderInstruction) : DecoderDirectTarget :=
  if negb (di_valid instruction) || (di_size instruction =? 0) || di_indirect instruction ||
     negb (di_has_target instruction)
  then no_target
  else if di_flow instruction =? RAX_FLOW_CALL rax then
    {| dt_valid := true; dt_kind := Target_Call; dt_address := di_target instruction |}
  else if (di_flow instruction =? RAX_FLOW_BRANCH rax) ||
          (di_flow instruction =? RAX_FLOW_COND_BRANCH rax) then
    {| dt_valid := true; dt_kind := Target_Jump; dt_address := di_target instruction |}
  else no_target.

(** A result without an instruction. *)
Definition default_instruction : DecoderInstruction :=
  {| di_valid := false; di_size := 0; di_flow := RAX_FLOW_UNKNOWN rax; di_indirect := false;
     di_has_target := false; di_target := 0 |}.

Definition decode_failed (status : DecoderDecodeStatus) : DecoderDecodeResult :=
  {| dr_status := status; dr_instruction := default_instruction |}.

Definition viy_accept_rax_decoded (decoded : rax_decoded) (offered_bytes : Z) :
    DecoderDecodeResult :=
  if (offered_bytes =? 0) || (rd_valid decoded =? 0) then decode_failed Decode_InvalidEncoding
  else if negb (rd_valid decoded =? 1) || (1 <? rd_is_indirect decoded) ||
          (1 <? rd_has_target decoded) || (rd_size decoded =? 0) ||
          (offered_bytes <? rd_size decoded) || negb (known_flow (rd_flow decoded))
  then decode_failed Decode_MalformedResult
  else
    let direct := direct_flow (rd_flow decoded) in
    let indirect := indirect_flow (rd_flow decoded) in
    if (direct && ((rd_has_target decoded =? 0) || negb (rd_is_indirect decoded =? 0))) ||
       (indirect && (negb (rd_has_target decoded =? 0) || (rd_is_indirect decoded =? 0))) ||
       (negb direct && negb indirect &&
        (negb (rd_has_target decoded =? 0) || negb (rd_is_indirect decoded =? 0)))
    then decode_failed Decode_MalformedResult
    else
      {| dr_status := Decode_Valid;
         dr_instruction :=
           {| di_valid := true;
              di_size := rd_size decoded;
              di_flow := rd_flow decoded;
              di_indirect := negb (rd_is_indirect decoded =? 0);
              di_has_target := negb (rd_has_target decoded =? 0);
              di_target := rd_target decoded |} |}.

(** The decoder is a function of architecture, mode, address and bytes, which returns a
    status and what it filled in; null pointers are [None]. *)
Definition viy_decode_one (decode : option (Z -> Z -> Z -> bytes -> Z * rax_decoded))
    (arch mode pc : Z) (bs : option bytes) : DecoderDecodeResult :=
  match decode with
  | None => decode_failed Decode_Unavailable
  | Some decode =>
      match bs with
      | None | Some [] => decode_failed Decode_InvalidInput
      | Some bs =>
          let '(status, decoded) := decode arch mode pc bs in
          if negb (status =? RAX_OK rax) then decode_failed Decode_BackendError
          else viy_accept_rax_decoded decoded (zlen bs)
      end
  end.

Definition viy_compare_decoders (left right : DecoderInstruction) : DecoderComparison :=
  let left_target := viy_decoder_direct_target left in
  let right_target := viy_decoder_direct_target right in
  if negb (di_valid left) || negb (di_valid right) || (di_size left =? 0) || (di_size right =? 0)
  then {| dc_comparable := false; dc_size_disagreement := false; dc_flow_disagreement := false;
          dc_targets_comparable := false; dc_target_disagreement := false;
          dc_left_target := left_target; dc_right_target := right_target |}
  else
    let targets_comparable := dt_valid left_target || dt_valid right_target in
    {| dc_comparable := true;
       dc_size_disagreement := negb (di_size left =? di_size right);
       dc_flow_disagreement := negb (di_flow left =? di_flow right);
       dc_targets_comparable := targets_comparable;
       dc_target_disagreement :=
         if targets_comparable then
           negb (eqb (dt_valid left_target) (dt_valid right_target)) ||
           (dt_valid left_target && dt_valid right_target &&
            ((dt_kind left_target != dt_kind right_target) ||
             negb (dt_address left_target =? dt_address right_target)))
         else false;
       dc_left_target := left_target;
       dc_right_target := right_target |}.

Definition viy_decoder_flow_name (flow : Z) : string :=
  if flow =? RAX_FLOW_FALLTHROUGH rax then "fallthrough"
  else if flow =? RAX_FLOW_BRANCH rax then "branch"
  else if flow =? RAX_FLOW_COND_BRANCH rax then "conditional-branch"
  else if flow =? RAX_FLOW_INDIRECT_JUMP rax then "indirect-jump"
  else if flow =? RAX_FLOW_CALL rax then "call"
  else if flow =? RAX_FLOW_INDIRECT_CALL rax then "indirect-call"
  else if flow =? RAX_FLOW_RETURN rax then "return"
  else if flow =? RAX_FLOW_TRAP rax then "trap"
  else if flow =? RAX_FLOW_SYSCALL rax then "syscall"
  else if flow =? RAX_FLOW_UNKNOWN rax then "unknown"
  else "invalid".

(** ** Lemmas *)

(** The window never leaves the chunk. *)
Lemma decoder_window_bounds pc chunk_end maximum :
  0 <= pc -> 0 <= maximum -> chunk_end <= u64_max ->
  0 <= viy_decoder_window_size pc chunk_end maximum <= maximum /\
  (pc < chunk_end -> pc + viy_decoder_window_size pc chunk_end maximum <= chunk_end) /\
  (viy_decoder_window_size pc chunk_end maximum = 0 <-> maximum = 0 \/ chunk_end <= pc).
Proof.
  intros Hp Hm He. unfold viy_decoder_window_size.
  destruct (Z.eqb_spec maximum 0); cbn [orb]; [lia|].
  destruct (Z.leb_spec chunk_end pc); cbn [orb]; [lia|].
  destruct (Z.ltb_spec u64_max (chunk_end - pc)); lia.
Qed.

(** What a valid decoded instruction satisfies. *)
Record well_decoded (decoded : rax_decoded) (offered_bytes : Z) : Prop := {
  wd_valid : rd_valid decoded = 1;
  wd_size : 0 < rd_size decoded <= offered_bytes;
  wd_flow : RAX_FLOW_FALLTHROUGH rax <= rd_flow decoded <= RAX_FLOW_UNKNOWN rax;
  wd_indirect : rd_is_indirect decoded = if indirect_flow (rd_flow decoded) then 1 else 0;
  wd_target : rd_has_target decoded = if direct_flow (rd_flow decoded) then 1 else 0
}.

Definition decoded_typed (decoded : rax_decoded) : Prop :=
  0 <= rd_valid decoded /\ 0 <= rd_size decoded /\ 0 <= rd_is_indirect decoded /\
  0 <= rd_has_target decoded.

Lemma direct_not_indirect flow :
  flows_numbered rax -> direct_flow flow = true -> indirect_flow flow = false.
Proof.
  intros [Hp _] Hd.
  assert (NoDup [RAX_FLOW_FALLTHROUGH rax; RAX_FLOW_BRANCH rax; RAX_FLOW_COND_BRANCH rax;
     RAX_FLOW_INDIRECT_JUMP rax; RAX_FLOW_CALL rax; RAX_FLOW_INDIRECT_CALL rax;
     RAX_FLOW_RETURN rax; RAX_FLOW_TRAP rax; RAX_FLOW_SYSCALL rax; RAX_FLOW_UNKNOWN rax]) as Hn
    by (rewrite Hp; apply NoDup_seqZ).
  rewrite !NoDup_cons in Hn. repeat setoid_rewrite not_elem_of_cons in Hn.
  unfold direct_flow, indirect_flow in *.
  apply orb_false_iff. rewrite !orb_true_iff, !Z.eqb_eq in Hd. rewrite !Z.eqb_neq.
  destruct Hd as [[->| ->]| ->]; intuition congruence.
Qed.

Lemma accept_well_decoded decoded offered :
  flows_numbered rax -> decoded_typed decoded -> 0 <= offered ->
  dr_status (viy_accept_rax_decoded decoded offered) = Decode_Valid <-> well_decoded decoded offered.
Proof.
  intros Hf (Hv & Hs & Hi & Ht) Ho. pose proof (direct_not_indirect (rd_flow decoded) Hf) as Hdi.
  unfold viy_accept_rax_decoded.
  destruct (Z.eqb_spec offered 0); cbn [orb]; [split; [done|intros []; lia]|].
  destruct (Z.eqb_spec (rd_valid decoded) 0); [split; [done|intros []; lia]|].
  destruct (Z.eqb_spec (rd_valid decoded) 1); cbn [negb orb]; [|split; [done|intros []; lia]].
  destruct (Z.ltb_spec 1 (rd_is_indirect decoded)); cbn [orb].
  { split; [done|]. intros [_ _ _ E _]. destruct (indirect_flow _); lia. }
  destruct (Z.ltb_spec 1 (rd_has_target decoded)); cbn [orb].
  { split; [done|]. intros [_ _ _ _ E]. destruct (direct_flow _); lia. }
  destruct (Z.eqb_spec (rd_size decoded) 0); cbn [orb]; [split; [done|intros []; lia]|].
  destruct (Z.ltb_spec offered (rd_size decoded)); cbn [orb]; [split; [done|intros []; lia]|].
  unfold known_flow.
  destruct (Z.leb_spec (RAX_FLOW_FALLTHROUGH rax) (rd_flow decoded)); cbn [andb negb];
    [|split; [done|intros []; lia]].
  destruct (Z.leb_spec (rd_flow decoded) (RAX_FLOW_UNKNOWN rax)); cbn [negb];
    [|split; [done|intros []; lia]].
  destruct (Z.eqb_spec (rd_has_target decoded) 0), (Z.eqb_spec (rd_is_indirect decoded) 0),
    (direct_flow (rd_flow decoded)) eqn:Ed, (indirect_flow (rd_flow decoded)) eqn:Ei;
    try (specialize (Hdi eq_refl); discriminate); cbn [andb orb negb dr_status decode_failed];
    (split; [intros [=]; split; rewrite ?Ed, ?Ei; lia|intros [_ _ _ E1 E2]; rewrite ?Ed, ?Ei in *; lia || done]).
Qed.

(** The three exits of the validation: a failure, or the instruction as it was decoded. *)
Lemma accept_cases decoded offered :
  (exists status, (status = Decode_InvalidEncoding \/ status = Decode_MalformedResult) /\
     viy_accept_rax_decoded decoded offered = decode_failed status) \/
  viy_accept_rax_decoded decoded offered =
    {| dr_status := Decode_Valid;
       dr_instruction :=
         {| di_valid := true; di_size := rd_size decoded; di_flow := rd_flow decoded;
            di_indirect := negb (rd_is_indirect decoded =? 0);
            di_has_target := negb (rd_has_target decoded =? 0);
            di_target := rd_target decoded |} |}.
Proof.
  unfold viy_accept_rax_decoded. cbn zeta.
  repeat match goal with
  | |- context [if ?c then decode_failed ?s else _] => destruct c; [left; exists s; auto|]
  end.
  by right.
Qed.

(** With a byte to decode, the answer is an invalid encoding exactly when the decoder says so,
    and malformed exactly when it claims an instruction that is not well formed. *)
Lemma accept_failures decoded offered :
  flows_numbered rax -> decoded_typed decoded -> 0 < offered ->
  (dr_status (viy_accept_rax_decoded decoded offered) = Decode_InvalidEncoding <->
     rd_valid decoded = 0) /\
  (dr_status (viy_accept_rax_decoded decoded offered) = Decode_MalformedResult <->
     rd_valid decoded <> 0 /\ ~ well_decoded decoded offered).
Proof.
  intros Hf Ht Ho. rewrite <- (accept_well_decoded decoded offered Hf Ht) by lia.
  assert (dr_status (viy_accept_rax_decoded decoded offered) = Decode_InvalidEncoding <->
          rd_valid decoded = 0) as He.
  { unfold viy_accept_rax_decoded. cbn zeta.
    destruct (Z.eqb_spec offered 0); [lia|]. cbn [orb].
    destruct (Z.eqb_spec (rd_valid decoded) 0); [done|]. by repeat case_match. }
  split; [done|]. rewrite <- He.
  destruct (accept_cases decoded offered) as [(s & [->| ->] & ->)| ->];
    cbn [dr_status decode_failed]; naive_solver.
Qed.

End Policy.

(** The decoder's answer to a request that reaches it: there is a decoder and a byte. *)
Definition answered (decode : option (Z -> Z -> Z -> bytes -> Z * rax_decoded))
    (arch mode pc : Z) (bs : option bytes) (offered status : Z) (decoded : rax_decoded) : Prop :=
  exists d b, decode = Some d /\ bs = Some b /\ b <> [] /\ offered = zlen b /\
              d arch mode pc b = (status, decoded).

(** The target of a direct call or jump, if the instruction has one. *)
Definition direct_target (rax : RaxDecoder) (i : DecoderInstruction) : option (DecoderTargetKind * Z) :=
  let t := viy_decoder_direct_target rax i in
  if dt_valid t then Some (dt_kind t, dt_address t) else None.

(** A request either reaches the decoder, and then has one answer, or fails before. *)
Lemma decode_one_cases rax decode arch mode pc bs :
  let result := viy_decode_one rax decode arch mode pc bs in
  let answer := answered decode arch mode pc bs in
  (decode = None /\ result = decode_failed rax Decode_Unavailable /\
   (forall n s d, ~ answer n s d)) \/
  (is_Some decode /\ (bs = None \/ bs = Some []) /\
   result = decode_failed rax Decode_InvalidInput /\ (forall n s d, ~ answer n s d)) \/
  (exists d b status decoded, decode = Some d /\ bs = Some b /\ b <> [] /\
     d arch mode pc b = (status, decoded) /\
     (forall n s e, answer n s e <-> n = zlen b /\ s = status /\ e = decoded) /\
     result = if status =? RAX_OK rax then viy_accept_rax_decoded rax decoded (zlen b)
              else decode_failed rax Decode_BackendError).
Proof.
  cbn zeta. unfold viy_decode_one, answered. destruct decode as [d|]; [|left; naive_solver].
  destruct bs as [[|x r]|]; [right; left; naive_solver| |right; left; naive_solver].
  right. right. destruct (d arch mode pc (x :: r)) as [status decoded] eqn:E.
  exists d, (x :: r), status, decoded. split_and!; try done.
  - intros n s e. split; [|naive_solver].
    intros (d' & b & [= <-] & [= <-] & _ & -> & E'). rewrite E in E'. by injection E' as <- <-.
  - by destruct (status =? RAX_OK rax).
Qed.

(** The instruction of a sound answer, taken over. *)
Lemma accept_taken_over rax decoded offered :
  flows_numbered rax -> well_decoded rax decoded offered ->
  let result := viy_accept_rax_decoded rax decoded offered in
  dr_status result = Decode_Valid ->
  let i := dr_instruction result in
  di_valid i = true /\ di_size i = rd_size decoded /\ di_flow i = rd_flow decoded /\
  di_indirect i = indirect_flow rax (rd_flow decoded) /\
  di_has_target i = direct_flow rax (rd_flow decoded) /\
  di_target i = rd_target decoded /\
  (is_Some (direct_target rax i) <-> direct_flow rax (rd_flow decoded) = true).
Proof.
  intros Hf [Hw1 Hw2 Hw3 Hw4 Hw5]. cbn zeta.
  pose proof (direct_not_indirect rax (rd_flow decoded) Hf) as Hdi.
  destruct (accept_cases rax decoded offered) as [(s & [->| ->] & ->)| ->]; [done..|]. intros _.
  cbn [dr_instruction di_valid di_size di_flow di_target di_indirect di_has_target].
  unfold direct_target, viy_decoder_direct_target.
  cbn [di_valid di_size di_indirect di_has_target di_flow negb orb].
  rewrite (proj2 (Z.eqb_neq (rd_size decoded) 0)) by lia. cbn [orb]. rewrite Hw4, Hw5.
  destruct (direct_flow rax (rd_flow decoded)) eqn:Edf.
  - rewrite (Hdi eq_refl). cbn [Z.eqb negb orb]. do 6 (split; [done|]). split; [done|]. intros _.
    unfold direct_flow in Edf. destruct (rd_flow decoded =? RAX_FLOW_CALL rax); [by eexists|].
    cbn [orb] in Edf. rewrite Edf. by eexists.
  - destruct (indirect_flow rax (rd_flow decoded)); cbn [Z.eqb negb orb dt_valid no_target];
      (do 6 (split; [done|]); split; [intros [? [=]]|done]).
Qed.

(** ** Properties *)

(** C32: one decode is accepted exactly when everything about it is sound: there is a
    decoder and a byte to decode, the decoder reports success and exactly one valid
    instruction, the instruction is not longer than the bytes that were offered, its
    flow is a known one, exactly the direct flows carry a target and exactly the
    indirect ones are marked.  Then the instruction is taken over as it is, and it has a
    direct target exactly when its flow is direct.  Otherwise the instruction is the empty
    one and the status names the reason: no decoder; nothing to decode; a failure
    of the decoder; the decoder's answer that the bytes are no instruction; an
    instruction that violates one of the conditions above.  Each status is returned
    exactly in its case. *)
Theorem decode_one_exact (rax : RaxDecoder) (decode : option (Z -> Z -> Z -> bytes -> Z * rax_decoded))
    (arch mode pc : Z) (bs : option bytes) :
  flows_numbered rax ->
  (forall d b, decode = Some d -> decoded_typed (d arch mode pc b).2) ->
  let result := viy_decode_one rax decode arch mode pc bs in
  let answer := answered decode arch mode pc bs in
  (dr_status result = Decode_Valid <->
     exists n decoded, answer n (RAX_OK rax) decoded /\ well_decoded rax decoded n) /\
  (dr_status result = Decode_Unavailable <-> decode = None) /\
  (dr_status result = Decode_InvalidInput <->
     is_Some decode /\ (bs = None \/ bs = Some [])) /\
  (dr_status result = Decode_BackendError <->
     exists n status decoded, answer n status decoded /\ status <> RAX_OK rax) /\
  (dr_status result = Decode_InvalidEncoding <->
     exists n decoded, answer n (RAX_OK rax) decoded /\ rd_valid decoded = 0) /\
  (dr_status result = Decode_MalformedResult <->
     exists n decoded, answer n (RAX_OK rax) decoded /\ rd_valid decoded <> 0 /\
                       ~ well_decoded rax decoded n) /\
  (dr_status result <> Decode_Valid -> dr_instruction result = default_instruction rax) /\
  (dr_status result = Decode_Valid -> forall n status decoded, answer n status decoded ->
     let i := dr_instruction result in
     di_valid i = true /\ di_size i = rd_size decoded /\ di_flow i = rd_flow decoded /\
     di_indirect i = indirect_flow rax (rd_flow decoded) /\
     di_has_target i = direct_flow rax (rd_flow decoded) /\
     di_target i = rd_target decoded /\
     (is_Some (direct_target rax i) <-> direct_flow rax (rd_flow decoded) = true)).
Proof.
  intros Hf Ht. cbn zeta.
  destruct (decode_one_cases rax decode arch mode pc bs) as
    [(-> & -> & Hno)|[(Hd & Hbs & -> & Hno)|(d & b & status & decoded & -> & -> & Hb & Ed & Ha & ->)]].
  - split_and!; try done; try (split; [done|]; naive_solver).
  - split_and!; try done; try (split; [done|]; naive_solver).
  - specialize (Ht d b eq_refl). rewrite Ed in Ht. cbn [snd] in Ht. repeat setoid_rewrite Ha.
    assert (0 < zlen b) as Hl by (destruct b as [|x r]; [done|rewrite zlen_cons; pose proof (zlen_nonneg r); lia]).
    destruct (Z.eqb_spec status (RAX_OK rax)) as [->|Hne];
      [|split_and!; try done; try (split; [done|]; naive_solver); naive_solver].
    pose proof (accept_well_decoded rax decoded (zlen b) Hf Ht ltac:(lia)) as Hv.
    destruct (accept_failures rax decoded (zlen b) Hf Ht Hl) as [Hi Hm].
    destruct (accept_cases rax decoded (zlen b)) as [(s & Hs & Er)|Er].
    + rewrite Er in Hv, Hi, Hm |- *. cbn [dr_status dr_instruction decode_failed] in *.
      split_and!; try done; naive_solver.
    + assert (dr_status (viy_accept_rax_decoded rax decoded (zlen b)) = Decode_Valid) as Hok
        by by rewrite Er.
      pose proof (proj1 Hv Hok) as Hw. assert (rd_valid decoded <> 0) by (destruct Hw; lia).
      rewrite Hok. clear Hv Hi Hm Er. split.
      { split; [intros _; by exists (zlen b), decoded|done]. }
      repeat (split; [split; [done|intros; destruct_and?; naive_solver]|]).
      split; [done|]. intros _ n s e (-> & -> & ->). by apply accept_taken_over.
Qed.

(** Numbers for the interface, and a decoder that sees a five-byte call. *)
Definition sample_rax : RaxDecoder := {|
  RAX_ARCH_X86 := 1; RAX_ARCH_ARM := 2; RAX_ARCH_ARM64 := 3; RAX_ARCH_RISCV64 := 4;
  RAX_ARCH_CORTEXM := 5; RAX_ARCH_HEXAGON := 6; RAX_MODE_16 := 2; RAX_MODE_32 := 4;
  RAX_MODE_64 := 8; RAX_MODE_ARM := 0; RAX_MODE_THUMB := 16; RAX_MODE_LITTLE_ENDIAN := 0;
  RAX_MODE_BIG_ENDIAN := 2147483648; RAX_OK := 0; RAX_FLOW_FALLTHROUGH := 0; RAX_FLOW_BRANCH := 1;
  RAX_FLOW_COND_BRANCH := 2; RAX_FLOW_INDIRECT_JUMP := 3; RAX_FLOW_CALL := 4;
  RAX_FLOW_INDIRECT_CALL := 5; RAX_FLOW_RETURN := 6; RAX_FLOW_TRAP := 7; RAX_FLOW_SYSCALL := 8;
  RAX_FLOW_UNKNOWN := 9
|}.

Definition sample_decode (arch mode pc : Z) (bs : bytes) : Z * rax_decoded :=
  (0, {| rd_valid := 1; rd_size := 5; rd_flow := 4; rd_is_indirect := 0; rd_has_target := 1;
         rd_target := pc + 4096 |}).

Lemma sample_flows_numbered : flows_numbered sample_rax.
Proof. split; [|reflexivity]. by vm_compute. Qed.

Lemma decode_one_exact_witness :
  let result := viy_decode_one sample_rax (Some sample_decode) 1 8 64 (Some [xe8; x00; x10; x00; x00]) in
  dr_status result = Decode_Valid /\ is_Some (direct_target sample_rax (dr_instruction result)).
Proof.
  cbn zeta. split; [reflexivity|].
  destruct (decode_one_exact sample_rax (Some sample_decode) 1 8 64 (Some [xe8; x00; x10; x00; x00])
              sample_flows_numbered) as (_ & _ & _ & _ & _ & _ & _ & H).
  { intros d b [= <-]. unfold decoded_typed. cbn. lia. }
  destruct (H eq_refl 5 0 (sample_decode 1 8 64 [xe8; x00; x10; x00; x00]).2) as (_ & _ & _ & _ & _ & _ & Hi).
  { by exists sample_decode, [xe8; x00; x10; x00; x00]. }
  apply Hi. reflexivity.
Defined.

(** The comparison of two decoders is exact and symmetric.  Two instructions are
    comparable when both are valid and not empty; then each flag is set exactly when the
    sizes, the flows, or the direct targets (kind and address, or their presence) differ.
    Exchanging the decoders changes no flag. *)
Theorem decoder_comparison_exact (rax : RaxDecoder) (left right : DecoderInstruction) :
  let c := viy_compare_decoders rax left right in
  let c' := viy_compare_decoders rax right left in
  (dc_comparable c = true <->
     di_valid left = true /\ di_valid right = true /\ di_size left <> 0 /\ di_size right <> 0) /\
  (dc_comparable c = true ->
     (dc_size_disagreement c = true <-> di_size left <> di_size right) /\
     (dc_flow_disagreement c = true <-> di_flow left <> di_flow right) /\
     (dc_target_disagreement c = true <-> direct_target rax left <> direct_target rax right)) /\
  (dc_comparable c = false ->
     dc_size_disagreement c = false /\ dc_flow_disagreement c = false /\
     dc_target_disagreement c = false) /\
  dc_comparable c' = dc_comparable c /\ dc_size_disagreement c' = dc_size_disagreement c /\
  dc_flow_disagreement c' = dc_flow_disagreement c /\
  dc_targets_comparable c' = dc_targets_comparable c /\
  dc_target_disagreement c' = dc_target_disagreement c.
Proof.
  cbn zeta. unfold viy_compare_decoders, direct_target. cbn zeta.
  set (l := viy_decoder_direct_target rax left). set (r := viy_decoder_direct_target rax right).
  clearbody l r.
  destruct (di_valid left), (di_valid right), (Z.eqb_spec (di_size left) 0),
    (Z.eqb_spec (di_size right) 0); cbn [negb orb dc_comparable dc_size_disagreement
      dc_flow_disagreement dc_targets_comparable dc_target_disagreement];
    try (split_and!; naive_solver).
  rewrite (Z.eqb_sym (di_size right)), (Z.eqb_sym (di_flow right)).
  split_and!; try done.
  - intros _. rewrite !negb_true_iff, !Z.eqb_neq. split_and!; [done..|].
    destruct (dt_valid l), (dt_valid r); cbn [orb andb eqb negb]; try naive_solver.
    rewrite orb_true_iff, !negb_true_iff, Z.eqb_neq, bool_decide_eq_false.
    split; [intros [H|H] [= Hk Ha]; done|]. intros H.
    destruct (decide (dt_kind l = dt_kind r)) as [Hk|]; [|by left]. right. intros Ha.
    apply H. by rewrite Hk, Ha.
  - apply orb_comm.
  - destruct (dt_valid l), (dt_valid r); cbn [orb andb eqb negb]; try done.
    rewrite (Z.eqb_sym (dt_address r)).
    by rewrite (bool_decide_ext (dt_kind r = dt_kind l) (dt_kind l = dt_kind r)) by done.
Qed.

(** Two decoders that agree on the call but not on where it goes. *)
Definition sample_call (target : Z) : DecoderInstruction :=
  {| di_valid := true; di_size := 5; di_flow := 4; di_indirect := false; di_has_target := true;
     di_target := target |}.

Lemma decoder_comparison_exact_witness :
  let c := viy_compare_decoders sample_rax (sample_call 4096) (sample_call 8192) in
  dc_target_disagreement c = true /\ dc_size_disagreement c = false.
Proof.
  cbn zeta.
  destruct (decoder_comparison_exact sample_rax (sample_call 4096) (sample_call 8192)) as (_ & H & _).
  split; [|reflexivity]. apply (H eq_refl). intros H'. discriminate H'.
Defined.
