(* ===== verification/WorkerFingerprint.v ===== *)
(** * Emulation jobs and their fingerprint (emulation_workers.hpp, emulation_workers.cpp)

    A job holds what a worker needs to run a function: its range, the configuration,
    the requested runs and the instructions to decode.  The epoch cache keys results
    by a 64-bit FNV-1a hash of the job.  The theorem says which byte stream is
    hashed and that two jobs have the same stream exactly when they agree on
    everything that the fingerprint is meant to cover. *)
From stdpp Require Import base numbers list strings option.
From Stdlib Require Import ZArith Init.Byte Lia.
From S2P Require Import Prelude ProgramModel Config AbiPolicy DecoderCore.

(** ** Jobs *)

(** [EmuSummaryKind] and [EmuCallSummary] of emu_driver.hpp. *)
Inductive EmuSummaryKind : Type :=
  | Summary_MEMCPY
  | Summary_MEMMOVE
  | Summary_MEMSET
  | Summary_STRCPY
  | Summary_STRNCPY
  | Summary_STRLEN
  | Summary_STRCMP
  | Summary_ALLOCATE
  | Summary_CALLOCATE
  | Summary_DEALLOCATE
  | Summary_TERMINATE.

#[export] Instance EmuSummaryKind_eq_dec : EqDecision EmuSummaryKind.
Proof. solve_decision. Defined.

Definition summary_kind_value (kind : EmuSummaryKind) : Z :=
  match kind with
  | Summary_MEMCPY => 1
  | Summary_MEMMOVE => 2
  | Summary_MEMSET => 3
  | Summary_STRCPY => 4
  | Summary_STRNCPY => 5
  | Summary_STRLEN => 6
  | Summary_STRCMP => 7
  | Summary_ALLOCATE => 8
  | Summary_CALLOCATE => 9
  | Summary_DEALLOCATE => 10
  | Summary_TERMINATE => 11
  end.

Record EmuCallSummary : Type := { cs_address : Z; cs_kind : EmuSummaryKind }.

(** [DecoderAuditInput] of decoder_audit.hpp. *)
Record DecoderAuditInput : Type := {
  dai_address : Z;
  dai_maximum_bytes : Z;
  dai_mode : Z;
  dai_mode_known : bool;
  dai_control_transfer : bool;
  dai_ida : DecoderInstruction
}.

Record EmulationRunRequest : Type := {
  rr_seed : Z;
  rr_run_id : Z;
  rr_record_pcs : bool;
  rr_has_input : bool;
  rr_input : EmuInput
}.

Record EmulationJob : Type := {
  job_function : FuncRange;
  job_config : ViyConfig;
  job_runs : list EmulationRunRequest;
  job_decoder_inputs : list DecoderAuditInput
}.

(** ** The number of workers *)

Definition kViyAutomaticWorkerCap : Z := 4.

Definition viy_resolve_worker_count_for_hardware
    (configured reported_hardware_concurrency hard_cap : Z) : Z :=
  if hard_cap =? 0 then 0
  else if 0 <? configured then Z.min configured hard_cap
  else
    let automatic :=
      if 1 <? reported_hardware_concurrency then reported_hardware_concurrency - 1 else 1 in
    Z.min (Z.min automatic kViyAutomaticWorkerCap) hard_cap.

(** ** The fingerprint *)

(** The three local functions of [viy_emulation_job_fingerprint], with the hash they
    update as an argument. *)
Definition fingerprint_byte (hash value : Z) : Z :=
  (Z.lxor hash value * 1099511628211) mod 2 ^ 64.

Fixpoint fingerprint_u64_loop (n : nat) (hash value shift : Z) : Z :=
  match n with
  | O => hash
  | S n => fingerprint_u64_loop n (fingerprint_byte hash (Z.shiftr value shift mod 256)) value
             (shift + 8)
  end.

Definition fingerprint_u64 (hash value : Z) : Z := fingerprint_u64_loop 8 hash value 0.

Definition fingerprint_boolean (hash : Z) (value : bool) : Z :=
  fingerprint_byte hash (if value then 1 else 0).

(** [uint64_t(value)] of an [int], [uint32_t(value)] of an [int]. *)
Definition int_u64 (value : Z) : Z := value mod 2 ^ 64.
Definition int_u32 (value : Z) : Z := value mod 2 ^ 32.

Definition fingerprint_chunk (start hash : Z) (chunk : FuncChunk) : Z :=
  let hash := fingerprint_u64 hash ((ch_start chunk - start) mod 2 ^ 64) in
  fingerprint_u64 hash
    (if ch_start chunk <? ch_end chunk then ch_end chunk - ch_start chunk else 0).

Definition fingerprint_config (hash : Z) (cfg : ViyConfig) : Z :=
  let boolean := fingerprint_boolean in
  let u64 := fingerprint_u64 in
  let hash := boolean hash (cfg_enabled cfg) in
  let hash := u64 hash (cfg_max_insns cfg) in
  let hash := u64 hash (cfg_timeout_ms cfg) in
  let hash := u64 hash (cfg_max_funcs cfg) in
  let hash := u64 hash (int_u64 (cfg_funcs_per_tick cfg)) in
  let hash := u64 hash (int_u64 (cfg_tick_ms cfg)) in
  let hash := u64 hash (int_u64 (cfg_max_epochs cfg)) in
  let hash := u64 hash (int_u64 (cfg_explore_runs cfg)) in
  let hash := boolean hash (cfg_make_code cfg) in
  let hash := boolean hash (cfg_want_drefs cfg) in
  let hash := boolean hash (cfg_want_static cfg) in
  let hash := boolean hash (cfg_want_native cfg) in
  let hash := boolean hash (cfg_strict_perms cfg) in
  let hash := boolean hash (cfg_want_import_summaries cfg) in
  let hash := boolean hash (cfg_want_runtime_strings cfg) in
  let hash := boolean hash (cfg_want_unicode_strings cfg) in
  let hash := boolean hash (cfg_want_tables cfg) in
  let hash := boolean hash (cfg_want_smc_evidence cfg) in
  let hash := boolean hash (cfg_apply_runtime_bytes cfg) in
  let hash := u64 hash (cfg_max_runtime_bytes cfg) in
  let hash := boolean hash (cfg_want_switch cfg) in
  let hash := boolean hash (cfg_want_purge cfg) in
  let hash := boolean hash (cfg_want_noret cfg) in
  let hash := boolean hash (cfg_set_noret cfg) in
  let hash := boolean hash (cfg_want_argregs cfg) in
  let hash := boolean hash (cfg_want_opaque cfg) in
  u64 hash (int_u64 (cfg_opaque_runs cfg)).

Definition fingerprint_summary (hash : Z) (summary : EmuCallSummary) : Z :=
  fingerprint_byte (fingerprint_u64 hash (cs_address summary))
    (summary_kind_value (cs_kind summary)).

(** The count of a vector and its elements. *)
Definition fingerprint_list {A} (element : Z -> A -> Z) (hash : Z) (l : list A) : Z :=
  foldl element (fingerprint_u64 hash (zlen l)) l.

Definition fingerprint_argument (hash : Z) (argument : ArgOverride) : Z :=
  fingerprint_u64 (fingerprint_u64 hash (ao_index argument)) (ao_value argument).

Definition fingerprint_register (hash : Z) (reg : RegisterOverride) : Z :=
  fingerprint_u64 (fingerprint_u64 hash (int_u32 (ro_reg reg))) (ro_value reg).

Definition fingerprint_input (hash : Z) (input : EmuInput) : Z :=
  let hash := fingerprint_u64 hash (in_seed input) in
  let hash := fingerprint_u64 hash (in_run_id input) in
  let hash := fingerprint_u64 hash (in_stack_arg_offset input) in
  let hash := fingerprint_list fingerprint_u64 hash (in_args input) in
  let hash := fingerprint_list fingerprint_argument hash (in_arg_overrides input) in
  let hash := fingerprint_list fingerprint_register hash (in_register_overrides input) in
  fingerprint_list fingerprint_u64 hash (in_stack_args input).

Definition fingerprint_run (hash : Z) (run : EmulationRunRequest) : Z :=
  let hash := fingerprint_u64 hash (rr_seed run) in
  let hash := fingerprint_u64 hash (rr_run_id run) in
  let hash := fingerprint_boolean hash (rr_record_pcs run) in
  let hash := fingerprint_boolean hash (rr_has_input run) in
  if negb (rr_has_input run) then hash else fingerprint_input hash (rr_input run).

Definition fingerprint_offset : Z := 14695981039346656037.

(** The characters [VIYJOBF1]. *)
Definition fingerprint_magic : Z := 0x5649594a4f424631.

Definition viy_emulation_job_fingerprint (job : EmulationJob) (image_content_hash : Z)
    (call_summaries : list EmuCallSummary) : Z :=
  let func := job_function job in
  let hash := fingerprint_u64 fingerprint_offset fingerprint_magic in
  let hash := fingerprint_u64 hash image_content_hash in
  let hash := fingerprint_u64 hash (fr_start func) in
  let hash := fingerprint_u64 hash (fr_end func) in
  let hash := fingerprint_u64 hash (fr_byte_hash func) in
  let hash := fingerprint_list (fingerprint_chunk (fr_start func)) hash (fr_chunks func) in
  let hash := fingerprint_config hash (job_config job) in
  let hash := fingerprint_list fingerprint_summary hash call_summaries in
  fingerprint_list fingerprint_run hash (job_runs job).

(** ** The hashed bytes *)

Definition flag_byte (value : bool) : bytes := [if value then x01 else x00].

Definition list_stream {A} (element : A -> bytes) (l : list A) : bytes :=
  u64_le (zlen l) ++ concat (map element l).

Definition chunk_bytes (start : Z) (chunk : FuncChunk) : bytes :=
  u64_le ((ch_start chunk - start) mod 2 ^ 64) ++ u64_le (chunk_size chunk).

(** The fields of the configuration that are hashed, in order. *)
Definition config_stream (cfg : ViyConfig) : bytes :=
  flag_byte (cfg_enabled cfg) ++ u64_le (cfg_max_insns cfg) ++ u64_le (cfg_timeout_ms cfg) ++
  u64_le (cfg_max_funcs cfg) ++ u64_le (int_u64 (cfg_funcs_per_tick cfg)) ++
  u64_le (int_u64 (cfg_tick_ms cfg)) ++ u64_le (int_u64 (cfg_max_epochs cfg)) ++
  u64_le (int_u64 (cfg_explore_runs cfg)) ++ flag_byte (cfg_make_code cfg) ++
  flag_byte (cfg_want_drefs cfg) ++ flag_byte (cfg_want_static cfg) ++
  flag_byte (cfg_want_native cfg) ++ flag_byte (cfg_strict_perms cfg) ++
  flag_byte (cfg_want_import_summaries cfg) ++ flag_byte (cfg_want_runtime_strings cfg) ++
  flag_byte (cfg_want_unicode_strings cfg) ++ flag_byte (cfg_want_tables cfg) ++
  flag_byte (cfg_want_smc_evidence cfg) ++ flag_byte (cfg_apply_runtime_bytes cfg) ++
  u64_le (cfg_max_runtime_bytes cfg) ++ flag_byte (cfg_want_switch cfg) ++
  flag_byte (cfg_want_purge cfg) ++ flag_byte (cfg_want_noret cfg) ++
  flag_byte (cfg_set_noret cfg) ++ flag_byte (cfg_want_argregs cfg) ++
  flag_byte (cfg_want_opaque cfg) ++ u64_le (int_u64 (cfg_opaque_runs cfg)).

Definition summary_stream (summary : EmuCallSummary) : bytes :=
  u64_le (cs_address summary) ++ [z2b (summary_kind_value (cs_kind summary))].

Definition argument_stream (argument : ArgOverride) : bytes :=
  u64_le (ao_index argument) ++ u64_le (ao_value argument).

Definition register_stream (reg : RegisterOverride) : bytes :=
  u64_le (int_u32 (ro_reg reg)) ++ u64_le (ro_value reg).

Definition input_stream (input : EmuInput) : bytes :=
  u64_le (in_seed input) ++ u64_le (in_run_id input) ++ u64_le (in_stack_arg_offset input) ++
  list_stream u64_le (in_args input) ++ list_stream argument_stream (in_arg_overrides input) ++
  list_stream register_stream (in_register_overrides input) ++
  list_stream u64_le (in_stack_args input).

Definition run_stream (run : EmulationRunRequest) : bytes :=
  u64_le (rr_seed run) ++ u64_le (rr_run_id run) ++ flag_byte (rr_record_pcs run) ++
  flag_byte (rr_has_input run) ++ (if rr_has_input run then input_stream (rr_input run) else []).

Definition job_stream (job : EmulationJob) (image_content_hash : Z)
    (call_summaries : list EmuCallSummary) : bytes :=
  let func := job_function job in
  u64_le fingerprint_magic ++ u64_le image_content_hash ++ u64_le (fr_start func) ++
  u64_le (fr_end func) ++ u64_le (fr_byte_hash func) ++
  list_stream (chunk_bytes (fr_start func)) (fr_chunks func) ++
  config_stream (job_config job) ++ list_stream summary_stream call_summaries ++
  list_stream run_stream (job_runs job).

(** ** The hash is the hash of the stream *)

Lemma fingerprint_byte_hash hash value : fingerprint_byte hash value = hash_byte hash value.
Proof. reflexivity. Qed.

Lemma fingerprint_byte_each hash b : fingerprint_byte hash (b2z b) = hash_each hash [b].
Proof. apply fingerprint_byte_hash. Qed.

Lemma fingerprint_u64_loop_hash n hash value shift :
  fingerprint_u64_loop n hash value shift = hash_u64_loop n hash value shift.
Proof.
  revert hash shift. induction n as [|n IH]; intros hash shift; [done|].
  cbn [fingerprint_u64_loop hash_u64_loop]. by rewrite fingerprint_byte_hash, IH.
Qed.

Lemma fingerprint_u64_each hash value :
  fingerprint_u64 hash value = hash_each hash (u64_le value).
Proof. rewrite <- hash_u64_each. apply fingerprint_u64_loop_hash. Qed.

Lemma fingerprint_boolean_each hash value :
  fingerprint_boolean hash value = hash_each hash (flag_byte value).
Proof. destruct value; [apply (fingerprint_byte_each hash x01)|apply (fingerprint_byte_each hash x00)]. Qed.

Lemma fingerprint_list_each {A} (element : Z -> A -> Z) (stream : A -> bytes) hash l :
  (forall hash x, element hash x = hash_each hash (stream x)) ->
  fingerprint_list element hash l = hash_each hash (list_stream stream l).
Proof.
  intros He. unfold fingerprint_list, list_stream. rewrite hash_each_app, fingerprint_u64_each.
  generalize (hash_each hash (u64_le (zlen l))). clear hash.
  induction l as [|x l IH]; intros hash; [done|]. cbn [foldl map concat].
  by rewrite He, IH, hash_each_app.
Qed.

(** Turns every step of a fingerprint into [hash_each] of its bytes. *)
Ltac hash_stream :=
  rewrite ?fingerprint_u64_each, ?fingerprint_boolean_each, <- ?hash_each_app, <- ?app_assoc.

Lemma fingerprint_config_each hash cfg :
  fingerprint_config hash cfg = hash_each hash (config_stream cfg).
Proof. unfold fingerprint_config, config_stream. cbn zeta. by hash_stream. Qed.

Lemma fingerprint_chunk_each start hash chunk :
  fingerprint_chunk start hash chunk = hash_each hash (chunk_bytes start chunk).
Proof. unfold fingerprint_chunk, chunk_bytes. cbn zeta. by hash_stream. Qed.

Lemma fingerprint_summary_each hash summary :
  fingerprint_summary hash summary = hash_each hash (summary_stream summary).
Proof.
  unfold fingerprint_summary, summary_stream. rewrite hash_each_app, <- fingerprint_u64_each.
  rewrite <- fingerprint_byte_each, b2z_z2b. by destruct (cs_kind summary).
Qed.

Lemma fingerprint_input_each hash input :
  fingerprint_input hash input = hash_each hash (input_stream input).
Proof.
  unfold fingerprint_input, input_stream. cbn zeta.
  rewrite (fingerprint_list_each fingerprint_u64 u64_le) by (intros; apply fingerprint_u64_each).
  rewrite (fingerprint_list_each fingerprint_register register_stream)
    by (intros; unfold fingerprint_register, register_stream; by hash_stream).
  rewrite (fingerprint_list_each fingerprint_argument argument_stream)
    by (intros; unfold fingerprint_argument, argument_stream; by hash_stream).
  rewrite (fingerprint_list_each fingerprint_u64 u64_le) by (intros; apply fingerprint_u64_each).
  by hash_stream.
Qed.

Lemma fingerprint_run_each hash run :
  fingerprint_run hash run = hash_each hash (run_stream run).
Proof.
  unfold fingerprint_run, run_stream. cbn zeta.
  destruct (rr_has_input run); cbn [negb]; rewrite ?fingerprint_input_each, ?app_nil_r; by hash_stream.
Qed.

Lemma fingerprint_each job image_content_hash call_summaries :
  viy_emulation_job_fingerprint job image_content_hash call_summaries =
  hash_each fingerprint_offset (job_stream job image_content_hash call_summaries).
Proof.
  unfold viy_emulation_job_fingerprint, job_stream. cbn zeta.
  rewrite (fingerprint_list_each fingerprint_run run_stream)
    by (intros; apply fingerprint_run_each).
  rewrite (fingerprint_list_each fingerprint_summary summary_stream)
    by (intros; apply fingerprint_summary_each).
  rewrite fingerprint_config_each.
  rewrite (fingerprint_list_each _ (chunk_bytes (fr_start (job_function job))))
    by (intros; apply fingerprint_chunk_each).
  by hash_stream.
Qed.

(** ** What the stream determines *)

(** Two values whose streams start the same bytes are related, and the bytes after
    them agree: the streams are prefix free and determine the value up to [R]. *)
Definition separates {A} (typed : A -> Prop) (R : A -> A -> Prop) (stream : A -> bytes) : Prop :=
  forall x y l r, typed x -> typed y -> stream x ++ l = stream y ++ r -> R x y /\ l = r.

Lemma flag_byte_app_inj v w l r : flag_byte v ++ l = flag_byte w ++ r -> v = w /\ l = r.
Proof. destruct v, w; cbn; intros H; by simplify_eq. Qed.

Lemma separates_u64 : separates is_u64 eq u64_le.
Proof. intros x y l r Hx Hy H. by apply u64_le_app_inj. Qed.

Lemma separates_list {A} (typed : A -> Prop) (R : A -> A -> Prop) (stream : A -> bytes) :
  separates typed R stream ->
  separates (fun l => Forall typed l /\ is_u64 (zlen l)) (Forall2 R) (list_stream stream).
Proof.
  intros Hsep x y l r [Hx Hzx] [Hy Hzy] H. unfold list_stream in H. rewrite <- !app_assoc in H.
  apply u64_le_app_inj in H as [Hz H]; [|done|done]. assert (length x = length y) as Hl
    by (unfold zlen in Hz; lia). clear Hz Hzx Hzy.
  revert y Hl Hy H. induction x as [|a x IH]; intros [|b y] Hl Hy H; try done.
  cbn [map concat] in H. rewrite <- !app_assoc in H.
  apply List.Forall_cons_iff in Hx as [Ha Hx]. apply List.Forall_cons_iff in Hy as [Hb Hy].
  apply Hsep in H as [HR H]; [|done|done].
  destruct (IH Hx y) as [? ->]; [by injection Hl|done|done|]. split; [by constructor|done].
Qed.

Lemma list_stream_ext {A} (R : A -> A -> Prop) (stream : A -> bytes) l l' :
  (forall x y, R x y -> stream x = stream y) -> Forall2 R l l' ->
  list_stream stream l = list_stream stream l'.
Proof.
  intros HR H. unfold list_stream, zlen. rewrite (Forall2_length H). f_equal. f_equal.
  induction H as [|x y l l' Hxy _ IH]; [done|]. cbn [map]. by rewrite (HR x y), IH.
Qed.

#[local] Opaque list_stream u64_le.

(** Ranges of the fields: [int] and [uint32_t] on the target. *)
Definition is_int (v : Z) : Prop := - 2 ^ 31 <= v < 2 ^ 31.

Lemma int_u64_range v : is_u64 (int_u64 v).
Proof. by apply Z.mod_pos_bound. Qed.

Lemma int_u32_range v : is_u64 (int_u32 v).
Proof. unfold int_u32, is_u64. pose proof (Z.mod_pos_bound v (2 ^ 32) eq_refl). lia. Qed.

Lemma int_u64_inj v w : is_int v -> is_int w -> int_u64 v = int_u64 w -> v = w.
Proof. unfold is_int, int_u64. intros. div_mod_lia. Qed.

Lemma int_u32_inj v w : is_int v -> is_int w -> int_u32 v = int_u32 w -> v = w.
Proof. unfold is_int, int_u32. intros. div_mod_lia. Qed.

(** Peels the leading words and flags off both sides of an equation of streams. *)
Ltac peel H :=
  rewrite <- ?app_assoc in H;
  repeat first
    [ let E := fresh "E" in apply u64_le_app_inj in H as [E H];
        [|first [done|apply int_u64_range|apply int_u32_range]..]
    | let E := fresh "E" in apply flag_byte_app_inj in H as [E H] ].

(** Peels a list off. *)
Tactic Notation "peel_list" constr(lem) hyp(H) "as" ident(E) :=
  rewrite <- ?app_assoc in H; apply (separates_list _ _ _ lem) in H as [E H]; [|done..].

Definition chunk_typed (chunk : FuncChunk) : Prop := is_u64 (ch_start chunk) /\ is_u64 (ch_end chunk).

(** Equal chunks, up to the end of an empty one. *)
Definition same_chunk (c d : FuncChunk) : Prop :=
  ch_start c = ch_start d /\ chunk_size c = chunk_size d.

Lemma separates_chunk start : separates chunk_typed same_chunk (chunk_bytes start).
Proof.
  intros c d l r [Hc1 Hc2] [Hd1 Hd2] H. unfold chunk_bytes in H. rewrite <- !app_assoc in H.
  apply u64_le_app_inj in H as [Es H]; [|by apply Z.mod_pos_bound..].
  apply u64_le_app_inj in H as [Ez H]; [|by apply chunk_size_range..].
  split; [split; [|done]|done]. unfold is_u64 in *. div_mod_lia.
Qed.

Record config_typed (cfg : ViyConfig) : Prop := {
  ct_max_insns : is_u64 (cfg_max_insns cfg);
  ct_timeout_ms : is_u64 (cfg_timeout_ms cfg);
  ct_max_funcs : is_u64 (cfg_max_funcs cfg);
  ct_max_runtime_bytes : is_u64 (cfg_max_runtime_bytes cfg);
  ct_funcs_per_tick : is_int (cfg_funcs_per_tick cfg);
  ct_tick_ms : is_int (cfg_tick_ms cfg);
  ct_max_epochs : is_int (cfg_max_epochs cfg);
  ct_explore_runs : is_int (cfg_explore_runs cfg);
  ct_opaque_runs : is_int (cfg_opaque_runs cfg)
}.

(** The part of the configuration that a fingerprint covers. *)
Definition config_covered (cfg : ViyConfig) :=
  ((cfg_enabled cfg, cfg_max_insns cfg, cfg_timeout_ms cfg, cfg_max_funcs cfg),
   (cfg_funcs_per_tick cfg, cfg_tick_ms cfg, cfg_max_epochs cfg, cfg_explore_runs cfg),
   (cfg_make_code cfg, cfg_want_drefs cfg, cfg_want_static cfg, cfg_want_native cfg),
   (cfg_strict_perms cfg, cfg_want_import_summaries cfg, cfg_want_runtime_strings cfg),
   (cfg_want_unicode_strings cfg, cfg_want_tables cfg, cfg_want_smc_evidence cfg),
   (cfg_apply_runtime_bytes cfg, cfg_max_runtime_bytes cfg, cfg_want_switch cfg),
   (cfg_want_purge cfg, cfg_want_noret cfg, cfg_set_noret cfg, cfg_want_argregs cfg),
   (cfg_want_opaque cfg, cfg_opaque_runs cfg)).

Lemma separates_config :
  separates config_typed (fun c d => config_covered c = config_covered d) config_stream.
Proof.
  intros c d l r [] [] H. unfold config_stream in H. peel H. split; [|done].
  repeat match goal with E : int_u64 _ = int_u64 _ |- _ => apply int_u64_inj in E; [|done..] end.
  unfold config_covered. congruence.
Qed.

Lemma separates_summary :
  separates (fun s => is_u64 (cs_address s)) eq summary_stream.
Proof.
  intros [a k] [a' k'] l r Ha Ha' H. unfold summary_stream in H. cbn in Ha, Ha', H. peel H.
  injection H as Hk ->. split; [|done]. f_equal; [done|].
  apply (f_equal b2z) in Hk. rewrite !b2z_z2b in Hk. by destruct k, k'.
Qed.

Lemma separates_argument :
  separates (fun a => is_u32 (ao_index a) /\ is_u64 (ao_value a)) eq argument_stream.
Proof.
  intros [i v] [i' v'] l r [Hi Hv] [Hi' Hv'] H. unfold argument_stream, is_u32 in *. cbn in *.
  assert (is_u64 i /\ is_u64 i') as [] by (unfold is_u64; lia). peel H. by subst.
Qed.

Lemma separates_register :
  separates (fun o => is_int (ro_reg o) /\ is_u64 (ro_value o)) eq register_stream.
Proof.
  intros [i v] [i' v'] l r [Hi Hv] [Hi' Hv'] H. unfold register_stream in *. cbn in *.
  peel H. apply int_u32_inj in E; [|done..]. by subst.
Qed.

Record input_typed (input : EmuInput) : Prop := {
  it_seed : is_u64 (in_seed input);
  it_run_id : is_u32 (in_run_id input);
  it_stack_arg_offset : is_u32 (in_stack_arg_offset input);
  it_args : Forall is_u64 (in_args input) /\ is_u64 (zlen (in_args input));
  it_arg_overrides :
    Forall (fun a => is_u32 (ao_index a) /\ is_u64 (ao_value a)) (in_arg_overrides input) /\
    is_u64 (zlen (in_arg_overrides input));
  it_register_overrides :
    Forall (fun o => is_int (ro_reg o) /\ is_u64 (ro_value o)) (in_register_overrides input) /\
    is_u64 (zlen (in_register_overrides input));
  it_stack_args : Forall is_u64 (in_stack_args input) /\ is_u64 (zlen (in_stack_args input))
}.

Lemma is_u32_u64 v : is_u32 v -> is_u64 v.
Proof. unfold is_u32, is_u64. lia. Qed.

Lemma separates_input : separates input_typed eq input_stream.
Proof.
  intros [] [] l r [] [] H. unfold input_stream in H. cbn in *.
  repeat match goal with E : is_u32 _ |- _ => apply is_u32_u64 in E end. peel H.
  peel_list separates_u64 H as Ea. peel_list separates_argument H as Eo.
  peel_list separates_register H as Er. peel_list separates_u64 H as Es.
  apply list_eq_Forall2 in Ea, Eo, Er, Es. by subst.
Qed.

Record run_typed (run : EmulationRunRequest) : Prop := {
  rt_seed : is_u64 (rr_seed run);
  rt_run_id : is_u32 (rr_run_id run);
  rt_input : rr_has_input run = true -> input_typed (rr_input run)
}.

(** The part of a requested run that a fingerprint covers: an input that is not used
    is not part of it. *)
Definition run_covered (run : EmulationRunRequest) :=
  (rr_seed run, rr_run_id run, rr_record_pcs run,
   if rr_has_input run then Some (rr_input run) else None).

Lemma separates_run : separates run_typed (fun x y => run_covered x = run_covered y) run_stream.
Proof.
  intros x y l r [Hs Hi Hn] [Hs' Hi' Hn'] H. unfold run_stream in H.
  apply is_u32_u64 in Hi, Hi'. peel H. unfold run_covered. rewrite E, E0, E1, E2 in *.
  destruct (rr_has_input y); [|done].
  apply separates_input in H as [-> ->]; [done|by apply Hn|by apply Hn'].
Qed.

Record job_typed (job : EmulationJob) : Prop := {
  jt_start : is_u64 (fr_start (job_function job));
  jt_end : is_u64 (fr_end (job_function job));
  jt_byte_hash : is_u64 (fr_byte_hash (job_function job));
  jt_chunks : Forall chunk_typed (fr_chunks (job_function job)) /\
    is_u64 (zlen (fr_chunks (job_function job)));
  jt_config : config_typed (job_config job);
  jt_runs : Forall run_typed (job_runs job) /\ is_u64 (zlen (job_runs job))
}.

Definition summaries_typed (summaries : list EmuCallSummary) : Prop :=
  Forall (fun s => is_u64 (cs_address s)) summaries /\ is_u64 (zlen summaries).

(** What two jobs share when they have the same identity. *)
Record same_job (job job' : EmulationJob) : Prop := {
  sj_start : fr_start (job_function job) = fr_start (job_function job');
  sj_end : fr_end (job_function job) = fr_end (job_function job');
  sj_byte_hash : fr_byte_hash (job_function job) = fr_byte_hash (job_function job');
  sj_chunks : Forall2 same_chunk (fr_chunks (job_function job)) (fr_chunks (job_function job'));
  sj_config : config_covered (job_config job) = config_covered (job_config job');
  sj_runs : Forall2 (fun x y => run_covered x = run_covered y) (job_runs job) (job_runs job')
}.

(** *** The converse: the covered fields determine the stream *)

Lemma run_stream_covered x y : run_covered x = run_covered y -> run_stream x = run_stream y.
Proof.
  unfold run_covered, run_stream. intros H.
  injection H as -> -> -> H. destruct (rr_has_input x), (rr_has_input y); try done.
  by injection H as ->.
Qed.

Lemma config_stream_covered c d : config_covered c = config_covered d -> config_stream c = config_stream d.
Proof. unfold config_covered, config_stream. intros H. injection H. intros. congruence. Qed.

Lemma same_job_stream job job' h summaries :
  same_job job job' -> job_stream job h summaries = job_stream job' h summaries.
Proof.
  intros []. unfold job_stream. cbn zeta. rewrite sj_start0, sj_end0, sj_byte_hash0.
  rewrite (list_stream_ext _ _ _ _ run_stream_covered sj_runs0).
  rewrite (config_stream_covered _ _ sj_config0).
  erewrite (list_stream_ext _ (chunk_bytes _)); [done| |done].
  intros c d [Es Ez]. unfold chunk_bytes. by rewrite Es, Ez.
Qed.

(** The fingerprint of a job is the FNV-1a hash of a byte stream in which every
    list comes with its length, so that the streams of two well-typed jobs are equal
    exactly when the jobs have the same image, the same function (entry, bounds,
    byte hash and chunks, a chunk without bytes by its start alone), the same covered
    configuration, the same call summaries in the same order, and the same requested
    runs in the same order, an input counting only where the run uses it. *)
Theorem fingerprint_exact :
  (forall job h summaries,
     viy_emulation_job_fingerprint job h summaries =
     hash_each kFnvOffset (job_stream job h summaries)) /\
  (forall job job' h h' summaries summaries',
     job_typed job -> job_typed job' -> is_u64 h -> is_u64 h' ->
     summaries_typed summaries -> summaries_typed summaries' ->
     (job_stream job h summaries = job_stream job' h' summaries' <->
      h = h' /\ summaries = summaries' /\ same_job job job')).
Proof.
  split; [exact fingerprint_each|].
  intros job job' h h' summaries summaries' [] [] Hh Hh' Hs Hs'. split.
  - intros H. unfold job_stream in H. cbn zeta in H. apply app_inv_head_iff in H.
    rewrite <- (app_nil_r (list_stream run_stream (job_runs job))),
      <- (app_nil_r (list_stream run_stream (job_runs job'))) in H.
    peel H. rewrite E0 in H. peel_list (separates_chunk (fr_start (job_function job'))) H as Ec.
    apply separates_config in H as [Ef H]; [|done..].
    peel_list separates_summary H as Em. apply list_eq_Forall2 in Em.
    peel_list separates_run H as Er. done.
  - intros (-> & -> & Hj). by apply same_job_stream.
Qed.

(** A number of workers is positive unless the cap is zero, never exceeds the cap, is
    at most four when it is chosen automatically, and leaves one hardware thread free
    when there are several. *)
Lemma worker_count_bounds configured concurrency hard_cap :
  0 <= concurrency -> 0 < hard_cap ->
  let count := viy_resolve_worker_count_for_hardware configured concurrency hard_cap in
  1 <= count <= hard_cap /\
  (0 < configured -> count <= configured) /\
  (configured <= 0 -> count <= kViyAutomaticWorkerCap /\ (1 < concurrency -> count < concurrency)).
Proof.
  intros Hc Hh. unfold viy_resolve_worker_count_for_hardware, kViyAutomaticWorkerCap. cbn zeta.
  rewrite (proj2 (Z.eqb_neq hard_cap 0)) by lia.
  destruct (Z.ltb_spec 0 configured), (Z.ltb_spec 1 concurrency); lia.
Qed.

(** Two jobs that differ in an input that the run does not use, and one that uses it. *)
Definition sample_job (has_input : bool) (seed : Z) : EmulationJob := {|
  job_function := {| fr_start := 0x1000; fr_end := 0x1010;
    fr_chunks := [{| ch_start := 0x1000; ch_end := 0x1010 |}];
    fr_byte_hash := 7; fr_generation := 1 |};
  job_config := default_config;
  job_runs := [{| rr_seed := 1; rr_run_id := 2; rr_record_pcs := true; rr_has_input := has_input;
    rr_input := {| in_seed := seed; in_run_id := 2; in_args := [5]; in_arg_overrides := [];
      in_register_overrides := [{| ro_reg := -1; ro_value := 3 |}]; in_stack_args := [];
      in_stack_arg_offset := 0 |} |}];
  job_decoder_inputs := []
|}.

Lemma sample_job_typed has_input seed : is_u64 seed -> job_typed (sample_job has_input seed).
Proof.
  intros Hs. unfold is_u64 in Hs.
  split; cbn; [by unfold is_u64; lia..| | |].
  - split; [|by unfold is_u64, zlen; cbn; lia]. apply List.Forall_cons; [|constructor].
    unfold chunk_typed, is_u64. cbn. lia.
  - split; split; by vm_compute.
  - split; [|by unfold is_u64, zlen; cbn; lia]. apply List.Forall_cons; [|constructor].
    split; cbn; [unfold is_u64; lia|unfold is_u32; lia|intros _].
    split; cbn; try (split; [|unfold is_u64, zlen; cbn; lia]);
      repeat first [apply List.Forall_nil|apply List.Forall_cons; [unfold is_u64, is_int; cbn; lia|]];
      unfold is_u64, is_u32; lia.
Qed.

Lemma fingerprint_exact_witness :
  viy_emulation_job_fingerprint (sample_job false 5) 9 [] =
    viy_emulation_job_fingerprint (sample_job false 6) 9 [] /\
  viy_emulation_job_fingerprint (sample_job true 5) 9 [] <>
    viy_emulation_job_fingerprint (sample_job true 6) 9 [] /\
  job_stream (sample_job true 5) 9 [] <> job_stream (sample_job true 6) 9 [].
Proof.
  destruct fingerprint_exact as [_ Hsame].
  split; [by vm_compute|]. split; [by vm_compute|].
  intros H. assert (summaries_typed []) as Hs by (split; [constructor|by vm_compute]).
  apply Hsame in H as (_ & _ & [_ _ _ _ _ Hr]);
    [|by apply sample_job_typed|by apply sample_job_typed|by vm_compute|by vm_compute|done|done].
  cbn in Hr. inversion Hr as [|x y l l' Hxy]. vm_compute in Hxy. discriminate.
Defined.
