(* ===== verification/WorkerPool.v ===== *)
(** * The emulation worker pool (emulation_workers.hpp, emulation_workers.cpp)

    A fixed number of threads takes jobs from a bounded queue and settles them under one
    mutex and one condition variable; results are delivered in ticket order.  Every
    critical section of the code is a function on the state, and a run of the program is
    a sequence of them in any order: the constructor starting threads, threads
    initializing, sleeping, waking, taking and finishing jobs, clients submitting,
    taking results, cancelling and shutting down.  The wait set of the condition
    variable is part of the state, so that a lost wakeup would be visible.

    The executor and its factory are the environment: their answers are arguments.  What
    an executor records besides status and diagnostic is only moved by the pool and is a
    type parameter. *)
From stdpp Require Import base numbers list strings option sets.
From Stdlib Require Import ZArith Lia.
From S2P Require Import Prelude OrderedMap ProgramModel WorkerFingerprint.

(** ** Data *)

Inductive EmulationJobStatus : Type := COMPLETED | CANCELLED | UNAVAILABLE | FAILED.

#[export] Instance EmulationJobStatus_eq_dec : EqDecision EmulationJobStatus.
Proof. solve_decision. Defined.

Record QueuedJob : Type := {
  qj_ticket : Z;
  qj_generation : Z;
  qj_job : EmulationJob
}.

(** A thread: before its initialization is recorded; awake and about to look at the
    queue; in the wait set; executing; left [worker_main]. *)
Inductive Worker : Type :=
  | Starting
  | Ready
  | Asleep
  | Executing (item : QueuedJob)
  | Exited.

(** What the factory and the executor answer during initialization: [Some what] is an
    exception with a message, [None] any other exception. *)
Inductive ReasonOutcome : Type :=
  | Reason (text : string)
  | ReasonThrew (what : option string).

Inductive InitOutcome : Type :=
  | NullExecutor
  | FactoryThrew (what : option string)
  | ExecutorMade (first_available : bool) (reason : ReasonOutcome) (second_available : bool).

Definition exception_text (generic : string) (what : option string) : string :=
  match what with Some text => text | None => generic end.

Definition initialization_error (outcome : InitOutcome) : string :=
  let threw := exception_text "worker executor initialization threw" in
  match outcome with
  | NullExecutor => "worker executor factory returned null"
  | FactoryThrew what => threw what
  | ExecutorMade first_available reason _ =>
      if first_available then EmptyString
      else match reason with Reason text => text | ReasonThrew what => threw what end
  end.

Definition initialization_available (outcome : InitOutcome) : bool :=
  match outcome with ExecutorMade _ _ second_available => second_available | _ => false end.

(** The text that a [const char *] into a string denotes. *)
Fixpoint c_str (s : string) : string :=
  match s with
  | EmptyString => EmptyString
  | String a r => if Ascii.eqb a Ascii.zero then EmptyString else String a (c_str r)
  end.

(** [m.erase(k)] *)
Definition map_erase {V} (k : Z) (m : omap Z V) : omap Z V :=
  List.filter (fun entry => negb (entry.1 =? k)) m.

Section Pool.
Context {Evidence : Type} (no_evidence : Evidence).

Record EmulationJobResult : Type := {
  jr_ticket : Z;
  jr_function_start : Z;
  jr_status : EmulationJobStatus;
  jr_diagnostic : string;
  jr_evidence : Evidence
}.

Definition plain_result (status : EmulationJobStatus) (ticket function_start : Z)
    (reason : string) : EmulationJobResult :=
  {| jr_ticket := ticket; jr_function_start := function_start; jr_status := status;
     jr_diagnostic := reason; jr_evidence := no_evidence |}.

Definition cancelled_result := plain_result CANCELLED.
Definition unavailable_result := plain_result UNAVAILABLE.

(** The state: the members of [EmulationWorkerPool::Impl], the threads with the wait set
    of [cv] (workers that are [Asleep] and a number of clients), and whether the
    constructor is still running. *)
Record Pool : Type := {
  pl_requested_workers : Z;
  pl_max_queued_jobs : Z;
  pl_generation : Z;
  pl_workers : list Worker;
  pl_constructing : bool;
  pl_waiting_clients : Z;
  pl_queue : list QueuedJob;
  pl_completed : omap Z EmulationJobResult;
  pl_first_unavailable_reason : string;
  pl_next_ticket : Z;
  pl_next_delivery : Z;
  pl_submitted : Z;
  pl_settled : Z;
  pl_delivered : Z;
  pl_unsettled : Z;
  pl_initialized_workers : Z;
  pl_available_workers : Z;
  pl_unavailable_workers : Z;
  pl_running : Z;
  pl_stopping : bool
}.

Definition set_generation (generation : Z) (p : Pool) : Pool := {|
  pl_requested_workers := pl_requested_workers p; pl_max_queued_jobs := pl_max_queued_jobs p;
  pl_generation := generation; pl_workers := pl_workers p; pl_constructing := pl_constructing p;
  pl_waiting_clients := pl_waiting_clients p; pl_queue := pl_queue p;
  pl_completed := pl_completed p; pl_first_unavailable_reason := pl_first_unavailable_reason p;
  pl_next_ticket := pl_next_ticket p; pl_next_delivery := pl_next_delivery p;
  pl_submitted := pl_submitted p; pl_settled := pl_settled p; pl_delivered := pl_delivered p;
  pl_unsettled := pl_unsettled p; pl_initialized_workers := pl_initialized_workers p;
  pl_available_workers := pl_available_workers p;
  pl_unavailable_workers := pl_unavailable_workers p; pl_running := pl_running p;
  pl_stopping := pl_stopping p |}.

Definition set_workers (workers : list Worker) (p : Pool) : Pool := {|
  pl_requested_workers := pl_requested_workers p; pl_max_queued_jobs := pl_max_queued_jobs p;
  pl_generation := pl_generation p; pl_workers := workers; pl_constructing := pl_constructing p;
  pl_waiting_clients := pl_waiting_clients p; pl_queue := pl_queue p;
  pl_completed := pl_completed p; pl_first_unavailable_reason := pl_first_unavailable_reason p;
  pl_next_ticket := pl_next_ticket p; pl_next_delivery := pl_next_delivery p;
  pl_submitted := pl_submitted p; pl_settled := pl_settled p; pl_delivered := pl_delivered p;
  pl_unsettled := pl_unsettled p; pl_initialized_workers := pl_initialized_workers p;
  pl_available_workers := pl_available_workers p;
  pl_unavailable_workers := pl_unavailable_workers p; pl_running := pl_running p;
  pl_stopping := pl_stopping p |}.

Definition set_constructing (constructing : bool) (p : Pool) : Pool := {|
  pl_requested_workers := pl_requested_workers p; pl_max_queued_jobs := pl_max_queued_jobs p;
  pl_generation := pl_generation p; pl_workers := pl_workers p; pl_constructing := constructing;
  pl_waiting_clients := pl_waiting_clients p; pl_queue := pl_queue p;
  pl_completed := pl_completed p; pl_first_unavailable_reason := pl_first_unavailable_reason p;
  pl_next_ticket := pl_next_ticket p; pl_next_delivery := pl_next_delivery p;
  pl_submitted := pl_submitted p; pl_settled := pl_settled p; pl_delivered := pl_delivered p;
  pl_unsettled := pl_unsettled p; pl_initialized_workers := pl_initialized_workers p;
  pl_available_workers := pl_available_workers p;
  pl_unavailable_workers := pl_unavailable_workers p; pl_running := pl_running p;
  pl_stopping := pl_stopping p |}.

Definition set_waiting_clients (clients : Z) (p : Pool) : Pool := {|
  pl_requested_workers := pl_requested_workers p; pl_max_queued_jobs := pl_max_queued_jobs p;
  pl_generation := pl_generation p; pl_workers := pl_workers p;
  pl_constructing := pl_constructing p; pl_waiting_clients := clients; pl_queue := pl_queue p;
  pl_completed := pl_completed p; pl_first_unavailable_reason := pl_first_unavailable_reason p;
  pl_next_ticket := pl_next_ticket p; pl_next_delivery := pl_next_delivery p;
  pl_submitted := pl_submitted p; pl_settled := pl_settled p; pl_delivered := pl_delivered p;
  pl_unsettled := pl_unsettled p; pl_initialized_workers := pl_initialized_workers p;
  pl_available_workers := pl_available_workers p;
  pl_unavailable_workers := pl_unavailable_workers p; pl_running := pl_running p;
  pl_stopping := pl_stopping p |}.

Definition set_queue (queue : list QueuedJob) (p : Pool) : Pool := {|
  pl_requested_workers := pl_requested_workers p; pl_max_queued_jobs := pl_max_queued_jobs p;
  pl_generation := pl_generation p; pl_workers := pl_workers p;
  pl_constructing := pl_constructing p; pl_waiting_clients := pl_waiting_clients p;
  pl_queue := queue; pl_completed := pl_completed p;
  pl_first_unavailable_reason := pl_first_unavailable_reason p;
  pl_next_ticket := pl_next_ticket p; pl_next_delivery := pl_next_delivery p;
  pl_submitted := pl_submitted p; pl_settled := pl_settled p; pl_delivered := pl_delivered p;
  pl_unsettled := pl_unsettled p; pl_initialized_workers := pl_initialized_workers p;
  pl_available_workers := pl_available_workers p;
  pl_unavailable_workers := pl_unavailable_workers p; pl_running := pl_running p;
  pl_stopping := pl_stopping p |}.

Definition set_running (running : Z) (p : Pool) : Pool := {|
  pl_requested_workers := pl_requested_workers p; pl_max_queued_jobs := pl_max_queued_jobs p;
  pl_generation := pl_generation p; pl_workers := pl_workers p;
  pl_constructing := pl_constructing p; pl_waiting_clients := pl_waiting_clients p;
  pl_queue := pl_queue p; pl_completed := pl_completed p;
  pl_first_unavailable_reason := pl_first_unavailable_reason p;
  pl_next_ticket := pl_next_ticket p; pl_next_delivery := pl_next_delivery p;
  pl_submitted := pl_submitted p; pl_settled := pl_settled p; pl_delivered := pl_delivered p;
  pl_unsettled := pl_unsettled p; pl_initialized_workers := pl_initialized_workers p;
  pl_available_workers := pl_available_workers p;
  pl_unavailable_workers := pl_unavailable_workers p; pl_running := running;
  pl_stopping := pl_stopping p |}.

Definition set_stopping (p : Pool) : Pool := {|
  pl_requested_workers := pl_requested_workers p; pl_max_queued_jobs := pl_max_queued_jobs p;
  pl_generation := pl_generation p; pl_workers := pl_workers p;
  pl_constructing := pl_constructing p; pl_waiting_clients := pl_waiting_clients p;
  pl_queue := pl_queue p; pl_completed := pl_completed p;
  pl_first_unavailable_reason := pl_first_unavailable_reason p;
  pl_next_ticket := pl_next_ticket p; pl_next_delivery := pl_next_delivery p;
  pl_submitted := pl_submitted p; pl_settled := pl_settled p; pl_delivered := pl_delivered p;
  pl_unsettled := pl_unsettled p; pl_initialized_workers := pl_initialized_workers p;
  pl_available_workers := pl_available_workers p;
  pl_unavailable_workers := pl_unavailable_workers p; pl_running := pl_running p;
  pl_stopping := true |}.

Definition set_settled (completed : omap Z EmulationJobResult) (settled : Z) (unsettled : Z) (p : Pool) : Pool := {|
  pl_requested_workers := pl_requested_workers p; pl_max_queued_jobs := pl_max_queued_jobs p;
  pl_generation := pl_generation p; pl_workers := pl_workers p;
  pl_constructing := pl_constructing p; pl_waiting_clients := pl_waiting_clients p;
  pl_queue := pl_queue p; pl_completed := completed;
  pl_first_unavailable_reason := pl_first_unavailable_reason p;
  pl_next_ticket := pl_next_ticket p; pl_next_delivery := pl_next_delivery p;
  pl_submitted := pl_submitted p; pl_settled := settled; pl_delivered := pl_delivered p;
  pl_unsettled := unsettled; pl_initialized_workers := pl_initialized_workers p;
  pl_available_workers := pl_available_workers p;
  pl_unavailable_workers := pl_unavailable_workers p; pl_running := pl_running p;
  pl_stopping := pl_stopping p |}.

Definition set_delivery (completed : omap Z EmulationJobResult) (next_delivery : Z) (delivered : Z) (p : Pool) : Pool := {|
  pl_requested_workers := pl_requested_workers p; pl_max_queued_jobs := pl_max_queued_jobs p;
  pl_generation := pl_generation p; pl_workers := pl_workers p;
  pl_constructing := pl_constructing p; pl_waiting_clients := pl_waiting_clients p;
  pl_queue := pl_queue p; pl_completed := completed;
  pl_first_unavailable_reason := pl_first_unavailable_reason p;
  pl_next_ticket := pl_next_ticket p; pl_next_delivery := next_delivery;
  pl_submitted := pl_submitted p; pl_settled := pl_settled p; pl_delivered := delivered;
  pl_unsettled := pl_unsettled p; pl_initialized_workers := pl_initialized_workers p;
  pl_available_workers := pl_available_workers p;
  pl_unavailable_workers := pl_unavailable_workers p; pl_running := pl_running p;
  pl_stopping := pl_stopping p |}.

Definition set_submission (next_ticket : Z) (submitted : Z) (unsettled : Z) (p : Pool) : Pool := {|
  pl_requested_workers := pl_requested_workers p; pl_max_queued_jobs := pl_max_queued_jobs p;
  pl_generation := pl_generation p; pl_workers := pl_workers p;
  pl_constructing := pl_constructing p; pl_waiting_clients := pl_waiting_clients p;
  pl_queue := pl_queue p; pl_completed := pl_completed p;
  pl_first_unavailable_reason := pl_first_unavailable_reason p; pl_next_ticket := next_ticket;
  pl_next_delivery := pl_next_delivery p; pl_submitted := submitted; pl_settled := pl_settled p;
  pl_delivered := pl_delivered p; pl_unsettled := unsettled;
  pl_initialized_workers := pl_initialized_workers p;
  pl_available_workers := pl_available_workers p;
  pl_unavailable_workers := pl_unavailable_workers p; pl_running := pl_running p;
  pl_stopping := pl_stopping p |}.

Definition set_initialization (initialized : Z) (available : Z) (unavailable : Z) (reason : string) (p : Pool) : Pool := {|
  pl_requested_workers := pl_requested_workers p; pl_max_queued_jobs := pl_max_queued_jobs p;
  pl_generation := pl_generation p; pl_workers := pl_workers p;
  pl_constructing := pl_constructing p; pl_waiting_clients := pl_waiting_clients p;
  pl_queue := pl_queue p; pl_completed := pl_completed p; pl_first_unavailable_reason := reason;
  pl_next_ticket := pl_next_ticket p; pl_next_delivery := pl_next_delivery p;
  pl_submitted := pl_submitted p; pl_settled := pl_settled p; pl_delivered := pl_delivered p;
  pl_unsettled := pl_unsettled p; pl_initialized_workers := initialized;
  pl_available_workers := available; pl_unavailable_workers := unavailable;
  pl_running := pl_running p; pl_stopping := pl_stopping p |}.

(** The pool when its constructor starts, before any thread exists. *)
Definition new_pool (worker_count max_queued_jobs : Z) : Pool := {|
  pl_requested_workers := Z.max worker_count 1; pl_max_queued_jobs := max_queued_jobs;
  pl_generation := 1; pl_workers := []; pl_constructing := true; pl_waiting_clients := 0;
  pl_queue := []; pl_completed := []; pl_first_unavailable_reason := EmptyString;
  pl_next_ticket := 1; pl_next_delivery := 1; pl_submitted := 0; pl_settled := 0;
  pl_delivered := 0; pl_unsettled := 0; pl_initialized_workers := 0;
  pl_available_workers := 0; pl_unavailable_workers := 0; pl_running := 0;
  pl_stopping := false |}.

(** ** The condition variable *)

Definition wake (w : Worker) : Worker := match w with Asleep => Ready | _ => w end.

(** [cv.notify_all()] *)
Definition notify_all (p : Pool) : Pool :=
  set_waiting_clients 0 (set_workers (map wake (pl_workers p)) p).

Definition set_worker (i : nat) (w : Worker) (p : Pool) : Pool :=
  set_workers (<[i := w]> (pl_workers p)) p.

(** [cv.notify_one()]: the thread that it wakes is the choice of the scheduler. *)
Inductive Woken : Type := WakesNobody | WakesWorker (i : nat) | WakesClient.

Definition is_asleep (w : Worker) : bool := match w with Asleep => true | _ => false end.

Definition notify_one (woken : Woken) (p : Pool) : option Pool :=
  match woken with
  | WakesNobody =>
      if existsb is_asleep (pl_workers p) || (0 <? pl_waiting_clients p) then None else Some p
  | WakesWorker i =>
      match pl_workers p !! i with
      | Some Asleep => Some (set_worker i Ready p)
      | _ => None
      end
  | WakesClient =>
      if 0 <? pl_waiting_clients p then Some (set_waiting_clients (pl_waiting_clients p - 1) p)
      else None
  end.

(** ** Settling *)

Definition settle_locked (result : EmulationJobResult) (p : Pool) : Pool :=
  let p :=
    match map_find Z.ltb (jr_ticket result) (pl_completed p) with
    | None =>
        set_settled (map_set Z.ltb (jr_ticket result) result (pl_completed p))
          (pl_settled p + 1)
          (if negb (pl_unsettled p =? 0) then pl_unsettled p - 1 else pl_unsettled p) p
    | Some _ => p
    end in
  notify_all p.

Definition drained_result (status : EmulationJobStatus) (reason : string) (item : QueuedJob) :
    EmulationJobResult :=
  let start := fr_start (job_function (qj_job item)) in
  if status == UNAVAILABLE then unavailable_result (qj_ticket item) start reason
  else cancelled_result (qj_ticket item) start reason.

(** The loop pops the items of the queue one by one. *)
Fixpoint drain_loop (status : EmulationJobStatus) (reason : string) (queue : list QueuedJob)
    (p : Pool) : Pool :=
  match queue with
  | [] => p
  | item :: rest =>
      drain_loop status reason rest
        (settle_locked (drained_result status reason item) (set_queue rest p))
  end.

Definition drain_queued_locked (status : EmulationJobStatus) (reason : string) (p : Pool) : Pool :=
  drain_loop status reason (pl_queue p) p.

(** ** Worker threads *)

(** The end of the initialization of thread [i]. *)
Definition worker_init (i : nat) (outcome : InitOutcome) (p : Pool) : Pool :=
  let available := initialization_available outcome in
  let error := initialization_error outcome in
  let reason := pl_first_unavailable_reason p in
  let p :=
    if available then
      set_initialization (pl_initialized_workers p + 1) (pl_available_workers p + 1)
        (pl_unavailable_workers p) reason p
    else
      set_initialization (pl_initialized_workers p + 1) (pl_available_workers p)
        (pl_unavailable_workers p + 1)
        (if (reason == EmptyString)%viy
         then if (error == EmptyString)%viy then "worker executor is unavailable" else error
         else reason) p in
  let p :=
    if (pl_initialized_workers p =? pl_requested_workers p) && (pl_available_workers p =? 0)
    then drain_queued_locked UNAVAILABLE (c_str (pl_first_unavailable_reason p)) p
    else p in
  set_worker i (if available then Ready else Exited) (notify_all p).

(** A thread that is awake looks at the state: it leaves when the pool stops, takes the
    first job, or waits. *)
Definition worker_turn (i : nat) (p : Pool) : Pool :=
  if pl_stopping p then set_worker i Exited p
  else
    match pl_queue p with
    | [] => set_worker i Asleep p
    | item :: rest =>
        set_worker i (Executing item)
          (notify_all (set_running (pl_running p + 1) (set_queue rest p)))
    end.

(** What the executor does with a job: it returns a result, or throws. *)
Inductive ExecuteOutcome : Type :=
  | Returned (result : EmulationJobResult)
  | Threw (what : option string).

Definition executed_result (outcome : ExecuteOutcome) : EmulationJobResult :=
  match outcome with
  | Returned result => result
  | Threw what => plain_result FAILED 0 0 (exception_text "worker executor threw" what)
  end.

Definition for_item (item : QueuedJob) (result : EmulationJobResult) : EmulationJobResult :=
  {| jr_ticket := qj_ticket item;
     jr_function_start := fr_start (job_function (qj_job item));
     jr_status := jr_status result; jr_diagnostic := jr_diagnostic result;
     jr_evidence := jr_evidence result |}.

Definition cancel_result (result : EmulationJobResult) : EmulationJobResult :=
  {| jr_ticket := jr_ticket result; jr_function_start := jr_function_start result;
     jr_status := CANCELLED; jr_diagnostic := "emulation generation cancelled";
     jr_evidence := jr_evidence result |}.

(** The critical section after the execution of [item] by thread [i]. *)
Definition worker_finish (i : nat) (item : QueuedJob) (outcome : ExecuteOutcome) (p : Pool) : Pool :=
  let result := for_item item (executed_result outcome) in
  let p := set_running (if negb (pl_running p =? 0) then pl_running p - 1 else pl_running p) p in
  let result :=
    if negb (pl_generation p =? qj_generation item) && negb (jr_status result == CANCELLED)%viy
    then cancel_result result else result in
  set_worker i Ready (settle_locked result p).

(** [EmulationCancellation::cancelled] for a token, [None] for a default one. *)
Definition cancelled (p : Pool) (token : option Z) : bool :=
  match token with None => true | Some generation => negb (pl_generation p =? generation) end.

(** ** The constructor *)

Definition spawn (p : Pool) : option Pool :=
  if pl_constructing p && (zlen (pl_workers p) <? pl_requested_workers p)
  then Some (set_workers (pl_workers p ++ [Starting]) p) else None.

(** The handler of a failed thread creation. *)
Definition spawn_failed (p : Pool) : option Pool :=
  if pl_constructing p && (zlen (pl_workers p) <? pl_requested_workers p) then
    let created := zlen (pl_workers p) in
    let missing :=
      if created <? pl_requested_workers p then pl_requested_workers p - created else 0 in
    let reason := pl_first_unavailable_reason p in
    let p :=
      set_initialization (pl_initialized_workers p + missing) (pl_available_workers p)
        (pl_unavailable_workers p + missing)
        (if negb (missing =? 0) && (reason == EmptyString)%viy
         then "worker thread creation failed" else reason) p in
    let p :=
      if created =? 0
      then drain_queued_locked UNAVAILABLE (c_str (pl_first_unavailable_reason p)) p else p in
    Some (set_constructing false (notify_all p))
  else None.

Definition constructed (p : Pool) : option Pool :=
  if pl_constructing p && (zlen (pl_workers p) =? pl_requested_workers p)
  then Some (set_constructing false p) else None.

(** ** Clients *)

(** [try_submit]: the assigned ticket and the new state, or nothing. *)
Definition try_submit (job : EmulationJob) (woken : Woken) (p : Pool) : option (option Z * Pool) :=
  let outstanding := pl_next_ticket p - pl_next_delivery p in
  if pl_stopping p then Some (None, p)
  else if negb (pl_max_queued_jobs p =? 0) && (pl_max_queued_jobs p <=? zlen (pl_queue p))
  then Some (None, p)
  else if negb (pl_max_queued_jobs p =? 0) && (pl_requested_workers p <=? outstanding) &&
          (pl_max_queued_jobs p <=? outstanding - pl_requested_workers p)
  then Some (None, p)
  else if pl_next_ticket p =? u64_max then Some (None, p)
  else
    let assigned := pl_next_ticket p in
    let p := set_submission (pl_next_ticket p + 1) (pl_submitted p + 1) (pl_unsettled p + 1) p in
    if (pl_initialized_workers p =? pl_requested_workers p) && (pl_available_workers p =? 0) then
      let reason :=
        if (pl_first_unavailable_reason p == EmptyString)%viy
        then "no emulation worker is available"%string else c_str (pl_first_unavailable_reason p) in
      Some (Some assigned,
            settle_locked
              (unavailable_result assigned (fr_start (job_function job)) reason) p)
    else
      let queued := {| qj_ticket := assigned; qj_generation := pl_generation p; qj_job := job |} in
      match notify_one woken (set_queue (pl_queue p ++ [queued]) p) with
      | Some p => Some (Some assigned, p)
      | None => None
      end.

(** The next result in ticket order, taken out of [completed]. *)
Definition pop_next (p : Pool) : option (EmulationJobResult * Pool) :=
  match map_find Z.ltb (pl_next_delivery p) (pl_completed p) with
  | None => None
  | Some result =>
      Some (result,
            set_delivery (map_erase (pl_next_delivery p) (pl_completed p))
              (pl_next_delivery p + 1) (pl_delivered p + 1) p)
  end.

Definition try_take_next (p : Pool) : option EmulationJobResult * Pool :=
  match pop_next p with
  | None => (None, p)
  | Some (result, p) => (Some result, notify_all p)
  end.

(** The predicate that [wait_take_next] waits for; when it holds, the call goes on as
    [try_take_next]. *)
Definition next_ready (p : Pool) : bool :=
  if map_find Z.ltb (pl_next_delivery p) (pl_completed p) then true else false.

Fixpoint take_ready_loop (fuel : nat) (maximum : Z) (results : list EmulationJobResult) (p : Pool) :
    list EmulationJobResult * Pool :=
  match fuel with
  | O => (results, p)
  | S fuel =>
      if (maximum =? 0) || (zlen results <? maximum) then
        match pop_next p with
        | None => (results, p)
        | Some (result, p) => take_ready_loop fuel maximum (results ++ [result]) p
        end
      else (results, p)
  end.

(** Every turn takes a result out of [completed]. *)
Definition take_ready (maximum : Z) (p : Pool) : list EmulationJobResult * Pool :=
  let '(results, p) := take_ready_loop (S (length (pl_completed p))) maximum [] p in
  match results with [] => (results, p) | _ => (results, notify_all p) end.

Definition next_generation (p : Pool) : Pool := set_generation ((pl_generation p + 1) mod 2 ^ 64) p.

Definition cancel_pending (p : Pool) : Pool :=
  if pl_stopping p then p
  else notify_all (drain_queued_locked CANCELLED "emulation generation cancelled" (next_generation p)).

(** The critical section of [stop_and_join]; the call then waits for the threads. *)
Definition stop (p : Pool) : Pool :=
  notify_all
    (if pl_stopping p then p
     else drain_queued_locked CANCELLED "worker pool shut down" (next_generation (set_stopping p))).

Definition joined (p : Pool) : bool :=
  forallb (fun w => match w with Exited => true | _ => false end) (pl_workers p).

Definition initialized (p : Pool) : bool := pl_initialized_workers p =? pl_requested_workers p.
Definition usable (p : Pool) : bool := negb (pl_available_workers p =? 0).
Definition idle (p : Pool) : bool := pl_unsettled p =? 0.
Definition initialization_diagnostic (p : Pool) : string := pl_first_unavailable_reason p.

Record EmulationWorkerStats : Type := {
  ws_requested_workers : Z;
  ws_initialized_workers : Z;
  ws_available_workers : Z;
  ws_unavailable_workers : Z;
  ws_submitted : Z;
  ws_settled : Z;
  ws_delivered : Z;
  ws_queued : Z;
  ws_running : Z;
  ws_ready_in_order_or_later : Z;
  ws_stopping : bool
}.

Definition stats (p : Pool) : EmulationWorkerStats := {|
  ws_requested_workers := pl_requested_workers p;
  ws_initialized_workers := pl_initialized_workers p;
  ws_available_workers := pl_available_workers p;
  ws_unavailable_workers := pl_unavailable_workers p;
  ws_submitted := pl_submitted p; ws_settled := pl_settled p; ws_delivered := pl_delivered p;
  ws_queued := zlen (pl_queue p); ws_running := pl_running p;
  ws_ready_in_order_or_later := zlen (pl_completed p); ws_stopping := pl_stopping p |}.

(** ** Runs *)

(** What can happen to a pool.  A client call carries its answer; clients call when the
    constructor has returned.  A client that waits on [cv] joins the wait set and leaves
    it when it is notified, when its time is up or without a reason. *)
Inductive Event : Type :=
  | Ev_Spawn
  | Ev_SpawnFails
  | Ev_Constructed
  | Ev_Init (i : nat) (outcome : InitOutcome)
  | Ev_Turn (i : nat)
  | Ev_SpuriousWake (i : nat)
  | Ev_Finish (i : nat) (item : QueuedJob) (outcome : ExecuteOutcome)
  | Ev_Submit (job : EmulationJob) (woken : Woken) (ticket : option Z)
  | Ev_TakeNext (result : option EmulationJobResult)
  | Ev_TakeReady (maximum : Z) (results : list EmulationJobResult)
  | Ev_Cancel
  | Ev_Stop
  | Ev_ClientWaits
  | Ev_ClientLeaves.

Inductive step : Pool -> Event -> Pool -> Prop :=
  | step_spawn p p' : spawn p = Some p' -> step p Ev_Spawn p'
  | step_spawn_failed p p' : spawn_failed p = Some p' -> step p Ev_SpawnFails p'
  | step_constructed p p' : constructed p = Some p' -> step p Ev_Constructed p'
  | step_init p i outcome :
      pl_workers p !! i = Some Starting -> step p (Ev_Init i outcome) (worker_init i outcome p)
  | step_turn p i :
      pl_workers p !! i = Some Ready -> step p (Ev_Turn i) (worker_turn i p)
  | step_spurious_wake p i :
      pl_workers p !! i = Some Asleep -> step p (Ev_SpuriousWake i) (set_worker i Ready p)
  | step_finish p i item outcome :
      pl_workers p !! i = Some (Executing item) ->
      step p (Ev_Finish i item outcome) (worker_finish i item outcome p)
  | step_submit p job woken ticket p' :
      pl_constructing p = false -> try_submit job woken p = Some (ticket, p') ->
      step p (Ev_Submit job woken ticket) p'
  | step_take_next p result p' :
      pl_constructing p = false -> try_take_next p = (result, p') -> step p (Ev_TakeNext result) p'
  | step_take_ready p maximum results p' :
      pl_constructing p = false -> take_ready maximum p = (results, p') ->
      step p (Ev_TakeReady maximum results) p'
  | step_cancel p : pl_constructing p = false -> step p Ev_Cancel (cancel_pending p)
  | step_stop p : pl_constructing p = false -> step p Ev_Stop (stop p)
  | step_client_waits p :
      pl_constructing p = false ->
      step p Ev_ClientWaits (set_waiting_clients (pl_waiting_clients p + 1) p)
  | step_client_leaves p :
      0 < pl_waiting_clients p ->
      step p Ev_ClientLeaves (set_waiting_clients (pl_waiting_clients p - 1) p).

(** Runs, the last event last. *)
Inductive run (p : Pool) : list Event -> Pool -> Prop :=
  | run_nil : run p [] p
  | run_snoc t q ev r : run p t q -> step q ev r -> run p (t ++ [ev]) r.

(** ** Counting workers *)

Definition item_of (w : Worker) : list QueuedJob :=
  match w with Executing item => [item] | _ => [] end.

Definition executing (ws : list Worker) : list QueuedJob := concat (map item_of ws).

Definition count (f : Worker -> bool) (ws : list Worker) : Z := zlen (List.filter f ws).

Definition is_starting (w : Worker) : bool := match w with Starting => true | _ => false end.
Definition is_ready (w : Worker) : bool := match w with Ready => true | _ => false end.
Definition is_exited (w : Worker) : bool := match w with Exited => true | _ => false end.

(** In the loop of [worker_main]. *)
Definition in_loop (w : Worker) : bool :=
  match w with Ready | Asleep | Executing _ => true | _ => false end.

Lemma count_cons f w ws : count f (w :: ws) = (if f w then 1 else 0) + count f ws.
Proof. unfold count. cbn. destruct (f w); rewrite ?zlen_cons; lia. Qed.

Lemma count_app f ws ws' : count f (ws ++ ws') = count f ws + count f ws'.
Proof. unfold count. by rewrite List.filter_app, zlen_app. Qed.

Lemma count_nonneg f ws : 0 <= count f ws.
Proof. apply zlen_nonneg. Qed.

Lemma count_insert f ws i w w' :
  ws !! i = Some w ->
  count f (<[i := w']> ws) = count f ws - (if f w then 1 else 0) + (if f w' then 1 else 0).
Proof.
  revert i. induction ws as [|x ws IH]; intros [|i] H; try done; cbn in H.
  - injection H as ->. change (<[0%nat := w']> (w :: ws)) with (w' :: ws).
    rewrite !count_cons. lia.
  - change (<[S i := w']> (x :: ws)) with (x :: <[i := w']> ws).
    rewrite !count_cons, (IH i) by done. lia.
Qed.

Lemma count_wake f ws : count f (map wake ws) = count (fun w => f (wake w)) ws.
Proof. induction ws as [|w ws IH]; [done|]. cbn [map]. by rewrite !count_cons, IH. Qed.

Lemma count_ext f g ws : (forall w, f w = g w) -> count f ws = count g ws.
Proof. intros H. induction ws as [|w ws IH]; [done|]. by rewrite !count_cons, H, IH. Qed.

Lemma count_zero f ws : count f ws = 0 <-> Forall (fun w => f w = false) ws.
Proof.
  induction ws as [|w ws IH]; [split; [intros _; constructor|done]|].
  rewrite count_cons, List.Forall_cons_iff, <- IH. pose proof (count_nonneg f ws).
  destruct (f w).
  - split; [lia|by intros [? _]].
  - split; [by intros ?; split; [|lia]|lia].
Qed.

Lemma count_pos f ws : 0 < count f ws -> exists i w, ws !! i = Some w /\ f w = true.
Proof.
  induction ws as [|w ws IH]; [done|]. rewrite count_cons. destruct (f w) eqn:E.
  - intros _. by exists 0%nat, w.
  - intros H. destruct IH as (i & w' & ? & ?); [lia|]. by exists (S i), w'.
Qed.

Lemma executing_insert ws i w w' :
  ws !! i = Some w ->
  item_of w ++ executing (<[i := w']> ws) ≡ₚ item_of w' ++ executing ws.
Proof.
  revert i. induction ws as [|x ws IH]; intros [|i] H; try done; cbn in H.
  - injection H as ->. change (<[0%nat := w']> (w :: ws)) with (w' :: ws).
    apply (Permutation_app_swap_app (item_of w) (item_of w') (executing ws)).
  - change (<[S i := w']> (x :: ws)) with (x :: <[i := w']> ws).
    change (executing (x :: ?l)) with (item_of x ++ executing l).
    etrans; [apply Permutation_app_swap_app|]. rewrite (IH i H). apply Permutation_app_swap_app.
Qed.

Lemma executing_wake ws : executing (map wake ws) = executing ws.
Proof. unfold executing. induction ws as [|[] ws IH]; cbn in *; by rewrite ?IH. Qed.

Lemma executing_app ws ws' : executing (ws ++ ws') = executing ws ++ executing ws'.
Proof. unfold executing. by rewrite map_app, concat_app. Qed.

#[local] Arguments executing : simpl never.
#[local] Arguments count : simpl never.

(** ** What a run has done *)

Definition ev_submitted (ev : Event) : list (Z * EmulationJob) :=
  match ev with Ev_Submit job _ (Some ticket) => [(ticket, job)] | _ => [] end.

Definition ev_delivered (ev : Event) : list EmulationJobResult :=
  match ev with
  | Ev_TakeNext (Some result) => [result]
  | Ev_TakeReady _ results => results
  | _ => []
  end.

(** The accepted jobs with their tickets and the results that clients took, in order. *)
Definition submitted (t : list Event) : list (Z * EmulationJob) := concat (map ev_submitted t).
Definition delivered (t : list Event) : list EmulationJobResult := concat (map ev_delivered t).

Lemma submitted_snoc t ev : submitted (t ++ [ev]) = submitted t ++ ev_submitted ev.
Proof. unfold submitted. rewrite map_app, concat_app. cbn. by rewrite app_nil_r. Qed.

Lemma delivered_snoc t ev : delivered (t ++ [ev]) = delivered t ++ ev_delivered ev.
Proof. unfold delivered. rewrite map_app, concat_app. cbn. by rewrite app_nil_r. Qed.

(** A result belongs to a submitted job, and what it claims to be completed is what the
    executor returned for that job. *)
Definition honest (t : list Event) (r : EmulationJobResult) : Prop :=
  exists job,
    (jr_ticket r, job) ∈ submitted t /\
    jr_function_start r = fr_start (job_function job) /\
    (jr_status r = COMPLETED ->
     exists i item returned,
       Ev_Finish i item (Returned returned) ∈ t /\ qj_ticket item = jr_ticket r /\
       qj_job item = job /\ jr_status returned = COMPLETED /\
       jr_diagnostic returned = jr_diagnostic r /\ jr_evidence returned = jr_evidence r).

Definition held (t : list Event) (item : QueuedJob) : Prop :=
  (qj_ticket item, qj_job item) ∈ submitted t.

Lemma held_snoc t ev item : held t item -> held (t ++ [ev]) item.
Proof. unfold held. rewrite submitted_snoc. set_solver. Qed.

Lemma honest_snoc t ev r : honest t r -> honest (t ++ [ev]) r.
Proof.
  intros (job & Hj & Hs & Hc). exists job. split_and!; [rewrite submitted_snoc; set_solver|done|].
  intros E. destruct (Hc E) as (i & item & x & Hin & ?). exists i, item, x. split; [set_solver|done].
Qed.

(** The jobs that are accepted and not settled; [extra] are those that a critical section
    has in hand. *)
Definition unfinished (extra : list QueuedJob) (p : Pool) : list QueuedJob :=
  extra ++ pl_queue p ++ executing (pl_workers p).

(** The tickets: each one from the next to be delivered to the last assigned is in
    exactly one place. *)
Record core (t : list Event) (extra : list QueuedJob) (p : Pool) : Prop := {
  co_submitted : (submitted t).*1 = seqZ 1 (pl_next_ticket p - 1);
  co_delivered : map jr_ticket (delivered t) = seqZ 1 (pl_next_delivery p - 1);
  co_order : 1 <= pl_next_delivery p <= pl_next_ticket p;
  co_limit : pl_next_ticket p <= u64_max;
  co_tickets :
    map qj_ticket (unfinished extra p) ++ (pl_completed p).*1 ≡ₚ
    seqZ (pl_next_delivery p) (pl_next_ticket p - pl_next_delivery p);
  co_items : Forall (held t) (unfinished extra p);
  co_completed_ok : map_ok Z.ltb (pl_completed p);
  co_completed : forall k r, (k, r) ∈ pl_completed p -> jr_ticket r = k /\ honest t r;
  co_honest : Forall (honest t) (delivered t);
  co_submitted_count : pl_submitted p = pl_next_ticket p - 1;
  co_delivered_count : pl_delivered p = pl_next_delivery p - 1;
  co_settled_count : pl_settled p = pl_delivered p + zlen (pl_completed p);
  co_unsettled_count : pl_unsettled p = zlen (unfinished extra p)
}.

(** The fields that the tickets are counted in. *)
Definition accounts (p : Pool) :=
  (pl_next_ticket p, pl_next_delivery p, pl_submitted p, pl_settled p, pl_delivered p,
   pl_unsettled p, pl_completed p).

Lemma core_same t extra extra' p p' :
  core t extra p -> accounts p' = accounts p -> unfinished extra' p' ≡ₚ unfinished extra p ->
  core t extra' p'.
Proof.
  intros [] Ha Hu. unfold accounts in Ha. injection Ha as E1 E2 E3 E4 E5 E6 E7.
  split; rewrite ?E1, ?E2, ?E3, ?E4, ?E5, ?E6, ?E7; try done.
  - by rewrite Hu.
  - by rewrite Hu.
  - unfold zlen in *. by rewrite Hu.
Qed.

Lemma core_quiet t extra p ev :
  core t extra p -> ev_submitted ev = [] -> ev_delivered ev = [] -> core (t ++ [ev]) extra p.
Proof.
  intros [] Hs Hd. split; rewrite ?submitted_snoc, ?delivered_snoc, ?Hs, ?Hd, ?app_nil_r; try done.
  - eapply Forall_impl; [done|]. intros item. apply held_snoc.
  - intros k r Hin. destruct (co_completed0 k r Hin). split; [done|by apply honest_snoc].
  - eapply Forall_impl; [done|]. intros r. apply honest_snoc.
Qed.

Lemma notify_all_core t extra p : core t extra p -> core t extra (notify_all p).
Proof.
  intros Hc. eapply core_same; [exact Hc|done|]. unfold unfinished, notify_all. cbn.
  by rewrite executing_wake.
Qed.

Lemma pop_core t extra p item rest :
  core t extra p -> pl_queue p = item :: rest -> core t (item :: extra) (set_queue rest p).
Proof.
  intros Hc Hq. eapply core_same; [exact Hc|done|]. unfold unfinished. cbn. rewrite Hq. cbn.
  by rewrite <- Permutation_middle.
Qed.

(** A worker changes its state: what it held is in hand, and the other way round. *)
Lemma worker_core t extra extra' p i w w' :
  core t extra p -> pl_workers p !! i = Some w ->
  extra' ++ item_of w' ≡ₚ extra ++ item_of w -> core t extra' (set_worker i w' p).
Proof.
  intros Hc Hw He. eapply core_same; [exact Hc|done|]. unfold unfinished. cbn.
  pose proof (executing_insert _ _ _ w' Hw) as Hi.
  apply (Permutation_app_inv_l (item_of w)).
  transitivity (extra' ++ pl_queue p ++ item_of w ++ executing (<[i:=w']> (pl_workers p)));
    [solve_Permutation|].
  rewrite Hi. transitivity ((extra' ++ item_of w') ++ pl_queue p ++ executing (pl_workers p));
    [solve_Permutation|]. rewrite He. solve_Permutation.
Qed.

Lemma map_set_fresh_keys {V} k (v : V) (m : omap Z V) :
  map_find Z.ltb k m = None -> map_ok Z.ltb m -> (map_set Z.ltb k v m).*1 ≡ₚ k :: m.*1.
Proof.
  intros Hf Hok. revert Hf Hok. induction m as [|[k' v'] m IH]; [done|].
  intros Hf [Hok Hlt]%map_ok_cons. cbn in Hf |- *. destruct (k' <? k) eqn:E1.
  - cbn. rewrite (IH Hf Hok). apply Permutation_swap.
  - destruct (k <? k') eqn:E2; [done|]. done.
Qed.

Lemma map_set_fresh_zlen {V} k (v : V) (m : omap Z V) :
  map_find Z.ltb k m = None -> map_ok Z.ltb m -> zlen (map_set Z.ltb k v m) = zlen m + 1.
Proof.
  intros Hf Hok. pose proof (Permutation_length (map_set_fresh_keys k v m Hf Hok)) as H.
  cbn in H. rewrite !length_fmap in H. unfold zlen. lia.
Qed.

Lemma core_fresh t extra p item :
  core t (item :: extra) p -> map_find Z.ltb (qj_ticket item) (pl_completed p) = None.
Proof.
  intros []. apply (proj2 (map_find_None Z.ltb _ _ co_completed_ok0)). intros r Hin.
  assert (NoDup (map qj_ticket (unfinished (item :: extra) p) ++ (pl_completed p).*1)) as Hnd.
  { rewrite co_tickets0. apply NoDup_seqZ. }
  apply NoDup_app in Hnd as (_ & Hd & _). apply (Hd (qj_ticket item)).
  - cbn. set_solver.
  - apply list_elem_of_fmap. by exists (qj_ticket item, r).
Qed.

Lemma settle_core t extra p item r :
  core t (item :: extra) p -> jr_ticket r = qj_ticket item -> honest t r ->
  core t extra (settle_locked r p).
Proof.
  intros Hc Hr Hh. pose proof (core_fresh _ _ _ _ Hc) as Hf. apply notify_all_core.
  rewrite Hr, Hf. destruct Hc. cbn in co_unsettled_count0, co_items0, co_tickets0.
  change (extra ++ pl_queue p ++ executing (pl_workers p)) with (unfinished extra p) in *.
  rewrite zlen_cons in co_unsettled_count0. pose proof (zlen_nonneg (unfinished extra p)).
  split; cbn; try done.
  - rewrite map_set_fresh_keys by done.
    change (unfinished extra _) with (unfinished extra p). by rewrite <- Permutation_middle.
  - by apply List.Forall_cons_iff in co_items0 as [].
  - by apply map_ok_set; [apply _|].
  - intros k r' Hin. apply elem_of_map_set in Hin; [|apply _|done].
    destruct Hin as [[-> ->]|[_ Hin]]; [done|by apply co_completed0].
  - rewrite map_set_fresh_zlen by done. lia.
  - change (unfinished extra _) with (unfinished extra p).
    destruct (Z.eqb_spec (pl_unsettled p) 0); cbn; lia.
Qed.

Lemma drained_honest t status reason item :
  held t item -> status <> COMPLETED -> honest t (drained_result status reason item).
Proof.
  intros Hh Hs. exists (qj_job item). unfold drained_result.
  destruct (bool_decide (status = UNAVAILABLE)); done.
Qed.

Lemma drained_ticket status reason item :
  jr_ticket (drained_result status reason item) = qj_ticket item.
Proof. unfold drained_result. by destruct (bool_decide _). Qed.

Lemma core_held t extra p item : core t extra p -> item ∈ unfinished extra p -> held t item.
Proof. intros [] Hin. rewrite Forall_forall in co_items0. by apply co_items0. Qed.

Lemma drain_core t extra status reason q p :
  core t extra p -> pl_queue p = q -> status <> COMPLETED ->
  core t extra (drain_loop status reason q p).
Proof.
  revert p. induction q as [|item rest IH]; intros p Hc Hq Hs; [done|]. cbn [drain_loop].
  apply IH; [|by unfold settle_locked; destruct (map_find _ _ _)|done].
  apply (settle_core _ _ _ item); [by apply pop_core|apply drained_ticket|].
  apply drained_honest; [|done]. apply (core_held t extra p item Hc).
  unfold unfinished. rewrite Hq. set_solver.
Qed.

(** What draining the queue leaves alone. *)
Definition frame (p : Pool) :=
  (pl_requested_workers p, pl_max_queued_jobs p, pl_generation p, pl_constructing p,
   (pl_first_unavailable_reason p, pl_next_ticket p, pl_next_delivery p),
   (pl_initialized_workers p, pl_available_workers p, pl_unavailable_workers p),
   (pl_running p, pl_stopping p)).

Lemma wake_idemp ws : map wake (map wake ws) = map wake ws.
Proof. induction ws as [|[] ws IH]; [done|..]; cbn; by rewrite IH. Qed.

Lemma settle_frame r p :
  frame (settle_locked r p) = frame p /\ pl_queue (settle_locked r p) = pl_queue p /\
  pl_workers (settle_locked r p) = map wake (pl_workers p) /\
  pl_waiting_clients (settle_locked r p) = 0.
Proof. unfold settle_locked. by destruct (map_find _ _ _). Qed.

Lemma drain_frame status reason p :
  frame (drain_queued_locked status reason p) = frame p /\
  pl_queue (drain_queued_locked status reason p) = [] /\
  map wake (pl_workers (drain_queued_locked status reason p)) = map wake (pl_workers p).
Proof.
  unfold drain_queued_locked. remember (pl_queue p) as q eqn:Hq. symmetry in Hq.
  revert p Hq. induction q as [|item rest IH]; intros p Hq; [done|]. cbn [drain_loop].
  destruct (settle_frame (drained_result status reason item) (set_queue rest p)) as (Hf & Hr & Hw & _).
  destruct (IH _ Hr) as (IHf & IHq & IHw). split_and!; [by rewrite IHf, Hf|done|].
  by rewrite IHw, Hw, wake_idemp.
Qed.

Lemma notify_all_frame p :
  frame (notify_all p) = frame p /\ pl_queue (notify_all p) = pl_queue p /\
  pl_workers (notify_all p) = map wake (pl_workers p) /\ pl_waiting_clients (notify_all p) = 0.
Proof. done. Qed.

Lemma wake_starting ws : count is_starting (map wake ws) = count is_starting ws.
Proof. rewrite count_wake. apply count_ext. by intros []. Qed.

Lemma wake_in_loop ws : count in_loop (map wake ws) = count in_loop ws.
Proof. rewrite count_wake. apply count_ext. by intros []. Qed.

Lemma wake_asleep ws : count is_asleep (map wake ws) = 0.
Proof. rewrite count_wake. apply count_zero, Forall_forall. by intros []. Qed.

Lemma wake_ready ws : count is_ready (map wake ws) = count is_ready ws + count is_asleep ws.
Proof.
  rewrite count_wake. induction ws as [|w ws IH]; [done|]. rewrite !count_cons, IH.
  destruct w; cbn; lia.
Qed.

Lemma wake_zlen ws : zlen (map wake ws) = zlen ws.
Proof. unfold zlen. by rewrite length_map. Qed.

Lemma executing_zlen ws i w w' :
  ws !! i = Some w ->
  zlen (executing (<[i := w']> ws)) = zlen (executing ws) - zlen (item_of w) + zlen (item_of w').
Proof.
  intros H. pose proof (Permutation_length (executing_insert _ _ _ w' H)) as E.
  rewrite !length_app in E. unfold zlen. lia.
Qed.

(** ** The threads and the queue *)

Record flow (p : Pool) : Prop := {
  fl_requested : 1 <= pl_requested_workers p;
  fl_threads : zlen (pl_workers p) <= pl_requested_workers p;
  fl_starting :
    pl_initialized_workers p + count is_starting (pl_workers p) =
    (if pl_constructing p then zlen (pl_workers p) else pl_requested_workers p);
  fl_available : pl_available_workers p + pl_unavailable_workers p = pl_initialized_workers p;
  fl_unavailable_count : 0 <= pl_unavailable_workers p;
  fl_loop :
    if pl_stopping p then count in_loop (pl_workers p) <= pl_available_workers p
    else count in_loop (pl_workers p) = pl_available_workers p;
  fl_running : pl_running p = zlen (executing (pl_workers p));
  fl_constructing :
    pl_constructing p = true -> pl_queue p = [] /\ pl_next_ticket p = 1 /\ pl_stopping p = false;
  fl_unavailable :
    pl_initialized_workers p = pl_requested_workers p -> pl_available_workers p = 0 ->
    pl_queue p = [];
  fl_stopping : pl_stopping p = true -> pl_queue p = [] /\ count is_asleep (pl_workers p) = 0;
  fl_generation : Forall (fun item => qj_generation item = pl_generation p) (pl_queue p);
  fl_pressure :
    pl_max_queued_jobs p <> 0 ->
    zlen (pl_queue p) <= pl_max_queued_jobs p /\
    pl_next_ticket p - pl_next_delivery p <= pl_max_queued_jobs p + pl_requested_workers p;
  fl_reason : 0 < pl_unavailable_workers p -> pl_first_unavailable_reason p <> EmptyString;
  fl_clients : 0 <= pl_waiting_clients p
}.

(** Only the frame, the workers, the queue and the waiting clients matter. *)
Lemma flow_same p p' :
  flow p -> frame p' = frame p -> pl_workers p' = pl_workers p -> pl_queue p' = pl_queue p ->
  0 <= pl_waiting_clients p' -> flow p'.
Proof.
  intros [] Hf Hw Hq Hk. unfold frame in Hf. injection Hf as F1 F2 F3 F4 F5 F6 F7 F8 F9 F10 F11 F12.
  split; rewrite ?F1, ?F2, ?F3, ?F4, ?F5, ?F6, ?F7, ?F8, ?F9, ?F10, ?F11, ?F12, ?Hw, ?Hq; done.
Qed.

Lemma notify_all_flow p : flow p -> flow (notify_all p).
Proof.
  intros []. split; cbn; rewrite ?wake_starting, ?wake_in_loop, ?wake_zlen, ?executing_wake; try done.
  intros Hs. split; [by apply fl_stopping0|apply wake_asleep].
Qed.

Lemma settle_flow r p : flow p -> flow (settle_locked r p).
Proof.
  intros Hf. unfold settle_locked. apply notify_all_flow.
  destruct (map_find _ _ _); [done|]. by apply (flow_same p); [|..|apply (fl_clients p)].
Qed.

(** ** Every step keeps the accounts *)

Lemma drain_queued_core t extra status reason p :
  core t extra p -> status <> COMPLETED -> core t extra (drain_queued_locked status reason p).
Proof. intros Hc Hs. by apply drain_core. Qed.

Lemma init_core t p i outcome :
  core t [] p -> pl_workers p !! i = Some Starting -> core t [] (worker_init i outcome p).
Proof.
  intros Hc Hi. unfold worker_init. cbn zeta.
  match goal with |- core t [] (set_worker i _ (notify_all ?q)) => set (p1 := q) end.
  assert (core t [] p1 /\ (pl_workers p1 = pl_workers p \/ map wake (pl_workers p1) = map wake (pl_workers p)))
    as [Hc1 Hw1].
  { subst p1. match goal with |- context [if _ && _ then drain_queued_locked _ _ ?q else _] => set (p0 := q) end.
    assert (core t [] p0 /\ pl_workers p0 = pl_workers p) as [Hc0 Hw0].
    { subst p0. destruct (initialization_available outcome); split; try done; by eapply core_same. }
    destruct (_ && _); [|by split; [|left]].
    split; [by apply drain_queued_core|right]. by rewrite (proj2 (proj2 (drain_frame _ _ _))), Hw0. }
  eapply worker_core; [by apply notify_all_core| |].
  - cbn. rewrite list_lookup_fmap. assert ((map wake (pl_workers p1)) !! i = Some Starting) as E.
    { destruct Hw1 as [E|E]; rewrite E; by rewrite list_lookup_fmap, Hi. }
    rewrite list_lookup_fmap in E. exact E.
  - by destruct (initialization_available outcome).
Qed.

Lemma turn_core t p i :
  core t [] p -> pl_workers p !! i = Some Ready -> core t [] (worker_turn i p).
Proof.
  intros Hc Hi. unfold worker_turn. destruct (pl_stopping p); [by eapply worker_core|].
  destruct (pl_queue p) as [|item rest] eqn:Hq; [by eapply worker_core|].
  eapply (worker_core t [item] [] _ i Ready).
  - apply notify_all_core. eapply core_same; [by apply (pop_core t [] p)|done|done].
  - cbn. by rewrite list_lookup_fmap, Hi.
  - done.
Qed.

Lemma finish_core t p i item outcome :
  core t [] p -> pl_workers p !! i = Some (Executing item) -> Ev_Finish i item outcome ∈ t ->
  core t [] (worker_finish i item outcome p).
Proof.
  intros Hc Hi Hin. unfold worker_finish. cbn zeta.
  match goal with |- core t [] (set_worker i Ready (settle_locked ?r ?q)) => set (r0 := r); set (p1 := q) end.
  (* the worker gives the item up before it is settled: the order does not matter *)
  assert (core t [item] (set_worker i Ready p1)) as Hc1.
  { apply (worker_core t [] [item] _ i (Executing item)); [by apply (core_same t [] [] p)|exact Hi|done]. }
  assert (jr_ticket r0 = qj_ticket item /\ honest t r0) as [Hr Hh].
  { assert (held t item) as Hheld.
    { apply (core_held t [item] _ item Hc1). set_solver. }
    assert (honest t (for_item item (executed_result outcome))) as Hh.
    { exists (qj_job item). split_and!; [done|done|]. destruct outcome as [returned|what]; [|done].
      intros Hs. by exists i, item, returned. }
    subst r0. destruct (_ && _); [|done]. split; [done|].
    destruct Hh as (job & ? & ? & _). by exists job. }
  pose proof (settle_core _ _ _ _ _ Hc1 Hr Hh) as Hs.
  eapply core_same; [exact Hs| |].
  - unfold settle_locked. cbn. by destruct (map_find _ _ _).
  - unfold unfinished, settle_locked. cbn.
    destruct (map_find _ _ _); cbn; change (map wake (<[i := Ready]> (pl_workers p))) with
      (wake <$> <[i := Ready]> (pl_workers p)); by rewrite list_fmap_insert.
Qed.

Lemma map_erase_spec {V} k (v : V) (m : omap Z V) :
  map_ok Z.ltb m -> map_find Z.ltb k m = Some v ->
  map_ok Z.ltb (map_erase k m) /\ m.*1 ≡ₚ k :: (map_erase k m).*1 /\
  (forall k' v', (k', v') ∈ map_erase k m -> (k', v') ∈ m).
Proof.
  intros Hok Hf. split_and!.
  - unfold map_ok, map_erase in *. apply (map_ok_sublist Z.ltb m); [|done].
    clear. induction m as [|e m IH]; cbn; [constructor|].
    destruct (negb _); by constructor.
  - revert Hok Hf. induction m as [|[k' v'] m IH]; [done|]. intros [Hok Hlt]%map_ok_cons Hf.
    cbn in Hf |- *. destruct (Z.ltb_spec k' k) as [Hl|Hl].
    + rewrite (proj2 (Z.eqb_neq k' k)) by lia. cbn. rewrite (IH Hok Hf). apply Permutation_swap.
    + destruct (Z.ltb_spec k k'); [done|]. assert (k' = k) as -> by lia. rewrite Z.eqb_refl. cbn.
      unfold map_erase. rewrite (List.forallb_filter_id (fun e => negb (e.1 =? k))); [done|].
      apply forallb_forall. intros [k2 v2] Hin%list_elem_of_In. cbn.
      specialize (Hlt _ _ Hin). apply Z.ltb_lt in Hlt.
      by rewrite (proj2 (Z.eqb_neq k2 k)) by lia.
  - intros k' v' Hin. unfold map_erase in Hin. apply list_elem_of_In in Hin.
    apply list_elem_of_In. by apply List.filter_In in Hin as [].
Qed.

Lemma deliver_core t t' extra p p' r :
  core t extra p -> pop_next p = Some (r, p') ->
  submitted t' = submitted t -> delivered t' = delivered t ++ [r] ->
  (forall x, honest t x -> honest t' x) -> core t' extra p'.
Proof.
  intros Hc Hp Hs Hd Hh. unfold pop_next in Hp.
  destruct (map_find Z.ltb (pl_next_delivery p) (pl_completed p)) as [r'|] eqn:Hf; [|done].
  injection Hp as -> <-. destruct Hc.
  destruct (map_erase_spec _ _ _ co_completed_ok0 Hf) as (Hok & Hk & Hin).
  pose proof (proj1 (map_find_elem Z.ltb _ _ _ co_completed_ok0) Hf) as Hr.
  destruct (co_completed0 _ _ Hr) as [Ht Hhr].
  assert (pl_next_delivery p < pl_next_ticket p) as Hlt.
  { assert (pl_next_delivery p ∈ seqZ (pl_next_delivery p) (pl_next_ticket p - pl_next_delivery p)) as H.
    { rewrite <- co_tickets0. apply elem_of_app. right. apply list_elem_of_fmap.
      by exists (pl_next_delivery p, r). }
    apply elem_of_seqZ in H. lia. }
  split; cbn; rewrite ?Hs, ?Hd; try done.
  - rewrite map_app, co_delivered0. cbn. rewrite Ht.
    replace (pl_next_delivery p + 1 - 1) with (pl_next_delivery p - 1 + 1) by lia.
    rewrite seqZ_app by lia. by replace (1 + (pl_next_delivery p - 1)) with (pl_next_delivery p) by lia.
  - lia.
  - apply (Permutation_cons_inv (a := pl_next_delivery p)).
    replace (pl_next_delivery p + 1) with (Z.succ (pl_next_delivery p)) by lia.
    replace (pl_next_ticket p - Z.succ (pl_next_delivery p))
      with (Z.pred (pl_next_ticket p - pl_next_delivery p)) by lia.
    rewrite <- seqZ_cons by lia. rewrite <- co_tickets0, Hk. apply Permutation_middle.
  - eapply Forall_impl; [done|]. intros item. unfold held. by rewrite Hs.
  - intros k x Hx. destruct (co_completed0 k x (Hin _ _ Hx)). split; [done|by apply Hh].
  - apply Forall_app. split; [by eapply Forall_impl|]. apply List.Forall_cons; [by apply Hh|constructor].
  - lia.
  - pose proof (Permutation_length Hk) as Hl. cbn in Hl. rewrite !length_fmap in Hl. unfold zlen in *. lia.
Qed.

Lemma submit_core t p job woken :
  core t [] p -> pl_next_ticket p <> u64_max ->
  let ticket := pl_next_ticket p in
  let item := {| qj_ticket := ticket; qj_generation := pl_generation p; qj_job := job |} in
  core (t ++ [Ev_Submit job woken (Some ticket)]) [item]
    (set_submission (ticket + 1) (pl_submitted p + 1) (pl_unsettled p + 1) p).
Proof.
  intros [] Hn. cbn zeta. split; cbn; rewrite ?submitted_snoc, ?delivered_snoc; cbn;
    rewrite ?app_nil_r; try done.
  - rewrite fmap_app, co_submitted0. cbn.
    replace (pl_next_ticket p + 1 - 1) with (pl_next_ticket p - 1 + 1) by lia.
    rewrite seqZ_app by lia. by replace (1 + (pl_next_ticket p - 1)) with (pl_next_ticket p) by lia.
  - lia.
  - lia.
  - replace (pl_next_ticket p + 1 - pl_next_delivery p)
      with (pl_next_ticket p - pl_next_delivery p + 1) by lia.
    rewrite seqZ_app by lia. rewrite <- co_tickets0.
    replace (pl_next_delivery p + (pl_next_ticket p - pl_next_delivery p))
      with (pl_next_ticket p) by lia. apply Permutation_cons_append.
  - apply List.Forall_cons; [unfold held; rewrite submitted_snoc; cbn; set_solver|].
    eapply Forall_impl; [done|]. intros item. apply held_snoc.
  - intros k r Hin. destruct (co_completed0 k r Hin). split; [done|by apply honest_snoc].
  - eapply Forall_impl; [done|]. intros r. apply honest_snoc.
  - lia.
  - unfold unfinished in *. cbn in *. rewrite zlen_cons. lia.
Qed.

Lemma notify_one_core t extra woken p p' :
  core t extra p -> notify_one woken p = Some p' -> core t extra p'.
Proof.
  intros Hc Hn. destruct woken as [|i|]; cbn in Hn.
  - destruct (_ || _); by simplify_eq.
  - destruct (pl_workers p !! i) as [[]|] eqn:E; simplify_eq. by eapply worker_core.
  - destruct (_ <? _); simplify_eq. by eapply core_same.
Qed.

Lemma try_submit_core t p job woken ticket p' :
  core t [] p -> try_submit job woken p = Some (ticket, p') ->
  core (t ++ [Ev_Submit job woken ticket]) [] p'.
Proof.
  intros Hc Hs. unfold try_submit in Hs. cbn zeta in Hs.
  destruct (pl_stopping p); [simplify_eq; by apply core_quiet|].
  destruct (negb _ && (_ <=? zlen _)); [simplify_eq; by apply core_quiet|].
  destruct (_ && (_ <=? _) && _); [simplify_eq; by apply core_quiet|].
  destruct (Z.eqb_spec (pl_next_ticket p) u64_max) as [|Hn]; [simplify_eq; by apply core_quiet|].
  pose proof (submit_core t p job woken Hc Hn) as Hi. cbn zeta in Hi.
  destruct (_ && _).
  - simplify_eq. eapply settle_core; [exact Hi|done|].
    exists job. split_and!; [|done|done]. rewrite submitted_snoc. cbn. set_solver.
  - match type of Hs with match notify_one woken ?q with _ => _ end = _ => set (p1 := q) in Hs end.
    destruct (notify_one woken p1) as [p2|] eqn:E; [|done]. simplify_eq.
    eapply notify_one_core; [|exact E]. eapply core_same; [exact Hi|done|].
    unfold unfinished. cbn. solve_Permutation.
Qed.

Lemma take_loop_core fuel t maximum results p results' p' :
  core (t ++ [Ev_TakeReady maximum results]) [] p ->
  take_ready_loop fuel maximum results p = (results', p') ->
  core (t ++ [Ev_TakeReady maximum results']) [] p'.
Proof.
  revert results p. induction fuel as [|fuel IH]; intros results p Hc Hl; cbn in Hl; [by simplify_eq|].
  destruct (_ || _); [|by simplify_eq].
  destruct (pop_next p) as [[r q]|] eqn:Hp; [|by simplify_eq].
  apply IH in Hl; [done|]. eapply deliver_core; [exact Hc|exact Hp|..].
  - by rewrite !submitted_snoc.
  - rewrite !delivered_snoc. cbn. by rewrite app_assoc.
  - intros x (job & Hj & Hst & Hcomp). exists job. rewrite submitted_snoc in *. split_and!; [done..|].
    intros E. destruct (Hcomp E) as (i & item & y & Hin & ?). exists i, item, y. split; [|done].
    apply elem_of_app in Hin as [Hin|Hin]; [set_solver|].
    by apply list_elem_of_singleton in Hin.
Qed.

Lemma step_core t p ev p' : core t [] p -> step p ev p' -> core (t ++ [ev]) [] p'.
Proof.
  intros Hc Hs. destruct Hs as [p p' H|p p' H|p p' H|p i outcome H|p i H|p i H|p i item outcome H
    |p job woken ticket p' _ H|p result p' _ H|p maximum results p' _ H|p _|p _|p _|p H].
  - apply core_quiet; [|done..]. unfold spawn in H. destruct (_ && _); simplify_eq.
    eapply core_same; [exact Hc|done|]. unfold unfinished. cbn.
    rewrite executing_app. cbn. by rewrite app_nil_r.
  - apply core_quiet; [|done..]. unfold spawn_failed in H. destruct (_ && _); simplify_eq.
    eapply core_same; [apply (notify_all_core t [])|done|done].
    destruct (zlen (pl_workers p) =? 0); [apply drain_queued_core; [|done]|]; by eapply core_same.
  - apply core_quiet; [|done..]. unfold constructed in H. destruct (_ && _); simplify_eq.
    by eapply core_same.
  - apply init_core; [by apply core_quiet|done].
  - apply turn_core; [by apply core_quiet|done].
  - eapply worker_core; [by apply core_quiet|exact H|done].
  - apply finish_core; [by apply core_quiet|done|set_solver].
  - by apply (try_submit_core t p).
  - unfold try_take_next in H. destruct (pop_next p) as [[r q]|] eqn:E; simplify_eq.
    + apply notify_all_core. eapply deliver_core; [exact Hc|exact E|..].
      * rewrite submitted_snoc. cbn. by rewrite app_nil_r.
      * by rewrite delivered_snoc.
      * intros x. apply honest_snoc.
    + by apply core_quiet.
  - unfold take_ready in H. destruct (take_ready_loop _ _ _ _) as [rs q] eqn:E.
    apply (take_loop_core _ t) in E; [|by apply core_quiet].
    destruct rs; simplify_eq; [done|by apply notify_all_core].
  - apply core_quiet; [|done..]. unfold cancel_pending. destruct (pl_stopping p); [done|].
    apply notify_all_core, drain_queued_core; [|done]. by eapply core_same.
  - apply core_quiet; [|done..]. unfold stop. apply notify_all_core.
    destruct (pl_stopping p); [done|]. apply drain_queued_core; [|done]. by eapply core_same.
  - apply core_quiet; [|done..]. by eapply core_same.
  - apply core_quiet; [|done..]. by eapply core_same.
Qed.

(** ** Every step keeps the threads and the queue in order *)

Lemma new_pool_core worker_count max_queued_jobs : core [] [] (new_pool worker_count max_queued_jobs).
Proof.
  split; cbn; try done; try lia; try (intros k r Hin; by apply elem_of_nil in Hin); try constructor.
Qed.

Lemma new_pool_flow worker_count max_queued_jobs :
  0 <= max_queued_jobs -> flow (new_pool worker_count max_queued_jobs).
Proof. intros Hm. split; cbn; try done; unfold zlen; cbn; lia. Qed.

Lemma zlen_insert ws i (w : Worker) : zlen (<[i := w]> ws) = zlen ws.
Proof. unfold zlen. by rewrite length_insert. Qed.

(** The numbers of workers after one of them changed its state. *)
Ltac count_workers H :=
  rewrite ?zlen_insert, ?(count_insert _ _ _ _ _ H), ?(executing_zlen _ _ _ _ H); cbn.

Lemma wake_lookup ws i w : ws !! i = Some w -> map wake ws !! i = Some (wake w).
Proof. intros H. change (map wake ws) with (wake <$> ws). by rewrite list_lookup_fmap, H. Qed.

(** Initialization in one view: the counters, the reason, and a drained queue where no
    worker can be available any more. *)
Lemma init_view i outcome p :
  let available := initialization_available outcome in
  let p' := worker_init i outcome p in
  pl_requested_workers p' = pl_requested_workers p /\
  pl_max_queued_jobs p' = pl_max_queued_jobs p /\
  pl_generation p' = pl_generation p /\
  pl_constructing p' = pl_constructing p /\
  pl_next_ticket p' = pl_next_ticket p /\
  pl_next_delivery p' = pl_next_delivery p /\
  pl_initialized_workers p' = pl_initialized_workers p + 1 /\
  pl_available_workers p' = pl_available_workers p + (if available then 1 else 0) /\
  pl_unavailable_workers p' = pl_unavailable_workers p + (if available then 0 else 1) /\
  pl_running p' = pl_running p /\
  pl_stopping p' = pl_stopping p /\
  pl_waiting_clients p' = 0 /\
  pl_workers p' = <[i := if available then Ready else Exited]> (map wake (pl_workers p)) /\
  (pl_queue p' = [] \/ pl_queue p' = pl_queue p) /\
  (pl_initialized_workers p' = pl_requested_workers p' -> pl_available_workers p' = 0 ->
   pl_queue p' = []) /\
  (if available then pl_first_unavailable_reason p' = pl_first_unavailable_reason p
   else pl_first_unavailable_reason p' <> EmptyString).
Proof.
  cbn zeta. unfold worker_init. cbn zeta.
  match goal with |- context [if _ && _ then drain_queued_locked _ _ ?q else _] => set (p0 := q) end.
  assert (exists q, q = (if (pl_initialized_workers p0 =? pl_requested_workers p0) && (pl_available_workers p0 =? 0)
      then drain_queued_locked UNAVAILABLE (c_str (pl_first_unavailable_reason p0)) p0 else p0) /\
    frame q = frame p0 /\ map wake (pl_workers q) = map wake (pl_workers p0) /\
    (pl_queue q = [] \/ pl_queue q = pl_queue p0) /\
    (pl_initialized_workers q = pl_requested_workers q -> pl_available_workers q = 0 -> pl_queue q = []))
    as (q & Hq & Hf & Hw & Hqu & Hdr).
  { eexists. split; [done|].
    destruct (Z.eqb_spec (pl_initialized_workers p0) (pl_requested_workers p0)),
      (Z.eqb_spec (pl_available_workers p0) 0); cbn [andb].
    1: { destruct (drain_frame UNAVAILABLE (c_str (pl_first_unavailable_reason p0)) p0) as (? & ? & ?).
      split_and!; [done|done|by left|done]. }
    all: split_and!; [done|done|by right|done]. }
  rewrite <- Hq. clear Hq. unfold frame in Hf.
  injection Hf as F1 F2 F3 F4 F5 F6 F7 F8 F9 F10 F11 F12.
  assert (pl_workers p0 = pl_workers p /\ pl_queue p0 = pl_queue p) as [Hw0 Hq0]
    by (subst p0; by destruct (initialization_available outcome)).
  cbn. rewrite F1, F2, F3, F4, F5, F6, F7, F8, F9, F10, F11, F12, Hw, Hw0, <- Hq0 in *.
  subst p0. destruct (initialization_available outcome); cbn in *.
  - split_and!; try done; lia.
  - split_and!; try done; try lia.
    destruct (bool_decide_reflect (pl_first_unavailable_reason p = EmptyString)); [|done].
    by destruct (bool_decide_reflect (initialization_error outcome = EmptyString)).
Qed.

Lemma init_flow p i outcome :
  flow p -> pl_workers p !! i = Some Starting -> flow (worker_init i outcome p).
Proof.
  intros [] Hi. destruct (init_view i outcome p) as
    (E1 & E2 & E3 & E4 & E5 & E6 & E7 & E8 & E9 & E10 & E11 & E12 & E13 & E14 & E15 & E16).
  pose proof (wake_lookup _ _ _ Hi) as Hi'. cbn in Hi'.
  split; rewrite ?E1, ?E2, ?E3, ?E4, ?E5, ?E6, ?E10, ?E11, ?E12; try done.
  - rewrite E13. count_workers Hi'. by rewrite wake_zlen.
  - rewrite E7, E13. count_workers Hi'. rewrite wake_starting, wake_zlen.
    destruct (initialization_available outcome); cbn; destruct (pl_constructing p); lia.
  - rewrite E7, E8, E9. destruct (initialization_available outcome); lia.
  - rewrite E9. destruct (initialization_available outcome); lia.
  - rewrite E8, E13. count_workers Hi'. rewrite wake_in_loop.
    destruct (initialization_available outcome), (pl_stopping p); cbn; lia.
  - rewrite E13. count_workers Hi'. rewrite executing_wake.
    destruct (initialization_available outcome); cbn; rewrite ?zlen_nil; lia.
  - intros Hc. destruct (fl_constructing0 Hc) as (Hq & ? & ?). split_and!; [|done|done].
    by destruct E14 as [E|E]; rewrite E.
  - by rewrite <- E1.
  - intros Hs. destruct (fl_stopping0 Hs) as [Hq _]. split; [by destruct E14 as [E|E]; rewrite E|].
    rewrite E13. count_workers Hi'. rewrite wake_asleep. by destruct (initialization_available outcome).
  - destruct E14 as [E|E]; rewrite E; [constructor|done].
  - intros Hm. destruct (fl_pressure0 Hm). split; [|done].
    destruct E14 as [E|E]; rewrite E; [|done]. unfold zlen in *. cbn. lia.
  - rewrite E9. destruct (initialization_available outcome); [rewrite E16|done].
    intros. apply fl_reason0. lia.
Qed.

Lemma spawn_flow p p' : flow p -> spawn p = Some p' -> flow p'.
Proof.
  intros [] H. unfold spawn in H. destruct (pl_constructing p) eqn:Ec; [|done].
  destruct (Z.ltb_spec (zlen (pl_workers p)) (pl_requested_workers p)); [|done]. injection H as <-.
  split; cbn; rewrite ?count_app, ?executing_app, ?app_nil_r, ?zlen_app, ?Ec; cbn; try done; try lia.
  - change (zlen [Starting]) with 1. lia.
  - change (count is_starting [Starting]) with 1. change (zlen [Starting]) with 1. lia.
  - change (count in_loop [Starting]) with 0. destruct (pl_stopping p); lia.
  - intros Hs. destruct (fl_stopping0 Hs). split; [done|]. change (count is_asleep [Starting]) with 0. lia.
Qed.

Lemma spawn_failed_flow p p' : flow p -> spawn_failed p = Some p' -> flow p'.
Proof.
  intros [] H. unfold spawn_failed in H. destruct (pl_constructing p) eqn:Ec; [|done].
  destruct (Z.ltb_spec (zlen (pl_workers p)) (pl_requested_workers p)) as [Hl|]; [|done].
  cbn [andb] in H.
  destruct (fl_constructing0 eq_refl) as (Hq & Hn & Hs).
  match type of H with context [if zlen _ =? 0 then drain_queued_locked _ _ ?q else _] => set (p0 := q) in H end.
  assert (exists q, q = (if zlen (pl_workers p) =? 0
      then drain_queued_locked UNAVAILABLE (c_str (pl_first_unavailable_reason p0)) p0 else p0) /\
    frame q = frame p0 /\ map wake (pl_workers q) = map wake (pl_workers p) /\ pl_queue q = [])
    as (q & Hqe & Hf & Hw & Hqu).
  { eexists. split; [done|]. destruct (zlen (pl_workers p) =? 0); [|split_and!; [reflexivity|reflexivity|exact Hq]].
    by destruct (drain_frame UNAVAILABLE (c_str (pl_first_unavailable_reason p0)) p0) as (? & ? & ?). }
  rewrite <- Hqe in H. clear Hqe. injection H as <-. unfold frame in Hf.
  injection Hf as F1 F2 F3 F4 F5 F6 F7 F8 F9 F10 F11 F12. subst p0. cbn in *.
  pose proof (zlen_nonneg (pl_workers p)).
  split; cbn; rewrite ?F1, ?F2, ?F3, ?F5, ?F6, ?F7, ?F8, ?F9, ?F10, ?F11, ?F12, ?Hw, ?Hqu,
    ?wake_starting, ?wake_in_loop, ?wake_zlen, ?executing_wake, ?wake_asleep, ?Hs, ?Hn, ?zlen_nil in *;
    try done; try lia.
  - intros Hm. destruct (fl_pressure0 Hm). rewrite Hq in *. split; [|lia]. unfold zlen in *. cbn in *. lia.
  - intros _. rewrite (proj2 (Z.eqb_neq (pl_requested_workers p - zlen (pl_workers p)) 0)) by lia. cbn.
    by destruct (bool_decide_reflect (pl_first_unavailable_reason p = EmptyString)).
Qed.

Lemma constructed_flow p p' : flow p -> constructed p = Some p' -> flow p'.
Proof.
  intros [] H. unfold constructed in H. destruct (pl_constructing p) eqn:Ec; [|done].
  destruct (Z.eqb_spec (zlen (pl_workers p)) (pl_requested_workers p)) as [He|]; [|done]. injection H as <-.
  split; cbn; try done. lia.
Qed.

(** A worker inside the loop changes its state without touching anything else. *)
Lemma set_worker_flow p i w w' :
  flow p -> pl_workers p !! i = Some w -> item_of w' = item_of w ->
  is_starting w = false -> is_starting w' = false ->
  (in_loop w' = in_loop w \/ pl_stopping p = true /\ in_loop w' = false) ->
  (is_asleep w' = true -> pl_stopping p = false) -> flow (set_worker i w' p).
Proof.
  intros [] Hi He Hs Hs' Hl Ha.
  split; cbn; count_workers Hi; rewrite ?Hs, ?Hs', ?He; try done; try lia.
  - destruct Hl as [->|[E ->]]; [destruct (pl_stopping p), (in_loop w); lia|]. rewrite E in *. destruct (in_loop w); lia.
  - intros E. destruct (fl_stopping0 E) as [Hq Hc]. split; [done|].
    assert (is_asleep w' = false) as -> by (destruct (is_asleep w'); [|done]; by rewrite Ha in E).
    assert (is_asleep w = false) as ->; [|lia].
    apply count_zero in Hc. rewrite Forall_forall in Hc. apply Hc. by eapply list_elem_of_lookup_2.
Qed.

Lemma turn_flow p i : flow p -> pl_workers p !! i = Some Ready -> flow (worker_turn i p).
Proof.
  intros Hf Hi. unfold worker_turn. destruct (pl_stopping p) eqn:Es.
  { apply (set_worker_flow p i Ready); try done. by right. }
  destruct (pl_queue p) as [|item rest] eqn:Hq.
  { apply (set_worker_flow p i Ready); try done. by left. }
  destruct Hf. pose proof (wake_lookup _ _ _ Hi) as Hi'. cbn in Hi'. rewrite Hq in *.
  rewrite zlen_cons in *. apply List.Forall_cons_iff in fl_generation0 as [_ Hg].
  split; cbn; count_workers Hi'; rewrite ?wake_starting, ?wake_in_loop, ?wake_zlen, ?executing_wake,
    ?wake_asleep, ?Es, ?zlen_nil in *; try done; try lia.
  - change (zlen [item]) with 1. lia.
  - intros E. by destruct (fl_constructing0 E).
  - intros E1 E2. by specialize (fl_unavailable0 E1 E2).
Qed.

Lemma finish_flow p i item outcome :
  flow p -> pl_workers p !! i = Some (Executing item) -> flow (worker_finish i item outcome p).
Proof.
  intros Hf Hi. unfold worker_finish. cbn zeta.
  match goal with |- flow (set_worker i Ready (settle_locked ?r ?q)) => set (r0 := r); set (p1 := q) end.
  destruct (settle_frame r0 p1) as (F & Q & W & K).
  remember (settle_locked r0 p1) as q eqn:E. clear E. unfold frame in F.
  injection F as F1 F2 F3 F4 F5 F6 F7 F8 F9 F10 F11 F12. destruct Hf.
  pose proof (wake_lookup _ _ _ Hi) as Hi'. cbn in Hi'.
  assert (zlen (executing (pl_workers p)) = zlen (executing (<[i := Ready]> (pl_workers p))) + 1) as Hx.
  { rewrite (executing_zlen _ _ _ _ Hi). cbn. unfold zlen. cbn. lia. }
  pose proof (zlen_nonneg (executing (<[i := Ready]> (pl_workers p)))).
  split; cbn; rewrite ?F1, ?F2, ?F3, ?F4, ?F5, ?F6, ?F7, ?F8, ?F9, ?F10, ?F11, ?F12, ?Q, ?W, ?K; cbn; count_workers Hi';
    rewrite ?wake_starting, ?wake_in_loop, ?wake_zlen, ?executing_wake, ?wake_asleep; try done; try lia.
  - destruct (pl_stopping p); lia.
  - change (zlen [item]) with 1. change (zlen (@nil QueuedJob)) with 0. rewrite (proj2 (Z.eqb_neq (pl_running p) 0)) by lia. cbn. lia.
  - intros E. split; [by apply fl_stopping0|lia].
Qed.

Lemma notify_one_flow woken p p' : flow p -> notify_one woken p = Some p' -> flow p'.
Proof.
  intros Hf Hn. destruct woken as [|i|]; cbn in Hn.
  - destruct (_ || _); by simplify_eq.
  - destruct (pl_workers p !! i) as [[]|] eqn:E; simplify_eq.
    apply (set_worker_flow p i Asleep); try done. by left.
  - destruct (Z.ltb_spec 0 (pl_waiting_clients p)); simplify_eq.
    apply (flow_same p); try done. cbn. lia.
Qed.

Lemma try_submit_flow p job woken ticket p' :
  flow p -> pl_constructing p = false -> try_submit job woken p = Some (ticket, p') -> flow p'.
Proof.
  intros Hf Hcon Hs. unfold try_submit in Hs. cbn zeta in Hs.
  destruct (pl_stopping p) eqn:Es; [by simplify_eq|].
  destruct (negb (pl_max_queued_jobs p =? 0) && (_ <=? zlen _)) eqn:G1; [by simplify_eq|].
  destruct (_ && (_ <=? _) && _) eqn:G2; [by simplify_eq|].
  destruct (Z.eqb_spec (pl_next_ticket p) u64_max) as [|Hn]; [by simplify_eq|].
  assert (pl_max_queued_jobs p <> 0 ->
    zlen (pl_queue p) < pl_max_queued_jobs p /\
    pl_next_ticket p - pl_next_delivery p < pl_max_queued_jobs p + pl_requested_workers p) as Hp.
  { intros Hm. rewrite (proj2 (Z.eqb_neq _ _) Hm) in *. cbn in G1, G2.
    destruct (fl_pressure p Hf Hm). pose proof (zlen_nonneg (pl_queue p)). lia. }
  destruct Hf.
  clear G1 G2. destruct (_ && _) eqn:G3.
  - simplify_eq. apply settle_flow. split; cbn; rewrite ?Hcon, ?Es in *; try done.
    intros Hm. destruct (Hp Hm). split; lia.
  - match type of Hs with match notify_one woken ?q with _ => _ end = _ => set (p1 := q) in Hs end.
    destruct (notify_one woken p1) as [p2|] eqn:E; [|done]. simplify_eq.
    eapply notify_one_flow; [|exact E]. subst p1.
    split; cbn in *; rewrite ?Hcon, ?Es in *; try done.
    + intros E1 E2. rewrite E1, E2, Z.eqb_refl in G3. done.
    + apply Forall_app. split; [done|]. by repeat constructor.
    + intros Hm. destruct (Hp Hm). rewrite zlen_app. change (zlen [?x]) with 1. split; lia.
Qed.

Lemma pop_next_flow p r p' : flow p -> pop_next p = Some (r, p') -> flow p'.
Proof.
  intros [] Hp. unfold pop_next in Hp. destruct (map_find _ _ _); simplify_eq.
  split; cbn; try done. intros Hm. destruct (fl_pressure0 Hm). split; [done|lia].
Qed.

Lemma take_loop_flow fuel maximum results p results' p' :
  flow p -> take_ready_loop fuel maximum results p = (results', p') -> flow p'.
Proof.
  revert results p. induction fuel as [|fuel IH]; intros results p Hf Hl; cbn in Hl; [by simplify_eq|].
  destruct (_ || _); [|by simplify_eq].
  destruct (pop_next p) as [[r q]|] eqn:Hp; [|by simplify_eq].
  apply IH in Hl; [done|]. by eapply pop_next_flow.
Qed.

(** The generation moves on and the queue is emptied. *)
Lemma drained_flow status reason p q :
  flow p -> pl_constructing p = false ->
  frame (next_generation q) = frame (next_generation p) \/
  q = set_stopping p ->
  pl_workers q = pl_workers p ->
  flow (notify_all (drain_queued_locked status reason (next_generation q))).
Proof.
  intros [] Hcon Hq Hw. destruct (drain_frame status reason (next_generation q)) as (F & Q & W).
  remember (drain_queued_locked status reason (next_generation q)) as d eqn:E. clear E.
  assert (pl_workers (next_generation q) = pl_workers p) as Hwq by done.
  rewrite Hwq in W. unfold frame in F, Hq.
  injection F as F1 F2 F3 F4 F5 F6 F7 F8 F9 F10 F11 F12.
  assert (pl_requested_workers q = pl_requested_workers p /\ pl_max_queued_jobs q = pl_max_queued_jobs p /\
    pl_constructing q = pl_constructing p /\ pl_first_unavailable_reason q = pl_first_unavailable_reason p /\
    pl_next_ticket q = pl_next_ticket p /\ pl_next_delivery q = pl_next_delivery p /\
    pl_initialized_workers q = pl_initialized_workers p /\ pl_available_workers q = pl_available_workers p /\
    pl_unavailable_workers q = pl_unavailable_workers p /\ pl_running q = pl_running p /\
    (pl_stopping q = pl_stopping p \/ pl_stopping q = true))
    as (G1 & G2 & G3 & G4 & G5 & G6 & G7 & G8 & G9 & G10 & G11).
  { destruct Hq as [Hq| ->]; [|by split_and!; try done; right].
    injection Hq. intros. split_and!; try done. by left. }
  cbn in *.
  split; cbn; rewrite ?F1, ?F2, ?F3, ?F4, ?F5, ?F6, ?F7, ?F8, ?F9, ?F10, ?F11, ?F12, ?Q, ?W,
    ?wake_starting, ?wake_in_loop, ?wake_zlen, ?executing_wake, ?wake_asleep, ?G1, ?G2, ?G3, ?G4, ?G5,
    ?G6, ?G7, ?G8, ?G9, ?G10, ?Hcon in *; try done.
  - destruct G11 as [->| ->]; [done|]. destruct (pl_stopping p); lia.
  - intros Hm. destruct (fl_pressure0 Hm). split; [|done]. change (zlen (@nil QueuedJob)) with 0.
    pose proof (zlen_nonneg (pl_queue p)). lia.
Qed.

Lemma step_flow p ev p' : flow p -> step p ev p' -> flow p'.
Proof.
  intros Hf Hs. destruct Hs as [p p' H|p p' H|p p' H|p i outcome H|p i H|p i H|p i item outcome H
    |p job woken ticket p' Hc H|p result p' Hc H|p maximum results p' Hc H|p Hc|p Hc|p Hc|p H].
  - by eapply spawn_flow.
  - by eapply spawn_failed_flow.
  - by eapply constructed_flow.
  - by apply init_flow.
  - by apply turn_flow.
  - apply (set_worker_flow p i Asleep); try done. by left.
  - by apply finish_flow.
  - by eapply try_submit_flow.
  - unfold try_take_next in H. destruct (pop_next p) as [[r q]|] eqn:E; simplify_eq; [|done].
    apply notify_all_flow. by eapply pop_next_flow.
  - unfold take_ready in H. destruct (take_ready_loop _ _ _ _) as [rs q] eqn:E.
    apply take_loop_flow in E; [|done]. destruct rs; simplify_eq; [done|by apply notify_all_flow].
  - unfold cancel_pending. destruct (pl_stopping p); [done|]. apply (drained_flow _ _ p); try done. by left.
  - unfold stop. destruct (pl_stopping p); [by apply notify_all_flow|].
    apply (drained_flow _ _ p); try done. by right.
  - apply (flow_same p); try done. cbn. destruct Hf. lia.
  - apply (flow_same p); try done. cbn. lia.
Qed.

(** The invariant of every run from the constructor on. *)
Lemma run_ok worker_count max_queued_jobs t p :
  0 <= max_queued_jobs -> run (new_pool worker_count max_queued_jobs) t p -> core t [] p /\ flow p.
Proof.
  intros Hm. induction 1 as [|t q ev r _ [Hc Hf] Hs].
  - split; [apply new_pool_core|by apply new_pool_flow].
  - split; [by eapply step_core|by eapply step_flow].
Qed.

End Pool.
