(* ===== verification/WorkerPoolRuns.v ===== *)
(** * Runs of the emulation worker pool

    Properties of every run of the pool of WorkerPool.v: what clients are given, that
    nothing is lost or delivered twice, backpressure, that accepted jobs settle as long
    as no submission wakes a waiting client instead of a worker, that shutdown joins, and
    what a cancellation does to the jobs that are pending. *)
From stdpp Require Import base numbers list strings option sets.
From Stdlib Require Import ZArith Lia.
From S2P Require Import Prelude OrderedMap ProgramModel Config WorkerFingerprint WorkerPool.

Section Runs.
Context {Evidence : Type} (no_evidence : Evidence).

#[local] Notation Pool := (Pool (Evidence := Evidence)).
#[local] Notation Event := (Event (Evidence := Evidence)).
#[local] Notation EmulationJobResult := (EmulationJobResult (Evidence := Evidence)).
#[local] Notation step := (step no_evidence).
#[local] Notation run := (run no_evidence).

(** ** Progress *)

(** No wakeup is lost: while a worker sleeps, every queued job has an awake worker. *)
Definition awake_enough (p : Pool) : Prop :=
  0 < count is_asleep (pl_workers p) -> zlen (pl_queue p) <= count is_ready (pl_workers p).

(** The notification of a submission does not go to a waiting client. *)
Definition notifies_worker (ev : Event) : bool :=
  match ev with Ev_Submit _ WakesClient _ => false | _ => true end.

(** The steps that the threads of the pool make of their own accord. *)
Definition worker_event (ev : Event) : bool :=
  match ev with Ev_Init _ _ | Ev_Turn _ | Ev_Finish _ _ _ => true | _ => false end.

Definition worker_run (p : Pool) (t : list Event) (p' : Pool) : Prop :=
  run p t p' /\ Forall (fun ev => worker_event ev = true) t.

Definition work (p : Pool) : Z :=
  2 * zlen (pl_queue p) + zlen (executing (pl_workers p)) + count is_starting (pl_workers p).

(** A bound on the number of worker steps: a job is taken and finished, a thread
    initializes, and each of these may wake all threads. *)
Definition measure (p : Pool) : Z :=
  (zlen (pl_workers p) + 1) * work p + count is_ready (pl_workers p).

#[local] Arguments count : simpl never.
#[local] Arguments executing : simpl never.
#[local] Arguments drain_queued_locked : simpl never.

Lemma count_le f ws : count f ws <= zlen ws.
Proof. induction ws as [|w ws IH]; [done|]. rewrite count_cons, zlen_cons. destruct (f w); lia. Qed.

Lemma executing_cons w ws : executing (w :: ws) = item_of w ++ executing ws.
Proof. done. Qed.

Lemma count_in_loop ws :
  count in_loop ws = count is_ready ws + count is_asleep ws + zlen (executing ws).
Proof.
  induction ws as [|w ws IH]; [done|]. rewrite executing_cons, zlen_app, !count_cons, IH.
  destruct w; cbn; unfold zlen; cbn; lia.
Qed.

Lemma count_all ws :
  zlen ws = count is_starting ws + count in_loop ws + count is_exited ws.
Proof.
  induction ws as [|w ws IH]; [done|]. rewrite zlen_cons, !count_cons, IH. destruct w; cbn; lia.
Qed.

Lemma all_woken p : count is_asleep (pl_workers p) = 0 -> awake_enough p.
Proof. unfold awake_enough. lia. Qed.

Lemma notify_one_awake woken (p p' : Pool) job ticket item :
  notify_one woken p = Some p' -> notifies_worker (Ev_Submit job woken ticket) = true ->
  awake_enough (set_queue (removelast (pl_queue p)) p) ->
  pl_queue p = removelast (pl_queue p) ++ [item] -> awake_enough p'.
Proof.
  intros Hn Hw Ha Hq. destruct woken as [|i|]; cbn in Hn; [| |done].
  - destruct (existsb is_asleep (pl_workers p)) eqn:E; [done|]. cbn in Hn.
    destruct (0 <? pl_waiting_clients p); simplify_eq. apply all_woken, count_zero, Forall_forall.
    intros w Hin. destruct (is_asleep w) eqn:Ew; [|done].
    assert (existsb is_asleep (pl_workers p') = true); [|congruence].
    apply existsb_exists. exists w. by rewrite <- list_elem_of_In.
  - destruct (pl_workers p !! i) as [[]|] eqn:E; simplify_eq. intros _. cbn.
    rewrite (count_insert _ _ _ _ _ E). cbn. rewrite Hq, zlen_app. change (zlen [item]) with 1.
    unfold awake_enough in Ha. cbn in Ha. pose proof (count_insert is_asleep _ _ _ Ready E) as Hc.
    cbn in Hc. pose proof (count_nonneg is_asleep (<[i:=Ready]> (pl_workers p))). lia.
Qed.

Lemma map_find_in {V} k (v : V) (m : omap Z V) : map_find Z.ltb k m = Some v -> (k, v) ∈ m.
Proof.
  induction m as [|[k' v'] m IH]; [done|]. cbn.
  destruct (Z.ltb_spec k' k); [intros E; right; by apply IH|].
  destruct (Z.ltb_spec k k'); [done|]. intros [= ->]. assert (k = k') as -> by lia. left.
Qed.

(** Taking results leaves the threads, the queue and the generation alone. *)
Lemma take_loop_same fuel maximum results (p : Pool) results' p' :
  take_ready_loop fuel maximum results p = (results', p') ->
  pl_queue p' = pl_queue p /\ pl_workers p' = pl_workers p /\ pl_generation p' = pl_generation p /\
  (forall k r, (k, r) ∈ pl_completed p' -> (k, r) ∈ pl_completed p) /\
  exists more, results' = results ++ more /\
    Forall (fun r => exists k, (k, r) ∈ pl_completed p) more.
Proof.
  revert results p. induction fuel as [|fuel IH]; intros results p Hl; cbn in Hl.
  { simplify_eq. split_and!; try done. exists []. by rewrite app_nil_r. }
  destruct (_ || _); [|simplify_eq; split_and!; try done; exists []; by rewrite app_nil_r].
  unfold pop_next in Hl. destruct (map_find Z.ltb (pl_next_delivery p) (pl_completed p)) as [r|] eqn:E;
    [|simplify_eq; split_and!; try done; exists []; by rewrite app_nil_r].
  destruct (IH _ _ Hl) as (Hq & Hw & Hg & Hc & more & -> & Hm). cbn in *.
  assert (forall k x, (k, x) ∈ map_erase (pl_next_delivery p) (pl_completed p) ->
    (k, x) ∈ pl_completed p) as Hsub.
  { intros k x Hin. unfold map_erase in Hin. apply list_elem_of_In in Hin.
    apply list_elem_of_In. by apply List.filter_In in Hin as []. }
  split_and!; [done..|by intros k x Hin%Hc%Hsub|].
  exists (r :: more). split; [by rewrite <- app_assoc|].
  apply List.Forall_cons.
  - exists (pl_next_delivery p). by apply map_find_in.
  - eapply Forall_impl; [exact Hm|]. intros x [k Hk]. exists k. by apply Hsub.
Qed.

Lemma step_awake p ev p' :
  flow p -> step p ev p' -> notifies_worker ev = true -> awake_enough p -> awake_enough p'.
Proof.
  intros Hf Hs Hn Ha. destruct Hs as [p p' H|p p' H|p p' H|p i outcome H|p i H|p i H|p i item outcome H
    |p job woken ticket p' Hc H|p result p' Hc H|p maximum results p' Hc H|p Hc|p Hc|p Hc|p H].
  - unfold spawn in H. destruct (_ && _); simplify_eq. unfold awake_enough in *. cbn.
    rewrite !count_app. change (count is_asleep [Starting]) with 0.
    change (count is_ready [Starting]) with 0. lia.
  - unfold spawn_failed in H. destruct (_ && _); simplify_eq. apply all_woken. cbn. apply wake_asleep.
  - unfold constructed in H. destruct (_ && _); by simplify_eq.
  - apply all_woken. destruct (init_view no_evidence i outcome p) as (_ & _ & _ & _ & _ & _ & _ & _ & _ & _ & _ & _ & -> & _).
    rewrite (count_insert _ _ _ _ _ (wake_lookup _ _ _ H)), wake_asleep.
    by destruct (initialization_available outcome).
  - unfold worker_turn. destruct (pl_stopping p) eqn:Es.
    { destruct (fl_stopping p Hf Es) as [Hq _]. intros _. cbn. rewrite Hq. apply count_nonneg. }
    destruct (pl_queue p) eqn:Hq; [intros _; cbn; rewrite Hq; apply count_nonneg|].
    apply all_woken. cbn. rewrite (count_insert _ _ _ _ _ (wake_lookup _ _ _ H)), wake_asleep. done.
  - unfold awake_enough in *. cbn. rewrite !(count_insert _ _ _ _ _ H). cbn. lia.
  - apply all_woken. unfold worker_finish. cbn zeta.
    match goal with |- context [settle_locked ?r ?q] => destruct (settle_frame r q) as (_ & _ & W & _) end.
    unfold set_worker, set_workers. cbn [pl_workers]. rewrite W. cbn.
    rewrite (count_insert _ _ _ _ _ (wake_lookup _ _ _ H)), wake_asleep. done.
  - unfold try_submit in H. cbn zeta in H. destruct (pl_stopping p); [by simplify_eq|].
    destruct (negb _ && (_ <=? zlen _)); [by simplify_eq|].
    destruct (_ && (_ <=? _) && _); [by simplify_eq|].
    destruct (_ =? u64_max); [by simplify_eq|]. destruct (_ && _).
    + simplify_eq. apply all_woken.
      match goal with |- context [settle_locked ?r ?q] => destruct (settle_frame r q) as (_ & _ & -> & _) end.
      apply wake_asleep.
    + destruct (notify_one woken _) as [q|] eqn:E; [|done]. simplify_eq.
      eapply notify_one_awake; [exact E|exact Hn| |cbn; by rewrite removelast_last].
      cbn. by rewrite removelast_last.
  - unfold try_take_next in H. destruct (pop_next p) as [[r q]|]; simplify_eq; [|done].
    apply all_woken, wake_asleep.
  - unfold take_ready in H. destruct (take_ready_loop _ _ _ _) as [rs q] eqn:E.
    destruct (take_loop_same _ _ _ _ _ _ E) as (Hq & Hw & _).
    destruct rs; simplify_eq; [|apply all_woken, wake_asleep].
    unfold awake_enough in *. by rewrite Hq, Hw.
  - unfold cancel_pending. destruct (pl_stopping p); [done|]. apply all_woken, wake_asleep.
  - apply all_woken, wake_asleep.
  - done.
  - done.
Qed.

Lemma worker_step_decreases p ev p' :
  flow p -> step p ev p' -> worker_event ev = true -> measure p' < measure p.
Proof.
  intros Hf Hs Hw. unfold measure.
  assert (forall q, zlen (pl_workers q) = zlen (pl_workers p) -> work q < work p ->
    (zlen (pl_workers q) + 1) * work q + count is_ready (pl_workers q) <
    (zlen (pl_workers p) + 1) * work p + count is_ready (pl_workers p)) as Hdone.
  { intros q Hz Hlt. pose proof (count_le is_ready (pl_workers q)). rewrite Hz in *.
    pose proof (count_nonneg is_ready (pl_workers p)). pose proof (zlen_nonneg (pl_workers p)). nia. }
  destruct Hs as [p p' H|p p' H|p p' H|p i outcome H|p i H|p i H|p i item outcome H
    |p job woken ticket p' Hc H|p result p' Hc H|p maximum results p' Hc H|p Hc|p Hc|p Hc|p H]; try done.
  - destruct (init_view no_evidence i outcome p) as (_ & _ & _ & _ & _ & _ & _ & _ & _ & _ & _ & _ & W & Q & _).
    remember (worker_init no_evidence i outcome p) as q eqn:E. clear E. pose proof (wake_lookup _ _ _ H) as Hi. cbn in Hi.
    apply Hdone; [by rewrite W, zlen_insert, wake_zlen|]. unfold work.
    rewrite W, (count_insert _ _ _ _ _ Hi), (executing_zlen _ _ _ _ Hi), executing_wake, wake_starting.
    assert (zlen (pl_queue q) <= zlen (pl_queue p)).
    { destruct Q as [->| ->]; [|done]. change (zlen (@nil QueuedJob)) with 0. apply zlen_nonneg. }
    destruct (initialization_available outcome); cbn; change (zlen (@nil QueuedJob)) with 0; lia.
  - unfold worker_turn. destruct (pl_stopping p) eqn:Es; [|destruct (pl_queue p) as [|item rest] eqn:Hq].
    1, 2: unfold work; cbn; rewrite zlen_insert, !(count_insert _ _ _ _ _ H), (executing_zlen _ _ _ _ H);
      cbn; change (zlen (@nil QueuedJob)) with 0; rewrite ?Hq; nia.
    pose proof (wake_lookup _ _ _ H) as Hi. cbn in Hi.
    apply Hdone; [cbn; by rewrite zlen_insert, wake_zlen|]. unfold work. cbn.
    rewrite Hq, zlen_cons, (count_insert _ _ _ _ _ Hi), (executing_zlen _ _ _ _ Hi), executing_wake,
      wake_starting. cbn. change (zlen [item]) with 1. change (zlen (@nil QueuedJob)) with 0. lia.
  - unfold worker_finish. cbn zeta.
    match goal with |- context [settle_locked ?r ?q] =>
      destruct (settle_frame r q) as (_ & Q & W & _); remember (settle_locked r q) as s eqn:E; clear E end.
    pose proof (wake_lookup _ _ _ H) as Hi. cbn in Hi, W, Q.
    apply Hdone; [cbn; by rewrite W, zlen_insert, wake_zlen|]. unfold work. cbn. rewrite Q, W.
    rewrite (count_insert _ _ _ _ _ Hi), (executing_zlen _ _ _ _ Hi), executing_wake, wake_starting.
    cbn. change (zlen [item]) with 1. change (zlen (@nil QueuedJob)) with 0. lia.
Qed.

(** While a job is unsettled, or the pool stops and a thread is left, a thread can move. *)
Lemma progress t p :
  core t [] p -> flow p -> awake_enough p -> pl_constructing p = false ->
  idle p = false \/ pl_stopping p = true /\ joined p = false ->
  exists ev p', worker_event ev = true /\ step p ev p'.
Proof.
  intros Hc Hf Ha Hcon Hgoal. set (ws := pl_workers p) in *.
  pose proof (count_in_loop ws) as Hl. pose proof (count_all ws) as Hall.
  pose proof (count_nonneg is_starting ws). pose proof (count_nonneg is_ready ws).
  pose proof (count_nonneg is_asleep ws). pose proof (zlen_nonneg (executing ws)).
  destruct (Z.eq_dec (count is_starting ws) 0) as [Hs0|Hs0].
  2: { destruct (count_pos is_starting ws) as (i & w & Hi & Hw); [lia|]. destruct w; try done.
    eexists (Ev_Init i NullExecutor), _. split; [done|]. by apply step_init. }
  destruct (Z.eq_dec (count is_ready ws) 0) as [Hr0|Hr0].
  2: { destruct (count_pos is_ready ws) as (i & w & Hi & Hw); [lia|]. destruct w; try done.
    eexists (Ev_Turn i), _. split; [done|]. by apply step_turn. }
  destruct (Z.eq_dec (zlen (executing ws)) 0) as [He0|He0].
  2: { assert (exists i item, ws !! i = Some (Executing item)) as (i & item & Hi).
    { clear -He0. induction ws as [|w ws IH]; [done|]. rewrite executing_cons in He0.
      destruct w as [| | |item|]; try (destruct IH as (i & item & Hi); [done|]; by exists (S i), item).
      by exists 0%nat, item. }
    eexists (Ev_Finish i item (Threw None)), _. split; [done|]. by apply step_finish. }
  exfalso. pose proof (fl_starting p Hf) as Hst. pose proof (fl_loop p Hf) as Hlp.
  pose proof (fl_stopping p Hf) as Hsp. pose proof (fl_unavailable p Hf) as Hun. fold ws in Hst, Hlp, Hsp.
  destruct Hgoal as [Hidle|[Hs Hj]].
  - assert (0 < zlen (pl_queue p)) as Hq.
    { unfold idle in Hidle. apply Z.eqb_neq in Hidle. rewrite (co_unsettled_count _ _ _ Hc) in Hidle.
      unfold unfinished in Hidle. cbn in Hidle. rewrite zlen_app in Hidle. fold ws in Hidle.
      pose proof (zlen_nonneg (pl_queue p)). lia. }
    destruct (pl_stopping p) eqn:Es.
    { destruct (Hsp eq_refl) as [E _]. by rewrite E in Hq. }
    rewrite Hcon in Hst. unfold awake_enough in Ha. fold ws in Ha.
    destruct (Z.eq_dec (count is_asleep ws) 0); [|lia].
    rewrite Hun in Hq by lia. done.
  - destruct (Hsp Hs) as [_ Ha0].
    assert (joined p = true); [|congruence]. unfold joined. apply forallb_forall.
    intros w Hin%list_elem_of_In. fold ws in Hin.
    assert (forall f, count f ws = 0 -> f w = false) as Hz.
    { intros f Hz%count_zero. rewrite Forall_forall in Hz. by apply Hz. }
    pose proof (Hz _ Hs0). pose proof (Hz _ Hr0). pose proof (Hz _ Ha0).
    assert (in_loop w = false) by (apply Hz; lia). by destruct w.
Qed.

(** ** Taking everything *)

Lemma take_loop_all fuel t (p : Pool) results results' p' :
  core t [] p -> unfinished [] p = [] -> (length (pl_completed p) < fuel)%nat ->
  take_ready_loop fuel 0 results p = (results', p') ->
  map jr_ticket results' =
    map jr_ticket results ++ seqZ (pl_next_delivery p) (pl_next_ticket p - pl_next_delivery p).
Proof.
  revert t results p. induction fuel as [|fuel IH]; intros t results p Hc Hu Hlen Hl; [lia|].
  cbn [take_ready_loop] in Hl. cbn [Z.eqb orb] in Hl. pose proof (co_tickets _ _ _ Hc) as Htick.
  rewrite Hu in Htick. cbn in Htick. pose proof (co_order _ _ _ Hc) as Hord.
  destruct (pop_next p) as [[r q]|] eqn:E.
  - pose proof E as E0. unfold pop_next in E.
    destruct (map_find Z.ltb (pl_next_delivery p) (pl_completed p)) as [x|] eqn:Ef; [|done].
    injection E as -> <-.
    destruct (co_completed _ _ _ Hc _ _ (map_find_in _ _ _ Ef)) as [Ht _].
    assert (pl_next_delivery p < pl_next_ticket p) as Hlt.
    { assert (pl_next_delivery p ∈ seqZ (pl_next_delivery p) (pl_next_ticket p - pl_next_delivery p)) as Hin.
      { rewrite <- Htick. apply list_elem_of_fmap. exists (pl_next_delivery p, r).
        split; [done|by apply map_find_in]. }
      apply elem_of_seqZ in Hin. lia. }
    eapply (IH (t ++ [Ev_TakeNext (Some r)])) in Hl; [|eapply deliver_core; [exact Hc|exact E0|..]| |].
    + rewrite Hl, map_app. cbn. rewrite Ht, <- app_assoc. cbn. f_equal.
      rewrite (seqZ_cons (pl_next_delivery p)) by lia. f_equal. f_equal; lia.
    + rewrite submitted_snoc. cbn. by rewrite app_nil_r.
    + by rewrite delivered_snoc.
    + intros y. apply honest_snoc.
    + exact Hu.
    + cbn. destruct (map_erase_spec _ _ _ (co_completed_ok _ _ _ Hc) Ef) as (_ & Hk & _).
      apply Permutation_length in Hk. cbn in Hk. rewrite !length_fmap in Hk. lia.
  - simplify_eq. rewrite seqZ_nil, app_nil_r; [done|].
    destruct (Z.lt_ge_cases (pl_next_delivery p') (pl_next_ticket p')) as [Hlt|]; [|lia]. exfalso.
    assert (pl_next_delivery p' ∈ (pl_completed p').*1) as Hin.
    { rewrite Htick. apply elem_of_seqZ. lia. }
    apply list_elem_of_fmap in Hin as ([k r] & Hk & Hin). cbn in Hk. subst k.
    apply (map_find_elem Z.ltb _ _ _ (co_completed_ok _ _ _ Hc)) in Hin.
    unfold pop_next in E. by rewrite Hin in E.
Qed.

Lemma unsettled_none t (p : Pool) : core t [] p -> idle p = true -> unfinished [] p = [].
Proof.
  intros Hc Hi. apply Z.eqb_eq in Hi. rewrite (co_unsettled_count _ _ _ Hc) in Hi.
  destruct (unfinished [] p); [done|]. rewrite zlen_cons in Hi. pose proof (zlen_nonneg l). lia.
Qed.

Lemma worker_run_snoc p t q ev r :
  worker_run p t q -> worker_event ev = true -> step q ev r -> worker_run p (t ++ [ev]) r.
Proof.
  intros [Hr Hw] He Hs. split; [by eapply run_snoc|]. apply Forall_app. split; [done|by constructor].
Qed.

(** What holds in every state that worker steps reach. *)
Definition sound (p : Pool) : Prop :=
  (exists t, core t [] p) /\ flow p /\ awake_enough p /\ pl_constructing p = false.

Lemma worker_step_sound p ev p' :
  sound p -> step p ev p' -> worker_event ev = true -> sound p'.
Proof.
  intros ([t Hc] & Hf & Ha & Hn) Hs Hw. split_and!.
  - exists (t ++ [ev]). by eapply step_core.
  - by eapply step_flow.
  - eapply step_awake; try done. by destruct ev.
  - destruct Hs; try done.
    + by destruct (init_view no_evidence i outcome p) as (_ & _ & _ & -> & _).
    + unfold worker_turn. destruct (pl_stopping p); [done|]. by destruct (pl_queue p).
    + unfold worker_finish. cbn zeta.
      match goal with |- context [settle_locked ?r ?q] => destruct (settle_frame r q) as (F & _) end.
      unfold frame in F. injection F. cbn. intros. congruence.
Qed.

Lemma worker_run_sound p t p' :
  sound p -> worker_run p t p' -> sound p' /\ zlen t + measure p' <= measure p.
Proof.
  intros Hp [Hr Hw]. induction Hr as [|t q ev r Hr IH Hs]; [split; [done|unfold zlen; cbn; lia]|].
  apply Forall_app in Hw as [Hw He]. apply List.Forall_cons_iff in He as [He _].
  destruct (IH Hw) as [Hq Hm]. split; [by eapply worker_step_sound|].
  pose proof (worker_step_decreases q ev r (proj1 (proj2 Hq)) Hs He).
  rewrite zlen_app. change (zlen [ev]) with 1. lia.
Qed.

Lemma measure_nonneg p : 0 <= measure p.
Proof.
  unfold measure, work. pose proof (zlen_nonneg (pl_workers p)). pose proof (zlen_nonneg (pl_queue p)).
  pose proof (zlen_nonneg (executing (pl_workers p))). pose proof (count_nonneg is_starting (pl_workers p)).
  pose proof (count_nonneg is_ready (pl_workers p)). nia.
Qed.

(** Nothing is left to do: every accepted job is settled, and a stopped pool joined. *)
Definition finished (p : Pool) : Prop :=
  idle p = true /\ (pl_stopping p = true -> joined p = true).

Lemma run_cons p ev q t r : step p ev q -> run q t r -> run p (ev :: t) r.
Proof.
  intros Hs. induction 1 as [|t q' ev' r' _ IH Hs'].
  - apply (run_snoc no_evidence p [] p ev q); [constructor|done].
  - change (ev :: t ++ [ev']) with ((ev :: t) ++ [ev']). by eapply run_snoc.
Qed.

Lemma finishes p : sound p -> exists t p', worker_run p t p' /\ finished p'.
Proof.
  remember (Z.to_nat (measure p)) as n eqn:Hn. revert p Hn.
  induction (lt_wf n) as [n _ IH]. intros p -> Hp.
  destruct (idle p) eqn:Ei, (pl_stopping p) eqn:Es, (joined p) eqn:Ej.
  1, 3, 4: exists [], p; split; [split; [constructor|done]|]; split; rewrite ?Es; done.
  all: destruct Hp as ([t Hc] & Hf & Ha & Hcon);
    destruct (progress t p Hc Hf Ha Hcon) as (ev & q & He & Hs); [rewrite ?Ei, ?Es, ?Ej; auto|];
    assert (sound q) as Hq by (eapply worker_step_sound; [|exact Hs|exact He]; by split; [exists t|]);
    pose proof (worker_step_decreases p ev q Hf Hs He); pose proof (measure_nonneg q);
    destruct (IH (Z.to_nat (measure q)) ltac:(lia) q eq_refl Hq) as (t' & p' & [Hr Hw] & Hfin);
    exists (ev :: t'), p'; split; [split|exact Hfin].
  all: try (by apply List.Forall_cons).
  all: by eapply run_cons.
Qed.

(** ** Cancellation *)

Definition changes_generation (ev : Event) : bool :=
  match ev with Ev_Cancel | Ev_Stop => true | _ => false end.

(** How often a run moves the generation on, at most. *)
Definition generation_changes (t : list Event) : Z := zlen (List.filter changes_generation t).

Lemma generation_changes_app t t' :
  generation_changes (t ++ t') = generation_changes t + generation_changes t'.
Proof. unfold generation_changes. by rewrite List.filter_app, zlen_app. Qed.

Lemma generation_changes_nonneg t : 0 <= generation_changes t.
Proof. apply zlen_nonneg. Qed.

Lemma drain_loop_completed status reason q (p : Pool) k r :
  (k, r) ∈ pl_completed (drain_loop no_evidence status reason q p) ->
  map_ok Z.ltb (pl_completed p) ->
  (k, r) ∈ pl_completed p \/
  (exists item, item ∈ q /\ qj_ticket item = k /\ (status <> UNAVAILABLE -> jr_status r = CANCELLED)).
Proof.
  revert p. induction q as [|item q IH]; intros p Hin Hok; [by left|]. cbn [drain_loop] in Hin.
  set (x := drained_result no_evidence status reason item) in *.
  assert (map_ok Z.ltb (pl_completed (settle_locked x (set_queue q p))) /\
    forall k r, (k, r) ∈ pl_completed (settle_locked x (set_queue q p)) ->
      (k, r) ∈ pl_completed p \/ k = qj_ticket item /\ r = x) as [Hok' Hsub].
  { unfold settle_locked. cbn. destruct (map_find Z.ltb (jr_ticket x) (pl_completed p)); cbn.
    - split; [done|]. by left.
    - split; [by apply map_ok_set; [apply _|]|]. intros k' r' Hin'.
      apply elem_of_map_set in Hin'; [|apply _|done]. subst x. rewrite drained_ticket in Hin'.
      destruct Hin' as [[-> ->]|[_ ?]]; [by right|by left]. }
  destruct (IH _ Hin Hok') as [Hin'|(item' & ? & ? & ?)]; [|right; exists item'; split; [by right|done]].
  destruct (Hsub _ _ Hin') as [?|[-> ->]]; [by left|]. right. exists item.
  split; [by left|split; [done|]]. intros Hs. subst x. unfold drained_result.
  by destruct (bool_decide_reflect (status = UNAVAILABLE)).
Qed.

Lemma settle_completed r (p : Pool) k x :
  map_ok Z.ltb (pl_completed p) -> (k, x) ∈ pl_completed (settle_locked r p) ->
  (k, x) ∈ pl_completed p \/ k = jr_ticket r /\ x = r.
Proof.
  intros Hok Hin. unfold settle_locked in Hin. cbn in Hin.
  destruct (map_find Z.ltb (jr_ticket r) (pl_completed p)); cbn in Hin; [by left|].
  apply elem_of_map_set in Hin; [|apply _|done]. destruct Hin as [?|[_ ?]]; [by right|by left].
Qed.

(** Where the jobs and results of a state come from, in one step: a job in the queue is an
    old one or new, an executing job was executing or queued, a result is an old one, is
    the result of a job from the queue, carries a new ticket, or comes from an execution
    and is cancelled unless the generation of the job is the current one. *)
Record evolves (p p' : Pool) : Prop := {
  ev_queue : forall item, item ∈ pl_queue p' -> item ∈ pl_queue p \/ qj_ticket item = pl_next_ticket p;
  ev_executing : forall item, item ∈ executing (pl_workers p') ->
    item ∈ executing (pl_workers p) \/ item ∈ pl_queue p;
  ev_completed : forall k r, (k, r) ∈ pl_completed p' ->
    (k, r) ∈ pl_completed p \/
    (exists item, item ∈ pl_queue p /\ qj_ticket item = k) \/
    k = pl_next_ticket p \/
    (exists item, item ∈ executing (pl_workers p) /\ qj_ticket item = k /\
      (jr_status r = CANCELLED \/ qj_generation item = pl_generation p))
}.

Lemma executing_insert_elem ws i w w' item :
  ws !! i = Some w -> item ∈ executing (<[i := w']> ws) -> item ∈ executing ws \/ item ∈ item_of w'.
Proof.
  intros Hi Hin. pose proof (executing_insert _ _ _ w' Hi) as Hp.
  assert (item ∈ item_of w ++ executing (<[i := w']> ws)) as H by (apply elem_of_app; by right).
  rewrite Hp in H. apply elem_of_app in H as [?|?]; [by right|by left].
Qed.

Lemma evolves_same (p p' : Pool) :
  pl_queue p' = pl_queue p -> executing (pl_workers p') = executing (pl_workers p) ->
  (forall k r, (k, r) ∈ pl_completed p' -> (k, r) ∈ pl_completed p) -> evolves p p'.
Proof. intros Hq Hw Hc. split; rewrite ?Hq, ?Hw; try by left. intros k r Hin. left. by apply Hc. Qed.

Lemma evolves_drained (p d p' : Pool) status reason :
  pl_queue d = pl_queue p -> pl_workers d = pl_workers p -> pl_completed d = pl_completed p ->
  map_ok Z.ltb (pl_completed p) ->
  pl_queue p' = [] -> executing (pl_workers p') = executing (pl_workers p) ->
  pl_completed p' = pl_completed (drain_queued_locked no_evidence status reason d) -> evolves p p'.
Proof.
  intros Eq Ew Ec Hok Hq Hw Hc. split.
  - rewrite Hq. intros item Hin. by apply elem_of_nil in Hin.
  - rewrite Hw. by left.
  - rewrite Hc. intros k r Hin. apply drain_loop_completed in Hin; [|by rewrite Ec].
    rewrite Ec, Eq in Hin. destruct Hin as [?|(item & ? & ? & _)]; [by left|right; left; by exists item].
Qed.

Lemma finish_evolves i item outcome (p : Pool) :
  map_ok Z.ltb (pl_completed p) -> pl_workers p !! i = Some (Executing item) ->
  evolves p (worker_finish no_evidence i item outcome p).
Proof.
  intros Hok Hi. unfold worker_finish. cbn zeta.
  match goal with |- context [settle_locked ?r ?q] => set (r0 := r); set (p1 := q) end.
  destruct (settle_frame r0 p1) as (_ & Q & W & _).
  assert (forall k x, (k, x) ∈ pl_completed (settle_locked r0 p1) ->
    (k, x) ∈ pl_completed p \/ k = jr_ticket r0 /\ x = r0) as C
    by (intros k x; by apply (settle_completed r0 p1)).
  assert (jr_ticket r0 = qj_ticket item) as Ht by (subst r0; by destruct (_ && _)).
  assert (jr_status r0 = CANCELLED \/ qj_generation item = pl_generation p) as Hst.
  { subst r0 p1. cbn. destruct (Z.eqb_spec (pl_generation p) (qj_generation item)) as [->|]; [by right|].
    cbn. destruct (bool_decide_reflect (jr_status (executed_result no_evidence outcome) = CANCELLED));
      cbn; by left. }
  remember (settle_locked r0 p1) as q eqn:E. clear E.
  pose proof (wake_lookup _ _ _ Hi) as Hi'. cbn in Hi'.
  assert (item ∈ executing (pl_workers p)) as Hex.
  { pose proof (executing_insert _ _ _ Ready Hi) as Hp. cbn in Hp. rewrite <- Hp. by left. }
  split; cbn; rewrite ?Q, ?W.
  - by left.
  - intros x Hin. left. apply (executing_insert_elem _ _ _ _ _ Hi') in Hin.
    rewrite executing_wake in Hin. destruct Hin as [?|Hin]; [done|by apply elem_of_nil in Hin].
  - intros k x Hin. destruct (C _ _ Hin) as [?|[-> ->]]; [by left|]. right; right; right.
    by exists item.
Qed.

Lemma drained_executing status reason (p : Pool) :
  executing (pl_workers (drain_queued_locked no_evidence status reason p)) = executing (pl_workers p).
Proof.
  destruct (drain_frame no_evidence status reason p) as (_ & _ & W).
  by rewrite <- executing_wake, W, executing_wake.
Qed.

Lemma notify_one_same woken (p p' : Pool) :
  notify_one woken p = Some p' ->
  pl_queue p' = pl_queue p /\ pl_completed p' = pl_completed p /\ pl_next_ticket p' = pl_next_ticket p /\
  forall item, item ∈ executing (pl_workers p') -> item ∈ executing (pl_workers p).
Proof.
  intros Hn. destruct woken as [|i|]; cbn in Hn.
  - destruct (_ || _); by simplify_eq.
  - destruct (pl_workers p !! i) as [[]|] eqn:E; simplify_eq. split_and!; try done.
    intros item Hin. apply (executing_insert_elem _ _ _ _ _ E) in Hin as [?|Hin]; [done|].
    by apply elem_of_nil in Hin.
  - destruct (_ <? _); by simplify_eq.
Qed.

Lemma settle_next_ticket r (p : Pool) : pl_next_ticket (settle_locked r p) = pl_next_ticket p.
Proof. unfold settle_locked. by destruct (map_find _ _ _). Qed.

Lemma submit_evolves job woken ticket (p p' : Pool) :
  map_ok Z.ltb (pl_completed p) -> try_submit no_evidence job woken p = Some (ticket, p') ->
  evolves p p' /\ pl_next_ticket p <= pl_next_ticket p'.
Proof.
  intros Hok H. assert (evolves p p) as Hsame by by apply evolves_same.
  unfold try_submit in H. cbn zeta in H. destruct (pl_stopping p); [by simplify_eq|].
  destruct (negb _ && (_ <=? zlen _)); [by simplify_eq|].
  destruct (_ && (_ <=? _) && _); [by simplify_eq|].
  destruct (_ =? u64_max); [by simplify_eq|]. destruct (_ && _).
  - simplify_eq. match goal with |- context [settle_locked ?r ?q] => set (r0 := r); set (p1 := q) end.
    destruct (settle_frame r0 p1) as (_ & Q & W & _).
    rewrite settle_next_ticket. cbn [pl_next_ticket p1 set_submission]. split; [|lia].
    split; rewrite ?Q, ?W, ?executing_wake; [by left|by left|].
    intros k r Hin. apply settle_completed in Hin as [?|[-> _]]; [by left|by right; right; left|done].
  - destruct (notify_one woken _) as [q|] eqn:E; [|done]. simplify_eq.
    destruct (notify_one_same _ _ _ E) as (Q & C & N & W). cbn in *. split; [|rewrite N; lia].
    split; rewrite ?Q, ?C; [|by left; apply W|by left].
    intros item [?| ->%list_elem_of_singleton]%elem_of_app; [by left|by right].
Qed.

Lemma init_evolves i outcome (p : Pool) :
  map_ok Z.ltb (pl_completed p) -> pl_workers p !! i = Some Starting ->
  evolves p (worker_init no_evidence i outcome p).
Proof.
  intros Hok Hi. destruct (init_view no_evidence i outcome p) as
    (_ & _ & _ & _ & _ & _ & _ & _ & _ & _ & _ & _ & W & Q & _).
  assert (forall item, item ∈ executing (pl_workers (worker_init no_evidence i outcome p)) ->
    item ∈ executing (pl_workers p)) as Hex.
  { rewrite W. intros item Hin.
    apply (executing_insert_elem _ _ _ _ _ (wake_lookup _ _ _ Hi)) in Hin. rewrite executing_wake in Hin.
    destruct Hin as [?|Hin]; [done|].
    destruct (initialization_available outcome); by apply elem_of_nil in Hin. }
  split; [| |].
  - destruct Q as [->| ->]; [|by left]. intros item Hin. by apply elem_of_nil in Hin.
  - intros item Hin. left. by apply Hex.
  - clear W Q Hex. unfold worker_init. cbn zeta. intros k r.
    match goal with |- context [if _ && _ then drain_queued_locked _ _ _ ?q else _] => set (p0 := q) end.
    assert (pl_queue p0 = pl_queue p /\ pl_completed p0 = pl_completed p) as [Hq0 Hc0]
      by (subst p0; by destruct (initialization_available outcome)).
    destruct (_ && _); cbn; [|rewrite Hc0; by left].
    intros Hin. apply drain_loop_completed in Hin; [|by rewrite Hc0].
    rewrite Hc0, Hq0 in Hin. destruct Hin as [?|(item & ? & ? & _)]; [by left|right; left; by exists item].
Qed.

Lemma turn_evolves i (p : Pool) :
  pl_workers p !! i = Some Ready -> evolves p (worker_turn i p).
Proof.
  intros Hi. unfold worker_turn.
  assert (forall w, item_of w = [] -> evolves p (set_worker i w p)) as Hset.
  { intros w Hw. split; [by left| |by left]. cbn. intros item Hin. left.
    apply (executing_insert_elem _ _ _ _ _ Hi) in Hin. rewrite Hw in Hin.
    destruct Hin as [?|Hin]; [done|by apply elem_of_nil in Hin]. }
  destruct (pl_stopping p); [by apply Hset|].
  destruct (pl_queue p) as [|item rest] eqn:Hq; [by apply Hset|].
  split; cbn; rewrite ?Hq; [by left; right| |by left].
  intros x Hin. apply (executing_insert_elem _ _ _ _ _ (wake_lookup _ _ _ Hi)) in Hin.
  rewrite executing_wake in Hin. destruct Hin as [?|Hin]; [by left|right].
  apply list_elem_of_singleton in Hin as ->. left.
Qed.

Lemma drain_next_ticket status reason (p : Pool) :
  pl_next_ticket (drain_queued_locked no_evidence status reason p) = pl_next_ticket p.
Proof.
  destruct (drain_frame no_evidence status reason p) as (F & _). unfold frame in F. by injection F.
Qed.

Lemma take_loop_next_ticket fuel maximum results (p : Pool) results' p' :
  take_ready_loop fuel maximum results p = (results', p') -> pl_next_ticket p' = pl_next_ticket p.
Proof.
  revert results p. induction fuel as [|fuel IH]; intros results p Hl; cbn in Hl; [by simplify_eq|].
  destruct (_ || _); [|by simplify_eq]. unfold pop_next in Hl.
  destruct (map_find _ _ _); [|by simplify_eq]. by rewrite (IH _ _ Hl).
Qed.

Lemma step_evolves t p ev p' :
  core t [] p -> step p ev p' ->
  evolves p p' /\ pl_next_ticket p <= pl_next_ticket p' /\
  (forall r, r ∈ ev_delivered ev -> (jr_ticket r, r) ∈ pl_completed p).
Proof.
  intros Hc Hs. pose proof (co_completed_ok _ _ _ Hc) as Hok.
  destruct Hs as [p p' H|p p' H|p p' H|p i outcome H|p i H|p i H|p i item outcome H
    |p job woken ticket p' _ H|p result p' _ H|p maximum results p' _ H|p _|p _|p _|p H].
  - unfold spawn in H. destruct (_ && _); simplify_eq. split_and!; [|done|by intros r ?%elem_of_nil].
    apply evolves_same; [done| |done]. cbn. by rewrite executing_app, app_nil_r.
  - unfold spawn_failed in H. destruct (_ && _); simplify_eq.
    destruct (zlen (pl_workers p) =? 0).
    + split_and!; [|cbn; by rewrite drain_next_ticket|by intros r ?%elem_of_nil].
      eapply evolves_drained; [| | |exact Hok|..|reflexivity]; try done; [apply drain_frame|].
    cbn. by rewrite executing_wake, drained_executing.
    + split_and!; [|done|by intros r ?%elem_of_nil]. apply evolves_same; [done| |done].
      cbn. by rewrite executing_wake.
  - unfold constructed in H. destruct (_ && _); simplify_eq.
    split_and!; [by apply evolves_same|done|by intros r ?%elem_of_nil].
  - split_and!; [by apply init_evolves| |by intros r ?%elem_of_nil].
    by destruct (init_view no_evidence i outcome p) as (_ & _ & _ & _ & -> & _).
  - split_and!; [by apply turn_evolves| |by intros r ?%elem_of_nil].
    unfold worker_turn. destruct (pl_stopping p); [done|]. by destruct (pl_queue p).
  - split_and!; [|done|by intros r ?%elem_of_nil]. split; [by left| |by left].
    intros x Hin. apply (executing_insert_elem _ _ _ _ _ H) in Hin as [?|Hin]; [by left|].
    by apply elem_of_nil in Hin.
  - split_and!; [by apply finish_evolves| |by intros r ?%elem_of_nil].
    unfold worker_finish. cbn zeta.
    unfold set_worker, set_workers. cbn [pl_next_ticket]. by rewrite settle_next_ticket.
  - destruct (submit_evolves _ _ _ _ _ Hok H) as [He Hn]. split_and!; [done|done|].
    intros r Hin. cbn in Hin. by apply elem_of_nil in Hin.
  - unfold try_take_next in H. unfold pop_next in H.
    destruct (map_find Z.ltb (pl_next_delivery p) (pl_completed p)) as [r|] eqn:E; simplify_eq.
    + apply map_find_in in E as Hin. destruct (co_completed _ _ _ Hc _ _ Hin) as [Ht _].
      split_and!; [|done|intros x ->%list_elem_of_singleton; by rewrite Ht].
      apply evolves_same; [done|cbn; by rewrite executing_wake|]. cbn. intros k x Hk.
      by apply (map_erase_spec _ _ _ Hok E).
    + split_and!; [by apply evolves_same|done|by intros r ?%elem_of_nil].
  - unfold take_ready in H. destruct (take_ready_loop _ _ _ _) as [rs q] eqn:E.
    pose proof (take_loop_next_ticket _ _ _ _ _ _ E) as Hn.
    destruct (take_loop_same _ _ _ _ _ _ E) as (Hq & Hw & _ & Hcm & more & -> & Hm).
    cbn [app] in *. clear E.
    assert (evolves p q /\ evolves p (notify_all q)) as [He He'].
    { split; apply evolves_same; try done; cbn; by rewrite ?executing_wake, Hw. }
    assert (forall r, r ∈ more -> (jr_ticket r, r) ∈ pl_completed p) as Hd.
    { intros r Hin. rewrite Forall_forall in Hm. destruct (Hm r Hin) as [k Hk].
      destruct (co_completed _ _ _ Hc _ _ Hk) as [<- _]. done. }
    destruct more; simplify_eq; (split_and!; [done|cbn; lia|exact Hd]).
  - split_and!; [| |by intros r ?%elem_of_nil]; unfold cancel_pending; destruct (pl_stopping p) eqn:Es;
      [by apply evolves_same| |done|cbn; by rewrite drain_next_ticket].
    eapply evolves_drained; [| | |exact Hok|..|reflexivity]; try done; [apply drain_frame|].
    cbn. by rewrite executing_wake, drained_executing.
  - split_and!; [| |by intros r ?%elem_of_nil]; unfold stop; destruct (pl_stopping p) eqn:Es;
      [apply evolves_same; [done|cbn; by rewrite executing_wake|done]| |done|cbn; by rewrite drain_next_ticket].
    eapply evolves_drained; [| | |exact Hok|..|reflexivity]; try done; [apply drain_frame|].
    cbn. by rewrite executing_wake, drained_executing.
  - split_and!; [by apply evolves_same|done|by intros r ?%elem_of_nil].
  - split_and!; [by apply evolves_same|done|by intros r ?%elem_of_nil].
Qed.

Lemma take_loop_generation fuel maximum results (p : Pool) results' p' :
  take_ready_loop fuel maximum results p = (results', p') ->
  pl_generation p' = pl_generation p /\ pl_stopping p' = pl_stopping p.
Proof.
  revert results p. induction fuel as [|fuel IH]; intros results p Hl; cbn in Hl; [by simplify_eq|].
  destruct (_ || _); [|by simplify_eq]. unfold pop_next in Hl.
  destruct (map_find _ _ _); [|by simplify_eq]. by apply IH in Hl.
Qed.

Lemma take_loop_max fuel maximum results (p : Pool) results' p' :
  take_ready_loop fuel maximum results p = (results', p') ->
  pl_max_queued_jobs p' = pl_max_queued_jobs p.
Proof.
  revert results p. induction fuel as [|fuel IH]; intros results p Hl; cbn in Hl; [by simplify_eq|].
  destruct (_ || _); [|by simplify_eq]. unfold pop_next in Hl.
  destruct (map_find _ _ _); [|by simplify_eq]. by apply IH in Hl.
Qed.

Lemma drain_max status reason (p : Pool) :
  pl_max_queued_jobs (drain_queued_locked no_evidence status reason p) = pl_max_queued_jobs p.
Proof.
  destruct (drain_frame no_evidence status reason p) as (F & _). unfold frame in F. by injection F.
Qed.

(** A step keeps the generation and the stop flag, unless it cancels or stops a pool that
    is not stopping. *)
Lemma step_generation p ev p' :
  step p ev p' ->
  (pl_generation p' = pl_generation p /\ pl_stopping p' = pl_stopping p /\
   (changes_generation ev = true -> pl_stopping p = true)) \/
  (changes_generation ev = true /\ pl_stopping p = false /\
   pl_generation p' = (pl_generation p + 1) mod 2 ^ 64 /\
   executing (pl_workers p') = executing (pl_workers p)).
Proof.
  intros Hs.
  destruct Hs as [p p' H|p p' H|p p' H|p i outcome H|p i H|p i H|p i item outcome H
    |p job woken ticket p' _ H|p result p' _ H|p maximum results p' _ H|p _|p _|p _|p H].
  - left. unfold spawn in H. destruct (_ && _); by simplify_eq.
  - left. unfold spawn_failed in H. destruct (_ && _); simplify_eq. cbn.
    destruct (zlen (pl_workers p) =? 0); [|done].
    match goal with |- context [drain_queued_locked _ ?a ?b ?c] =>
      destruct (drain_frame no_evidence a b c) as (F & _) end.
    unfold frame in F. injection F. cbn. intros. split_and!; [congruence|congruence|done].
  - left. unfold constructed in H. destruct (_ && _); by simplify_eq.
  - left. destruct (init_view no_evidence i outcome p) as (_ & _ & -> & _ & _ & _ & _ & _ & _ & _ & -> & _).
    done.
  - left. unfold worker_turn. destruct (pl_stopping p) eqn:Es; [done|]. by destruct (pl_queue p).
  - by left.
  - left. unfold worker_finish. cbn zeta. unfold set_worker, set_workers. cbn [pl_generation pl_stopping].
    match goal with |- context [settle_locked ?r ?q] => destruct (settle_frame r q) as (F & _) end.
    unfold settle_locked. by destruct (map_find _ _ _).
  - left. unfold try_submit in H. cbn zeta in H. destruct (pl_stopping p) eqn:Es; [by simplify_eq|].
    destruct (negb _ && (_ <=? zlen _)); [by simplify_eq|].
    destruct (_ && (_ <=? _) && _); [by simplify_eq|].
    destruct (_ =? u64_max); [by simplify_eq|]. destruct (_ && _).
    + simplify_eq. unfold settle_locked. by destruct (map_find _ _ _).
    + destruct (notify_one woken _) as [q|] eqn:E; [|done]. simplify_eq.
      destruct woken as [|i|]; cbn in E; [destruct (_ || _)|destruct (_ !! i) as [[]|]|destruct (0 <? _)];
        by simplify_eq.
  - left. unfold try_take_next, pop_next in H. destruct (map_find _ _ _); by simplify_eq.
  - left. unfold take_ready in H. destruct (take_ready_loop _ _ _ _) as [rs q] eqn:E.
    destruct (take_loop_generation _ _ _ _ _ _ E) as [E1 E2].
    by destruct rs; simplify_eq.
  - unfold cancel_pending. destruct (pl_stopping p) eqn:Es; [by left|right].
    match goal with |- context [drain_queued_locked _ ?a ?b ?c] =>
      destruct (drain_frame no_evidence a b c) as (F & _); pose proof (drained_executing a b c) as Hx end.
    unfold frame in F. injection F. cbn. intros.
    split_and!; [done|done|congruence|by rewrite executing_wake].
  - unfold stop. destruct (pl_stopping p) eqn:Es; [by left|right].
    match goal with |- context [drain_queued_locked _ ?a ?b ?c] =>
      destruct (drain_frame no_evidence a b c) as (F & _); pose proof (drained_executing a b c) as Hx end.
    unfold frame in F. injection F. cbn. intros.
    split_and!; [done|done|congruence|by rewrite executing_wake].
  - by left.
  - by left.
Qed.

Lemma step_max p ev p' : step p ev p' -> pl_max_queued_jobs p' = pl_max_queued_jobs p.
Proof.
  intros Hs. destruct Hs as [p p' H|p p' H|p p' H|p i outcome H|p i H|p i H|p i item outcome H
    |p job woken ticket p' _ H|p result p' _ H|p maximum results p' _ H|p _|p _|p _|p H]; try done.
  - unfold spawn in H. destruct (_ && _); by simplify_eq.
  - unfold spawn_failed in H. destruct (_ && _); simplify_eq. cbn.
    destruct (zlen (pl_workers p) =? 0); [by rewrite drain_max|done].
  - unfold constructed in H. destruct (_ && _); by simplify_eq.
  - by destruct (init_view no_evidence i outcome p) as (_ & -> & _).
  - unfold worker_turn. destruct (pl_stopping p); [done|]. by destruct (pl_queue p).
  - unfold worker_finish, settle_locked. cbn. by destruct (map_find _ _ _).
  - unfold try_submit in H. cbn zeta in H. destruct (pl_stopping p); [by simplify_eq|].
    destruct (negb _ && (_ <=? zlen _)); [by simplify_eq|].
    destruct (_ && (_ <=? _) && _); [by simplify_eq|].
    destruct (_ =? u64_max); [by simplify_eq|]. destruct (_ && _).
    + simplify_eq. unfold settle_locked. by destruct (map_find _ _ _).
    + destruct (notify_one woken _) as [q|] eqn:E; [|done]. simplify_eq.
      destruct woken as [|i|]; cbn in E; [destruct (_ || _)|destruct (_ !! i) as [[]|]|destruct (0 <? _)];
        by simplify_eq.
  - unfold try_take_next, pop_next in H. destruct (map_find _ _ _); by simplify_eq.
  - unfold take_ready in H. destruct (take_ready_loop _ _ _ _) as [rs q] eqn:E.
    apply take_loop_max in E. by destruct rs; simplify_eq.
  - unfold cancel_pending. destruct (pl_stopping p); [done|]. cbn. by rewrite drain_max.
  - unfold stop. destruct (pl_stopping p); [done|]. cbn. by rewrite drain_max.
Qed.

(** As long as the generation does not wrap: no job is ahead of it, and a stopped pool
    executes only jobs that are behind. *)
Record generations (t : list Event) (p : Pool) : Prop := {
  gn_range : 1 <= pl_generation p <= 1 + generation_changes t;
  gn_items : forall item, item ∈ executing (pl_workers p) -> qj_generation item <= pl_generation p;
  gn_stopping : pl_stopping p = true ->
    forall item, item ∈ executing (pl_workers p) -> qj_generation item < pl_generation p
}.

Lemma step_generations t0 t p ev p' :
  core t0 [] p -> flow p -> step p ev p' -> generation_changes (t ++ [ev]) < 2 ^ 64 - 1 ->
  generations t p -> generations (t ++ [ev]) p'.
Proof.
  intros Hc Hf Hs Hlt [Hr Hi Hst]. destruct (step_evolves _ _ _ _ Hc Hs) as ([_ He _] & _).
  rewrite generation_changes_app in Hlt. pose proof (generation_changes_nonneg [ev]) as Hn.
  destruct (step_generation _ _ _ Hs) as [(Eg & Es & Ec)|(Ev & Es & Eg & Ew)].
  - split; rewrite ?Eg, ?Es, ?generation_changes_app; [lia| |].
    + intros item Hin. destruct (He item Hin) as [?|Hq]; [by apply Hi|].
      pose proof (fl_generation p Hf) as Hg. rewrite Forall_forall in Hg. rewrite (Hg item Hq). lia.
    + intros H item Hin. destruct (He item Hin) as [?|Hq]; [by apply Hst|].
      rewrite (proj1 (fl_stopping p Hf H)) in Hq. by apply elem_of_nil in Hq.
  - assert (generation_changes [ev] = 1) as E1 by (unfold generation_changes; cbn; by rewrite Ev).
    rewrite E1 in *. rewrite Z.mod_small in Eg by lia.
    split; rewrite ?Eg, ?Ew, ?generation_changes_app, ?E1; [lia| |].
    + intros item Hin. specialize (Hi item Hin). lia.
    + intros _ item Hin. specialize (Hi item Hin). lia.
Qed.

Lemma run_generations worker_count max_queued_jobs t p :
  0 <= max_queued_jobs -> run (new_pool worker_count max_queued_jobs) t p ->
  generation_changes t < 2 ^ 64 - 1 -> generations t p.
Proof.
  intros Hm. induction 1 as [|t q ev r Hrun IH Hs]; intros Hlt.
  - split; cbn; [unfold generation_changes, zlen; cbn; lia| |]; by intros ? ?%elem_of_nil || done.
  - destruct (run_ok no_evidence _ _ _ _ Hm Hrun) as [Hc Hf].
    eapply step_generations; try done. apply IH. rewrite generation_changes_app in Hlt.
    pose proof (generation_changes_nonneg [ev]). lia.
Qed.

(** From a cancellation on, ticket [k] is never queued, only executes under an older
    generation, and has no result but a cancelled one. *)
Record doomed (k : Z) (d : list EmulationJobResult) (p : Pool) : Prop := {
  do_old : k < pl_next_ticket p;
  do_queue : forall item, item ∈ pl_queue p -> qj_ticket item <> k;
  do_executing : forall item, item ∈ executing (pl_workers p) -> qj_ticket item = k ->
    qj_generation item < pl_generation p;
  do_completed : forall r, (k, r) ∈ pl_completed p -> jr_status r = CANCELLED;
  do_delivered : forall r, r ∈ d -> jr_ticket r = k -> jr_status r = CANCELLED
}.

Lemma step_doomed t k d p ev p' :
  core t [] p -> step p ev p' -> pl_generation p <= pl_generation p' ->
  doomed k d p -> doomed k (d ++ ev_delivered ev) p'.
Proof.
  intros Hc Hs Hg [Ho Hq He Hcm Hd].
  destruct (step_evolves _ _ _ _ Hc Hs) as ([Eq Ee Ec] & Hn & Hdel). split.
  - lia.
  - intros item Hin. destruct (Eq item Hin) as [?| ->]; [by apply Hq|lia].
  - intros item Hin Hk. destruct (Ee item Hin) as [Hx|Hx]; [specialize (He item Hx Hk); lia|].
    by destruct (Hq item Hx).
  - intros r Hin. destruct (Ec k r Hin) as [?|[(item & Hi & Hk)|[->|(item & Hi & Hk & Hst)]]];
      [by apply Hcm|by destruct (Hq item Hi)|lia|].
    destruct Hst as [?|Hgen]; [done|]. specialize (He item Hi Hk). lia.
  - intros r [Hin|Hin]%elem_of_app Hk; [by apply Hd|]. apply Hcm. rewrite <- Hk. by apply Hdel.
Qed.

Lemma cancel_dooms t p ev p' item :
  core t [] p -> flow p -> generations t p -> step p ev p' -> changes_generation ev = true ->
  generation_changes (t ++ [ev]) < 2 ^ 64 - 1 -> item ∈ unfinished [] p ->
  doomed (qj_ticket item) [] p'.
Proof.
  intros Hc Hf [Hr Hi Hst] Hs Hev Hlt Hin.
  assert (generation_changes [ev] = 1) as E1 by (unfold generation_changes; cbn; by rewrite Hev).
  rewrite generation_changes_app, E1 in Hlt. destruct (step_evolves _ _ _ _ Hc Hs) as (_ & Hn & _).
  pose proof (co_tickets _ _ _ Hc) as Htick. pose proof (co_completed_ok _ _ _ Hc) as Hok.
  assert (qj_ticket item < pl_next_ticket p) as Hold.
  { assert (qj_ticket item ∈ seqZ (pl_next_delivery p) (pl_next_ticket p - pl_next_delivery p)) as Hk.
    { rewrite <- Htick. apply elem_of_app. left. apply list_elem_of_fmap. by exists item. }
    apply elem_of_seqZ in Hk. lia. }
  assert (forall r, (qj_ticket item, r) ∉ pl_completed p) as Hfresh.
  { intros r Hk. assert (NoDup (map qj_ticket (unfinished [] p) ++ (pl_completed p).*1)) as Hnd.
    { rewrite Htick. apply NoDup_seqZ. }
    apply NoDup_app in Hnd as (_ & Hdis & _). apply (Hdis (qj_ticket item)).
    - apply list_elem_of_fmap. by exists item.
    - apply list_elem_of_fmap. by exists (qj_ticket item, r). }
  assert (exists q status reason, status <> UNAVAILABLE /\ pl_queue p' = [] /\
    executing (pl_workers p') = executing (pl_workers p) /\
    (pl_stopping p = true \/ pl_generation p' = (pl_generation p + 1) mod 2 ^ 64) /\
    pl_generation p <= pl_generation p' /\ pl_completed q = pl_completed p /\
    pl_completed p' = pl_completed (drain_loop no_evidence status reason (pl_queue p) q))
    as (q & status & reason & Hne & Hq' & Hw' & Hg' & Hle & Hcq & Hc').
  { destruct (step_generation _ _ _ Hs) as [(Eg & Es & Ec)|(Ev & Es & Eg & Ew)].
    - assert (pl_stopping p = true) as Hstop by by apply Ec.
      destruct (fl_stopping p Hf Hstop) as [Hq _].
      exists p, CANCELLED, EmptyString. rewrite Hq.
      destruct ev; try done; inversion Hs; subst; unfold cancel_pending, stop; rewrite Hstop; cbn;
        (split_and!; [done|done|by rewrite ?executing_wake|by left|lia|done|done]).
    - assert (pl_generation p <= pl_generation p') by (rewrite Eg, Z.mod_small; lia).
      destruct ev; try done; inversion Hs; subst; unfold cancel_pending, stop in *; rewrite Es in *.
      + exists (next_generation p), CANCELLED, "emulation generation cancelled"%string.
        split_and!; try done; [apply drain_frame|by right].
      + exists (next_generation (set_stopping p)), CANCELLED, "worker pool shut down"%string.
        split_and!; try done; [apply drain_frame|by right]. }
  split.
  - lia.
  - rewrite Hq'. by intros x ?%elem_of_nil.
  - rewrite Hw'. intros x Hx _. destruct Hg' as [Hstop|Hg']; [specialize (Hst Hstop x Hx); lia|].
    specialize (Hi x Hx). rewrite Hg', Z.mod_small by lia. lia.
  - intros r Hk. rewrite Hc' in Hk. apply drain_loop_completed in Hk; [|by rewrite Hcq].
    rewrite Hcq in Hk. destruct Hk as [Hk|(x & _ & _ & Hx)]; [by destruct (Hfresh r)|by apply Hx].
  - by intros r ?%elem_of_nil.
Qed.

Lemma run_doomed worker_count max_queued_jobs t p ev p' t' q item :
  0 <= max_queued_jobs -> run (new_pool worker_count max_queued_jobs) t p ->
  step p ev p' -> changes_generation ev = true -> run p' t' q ->
  generation_changes (t ++ ev :: t') < 2 ^ 64 - 1 -> item ∈ unfinished [] p ->
  doomed (qj_ticket item) (delivered t') q /\ core (t ++ ev :: t') [] q.
Proof.
  intros Hm Hr Hs Hev Hr' Hlt Hin.
  assert (generation_changes t < 2 ^ 64 - 1 /\ generation_changes (t ++ [ev]) < 2 ^ 64 - 1) as [Hlt0 Hlt1].
  { rewrite (cons_middle ev t t'), app_assoc, generation_changes_app in Hlt.
    pose proof (generation_changes_nonneg t'). rewrite generation_changes_app in *.
    pose proof (generation_changes_nonneg [ev]). lia. }
  destruct (run_ok no_evidence _ _ _ _ Hm Hr) as [Hc Hf].
  pose proof (run_generations _ _ _ _ Hm Hr Hlt0) as Hg.
  pose proof (cancel_dooms t p ev p' item Hc Hf Hg Hs Hev Hlt1 Hin) as Hd.
  assert (run (new_pool worker_count max_queued_jobs) (t ++ [ev]) p') as Hr1 by by eapply run_snoc.
  enough (run (new_pool worker_count max_queued_jobs) (t ++ ev :: t') q /\
    doomed (qj_ticket item) (delivered t') q) as [Hrq Hdq].
  { split; [done|]. by destruct (run_ok no_evidence _ _ _ _ Hm Hrq). }
  clear Hs Hg Hc Hf. induction Hr' as [|t1 q1 ev1 r1 Hr' IH Hs1]; [done|].
  rewrite (cons_middle ev t (t1 ++ [ev1])), !app_assoc in *.
  rewrite (generation_changes_app _ [ev1]) in Hlt. pose proof (generation_changes_nonneg [ev1]).
  destruct IH as [Hrq Hdq]; [rewrite (cons_middle ev t t1), app_assoc; lia|].
  rewrite (cons_middle ev t t1), app_assoc in Hrq. split; [by eapply run_snoc|].
  destruct (run_ok no_evidence _ _ _ _ Hm Hrq) as [Hc Hf]. rewrite delivered_snoc.
  eapply step_doomed; [exact Hc|exact Hs1| |exact Hdq].
  destruct (step_generation _ _ _ Hs1) as [(-> & _)|(E & _ & -> & _)]; [lia|].
  pose proof (run_generations _ _ _ _ Hm Hrq ltac:(lia)) as [Hrange _ _].
  assert (generation_changes [ev1] = 1) as E1 by (unfold generation_changes; cbn; by rewrite E).
  rewrite Z.mod_small; lia.
Qed.

Lemma run_max worker_count max_queued_jobs t p :
  run (new_pool worker_count max_queued_jobs) t p -> pl_max_queued_jobs p = max_queued_jobs.
Proof. induction 1 as [|t q ev r _ IH Hs]; [done|]. rewrite <- IH. by apply step_max in Hs. Qed.

Lemma run_awake worker_count max_queued_jobs t p :
  0 <= max_queued_jobs -> run (new_pool worker_count max_queued_jobs) t p ->
  forallb notifies_worker t = true -> awake_enough p.
Proof.
  intros Hm. induction 1 as [|t q ev r Hr IH Hs]; intros Hn; [done|].
  rewrite forallb_app in Hn. apply andb_true_iff in Hn as [Hn He]. cbn in He.
  rewrite andb_true_r in He. destruct (run_ok no_evidence _ _ _ _ Hm Hr) as [_ Hf].
  eapply step_awake; try done. by apply IH.
Qed.

(** ** Theorems *)

(** C29: the books of the pool balance in every state.  Every ticket from the next to be
    delivered to the last assigned is in exactly one place: queued, executing, or with a
    result; the counters say how many are where; the workers that initialized are
    available or not; with a limit, the queue and the undelivered work stay within it;
    a stopped pool has an empty queue. *)
Theorem pool_accounts worker_count max_queued_jobs t p :
  0 <= max_queued_jobs -> run (new_pool worker_count max_queued_jobs) t p ->
  let s := stats p in
  map qj_ticket (pl_queue p) ++ map qj_ticket (executing (pl_workers p)) ++ (pl_completed p).*1 ≡ₚ
    seqZ (pl_next_delivery p) (ws_submitted s - ws_delivered s) /\
  pl_next_delivery p = ws_delivered s + 1 /\
  ws_submitted s = ws_settled s + pl_unsettled p /\
  pl_unsettled p = ws_queued s + ws_running s /\
  ws_settled s = ws_delivered s + ws_ready_in_order_or_later s /\
  ws_available_workers s + ws_unavailable_workers s = ws_initialized_workers s /\
  ws_initialized_workers s <= ws_requested_workers s /\
  (max_queued_jobs <> 0 ->
   ws_queued s <= max_queued_jobs /\
   ws_submitted s - ws_delivered s <= max_queued_jobs + ws_requested_workers s) /\
  (ws_stopping s = true -> ws_queued s = 0).
Proof.
  intros Hm Hr. destruct (run_ok no_evidence _ _ _ _ Hm Hr) as [Hc Hf]. cbn.
  assert (pl_max_queued_jobs p = max_queued_jobs) as Hmax by (eapply run_max; exact Hr).
  pose proof (co_tickets _ _ _ Hc) as Htick. pose proof (co_unsettled_count _ _ _ Hc) as Hu.
  pose proof (co_submitted_count _ _ _ Hc). pose proof (co_delivered_count _ _ _ Hc).
  pose proof (co_settled_count _ _ _ Hc). pose proof (fl_running p Hf) as Hrun.
  unfold unfinished in *. cbn in Htick, Hu. rewrite map_app, <- app_assoc in Htick.
  rewrite zlen_app in Hu.
  pose proof (Permutation_length Htick) as Hlen.
  rewrite ?length_app, ?length_map, ?length_fmap, ?length_seqZ in Hlen.
  pose proof (co_order _ _ _ Hc). pose proof (fl_starting p Hf) as Hst.
  pose proof (count_nonneg is_starting (pl_workers p)). pose proof (fl_threads p Hf).
  split_and!.
  - rewrite Htick. f_equiv; lia.
  - lia.
  - unfold zlen in *. lia.
  - lia.
  - lia.
  - apply (fl_available p Hf).
  - destruct (pl_constructing p); lia.
  - intros Hnz. rewrite <- Hmax in *. destruct (fl_pressure p Hf Hnz). lia.
  - intros Hs. destruct (fl_stopping p Hf Hs) as [Hq _]. rewrite Hq. done.
Qed.

(** C20: results are delivered once each, in ticket order.  The accepted submissions of a
    run carry the tickets 1, 2, ... in order, and so do the results that clients take;
    each result names the function of the job with its ticket, and a completed one is
    what the executor returned for that very job. *)
Theorem results_in_ticket_order worker_count max_queued_jobs t p :
  0 <= max_queued_jobs -> run (new_pool worker_count max_queued_jobs) t p ->
  (submitted t).*1 = seqZ 1 (zlen (submitted t)) /\
  map jr_ticket (delivered t) = seqZ 1 (zlen (delivered t)) /\
  zlen (delivered t) <= zlen (submitted t) /\
  Forall (honest t) (delivered t).
Proof.
  intros Hm Hr. destruct (run_ok no_evidence _ _ _ _ Hm Hr) as [[] _].
  assert (zlen (submitted t) = pl_next_ticket p - 1) as E1.
  { apply (f_equal length) in co_submitted. rewrite length_fmap, length_seqZ in co_submitted.
    unfold zlen. lia. }
  assert (zlen (delivered t) = pl_next_delivery p - 1) as E2.
  { apply (f_equal length) in co_delivered. rewrite length_map, length_seqZ in co_delivered.
    unfold zlen. lia. }
  rewrite E1, E2. split_and!; [done|done|lia|done].
Qed.

(** C6: accepted jobs settle and shutdown joins.  From any state after the constructor in
    which no submission has woken a waiting client, the threads can make only a bounded
    number of steps before they come to rest or something else happens; where they are at
    rest every accepted job is settled, every thread of a stopped pool has left, and a
    client that takes what is ready gets the results of all remaining tickets in order. *)
Theorem pool_settles worker_count max_queued_jobs t p :
  0 <= max_queued_jobs -> run (new_pool worker_count max_queued_jobs) t p ->
  forallb notifies_worker t = true -> pl_constructing p = false ->
  (forall t' p', worker_run p t' p' -> zlen t' <= measure p) /\
  (exists t' p', worker_run p t' p' /\ finished p') /\
  (forall t' p', worker_run p t' p' ->
     (forall ev q, worker_event ev = true -> ~ step p' ev q) ->
     finished p' /\
     map jr_ticket (fst (take_ready 0 p')) =
       seqZ (pl_next_delivery p') (pl_next_ticket p' - pl_next_delivery p')).
Proof.
  intros Hm Hr Hn Hc. assert (sound p) as Hp.
  { destruct (run_ok no_evidence _ _ _ _ Hm Hr). split_and!; [by exists t|done| |done].
    by eapply run_awake. }
  split_and!.
  - intros t' p' Hw. destruct (worker_run_sound _ _ _ Hp Hw). pose proof (measure_nonneg p'). lia.
  - by apply finishes.
  - intros t' p' Hw Hstuck. destruct (worker_run_sound _ _ _ Hp Hw) as [([t0 Hc0] & Hf & Ha & Hcon) _].
    assert (finished p') as Hfin.
    { pose proof (progress t0 p' Hc0 Hf Ha Hcon) as Hprog.
      split; [destruct (idle p') eqn:E|intros Hs; destruct (joined p') eqn:E]; try done; exfalso.
      - destruct Hprog as (ev & q & He & Hs); [by left|by apply (Hstuck ev q)].
      - destruct Hprog as (ev & q & He & Hs'); [by right|by apply (Hstuck ev q)]. }
    split; [done|]. unfold take_ready.
    destruct (take_ready_loop _ 0 [] p') as [results q] eqn:E.
    apply (take_loop_all _ t0) in E; [|done|apply (unsettled_none t0); [done|apply Hfin]|lia].
    by destruct results.
Qed.

(** C30: a cancellation reaches every pending job.  Whatever clients and threads do
    afterwards, a job that was queued or executing when the pool was cancelled or stopped
    has no other result than a cancelled one, whether it is still to be taken or was
    taken later, as long as the 64-bit generation has not come round. *)
Theorem cancellation_reaches_pending worker_count max_queued_jobs t p ev p' t' q item r :
  0 <= max_queued_jobs -> run (new_pool worker_count max_queued_jobs) t p ->
  step p ev p' -> changes_generation ev = true -> run p' t' q ->
  generation_changes (t ++ ev :: t') < 2 ^ 64 - 1 ->
  item ∈ unfinished [] p ->
  r ∈ delivered t' \/ r ∈ (pl_completed q).*2 -> jr_ticket r = qj_ticket item ->
  jr_status r = CANCELLED.
Proof.
  intros Hm Hr Hs Hev Hr' Hlt Hin Hres Hk.
  assert (doomed (qj_ticket item) (delivered t') q /\ core (t ++ ev :: t') [] q) as [Hd Hc]
    by by eapply run_doomed.
  destruct Hres as [Hres|Hres]; [by apply (do_delivered _ _ _ Hd)|].
  apply list_elem_of_fmap in Hres as ([k x] & -> & Hres). cbn in *.
  destruct (co_completed _ _ _ Hc _ _ Hres) as [E _].
  apply (do_completed _ _ _ Hd). by rewrite <- Hk, E.
Qed.

End Runs.

(** ** A concrete run *)

(** One worker, no limit: it starts, and a client submits a job. *)
Definition sample_made : InitOutcome := ExecutorMade true (Reason EmptyString) true.

Definition sample_item : QueuedJob :=
  {| qj_ticket := 1; qj_generation := 1; qj_job := sample_job false 5 |}.

Definition sample_outcome : ExecuteOutcome (Evidence := unit) :=
  Returned {| jr_ticket := 0; jr_function_start := 0; jr_status := COMPLETED;
              jr_diagnostic := EmptyString; jr_evidence := tt |}.

Definition sample_started : Pool (Evidence := unit) :=
  worker_init tt 0 sample_made (set_constructing false (set_workers [Starting] (new_pool 1 0))).

Definition sample_submit (woken : Woken) (p : Pool (Evidence := unit)) : Pool :=
  match try_submit tt (sample_job false 5) woken p with Some (_, p) => p | None => p end.

Definition sample_executing : Pool := worker_turn 0 (sample_submit WakesNobody sample_started).

Definition sample_start : list (Event (Evidence := unit)) :=
  [Ev_Spawn; Ev_Constructed; Ev_Init 0 sample_made].

Definition sample_trace : list (Event (Evidence := unit)) :=
  sample_start ++ [Ev_Submit (sample_job false 5) WakesNobody (Some 1); Ev_Turn 0].

Ltac next_step := eapply run_cons; [econstructor; vm_compute; reflexivity|].

Lemma sample_start_run : run tt (new_pool 1 0) sample_start sample_started.
Proof. do 3 next_step. constructor. Qed.

Lemma sample_run : run tt (new_pool 1 0) sample_trace sample_executing.
Proof. do 5 next_step. constructor. Qed.

Lemma pool_accounts_witness :
  run tt (new_pool 1 0) sample_trace sample_executing /\
  ws_submitted (stats sample_executing) =
    ws_settled (stats sample_executing) + pl_unsettled sample_executing /\
  stats sample_executing =
    {| ws_requested_workers := 1; ws_initialized_workers := 1; ws_available_workers := 1;
       ws_unavailable_workers := 0; ws_submitted := 1; ws_settled := 0; ws_delivered := 0;
       ws_queued := 0; ws_running := 1; ws_ready_in_order_or_later := 0; ws_stopping := false |}.
Proof.
  split; [exact sample_run|]. split; [|by vm_compute].
  apply (pool_accounts tt 1 0 sample_trace sample_executing); [done|exact sample_run].
Defined.

(** The job is executed and its result taken. *)
Definition sample_finished : Pool := worker_finish tt 0 sample_item sample_outcome sample_executing.

Definition sample_result : EmulationJobResult (Evidence := unit) :=
  {| jr_ticket := 1; jr_function_start := 0x1000; jr_status := COMPLETED;
     jr_diagnostic := EmptyString; jr_evidence := tt |}.

Definition sample_whole : list (Event (Evidence := unit)) :=
  sample_trace ++ [Ev_Finish 0 sample_item sample_outcome; Ev_TakeNext (Some sample_result)].

Lemma sample_whole_run :
  run tt (new_pool 1 0) sample_whole (snd (try_take_next sample_finished)).
Proof.
  do 7 next_step. constructor.
Qed.

Lemma results_in_ticket_order_witness :
  run tt (new_pool 1 0) sample_whole (snd (try_take_next sample_finished)) /\
  delivered sample_whole = [sample_result] /\ Forall (honest sample_whole) (delivered sample_whole).
Proof.
  split; [exact sample_whole_run|]. split; [done|].
  apply (results_in_ticket_order tt 1 0 sample_whole (snd (try_take_next sample_finished)));
    [done|exact sample_whole_run].
Defined.

Lemma pool_settles_witness :
  run tt (new_pool 1 0) sample_trace sample_executing /\ measure sample_executing = 2 /\
  exists t' p', worker_run tt sample_executing t' p' /\ finished p'.
Proof.
  split; [exact sample_run|]. split; [by vm_compute|].
  apply (pool_settles tt 1 0 sample_trace sample_executing); [done|exact sample_run|done|done].
Defined.

(** The job is cancelled while it executes: the completed execution counts as cancelled. *)
Definition sample_cancelled : EmulationJobResult (Evidence := unit) :=
  {| jr_ticket := 1; jr_function_start := 0x1000; jr_status := CANCELLED;
     jr_diagnostic := "emulation generation cancelled"; jr_evidence := tt |}.

Definition sample_after : list (Event (Evidence := unit)) :=
  [Ev_Finish 0 sample_item sample_outcome; Ev_TakeNext (Some sample_cancelled)].

Lemma sample_after_run :
  run tt (cancel_pending tt sample_executing) sample_after
    (snd (try_take_next
       (worker_finish tt 0 sample_item sample_outcome (cancel_pending tt sample_executing)))).
Proof. do 2 next_step. constructor. Qed.

Lemma cancellation_reaches_pending_witness :
  run tt (new_pool 1 0) sample_trace sample_executing /\
  sample_cancelled ∈ delivered sample_after /\ jr_status sample_cancelled = CANCELLED.
Proof.
  split; [exact sample_run|]. assert (sample_cancelled ∈ delivered sample_after) as Hin by (left).
  split; [exact Hin|].
  apply (cancellation_reaches_pending tt 1 0 sample_trace sample_executing Ev_Cancel
    (cancel_pending tt sample_executing) sample_after
    (snd (try_take_next
       (worker_finish tt 0 sample_item sample_outcome (cancel_pending tt sample_executing))))
    sample_item sample_cancelled);
    [done|exact sample_run|by constructor|done|exact sample_after_run|by vm_compute|by left|by left|done].
Defined.

(** A submission notifies one waiter of the condition variable that workers and waiting
    clients share.  When it wakes a client of another thread, the job stays in the queue
    with the only worker asleep: no thread of the pool can make a step. *)
Definition sample_stolen : Pool :=
  sample_submit WakesClient (set_waiting_clients 1 (worker_turn 0 sample_started)).

Example lost_wakeup :
  run tt (new_pool 1 0)
    (sample_start ++ [Ev_Turn 0; Ev_ClientWaits; Ev_Submit (sample_job false 5) WakesClient (Some 1)])
    sample_stolen /\
  idle sample_stolen = false /\
  forall ev q, worker_event ev = true -> ~ step tt sample_stolen ev q.
Proof.
  split; [|split; [done|]].
  - do 6 next_step. constructor.
  - assert (forall i w, pl_workers sample_stolen !! i = Some w -> w = Asleep) as Hw.
    { intros [|[|i]] w Hi; vm_compute in Hi; by simplify_eq. }
    intros ev q Hev Hs. inversion Hs; subst; try done;
      match goal with H : pl_workers _ !! _ = Some _ |- _ => by apply Hw in H end.
Qed.
