(* ===== verification/EmuEvents.v ===== *)
(** * The events of emulation runs (emu_driver.hpp, emu_driver.cpp)

    A run of the emulator leaves a log: control transfers, executed instructions, memory
    accesses, register states and the final bytes of written ranges.  Logs of several
    runs are merged and normalized.  The theorem says that normalization computes a
    canonical form of the set of observations, so the order in which runs are merged,
    and merging one twice, cannot be seen. *)
From stdpp Require Import base numbers list strings option sets gmap.
From Stdlib Require Import ZArith Init.Byte Sorting.Sorted Lia.
From S2P Require Import Prelude OrderedMap Loops RuntimeWrites.

(** ** Data *)

Record RegisterValue : Type := {
  rv_reg : Z;
  rv_value : Z;
  rv_width : Z
}.

Record StatePoint : Type := {
  sp_source : Z;
  sp_pc : Z;
  sp_regs : list RegisterValue;
  sp_run_id : Z;
  sp_seed : Z
}.

(** [exec_pcs] is an unordered set. *)
Record EmuEvents : Type := {
  ee_edges : list ExecEdge;
  ee_execution : list ExecPoint;
  ee_data : list DataAcc;
  ee_states : list StatePoint;
  ee_final_writes : list MemoryBytes;
  ee_exec_pcs : gset Z
}.

Definition no_events : EmuEvents := {|
  ee_edges := []; ee_execution := []; ee_data := []; ee_states := [];
  ee_final_writes := []; ee_exec_pcs := ∅ |}.

(** The summary of one run. *)
Record EmuOutcome : Type := {
  oc_stop_reason : Z;
  oc_stop_pc : Z;
  oc_stop_valid : bool;
  oc_instruction_count : Z;
  oc_returned : bool;
  oc_sp_valid : bool;
  oc_sp_delta : Z;
  oc_terminated_process : bool;
  oc_summarized_calls : Z
}.

#[export] Instance ExecEdgeKind_eq_dec : EqDecision ExecEdgeKind.
Proof. solve_decision. Defined.
#[export] Instance ExecEdge_eq_dec : EqDecision ExecEdge.
Proof. solve_decision. Defined.
#[export] Instance ExecPoint_eq_dec : EqDecision ExecPoint.
Proof. solve_decision. Defined.
#[export] Instance DataAcc_eq_dec : EqDecision DataAcc.
Proof. solve_decision. Defined.
#[export] Instance RegisterValue_eq_dec : EqDecision RegisterValue.
Proof. solve_decision. Defined.
#[export] Instance StatePoint_eq_dec : EqDecision StatePoint.
Proof. solve_decision. Defined.
#[export] Instance MemoryBytes_eq_dec : EqDecision MemoryBytes.
Proof. solve_decision. Defined.

Definition exec_edge_kind_value (kind : ExecEdgeKind) : Z :=
  match kind with
  | ExecEdge_Unknown => 0 | ExecEdge_Call => 1 | ExecEdge_Jump => 2 | ExecEdge_Return => 3
  end.

(** ** Merging

    A log merged with itself is copied first, so the value is the same. *)

Definition merge_from (this other : EmuEvents) : EmuEvents := {|
  ee_edges := ee_edges this ++ ee_edges other;
  ee_execution := ee_execution this ++ ee_execution other;
  ee_data := ee_data this ++ ee_data other;
  ee_states := ee_states this ++ ee_states other;
  ee_final_writes := ee_final_writes this ++ ee_final_writes other;
  ee_exec_pcs := ee_exec_pcs this ∪ ee_exec_pcs other |}.

(** ** The comparators of [normalize] *)

Definition exec_edge_key (e : ExecEdge) : Z * (Z * (Z * (Z * (Z * Z)))) :=
  (edge_run_id e, (edge_seed e, (edge_sequence e,
    (edge_from e, (edge_to e, exec_edge_kind_value (edge_kind e)))))).

Definition edge_lt (a b : ExecEdge) : bool :=
  pair_lt Z.ltb (pair_lt Z.ltb (pair_lt Z.ltb (pair_lt Z.ltb (pair_lt Z.ltb Z.ltb))))
    (exec_edge_key a) (exec_edge_key b).

Definition edge_same (a b : ExecEdge) : bool :=
  (edge_run_id a =? edge_run_id b) && (edge_seed a =? edge_seed b) &&
  (edge_sequence a =? edge_sequence b) && (edge_from a =? edge_from b) &&
  (edge_to a =? edge_to b) && bool_decide (edge_kind a = edge_kind b).

Definition point_key (p : ExecPoint) : Z * (Z * (Z * Z)) :=
  (pt_run_id p, (pt_seed p, (pt_sequence p, pt_pc p))).

Definition point_lt (a b : ExecPoint) : bool :=
  pair_lt Z.ltb (pair_lt Z.ltb (pair_lt Z.ltb Z.ltb)) (point_key a) (point_key b).

Definition point_same (a b : ExecPoint) : bool :=
  (pt_run_id a =? pt_run_id b) && (pt_seed a =? pt_seed b) &&
  (pt_sequence a =? pt_sequence b) && (pt_pc a =? pt_pc b).

Definition access_key (a : DataAcc) : Z * (Z * (Z * (Z * (Z * (Z * (Z * (Z * Z))))))) :=
  (acc_run_id a, (acc_seed a, (acc_sequence a, (acc_from a, (acc_addr a,
    (acc_kind a, (acc_size a, (acc_value a, scope_value (acc_scope a))))))))).

Definition access_lt (a b : DataAcc) : bool :=
  pair_lt Z.ltb (pair_lt Z.ltb (pair_lt Z.ltb (pair_lt Z.ltb (pair_lt Z.ltb
    (pair_lt Z.ltb (pair_lt Z.ltb (pair_lt Z.ltb Z.ltb))))))) (access_key a) (access_key b).

Definition access_same (a b : DataAcc) : bool :=
  (acc_run_id a =? acc_run_id b) && (acc_seed a =? acc_seed b) &&
  (acc_sequence a =? acc_sequence b) && (acc_from a =? acc_from b) &&
  (acc_addr a =? acc_addr b) && (acc_kind a =? acc_kind b) && (acc_size a =? acc_size b) &&
  (acc_value a =? acc_value b) && bool_decide (acc_scope a = acc_scope b).

(** Registers of one state are ordered by register, width and value. *)
Definition register_lt (a b : RegisterValue) : bool :=
  pair_lt Z.ltb (pair_lt Z.ltb Z.ltb)
    (rv_reg a, (rv_width a, rv_value a)) (rv_reg b, (rv_width b, rv_value b)).

Definition register_same (a b : RegisterValue) : bool :=
  (rv_reg a =? rv_reg b) && (rv_width a =? rv_width b) && (rv_value a =? rv_value b).

Definition normalize_state (state : StatePoint) : StatePoint := {|
  sp_source := sp_source state; sp_pc := sp_pc state;
  sp_regs := std_unique register_same (std_sort register_lt (sp_regs state));
  sp_run_id := sp_run_id state; sp_seed := sp_seed state |}.

(** The lists of registers of two states are compared by register, value and width. *)
Definition regs_less : list RegisterValue -> list RegisterValue -> bool :=
  list_lt (fun x y => pair_lt Z.ltb (pair_lt Z.ltb Z.ltb)
    (rv_reg x, (rv_value x, rv_width x)) (rv_reg y, (rv_value y, rv_width y))).

Definition state_key (s : StatePoint) : Z * (Z * (Z * Z)) :=
  (sp_run_id s, (sp_source s, (sp_pc s, sp_seed s))).

Definition state_lt (a b : StatePoint) : bool :=
  pair_lt (pair_lt Z.ltb (pair_lt Z.ltb (pair_lt Z.ltb Z.ltb))) regs_less
    (state_key a, sp_regs a) (state_key b, sp_regs b).

Fixpoint registers_same (a b : list RegisterValue) : bool :=
  match a, b with
  | [], [] => true
  | x :: a, y :: b =>
      (rv_reg x =? rv_reg y) && (rv_value x =? rv_value y) && (rv_width x =? rv_width y) &&
      registers_same a b
  | _, _ => false
  end.

Definition state_same (a b : StatePoint) : bool :=
  (sp_run_id a =? sp_run_id b) && (sp_source a =? sp_source b) && (sp_pc a =? sp_pc b) &&
  (sp_seed a =? sp_seed b) && registers_same (sp_regs a) (sp_regs b).

Definition memory_key (m : MemoryBytes) : Z * (Z * (Z * (Z * bytes))) :=
  (mb_run_id m, (mb_seed m, (mb_addr m, (scope_value (mb_scope m), mb_bytes m)))).

Definition memory_lt (a b : MemoryBytes) : bool :=
  pair_lt Z.ltb (pair_lt Z.ltb (pair_lt Z.ltb (pair_lt Z.ltb bytes_lt)))
    (memory_key a) (memory_key b).

Definition memory_same (a b : MemoryBytes) : bool :=
  (mb_run_id a =? mb_run_id b) && (mb_addr a =? mb_addr b) && (mb_seed a =? mb_seed b) &&
  bool_decide (mb_scope a = mb_scope b) && bool_decide (mb_bytes a = mb_bytes b).

Definition normalize (e : EmuEvents) : EmuEvents := {|
  ee_edges := std_unique edge_same (std_sort edge_lt (ee_edges e));
  ee_execution := std_unique point_same (std_sort point_lt (ee_execution e));
  ee_data := std_unique access_same (std_sort access_lt (ee_data e));
  ee_states := std_unique state_same (std_sort state_lt (map normalize_state (ee_states e)));
  ee_final_writes := std_unique memory_same (std_sort memory_lt (ee_final_writes e));
  ee_exec_pcs := ee_exec_pcs e |}.

(** The logs of several runs, merged one by one. *)
Definition merge_all (logs : list EmuEvents) : EmuEvents := foldl merge_from no_events logs.

(** ** The comparators are total orders *)

Lemma edge_key_inj a b : exec_edge_key a = exec_edge_key b -> a = b.
Proof. destruct a as [f t r s k q], b as [f' t' r' s' k' q'], k, k'; cbn; intros; simplify_eq; done. Qed.

Lemma point_key_inj a b : point_key a = point_key b -> a = b.
Proof. destruct a, b; cbn; intros; by simplify_eq. Qed.

Lemma access_key_inj a b : access_key a = access_key b -> a = b.
Proof.
  destruct a as [? ? ? ? ? sc ? ? ?], b as [? ? ? ? ? sc' ? ? ?], sc, sc'; cbn; intros;
    by simplify_eq.
Qed.

Lemma memory_key_inj a b : memory_key a = memory_key b -> a = b.
Proof. destruct a as [? ? sc ? ?], b as [? ? sc' ? ?], sc, sc'; cbn; intros; by simplify_eq. Qed.

#[export] Instance edge_lt_total : StrictTotal edge_lt.
Proof. exact (StrictTotal_inj _ exec_edge_key edge_key_inj). Qed.
#[export] Instance point_lt_total : StrictTotal point_lt.
Proof. exact (StrictTotal_inj _ point_key point_key_inj). Qed.
#[export] Instance access_lt_total : StrictTotal access_lt.
Proof. exact (StrictTotal_inj _ access_key access_key_inj). Qed.
#[export] Instance memory_lt_total : StrictTotal memory_lt.
Proof. exact (StrictTotal_inj _ memory_key memory_key_inj). Qed.

#[export] Instance register_lt_total : StrictTotal register_lt.
Proof.
  apply (StrictTotal_inj (pair_lt Z.ltb (pair_lt Z.ltb Z.ltb))
    (fun r => (rv_reg r, (rv_width r, rv_value r)))).
  intros [] []; cbn; intros; by simplify_eq.
Qed.

#[export] Instance regs_less_total : StrictTotal regs_less.
Proof.
  apply list_lt_total. apply (StrictTotal_inj (pair_lt Z.ltb (pair_lt Z.ltb Z.ltb))
    (fun r => (rv_reg r, (rv_value r, rv_width r)))).
  intros [] []; cbn; intros; by simplify_eq.
Qed.

#[export] Instance state_lt_total : StrictTotal state_lt.
Proof.
  apply (StrictTotal_inj (pair_lt (pair_lt Z.ltb (pair_lt Z.ltb (pair_lt Z.ltb Z.ltb))) regs_less)
    (fun s => (state_key s, sp_regs s))).
  intros [] []; cbn; intros; by simplify_eq.
Qed.

(** ** The equalities are equality *)

#[local] Ltac same_is_equal :=
  rewrite ?andb_true_iff, ?Z.eqb_eq, ?bool_decide_eq_true;
  split; [intros H; decompose [and] H; by subst|intros H; injection H; intros; subst; tauto].

Lemma edge_same_spec a b : edge_same a b = true <-> a = b.
Proof. destruct a, b. unfold edge_same. cbn. same_is_equal. Qed.

Lemma point_same_spec a b : point_same a b = true <-> a = b.
Proof. destruct a, b. unfold point_same. cbn. same_is_equal. Qed.

Lemma access_same_spec a b : access_same a b = true <-> a = b.
Proof. destruct a, b. unfold access_same. cbn. same_is_equal. Qed.

Lemma register_same_spec a b : register_same a b = true <-> a = b.
Proof. destruct a, b. unfold register_same. cbn. same_is_equal. Qed.

Lemma memory_same_spec a b : memory_same a b = true <-> a = b.
Proof. destruct a, b. unfold memory_same. cbn. same_is_equal. Qed.

Lemma registers_same_spec a b : registers_same a b = true <-> a = b.
Proof.
  revert b. induction a as [|[] a IH]; intros [|[] b]; cbn; try done.
  rewrite !andb_true_iff, !Z.eqb_eq, IH. naive_solver.
Qed.

Lemma state_same_spec a b : state_same a b = true <-> a = b.
Proof.
  destruct a, b. unfold state_same. cbn.
  rewrite !andb_true_iff, !Z.eqb_eq, registers_same_spec. naive_solver.
Qed.

(** ** Canonical form *)

Lemma elem_of_merge_all {A} (field : EmuEvents -> list A) logs x :
  field no_events = [] ->
  (forall a b, field (merge_from a b) = field a ++ field b) ->
  x ∈ field (merge_all logs) <-> exists log, log ∈ logs /\ x ∈ field log.
Proof.
  intros H0 Hm. unfold merge_all.
  assert (forall start, x ∈ field (foldl merge_from start logs) <->
    x ∈ field start \/ exists log, log ∈ logs /\ x ∈ field log) as H.
  { induction logs as [|log logs IH]; intros start; cbn; [set_solver|].
    rewrite IH, Hm. set_solver. }
  rewrite H, H0. set_solver.
Qed.

Lemma exec_pcs_merge_all logs x :
  x ∈ ee_exec_pcs (merge_all logs) <-> exists log, log ∈ logs /\ x ∈ ee_exec_pcs log.
Proof.
  unfold merge_all.
  assert (forall start, x ∈ ee_exec_pcs (foldl merge_from start logs) <->
    x ∈ ee_exec_pcs start \/ exists log, log ∈ logs /\ x ∈ ee_exec_pcs log) as H.
  { induction logs as [|log logs IH]; intros start; cbn; [set_solver|]. rewrite IH. set_solver. }
  rewrite H. set_solver.
Qed.

#[local] Arguments std_unique : simpl never.
#[local] Arguments std_sort : simpl never.
#[local] Arguments normalize_state : simpl never.

(** Normalization gives the set of observations in canonical form.  The lists of a
    merged and normalized log are strictly sorted, their elements are exactly those of
    the merged logs, states with their registers as a sorted set, and so the result
    depends neither on the order in which logs are merged nor on how often. *)
Theorem event_logs_canonical logs :
  let e := normalize (merge_all logs) in
  StrictSorted edge_lt (ee_edges e) /\ StrictSorted point_lt (ee_execution e) /\
  StrictSorted access_lt (ee_data e) /\ StrictSorted state_lt (ee_states e) /\
  StrictSorted memory_lt (ee_final_writes e) /\
  (forall x, x ∈ ee_edges e <-> exists log, log ∈ logs /\ x ∈ ee_edges log) /\
  (forall x, x ∈ ee_execution e <-> exists log, log ∈ logs /\ x ∈ ee_execution log) /\
  (forall x, x ∈ ee_data e <-> exists log, log ∈ logs /\ x ∈ ee_data log) /\
  (forall x, x ∈ ee_states e <->
     exists log s, log ∈ logs /\ s ∈ ee_states log /\ x = normalize_state s) /\
  (forall x, x ∈ ee_final_writes e <-> exists log, log ∈ logs /\ x ∈ ee_final_writes log) /\
  (forall x, x ∈ ee_exec_pcs e <-> exists log, log ∈ logs /\ x ∈ ee_exec_pcs log) /\
  (forall s, StrictSorted register_lt (sp_regs (normalize_state s)) /\
     forall r, r ∈ sp_regs (normalize_state s) <-> r ∈ sp_regs s) /\
  forall logs', (forall log, log ∈ logs' <-> log ∈ logs) -> normalize (merge_all logs') = e.
Proof.
  pose proof edge_same_spec. pose proof point_same_spec. pose proof access_same_spec.
  pose proof state_same_spec. pose proof memory_same_spec. pose proof register_same_spec.
  assert (forall l x, x ∈ map normalize_state (ee_states (merge_all l)) <->
    exists log s, log ∈ l /\ s ∈ ee_states log /\ x = normalize_state s) as Hst.
  { intros l x. rewrite list_elem_of_fmap. setoid_rewrite elem_of_merge_all; [|done..]. naive_solver. }
  intros e. subst e. split_and!; cbn.
  1-5: apply sort_unique_strict; solve [assumption|typeclasses eauto].
  1-3,5: intros x; rewrite elem_of_sort_unique by (assumption || typeclasses eauto); by apply elem_of_merge_all.
  - intros x. rewrite elem_of_sort_unique by (assumption || typeclasses eauto). apply Hst.
  - apply exec_pcs_merge_all.
  - intros s. split; [apply sort_unique_strict; solve [assumption|typeclasses eauto]|]. intros r. apply elem_of_sort_unique; solve [assumption|typeclasses eauto].
  - intros logs' Hl. unfold normalize. f_equal.
    1-3,5: apply sort_unique_ext; [typeclasses eauto|assumption|]; intros x; rewrite !elem_of_merge_all by done;
      by setoid_rewrite Hl.
    + apply sort_unique_ext; [typeclasses eauto|assumption|]. intros x. rewrite !Hst. by setoid_rewrite Hl.
    + apply set_eq. intros x. rewrite !exec_pcs_merge_all. by setoid_rewrite Hl.
Qed.
