(* ===== verification/EvidenceBridge.v ===== *)
(** * From emulation events to evidence (evidence_bridge.hpp, evidence_bridge.cpp)

    [viy_record_emulation_evidence] turns the events of a function's runs into facts and
    adds them to the evidence store.  [observed] says declaratively which facts a log
    supports; the theorems say that the store gains exactly those, that none of them is
    rejected when the function has an extent, and that all of them are when it has none. *)
From stdpp Require Import base numbers list strings option sets pretty.
From Stdlib Require Import ZArith Init.Byte Sorting.Sorted Lia.
From S2P Require Import Prelude OrderedMap Ledger FactTypes Sha256 Validate FactCodec Store.
From S2P Require Import ProgramModel RuntimeWrites AbiPolicy EmuEvents.

(** ** The codes of the emulator *)

Record RaxCodes : Type := {
  RAX_MEM_READ : Z;
  RAX_MEM_WRITE : Z;
  RAX_MEM_FETCH : Z;
  RAX_STOP_UNTIL : Z;
  RAX_STOP_HLT : Z;
  RAX_STOP_SHUTDOWN : Z;
  RAX_STOP_TIMEOUT : Z;
  RAX_STOP_COUNT : Z;
  RAX_STOP_EXCEPTION : Z
}.

(** The registers that are named in evidence, besides those of [RaxRegisters]. *)
Record RaxRegisterNames : Type := {
  RAX_X86_GPR64 : Z -> Z;
  RAX_X86_GPR32 : Z -> Z;
  RAX_X86_REG_RIP : Z;
  RAX_X86_REG_EIP : Z;
  RAX_ARM64_REG_SP : Z;
  RAX_ARM64_REG_PC : Z;
  RAX_ARM_REG_SP : Z;
  RAX_ARM_REG_LR : Z;
  RAX_ARM_REG_PC : Z;
  RAX_REG_SP : Z;
  RAX_CM_REG_LR : Z;
  RAX_CM_REG_PC : Z;
  RAX_RISCV_REG_PC : Z;
  RAX_HEX_REG_PC : Z
}.

Record ObservedOutcome : Type := {
  ob_outcome : EmuOutcome;
  ob_run_id : Z;
  ob_seed : Z
}.

Record EvidenceBridgeStats : Type := {
  eb_inserted_records : Z;
  eb_added_observations : Z;
  eb_duplicates : Z;
  eb_rejected : Z
}.

Definition no_stats : EvidenceBridgeStats :=
  {| eb_inserted_records := 0; eb_added_observations := 0; eb_duplicates := 0; eb_rejected := 0 |}.

(** ** Evidence *)

Definition function_extent (function : FuncRange) : Z :=
  foldl (fun end_ chunk => Z.max end_ (ch_end chunk)) (fr_end function) (fr_chunks function).

Definition make_evidence (function : FuncRange) (run_id seed : Z) (method : string)
    (support : list Address) : Evidence := {|
  ev_producer := "viy.rax.emulator";
  ev_method := method;
  ev_proof := ProofKind_Observed;
  ev_confidence := 8500;
  ev_scope := {|
    sc_run_id := Some run_id; sc_seed := Some seed;
    sc_function_start := Some (fr_start function);
    sc_function_end := Some (function_extent function);
    sc_generation := fr_generation function |};
  ev_support_addresses := support;
  ev_detail := EmptyString |}.

Definition bridge_account (stats : EvidenceBridgeStats) (result : AddResult) : EvidenceBridgeStats :=
  let count inserted added duplicate rejected := {|
    eb_inserted_records := eb_inserted_records stats + inserted;
    eb_added_observations := eb_added_observations stats + added;
    eb_duplicates := eb_duplicates stats + duplicate;
    eb_rejected := eb_rejected stats + rejected |} in
  match ar_disposition result with
  | AddDisposition_InsertedRecord => count 1 0 0 0
  | AddDisposition_AddedObservation => count 0 1 0 0
  | AddDisposition_DuplicateObservation => count 0 0 1 0
  | AddDisposition_RejectedInvalid => count 0 0 0 1
  end.

(** [account(stats, store.add(fact))] *)
Definition offer (fact : AnalysisFact) (st : EvidenceBridgeStats * EvidenceStore) :
    EvidenceBridgeStats * EvidenceStore :=
  let '(result, store) := add fact st.2 in (bridge_account st.1 result, store).

Definition scalar_bytes (value size : Z) (big_endian_memory : bool) : bytes :=
  let n := Z.min size 8 in
  map (fun i => z2b (Z.shiftr value (8 * (if big_endian_memory then n - 1 - i else i)))) (seqZ 0 n).

Definition target_kind (kind : ExecEdgeKind) : CodeTargetKind :=
  match kind with
  | ExecEdge_Call => CodeTargetKind_Call
  | ExecEdge_Jump => CodeTargetKind_Jump
  | ExecEdge_Return => CodeTargetKind_Return
  | ExecEdge_Unknown => CodeTargetKind_Unknown
  end.

Definition bridge_cfg_kind (kind : ExecEdgeKind) : CfgEdgeKind :=
  match kind with
  | ExecEdge_Call => CfgEdgeKind_Call
  | ExecEdge_Return => CfgEdgeKind_Return
  | ExecEdge_Jump => CfgEdgeKind_Indirect
  | ExecEdge_Unknown => CfgEdgeKind_Unknown
  end.

Definition valid_image_range (img : ProgramImage) (address size : Z) : bool :=
  if (size =? 0) || (u64_max - address <? size) then false
  else
    let end_ := address + size in
    existsb (fun segment =>
      (sg_start segment <=? address) && (address <? sg_end segment) && (end_ <=? sg_end segment))
      (im_segs img).

(** ** Register names *)

Definition x86_64_names : list string :=
  ["rax"; "rcx"; "rdx"; "rbx"; "rsp"; "rbp"; "rsi"; "rdi";
   "r8"; "r9"; "r10"; "r11"; "r12"; "r13"; "r14"; "r15"]%string.

Definition x86_32_names : list string :=
  ["eax"; "ecx"; "edx"; "ebx"; "esp"; "ebp"; "esi"; "edi"]%string.

(** The test [reg >= first && reg <= last] of the register macros. *)
Definition between (first reg last : Z) : bool := (first <=? reg) && (reg <=? last).

Definition name_at (names : list string) (index : Z) : string :=
  default EmptyString (names !! Z.to_nat index).

(** [std::to_string] of an [int]. *)
Definition to_string (value : Z) : string := pretty value.

Section Names.
Context (names : RaxRegisterNames) (rax : RaxRegisters).

(** The name of a register that an architecture knows; [None] falls out of the switch. *)
Definition known_register (arch : ViyArch) (reg : Z) : option string :=
  match arch with
  | X86_64 =>
      if between (RAX_X86_GPR64 names 0) reg (RAX_X86_GPR64 names 15)
      then Some ("x86:" +:+ name_at x86_64_names (reg - RAX_X86_GPR64 names 0))
      else if reg =? RAX_X86_REG_RIP names then Some "x86:rip"%string else None
  | X86_32 =>
      if between (RAX_X86_GPR32 names 0) reg (RAX_X86_GPR32 names 7)
      then Some ("x86:" +:+ name_at x86_32_names (reg - RAX_X86_GPR32 names 0))
      else if reg =? RAX_X86_REG_EIP names then Some "x86:eip"%string else None
  | ARM64 =>
      if between (RAX_ARM64_X rax 0) reg (RAX_ARM64_X rax 30)
      then Some ("arm64:x" +:+ to_string (reg - RAX_ARM64_X rax 0))
      else if reg =? RAX_ARM64_REG_SP names then Some "arm64:sp"%string
      else if reg =? RAX_ARM64_REG_PC names then Some "arm64:pc"%string else None
  | ARM32 =>
      if between (RAX_ARM_R rax 0) reg (RAX_ARM_R rax 12)
      then Some ("arm:r" +:+ to_string (reg - RAX_ARM_R rax 0))
      else if reg =? RAX_ARM_REG_SP names then Some "arm:sp"%string
      else if reg =? RAX_ARM_REG_LR names then Some "arm:lr"%string
      else if reg =? RAX_ARM_REG_PC names then Some "arm:pc"%string else None
  | CORTEX_M =>
      if between (RAX_CM_R rax 0) reg (RAX_CM_R rax 12)
      then Some ("cortexm:r" +:+ to_string (reg - RAX_CM_R rax 0))
      else if reg =? RAX_REG_SP names then Some "cortexm:sp"%string
      else if reg =? RAX_CM_REG_LR names then Some "cortexm:lr"%string
      else if reg =? RAX_CM_REG_PC names then Some "cortexm:pc"%string else None
  | RISCV64 =>
      if between (RAX_RISCV_X rax 0) reg (RAX_RISCV_X rax 31)
      then Some ("riscv:x" +:+ to_string (reg - RAX_RISCV_X rax 0))
      else if reg =? RAX_RISCV_REG_PC names then Some "riscv:pc"%string else None
  | HEXAGON =>
      if between (RAX_HEX_R rax 0) reg (RAX_HEX_R rax 31)
      then Some ("hexagon:r" +:+ to_string (reg - RAX_HEX_R rax 0))
      else if reg =? RAX_HEX_REG_PC names then Some "hexagon:pc"%string else None
  | _ => None
  end.

Definition register_name (arch : ViyArch) (reg : Z) : string :=
  match known_register arch reg with
  | Some name => name
  | None => "rax:" +:+ to_string (arch_value arch) +:+ ":" +:+ to_string reg
  end.
End Names.

(** ** The loops *)

Section Bridge.
Context (codes : RaxCodes) (names : RaxRegisterNames) (rax : RaxRegisters).

#[local] Notation State := (EvidenceBridgeStats * EvidenceStore)%type.

Definition access_kind (kind : Z) : MemoryAccessKind :=
  if kind =? RAX_MEM_WRITE codes then MemoryAccessKind_Write else MemoryAccessKind_Read.

Section Function_.
Context (img : ProgramImage) (function : FuncRange).

Definition mapped (address : Z) : bool :=
  match segment_at img address with Some _ => true | None => false end.

Definition edge_fact (edge : ExecEdge) (method : string) (payload : FactPayload) : AnalysisFact := {|
  af_payload := payload;
  af_evidence := make_evidence function (edge_run_id edge) (edge_seed edge) method
                   [edge_from edge; edge_to edge] |}.

Definition target_fact (edge : ExecEdge) : AnalysisFact :=
  edge_fact edge "executed-control-transfer"
    (P_CodeTarget {| ct_from := edge_from edge; ct_target := edge_to edge;
                     ct_kind := target_kind (edge_kind edge); ct_unique := false |}).

Definition reached_fact (edge : ExecEdge) : AnalysisFact :=
  edge_fact edge "executed-successor"
    (P_BranchReachability {| br_branch := edge_from edge; br_successor := edge_to edge;
                             br_state := Reachability_Reached |}).

Definition cfg_fact (edge : ExecEdge) : AnalysisFact :=
  edge_fact edge "executed-cfg-edge"
    (P_CfgCandidate {| cfg_from := edge_from edge; cfg_to := edge_to edge;
                       cfg_kind := bridge_cfg_kind (edge_kind edge);
                       cfg_state := Reachability_Reached |}).

Definition call_fact (edge : ExecEdge) : AnalysisFact :=
  edge_fact edge "executed-call"
    (P_CallObservation {| co_source := edge_from edge; co_target := Some (edge_to edge);
                          co_kind := CallKind_Call; co_result := CallResult_Unknown;
                          co_arguments := []; co_returns := [] |}).

Definition record_edge (edge : ExecEdge) (st : State) : State :=
  if bool_decide (edge_kind edge = ExecEdge_Unknown) || negb (mapped (edge_from edge)) ||
     negb (mapped (edge_to edge))
  then st
  else
    let st := offer (target_fact edge) st in
    let st := offer (reached_fact edge) st in
    let st := offer (cfg_fact edge) st in
    if bool_decide (edge_kind edge = ExecEdge_Call) then offer (call_fact edge) st else st.

Definition access_fact (access : DataAcc) : AnalysisFact := {|
  af_payload :=
    P_MemoryAccess {| ma_instruction := acc_from access; ma_address := acc_addr access;
                      ma_size := acc_size access; ma_kind := access_kind (acc_kind access) |};
  af_evidence := make_evidence function (acc_run_id access) (acc_seed access) "memory-access"
                   [acc_from access; acc_addr access] |}.

Definition access_value_fact (access : DataAcc) : AnalysisFact := {|
  af_payload :=
    P_MemoryValue {| mv_instruction := acc_from access; mv_address := acc_addr access;
                     mv_kind := access_kind (acc_kind access);
                     mv_bytes := scalar_bytes (acc_value access) (acc_size access)
                                   (im_big_endian img) |};
  af_evidence := make_evidence function (acc_run_id access) (acc_seed access) "memory-value"
                   [acc_from access; acc_addr access] |}.

Definition record_access (access : DataAcc) (st : State) : State :=
  if negb (bool_decide (acc_scope access = DataScope_IMAGE)) || (acc_size access =? 0) ||
     (negb (acc_kind access =? RAX_MEM_READ codes) &&
      negb (acc_kind access =? RAX_MEM_WRITE codes)) ||
     negb (valid_image_range img (acc_addr access) (acc_size access))
  then st
  else
    let st := offer (access_fact access) st in
    if acc_size access <=? 8 then offer (access_value_fact access) st else st.

Definition register_fact (point : StatePoint) (reg : RegisterValue) : AnalysisFact := {|
  af_payload :=
    P_RegisterValue {| rv_instruction := sp_pc point;
                       rv_point := RegisterStatePoint_BeforeInstruction;
                       rv_register_id := register_name names rax (im_arch img) (rv_reg reg);
                       rv_bytes := scalar_bytes (rv_value reg) (rv_width reg) false |};
  af_evidence := make_evidence function (sp_run_id point) (sp_seed point)
                   "transfer-target-register-state" [sp_source point; sp_pc point] |}.

Definition record_register (point : StatePoint) (st : State) (reg : RegisterValue) : State :=
  if (rv_width reg =? 0) || (8 <? rv_width reg) then st else offer (register_fact point reg) st.

Definition record_state (point : StatePoint) (st : State) : State :=
  foldl (record_register point) st (sp_regs point).

(** The search for the instruction that wrote a range last: the instruction, its
    sequence number and whether one was found. *)
Definition writer_step (memory : MemoryBytes) (best : Z * Z * bool) (access : DataAcc) :
    Z * Z * bool :=
  let '(instruction, best_sequence, found) := best in
  if negb (acc_run_id access =? mb_run_id memory) || negb (acc_seed access =? mb_seed memory) ||
     negb (acc_kind access =? RAX_MEM_WRITE codes) ||
     negb (bool_decide (acc_scope access = DataScope_IMAGE)) || (acc_size access =? 0)
  then best
  else
    let memory_size := zlen (mb_bytes memory) in
    if (u64_max - mb_addr memory <? memory_size) || (u64_max - acc_addr access <? acc_size access)
    then best
    else if (acc_addr access <? mb_addr memory + memory_size) &&
            (mb_addr memory <? acc_addr access + acc_size access) &&
            (negb found || (best_sequence <=? acc_sequence access))
    then (acc_from access, acc_sequence access, true)
    else best.

Definition final_writer (data : list DataAcc) (memory : MemoryBytes) : Z :=
  (foldl (writer_step memory) (fr_start function, 0, false) data).1.1.

Definition final_fact (data : list DataAcc) (memory : MemoryBytes) : AnalysisFact :=
  let instruction := final_writer data memory in {|
  af_payload :=
    P_MemoryValue {| mv_instruction := instruction; mv_address := mb_addr memory;
                     mv_kind := MemoryAccessKind_Write; mv_bytes := mb_bytes memory |};
  af_evidence := make_evidence function (mb_run_id memory) (mb_seed memory) "final-written-bytes"
                   [instruction; mb_addr memory] |}.

Definition record_final_write (data : list DataAcc) (memory : MemoryBytes) (st : State) : State :=
  if negb (bool_decide (mb_scope memory = DataScope_IMAGE)) || (zlen (mb_bytes memory) =? 0) ||
     negb (valid_image_range img (mb_addr memory) (zlen (mb_bytes memory)))
  then st else offer (final_fact data memory) st.

Definition stop_kind (outcome : EmuOutcome) : FunctionStopKind :=
  if oc_returned outcome then FunctionStopKind_Returned
  else if oc_terminated_process outcome then FunctionStopKind_TerminatedProcess
  else
    let reason := oc_stop_reason outcome in
    if (reason =? RAX_STOP_HLT codes) || (reason =? RAX_STOP_SHUTDOWN codes)
    then FunctionStopKind_Halted
    else if reason =? RAX_STOP_TIMEOUT codes then FunctionStopKind_TimedOut
    else if reason =? RAX_STOP_COUNT codes then FunctionStopKind_BudgetExhausted
    else if reason =? RAX_STOP_EXCEPTION codes then FunctionStopKind_Faulted
    else FunctionStopKind_Unknown.

Definition outcome_fact (observed : ObservedOutcome) : AnalysisFact :=
  let outcome := ob_outcome observed in {|
  af_payload :=
    P_FunctionOutcome {| fo_function := fr_start function; fo_stop := stop_kind outcome;
      fo_stop_pc := if oc_stop_valid outcome then Some (oc_stop_pc outcome) else None;
      fo_stack_delta := if oc_sp_valid outcome then Some (oc_sp_delta outcome) else None;
      fo_instruction_count := Some (oc_instruction_count outcome) |};
  af_evidence := make_evidence function (ob_run_id observed) (ob_seed observed) "function-outcome"
                   [fr_start function] |}.

Definition viy_record_emulation_evidence (store : EvidenceStore) (events : EmuEvents)
    (outcomes : list ObservedOutcome) : EvidenceBridgeStats * EvidenceStore :=
  let st := (no_stats, store) in
  let st := foldl (fun st edge => record_edge edge st) st (ee_edges events) in
  let st := foldl (fun st access => record_access access st) st (ee_data events) in
  let st := foldl (fun st point => record_state point st) st (ee_states events) in
  let st := foldl (fun st memory => record_final_write (ee_data events) memory st) st
              (ee_final_writes events) in
  foldl (fun st observed => offer (outcome_fact observed) st) st outcomes.

End Function_.
End Bridge.

(** ** Lengths of register names *)

Lemma str_len_cons c s : str_len (String c s) = 1 + str_len s.
Proof. unfold str_len, str_bytes. cbn. by rewrite zlen_cons. Qed.

Lemma str_len_app s t : str_len (s +:+ t) = str_len s + str_len t.
Proof.
  induction s as [|c s IH]; [done|]. change (String c s +:+ t) with (String c (s +:+ t)).
  rewrite !str_len_cons, IH. lia.
Qed.

Lemma pretty_N_go_length n x s :
  (x < 10 ^ N.of_nat n)%N -> str_len (pretty_N_go x s) <= Z.of_nat n + str_len s.
Proof.
  revert x s. induction n as [|n IH]; intros x s Hx.
  { replace x with 0%N by (cbn in Hx; lia). rewrite pretty_N_go_0. lia. }
  destruct (decide (x = 0)%N) as [->|]; [rewrite pretty_N_go_0; lia|].
  rewrite pretty_N_go_step by lia. etransitivity; [apply IH|rewrite str_len_cons; lia].
  rewrite Nat2N.inj_succ, N.pow_succ_r' in Hx. apply N.Div0.div_lt_upper_bound. lia.
Qed.

Lemma to_string_length z : - 10 ^ 20 < z < 10 ^ 20 -> str_len (to_string z) <= 21.
Proof.
  intros Hz. unfold to_string.
  assert (forall x : N, (x < 10 ^ 20)%N -> str_len (pretty x) <= 20) as HN.
  { intros x Hx. unfold pretty, pretty_N. destruct (decide _); [done|].
    etransitivity; [by apply (pretty_N_go_length 20)|]. done. }
  destruct z as [|q|q]; [done| |]; unfold pretty, pretty_Z, pretty.
  - etransitivity; [apply HN; lia|done].
  - rewrite str_len_app. specialize (HN (Npos q) ltac:(lia)).
    change (str_len "-"%string) with 1.
    change (pretty_positive q) with (pretty (N.pos q)). lia.
Qed.

Lemma name_at_length names index :
  Forall (fun s => str_len s <= 3) names -> str_len (name_at names index) <= 3.
Proof.
  intros H. unfold name_at. destruct (names !! Z.to_nat index) as [s|] eqn:E; cbn [default]; [|done].
  rewrite Forall_lookup in H. by eapply H.
Qed.

(** The first register of each bank is an [int], as all register numbers are. *)
Definition is_int (v : Z) : Prop := - 2 ^ 31 <= v < 2 ^ 31.

Definition banks_typed (rax : RaxRegisters) : Prop :=
  is_int (RAX_ARM64_X rax 0) /\ is_int (RAX_ARM_R rax 0) /\ is_int (RAX_CM_R rax 0) /\
  is_int (RAX_RISCV_X rax 0) /\ is_int (RAX_HEX_R rax 0).

Lemma to_string_between first reg last :
  is_int first -> is_int reg -> between first reg last = true -> str_len (to_string (reg - first)) <= 21.
Proof. unfold is_int. intros. apply to_string_length. lia. Qed.

Lemma str_len_nonneg s : 0 <= str_len s.
Proof. apply zlen_nonneg. Qed.

Lemma register_name_length names rax arch reg :
  banks_typed rax -> is_int reg -> 0 < str_len (register_name names rax arch reg) <= 100.
Proof.
  intros (H1 & H2 & H3 & H4 & H5) Hr. unfold register_name.
  assert (str_len (to_string (arch_value arch)) <= 21) as Ha by (by destruct arch).
  assert (str_len (to_string reg) <= 21) as Hreg.
  { unfold is_int in Hr. apply to_string_length. lia. }
  assert (str_len ("rax:" +:+ to_string (arch_value arch) +:+ ":" +:+ to_string reg) <= 100 /\
    0 < str_len ("rax:" +:+ to_string (arch_value arch) +:+ ":" +:+ to_string reg)) as [Hd1 Hd2].
  { rewrite !str_len_app. change (str_len "rax:"%string) with 4. change (str_len ":"%string) with 1.
    pose proof (str_len_nonneg (to_string (arch_value arch))).
    pose proof (str_len_nonneg (to_string reg)). lia. }
  assert (forall prefix s, 0 < str_len prefix <= 9 -> str_len s <= 21 ->
    0 < str_len (prefix +:+ s) <= 100) as Happ.
  { intros prefix s ? ?. rewrite str_len_app. pose proof (str_len_nonneg s). lia. }
  assert (forall names index, Forall (fun s => str_len s <= 3) names ->
    str_len (name_at names index) <= 21) as Hname.
  { intros l index Hl. pose proof (name_at_length l index Hl). lia. }
  unfold known_register.
  destruct arch; try lia; repeat case_match; simplify_eq; try lia; try done;
    apply Happ; try done; try (by eapply to_string_between); apply Hname; by repeat constructor.
Qed.

(** ** What a log supports *)

Section Specification.
Context (codes : RaxCodes) (names : RaxRegisterNames) (rax : RaxRegisters).
Context (img : ProgramImage) (function : FuncRange) (events : EmuEvents).
Context (outcomes : list ObservedOutcome).

(** An address of the image, whatever segment holds it. *)
Definition in_image (address : Z) : Prop :=
  exists s, s ∈ im_segs img /\ sg_start s <= address < sg_end s.

(** All bytes of a range are in one segment. *)
Definition range_in_image (address size : Z) : Prop :=
  0 < size /\ address + size <= u64_max /\
  exists s, s ∈ im_segs img /\ sg_start s <= address /\ address + size <= sg_end s.

Definition image_access (access : DataAcc) : Prop :=
  access ∈ ee_data events /\ acc_scope access = DataScope_IMAGE /\
  (acc_kind access = RAX_MEM_READ codes \/ acc_kind access = RAX_MEM_WRITE codes) /\
  range_in_image (acc_addr access) (acc_size access).

(** The access writes a byte of the range, in the same run. *)
Definition writes_to (memory : MemoryBytes) (access : DataAcc) : Prop :=
  acc_run_id access = mb_run_id memory /\ acc_seed access = mb_seed memory /\
  acc_kind access = RAX_MEM_WRITE codes /\ acc_scope access = DataScope_IMAGE /\
  acc_addr access + acc_size access <= u64_max /\
  exists x, acc_addr access <= x < acc_addr access + acc_size access /\
            mb_addr memory <= x < mb_addr memory + zlen (mb_bytes memory).

(** The instruction of the last write to the range, by sequence number and then by
    position; the function's entry when no write is in the log. *)
Definition last_writer (memory : MemoryBytes) (instruction : Z) : Prop :=
  (instruction = fr_start function /\ Forall (fun a => ~ writes_to memory a) (ee_data events)) \/
  exists n access, ee_data events !! n = Some access /\ writes_to memory access /\
    instruction = acc_from access /\
    forall k a, ee_data events !! k = Some a -> writes_to memory a ->
      acc_sequence a < acc_sequence access \/
      (acc_sequence a = acc_sequence access /\ (k <= n)%nat).

Inductive observed : AnalysisFact -> Prop :=
  | Observed_target edge :
      edge ∈ ee_edges events -> edge_kind edge <> ExecEdge_Unknown ->
      in_image (edge_from edge) -> in_image (edge_to edge) ->
      observed (target_fact function edge)
  | Observed_reached edge :
      edge ∈ ee_edges events -> edge_kind edge <> ExecEdge_Unknown ->
      in_image (edge_from edge) -> in_image (edge_to edge) ->
      observed (reached_fact function edge)
  | Observed_cfg edge :
      edge ∈ ee_edges events -> edge_kind edge <> ExecEdge_Unknown ->
      in_image (edge_from edge) -> in_image (edge_to edge) ->
      observed (cfg_fact function edge)
  | Observed_call edge :
      edge ∈ ee_edges events -> edge_kind edge = ExecEdge_Call ->
      in_image (edge_from edge) -> in_image (edge_to edge) ->
      observed (call_fact function edge)
  | Observed_access access :
      image_access access -> observed (access_fact codes function access)
  | Observed_access_value access :
      image_access access -> acc_size access <= 8 ->
      observed (access_value_fact codes img function access)
  | Observed_register point reg :
      point ∈ ee_states events -> reg ∈ sp_regs point -> 0 < rv_width reg <= 8 ->
      observed (register_fact names rax img function point reg)
  | Observed_final memory instruction :
      memory ∈ ee_final_writes events -> mb_scope memory = DataScope_IMAGE ->
      range_in_image (mb_addr memory) (zlen (mb_bytes memory)) ->
      last_writer memory instruction ->
      observed {|
        af_payload := P_MemoryValue {|
          mv_instruction := instruction; mv_address := mb_addr memory;
          mv_kind := MemoryAccessKind_Write; mv_bytes := mb_bytes memory |};
        af_evidence := make_evidence function (mb_run_id memory) (mb_seed memory)
          "final-written-bytes" [instruction; mb_addr memory] |}
  | Observed_outcome outcome :
      outcome ∈ outcomes -> observed (outcome_fact codes function outcome).

(** ** The ranges of the C++ types *)

Record bridge_typed : Prop := {
  bt_segs : segs_ok (im_segs img);
  bt_ends : Forall (fun s => 0 <= sg_start s /\ sg_end s <= u64_max) (im_segs img);
  bt_start : is_u64 (fr_start function);
  bt_end : is_u64 (function_extent function);
  bt_generation : is_u64 (fr_generation function);
  bt_edges : Forall (fun e => is_u64 (edge_from e) /\ is_u64 (edge_to e) /\
    is_u64 (edge_run_id e) /\ is_u64 (edge_seed e)) (ee_edges events);
  bt_data : Forall (fun a => is_u64 (acc_from a) /\ is_u64 (acc_addr a) /\ is_u32 (acc_size a) /\
    is_u64 (acc_run_id a) /\ is_u64 (acc_seed a) /\ is_u64 (acc_sequence a)) (ee_data events);
  bt_states : Forall (fun p => is_u64 (sp_source p) /\ is_u64 (sp_pc p) /\
    is_u64 (sp_run_id p) /\ is_u64 (sp_seed p) /\
    Forall (fun r => 0 <= rv_width r /\ is_int (rv_reg r)) (sp_regs p)) (ee_states events);
  bt_banks : banks_typed rax;
  bt_final : Forall (fun m => is_u64 (mb_addr m) /\ is_u64 (mb_run_id m) /\ is_u64 (mb_seed m))
    (ee_final_writes events);
  bt_outcomes : Forall (fun o => is_u64 (ob_run_id o) /\ is_u64 (ob_seed o) /\
    is_u64 (oc_stop_pc (ob_outcome o)) /\ is_i64 (oc_sp_delta (ob_outcome o)) /\
    is_u64 (oc_instruction_count (ob_outcome o))) outcomes
}.

(** ** The offered facts *)

Definition edge_facts (edge : ExecEdge) : list AnalysisFact :=
  if bool_decide (edge_kind edge = ExecEdge_Unknown) || negb (mapped img (edge_from edge)) ||
     negb (mapped img (edge_to edge))
  then []
  else [target_fact function edge; reached_fact function edge; cfg_fact function edge] ++
       (if bool_decide (edge_kind edge = ExecEdge_Call) then [call_fact function edge] else []).

Definition access_facts (access : DataAcc) : list AnalysisFact :=
  if negb (bool_decide (acc_scope access = DataScope_IMAGE)) || (acc_size access =? 0) ||
     (negb (acc_kind access =? RAX_MEM_READ codes) &&
      negb (acc_kind access =? RAX_MEM_WRITE codes)) ||
     negb (valid_image_range img (acc_addr access) (acc_size access))
  then []
  else access_fact codes function access ::
       (if acc_size access <=? 8 then [access_value_fact codes img function access] else []).

Definition state_facts (point : StatePoint) : list AnalysisFact :=
  map (register_fact names rax img function point)
    (List.filter (fun r => negb ((rv_width r =? 0) || (8 <? rv_width r))) (sp_regs point)).

Definition final_facts (memory : MemoryBytes) : list AnalysisFact :=
  if negb (bool_decide (mb_scope memory = DataScope_IMAGE)) || (zlen (mb_bytes memory) =? 0) ||
     negb (valid_image_range img (mb_addr memory) (zlen (mb_bytes memory)))
  then [] else [final_fact codes function (ee_data events) memory].

Definition offered_facts : list AnalysisFact :=
  concat (map edge_facts (ee_edges events)) ++ concat (map access_facts (ee_data events)) ++
  concat (map state_facts (ee_states events)) ++
  concat (map final_facts (ee_final_writes events)) ++
  map (outcome_fact codes function) outcomes.

Definition offer_all (facts : list AnalysisFact) (st : EvidenceBridgeStats * EvidenceStore) :
    EvidenceBridgeStats * EvidenceStore := foldl (fun st fact => offer fact st) st facts.

Lemma offer_all_app l1 l2 st : offer_all (l1 ++ l2) st = offer_all l2 (offer_all l1 st).
Proof. apply foldl_app. Qed.

Lemma foldl_offers {A} (step : A -> EvidenceBridgeStats * EvidenceStore -> EvidenceBridgeStats * EvidenceStore)
    (facts : A -> list AnalysisFact) l st :
  (forall a st, step a st = offer_all (facts a) st) ->
  foldl (fun st a => step a st) st l = offer_all (concat (map facts l)) st.
Proof.
  intros H. revert st. induction l as [|a l IH]; intros st; [done|].
  cbn [foldl map concat]. by rewrite offer_all_app, IH, H.
Qed.

Lemma record_state_offers point st :
  record_state names rax img function point st = offer_all (state_facts point) st.
Proof.
  unfold record_state, state_facts. revert st.
  induction (sp_regs point) as [|r l IH]; intros st; [done|]. cbn [foldl]. rewrite IH.
  unfold record_register. cbn [List.filter]. by destruct ((rv_width r =? 0) || (8 <? rv_width r)).
Qed.

Lemma record_edge_offers edge st : record_edge img function edge st = offer_all (edge_facts edge) st.
Proof.
  unfold record_edge, edge_facts. destruct (_ || _); [done|].
  cbn zeta. by destruct (bool_decide (edge_kind edge = ExecEdge_Call)).
Qed.

Lemma record_access_offers access st :
  record_access codes img function access st = offer_all (access_facts access) st.
Proof.
  unfold record_access, access_facts. destruct (_ || _); [done|].
  cbn zeta. by destruct (acc_size access <=? 8).
Qed.

Lemma record_final_offers memory st :
  record_final_write codes img function (ee_data events) memory st = offer_all (final_facts memory) st.
Proof. unfold record_final_write, final_facts. by destruct (_ || _). Qed.

Lemma recorded_offers store :
  viy_record_emulation_evidence codes names rax img function store events outcomes =
  offer_all offered_facts (no_stats, store).
Proof.
  unfold viy_record_emulation_evidence, offered_facts. cbn zeta. rewrite !offer_all_app.
  rewrite <- !(foldl_offers _ _ _ _ record_edge_offers), <- !(foldl_offers _ _ _ _ record_access_offers),
    <- !(foldl_offers _ _ _ _ record_state_offers), <- !(foldl_offers _ _ _ _ record_final_offers).
  generalize (no_stats, store). intros st. unfold offer_all. by rewrite foldl_fmap.
Qed.

(** ** The guards *)

Section Facts.
Hypothesis Htyped : bridge_typed.

Lemma mapped_iff address : mapped img address = true <-> in_image address.
Proof.
  unfold mapped, in_image. destruct (segment_at img address) as [s|] eqn:E.
  - apply segment_at_iff in E as [Hs Hc]; [|apply Htyped]. unfold seg_contains in Hc.
    split; [intros _; exists s; split; [done|lia]|done].
  - split; [done|]. intros (s & Hs & Hr).
    assert (segment_at img address = Some s) as ?; [|congruence].
    apply segment_at_iff; [apply Htyped|]. split; [done|]. unfold seg_contains. lia.
Qed.

Lemma valid_image_range_iff address size :
  0 <= size -> valid_image_range img address size = true <-> range_in_image address size.
Proof.
  intros Hsz. unfold valid_image_range, range_in_image.
  destruct (Z.eqb_spec size 0); [cbn [orb]; split; [done|lia]|]. cbn [orb].
  destruct (Z.ltb_spec (u64_max - address) size); [split; [done|lia]|].
  rewrite existsb_exists. setoid_rewrite <- list_elem_of_In.
  split; [intros (s & Hs & Hc); split_and!; [lia..|]; exists s; split; [done|lia]|].
  intros (_ & _ & s & Hs & Hc). exists s. split; [done|]. lia.
Qed.

Lemma writer_step_writes memory best access :
  0 < zlen (mb_bytes memory) -> mb_addr memory + zlen (mb_bytes memory) <= u64_max ->
  0 <= acc_size access ->
  (writes_to memory access /\
   writer_step codes memory best access =
     if negb best.2 || (best.1.2 <=? acc_sequence access)
     then (acc_from access, acc_sequence access, true) else best) \/
  (~ writes_to memory access /\ writer_step codes memory best access = best).
Proof.
  intros Hl Hm Hs. destruct best as [[i b] f]. unfold writer_step. cbn [fst snd].
  destruct (negb (acc_run_id access =? mb_run_id memory) || _ || _ || _ || _) eqn:E.
  { right. split; [|done]. intros (? & ? & ? & Hsc & ? & x & ? & ?).
    rewrite !orb_true_iff, !negb_true_iff, bool_decide_eq_false in E.
    destruct E as [[[[E|E]|E]|E]|E]; [lia..|done|lia]. }
  rewrite !orb_false_iff, !negb_false_iff, bool_decide_eq_true in E.
  destruct E as [[[[E1 E2] E3] E4] E5]. cbn zeta.
  destruct (Z.ltb_spec (u64_max - mb_addr memory) (zlen (mb_bytes memory))); [lia|]. cbn [orb].
  destruct (Z.ltb_spec (u64_max - acc_addr access) (acc_size access)) as [|Ho].
  { right. split; [|done]. intros (_ & _ & _ & _ & ? & _). lia. }
  destruct (Z.ltb_spec (acc_addr access) (mb_addr memory + zlen (mb_bytes memory))),
    (Z.ltb_spec (mb_addr memory) (acc_addr access + acc_size access)); cbn [andb].
  1: { left. split; [|done]. split_and!; [lia..|done|lia|].
       exists (Z.max (acc_addr access) (mb_addr memory)). lia. }
  all: right; split; [|done]; intros (_ & _ & _ & _ & _ & x & ? & ?); lia.
Qed.

Lemma final_writer_last memory :
  0 < zlen (mb_bytes memory) -> mb_addr memory + zlen (mb_bytes memory) <= u64_max ->
  last_writer memory (final_writer codes function (ee_data events) memory).
Proof.
  intros Hl Hm. unfold final_writer, last_writer.
  assert (Forall (fun a => 0 <= acc_size a) (ee_data events)) as Hsz.
  { eapply Forall_impl; [apply Htyped|]. unfold is_u32. naive_solver lia. }
  revert Hsz. generalize (ee_data events) as data. intros data Hsz.
  set (result := foldl (writer_step codes memory) _ data).
  cut ((result.2 = false /\ result.1.1 = fr_start function /\
        Forall (fun a => ~ writes_to memory a) data) \/
    exists n access, result.2 = true /\ result.1.2 = acc_sequence access /\
      data !! n = Some access /\ writes_to memory access /\ result.1.1 = acc_from access /\
      forall k a, data !! k = Some a -> writes_to memory a ->
        acc_sequence a < acc_sequence access \/
        (acc_sequence a = acc_sequence access /\ (k <= n)%nat)).
  { intros [(_ & ? & ?)|(n & access & _ & _ & ?)]; [by left|right; by exists n, access]. }
  subst result. induction data as [|a data IH] using rev_ind; [by left|].
  apply Forall_app in Hsz as [Hsz [Ha _]%List.Forall_cons_iff]. specialize (IH Hsz).
  rewrite foldl_app. cbn [foldl].
  set (best := foldl (writer_step codes memory) _ data) in *.
  destruct (writer_step_writes memory best a Hl Hm Ha) as [[Hw ->]|[Hw ->]].
  - destruct (negb best.2 || (best.1.2 <=? acc_sequence a)) eqn:E.
    + right. exists (length data), a. cbn. split_and!; [done..|by rewrite list_lookup_middle|done|done|].
      intros k x Hk Hx. apply lookup_app_Some in Hk as [Hk|[Hk Hk']].
      * pose proof (lookup_lt_Some _ _ _ Hk).
        destruct IH as [(Hf & _ & Hn)|(n & access & Hf & Hb & _ & _ & _ & Hmax)].
        { rewrite Forall_lookup in Hn. by destruct (Hn k x Hk). }
        destruct (Hmax k x Hk Hx) as [|[]]; rewrite Hf in E; cbn [negb orb] in E; lia.
      * destruct (k - length data)%nat eqn:Ek; [|done]. injection Hk' as <-. right. split; [done|lia].
    + apply orb_false_iff in E as [Ef Eb]. apply negb_false_iff in Ef.
      destruct IH as [(Hf & _)|(n & access & Hf & Hb & Hn & Hacc & Hi & Hmax)]; [congruence|].
      right. exists n, access. split_and!; [done..|by apply lookup_app_l_Some|done|done|].
      intros k x Hk Hx. apply lookup_app_Some in Hk as [Hk|[Hk Hk']]; [by eapply Hmax|].
      destruct (k - length data)%nat eqn:Ek; [|done]. injection Hk' as <-. left. lia.
  - destruct IH as [(Hf & Hi & Hn)|(n & access & Hf & Hb & Hn & Hacc & Hi & Hmax)].
    + left. split_and!; [done..|]. apply Forall_app. split; [done|by constructor].
    + right. exists n, access. split_and!; [done..|by apply lookup_app_l_Some|done|done|].
      intros k x Hk Hx. apply lookup_app_Some in Hk as [Hk|[Hk Hk']]; [by eapply Hmax|].
      destruct (k - length data)%nat eqn:Ek; [|done]. injection Hk' as <-. done.
Qed.

Lemma last_writer_unique memory i i' : last_writer memory i -> last_writer memory i' -> i = i'.
Proof.
  intros [[-> Hn]|(n & a & Hk & Hw & -> & Hm)] [[-> Hn']|(n' & a' & Hk' & Hw' & -> & Hm')].
  - done.
  - rewrite Forall_lookup in Hn. by destruct (Hn _ _ Hk').
  - rewrite Forall_lookup in Hn'. by destruct (Hn' _ _ Hk).
  - destruct (Hm _ _ Hk' Hw') as [|[]], (Hm' _ _ Hk Hw) as [|[]]; [lia..|].
    assert (n = n') as -> by lia. congruence.
Qed.

Lemma elem_of_edge_facts edge g :
  g ∈ edge_facts edge <->
  edge_kind edge <> ExecEdge_Unknown /\ in_image (edge_from edge) /\ in_image (edge_to edge) /\
  (g = target_fact function edge \/ g = reached_fact function edge \/ g = cfg_fact function edge \/
   (edge_kind edge = ExecEdge_Call /\ g = call_fact function edge)).
Proof.
  unfold edge_facts. rewrite <- !mapped_iff.
  destruct (decide (edge_kind edge = ExecEdge_Unknown)) as [E|E].
  { rewrite bool_decide_eq_true_2 by done. cbn [orb]. set_solver. }
  rewrite bool_decide_eq_false_2 by done. cbn [orb].
  destruct (mapped img (edge_from edge)), (mapped img (edge_to edge)); cbn [orb negb]; [|set_solver..].
  destruct (bool_decide (edge_kind edge = ExecEdge_Call)) eqn:Ec;
    [apply bool_decide_eq_true in Ec|apply bool_decide_eq_false in Ec]; set_solver.
Qed.

Lemma elem_of_access_facts access g :
  access ∈ ee_data events ->
  g ∈ access_facts access <->
  image_access access /\
  (g = access_fact codes function access \/
   (acc_size access <= 8 /\ g = access_value_fact codes img function access)).
Proof.
  intros Hin. assert (is_u32 (acc_size access)) as Hs.
  { pose proof (bt_data Htyped) as H. rewrite Forall_forall in H. by apply H. }
  unfold is_u32 in Hs. unfold access_facts, image_access.
  rewrite <- valid_image_range_iff by lia.
  destruct (decide (acc_scope access = DataScope_IMAGE)) as [E|E].
  2: { rewrite bool_decide_eq_false_2 by done. cbn [orb negb]. set_solver. }
  rewrite bool_decide_eq_true_2 by done. cbn [orb negb].
  assert (acc_size access = 0 -> valid_image_range img (acc_addr access) (acc_size access) = false) as H0.
  { intros ->. done. }
  destruct (Z.eqb_spec (acc_size access) 0) as [Ez|Ez].
  { cbn [orb]. specialize (H0 Ez). rewrite H0. set_solver. }
  clear H0. cbn [orb].
  destruct (Z.eqb_spec (acc_kind access) (RAX_MEM_READ codes)) as [Ek|Ek],
    (Z.eqb_spec (acc_kind access) (RAX_MEM_WRITE codes)) as [Ek'|Ek']; cbn [orb negb andb].
  4: set_solver.
  all: destruct (valid_image_range img (acc_addr access) (acc_size access)); cbn [negb]; [|set_solver].
  all: destruct (Z.leb_spec (acc_size access) 8);
    rewrite elem_of_cons, ?list_elem_of_singleton, ?elem_of_nil; naive_solver lia.
Qed.

Lemma elem_of_state_facts point g :
  point ∈ ee_states events ->
  g ∈ state_facts point <->
  exists reg, reg ∈ sp_regs point /\ 0 < rv_width reg <= 8 /\
    g = register_fact names rax img function point reg.
Proof.
  intros Hin. pose proof (bt_states Htyped) as H. rewrite Forall_forall in H.
  destruct (H _ Hin) as (_ & _ & _ & _ & Hr). rewrite Forall_forall in Hr.
  unfold state_facts. rewrite list_elem_of_fmap. setoid_rewrite elem_of_filter. split.
  - intros (r & -> & Hf & Hm). exists r. destruct (Hr _ Hm). split_and!; [done|lia..|done].
  - intros (r & Hm & Hw & ->). exists r. destruct (Hr _ Hm). split_and!; [done|lia|done].
Qed.

Lemma elem_of_final_facts memory g :
  g ∈ final_facts memory <->
  mb_scope memory = DataScope_IMAGE /\ range_in_image (mb_addr memory) (zlen (mb_bytes memory)) /\
  g = final_fact codes function (ee_data events) memory.
Proof.
  unfold final_facts. rewrite <- valid_image_range_iff by apply zlen_nonneg.
  destruct (decide (mb_scope memory = DataScope_IMAGE)) as [E|E].
  2: { rewrite bool_decide_eq_false_2 by done. cbn [orb negb]. set_solver. }
  rewrite bool_decide_eq_true_2 by done. cbn [orb negb].
  destruct (Z.eqb_spec (zlen (mb_bytes memory)) 0) as [Ez|Ez].
  { cbn [orb]. rewrite Ez. unfold valid_image_range. cbn. set_solver. }
  cbn [orb]. destruct (valid_image_range img (mb_addr memory) (zlen (mb_bytes memory))); set_solver.
Qed.

(** The facts that the loops offer are the observed ones. *)
Lemma observed_offered g : observed g <-> g ∈ offered_facts.
Proof.
  unfold offered_facts. rewrite !elem_of_app, !elem_of_concat_map, list_elem_of_fmap.
  split.
  - intros [e ? ? ? ?|e ? ? ? ?|e ? ? ? ?|e ? ? ? ?|a Ha|a Ha ?|p r ? ? ?|m i Hm ? ? Hl|o ?].
    1-4: left; exists e; split; [done|]; apply elem_of_edge_facts; split_and!; [congruence|done|done|auto 6].
    1-2: right; left; exists a; split; [apply Ha|]; apply elem_of_access_facts; [apply Ha|split; [done|auto]].
    + right; right; left. exists p. split; [done|]. apply elem_of_state_facts; [done|]. by exists r.
    + do 3 right. left. exists m. split; [done|]. apply elem_of_final_facts. split_and!; [done..|].
      destruct H0 as (? & ? & ?).
      by rewrite (last_writer_unique _ _ _ Hl (final_writer_last m ltac:(done) ltac:(done))).
    + do 4 right. exists o. done.
  - intros [(e & He & (? & ? & ? & [->|[->|[->|[? ->]]]])%elem_of_edge_facts)
      |[(a & Ha & Hg)|[(p & Hp & Hg)|[(m & Hm & (? & Hr & ->)%elem_of_final_facts)|(o & -> & Ho)]]]].
    1-4: by constructor.
    + apply elem_of_access_facts in Hg as [? [->|[? ->]]]; [|..|done]; by constructor.
    + apply elem_of_state_facts in Hg as (r & ? & ? & ->); [|done]. by constructor.
    + unfold final_fact. cbn zeta. constructor; [done..|]. destruct Hr as (? & ? & ?).
      by apply final_writer_last.
    + by constructor.
Qed.

(** ** Acceptance *)

(** What the store holds for an offered fact: support addresses as a sorted set. *)
Definition recorded (g : AnalysisFact) : AnalysisFact := {|
  af_payload := af_payload g; af_evidence := normalize_evidence_value (af_evidence g) |}.

(** Only the final bytes of a range can be too long for a fact. *)
Definition final_bytes_fit : Prop :=
  Forall (fun m => zlen (mb_bytes m) <= u32_max) (ee_final_writes events).

Lemma bridge_evidence_valid run_id seed method support :
  fr_start function < function_extent function -> 0 < str_len method <= 100 ->
  zlen support <= 2 ->
  normalize_evidence (make_evidence function run_id seed method support) =
  Ok (normalize_evidence_value (make_evidence function run_id seed method support)).
Proof.
  intros He Hm Hs. unfold normalize_evidence. cbn zeta.
  set (l := std_unique Z.eqb (std_sort Z.ltb support)).
  assert (StrictSorted Z.ltb l) as Hsort.
  { apply sort_unique_strict; [apply _|]. intros. apply Z.eqb_eq. }
  assert (validate_evidence (normalize_evidence_value (make_evidence function run_id seed method support))
    = Ok tt) as ->; [|done].
  unfold normalize_evidence_value, validate_evidence, make_evidence.
  cbn [ev_producer ev_method ev_proof ev_confidence ev_scope ev_support_addresses ev_detail
       sc_function_start sc_function_end]. fold l.
  destruct (Z.eqb_spec (str_len method) 0); [lia|].
  unfold range_valid. destruct (Z.ltb_spec (fr_start function) (function_extent function)); [|lia].
  rewrite (proj2 (is_sorted_iff Z.ltb l)) by (apply StrictSorted_le; [apply _|done]).
  rewrite (StrictSorted_adjacent Z.ltb) by (first [done|intros; lia]).
  assert (zlen l <= 2) as Hl.
  { etransitivity; [|exact Hs]. unfold zlen. apply inj_le.
    apply submseteq_length, NoDup_submseteq; [by eapply (StrictSorted_NoDup Z.ltb)|].
    intros x. unfold l. rewrite elem_of_sort_unique by (apply _ || (intros; apply Z.eqb_eq)). done. }
  assert (u32_max <? zlen l = false) as -> by (unfold u32_max; lia).
  assert (u32_max <? str_len method = false) as -> by (unfold u32_max; lia). done.
Qed.

Lemma bridge_accept payload run_id seed method support :
  fr_start function < function_extent function -> 0 < str_len method <= 100 ->
  zlen support <= 2 -> validate_payload payload = Ok tt ->
  match payload with P_FunctionTrait _ => False | _ => True end ->
  payload_reachability payload <> Some Reachability_ProvenUnreachable ->
  let g := {| af_payload := payload;
              af_evidence := make_evidence function run_id seed method support |} in
  accept g = Ok (recorded g).
Proof.
  intros He Hm Hs Hv Ht Hr g. unfold accept, normalize_fact, recorded. cbn [af_payload af_evidence g].
  rewrite (normalize_payload_valid _ Hv). cbn [result_bind].
  pose proof (bridge_evidence_valid run_id seed method support He Hm Hs) as Hn. rewrite Hn.
  cbn [result_bind]. pose proof (normalize_evidence_ok _ _ Hn) as (_ & Hev & _).
  unfold validate_fact. cbn [af_payload af_evidence]. rewrite Hv. cbn [result_bind]. rewrite Hev.
  cbn [result_bind].
  destruct (payload_reachability payload == Some Reachability_ProvenUnreachable)%viy eqn:E;
    [by apply bool_decide_eq_true in E|]. cbn [andb result_bind af_payload].
  destruct (encode_payload_total payload) as [w ->]; [done|by destruct payload|done].
Qed.

(** An evidence without an extent is never accepted. *)
Lemma bridge_refuse payload run_id seed method support :
  function_extent function <= fr_start function ->
  is_ok (accept {| af_payload := payload;
                   af_evidence := make_evidence function run_id seed method support |}) = false.
Proof.
  intros He. unfold accept, normalize_fact. cbn [af_payload af_evidence].
  destruct (normalize_payload payload); [|done]. cbn [result_bind].
  destruct (normalize_evidence _) as [e|] eqn:E; [|done]. exfalso.
  unfold normalize_evidence in E. cbn zeta in E. inv_ok E. destruct a0.
  unfold validate_evidence in Hm. cbn in Hm. inv_ok Hm. unfold range_valid in Hg1.
  destruct (Z.ltb_spec (fr_start function) (function_extent function)); [lia|done].
Qed.

Lemma scalar_bytes_length value size be : 0 <= size -> zlen (scalar_bytes value size be) = Z.min size 8.
Proof. intros. unfold scalar_bytes, zlen. rewrite length_map, length_seqZ. lia. Qed.

Lemma in_image_u64 address : in_image address -> is_u64 address.
Proof.
  intros (s & Hs & Hr). pose proof (bt_ends Htyped) as Hall. rewrite Forall_forall in Hall.
  specialize (Hall _ Hs). unfold is_u64, u64_max in *. lia.
Qed.

Lemma range_valid_u64 address size :
  range_in_image address size -> is_u64 address /\ sized_range_valid address size = true.
Proof.
  intros (Hs & He & s & Hin & ? & ?). pose proof (bt_ends Htyped) as Hall. rewrite Forall_forall in Hall.
  specialize (Hall _ Hin). unfold is_u64, sized_range_valid, u64_max in *.
  rewrite (proj2 (Z.eqb_neq size 0)) by lia. cbn [negb andb]. split; [lia|]. apply Z.leb_le. lia.
Qed.

Lemma make_evidence_typed run_id seed method support :
  is_u64 run_id -> is_u64 seed -> Forall is_u64 support ->
  evidence_typed (make_evidence function run_id seed method support).
Proof.
  intros. pose proof (bt_start Htyped). pose proof (bt_end Htyped). pose proof (bt_generation Htyped).
  split_and!; cbn; [|done..]. unfold is_u16. lia.
Qed.

(** The shape of every offered fact. *)
Record bridge_fact (g : AnalysisFact) : Prop := {
  bf_evidence : exists run_id seed method support,
    af_evidence g = make_evidence function run_id seed method support /\
    0 < str_len method <= 100 /\ zlen support <= 2;
  bf_valid : final_bytes_fit -> validate_payload (af_payload g) = Ok tt;
  bf_trait : match af_payload g with P_FunctionTrait _ => False | _ => True end;
  bf_reachable : payload_reachability (af_payload g) <> Some Reachability_ProvenUnreachable;
  bf_typed : fact_typed g
}.

#[local] Ltac bridge_fact_of evidence :=
  split; [by do 4 eexists; split_and!; [reflexivity|..]| | |done|];
  [intros Hfit; cbn|done|split; [cbn|apply make_evidence_typed; try done;
    repeat (apply List.Forall_cons; [done|]); apply List.Forall_nil]].

Lemma edge_typed edge :
  edge ∈ ee_edges events ->
  is_u64 (edge_from edge) /\ is_u64 (edge_to edge) /\ is_u64 (edge_run_id edge) /\ is_u64 (edge_seed edge).
Proof. pose proof (bt_edges Htyped) as Hall. rewrite Forall_forall in Hall. apply Hall. Qed.

Lemma access_typed access :
  access ∈ ee_data events ->
  is_u64 (acc_from access) /\ is_u64 (acc_addr access) /\ is_u32 (acc_size access) /\
  is_u64 (acc_run_id access) /\ is_u64 (acc_seed access).
Proof.
  pose proof (bt_data Htyped) as Hall. rewrite Forall_forall in Hall.
  intros Ha. by destruct (Hall _ Ha) as (? & ? & ? & ? & ? & _).
Qed.

Lemma access_kind_valid kind :
  enum_between (access_kind codes kind) MemoryAccessKind_Read MemoryAccessKind_ReadWrite = true.
Proof. unfold access_kind. by destruct (_ =? _). Qed.

Lemma observed_edge_shape edge g :
  edge ∈ ee_edges events -> g ∈ edge_facts edge -> bridge_fact g.
Proof.
  intros He (_ & _ & _ & Hg)%elem_of_edge_facts.
  destruct (edge_typed _ He) as (? & ? & ? & ?).
  destruct Hg as [->|[->|[->|[_ ->]]]]; bridge_fact_of tt; try done.
  - by destruct (edge_kind edge).
  - by destruct (edge_kind edge).
Qed.

Lemma observed_access_shape access g :
  access ∈ ee_data events -> g ∈ access_facts access -> bridge_fact g.
Proof.
  intros Ha ((_ & _ & _ & Hr) & Hg)%elem_of_access_facts; [|done].
  destruct (access_typed _ Ha) as (? & ? & Hsz & ? & ?). apply range_valid_u64 in Hr as [? Hv].
  assert (0 < acc_size access) as Hpos.
  { unfold sized_range_valid, is_u32 in *. lia. }
  destruct Hg as [->|[Hle ->]]; bridge_fact_of tt; try done.
  - by rewrite access_kind_valid, Hv.
  - rewrite access_kind_valid. cbn [negb]. rewrite scalar_bytes_length, Z.min_l by lia. rewrite Hv.
    cbn [negb]. by rewrite (proj2 (Z.ltb_ge u32_max _)) by (unfold u32_max; lia).
Qed.

Lemma observed_state_shape point g :
  point ∈ ee_states events -> g ∈ state_facts point -> bridge_fact g.
Proof.
  intros Hp (r & Hr & Hw & ->)%elem_of_state_facts; [|done].
  pose proof (bt_states Htyped) as Hall. rewrite Forall_forall in Hall.
  destruct (Hall _ Hp) as (? & ? & ? & ? & Hregs). rewrite Forall_forall in Hregs.
  destruct (Hregs _ Hr) as [_ Hint]. bridge_fact_of tt; try done.
  pose proof (register_name_length names rax (im_arch img) _ (bt_banks Htyped) Hint) as Hlen.
  set (name := register_name names rax (im_arch img) (rv_reg r)) in *.
  rewrite (scalar_bytes_length (rv_value r)), Z.min_l by lia.
  destruct (Z.eqb_spec (str_len name) 0); [lia|]. destruct (Z.eqb_spec (rv_width r) 0); [lia|].
  destruct (Z.ltb_spec u32_max (str_len name)); [unfold u32_max in *; lia|].
  by destruct (Z.ltb_spec u32_max (rv_width r)); [unfold u32_max in *; lia|].
Qed.

Lemma final_writer_typed memory :
  0 < zlen (mb_bytes memory) -> mb_addr memory + zlen (mb_bytes memory) <= u64_max ->
  is_u64 (final_writer codes function (ee_data events) memory).
Proof.
  intros Hl Hm. destruct (final_writer_last _ Hl Hm) as [[-> _]|(n & a & Hn & _ & -> & _)].
  - apply Htyped.
  - by apply (access_typed a), (list_elem_of_lookup_2 _ n).
Qed.

Lemma observed_final_shape memory g :
  memory ∈ ee_final_writes events -> g ∈ final_facts memory -> bridge_fact g.
Proof.
  intros Hin (_ & Hr & ->)%elem_of_final_facts.
  pose proof (bt_final Htyped) as Hall. rewrite Forall_forall in Hall. destruct (Hall _ Hin) as (? & ? & ?).
  assert (is_u64 (final_writer codes function (ee_data events) memory)).
  { destruct Hr as (? & ? & _). by apply final_writer_typed. }
  apply range_valid_u64 in Hr as [? Hv]. unfold final_fact. cbn zeta. bridge_fact_of tt; try done.
  rewrite Hv. cbn [negb]. unfold final_bytes_fit in Hfit. rewrite Forall_forall in Hfit.
  specialize (Hfit _ Hin). by destruct (Z.ltb_spec u32_max (zlen (mb_bytes memory))); [lia|].
Qed.

Lemma observed_outcome_shape outcome :
  outcome ∈ outcomes -> bridge_fact (outcome_fact codes function outcome).
Proof.
  intros Ho. pose proof (bt_outcomes Htyped) as Hall. rewrite Forall_forall in Hall.
  destruct (Hall _ Ho) as (? & ? & ? & ? & ?). pose proof (bt_start Htyped).
  bridge_fact_of tt; try done.
  - unfold stop_kind. cbn zeta. by repeat case_match.
  - split_and!; [done|by destruct (oc_stop_valid _)|by destruct (oc_sp_valid _)|done].
Qed.

Lemma offered_shape g : g ∈ offered_facts -> bridge_fact g.
Proof.
  unfold offered_facts. rewrite !elem_of_app, !elem_of_concat_map, list_elem_of_fmap.
  intros [(e & ? & ?)|[(a & ? & ?)|[(p & ? & ?)|[(m & ? & ?)|(o & -> & ?)]]]].
  - by eapply observed_edge_shape.
  - by eapply observed_access_shape.
  - by eapply observed_state_shape.
  - by eapply observed_final_shape.
  - by apply observed_outcome_shape.
Qed.
End Facts.

(** ** Counting *)

Definition stats_total (stats : EvidenceBridgeStats) : Z :=
  eb_inserted_records stats + eb_added_observations stats + eb_duplicates stats + eb_rejected stats.

(** What counting keeps: the records and observations that the counters do not explain. *)
Definition unexplained (st : EvidenceBridgeStats * EvidenceStore) : Z * Z :=
  (record_count st.2 - eb_inserted_records st.1,
   observation_count st.2 - eb_inserted_records st.1 - eb_added_observations st.1).

Lemma observation_count_new (s s' : EvidenceStore) f :
  store_wf s -> store_wf s' -> f ∉ flattened_facts s ->
  (forall x, x ∈ flattened_facts s' <-> x = f \/ x ∈ flattened_facts s) ->
  observation_count s' = observation_count s + 1.
Proof.
  intros [Hs _] [Hs' _] Hf Hx. rewrite !observation_count_flattened.
  assert (flattened_facts s' ≡ₚ f :: flattened_facts s) as Hp.
  { apply NoDup_Permutation; [by apply flattened_NoDup| |].
    - constructor; [done|by apply flattened_NoDup].
    - intros x. rewrite Hx, elem_of_cons. done. }
  unfold zlen. rewrite Hp. cbn. lia.
Qed.

Lemma offer_step fact st :
  store_wf st.2 -> fact_typed fact ->
  unexplained (offer fact st) = unexplained st /\
  eb_rejected (offer fact st).1 = eb_rejected st.1 + (if is_ok (accept fact) then 0 else 1) /\
  stats_total (offer fact st).1 = stats_total st.1 + 1.
Proof.
  destruct st as [stats s]. cbn [snd fst]. intros Hs Ht.
  pose proof (add_disposition s fact Hs Ht) as Hd. pose proof (add_wf s fact Hs Ht) as Hs'.
  pose proof (fun x => add_facts_iff s fact x (proj1 Hs) Ht) as Hfacts.
  unfold offer, unexplained, stats_total, bridge_account. cbn [snd fst].
  destruct (add fact s) as [result s']. cbn [snd fst] in *.
  destruct (ar_disposition result); cbn [eb_inserted_records eb_added_observations eb_duplicates eb_rejected].
  - destruct Hd as (Hr & f & Ha & Hn & _). rewrite Ha.
    rewrite (observation_count_new s s' f) by (done || (intros x; rewrite Hfacts, Ha; naive_solver)).
    cbn [is_ok]. rewrite Hr. split_and!; [f_equal; lia|lia..].
  - destruct Hd as (Hr & f & Ha & Hn & _). rewrite Ha.
    rewrite (observation_count_new s s' f) by (done || (intros x; rewrite Hfacts, Ha; naive_solver)).
    cbn [is_ok]. rewrite Hr. split_and!; [f_equal; lia|lia..].
  - destruct Hd as (-> & f & -> & _). cbn [is_ok]. split_and!; [f_equal; lia|lia..].
  - destruct Hd as (-> & ->). cbn [is_ok]. split_and!; [f_equal; lia|lia..].
Qed.

Lemma offer_all_steps facts st :
  store_wf st.2 -> Forall fact_typed facts ->
  let st' := offer_all facts st in
  st'.2 = ledger_add_all facts st.2 /\ unexplained st' = unexplained st /\
  eb_rejected st'.1 = eb_rejected st.1 + zlen (List.filter (fun f => negb (is_ok (accept f))) facts) /\
  stats_total st'.1 = stats_total st.1 + zlen facts.
Proof.
  intros Hs Hf. revert st Hs. induction Hf as [|f facts Hf Hfs IH]; intros st Hs.
  { cbn. unfold zlen. cbn. split_and!; [done..|lia|lia]. }
  cbn zeta. cbn [List.filter]. destruct (offer_step f st Hs Hf) as (Hu & Hr & Ht).
  assert ((offer f st).2 = (add f st.2).2) as Hstore.
  { unfold offer. by destruct (add f st.2). }
  destruct (IH (offer f st)) as (IH1 & IH2 & IH3 & IH4); [rewrite Hstore; by apply add_wf|].
  change (offer_all (f :: facts) st) with (offer_all facts (offer f st)).
  rewrite IH1, IH2, IH3, IH4, Hu, Hr, Ht, Hstore, zlen_cons.
  split_and!; [done..| |lia]. destruct (is_ok (accept f)); cbn [negb]; rewrite ?zlen_cons; lia.
Qed.

End Specification.

Lemma store_add_all_facts (facts : list AnalysisFact) (s : EvidenceStore) f :
  store_wf s -> Forall fact_typed facts ->
  f ∈ flattened_facts (ledger_add_all facts s) <->
  (exists g, g ∈ facts /\ accept g = Ok f) \/ f ∈ flattened_facts s.
Proof. exact (ledger_add_all_facts (Ledger0 := store_ledger) facts s f). Qed.

(** ** Theorems *)

Section Theorems.
Context (codes : RaxCodes) (names : RaxRegisterNames) (rax : RaxRegisters).
Context (img : ProgramImage) (function : FuncRange) (events : EmuEvents).
Context (outcomes : list ObservedOutcome).

#[local] Notation typed := (bridge_typed rax img function events outcomes).
#[local] Notation observed := (observed codes names rax img function events outcomes).
#[local] Notation record store :=
  (viy_record_emulation_evidence codes names rax img function store events outcomes).
#[local] Notation offered := (offered_facts codes names rax img function events outcomes).

Lemma offered_typed : typed -> Forall fact_typed offered.
Proof.
  intros Ht. apply Forall_forall. intros g Hg.
  eapply bf_typed, (offered_shape codes names); [exact Ht|exact Hg].
Qed.

Lemma offered_accepted g :
  typed -> fr_start function < function_extent function -> final_bytes_fit events ->
  g ∈ offered -> accept g = Ok (recorded g).
Proof.
  intros Ht He Hf Hg. destruct (offered_shape _ _ _ _ _ _ _ Ht _ Hg) as [Hev Hv Htr Hr _].
  destruct Hev as (run & seed & method & support & Hev & Hm & Hs). destruct g as [payload ev].
  cbn [af_payload af_evidence] in *. subst ev. by apply bridge_accept; try apply Hv.
Qed.

(** C10: the store gains exactly the facts that the log supports.  For a function with an
    extent, recording rejects nothing, the store holds what it held and the observed facts
    with their support addresses sorted, the counters say how many records and
    observations are new, and recording the same log again changes nothing. *)
Theorem bridge_records_observations store :
  store_wf store -> typed -> fr_start function < function_extent function ->
  final_bytes_fit events ->
  let '(stats, store') := record store in
  store_wf store' /\
  (forall f, f ∈ flattened_facts store' <->
     f ∈ flattened_facts store \/ exists g, observed g /\ f = recorded g) /\
  eb_rejected stats = 0 /\
  record_count store' = record_count store + eb_inserted_records stats /\
  observation_count store' =
    observation_count store + eb_inserted_records stats + eb_added_observations stats /\
  store_equiv (record store').2 store'.
Proof.
  intros Hs Ht He Hf. pose proof (offered_typed Ht) as Htyped.
  pose proof (fun g Hg => offered_accepted g Ht He Hf Hg) as Hacc.
  rewrite recorded_offers. pose proof (offer_all_steps offered (no_stats, store) Hs Htyped) as Hsteps.
  destruct (offer_all _ _) as [stats store'] eqn:E. cbn [fst snd] in Hsteps.
  destruct Hsteps as (-> & Hu & Hr & _).
  pose proof (ledger_add_all_ok offered store Hs Htyped) as Hs'.
  assert (forall f, f ∈ flattened_facts (ledger_add_all offered store) <->
    f ∈ flattened_facts store \/ exists g, observed g /\ f = recorded g) as Hfacts.
  { intros f. rewrite (store_add_all_facts offered store f Hs Htyped).
    setoid_rewrite (observed_offered codes names rax img function events outcomes Ht).
    split.
    - intros [(g & Hg & Hok)|?]; [|by left]. right. exists g. rewrite (Hacc _ Hg) in Hok.
      split; [done|congruence].
    - intros [?|(g & Hg & ->)]; [by right|left]. exists g. split; [done|by apply Hacc]. }
  split_and!; [done..| | | |].
  - rewrite Hr. assert (List.filter (fun f => negb (is_ok (accept f))) offered = []) as ->; [|done].
    destruct (List.filter _ offered) as [|g l] eqn:El; [done|]. exfalso.
    assert (g ∈ List.filter (fun f => negb (is_ok (accept f))) offered) as Hg by (rewrite El; left).
    apply elem_of_filter in Hg as [Hg1 Hg2]. by rewrite (Hacc _ Hg2) in Hg1.
  - injection Hu. cbn. lia.
  - injection Hu. cbn. lia.
  - rewrite recorded_offers. destruct (offer_all_steps offered (no_stats, ledger_add_all offered store) Hs' Htyped)
      as (-> & _). cbn [snd].
    pose proof (ledger_add_all_ok offered _ Hs' Htyped) as Hs2.
    apply records_ext; [apply (proj1 Hs2)|apply (proj1 Hs')|].
    intros f. rewrite (store_add_all_facts offered _ f Hs' Htyped).
    split; [|by right]. intros [(g & Hg & Hok)|?]; [|done]. apply Hfacts. right. exists g.
    split; [by apply observed_offered|]. cbn in Hok. rewrite (Hacc _ Hg) in Hok. congruence.
Qed.

(** Without an extent nothing is recorded.  When no chunk of the function ends after
    its entry, every fact is rejected and the store is unchanged. *)
Theorem bridge_without_extent store :
  store_wf store -> typed -> function_extent function <= fr_start function ->
  let '(stats, store') := record store in
  store' = store /\ eb_inserted_records stats = 0 /\ eb_added_observations stats = 0 /\
  eb_duplicates stats = 0 /\ eb_rejected stats = zlen offered.
Proof.
  intros Hs Ht He. rewrite recorded_offers.
  assert (forall g, g ∈ offered -> is_ok (accept g) = false) as Hno.
  { intros g Hg. destruct (offered_shape _ _ _ _ _ _ _ Ht _ Hg) as [Hev _ _ _ _].
    destruct Hev as (run & seed & method & support & Hev & _). destruct g as [payload ev].
    cbn [af_payload af_evidence] in *. subst ev. by apply bridge_refuse. }
  revert Hno. generalize offered. intros l Hno.
  assert (forall stats, offer_all l (stats, store) =
    ({| eb_inserted_records := eb_inserted_records stats;
        eb_added_observations := eb_added_observations stats;
        eb_duplicates := eb_duplicates stats; eb_rejected := eb_rejected stats + zlen l |}, store)) as H.
  { induction l as [|g l IH]; intros stats.
    - cbn. unfold zlen. cbn. rewrite Z.add_0_r. by destruct stats.
    - change (offer_all (g :: l) (stats, store)) with (offer_all l (offer g (stats, store))).
      unfold offer. cbn [fst snd]. destruct (accept g) as [x|m] eqn:Ea.
      { specialize (Hno g ltac:(left)). by rewrite Ea in Hno. }
      rewrite (add_rejected _ _ _ Ea). rewrite IH by (intros; apply Hno; by right).
      cbn. rewrite zlen_cons, !Z.add_0_r. f_equal. f_equal. lia. }
  rewrite H. cbn. split_and!; done || lia.
Qed.
End Theorems.

(** ** Register names *)

Lemma name_at_inj names first reg reg' :
  NoDup names -> between first reg (first + zlen names - 1) = true ->
  between first reg' (first + zlen names - 1) = true ->
  name_at names (reg - first) = name_at names (reg' - first) -> reg = reg'.
Proof.
  unfold between, name_at, zlen. intros Hn Hr Hr' He.
  destruct (lookup_lt_is_Some_2 names (Z.to_nat (reg - first))) as [s Hs]; [lia|].
  destruct (lookup_lt_is_Some_2 names (Z.to_nat (reg' - first))) as [s' Hs']; [lia|].
  rewrite Hs, Hs' in He. cbn in He. subst s'.
  assert (Z.to_nat (reg - first) = Z.to_nat (reg' - first)) by (by eapply NoDup_lookup). lia.
Qed.

Lemma name_at_other names index (name : string) :
  name ∉ EmptyString :: names -> "x86:" +:+ name <> "x86:" +:+ name_at names index.
Proof.
  intros Hn He. apply (inj (String.append _)) in He. subst name. apply Hn. unfold name_at.
  destruct (names !! Z.to_nat index) as [s|] eqn:E; [|by left].
  right. by apply (list_elem_of_lookup_2 _ (Z.to_nat index)).
Qed.

Lemma to_string_inj z z' : to_string z = to_string z' -> z = z'.
Proof. apply (inj pretty). Qed.

(** Registers of one architecture never share a name in the evidence, so their values
    are not mixed up; the x86 banks are numbered without gaps. *)
Theorem register_name_injective (names : RaxRegisterNames) (rax : RaxRegisters) arch reg reg' :
  RAX_X86_GPR64 names 15 = RAX_X86_GPR64 names 0 + 15 ->
  RAX_X86_GPR32 names 7 = RAX_X86_GPR32 names 0 + 7 ->
  register_name names rax arch reg = register_name names rax arch reg' -> reg = reg'.
Proof.
  intros H64 H32. unfold register_name.
  assert (known_register names rax arch reg = None -> known_register names rax arch reg' = None ->
    "rax:" +:+ to_string (arch_value arch) +:+ ":" +:+ to_string reg =
    "rax:" +:+ to_string (arch_value arch) +:+ ":" +:+ to_string reg' -> reg = reg') as Hfall.
  { intros _ _ He. do 3 apply (inj (String.append _)) in He. by apply to_string_inj. }
  assert (forall name, known_register names rax arch reg = Some name \/
      known_register names rax arch reg' = Some name ->
    name <> "rax:" +:+ to_string (arch_value arch) +:+ ":" +:+ to_string reg /\
    name <> "rax:" +:+ to_string (arch_value arch) +:+ ":" +:+ to_string reg') as Hknown.
  { intros name [H|H]; unfold known_register in H; destruct arch; try done;
      repeat case_match; simplify_eq; split; discriminate. }
  destruct (known_register names rax arch reg) as [n|] eqn:E,
    (known_register names rax arch reg') as [n'|] eqn:E'; [|naive_solver..].
  intros ->. clear Hfall Hknown. unfold known_register in E, E'.
  destruct arch; try done; repeat case_match; simplify_eq; try done; try lia.
  all: repeat match goal with H : String.append _ _ = String.append _ _ |- _ =>
         apply (inj (String.append _)) in H end.
  all: try match goal with H : to_string _ = to_string _ |- _ => apply to_string_inj in H; lia end.
  - assert (zlen x86_32_names = 8) as Hlen by done.
    apply name_at_inj in E; [done|by apply (bool_decide_unpack _)|..];
      by replace (RAX_X86_GPR32 names 0 + zlen x86_32_names - 1) with (RAX_X86_GPR32 names 7) by lia.
  - by apply (name_at_other _ _ "eip") in E; [|apply (bool_decide_unpack _)].
  - symmetry in E. by apply (name_at_other _ _ "eip") in E; [|apply (bool_decide_unpack _)].
  - assert (zlen x86_64_names = 16) as Hlen by done.
    apply name_at_inj in E; [done|by apply (bool_decide_unpack _)|..];
      by replace (RAX_X86_GPR64 names 0 + zlen x86_64_names - 1) with (RAX_X86_GPR64 names 15) by lia.
  - by apply (name_at_other _ _ "rip") in E; [|apply (bool_decide_unpack _)].
  - symmetry in E. by apply (name_at_other _ _ "rip") in E; [|apply (bool_decide_unpack _)].
Qed.

(** ** A concrete log *)

Definition sample_codes : RaxCodes := {|
  RAX_MEM_READ := 1; RAX_MEM_WRITE := 2; RAX_MEM_FETCH := 4; RAX_STOP_UNTIL := 1;
  RAX_STOP_HLT := 2; RAX_STOP_SHUTDOWN := 3; RAX_STOP_TIMEOUT := 4; RAX_STOP_COUNT := 5;
  RAX_STOP_EXCEPTION := 6 |}.

Definition sample_names : RaxRegisterNames := {|
  RAX_X86_GPR64 := fun n => 100 + n; RAX_X86_GPR32 := fun n => 200 + n; RAX_X86_REG_RIP := 120;
  RAX_X86_REG_EIP := 220; RAX_ARM64_REG_SP := 340; RAX_ARM64_REG_PC := 341;
  RAX_ARM_REG_SP := 413; RAX_ARM_REG_LR := 414; RAX_ARM_REG_PC := 415; RAX_REG_SP := 3;
  RAX_CM_REG_LR := 514; RAX_CM_REG_PC := 515; RAX_RISCV_REG_PC := 640; RAX_HEX_REG_PC := 740 |}.

Definition bridge_image : ProgramImage := {|
  im_arch := X86_64; im_big_endian := false; im_lo := 0x1000; im_hi := 0x3000;
  im_segs := [{| sg_start := 0x1000; sg_end := 0x2000; sg_perm := 5; sg_bitness := 2;
                 sg_bytes := []; sg_mask := [] |};
              {| sg_start := 0x2000; sg_end := 0x3000; sg_perm := 6; sg_bitness := 2;
                 sg_bytes := []; sg_mask := [] |}];
  im_entries := []; im_content_hash := 0; im_generation := 1 |}.

Definition bridge_function : FuncRange := {|
  fr_start := 0x1000; fr_end := 0x1080; fr_chunks := []; fr_byte_hash := 0; fr_generation := 1 |}.

(** A call, a return to the sentinel, which is outside the image, two overlapping writes,
    a register state and the final bytes. *)
Definition bridge_events : EmuEvents := {|
  ee_edges := [{| edge_from := 0x1010; edge_to := 0x1100; edge_run_id := 1; edge_seed := 7;
                  edge_kind := ExecEdge_Call; edge_sequence := 3 |};
               {| edge_from := 0x1020; edge_to := 0x7ffd00001000; edge_run_id := 1; edge_seed := 7;
                  edge_kind := ExecEdge_Return; edge_sequence := 9 |}];
  ee_execution := [];
  ee_data := [{| acc_from := 0x1004; acc_addr := 0x2000; acc_value := 0x4142; acc_size := 2;
                 acc_kind := 2; acc_scope := DataScope_IMAGE; acc_sequence := 1;
                 acc_run_id := 1; acc_seed := 7 |};
              {| acc_from := 0x1008; acc_addr := 0x2001; acc_value := 0x43; acc_size := 1;
                 acc_kind := 2; acc_scope := DataScope_IMAGE; acc_sequence := 2;
                 acc_run_id := 1; acc_seed := 7 |}];
  ee_states := [{| sp_source := 0x1010; sp_pc := 0x1100;
                   sp_regs := [{| rv_reg := 100; rv_value := 0x2000; rv_width := 8 |}];
                   sp_run_id := 1; sp_seed := 7 |}];
  ee_final_writes := [{| mb_addr := 0x2000; mb_bytes := [x42; x43]; mb_scope := DataScope_IMAGE;
                         mb_run_id := 1; mb_seed := 7 |}];
  ee_exec_pcs := ∅ |}.

Definition bridge_outcomes : list ObservedOutcome :=
  [{| ob_outcome := {| oc_stop_reason := 1; oc_stop_pc := 0x7ffd00001000; oc_stop_valid := true;
        oc_instruction_count := 12; oc_returned := true; oc_sp_valid := true; oc_sp_delta := 8;
        oc_terminated_process := false; oc_summarized_calls := 0 |};
      ob_run_id := 1; ob_seed := 7 |}].

(** The last of the two writes is named as the source of the final bytes. *)
Example sample_final_writer :
  final_writer sample_codes bridge_function (ee_data bridge_events)
    {| mb_addr := 0x2000; mb_bytes := [x42; x43]; mb_scope := DataScope_IMAGE;
       mb_run_id := 1; mb_seed := 7 |} = 0x1008.
Proof. reflexivity. Qed.

Example sample_record :
  (viy_record_emulation_evidence sample_codes sample_names sample_registers bridge_image
     bridge_function empty_store bridge_events bridge_outcomes).1 =
  {| eb_inserted_records := 11; eb_added_observations := 0; eb_duplicates := 0; eb_rejected := 0 |}.
Proof. vm_compute. reflexivity. Qed.

Lemma bridge_sample_typed function :
  fr_start function = 0x1000 -> 0 <= function_extent function <= 0x1080 -> fr_generation function = 1 ->
  bridge_typed sample_registers bridge_image function bridge_events bridge_outcomes.
Proof.
  intros H1 H2 H3. split; unfold is_u64; rewrite ?H1, ?H3; try lia.
  - split; cbn; repeat constructor; cbn; lia.
  - cbn. repeat constructor; cbn; unfold u64_max; lia.
  - cbn. unfold is_u64. repeat constructor; cbn; lia.
  - cbn. unfold is_u64, is_u32. repeat constructor; cbn; lia.
  - cbn. unfold is_u64, is_int. repeat constructor; cbn; lia.
  - unfold banks_typed, is_int. cbn. lia.
  - cbn. unfold is_u64. repeat constructor; cbn; lia.
  - cbn. unfold is_u64, is_i64. repeat constructor; cbn; lia.
Qed.

Lemma bridge_records_observations_witness :
  store_wf empty_store /\
  bridge_typed sample_registers bridge_image bridge_function bridge_events bridge_outcomes /\
  fr_start bridge_function < function_extent bridge_function /\ final_bytes_fit bridge_events /\
  let '(stats, store') := viy_record_emulation_evidence sample_codes sample_names sample_registers
    bridge_image bridge_function empty_store bridge_events bridge_outcomes in
  record_count store' = record_count empty_store + eb_inserted_records stats /\
  eb_rejected stats = 0.
Proof.
  assert (bridge_typed sample_registers bridge_image bridge_function bridge_events bridge_outcomes) as Ht.
  { apply bridge_sample_typed; [reflexivity|split; [discriminate|discriminate]|reflexivity]. }
  assert (final_bytes_fit bridge_events) as Hf.
  { apply List.Forall_cons; [vm_compute; discriminate|apply List.Forall_nil]. }
  assert (fr_start bridge_function < function_extent bridge_function) as He by reflexivity.
  pose proof (bridge_records_observations sample_codes sample_names sample_registers bridge_image
    bridge_function bridge_events bridge_outcomes empty_store empty_store_wf Ht He Hf) as H.
  split; [exact empty_store_wf|]. split; [exact Ht|]. split; [exact He|]. split; [exact Hf|].
  destruct (viy_record_emulation_evidence _ _ _ _ _ _ _ _) as [stats store'].
  destruct H as (_ & _ & Hr & Hc & _). split; [exact Hc|exact Hr].
Defined.

(** A function whose only chunk is empty. *)
Definition empty_function : FuncRange := {|
  fr_start := 0x1000; fr_end := 0x1000; fr_chunks := []; fr_byte_hash := 0; fr_generation := 1 |}.

Lemma bridge_without_extent_witness :
  store_wf empty_store /\
  bridge_typed sample_registers bridge_image empty_function bridge_events bridge_outcomes /\
  function_extent empty_function <= fr_start empty_function /\
  (viy_record_emulation_evidence sample_codes sample_names sample_registers bridge_image
    empty_function empty_store bridge_events bridge_outcomes).2 = empty_store.
Proof.
  assert (bridge_typed sample_registers bridge_image empty_function bridge_events bridge_outcomes) as Ht.
  { apply bridge_sample_typed; [reflexivity|split; [discriminate|discriminate]|reflexivity]. }
  assert (function_extent empty_function <= fr_start empty_function) as He by discriminate.
  pose proof (bridge_without_extent sample_codes sample_names sample_registers bridge_image
    empty_function bridge_events bridge_outcomes empty_store empty_store_wf Ht He) as H.
  split; [exact empty_store_wf|]. split; [exact Ht|]. split; [exact He|].
  destruct (viy_record_emulation_evidence _ _ _ _ _ _ _ _) as [stats store'].
  destruct H as (-> & _). reflexivity.
Defined.

Lemma register_name_injective_witness :
  RAX_X86_GPR64 sample_names 15 = RAX_X86_GPR64 sample_names 0 + 15 /\
  RAX_X86_GPR32 sample_names 7 = RAX_X86_GPR32 sample_names 0 + 7 /\
  (register_name sample_names sample_registers X86_64 100 =
     register_name sample_names sample_registers X86_64 (101 - 1) -> 100 = 101 - 1).
Proof.
  split; [reflexivity|]. split; [reflexivity|].
  exact (register_name_injective sample_names sample_registers X86_64 100 (101 - 1) eq_refl eq_refl).
Defined.
