(* ===== verification/EmuMachine.v ===== *)
(** * The state of a run in the emulator (emu_driver.hpp, emu_driver.cpp)

    The hooks of a run share a context with the engine.  The engine is outside the
    repository: a class of operations on a type of engines, with the laws of a machine
    that has registers and a byte memory.  A hook is a computation on the pair of
    context and engine that may fail; what it did before it failed stays done.

    Here are the context, the queries on it, the permission check of accesses to the
    image and the restoration of forbidden writes. *)
From stdpp Require Import base numbers list strings option sets gmap.
From Stdlib Require Import ZArith Init.Byte Lia.
From S2P Require Import Prelude OrderedMap ProgramModel RuntimeWrites AbiPolicy DecoderCore.
From S2P Require Import WorkerFingerprint EmuEvents EvidenceBridge.

(** ** The engine *)

(** The functions of the engine that hooks call.  A read returns nothing, and a write
    false, when the status is not [RAX_OK].  [mem_read] may be missing. *)
Class RaxEngine (E : Type) := {
  reg_read_u64 : Z -> E -> option Z;
  reg_write_u64 : Z -> Z -> E -> bool * E;
  has_mem_read : bool;
  mem_read : Z -> Z -> E -> option bytes;
  mem_write : Z -> bytes -> E -> bool * E;
  emu_stop : E -> E
}.

(** The byte of [bs], placed at [address], that lies at [x]. *)
Definition placed (address : Z) (bs : bytes) (x : Z) : option byte :=
  if (address <=? x) && (x <? address + zlen bs) then bs !! Z.to_nat (x - address) else None.

(** The machine behind the functions: a memory of mapped bytes, and registers of a width
    that keep the low bits of what is written to them. *)
Class RaxEngineLaws (E : Type) `{RaxEngine E} := {
  byte_at : E -> Z -> option byte;
  register_bits : Z -> Z;
  independent : Z -> Z -> Prop;
  reg_read_range reg e value : reg_read_u64 reg e = Some value -> is_u64 value;
  mem_read_law address size e bs :
    mem_read address size e = Some bs ->
    zlen bs = size /\
    forall x, address <= x < address + size -> byte_at e x = placed address bs x;
  mem_write_law address bs e e' :
    mem_write address bs e = (true, e') ->
    (forall x, byte_at e' x =
       match placed address bs x with Some b => Some b | None => byte_at e x end) /\
    forall reg, reg_read_u64 reg e' = reg_read_u64 reg e;
  reg_write_law reg value e e' :
    reg_write_u64 reg value e = (true, e') ->
    reg_read_u64 reg e' = Some (value mod 2 ^ register_bits reg) /\
    (forall other, independent reg other -> reg_read_u64 other e' = reg_read_u64 other e) /\
    forall x, byte_at e' x = byte_at e x;
  emu_stop_law e :
    (forall reg, reg_read_u64 reg (emu_stop e) = reg_read_u64 reg e) /\
    forall x, byte_at (emu_stop e) x = byte_at e x
}.

(** ** The context of the hooks *)

Record DecodeEntry : Type := {
  dc_pc : Z;
  dc_size : Z;
  dc_kind : ExecEdgeKind;
  dc_occupied : bool;
  dc_valid : bool
}.

Definition empty_entry : DecodeEntry :=
  {| dc_pc := 0; dc_size := 0; dc_kind := ExecEdge_Unknown; dc_occupied := false; dc_valid := false |}.

(** What the driver sets before a run and hooks only read. *)
Record HookEnv : Type := {
  hk_capture_regs : option (list Z);
  hk_summaries : option (list EmuCallSummary);
  hk_image : option ProgramImage;
  hk_decode : option (Z -> Z -> Z -> bytes -> Z * rax_decoded);
  hk_lo : Z;
  hk_hi : Z;
  hk_flo : Z;
  hk_fhi : Z;
  hk_func : option FuncRange;
  hk_stack_lo : Z;
  hk_stack_hi : Z;
  hk_heap_lo : Z;
  hk_heap_hi : Z;
  hk_run_id : Z;
  hk_seed : Z;
  hk_sp_reg : Z;
  hk_lr_reg : Z;
  hk_pc_reg : Z;
  hk_ret_reg : Z;
  hk_arg_regs : option (list Z);
  hk_is64 : bool;
  hk_big_endian : bool;
  hk_stack_argument_offset : Z;
  hk_rax_arch : Z;
  hk_rax_mode : Z;
  hk_register_width : Z;
  hk_strict_permissions : bool;
  hk_record_memory : bool;
  hk_record_pcs : bool;
  hk_edge_cap : Z;
  hk_execution_cap : Z;
  hk_data_cap : Z;
  hk_state_cap : Z
}.

(** What hooks change.  [out] is never null in a run. *)
Record HookCtx : Type := {
  hc_decode_cache : list DecodeEntry;
  hc_out : EmuEvents;
  hc_heap_cursor : Z;
  hc_prev_pc : Z;
  hc_last_pc : Z;
  hc_summary_source : Z;
  hc_prev_size : Z;
  hc_sequence : Z;
  hc_permission_violation : bool;
  hc_terminated_process : bool;
  hc_summary_resume : bool;
  hc_summarized_calls : Z;
  hc_has_prev : bool
}.

Definition set_cache (cache : list DecodeEntry) (c : HookCtx) : HookCtx := {|
  hc_decode_cache := cache; hc_out := hc_out c; hc_heap_cursor := hc_heap_cursor c;
  hc_prev_pc := hc_prev_pc c; hc_last_pc := hc_last_pc c;
  hc_summary_source := hc_summary_source c; hc_prev_size := hc_prev_size c;
  hc_sequence := hc_sequence c; hc_permission_violation := hc_permission_violation c;
  hc_terminated_process := hc_terminated_process c; hc_summary_resume := hc_summary_resume c;
  hc_summarized_calls := hc_summarized_calls c; hc_has_prev := hc_has_prev c |}.

Definition set_out (out : EmuEvents) (sequence : Z) (c : HookCtx) : HookCtx := {|
  hc_decode_cache := hc_decode_cache c; hc_out := out; hc_heap_cursor := hc_heap_cursor c;
  hc_prev_pc := hc_prev_pc c; hc_last_pc := hc_last_pc c;
  hc_summary_source := hc_summary_source c; hc_prev_size := hc_prev_size c;
  hc_sequence := sequence; hc_permission_violation := hc_permission_violation c;
  hc_terminated_process := hc_terminated_process c; hc_summary_resume := hc_summary_resume c;
  hc_summarized_calls := hc_summarized_calls c; hc_has_prev := hc_has_prev c |}.

Definition set_heap_cursor (cursor : Z) (c : HookCtx) : HookCtx := {|
  hc_decode_cache := hc_decode_cache c; hc_out := hc_out c; hc_heap_cursor := cursor;
  hc_prev_pc := hc_prev_pc c; hc_last_pc := hc_last_pc c;
  hc_summary_source := hc_summary_source c; hc_prev_size := hc_prev_size c;
  hc_sequence := hc_sequence c; hc_permission_violation := hc_permission_violation c;
  hc_terminated_process := hc_terminated_process c; hc_summary_resume := hc_summary_resume c;
  hc_summarized_calls := hc_summarized_calls c; hc_has_prev := hc_has_prev c |}.

(** The position of the run: the previous and the last instruction. *)
Definition set_position (prev_pc prev_size last_pc : Z) (c : HookCtx) : HookCtx := {|
  hc_decode_cache := hc_decode_cache c; hc_out := hc_out c; hc_heap_cursor := hc_heap_cursor c;
  hc_prev_pc := prev_pc; hc_last_pc := last_pc;
  hc_summary_source := hc_summary_source c; hc_prev_size := prev_size;
  hc_sequence := hc_sequence c; hc_permission_violation := hc_permission_violation c;
  hc_terminated_process := hc_terminated_process c; hc_summary_resume := hc_summary_resume c;
  hc_summarized_calls := hc_summarized_calls c; hc_has_prev := true |}.

Definition set_summary_source (source : Z) (c : HookCtx) : HookCtx := {|
  hc_decode_cache := hc_decode_cache c; hc_out := hc_out c; hc_heap_cursor := hc_heap_cursor c;
  hc_prev_pc := hc_prev_pc c; hc_last_pc := hc_last_pc c;
  hc_summary_source := source; hc_prev_size := hc_prev_size c;
  hc_sequence := hc_sequence c; hc_permission_violation := hc_permission_violation c;
  hc_terminated_process := hc_terminated_process c; hc_summary_resume := hc_summary_resume c;
  hc_summarized_calls := hc_summarized_calls c; hc_has_prev := hc_has_prev c |}.

Definition set_permission_violation (c : HookCtx) : HookCtx := {|
  hc_decode_cache := hc_decode_cache c; hc_out := hc_out c; hc_heap_cursor := hc_heap_cursor c;
  hc_prev_pc := hc_prev_pc c; hc_last_pc := hc_last_pc c;
  hc_summary_source := hc_summary_source c; hc_prev_size := hc_prev_size c;
  hc_sequence := hc_sequence c; hc_permission_violation := true;
  hc_terminated_process := hc_terminated_process c; hc_summary_resume := hc_summary_resume c;
  hc_summarized_calls := hc_summarized_calls c; hc_has_prev := hc_has_prev c |}.

Definition set_summary_state (terminated resume : bool) (calls : Z) (c : HookCtx) : HookCtx := {|
  hc_decode_cache := hc_decode_cache c; hc_out := hc_out c; hc_heap_cursor := hc_heap_cursor c;
  hc_prev_pc := hc_prev_pc c; hc_last_pc := hc_last_pc c;
  hc_summary_source := hc_summary_source c; hc_prev_size := hc_prev_size c;
  hc_sequence := hc_sequence c; hc_permission_violation := hc_permission_violation c;
  hc_terminated_process := terminated; hc_summary_resume := resume;
  hc_summarized_calls := calls; hc_has_prev := hc_has_prev c |}.

(** [ctx.summary_resume = false] *)
Definition clear_resume (c : HookCtx) : HookCtx :=
  set_summary_state (hc_terminated_process c) false (hc_summarized_calls c) c.

(** [++c->sequence] *)
Definition next_sequence (sequence : Z) : Z := (sequence + 1) mod 2 ^ 64.

(** ** Queries *)

Definition contains_range (lo hi address size : Z) : bool :=
  negb (size =? 0) && (lo <=? hi) && (lo <=? address) &&
  match checked_add address size with Some end_ => end_ <=? hi | None => false end.

Definition hook_in_function (env : HookEnv) (ea : Z) : bool :=
  match hk_func env with
  | Some func => func_contains func ea
  | None => (hk_flo env <=? ea) && (ea <? hk_fhi env)
  end.

(** The walk over the segments that an access touches.  Every turn that goes on passes
    a segment, so one more than their number is enough ([access_walk_inside] of EmuHooks.v). *)
Fixpoint access_walk (fuel : nat) (img : ProgramImage) (required : ViySegPerm)
    (cursor end_ : Z) (touches_image : bool) : bool :=
  if cursor <? end_ then
    match fuel with
    | O => false
    | S fuel =>
        match segment_at img cursor with
        | None => negb touches_image
        | Some segment =>
            if negb (sg_perm segment =? 0) && negb (seg_has_perm segment required) then false
            else access_walk fuel img required (Z.min end_ (sg_end segment)) end_ true
        end
    end
  else true.

Definition image_access_allowed (env : HookEnv) (address size : Z) (required : ViySegPerm) : bool :=
  match hk_image env with
  | None => true
  | Some img =>
      if size =? 0 then true
      else
        match checked_add address size with
        | None => false
        | Some end_ => access_walk (S (length (im_segs img))) img required address end_ false
        end
  end.

Definition find_summary (env : HookEnv) (address : Z) : option EmuCallSummary :=
  match hk_summaries env with
  | None => None
  | Some summaries =>
      match (lower_bound (fun s => cs_address s <? address) summaries).2 with
      | s :: _ => if cs_address s =? address then Some s else None
      | [] => None
      end
  end.

Definition access_scope (env : HookEnv) (address size : Z) : DataScope * bool :=
  if contains_range (hk_lo env) (hk_hi env) address size then (DataScope_IMAGE, true)
  else if contains_range (hk_heap_lo env) (hk_heap_hi env) address size then (DataScope_HEAP, true)
  else if contains_range (hk_stack_lo env) (hk_stack_hi env) address size
  then (DataScope_STACK, true)
  else (DataScope_OTHER, false).

(** [value |= bytes[i] << (8 * shift_index)] for the bytes from index [i] on. *)
Fixpoint scalar_loop (big_endian : bool) (size i : Z) (bs : bytes) (value : Z) : Z :=
  match bs with
  | [] => value
  | b :: r =>
      let shift_index := if big_endian then size - 1 - i else i in
      scalar_loop big_endian size (i + 1) r (Z.lor value (Z.shiftl (b2z b) (8 * shift_index)))
  end.

(** The first eight bytes at most. *)
Definition scalar_from_memory (env : HookEnv) (bs : bytes) : Z :=
  let n := Z.min (zlen bs) 8 in
  scalar_loop (hk_big_endian env) n 0 (take (Z.to_nat n) bs) 0.

(** ** Scalars *)

Lemma word_value_le_cons b r : word_value false (b :: r) = b2z b + 256 * word_value false r.
Proof. unfold word_value. cbn [rev]. rewrite foldl_app. cbn. lia. Qed.

Lemma word_value_le_range bs : 0 <= word_value false bs < 2 ^ (8 * zlen bs).
Proof.
  induction bs as [|b r IH]; [done|]. rewrite word_value_le_cons, zlen_cons.
  pose proof (b2z_range b). replace (8 * (1 + zlen r)) with (8 + 8 * zlen r) by lia.
  rewrite Z.pow_add_r by (pose proof (zlen_nonneg r); lia). change (2 ^ 8) with 256. lia.
Qed.

Lemma foldl_word bs v :
  foldl (fun value b => 256 * value + b2z b) v bs =
  v * 2 ^ (8 * zlen bs) + foldl (fun value b => 256 * value + b2z b) 0 bs.
Proof.
  revert v. induction bs as [|b r IH]; intros v; [change (zlen (@nil byte)) with 0; cbn; lia|]. cbn [foldl].
  rewrite IH, (IH (256 * 0 + b2z b)), zlen_cons. pose proof (zlen_nonneg r).
  replace (8 * (1 + zlen r)) with (8 + 8 * zlen r) by lia. rewrite Z.pow_add_r by lia.
  change (2 ^ 8) with 256. lia.
Qed.

Lemma scalar_loop_little size i bs v :
  0 <= i -> 0 <= v < 2 ^ (8 * i) ->
  scalar_loop false size i bs v = v + 2 ^ (8 * i) * word_value false bs.
Proof.
  revert i v. induction bs as [|b r IH]; intros i v Hi Hv.
  - cbn. unfold word_value. cbn. lia.
  - cbn [scalar_loop]. pose proof (b2z_range b).
    rewrite Z.lor_comm, lor_shiftl_add by lia. rewrite IH.
    + rewrite word_value_le_cons. replace (8 * (i + 1)) with (8 * i + 8) by lia.
      rewrite Z.pow_add_r by lia. change (2 ^ 8) with 256. lia.
    + lia.
    + replace (8 * (i + 1)) with (8 * i + 8) by lia. rewrite Z.pow_add_r by lia.
      change (2 ^ 8) with 256. nia.
Qed.

Lemma scalar_loop_big size i bs w :
  0 <= i -> i + zlen bs = size ->
  scalar_loop true size i bs (Z.shiftl w (8 * zlen bs)) =
  w * 2 ^ (8 * zlen bs) + word_value true bs.
Proof.
  revert i w. induction bs as [|b r IH]; intros i w Hi Hs.
  - unfold word_value. change (zlen (@nil byte)) with 0. cbn [scalar_loop foldl]. rewrite Z.shiftl_0_r. cbn. lia.
  - pose proof (b2z_range b). pose proof (zlen_nonneg r). rewrite zlen_cons in *. cbn [scalar_loop].
    replace (size - 1 - i) with (zlen r) by lia.
    replace (8 * (1 + zlen r)) with (8 + 8 * zlen r) by lia.
    rewrite <- Z.shiftl_shiftl, <- Z.shiftl_lor by lia. rewrite lor_shiftl_add by lia.
    rewrite IH by lia. unfold word_value. cbn [foldl]. rewrite (foldl_word r (256 * 0 + b2z b)).
    rewrite Z.pow_add_r by lia. change (2 ^ 8) with 256. lia.
Qed.

(** The loop computes the number that the bytes stand for. *)
Lemma scalar_loop_value be bs : scalar_loop be (zlen bs) 0 bs 0 = word_value be bs.
Proof.
  destruct be.
  - pose proof (scalar_loop_big (zlen bs) 0 bs 0 ltac:(lia) ltac:(lia)) as Hb.
    rewrite Z.shiftl_0_l in Hb. rewrite Hb. lia.
  - rewrite scalar_loop_little; lia.
Qed.

Lemma scalar_loop_nonneg be size i bs v : 0 <= v -> 0 <= scalar_loop be size i bs v.
Proof.
  revert i v. induction bs as [|b r IH]; intros i v Hv; [done|]. cbn [scalar_loop]. apply IH.
  apply Z.lor_nonneg. split; [done|]. apply Z.shiftl_nonneg. pose proof (b2z_range b). lia.
Qed.

(** [x & ~(2^k - 1)] rounds down to a multiple of [2^k]. *)
Lemma land_clear_low k x :
  0 <= k <= 64 -> 0 <= x <= u64_max -> Z.land x (Z.lxor u64_max (Z.ones k)) = 2 ^ k * (x / 2 ^ k).
Proof.
  intros Hk Hx. apply Z.bits_inj'. intros i Hi. rewrite Z.land_spec.
  rewrite <- Z.shiftr_div_pow2, Z.mul_comm, <- Z.shiftl_mul_pow2, Z.lxor_spec by lia.
  change u64_max with (Z.ones 64) in *. destruct (Z.ltb_spec i k).
  - rewrite Z.shiftl_spec_low by lia. rewrite !Z.ones_spec_low by lia. apply andb_false_r.
  - rewrite Z.shiftl_spec, Z.shiftr_spec by lia. replace (i - k + k) with i by lia.
    rewrite (Z.ones_spec_high k) by lia. destruct (Z.ltb_spec i 64).
    + rewrite Z.ones_spec_low by lia. apply andb_true_r.
    + assert (Z.testbit x i = false) as ->; [|done]. destruct (Z.eq_dec x 0) as [->|]; [apply Z.bits_0|].
      apply Z.bits_above_log2; [lia|]. apply (Z.lt_le_trans _ 64); [|lia].
      apply Z.log2_lt_pow2; change (Z.ones 64) with (2 ^ 64 - 1) in *; lia.
Qed.

(** ** Computations *)

Definition Hook (E A : Type) : Type := (HookCtx * E)%type -> option A * (HookCtx * E).

Definition hook_return {E A} (a : A) : Hook E A := fun s => (Some a, s).
Definition hook_fail {E A} : Hook E A := fun s => (None, s).
Definition hook_bind {E A B} (m : Hook E A) (k : A -> Hook E B) : Hook E B := fun s =>
  match m s with
  | (Some a, s) => k a s
  | (None, s) => (None, s)
  end.

Notation "'hook' x ':=' m 'in' k" := (hook_bind m (fun x => k))
  (at level 200, x pattern, m at level 100, k at level 200, right associativity) : viy_scope.

Definition hook_update {E} (f : HookCtx -> HookCtx) : Hook E unit := fun s => (Some tt, (f s.1, s.2)).
Definition hook_context {E} : Hook E HookCtx := fun s => (Some s.1, s).
Definition hook_require {E} (condition : bool) : Hook E unit :=
  if condition then hook_return tt else hook_fail.

Section Engine.
Context {E : Type} `{RaxEngine E}.

Definition engine_reg_read (reg : Z) : Hook E Z := fun s => (reg_read_u64 reg s.2, s).
Definition engine_reg_write (reg value : Z) : Hook E unit := fun s =>
  let '(ok, e) := reg_write_u64 reg value s.2 in (if ok then Some tt else None, (s.1, e)).
Definition engine_mem_read (address size : Z) : Hook E bytes := fun s =>
  (if has_mem_read then mem_read address size s.2 else None, s).
Definition engine_mem_write (address : Z) (bs : bytes) : Hook E unit := fun s =>
  let '(ok, e) := mem_write address bs s.2 in (if ok then Some tt else None, (s.1, e)).
Definition engine_stop : Hook E unit := fun s => (Some tt, (s.1, emu_stop s.2)).
Definition hook_checked_add (left right : Z) : Hook E Z := fun s => (checked_add left right, s).

(** ** Restoring the image *)

(** The byte of the snapshot at an address; nothing outside the segments. *)
Definition snapshot_byte (img : ProgramImage) (current : Z) : option byte :=
  match segment_at img current with
  | None => None
  | Some segment =>
      let raw_offset := current - sg_start segment in
      Some (if zlen (sg_bytes segment) <=? raw_offset then x00
            else if mask_loaded (sg_mask segment) raw_offset
            then nth (Z.to_nat raw_offset) (sg_bytes segment) x00 else x00)
  end.

(** The bytes of the snapshot; nothing if one is missing. *)
Definition snapshot_bytes (img : ProgramImage) (address size : Z) : option bytes :=
  mapM (fun index =>
    match checked_add address index with
    | None => None
    | Some current => snapshot_byte img current
    end) (seqZ 0 size).

Definition restore_snapshot_bytes (env : HookEnv) (address size : Z) (e : E) : E :=
  match hk_image env with
  | None => e
  | Some img =>
      if (size =? 0) || (Z.shiftl 1 20 <? size) then e
      else
        match snapshot_bytes img address size with
        | None => e
        | Some bs => (mem_write address bs e).2
        end
  end.

(** ** Inverting a successful computation *)

Lemma hook_bind_inv {A B} (m : Hook E A) (k : A -> Hook E B) s b s' :
  hook_bind m k s = (Some b, s') ->
  exists a s1, m s = (Some a, s1) /\ k a s1 = (Some b, s').
Proof. unfold hook_bind. destruct (m s) as [[a|] s1]; [|done]. by exists a, s1. Qed.

Lemma hook_return_inv {A} (a b : A) (s s' : HookCtx * E) :
  hook_return a s = (Some b, s') -> a = b /\ s = s'.
Proof. by intros [= -> ->]. Qed.

Lemma hook_require_inv condition (s s' : HookCtx * E) u :
  hook_require condition s = (Some u, s') -> condition = true /\ s = s'.
Proof. unfold hook_require. destruct condition; [|done]. by intros [= _ ->]. Qed.

Lemma engine_reg_read_inv reg s s' v :
  engine_reg_read reg s = (Some v, s') -> s = s' /\ reg_read_u64 reg s.2 = Some v.
Proof. unfold engine_reg_read. by intros [= -> ->]. Qed.

Lemma engine_mem_read_inv address size s s' bs :
  engine_mem_read address size s = (Some bs, s') -> s = s' /\ mem_read address size s.2 = Some bs.
Proof. unfold engine_mem_read. destruct has_mem_read; [|done]. by intros [= -> ->]. Qed.

Lemma engine_reg_write_inv reg value s s' u :
  engine_reg_write reg value s = (Some u, s') ->
  s'.1 = s.1 /\ reg_write_u64 reg value s.2 = (true, s'.2).
Proof.
  unfold engine_reg_write. destruct (reg_write_u64 reg value s.2) as [[] e]; [|done].
  by intros [= _ <-].
Qed.

Lemma engine_mem_write_inv address bs s s' u :
  engine_mem_write address bs s = (Some u, s') ->
  s'.1 = s.1 /\ mem_write address bs s.2 = (true, s'.2).
Proof.
  unfold engine_mem_write. destruct (mem_write address bs s.2) as [[] e]; [|done].
  by intros [= _ <-].
Qed.

Lemma hook_checked_add_inv left right (s s' : HookCtx * E) sum :
  hook_checked_add left right s = (Some sum, s') ->
  s = s' /\ left + right = sum /\ left + right <= u64_max.
Proof.
  unfold hook_checked_add, checked_add. destruct (Z.ltb_spec (u64_max - right) left); [done|].
  intros [= <- ->]. split_and!; [done..|lia].
Qed.

Lemma hook_update_inv f (s s' : HookCtx * E) u :
  hook_update f s = (Some u, s') -> s' = (f s.1, s.2).
Proof. by intros [= _ <-]. Qed.

Lemma hook_context_inv (s s' : HookCtx * E) c :
  hook_context s = (Some c, s') -> s = s' /\ c = s.1.
Proof. by intros [= <- <-]. Qed.

Lemma engine_stop_inv s s' u : engine_stop s = (Some u, s') -> s' = (s.1, emu_stop s.2).
Proof. by intros [= _ <-]. Qed.

End Engine.

(** Take a successful run of a computation apart, step by step. *)
Ltac inv_hook_step H :=
  lazymatch type of H with
  | hook_bind _ _ _ = _ =>
      let a := fresh "a" in let s1 := fresh "s" in let Hm := fresh "Hm" in
      apply hook_bind_inv in H as (a & s1 & Hm & H); inv_hook_step Hm
  | hook_return _ _ = _ => apply hook_return_inv in H as [? ?]; subst
  | hook_require _ _ = _ =>
      let Hr := fresh "Hr" in apply hook_require_inv in H as [Hr ?]; subst
  | engine_reg_read _ _ = _ =>
      let Hr := fresh "Hread" in apply engine_reg_read_inv in H as [? Hr]; subst
  | engine_mem_read _ _ _ = _ =>
      let Hr := fresh "Hload" in apply engine_mem_read_inv in H as [? Hr]; subst
  | hook_checked_add _ _ _ = _ =>
      let Hr := fresh "Hadd" in apply hook_checked_add_inv in H as (? & ? & Hr); subst
  | hook_update _ _ = _ => apply hook_update_inv in H; subst
  | hook_context _ = _ => apply hook_context_inv in H as [? ?]; subst
  | engine_stop _ = _ => apply engine_stop_inv in H; subst
  | _ => idtac
  end.
Ltac inv_hook H := repeat progress inv_hook_step H.

(** ** What a computation does to the context *)

(** Whether it succeeds or fails, the computation relates the context before to the
    context after. *)
Definition steps {E A} (R : relation HookCtx) (m : Hook E A) : Prop := forall s, R s.1 (m s).2.1.

(** The relation of contexts that agree on [f]. *)
Definition same {B} (f : HookCtx -> B) : relation HookCtx := fun c c' => f c' = f c.

Notation keeps f := (steps (same f)).

#[export] Instance same_preorder {B} (f : HookCtx -> B) : PreOrder (same f).
Proof. split; [by intros c|]. unfold same. intros c1 c2 c3. congruence. Qed.

Section Steps.
Context {E : Type} `{RaxEngine E} (R : relation HookCtx) `{!PreOrder R}.

Lemma steps_bind {A C} (m : Hook E A) (k : A -> Hook E C) :
  steps R m -> (forall a, steps R (k a)) -> steps R (hook_bind m k).
Proof.
  intros Hm Hk s. unfold hook_bind. specialize (Hm s). destruct (m s) as [[a|] s1]; [|done].
  etrans; [exact Hm|apply Hk].
Qed.

Lemma steps_return {A} (a : A) : steps R (hook_return (E := E) a).
Proof. by intros s. Qed.

Lemma steps_fail {A} : steps R (hook_fail (E := E) (A := A)).
Proof. by intros s. Qed.

Lemma steps_require condition : steps R (hook_require (E := E) condition).
Proof. by destruct condition; intros s. Qed.

Lemma steps_update g : (forall c, R c (g c)) -> steps R (hook_update (E := E) g).
Proof. intros Hg s. apply Hg. Qed.

Lemma steps_context : steps R (hook_context (E := E)).
Proof. by intros s. Qed.

Lemma steps_checked_add left right : steps R (hook_checked_add (E := E) left right).
Proof. by intros s. Qed.

Lemma steps_reg_read reg : steps R (engine_reg_read reg).
Proof. by intros s. Qed.

Lemma steps_reg_write reg value : steps R (engine_reg_write reg value).
Proof. intros s. unfold engine_reg_write. by destruct (reg_write_u64 _ _ _) as [[]]. Qed.

Lemma steps_mem_read address size : steps R (engine_mem_read address size).
Proof. by intros s. Qed.

Lemma steps_mem_write address bs : steps R (engine_mem_write address bs).
Proof. intros s. unfold engine_mem_write. by destruct (mem_write _ _ _) as [[]]. Qed.

Lemma steps_stop : steps R engine_stop.
Proof. by intros s. Qed.

Lemma steps_if {A} (condition : bool) (m n : Hook E A) :
  steps R m -> steps R n -> steps R (if condition then m else n).
Proof. by destruct condition. Qed.

End Steps.

Create HintDb steps.
#[export] Hint Resolve steps_bind steps_return steps_fail steps_require steps_context
  steps_checked_add steps_reg_read steps_reg_write steps_mem_read steps_mem_write steps_stop
  steps_if same_preorder : steps.
#[export] Hint Extern 2 (steps (same _) (hook_update _)) =>
  apply steps_update; intros []; exact eq_refl : steps.

(** ** A machine that satisfies the laws *)

Module Reference.

(** Memory is a finite map of bytes and a register the number last written to it. *)
Definition Machine : Type := (gmap Z byte * gmap Z Z)%type.

Fixpoint store (address : Z) (bs : bytes) (memory : gmap Z byte) : gmap Z byte :=
  match bs with
  | [] => memory
  | b :: r => <[address := b]> (store (address + 1) r memory)
  end.

#[export] Instance machine_engine : RaxEngine Machine := {
  reg_read_u64 reg e := Some (default 0 (e.2 !! reg) mod 2 ^ 64);
  reg_write_u64 reg value e := (true, (e.1, <[reg := value mod 2 ^ 64]> e.2));
  has_mem_read := true;
  mem_read address size e :=
    if size <? 0 then None else mapM (fun i => e.1 !! (address + i)) (seqZ 0 size);
  mem_write address bs e := (true, (store address bs e.1, e.2));
  emu_stop e := e
}.

Lemma store_lookup address bs memory x :
  store address bs memory !! x =
  match placed address bs x with Some b => Some b | None => memory !! x end.
Proof.
  revert address. induction bs as [|b r IH]; intros address; cbn [store].
  - unfold placed. by destruct (_ && _).
  - unfold placed. rewrite zlen_cons. pose proof (zlen_nonneg r).
    destruct (decide (x = address)) as [->|Hne].
    + rewrite lookup_insert, decide_True by done. rewrite Z.sub_diag.
      destruct (Z.leb_spec address address); [|lia].
      by destruct (Z.ltb_spec address (address + (1 + zlen r))); [|lia].
    + rewrite lookup_insert_ne, IH by done. unfold placed.
      destruct (Z.leb_spec address x), (Z.leb_spec (address + 1) x); cbn [andb]; try lia; [|done].
      replace (address + (1 + zlen r)) with (address + 1 + zlen r) by lia.
      destruct (x <? address + 1 + zlen r); [|done].
      replace (Z.to_nat (x - address)) with (S (Z.to_nat (x - (address + 1)))) by lia. done.
Qed.

#[export, refine] Instance machine_laws : RaxEngineLaws Machine := {
  byte_at e x := e.1 !! x;
  register_bits _ := 64;
  independent reg other := reg <> other
}.
Proof.
  - cbn. intros reg e value [= <-]. pose proof (Z.mod_pos_bound (default 0 (e.2 !! reg)) (2 ^ 64)).
    unfold is_u64, u64_max. lia.
  - cbn. intros address size e bs. destruct (Z.ltb_spec size 0); [done|]. intros Hm.
    apply mapM_Some_1 in Hm. pose proof (Forall2_length _ _ _ Hm) as Hl. rewrite length_seqZ in Hl.
    assert (zlen bs = size) as Hs by (unfold zlen; lia). split; [done|]. intros x Hx.
    unfold placed. destruct (Z.leb_spec address x); [|lia].
    destruct (Z.ltb_spec x (address + zlen bs)); [|lia]. cbn [andb].
    destruct (Forall2_lookup_l _ _ _ (Z.to_nat (x - address)) (x - address) Hm) as (b & Hval & Hb).
    { rewrite lookup_seqZ_lt by lia. f_equal. lia. }
    rewrite Hval, <- Hb. f_equal. lia.
  - cbn. intros address bs e e' [= <-]. split; [|done]. intros x. cbn. apply store_lookup.
  - cbn. intros reg value e e' [= <-]. split_and!; [|intros other Hne|done]; cbn.
    + rewrite lookup_insert, decide_True by done. cbn [default from_option id]. by rewrite Z.mod_mod.
    + by rewrite lookup_insert_ne.
  - done.
Defined.

(** A 64-bit machine whose calls leave the return address on the stack: register 0 holds
    results, 1 is the stack pointer, 2 the program counter, 3 to 5 hold arguments. *)
Definition env (image : option ProgramImage) (summaries : list EmuCallSummary)
    (decode : option (Z -> Z -> Z -> bytes -> Z * rax_decoded)) (strict : bool) : HookEnv := {|
  hk_capture_regs := Some [1; 2]; hk_summaries := Some summaries; hk_image := image;
  hk_decode := decode; hk_lo := 0x1000; hk_hi := 0x3000; hk_flo := 0x1000; hk_fhi := 0x1100;
  hk_func := None; hk_stack_lo := 0x700000; hk_stack_hi := 0x800000; hk_heap_lo := 0x710000;
  hk_heap_hi := 0x780000; hk_run_id := 1; hk_seed := 7; hk_sp_reg := 1; hk_lr_reg := -1;
  hk_pc_reg := 2; hk_ret_reg := 0; hk_arg_regs := Some [3; 4; 5]; hk_is64 := true;
  hk_big_endian := false; hk_stack_argument_offset := 0; hk_rax_arch := 1; hk_rax_mode := 2;
  hk_register_width := 8; hk_strict_permissions := strict; hk_record_memory := true;
  hk_record_pcs := true; hk_edge_cap := 16; hk_execution_cap := 16; hk_data_cap := 16;
  hk_state_cap := 16 |}.

(** The context of a run that starts. *)
Definition ctx : HookCtx := {|
  hc_decode_cache := repeat empty_entry 1024;
  hc_out := {| ee_edges := []; ee_execution := []; ee_data := []; ee_states := [];
               ee_final_writes := []; ee_exec_pcs := ∅ |};
  hc_heap_cursor := 0x710000; hc_prev_pc := 0; hc_last_pc := 0; hc_summary_source := 0;
  hc_prev_size := 0; hc_sequence := 0; hc_permission_violation := false;
  hc_terminated_process := false; hc_summary_resume := false; hc_summarized_calls := 0;
  hc_has_prev := false |}.

(** A stack with a return address, a string, and arguments. *)
Definition machine (a0 a1 a2 : Z) : Machine :=
  (store 0x7ff000 [x34; x12; x00; x00; x00; x00; x00; x00] (store 0x2000 [x68; x69; x00; x7a] ∅),
   <[1 := 0x7ff000]> (<[3 := a0]> (<[4 := a1]> (<[5 := a2]> ∅)))).

End Reference.
