(* ===== verification/EmuSummaries.v ===== *)
(** * Models of library functions in a run (emu_driver.cpp)

    When execution reaches a function that is known by name, the code hook does what the
    function does and returns to the caller instead of letting its body run:
    [apply_summary].  [libc_effect] says what the C standard says of each function in
    terms of memory, arguments and result; the theorems say that a summary that succeeds
    has exactly this effect on every lawful engine and returns to the caller, and that
    allocations are disjoint, aligned and inside the heap. *)
From stdpp Require Import base numbers list strings option sets gmap.
From Stdlib Require Import ZArith Init.Byte Sorting.Sorted Lia.
From S2P Require Import Prelude OrderedMap ProgramModel RuntimeWrites AbiPolicy DecoderCore.
From S2P Require Import WorkerFingerprint EmuEvents EvidenceBridge EmuMachine.

Section Summaries.
Context {E : Type} `{RaxEngine E} (codes : RaxCodes).

(** [memcmp] on two ranges of the same length: its sign is what the C standard fixes. *)
Context (memcmp : bytes -> bytes -> Z).

Context (env : HookEnv).

Definition kMaxModelBytes : Z := 2 ^ 20.
Definition kMaxStringBytes : nat := Z.to_nat 65536.

(** ** Arguments and strings *)

Definition read_scalar (address size : Z) : Hook E Z :=
  hook _ := hook_require (negb (size =? 0) && (size <=? 8)) in
  hook bs := engine_mem_read address size in
  hook_return (scalar_loop (hk_big_endian env) size 0 bs 0).

Definition pointer_bytes : Z := if hk_is64 env then 8 else 4.

Definition summary_arg (index : nat) : Hook E Z :=
  let registers := default [] (hk_arg_regs env) in
  match registers !! index with
  | Some reg => engine_reg_read reg
  | None =>
      hook _ := hook_require (0 <=? hk_sp_reg env) in
      hook sp := engine_reg_read (hk_sp_reg env) in
      let ptr := pointer_bytes in
      let stack_index := Z.of_nat index - zlen registers in
      let return_slot := if hk_lr_reg env <? 0 then ptr else 0 in
      let home := hk_stack_argument_offset env in
      hook _ := hook_require (stack_index <=? u64_max / ptr) in
      hook address := hook_checked_add sp return_slot in
      hook address := hook_checked_add address home in
      hook address := hook_checked_add address (stack_index * ptr) in
      read_scalar address ptr
  end.

(** [a.sequence = c->sequence++] and the rest of the access. *)
Definition summary_access (c : HookCtx) (kind address value size : Z) (scope : DataScope) : DataAcc := {|
  acc_from := hc_summary_source c; acc_addr := address; acc_value := value; acc_size := size;
  acc_kind := kind; acc_scope := scope; acc_sequence := hc_sequence c;
  acc_run_id := hk_run_id env; acc_seed := hk_seed env |}.

Definition push_data (access : DataAcc) (out : EmuEvents) : EmuEvents := {|
  ee_edges := ee_edges out; ee_execution := ee_execution out; ee_data := ee_data out ++ [access];
  ee_states := ee_states out; ee_final_writes := ee_final_writes out;
  ee_exec_pcs := ee_exec_pcs out |}.

Definition record_summary_access (kind address value size : Z) : Hook E unit :=
  hook_update (fun c =>
    if hk_data_cap env <=? zlen (ee_data (hc_out c)) then c
    else
      let '(scope, recordable) := access_scope env address size in
      if negb recordable || negb (hook_in_function env (hc_summary_source c)) then c
      else set_out (push_data (summary_access c kind address value size scope) (hc_out c))
             (next_sequence (hc_sequence c)) c).

(** The bytes up to and with the terminator, at most [limit]. *)
Fixpoint read_c_string_loop (limit : nat) (address i : Z) (out : bytes) : Hook E bytes :=
  match limit with
  | O => hook_fail
  | S limit =>
      hook current := hook_checked_add address i in
      hook bs := engine_mem_read current 1 in
      let ch := nth 0 bs x00 in
      let out := out ++ [ch] in
      if b2z ch =? 0 then hook_return out else read_c_string_loop limit address (i + 1) out
  end.

Definition read_c_string (address : Z) : Hook E bytes :=
  hook _ := hook_require has_mem_read in
  read_c_string_loop kMaxStringBytes address 0 [].

(** ** Returning to the caller *)

Definition request_resume : Hook E unit :=
  hook_update (fun c =>
    set_summary_state (hc_terminated_process c) true (hc_summarized_calls c) c).

Definition summary_return (value : Z) : Hook E unit :=
  hook _ := (if 0 <=? hk_ret_reg env then engine_reg_write (hk_ret_reg env) value
             else hook_return tt) in
  hook target :=
    (if 0 <=? hk_lr_reg env then engine_reg_read (hk_lr_reg env)
     else
       let ptr := pointer_bytes in
       hook _ := hook_require (0 <=? hk_sp_reg env) in
       hook sp := engine_reg_read (hk_sp_reg env) in
       hook target := read_scalar sp ptr in
       hook next_sp := hook_checked_add sp ptr in
       hook _ := engine_reg_write (hk_sp_reg env) next_sp in
       hook_return target) in
  hook _ := hook_require (0 <=? hk_pc_reg env) in
  hook _ := engine_reg_write (hk_pc_reg env) target in
  hook _ := request_resume in
  engine_stop.

(** ** The functions *)

Definition count_call (c : HookCtx) : Z := (hc_summarized_calls c + 1) mod 2 ^ 32.

Definition summarize_terminate : Hook E unit :=
  hook _ := hook_update (fun c => set_summary_state true (hc_summary_resume c) (count_call c) c) in
  engine_stop.

Definition record_bytes (kind address : Z) (bs : bytes) : Hook E unit :=
  record_summary_access kind address (scalar_from_memory env bs) (zlen bs mod 2 ^ 32).

Definition summarize_strlen : Hook E Z :=
  hook a0 := summary_arg 0 in
  hook bs := read_c_string a0 in
  hook _ := record_bytes (RAX_MEM_READ codes) a0 bs in
  hook_return (zlen bs - 1).

Definition summarize_strcmp : Hook E Z :=
  hook a0 := summary_arg 0 in
  hook a1 := summary_arg 1 in
  hook bs := read_c_string a0 in
  hook rhs := read_c_string a1 in
  let n := Nat.min (length bs) (length rhs) in
  let cmp := memcmp (take n bs) (take n rhs) in
  let cmp :=
    if cmp =? 0 then
      if zlen bs <? zlen rhs then -1 else if zlen rhs <? zlen bs then 1 else 0
    else cmp in
  hook _ := record_bytes (RAX_MEM_READ codes) a0 bs in
  hook _ := record_bytes (RAX_MEM_READ codes) a1 rhs in
  hook_return (cmp mod 2 ^ 64).

Definition summarize_memcpy : Hook E Z :=
  hook a0 := summary_arg 0 in
  hook a1 := summary_arg 1 in
  hook a2 := summary_arg 2 in
  hook _ := hook_require (a2 <=? kMaxModelBytes) in
  hook _ :=
    (if a2 =? 0 then hook_return tt
     else
       hook bs := engine_mem_read a1 a2 in
       hook _ := engine_mem_write a0 bs in
       hook _ := record_bytes (RAX_MEM_READ codes) a1 bs in
       record_bytes (RAX_MEM_WRITE codes) a0 bs) in
  hook_return a0.

Definition summarize_memset : Hook E Z :=
  hook a0 := summary_arg 0 in
  hook a1 := summary_arg 1 in
  hook a2 := summary_arg 2 in
  hook _ := hook_require (a2 <=? kMaxModelBytes) in
  let bs := repeat (z2b a1) (Z.to_nat a2) in
  hook _ :=
    (if a2 =? 0 then hook_return tt
     else
       hook _ := engine_mem_write a0 bs in
       record_bytes (RAX_MEM_WRITE codes) a0 bs) in
  hook_return a0.

Definition summarize_strcpy : Hook E Z :=
  hook a0 := summary_arg 0 in
  hook a1 := summary_arg 1 in
  hook bs := read_c_string a1 in
  hook _ := engine_mem_write a0 bs in
  hook _ := record_bytes (RAX_MEM_READ codes) a1 bs in
  hook _ := record_bytes (RAX_MEM_WRITE codes) a0 bs in
  hook_return a0.

(** The bytes that the loop of [strncpy] reads: up to [n], stopping after a terminator. *)
Fixpoint strncpy_loop (n : nat) (address i : Z) (read : bytes) : Hook E bytes :=
  match n with
  | O => hook_return read
  | S n =>
      hook source := hook_checked_add address i in
      hook bs := engine_mem_read source 1 in
      let ch := nth 0 bs x00 in
      let read := read ++ [ch] in
      if b2z ch =? 0 then hook_return read else strncpy_loop n address (i + 1) read
  end.

Definition summarize_strncpy : Hook E Z :=
  hook a0 := summary_arg 0 in
  hook a1 := summary_arg 1 in
  hook a2 := summary_arg 2 in
  hook _ := hook_require (a2 <=? kMaxModelBytes) in
  hook read := strncpy_loop (Z.to_nat a2) a1 0 [] in
  let bs := read ++ repeat x00 (Z.to_nat a2 - length read) in
  hook _ := (if a2 =? 0 then hook_return tt else engine_mem_write a0 bs) in
  hook _ := (if zlen read =? 0 then hook_return tt else record_bytes (RAX_MEM_READ codes) a1 read) in
  hook _ := (if a2 =? 0 then hook_return tt else record_bytes (RAX_MEM_WRITE codes) a0 bs) in
  hook_return a0.

(** The size of an allocation after the checks; 0 is a failure. *)
Definition allocation_size (zeroed : bool) (a0 a1 : Z) : Z :=
  let n :=
    if zeroed then
      if negb (a0 =? 0) && (u64_max / a0 <? a1) then 0 else a0 * a1
    else a0 in
  if kMaxModelBytes <? n then 0 else n.

(** [(n + 15) & ~15] *)
Definition aligned_size (n : Z) : Z := Z.land (n + 15) (Z.lxor u64_max 15).

Definition summarize_allocate (zeroed : bool) : Hook E Z :=
  hook a0 := summary_arg 0 in
  hook a1 := (if zeroed then summary_arg 1 else hook_return 0) in
  let n := allocation_size zeroed a0 a1 in
  let aligned := aligned_size n in
  hook c := hook_context in
  if negb (n =? 0) && (hc_heap_cursor c <=? hk_heap_hi env) &&
     (aligned <=? hk_heap_hi env - hc_heap_cursor c)
  then
    let result := hc_heap_cursor c in
    hook _ :=
      (if zeroed then
         hook _ := engine_mem_write result (repeat x00 (Z.to_nat n)) in
         record_summary_access (RAX_MEM_WRITE codes) result 0 (n mod 2 ^ 32)
       else hook_return tt) in
    hook _ := hook_update (fun c => set_heap_cursor ((hc_heap_cursor c + aligned) mod 2 ^ 64) c) in
    hook_return result
  else hook_return 0.

Definition summarize_deallocate : Hook E Z :=
  hook _ := summary_arg 0 in
  hook_return 0.

(** The value that the function returns, after its effect. *)
Definition summary_effect (kind : EmuSummaryKind) : Hook E Z :=
  match kind with
  | Summary_STRLEN => summarize_strlen
  | Summary_STRCMP => summarize_strcmp
  | Summary_MEMCPY | Summary_MEMMOVE => summarize_memcpy
  | Summary_MEMSET => summarize_memset
  | Summary_STRCPY => summarize_strcpy
  | Summary_STRNCPY => summarize_strncpy
  | Summary_ALLOCATE => summarize_allocate false
  | Summary_CALLOCATE => summarize_allocate true
  | Summary_DEALLOCATE => summarize_deallocate
  | Summary_TERMINATE => hook_return 0
  end.

Definition apply_summary (summary : EmuCallSummary) : Hook E unit :=
  match cs_kind summary with
  | Summary_TERMINATE => summarize_terminate
  | kind =>
      hook result := summary_effect kind in
      hook _ := summary_return result in
      hook_update (fun c =>
        set_summary_state (hc_terminated_process c) (hc_summary_resume c) (count_call c) c)
  end.

End Summaries.

(** ** What the C library does *)

(** The string at an address: what precedes the first zero byte. *)
Definition c_string (mem : Z -> option byte) (address : Z) (s : bytes) : Prop :=
  zlen s < 65536 /\ address + zlen s <= u64_max /\ Forall (fun b => b <> x00) s /\
  forall x, address <= x <= address + zlen s -> mem x = placed address (s ++ [x00]) x.

Definition loaded (mem : Z -> option byte) (address : Z) (bs : bytes) : Prop :=
  forall x, address <= x < address + zlen bs -> mem x = placed address bs x.

(** [mem'] is [mem] with [bs] at [address]. *)
Definition stored (mem : Z -> option byte) (address : Z) (bs : bytes) (mem' : Z -> option byte) : Prop :=
  forall x, mem' x = match placed address bs x with Some b => Some b | None => mem x end.

Definition unchanged (mem mem' : Z -> option byte) : Prop := forall x, mem' x = mem x.

(** An [int] in a 64-bit result. *)
Definition to_signed (v : Z) : Z := if 2 ^ 63 <=? v then v - 2 ^ 64 else v.

(** The effect of a call with arguments [a 0], [a 1], ... and the returned value. *)
Definition libc_effect (kind : EmuSummaryKind) (a : nat -> Z) (mem mem' : Z -> option byte)
    (result : Z) : Prop :=
  match kind with
  | Summary_STRLEN => exists s, c_string mem (a 0%nat) s /\ unchanged mem mem' /\ result = zlen s
  | Summary_STRCMP =>
      exists s t, c_string mem (a 0%nat) s /\ c_string mem (a 1%nat) t /\ unchanged mem mem' /\
        (to_signed result < 0 <-> bytes_lt s t = true) /\ (result = 0 <-> s = t)
  | Summary_MEMCPY | Summary_MEMMOVE =>
      exists bs, zlen bs = a 2%nat /\ loaded mem (a 1%nat) bs /\ stored mem (a 0%nat) bs mem' /\
        result = a 0%nat
  | Summary_MEMSET =>
      stored mem (a 0%nat) (repeat (z2b (a 1%nat)) (Z.to_nat (a 2%nat))) mem' /\ result = a 0%nat
  | Summary_STRCPY =>
      exists s, c_string mem (a 1%nat) s /\ stored mem (a 0%nat) (s ++ [x00]) mem' /\
        result = a 0%nat
  | Summary_STRNCPY =>
      exists s, Forall (fun b => b <> x00) s /\ zlen s <= a 2%nat /\ loaded mem (a 1%nat) s /\
        (zlen s < a 2%nat -> mem (a 1%nat + zlen s) = Some x00) /\
        stored mem (a 0%nat) (s ++ repeat x00 (Z.to_nat (a 2%nat) - length s)) mem' /\
        result = a 0%nat
  | Summary_CALLOCATE =>
      (result = 0 /\ unchanged mem mem') \/
      stored mem result (repeat x00 (Z.to_nat (a 0%nat * a 1%nat))) mem'
  | Summary_ALLOCATE | Summary_DEALLOCATE | Summary_TERMINATE => unchanged mem mem'
  end.

(** The number of arguments that a model reads. *)
Definition arity (kind : EmuSummaryKind) : nat :=
  match kind with
  | Summary_MEMCPY | Summary_MEMMOVE | Summary_MEMSET | Summary_STRNCPY => 3
  | Summary_STRCPY | Summary_STRCMP | Summary_CALLOCATE => 2
  | Summary_STRLEN | Summary_ALLOCATE | Summary_DEALLOCATE => 1
  | Summary_TERMINATE => 0
  end.

(** ** Comparing strings *)

(** Two strings and their terminators, cut to the shorter, compare as the strings do. *)
Lemma compare_terminated s t :
  Forall (fun b => b <> x00) s -> Forall (fun b => b <> x00) t ->
  let n := Nat.min (length (s ++ [x00])) (length (t ++ [x00])) in
  bytes_lt (take n (s ++ [x00])) (take n (t ++ [x00])) = bytes_lt s t /\
  (take n (s ++ [x00]) = take n (t ++ [x00]) <-> s = t).
Proof.
  cbn zeta. intros Hs. revert t. induction Hs as [|a s Ha Hs IH]; intros t Ht.
  - destruct Ht as [|b t Hb Ht]; [done|]. cbn. unfold byte_lt. change (b2z x00) with 0.
    assert (0 < b2z b).
    { pose proof (b2z_range b). assert (b2z b <> b2z x00) by (intros ?%b2z_inj; done).
      change (b2z x00) with 0 in *. lia. }
    destruct (Z.ltb_spec 0 (b2z b)); [|lia]. split; [done|]. split; [|done]. intros [= E]. done.
  - destruct Ht as [|b t Hb Ht].
    + cbn. rewrite Nat.min_0_r. cbn. unfold byte_lt. change (b2z x00) with 0.
      assert (0 < b2z a).
      { pose proof (b2z_range a). assert (b2z a <> b2z x00) by (intros ?%b2z_inj; done).
        change (b2z x00) with 0 in *. lia. }
      destruct (Z.ltb_spec (b2z a) 0); [lia|]. destruct (Z.ltb_spec 0 (b2z a)); [|lia].
      split; [done|]. split; [|done]. intros [= E]. done.
    + cbn [app length Nat.min take]. destruct (IH t Ht) as [IH1 IH2]. split.
      * unfold bytes_lt in *. cbn [list_lt]. rewrite IH1. done.
      * split; [intros [= -> E]; f_equal; by apply IH2|by intros [= -> ->]].
Qed.

Lemma c_string_terminated mem address s :
  c_string mem address s -> loaded mem address (s ++ [x00]).
Proof.
  intros (_ & _ & _ & Hx) x Hr. apply Hx. rewrite zlen_app in Hr.
  change (zlen [x00]) with 1 in Hr. lia.
Qed.

(** ** Reading *)

Section Lawful.
Context {E : Type} `{RaxEngineLaws E} (codes : RaxCodes).
Context (memcmp : bytes -> bytes -> Z).
Context (env : HookEnv).

Implicit Types (s : HookCtx * E).

#[local] Arguments kMaxStringBytes : simpl never.

Lemma placed_nil address x : placed address [] x = None.
Proof. unfold placed. by destruct (_ && _). Qed.

Lemma placed_app address l1 l2 x :
  placed address (l1 ++ l2) x =
  match placed address l1 x with Some b => Some b | None => placed (address + zlen l1) l2 x end.
Proof.
  unfold placed. rewrite zlen_app. pose proof (zlen_nonneg l1). pose proof (zlen_nonneg l2).
  destruct (Z.leb_spec address x); cbn [andb].
  2: { destruct (Z.leb_spec (address + zlen l1) x); [lia|done]. }
  destruct (Z.ltb_spec x (address + zlen l1)).
  - destruct (Z.ltb_spec x (address + (zlen l1 + zlen l2))); [|lia].
    rewrite lookup_app_l by (unfold zlen in *; lia).
    destruct (l1 !! Z.to_nat (x - address)) eqn:E1; [done|].
    apply lookup_ge_None in E1. unfold zlen in *. lia.
  - destruct (Z.leb_spec (address + zlen l1) x); [|lia]. cbn [andb].
    destruct (Z.ltb_spec x (address + (zlen l1 + zlen l2)));
      destruct (Z.ltb_spec x (address + zlen l1 + zlen l2)); try lia; [|done].
    rewrite lookup_app_r by (unfold zlen in *; lia). f_equal. unfold zlen in *. lia.
Qed.

Lemma placed_one address b x : placed address [b] x = if x =? address then Some b else None.
Proof.
  unfold placed. change (zlen [b]) with 1. destruct (Z.eqb_spec x address) as [->|].
  - rewrite Z.sub_diag. destruct (Z.leb_spec address address); [|lia].
    by destruct (Z.ltb_spec address (address + 1)); [|lia].
  - destruct (Z.leb_spec address x); [|done]. by destruct (Z.ltb_spec x (address + 1)); [lia|].
Qed.

Lemma placed_in address bs x :
  address <= x < address + zlen bs -> is_Some (placed address bs x).
Proof.
  intros Hx. unfold placed. destruct (Z.leb_spec address x); [|lia].
  destruct (Z.ltb_spec x (address + zlen bs)); [|lia]. cbn [andb].
  apply lookup_lt_is_Some_2. unfold zlen in *. lia.
Qed.

(** One byte of memory, read through the engine. *)
Lemma mem_read_byte address e bs :
  mem_read address 1 e = Some bs ->
  exists b, bs = [b] /\ byte_at e address = Some b.
Proof.
  intros Hm. apply mem_read_law in Hm as [Hl Hx]. destruct bs as [|b [|]]; try done.
  - exists b. split; [done|]. rewrite Hx by lia. by rewrite placed_one, Z.eqb_refl.
  - unfold zlen in Hl. cbn in Hl. lia.
Qed.

Lemma read_scalar_inv address size s v s' :
  read_scalar env address size s = (Some v, s') ->
  s' = s /\ 0 <= v /\ exists bs, zlen bs = size /\ loaded (byte_at s.2) address bs /\
    v = word_value (hk_big_endian env) bs.
Proof.
  unfold read_scalar. intros Hr. inv_hook Hr. destruct (mem_read_law _ _ _ _ Hload) as [Hl Hx].
  split; [done|]. split; [by apply scalar_loop_nonneg|]. exists a0. subst size.
  split_and!; [done|done|apply scalar_loop_value].
Qed.

(** Reading an argument changes nothing, whether it succeeds or not. *)
Lemma summary_arg_inv index s v s' :
  summary_arg env index s = (Some v, s') -> s' = s /\ 0 <= v.
Proof.
  unfold summary_arg. destruct (default [] (hk_arg_regs env) !! index).
  - intros Ha. inv_hook Ha. split; [done|]. by apply reg_read_range in Hread as [? _].
  - intros Ha. cbn zeta in Ha. inv_hook Ha. by apply read_scalar_inv in Ha as (-> & ? & _).
Qed.

Lemma read_c_string_loop_inv limit address i out s bs s' :
  read_c_string_loop limit address i out s = (Some bs, s') ->
  s' = s /\ exists str, bs = out ++ str ++ [x00] /\ Forall (fun b => b <> x00) str /\
    (length str < limit)%nat /\ address + i + zlen str <= u64_max /\
    loaded (byte_at s.2) (address + i) (str ++ [x00]).
Proof.
  revert i out s. induction limit as [|limit IH]; intros i out s Hr; [done|].
  cbn [read_c_string_loop] in Hr. inv_hook Hr.
  apply mem_read_byte in Hload as (b & -> & Hb). cbn [nth] in Hr.
  destruct (Z.eqb_spec (b2z b) 0) as [Hz|Hz].
  - inv_hook Hr. assert (b = x00) as -> by (apply b2z_inj; done).
    split; [done|]. exists []. change (zlen (@nil byte)) with 0.
    split_and!; [done|done|cbn; lia|lia|]. intros x Hx. change (zlen ([] ++ [x00])) with 1 in Hx.
    assert (x = address + i) as -> by lia. cbn [app]. by rewrite Hb, placed_one, Z.eqb_refl.
  - apply IH in Hr as (-> & str & -> & Hn & Hl & Hm & Hld). split; [done|]. exists (b :: str).
    rewrite zlen_cons. split_and!; [by rewrite <- !app_assoc| |cbn; lia|lia|].
    + apply List.Forall_cons; [|done]. intros ->. done.
    + intros x Hx. cbn [app] in Hx. rewrite zlen_cons in Hx.
      change ((b :: str) ++ [x00]) with ([b] ++ (str ++ [x00])). rewrite placed_app, placed_one.
      destruct (Z.eqb_spec x (address + i)) as [->|]; [done|]. rewrite Hld by lia.
      f_equal. change (zlen [b]) with 1. lia.
Qed.

Lemma read_c_string_inv address s bs s' :
  read_c_string address s = (Some bs, s') ->
  s' = s /\ exists str, bs = str ++ [x00] /\ c_string (byte_at s.2) address str.
Proof.
  unfold read_c_string. intros Hr. inv_hook Hr.
  apply read_c_string_loop_inv in Hr as (-> & str & -> & Hn & Hl & Hm & Hld).
  rewrite Z.add_0_r in *. split; [done|]. exists str. split; [done|].
  split_and!; [unfold kMaxStringBytes, zlen in *; lia|lia|done|].
  intros x Hx. apply Hld. rewrite zlen_app. change (zlen [x00]) with 1. lia.
Qed.

Lemma strncpy_loop_inv n address i read s bs s' :
  strncpy_loop n address i read s = (Some bs, s') ->
  s' = s /\ exists str, Forall (fun b => b <> x00) str /\ loaded (byte_at s.2) (address + i) str /\
    ((bs = read ++ str /\ length str = n) \/
     (bs = read ++ str ++ [x00] /\ (length str < n)%nat /\
      byte_at s.2 (address + i + zlen str) = Some x00)).
Proof.
  revert i read s. induction n as [|n IH]; intros i read s Hr; cbn [strncpy_loop] in Hr.
  { inv_hook Hr. split; [done|]. exists []. split_and!; [done| |left; by rewrite app_nil_r].
    intros x Hx. change (zlen (@nil byte)) with 0 in Hx. lia. }
  inv_hook Hr. apply mem_read_byte in Hload as (b & -> & Hb). cbn [nth] in Hr.
  destruct (Z.eqb_spec (b2z b) 0) as [Hz|Hz].
  - inv_hook Hr. assert (b = x00) as -> by (apply b2z_inj; done).
    split; [done|]. exists []. split_and!; [done| |right].
    + intros x Hx. change (zlen (@nil byte)) with 0 in Hx. lia.
    + change (zlen (@nil byte)) with 0. rewrite Z.add_0_r. split_and!; [done|cbn; lia|done].
  - apply IH in Hr as (-> & str & Hn & Hld & Hcase). split; [done|]. exists (b :: str).
    split_and!; [apply List.Forall_cons; [by intros ->|done]| |].
    + intros x Hx. rewrite zlen_cons in Hx. change (b :: str) with ([b] ++ str).
      rewrite placed_app, placed_one. destruct (Z.eqb_spec x (address + i)) as [->|]; [done|].
      rewrite Hld by lia. f_equal. change (zlen [b]) with 1. lia.
    + rewrite zlen_cons. destruct Hcase as [[-> <-]|(-> & Hl & Hz')].
      * left. split; [by rewrite <- app_assoc|done].
      * right. split_and!; [by rewrite <- app_assoc|cbn; lia|].
        replace (address + i + (1 + zlen str)) with (address + (i + 1) + zlen str) by lia. done.
Qed.

(** ** Recording and the context *)

(** The part of the context that recording an access leaves alone. *)
Definition control_of (c : HookCtx) :=
  ((hc_prev_pc c, hc_prev_size c, hc_last_pc c, hc_has_prev c),
   (hc_permission_violation c, hc_terminated_process c, hc_summary_resume c),
   hc_summarized_calls c, hc_summary_source c, hc_decode_cache c).

Definition frame_of (c : HookCtx) := (hc_heap_cursor c, control_of c).

Lemma record_summary_access_inv kind address value size s u s' :
  record_summary_access env kind address value size s = (Some u, s') ->
  s'.2 = s.2 /\ frame_of s'.1 = frame_of s.1.
Proof.
  unfold record_summary_access. intros Hr. inv_hook Hr. cbn [fst snd]. split; [done|].
  destruct (hk_data_cap env <=? _); [done|]. destruct (access_scope env address size) as [scope ok].
  by destruct (negb ok || _).
Qed.

Lemma record_bytes_inv kind address bs s u s' :
  record_bytes env kind address bs s = (Some u, s') ->
  s'.2 = s.2 /\ frame_of s'.1 = frame_of s.1.
Proof. apply record_summary_access_inv. Qed.

Definition same_registers (e e' : E) : Prop := forall reg, reg_read_u64 reg e' = reg_read_u64 reg e.

Lemma loaded_of_read address size e bs :
  mem_read address size e = Some bs -> zlen bs = size /\ loaded (byte_at e) address bs.
Proof. intros Hm. apply mem_read_law in Hm as [<- Hx]. done. Qed.

Lemma stored_of_write address bs e e' :
  mem_write address bs e = (true, e') ->
  stored (byte_at e) address bs (byte_at e') /\ same_registers e e'.
Proof. intros Hm. by apply mem_write_law in Hm. Qed.

(** ** The effect of each model *)

(** The value of an argument; it is only used where reading it succeeds. *)
Definition argument (s : HookCtx * E) (index : nat) : Z := default 0 (summary_arg env index s).1.

Lemma argument_inv index s v s' :
  summary_arg env index s = (Some v, s') ->
  s' = s /\ v = argument s index /\ 0 <= v /\ is_Some (summary_arg env index s).1.
Proof.
  intros Ha. apply summary_arg_inv in Ha as Hs. destruct Hs as [-> Hv]. unfold argument.
  rewrite Ha. by eauto.
Qed.

#[local] Ltac inv_args H :=
  inv_hook H; repeat match goal with
  | Ha : summary_arg env ?i ?s = (Some ?v, ?s') |- _ =>
      let Hr := fresh "Hrange" in let Hi := fresh "Hsome" in
      apply argument_inv in Ha as (-> & -> & Hr & Hi)
  end.

(** Take every computation in the hypotheses apart. *)
#[local] Ltac inv_all := repeat match goal with H : _ = (Some _, _) |- _ => progress inv_hook_step H end.

#[local] Ltac inv_writes :=
  repeat match goal with
  | Hw : engine_mem_write _ _ _ = (Some _, _) |- _ =>
      let Hc := fresh "Hctx" in apply engine_mem_write_inv in Hw as [Hc Hw];
      apply stored_of_write in Hw as [? ?]
  | Hb : record_bytes _ _ _ _ _ = (Some _, _) |- _ =>
      let He := fresh "Hengine" in let Hf := fresh "Hframe" in
      apply record_bytes_inv in Hb as [He Hf]; rewrite ?He in *
  end.

#[local] Ltac inv_strings :=
  repeat match goal with
  | Hs : read_c_string _ _ = (Some _, _) |- _ =>
      let str := fresh "str" in let Hstr := fresh "Hstr" in
      apply read_c_string_inv in Hs as (-> & str & -> & Hstr)
  end.

#[local] Ltac small_index :=
  let i := fresh "i" in let Hi := fresh "Hi" in
  intros i Hi; repeat (destruct i as [|i]; [done|]); cbn in Hi; lia.

(** What every model promises. *)
Definition effect_ok (kind : EmuSummaryKind) (s : HookCtx * E) (result : Z) (s' : HookCtx * E) : Prop :=
  (forall i, (i < arity kind)%nat -> is_Some (summary_arg env i s).1) /\
  libc_effect kind (argument s) (byte_at s.2) (byte_at s'.2) result /\
  same_registers s.2 s'.2 /\ control_of s'.1 = control_of s.1.

Lemma frame_control c c' : frame_of c = frame_of c' -> control_of c = control_of c'.
Proof. unfold frame_of. congruence. Qed.

Lemma strlen_effect s r s' : summarize_strlen codes env s = (Some r, s') -> effect_ok Summary_STRLEN s r s'.
Proof.
  unfold summarize_strlen. intros Hr. inv_args Hr. inv_strings. unfold effect_ok. inv_writes.
  split_and!; [small_index| |done|by apply frame_control].
  eexists. split_and!; [eassumption|done|]. rewrite zlen_app. change (zlen [x00]) with 1. lia.
Qed.

Lemma memcpy_effect kind s r s' :
  kind = Summary_MEMCPY \/ kind = Summary_MEMMOVE ->
  summarize_memcpy codes env s = (Some r, s') -> effect_ok kind s r s'.
Proof.
  unfold summarize_memcpy. intros Hk Hr. inv_args Hr.
  assert (exists bs, zlen bs = argument s 2 /\ loaded (byte_at s.2) (argument s 1) bs /\
    stored (byte_at s.2) (argument s 0) bs (byte_at s'.2) /\
    same_registers s.2 s'.2 /\ control_of s'.1 = control_of s.1)
    as (bs & Hl & Hld & Hst & Hregs & Hc).
  { destruct (Z.eqb_spec (argument s 2) 0) as [E2|E2]; inv_all.
    - exists []. rewrite E2. split_and!; try done.
      + intros x Hx. change (zlen (@nil byte)) with 0 in Hx. lia.
      + intros x. by rewrite placed_nil.
    - apply loaded_of_read in Hload as [Hl Hld]. inv_writes.
      eexists. split_and!; [done|done|done|done|]. apply frame_control. congruence. }
  split_and!; [|destruct Hk as [-> | ->]; by exists bs|done|done].
  destruct Hk as [-> | ->]; small_index.
Qed.

Lemma memset_effect s r s' : summarize_memset codes env s = (Some r, s') -> effect_ok Summary_MEMSET s r s'.
Proof.
  unfold summarize_memset. intros Hr. inv_args Hr. unfold effect_ok. split; [small_index|].
  destruct (Z.eqb_spec (argument s 2) 0) as [E2|E2]; inv_all; inv_writes.
  - split_and!; [|done..|done]. cbn. rewrite E2. split; [|done]. intros x. by rewrite placed_nil.
  - split_and!; [by split|done|]. apply frame_control. congruence.
Qed.

Lemma strcpy_effect s r s' : summarize_strcpy codes env s = (Some r, s') -> effect_ok Summary_STRCPY s r s'.
Proof.
  unfold summarize_strcpy. intros Hr. inv_args Hr. inv_strings. unfold effect_ok. inv_writes.
  split_and!; [small_index| |done|apply frame_control; congruence].
  eexists. split_and!; [eassumption|done|done].
Qed.

Lemma deallocate_effect s r s' : summarize_deallocate env s = (Some r, s') -> effect_ok Summary_DEALLOCATE s r s'.
Proof. unfold summarize_deallocate. intros Hr. inv_args Hr. split_and!; [small_index|done..]. Qed.

(** What the C standard says of [memcmp] on ranges of one length. *)
Hypothesis memcmp_sign : forall left right : bytes, length left = length right ->
  - 2 ^ 31 <= memcmp left right < 2 ^ 31 /\ (memcmp left right < 0 <-> bytes_lt left right = true) /\
  (memcmp left right = 0 <-> left = right).

Lemma strcmp_effect s r s' :
  summarize_strcmp codes memcmp env s = (Some r, s') -> effect_ok Summary_STRCMP s r s'.
Proof.
  unfold summarize_strcmp. intros Hr. inv_args Hr. inv_strings. unfold effect_ok. inv_writes.
  split_and!; [small_index| |done|apply frame_control; congruence].
  rename str0 into left, str into right, Hstr0 into Hleft, Hstr into Hright.
  exists left, right. do 3 (split; [done|]).
  destruct Hleft as (_ & _ & Hs & _), Hright as (_ & _ & Ht & _).
  destruct (compare_terminated left right Hs Ht) as [Hlt Heq].
  set (n := Nat.min _ _) in *.
  destruct (memcmp_sign (take n (left ++ [x00])) (take n (right ++ [x00]))) as (Hb & Hneg & Hzero).
  { rewrite !length_take. unfold n. lia. }
  rewrite Hlt in Hneg. rewrite Heq in Hzero. set (cmp := memcmp _ _) in *. clearbody cmp. clear Hlt Heq.
  assert (forall c, - 2 ^ 31 <= c < 2 ^ 31 -> (to_signed (c mod 2 ^ 64) < 0 <-> c < 0) /\
    (c mod 2 ^ 64 = 0 <-> c = 0)) as Hsigned.
  { intros c Hc. unfold to_signed. destruct (Z.ltb_spec c 0).
    - replace (c mod 2 ^ 64) with (c + 2 ^ 64); [destruct (Z.leb_spec (2 ^ 63) (c + 2 ^ 64)); lia|].
      apply (Z.mod_unique_pos c (2 ^ 64) (-1)); lia.
    - rewrite Z.mod_small by lia. destruct (Z.leb_spec (2 ^ 63) c); lia. }
  destruct (Z.eqb_spec cmp 0) as [Ec|Ec].
  - assert (left = right) as -> by (by apply Hzero). rewrite Z.ltb_irrefl.
    destruct (Hsigned 0 ltac:(lia)) as [H1 H2]. rewrite H1, H2, <- Hneg. split; [lia|done].
  - destruct (Hsigned cmp Hb) as [-> ->]. done.
Qed.

Lemma strncpy_effect s r s' :
  summarize_strncpy codes env s = (Some r, s') -> effect_ok Summary_STRNCPY s r s'.
Proof.
  unfold summarize_strncpy. intros Hr. inv_args Hr.
  match goal with Hl : strncpy_loop _ _ _ _ _ = (Some ?bs, _) |- _ =>
    rename bs into copied; apply strncpy_loop_inv in Hl as (-> & str & Hn & Hld & Hcase) end.
  rewrite Z.add_0_r in *.
  assert (copied ++ repeat x00 (Z.to_nat (argument s 2) - length copied) =
    str ++ repeat x00 (Z.to_nat (argument s 2) - length str)) as Hbytes.
  { destruct Hcase as [[-> _]|(-> & Hl & _)]; [done|]. cbn [app]. rewrite <- app_assoc, length_app. cbn [app length].
    assert (Z.to_nat (argument s 2) - length str =
      S (Z.to_nat (argument s 2) - (length str + 1)))%nat as -> by lia. done. }
  rewrite Hbytes in *.
  assert (zlen str <= argument s 2 /\
    (zlen str < argument s 2 -> byte_at s.2 (argument s 1 + zlen str) = Some x00)) as [Hlen Hzero].
  { destruct Hcase as [[_ Hl]|(_ & Hl & Hz)]; unfold zlen in *; split; try done; lia. }
  assert (stored (byte_at s.2) (argument s 0) (str ++ repeat x00 (Z.to_nat (argument s 2) - length str))
    (byte_at s'.2) /\ same_registers s.2 s'.2 /\ control_of s'.1 = control_of s.1) as (Hst & Hregs & Hc).
  { destruct (Z.eqb_spec (argument s 2) 0) as [E2|E2], (Z.eqb_spec (zlen copied) 0) as [E3|E3];
      inv_all; inv_writes.
    - rewrite E2 in *. destruct str; [|unfold zlen in Hlen; cbn in Hlen; lia]. cbn.
      split_and!; [intros x; by rewrite placed_nil|done..].
    - rewrite E2 in *. destruct str; [|unfold zlen in Hlen; cbn in Hlen; lia].
      destruct Hcase as [[-> _]|(_ & Hl & _)]; [done|cbn in Hl; lia].
    - split_and!; [done|done|]. apply frame_control. congruence.
    - split_and!; [done|done|]. apply frame_control. congruence. }
  split_and!; [small_index| |done|done]. exists str. by split_and!.
Qed.

Lemma aligned_size_value n :
  0 <= n <= kMaxModelBytes -> aligned_size n = 16 * ((n + 15) / 16) /\ n <= aligned_size n <= n + 15.
Proof.
  intros Hn. unfold kMaxModelBytes in Hn.
  assert (aligned_size n = 16 * ((n + 15) / 16)) as Hvalue
    by (apply (land_clear_low 4); unfold u64_max; lia).
  split; [done|]. rewrite Hvalue. pose proof (Z.div_mod (n + 15) 16 ltac:(lia)).
  pose proof (Z.mod_pos_bound (n + 15) 16 ltac:(lia)). lia.
Qed.

Lemma allocate_inv zeroed s r s' :
  summarize_allocate codes env zeroed s = (Some r, s') ->
  let n := allocation_size zeroed (argument s 0) (if zeroed then argument s 1 else 0) in
  is_Some (summary_arg env 0 s).1 /\ (zeroed = true -> is_Some (summary_arg env 1 s).1) /\
  same_registers s.2 s'.2 /\ control_of s'.1 = control_of s.1 /\
  ((r = 0 /\ s' = s) \/
   (n <> 0 /\ r = hc_heap_cursor s.1 /\ r <= hk_heap_hi env /\ aligned_size n <= hk_heap_hi env - r /\
    hc_heap_cursor s'.1 = (r + aligned_size n) mod 2 ^ 64 /\
    if zeroed then stored (byte_at s.2) r (repeat x00 (Z.to_nat n)) (byte_at s'.2)
    else unchanged (byte_at s.2) (byte_at s'.2))).
Proof.
  unfold summarize_allocate. intros Hr. cbn zeta.
  set (n := allocation_size zeroed (argument s 0) (if zeroed then argument s 1 else 0)).
  apply hook_bind_inv in Hr as (a0 & s0 & Ha0 & Hr). apply argument_inv in Ha0 as (-> & -> & _ & Hs0).
  apply hook_bind_inv in Hr as (a1 & s1 & Ha1 & Hr).
  assert (s1 = s /\ a1 = (if zeroed then argument s 1 else 0) /\
    (zeroed = true -> is_Some (summary_arg env 1 s).1)) as (-> & -> & Hs1).
  { destruct zeroed; [by apply argument_inv in Ha1 as (-> & -> & _ & ?)|].
    by apply hook_return_inv in Ha1 as [<- <-]. }
  split; [done|]. split; [done|].
  fold n in Hr. cbn zeta in Hr. apply hook_bind_inv in Hr as (c & s0 & Hc & Hr).
  apply hook_context_inv in Hc as [<- ->].
  destruct (Z.eqb_spec n 0) as [En|En]; cbn [negb andb] in Hr;
    [apply hook_return_inv in Hr as [<- <-]; split_and!; [done..|by left]|].
  destruct (Z.leb_spec (hc_heap_cursor s.1) (hk_heap_hi env)) as [Hhi|]; cbn [andb] in Hr;
    [|apply hook_return_inv in Hr as [<- <-]; split_and!; [done..|by left]].
  destruct (Z.leb_spec (aligned_size n) (hk_heap_hi env - hc_heap_cursor s.1)) as [Hfit|];
    [|apply hook_return_inv in Hr as [<- <-]; split_and!; [done..|by left]].
  destruct zeroed; inv_hook Hr; unfold control_of in *; cbn [fst snd set_heap_cursor hc_heap_cursor].
  - apply engine_mem_write_inv in Hm0 as [Hc1 Hw]. apply stored_of_write in Hw as [Hst Hregs].
    apply record_summary_access_inv in Hm as [He Hf]. rewrite He. unfold frame_of, control_of in Hf.
    split_and!; [done|cbn; congruence|]. right. split_and!; try done. cbn. congruence.
  - split_and!; [done..|]. by right.
Qed.

Lemma allocate_effect zeroed s r s' :
  summarize_allocate codes env zeroed s = (Some r, s') ->
  effect_ok (if zeroed then Summary_CALLOCATE else Summary_ALLOCATE) s r s'.
Proof.
  intros Ha. apply allocate_inv in Ha as (H0' & H1 & Hregs & Hc & Hcase). cbn zeta in Hcase.
  destruct zeroed.
  - split_and!; [|cbn|done|done].
    + intros [|[|i]] Hi; [done|by apply H1|cbn in Hi; lia].
    + destruct Hcase as [[-> ->]|(Hn & -> & _ & _ & _ & Hst)]; [by left|right].
      unfold allocation_size in Hn, Hst. cbn zeta in Hn, Hst.
      destruct (negb (argument s 0 =? 0) && (u64_max / argument s 0 <? argument s 1)); [done|].
      by destruct (kMaxModelBytes <? argument s 0 * argument s 1).
  - split_and!; [|cbn|done|done].
    + intros [|i] Hi; [done|cbn in Hi; lia].
    + by destruct Hcase as [[-> ->]|(Hn & -> & _ & _ & _ & Hst)].
Qed.

Lemma summary_effect_ok kind s r s' :
  summary_effect codes memcmp env kind s = (Some r, s') -> effect_ok kind s r s'.
Proof.
  destruct kind; cbn [summary_effect]; intros Hr.
  - by apply memcpy_effect; [left|].
  - by apply memcpy_effect; [right|].
  - by apply memset_effect.
  - by apply strcpy_effect.
  - by apply strncpy_effect.
  - by apply strlen_effect.
  - by apply strcmp_effect.
  - by apply (allocate_effect false).
  - by apply (allocate_effect true).
  - by apply deallocate_effect.
  - apply hook_return_inv in Hr as [<- <-]. split_and!; [small_index|done..].
Qed.

(** ** The return *)

(** Where the function returns to: the link register, or the word on the stack. *)
Definition return_address (e : E) (target : Z) : Prop :=
  if 0 <=? hk_lr_reg env then reg_read_u64 (hk_lr_reg env) e = Some target
  else exists sp bs, reg_read_u64 (hk_sp_reg env) e = Some sp /\ zlen bs = pointer_bytes env /\
    loaded (byte_at e) sp bs /\ target = word_value (hk_big_endian env) bs.

(** No write to one of the special registers changes another. *)
Definition registers_apart : Prop :=
  independent (hk_ret_reg env) (hk_lr_reg env) /\ independent (hk_ret_reg env) (hk_sp_reg env) /\
  independent (hk_sp_reg env) (hk_ret_reg env) /\ independent (hk_pc_reg env) (hk_ret_reg env) /\
  independent (hk_pc_reg env) (hk_sp_reg env).

(** From [e], the caller's state, to [e']: the result is in its register, control is at
    the return address, a stack return has popped the address, memory is unchanged and
    so is every register that is apart from these. *)
Definition returned (e e' : E) (result : Z) : Prop :=
  (0 <= hk_ret_reg env ->
   reg_read_u64 (hk_ret_reg env) e' = Some (result mod 2 ^ register_bits (hk_ret_reg env))) /\
  (exists target, return_address e target /\
     reg_read_u64 (hk_pc_reg env) e' = Some (target mod 2 ^ register_bits (hk_pc_reg env))) /\
  (hk_lr_reg env < 0 -> exists sp, reg_read_u64 (hk_sp_reg env) e = Some sp /\
     sp + pointer_bytes env <= u64_max /\
     reg_read_u64 (hk_sp_reg env) e' =
       Some ((sp + pointer_bytes env) mod 2 ^ register_bits (hk_sp_reg env))) /\
  unchanged (byte_at e) (byte_at e') /\
  forall other, independent (hk_ret_reg env) other -> independent (hk_sp_reg env) other ->
    independent (hk_pc_reg env) other -> reg_read_u64 other e' = reg_read_u64 other e.

Lemma summary_return_inv v s u s' :
  registers_apart -> summary_return env v s = (Some u, s') ->
  returned s.2 s'.2 v /\
  s'.1 = set_summary_state (hc_terminated_process s.1) true (hc_summarized_calls s.1) s.1.
Proof.
  intros (Hrl & Hrs & Hsr & Hpr & Hps) Hr. unfold summary_return in Hr.
  apply hook_bind_inv in Hr as (u1 & s1 & Hret & Hr).
  assert (s1.1 = s.1 /\ (0 <= hk_ret_reg env ->
      reg_read_u64 (hk_ret_reg env) s1.2 = Some (v mod 2 ^ register_bits (hk_ret_reg env))) /\
    unchanged (byte_at s.2) (byte_at s1.2) /\
    (forall other, independent (hk_ret_reg env) other ->
       reg_read_u64 other s1.2 = reg_read_u64 other s.2)) as (Hc1 & Hret1 & Hmem1 & Hoth1).
  { destruct (Z.leb_spec 0 (hk_ret_reg env)).
    - apply engine_reg_write_inv in Hret as [Hc Hw]. by apply reg_write_law in Hw as (? & ? & ?).
    - apply hook_return_inv in Hret as [_ <-]. split_and!; [done|lia|done..]. }
  clear Hret. apply hook_bind_inv in Hr as (target & s2 & Htarget & Hr).
  assert (s2.1 = s.1 /\ return_address s.2 target /\ unchanged (byte_at s1.2) (byte_at s2.2) /\
    (hk_lr_reg env < 0 -> exists sp, reg_read_u64 (hk_sp_reg env) s.2 = Some sp /\
       sp + pointer_bytes env <= u64_max /\
       reg_read_u64 (hk_sp_reg env) s2.2 =
         Some ((sp + pointer_bytes env) mod 2 ^ register_bits (hk_sp_reg env))) /\
    (forall other, independent (hk_sp_reg env) other ->
       reg_read_u64 other s2.2 = reg_read_u64 other s1.2)) as (Hc2 & Haddr & Hmem2 & Hsp2 & Hoth2).
  { unfold return_address. destruct (Z.leb_spec 0 (hk_lr_reg env)).
    - apply engine_reg_read_inv in Htarget as [<- Hread]. rewrite Hoth1 in Hread by done.
      split_and!; [done..|lia|done].
    - cbn zeta in Htarget. inv_hook Htarget.
      match goal with Hs : read_scalar _ _ _ _ = _ |- _ =>
        apply read_scalar_inv in Hs as (-> & _ & bs & Hl & Hld & ->) end.
      match goal with Hw : engine_reg_write _ _ _ = _ |- _ =>
        apply engine_reg_write_inv in Hw as [Hc Hw]; apply reg_write_law in Hw as (Hsp & Hoth & Hmem) end.
      rewrite Hoth1 in Hread by done. split_and!; [congruence| |done|intros _; by eexists|done].
      eexists _, bs. split_and!; [done|done| |done]. intros x Hx. rewrite <- Hmem1. by apply Hld. }
  clear Htarget. inv_hook Hr. unfold request_resume in *. inv_all. cbn [fst snd] in *.
  match goal with Hw : engine_reg_write _ _ _ = _ |- _ =>
    apply engine_reg_write_inv in Hw as [Hc3 Hw]; apply reg_write_law in Hw as (Hpc & Hoth3 & Hmem3) end.
  match goal with |- context [emu_stop ?e] => destruct (emu_stop_law e) as [Hsr' Hsm'] end.
  split; [|by rewrite Hc3, Hc2]. unfold returned. split_and!.
  - intros Hpos. rewrite Hsr', Hoth3, Hoth2 by done. by apply Hret1.
  - exists target. split; [done|]. by rewrite Hsr'.
  - intros Hneg. destruct (Hsp2 Hneg) as (sp & Hsp & Hle & Hsp'). exists sp. split_and!; [done|done|].
    by rewrite Hsr', Hoth3.
  - intros x. by rewrite Hsm', Hmem3, Hmem2, Hmem1.
  - intros other Ho1 Ho2 Ho3. by rewrite Hsr', Hoth3, Hoth2, Hoth1.
Qed.

(** ** Theorems *)

(** C7: a summary that succeeds does what the C library function does and returns.  On
    every lawful engine there is a moment [e1] between the call and the return: from the
    call to [e1] memory changes as the C standard says for the arguments of the call, and
    no register does; from [e1] on the result is delivered and control returns to the
    caller.  A resumption is requested and the call is counted. *)
Theorem summary_implements_libc summary c e c' e' :
  registers_apart -> cs_kind summary <> Summary_TERMINATE ->
  apply_summary codes memcmp env summary (c, e) = (Some tt, (c', e')) ->
  exists result e1,
    (forall i, (i < arity (cs_kind summary))%nat -> is_Some (summary_arg env i (c, e)).1) /\
    libc_effect (cs_kind summary) (argument (c, e)) (byte_at e) (byte_at e1) result /\
    same_registers e e1 /\ returned e1 e' result /\
    hc_summary_resume c' = true /\ hc_terminated_process c' = hc_terminated_process c /\
    hc_summarized_calls c' = (hc_summarized_calls c + 1) mod 2 ^ 32.
Proof.
  intros Ha Hk Hr. unfold apply_summary in Hr.
  assert ((hook result := summary_effect codes memcmp env (cs_kind summary) in
    hook _ := summary_return env result in
    hook_update (fun c =>
      set_summary_state (hc_terminated_process c) (hc_summary_resume c) (count_call c) c)) (c, e) =
    (Some tt, (c', e'))) as Hr'.
  { destruct (cs_kind summary); try exact Hr. done. }
  clear Hr. apply hook_bind_inv in Hr' as (result & [c1 e1] & He & Hr).
  apply hook_bind_inv in Hr as (u & [c2 e2] & Hret & Hr).
  apply hook_update_inv in Hr. injection Hr as -> ->.
  apply summary_effect_ok in He as (Hargs & Heffect & Hregs & Hcontrol).
  apply summary_return_inv in Hret as [Hreturn Hc2]; [|done]. cbn [fst snd] in *. subst c2.
  assert (hc_terminated_process c1 = hc_terminated_process c /\
    hc_summarized_calls c1 = hc_summarized_calls c) as [Hterm Hcalls]
    by (unfold control_of in Hcontrol; by simplify_eq).
  exists result, e1. split_and!; [done..|].
  cbn. unfold count_call. cbn. by rewrite Hcalls.
Qed.

(** ** The heap *)

Lemma argument_nonneg s i : 0 <= argument s i.
Proof.
  unfold argument. destruct (summary_arg env i s) as [[v|] s'] eqn:Ha; [|done].
  by apply summary_arg_inv in Ha as [_ ?].
Qed.

(** What a model does to the context: it records accesses, moves the cursor of the heap
    and counts the call. *)
Section Steps.
Context (R : relation HookCtx) `{!PreOrder R}.

Lemma steps_summary_arg i : steps R (summary_arg env i).
Proof. unfold summary_arg, read_scalar. destruct (_ !! i); cbn zeta; auto 20 with steps. Qed.

Lemma steps_read_c_string address : steps R (read_c_string address).
Proof.
  unfold read_c_string. apply steps_bind; [done|auto with steps|]. intros _.
  generalize (@nil byte), 0. induction kMaxStringBytes as [|n IH]; intros out i; cbn [read_c_string_loop];
    auto 10 with steps.
Qed.

Lemma steps_strncpy_loop n address i read : steps R (strncpy_loop n address i read).
Proof. revert i read. induction n as [|n IH]; intros i read; cbn [strncpy_loop]; auto 10 with steps. Qed.

Hypothesis record_step : forall c kind address value size scope,
  zlen (ee_data (hc_out c)) < hk_data_cap env ->
  R c (set_out (push_data (summary_access env c kind address value size scope) (hc_out c))
         (next_sequence (hc_sequence c)) c).

Lemma steps_record_access kind address value size :
  steps R (record_summary_access (E := E) env kind address value size).
Proof.
  apply steps_update. intros c. destruct (Z.leb_spec (hk_data_cap env) (zlen (ee_data (hc_out c)))); [done|].
  destruct (access_scope env address size) as [scope ok]. destruct (negb ok || _); [done|].
  by apply record_step.
Qed.

#[local] Hint Resolve steps_summary_arg steps_read_c_string steps_strncpy_loop
  steps_record_access : steps.
#[local] Hint Extern 1 (steps _ (record_bytes _ _ _ _)) => unfold record_bytes : steps.

(** Every model but the allocations, which move the cursor. *)
Lemma steps_effect kind :
  kind <> Summary_ALLOCATE -> kind <> Summary_CALLOCATE ->
  steps R (summary_effect codes memcmp env kind).
Proof.
  intros Ha Hc. destruct kind; try done; cbn [summary_effect];
    unfold summarize_strlen, summarize_strcmp, summarize_memcpy, summarize_memset,
      summarize_strcpy, summarize_strncpy, summarize_deallocate; cbn zeta; auto 30 with steps.
Qed.

Hypothesis cursor_step : forall c cursor, R c (set_heap_cursor cursor c).
Hypothesis state_step : forall c terminated resume calls,
  R c (set_summary_state terminated resume calls c).

Lemma steps_allocate zeroed : steps R (summarize_allocate codes env zeroed).
Proof.
  unfold summarize_allocate. cbn zeta. destruct zeroed; repeat (apply steps_bind; [done|auto 10 with steps|intros]);
    apply steps_if; auto 10 using steps_update with steps.
Qed.

Lemma steps_apply_summary summary : steps R (apply_summary codes memcmp env summary).
Proof.
  assert (forall kind, steps R (hook result := summary_effect codes memcmp env kind in
    hook _ := summary_return env result in
    hook_update (fun c =>
      set_summary_state (hc_terminated_process c) (hc_summary_resume c) (count_call c) c))) as Hcall.
  { intros kind. apply steps_bind; [done| |intros result; apply steps_bind; [done| |intros _]].
    - destruct (decide (kind = Summary_ALLOCATE)) as [->|]; [apply (steps_allocate false)|].
      destruct (decide (kind = Summary_CALLOCATE)) as [->|]; [apply (steps_allocate true)|].
      by apply steps_effect.
    - unfold summary_return, request_resume, read_scalar. cbn zeta.
      auto 20 using steps_update with steps.
    - auto using steps_update. }
  unfold apply_summary. destruct (cs_kind summary); try apply Hcall.
  unfold summarize_terminate. auto using steps_update with steps.
Qed.

End Steps.

Lemma keeps_record_access kind address value size :
  keeps hc_heap_cursor (record_summary_access (E := E) env kind address value size).
Proof. by apply steps_record_access; [apply _|]. Qed.

#[local] Hint Resolve steps_summary_arg keeps_record_access : steps.

(** The computation may move the cursor, but not if it fails. *)
Definition keeps_on_failure {A} (m : Hook E A) : Prop :=
  forall s s', m s = (None, s') -> hc_heap_cursor s'.1 = hc_heap_cursor s.1.

Lemma keeps_failure {A} (m : Hook E A) : keeps hc_heap_cursor m -> keeps_on_failure m.
Proof. intros Hm s s' Hs. specialize (Hm s). by rewrite Hs in Hm. Qed.

Lemma keeps_failure_bind {A C} (m : Hook E A) (k : A -> Hook E C) :
  keeps hc_heap_cursor m -> (forall a, keeps_on_failure (k a)) -> keeps_on_failure (hook_bind m k).
Proof.
  intros Hm Hk s s' Hs. unfold hook_bind in Hs. specialize (Hm s).
  destruct (m s) as [[a|] s1]; [|by injection Hs as <-]. rewrite <- Hm. by eapply Hk.
Qed.

Lemma allocate_keeps_on_failure zeroed : keeps_on_failure (summarize_allocate codes env zeroed).
Proof.
  unfold summarize_allocate. apply keeps_failure_bind; [auto with steps|]. intros a0.
  apply keeps_failure_bind; [destruct zeroed; auto with steps|]. intros a1. cbn zeta.
  apply keeps_failure_bind; [auto with steps|]. intros c.
  destruct (_ && _); [|apply keeps_failure; auto with steps].
  apply keeps_failure_bind; [destruct zeroed; auto with steps|]. by intros u s s'.
Qed.

(** Only an allocation moves the cursor, and only if it succeeds. *)
Lemma effect_keeps_cursor kind s r s' :
  summary_effect codes memcmp env kind s = (r, s') ->
  r = None \/ (kind <> Summary_ALLOCATE /\ kind <> Summary_CALLOCATE) ->
  hc_heap_cursor s'.1 = hc_heap_cursor s.1.
Proof.
  intros Hr Hcase.
  destruct (decide (kind = Summary_ALLOCATE)) as [->|Ha].
  { destruct Hcase as [->|[? _]]; [by apply allocate_keeps_on_failure in Hr|done]. }
  destruct (decide (kind = Summary_CALLOCATE)) as [->|Hc].
  { destruct Hcase as [->|[_ ?]]; [by apply allocate_keeps_on_failure in Hr|done]. }
  assert (keeps hc_heap_cursor (summary_effect codes memcmp env kind)) as Hk
    by (by apply steps_effect; [apply _|..]).
  specialize (Hk s). by rewrite Hr in Hk.
Qed.

(** The block that a model hands out, with its size. *)
Definition heap_block (kind : EmuSummaryKind) (s : HookCtx * E) (r : option Z) : list (Z * Z) :=
  match kind, r with
  | Summary_ALLOCATE, Some p =>
      if p =? 0 then [] else [(p, allocation_size false (argument s 0) 0)]
  | Summary_CALLOCATE, Some p =>
      if p =? 0 then [] else [(p, allocation_size true (argument s 0) (argument s 1))]
  | _, _ => []
  end.

(** A run from a fresh heap and the blocks handed out in it, the last one first: models
    take effect, or fail, and everything else leaves the cursor alone. *)
Inductive heap_history : list (Z * Z) -> HookCtx * E -> Prop :=
| heap_fresh s : hc_heap_cursor s.1 = hk_heap_lo env -> heap_history [] s
| heap_effect blocks s kind r s' :
    heap_history blocks s -> summary_effect codes memcmp env kind s = (r, s') ->
    heap_history (heap_block kind s r ++ blocks) s'
| heap_other blocks s s' :
    heap_history blocks s -> hc_heap_cursor s'.1 = hc_heap_cursor s.1 -> heap_history blocks s'.

(** A block lies in the heap, is not empty and starts at a multiple of 16 from its start. *)
Definition good_block (block : Z * Z) : Prop :=
  hk_heap_lo env <= block.1 /\ 0 < block.2 <= kMaxModelBytes /\ block.1 + block.2 <= hk_heap_hi env /\
  (block.1 - hk_heap_lo env) mod 16 = 0.

Definition before (later earlier : Z * Z) : Prop := earlier.1 + earlier.2 <= later.1.

Definition heap_invariant (blocks : list (Z * Z)) (cursor : Z) : Prop :=
  hk_heap_lo env <= cursor <= hk_heap_hi env /\ (cursor - hk_heap_lo env) mod 16 = 0 /\
  Forall good_block blocks /\ Forall (fun block => block.1 + block.2 <= cursor) blocks /\
  StronglySorted before blocks.

Lemma allocation_size_range zeroed a0 a1 :
  0 <= a0 -> 0 <= a1 -> 0 <= allocation_size zeroed a0 a1 <= kMaxModelBytes.
Proof.
  intros Ha0 Ha1. unfold allocation_size.
  set (n := if zeroed then _ else _). assert (0 <= n).
  { unfold n. destruct zeroed; [|done]. destruct (_ && _); [done|]. by apply Z.mul_nonneg_nonneg. }
  destruct (Z.ltb_spec kMaxModelBytes n); [|done]. unfold kMaxModelBytes in *. lia.
Qed.

Lemma heap_invariant_push blocks cursor n :
  heap_invariant blocks cursor -> 0 < n <= kMaxModelBytes -> aligned_size n <= hk_heap_hi env - cursor ->
  heap_invariant ((cursor, n) :: blocks) (cursor + aligned_size n).
Proof.
  intros (Hc & Hm & Hg & Hb & Hs) Hn Hfit. destruct (aligned_size_value n) as [Hv Hr]; [lia|].
  split_and!; [lia..| | | |].
  - rewrite Hv. rewrite Z.add_sub_swap, Z.mul_comm, Z.mod_add by lia. done.
  - apply List.Forall_cons; [|done]. unfold good_block. cbn [fst snd]. split_and!; lia || done.
  - apply List.Forall_cons; [cbn; lia|]. eapply Forall_impl; [done|]. cbn. lia.
  - constructor; [done|]. eapply Forall_impl; [done|]. intros block Hblock. exact Hblock.
Qed.

(** C34: the blocks that the allocation models hand out in a run are disjoint, not empty,
    aligned to 16 bytes from the start of the heap and inside it, whatever the program
    asks for and whatever else happens between the calls. *)
Theorem heap_blocks_disjoint blocks s :
  0 < hk_heap_lo env -> hk_heap_lo env <= hk_heap_hi env <= u64_max ->
  heap_history blocks s ->
  Forall good_block blocks /\ StronglySorted before blocks /\
  hk_heap_lo env <= hc_heap_cursor s.1 <= hk_heap_hi env.
Proof.
  intros Hlo Hhi Hh.
  assert (heap_invariant blocks (hc_heap_cursor s.1)) as (? & _ & ? & _ & ?); [|done].
  induction Hh as [s Hs|blocks s kind r s' Hh IH Hr|blocks s s' Hh IH Hs].
  - rewrite Hs. split_and!; [lia|lia|by rewrite Z.sub_diag|constructor..].
  - assert (forall zeroed p, summarize_allocate codes env zeroed s = (Some p, s') ->
      heap_invariant ((if p =? 0 then [] else
        [(p, allocation_size zeroed (argument s 0) (if zeroed then argument s 1 else 0))]) ++ blocks)
        (hc_heap_cursor s'.1)) as Halloc.
    { intros zeroed p Ha. apply allocate_inv in Ha as (_ & _ & _ & _ & Hcase). cbn zeta in Hcase.
      set (n := allocation_size _ _ _) in *. destruct IH as [Hc IH].
      destruct Hcase as [[-> ->]|(Hn & -> & _ & Hfit & Hcursor & _)]; [done|].
      assert (0 <= n <= kMaxModelBytes) as Hrange.
      { apply allocation_size_range; [apply argument_nonneg|].
        destruct zeroed; [apply argument_nonneg|done]. }
      destruct (aligned_size_value n Hrange) as [_ ?].
      destruct (Z.eqb_spec (hc_heap_cursor s.1) 0); [lia|]. rewrite Hcursor.
      rewrite Z.mod_small by (unfold u64_max in *; lia). apply heap_invariant_push; [done|lia|done]. }
    destruct (decide (r = None \/ (kind <> Summary_ALLOCATE /\ kind <> Summary_CALLOCATE))) as [Hk|Hk].
    + rewrite (effect_keeps_cursor _ _ _ _ Hr Hk).
      assert (heap_block kind s r = []) as ->; [|done].
      destruct Hk as [-> |[? ?]]; destruct kind; try done; by destruct r.
    + destruct r as [p|]; [|by destruct Hk; left].
      destruct kind; try (by destruct Hk; right); cbn [summary_effect heap_block] in *; by eapply Halloc.
  - by rewrite Hs.
Qed.

End Lawful.

(** ** Runs of the reference machine *)

Module SummaryRuns.
Import Reference.

Definition compare (left right : bytes) : Z :=
  if bytes_lt left right then -1 else if bytes_lt right left then 1 else 0.

Lemma compare_sign (left right : bytes) : length left = length right ->
  - 2 ^ 31 <= compare left right < 2 ^ 31 /\ (compare left right < 0 <-> bytes_lt left right = true) /\
  (compare left right = 0 <-> left = right).
Proof.
  intros _. unfold compare. destruct (bytes_lt left right) eqn:Hl.
  - split_and!; [lia|lia|done|]. split; [done|]. intros ->. by rewrite lt_irrefl in Hl.
  - destruct (bytes_lt right left) eqn:Hr.
    + split_and!; [lia|lia|done|]. split; [done|]. intros ->. by rewrite lt_irrefl in Hr.
    + split_and!; [lia|lia|done|]. split; [|done]. intros _. by apply lt_total.
Qed.

Definition strcpy_env : HookEnv :=
  env None [{| cs_address := 0x1200; cs_kind := Summary_STRCPY |}] None false.

Definition strcpy_end : HookCtx * Machine :=
  (apply_summary sample_codes compare strcpy_env {| cs_address := 0x1200; cs_kind := Summary_STRCPY |}
    (ctx, machine 0x2800 0x2000 0)).2.

(** [strcpy(0x2800, "hi")] copies the string and its terminator and returns to 0x1234. *)
Example strcpy_copies :
  map (fun a => strcpy_end.2.1 !! a) [0x2800; 0x2801; 0x2802; 0x2803] =
    [Some x68; Some x69; Some x00; None] /\
  map (fun r => reg_read_u64 r strcpy_end.2) [0; 1; 2] =
    [Some 0x2800; Some 0x7ff008; Some 0x1234].
Proof. split; vm_compute; reflexivity. Qed.

Lemma summary_implements_libc_witness :
  registers_apart strcpy_env /\
  exists result e1,
    libc_effect Summary_STRCPY (argument strcpy_env (ctx, machine 0x2800 0x2000 0))
      (byte_at (machine 0x2800 0x2000 0)) (byte_at e1) result /\
    returned strcpy_env e1 strcpy_end.2 result /\ hc_summary_resume strcpy_end.1 = true.
Proof.
  assert (registers_apart strcpy_env) as Ha by (repeat split; discriminate).
  split; [exact Ha|].
  destruct (summary_implements_libc sample_codes compare strcpy_env compare_sign
    {| cs_address := 0x1200; cs_kind := Summary_STRCPY |} ctx (machine 0x2800 0x2000 0)
    strcpy_end.1 strcpy_end.2 Ha ltac:(discriminate) ltac:(vm_compute; reflexivity))
    as (result & e1 & _ & Heffect & _ & Hreturn & Hresume & _).
  exists result, e1. split; [exact Heffect|]. split; [exact Hreturn|exact Hresume].
Defined.

Definition run_model : Z -> EmuSummaryKind -> HookCtx * Machine -> option Z * (HookCtx * Machine) :=
  fun size kind s =>
    summary_effect sample_codes compare (env None [] None false) kind (s.1, (s.2.1, <[3 := size]> s.2.2)).

Definition after_first : HookCtx * Machine := (run_model 20 Summary_ALLOCATE (ctx, machine 0 2 0)).2.
Definition after_second : HookCtx * Machine := (run_model 8 Summary_CALLOCATE after_first).2.
Definition set_size (size : Z) (s : HookCtx * Machine) : HookCtx * Machine :=
  (s.1, (s.2.1, <[3 := size]> s.2.2)).

Lemma two_blocks :
  heap_history sample_codes compare (env None [] None false) [(0x710020, 16); (0x710000, 20)] after_second.
Proof.
  pose proof (heap_fresh sample_codes compare (env None [] None false) (ctx, machine 0 2 0) eq_refl) as H0.
  pose proof (heap_other sample_codes compare (env None [] None false) _ _ (set_size 20 (ctx, machine 0 2 0))
    H0 eq_refl) as H1.
  pose proof (heap_effect sample_codes compare (env None [] None false) _ _ Summary_ALLOCATE _ _ H1
    (surjective_pairing _)) as H2.
  change (heap_history sample_codes compare (env None [] None false) ([(0x710000, 20)] ++ []) after_first) in H2.
  pose proof (heap_other sample_codes compare (env None [] None false) _ _ (set_size 8 after_first)
    H2 eq_refl) as H3.
  exact (heap_effect sample_codes compare (env None [] None false) _ _ Summary_CALLOCATE _ _ H3
    (surjective_pairing _)).
Qed.

Lemma heap_blocks_disjoint_witness :
  Forall (good_block (env None [] None false)) [(0x710020, 16); (0x710000, 20)] /\
  StronglySorted before [(0x710020, 16); (0x710000, 20)] /\
  0x710000 <= hc_heap_cursor after_second.1 <= 0x780000.
Proof.
  apply (heap_blocks_disjoint sample_codes compare (env None [] None false)
    [(0x710020, 16); (0x710000, 20)] after_second); [reflexivity| |exact two_blocks].
  split; discriminate.
Defined.

End SummaryRuns.
