(* ===== verification/EmuHooks.v ===== *)
(** * The hooks of a run (emu_driver.cpp)

    The engine calls [code_tr] before an instruction, [mem_tr] after an access and
    [inv_tr] on a fault.  The hooks record what was executed: transfers of control with
    their source in the function, executed addresses, accesses to memory.  The theorems
    compare the logs with the sequence of the calls: the transfers that are recorded are
    exactly the taken ones, up to the cap; the cache of decoded instructions cannot be
    observed; sequence numbers order what was recorded; a forbidden access leaves no
    evidence, and a forbidden write inside the segments is undone. *)
From stdpp Require Import base numbers list strings option sets gmap sorting.
From Stdlib Require Import ZArith Init.Byte Sorting.Sorted Lia.
From S2P Require Import Prelude OrderedMap ProgramModel RuntimeWrites AbiPolicy DecoderCore.
From S2P Require Import WorkerFingerprint EmuEvents EvidenceBridge EmuMachine EmuSummaries.

Section Hooks.
Context {E : Type} `{RaxEngine E} (codes : RaxCodes) (rax : RaxDecoder).
Context (memcmp : bytes -> bytes -> Z).
Context (env : HookEnv).

(** ** Decoding *)

(** The bytes behind the pointer of a view. *)
Definition viewed_bytes (img : ProgramImage) (pc : Z) (view : LoadedByteView) : bytes :=
  match segment_at img pc, lv_data view with
  | Some s, Some offset => take (Z.to_nat (lv_size view)) (drop (Z.to_nat offset) (sg_bytes s))
  | _, _ => []
  end.

Definition decoded_kind (flow : Z) : ExecEdgeKind :=
  if (flow =? RAX_FLOW_CALL rax) || (flow =? RAX_FLOW_INDIRECT_CALL rax) then ExecEdge_Call
  else if (flow =? RAX_FLOW_BRANCH rax) || (flow =? RAX_FLOW_COND_BRANCH rax) ||
          (flow =? RAX_FLOW_INDIRECT_JUMP rax) then ExecEdge_Jump
  else if flow =? RAX_FLOW_RETURN rax then ExecEdge_Return
  else ExecEdge_Unknown.

(** The entry that decoding at [pc] leaves in the cache. *)
Definition decode_fresh (decode : Z -> Z -> Z -> bytes -> Z * rax_decoded) (img : ProgramImage)
    (pc : Z) : DecodeEntry :=
  let blank := {| dc_pc := pc; dc_size := 0; dc_kind := ExecEdge_Unknown; dc_occupied := true;
                  dc_valid := false |} in
  let view := img_loaded_view img pc 15 in
  if lv_size view =? 0 then blank
  else
    let '(status, decoded) := decode (hk_rax_arch env) (hk_rax_mode env) pc (viewed_bytes img pc view) in
    if negb (status =? RAX_OK rax) || (rd_valid decoded =? 0) || (rd_size decoded =? 0) then blank
    else {| dc_pc := pc; dc_size := rd_size decoded; dc_kind := decoded_kind (rd_flow decoded);
            dc_occupied := true; dc_valid := true |}.

(** [(pc ^ (pc >> 10)) % decode_cache.size()] *)
Definition decode_slot (pc : Z) : nat := Z.to_nat (Z.lxor pc (Z.shiftr pc 10) mod 1024).

(** Whether there is an instruction, its size and its kind. *)
Definition decode_at (pc : Z) : Hook E (bool * Z * ExecEdgeKind) :=
  match hk_decode env, hk_image env with
  | Some decode, Some img =>
      hook c := hook_context in
      let cached := nth (decode_slot pc) (hc_decode_cache c) empty_entry in
      if dc_occupied cached && (dc_pc cached =? pc)
      then hook_return (dc_valid cached, dc_size cached, dc_kind cached)
      else
        let entry := decode_fresh decode img pc in
        hook _ := hook_update (set_cache (<[decode_slot pc := entry]> (hc_decode_cache c))) in
        hook_return (dc_valid entry, dc_size entry, dc_kind entry)
  | _, _ => hook_return (false, 0, ExecEdge_Unknown)
  end.

(** ** The code hook *)

Definition push_edge (edge : ExecEdge) (out : EmuEvents) : EmuEvents := {|
  ee_edges := ee_edges out ++ [edge]; ee_execution := ee_execution out; ee_data := ee_data out;
  ee_states := ee_states out; ee_final_writes := ee_final_writes out;
  ee_exec_pcs := ee_exec_pcs out |}.

Definition push_state (state : StatePoint) (out : EmuEvents) : EmuEvents := {|
  ee_edges := ee_edges out; ee_execution := ee_execution out; ee_data := ee_data out;
  ee_states := ee_states out ++ [state]; ee_final_writes := ee_final_writes out;
  ee_exec_pcs := ee_exec_pcs out |}.

Definition push_execution (point : ExecPoint) (out : EmuEvents) : EmuEvents := {|
  ee_edges := ee_edges out; ee_execution := ee_execution out ++ [point]; ee_data := ee_data out;
  ee_states := ee_states out; ee_final_writes := ee_final_writes out;
  ee_exec_pcs := ee_exec_pcs out |}.

Definition insert_pc (pc : Z) (out : EmuEvents) : EmuEvents := {|
  ee_edges := ee_edges out; ee_execution := ee_execution out; ee_data := ee_data out;
  ee_states := ee_states out; ee_final_writes := ee_final_writes out;
  ee_exec_pcs := {[pc]} ∪ ee_exec_pcs out |}.

Definition update_out (f : EmuEvents -> EmuEvents) : Hook E unit :=
  hook_update (fun c => set_out (f (hc_out c)) (hc_sequence c) c).

(** The registers that can be read, in the order of the list. *)
Definition read_registers (registers : list Z) : Hook E (list RegisterValue) := fun s =>
  (Some (base.omap (fun reg =>
     match reg_read_u64 reg s.2 with
     | Some value => Some {| rv_reg := reg; rv_value := value; rv_width := hk_register_width env |}
     | None => None
     end) registers), s).

Definition in_image (addr : Z) : bool := (hk_lo env <=? addr) && (addr <? hk_hi env).

(** The conditions on a transfer to [addr] before the fall-through is known. *)
Definition edge_wanted (addr : Z) (c : HookCtx) : bool :=
  in_image addr && hook_in_function env (hc_prev_pc c) &&
  (zlen (ee_edges (hc_out c)) <? hk_edge_cap env).

Definition falls_through (pc size addr : Z) : bool :=
  negb (size =? 0) &&
  match checked_add pc size with Some fallthrough => addr =? fallthrough | None => false end.

Definition capture_state (source addr : Z) : Hook E unit :=
  hook c := hook_context in
  match hk_capture_regs env with
  | None => hook_return tt
  | Some registers =>
      if zlen (ee_states (hc_out c)) <? hk_state_cap env then
        hook regs := read_registers registers in
        update_out (push_state {| sp_source := source; sp_pc := addr; sp_regs := regs;
                                  sp_run_id := hk_run_id env; sp_seed := hk_seed env |})
      else hook_return tt
  end.

Definition record_transfer (addr event_sequence : Z) : Hook E unit :=
  hook c := hook_context in
  let prev_pc := hc_prev_pc c in
  if hc_has_prev c && edge_wanted addr c then
    hook decoded :=
      (if hc_prev_size c =? 0 then decode_at prev_pc
       else hook_return (false, 0, ExecEdge_Unknown)) in
    let '(_, decoded_size, edge_kind) := decoded in
    let instruction_size := if negb (hc_prev_size c =? 0) then hc_prev_size c else decoded_size in
    if negb (falls_through prev_pc instruction_size addr) && edge_wanted addr c then
      hook edge_kind :=
        (if negb (hc_prev_size c =? 0) then hook decoded := decode_at prev_pc in hook_return decoded.2
         else hook_return edge_kind) in
      hook _ := update_out (push_edge {| edge_from := prev_pc; edge_to := addr;
        edge_run_id := hk_run_id env; edge_seed := hk_seed env; edge_kind := edge_kind;
        edge_sequence := event_sequence |}) in
      capture_state prev_pc addr
    else hook_return tt
  else hook_return tt.

Definition record_execution (addr event_sequence : Z) : Hook E unit :=
  hook c := hook_context in
  if in_image addr && (zlen (ee_execution (hc_out c)) <? hk_execution_cap env) then
    update_out (push_execution {| pt_pc := addr; pt_sequence := event_sequence;
      pt_run_id := hk_run_id env; pt_seed := hk_seed env |})
  else hook_return tt.

Definition record_pc (addr : Z) : Hook E unit :=
  hook c := hook_context in
  if hk_record_pcs env && hook_in_function env addr &&
     (Z.of_nat (size (ee_exec_pcs (hc_out c))) <? hk_edge_cap env)
  then update_out (insert_pc addr)
  else hook_return tt.

(** A computation whose failure is ignored. *)
Definition hook_ignore {A} (m : Hook E A) : Hook E unit := fun s => (Some tt, (m s).2).

(** A forbidden access stops the run. *)
Definition stop_violation : Hook E unit :=
  hook _ := hook_update set_permission_violation in engine_stop.

(** [c->sequence++] *)
Definition take_sequence : Hook E Z :=
  hook c := hook_context in
  hook _ := hook_update (fun c => set_out (hc_out c) (next_sequence (hc_sequence c)) c) in
  hook_return (hc_sequence c).

Definition run_summary (addr : Z) : Hook E unit :=
  hook _ := hook_update (fun c => set_summary_source (if hc_has_prev c then hc_prev_pc c else addr) c) in
  match find_summary env addr with
  | Some summary => hook_ignore (apply_summary codes memcmp env summary)
  | None => hook_return tt
  end.

Definition code_tr (addr size : Z) : Hook E unit :=
  if hk_strict_permissions env &&
     negb (image_access_allowed env addr (if size =? 0 then 1 else size) SegPerm_EXEC)
  then stop_violation
  else
    hook event_sequence := take_sequence in
    hook _ := record_transfer addr event_sequence in
    hook _ := record_execution addr event_sequence in
    hook _ := record_pc addr in
    hook _ := run_summary addr in
    hook_update (set_position addr size addr).

(** ** The memory hook *)

Definition mem_access (c : HookCtx) (kind addr size value : Z) (scope : DataScope) : DataAcc := {|
  acc_from := hc_last_pc c; acc_addr := addr; acc_value := value; acc_size := size;
  acc_kind := kind; acc_scope := scope; acc_sequence := hc_sequence c;
  acc_run_id := hk_run_id env; acc_seed := hk_seed env |}.

Definition restore_image (addr size : Z) : Hook E unit := fun s =>
  (Some tt, (s.1, restore_snapshot_bytes env addr size s.2)).

Definition mem_tr (kind addr size value : Z) : Hook E unit :=
  if kind =? RAX_MEM_FETCH codes then hook_return tt
  else
    let required := if kind =? RAX_MEM_WRITE codes then SegPerm_WRITE else SegPerm_READ in
    if hk_strict_permissions env && negb (image_access_allowed env addr size required) then
      hook _ := (if kind =? RAX_MEM_WRITE codes then restore_image addr size else hook_return tt) in
      stop_violation
    else if negb (hk_record_memory env) then hook_return tt
    else
      let '(scope, recordable) := access_scope env addr size in
      hook_update (fun c =>
        if recordable && hook_in_function env (hc_last_pc c) &&
           (zlen (ee_data (hc_out c)) <? hk_data_cap env)
        then set_out (push_data (mem_access c kind addr size value scope) (hc_out c))
               (next_sequence (hc_sequence c)) c
        else c).

Definition inv_tr : Z := 0.

End Hooks.

(** ** The permission check *)

Section Permissions.
Context (img : ProgramImage) (required : ViySegPerm).
Context (img_ok : segs_ok (im_segs img)).

(** The byte lies in a segment that has the permission, or no permissions at all. *)
Definition permitted (x : Z) : Prop :=
  exists s, segment_at img x = Some s /\ (sg_perm s = 0 \/ seg_has_perm s required = true).

Lemma segment_at_same s x y :
  segment_at img x = Some s -> sg_start s <= y < sg_end s -> segment_at img y = Some s.
Proof.
  intros [Hs _]%segment_at_iff Hy; [|done]. apply segment_at_iff; [done|]. split; [done|].
  unfold seg_contains. apply andb_true_iff. split; lia.
Qed.

(** The segments from the cursor on. *)
Definition segments_from (cursor : Z) : list SegImage :=
  filter (fun s => cursor < sg_end s) (im_segs img).

Lemma segments_from_shrink s cursor :
  segment_at img cursor = Some s ->
  (length (segments_from (sg_end s)) < length (segments_from cursor))%nat.
Proof.
  intros [Hs Hc]%segment_at_iff; [|done]. apply andb_true_iff in Hc as [Hlo%Z.leb_le Hhi%Z.ltb_lt].
  clear img_ok. unfold segments_from.
  assert (forall l : list SegImage, (length (filter (fun u => (sg_end s < sg_end u)%Z) l) <=
    length (filter (fun u => (cursor < sg_end u)%Z) l))%nat) as Hle.
  { clear -Hhi. intros l. induction l as [|u l IH]; [done|]. rewrite !filter_cons.
    destruct (decide (sg_end s < sg_end u)), (decide (cursor < sg_end u)); cbn; lia. }
  induction (im_segs img) as [|t l IH]; [by apply not_elem_of_nil in Hs|].
  rewrite !filter_cons. apply elem_of_cons in Hs as [->|Hs].
  - destruct (decide (sg_end t < sg_end t)); [lia|]. destruct (decide (cursor < sg_end t)); [|lia].
    cbn. specialize (Hle l). lia.
  - specialize (IH Hs). destruct (decide (sg_end s < sg_end t)), (decide (cursor < sg_end t)); cbn; lia.
Qed.

Lemma access_walk_inside fuel cursor end_ :
  (length (segments_from cursor) < fuel)%nat ->
  access_walk fuel img required cursor end_ true = true <->
  forall x, cursor <= x < end_ -> permitted x.
Proof.
  revert cursor. induction fuel as [|fuel IH]; intros cursor Hf; [lia|]. cbn [access_walk].
  destruct (Z.ltb_spec cursor end_) as [Hlt|]; [|split; [intros _ x; lia|done]].
  destruct (segment_at img cursor) as [s|] eqn:Hs; cbn [negb].
  2: { split; [done|]. intros Hall. destruct (Hall cursor) as (s & Hs' & _); [lia|congruence]. }
  pose proof Hs as [Hin Hc]%segment_at_iff; [|done].
  apply andb_true_iff in Hc as [Hlo%Z.leb_le Hhi%Z.ltb_lt].
  destruct (negb (sg_perm s =? 0) && negb (seg_has_perm s required)) eqn:Hp.
  - split; [done|]. intros Hall. destruct (Hall cursor) as (t & Ht & Hok); [lia|].
    assert (t = s) as -> by congruence.
    apply andb_true_iff in Hp as [Hp1%negb_true_iff%Z.eqb_neq Hp2%negb_true_iff].
    destruct Hok; congruence.
  - assert (sg_perm s = 0 \/ seg_has_perm s required = true) as Hok.
    { apply andb_false_iff in Hp as [Hp%negb_false_iff%Z.eqb_eq|Hp%negb_false_iff]; auto. }
    assert (forall x, cursor <= x < Z.min end_ (sg_end s) -> permitted x) as Hhere.
    { intros x Hx. exists s. split; [|done]. apply (segment_at_same s cursor); [done|]. lia. }
    destruct (Z.le_gt_cases end_ (sg_end s)).
    + rewrite Z.min_l by lia. split; [intros _ x Hx; apply Hhere; lia|].
      intros _. destruct fuel; cbn [access_walk]; by rewrite Z.ltb_irrefl.
    + rewrite Z.min_r by lia. rewrite IH by (pose proof (segments_from_shrink s cursor Hs); lia).
      split; intros Hall x Hx; [|apply Hall; lia].
      destruct (Z.lt_ge_cases x (sg_end s)); [apply Hhere; lia|apply Hall; lia].
Qed.

Lemma segments_from_length cursor : (length (segments_from cursor) <= length (im_segs img))%nat.
Proof. apply length_filter. Qed.

End Permissions.

(** The permission check is exact.  On a well-formed image an access is allowed when
    it does not pass the end of the address space and either starts outside the image or
    has every byte in a segment with the permission. *)
Theorem access_check_exact env img address size required :
  hk_image env = Some img -> segs_ok (im_segs img) -> 0 < size ->
  image_access_allowed env address size required = true <->
  address + size <= u64_max /\
  (segment_at img address = None \/ forall x, address <= x < address + size -> permitted img required x).
Proof.
  intros Himg Hok Hsize. unfold image_access_allowed. rewrite Himg.
  rewrite (proj2 (Z.eqb_neq size 0)) by lia. unfold checked_add.
  destruct (Z.ltb_spec (u64_max - size) address); [split; [done|lia]|].
  pose proof (segments_from_length img address).
  pose proof (access_walk_inside img required Hok (S (length (im_segs img))) address (address + size)
    ltac:(lia)) as Hwalk.
  destruct (segment_at img address) as [s|] eqn:Hs.
  - assert (forall touched, access_walk (S (length (im_segs img))) img required address (address + size) touched =
      access_walk (S (length (im_segs img))) img required address (address + size) true) as ->.
    { intros touched. cbn [access_walk]. by rewrite Hs. }
    rewrite Hwalk. split; [intros ?; split; [lia|by right]|intros [_ [?|?]]; done].
  - cbn [access_walk]. rewrite Hs. destruct (address <? address + size); cbn [negb];
      split; try done; intros _; (split; [lia|by left]).
Qed.

(** ** The cache *)

Section Cache.
Context {E : Type} (rax : RaxDecoder) (env : HookEnv).

(** Decoding without the cache. *)
Definition decoded_at (pc : Z) : bool * Z * ExecEdgeKind :=
  match hk_decode env, hk_image env with
  | Some decode, Some img =>
      let entry := decode_fresh rax env decode img pc in (dc_valid entry, dc_size entry, dc_kind entry)
  | _, _ => (false, 0, ExecEdge_Unknown)
  end.

(** What is in the cache was decoded at its address. *)
Definition cache_ok (cache : list DecodeEntry) : Prop :=
  length cache = 1024%nat /\
  forall decode img, hk_decode env = Some decode -> hk_image env = Some img ->
    Forall (fun entry => dc_occupied entry = true ->
      entry = decode_fresh rax env decode img (dc_pc entry)) cache.

Lemma decode_slot_bound pc : (decode_slot pc < 1024)%nat.
Proof.
  unfold decode_slot. pose proof (Z.mod_pos_bound (Z.lxor pc (Z.shiftr pc 10)) 1024). lia.
Qed.

Lemma decode_fresh_pc decode img pc :
  dc_pc (decode_fresh rax env decode img pc) = pc.
Proof.
  unfold decode_fresh. destruct (lv_size _ =? 0); [done|].
  destruct (decode _ _ _ _) as [status decoded]. by destruct (_ || _).
Qed.

Lemma cache_ok_empty : cache_ok (repeat empty_entry 1024).
Proof.
  split; [done|]. intros decode img _ _. apply Forall_forall. intros entry He.
  apply list_elem_of_In, repeat_spec in He as ->. done.
Qed.

(** The cache cannot be observed: decoding returns what it returns without it. *)
Lemma decode_at_exact pc c (e : E) :
  cache_ok (hc_decode_cache c) ->
  exists cache, decode_at rax env pc (c, e) = (Some (decoded_at pc), (set_cache cache c, e)) /\
    cache_ok cache.
Proof.
  intros Hok. pose proof Hok as [Hl Hc]. unfold decode_at, decoded_at.
  assert (c = set_cache (hc_decode_cache c) c) as Hsame by (by destruct c).
  destruct (hk_decode env) as [decode|] eqn:Hd; [|by exists (hc_decode_cache c); rewrite <- Hsame].
  destruct (hk_image env) as [img|] eqn:Hi; [|by exists (hc_decode_cache c); rewrite <- Hsame].
  unfold hook_bind, hook_context. cbn [fst snd].
  set (entry := nth (decode_slot pc) (hc_decode_cache c) empty_entry).
  pose proof (decode_slot_bound pc) as Hslot.
  destruct (dc_occupied entry && (dc_pc entry =? pc)) eqn:Hhit.
  - apply andb_true_iff in Hhit as [Hocc Hpc%Z.eqb_eq]. exists (hc_decode_cache c).
    specialize (Hc decode img eq_refl eq_refl). rewrite Forall_forall in Hc.
    assert (entry = decode_fresh rax env decode img pc) as <-.
    { rewrite <- Hpc. apply Hc; [|done]. apply list_elem_of_In, nth_In. lia. }
    rewrite <- Hsame. done.
  - eexists. split; [done|]. split; [by rewrite length_insert|]. intros decode' img' Hd' Hi'.
    assert (decode' = decode) as -> by congruence. assert (img' = img) as -> by congruence.
    apply Forall_insert; [by apply Hc|]. intros _. by rewrite decode_fresh_pc.
Qed.

End Cache.

(** ** Runs *)

(** What the engine calls hooks for. *)
Inductive hook_event : Type :=
| Event_code (addr size : Z)
| Event_mem (kind addr size value : Z).

(** A run: the guest changes the engine, the engine calls hooks, and the driver clears the
    request of a model to resume before it lets the guest go on. *)
Inductive hook_run {E : Type} (hooks : hook_event -> Hook E unit) (s : HookCtx * E) :
    list hook_event -> HookCtx * E -> Prop :=
| run_start : hook_run hooks s [] s
| run_guest events c e guest : hook_run hooks s events (c, e) -> hook_run hooks s events (c, guest)
| run_resume events c e :
    hook_run hooks s events (c, e) -> hook_run hooks s events (clear_resume c, e)
| run_event events c e event :
    hook_run hooks s events (c, e) -> hook_run hooks s (events ++ [event]) (hooks event (c, e)).2.

Lemma hook_run_trans {E : Type} (hooks : hook_event -> Hook E unit) s events1 s1 events2 s2 :
  hook_run hooks s events1 s1 -> hook_run hooks s1 events2 s2 -> hook_run hooks s (events1 ++ events2) s2.
Proof.
  intros H1 H2. induction H2 as [|events c e guest H2 IH|events c e H2 IH|events c e event H2 IH].
  - by rewrite app_nil_r.
  - by apply run_guest with e.
  - by apply run_resume.
  - rewrite app_assoc. by apply run_event.
Qed.

Definition hook_step {E : Type} `{RaxEngine E} (codes : RaxCodes) (rax : RaxDecoder)
    (memcmp : bytes -> bytes -> Z) (env : HookEnv) (event : hook_event) : Hook E unit :=
  match event with
  | Event_code addr size => code_tr codes rax memcmp env addr size
  | Event_mem kind addr size value => mem_tr codes env kind addr size value
  end.

(** ** Transfers *)

Section Runs.
Context {E : Type} `{RaxEngine E} (codes : RaxCodes) (rax : RaxDecoder).
Context (memcmp : bytes -> bytes -> Z).
Context (env : HookEnv).

#[local] Notation code_tr := (code_tr codes rax memcmp env).
#[local] Notation mem_tr := (mem_tr codes env).

(** An instruction at [pc], with the size that the engine told or 0. *)
Definition fallthrough_size (pc size : Z) : Z :=
  if size =? 0 then (decoded_at rax env pc).1.2 else size.

(** The transfers that are evidence: from the function into the image and not to the
    instruction that follows. *)
Definition is_transfer (pc size addr : Z) : bool :=
  in_image env addr && hook_in_function env pc &&
  negb (falls_through pc (fallthrough_size pc size) addr).

Definition edge_room (c : HookCtx) : bool := zlen (ee_edges (hc_out c)) <? hk_edge_cap env.

Definition transfer_edge (pc addr sequence : Z) : ExecEdge := {|
  edge_from := pc; edge_to := addr; edge_run_id := hk_run_id env; edge_seed := hk_seed env;
  edge_kind := (decoded_at rax env pc).2; edge_sequence := sequence |}.

Definition captured (c : HookCtx) (e : E) (addr : Z) : list StatePoint :=
  match hk_capture_regs env with
  | Some registers =>
      if zlen (ee_states (hc_out c)) <? hk_state_cap env then
        [{| sp_source := hc_prev_pc c; sp_pc := addr;
            sp_regs := default [] (read_registers env registers (c, e)).1;
            sp_run_id := hk_run_id env; sp_seed := hk_seed env |}]
      else []
  | None => []
  end.

Definition transfer_taken (c : HookCtx) (addr : Z) : bool :=
  hc_has_prev c && is_transfer (hc_prev_pc c) (hc_prev_size c) addr && edge_room c.

(** The log after a transfer. *)
Definition transfer_out (c : HookCtx) (e : E) (addr sequence : Z) : EmuEvents :=
  if transfer_taken c addr then
    {| ee_edges := ee_edges (hc_out c) ++ [transfer_edge (hc_prev_pc c) addr sequence];
       ee_execution := ee_execution (hc_out c); ee_data := ee_data (hc_out c);
       ee_states := ee_states (hc_out c) ++ captured c e addr;
       ee_final_writes := ee_final_writes (hc_out c); ee_exec_pcs := ee_exec_pcs (hc_out c) |}
  else hc_out c.

Lemma edge_wanted_room c addr :
  edge_wanted env addr c = in_image env addr && hook_in_function env (hc_prev_pc c) && edge_room c.
Proof. done. Qed.

Lemma capture_state_exact c e addr :
  exists out, capture_state env (hc_prev_pc c) addr (c, e) = (Some tt, (set_out out (hc_sequence c) c, e)) /\
    out = {| ee_edges := ee_edges (hc_out c); ee_execution := ee_execution (hc_out c);
             ee_data := ee_data (hc_out c); ee_states := ee_states (hc_out c) ++ captured c e addr;
             ee_final_writes := ee_final_writes (hc_out c); ee_exec_pcs := ee_exec_pcs (hc_out c) |}.
Proof.
  unfold capture_state, captured, hook_bind, hook_context. cbn [fst snd].
  destruct (hk_capture_regs env) as [registers|]; [destruct (_ <? _)|].
  - eexists. split; [done|]. done.
  - exists (hc_out c). split; [by destruct c|]. rewrite app_nil_r. by destruct (hc_out c).
  - exists (hc_out c). split; [by destruct c|]. rewrite app_nil_r. by destruct (hc_out c).
Qed.

(** The edge and the registers are appended, whatever the cache. *)
Lemma push_transfer_exact c e cache addr sequence :
  (hook _ := update_out (push_edge (transfer_edge (hc_prev_pc c) addr sequence)) in
   capture_state env (hc_prev_pc c) addr) (set_cache cache c, e) =
  (Some tt,
   (set_out {| ee_edges := ee_edges (hc_out c) ++ [transfer_edge (hc_prev_pc c) addr sequence];
               ee_execution := ee_execution (hc_out c); ee_data := ee_data (hc_out c);
               ee_states := ee_states (hc_out c) ++ captured c e addr;
               ee_final_writes := ee_final_writes (hc_out c); ee_exec_pcs := ee_exec_pcs (hc_out c) |}
      (hc_sequence c) (set_cache cache c), e)).
Proof.
  unfold hook_bind, update_out, hook_update. cbn [fst snd].
  set (c1 := set_out _ _ _).
  destruct (capture_state_exact c1 e addr) as (out & Heq & ->).
  exact Heq.
Qed.

Lemma record_transfer_exact c e addr sequence :
  cache_ok rax env (hc_decode_cache c) ->
  exists cache, cache_ok rax env cache /\
    record_transfer rax env addr sequence (c, e) =
      (Some tt, (set_out (transfer_out c e addr sequence) (hc_sequence c) (set_cache cache c), e)).
Proof.
  intros Hc. unfold record_transfer, transfer_out, transfer_taken, is_transfer, fallthrough_size.
  unfold hook_bind at 1, hook_context. cbn [fst snd]. cbn zeta.
  assert ((c, e) = (set_out (hc_out c) (hc_sequence c) (set_cache (hc_decode_cache c) c), e)) as Hsame
    by (by destruct c).
  assert (exists cache, cache_ok rax env cache /\ @hook_return E unit tt (c, e) =
    (Some tt, (set_out (hc_out c) (hc_sequence c) (set_cache cache c), e))) as Hnothing.
  { exists (hc_decode_cache c). split; [done|]. unfold hook_return. by rewrite <- Hsame. }
  destruct (hc_has_prev c); cbn [andb]; [|done].
  rewrite edge_wanted_room. destruct (in_image env addr && hook_in_function env (hc_prev_pc c)); cbn [andb]; [|done].
  destruct (edge_room c) eqn:Hroom; [|by rewrite andb_false_r].
  rewrite !andb_true_r. destruct (Z.eqb_spec (hc_prev_size c) 0) as [Hsize|Hsize]; cbn [negb].
  - destruct (decode_at_exact rax env (hc_prev_pc c) c e Hc) as (cache & Hd & Hok).
    unfold hook_bind at 1. rewrite Hd. pose proof (push_transfer_exact c e cache addr sequence) as Hpush.
    unfold transfer_edge in *.
    destruct (decoded_at rax env (hc_prev_pc c)) as [[valid size] kind] eqn:Hdec. cbn [fst snd] in *.
    exists cache. split; [done|]. rewrite andb_true_r.
    destruct (falls_through (hc_prev_pc c) size addr); cbn [negb]; [by destruct c|].
    unfold hook_bind at 1, hook_return. exact Hpush.
  - unfold hook_bind at 1, hook_return at 1. rewrite andb_true_r.
    destruct (falls_through (hc_prev_pc c) (hc_prev_size c) addr); cbn [negb]; [done|].
    destruct (decode_at_exact rax env (hc_prev_pc c) c e Hc) as (cache & Hd & Hok).
    exists cache. split; [done|]. unfold hook_bind at 1. unfold hook_bind at 1. rewrite Hd.
    exact (push_transfer_exact c e cache addr sequence).
Qed.

(** ** The code hook *)

Definition allowed_fetch (addr size : Z) : bool :=
  negb (hk_strict_permissions env) ||
  image_access_allowed env addr (if size =? 0 then 1 else size) SegPerm_EXEC.

Definition execution_out (addr sequence : Z) (out : EmuEvents) : EmuEvents :=
  if in_image env addr && (zlen (ee_execution out) <? hk_execution_cap env) then
    push_execution {| pt_pc := addr; pt_sequence := sequence; pt_run_id := hk_run_id env;
                      pt_seed := hk_seed env |} out
  else out.

Definition pcs_out (addr : Z) (out : EmuEvents) : EmuEvents :=
  if hk_record_pcs env && hook_in_function env addr && (Z.of_nat (size (ee_exec_pcs out)) <? hk_edge_cap env)
  then insert_pc addr out else out.

(** The context when the model of a library function, if there is one, is about to run. *)
Definition before_summary (c : HookCtx) (e : E) (addr : Z) (cache : list DecodeEntry) : HookCtx :=
  set_summary_source (if hc_has_prev c then hc_prev_pc c else addr)
    (set_out (pcs_out addr (execution_out addr (hc_sequence c) (transfer_out c e addr (hc_sequence c))))
       (next_sequence (hc_sequence c)) (set_cache cache c)).

(** What happens to the context in the model. *)
Definition summary_step (addr : Z) (s : HookCtx * E) : HookCtx * E :=
  match find_summary env addr with
  | Some summary => (apply_summary codes memcmp env summary s).2
  | None => s
  end.

Lemma code_tr_exact c e addr size :
  cache_ok rax env (hc_decode_cache c) ->
  exists cache, cache_ok rax env cache /\
    code_tr addr size (c, e) =
      (Some tt,
       if allowed_fetch addr size then
         let '(c', e') := summary_step addr (before_summary c e addr cache, e) in
         (set_position addr size addr c', e')
       else (set_permission_violation c, emu_stop e)).
Proof.
  intros Hc. unfold code_tr, allowed_fetch.
  destruct (hk_strict_permissions env && negb (image_access_allowed env addr (if size =? 0 then 1 else size)
    SegPerm_EXEC)) eqn:Hv.
  - exists (hc_decode_cache c). split; [done|]. apply andb_true_iff in Hv as [-> ->%negb_true_iff]. done.
  - assert (negb (hk_strict_permissions env) || image_access_allowed env addr (if size =? 0 then 1 else size)
      SegPerm_EXEC = true) as ->.
    { by destruct (hk_strict_permissions env), (image_access_allowed _ _ _ _). }
    unfold hook_bind at 1, take_sequence. unfold hook_bind at 1, hook_context at 1.
    unfold hook_bind at 1, hook_update at 1, hook_return at 1. cbn [fst snd].
    set (c1 := set_out (hc_out c) (next_sequence (hc_sequence c)) c).
    destruct (record_transfer_exact c1 e addr (hc_sequence c)) as (cache & Hok & Ht); [done|].
    exists cache. split; [done|]. unfold hook_bind at 1. rewrite Ht. clear Ht.
    set (out1 := transfer_out c1 e addr (hc_sequence c)).
    assert (out1 = transfer_out c e addr (hc_sequence c)) as Hout1 by done.
    unfold hook_bind at 1, record_execution. unfold hook_bind at 1, hook_context at 1. cbn [fst snd].
    set (c2 := set_out out1 _ _).
    assert ((if in_image env addr && (zlen (ee_execution (hc_out c2)) <? hk_execution_cap env)
      then update_out (push_execution {| pt_pc := addr; pt_sequence := hc_sequence c;
             pt_run_id := hk_run_id env; pt_seed := hk_seed env |})
      else hook_return tt) (c2, e) =
      (Some tt, (set_out (execution_out addr (hc_sequence c) out1) (hc_sequence c2) c2, e))) as ->.
    { unfold execution_out. change (hc_out c2) with out1.
      by destruct (in_image env addr && (zlen (ee_execution out1) <? hk_execution_cap env)). }
    set (c3 := set_out (execution_out _ _ _) _ _).
    unfold hook_bind at 1, record_pc. unfold hook_bind at 1, hook_context at 1. cbn [fst snd].
    assert ((if hk_record_pcs env && hook_in_function env addr &&
        (Z.of_nat (base.size (ee_exec_pcs (hc_out c3))) <? hk_edge_cap env)
      then update_out (insert_pc addr) else hook_return tt) (c3, e) =
      (Some tt, (set_out (pcs_out addr (hc_out c3)) (hc_sequence c3) c3, e))) as ->.
    { unfold pcs_out.
      by destruct (hk_record_pcs env && _ && _). }
    set (c4 := set_out (pcs_out _ _) _ _).
    unfold hook_bind at 1, run_summary. unfold hook_bind at 1, hook_update at 1. cbn [fst snd].
    assert (set_summary_source (if hc_has_prev c4 then hc_prev_pc c4 else addr) c4 =
      before_summary c e addr cache) as -> by (by unfold before_summary; rewrite <- Hout1).
    unfold summary_step. destruct (find_summary env addr) as [summary|]; [|done].
    unfold hook_ignore. by destruct (apply_summary _ _ _ _ _) as [? []].
Qed.

(** ** Runs *)

#[local] Notation hook_step := (hook_step codes rax memcmp env).
#[local] Notation hook_run := (hook_run hook_step).

(** The instructions that were executed, with the sizes that the engine told. *)
Definition executed : list hook_event -> list (Z * Z) :=
  base.omap (fun event =>
    match event with
    | Event_code addr size => if allowed_fetch addr size then Some (addr, size) else None
    | Event_mem _ _ _ _ => None
    end).

(** An edge without its sequence number. *)
Definition edge_core (edge : ExecEdge) : Z * Z * ExecEdgeKind * Z * Z :=
  (edge_from edge, edge_to edge, edge_kind edge, edge_run_id edge, edge_seed edge).

Definition point_core (point : ExecPoint) : Z * Z * Z := (pt_pc point, pt_run_id point, pt_seed point).

(** The transfers between consecutive instructions. *)
Fixpoint transfers (instructions : list (Z * Z)) : list (Z * Z * ExecEdgeKind * Z * Z) :=
  match instructions with
  | [] => []
  | (pc, size) :: rest =>
      match rest with
      | [] => []
      | (addr, _) :: _ =>
          (if is_transfer pc size addr
           then [(pc, addr, (decoded_at rax env pc).2, hk_run_id env, hk_seed env)] else [])
          ++ transfers rest
      end
  end.

Definition image_points (instructions : list (Z * Z)) : list (Z * Z * Z) :=
  map (fun i => (i.1, hk_run_id env, hk_seed env)) (filter (fun i => in_image env i.1 = true) instructions).

Definition function_pcs (instructions : list (Z * Z)) : gset Z :=
  list_to_set (map fst (filter (fun i => hook_in_function env i.1 = true) instructions)).

Lemma transfers_snoc l addr size :
  transfers (l ++ [(addr, size)]) = transfers l ++
    match last l with
    | Some (pc, pc_size) =>
        if is_transfer pc pc_size addr
        then [(pc, addr, (decoded_at rax env pc).2, hk_run_id env, hk_seed env)] else []
    | None => []
    end.
Proof.
  induction l as [|[pc pc_size] l IH]; [done|]. destruct l as [|[pc' size'] l].
  - cbn. by rewrite app_nil_r.
  - change (transfers (((pc, pc_size) :: (pc', size') :: l) ++ [(addr, size)])) with
      ((if is_transfer pc pc_size pc'
        then [(pc, pc', (decoded_at rax env pc).2, hk_run_id env, hk_seed env)] else [])
       ++ transfers (((pc', size') :: l) ++ [(addr, size)])).
    rewrite IH. cbn [transfers]. rewrite <- app_assoc. done.
Qed.

(** Appending to a log with a cap takes a prefix of what there is to log. *)
Lemma capped_push {A B} (f : A -> B) cap (l : list A) x (wanted : list B) :
  map f l = take (Z.to_nat cap) wanted ->
  map f (if zlen l <? cap then l ++ [x] else l) = take (Z.to_nat cap) (wanted ++ [f x]).
Proof.
  intros Hl. assert (length l = Nat.min (Z.to_nat cap) (length wanted)) as Hlen
    by (by rewrite <- length_take, <- Hl, length_map).
  unfold zlen. destruct (Z.ltb_spec (Z.of_nat (length l)) cap).
  - rewrite map_app, Hl, (take_ge wanted) by lia. rewrite take_ge by (rewrite length_app; cbn; lia). done.
  - rewrite Hl, take_app_le by lia. done.
Qed.

(** What neither models of library functions nor the memory hook touch. *)
Definition control_flow (c : HookCtx) :=
  ((ee_edges (hc_out c), ee_execution (hc_out c), ee_exec_pcs (hc_out c)),
   (hc_prev_pc c, hc_prev_size c, hc_has_prev c), hc_decode_cache c).

Lemma control_flow_inv c c' :
  control_flow c' = control_flow c ->
  ee_edges (hc_out c') = ee_edges (hc_out c) /\ ee_execution (hc_out c') = ee_execution (hc_out c) /\
  ee_exec_pcs (hc_out c') = ee_exec_pcs (hc_out c) /\ hc_prev_pc c' = hc_prev_pc c /\
  hc_prev_size c' = hc_prev_size c /\ hc_has_prev c' = hc_has_prev c /\
  hc_decode_cache c' = hc_decode_cache c.
Proof. unfold control_flow. by intros [=]. Qed.

Lemma summary_control addr s : control_flow (summary_step addr s).1 = control_flow s.1.
Proof.
  unfold summary_step. destruct (find_summary env addr) as [summary|]; [|done].
  assert (keeps control_flow (apply_summary codes memcmp env summary)) as Hk
    by (apply steps_apply_summary; [apply _|done..]).
  apply (Hk s).
Qed.

Lemma mem_control kind addr size value s :
  control_flow (mem_tr kind addr size value s).2.1 = control_flow s.1.
Proof.
  unfold mem_tr. destruct (kind =? RAX_MEM_FETCH codes); [done|].
  destruct (hk_strict_permissions env && _); [by destruct (kind =? RAX_MEM_WRITE codes)|].
  destruct (hk_record_memory env); [|done]. cbn [negb].
  destruct (access_scope env addr size) as [scope recordable]. cbn [hook_update fst snd].
  by destruct (recordable && _ && _).
Qed.

(** What a run has logged so far; [c0] is the context at its start. *)
Record logs_exact (c0 : HookCtx) (events : list hook_event) (c : HookCtx) : Prop := {
  le_cache : cache_ok rax env (hc_decode_cache c);
  le_prev : match last (executed events) with
            | None => hc_has_prev c = false
            | Some (pc, size) => hc_has_prev c = true /\ hc_prev_pc c = pc /\ hc_prev_size c = size
            end;
  le_edges : map edge_core (ee_edges (hc_out c)) =
    take (Z.to_nat (hk_edge_cap env))
      (map edge_core (ee_edges (hc_out c0)) ++ transfers (executed events));
  le_execution : map point_core (ee_execution (hc_out c)) =
    take (Z.to_nat (hk_execution_cap env))
      (map point_core (ee_execution (hc_out c0)) ++ image_points (executed events));
  le_sound : ee_exec_pcs (hc_out c) ⊆ ee_exec_pcs (hc_out c0) ∪ function_pcs (executed events);
  le_complete : hk_record_pcs env = true -> Z.of_nat (size (ee_exec_pcs (hc_out c))) < hk_edge_cap env ->
    ee_exec_pcs (hc_out c) = ee_exec_pcs (hc_out c0) ∪ function_pcs (executed events)
}.

Lemma logs_exact_same c0 events c c' :
  control_flow c' = control_flow c -> logs_exact c0 events c -> logs_exact c0 events c'.
Proof.
  intros (Ee & Ex & Ep & Epc & Esz & Ehp & Ec)%control_flow_inv.
  intros [Hcache Hprev Hedges Hexec Hsound Hcomplete]. split.
  - by rewrite Ec.
  - destruct (last (executed events)) as [[pc size]|]; by rewrite ?Epc, ?Esz, ?Ehp.
  - by rewrite Ee.
  - by rewrite Ex.
  - by rewrite Ep.
  - rewrite Ep. done.
Qed.

(** What is exact depends on the executed instructions only. *)
Lemma logs_exact_executed c0 events events' c :
  executed events' = executed events -> logs_exact c0 events c -> logs_exact c0 events' c.
Proof. intros He [Hcache Hprev Hedges Hexec Hsound Hcomplete]. split; by rewrite ?He. Qed.

Lemma executed_snoc events event :
  executed (events ++ [event]) = executed events ++ executed [event].
Proof. apply omap_app. Qed.

Lemma before_summary_edges c e addr cache :
  ee_edges (hc_out (before_summary c e addr cache)) =
  if transfer_taken c addr then ee_edges (hc_out c) ++ [transfer_edge (hc_prev_pc c) addr (hc_sequence c)]
  else ee_edges (hc_out c).
Proof.
  cbn. unfold pcs_out, execution_out, transfer_out.
  by destruct (transfer_taken c addr), (in_image env addr && _), (hk_record_pcs env && _ && _).
Qed.

Lemma before_summary_execution c e addr cache :
  ee_execution (hc_out (before_summary c e addr cache)) =
  if in_image env addr then
    if zlen (ee_execution (hc_out c)) <? hk_execution_cap env
    then ee_execution (hc_out c) ++ [{| pt_pc := addr; pt_sequence := hc_sequence c;
           pt_run_id := hk_run_id env; pt_seed := hk_seed env |}]
    else ee_execution (hc_out c)
  else ee_execution (hc_out c).
Proof.
  cbn. unfold pcs_out. assert (ee_execution (transfer_out c e addr (hc_sequence c)) = ee_execution (hc_out c)) as Hx
    by (unfold transfer_out; by destruct (transfer_taken c addr)).
  unfold execution_out. rewrite Hx.
  destruct (in_image env addr), (zlen (ee_execution (hc_out c)) <? hk_execution_cap env);
    cbn [andb]; destruct (hk_record_pcs env && _ && _); cbn; by rewrite ?Hx.
Qed.

Lemma before_summary_pcs c e addr cache :
  ee_exec_pcs (hc_out (before_summary c e addr cache)) =
  if hk_record_pcs env && hook_in_function env addr &&
     (Z.of_nat (size (ee_exec_pcs (hc_out c))) <? hk_edge_cap env)
  then {[addr]} ∪ ee_exec_pcs (hc_out c) else ee_exec_pcs (hc_out c).
Proof.
  cbn. set (out := execution_out _ _ _). assert (ee_exec_pcs out = ee_exec_pcs (hc_out c)) as Hx.
  { unfold out, execution_out, transfer_out. by destruct (_ && _), (transfer_taken c addr). }
  unfold pcs_out. rewrite Hx. destruct (_ && _); cbn; by rewrite Hx.
Qed.

Lemma image_points_snoc l addr size :
  image_points (l ++ [(addr, size)]) =
  image_points l ++ (if in_image env addr then [(addr, hk_run_id env, hk_seed env)] else []).
Proof.
  unfold image_points. rewrite filter_app, map_app. f_equal. rewrite filter_cons. cbn [fst].
  by destruct (in_image env addr).
Qed.

Lemma function_pcs_snoc l addr size :
  function_pcs (l ++ [(addr, size)]) =
  function_pcs l ∪ (if hook_in_function env addr then {[addr]} else ∅).
Proof.
  unfold function_pcs. rewrite filter_app, map_app, list_to_set_app_L. f_equal.
  rewrite filter_cons. cbn [fst]. destruct (hook_in_function env addr); cbn; set_solver.
Qed.

Lemma subseteq_grow (a b c d : gset Z) : a ⊆ b ∪ c -> a ⊆ b ∪ (c ∪ d).
Proof. set_solver. Qed.

Lemma subseteq_insert (a b c : gset Z) x : a ⊆ b ∪ c -> {[x]} ∪ a ⊆ b ∪ (c ∪ {[x]}).
Proof. set_solver. Qed.

Lemma union_insert (b c : gset Z) x : {[x]} ∪ (b ∪ c) = b ∪ (c ∪ {[x]}).
Proof. set_solver. Qed.

(** An instruction is logged. *)
Lemma logs_exact_code c0 events c e addr size cache c' :
  logs_exact c0 events c -> cache_ok rax env cache -> allowed_fetch addr size = true ->
  control_flow c' = control_flow (before_summary c e addr cache) ->
  logs_exact c0 (events ++ [Event_code addr size]) (set_position addr size addr c').
Proof.
  intros [_ Hprev Hedges Hexec Hsound Hcomplete] Hcache Hallowed Heq.
  apply control_flow_inv in Heq as (Ee & Ex & Ep & _ & _ & _ & Ec).
  assert (executed (events ++ [Event_code addr size]) = executed events ++ [(addr, size)]) as Hsnoc.
  { rewrite executed_snoc. cbn. by rewrite Hallowed. }
  rewrite before_summary_edges in Ee. rewrite before_summary_execution in Ex.
  rewrite before_summary_pcs in Ep.
  split; cbn [set_position hc_decode_cache hc_prev_pc hc_prev_size hc_has_prev hc_out]; rewrite ?Hsnoc.
  - by rewrite Ec.
  - by rewrite last_snoc.
  - rewrite Ee, transfers_snoc, app_assoc. unfold transfer_taken.
    destruct (last (executed events)) as [[pc pc_size]|]; [|by rewrite Hprev, app_nil_r].
    destruct Hprev as (-> & <- & <-). cbn [andb].
    destruct (is_transfer (hc_prev_pc c) (hc_prev_size c) addr); cbn [andb]; [|by rewrite app_nil_r].
    by apply (capped_push edge_core).
  - rewrite Ex, image_points_snoc, app_assoc. destruct (in_image env addr); [|by rewrite app_nil_r].
    by apply (capped_push point_core).
  - rewrite Ep, function_pcs_snoc.
    destruct (hk_record_pcs env); cbn [andb]; [|by apply subseteq_grow].
    destruct (hook_in_function env addr); cbn [andb]; [|by apply subseteq_grow].
    destruct (Z.of_nat _ <? _); [by apply subseteq_insert|by apply subseteq_grow].
  - intros Hrecord. rewrite Ep, function_pcs_snoc. rewrite Hrecord in *. cbn [andb].
    destruct (hook_in_function env addr); cbn [andb].
    + destruct (Z.ltb_spec (Z.of_nat (base.size (ee_exec_pcs (hc_out c)))) (hk_edge_cap env)); [|lia].
      intros _. rewrite Hcomplete by done. apply union_insert.
    + intros Hroom. rewrite Hcomplete by done. by rewrite (right_id_L ∅ (∪)).
Qed.

Lemma run_logs_exact_general c e events s' :
  hc_has_prev c = false -> cache_ok rax env (hc_decode_cache c) ->
  zlen (ee_edges (hc_out c)) <= hk_edge_cap env ->
  zlen (ee_execution (hc_out c)) <= hk_execution_cap env ->
  hook_run (c, e) events s' ->
  logs_exact c events s'.1.
Proof.
  intros Hprev Hcache Hedges Hexec Hrun.
  induction Hrun as [|events c1 e1 guest Hrun IH|events c1 e1 Hrun IH|events c1 guest event Hrun IH].
  - unfold zlen in *. split; [done|done|..].
    + cbn. rewrite app_nil_r, take_ge by (rewrite length_map; lia). done.
    + cbn. rewrite app_nil_r, take_ge by (rewrite length_map; lia). done.
    + apply union_subseteq_l.
    + intros _ _. cbn. by rewrite (right_id_L ∅ (∪)).
  - exact IH.
  - by apply (logs_exact_same _ _ c1).
  - cbn [fst] in IH. destruct event as [addr size|kind addr size value]; cbn [EmuHooks.hook_step].
    + destruct (code_tr_exact c1 guest addr size (le_cache _ _ _ IH)) as (cache & Hok & ->). cbn [snd].
      destruct (allowed_fetch addr size) eqn:Hallowed.
      * pose proof (summary_control addr (before_summary c1 guest addr cache, guest)) as Hs.
        destruct (summary_step addr _) as [c2 e2]. cbn [fst] in *. by eapply logs_exact_code.
      * cbn [fst]. apply (logs_exact_same _ _ c1); [done|].
        assert (executed (events ++ [Event_code addr size]) = executed events) as Hsame
          by (rewrite executed_snoc; cbn; by rewrite Hallowed, app_nil_r).
        destruct IH. split; rewrite ?Hsame; done.
    + apply (logs_exact_same _ _ c1); [apply (mem_control kind addr size value (c1, guest))|].
      assert (executed (events ++ [Event_mem kind addr size value]) = executed events) as Hsame
        by (rewrite executed_snoc; cbn; by rewrite app_nil_r).
      destruct IH. split; rewrite ?Hsame; done.
Qed.

(** The logs of a run are exact.  In a run from a context without a previous
    instruction, whatever the guest does and whatever functions are modelled, the edges
    that are recorded are the transfers of control between consecutive instructions that
    leave the function's code other than by falling through and reach the image, in their
    order and with the kind of the decoded instruction, up to the cap; so are the executed
    addresses in the image; and the set of executed addresses of the function is sound,
    and complete while it is below the cap. *)
Theorem run_logs_exact c e events c' e' :
  hc_has_prev c = false -> cache_ok rax env (hc_decode_cache c) ->
  zlen (ee_edges (hc_out c)) <= hk_edge_cap env ->
  zlen (ee_execution (hc_out c)) <= hk_execution_cap env ->
  hook_run (c, e) events (c', e') ->
  logs_exact c events c'.
Proof.
  intros. by apply (run_logs_exact_general c e events (c', e')).
Qed.

(** ** The order of what is recorded *)

(** The numbers increase and lie in an interval. *)
Definition window (lo hi : Z) (numbers : list Z) : Prop :=
  StronglySorted Z.lt numbers /\ Forall (fun x => lo <= x < hi) numbers.

Lemma window_nil lo hi : window lo hi [].
Proof. split; constructor. Qed.

Lemma window_one lo hi x : lo <= x < hi -> window lo hi [x].
Proof. intros Hx. split; repeat constructor; lia. Qed.

Lemma window_widen lo hi lo' hi' l : window lo hi l -> lo' <= lo -> hi <= hi' -> window lo' hi' l.
Proof. intros [Hs Hf] ? ?. split; [done|]. eapply Forall_impl; [done|]. cbn. lia. Qed.

Lemma window_app lo mid hi l1 l2 :
  window lo mid l1 -> window mid hi l2 -> lo <= mid <= hi -> window lo hi (l1 ++ l2).
Proof.
  intros [Hs1 Hf1] [Hs2 Hf2] Hm. split.
  - apply StronglySorted_app_2; [|done..]. intros x y Hx Hy.
    rewrite Forall_forall in Hf1, Hf2. specialize (Hf1 x Hx). specialize (Hf2 y Hy). lia.
  - apply Forall_app. split; (eapply Forall_impl; [done|]); cbn; lia.
Qed.

(** What is appended to the logs on the way from [c] to [c'], in which [n] instructions
    start and the sequence number does not wrap. *)
Record appended (c c' : HookCtx) (edges : list ExecEdge) (points : list ExecPoint)
    (accesses : list DataAcc) : Prop := {
  ap_edges : ee_edges (hc_out c') = ee_edges (hc_out c) ++ edges;
  ap_points : ee_execution (hc_out c') = ee_execution (hc_out c) ++ points;
  ap_accesses : ee_data (hc_out c') = ee_data (hc_out c) ++ accesses
}.

(** The new numbers are the new part of the counter: increasing in each log, and no
    access shares its number with an instruction. *)
Record in_order (lo hi : Z) (edges : list ExecEdge) (points : list ExecPoint)
    (accesses : list DataAcc) : Prop := {
  io_edges : window lo hi (map edge_sequence edges);
  io_points : window lo hi (map pt_sequence points);
  io_accesses : window lo hi (map acc_sequence accesses);
  io_apart : forall x, x ∈ map acc_sequence accesses ->
    x ∉ map edge_sequence edges /\ x ∉ map pt_sequence points
}.

Definition logged (n : Z) (c c' : HookCtx) : Prop :=
  is_u64 (hc_sequence c) -> is_u64 (hc_sequence c') /\
  exists edges points accesses,
    appended c c' edges points accesses /\
    hc_sequence c' = (hc_sequence c + (n + zlen accesses)) mod 2 ^ 64 /\
    (hc_sequence c + (n + zlen accesses) < 2 ^ 64 ->
     in_order (hc_sequence c) (hc_sequence c') edges points accesses).

Lemma in_order_nil lo hi : in_order lo hi [] [] [].
Proof. split; try apply window_nil. cbn. intros x Hx. by apply not_elem_of_nil in Hx. Qed.

Lemma window_bounds lo hi l x : window lo hi l -> x ∈ l -> lo <= x < hi.
Proof. intros [_ Hf] Hx. rewrite Forall_forall in Hf. by apply Hf. Qed.

Lemma in_order_app lo mid hi e1 p1 a1 e2 p2 a2 :
  in_order lo mid e1 p1 a1 -> in_order mid hi e2 p2 a2 -> lo <= mid <= hi ->
  in_order lo hi (e1 ++ e2) (p1 ++ p2) (a1 ++ a2).
Proof.
  intros [He1 Hp1 Ha1 Hd1] [He2 Hp2 Ha2 Hd2] Hm.
  split; rewrite ?map_app; [by eapply window_app..|].
  intros x [Hx|Hx]%elem_of_app.
  - destruct (Hd1 x Hx) as [Hne Hnp]. pose proof (window_bounds _ _ _ _ Ha1 Hx).
    split; intros [?|Hx2]%elem_of_app; try done;
      [pose proof (window_bounds _ _ _ _ He2 Hx2)|pose proof (window_bounds _ _ _ _ Hp2 Hx2)]; lia.
  - destruct (Hd2 x Hx) as [Hne Hnp]. pose proof (window_bounds _ _ _ _ Ha2 Hx).
    split; intros [Hx2|?]%elem_of_app; try done;
      [pose proof (window_bounds _ _ _ _ He1 Hx2)|pose proof (window_bounds _ _ _ _ Hp1 Hx2)]; lia.
Qed.

Lemma logged_refl c c' :
  ee_edges (hc_out c') = ee_edges (hc_out c) -> ee_execution (hc_out c') = ee_execution (hc_out c) ->
  ee_data (hc_out c') = ee_data (hc_out c) -> hc_sequence c' = hc_sequence c -> logged 0 c c'.
Proof.
  intros He Hx Hd Hs Hu. rewrite Hs. split; [done|]. exists [], [], []. split_and!.
  - by split; rewrite ?He, ?Hx, ?Hd, app_nil_r.
  - change (zlen (@nil DataAcc)) with 0. unfold is_u64, u64_max in Hu. rewrite Z.mod_small; lia.
  - intros _. apply in_order_nil.
Qed.

Lemma logged_trans n m c c1 c2 :
  0 <= n -> 0 <= m -> logged n c c1 -> logged m c1 c2 -> logged (n + m) c c2.
Proof.
  intros Hn Hm H1 H2 Hu. destruct (H1 Hu) as (Hu1 & e1 & p1 & a1 & [He1 Hp1 Ha1] & Hs1 & Ho1).
  destruct (H2 Hu1) as (Hu2 & e2 & p2 & a2 & [He2 Hp2 Ha2] & Hs2 & Ho2).
  split; [done|]. exists (e1 ++ e2), (p1 ++ p2), (a1 ++ a2). rewrite zlen_app.
  pose proof (zlen_nonneg a1). pose proof (zlen_nonneg a2). split_and!.
  - split; rewrite ?He2, ?He1, ?Hp2, ?Hp1, ?Ha2, ?Ha1; by rewrite app_assoc.
  - rewrite Hs2, Hs1, Zplus_mod_idemp_l. f_equal. lia.
  - intros Hlt. unfold is_u64, u64_max in Hu.
    rewrite Z.mod_small in Hs1 by lia. rewrite Hs1 in *.
    rewrite Z.mod_small in Hs2 by lia.
    apply (in_order_app _ (hc_sequence c + (n + zlen a1))); [by apply Ho1; lia|by apply Ho2; lia|lia].
Qed.

#[local] Instance logged_preorder : PreOrder (logged 0).
Proof.
  split; [intros c; by apply logged_refl|]. intros c c1 c2 H1 H2.
  by apply (logged_trans 0 0 c c1 c2).
Qed.

Lemma logged_access c access :
  acc_sequence access = hc_sequence c ->
  logged 0 c (set_out (push_data access (hc_out c)) (next_sequence (hc_sequence c)) c).
Proof.
  intros Ha Hu. cbn [set_out hc_sequence hc_out]. unfold next_sequence.
  pose proof (Z.mod_pos_bound (hc_sequence c + 1) (2 ^ 64) ltac:(lia)).
  split; [unfold is_u64, u64_max; lia|]. exists [], [], [access]. split_and!.
  - split; cbn; by rewrite ?app_nil_r.
  - done.
  - change (zlen [access]) with 1. intros Hlt. unfold is_u64 in Hu. rewrite Z.mod_small by lia.
    split; [apply window_nil..| |].
    + apply window_one. lia.
    + intros x _. split; apply not_elem_of_nil.
Qed.

Lemma logged_summary addr s : logged 0 s.1 (summary_step addr s).1.
Proof.
  unfold summary_step. destruct (find_summary env addr) as [summary|]; [|by apply logged_refl].
  assert (steps (logged 0) (apply_summary codes memcmp env summary)) as Hk; [|apply (Hk s)].
  apply steps_apply_summary; [apply _| |intros; by apply logged_refl..].
  intros c kind address value size scope _. by apply logged_access.
Qed.

Lemma logged_mem kind addr size value s : logged 0 s.1 (mem_tr kind addr size value s).2.1.
Proof.
  unfold mem_tr. destruct (kind =? RAX_MEM_FETCH codes); [by apply logged_refl|].
  destruct (hk_strict_permissions env && _); [by destruct (kind =? RAX_MEM_WRITE codes); apply logged_refl|].
  destruct (hk_record_memory env); [|by apply logged_refl]. cbn [negb].
  destruct (access_scope env addr size) as [scope recordable]. cbn [hook_update fst snd].
  destruct (recordable && _ && _); [by apply logged_access|by apply logged_refl].
Qed.

Lemma before_summary_data c e addr cache :
  ee_data (hc_out (before_summary c e addr cache)) = ee_data (hc_out c).
Proof.
  cbn. unfold pcs_out, execution_out, transfer_out.
  by destruct (transfer_taken c addr), (in_image env addr && _), (hk_record_pcs env && _ && _).
Qed.

Lemma logged_before_summary c e addr cache : logged 1 c (before_summary c e addr cache).
Proof.
  intros Hu. pose proof (before_summary_edges c e addr cache) as Hedges.
  pose proof (before_summary_execution c e addr cache) as Hexec.
  pose proof (before_summary_data c e addr cache) as Hdata.
  assert (hc_sequence (before_summary c e addr cache) = next_sequence (hc_sequence c)) as Hseq by done.
  set (c' := before_summary c e addr cache) in *. clearbody c'. rewrite Hseq. unfold next_sequence.
  pose proof (Z.mod_pos_bound (hc_sequence c + 1) (2 ^ 64) ltac:(lia)).
  split; [unfold is_u64, u64_max; lia|].
  set (edge := transfer_edge (hc_prev_pc c) addr (hc_sequence c)) in *.
  set (point := {| pt_pc := addr; pt_sequence := hc_sequence c; pt_run_id := hk_run_id env;
                   pt_seed := hk_seed env |}) in *.
  exists (if transfer_taken c addr then [edge] else []),
    (if in_image env addr && (zlen (ee_execution (hc_out c)) <? hk_execution_cap env) then [point] else []), [].
  change (1 + zlen (@nil DataAcc)) with 1. split_and!; [|done|].
  - split; rewrite ?Hedges, ?Hexec, ?Hdata.
    + destruct (transfer_taken c addr); by rewrite ?app_nil_r.
    + destruct (in_image env addr), (_ <? _); cbn [andb]; by rewrite ?app_nil_r.
    + by rewrite app_nil_r.
  - intros Hlt. unfold is_u64 in Hu. rewrite Z.mod_small by lia. split.
    + destruct (transfer_taken c addr); [apply window_one; cbn; lia|apply window_nil].
    + destruct (_ && _); [apply window_one; cbn; lia|apply window_nil].
    + apply window_nil.
    + cbn. intros x Hx. by apply not_elem_of_nil in Hx.
Qed.

(** The memory log keeps its cap. *)
Definition capped (c c' : HookCtx) : Prop :=
  zlen (ee_data (hc_out c)) <= hk_data_cap env -> zlen (ee_data (hc_out c')) <= hk_data_cap env.

#[local] Instance capped_preorder : PreOrder capped.
Proof. split; [by intros c Hle|]. unfold capped. intros c c1 c2. auto. Qed.

Lemma capped_access c access sequence :
  zlen (ee_data (hc_out c)) < hk_data_cap env ->
  capped c (set_out (push_data access (hc_out c)) sequence c).
Proof. intros Hlt _. cbn. rewrite zlen_app. change (zlen [access]) with 1. lia. Qed.

Lemma capped_same c c' : ee_data (hc_out c') = ee_data (hc_out c) -> capped c c'.
Proof. unfold capped. by intros ->. Qed.

Lemma capped_summary addr s : capped s.1 (summary_step addr s).1.
Proof.
  unfold summary_step. destruct (find_summary env addr) as [summary|]; [|done].
  assert (steps capped (apply_summary codes memcmp env summary)) as Hk; [|apply (Hk s)].
  apply steps_apply_summary; [apply _| |intros; by apply capped_same..].
  intros. by apply capped_access.
Qed.

Lemma capped_mem kind addr size value s : capped s.1 (mem_tr kind addr size value s).2.1.
Proof.
  unfold mem_tr. destruct (kind =? RAX_MEM_FETCH codes); [done|].
  destruct (hk_strict_permissions env && _); [by destruct (kind =? RAX_MEM_WRITE codes); apply capped_same|].
  destruct (hk_record_memory env); [|done]. cbn [negb].
  destruct (access_scope env addr size) as [scope recordable]. cbn [hook_update fst snd].
  destruct (recordable && _ && _) eqn:Hc; [|done].
  apply andb_true_iff in Hc as [_ Hc%Z.ltb_lt]. by apply capped_access.
Qed.

(** One call of a hook. *)
Lemma hook_step_logged event c e :
  cache_ok rax env (hc_decode_cache c) ->
  exists n, 0 <= n <= 1 /\ logged n c (hook_step event (c, e)).2.1 /\
    capped c (hook_step event (c, e)).2.1 /\ cache_ok rax env (hc_decode_cache (hook_step event (c, e)).2.1).
Proof.
  intros Hc. destruct event as [addr size|kind addr size value]; cbn [EmuHooks.hook_step].
  - destruct (code_tr_exact c e addr size Hc) as (cache & Hok & ->). cbn [snd].
    destruct (allowed_fetch addr size).
    + exists 1. pose proof (logged_before_summary c e addr cache) as H1.
      set (c1 := before_summary c e addr cache) in *.
      pose proof (logged_summary addr (c1, e)) as H2. pose proof (capped_summary addr (c1, e)) as H3.
      pose proof (control_flow_inv _ _ (summary_control addr (c1, e))) as (_ & _ & _ & _ & _ & _ & Hcache).
      assert (capped c c1) as H0.
      { apply capped_same, before_summary_data. }
      destruct (summary_step addr (c1, e)) as [c2 e2]. cbn [fst] in *. split_and!; [lia|lia|..].
      * apply (logged_trans 1 0 c c1); [lia..|done|].
        apply (logged_trans 0 0 c1 c2); [lia..|done|]. by apply logged_refl.
      * intros Hle. by apply H3, H0.
      * cbn. by rewrite Hcache.
    + exists 0. cbn [fst]. split_and!; [lia|lia|by apply logged_refl|by apply capped_same|done].
  - exists 0. pose proof (logged_mem kind addr size value (c, e)).
    pose proof (capped_mem kind addr size value (c, e)).
    pose proof (control_flow_inv _ _ (mem_control kind addr size value (c, e)))
      as (_ & _ & _ & _ & _ & _ & Hcache).
    split_and!; [lia|lia|done|done|]. by rewrite Hcache.
Qed.

(** What a run logs, and that it keeps the cap of the memory log. *)
Lemma run_logged c e events s' :
  cache_ok rax env (hc_decode_cache c) -> zlen (ee_data (hc_out c)) <= hk_data_cap env ->
  hook_run (c, e) events s' ->
  exists n, 0 <= n <= Z.of_nat (length events) /\ logged n c s'.1 /\
    zlen (ee_data (hc_out s'.1)) <= hk_data_cap env /\ cache_ok rax env (hc_decode_cache s'.1).
Proof.
  intros Hcache Hcap Hrun.
  induction Hrun as [|events c1 e1 guest Hrun IH|events c1 e1 Hrun IH|events c1 guest event Hrun IH].
  - exists 0. split_and!; [lia|cbn; lia|by apply logged_refl|done..].
  - exact IH.
  - destruct IH as (n & Hn & Hlog & Hle & Hok). cbn [fst] in *. exists n. split_and!; [lia|lia| |done|done].
    rewrite <- (Z.add_0_r n). apply (logged_trans n 0 c c1); [lia..|done|]. by apply logged_refl.
  - destruct IH as (n & Hn & Hlog & Hle & Hok). cbn [fst] in *.
    destruct (hook_step_logged event c1 guest Hok) as (m & Hm & Hlog2 & Hcapped & Hok2).
    exists (n + m). rewrite length_app. cbn [length].
    split_and!; [lia|lia|by apply (logged_trans n m c c1); [lia..|done|done]|by apply Hcapped|done].
Qed.

(** The logs of register states and of program counters keep their caps as well, and hooks
    do not capture final memory. *)
Definition bounded (c c' : HookCtx) : Prop :=
  zlen (ee_states (hc_out c')) <= Z.max (zlen (ee_states (hc_out c))) (hk_state_cap env) /\
  Z.of_nat (size (ee_exec_pcs (hc_out c'))) <=
    Z.max (Z.of_nat (size (ee_exec_pcs (hc_out c)))) (hk_edge_cap env) /\
  ee_final_writes (hc_out c') = ee_final_writes (hc_out c).

#[local] Instance bounded_preorder : PreOrder bounded.
Proof.
  split; [intros c; unfold bounded; split_and!; [lia|lia|done]|]. unfold bounded.
  intros c c1 c2 (? & ? & ?) (? & ? & ?). split_and!; [lia|lia|congruence].
Qed.

Lemma bounded_same c c' :
  ee_states (hc_out c') = ee_states (hc_out c) -> ee_exec_pcs (hc_out c') = ee_exec_pcs (hc_out c) ->
  ee_final_writes (hc_out c') = ee_final_writes (hc_out c) -> bounded c c'.
Proof. unfold bounded. intros -> -> ->. split_and!; [lia|lia|done]. Qed.

Lemma bounded_summary addr s : bounded s.1 (summary_step addr s).1.
Proof.
  unfold summary_step. destruct (find_summary env addr) as [summary|]; [|done].
  assert (steps bounded (apply_summary codes memcmp env summary)) as Hk; [|apply (Hk s)].
  apply steps_apply_summary; [apply _|intros; by apply bounded_same..].
Qed.

Lemma bounded_mem kind addr size value s : bounded s.1 (mem_tr kind addr size value s).2.1.
Proof.
  unfold mem_tr. destruct (kind =? RAX_MEM_FETCH codes); [done|].
  destruct (hk_strict_permissions env && _); [by destruct (kind =? RAX_MEM_WRITE codes); apply bounded_same|].
  destruct (hk_record_memory env); [|done]. cbn [negb].
  destruct (access_scope env addr size) as [scope recordable]. cbn [hook_update fst snd].
  by destruct (recordable && _ && _); apply bounded_same.
Qed.

Lemma execution_out_others addr sequence out :
  ee_states (execution_out addr sequence out) = ee_states out /\
  ee_exec_pcs (execution_out addr sequence out) = ee_exec_pcs out /\
  ee_final_writes (execution_out addr sequence out) = ee_final_writes out.
Proof. unfold execution_out. by destruct (_ && _). Qed.

Lemma bounded_before_summary c e addr cache : bounded c (before_summary c e addr cache).
Proof.
  unfold before_summary, bounded. cbn [hc_out set_summary_source set_out].
  set (out1 := transfer_out c e addr (hc_sequence c)).
  assert (zlen (ee_states out1) <= Z.max (zlen (ee_states (hc_out c))) (hk_state_cap env) /\
    ee_exec_pcs out1 = ee_exec_pcs (hc_out c) /\ ee_final_writes out1 = ee_final_writes (hc_out c)) as (Hs1 & Hp1 & Hf1).
  { unfold out1, transfer_out. destruct (transfer_taken c addr); [|split; [lia|done]].
    cbn [ee_states ee_exec_pcs ee_final_writes]. split; [|done]. rewrite zlen_app. unfold captured.
    destruct (hk_capture_regs env); [|change (zlen (@nil StatePoint)) with 0; lia].
    destruct (Z.ltb_spec (zlen (ee_states (hc_out c))) (hk_state_cap env));
      [match goal with |- context [zlen [?x]] => change (zlen [x]) with 1 end|change (zlen (@nil StatePoint)) with 0];
      lia. }
  destruct (execution_out_others addr (hc_sequence c) out1) as (Hs2 & Hp2 & Hf2).
  rewrite <- Hs2 in Hs1. rewrite <- Hp2 in Hp1. rewrite <- Hf2 in Hf1. clearbody out1.
  set (out2 := execution_out _ _ _) in *. unfold pcs_out.
  destruct (_ && _) eqn:Hc; [|rewrite Hp1; split_and!; [lia|lia|done]].
  apply andb_true_iff in Hc as [_ Hc%Z.ltb_lt]. cbn [ee_states ee_exec_pcs ee_final_writes insert_pc].
  split; [done|]. split; [|done]. pose proof (size_union_alt {[addr]} (ee_exec_pcs out2)) as Hu.
  rewrite size_singleton in Hu.
  pose proof (subseteq_size (ee_exec_pcs out2 ∖ {[addr]}) (ee_exec_pcs out2) ltac:(set_solver)). lia.
Qed.

Lemma hook_step_bounded event c e :
  cache_ok rax env (hc_decode_cache c) -> bounded c (hook_step event (c, e)).2.1.
Proof.
  intros Hc. destruct event as [addr size|kind addr size value]; cbn [EmuHooks.hook_step].
  - destruct (code_tr_exact c e addr size Hc) as (cache & _ & ->). cbn [snd].
    destruct (allowed_fetch addr size); [|by apply bounded_same].
    pose proof (bounded_before_summary c e addr cache) as H1.
    pose proof (bounded_summary addr (before_summary c e addr cache, e)) as H2.
    destruct (summary_step addr _) as [c2 e2]. cbn [fst] in *. etrans; [exact H1|]. etrans; [exact H2|].
    by apply bounded_same.
  - exact (bounded_mem kind addr size value (c, e)).
Qed.

Lemma run_bounded c e events s' :
  cache_ok rax env (hc_decode_cache c) -> zlen (ee_data (hc_out c)) <= hk_data_cap env ->
  hook_run (c, e) events s' -> bounded c s'.1.
Proof.
  intros Hcache Hcap Hrun.
  induction Hrun as [|events c1 e1 guest Hrun IH|events c1 e1 Hrun IH|events c1 guest event Hrun IH].
  - done.
  - exact IH.
  - etrans; [exact IH|]. by apply bounded_same.
  - etrans; [exact IH|]. apply hook_step_bounded.
    by destruct (run_logged _ _ _ _ Hcache Hcap Hrun) as (_ & _ & _ & _ & Hok).
Qed.

(** C16: sequence numbers give the order of what was recorded.  As long as the counter
    cannot wrap, a stretch of a run only appends to the logs; the numbers of what it
    appends lie between the counter at its start and at its end, so later stretches have
    larger numbers; they increase along each log, and no access to memory has the number
    of an instruction. *)
Theorem run_in_order c e events c' e' :
  is_u64 (hc_sequence c) -> cache_ok rax env (hc_decode_cache c) ->
  zlen (ee_data (hc_out c)) <= hk_data_cap env ->
  hc_sequence c + Z.of_nat (length events) + (hk_data_cap env - zlen (ee_data (hc_out c))) < 2 ^ 64 ->
  hook_run (c, e) events (c', e') ->
  hc_sequence c <= hc_sequence c' /\
  exists edges points accesses, appended c c' edges points accesses /\
    in_order (hc_sequence c) (hc_sequence c') edges points accesses.
Proof.
  intros Hu Hcache Hcap Hbound Hrun.
  destruct (run_logged _ _ _ _ Hcache Hcap Hrun) as (n & Hn & Hlog & Hle & _). cbn [fst] in *.
  destruct (Hlog Hu) as (Hu' & edges & points & accesses & Happ & Hseq & Horder).
  pose proof (ap_accesses _ _ _ _ _ Happ) as Hdata.
  assert (zlen (ee_data (hc_out c')) = zlen (ee_data (hc_out c)) + zlen accesses) as Hlen
    by (by rewrite Hdata, zlen_app).
  pose proof (zlen_nonneg accesses). unfold is_u64 in Hu.
  split; [rewrite Hseq, Z.mod_small by lia; lia|].
  exists edges, points, accesses. split; [done|]. apply Horder. lia.
Qed.

End Runs.

(** ** Forbidden accesses *)

Section Forbidden.
Context {E : Type} `{RaxEngineLaws E} (codes : RaxCodes).
Context (env : HookEnv).

Lemma snapshot_bytes_length img address size bs :
  snapshot_bytes img address size = Some bs -> 0 <= size -> zlen bs = size.
Proof.
  intros Hm Hs. unfold snapshot_bytes in Hm. apply mapM_Some_1, Forall2_length in Hm.
  rewrite length_seqZ in Hm. unfold zlen. lia.
Qed.

(** The restored bytes, where they are placed, are those of the snapshot. *)
Lemma snapshot_bytes_placed img address size bs x :
  snapshot_bytes img address size = Some bs -> address <= x < address + size ->
  is_Some (snapshot_byte img x) /\ placed address bs x = snapshot_byte img x.
Proof.
  intros Hm Hx. pose proof (snapshot_bytes_length _ _ _ _ Hm ltac:(lia)) as Hlen.
  unfold snapshot_bytes in Hm. apply mapM_Some_1 in Hm.
  destruct (Forall2_lookup_l _ _ _ (Z.to_nat (x - address)) (x - address) Hm) as (b & Hval & Hb).
  { rewrite lookup_seqZ_lt by lia. f_equal. lia. }
  unfold checked_add in Hb. destruct (_ <? _); [done|].
  replace (address + (x - address)) with x in Hb by lia. rewrite Hb. split; [done|].
  unfold placed. destruct (Z.leb_spec address x); [|lia].
  destruct (Z.ltb_spec x (address + zlen bs)); [|lia]. done.
Qed.

Lemma placed_outside address bs x : ~ address <= x < address + zlen bs -> placed address bs x = None.
Proof.
  intros Hx. unfold placed. destruct (Z.leb_spec address x); [|done].
  by destruct (Z.ltb_spec x (address + zlen bs)); [lia|].
Qed.

(** The permission that an access needs. *)
Definition required_perm (kind : Z) : ViySegPerm :=
  if kind =? RAX_MEM_WRITE codes then SegPerm_WRITE else SegPerm_READ.


End Forbidden.

(** ** Runs of the reference machine *)

Module HookRuns.
Import Reference SummaryRuns.

(** A function with a call and a return, a callee, and data that may only be read. *)
Definition image : ProgramImage := {|
  im_arch := X86_64; im_big_endian := false; im_lo := 0x1000; im_hi := 0x3000;
  im_segs := [{| sg_start := 0x1000; sg_end := 0x1008; sg_perm := 5; sg_bitness := 2;
                 sg_bytes := [xe8; x00; x00; x00; x00; xc3; x90; x90]; sg_mask := [xff] |};
              {| sg_start := 0x1100; sg_end := 0x1110; sg_perm := 5; sg_bitness := 2;
                 sg_bytes := []; sg_mask := [] |};
              {| sg_start := 0x2000; sg_end := 0x2004; sg_perm := 4; sg_bitness := 2;
                 sg_bytes := [x68; x69; x00; x7a]; sg_mask := [x0f] |}];
  im_entries := []; im_content_hash := 0; im_generation := 1 |}.

Lemma hook_image_ok : segs_ok (im_segs image).
Proof. split; repeat constructor; cbn; lia. Qed.

Definition decode (arch mode pc : Z) (bs : bytes) : Z * rax_decoded :=
  match bs with
  | xe8 :: _ => (0, {| rd_valid := 1; rd_size := 5; rd_flow := 4; rd_is_indirect := 0;
                       rd_has_target := 1; rd_target := pc + 5 |})
  | xc3 :: _ => (0, {| rd_valid := 1; rd_size := 1; rd_flow := 6; rd_is_indirect := 0;
                       rd_has_target := 0; rd_target := 0 |})
  | _ => (0, zero_decoded)
  end.

Definition hook_env : HookEnv := env (Some image) [] (Some decode) true.

Definition step (s : HookCtx * Machine) (event : hook_event) : HookCtx * Machine :=
  (hook_step sample_codes sample_rax compare hook_env event s).2.

Lemma run_steps s events :
  hook_run (hook_step sample_codes sample_rax compare hook_env) s events (fold_left step events s).
Proof.
  induction events as [|event events IH] using rev_ind; [constructor|]. rewrite fold_left_app. cbn.
  destruct (fold_left step events s) as [c e] eqn:Hs. unfold step. apply run_event. exact IH.
Qed.

(** A call whose size the engine does not tell, a read, a jump in the callee, the return
    and a step that falls through; then a fetch from data. *)
Definition events : list hook_event :=
  [Event_code 0x1000 0; Event_code 0x1100 1; Event_mem 1 0x2000 2 0x6968; Event_code 0x1108 1;
   Event_code 0x1005 1; Event_code 0x1006 1; Event_code 0x2000 1].

Definition run_end : HookCtx * Machine := fold_left step events (ctx, machine 0 0 0).

(** Only the call is an edge: the source of the return is outside the function.  The
    access has the address of the last instruction, which is outside as well. *)
Example run_log :
  map edge_core (ee_edges (hc_out run_end.1)) = [(0x1000, 0x1100, ExecEdge_Call, 1, 7)] /\
  map pt_pc (ee_execution (hc_out run_end.1)) = [0x1000; 0x1100; 0x1108; 0x1005; 0x1006] /\
  ee_data (hc_out run_end.1) = [] /\ hc_permission_violation run_end.1 = true.
Proof. split_and!; vm_compute; reflexivity. Qed.

Lemma ctx_cache_ok : cache_ok sample_rax hook_env (hc_decode_cache ctx).
Proof. exact (cache_ok_empty sample_rax hook_env). Qed.

Lemma run_logs_exact_witness :
  hook_run (hook_step sample_codes sample_rax compare hook_env) (ctx, machine 0 0 0) events run_end /\
  map edge_core (ee_edges (hc_out run_end.1)) = transfers sample_rax hook_env (executed hook_env events).
Proof.
  assert (hook_run (hook_step sample_codes sample_rax compare hook_env) (ctx, machine 0 0 0) events
    (run_end.1, run_end.2)) as Hrun.
  { rewrite <- surjective_pairing. exact (run_steps _ _). }
  split; [rewrite (surjective_pairing run_end); exact Hrun|].
  pose proof (run_logs_exact sample_codes sample_rax compare hook_env ctx (machine 0 0 0) events
    run_end.1 run_end.2 eq_refl ctx_cache_ok ltac:(vm_compute; discriminate) ltac:(vm_compute; discriminate) Hrun) as H.
  rewrite (le_edges _ _ _ _ _ H). vm_compute. reflexivity.
Defined.

Lemma run_in_order_witness :
  exists edges points accesses,
    appended ctx run_end.1 edges points accesses /\ in_order 0 (hc_sequence run_end.1) edges points accesses.
Proof.
  assert (hook_run (hook_step sample_codes sample_rax compare hook_env) (ctx, machine 0 0 0) events
    (run_end.1, run_end.2)) as Hrun.
  { rewrite <- surjective_pairing. exact (run_steps _ _). }
  assert (is_u64 (hc_sequence ctx)) as Hu by (unfold is_u64, u64_max; cbn; lia).
  exact (proj2 (run_in_order sample_codes sample_rax compare hook_env ctx (machine 0 0 0) events
    run_end.1 run_end.2 Hu ctx_cache_ok ltac:(vm_compute; discriminate) ltac:(vm_compute; reflexivity) Hrun)).
Defined.

(** An access that starts before a segment is not checked against it. *)
Example straddling_access_allowed :
  image_access_allowed hook_env 0x1ffe 4 SegPerm_WRITE = true /\
  image_access_allowed hook_env 0x2000 2 SegPerm_WRITE = false.
Proof. split; vm_compute; reflexivity. Qed.

Lemma access_check_exact_witness :
  image_access_allowed hook_env 0x2001 3 SegPerm_READ = true /\
  forall x, 0x2001 <= x < 0x2001 + 3 -> permitted image SegPerm_READ x.
Proof.
  assert (image_access_allowed hook_env 0x2001 3 SegPerm_READ = true) as Hallowed by reflexivity.
  split; [exact Hallowed|].
  destruct (proj1 (access_check_exact hook_env image 0x2001 3 SegPerm_READ eq_refl hook_image_ok eq_refl) Hallowed)
    as [_ [Hnone|Hall]]; [discriminate Hnone|exact Hall].
Defined.

(** The guest wrote two bytes over the string. *)
Definition overwritten : Machine :=
  (store 0x2000 [x41; x41] (machine 0 0 0).1, (machine 0 0 0).2).

Lemma snapshot_agrees x :
  0x2000 <= x < 0x2000 + 2 -> byte_at (machine 0 0 0) x = snapshot_byte image x.
Proof.
  intros Hx. assert (x = 0x2000 \/ x = 0x2001) as [-> | ->] by lia; vm_compute; reflexivity.
Qed.


(** A write that runs over the end of its segment is not taken back. *)
Example straddling_write_stays :
  let guest : Machine := (store 0x2002 [x41; x41; x41] (machine 0 0 0).1, ∅) in
  let s' := (mem_tr sample_codes hook_env 2 0x2002 3 0x414141 (ctx, guest)).2 in
  hc_permission_violation s'.1 = true /\ s'.2.1 !! 0x2002 = Some x41 /\
  snapshot_byte image 0x2002 = Some x00.
Proof. split_and!; vm_compute; reflexivity. Qed.

End HookRuns.
