(* ===== verification/EmuImage.v ===== *)
(** * The image in the emulator, and the memory that is left (emu_driver.cpp)

    Before the first run the driver maps the image: permissions are collected by page
    ([map_image]), then initialized bytes are written run by run ([load_image_bytes]).
    After a run it reads back the ranges that were written ([capture_final_writes]).
    The theorems say which pages get which permissions, that exactly the initialized
    bytes are loaded, and that what is captured is the memory of the written ranges. *)
From stdpp Require Import base numbers list strings option sets gmap sorting.
From Stdlib Require Import ZArith Init.Byte Sorting.Sorted Lia.
From S2P Require Import Prelude OrderedMap ProgramModel RuntimeWrites AbiPolicy Config DecoderCore.
From S2P Require Import WorkerFingerprint EmuEvents EvidenceBridge EmuMachine EmuSummaries.

(** ** The scratch region *)

Definition kViyScratchStackSize : Z := 0x100000.

Definition scratch_clear (image_lo image_hi base : Z) : bool :=
  negb ((image_lo <? image_hi) && (base <? image_hi) && (image_lo <? base + kViyScratchStackSize)).

Definition viy_scratch_stack_base (is64 : bool) (image_lo image_hi : Z) : Z :=
  let candidates := if is64 then [0x00007ffd00000000; 0x0000600000000000; 0x0000000120000000]
                    else [0x70000000; 0x50000000; 0x10000000] in
  match List.find (scratch_clear image_lo image_hi) candidates with
  | Some base => base
  | None => 0
  end.

(** ** Permissions by page *)

Definition kPage : Z := 0x1000.

(** [x & ~(kPage - 1)] *)
Definition page_down (x : Z) : Z := Z.land x (Z.lxor u64_max (kPage - 1)).

(** The permission bits of the engine. *)
Record RaxProt : Type := {
  RAX_PROT_NONE : Z;
  RAX_PROT_READ : Z;
  RAX_PROT_WRITE : Z;
  RAX_PROT_EXEC : Z;
  RAX_PROT_ALL : Z
}.

Section Pages.
Context (prots : RaxProt) (strict : bool).

Definition segment_prot (s : SegImage) : Z :=
  if negb strict || (sg_perm s =? 0) then RAX_PROT_ALL prots
  else
    let prot := RAX_PROT_NONE prots in
    let prot := if negb (Z.land (sg_perm s) 4 =? 0) then Z.lor prot (RAX_PROT_READ prots) else prot in
    let prot := if negb (Z.land (sg_perm s) 2 =? 0) then Z.lor prot (RAX_PROT_WRITE prots) else prot in
    if negb (Z.land (sg_perm s) 1 =? 0) then Z.lor prot (RAX_PROT_EXEC prots) else prot.

(** The end of the last page of a segment; nothing on overflow. *)
Definition rounded_end (s : SegImage) : option Z :=
  if negb (Z.land (sg_end s) (kPage - 1) =? 0) then
    match checked_add (sg_end s) (kPage - 1) with
    | Some rounded => Some (page_down rounded)
    | None => None
    end
  else Some (sg_end s).

(** [pages[p] |= prot] *)
Definition add_prot (p prot : Z) (pages : omap Z Z) : omap Z Z :=
  map_set Z.ltb p (Z.lor (default 0 (map_find Z.ltb p pages)) prot) pages.

(** The loop over the pages of a segment; the fuel is their number. *)
Fixpoint page_loop (fuel : nat) (p rounded prot : Z) (pages : omap Z Z) : omap Z Z :=
  match fuel with
  | O => pages
  | S fuel =>
      if p <? rounded then
        let pages := add_prot p prot pages in
        if rounded - p <=? kPage then pages else page_loop fuel (p + kPage) rounded prot pages
      else pages
  end.

Definition page_count (p rounded : Z) : nat := S (Z.to_nat ((rounded - p) / kPage)).

Fixpoint collect_pages (segs : list SegImage) (pages : omap Z Z) : option (omap Z Z) :=
  match segs with
  | [] => Some pages
  | s :: rest =>
      if sg_end s <=? sg_start s then collect_pages rest pages
      else
        match rounded_end s with
        | None => None
        | Some rounded =>
            let p := page_down (sg_start s) in
            collect_pages rest (page_loop (page_count p rounded) p rounded (segment_prot s) pages)
        end
  end.

Record IV : Type := { iv_base : Z; iv_end : Z; iv_prot : Z }.

(** The intervals, the back of the vector first. *)
Fixpoint merge_pages (pages : omap Z Z) (merged : list IV) : option (list IV) :=
  match pages with
  | [] => Some merged
  | (base, perms) :: rest =>
      let prot := if perms =? RAX_PROT_NONE prots then RAX_PROT_READ prots else perms in
      let fresh :=
        match checked_add base kPage with
        | None => None
        | Some end_ => merge_pages rest ({| iv_base := base; iv_end := end_; iv_prot := prot |} :: merged)
        end in
      match merged with
      | back :: front =>
          if (base =? iv_end back) && (prot =? iv_prot back) then
            merge_pages rest ({| iv_base := iv_base back; iv_end := (iv_end back + kPage) mod 2 ^ 64;
                                 iv_prot := iv_prot back |} :: front)
          else fresh
      | [] => fresh
      end
  end.

Definition image_intervals (segs : list SegImage) : option (list IV) :=
  match collect_pages segs [] with
  | None => None
  | Some pages =>
      match merge_pages pages [] with
      | None => None
      | Some merged => Some (rev merged)
      end
  end.

End Pages.

(** ** Mapping and loading *)

(** The engine's mapping of memory. *)
Class RaxMapping (E : Type) := {
  mem_map : Z -> Z -> Z -> E -> bool * E;
  mem_protect : Z -> Z -> Z -> E -> bool * E
}.

Section Loading.
Context {E : Type} `{RaxEngine E} `{RaxMapping E}.

(** The loop over the initialized runs of a segment.  Each turn passes a byte or more,
    so the number of the bytes is fuel enough. *)
Fixpoint skip_clear (fuel : nat) (mask : bytes) (i len : Z) : Z :=
  match fuel with
  | O => i
  | S fuel => if (i <? len) && negb (mask_loaded mask i) then skip_clear fuel mask (i + 1) len else i
  end.

Fixpoint skip_set (fuel : nat) (mask : bytes) (j len : Z) : Z :=
  match fuel with
  | O => j
  | S fuel => if (j <? len) && mask_loaded mask j then skip_set fuel mask (j + 1) len else j
  end.

Fixpoint load_runs (fuel : nat) (s : SegImage) (i : Z) (e : E) : bool * E :=
  let len := zlen (sg_bytes s) in
  match fuel with
  | O => (true, e)
  | S fuel =>
      if i <? len then
        let i := skip_clear (length (sg_bytes s)) (sg_mask s) i len in
        if len <=? i then (true, e)
        else
          let j := skip_set (length (sg_bytes s)) (sg_mask s) i len in
          match checked_add (sg_start s) i with
          | None => (false, e)
          | Some address =>
              let run := take (Z.to_nat (j - i)) (drop (Z.to_nat i) (sg_bytes s)) in
              let '(ok, e) := mem_write address run e in
              if ok then load_runs fuel s j e else (false, e)
          end
      else (true, e)
  end.

Definition load_segment (s : SegImage) (e : E) : bool * E :=
  let len := zlen (sg_bytes s) in
  if (sg_end s <? sg_start s) || (sg_end s - sg_start s <? len) ||
     (negb (len =? 0) && (zlen (sg_mask s) <? (len + 7) / 8))
  then (false, e)
  else load_runs (length (sg_bytes s)) s 0 e.

Fixpoint load_segments (segs : list SegImage) (e : E) : bool * E :=
  match segs with
  | [] => (true, e)
  | s :: rest =>
      let '(ok, e) := load_segment s e in
      if ok then load_segments rest e else (false, e)
  end.

Definition load_image_bytes (img : ProgramImage) (e : E) : bool * E := load_segments (im_segs img) e.

Fixpoint map_intervals (intervals : list IV) (e : E) : bool * E :=
  match intervals with
  | [] => (true, e)
  | iv :: rest =>
      let len := iv_end iv - iv_base iv in
      let '(ok, e) := mem_map (iv_base iv) len (iv_prot iv) e in
      if ok then map_intervals rest e
      else
        let '(ok, e) := mem_protect (iv_base iv) len (iv_prot iv) e in
        if ok then map_intervals rest e else (false, e)
  end.

Definition map_image (prots : RaxProt) (strict : bool) (img : ProgramImage) (e : E) : bool * E :=
  match image_intervals prots strict (im_segs img) with
  | None => (false, e)
  | Some intervals =>
      let '(ok, e) := map_intervals intervals e in
      if ok then load_image_bytes img e else (false, e)
  end.

Definition map_stack (prots : RaxProt) (strict : bool) (stack_base stack_size : Z) (e : E) : bool * E :=
  let prot := if strict then Z.lor (RAX_PROT_READ prots) (RAX_PROT_WRITE prots) else RAX_PROT_ALL prots in
  mem_protect stack_base stack_size prot e.

End Loading.

(** ** The written ranges *)

Record Range : Type := { rg_lo : Z; rg_hi : Z; rg_scope : DataScope }.

Definition written_range (codes : RaxCodes) (run_id : Z) (a : DataAcc) : option Range :=
  if negb (acc_kind a =? RAX_MEM_WRITE codes) || (acc_size a =? 0) || negb (acc_run_id a =? run_id)
  then None
  else
    let hi := if u64_max - acc_size a <? acc_addr a then u64_max else acc_addr a + acc_size a in
    if hi <=? acc_addr a then None
    else Some {| rg_lo := acc_addr a; rg_hi := hi; rg_scope := acc_scope a |}.

(** [std::tie(scope, lo, hi)] *)
Definition range_key (r : Range) : Z * (Z * Z) := (scope_value (rg_scope r), (rg_lo r, rg_hi r)).

Definition written_lt (a b : Range) : bool :=
  pair_lt Z.ltb (pair_lt Z.ltb Z.ltb) (range_key a) (range_key b).

(** The back of the vector first. *)
Fixpoint merge_written (ranges merged : list Range) : list Range :=
  match ranges with
  | [] => merged
  | r :: rest =>
      match merged with
      | back :: front =>
          if bool_decide (rg_scope r = rg_scope back) && (rg_lo r <=? rg_hi back) then
            merge_written rest ({| rg_lo := rg_lo back; rg_hi := Z.max (rg_hi back) (rg_hi r);
                                  rg_scope := rg_scope back |} :: front)
          else merge_written rest (r :: merged)
      | [] => merge_written rest [r]
      end
  end.

Definition written_ranges (codes : RaxCodes) (run_id : Z) (accesses : list DataAcc) : list Range :=
  rev (merge_written (std_sort written_lt (base.omap (written_range codes run_id) accesses)) []).

Section Capture.
Context {E : Type} `{RaxEngine E}.

Fixpoint capture_ranges (run_id seed : Z) (ranges : list Range) (remaining : Z) (e : E) :
    list MemoryBytes :=
  match ranges with
  | [] => []
  | r :: rest =>
      if remaining =? 0 then []
      else
        let len := Z.min (rg_hi r - rg_lo r) remaining in
        if len =? 0 then capture_ranges run_id seed rest remaining e
        else
          match mem_read (rg_lo r) len e with
          | None => capture_ranges run_id seed rest remaining e
          | Some bs =>
              {| mb_addr := rg_lo r; mb_bytes := bs; mb_scope := rg_scope r; mb_run_id := run_id;
                 mb_seed := seed |} :: capture_ranges run_id seed rest (remaining - zlen bs) e
          end
  end.

(** What is appended to the final writes. *)
Definition capture_final_writes (codes : RaxCodes) (cfg : ViyConfig) (run_id seed data_begin : Z)
    (out : EmuEvents) (e : E) : EmuEvents :=
  if negb has_mem_read || (cfg_max_runtime_bytes cfg =? 0) || (zlen (ee_data out) <=? data_begin)
  then out
  else
    let ranges := written_ranges codes run_id (drop (Z.to_nat data_begin) (ee_data out)) in
    {| ee_edges := ee_edges out; ee_execution := ee_execution out; ee_data := ee_data out;
       ee_states := ee_states out;
       ee_final_writes := ee_final_writes out ++
         capture_ranges run_id seed ranges (cfg_max_runtime_bytes cfg) e;
       ee_exec_pcs := ee_exec_pcs out |}.

End Capture.

(** ** Theorems: the scratch region *)

(** The region that is chosen does not meet the image. *)
Lemma scratch_base_clear is64 image_lo image_hi :
  image_lo < image_hi -> viy_scratch_stack_base is64 image_lo image_hi <> 0 ->
  let base := viy_scratch_stack_base is64 image_lo image_hi in
  image_hi <= base \/ base + kViyScratchStackSize <= image_lo.
Proof.
  intros Hi Hb. cbn zeta. unfold viy_scratch_stack_base in *.
  destruct (List.find _ _) as [base|] eqn:Hf; [|done]. apply find_some in Hf as [_ Hc].
  unfold scratch_clear in Hc. apply negb_true_iff in Hc.
  destruct (Z.ltb_spec image_lo image_hi); [|lia]. cbn [andb] in Hc.
  destruct (Z.ltb_spec base image_hi); [|lia]. cbn [andb] in Hc. apply Z.ltb_ge in Hc. lia.
Qed.

(** ** Theorems: loading *)

Lemma skip_clear_spec fuel mask i len :
  i <= len -> len - i <= Z.of_nat fuel ->
  let k := skip_clear fuel mask i len in
  i <= k <= len /\ (forall j, i <= j < k -> mask_loaded mask j = false) /\
  (k < len -> mask_loaded mask k = true).
Proof.
  cbn zeta. revert i. induction fuel as [|fuel IH]; intros i Hi Hf; cbn [skip_clear].
  { split_and!; [lia|lia|lia|lia]. }
  destruct (Z.ltb_spec i len); cbn [andb]; [|split_and!; [lia|lia|lia|lia]].
  destruct (mask_loaded mask i) eqn:Hm; cbn [negb]; [split_and!; [lia|lia|lia|done]|].
  destruct (IH (i + 1)) as ([Hlo Hhi] & Hall & Hend); [lia|lia|]. split_and!; [lia|lia| |done].
  intros j Hj. destruct (Z.eq_dec j i) as [->|]; [done|]. apply Hall. lia.
Qed.

Lemma skip_set_spec fuel mask j len :
  j <= len -> len - j <= Z.of_nat fuel ->
  let k := skip_set fuel mask j len in
  j <= k <= len /\ (forall i, j <= i < k -> mask_loaded mask i = true) /\
  (k < len -> mask_loaded mask k = false).
Proof.
  cbn zeta. revert j. induction fuel as [|fuel IH]; intros j Hj Hf; cbn [skip_set].
  { split_and!; [lia|lia|lia|lia]. }
  destruct (Z.ltb_spec j len); cbn [andb]; [|split_and!; [lia|lia|lia|lia]].
  destruct (mask_loaded mask j) eqn:Hm; [|split_and!; [lia|lia|lia|done]].
  destruct (IH (j + 1)) as ([Hlo Hhi] & Hall & Hend); [lia|lia|]. split_and!; [lia|lia| |done].
  intros i Hi. destruct (Z.eq_dec i j) as [->|]; [done|]. apply Hall. lia.
Qed.

Section LoadLaws.
Context {E : Type} `{RaxEngineLaws E}.

(** The initialized byte of a segment from index [i] on, at an address. *)
Definition segment_byte_from (s : SegImage) (i x : Z) : option byte :=
  let offset := x - sg_start s in
  if (i <=? offset) && (offset <? zlen (sg_bytes s)) && mask_loaded (sg_mask s) offset
  then sg_bytes s !! Z.to_nat offset else None.

Definition loaded_over (bytes_at : Z -> option byte) (e e' : E) : Prop :=
  (forall x, byte_at e' x = match bytes_at x with Some b => Some b | None => byte_at e x end) /\
  same_registers e e'.

Lemma placed_run s i j x :
  0 <= i <= j -> j <= zlen (sg_bytes s) ->
  placed (sg_start s + i) (take (Z.to_nat (j - i)) (drop (Z.to_nat i) (sg_bytes s))) x =
  if (i <=? x - sg_start s) && (x - sg_start s <? j) then sg_bytes s !! Z.to_nat (x - sg_start s) else None.
Proof.
  intros Hi Hj. unfold placed. set (run := take _ _). assert (zlen run = j - i) as Hrun.
  { unfold run, zlen in *. rewrite length_take, length_drop. lia. }
  rewrite Hrun. destruct (Z.leb_spec (sg_start s + i) x), (Z.leb_spec i (x - sg_start s)); try lia;
    cbn [andb]; [|done].
  destruct (Z.ltb_spec x (sg_start s + i + (j - i))), (Z.ltb_spec (x - sg_start s) j); try lia; [|done].
  unfold run. rewrite lookup_take_lt by lia. rewrite lookup_drop. f_equal. lia.
Qed.

Lemma load_runs_exact fuel s i e e' :
  0 <= i <= zlen (sg_bytes s) -> zlen (sg_bytes s) - i <= Z.of_nat fuel ->
  load_runs fuel s i e = (true, e') -> loaded_over (segment_byte_from s i) e e'.
Proof.
  revert i e. induction fuel as [|fuel IH]; intros i e Hi Hf; cbn [load_runs].
  { intros [= <-]. split; [|done]. intros x. unfold segment_byte_from.
    destruct (Z.leb_spec i (x - sg_start s)); cbn [andb]; [|done].
    by destruct (Z.ltb_spec (x - sg_start s) (zlen (sg_bytes s))); [lia|]. }
  cbn zeta. destruct (Z.ltb_spec i (zlen (sg_bytes s))) as [Hlt|Hge].
  2: { intros [= <-]. split; [|done]. intros x. unfold segment_byte_from.
       destruct (Z.leb_spec i (x - sg_start s)); cbn [andb]; [|done].
       by destruct (Z.ltb_spec (x - sg_start s) (zlen (sg_bytes s))); [lia|]. }
  assert (zlen (sg_bytes s) = Z.of_nat (length (sg_bytes s))) as Hlen by done.
  destruct (skip_clear_spec (length (sg_bytes s)) (sg_mask s) i (zlen (sg_bytes s)))
    as (Hk & Hclear & Hkset); [lia|lia|].
  set (k := skip_clear _ _ _ _) in *.
  destruct (Z.leb_spec (zlen (sg_bytes s)) k).
  { intros [= <-]. split; [|done]. intros x. unfold segment_byte_from.
    destruct (Z.leb_spec i (x - sg_start s)); cbn [andb]; [|done].
    destruct (Z.ltb_spec (x - sg_start s) (zlen (sg_bytes s))); cbn [andb]; [|done].
    by rewrite Hclear by lia. }
  destruct (skip_set_spec (length (sg_bytes s)) (sg_mask s) k (zlen (sg_bytes s)))
    as (Hj & Hset & Hjclear); [lia|lia|].
  set (j := skip_set _ _ _ _) in *.
  assert (k < j).
  { destruct (Z.eq_dec k j) as [Heq|]; [|lia]. rewrite <- Heq in Hjclear.
    rewrite Hkset in Hjclear by lia. specialize (Hjclear ltac:(lia)). done. }
  unfold checked_add. destruct (u64_max - k <? sg_start s); [done|].
  destruct (mem_write _ _ e) as [ok e1] eqn:Hw. destruct ok; [|done]. intros Hr.
  apply stored_of_write in Hw as [Hst Hregs]. apply IH in Hr as [Hmem Hregs']; [|lia|lia].
  split; [|intros reg; by rewrite Hregs', Hregs]. intros x. rewrite Hmem, Hst, placed_run by lia.
  unfold segment_byte_from.
  destruct (Z.leb_spec j (x - sg_start s)), (Z.leb_spec i (x - sg_start s)), (Z.leb_spec k (x - sg_start s)),
    (Z.ltb_spec (x - sg_start s) j), (Z.ltb_spec (x - sg_start s) (zlen (sg_bytes s)));
    cbn [andb]; try lia; try done.
  - by rewrite Hset by lia.
  - by rewrite Hclear by lia.
Qed.

Lemma load_segment_exact s e e' :
  load_segment s e = (true, e') ->
  loaded_over (segment_byte_from s 0) e e' /\ sg_start s + zlen (sg_bytes s) <= sg_end s.
Proof.
  unfold load_segment. destruct (Z.ltb_spec (sg_end s) (sg_start s)); [done|]. cbn [orb].
  destruct (Z.ltb_spec (sg_end s - sg_start s) (zlen (sg_bytes s))); [done|]. cbn [orb].
  destruct (_ && _); [done|]. intros Hr. split; [|lia].
  apply load_runs_exact in Hr; [done|split; [done|apply zlen_nonneg]|unfold zlen; lia].
Qed.

(** The initialized byte of the image at an address. *)
Definition image_byte (img : ProgramImage) (x : Z) : option byte :=
  match segment_at img x with
  | Some s => segment_byte_from s 0 x
  | None => None
  end.

Lemma segment_byte_inside s x b :
  segment_byte_from s 0 x = Some b -> sg_start s <= x < sg_start s + zlen (sg_bytes s).
Proof.
  unfold segment_byte_from. destruct (Z.leb_spec 0 (x - sg_start s)); cbn [andb]; [|done].
  destruct (Z.ltb_spec (x - sg_start s) (zlen (sg_bytes s))); cbn [andb]; [lia|done].
Qed.

Definition segments_byte (segs : list SegImage) (x : Z) : option byte :=
  match List.find (fun s => seg_contains s x) segs with
  | Some s => segment_byte_from s 0 x
  | None => None
  end.

Lemma load_segments_exact segs e e' :
  segs_ok segs -> load_segments segs e = (true, e') -> loaded_over (segments_byte segs) e e'.
Proof.
  revert e. induction segs as [|s segs IH]; intros e Hok; cbn [load_segments].
  { by intros [= <-]. }
  apply segs_ok_cons in Hok as (Hok & Hpos & Hafter).
  destruct (load_segment s e) as [ok e1] eqn:Hs. destruct ok; [|done]. intros Hr.
  apply load_segment_exact in Hs as [[Hmem Hregs] Hfit]. apply (IH _ Hok) in Hr as [Hmem' Hregs'].
  split; [|intros reg; by rewrite Hregs', Hregs]. intros x. rewrite Hmem', Hmem.
  unfold segments_byte. cbn [List.find]. destruct (seg_contains s x) eqn:Hc.
  - apply andb_true_iff in Hc as [Hlo%Z.leb_le Hhi%Z.ltb_lt].
    assert (List.find (fun t => seg_contains t x) segs = None) as ->; [|done].
    apply find_none_elem. intros t Ht. specialize (Hafter t Ht). unfold seg_contains.
    by destruct (Z.leb_spec (sg_start t) x); [lia|].
  - destruct (List.find _ segs) as [t|]; [destruct (segment_byte_from t 0 x); [done|]|];
      (destruct (segment_byte_from s 0 x) as [b|] eqn:Hb; [|done]);
      apply segment_byte_inside in Hb; unfold seg_contains in Hc;
      destruct (Z.leb_spec (sg_start s) x), (Z.ltb_spec x (sg_end s)); cbn in Hc; done || lia.
Qed.

(** Loading is exact.  If loading succeeds, the memory of the engine holds the
    initialized bytes of the image at their addresses and is unchanged at every other
    address, the holes of segments included; registers are unchanged. *)
Theorem load_image_exact img e e' :
  segs_ok (im_segs img) -> load_image_bytes img e = (true, e') -> loaded_over (image_byte img) e e'.
Proof.
  intros Hok Hr. apply (load_segments_exact _ _ _ Hok) in Hr as [Hmem Hregs]. split; [|done].
  intros x. rewrite Hmem. unfold segments_byte, image_byte.
  assert (List.find (fun s => seg_contains s x) (im_segs img) = segment_at img x) as ->; [|done].
  destruct (segment_at img x) as [s|] eqn:Hs.
  - apply segment_at_iff in Hs as [Hin Hc]; [|done]. destruct (List.find _ _) as [t|] eqn:Ht.
    + apply find_some_elem in Ht as [Htin Htc].
      assert (segment_at img x = Some t) as H1 by (by apply segment_at_iff).
      assert (segment_at img x = Some s) as H2 by (by apply segment_at_iff). congruence.
    + rewrite find_none_elem in Ht. by rewrite Ht in Hc.
  - apply find_none_elem. intros t Ht. destruct (seg_contains t x) eqn:Hc; [|done].
    assert (segment_at img x = Some t) by (by apply segment_at_iff). congruence.
Qed.

End LoadLaws.

(** ** Theorems: the written ranges *)

Definition covers (ranges : list Range) (scope : DataScope) (x : Z) : Prop :=
  exists r, r ∈ ranges /\ rg_scope r = scope /\ rg_lo r <= x < rg_hi r.

(** Separate scopes in their order, or a gap. *)
Definition apart (a b : Range) : Prop :=
  scope_value (rg_scope a) < scope_value (rg_scope b) \/ (rg_scope a = rg_scope b /\ rg_hi a < rg_lo b).

Definition not_after (a b : Range) : Prop :=
  scope_value (rg_scope a) < scope_value (rg_scope b) \/ (rg_scope a = rg_scope b /\ rg_lo a <= rg_lo b).

Definition nonempty (r : Range) : Prop := rg_lo r < rg_hi r.

Lemma covers_cons r l scope x :
  covers (r :: l) scope x <-> (rg_scope r = scope /\ rg_lo r <= x < rg_hi r) \/ covers l scope x.
Proof.
  split.
  - intros (q & [->|Hq]%elem_of_cons & Hs); [by left|right; by exists q].
  - intros [Hs|(q & Hq & Hs)]; [by exists r; split; [left|]|by exists q; split; [right|]].
Qed.

Lemma covers_nil scope x : ~ covers [] scope x.
Proof. by intros (r & Hr%not_elem_of_nil & _). Qed.

Lemma merge_written_spec ranges merged :
  StronglySorted not_after ranges -> Forall nonempty ranges -> Forall nonempty merged ->
  StronglySorted (fun later earlier => apart earlier later) merged ->
  (forall back r, head merged = Some back -> r ∈ ranges -> not_after back r) ->
  let out := merge_written ranges merged in
  Forall nonempty out /\ StronglySorted (fun later earlier => apart earlier later) out /\
  forall scope x, covers out scope x <-> covers merged scope x \/ covers ranges scope x.
Proof.
  cbn zeta. revert merged. induction ranges as [|r rest IH]; intros merged Hs Hn Hm Ha Hb; cbn [merge_written].
  { split_and!; [done|done|]. intros scope x. split; [by left|]. by intros [?|?%covers_nil]. }
  apply StronglySorted_inv in Hs as [Hs Hr]. apply List.Forall_cons_iff in Hn as [Hnr Hn].
  rewrite Forall_forall in Hr.
  destruct merged as [|back front].
  - destruct (IH [r]) as (H1 & H2 & H3); [done|done|by repeat constructor|by repeat constructor| |].
    + intros back q [= <-] Hq. by apply Hr.
    + split_and!; [done|done|]. intros scope x. rewrite H3, !covers_cons. naive_solver.
  - pose proof (Hb back r eq_refl (list_elem_of_here _ _)) as Hbr.
    apply List.Forall_cons_iff in Hm as [Hmb Hmf]. apply StronglySorted_inv in Ha as [Ha Haf].
    unfold nonempty in Hnr, Hmb.
    destruct (bool_decide_reflect (rg_scope r = rg_scope back)) as [Hsc|Hsc]; cbn [andb].
    + destruct (Z.leb_spec (rg_lo r) (rg_hi back)).
      * set (back' := {| rg_lo := rg_lo back; rg_hi := _; rg_scope := _ |}).
        destruct (IH (back' :: front)) as (H1 & H2 & H3); [done|done| |by constructor| |].
        -- apply List.Forall_cons; [|done]. unfold nonempty. cbn. lia.
        -- intros b q [= <-] Hq. unfold not_after. cbn.
           destruct (Hb back q eq_refl (list_elem_of_further _ _ _ Hq)) as [?|?]; [by left|by right].
        -- split_and!; [done|done|]. intros scope x. rewrite H3, !covers_cons. cbn. rewrite Hsc.
           destruct Hbr as [?|[_ ?]]; [rewrite Hsc in *; lia|]. split.
           ++ intros [[[-> ?]|?]|?]; [|tauto|tauto].
              destruct (Z.lt_ge_cases x (rg_hi back)); [left; left; split; [done|lia]|].
              right. left. split; [done|lia].
           ++ intros [[[-> ?]|?]|[[-> ?]|?]]; [left; left; split; [done|lia]|tauto| |tauto].
              left. left. split; [done|lia].
      * destruct (IH (r :: back :: front)) as (H1 & H2 & H3); [done|done|by repeat constructor| | |].
        -- constructor; [by constructor|]. apply List.Forall_cons; [right; split; [done|lia]|].
           eapply Forall_impl; [exact Haf|]. cbn. intros q [Hq|[Hq1 Hq2]]; [left; by rewrite Hsc|].
           right. split; [congruence|lia].
        -- intros b q [= <-] Hq. by apply Hr.
        -- split_and!; [done|done|]. intros scope x. rewrite H3, !covers_cons. tauto.
    + assert (scope_value (rg_scope back) < scope_value (rg_scope r)) as Hlt
        by (destruct Hbr as [?|[? _]]; [done|congruence]).
      destruct (IH (r :: back :: front)) as (H1 & H2 & H3); [done|done|by repeat constructor| | |].
      * constructor; [by constructor|]. apply List.Forall_cons; [by left|].
        eapply Forall_impl; [exact Haf|]. cbn. intros q [Hq|[Hq1 Hq2]]; left; [lia|by rewrite Hq1].
      * intros b q [= <-] Hq. by apply Hr.
      * split_and!; [done|done|]. intros scope x. rewrite H3, !covers_cons. tauto.
Qed.

#[export] Instance written_lt_total : StrictTotal written_lt.
Proof.
  apply (StrictTotal_inj (pair_lt Z.ltb (pair_lt Z.ltb Z.ltb)) range_key).
  intros [lo1 hi1 s1] [lo2 hi2 s2]. unfold range_key. cbn. intros [= Hs -> ->].
  by rewrite (scope_value_inj _ _ Hs).
Qed.

Lemma elem_of_sorted_ranges r l : r ∈ std_sort written_lt l <-> r ∈ l.
Proof. apply elem_of_std_sort; apply _. Qed.

Lemma sorted_ranges_order l : StronglySorted (le_by written_lt) (std_sort written_lt l).
Proof. apply std_sort_sorted; apply _. Qed.

Lemma written_lt_order a b : written_lt b a = false -> not_after a b.
Proof.
  unfold written_lt, pair_lt, range_key, not_after. cbn.
  destruct (Z.ltb_spec (scope_value (rg_scope b)) (scope_value (rg_scope a))); [done|].
  destruct (Z.ltb_spec (scope_value (rg_scope a)) (scope_value (rg_scope b))); [by left|].
  destruct (Z.ltb_spec (rg_lo b) (rg_lo a)); [done|]. intros _. right.
  split; [apply scope_value_inj; lia|lia].
Qed.

Lemma written_range_inv codes run_id a r :
  written_range codes run_id a = Some r ->
  rg_scope r = acc_scope a /\ rg_lo r = acc_addr a /\ rg_hi r = Z.min (acc_addr a + acc_size a) u64_max /\
  rg_lo r < rg_hi r /\ acc_kind a = RAX_MEM_WRITE codes /\ acc_run_id a = run_id.
Proof.
  unfold written_range. destruct (Z.eqb_spec (acc_kind a) (RAX_MEM_WRITE codes)); cbn [negb orb]; [|done].
  destruct (Z.eqb_spec (acc_size a) 0); cbn [orb]; [done|].
  destruct (Z.eqb_spec (acc_run_id a) run_id); cbn [negb]; [|done].
  destruct (Z.ltb_spec (u64_max - acc_size a) (acc_addr a)).
  - destruct (Z.leb_spec u64_max (acc_addr a)); [done|]. intros [= <-]. cbn. split_and!; [done..|lia|lia|done|done].
  - destruct (Z.leb_spec (acc_addr a + acc_size a) (acc_addr a)); [done|]. intros [= <-]. cbn.
    split_and!; [done..|lia|lia|done|done].
Qed.

Lemma elem_of_rev {A} (x : A) l : x ∈ rev l <-> x ∈ l.
Proof. by rewrite !list_elem_of_In, <- in_rev. Qed.

Lemma StronglySorted_rev {A} (R : A -> A -> Prop) l :
  StronglySorted (fun later earlier => R earlier later) l -> StronglySorted R (rev l).
Proof.
  intros Hs. induction Hs as [|r l Hs IH Hr]; [constructor|]. cbn [rev].
  apply StronglySorted_app. split_and!; [|done|by repeat constructor].
  intros x y Hx ->%list_elem_of_singleton. rewrite elem_of_rev in Hx. rewrite Forall_forall in Hr. by apply Hr.
Qed.

(** The ranges are sorted and separate, and cover exactly the bytes written in the run. *)
Lemma written_ranges_exact codes run_id accesses :
  let ranges := written_ranges codes run_id accesses in
  StronglySorted apart ranges /\ Forall nonempty ranges /\
  forall scope x, covers ranges scope x <->
    exists a r, a ∈ accesses /\ written_range codes run_id a = Some r /\ rg_scope r = scope /\
      rg_lo r <= x < rg_hi r.
Proof.
  cbn zeta. unfold written_ranges. set (raw := base.omap (written_range codes run_id) accesses).
  assert (forall r, r ∈ raw <-> exists a, a ∈ accesses /\ written_range codes run_id a = Some r) as Hraw.
  { intros r. apply list_elem_of_omap. }
  destruct (merge_written_spec (std_sort written_lt raw) []) as (Hn & Hs & Hc); [| |constructor|constructor|done|].
  - eapply StronglySorted_weaken; [|apply sorted_ranges_order]. intros a b. apply written_lt_order.
  - apply Forall_forall. intros r Hr. rewrite elem_of_sorted_ranges in Hr. apply Hraw in Hr as (a & _ & Ha).
    by apply written_range_inv in Ha as (_ & _ & _ & ? & _).
  - set (merged := merge_written _ _) in *. split_and!.
    + by apply StronglySorted_rev.
    + by apply Forall_rev.
    + intros scope x. transitivity (covers merged scope x).
      { unfold covers. split; intros (r & Hr & Hin); exists r; by rewrite ?elem_of_rev in *. }
      rewrite Hc. split.
      * intros [?%covers_nil|(r & Hr & Hscope & Hx)]; [done|].
        rewrite elem_of_sorted_ranges in Hr. apply Hraw in Hr as (a & Ha & Hw). by exists a, r.
      * intros (a & r & Ha & Hw & Hscope & Hx). right. exists r. split; [|done].
        rewrite elem_of_sorted_ranges. apply Hraw. by exists a.
Qed.

Section CaptureLaws.
Context {E : Type} `{RaxEngineLaws E} (codes : RaxCodes).

Definition total_bytes (writes : list MemoryBytes) : Z :=
  foldr (fun b total => zlen (mb_bytes b) + total) 0 writes.

Definition total_length (ranges : list Range) : Z :=
  foldr (fun r total => rg_hi r - rg_lo r + total) 0 ranges.

(** A range with the memory at its start. *)
Definition captured_from (run_id seed : Z) (e : E) (r : Range) (b : MemoryBytes) : Prop :=
  mb_addr b = rg_lo r /\ mb_scope b = rg_scope r /\ mb_run_id b = run_id /\ mb_seed b = seed /\
  0 < zlen (mb_bytes b) <= rg_hi r - rg_lo r /\ loaded (byte_at e) (mb_addr b) (mb_bytes b).

(** What is captured belongs to some of the ranges, in their order, within the budget. *)
Lemma capture_ranges_sound run_id seed ranges remaining e :
  0 <= remaining -> Forall nonempty ranges ->
  let writes := capture_ranges run_id seed ranges remaining e in
  total_bytes writes <= remaining /\
  exists chosen, chosen `sublist_of` ranges /\ Forall2 (captured_from run_id seed e) chosen writes.
Proof.
  cbn zeta. revert remaining. induction ranges as [|r rest IH]; intros remaining Hrem Hn; cbn [capture_ranges].
  { split; [done|]. exists []. split; constructor. }
  apply List.Forall_cons_iff in Hn as [Hr Hn]. unfold nonempty in Hr.
  destruct (Z.eqb_spec remaining 0).
  { split; [done|]. exists []. split; [apply sublist_nil_l|constructor]. }
  cbn zeta. destruct (Z.eqb_spec (Z.min (rg_hi r - rg_lo r) remaining) 0); [lia|].
  destruct (mem_read (rg_lo r) (Z.min (rg_hi r - rg_lo r) remaining) e) as [bs|] eqn:Hm.
  - apply loaded_of_read in Hm as [Hlen Hld].
    destruct (IH (remaining - zlen bs)) as (Htotal & chosen & Hsub & Hall); [lia|done|].
    split; [cbn [total_bytes foldr mb_bytes]; fold (total_bytes (capture_ranges run_id seed rest (remaining - zlen bs) e)); lia|].
    exists (r :: chosen). split; [by apply sublist_skip|]. constructor; [|done].
    unfold captured_from. cbn. split_and!; [done..|lia|lia|done].
  - destruct (IH remaining) as (Htotal & chosen & Hsub & Hall); [done..|].
    split; [done|]. exists chosen. split; [by apply sublist_cons|done].
Qed.

(** With enough budget and a readable memory nothing is left out. *)
Lemma capture_ranges_complete run_id seed ranges remaining e :
  Forall nonempty ranges -> total_length ranges <= remaining ->
  (forall r, r ∈ ranges -> is_Some (mem_read (rg_lo r) (rg_hi r - rg_lo r) e)) ->
  map (fun b => (mb_scope b, mb_addr b, mb_addr b + zlen (mb_bytes b)))
    (capture_ranges run_id seed ranges remaining e) =
  map (fun r => (rg_scope r, rg_lo r, rg_hi r)) ranges.
Proof.
  revert remaining. induction ranges as [|r rest IH]; intros remaining Hn Htotal Hread; [done|].
  apply List.Forall_cons_iff in Hn as [Hr Hn]. unfold nonempty in Hr. cbn [total_length foldr] in Htotal.
  fold (total_length rest) in Htotal. cbn [capture_ranges].
  assert (0 <= total_length rest) as Hpos.
  { clear -Hn. induction Hn as [|q l Hq _ IH]; [done|]. unfold nonempty in Hq.
    cbn [total_length foldr]. fold (total_length l). lia. }
  rewrite (proj2 (Z.eqb_neq remaining 0)) by lia. rewrite Z.min_l by lia. cbn zeta.
  rewrite (proj2 (Z.eqb_neq (rg_hi r - rg_lo r) 0)) by lia.
  destruct (Hread r (list_elem_of_here _ _)) as [bs Hbs]. rewrite Hbs.
  apply loaded_of_read in Hbs as [Hlen _]. cbn [map mb_scope mb_addr mb_bytes].
  rewrite IH; [|done|lia|intros q Hq; apply Hread; by right].
  f_equal. f_equal. lia.
Qed.

(** What is captured stays within the configured number of bytes. *)
Lemma capture_final_writes_budget cfg run_id seed data_begin out (e : E) :
  0 <= cfg_max_runtime_bytes cfg ->
  exists writes,
    ee_final_writes (capture_final_writes codes cfg run_id seed data_begin out e) = ee_final_writes out ++ writes /\
    total_bytes writes <= cfg_max_runtime_bytes cfg.
Proof.
  intros Hmax. unfold capture_final_writes. destruct (_ || _); [exists []; by rewrite app_nil_r|].
  eexists. split; [done|]. apply capture_ranges_sound; [done|].
  by destruct (written_ranges_exact codes run_id (drop (Z.to_nat data_begin) (ee_data out))) as (_ & Hn & _).
Qed.

(** C37: what is captured after a run is memory that the run has written.  Of the logs only
    the final writes change.  The ranges of what the run has logged as written, by scope, are
    in order and neither overlap nor touch, and cover exactly the bytes of the logged writes
    below the last address.  What is captured belongs to some of these ranges, in their
    order: each is the memory of the engine at the start of its range, no longer than
    the range; and the sizes stay within the configured budget.  If the engine can read memory
    and all of these ranges, the budget is positive and covers them, and the run has logged
    an access, then every range is captured from its start to its end. *)
Theorem final_writes_exact cfg run_id seed data_begin out (e : E) :
  0 <= cfg_max_runtime_bytes cfg ->
  let out' := capture_final_writes codes cfg run_id seed data_begin out e in
  let ranges := written_ranges codes run_id (drop (Z.to_nat data_begin) (ee_data out)) in
  exists writes chosen,
    out' = {| ee_edges := ee_edges out; ee_execution := ee_execution out; ee_data := ee_data out;
              ee_states := ee_states out; ee_final_writes := ee_final_writes out ++ writes;
              ee_exec_pcs := ee_exec_pcs out |} /\
    total_bytes writes <= cfg_max_runtime_bytes cfg /\
    chosen `sublist_of` ranges /\ Forall2 (captured_from run_id seed e) chosen writes /\
    StronglySorted apart ranges /\
    (forall scope x, covers ranges scope x <->
       exists a, a ∈ drop (Z.to_nat data_begin) (ee_data out) /\ acc_kind a = RAX_MEM_WRITE codes /\
         acc_run_id a = run_id /\ acc_scope a = scope /\
         acc_addr a <= x < Z.min (acc_addr a + acc_size a) u64_max) /\
    (has_mem_read = true -> 0 < cfg_max_runtime_bytes cfg ->
     data_begin < zlen (ee_data out) -> total_length ranges <= cfg_max_runtime_bytes cfg ->
     (forall r, r ∈ ranges -> is_Some (mem_read (rg_lo r) (rg_hi r - rg_lo r) e)) ->
     map (fun b => (mb_scope b, mb_addr b, mb_addr b + zlen (mb_bytes b))) writes =
     map (fun r => (rg_scope r, rg_lo r, rg_hi r)) ranges).
Proof.
  intros Hmax. cbn zeta. set (accesses := drop _ _). set (ranges := written_ranges _ _ _).
  destruct (written_ranges_exact codes run_id accesses) as (Hsorted & Hn & Hcovers).
  fold ranges in Hsorted, Hn, Hcovers.
  assert (forall scope x, covers ranges scope x <->
    exists a, a ∈ accesses /\ acc_kind a = RAX_MEM_WRITE codes /\ acc_run_id a = run_id /\
      acc_scope a = scope /\ acc_addr a <= x < Z.min (acc_addr a + acc_size a) u64_max) as Hcov.
  { intros scope x. rewrite Hcovers. split.
    - intros (a & r & Ha & Hw & Hs & Hx). exists a.
      apply written_range_inv in Hw as (? & ? & ? & ? & ? & ?). split_and!; congruence || lia || done.
    - intros (a & Ha & Hk & Hi & Hs & Hx).
      destruct (written_range codes run_id a) as [r|] eqn:Hw.
      + exists a, r. pose proof (written_range_inv _ _ _ _ Hw) as (? & ? & ? & ? & ? & ?).
        split_and!; congruence || lia || done.
      + exfalso. unfold written_range in Hw. rewrite Hk, Hi, !Z.eqb_refl in Hw. cbn [negb orb] in Hw.
        rewrite (proj2 (Z.eqb_neq (acc_size a) 0)) in Hw by lia. cbn [orb] in Hw.
        destruct (Z.ltb_spec (u64_max - acc_size a) (acc_addr a)).
        * rewrite (proj2 (Z.leb_gt u64_max (acc_addr a))) in Hw by lia. done.
        * rewrite (proj2 (Z.leb_gt (acc_addr a + acc_size a) (acc_addr a))) in Hw by lia. done. }
  unfold capture_final_writes.
  destruct (negb has_mem_read || (cfg_max_runtime_bytes cfg =? 0) || (zlen (ee_data out) <=? data_begin)) eqn:Hskip.
  - exists [], []. rewrite app_nil_r. split_and!; [by destruct out|done|apply sublist_nil_l|constructor|done|done|].
    intros Hr Hpos Hbegin. rewrite Hr in Hskip. cbn [negb orb] in Hskip.
    rewrite (proj2 (Z.eqb_neq _ 0)), (proj2 (Z.leb_gt _ _)) in Hskip by lia. done.
  - destruct (capture_ranges_sound run_id seed ranges (cfg_max_runtime_bytes cfg) e Hmax Hn)
      as (Htotal & chosen & Hsub & Hall).
    exists (capture_ranges run_id seed ranges (cfg_max_runtime_bytes cfg) e), chosen.
    split_and!; [done..|]. intros _ _ _. apply capture_ranges_complete. done.
Qed.

End CaptureLaws.

(** ** Theorems: pages *)

Definition aligned (p : Z) : Prop := p mod kPage = 0.

Lemma page_down_value x : is_u64 x -> page_down x = kPage * (x / kPage).
Proof. unfold is_u64. intros Hx. apply (land_clear_low 12); unfold u64_max; lia. Qed.

Lemma page_down_aligned x : is_u64 x -> aligned (page_down x).
Proof. intros Hx. rewrite page_down_value by done. unfold aligned. by rewrite Z.mul_comm, Z.mod_mul. Qed.

Lemma aligned_multiple p : aligned p -> p = kPage * (p / kPage).
Proof. intros Hp. unfold aligned in Hp. pose proof (Z.div_mod p kPage ltac:(done)). lia. Qed.

(** A page inside the address space. *)
Definition page_key (p : Z) : Prop := aligned p /\ 0 <= p /\ p + kPage <= u64_max.

Section PageLaws.
Context (prots : RaxProt) (strict : bool).

(** A segment that is not empty has a byte on the page. *)
Definition on_page (s : SegImage) (p : Z) : Prop :=
  sg_start s < sg_end s /\ sg_start s < p + kPage /\ p < sg_end s.

#[local] Instance on_page_dec s p : Decision (on_page s p).
Proof. unfold on_page. apply _. Defined.

(** The union of the permissions of the segments on a page; nothing without one. *)
Definition page_perms (segs : list SegImage) (p : Z) : option Z :=
  foldl (fun acc s => if decide (on_page s p) then Some (Z.lor (default 0 acc) (segment_prot prots strict s))
                      else acc) None segs.

(** What the engine can express: no permission is mapped as read permission. *)
Definition mapped_perms (perms : Z) : Z :=
  if perms =? RAX_PROT_NONE prots then RAX_PROT_READ prots else perms.

Lemma rounded_end_value s rounded :
  is_u64 (sg_end s) -> rounded_end s = Some rounded ->
  aligned rounded /\ rounded <= u64_max /\ sg_end s <= rounded < sg_end s + kPage.
Proof.
  intros Hu. unfold rounded_end. change (kPage - 1) with (Z.ones 12).
  unfold is_u64 in Hu. rewrite Z.land_ones by lia. change (2 ^ 12) with kPage.
  pose proof (Z.mod_pos_bound (sg_end s) kPage ltac:(done)).
  pose proof (Z.div_mod (sg_end s) kPage ltac:(done)). unfold kPage in *.
  destruct (Z.eqb_spec (sg_end s mod 4096) 0); cbn [negb].
  - intros [= <-]. unfold u64_max. split_and!; [done|lia..].
  - unfold checked_add. change (Z.ones 12) with 4095.
    destruct (Z.ltb_spec (u64_max - 4095) (sg_end s)); [done|]. intros [= <-].
    assert (is_u64 (sg_end s + 4095)) as Hr by (unfold is_u64, u64_max in *; lia).
    pose proof (page_down_aligned _ Hr). rewrite page_down_value by done. unfold kPage.
    pose proof (Z.mod_pos_bound (sg_end s + 4095) 4096 ltac:(done)).
    pose proof (Z.div_mod (sg_end s + 4095) 4096 ltac:(done)).
    unfold u64_max in *. split_and!; [|lia..]. unfold aligned, kPage. by rewrite Z.mul_comm, Z.mod_mul.
Qed.

(** Rounding fails only in the last page of the address space. *)
Lemma rounded_end_none s :
  is_u64 (sg_end s) -> rounded_end s = None -> u64_max - (kPage - 1) < sg_end s.
Proof.
  intros Hu. unfold rounded_end. destruct (negb _); [|done]. unfold checked_add.
  by destruct (Z.ltb_spec (u64_max - (kPage - 1)) (sg_end s)).
Qed.

Lemma page_loop_exact fuel p rounded prot pages q :
  aligned p -> aligned rounded -> rounded - p <= kPage * Z.of_nat fuel -> map_ok Z.ltb pages ->
  let pages' := page_loop fuel p rounded prot pages in
  map_ok Z.ltb pages' /\
  map_find Z.ltb q pages' =
    if (p <=? q) && (q <? rounded) && (q mod kPage =? 0)
    then Some (Z.lor (default 0 (map_find Z.ltb q pages)) prot)
    else map_find Z.ltb q pages.
Proof.
  cbn zeta. revert p pages. induction fuel as [|fuel IH]; intros p pages Hp Hr Hf Hok; cbn [page_loop].
  { split; [done|]. destruct (Z.leb_spec p q); cbn [andb]; [|done].
    by destruct (Z.ltb_spec q rounded); [lia|]. }
  destruct (Z.ltb_spec p rounded) as [Hlt|].
  2: { split; [done|]. destruct (Z.leb_spec p q); cbn [andb]; [|done].
       by destruct (Z.ltb_spec q rounded); [lia|]. }
  assert (map_ok Z.ltb (add_prot p prot pages)) as Hok' by (apply map_ok_set; done || apply _).
  assert (forall k, map_find Z.ltb k (add_prot p prot pages) =
    if decide (k = p) then Some (Z.lor (default 0 (map_find Z.ltb p pages)) prot)
    else map_find Z.ltb k pages) as Hfind.
  { intros k. unfold add_prot. destruct (decide (k = p)) as [->|].
    - by rewrite map_find_set_eq by (done || apply _).
    - by rewrite map_find_set_ne by (done || apply _). }
  assert (p < q < p + kPage -> q mod kPage <> 0) as Hgap.
  { intros Hpq Hq. apply aligned_multiple in Hp. apply aligned_multiple in Hq. unfold kPage in *. lia. }
  destruct (Z.leb_spec (rounded - p) kPage).
  - split; [done|]. rewrite Hfind. destruct (decide (q = p)) as [->|].
    + destruct (Z.leb_spec p p); [|lia]. destruct (Z.ltb_spec p rounded); [|lia].
      unfold aligned in Hp. by rewrite Hp.
    + destruct (Z.leb_spec p q); cbn [andb]; [|done]. destruct (Z.ltb_spec q rounded); cbn [andb]; [|done].
      by destruct (Z.eqb_spec (q mod kPage) 0); [destruct Hgap; [lia|]|].
  - destruct (IH (p + kPage) (add_prot p prot pages)) as [Hok2 Hfind2]; [|done|lia|done|].
    { unfold aligned. rewrite Z.add_mod, Z_mod_same_full, Z.add_0_r, Z.mod_mod by done. exact Hp. }
    split; [done|]. rewrite Hfind2, Hfind. destruct (decide (q = p)) as [->|].
    + destruct (Z.leb_spec (p + kPage) p); [unfold kPage in *; lia|]. cbn [andb].
      destruct (Z.leb_spec p p); [|lia]. destruct (Z.ltb_spec p rounded); [|lia].
      unfold aligned in Hp. by rewrite Hp.
    + destruct (Z.leb_spec (p + kPage) q), (Z.leb_spec p q); cbn [andb];
        try (unfold kPage in *; lia); try done.
      destruct (Z.ltb_spec q rounded); cbn [andb]; [|done].
      by destruct (Z.eqb_spec (q mod kPage) 0); [destruct Hgap; [lia|]|].
Qed.

(** The page table: every page that a segment is on, with the union of the permissions. *)
Lemma collect_pages_exact segs pages pages' :
  Forall (fun s => is_u64 (sg_start s) /\ is_u64 (sg_end s)) segs -> map_ok Z.ltb pages ->
  (forall p, is_Some (map_find Z.ltb p pages) -> page_key p) ->
  collect_pages prots strict segs pages = Some pages' ->
  map_ok Z.ltb pages' /\
  (forall p, is_Some (map_find Z.ltb p pages') -> page_key p) /\
  forall p, aligned p -> map_find Z.ltb p pages' =
    foldl (fun acc s => if decide (on_page s p) then Some (Z.lor (default 0 acc) (segment_prot prots strict s))
                        else acc) (map_find Z.ltb p pages) segs.
Proof.
  revert pages. induction segs as [|s segs IH]; intros pages Hu Hok Hkeys; cbn [collect_pages].
  { intros [= <-]. done. }
  apply List.Forall_cons_iff in Hu as [[Hs He] Hu].
  destruct (Z.leb_spec (sg_end s) (sg_start s)).
  - intros Hc. destruct (IH _ Hu Hok Hkeys Hc) as (H1 & H2 & H3). split_and!; [done|done|].
    intros p Hp. rewrite H3 by done. cbn [foldl]. destruct (decide (on_page s p)) as [[? _]|]; [lia|done].
  - destruct (rounded_end s) as [rounded|] eqn:Hround; [|done]. cbn zeta.
    destruct (rounded_end_value s rounded He Hround) as (Hra & Hrm & Hrb).
    pose proof (page_down_aligned (sg_start s) Hs) as Hpa.
    pose proof (page_down_value (sg_start s) Hs) as Hpv.
    set (p0 := page_down (sg_start s)) in *. set (prot := segment_prot prots strict s) in *.
    assert (rounded - p0 <= kPage * Z.of_nat (page_count p0 rounded)) as Hfuel.
    { unfold page_count. pose proof (Z.div_mod (rounded - p0) kPage ltac:(done)).
      pose proof (Z.mod_pos_bound (rounded - p0) kPage ltac:(done)). unfold kPage in *. lia. }
    pose proof (Z.div_mod (sg_start s) kPage ltac:(done)) as Hdm.
    pose proof (Z.mod_pos_bound (sg_start s) kPage ltac:(done)) as Hmb.
    assert (forall p, aligned p -> on_page s p <-> p0 <= p < rounded) as Hon.
    { intros p Hp. apply aligned_multiple in Hp, Hra. unfold on_page, kPage in *. lia. }
    destruct (page_loop_exact (page_count p0 rounded) p0 rounded prot pages p0) as [Hok' _]; [done..|].
    assert (forall p, map_find Z.ltb p (page_loop (page_count p0 rounded) p0 rounded prot pages) =
      if (p0 <=? p) && (p <? rounded) && (p mod kPage =? 0)
      then Some (Z.lor (default 0 (map_find Z.ltb p pages)) prot) else map_find Z.ltb p pages) as Hloop
      by (intros p; by apply page_loop_exact).
    intros Hc. eapply IH in Hc as (H1 & H2 & H3); [|done|done|].
    + split_and!; [done|done|]. intros p Hp. rewrite H3, Hloop by done. cbn [foldl].
      specialize (Hon p Hp). unfold aligned in Hp. rewrite Hp, Z.eqb_refl, andb_true_r.
      destruct (decide (on_page s p)) as [Hin|Hout].
      * apply Hon in Hin as [Hlo Hhi]. by rewrite (proj2 (Z.leb_le p0 p) Hlo), (proj2 (Z.ltb_lt p rounded) Hhi).
      * destruct (Z.leb_spec p0 p); cbn [andb]; [|done]. destruct (Z.ltb_spec p rounded); [|done].
        destruct Hout. apply Hon. lia.
    + intros p. rewrite Hloop. destruct (Z.leb_spec p0 p); cbn [andb]; [|apply Hkeys].
      destruct (Z.ltb_spec p rounded); cbn [andb]; [|apply Hkeys].
      destruct (Z.eqb_spec (p mod kPage) 0) as [Hp|]; [|apply Hkeys]. intros _. split; [done|].
      apply aligned_multiple in Hp. apply aligned_multiple in Hra. unfold is_u64 in Hs. unfold kPage in *.
      lia.
Qed.

(** An interval maps an address with permissions. *)
Definition maps (intervals : list IV) (x perms : Z) : Prop :=
  exists iv, iv ∈ intervals /\ iv_base iv <= x < iv_end iv /\ iv_prot iv = perms.

Definition page_interval (iv : IV) : Prop :=
  aligned (iv_base iv) /\ aligned (iv_end iv) /\ iv_base iv < iv_end iv <= u64_max.

Lemma maps_cons iv l x perms :
  maps (iv :: l) x perms <-> (iv_base iv <= x < iv_end iv /\ iv_prot iv = perms) \/ maps l x perms.
Proof.
  split.
  - intros (q & [->|Hq]%elem_of_cons & Hs); [by left|right; by exists q].
  - intros [Hs|(q & Hq & Hs)]; [by exists iv; split; [left|]|by exists q; split; [right|]].
Qed.

Lemma aligned_next p : aligned p -> aligned (p + kPage).
Proof. unfold aligned. intros Hp. by rewrite Z.add_mod, Z_mod_same_full, Z.add_0_r, Z.mod_mod. Qed.

Definition pages_map (pages : omap Z Z) (x perms : Z) : Prop :=
  exists p raw, (p, raw) ∈ pages /\ p <= x < p + kPage /\ perms = mapped_perms raw.

Lemma pages_map_cons p raw pages x perms :
  pages_map ((p, raw) :: pages) x perms <->
  (p <= x < p + kPage /\ perms = mapped_perms raw) \/ pages_map pages x perms.
Proof.
  unfold pages_map. setoid_rewrite elem_of_cons. split.
  - intros (p' & raw' & [[= -> ->]|Hin] & Hx); [by left|right; by exists p', raw'].
  - intros [Hx|(p' & raw' & Hin & Hx)]; [by exists p, raw; split; [left|]|exists p', raw'; by split; [right|]].
Qed.

Lemma pages_map_nil x perms : ~ pages_map [] x perms.
Proof. by intros (p & raw & Hin%not_elem_of_nil & _). Qed.

Lemma merge_pages_exact pages merged :
  map_ok Z.ltb pages -> (forall p raw, (p, raw) ∈ pages -> page_key p) ->
  StronglySorted (fun later earlier => iv_end earlier <= iv_base later) merged ->
  Forall page_interval merged ->
  (forall back p raw, head merged = Some back -> (p, raw) ∈ pages -> iv_end back <= p) ->
  exists out, merge_pages prots pages merged = Some out /\
    StronglySorted (fun later earlier => iv_end earlier <= iv_base later) out /\
    Forall page_interval out /\
    forall x perms, maps out x perms <-> maps merged x perms \/ pages_map pages x perms.
Proof.
  revert merged. induction pages as [|[base raw] rest IH]; intros merged Hok Hkeys Hs Hi Hb; cbn [merge_pages].
  { exists merged. split_and!; [done..|]. intros x perms. split; [by left|].
    by intros [?|?%pages_map_nil]. }
  apply map_ok_cons in Hok as [Hok Hlt]. fold (mapped_perms raw).
  destruct (Hkeys base raw (list_elem_of_here _ _)) as (Hba & Hb0 & Hbm).
  assert (forall p raw', (p, raw') ∈ rest -> base + kPage <= p) as Hnext.
  { intros p raw' Hin. destruct (Hkeys p raw' (list_elem_of_further _ _ _ Hin)) as (Hpa & _ & _).
    apply Hlt, Z.ltb_lt in Hin. apply aligned_multiple in Hba, Hpa. unfold kPage in *. lia. }
  assert (forall p raw', (p, raw') ∈ rest -> page_key p) as Hkeys'
    by (intros p raw' Hin; apply (Hkeys p raw'); by right).
  assert (checked_add base kPage = Some (base + kPage)) as Hadd.
  { unfold checked_add. by destruct (Z.ltb_spec (u64_max - kPage) base); [lia|]. }
  set (iv := {| iv_base := base; iv_end := base + kPage; iv_prot := mapped_perms raw |}).
  assert (page_interval iv) as Hiv
    by (split_and!; [done|by apply aligned_next|cbn; unfold kPage; lia|done]).
  assert (exists out, merge_pages prots rest (iv :: merged) = Some out /\
    StronglySorted (fun later earlier => iv_end earlier <= iv_base later) out /\
    Forall page_interval out /\
    forall x perms, maps out x perms <-> maps merged x perms \/ pages_map ((base, raw) :: rest) x perms) as Hfresh.
  { destruct (IH (iv :: merged)) as (out & Hm & H1 & H2 & H3); [done|done| |by constructor| |].
    - constructor; [done|]. destruct merged as [|back front]; [constructor|].
      pose proof (Hb back base raw eq_refl (list_elem_of_here _ _)) as Hle.
      apply StronglySorted_inv in Hs as [_ Hf]. apply List.Forall_cons; [done|].
      apply List.Forall_cons_iff in Hi as [(_ & _ & Hlt') _].
      eapply Forall_impl; [exact Hf|]. cbn. lia.
    - intros back p raw' [= <-] Hin. cbn. by eapply Hnext.
    - exists out. split_and!; [done..|]. intros x perms. rewrite H3, maps_cons, pages_map_cons. cbn.
      naive_solver. }
  destruct merged as [|back front]; [by rewrite Hadd|].
  destruct (Z.eqb_spec base (iv_end back)) as [Hadj|]; cbn [andb]; [|by rewrite Hadd].
  destruct (Z.eqb_spec (mapped_perms raw) (iv_prot back)) as [Hprot|]; [|by rewrite Hadd].
  clear Hfresh. apply List.Forall_cons_iff in Hi as [(Hab & Hae & Hbe) Hi].
  apply StronglySorted_inv in Hs as [Hs Hf].
  assert ((iv_end back + kPage) mod 2 ^ 64 = base + kPage) as ->
    by (rewrite <- Hadj; apply Z.mod_small; unfold kPage, u64_max in *; lia).
  set (grown := {| iv_base := iv_base back; iv_end := base + kPage; iv_prot := iv_prot back |}).
  destruct (IH (grown :: front)) as (out & Hm & H1 & H2 & H3); [done|done| | | |].
  - constructor; [done|]. exact Hf.
  - apply List.Forall_cons; [|done].
    split_and!; [done|by apply aligned_next|cbn; unfold kPage; lia|done].
  - intros b p raw' [= <-] Hin. cbn. by eapply Hnext.
  - exists out. split_and!; [done..|]. intros x perms. rewrite H3, !maps_cons, pages_map_cons. cbn.
    rewrite Hadj, Hprot in *. split.
    + intros [[[Hx <-]|?]|?]; [|tauto|tauto].
      destruct (Z.lt_ge_cases x (iv_end back)); [left; left; split; [lia|done]|right; left; split; [lia|done]].
    + intros [[[Hx <-]|?]|[[Hx ->]|?]]; [left; left; split; [unfold kPage; lia|done]|tauto| |tauto].
      left. left. split; [lia|done].
Qed.

Lemma collect_pages_none segs pages :
  Forall (fun s => is_u64 (sg_start s) /\ is_u64 (sg_end s)) segs ->
  collect_pages prots strict segs pages = None ->
  exists s, s ∈ segs /\ sg_start s < sg_end s /\ u64_max - (kPage - 1) < sg_end s.
Proof.
  revert pages. induction segs as [|s segs IH]; intros pages Hu; cbn [collect_pages]; [done|].
  apply List.Forall_cons_iff in Hu as [[Hs He] Hu].
  destruct (Z.leb_spec (sg_end s) (sg_start s)).
  - intros Hc. destruct (IH _ Hu Hc) as (t & Ht & Hend). exists t. split; [by right|done].
  - destruct (rounded_end s) as [rounded|] eqn:Hround.
    + cbn zeta. intros Hc. destruct (IH _ Hu Hc) as (t & Ht & Hend). exists t. split; [by right|done].
    + intros _. exists s. split; [by left|]. split; [done|]. by apply rounded_end_none.
Qed.

(** The page table of the image is exact.  Unless a segment reaches into the last
    page of the address space, the image is mapped in page-aligned intervals in address
    order that do not overlap; an address is mapped exactly if a segment has a byte on
    its page, and then with the union of the permissions of the segments on that page,
    or for reading if that is no permission. *)
Theorem image_intervals_exact segs :
  Forall (fun s => is_u64 (sg_start s) /\ is_u64 (sg_end s)) segs ->
  match image_intervals prots strict segs with
  | None => exists s, s ∈ segs /\ sg_start s < sg_end s /\ u64_max - (kPage - 1) < sg_end s
  | Some intervals =>
      StronglySorted (fun a b => iv_end a <= iv_base b) intervals /\ Forall page_interval intervals /\
      forall x perms, is_u64 x ->
        maps intervals x perms <->
        exists raw, page_perms segs (page_down x) = Some raw /\ perms = mapped_perms raw
  end.
Proof.
  intros Hu. unfold image_intervals.
  destruct (collect_pages prots strict segs []) as [pages|] eqn:Hc; [|by eapply collect_pages_none].
  apply collect_pages_exact in Hc as (Hok & Hkeys & Hfind); [|done|constructor|by intros p [? ?]].
  destruct (merge_pages_exact pages []) as (merged & Hm & Hs & Hi & Hmaps); [done| |constructor|constructor|done|].
  { intros p raw Hin. apply Hkeys. exists raw. by apply map_find_elem; [apply _|..]. }
  rewrite Hm. split_and!.
  - by apply (StronglySorted_rev (fun a b => iv_end a <= iv_base b)).
  - by apply Forall_rev.
  - intros x perms Hx. transitivity (maps merged x perms).
    { unfold maps. split; intros (iv & Hin & Hiv); exists iv; by rewrite ?elem_of_rev in *. }
    rewrite Hmaps. pose proof (page_down_aligned x Hx) as Hpa. pose proof (page_down_value x Hx) as Hpv.
    pose proof (Z.div_mod x kPage ltac:(done)). pose proof (Z.mod_pos_bound x kPage ltac:(done)).
    unfold page_perms. pose proof (Hfind (page_down x) Hpa) as Hlookup. cbn [map_find] in Hlookup.
    rewrite <- Hlookup. split.
    + intros [(iv & Hin%not_elem_of_nil & _)|(p & raw & Hin & Hpx & ->)]; [done|]. exists raw. split; [|done].
      assert (is_Some (map_find Z.ltb p pages)) as Hsome by (exists raw; by apply map_find_elem; [apply _|..]).
      apply Hkeys in Hsome as (Hpa' & _ & _).
      assert (page_down x = p) as -> by (apply aligned_multiple in Hpa'; unfold kPage in *; lia).
      by apply map_find_elem; [apply _|..].
    + intros (raw & Hraw & ->). right. exists (page_down x), raw.
      split; [by apply map_find_elem in Hraw; [|apply _|]|]. split; [lia|done].
Qed.

End PageLaws.

(** ** Runs of the reference machine *)

Module ImageRuns.
Import Reference.

#[local] Instance machine_mapping : RaxMapping Machine := {
  mem_map base len prot e := (true, e);
  mem_protect base len prot e := (true, e)
}.

Definition sample_prots : RaxProt := {|
  RAX_PROT_NONE := 0; RAX_PROT_READ := 1; RAX_PROT_WRITE := 2; RAX_PROT_EXEC := 4; RAX_PROT_ALL := 7 |}.

(** Code and data that share a page, with a hole in the data, and a page of its own. *)
Definition image : ProgramImage := {|
  im_arch := X86_64; im_big_endian := false; im_lo := 0x1000; im_hi := 0x5000;
  im_segs := [{| sg_start := 0x1000; sg_end := 0x2010; sg_perm := 5; sg_bitness := 2;
                 sg_bytes := [xc3]; sg_mask := [x01] |};
              {| sg_start := 0x2800; sg_end := 0x2810; sg_perm := 6; sg_bitness := 2;
                 sg_bytes := [x61; x62; x63]; sg_mask := [x05] |};
              {| sg_start := 0x4000; sg_end := 0x4004; sg_perm := 4; sg_bitness := 2;
                 sg_bytes := []; sg_mask := [] |}];
  im_entries := []; im_content_hash := 0; im_generation := 1 |}.

Lemma load_image_ok : segs_ok (im_segs image).
Proof. split; repeat constructor; cbn; lia. Qed.

(** The shared page is readable, writable and executable. *)
Example image_pages :
  image_intervals sample_prots true (im_segs image) =
  Some [{| iv_base := 0x1000; iv_end := 0x2000; iv_prot := 5 |};
        {| iv_base := 0x2000; iv_end := 0x3000; iv_prot := 7 |};
        {| iv_base := 0x4000; iv_end := 0x5000; iv_prot := 1 |}].
Proof. vm_compute. reflexivity. Qed.

Definition loaded_machine : Machine := (load_image_bytes image (machine 0 0 0)).2.

(** The hole keeps what was there. *)
Example loaded_bytes :
  map (fun a => loaded_machine.1 !! a) [0x1000; 0x2800; 0x2801; 0x2802; 0x2000] =
  [Some xc3; Some x61; None; Some x63; Some x68].
Proof. vm_compute. reflexivity. Qed.

Lemma load_image_exact_witness :
  load_image_bytes image (machine 0 0 0) = (true, loaded_machine) /\
  loaded_over (image_byte image) (machine 0 0 0) loaded_machine.
Proof.
  assert (load_image_bytes image (machine 0 0 0) = (true, loaded_machine)) as Hload by (vm_compute; reflexivity).
  split; [exact Hload|]. exact (load_image_exact image (machine 0 0 0) loaded_machine load_image_ok Hload).
Defined.

Lemma image_intervals_exact_witness :
  maps [{| iv_base := 0x1000; iv_end := 0x2000; iv_prot := 5 |};
        {| iv_base := 0x2000; iv_end := 0x3000; iv_prot := 7 |};
        {| iv_base := 0x4000; iv_end := 0x5000; iv_prot := 1 |}] 0x2804 7 <->
  exists raw, page_perms sample_prots true (im_segs image) (page_down 0x2804) = Some raw /\
    7 = mapped_perms sample_prots raw.
Proof.
  assert (Forall (fun s => is_u64 (sg_start s) /\ is_u64 (sg_end s)) (im_segs image)) as Hu
    by (repeat constructor; cbn; lia).
  pose proof (image_intervals_exact sample_prots true (im_segs image) Hu) as H.
  rewrite image_pages in H. destruct H as (_ & _ & H). apply H. unfold is_u64. lia.
Defined.

(** Two overlapping writes, one next to them and one in the stack, in run 1. *)
Definition write (addr size : Z) (scope : DataScope) : DataAcc := {|
  acc_from := 0x1000; acc_addr := addr; acc_value := 0; acc_size := size; acc_kind := 2;
  acc_scope := scope; acc_sequence := 0; acc_run_id := 1; acc_seed := 7 |}.

Definition log : EmuEvents := {|
  ee_edges := []; ee_execution := [];
  ee_data := [write 0x2001 2 DataScope_IMAGE; write 0x7ff002 4 DataScope_STACK;
              write 0x2000 2 DataScope_IMAGE; write 0x2003 1 DataScope_IMAGE];
  ee_states := []; ee_final_writes := []; ee_exec_pcs := ∅ |}.

Example captured_log :
  map (fun b => (mb_addr b, mb_bytes b))
    (ee_final_writes (capture_final_writes sample_codes default_config 1 7 0 log (machine 0 0 0))) =
  [(0x2000, [x68; x69; x00; x7a]); (0x7ff002, [x00; x00; x00; x00])].
Proof. vm_compute. reflexivity. Qed.

Lemma final_writes_exact_witness :
  exists writes,
    total_bytes writes <= cfg_max_runtime_bytes default_config /\
    ee_final_writes (capture_final_writes sample_codes default_config 1 7 0 log (machine 0 0 0)) = [] ++ writes.
Proof.
  assert (0 <= cfg_max_runtime_bytes default_config) as Hmax by (vm_compute; discriminate).
  destruct (final_writes_exact sample_codes default_config 1 7 0 log (machine 0 0 0) Hmax)
    as (writes & chosen & Hout & Htotal & _).
  exists writes. split; [exact Htotal|]. rewrite Hout. reflexivity.
Defined.

End ImageRuns.
