(* ===== verification/EmuDriver.v ===== *)
(** * The driver of the emulator (emu_driver.cpp)

    [EmuDriver] opens an engine, maps the image and takes a snapshot ([new_driver]);
    [emulate_from] restores the snapshot, prepares the entry of a function, installs the
    hooks and runs the guest, going on after every modelled library function, until the
    function returns or a limit is reached.  [RaxDriverLaws] is what the driver relies
    on: a start of the engine makes a run of the installed hooks and adds its events to
    the record [emu_executed], which nothing else changes.  The theorems join the parts:
    what a call logs is exact for the events that the engine has added to its record in
    the call, the entry state follows the calling convention, and the budget of
    instructions, log entries and captured bytes is kept. *)
From stdpp Require Import base numbers list strings option sets gmap sorting.
From Stdlib Require Import ZArith Init.Byte Sorting.Sorted Lia.
From S2P Require Import Prelude OrderedMap ProgramModel RuntimeWrites AbiPolicy Config DecoderCore.
From S2P Require Import WorkerFingerprint EmuEvents EvidenceBridge EmuMachine EmuSummaries EmuHooks.
From S2P Require Import EmuImage.

(** ** The engine of the driver *)

Record RaxConfig : Type := {
  rc_arch : Z;
  rc_mode : Z;
  rc_mem_base : Z;
  rc_mem_size : Z;
  rc_mem_perms : Z
}.

(** The registers of [arch_params] that no other part names. *)
Record RaxEntryRegisters : Type := {
  RAX_X86_REG_ESP : Z;
  RAX_X86_REG_EBP : Z;
  RAX_X86_REG_EAX : Z;
  RAX_X86_REG_RSP : Z;
  RAX_X86_REG_RBP : Z;
  RAX_X86_REG_RAX : Z;
  RAX_REG_LR : Z
}.

(** What the driver calls besides the functions for hooks.  [emu_start] runs the guest,
    which calls the hooks that are installed, from an address until another one; it is
    told a time and a number of instructions.  [context_save] fills a buffer of the given
    size.  A status other than [RAX_OK] is [false], [None] or, for [emu_start], a
    number. *)
Class RaxDriverEngine (E : Type) := {
  engine_open_config : RaxConfig -> option E;
  engine_supports_stepping : E -> bool;
  hook_add_code : E -> bool;
  hook_add_mem : E -> bool;
  hook_add_invalid : E -> bool;
  has_context_save : bool;
  context_size : E -> option Z;
  context_save : Z -> E -> option bytes;
  context_restore : bytes -> E -> bool * E;
  emu_icount : E -> Z;
  emu_start : (hook_event -> Hook E unit) -> Z -> Z -> Z -> Z -> HookCtx * E -> Z * (HookCtx * E);
  emu_last_exit : E -> option (Z * Z)
}.

(** What the guest did since the engine was opened, [emu_executed], is the instructions it
    came to and the accesses it made, in their order.  A run of the engine adds to it, and is
    a run of the hooks over what it adds; it starts no more instructions than it is told,
    and the counter of instructions only grows. *)
Class RaxDriverLaws (E : Type) `{RaxDriverEngine E} := {
  emu_executed : E -> list hook_event;
  emu_start_run hooks begin until timeout count s :
    exists events, emu_executed (emu_start hooks begin until timeout count s).2.2 = emu_executed s.2 ++ events /\
      hook_run hooks s events (emu_start hooks begin until timeout count s).2;
  emu_start_count hooks begin until timeout count s : 0 <= count ->
    emu_icount s.2 <= emu_icount (emu_start hooks begin until timeout count s).2.2 <=
      emu_icount s.2 + count;
  icount_range e : is_u64 (emu_icount e)
}.

(** ** Architectures *)

Record ArchParams : Type := {
  ap_rax_arch : Z;
  ap_mode : Z;
  ap_sp_reg : Z;
  ap_fp_reg : Z;
  ap_lr_reg : Z;
  ap_pc_reg : Z;
  ap_ret_reg : Z;
  ap_is64 : bool
}.

Section Driver.
Context {E : Type} `{RaxEngine E} `{RaxMapping E} `{RaxDriverEngine E}.
Context (prots : RaxProt) (codes : RaxCodes) (rax : RaxDecoder) (registers : RaxRegisters).
Context (names : RaxRegisterNames) (entry_registers : RaxEntryRegisters).
Context (memcmp : bytes -> bytes -> Z).

Definition arch_params (a : ViyArch) (big_endian : bool) : option ArchParams :=
  let endian := if big_endian then RAX_MODE_BIG_ENDIAN rax else RAX_MODE_LITTLE_ENDIAN rax in
  match a with
  | X86_32 => Some {| ap_rax_arch := RAX_ARCH_X86 rax; ap_mode := RAX_MODE_32 rax;
      ap_sp_reg := RAX_X86_REG_ESP entry_registers; ap_fp_reg := RAX_X86_REG_EBP entry_registers;
      ap_lr_reg := -1; ap_pc_reg := RAX_X86_REG_EIP names;
      ap_ret_reg := RAX_X86_REG_EAX entry_registers; ap_is64 := false |}
  | X86_64 => Some {| ap_rax_arch := RAX_ARCH_X86 rax; ap_mode := RAX_MODE_64 rax;
      ap_sp_reg := RAX_X86_REG_RSP entry_registers; ap_fp_reg := RAX_X86_REG_RBP entry_registers;
      ap_lr_reg := -1; ap_pc_reg := RAX_X86_REG_RIP names;
      ap_ret_reg := RAX_X86_REG_RAX entry_registers; ap_is64 := true |}
  | ARM64 => Some {| ap_rax_arch := RAX_ARCH_ARM64 rax; ap_mode := endian;
      ap_sp_reg := RAX_ARM64_REG_SP names; ap_fp_reg := -1; ap_lr_reg := RAX_ARM64_X registers 30;
      ap_pc_reg := RAX_ARM64_REG_PC names; ap_ret_reg := RAX_ARM64_X registers 0; ap_is64 := true |}
  | ARM32 => Some {| ap_rax_arch := RAX_ARCH_ARM rax; ap_mode := Z.lor (RAX_MODE_ARM rax) endian;
      ap_sp_reg := RAX_ARM_REG_SP names; ap_fp_reg := -1; ap_lr_reg := RAX_REG_LR entry_registers;
      ap_pc_reg := RAX_ARM_REG_PC names; ap_ret_reg := RAX_ARM_R registers 0; ap_is64 := false |}
  | RISCV64 => Some {| ap_rax_arch := RAX_ARCH_RISCV64 rax; ap_mode := endian;
      ap_sp_reg := RAX_RISCV_X registers 2; ap_fp_reg := RAX_RISCV_X registers 8;
      ap_lr_reg := RAX_RISCV_X registers 1; ap_pc_reg := RAX_RISCV_REG_PC names;
      ap_ret_reg := RAX_RISCV_X registers 10; ap_is64 := true |}
  | CORTEX_M => Some {| ap_rax_arch := RAX_ARCH_CORTEXM rax; ap_mode := Z.lor (RAX_MODE_THUMB rax) endian;
      ap_sp_reg := RAX_REG_SP names; ap_fp_reg := -1; ap_lr_reg := RAX_CM_REG_LR names;
      ap_pc_reg := RAX_CM_REG_PC names; ap_ret_reg := RAX_CM_R registers 0; ap_is64 := false |}
  | HEXAGON => Some {| ap_rax_arch := RAX_ARCH_HEXAGON rax; ap_mode := endian;
      ap_sp_reg := RAX_HEX_R registers 29; ap_fp_reg := RAX_HEX_R registers 30;
      ap_lr_reg := RAX_HEX_R registers 31; ap_pc_reg := RAX_HEX_REG_PC names;
      ap_ret_reg := RAX_HEX_R registers 0; ap_is64 := false |}
  | UNSUPPORTED | X86_16 => None
  end.

(** ** The driver *)

(** What the constructor resolves.  The engine is [None] for a null pointer. *)
Record EmuDriver : Type := {
  ed_img : ProgramImage;
  ed_strict_perms : bool;
  ed_abi : ViyAbi;
  ed_params : ArchParams;
  ed_arg_regs : list Z;
  ed_capture_regs : list Z;
  ed_stack_base : Z;
  ed_stack_size : Z;
  ed_sentinel : Z;
  ed_summaries : list EmuCallSummary;
  ed_engine : option E;
  ed_stepping : bool;
  ed_mem_hooks_ok : bool;
  ed_baseline : option bytes
}.

(** [std::tie(address, kind)] *)
Definition summary_lt (a b : EmuCallSummary) : bool :=
  pair_lt Z.ltb Z.ltb (cs_address a, summary_kind_value (cs_kind a))
    (cs_address b, summary_kind_value (cs_kind b)).

Definition same_address (a b : EmuCallSummary) : bool := cs_address a =? cs_address b.

Definition order_summaries (summaries : list EmuCallSummary) : list EmuCallSummary :=
  std_unique same_address (std_sort summary_lt summaries).

Definition add_capture (regs : list Z) (reg : Z) : list Z :=
  if (0 <=? reg) && negb (bool_decide (reg ∈ regs)) then regs ++ [reg] else regs.

Definition kMaxCtx : Z := 512 * 1024 * 1024.

Definition save_baseline (e : E) : option bytes :=
  if negb has_context_save then None
  else
    match context_size e with
    | None => None
    | Some len =>
        if (len =? 0) || (kMaxCtx <? len) then None else context_save len e
    end.

(** The driver before an engine is open. *)
Definition closed_driver (img : ProgramImage) (strict_perms : bool) (abi : ViyAbi) (params : ArchParams)
    (summaries : list EmuCallSummary) : EmuDriver :=
  let arg_regs := al_argument_registers (viy_abi_layout registers abi) in
  let stack_base := viy_scratch_stack_base (ap_is64 params) (im_lo img) (im_hi img) in
  {| ed_img := img; ed_strict_perms := strict_perms; ed_abi := abi; ed_params := params;
     ed_arg_regs := arg_regs;
     ed_capture_regs := foldl add_capture arg_regs
       [ap_sp_reg params; ap_fp_reg params; ap_lr_reg params; ap_pc_reg params; ap_ret_reg params];
     ed_stack_base := stack_base; ed_stack_size := kViyScratchStackSize;
     ed_sentinel := stack_base + kPage; ed_summaries := order_summaries summaries;
     ed_engine := None; ed_stepping := false; ed_mem_hooks_ok := false; ed_baseline := None |}.

Definition open_driver (d : EmuDriver) (stepping : bool) (e : E) : EmuDriver := {|
  ed_img := ed_img d; ed_strict_perms := ed_strict_perms d; ed_abi := ed_abi d;
  ed_params := ed_params d; ed_arg_regs := ed_arg_regs d; ed_capture_regs := ed_capture_regs d;
  ed_stack_base := ed_stack_base d; ed_stack_size := ed_stack_size d; ed_sentinel := ed_sentinel d;
  ed_summaries := ed_summaries d; ed_engine := Some e;
  ed_stepping := stepping; ed_mem_hooks_ok := hook_add_mem e;
  ed_baseline := save_baseline e |}.

(** The constructor; nothing for an image that cannot be driven. *)
Definition new_driver (img : ProgramImage) (strict_perms windows_x64 : bool)
    (summaries : list EmuCallSummary) : option EmuDriver :=
  match arch_params (im_arch img) (im_big_endian img) with
  | None => None
  | Some params =>
      let abi := viy_abi_for_arch (im_arch img) windows_x64 in
      if negb (layout_supported (viy_abi_layout registers abi)) then None
      else
        let d := closed_driver img strict_perms abi params summaries in
        if ed_stack_base d =? 0 then Some d
        else
          match engine_open_config {| rc_arch := ap_rax_arch params; rc_mode := ap_mode params;
                  rc_mem_base := ed_stack_base d; rc_mem_size := ed_stack_size d;
                  rc_mem_perms := RAX_PROT_ALL prots |} with
          | None => Some d
          | Some e =>
              let stepping := engine_supports_stepping e in
              let '(ok, e) := map_image prots strict_perms img e in
              if negb ok then Some d
              else
                let '(ok, e) := map_stack prots strict_perms (ed_stack_base d) (ed_stack_size d) e in
                if negb ok then Some d else Some (open_driver d stepping e)
          end
  end.

Definition can_discover (d : EmuDriver) : bool :=
  match ed_engine d, ed_baseline d with
  | Some _, Some _ => ed_stepping d
  | _, _ => false
  end.

(** ** The entry of a function *)

(** A step of the preparation changes the engine and may fail. *)
Definition Setup : Type := E -> bool * E.

Definition setup_then (first second : Setup) : Setup := fun e =>
  let '(ok, e) := first e in if ok then second e else (false, e).

Definition setup_done : Setup := fun e => (true, e).

Definition setup_all {A} (step : A -> Setup) (items : list A) : Setup :=
  foldr (fun item rest => setup_then (step item) rest) setup_done items.

Definition write_register (reg value : Z) : Setup :=
  if 0 <=? reg then reg_write_u64 reg value else setup_done.

Definition seed_arg_regs (d : EmuDriver) (seed : Z) : Setup :=
  let corpus := viy_seed_argument_corpus seed (zlen (ed_arg_regs d)) (im_lo (ed_img d))
                  (ed_stack_base d) (ed_stack_size d) in
  setup_all (fun rv => reg_write_u64 rv.1 (sv_value rv.2)) (zip (ed_arg_regs d) corpus).

Definition apply_input (d : EmuDriver) (input : EmuInput) (sp : Z) : Setup :=
  let plan := viy_plan_abi_input (viy_abi_layout registers (ed_abi d)) input sp (ed_stack_base d)
                (ed_stack_size d) (im_big_endian (ed_img d)) in
  match pl_error plan with
  | Plan_NONE =>
      setup_then (setup_all (fun w => reg_write_u64 (rw_reg w) (rw_value w)) (pl_registers plan))
        (setup_all (fun w => mem_write (sw_address w) (take (Z.to_nat (sw_size w)) (sw_bytes w)))
           (pl_stack plan))
  | _ => fun e => (false, e)
  end.

Definition restore_state (d : EmuDriver) : Setup := context_restore (default [] (ed_baseline d)).

Definition emulated_64 (d : EmuDriver) : bool :=
  match im_arch (ed_img d) with X86_64 | ARM64 | RISCV64 => true | _ => false end.

(** The stack pointer at the entry. *)
Definition entry_sp (d : EmuDriver) : Z :=
  let align := if emulated_64 d then 0xf else 0x3 in
  let sp := Z.land ((ed_stack_base d + ed_stack_size d - 0x400) mod 2 ^ 64) (Z.lxor u64_max align) in
  match im_arch (ed_img d) with X86_64 => Z.lor sp 8 | _ => sp end.

(** [(uint8_t)((s >> (8 * k)) & 0xFF)] *)
Definition sentinel_bytes (ptr sentinel : Z) : bytes :=
  map (fun k => z2b (Z.land (Z.shiftr sentinel (8 * k)) 255)) (seqZ 0 ptr).

Definition place_sentinel (d : EmuDriver) (sp : Z) : Setup :=
  if 0 <=? ap_lr_reg (ed_params d) then reg_write_u64 (ap_lr_reg (ed_params d)) (ed_sentinel d)
  else mem_write sp (sentinel_bytes (if emulated_64 d then 8 else 4) (ed_sentinel d)).

Definition prepare_entry (d : EmuDriver) (seed : Z) (input : option EmuInput) : Setup :=
  let sp := entry_sp d in
  let seeded := if negb (seed =? 0) then seed_arg_regs d seed else setup_done in
  setup_then (restore_state d)
    (setup_then (write_register (ap_sp_reg (ed_params d)) sp)
      (setup_then (write_register (ap_fp_reg (ed_params d)) sp)
        (setup_then (place_sentinel d sp)
          (setup_then seeded
            (match input with Some input => apply_input d input sp | None => setup_done end))))).

(** ** A run *)

(** [per_run_cap] with a 64-bit [size_t]. *)
Definition per_run_cap (existing allowance : Z) : Z :=
  if u64_max - existing <? allowance then u64_max else existing + allowance.

Definition hook_env (d : EmuDriver) (decode : option (Z -> Z -> Z -> bytes -> Z * rax_decoded))
    (entry func_end : Z) (cfg : ViyConfig) (out : EmuEvents) (record_pcs : bool) (seed run_id : Z) :
    HookEnv := {|
  hk_capture_regs := Some (ed_capture_regs d); hk_summaries := Some (ed_summaries d);
  hk_image := Some (ed_img d); hk_decode := decode; hk_lo := im_lo (ed_img d);
  hk_hi := im_hi (ed_img d); hk_flo := entry;
  hk_fhi := if entry <? func_end then func_end else im_hi (ed_img d);
  hk_func := match function_at (ed_img d) entry with
             | Some f => if fr_start f =? entry then Some f else None
             | None => None
             end;
  hk_stack_lo := ed_stack_base d; hk_stack_hi := ed_stack_base d + ed_stack_size d;
  hk_heap_lo := ed_stack_base d + 0x10000; hk_heap_hi := ed_stack_base d + ed_stack_size d / 2;
  hk_run_id := run_id; hk_seed := seed; hk_sp_reg := ap_sp_reg (ed_params d);
  hk_lr_reg := ap_lr_reg (ed_params d); hk_pc_reg := ap_pc_reg (ed_params d);
  hk_ret_reg := ap_ret_reg (ed_params d); hk_arg_regs := Some (ed_arg_regs d);
  hk_is64 := emulated_64 d; hk_big_endian := im_big_endian (ed_img d);
  hk_stack_argument_offset := al_stack_argument_offset (viy_abi_layout registers (ed_abi d));
  hk_rax_arch := ap_rax_arch (ed_params d); hk_rax_mode := ap_mode (ed_params d);
  hk_register_width := if emulated_64 d then 8 else 4; hk_strict_permissions := ed_strict_perms d;
  hk_record_memory := cfg_want_drefs cfg || cfg_want_runtime_strings cfg || cfg_want_smc_evidence cfg;
  hk_record_pcs := record_pcs;
  hk_edge_cap := per_run_cap (zlen (ee_edges out)) (cfg_max_insns cfg);
  hk_execution_cap := per_run_cap (zlen (ee_execution out)) (cfg_max_insns cfg);
  hk_data_cap := per_run_cap (zlen (ee_data out)) (cfg_max_insns cfg);
  hk_state_cap := per_run_cap (zlen (ee_states out)) (Z.min (cfg_max_insns cfg) 65536) |}.

Definition fresh_ctx (d : EmuDriver) (out : EmuEvents) : HookCtx := {|
  hc_decode_cache := repeat empty_entry 1024; hc_out := out;
  hc_heap_cursor := ed_stack_base d + 0x10000; hc_prev_pc := 0; hc_last_pc := 0;
  hc_summary_source := 0; hc_prev_size := 0; hc_sequence := 0; hc_permission_violation := false;
  hc_terminated_process := false; hc_summary_resume := false; hc_summarized_calls := 0;
  hc_has_prev := false |}.

(** Hooks that are not installed are not called. *)
Definition installed (mem_ok : bool) (env : HookEnv) (event : hook_event) : Hook E unit :=
  match event with
  | Event_mem _ _ _ _ => if mem_ok then hook_step codes rax memcmp env event else hook_return tt
  | _ => hook_step codes rax memcmp env event
  end.

Definition timeout_total (cfg : ViyConfig) : Z :=
  if u64_max / 1000 <? cfg_timeout_ms cfg then u64_max else cfg_timeout_ms cfg * 1000.

(** [emu_icount(engine) - icount_start] *)
Definition used_insns (icount_start : Z) (e : E) : Z := (emu_icount e - icount_start) mod 2 ^ 64.

(** The loop over resumptions; [clock] tells the time elapsed at a turn. *)
Fixpoint resume_loop (turns : nat) (resumptions : nat) (hooks : hook_event -> Hook E unit)
    (d : EmuDriver) (cfg : ViyConfig) (clock : nat -> Z) (icount_start begin : Z)
    (s : HookCtx * E) : HookCtx * E :=
  match turns with
  | O => s
  | S turns =>
      let used := used_insns icount_start s.2 in
      if cfg_max_insns cfg <=? used then s
      else
        let elapsed := clock resumptions in
        if timeout_total cfg <=? elapsed then s
        else
          let '(status, s) := emu_start hooks begin (ed_sentinel d) (timeout_total cfg - elapsed)
                                (cfg_max_insns cfg - used) (clear_resume s.1, s.2) in
          if negb (status =? RAX_OK rax) || negb (hc_summary_resume s.1) then s
          else if ap_pc_reg (ed_params d) <? 0 then s
          else
            match reg_read_u64 (ap_pc_reg (ed_params d)) s.2 with
            | None => s
            | Some begin => resume_loop turns (S resumptions) hooks d cfg clock icount_start begin s
            end
  end.

(** The change of the stack pointer, when it fits a signed number. *)
Definition stack_delta (sp_entry sp_final : Z) : option Z :=
  if (sp_entry <=? sp_final) && (sp_final - sp_entry <=? 2 ^ 63 - 1) then Some (sp_final - sp_entry)
  else if (sp_final <? sp_entry) && (sp_entry - sp_final <=? 2 ^ 63 - 1)
  then Some (- (sp_entry - sp_final))
  else None.

Definition run_outcome (d : EmuDriver) (icount_start sp_entry : Z) (s : HookCtx * E) : EmuOutcome :=
  let exit := emu_last_exit s.2 in
  let returned := match exit with Some (reason, _) => reason =? RAX_STOP_UNTIL codes | None => false end in
  let delta :=
    if returned && (0 <=? ap_sp_reg (ed_params d)) then
      match reg_read_u64 (ap_sp_reg (ed_params d)) s.2 with
      | Some sp_final => stack_delta sp_entry sp_final
      | None => None
      end
    else None in
  {| oc_stop_reason := match exit with Some (reason, _) => reason | None => 0 end;
     oc_stop_pc := match exit with Some (_, address) => address | None => 0 end;
     oc_stop_valid := match exit with Some _ => true | None => false end;
     oc_instruction_count := used_insns icount_start s.2; oc_returned := returned;
     oc_sp_valid := match delta with Some _ => true | None => false end;
     oc_sp_delta := default 0 delta; oc_terminated_process := hc_terminated_process s.1;
     oc_summarized_calls := hc_summarized_calls s.1 |}.

Definition no_outcome : EmuOutcome := {|
  oc_stop_reason := 0; oc_stop_pc := 0; oc_stop_valid := false; oc_instruction_count := 0;
  oc_returned := false; oc_sp_valid := false; oc_sp_delta := 0; oc_terminated_process := false;
  oc_summarized_calls := 0 |}.

(** Outcomes after which the function certainly does not go on. *)
Definition definitive_terminal (outcome : EmuOutcome) : bool :=
  oc_terminated_process outcome || (oc_stop_reason outcome =? RAX_STOP_HLT codes) ||
  (oc_stop_reason outcome =? RAX_STOP_SHUTDOWN codes).

Definition conclusive (outcome : EmuOutcome) : bool := oc_returned outcome || definitive_terminal outcome.

Definition kMaxResumptions : nat := 257.

(** The result, the log and the outcome; and the engine that the driver is left with. *)
Definition emulate_from (d : EmuDriver) (decode : option (Z -> Z -> Z -> bytes -> Z * rax_decoded))
    (entry func_end : Z) (cfg : ViyConfig) (out : EmuEvents) (record_pcs : bool) (seed run_id : Z)
    (input : option EmuInput) (clock : nat -> Z) : bool * EmuEvents * EmuOutcome * option E :=
  match ed_engine d with
  | None => (false, out, no_outcome, None)
  | Some e =>
      if negb (can_discover d) then (false, out, no_outcome, Some e)
      else
        let seed := match input with Some input => in_seed input | None => seed end in
        let run_id := match input with Some input => in_run_id input | None => run_id end in
        let '(ok, e) := prepare_entry d seed input e in
        if negb ok then (false, out, no_outcome, Some e)
        else
          let env := hook_env d decode entry func_end cfg out record_pcs seed run_id in
          let code_ok := hook_add_code e in
          let mem_ok := (hk_record_memory env || ed_strict_perms d) && ed_mem_hooks_ok d && hook_add_mem e in
          if negb code_ok then (false, out, no_outcome, Some e)
          else
            let icount_start := emu_icount e in
            let s := resume_loop kMaxResumptions 0 (installed mem_ok env) d cfg clock icount_start entry
                       (fresh_ctx d out, e) in
            (true, capture_final_writes codes cfg run_id seed (zlen (ee_data out)) (hc_out s.1) s.2,
             run_outcome d icount_start (entry_sp d) s, Some s.2)
  end.

End Driver.
Arguments EmuDriver : clear implicits.

(** ** Theorems: runs *)

Section RunLaws.
Context {E : Type} `{RaxEngineLaws E} `{RaxMapping E} `{RaxDriverLaws E}.
Context (prots : RaxProt) (codes : RaxCodes) (rax : RaxDecoder) (registers : RaxRegisters).
Context (names : RaxRegisterNames) (entry_registers : RaxEntryRegisters).
Context (memcmp : bytes -> bytes -> Z).

#[local] Notation hook_step := (hook_step codes rax memcmp).
#[local] Notation emulate_from := (emulate_from codes rax registers memcmp).
#[local] Notation prepare_entry := (prepare_entry registers).
#[local] Notation hook_env := (hook_env registers).

Implicit Types (d : EmuDriver E).

(** A hook that is not installed is a call that is left out; that of instructions is. *)
Lemma installed_run mem_ok env s events s' :
  hook_run (installed codes rax memcmp mem_ok env) s events s' ->
  exists events', hook_run (hook_step env) s events' s' /\ executed env events' = executed env events.
Proof.
  intros Hrun. induction Hrun as [|events c e guest Hrun [ev [IH Hex]]|events c e Hrun [ev [IH Hex]]|
    events c e event Hrun [ev [IH Hex]]].
  - exists []. split; [constructor|done].
  - exists ev. split; [by apply run_guest with e|done].
  - exists ev. split; [by apply run_resume|done].
  - rewrite executed_snoc. destruct event as [addr size|kind addr size value]; cbn [installed].
    + exists (ev ++ [Event_code addr size]). split; [by apply run_event|]. by rewrite executed_snoc, Hex.
    + destruct mem_ok; [|exists ev; split; [done|]; by rewrite Hex, app_nil_r].
      exists (ev ++ [Event_mem kind addr size value]). split; [by apply run_event|]. by rewrite executed_snoc, Hex.
Qed.

(** The loop is a run that starts no more instructions than the limit. *)
Lemma resume_loop_run turns resumptions hooks d cfg clock icount_start begin c e :
  icount_start <= emu_icount e <= icount_start + cfg_max_insns cfg -> 0 <= icount_start ->
  let s' := resume_loop rax turns resumptions hooks d cfg clock icount_start begin (c, e) in
  (exists events, emu_executed s'.2 = emu_executed e ++ events /\ hook_run hooks (c, e) events s') /\
  icount_start <= emu_icount s'.2 <= icount_start + cfg_max_insns cfg.
Proof.
  cbn zeta. revert resumptions begin c e. induction turns as [|turns IH]; intros resumptions begin c e Hi Hs;
    cbn [resume_loop].
  { split; [exists []; rewrite app_nil_r; split; [done|constructor]|done]. }
  assert (used_insns icount_start e = emu_icount e - icount_start) as Hused.
  { unfold used_insns. pose proof (icount_range e) as Hr. unfold is_u64 in Hr. apply Z.mod_small. lia. }
  cbn [fst snd]. rewrite Hused.
  destruct (Z.leb_spec (cfg_max_insns cfg) (emu_icount e - icount_start));
    [split; [exists []; rewrite app_nil_r; split; [done|constructor]|done]|].
  destruct (timeout_total cfg <=? clock resumptions); [split; [exists []; rewrite app_nil_r; split; [done|constructor]|done]|].
  set (count := cfg_max_insns cfg - (emu_icount e - icount_start)).
  set (timeout := timeout_total cfg - clock resumptions).
  pose proof (emu_start_run hooks begin (ed_sentinel d) timeout count (clear_resume c, e)) as (events1 & Hex1 & Hrun1).
  pose proof (emu_start_count hooks begin (ed_sentinel d) timeout count (clear_resume c, e)
    ltac:(unfold count; lia)) as Hcount.
  destruct (emu_start hooks begin (ed_sentinel d) timeout count (clear_resume c, e)) as [status [c1 e1]].
  cbn [fst snd] in *.
  assert (hook_run hooks (c, e) events1 (c1, e1)) as Hrun.
  { apply (hook_run_trans hooks (c, e) [] (clear_resume c, e)); [|done]. apply run_resume. constructor. }
  assert (icount_start <= emu_icount e1 <= icount_start + cfg_max_insns cfg) as Hi1 by (unfold count in *; lia).
  destruct (negb (status =? RAX_OK rax) || _); [split; [by exists events1|done]|].
  destruct (ap_pc_reg (ed_params d) <? 0); [split; [by exists events1|done]|].
  destruct (reg_read_u64 (ap_pc_reg (ed_params d)) e1) as [next|]; [|split; [by exists events1|done]].
  destruct (IH (S resumptions) next c1 e1 Hi1 Hs) as [(events2 & Hex2 & Hrun2) Hcount2]. split; [|done].
  exists (events1 ++ events2). split; [by rewrite Hex2, Hex1, app_assoc|by eapply hook_run_trans].
Qed.

Lemma per_run_cap_bound existing allowance :
  0 <= existing <= u64_max -> 0 <= allowance ->
  existing <= per_run_cap existing allowance <= existing + allowance.
Proof. intros Hx Ha. unfold per_run_cap. destruct (Z.ltb_spec (u64_max - existing) allowance); lia. Qed.

(** The memory hook is installed when memory is recorded or permissions are enforced. *)
Definition memory_hooked d (env : HookEnv) (e : E) : bool :=
  (hk_record_memory env || ed_strict_perms d) && ed_mem_hooks_ok d && hook_add_mem e.

Lemma emulate_from_inv d decode entry func_end cfg out record_pcs seed run_id input clock out' outcome e' :
  emulate_from d decode entry func_end cfg out record_pcs seed run_id input clock = (true, out', outcome, e') ->
  let seed' := match input with Some input => in_seed input | None => seed end in
  let run_id' := match input with Some input => in_run_id input | None => run_id end in
  let env := hook_env d decode entry func_end cfg out record_pcs seed' run_id' in
  exists engine0 e, ed_engine d = Some engine0 /\ prepare_entry d seed' input engine0 = (true, e) /\
    let s := resume_loop rax kMaxResumptions 0 (installed codes rax memcmp (memory_hooked d env e) env)
               d cfg clock (emu_icount e) entry (fresh_ctx d out, e) in
    out' = capture_final_writes codes cfg run_id' seed' (zlen (ee_data out)) (hc_out s.1) s.2 /\
    outcome = run_outcome codes d (emu_icount e) (entry_sp d) s /\ e' = Some s.2.
Proof.
  unfold EmuDriver.emulate_from. destruct (ed_engine d) as [engine0|] eqn:He; [|done].
  destruct (can_discover d); [|done]. cbn [negb]. cbn zeta.
  set (seed' := match input with Some input => in_seed input | None => seed end).
  set (run_id' := match input with Some input => in_run_id input | None => run_id end).
  destruct (prepare_entry d seed' input engine0) as [ok e] eqn:Hp. destruct ok; cbn [negb]; [|done].
  destruct (hook_add_code e); cbn [negb]; [|done].
  fold (memory_hooked d (hook_env d decode entry func_end cfg out record_pcs seed' run_id') e).
  set (s := resume_loop _ _ _ _ _ _ _ _ _ _). intros Heq. injection Heq as Hout Houtcome He'.
  exists engine0, e. split; [done|]. split; [exact Hp|]. fold s.
  split; [by rewrite <- Hout|split; [by rewrite <- Houtcome|by rewrite <- He']].
Qed.

(** What the first start of the guest executes is executed in the call. *)
Lemma resume_loop_starts turns hooks d cfg clock begin c e :
  0 < cfg_max_insns cfg -> clock 0%nat < timeout_total cfg ->
  let first := emu_start hooks begin (ed_sentinel d) (timeout_total cfg - clock 0%nat) (cfg_max_insns cfg)
                 (clear_resume c, e) in
  emu_executed first.2.2 `prefix_of`
    emu_executed (resume_loop rax (S turns) 0 hooks d cfg clock (emu_icount e) begin (c, e)).2.
Proof.
  intros Hmax Htime. cbn zeta. cbn [resume_loop fst snd].
  unfold used_insns at 1 2. rewrite Z.sub_diag, Z.mod_0_l, Z.sub_0_r by lia.
  rewrite (proj2 (Z.leb_gt _ _)) by lia. rewrite (proj2 (Z.leb_gt _ _)) by lia.
  pose proof (emu_start_count hooks begin (ed_sentinel d) (timeout_total cfg - clock 0%nat) (cfg_max_insns cfg)
    (clear_resume c, e) ltac:(lia)) as Hcount.
  destruct (emu_start _ _ _ _ _ _) as [status [c1 e1]]. cbn [fst snd] in *.
  destruct (_ || _); [done|]. destruct (ap_pc_reg (ed_params d) <? 0); [done|].
  destruct (reg_read_u64 _ e1) as [next|]; [|done].
  pose proof (icount_range e). unfold is_u64 in *.
  destruct (resume_loop_run turns 1 hooks d cfg clock (emu_icount e) next c1 e1) as [(events & -> & _) _]; [lia|lia|].
  by apply prefix_app_r.
Qed.

(** The edge belongs to the run: its source is in the function and its target in the
    image. *)
Definition edge_belongs (env : HookEnv) (edge : ExecEdge) : Prop :=
  hook_in_function env (edge_from edge) = true /\ hk_lo env <= edge_to edge < hk_hi env /\
  edge_run_id edge = hk_run_id env /\ edge_seed edge = hk_seed env.

Lemma transfers_belong env instructions core :
  core ∈ transfers rax env instructions ->
  exists pc addr kind, core = (pc, addr, kind, hk_run_id env, hk_seed env) /\
    hook_in_function env pc = true /\ hk_lo env <= addr < hk_hi env.
Proof.
  induction instructions as [|[pc size] rest IH]; cbn [transfers]; [intros []%not_elem_of_nil|].
  destruct rest as [|[addr size'] rest]; [intros []%not_elem_of_nil|].
  intros [Hin|Hin]%elem_of_app; [|by apply IH].
  destruct (is_transfer rax env pc size addr) eqn:Ht; [|by apply not_elem_of_nil in Hin].
  apply list_elem_of_singleton in Hin as ->. exists pc, addr, (decoded_at rax env pc).2.
  split; [done|]. unfold is_transfer, in_image in Ht.
  apply andb_true_iff in Ht as [[[Hlo%Z.leb_le Hhi%Z.ltb_lt]%andb_true_iff Hf]%andb_true_iff _].
  split; [done|lia].
Qed.

(** The sizes of the logs that a call is given. *)
Definition log_sizes_ok (out : EmuEvents) : Prop :=
  zlen (ee_edges out) <= u64_max /\ zlen (ee_execution out) <= u64_max /\ zlen (ee_data out) <= u64_max /\
  zlen (ee_states out) <= u64_max.

(** The run behind a call, with its log before the final memory is captured. *)
Lemma emulated_run d decode entry func_end cfg out record_pcs seed run_id input clock out' outcome e' :
  0 <= cfg_max_insns cfg -> log_sizes_ok out ->
  emulate_from d decode entry func_end cfg out record_pcs seed run_id input clock = (true, out', outcome, e') ->
  let seed' := match input with Some input => in_seed input | None => seed end in
  let run_id' := match input with Some input => in_run_id input | None => run_id end in
  let env := hook_env d decode entry func_end cfg out record_pcs seed' run_id' in
  exists engine0 engine engine' events c,
    ed_engine d = Some engine0 /\ prepare_entry d seed' input engine0 = (true, engine) /\ e' = Some engine' /\
    emu_executed engine' = emu_executed engine ++ events /\
    (0 < cfg_max_insns cfg -> clock 0%nat < timeout_total cfg ->
     emu_executed (emu_start (installed codes rax memcmp (memory_hooked d env engine) env) entry (ed_sentinel d)
       (timeout_total cfg - clock 0%nat) (cfg_max_insns cfg) (fresh_ctx d out, engine)).2.2
       `prefix_of` emu_executed engine') /\
    logs_exact rax env (fresh_ctx d out) events c /\ bounded env (fresh_ctx d out) c /\
    zlen (ee_data (hc_out c)) <= zlen (ee_data out) + cfg_max_insns cfg /\
    out' = capture_final_writes codes cfg run_id' seed' (zlen (ee_data out)) (hc_out c) engine' /\
    0 <= oc_instruction_count outcome <= cfg_max_insns cfg.
Proof.
  intros Hmax (Hse & Hsx & Hsd & _) Hr. cbn zeta.
  apply emulate_from_inv in Hr as (engine0 & e & He0 & Hprep & Hout & Houtcome & He'). cbn zeta in Hout, Houtcome, He'.
  set (seed' := match input with Some input => in_seed input | None => seed end) in *.
  set (run_id' := match input with Some input => in_run_id input | None => run_id end) in *.
  set (env := hook_env d decode entry func_end cfg out record_pcs seed' run_id') in *.
  set (hooks := installed codes rax memcmp (memory_hooked d env e) env) in *.
  pose proof (icount_range e) as Hi. unfold is_u64 in Hi.
  destruct (resume_loop_run kMaxResumptions 0 hooks d cfg clock (emu_icount e)
    entry (fresh_ctx d out) e) as [(events & Hex & Hrun0) Hcount]; [lia|lia|].
  pose proof (resume_loop_starts 256 hooks d cfg clock entry (fresh_ctx d out) e) as Hfirst. cbn zeta in Hfirst.
  change (clear_resume (fresh_ctx d out)) with (fresh_ctx d out) in Hfirst.
  set (s := resume_loop _ _ _ _ _ _ _ _ _ _) in *. clearbody s. destruct s as [c engine']. cbn [fst snd] in *.
  apply installed_run in Hrun0 as (events' & Hrun & Hsame).
  pose proof (zlen_nonneg (ee_edges out)). pose proof (zlen_nonneg (ee_execution out)).
  pose proof (zlen_nonneg (ee_data out)).
  pose proof (per_run_cap_bound (zlen (ee_edges out)) (cfg_max_insns cfg) ltac:(lia) Hmax).
  pose proof (per_run_cap_bound (zlen (ee_execution out)) (cfg_max_insns cfg) ltac:(lia) Hmax).
  pose proof (per_run_cap_bound (zlen (ee_data out)) (cfg_max_insns cfg) ltac:(lia) Hmax).
  assert (zlen (ee_data (hc_out (fresh_ctx d out))) <= hk_data_cap env) as Hcap by (cbn; lia).
  destruct (run_logged codes rax memcmp env (fresh_ctx d out) e events' (c, engine')) as (n & _ & _ & Hdata & _);
    [apply cache_ok_empty|done|done|]. cbn [fst] in Hdata.
  exists engine0, e, engine', events, c. split_and!; [done..|exact Hfirst| | | |done| | ].
  - apply (logs_exact_executed rax env _ events'); [done|].
    apply (run_logs_exact_general codes rax memcmp env (fresh_ctx d out) e events' (c, engine'));
      [done|apply cache_ok_empty|cbn; lia|cbn; lia|done].
  - apply (run_bounded codes rax memcmp env (fresh_ctx d out) e events' (c, engine'));
      [apply cache_ok_empty|done|done].
  - change (hk_data_cap env) with (per_run_cap (zlen (ee_data out)) (cfg_max_insns cfg)) in Hdata. lia.
  - rewrite Houtcome. cbn. apply Z.mod_pos_bound. lia.
  - rewrite Houtcome. cbn. unfold used_insns. rewrite Z.mod_small; [lia|].
    pose proof (icount_range engine') as Hi'. unfold is_u64 in Hi'. lia.
Qed.

Lemma capture_final_writes_others cfg run_id seed data_begin log (e : E) :
  let log' := capture_final_writes codes cfg run_id seed data_begin log e in
  ee_edges log' = ee_edges log /\ ee_execution log' = ee_execution log /\ ee_data log' = ee_data log /\
  ee_states log' = ee_states log /\ ee_exec_pcs log' = ee_exec_pcs log.
Proof. unfold capture_final_writes. by destruct (_ || _). Qed.

(** C4: what a call of [emulate_from] reports is exactly what the guest executed in it.
    Between the prepared entry [engine] and the engine that the driver is left with, the
    engine executed [events], and at least what its first start from the entry executes.
    The edges after the call are those before it and then the transfers between
    consecutive instructions of [events] that leave the function for the image, in their
    order and up to the cap; the executed points and the set of program counters are
    exact likewise; and every edge that was not there before starts in the function, ends
    in the image and carries the run and the seed of the call. *)
Theorem emulation_logs_exact d decode entry func_end cfg out record_pcs seed run_id input clock out' outcome e' :
  0 <= cfg_max_insns cfg -> log_sizes_ok out ->
  emulate_from d decode entry func_end cfg out record_pcs seed run_id input clock = (true, out', outcome, e') ->
  let seed' := match input with Some input => in_seed input | None => seed end in
  let run_id' := match input with Some input => in_run_id input | None => run_id end in
  let env := hook_env d decode entry func_end cfg out record_pcs seed' run_id' in
  exists engine0 engine engine' events,
    ed_engine d = Some engine0 /\ prepare_entry d seed' input engine0 = (true, engine) /\ e' = Some engine' /\
    emu_executed engine' = emu_executed engine ++ events /\
    (0 < cfg_max_insns cfg -> clock 0%nat < timeout_total cfg ->
     emu_executed (emu_start (installed codes rax memcmp (memory_hooked d env engine) env) entry (ed_sentinel d)
       (timeout_total cfg - clock 0%nat) (cfg_max_insns cfg) (fresh_ctx d out, engine)).2.2
       `prefix_of` emu_executed engine') /\
    map edge_core (ee_edges out') = take (Z.to_nat (hk_edge_cap env))
      (map edge_core (ee_edges out) ++ transfers rax env (executed env events)) /\
    map point_core (ee_execution out') = take (Z.to_nat (hk_execution_cap env))
      (map point_core (ee_execution out) ++ image_points env (executed env events)) /\
    ee_exec_pcs out' ⊆ ee_exec_pcs out ∪ function_pcs env (executed env events) /\
    (record_pcs = true -> Z.of_nat (size (ee_exec_pcs out')) < hk_edge_cap env ->
     ee_exec_pcs out' = ee_exec_pcs out ∪ function_pcs env (executed env events)) /\
    forall edge, edge ∈ ee_edges out' ->
      edge_core edge ∈ map edge_core (ee_edges out) \/ edge_belongs env edge.
Proof.
  intros Hmax Hsizes Hr. cbn zeta.
  destruct (emulated_run _ _ _ _ _ _ _ _ _ _ _ _ _ _ Hmax Hsizes Hr)
    as (engine0 & e & engine' & events & c & He0 & Hprep & He' & Hex & Hfirst & Hlogs & _ & _ & Hout & _).
  cbn zeta in *. set (env := hook_env _ _ _ _ _ _ _ _ _) in *.
  destruct (capture_final_writes_others cfg (match input with Some input => in_run_id input | None => run_id end)
    (match input with Some input => in_seed input | None => seed end) (zlen (ee_data out)) (hc_out c) engine')
    as (He & Hx & _ & _ & Hp). rewrite <- Hout in He, Hx, Hp.
  exists engine0, e, engine', events.
  pose proof (le_edges _ _ _ _ _ Hlogs) as Hedges. cbn [fresh_ctx hc_out] in Hedges.
  split_and!; [done..|by rewrite He|rewrite Hx; apply (le_execution _ _ _ _ _ Hlogs)|
    rewrite Hp; apply (le_sound _ _ _ _ _ Hlogs)|rewrite Hp; apply (le_complete _ _ _ _ _ Hlogs)|].
  intros edge Hin. rewrite He in Hin.
  assert (edge_core edge ∈ map edge_core (ee_edges (hc_out c))) as Hcore by (by apply list_elem_of_fmap_2).
  rewrite Hedges in Hcore. apply elem_of_take in Hcore as (i & Hcore & _).
  apply list_elem_of_lookup_2, elem_of_app in Hcore as [Hold|Hnew]; [by left|right].
  apply transfers_belong in Hnew as (pc & addr & kind & Heq & Hf & Ha).
  destruct edge as [from to run sd k sq]. injection Heq as -> -> _ ->. done.
Qed.

(** C35: a call keeps its budget.  It starts at most [max_insns] instructions, over all
    resumptions, and adds at most as many edges, executed points and accesses to the
    logs, and at most as many register states, but never more than 65536; it adds program
    counters only while there are fewer of them than edges were allowed; and the memory it
    captures at the end has at most the configured number of bytes. *)
Theorem emulation_budget d decode entry func_end cfg out record_pcs seed run_id input clock out' outcome e' :
  0 <= cfg_max_insns cfg -> 0 <= cfg_max_runtime_bytes cfg -> log_sizes_ok out ->
  emulate_from d decode entry func_end cfg out record_pcs seed run_id input clock = (true, out', outcome, e') ->
  0 <= oc_instruction_count outcome <= cfg_max_insns cfg /\
  zlen (ee_edges out') <= zlen (ee_edges out) + cfg_max_insns cfg /\
  zlen (ee_execution out') <= zlen (ee_execution out) + cfg_max_insns cfg /\
  zlen (ee_data out') <= zlen (ee_data out) + cfg_max_insns cfg /\
  zlen (ee_states out') <= zlen (ee_states out) + Z.min (cfg_max_insns cfg) 65536 /\
  Z.of_nat (size (ee_exec_pcs out')) <=
    Z.max (Z.of_nat (size (ee_exec_pcs out))) (zlen (ee_edges out) + cfg_max_insns cfg) /\
  exists writes, ee_final_writes out' = ee_final_writes out ++ writes /\
    total_bytes writes <= cfg_max_runtime_bytes cfg.
Proof.
  intros Hmax Hbytes Hsizes Hr. pose proof Hsizes as (Hse & Hsx & Hsd & Hss).
  destruct (emulated_run _ _ _ _ _ _ _ _ _ _ _ _ _ _ Hmax Hsizes Hr)
    as (engine0 & e & engine' & events & c & _ & _ & _ & _ & _ & Hlogs & (Hst & Hpcs & Hfinal) & Hdata & Hout & Hcount).
  cbn zeta in *. set (env := hook_env _ _ _ _ _ _ _ _ _) in *.
  destruct (capture_final_writes_others cfg (match input with Some input => in_run_id input | None => run_id end)
    (match input with Some input => in_seed input | None => seed end) (zlen (ee_data out)) (hc_out c) engine')
    as (He & Hx & Hd & Hs & Hp).
  destruct (capture_final_writes_budget codes cfg (match input with Some input => in_run_id input | None => run_id end)
    (match input with Some input => in_seed input | None => seed end) (zlen (ee_data out)) (hc_out c) engine' Hbytes)
    as (writes & Hw & Htotal). rewrite <- Hout in He, Hx, Hd, Hs, Hp, Hw.
  assert (forall A B (f : A -> B) l n m rest, map f l = take (Z.to_nat n) rest -> n <= m -> 0 <= m -> zlen l <= m) as Htake.
  { intros A B f l n m rest Heq Hle Hm. unfold zlen. rewrite <- (length_map f), Heq, length_take. lia. }
  pose proof (zlen_nonneg (ee_edges out)). pose proof (zlen_nonneg (ee_execution out)).
  pose proof (zlen_nonneg (ee_states out)).
  pose proof (per_run_cap_bound (zlen (ee_edges out)) (cfg_max_insns cfg) ltac:(lia) Hmax).
  pose proof (per_run_cap_bound (zlen (ee_execution out)) (cfg_max_insns cfg) ltac:(lia) Hmax).
  pose proof (per_run_cap_bound (zlen (ee_states out)) (Z.min (cfg_max_insns cfg) 65536) ltac:(lia) ltac:(lia)).
  cbn in Hst, Hpcs, Hfinal. rewrite Hfinal in Hw. rewrite He, Hx, Hd, Hs, Hp. split_and!; [lia|lia| | |done|lia|lia|by exists writes].
  - eapply Htake; [exact (le_edges _ _ _ _ _ Hlogs)|cbn; lia|lia].
  - eapply Htake; [exact (le_execution _ _ _ _ _ Hlogs)|cbn; lia|lia].
Qed.

End RunLaws.

(** ** Theorems: the entry of a function *)

Section Entry.
Context {E : Type} `{RaxEngineLaws E} `{RaxMapping E} `{RaxDriverEngine E}.
Context (prots : RaxProt) (rax : RaxDecoder) (registers : RaxRegisters).
Context (names : RaxRegisterNames) (entry_registers : RaxEntryRegisters).

#[local] Notation new_driver := (new_driver prots rax registers names entry_registers).
#[local] Notation prepare_entry := (prepare_entry registers).

Implicit Types (d : EmuDriver E) (e : E).

Lemma setup_then_inv (first second : Setup) e e' :
  setup_then first second e = (true, e') -> exists e1, first e = (true, e1) /\ second e1 = (true, e').
Proof. unfold setup_then. destruct (first e) as [[] e1]; [|done]. by exists e1. Qed.

(** Registers that are apart from what a step writes, and memory, are unchanged. *)
Definition only_registers (written : list Z) (e e' : E) : Prop :=
  unchanged (byte_at e) (byte_at e') /\
  forall other, Forall (fun reg => independent reg other) written ->
    reg_read_u64 other e' = reg_read_u64 other e.

Lemma reg_write_only reg value e e' :
  reg_write_u64 reg value e = (true, e') ->
  only_registers [reg] e e' /\ reg_read_u64 reg e' = Some (value mod 2 ^ register_bits reg).
Proof.
  intros (Hv & Ho & Hm)%reg_write_law. split; [|done]. split; [done|].
  intros other Hall. apply Ho. by apply List.Forall_cons_iff in Hall as [? _].
Qed.

Lemma write_register_only reg value e e' :
  write_register reg value e = (true, e') ->
  only_registers [reg] e e' /\
  (0 <= reg -> reg_read_u64 reg e' = Some (value mod 2 ^ register_bits reg)).
Proof.
  unfold write_register. destruct (Z.leb_spec 0 reg).
  - intros [Ho Hv]%reg_write_only. by split.
  - intros [= <-]. split; [by split|lia].
Qed.

Lemma setup_all_only {A} (reg value : A -> Z) items e e' :
  setup_all (fun item => reg_write_u64 (reg item) (value item)) items e = (true, e') ->
  only_registers (map reg items) e e'.
Proof.
  revert e. induction items as [|item items IH]; intros e; cbn [setup_all foldr].
  { intros [= <-]. by split. }
  intros (e1 & [[Hm Ho] _]%reg_write_only & Hr)%setup_then_inv. apply IH in Hr as [Hm' Ho'].
  split; [intros x; by rewrite Hm', Hm|]. intros other [Hreg Hall]%List.Forall_cons_iff.
  rewrite Ho' by done. apply Ho. by repeat constructor.
Qed.

Lemma seed_arg_regs_only d seed e e' :
  seed_arg_regs d seed e = (true, e') -> only_registers (ed_arg_regs d) e e'.
Proof.
  unfold seed_arg_regs. intros Hs. apply setup_all_only in Hs as [Hm Ho]. split; [done|].
  intros other Hall. apply Ho. rewrite Forall_forall in Hall. apply Forall_forall.
  intros reg (rv & -> & Hin)%list_elem_of_fmap. apply Hall. destruct rv as [reg value].
  by apply elem_of_zip_l in Hin.
Qed.

(** The calling convention fixes the alignment of the stack pointer at an entry. *)
Definition entry_aligned (arch : ViyArch) (sp : Z) : Prop :=
  match arch with
  | X86_64 => sp mod 16 = 8
  | ARM64 | RISCV64 => sp mod 16 = 0
  | _ => sp mod 4 = 0
  end.

Definition pointer_size d : Z := if emulated_64 d then 8 else 4.

Lemma scratch_base_cases is64 lo hi :
  viy_scratch_stack_base is64 lo hi <> 0 ->
  viy_scratch_stack_base is64 lo hi ∈
    (if is64 then [0x00007ffd00000000; 0x0000600000000000; 0x0000000120000000]
     else [0x70000000; 0x50000000; 0x10000000]).
Proof.
  unfold viy_scratch_stack_base. destruct (List.find _ _) as [base|] eqn:Hf; [|done]. intros _.
  by apply find_some_elem in Hf as [Hin _].
Qed.

(** What the constructor fixes. *)
Lemma new_driver_inv img strict windows summaries d :
  new_driver img strict windows summaries = Some d ->
  ed_img d = img /\ ed_stack_base d = viy_scratch_stack_base (emulated_64 d) (im_lo img) (im_hi img) /\
  ed_stack_size d = kViyScratchStackSize /\ ed_sentinel d = ed_stack_base d + kPage /\
  im_arch img <> UNSUPPORTED /\ im_arch img <> X86_16.
Proof.
  unfold EmuDriver.new_driver. destruct (arch_params _ _ _ _ _ _) as [params|] eqn:Hp; [|done].
  destruct (layout_supported _); cbn [negb]; [|done]. cbn zeta.
  set (d0 := closed_driver _ _ _ _ _ _).
  assert (ap_is64 params = emulated_64 d0 /\ im_arch img <> UNSUPPORTED /\ im_arch img <> X86_16) as (H64 & Hu & H16).
  { unfold emulated_64. cbn. unfold arch_params in Hp. destruct (im_arch img); simplify_eq; done. }
  assert (ed_img d0 = img /\ ed_stack_base d0 = viy_scratch_stack_base (emulated_64 d0) (im_lo img) (im_hi img) /\
    ed_stack_size d0 = kViyScratchStackSize /\ ed_sentinel d0 = ed_stack_base d0 + kPage) as Hd0
    by (rewrite <- H64; done).
  destruct (ed_stack_base d0 =? 0); [intros [= <-]; tauto|].
  destruct (engine_open_config _) as [e|]; [|intros [= <-]; tauto].
  destruct (map_image _ _ _ e) as [[] e1]; cbn [negb]; [|intros [= <-]; tauto].
  destruct (map_stack _ _ _ _ e1) as [[] e2]; cbn [negb]; [|intros [= <-]; tauto].
  intros [= <-]. unfold emulated_64 in *. cbn in *. tauto.
Qed.

Lemma entry_sp_bounds img strict windows summaries d :
  new_driver img strict windows summaries = Some d -> ed_stack_base d <> 0 ->
  entry_aligned (im_arch img) (entry_sp d) /\
  ed_stack_base d <= entry_sp d /\ entry_sp d + 0x3f0 <= ed_stack_base d + ed_stack_size d /\
  0 <= ed_sentinel d < 2 ^ (8 * pointer_size d).
Proof.
  intros Hd Hbase. apply new_driver_inv in Hd as (Himg & Hb & Hs & Hsent & Hu & H16).
  rewrite Hb in Hbase. apply scratch_base_cases in Hbase. rewrite <- Hb in Hbase.
  unfold entry_sp, pointer_size. rewrite Hsent, Hs, Himg. unfold emulated_64 in *. rewrite Himg in *.
  clear Hb Hs Hsent. generalize dependent (ed_stack_base d). intros base Hbase.
  destruct (im_arch img); try done; cbn [entry_aligned] in *;
    repeat (apply elem_of_cons in Hbase as [->|Hbase]); try (by apply not_elem_of_nil in Hbase);
    vm_compute; repeat split; congruence.
Qed.

Lemma little_endian_value v i n :
  0 <= i -> 0 <= v ->
  word_value false (map (fun k => z2b (Z.land (Z.shiftr v (8 * k)) 255)) (seqZ i (Z.of_nat n))) =
  Z.shiftr v (8 * i) mod 2 ^ (8 * Z.of_nat n).
Proof.
  revert i. induction n as [|n IH]; intros i Hi Hv.
  { cbn. by rewrite Z.mod_1_r. }
  rewrite seqZ_cons by lia. cbn [map]. rewrite word_value_le_cons.
  replace (Z.succ i) with (i + 1) by lia. replace (Z.pred (Z.of_nat (S n))) with (Z.of_nat n) by lia.
  rewrite IH by lia. rewrite b2z_z2b. change 255 with (Z.ones 8). rewrite Z.land_ones by lia.
  change (2 ^ 8) with 256. rewrite Z.mod_mod by lia.
  replace (8 * (i + 1)) with (8 * i + 8) by lia. rewrite <- Z.shiftr_shiftr by lia.
  rewrite (Z.shiftr_div_pow2 _ 8) by lia. change (2 ^ 8) with 256.
  replace (8 * Z.of_nat (S n)) with (8 + 8 * Z.of_nat n) by lia. rewrite Z.pow_add_r by lia.
  change (2 ^ 8) with 256. set (w := Z.shiftr v (8 * i)).
  rewrite (Z.rem_mul_r w 256) by (lia || apply Z.pow_pos_nonneg; lia). lia.
Qed.

Lemma sentinel_bytes_value ptr sentinel :
  0 <= ptr -> 0 <= sentinel < 2 ^ (8 * ptr) ->
  zlen (sentinel_bytes ptr sentinel) = ptr /\ word_value false (sentinel_bytes ptr sentinel) = sentinel.
Proof.
  intros Hp Hs. unfold sentinel_bytes. split.
  - unfold zlen. rewrite length_map, length_seqZ. lia.
  - rewrite <- (Z2Nat.id ptr) by done. rewrite little_endian_value by lia.
    rewrite Z.mul_0_r, Z.shiftr_0_r, Z.mod_small; [done|]. by rewrite Z2Nat.id.
Qed.

(** The entry of a function is what its caller would have left.  On every driven
    architecture, starting from the restored snapshot ([clean]): the stack pointer has
    the alignment of the calling convention at an entry and lies in the scratch stack with
    room above it; the return address, in the link register or in the word at the stack
    pointer, is the sentinel; nothing else in memory is changed, whatever the seed. *)
Theorem entry_state_conventional img strict windows summaries d seed e e' :
  new_driver img strict windows summaries = Some d -> ed_stack_base d <> 0 ->
  0 <= ap_sp_reg (ed_params d) ->
  Forall (fun reg => independent reg (ap_sp_reg (ed_params d)))
    (ap_fp_reg (ed_params d) :: ap_lr_reg (ed_params d) :: ed_arg_regs d) ->
  Forall (fun reg => independent reg (ap_lr_reg (ed_params d))) (ed_arg_regs d) ->
  prepare_entry d seed None e = (true, e') ->
  let sp := entry_sp d in
  entry_aligned (im_arch img) sp /\
  ed_stack_base d <= sp /\ sp + 0x3f0 <= ed_stack_base d + ed_stack_size d /\
  reg_read_u64 (ap_sp_reg (ed_params d)) e' = Some (sp mod 2 ^ register_bits (ap_sp_reg (ed_params d))) /\
  exists clean, restore_state d e = (true, clean) /\
    if 0 <=? ap_lr_reg (ed_params d) then
      reg_read_u64 (ap_lr_reg (ed_params d)) e' =
        Some (ed_sentinel d mod 2 ^ register_bits (ap_lr_reg (ed_params d))) /\
      unchanged (byte_at clean) (byte_at e')
    else exists word, zlen word = pointer_size d /\ word_value false word = ed_sentinel d /\
      stored (byte_at clean) sp word (byte_at e').
Proof.
  intros Hd Hbase Hsp Hind Hargs Hp. cbn zeta.
  destruct (entry_sp_bounds _ _ _ _ _ Hd Hbase) as (Hal & Hlo & Hhi & Hsent).
  apply List.Forall_cons_iff in Hind as [Hfp Hind]. apply List.Forall_cons_iff in Hind as [Hlr Hind].
  unfold EmuDriver.prepare_entry in Hp.
  apply setup_then_inv in Hp as (clean & Hclean & Hp).
  apply setup_then_inv in Hp as (e1 & [[Hm1 _] Hv1]%write_register_only & Hp).
  apply setup_then_inv in Hp as (e2 & [[Hm2 Ho2] _]%write_register_only & Hp).
  apply setup_then_inv in Hp as (e3 & H3 & Hp).
  apply setup_then_inv in Hp as (e4 & H4 & Hp). injection Hp as <-.
  assert (only_registers (ed_arg_regs d) e3 e4) as [Hm4 Ho4].
  { destruct (negb (seed =? 0)); [by apply seed_arg_regs_only in H4|]. injection H4 as <-. by split. }
  split; [done|]. split; [done|]. split; [done|]. unfold place_sentinel in H3.
  destruct (Z.leb_spec 0 (ap_lr_reg (ed_params d))).
  - apply reg_write_only in H3 as [[Hm3 Ho3] Hv3]. split.
    + rewrite Ho4, Ho3, Ho2 by (done || by repeat constructor). by apply Hv1.
    + exists clean. split; [done|]. split; [by rewrite Ho4|].
      intros x. by rewrite Hm4, Hm3, Hm2, Hm1.
  - apply stored_of_write in H3 as [Hst Hregs]. split.
    + rewrite Ho4, Hregs, Ho2 by (done || by repeat constructor). by apply Hv1.
    + exists clean. split; [done|]. eexists. fold (pointer_size d) in Hst.
      destruct (sentinel_bytes_value (pointer_size d) (ed_sentinel d)) as [Hlen Hval];
        [unfold pointer_size; by destruct (emulated_64 d)|done|].
      split; [exact Hlen|]. split; [exact Hval|]. intros x. rewrite Hm4, Hst.
      by destruct (placed _ _ x); [|rewrite Hm2, Hm1].
Qed.

End Entry.

(** ** Runs of the reference machine *)

Module DriverRuns.
Import Reference SummaryRuns HookRuns.

(** The machine of [Reference], with a record of what the guest did, as the engine of a
    driver: the snapshot is a machine with a string, the counter of instructions a register
    that no architecture has, and the guest calls a function at 0x1108 from the instruction
    where it starts, then returns. *)
Definition Traced : Type := (Machine * list hook_event)%type.

#[local] Instance traced_engine : RaxEngine Traced := {
  reg_read_u64 reg e := reg_read_u64 reg e.1;
  reg_write_u64 reg value e := let '(ok, m) := reg_write_u64 reg value e.1 in (ok, (m, e.2));
  has_mem_read := true;
  mem_read address size e := mem_read address size e.1;
  mem_write address bs e := let '(ok, m) := mem_write address bs e.1 in (ok, (m, e.2));
  emu_stop e := (emu_stop e.1, e.2)
}.

#[local, refine] Instance traced_laws : RaxEngineLaws Traced := {
  byte_at e x := byte_at e.1 x;
  register_bits reg := 64;
  independent reg other := reg <> other
}.
Proof.
  - intros reg e value. apply (reg_read_range (E := Machine)).
  - intros address size e bs. apply (mem_read_law (E := Machine)).
  - intros address bs [m t] [m' t'] [= Hm _]. apply (mem_write_law (E := Machine) address bs m m'). by rewrite <- Hm.
  - intros reg value [m t] [m' t'] [= Hm _]. destruct (reg_write_law (E := Machine) reg value m m') as (H1 & H2 & H3);
      [by rewrite <- Hm|]. exact (conj H1 (conj H2 H3)).
  - intros e. apply (emu_stop_law (E := Machine)).
Defined.

Definition counter : Z := -1000.

Definition insns (e : Traced) : Z := default 0 (e.1.2 !! counter) mod 2 ^ 64.

(** The engine after the three instructions from [begin] on. *)
Definition three (begin : Z) : list hook_event :=
  [Event_code begin 0; Event_code 0x1108 1; Event_code 0x1109 1].

Definition count_three (begin : Z) (before e : Traced) : Traced :=
  ((e.1.1, <[counter := insns before + 3]> e.1.2), before.2 ++ three begin).

#[local] Instance machine_mapping : RaxMapping Traced := {
  mem_map base len prot e := (true, e);
  mem_protect base len prot e := (true, e)
}.

#[local] Instance machine_driver : RaxDriverEngine Traced := {
  engine_open_config cfg := Some ((∅, ∅), []);
  engine_supports_stepping e := true;
  hook_add_code e := true;
  hook_add_mem e := true;
  hook_add_invalid e := true;
  has_context_save := true;
  context_size e := Some 16;
  context_save len e := Some (repeat x00 16);
  context_restore bs e := (true, (machine 0 0 0, e.2));
  emu_icount e := insns e;
  emu_start hooks begin until timeout count s :=
    if (3 <=? count) && (insns s.2 + 3 <? 2 ^ 64) then
      let s1 := (hooks (Event_code begin 0) s).2 in
      let s2 := (hooks (Event_code 0x1108 1) s1).2 in
      let s3 := (hooks (Event_code 0x1109 1) s2).2 in
      (0, (s3.1, count_three begin s.2 s3.2))
    else (0, s);
  emu_last_exit e := Some (1, 0x1234)
}.

Lemma insns_range e : 0 <= insns e < 2 ^ 64.
Proof. apply Z.mod_pos_bound. reflexivity. Qed.

Lemma insns_counted begin before e :
  insns before + 3 < 2 ^ 64 -> insns (count_three begin before e) = insns before + 3.
Proof.
  intros Hlt. unfold insns at 1, count_three. cbn [fst snd]. rewrite lookup_insert, decide_True by done.
  cbn [default from_option id]. apply Z.mod_small. pose proof (insns_range before). lia.
Qed.

#[local, refine] Instance machine_driver_laws : RaxDriverLaws Traced := { emu_executed e := e.2 }.
Proof.
  - intros hooks begin until timeout count s. cbn [emu_start machine_driver].
    destruct (_ && _); [|exists []; rewrite app_nil_r; split; [done|constructor]].
    destruct s as [c e]. exists (three begin). split; [done|].
    change (three begin) with ([] ++ [Event_code begin 0] ++ [Event_code 0x1108 1] ++ [Event_code 0x1109 1]).
    assert (forall s events s' event, hook_run hooks s events s' ->
      hook_run hooks s (events ++ [event]) (hooks event s').2) as Hstep.
    { intros s events [c' e'] event. apply run_event. }
    cbn [snd]. set (s1 := (hooks (Event_code begin 0) (c, e)).2).
    set (s2 := (hooks (Event_code 0x1108 1) s1).2). set (s3 := (hooks (Event_code 0x1109 1) s2).2).
    apply (run_guest _ _ _ s3.1 s3.2). rewrite <- surjective_pairing, !app_assoc.
    apply Hstep, Hstep, Hstep. constructor.
  - intros hooks begin until timeout count s Hcount. cbn [emu_start emu_icount machine_driver].
    destruct (Z.leb_spec 3 count); cbn [andb]; [|cbn [snd]; lia].
    destruct (Z.ltb_spec (insns s.2 + 3) (2 ^ 64)); cbn [snd]; [rewrite insns_counted by done; lia|lia].
  - intros e. apply insns_range.
Defined.

Definition sample_prots : RaxProt := {|
  RAX_PROT_NONE := 0; RAX_PROT_READ := 1; RAX_PROT_WRITE := 2; RAX_PROT_EXEC := 4; RAX_PROT_ALL := 7 |}.

Definition sample_entry : RaxEntryRegisters := {|
  RAX_X86_REG_ESP := 1003; RAX_X86_REG_EBP := 1004; RAX_X86_REG_EAX := 1005; RAX_X86_REG_RSP := 1000;
  RAX_X86_REG_RBP := 1001; RAX_X86_REG_RAX := 1002; RAX_REG_LR := 1006 |}.

Definition driver : option (EmuDriver Traced) :=
  new_driver sample_prots sample_rax sample_registers sample_names sample_entry image false false [].

Definition driver_value : EmuDriver Traced :=
  match driver with
  | Some d => d
  | None => closed_driver sample_registers image false Abi_UNKNOWN
      {| ap_rax_arch := 0; ap_mode := 0; ap_sp_reg := 0; ap_fp_reg := 0; ap_lr_reg := 0; ap_pc_reg := 0;
         ap_ret_reg := 0; ap_is64 := false |} []
  end.

Lemma driver_opened : driver = Some driver_value.
Proof. vm_compute. reflexivity. Qed.

Definition empty_log : EmuEvents := hc_out ctx.

Definition call : bool * EmuEvents * EmuOutcome * option Traced :=
  emulate_from sample_codes sample_rax sample_registers compare driver_value (Some decode) 0x1000 0x1100
    default_config empty_log true 7 1 None (fun _ => 0).

(** The call is reported, with three instructions and the return to the caller. *)
Example call_log :
  map edge_core (ee_edges call.1.1.2) = [(0x1000, 0x1108, ExecEdge_Call, 1, 7)] /\
  map pt_pc (ee_execution call.1.1.2) = [0x1000; 0x1108; 0x1109] /\
  oc_instruction_count call.1.2 = 3 /\ oc_returned call.1.2 = true /\ entry_sp driver_value = 0x7ffd000ffc08.
Proof. split_and!; vm_compute; reflexivity. Qed.

#[local] Strategy expand [call].

Lemma call_ran :
  emulate_from sample_codes sample_rax sample_registers compare driver_value (Some decode) 0x1000 0x1100
    default_config empty_log true 7 1 None (fun _ => 0) = (true, call.1.1.2, call.1.2, call.2).
Proof.
  change (call = (true, call.1.1.2, call.1.2, call.2)). assert (call.1.1.1 = true) as Hok by (vm_compute; reflexivity).
  rewrite <- Hok. by destruct call as [[[? ?] ?] ?].
Qed.

(** The engine that the driver holds. *)
Definition opened : Traced := default ((∅, ∅), []) (ed_engine driver_value).

Lemma empty_log_ok : log_sizes_ok empty_log.
Proof. split_and!; vm_compute; discriminate. Qed.

Lemma emulation_logs_exact_witness :
  exists engine' : Traced, call.2 = Some engine' /\ three 0x1000 `prefix_of` engine'.2 /\
    map edge_core (ee_edges call.1.1.2) = [(0x1000, 0x1108, ExecEdge_Call, 1, 7)].
Proof.
  destruct (emulation_logs_exact sample_codes sample_rax sample_registers compare driver_value (Some decode)
    0x1000 0x1100 default_config empty_log true 7 1 None (fun _ => 0) call.1.1.2 call.1.2 call.2
    ltac:(vm_compute; discriminate) empty_log_ok call_ran)
    as (engine0 & engine & engine' & events & He0 & Hprep & He' & Hex & Hfirst & Hedges & _).
  exists engine'. split; [exact He'|].
  assert (ed_engine driver_value = Some opened) as Hopen by (vm_compute; reflexivity).
  rewrite Hopen in He0. injection He0 as <-.
  assert (engine = (prepare_entry sample_registers driver_value 7 None opened).2) as ->
    by (rewrite Hprep; reflexivity).
  assert (three 0x1000 `prefix_of` (emu_start (installed sample_codes sample_rax compare
      (memory_hooked driver_value (EmuDriver.hook_env sample_registers driver_value (Some decode) 0x1000 0x1100
         default_config empty_log true 7 1) (prepare_entry sample_registers driver_value 7 None opened).2)
      (EmuDriver.hook_env sample_registers driver_value (Some decode) 0x1000 0x1100 default_config empty_log true 7 1))
    0x1000 (ed_sentinel driver_value) (timeout_total default_config - 0) (cfg_max_insns default_config)
    (fresh_ctx driver_value empty_log,
     (prepare_entry sample_registers driver_value 7 None opened).2)).2.2.2) as Hthree.
  { exists []. vm_compute. reflexivity. }
  split; [|vm_compute; reflexivity]. etrans; [exact Hthree|].
  exact (Hfirst ltac:(vm_compute; reflexivity) ltac:(vm_compute; reflexivity)).
Defined.

Lemma emulation_budget_witness :
  0 <= oc_instruction_count call.1.2 <= cfg_max_insns default_config /\
  zlen (ee_edges call.1.1.2) <= zlen (ee_edges empty_log) + cfg_max_insns default_config /\
  zlen (ee_states call.1.1.2) <= zlen (ee_states empty_log) + Z.min (cfg_max_insns default_config) 65536.
Proof.
  destruct (emulation_budget sample_codes sample_rax sample_registers compare driver_value (Some decode)
    0x1000 0x1100 default_config empty_log true 7 1 None (fun _ => 0) call.1.1.2 call.1.2 call.2
    ltac:(vm_compute; discriminate) ltac:(vm_compute; discriminate) empty_log_ok call_ran)
    as (Hcount & Hedges & _ & _ & Hstates & _).
  split; [exact Hcount|split; [exact Hedges|exact Hstates]].
Defined.

Lemma entry_state_conventional_witness :
  entry_aligned X86_64 (entry_sp driver_value) /\
  reg_read_u64 1000 (prepare_entry sample_registers driver_value 7 None (machine 1 2 3, [])).2 =
    Some (entry_sp driver_value mod 2 ^ 64).
Proof.
  assert (prepare_entry sample_registers driver_value 7 None (machine 1 2 3, []) =
    (true, (prepare_entry sample_registers driver_value 7 None (machine 1 2 3, [])).2)) as Hp
    by (vm_compute; reflexivity).
  assert (Forall (fun reg => independent reg (ap_sp_reg (ed_params driver_value)))
    (ap_fp_reg (ed_params driver_value) :: ap_lr_reg (ed_params driver_value) :: ed_arg_regs driver_value)) as Hi
    by (vm_compute; repeat (apply List.Forall_cons; [discriminate|]); apply List.Forall_nil).
  assert (Forall (fun reg => independent reg (ap_lr_reg (ed_params driver_value))) (ed_arg_regs driver_value)) as Hl
    by (vm_compute; repeat (apply List.Forall_cons; [discriminate|]); apply List.Forall_nil).
  destruct (entry_state_conventional sample_prots sample_rax sample_registers sample_names sample_entry
    image false false [] driver_value 7 (machine 1 2 3, [])
    (prepare_entry sample_registers driver_value 7 None (machine 1 2 3, [])).2 driver_opened
    ltac:(vm_compute; discriminate) ltac:(vm_compute; discriminate) Hi Hl Hp) as (Hal & _ & _ & Hsp & _).
  split; [exact Hal|exact Hsp].
Defined.

End DriverRuns.
