(* ===== verification/NativeTypes.v ===== *)
(** * The facts of the native analysis (native_analysis.hpp, native_analysis.cpp)

    The native analysis reads the database of the disassembler and reports six kinds of
    facts with their provenance.  This file holds the data, the ranges of its C++ types
    and the keys by which the analysis recognizes a fact that it has already reported;
    a key determines its fact up to the printed name of a register. *)
From stdpp Require Import base numbers list strings option countable.
From Stdlib Require Import ZArith Lia.
From S2P Require Import Prelude.

#[local] Open Scope viy_scope.

Definition kNativeBadAddress : Z := u64_max.

(** ** Enumerations *)

Inductive NativeArchitecture : Type := Native_Unsupported | Native_X86 | Native_Arm32 | Native_Arm64.

Inductive NativeCapabilityState : Type :=
  | Capability_Unknown
  | Capability_Available
  | Capability_Unavailable.

Inductive NativeEvidenceSource : Type :=
  | Source_IdaRegfinder
  | Source_ArchitectureInvariant
  | Source_StructuralIdentity
  | Source_LocalFlagProof
  | Source_DirectControlFlow
  | Source_DecoderEquivalence
  | Source_IdaItemDiscrepancy.

Inductive NativeEvidenceStrength : Type := Strength_Candidate | Strength_Strong | Strength_Exact.

Inductive NativeControlFlowKind : Type := Flow_Call | Flow_Jump.

Inductive NativeIndirectResolutionKind : Type :=
  | Resolution_RegisterValue
  | Resolution_ReadOnlyMemoryValue.

Inductive NativeBranchOutcome : Type := AlwaysTaken | NeverTaken.

Inductive NativeOppositeBranchFamily : Type :=
  | Family_X86Jcc
  | Family_ArmCondition
  | Family_ArmCompareZero
  | Family_ArmTestBit.

Inductive NativeTrackedFlag : Type := Flag_Carry | Flag_Zero.
Inductive NativeFlagValue : Type := Flag_Clear | Flag_Set.

Inductive NativeFunctionCandidateReason : Type :=
  | Reason_DirectCallToUnownedCode
  | Reason_IndirectCallToUnownedCode
  | Reason_DirectCallToFunctionInterior
  | Reason_IndirectCallToFunctionInterior
  | Reason_DirectCallToDecodableBytes
  | Reason_IndirectCallToDecodableBytes.

Inductive NativeDecodeDiscrepancyKind : Type :=
  | Discrepancy_RedundantLegacyPrefix
  | Discrepancy_DetachedLegacyPrefix
  | Discrepancy_CodeItemSizeMismatch
  | Discrepancy_UndecodableCodeItem
  | Discrepancy_DirectTargetNotCode.

#[export] Instance NativeArchitecture_eq_dec : EqDecision NativeArchitecture.
Proof. solve_decision. Defined.
#[export] Instance NativeCapabilityState_eq_dec : EqDecision NativeCapabilityState.
Proof. solve_decision. Defined.
#[export] Instance NativeEvidenceSource_eq_dec : EqDecision NativeEvidenceSource.
Proof. solve_decision. Defined.
#[export] Instance NativeEvidenceStrength_eq_dec : EqDecision NativeEvidenceStrength.
Proof. solve_decision. Defined.
#[export] Instance NativeControlFlowKind_eq_dec : EqDecision NativeControlFlowKind.
Proof. solve_decision. Defined.
#[export] Instance NativeIndirectResolutionKind_eq_dec : EqDecision NativeIndirectResolutionKind.
Proof. solve_decision. Defined.
#[export] Instance NativeBranchOutcome_eq_dec : EqDecision NativeBranchOutcome.
Proof. solve_decision. Defined.
#[export] Instance NativeOppositeBranchFamily_eq_dec : EqDecision NativeOppositeBranchFamily.
Proof. solve_decision. Defined.
#[export] Instance NativeTrackedFlag_eq_dec : EqDecision NativeTrackedFlag.
Proof. solve_decision. Defined.
#[export] Instance NativeFlagValue_eq_dec : EqDecision NativeFlagValue.
Proof. solve_decision. Defined.
#[export] Instance NativeFunctionCandidateReason_eq_dec : EqDecision NativeFunctionCandidateReason.
Proof. solve_decision. Defined.
#[export] Instance NativeDecodeDiscrepancyKind_eq_dec : EqDecision NativeDecodeDiscrepancyKind.
Proof. solve_decision. Defined.

(** The values of the enumerations that become part of a key or of a detail text. *)
Definition flow_value (k : NativeControlFlowKind) : Z :=
  match k with Flow_Call => 0 | Flow_Jump => 1 end.

Definition resolution_value (k : NativeIndirectResolutionKind) : Z :=
  match k with Resolution_RegisterValue => 0 | Resolution_ReadOnlyMemoryValue => 1 end.

Definition outcome_value (o : NativeBranchOutcome) : Z :=
  match o with AlwaysTaken => 0 | NeverTaken => 1 end.

Definition family_value (f : NativeOppositeBranchFamily) : Z :=
  match f with
  | Family_X86Jcc => 0 | Family_ArmCondition => 1 | Family_ArmCompareZero => 2
  | Family_ArmTestBit => 3
  end.

Definition flag_value (f : NativeTrackedFlag) : Z := match f with Flag_Carry => 0 | Flag_Zero => 1 end.
Definition flag_state_value (v : NativeFlagValue) : Z := match v with Flag_Clear => 0 | Flag_Set => 1 end.

Definition reason_value (r : NativeFunctionCandidateReason) : Z :=
  match r with
  | Reason_DirectCallToUnownedCode => 0 | Reason_IndirectCallToUnownedCode => 1
  | Reason_DirectCallToFunctionInterior => 2 | Reason_IndirectCallToFunctionInterior => 3
  | Reason_DirectCallToDecodableBytes => 4 | Reason_IndirectCallToDecodableBytes => 5
  end.

Definition discrepancy_value (k : NativeDecodeDiscrepancyKind) : Z :=
  match k with
  | Discrepancy_RedundantLegacyPrefix => 0 | Discrepancy_DetachedLegacyPrefix => 1
  | Discrepancy_CodeItemSizeMismatch => 2 | Discrepancy_UndecodableCodeItem => 3
  | Discrepancy_DirectTargetNotCode => 4
  end.

(** ** Facts *)

Record NativeFactProvenance : Type := {
  np_epoch : Z;
  np_function_ea : Z;
  np_chunk_start : Z;
  np_chunk_end : Z;
  np_architecture : NativeArchitecture;
  np_source : NativeEvidenceSource;
  np_strength : NativeEvidenceStrength;
  np_supporting_observations : Z;
  np_deterministic : bool
}.

Record NativeIndirectTargetFact : Type := {
  ni_instruction_ea : Z;
  ni_target_ea : Z;
  ni_definition_ea : Z;
  ni_pointer_ea : Z;
  ni_kind : NativeControlFlowKind;
  ni_resolution : NativeIndirectResolutionKind;
  ni_register_id : Z;
  ni_register_name : string;
  ni_value_width : Z;
  ni_edge_already_present : bool
}.

Record NativeZeroRegisterBranchFact : Type := {
  nz_instruction_ea : Z;
  nz_target_ea : Z;
  nz_fallthrough_ea : Z;
  nz_outcome : NativeBranchOutcome;
  nz_register_id : Z;
  nz_register_name : string;
  nz_value_width : Z
}.

Record NativeOppositeBranchPairFact : Type := {
  no_first_ea : Z;
  no_second_ea : Z;
  no_guaranteed_target_ea : Z;
  no_unreachable_fallthrough_ea : Z;
  no_family : NativeOppositeBranchFamily;
  no_first_condition : Z;
  no_second_condition : Z
}.

Record NativeKnownFlagBranchFact : Type := {
  nk_instruction_ea : Z;
  nk_target_ea : Z;
  nk_fallthrough_ea : Z;
  nk_defining_instruction_ea : Z;
  nk_flag : NativeTrackedFlag;
  nk_value : NativeFlagValue;
  nk_outcome : NativeBranchOutcome;
  nk_instructions_scanned : Z
}.

Record NativeFunctionCandidateFact : Type := {
  nf_callsite_ea : Z;
  nf_target_ea : Z;
  nf_reason : NativeFunctionCandidateReason;
  nf_decoded_size : Z;
  nf_target_is_code : bool;
  nf_target_is_function_interior : bool
}.

Record NativeDecodeDiscrepancyFact : Type := {
  nd_address : Z;
  nd_related_ea : Z;
  nd_kind : NativeDecodeDiscrepancyKind;
  nd_idb_item_size : Z;
  nd_decoded_size : Z;
  nd_alternate_decoded_size : Z;
  nd_observed_byte : Z
}.

Inductive NativeFactPayload : Type :=
  | N_IndirectTarget (f : NativeIndirectTargetFact)
  | N_ZeroRegisterBranch (f : NativeZeroRegisterBranchFact)
  | N_OppositeBranchPair (f : NativeOppositeBranchPairFact)
  | N_KnownFlagBranch (f : NativeKnownFlagBranchFact)
  | N_FunctionCandidate (f : NativeFunctionCandidateFact)
  | N_DecodeDiscrepancy (f : NativeDecodeDiscrepancyFact).

Record NativeFact : Type := {
  nx_provenance : NativeFactProvenance;
  nx_payload : NativeFactPayload
}.

(** ** Keys *)

Inductive FactTag : Type :=
  | Tag_IndirectTarget
  | Tag_ZeroRegisterBranch
  | Tag_OppositeBranchPair
  | Tag_KnownFlagBranch
  | Tag_FunctionCandidate
  | Tag_DecodeDiscrepancy.

#[export] Instance FactTag_eq_dec : EqDecision FactTag.
Proof. solve_decision. Defined.

Definition tag_value (t : FactTag) : Z :=
  match t with
  | Tag_IndirectTarget => 1 | Tag_ZeroRegisterBranch => 2 | Tag_OppositeBranchPair => 3
  | Tag_KnownFlagBranch => 4 | Tag_FunctionCandidate => 5 | Tag_DecodeDiscrepancy => 6
  end.

Record FactKey : Type := {
  fk_tag : FactTag;
  fk_a : Z;
  fk_b : Z;
  fk_c : Z;
  fk_d : Z;
  fk_x : Z;
  fk_y : Z
}.

#[export] Instance FactKey_eq_dec : EqDecision FactKey.
Proof. solve_decision. Defined.

#[export] Program Instance FactTag_countable : Countable FactTag :=
  inj_countable' tag_value
    (fun z => if z =? 1 then Tag_IndirectTarget else if z =? 2 then Tag_ZeroRegisterBranch
      else if z =? 3 then Tag_OppositeBranchPair else if z =? 4 then Tag_KnownFlagBranch
      else if z =? 5 then Tag_FunctionCandidate else Tag_DecodeDiscrepancy) _.
Next Obligation. by intros []. Qed.

#[export] Program Instance FactKey_countable : Countable FactKey :=
  inj_countable'
    (fun k => (fk_tag k, (fk_a k, fk_b k, fk_c k), (fk_d k, fk_x k, fk_y k)))
    (fun t => {| fk_tag := t.1.1; fk_a := t.1.2.1.1; fk_b := t.1.2.1.2; fk_c := t.1.2.2;
                 fk_d := t.2.1.1; fk_x := t.2.1.2; fk_y := t.2.2 |}) _.
Next Obligation. by intros []. Qed.

(** [uint32_t] of an [int32_t]. *)
Definition u32_of_int (v : Z) : Z := v mod 2 ^ 32.

Definition bool_value (b : bool) : Z := if b then 1 else 0.

Definition fact_key (payload : NativeFactPayload) : FactKey :=
  match payload with
  | N_IndirectTarget f => {|
      fk_tag := Tag_IndirectTarget; fk_a := ni_instruction_ea f; fk_b := ni_target_ea f;
      fk_c := ni_definition_ea f; fk_d := ni_pointer_ea f; fk_x := u32_of_int (ni_register_id f);
      fk_y := Z.lor (Z.lor (Z.lor (flow_value (ni_kind f)) (Z.shiftl (resolution_value (ni_resolution f)) 8))
                (Z.shiftl (bool_value (ni_edge_already_present f)) 16))
                (Z.shiftl (ni_value_width f) 24) |}
  | N_ZeroRegisterBranch f => {|
      fk_tag := Tag_ZeroRegisterBranch; fk_a := nz_instruction_ea f; fk_b := nz_target_ea f;
      fk_c := nz_fallthrough_ea f; fk_d := 0; fk_x := u32_of_int (nz_register_id f);
      fk_y := Z.lor (outcome_value (nz_outcome f)) (Z.shiftl (nz_value_width f) 8) |}
  | N_OppositeBranchPair f => {|
      fk_tag := Tag_OppositeBranchPair; fk_a := no_first_ea f; fk_b := no_second_ea f;
      fk_c := no_guaranteed_target_ea f; fk_d := no_unreachable_fallthrough_ea f;
      fk_x := family_value (no_family f);
      fk_y := Z.lor (Z.shiftl (no_first_condition f) 16) (no_second_condition f) |}
  | N_KnownFlagBranch f => {|
      fk_tag := Tag_KnownFlagBranch; fk_a := nk_instruction_ea f; fk_b := nk_target_ea f;
      fk_c := nk_fallthrough_ea f; fk_d := nk_defining_instruction_ea f;
      fk_x := Z.lor (Z.lor (flag_value (nk_flag f)) (Z.shiftl (flag_state_value (nk_value f)) 8))
                (Z.shiftl (outcome_value (nk_outcome f)) 16);
      fk_y := nk_instructions_scanned f |}
  | N_FunctionCandidate f => {|
      fk_tag := Tag_FunctionCandidate; fk_a := nf_callsite_ea f; fk_b := nf_target_ea f;
      fk_c := 0; fk_d := 0; fk_x := reason_value (nf_reason f);
      fk_y := Z.lor (Z.lor (nf_decoded_size f) (Z.shiftl (bool_value (nf_target_is_code f)) 16))
                (Z.shiftl (bool_value (nf_target_is_function_interior f)) 17) |}
  | N_DecodeDiscrepancy f => {|
      fk_tag := Tag_DecodeDiscrepancy; fk_a := nd_address f; fk_b := nd_related_ea f;
      fk_c := Z.lor (Z.lor (Z.shiftl (nd_idb_item_size f) 32) (Z.shiftl (nd_decoded_size f) 16))
                (nd_alternate_decoded_size f);
      fk_d := 0; fk_x := discrepancy_value (nd_kind f); fk_y := nd_observed_byte f |}
  end.

(** ** Options, progress and statistics *)

Inductive NativeAnalysisProgressStage : Type := Stage_FUNCTIONS | Stage_UNOWNED_CODE | Stage_COMPLETE.

Record NativeAnalysisProgress : Type := {
  pg_stage : NativeAnalysisProgressStage;
  pg_functions_completed : Z;
  pg_functions_total : Z;
  pg_instructions_scanned : Z;
  pg_facts_emitted : Z;
  pg_stage_boundary : bool
}.

(** [progress] is the callback, if there is one: what it does is left to the state that a
    scan carries for its caller, so only its presence is an option. *)
Record NativeAnalysisOptions : Type := {
  op_resolve_indirect_control_flow : bool;
  op_detect_zero_register_branches : bool;
  op_detect_opposite_branch_pairs : bool;
  op_track_known_x86_flags : bool;
  op_find_function_candidates : bool;
  op_detect_decode_discrepancies : bool;
  op_scan_unowned_executable_code : bool;
  op_emit_existing_indirect_edges : bool;
  op_max_functions : Z;
  op_max_instructions_per_function : Z;
  op_max_unowned_instructions : Z;
  op_regfinder_max_depth : Z;
  op_flag_scan_depth : Z;
  op_progress_instruction_interval : Z;
  op_progress : bool
}.

Definition default_options : NativeAnalysisOptions := {|
  op_resolve_indirect_control_flow := true;
  op_detect_zero_register_branches := true;
  op_detect_opposite_branch_pairs := true;
  op_track_known_x86_flags := true;
  op_find_function_candidates := true;
  op_detect_decode_discrepancies := true;
  op_scan_unowned_executable_code := true;
  op_emit_existing_indirect_edges := false;
  op_max_functions := 0;
  op_max_instructions_per_function := 0;
  op_max_unowned_instructions := 0;
  op_regfinder_max_depth := 0;
  op_flag_scan_depth := 8;
  op_progress_instruction_interval := 256;
  op_progress := false |}.

Record NativeAnalysisStats : Type := {
  ns_architecture : NativeArchitecture;
  ns_epoch : Z;
  ns_functions_scanned : Z;
  ns_chunks_scanned : Z;
  ns_instructions_scanned : Z;
  ns_decode_failures : Z;
  ns_facts_emitted : Z;
  ns_facts_deduplicated : Z;
  ns_indirect_targets : Z;
  ns_zero_register_branches : Z;
  ns_opposite_branch_pairs : Z;
  ns_known_flag_branches : Z;
  ns_function_candidates : Z;
  ns_decode_discrepancies : Z;
  ns_register_tracker : NativeCapabilityState;
  ns_operand_address_tracker : NativeCapabilityState
}.

(** ** The ranges of the C++ types *)

Definition is_u8 (v : Z) : Prop := 0 <= v < 2 ^ 8.
Definition is_i32 (v : Z) : Prop := - 2 ^ 31 <= v < 2 ^ 31.

Definition native_payload_typed (payload : NativeFactPayload) : Prop :=
  match payload with
  | N_IndirectTarget f =>
      is_u64 (ni_instruction_ea f) /\ is_u64 (ni_target_ea f) /\ is_u64 (ni_definition_ea f) /\
      is_u64 (ni_pointer_ea f) /\ is_i32 (ni_register_id f) /\ is_u8 (ni_value_width f)
  | N_ZeroRegisterBranch f =>
      is_u64 (nz_instruction_ea f) /\ is_u64 (nz_target_ea f) /\ is_u64 (nz_fallthrough_ea f) /\
      is_i32 (nz_register_id f) /\ is_u8 (nz_value_width f)
  | N_OppositeBranchPair f =>
      is_u64 (no_first_ea f) /\ is_u64 (no_second_ea f) /\ is_u64 (no_guaranteed_target_ea f) /\
      is_u64 (no_unreachable_fallthrough_ea f) /\ is_u16 (no_first_condition f) /\
      is_u16 (no_second_condition f)
  | N_KnownFlagBranch f =>
      is_u64 (nk_instruction_ea f) /\ is_u64 (nk_target_ea f) /\ is_u64 (nk_fallthrough_ea f) /\
      is_u64 (nk_defining_instruction_ea f) /\ is_u32 (nk_instructions_scanned f)
  | N_FunctionCandidate f =>
      is_u64 (nf_callsite_ea f) /\ is_u64 (nf_target_ea f) /\ is_u16 (nf_decoded_size f)
  | N_DecodeDiscrepancy f =>
      is_u64 (nd_address f) /\ is_u64 (nd_related_ea f) /\ is_u16 (nd_idb_item_size f) /\
      is_u16 (nd_decoded_size f) /\ is_u16 (nd_alternate_decoded_size f) /\ is_u8 (nd_observed_byte f)
  end.

Definition provenance_typed (p : NativeFactProvenance) : Prop :=
  is_u64 (np_epoch p) /\ is_u64 (np_function_ea p) /\ is_u64 (np_chunk_start p) /\
  is_u64 (np_chunk_end p) /\ is_u32 (np_supporting_observations p).

Definition native_fact_typed (f : NativeFact) : Prop :=
  provenance_typed (nx_provenance f) /\ native_payload_typed (nx_payload f).

(** A payload without the printed name of its register, which depends on the register and
    the width only. *)
Definition unnamed (payload : NativeFactPayload) : NativeFactPayload :=
  match payload with
  | N_IndirectTarget f => N_IndirectTarget {|
      ni_instruction_ea := ni_instruction_ea f; ni_target_ea := ni_target_ea f;
      ni_definition_ea := ni_definition_ea f; ni_pointer_ea := ni_pointer_ea f;
      ni_kind := ni_kind f; ni_resolution := ni_resolution f; ni_register_id := ni_register_id f;
      ni_register_name := EmptyString; ni_value_width := ni_value_width f;
      ni_edge_already_present := ni_edge_already_present f |}
  | N_ZeroRegisterBranch f => N_ZeroRegisterBranch {|
      nz_instruction_ea := nz_instruction_ea f; nz_target_ea := nz_target_ea f;
      nz_fallthrough_ea := nz_fallthrough_ea f; nz_outcome := nz_outcome f;
      nz_register_id := nz_register_id f; nz_register_name := EmptyString;
      nz_value_width := nz_value_width f |}
  | payload => payload
  end.

(** Two words below and above bit [n] can be told apart. *)
Lemma lor_shiftl_inj n a b c d :
  0 <= n -> 0 <= a < 2 ^ n -> 0 <= c < 2 ^ n ->
  Z.lor a (Z.shiftl b n) = Z.lor c (Z.shiftl d n) -> a = c /\ b = d.
Proof.
  intros Hn Ha Hc H. rewrite !(Z.lor_comm _ (Z.shiftl _ _)), !lor_shiftl_add in H by done.
  assert (forall x y, 0 <= x < 2 ^ n -> (y * 2 ^ n + x) / 2 ^ n = y) as Hd.
  { intros x y Hx. rewrite Z.div_add_l, Z.div_small by lia. lia. }
  pose proof (Hd a b Ha) as H1. rewrite H, (Hd c d Hc) in H1. subst. split; [lia|done].
Qed.

Lemma lor_shiftl_inj_l n a b c d :
  0 <= n -> 0 <= a < 2 ^ n -> 0 <= c < 2 ^ n ->
  Z.lor (Z.shiftl b n) a = Z.lor (Z.shiftl d n) c -> a = c /\ b = d.
Proof. intros. apply (lor_shiftl_inj n); [done..|]. by rewrite !(Z.lor_comm _ (Z.shiftl _ _)). Qed.

Lemma lor_shiftl_range n m a b :
  0 <= n -> 0 <= m -> 0 <= a < 2 ^ n -> 0 <= b < 2 ^ m -> 0 <= Z.lor a (Z.shiftl b n) < 2 ^ (n + m).
Proof.
  intros. rewrite Z.lor_comm, lor_shiftl_add, Z.pow_add_r by done. nia.
Qed.

Lemma bool_value_inj a b : bool_value a = bool_value b -> a = b.
Proof. by destruct a, b. Qed.
Lemma u32_of_int_inj a b : is_i32 a -> is_i32 b -> u32_of_int a = u32_of_int b -> a = b.
Proof. unfold is_i32, u32_of_int. intros. Z.div_mod_to_equations. lia. Qed.

(** The value functions of the enumerations are injective and fit a byte. *)
Ltac enum_value_inj := intros [] []; done.
Lemma flow_value_inj : Inj (=) (=) flow_value. Proof. enum_value_inj. Qed.
Lemma resolution_value_inj : Inj (=) (=) resolution_value. Proof. enum_value_inj. Qed.
Lemma outcome_value_inj : Inj (=) (=) outcome_value. Proof. enum_value_inj. Qed.
Lemma family_value_inj : Inj (=) (=) family_value. Proof. enum_value_inj. Qed.
Lemma flag_value_inj : Inj (=) (=) flag_value. Proof. enum_value_inj. Qed.
Lemma flag_state_value_inj : Inj (=) (=) flag_state_value. Proof. enum_value_inj. Qed.
Lemma reason_value_inj : Inj (=) (=) reason_value. Proof. enum_value_inj. Qed.
Lemma discrepancy_value_inj : Inj (=) (=) discrepancy_value. Proof. enum_value_inj. Qed.

Lemma indirect_key_inj k1 r1 e1 w1 k2 r2 e2 w2 :
  is_u8 w1 -> is_u8 w2 ->
  Z.lor (Z.lor (Z.lor (flow_value k1) (Z.shiftl (resolution_value r1) 8)) (Z.shiftl (bool_value e1) 16))
    (Z.shiftl w1 24) =
  Z.lor (Z.lor (Z.lor (flow_value k2) (Z.shiftl (resolution_value r2) 8)) (Z.shiftl (bool_value e2) 16))
    (Z.shiftl w2 24) ->
  k1 = k2 /\ r1 = r2 /\ e1 = e2 /\ w1 = w2.
Proof.
  intros H1 H2 H. apply (lor_shiftl_inj 24) in H as [H ->];
    [|done|by destruct k1, r1, e1|by destruct k2, r2, e2].
  apply (lor_shiftl_inj 16) in H as [H Hb%bool_value_inj]; [|done|by destruct k1, r1|by destruct k2, r2].
  apply (lor_shiftl_inj 8) in H as [Hk%flow_value_inj Hr%resolution_value_inj];
    [done|done|by destruct k1|by destruct k2].
Qed.

Lemma flag_key_inj f1 v1 o1 f2 v2 o2 :
  Z.lor (Z.lor (flag_value f1) (Z.shiftl (flag_state_value v1) 8)) (Z.shiftl (outcome_value o1) 16) =
  Z.lor (Z.lor (flag_value f2) (Z.shiftl (flag_state_value v2) 8)) (Z.shiftl (outcome_value o2) 16) ->
  f1 = f2 /\ v1 = v2 /\ o1 = o2.
Proof. by destruct f1, v1, o1, f2, v2, o2. Qed.

Lemma candidate_key_inj s1 c1 i1 s2 c2 i2 :
  is_u16 s1 -> is_u16 s2 ->
  Z.lor (Z.lor s1 (Z.shiftl (bool_value c1) 16)) (Z.shiftl (bool_value i1) 17) =
  Z.lor (Z.lor s2 (Z.shiftl (bool_value c2) 16)) (Z.shiftl (bool_value i2) 17) ->
  s1 = s2 /\ c1 = c2 /\ i1 = i2.
Proof.
  intros H1 H2 H.
  apply (lor_shiftl_inj 17) in H as [H Hi%bool_value_inj];
    [|done|apply (lor_shiftl_range 16 1); [done..|by destruct c1]
          |apply (lor_shiftl_range 16 1); [done..|by destruct c2]].
  by apply (lor_shiftl_inj 16) in H as [-> Hc%bool_value_inj].
Qed.

Lemma sizes_key_inj a b c a' b' c' :
  is_u16 b -> is_u16 c -> is_u16 b' -> is_u16 c' ->
  Z.lor (Z.lor (Z.shiftl a 32) (Z.shiftl b 16)) c = Z.lor (Z.lor (Z.shiftl a' 32) (Z.shiftl b' 16)) c' ->
  a = a' /\ b = b' /\ c = c'.
Proof.
  intros Hb Hc Hb' Hc' H. rewrite <- !Z.lor_assoc in H.
  apply (lor_shiftl_inj_l 32) in H as [H ->]; [|done|..].
  2,3: rewrite Z.lor_comm; by apply (lor_shiftl_range 16 16).
  by apply (lor_shiftl_inj_l 16) in H as [-> ->].
Qed.

(** A payload is determined by its key, up to the printed name of its register. *)
Lemma fact_key_unnamed p q :
  native_payload_typed p -> native_payload_typed q ->
  fact_key p = fact_key q <-> unnamed p = unnamed q.
Proof.
  intros Hp Hq. split.
  - destruct p as [f|f|f|f|f|f], q as [g|g|g|g|g|g]; cbn [fact_key]; intros H; simplify_eq H;
      destruct f, g; cbn in *; clear H; intros; destruct_and!; unfold unnamed; f_equal; cbn.
    + match goal with H : _ = Z.lor _ _ |- _ => apply indirect_key_inj in H as (-> & -> & -> & ->) end;
        [|done..]. match goal with H : u32_of_int _ = _ |- _ => apply u32_of_int_inj in H; [|done..] end.
      by subst.
    + match goal with H : _ = Z.lor _ _ |- _ => apply (lor_shiftl_inj 8) in H as [->%outcome_value_inj ->] end;
        [|done|by destruct nz_outcome0|by destruct nz_outcome1].
      match goal with H : u32_of_int _ = _ |- _ => apply u32_of_int_inj in H; [|done..] end. by subst.
    + match goal with H : _ = Z.lor _ _ |- _ => apply (lor_shiftl_inj_l 16) in H as [-> ->]; [|done..] end.
      match goal with H : family_value _ = _ |- _ => apply family_value_inj in H end. by subst.
    + match goal with H : _ = Z.lor _ _ |- _ => apply flag_key_inj in H as (-> & -> & ->) end. by subst.
    + match goal with H : _ = Z.lor _ _ |- _ => apply candidate_key_inj in H as (-> & -> & ->); [|done..] end.
      match goal with H : reason_value _ = _ |- _ => apply reason_value_inj in H end. by subst.
    + match goal with H : _ = Z.lor _ _ |- _ => apply sizes_key_inj in H as (-> & -> & ->); [|done..] end.
      match goal with H : discrepancy_value _ = _ |- _ => apply discrepancy_value_inj in H end. by subst.
  - destruct p as [[]|[]|[]|[]|[]|[]], q as [[]|[]|[]|[]|[]|[]]; cbn; intros H; simplify_eq H; intros;
      by subst.
Qed.
