(* ===== verification/NativeDatabase.v ===== *)
(** * The database that the native analysis reads (native_analysis.cpp)

    The disassembler's SDK is outside the repository.  [Ida] lists the questions that the
    analysis asks it; they are functions, because a scan must not change the database.
    The rest of the file holds the tests on instructions and operands that
    native_analysis.cpp builds from the answers, and the lookup of cross-references
    (xref_lookup.hpp).  [ea_t] has 64 bits, so [BADADDR] is [kNativeBadAddress]. *)
From stdpp Require Import base numbers list strings option sets.
From Stdlib Require Import ZArith Init.Byte Lia.
From S2P Require Import Prelude NativeTypes.

#[local] Open Scope viy_scope.

Definition BADADDR : Z := kNativeBadAddress.

(** Addition of addresses. *)
Definition ea_add (a b : Z) : Z := (a + b) mod 2 ^ 64.

(** ** Instructions of the disassembler *)

Inductive OpType : Type :=
  | o_void | o_reg | o_mem | o_phrase | o_displ | o_imm | o_far | o_near | o_idpspec (n : Z).

#[export] Instance OpType_eq_dec : EqDecision OpType.
Proof. solve_decision. Defined.

Record op_t : Type := {
  op_type : OpType;
  op_dtype : Z;
  op_flags : Z;
  op_reg : Z;
  op_value : Z;
  op_addr : Z;
  op_specval : Z;
  op_specflag1 : Z;
  op_specflag2 : Z;
  op_specflag3 : Z;
  op_specflag4 : Z
}.

Definition void_op : op_t := {|
  op_type := o_void; op_dtype := 0; op_flags := 0; op_reg := 0; op_value := 0; op_addr := 0;
  op_specval := 0; op_specflag1 := 0; op_specflag2 := 0; op_specflag3 := 0; op_specflag4 := 0 |}.

(** [insn_ops] are the [UA_MAXOP] operands. *)
Record insn_t : Type := {
  insn_ea : Z;
  insn_size : Z;
  insn_itype : Z;
  insn_segpref : Z;
  insn_ops : list op_t
}.

Definition Op1 (insn : insn_t) : op_t := nth 0 (insn_ops insn) void_op.
Definition Op2 (insn : insn_t) : op_t := nth 1 (insn_ops insn) void_op.

Record segment_t : Type := { seg_start_ea : Z; seg_end_ea : Z; seg_perm : Z }.

(** A function with its chunks, the main one first. *)
Record func_t : Type := { fn_start_ea : Z; fn_chunks : list (Z * Z) }.

Record xref_t : Type := { xr_from : Z; xr_iscode : bool }.

(** The instruction types that the analyses know by name. *)
Inductive X86Itype : Type :=
  | NN_jo | NN_jno | NN_jb | NN_jc | NN_jnae | NN_jnb | NN_jnc | NN_jae | NN_jz | NN_je | NN_jnz
  | NN_jne | NN_jbe | NN_jna | NN_ja | NN_jnbe | NN_js | NN_jns | NN_jp | NN_jpe | NN_jnp | NN_jpo
  | NN_jl | NN_jnge | NN_jnl | NN_jge | NN_jle | NN_jng | NN_jnle | NN_jg
  | NN_mov | NN_movsx | NN_movzx | NN_movsxd | NN_lea | NN_nop | NN_not | NN_push | NN_pop
  | NN_pusha | NN_popa | NN_pushf | NN_pushfd | NN_pushfq | NN_xchg | NN_bswap | NN_leave
  | NN_jmp | NN_jmpni | NN_jmpfi | NN_jcxz | NN_jecxz | NN_jrcxz
  | NN_stc | NN_clc | NN_cmc | NN_and | NN_or | NN_test | NN_xor | NN_sub | NN_cmp | NN_inc | NN_dec
  | NN_call | NN_retn | NN_retf | NN_add | NN_shl | NN_sal.

Inductive ArmItype : Type :=
  | ARM_b | ARM_cbz | ARM_cbnz | ARM_tbz | ARM_tbnz
  | ARM_ret | ARM_br | ARM_blr | ARM_nop | ARM_mov | ARM_movt | ARM_adr | ARM_ldr | ARM_add | ARM_sub
  | ARM_eor | ARM_and | ARM_orr | ARM_cmp | ARM_tst | ARM_push | ARM_pop.

#[export] Instance X86Itype_eq_dec : EqDecision X86Itype.
Proof. solve_decision. Defined.
#[export] Instance ArmItype_eq_dec : EqDecision ArmItype.
Proof. solve_decision. Defined.

Definition all_x86_itypes : list X86Itype :=
  [NN_jo; NN_jno; NN_jb; NN_jc; NN_jnae; NN_jnb; NN_jnc; NN_jae; NN_jz; NN_je; NN_jnz;
   NN_jne; NN_jbe; NN_jna; NN_ja; NN_jnbe; NN_js; NN_jns; NN_jp; NN_jpe; NN_jnp; NN_jpo;
   NN_jl; NN_jnge; NN_jnl; NN_jge; NN_jle; NN_jng; NN_jnle; NN_jg;
   NN_mov; NN_movsx; NN_movzx; NN_movsxd; NN_lea; NN_nop; NN_not; NN_push; NN_pop;
   NN_pusha; NN_popa; NN_pushf; NN_pushfd; NN_pushfq; NN_xchg; NN_bswap; NN_leave;
   NN_jmp; NN_jmpni; NN_jmpfi; NN_jcxz; NN_jecxz; NN_jrcxz;
   NN_stc; NN_clc; NN_cmc; NN_and; NN_or; NN_test; NN_xor; NN_sub; NN_cmp; NN_inc; NN_dec;
   NN_call; NN_retn; NN_retf; NN_add; NN_shl; NN_sal].

Definition all_arm_itypes : list ArmItype :=
  [ARM_b; ARM_cbz; ARM_cbnz; ARM_tbz; ARM_tbnz;
   ARM_ret; ARM_br; ARM_blr; ARM_nop; ARM_mov; ARM_movt; ARM_adr; ARM_ldr; ARM_add; ARM_sub;
   ARM_eor; ARM_and; ARM_orr; ARM_cmp; ARM_tst; ARM_push; ARM_pop].

(** ** The questions *)

Class Ida : Type := {
  (* processor and constants *)
  ph_id : Z;
  PLFM_386 : Z;
  PLFM_ARM : Z;
  inf_is_64bit : bool;
  nn : X86Itype -> Z;
  arm : ArmItype -> Z;
  SEGPERM_EXEC : Z;
  SEGPERM_WRITE : Z;
  XREF_CODE : Z;
  XREF_NOFLOW : Z;
  CF_CHG1 : Z;
  CF_USE1 : Z;
  (* bytes and their flags *)
  is_mapped : Z -> bool;
  is_loaded : Z -> bool;
  get_byte : Z -> Z;
  is_code : Z -> bool;
  is_head : Z -> bool;
  is_tail : Z -> bool;
  has_xref : Z -> bool;
  has_user_name : Z -> bool;
  get_item_size : Z -> Z;
  prev_head : Z -> Z -> Z;
  next_head : Z -> Z -> Z;
  (* segments and functions; [getnseg] and [getn_func] may return null *)
  getseg : Z -> option segment_t;
  all_segments : list (option segment_t);
  get_func : Z -> option func_t;
  all_functions : list (option func_t);
  (* instructions: [None] where [decode_insn] returns no positive size *)
  decode_insn : Z -> option insn_t;
  get_canon_feature : insn_t -> Z;
  is_call_insn : insn_t -> bool;
  is_ret_insn : insn_t -> bool;
  is_indirect_jump_insn : insn_t -> bool;
  is_basic_block_end : insn_t -> bool;
  get_dtype_size : Z -> Z;
  get_reg_name : Z -> Z -> option string;
  (* cross-references: to an address, in the order of the cursor; from an address, the
     target that the cursor stands on *)
  code_xrefs_to : Z -> list xref_t;
  first_from : Z -> Z -> option Z;
  next_from : Z -> Z -> Z -> option Z;
  (* the register tracker: [None] where the processor has none *)
  reg_value_info_t : Type;
  get_num : reg_value_info_t -> option Z;
  get_def_ea : reg_value_info_t -> Z;
  find_reg_value_info : Z -> Z -> Z -> option reg_value_info_t;
  has_regfinder : bool;
  find_op_addr : op_t -> insn_t -> Z -> reg_value_info_t;
  emulate_mem_read : reg_value_info_t -> Z -> insn_t -> reg_value_info_t
}.

(** ** Cross-reference lookup (xref_lookup.hpp)

    The cursor reports the references from an address; [next_from] seeks to the first one
    after a target in the address-ordered group that the flags select. *)
Definition viy_sorted_xref_exists (first_from : Z -> Z -> option Z) (next_from : Z -> Z -> Z -> option Z)
    (from to flags : Z) : bool :=
  let found := if to =? 0 then first_from from flags else next_from from (to - 1) flags in
  match found with Some target => target =? to | None => false end.

Definition viy_code_xref_exists (first_from : Z -> Z -> option Z) (next_from : Z -> Z -> Z -> option Z)
    (from to code_flags noflow_flag : Z) : bool :=
  match first_from from code_flags with
  | Some target =>
      (target =? to) ||
      viy_sorted_xref_exists first_from next_from from to (Z.lor code_flags noflow_flag)
  | None => viy_sorted_xref_exists first_from next_from from to (Z.lor code_flags noflow_flag)
  end.

Section Questions.
Context `{Ida}.

(** The enumerator that an instruction type is, if it is one: a [switch] over them. *)
Definition x86_itype (itype : Z) : option X86Itype :=
  List.find (fun i => nn i =? itype) all_x86_itypes.

Definition detect_architecture : NativeArchitecture :=
  if ph_id =? PLFM_386 then Native_X86
  else if ph_id =? PLFM_ARM then (if inf_is_64bit then Native_Arm64 else Native_Arm32)
  else Native_Unsupported.

Fixpoint branch_target_of (ops : list op_t) : Z :=
  match ops with
  | [] => BADADDR
  | op :: ops =>
      match op_type op with
      | o_near | o_far => op_addr op
      | o_void => BADADDR
      | _ => branch_target_of ops
      end
  end.

Definition branch_target (insn : insn_t) : Z := branch_target_of (insn_ops insn).

Definition has_exact_code_xref (from to : Z) : bool :=
  viy_code_xref_exists first_from next_from from to XREF_CODE XREF_NOFLOW.

Fixpoint alternate_among (refs : list xref_t) (linear_predecessor : Z) : bool :=
  match refs with
  | [] => false
  | r :: refs =>
      if negb (xr_iscode r) then false
      else if negb (xr_from r =? linear_predecessor) then true
      else alternate_among refs linear_predecessor
  end.

Definition has_alternate_predecessor (at_ linear_predecessor : Z) : bool :=
  alternate_among (code_xrefs_to at_) linear_predecessor.

Definition mapped_loaded (ea : Z) : bool := negb (ea =? BADADDR) && is_mapped ea && is_loaded ea.

Definition has_perm (s : segment_t) (bit : Z) : bool := negb (Z.land (seg_perm s) bit =? 0).

Definition executable_address (ea : Z) (allow_existing_code : bool) : bool :=
  if negb (mapped_loaded ea) then false
  else
    match getseg ea with
    | None => false
    | Some seg => if has_perm seg SEGPERM_EXEC then true else allow_existing_code && is_code ea
    end.

Definition aligned_control_target (arch : NativeArchitecture) (target : Z) : bool :=
  match arch with
  | Native_Arm64 => Z.land target 3 =? 0
  | Native_Arm32 => Z.land target 1 =? 0
  | _ => true
  end.

Definition usable_control_target (arch : NativeArchitecture) (target : Z) : bool :=
  aligned_control_target arch target && executable_address target true.

Definition is_direct_control_flow (insn : insn_t) : bool :=
  if branch_target insn =? BADADDR then false
  else if is_call_insn insn then true
  else is_basic_block_end insn.

Definition direct_call_target (insn : insn_t) : option Z :=
  if negb (is_call_insn insn) then None
  else
    let t := branch_target insn in
    if (t =? BADADDR) || (t =? ea_add (insn_ea insn) (insn_size insn)) then None else Some t.

(** ** Registers *)

(** [std::tolower] and [std::toupper] in the C locale. *)
Definition tolower (b : byte) : byte :=
  if (65 <=? b2z b) && (b2z b <=? 90) then z2b (b2z b + 32) else b.
Definition toupper (b : byte) : byte :=
  if (97 <=? b2z b) && (b2z b <=? 122) then z2b (b2z b - 32) else b.
Definition map_string (f : byte -> byte) (s : string) : string := bytes_str (map f (str_bytes s)).

(** [size_t(-1)] is the size of a type without one. *)
Definition register_width (op : op_t) : Z :=
  let width := get_dtype_size (op_dtype op) in
  if (width =? 0) || (width =? u64_max) then 8 else width.

(** The lower-case name, empty where there is none; the width is set for registers only. *)
Definition operand_register_name (op : op_t) : string :=
  if bool_decide (op_type op = o_reg) then
    match get_reg_name (op_reg op) (register_width op) with
    | None => EmptyString
    | Some name => map_string tolower name
    end
  else EmptyString.

Definition operand_register_width (op : op_t) : Z :=
  if bool_decide (op_type op = o_reg) then register_width op else 0.

Definition is_zero_register (op : op_t) : bool :=
  let n := map_string toupper (operand_register_name op) in
  bool_decide (n = "XZR"%string) || bool_decide (n = "WZR"%string).

(** ** Conditions of branches *)

Inductive NativeCondition : Type :=
  | NC_Overflow | NC_NotOverflow | NC_Carry | NC_NotCarry | NC_Zero | NC_NotZero
  | NC_BelowOrEqual | NC_Above | NC_Sign | NC_NotSign | NC_Parity | NC_NotParity
  | NC_Less | NC_GreaterOrEqual | NC_LessOrEqual | NC_Greater | NC_Invalid.

Definition native_condition_value (c : NativeCondition) : Z :=
  match c with
  | NC_Overflow => 0 | NC_NotOverflow => 1 | NC_Carry => 2 | NC_NotCarry => 3 | NC_Zero => 4
  | NC_NotZero => 5 | NC_BelowOrEqual => 6 | NC_Above => 7 | NC_Sign => 8 | NC_NotSign => 9
  | NC_Parity => 10 | NC_NotParity => 11 | NC_Less => 12 | NC_GreaterOrEqual => 13
  | NC_LessOrEqual => 14 | NC_Greater => 15 | NC_Invalid => 0xffff
  end.

Definition condition_of (i : X86Itype) : NativeCondition :=
  match i with
  | NN_jo => NC_Overflow
  | NN_jno => NC_NotOverflow
  | NN_jb | NN_jc | NN_jnae => NC_Carry
  | NN_jnb | NN_jnc | NN_jae => NC_NotCarry
  | NN_jz | NN_je => NC_Zero
  | NN_jnz | NN_jne => NC_NotZero
  | NN_jbe | NN_jna => NC_BelowOrEqual
  | NN_ja | NN_jnbe => NC_Above
  | NN_js => NC_Sign
  | NN_jns => NC_NotSign
  | NN_jp | NN_jpe => NC_Parity
  | NN_jnp | NN_jpo => NC_NotParity
  | NN_jl | NN_jnge => NC_Less
  | NN_jnl | NN_jge => NC_GreaterOrEqual
  | NN_jle | NN_jng => NC_LessOrEqual
  | NN_jnle | NN_jg => NC_Greater
  | _ => NC_Invalid
  end.

Definition x86_condition (itype : Z) : NativeCondition :=
  match x86_itype itype with Some i => condition_of i | None => NC_Invalid end.

Definition condition_invalid (c : NativeCondition) : bool :=
  match c with NC_Invalid => true | _ => false end.

Definition opposite_x86_conditions (a b : NativeCondition) : bool :=
  if condition_invalid a || condition_invalid b then false
  else Z.lxor (native_condition_value a) 1 =? native_condition_value b.

Definition arm_condition (insn : insn_t) : Z := Z.land (insn_segpref insn) 0x0f.

Definition has_itype (insn : insn_t) (i : ArmItype) : bool := insn_itype insn =? arm i.

Definition same_first_register (a b : insn_t) : bool :=
  bool_decide (op_type (Op1 a) = o_reg) && bool_decide (op_type (Op1 b) = o_reg) &&
  (op_reg (Op1 a) =? op_reg (Op1 b)).

(** The family and the two conditions, or [None] where the code returns false. *)
Definition arm_branch_family (a b : insn_t) : option (NativeOppositeBranchFamily * Z * Z) :=
  if has_itype a ARM_b && has_itype b ARM_b then
    let ca := arm_condition a in
    let cb := arm_condition b in
    if (14 <=? ca) || (14 <=? cb) || negb (Z.lxor ca 1 =? cb) then None
    else Some (Family_ArmCondition, ca, cb)
  else if ((has_itype a ARM_cbz && has_itype b ARM_cbnz) ||
           (has_itype a ARM_cbnz && has_itype b ARM_cbz)) && same_first_register a b
  then Some (Family_ArmCompareZero, insn_itype a, insn_itype b)
  else if ((has_itype a ARM_tbz && has_itype b ARM_tbnz) ||
           (has_itype a ARM_tbnz && has_itype b ARM_tbz)) && same_first_register a b &&
          bool_decide (op_type (Op2 a) = o_imm) && bool_decide (op_type (Op2 b) = o_imm) &&
          (op_value (Op2 a) =? op_value (Op2 b))
  then Some (Family_ArmTestBit, insn_itype a, insn_itype b)
  else None.

(** ** Legacy prefixes *)

Definition operands_equivalent (a b : op_t) : bool :=
  if negb (bool_decide (op_type a = op_type b)) || negb (op_dtype a =? op_dtype b) ||
     negb (op_flags a =? op_flags b)
  then false
  else if bool_decide (op_type a = o_void) then true
  else
    (op_reg a =? op_reg b) && (op_value a =? op_value b) && (op_addr a =? op_addr b) &&
    (op_specval a =? op_specval b) && (op_specflag1 a =? op_specflag1 b) &&
    (op_specflag2 a =? op_specflag2 b) && (op_specflag3 a =? op_specflag3 b) &&
    (op_specflag4 a =? op_specflag4 b).

Fixpoint operand_lists_equivalent (prefixed plain : list op_t) : bool :=
  match prefixed, plain with
  | a :: prefixed, b :: plain =>
      if negb (operands_equivalent a b) then false
      else if bool_decide (op_type a = o_void) then true
      else operand_lists_equivalent prefixed plain
  | _, _ => true
  end.

Definition instructions_equivalent_ignoring_legacy_prefix (prefixed plain : insn_t) : bool :=
  if negb (insn_itype prefixed =? insn_itype plain) || negb (insn_size prefixed =? insn_size plain + 1)
  then false
  else if negb (get_canon_feature prefixed =? get_canon_feature plain) then false
  else operand_lists_equivalent (insn_ops prefixed) (insn_ops plain).

Definition one_of (value : Z) (values : list Z) : bool := existsb (Z.eqb value) values.

Definition legacy_prefix_may_be_redundant (ea : Z) (prefixed : insn_t) : bool :=
  let prefix := get_byte ea in
  if negb (prefix =? 0xf2) && negb (prefix =? 0xf3) then false
  else if negb (is_loaded (ea_add ea 1)) then false
  else
    let opcode := get_byte (ea_add ea 1) in
    if one_of opcode [0x0f; 0x66; 0x67; 0xf0; 0xf2; 0xf3] then false
    else if (prefix =? 0xf3) && (opcode =? 0x90) then false
    else if (prefix =? 0xf3) && one_of opcode [0xc2; 0xc3; 0xca; 0xcb] then false
    else if ((0xa4 <=? opcode) && (opcode <=? 0xa7)) || ((0xaa <=? opcode) && (opcode <=? 0xaf)) ||
            ((0x6c <=? opcode) && (opcode <=? 0x6f))
    then false
    else negb (is_call_insn prefixed || is_basic_block_end prefixed).

(** ** Flags *)

Inductive NativeFlagEffect : Type :=
  Effect_Unknown | Effect_Preserve | Effect_Clear | Effect_Set | Effect_Flip.

Definition same_register_operands (insn : insn_t) : bool :=
  bool_decide (op_type (Op1 insn) = o_reg) && bool_decide (op_type (Op2 insn) = o_reg) &&
  (op_reg (Op1 insn) =? op_reg (Op2 insn)).

Definition preserves_common_x86_flags (itype : Z) : bool :=
  if negb (condition_invalid (x86_condition itype)) then true
  else
    match x86_itype itype with
    | Some (NN_mov | NN_movsx | NN_movzx | NN_movsxd | NN_lea | NN_nop | NN_not | NN_push | NN_pop |
            NN_pusha | NN_popa | NN_pushf | NN_pushfd | NN_pushfq | NN_xchg | NN_bswap | NN_leave |
            NN_jmp | NN_jmpni | NN_jmpfi | NN_jcxz | NN_jecxz | NN_jrcxz) => true
    | _ => false
    end.

Definition zero_immediate (op : op_t) : bool :=
  bool_decide (op_type op = o_imm) && (op_value op =? 0).

(** What the [switch] decides, or [None] where it falls through to the common case. *)
Definition carry_effect (insn : insn_t) : option NativeFlagEffect :=
  match x86_itype (insn_itype insn) with
  | Some NN_stc => Some Effect_Set
  | Some NN_clc => Some Effect_Clear
  | Some NN_cmc => Some Effect_Flip
  | Some (NN_and | NN_or | NN_test | NN_xor) => Some Effect_Clear
  | Some (NN_sub | NN_cmp) => if same_register_operands insn then Some Effect_Clear else None
  | Some (NN_inc | NN_dec) => Some Effect_Preserve
  | _ => None
  end.

Definition zero_effect (insn : insn_t) : option NativeFlagEffect :=
  match x86_itype (insn_itype insn) with
  | Some (NN_xor | NN_sub | NN_cmp) => if same_register_operands insn then Some Effect_Set else None
  | Some NN_and => if zero_immediate (Op2 insn) then Some Effect_Set else None
  | Some NN_test =>
      if zero_immediate (Op1 insn) || zero_immediate (Op2 insn) then Some Effect_Set else None
  | Some (NN_stc | NN_clc | NN_cmc) => Some Effect_Preserve
  | _ => None
  end.

Definition flag_effect (insn : insn_t) (flag : NativeTrackedFlag) : NativeFlagEffect :=
  match match flag with Flag_Carry => carry_effect insn | Flag_Zero => zero_effect insn end with
  | Some effect => effect
  | None => if preserves_common_x86_flags (insn_itype insn) then Effect_Preserve else Effect_Unknown
  end.

Record FlagScanResult : Type := {
  fs_known : bool;
  fs_value : NativeFlagValue;
  fs_definition_ea : Z;
  fs_scanned : Z
}.

Definition scan_unknown (scanned : Z) : FlagScanResult :=
  {| fs_known := false; fs_value := Flag_Clear; fs_definition_ea := BADADDR; fs_scanned := scanned |}.

(** The backward walk; [depth] instructions at most. *)
Fixpoint scan_flag_loop (depth : nat) (chunk_start : Z) (flag : NativeTrackedFlag)
    (scan : Z) (flipped : bool) (scanned : Z) : FlagScanResult :=
  match depth with
  | O => scan_unknown scanned
  | S depth =>
      let prev := prev_head scan chunk_start in
      if (prev =? BADADDR) || (prev <? chunk_start) || negb (is_code prev) then scan_unknown scanned
      else
        match decode_insn prev with
        | None => scan_unknown scanned
        | Some insn =>
            if negb (ea_add prev (insn_size insn) =? scan) then scan_unknown scanned
            else if has_alternate_predecessor scan prev then scan_unknown scanned
            else
              let scanned := scanned + 1 in
              match flag_effect insn flag with
              | Effect_Flip => scan_flag_loop depth chunk_start flag prev (negb flipped) scanned
              | (Effect_Set | Effect_Clear) as effect =>
                  let set := match effect with Effect_Set => true | _ => false end in
                  {| fs_known := true;
                     fs_value := if xorb set flipped then Flag_Set else Flag_Clear;
                     fs_definition_ea := prev; fs_scanned := scanned |}
              | Effect_Preserve => scan_flag_loop depth chunk_start flag prev flipped scanned
              | Effect_Unknown => scan_unknown scanned
              end
        end
  end.

Definition scan_known_flag (branch_ea chunk_start depth : Z) (flag : NativeTrackedFlag) : FlagScanResult :=
  scan_flag_loop (Z.to_nat depth) chunk_start flag branch_ea false 0.

Definition flag_branch_outcome (condition : NativeCondition) (flag : NativeTrackedFlag)
    (value : NativeFlagValue) : option NativeBranchOutcome :=
  let set := bool_decide (value = Flag_Set) in
  match flag, condition with
  | Flag_Carry, NC_Carry => Some (if set then AlwaysTaken else NeverTaken)
  | Flag_Carry, NC_NotCarry => Some (if set then NeverTaken else AlwaysTaken)
  | Flag_Carry, NC_BelowOrEqual => if set then Some AlwaysTaken else None
  | Flag_Carry, NC_Above => if set then Some NeverTaken else None
  | Flag_Zero, NC_Zero => Some (if set then AlwaysTaken else NeverTaken)
  | Flag_Zero, NC_NotZero => Some (if set then NeverTaken else AlwaysTaken)
  | Flag_Zero, (NC_BelowOrEqual | NC_LessOrEqual) => if set then Some AlwaysTaken else None
  | Flag_Zero, (NC_Above | NC_Greater) => if set then Some NeverTaken else None
  | _, _ => None
  end.
End Questions.

(** ** Heads *)

(** What the walk relies on: [next_head] seeks to the next head before a limit. *)
Class IdaHeads `{Ida} : Prop := {
  next_head_law ea end_ : 0 <= ea < end_ -> end_ <= u64_max ->
    (next_head ea end_ = BADADDR /\ forall x, ea < x < end_ -> is_head x = false) \/
    (ea < next_head ea end_ < end_ /\ is_head (next_head ea end_) = true /\
     forall x, ea < x < next_head ea end_ -> is_head x = false)
}.
