(* ===== verification/NativeListing.v ===== *)
(** * A small database (native_analysis.cpp)

    The questions of [Ida] answered from a list of decoded instructions in the order of
    their addresses, with one function of one chunk over them.  It stands for the
    disassembler where a theorem is applied to a concrete program. *)
From stdpp Require Import base numbers list strings option sets.
From Stdlib Require Import ZArith Init.Byte Sorting.Sorted Lia.
From S2P Require Import Prelude NativeTypes NativeDatabase.

#[local] Open Scope viy_scope.

(** The place of an instruction type in the enumeration. *)
Definition place {A} `{EqDecision A} (l : list A) (x : A) : Z :=
  match list_find (fun y => y = x) l with Some (i, _) => Z.of_nat i + 1 | None => 0 end.

Definition x86_number : X86Itype -> Z := place all_x86_itypes.
Definition arm_number : ArmItype -> Z := place all_arm_itypes.

(** An operand and an instruction. *)
Definition an_operand (type : OpType) (dtype reg value addr : Z) : op_t := {|
  op_type := type; op_dtype := dtype; op_flags := 0; op_reg := reg; op_value := value;
  op_addr := addr; op_specval := 0; op_specflag1 := 0; op_specflag2 := 0; op_specflag3 := 0;
  op_specflag4 := 0 |}.

Definition an_insn (ea size itype : Z) (ops : list op_t) : insn_t :=
  {| insn_ea := ea; insn_size := size; insn_itype := itype; insn_segpref := 0; insn_ops := ops |}.

Definition near_to (target : Z) : op_t := an_operand o_near 0 0 0 target.

Section Listing.
(** [calls] and [blocks] classify the instruction types; [refs] are the references to an
    address in the order of the cursor. *)
Context (processor : Z) (wide : bool) (ends : Z -> bool) (refs : Z -> list xref_t) (listing : list insn_t).

Definition starts : list Z := map insn_ea listing.

Definition listing_bounds : Z * Z :=
  (hd 0 starts, match last listing with Some i => insn_ea i + insn_size i | None => 0 end).

Definition next_start (ea end_ : Z) : Z :=
  match List.find (fun x => ea <? x) starts with
  | Some x => if x <? end_ then x else BADADDR
  | None => BADADDR
  end.

Definition prev_start (ea min : Z) : Z :=
  match List.find (fun x => x <? ea) (rev starts) with
  | Some x => if min <=? x then x else BADADDR
  | None => BADADDR
  end.

Definition in_listing (ea : Z) : bool := (fst listing_bounds <=? ea) && (ea <? snd listing_bounds).

Definition listing_segment : segment_t :=
  {| seg_start_ea := fst listing_bounds; seg_end_ea := snd listing_bounds; seg_perm := 1 |}.

Definition listing_function : func_t :=
  {| fn_start_ea := fst listing_bounds; fn_chunks := [listing_bounds] |}.

Definition listed (ea : Z) : option insn_t := List.find (fun i => insn_ea i =? ea) listing.

Definition if_listed {A} (ea : Z) (x : A) : option A := if in_listing ea then Some x else None.

#[local] Instance listing_ida : Ida := {
  ph_id := processor; PLFM_386 := 0; PLFM_ARM := 1; inf_is_64bit := wide;
  nn := x86_number; arm := arm_number;
  SEGPERM_EXEC := 1; SEGPERM_WRITE := 2; XREF_CODE := 1; XREF_NOFLOW := 2; CF_CHG1 := 1; CF_USE1 := 2;
  is_mapped := in_listing; is_loaded := in_listing; get_byte _ := 0;
  is_code := in_listing; is_head ea := existsb (Z.eqb ea) starts; is_tail _ := false;
  has_xref _ := false; has_user_name _ := false;
  get_item_size ea := match listed ea with Some i => insn_size i | None => 0 end;
  prev_head := prev_start; next_head := next_start;
  getseg ea := if_listed ea listing_segment; all_segments := [Some listing_segment];
  get_func ea := if_listed ea listing_function; all_functions := [Some listing_function];
  decode_insn := listed; get_canon_feature _ := 0; is_call_insn _ := false; is_ret_insn _ := false;
  is_indirect_jump_insn _ := false; is_basic_block_end i := ends (insn_itype i);
  get_dtype_size d := Z.max 0 d; get_reg_name _ _ := None;
  code_xrefs_to := refs; first_from _ _ := None; next_from _ _ _ := None;
  reg_value_info_t := unit; get_num _ := None; get_def_ea _ := BADADDR;
  find_reg_value_info _ _ _ := None; has_regfinder := false; find_op_addr _ _ _ := tt;
  emulate_mem_read r _ _ := r
}.

Lemma next_start_law ea end_ :
  StronglySorted Z.lt starts ->
  (next_start ea end_ = BADADDR /\ forall x, ea < x < end_ -> existsb (Z.eqb x) starts = false) \/
  (ea < next_start ea end_ < end_ /\ existsb (Z.eqb (next_start ea end_)) starts = true /\
   forall x, ea < x < next_start ea end_ -> existsb (Z.eqb x) starts = false).
Proof.
  assert (forall (l : list Z) x, Forall (Z.lt x) l -> forall y, y <= x -> existsb (Z.eqb y) l = false) as Hlt.
  { intros l x Hl y Hy. apply not_true_is_false. intros (z & Hz & ->%Z.eqb_eq)%existsb_exists.
    apply list_elem_of_In in Hz. rewrite Forall_forall in Hl. specialize (Hl _ Hz). lia. }
  unfold next_start. induction 1 as [|h l Hs IH Hh]; cbn [List.find existsb]; [by left|].
  destruct (Z.ltb_spec ea h) as [He|He].
  - destruct (Z.ltb_spec h end_) as [Hh'|Hh'].
    + right. rewrite Z.eqb_refl. split; [done|split; [done|]]. intros x Hx.
      rewrite (proj2 (Z.eqb_neq _ _)) by lia. apply (Hlt l h); [done|lia].
    + left. split; [done|]. intros x Hx. rewrite (proj2 (Z.eqb_neq _ _)) by lia.
      apply (Hlt l h); [done|lia].
  - destruct IH as [[Hn Hx]|(Hr & Hn & Hx)]; [left|right].
    + split; [done|]. intros x Hxr. rewrite (Hx x Hxr), (proj2 (Z.eqb_neq _ _)); [done|lia].
    + rewrite Hn, orb_true_r. split; [done|split; [done|]]. intros x Hxr.
      rewrite (Hx x Hxr), (proj2 (Z.eqb_neq _ _)); [done|lia].
Qed.

Lemma listing_heads : StronglySorted Z.lt starts -> IdaHeads.
Proof. intros Hs. split. intros ea end_ _ _. by apply next_start_law. Qed.
End Listing.
