(* ===== verification/NativeScan.v ===== *)
(** * The native analysis (native_analysis.cpp)

    [NativeAnalysisProvider] walks the instructions of functions and of code outside
    functions, looks at each of them for the six kinds of facts, and reports a fact to its
    sink unless it has reported it before for the same function.  The database is [Ida];
    the sink and the progress callback act on the state of the client. *)
From stdpp Require Import base numbers list strings option sets gmap.
From Stdlib Require Import ZArith Init.Byte Lia.
From S2P Require Import Prelude NativeTypes NativeDatabase.

#[local] Open Scope viy_scope.

(** What the caller gives the analysis: [NativeFactSink::emit] and the progress callback. *)
Class NativeClient (S : Type) : Type := {
  sink_emit : NativeFact -> S -> S;
  on_progress : NativeAnalysisProgress -> S -> S
}.

(** [emitted_by_function], a set of keys for each function. *)
Notation KeyMap := (gmap Z (gset FactKey)).

Record ScanContext : Type := { sx_function_ea : Z; sx_chunk_start : Z; sx_chunk_end : Z }.

Record ProgressContext : Type := {
  px_stage : NativeAnalysisProgressStage;
  px_functions_completed : Z;
  px_functions_total : Z;
  px_last_instructions : Z
}.

(** What a scan changes. *)
Record Scan (S : Type) : Type := {
  sc_emitted : KeyMap;
  sc_stats : NativeAnalysisStats;
  sc_progress : ProgressContext;
  sc_client : S
}.
#[global] Arguments sc_emitted {S}.
#[global] Arguments sc_stats {S}.
#[global] Arguments sc_progress {S}.
#[global] Arguments sc_client {S}.

(** ** Counters *)

Definition stats_scanned (functions chunks instructions failures deduplicated : Z)
    (s : NativeAnalysisStats) : NativeAnalysisStats := {|
  ns_architecture := ns_architecture s;
  ns_epoch := ns_epoch s;
  ns_functions_scanned := ns_functions_scanned s + functions;
  ns_chunks_scanned := ns_chunks_scanned s + chunks;
  ns_instructions_scanned := ns_instructions_scanned s + instructions;
  ns_decode_failures := ns_decode_failures s + failures;
  ns_facts_emitted := ns_facts_emitted s;
  ns_facts_deduplicated := ns_facts_deduplicated s + deduplicated;
  ns_indirect_targets := ns_indirect_targets s;
  ns_zero_register_branches := ns_zero_register_branches s;
  ns_opposite_branch_pairs := ns_opposite_branch_pairs s;
  ns_known_flag_branches := ns_known_flag_branches s;
  ns_function_candidates := ns_function_candidates s;
  ns_decode_discrepancies := ns_decode_discrepancies s;
  ns_register_tracker := ns_register_tracker s;
  ns_operand_address_tracker := ns_operand_address_tracker s |}.

Definition stats_emitted (payload : NativeFactPayload) (s : NativeAnalysisStats) : NativeAnalysisStats :=
  let count (p : NativeFactPayload -> bool) := if p payload then 1 else 0 in {|
  ns_architecture := ns_architecture s;
  ns_epoch := ns_epoch s;
  ns_functions_scanned := ns_functions_scanned s;
  ns_chunks_scanned := ns_chunks_scanned s;
  ns_instructions_scanned := ns_instructions_scanned s;
  ns_decode_failures := ns_decode_failures s;
  ns_facts_emitted := ns_facts_emitted s + 1;
  ns_facts_deduplicated := ns_facts_deduplicated s;
  ns_indirect_targets :=
    ns_indirect_targets s + count (fun p => match p with N_IndirectTarget _ => true | _ => false end);
  ns_zero_register_branches := ns_zero_register_branches s +
    count (fun p => match p with N_ZeroRegisterBranch _ => true | _ => false end);
  ns_opposite_branch_pairs := ns_opposite_branch_pairs s +
    count (fun p => match p with N_OppositeBranchPair _ => true | _ => false end);
  ns_known_flag_branches := ns_known_flag_branches s +
    count (fun p => match p with N_KnownFlagBranch _ => true | _ => false end);
  ns_function_candidates := ns_function_candidates s +
    count (fun p => match p with N_FunctionCandidate _ => true | _ => false end);
  ns_decode_discrepancies := ns_decode_discrepancies s +
    count (fun p => match p with N_DecodeDiscrepancy _ => true | _ => false end);
  ns_register_tracker := ns_register_tracker s;
  ns_operand_address_tracker := ns_operand_address_tracker s |}.

Definition stats_trackers (reg operand : NativeCapabilityState) (s : NativeAnalysisStats) :
    NativeAnalysisStats := {|
  ns_architecture := ns_architecture s;
  ns_epoch := ns_epoch s;
  ns_functions_scanned := ns_functions_scanned s;
  ns_chunks_scanned := ns_chunks_scanned s;
  ns_instructions_scanned := ns_instructions_scanned s;
  ns_decode_failures := ns_decode_failures s;
  ns_facts_emitted := ns_facts_emitted s;
  ns_facts_deduplicated := ns_facts_deduplicated s;
  ns_indirect_targets := ns_indirect_targets s;
  ns_zero_register_branches := ns_zero_register_branches s;
  ns_opposite_branch_pairs := ns_opposite_branch_pairs s;
  ns_known_flag_branches := ns_known_flag_branches s;
  ns_function_candidates := ns_function_candidates s;
  ns_decode_discrepancies := ns_decode_discrepancies s;
  ns_register_tracker := reg;
  ns_operand_address_tracker := operand |}.

Section Updates.
Context {S : Type}.

Definition with_stats (f : NativeAnalysisStats -> NativeAnalysisStats) (s : Scan S) : Scan S := {|
  sc_emitted := sc_emitted s; sc_stats := f (sc_stats s); sc_progress := sc_progress s;
  sc_client := sc_client s |}.

Definition with_progress (f : ProgressContext -> ProgressContext) (s : Scan S) : Scan S := {|
  sc_emitted := sc_emitted s; sc_stats := sc_stats s; sc_progress := f (sc_progress s);
  sc_client := sc_client s |}.

Definition set_register_tracker (state : NativeCapabilityState) : Scan S -> Scan S :=
  with_stats (fun st => stats_trackers state (ns_operand_address_tracker st) st).

Definition set_operand_tracker (state : NativeCapabilityState) : Scan S -> Scan S :=
  with_stats (fun st => stats_trackers (ns_register_tracker st) state st).
End Updates.

Section Analysis.
Context `{Ida} {S : Type} `{NativeClient S}.
Context (options : NativeAnalysisOptions) (current_epoch : Z) (arch : NativeArchitecture).

(** The context of a scan is always there; a null pointer is never passed. *)
Definition report_progress (stage_boundary force : bool) (s : Scan S) : Scan S :=
  if negb (op_progress options) then s
  else
    let interval := op_progress_instruction_interval options in
    let progress := sc_progress s in
    let stats := sc_stats s in
    let delta :=
      if px_last_instructions progress <=? ns_instructions_scanned stats
      then ns_instructions_scanned stats - px_last_instructions progress else 0 in
    if negb force && negb stage_boundary && ((interval =? 0) || (delta <? interval)) then s
    else {|
      sc_emitted := sc_emitted s;
      sc_stats := stats;
      sc_progress := {|
        px_stage := px_stage progress;
        px_functions_completed := px_functions_completed progress;
        px_functions_total := px_functions_total progress;
        px_last_instructions := ns_instructions_scanned stats |};
      sc_client := on_progress {|
        pg_stage := px_stage progress;
        pg_functions_completed := px_functions_completed progress;
        pg_functions_total := px_functions_total progress;
        pg_instructions_scanned := ns_instructions_scanned stats;
        pg_facts_emitted := ns_facts_emitted stats;
        pg_stage_boundary := stage_boundary |} (sc_client s) |}.

Definition provenance (ctx : ScanContext) (source : NativeEvidenceSource)
    (strength : NativeEvidenceStrength) (deterministic : bool) : NativeFactProvenance := {|
  np_epoch := current_epoch;
  np_function_ea := sx_function_ea ctx;
  np_chunk_start := sx_chunk_start ctx;
  np_chunk_end := sx_chunk_end ctx;
  np_architecture := arch;
  np_source := source;
  np_strength := strength;
  np_supporting_observations := 1;
  np_deterministic := deterministic |}.

Definition emit (ctx : ScanContext) (p : NativeFactProvenance) (payload : NativeFactPayload)
    (s : Scan S) : Scan S :=
  let fact := {| nx_provenance := p; nx_payload := payload |} in
  let key := fact_key payload in
  let scope := sx_function_ea ctx in
  let keys := default ∅ (sc_emitted s !! scope) in
  if decide (key ∈ keys) then with_stats (stats_scanned 0 0 0 0 1) s
  else {|
    sc_emitted := <[scope := {[key]} ∪ keys]> (sc_emitted s);
    sc_stats := stats_emitted payload (sc_stats s);
    sc_progress := sc_progress s;
    sc_client := sink_emit fact (sc_client s) |}.

(** ** One instruction *)

Definition candidate_reason (owned code indirect : bool) : NativeFunctionCandidateReason :=
  if owned then
    if indirect then Reason_IndirectCallToFunctionInterior else Reason_DirectCallToFunctionInterior
  else if code then
    if indirect then Reason_IndirectCallToUnownedCode else Reason_DirectCallToUnownedCode
  else if indirect then Reason_IndirectCallToDecodableBytes else Reason_DirectCallToDecodableBytes.

Definition emit_function_candidate (ctx : ScanContext) (callsite target : Z) (indirect : bool)
    (s : Scan S) : Scan S :=
  if negb (usable_control_target arch target) then s
  else if is_tail target then s
  else
    let owner := get_func target in
    if match owner with Some f => fn_start_ea f =? target | None => false end then s
    else
      match decode_insn target with
      | None => s
      | Some first =>
          if insn_size first =? 0 then s
          else
            let owned := match owner with Some _ => true | None => false end in
            emit ctx
              (provenance ctx Source_DirectControlFlow
                 (if is_code target then Strength_Strong else Strength_Candidate) false)
              (N_FunctionCandidate {|
                 nf_callsite_ea := callsite; nf_target_ea := target;
                 nf_reason := candidate_reason owned (is_code target) indirect;
                 nf_decoded_size := insn_size first; nf_target_is_code := is_code target;
                 nf_target_is_function_interior := owned |}) s
      end.

(** The lambda [record] of [inspect_indirect]. *)
Definition record_indirect (ctx : ScanContext) (insn : insn_t) (call : bool)
    (target definition pointer : Z) (resolution : NativeIndirectResolutionKind)
    (register_id : Z) (register_name : string) (value_width : Z) (s : Scan S) : Scan S :=
  if negb (usable_control_target arch target) then s
  else
    let existing := has_exact_code_xref (insn_ea insn) target in
    if existing && negb (op_emit_existing_indirect_edges options) then s
    else
      let s := emit ctx (provenance ctx Source_IdaRegfinder Strength_Strong true)
        (N_IndirectTarget {|
           ni_instruction_ea := insn_ea insn; ni_target_ea := target; ni_definition_ea := definition;
           ni_pointer_ea := pointer; ni_kind := if call then Flow_Call else Flow_Jump;
           ni_resolution := resolution; ni_register_id := register_id;
           ni_register_name := register_name; ni_value_width := value_width;
           ni_edge_already_present := existing |}) s in
      if call && op_find_function_candidates options
      then emit_function_candidate ctx (insn_ea insn) target true s else s.

(** The operands that an indirect transfer reads: the first register and the first memory
    operand. *)
Fixpoint used_operands (feature i : Z) (ops : list op_t) (register_operand memory_operand : option op_t) :
    option op_t * option op_t :=
  match ops with
  | [] => (register_operand, memory_operand)
  | op :: ops =>
      let skip := used_operands feature (i + 1) ops in
      match op_type op with
      | o_void => (register_operand, memory_operand)
      | type =>
          let changes := negb (Z.land feature (Z.shiftl CF_CHG1 i) =? 0) in
          let uses := negb (Z.land feature (Z.shiftl CF_USE1 i) =? 0) in
          if changes && negb uses then skip register_operand memory_operand
          else
            match type, register_operand with
            | o_reg, None => skip (Some op) memory_operand
            | (o_mem | o_phrase | o_displ), _ =>
                match memory_operand with
                | None => skip register_operand (if uses || (i =? 0) then Some op else None)
                | Some _ => skip register_operand memory_operand
                end
            | _, _ => skip register_operand memory_operand
            end
      end
  end.

Definition inspect_register (ctx : ScanContext) (insn : insn_t) (call : bool) (op : op_t) (s : Scan S) :
    Scan S :=
  match find_reg_value_info (insn_ea insn) (op_reg op) (op_regfinder_max_depth options) with
  | None => set_register_tracker Capability_Unavailable s
  | Some rvi =>
      let s :=
        match ns_register_tracker (sc_stats s) with
        | Capability_Unknown => set_register_tracker Capability_Available s
        | _ => s
        end in
      match get_num rvi with
      | None => s
      | Some value =>
          record_indirect ctx insn call value (get_def_ea rvi) BADADDR Resolution_RegisterValue
            (op_reg op) (operand_register_name op) (Z.min (operand_register_width op) u8_max) s
      end
  end.

Definition inspect_memory (ctx : ScanContext) (insn : insn_t) (call : bool) (op : op_t) (s : Scan S) :
    Scan S :=
  if negb has_regfinder then set_operand_tracker Capability_Unavailable s
  else
    let address := find_op_addr op insn (op_regfinder_max_depth options) in
    match get_num address with
    | None => s
    | Some pointer =>
        match getseg pointer with
        | None => s
        | Some seg =>
            if has_perm seg SEGPERM_WRITE then s
            else
              let width := get_dtype_size (op_dtype op) in
              if negb (width =? 2) && negb (width =? 4) && negb (width =? 8) then s
              else if BADADDR - width <? pointer then s
              else if negb (forallb (fun i => mapped_loaded (pointer + i)) (seqZ 0 width)) then s
              else
                let value := emulate_mem_read address width insn in
                match get_num value with
                | None => s
                | Some target =>
                    let definition := get_def_ea value in
                    record_indirect ctx insn call target
                      (if definition =? BADADDR then pointer else definition) pointer
                      Resolution_ReadOnlyMemoryValue (-1) EmptyString width s
                end
        end
    end.

Definition inspect_indirect (ctx : ScanContext) (insn : insn_t) (s : Scan S) : Scan S :=
  let call := is_call_insn insn in
  let jump := is_indirect_jump_insn insn in
  if (negb call && negb jump) || is_ret_insn insn then s
  else if negb (branch_target insn =? BADADDR) then s
  else if op_regfinder_max_depth options <? 0 then s
  else
    let '(register_operand, memory_operand) :=
      used_operands (get_canon_feature insn) 0 (insn_ops insn) None None in
    let s := match register_operand with Some op => inspect_register ctx insn call op s | None => s end in
    match memory_operand with Some op => inspect_memory ctx insn call op s | None => s end.

Definition zero_branch_outcome (insn : insn_t) : option NativeBranchOutcome :=
  if has_itype insn ARM_cbz || has_itype insn ARM_tbz then Some AlwaysTaken
  else if has_itype insn ARM_cbnz || has_itype insn ARM_tbnz then Some NeverTaken
  else None.

Definition inspect_zero_register_branch (ctx : ScanContext) (insn : insn_t) (s : Scan S) : Scan S :=
  if negb (bool_decide (arch = Native_Arm64)) || negb (is_zero_register (Op1 insn)) then s
  else
    match zero_branch_outcome insn with
    | None => s
    | Some outcome =>
        let target := branch_target insn in
        if negb (usable_control_target arch target) then s
        else emit ctx (provenance ctx Source_ArchitectureInvariant Strength_Exact true)
          (N_ZeroRegisterBranch {|
             nz_instruction_ea := insn_ea insn; nz_target_ea := target;
             nz_fallthrough_ea := ea_add (insn_ea insn) (insn_size insn); nz_outcome := outcome;
             nz_register_id := op_reg (Op1 insn);
             nz_register_name := operand_register_name (Op1 insn);
             nz_value_width := Z.min (operand_register_width (Op1 insn)) u8_max |}) s
    end.

(** The family and the conditions of a pair of branches. *)
Definition pair_family (first second : insn_t) : option (NativeOppositeBranchFamily * Z * Z) :=
  match arch with
  | Native_X86 =>
      let a := x86_condition (insn_itype first) in
      let b := x86_condition (insn_itype second) in
      if negb (opposite_x86_conditions a b) then None
      else Some (Family_X86Jcc, native_condition_value a, native_condition_value b)
  | Native_Arm32 | Native_Arm64 => arm_branch_family first second
  | Native_Unsupported => None
  end.

Definition inspect_opposite_pair (ctx : ScanContext) (first : insn_t) (s : Scan S) : Scan S :=
  let target := branch_target first in
  if (target =? BADADDR) || negb (usable_control_target arch target) then s
  else
    let second_ea := ea_add (insn_ea first) (insn_size first) in
    if (sx_chunk_end ctx <=? second_ea) || negb (is_code second_ea) then s
    else
      match decode_insn second_ea with
      | None => s
      | Some second =>
          if negb (branch_target second =? target) then s
          else
            let after := ea_add (insn_ea second) (insn_size second) in
            if (target =? insn_ea first) || (target =? insn_ea second) || (after =? target) then s
            else if has_alternate_predecessor (insn_ea second) (insn_ea first) then s
            else
              match pair_family first second with
              | None => s
              | Some (family, first_condition, second_condition) =>
                  emit ctx (provenance ctx Source_StructuralIdentity Strength_Exact true)
                    (N_OppositeBranchPair {|
                       no_first_ea := insn_ea first; no_second_ea := insn_ea second;
                       no_guaranteed_target_ea := target; no_unreachable_fallthrough_ea := after;
                       no_family := family; no_first_condition := first_condition;
                       no_second_condition := second_condition |}) s
              end
      end.

Definition inspect_known_flag (ctx : ScanContext) (branch : insn_t) (depth : Z)
    (condition : NativeCondition) (target : Z) (flag : NativeTrackedFlag) (s : Scan S) : Scan S :=
  let scan := scan_known_flag (insn_ea branch) (sx_chunk_start ctx) depth flag in
  if negb (fs_known scan) then s
  else
    match flag_branch_outcome condition flag (fs_value scan) with
    | None => s
    | Some outcome =>
        emit ctx (provenance ctx Source_LocalFlagProof Strength_Exact true)
          (N_KnownFlagBranch {|
             nk_instruction_ea := insn_ea branch; nk_target_ea := target;
             nk_fallthrough_ea := ea_add (insn_ea branch) (insn_size branch);
             nk_defining_instruction_ea := fs_definition_ea scan; nk_flag := flag;
             nk_value := fs_value scan; nk_outcome := outcome;
             nk_instructions_scanned := fs_scanned scan |}) s
    end.

Definition inspect_known_flag_branch (ctx : ScanContext) (branch : insn_t) (depth : Z) (s : Scan S) :
    Scan S :=
  if negb (bool_decide (arch = Native_X86)) || (depth =? 0) then s
  else
    let condition := x86_condition (insn_itype branch) in
    let target := branch_target branch in
    if condition_invalid condition || negb (usable_control_target arch target) then s
    else
      let s := inspect_known_flag ctx branch depth condition target Flag_Carry s in
      inspect_known_flag ctx branch depth condition target Flag_Zero s.

Definition inspect_direct_function_candidate (ctx : ScanContext) (insn : insn_t) (s : Scan S) : Scan S :=
  match direct_call_target insn with
  | Some target => emit_function_candidate ctx (insn_ea insn) target false s
  | None => s
  end.

Definition inspect_direct_target_decode (ctx : ScanContext) (insn : insn_t) (s : Scan S) : Scan S :=
  if negb (is_direct_control_flow insn) then s
  else
    let target := branch_target insn in
    if negb (aligned_control_target arch target) || negb (executable_address target false) ||
       is_code target
    then s
    else
      match decode_insn target with
      | None => s
      | Some decoded =>
          if insn_size decoded =? 0 then s
          else emit ctx (provenance ctx Source_DirectControlFlow Strength_Strong false)
            (N_DecodeDiscrepancy {|
               nd_address := target; nd_related_ea := insn_ea insn;
               nd_kind := Discrepancy_DirectTargetNotCode; nd_idb_item_size := 0;
               nd_decoded_size := insn_size decoded; nd_alternate_decoded_size := 0;
               nd_observed_byte := get_byte target |}) s
      end.

(** [uint16_t] of a size. *)
Definition to_u16 (v : Z) : Z := v mod 2 ^ 16.

Definition inspect_attached_prefix (ctx : ScanContext) (insn : insn_t) (s : Scan S) : Scan S :=
  if legacy_prefix_may_be_redundant (insn_ea insn) insn then
    match decode_insn (ea_add (insn_ea insn) 1) with
    | None => s
    | Some plain =>
        if negb (instructions_equivalent_ignoring_legacy_prefix insn plain) then s
        else emit ctx (provenance ctx Source_DecoderEquivalence Strength_Strong true)
          (N_DecodeDiscrepancy {|
             nd_address := insn_ea insn; nd_related_ea := ea_add (insn_ea insn) 1;
             nd_kind := Discrepancy_RedundantLegacyPrefix;
             nd_idb_item_size := to_u16 (get_item_size (insn_ea insn));
             nd_decoded_size := insn_size insn; nd_alternate_decoded_size := insn_size plain;
             nd_observed_byte := get_byte (insn_ea insn) |}) s
    end
  else s.

Definition inspect_detached_prefix (ctx : ScanContext) (insn : insn_t) (s : Scan S) : Scan S :=
  if insn_ea insn <=? sx_chunk_start ctx then s
  else
    let prefix_ea := insn_ea insn - 1 in
    if negb (is_loaded prefix_ea) || is_code prefix_ea || has_xref prefix_ea || has_user_name prefix_ea
    then s
    else
      match decode_insn prefix_ea with
      | None => s
      | Some prefixed =>
          if negb (legacy_prefix_may_be_redundant prefix_ea prefixed) ||
             negb (instructions_equivalent_ignoring_legacy_prefix prefixed insn)
          then s
          else emit ctx (provenance ctx Source_DecoderEquivalence Strength_Strong true)
            (N_DecodeDiscrepancy {|
               nd_address := prefix_ea; nd_related_ea := insn_ea insn;
               nd_kind := Discrepancy_DetachedLegacyPrefix;
               nd_idb_item_size := to_u16 (get_item_size (insn_ea insn));
               nd_decoded_size := insn_size prefixed; nd_alternate_decoded_size := insn_size insn;
               nd_observed_byte := get_byte prefix_ea |}) s
      end.

Definition inspect_prefix (ctx : ScanContext) (insn : insn_t) (s : Scan S) : Scan S :=
  if negb (bool_decide (arch = Native_X86)) then s
  else inspect_detached_prefix ctx insn (inspect_attached_prefix ctx insn s).

Definition inspect_item_size (ctx : ScanContext) (insn : insn_t) (s : Scan S) : Scan S :=
  let item_size := get_item_size (insn_ea insn) in
  if negb (item_size =? 0) && negb (item_size =? insn_size insn) then
    emit ctx (provenance ctx Source_IdaItemDiscrepancy Strength_Strong true)
      (N_DecodeDiscrepancy {|
         nd_address := insn_ea insn; nd_related_ea := kNativeBadAddress;
         nd_kind := Discrepancy_CodeItemSizeMismatch; nd_idb_item_size := Z.min item_size u16_max;
         nd_decoded_size := insn_size insn; nd_alternate_decoded_size := 0;
         nd_observed_byte := get_byte (insn_ea insn) |}) s
  else s.

(** A step that is taken when its option is set. *)
Definition if_set (option : bool) (f : Scan S -> Scan S) (s : Scan S) : Scan S := if option then f s else s.

Definition inspect_instruction (ctx : ScanContext) (insn : insn_t) (s : Scan S) : Scan S :=
  let s := if_set (op_detect_decode_discrepancies options)
    (fun s => inspect_direct_target_decode ctx insn (inspect_prefix ctx insn (inspect_item_size ctx insn s))) s in
  let s := if_set (op_resolve_indirect_control_flow options) (inspect_indirect ctx insn) s in
  let s := if_set (op_detect_zero_register_branches options) (inspect_zero_register_branch ctx insn) s in
  let s := if_set (op_detect_opposite_branch_pairs options) (inspect_opposite_pair ctx insn) s in
  let s := if_set (op_track_known_x86_flags options)
    (inspect_known_flag_branch ctx insn (op_flag_scan_depth options)) s in
  if_set (op_find_function_candidates options) (inspect_direct_function_candidate ctx insn) s.

(** ** The walk *)

Definition undecodable (ctx : ScanContext) (ea : Z) (s : Scan S) : Scan S :=
  emit ctx (provenance ctx Source_IdaItemDiscrepancy Strength_Strong true)
    (N_DecodeDiscrepancy {|
       nd_address := ea; nd_related_ea := kNativeBadAddress;
       nd_kind := Discrepancy_UndecodableCodeItem;
       nd_idb_item_size := Z.min (get_item_size ea) u16_max; nd_decoded_size := 0;
       nd_alternate_decoded_size := 0;
       nd_observed_byte := if is_loaded ea then get_byte ea else 0 |}) s.

(** One code head: [owned] tells the loop over a chunk from the one over a segment, which
    does not report heads that cannot be decoded. *)
Definition visit_head (owned : bool) (ctx : ScanContext) (ea : Z) (s : Scan S) : Scan S :=
  let s := with_stats (stats_scanned 0 0 1 0 0) s in
  let failed s :=
    let s := with_stats (stats_scanned 0 0 0 1 0) s in
    if_set (owned && op_detect_decode_discrepancies options) (undecodable ctx ea) s in
  let s :=
    match decode_insn ea with
    | Some insn => if negb (insn_size insn =? 0) then inspect_instruction ctx insn s else failed s
    | None => failed s
    end in
  report_progress false false s.

(** The loop over the heads of a range: at most [limit] instructions if it is not zero,
    [count] of which are done; [wanted] selects the heads. *)
Fixpoint scan_heads (fuel : nat) (wanted : Z -> bool) (owned : bool) (ctx : ScanContext)
    (limit ea count : Z) (s : Scan S) : Z * Scan S :=
  match fuel with
  | O => (count, s)
  | Datatypes.S fuel =>
      if (ea =? BADADDR) || (sx_chunk_end ctx <=? ea) then (count, s)
      else if negb (limit =? 0) && (limit <=? count) then (count, s)
      else
        let '(count, s) := if wanted ea then (count + 1, visit_head owned ctx ea s) else (count, s) in
        let next := next_head ea (sx_chunk_end ctx) in
        if (next =? BADADDR) || (next <=? ea) then (count, s)
        else scan_heads fuel wanted owned ctx limit next count s
  end.

Definition code_head (ea : Z) : bool := is_head ea && is_code ea.

Definition range_fuel (start end_ : Z) : nat := Z.to_nat (end_ - start).

Definition scan_chunk (ctx : ScanContext) (count limit : Z) (s : Scan S) : Z * Scan S :=
  scan_heads (range_fuel (sx_chunk_start ctx) (sx_chunk_end ctx)) code_head true ctx limit
    (sx_chunk_start ctx) count (with_stats (stats_scanned 0 1 0 0 0) s).

Fixpoint scan_chunks (function_ea : Z) (chunks : list (Z * Z)) (count : Z) (s : Scan S) : Scan S :=
  match chunks with
  | [] => s
  | (start, end_) :: chunks =>
      if end_ <=? start then scan_chunks function_ea chunks count s
      else
        let ctx := {| sx_function_ea := function_ea; sx_chunk_start := start; sx_chunk_end := end_ |} in
        let limit := op_max_instructions_per_function options in
        let '(count, s) := scan_chunk ctx count limit s in
        if negb (limit =? 0) && (limit <=? count) then s
        else scan_chunks function_ea chunks count s
  end.

Definition function_completed (p : ProgressContext) : ProgressContext := {|
  px_stage := px_stage p; px_functions_completed := px_functions_completed p + 1;
  px_functions_total := px_functions_total p; px_last_instructions := px_last_instructions p |}.

Definition set_stage (stage : NativeAnalysisProgressStage) (p : ProgressContext) : ProgressContext := {|
  px_stage := stage; px_functions_completed := px_functions_completed p;
  px_functions_total := px_functions_total p; px_last_instructions := px_last_instructions p |}.

Definition scan_function (f : func_t) (s : Scan S) : Scan S :=
  if fn_start_ea f =? BADADDR then s
  else
    let s := with_stats (stats_scanned 1 0 0 0 0) s in
    let s := scan_chunks (fn_start_ea f) (fn_chunks f) 0 s in
    report_progress false true (with_progress function_completed s).

Definition unowned_head (ea : Z) : bool :=
  code_head ea && match get_func ea with None => true | Some _ => false end.

Definition scannable_segment (seg : option segment_t) : option segment_t :=
  match seg with
  | Some seg =>
      if (seg_end_ea seg <=? seg_start_ea seg) || negb (has_perm seg SEGPERM_EXEC) then None else Some seg
  | None => None
  end.

(** The segments in turn, until the limit stops the walk inside one of them. *)
Fixpoint scan_segments (segs : list (option segment_t)) (total : Z) (s : Scan S) : Scan S :=
  match segs with
  | [] => s
  | seg :: segs =>
      match scannable_segment seg with
      | None => scan_segments segs total s
      | Some seg =>
          let ctx := {| sx_function_ea := BADADDR; sx_chunk_start := seg_start_ea seg;
                        sx_chunk_end := seg_end_ea seg |} in
          let '(total, s) :=
            scan_heads (range_fuel (seg_start_ea seg) (seg_end_ea seg)) unowned_head false ctx
              (op_max_unowned_instructions options) (seg_start_ea seg) total s in
          scan_segments segs total s
      end
  end.

Definition scan_unowned_code (s : Scan S) : Scan S :=
  let s := report_progress true true (with_progress (set_stage Stage_UNOWNED_CODE) s) in
  let s := scan_segments all_segments 0 s in
  report_progress false true s.
End Analysis.

(** ** The provider *)

Record Provider : Type := {
  pv_current_epoch : Z;
  pv_arch : NativeArchitecture;
  pv_emitted : KeyMap
}.

Definition new_provider : Provider :=
  {| pv_current_epoch := 1; pv_arch := Native_Unsupported; pv_emitted := ∅ |}.

(** What a caller can do with a provider. *)
Inductive NativeCall : Type :=
  | Call_AnalyzeDatabase (options : NativeAnalysisOptions)
  | Call_AnalyzeFunction (any_ea : Z) (options : NativeAnalysisOptions)
  | Call_AdvanceEpoch
  | Call_SetEpoch (epoch : Z)
  | Call_InvalidateFunction (any_ea : Z)
  | Call_Reset.

Section Operations.
Context `{Ida} {S : Type} `{NativeClient S}.

Definition make_stats (p : Provider) : NativeAnalysisStats := {|
  ns_architecture := detect_architecture;
  ns_epoch := pv_current_epoch p;
  ns_functions_scanned := 0; ns_chunks_scanned := 0; ns_instructions_scanned := 0;
  ns_decode_failures := 0; ns_facts_emitted := 0; ns_facts_deduplicated := 0;
  ns_indirect_targets := 0; ns_zero_register_branches := 0; ns_opposite_branch_pairs := 0;
  ns_known_flag_branches := 0; ns_function_candidates := 0; ns_decode_discrepancies := 0;
  ns_register_tracker := Capability_Unknown;
  ns_operand_address_tracker :=
    if bool_decide (detect_architecture = Native_Unsupported) then Capability_Unknown
    else if has_regfinder then Capability_Available else Capability_Unavailable |}.

Definition start_scan (p : Provider) (functions_total : Z) (client : S) : Scan S := {|
  sc_emitted := pv_emitted p;
  sc_stats := make_stats p;
  sc_progress := {| px_stage := Stage_FUNCTIONS; px_functions_completed := 0;
                    px_functions_total := functions_total; px_last_instructions := 0 |};
  sc_client := client |}.

Definition finish_scan (p : Provider) (s : Scan S) : NativeAnalysisStats * Provider * S :=
  (sc_stats s,
   {| pv_current_epoch := pv_current_epoch p; pv_arch := detect_architecture;
      pv_emitted := sc_emitted s |},
   sc_client s).

(** Where there is nothing to scan, completion is reported all the same. *)
Definition nothing_to_scan (options : NativeAnalysisOptions) (p : Provider) (client : S) :
    NativeAnalysisStats * Provider * S :=
  let client :=
    if op_progress options then
      on_progress {| pg_stage := Stage_COMPLETE; pg_functions_completed := 0; pg_functions_total := 0;
                     pg_instructions_scanned := 0; pg_facts_emitted := 0;
                     pg_stage_boundary := true |} client
    else client in
  finish_scan p (start_scan p 0 client).

Definition scan_entry (options : NativeAnalysisOptions) (epoch entry : Z) (s : Scan S) : Scan S :=
  match get_func entry with
  | Some f =>
      if fn_start_ea f =? entry then scan_function options epoch detect_architecture f s
      else report_progress options false true (with_progress function_completed s)
  | None => report_progress options false true (with_progress function_completed s)
  end.

(** The entries of the first functions, at most [limit]. *)
Fixpoint collect_entries (functions : list (option func_t)) (limit : nat) : list Z :=
  match limit, functions with
  | O, _ | _, [] => []
  | Datatypes.S limit, Some f :: functions => fn_start_ea f :: collect_entries functions limit
  | _, None :: functions => collect_entries functions limit
  end.

Definition entry_limit (options : NativeAnalysisOptions) : Z :=
  let function_count := zlen all_functions in
  if op_max_functions options =? 0 then function_count
  else Z.min function_count (op_max_functions options).

Definition complete (options : NativeAnalysisOptions) (s : Scan S) : Scan S :=
  report_progress options true true (with_progress (set_stage Stage_COMPLETE) s).

Definition analyze_database (options : NativeAnalysisOptions) (p : Provider) (client : S) :
    NativeAnalysisStats * Provider * S :=
  if bool_decide (detect_architecture = Native_Unsupported) then nothing_to_scan options p client
  else
    let entries := collect_entries all_functions (Z.to_nat (entry_limit options)) in
    let s := report_progress options true true (start_scan p (zlen entries) client) in
    let s := foldl (fun s entry => scan_entry options (pv_current_epoch p) entry s) s entries in
    let s :=
      if op_scan_unowned_executable_code options
      then scan_unowned_code options (pv_current_epoch p) detect_architecture s else s in
    finish_scan p (complete options s).

Definition analyze_function (any_ea : Z) (options : NativeAnalysisOptions) (p : Provider) (client : S) :
    NativeAnalysisStats * Provider * S :=
  if bool_decide (detect_architecture = Native_Unsupported) || (any_ea =? kNativeBadAddress)
  then nothing_to_scan options p client
  else
    let pfn := get_func any_ea in
    let total := match pfn with Some _ => 1 | None => 0 end in
    let s := report_progress options true true (start_scan p total client) in
    let s :=
      match pfn with
      | Some f => scan_function options (pv_current_epoch p) detect_architecture f s
      | None => s
      end in
    finish_scan p (complete options s).

Definition with_epoch (epoch : Z) (p : Provider) : Provider :=
  {| pv_current_epoch := epoch; pv_arch := pv_arch p; pv_emitted := pv_emitted p |}.

Definition advance_epoch (p : Provider) : Provider :=
  let next := (pv_current_epoch p + 1) mod 2 ^ 64 in
  with_epoch (if next =? 0 then 1 else next) p.

Definition set_epoch (epoch : Z) (p : Provider) : Provider :=
  with_epoch (if epoch =? 0 then 1 else epoch) p.

Definition forget (keys : KeyMap) (p : Provider) : Provider :=
  {| pv_current_epoch := pv_current_epoch p; pv_arch := pv_arch p; pv_emitted := keys |}.

(** The scope that an address belongs to. *)
Definition function_scope (any_ea : Z) : Z :=
  if negb (any_ea =? kNativeBadAddress) then
    match get_func any_ea with Some f => fn_start_ea f | None => any_ea end
  else any_ea.

Definition invalidate_function (any_ea : Z) (p : Provider) : Provider :=
  advance_epoch (forget (base.delete (function_scope any_ea) (pv_emitted p)) p).

Definition reset (p : Provider) : Provider := advance_epoch (forget ∅ p).

Definition call (c : NativeCall) (p : Provider) (client : S) : Provider * S :=
  match c with
  | Call_AnalyzeDatabase options => let '(_, p, client) := analyze_database options p client in (p, client)
  | Call_AnalyzeFunction ea options => let '(_, p, client) := analyze_function ea options p client in (p, client)
  | Call_AdvanceEpoch => (advance_epoch p, client)
  | Call_SetEpoch epoch => (set_epoch epoch p, client)
  | Call_InvalidateFunction ea => (invalidate_function ea p, client)
  | Call_Reset => (reset p, client)
  end.
End Operations.
