(* ===== verification/NativeReports.v ===== *)
(** * What the native analysis reports (native_analysis.cpp)

    A scan offers facts to [emit], which passes on those that the provider has not reported
    before.  The facts that a scan offers do not depend on what has been reported, on the
    counters or on the client ([offers]); so a scan with a history reports what a scan
    without one reports, less the history, and a provider reports a fact once until its
    function is invalidated. *)
From stdpp Require Import base numbers list strings option sets gmap.
From Stdlib Require Import ZArith Init.Byte Lia.
From S2P Require Import Prelude NativeTypes NativeDatabase NativeScan.

(** ** Selecting new facts *)

Definition fact_scope (g : NativeFact) : Z := np_function_ea (nx_provenance g).

Definition known (m : KeyMap) (g : NativeFact) : Prop :=
  fact_key (nx_payload g) ∈ default ∅ (m !! fact_scope g).

#[export] Instance known_dec m g : Decision (known m g).
Proof. unfold known. apply _. Defined.

Definition learn (g : NativeFact) (m : KeyMap) : KeyMap :=
  <[fact_scope g := {[fact_key (nx_payload g)]} ∪ default ∅ (m !! fact_scope g)]> m.

(** The new facts of a list, and what is known after it. *)
Fixpoint take_new (gs : list NativeFact) (m : KeyMap) : list NativeFact * KeyMap :=
  match gs with
  | [] => ([], m)
  | g :: gs =>
      if decide (known m g) then take_new gs m
      else let r := take_new gs (learn g m) in (g :: r.1, r.2)
  end.

Lemma take_new_app l1 l2 m :
  take_new (l1 ++ l2) m =
  ((take_new l1 m).1 ++ (take_new l2 (take_new l1 m).2).1, (take_new l2 (take_new l1 m).2).2).
Proof.
  revert m. induction l1 as [|g l1 IH]; intros m; cbn [take_new app].
  { cbn. by destruct (take_new l2 m). }
  destruct (decide (known m g)); [apply IH|]. cbn zeta. rewrite IH. done.
Qed.

(** Two facts with the same scope and key. *)
Definition same_entry (g h : NativeFact) : Prop :=
  fact_scope g = fact_scope h /\ fact_key (nx_payload g) = fact_key (nx_payload h).

Lemma known_learn g h m : known (learn g m) h <-> same_entry g h \/ known m h.
Proof.
  unfold known, learn, same_entry. destruct (decide (fact_scope g = fact_scope h)) as [->|Hne].
  - rewrite lookup_insert_eq. cbn [default]. set_solver.
  - rewrite lookup_insert_ne by done. naive_solver.
Qed.

Lemma known_take_new gs m h : known (take_new gs m).2 h <-> (exists g, g ∈ gs /\ same_entry g h) \/ known m h.
Proof.
  revert m. induction gs as [|g gs IH]; intros m; cbn [take_new].
  { cbn. set_solver. }
  destruct (decide (known m g)) as [Hk|Hk]; cbn [snd]; rewrite IH, ?known_learn.
  - split; [set_solver|]. intros [(x & [->|Hx]%elem_of_cons & He)|]; [|set_solver..].
    right. unfold known, same_entry in *. destruct He as [Hs Hf]. by rewrite <- Hs, <- Hf.
  - set_solver.
Qed.

Lemma elem_of_take_new gs m h : h ∈ (take_new gs m).1 -> h ∈ gs /\ ~ known m h.
Proof.
  revert m. induction gs as [|g gs IH]; intros m; cbn [take_new]; [set_solver|].
  destruct (decide (known m g)); cbn [fst].
  - intros ?%IH. set_solver.
  - intros [->|Hh]%elem_of_cons; [set_solver|]. apply IH in Hh as [? Hn].
    split; [set_solver|]. intros ?. apply Hn, known_learn. by right.
Qed.

(** No two facts of a list have the same scope and key. *)
Definition distinct_entries (l : list NativeFact) : Prop :=
  forall i j g h, l !! i = Some g -> l !! j = Some h -> same_entry g h -> i = j.

Lemma distinct_entries_cons g l :
  distinct_entries (g :: l) <-> (forall h, h ∈ l -> ~ same_entry g h) /\ distinct_entries l.
Proof.
  split.
  - intros Hd. split.
    + intros h [k Hk]%list_elem_of_lookup He. specialize (Hd O (Datatypes.S k) g h eq_refl Hk He). lia.
    + intros i j x y Hi Hj He. specialize (Hd (Datatypes.S i) (Datatypes.S j) x y Hi Hj He). lia.
  - intros [Hg Hd] i j x y Hi Hj He. destruct i as [|i], j as [|j]; cbn in Hi, Hj; simplify_eq; [done|..].
    + by destruct (Hg _ (list_elem_of_lookup_2 _ _ _ Hj)).
    + destruct (Hg _ (list_elem_of_lookup_2 _ _ _ Hi)). destruct He. by split.
    + f_equal. by eapply Hd.
Qed.

Lemma distinct_entries_app l l' :
  distinct_entries (l ++ l') <->
  distinct_entries l /\ distinct_entries l' /\ forall g h, g ∈ l -> h ∈ l' -> ~ same_entry g h.
Proof.
  induction l as [|x l IH]; cbn [app].
  - split; [|tauto]. intros ?. split_and!; [by intros i|done|set_solver].
  - rewrite !distinct_entries_cons, IH. set_solver.
Qed.

Lemma distinct_entries_filter (P : NativeFact -> Prop) `{!forall x, Decision (P x)} (l : list NativeFact) :
  distinct_entries l -> distinct_entries (filter P l).
Proof.
  induction l as [|x l IH]; [done|]. rewrite distinct_entries_cons, filter_cons. intros [Hx Hd].
  destruct (decide (P x)); [|by apply IH]. rewrite distinct_entries_cons. split; [|by apply IH].
  intros h [_ Hh]%list_elem_of_filter. by apply Hx.
Qed.

(** Every entry occurs in the result at most once. *)
Lemma take_new_distinct gs m : distinct_entries (take_new gs m).1.
Proof.
  revert m. induction gs as [|x gs IH]; intros m; cbn [take_new]; [by intros i|].
  destruct (decide (known m x)); cbn [fst]; [apply IH|]. apply distinct_entries_cons. split; [|apply IH].
  intros h [_ Hn]%elem_of_take_new He. apply Hn, known_learn. by left.
Qed.

(** What is known afterwards are the reported entries, besides what was known. *)
Lemma known_reported gs m h :
  known (take_new gs m).2 h <-> (exists g, g ∈ (take_new gs m).1 /\ same_entry g h) \/ known m h.
Proof.
  revert m. induction gs as [|x gs IH]; intros m; cbn [take_new]; [set_solver|].
  destruct (decide (known m x)); cbn [fst snd]; [apply IH|]. rewrite IH, known_learn. set_solver.
Qed.

Lemma filter_ext_elem {A} (P Q : A -> Prop) `{!forall x, Decision (P x), !forall x, Decision (Q x)} (l : list A) :
  (forall x, x ∈ l -> P x <-> Q x) -> filter P l = filter Q l.
Proof.
  induction l as [|x l IH]; intros Hpq; [done|]. rewrite !filter_cons, IH by set_solver.
  assert (P x <-> Q x) as Hx by set_solver.
  destruct (decide (P x)), (decide (Q x)); naive_solver.
Qed.

(** A longer history only removes facts. *)
Lemma take_new_history gs m m' :
  (forall h, known m h -> known m' h) ->
  (take_new gs m').1 = filter (fun g => ~ known m' g) (take_new gs m).1.
Proof.
  revert m m'. induction gs as [|g gs IH]; intros m m' Hm; cbn [take_new]; [done|].
  destruct (decide (known m g)) as [Hk|Hk].
  { rewrite decide_True by auto. by apply IH. }
  cbn [fst]. rewrite filter_cons. destruct (decide (known m' g)) as [Hk'|Hk'].
  - rewrite decide_False by auto. apply IH. intros h [He|He]%known_learn; [|auto].
    unfold known, same_entry in *. destruct He as [<- <-]. done.
  - rewrite decide_True by done. cbn [fst]. f_equal.
    rewrite (IH (learn g m) (learn g m')).
    2: { intros h [?|?]%known_learn; apply known_learn; auto. }
    apply filter_ext_elem. intros h Hh. apply elem_of_take_new in Hh as [_ Hn].
    rewrite known_learn in *. naive_solver.
Qed.

(** ** Scans *)

(** What a client sees. *)
Inductive ClientEvent : Type :=
  | Reported (g : NativeFact)
  | Progressed (p : NativeAnalysisProgress).

Definition replay_event {S} `{NativeClient S} (s : S) (e : ClientEvent) : S :=
  match e with Reported g => sink_emit g s | Progressed p => on_progress p s end.

Definition replay {S} `{NativeClient S} (es : list ClientEvent) (s : S) : S := foldl replay_event s es.

Definition reported_of (e : ClientEvent) : list NativeFact :=
  match e with Reported g => [g] | Progressed _ => [] end.

Definition reported (es : list ClientEvent) : list NativeFact := concat (map reported_of es).

(** The client that keeps a log. *)
#[export] Instance log_client : NativeClient (list ClientEvent) := {|
  sink_emit := fun g log => log ++ [Reported g];
  on_progress := fun p log => log ++ [Progressed p] |}.

(** From [s] to [s'] the facts [gs] are offered. *)
Record scanned {S} `{NativeClient S} (gs : list NativeFact) (s s' : Scan S) : Prop := {
  scanned_client : exists es, sc_client s' = replay es (sc_client s) /\
                     reported es = (take_new gs (sc_emitted s)).1;
  scanned_known : sc_emitted s' = (take_new gs (sc_emitted s)).2;
  scanned_emitted : ns_facts_emitted (sc_stats s') =
    ns_facts_emitted (sc_stats s) + zlen (take_new gs (sc_emitted s)).1;
  scanned_deduplicated : ns_facts_deduplicated (sc_stats s') =
    ns_facts_deduplicated (sc_stats s) + zlen gs - zlen (take_new gs (sc_emitted s)).1
}.

(** A part of the analysis, for every client. *)
Definition Pass : Type := forall S, NativeClient S -> Scan S -> Scan S.

(** A pass offers the same facts, all of which satisfy [P], whatever has been reported. *)
Definition offers (P : NativeFact -> Prop) (f : Pass) : Prop :=
  exists gs, (forall g, g ∈ gs <-> P g) /\ forall S c s, scanned gs s (f S c s).

Lemma replay_app {S} `{NativeClient S} es es' s : replay (es ++ es') s = replay es' (replay es s).
Proof. apply foldl_app. Qed.

Lemma reported_app es es' : reported (es ++ es') = reported es ++ reported es'.
Proof. unfold reported. by rewrite map_app, concat_app. Qed.

Lemma scanned_trans {S} `{NativeClient S} gs gs' (s s' s'' : Scan S) :
  scanned gs s s' -> scanned gs' s' s'' -> scanned (gs ++ gs') s s''.
Proof.
  intros [(es & Hc & He) Hk Hn Hd] [(es' & Hc' & He') Hk' Hn' Hd']. rewrite Hk in *.
  split; rewrite take_new_app; cbn [fst snd]; rewrite ?zlen_app; [|done|lia|lia].
  exists (es ++ es'). rewrite replay_app, reported_app. by rewrite Hc', Hc, He, He'.
Qed.

(** What does not offer facts: the keys stay, and the client sees progress at most. *)
Lemma scanned_quiet {S} `{NativeClient S} (s s' : Scan S) es :
  sc_client s' = replay es (sc_client s) -> reported es = [] -> sc_emitted s' = sc_emitted s ->
  ns_facts_emitted (sc_stats s') = ns_facts_emitted (sc_stats s) ->
  ns_facts_deduplicated (sc_stats s') = ns_facts_deduplicated (sc_stats s) -> scanned [] s s'.
Proof.
  intros Hc He Hk Hn Hd. split; cbn [take_new fst snd]; rewrite ?zlen_nil; [by exists es|done|lia|lia].
Qed.

Lemma scanned_nil {S} `{NativeClient S} (s : Scan S) : scanned [] s s.
Proof. by apply (scanned_quiet _ _ []). Qed.

Lemma scanned_emit {S} `{NativeClient S} ctx p payload (s : Scan S) :
  np_function_ea p = sx_function_ea ctx ->
  scanned [{| nx_provenance := p; nx_payload := payload |}] s (emit ctx p payload s).
Proof.
  intros Hp. unfold emit. rewrite <- Hp. set (g := {| nx_provenance := p; nx_payload := payload |}).
  change (np_function_ea p) with (fact_scope g). change payload with (nx_payload g) at 1 3 4.
  cbn zeta. split; cbn [take_new]; unfold known, learn;
    destruct (decide (fact_key (nx_payload g) ∈ default ∅ (sc_emitted s !! fact_scope g)));
    cbn; rewrite ?zlen_nil, ?zlen_cons, ?zlen_nil; try done; try lia.
  - by exists [].
  - by exists [Reported g].
Qed.

(** *** Composition *)

Lemma offers_none : offers (fun _ => False) (fun S c s => s).
Proof. exists []. split; [set_solver|]. intros. apply scanned_nil. Qed.

Lemma offers_seq P Q (f f' : Pass) :
  offers P f -> offers Q f' -> offers (fun g => P g \/ Q g) (fun S c s => f' S c (f S c s)).
Proof.
  intros (gs & Hg & Hs) (gs' & Hg' & Hs'). exists (gs ++ gs'). split.
  - intros g. rewrite elem_of_app. by rewrite Hg, Hg'.
  - intros S c s. eapply scanned_trans; [apply Hs|apply Hs'].
Qed.

Lemma offers_iff P Q (f : Pass) : offers P f -> (forall g, P g <-> Q g) -> offers Q f.
Proof. intros (gs & Hg & Hs) Hpq. exists gs. split; [|done]. intros g. by rewrite Hg. Qed.

Lemma offers_if P Q (b : bool) (f f' : Pass) :
  offers P f -> offers Q f' ->
  offers (fun g => if b then P g else Q g) (fun S c s => if b then f S c s else f' S c s).
Proof. by destruct b. Qed.

Lemma offers_quiet (f : Pass) :
  (forall S c s, scanned [] s (f S c s)) -> offers (fun _ => False) f.
Proof. intros Hf. exists []. split; [set_solver|done]. Qed.

Lemma offers_foldl {A} (P : A -> NativeFact -> Prop) (f : A -> Pass) (l : list A) :
  (forall x, x ∈ l -> offers (P x) (f x)) ->
  offers (fun g => exists x, x ∈ l /\ P x g) (fun S c s => foldl (fun s x => f x S c s) s l).
Proof.
  induction l as [|x l IH]; intros Hf; cbn [foldl].
  - eapply offers_iff; [apply offers_none|]. set_solver.
  - eapply offers_iff;
      [apply (offers_seq (P x) (fun g => exists y, y ∈ l /\ P y g) (f x)
         (fun S c s => foldl (fun s y => f y S c s) s l))|].
    + apply Hf. set_solver.
    + apply IH. intros y Hy. apply Hf. set_solver.
    + intros g. set_solver.
Qed.

(** *** Steps *)

#[local] Notation native p payload := {| nx_provenance := p; nx_payload := payload |}.

Lemma offers_nothing P (f : Pass) :
  (forall S c s, f S c s = s) -> (forall g, ~ P g) -> offers P f.
Proof.
  intros Hf Hp. exists []. split; [set_solver|]. intros. rewrite Hf. apply scanned_nil.
Qed.

Lemma offers_one ctx P p payload (f : Pass) :
  np_function_ea p = sx_function_ea ctx -> (forall S c s, f S c s = emit ctx p payload s) ->
  (forall g, P g <-> g = native p payload) -> offers P f.
Proof.
  intros Hp Hf Hg. exists [native p payload]. split; [set_solver|].
  intros. rewrite Hf. by apply scanned_emit.
Qed.

Lemma offers_quietly P (f : Pass) :
  (forall S c s, scanned [] s (f S c s)) -> (forall g, ~ P g) -> offers P f.
Proof. intros Hf Hp. exists []. split; [set_solver|done]. Qed.

(** A leaf of a step: nothing is offered there, or one fact is. *)
Ltac decompose_finding :=
  cbn zeta in *;
  repeat match goal with
  | H : ex _ |- _ => destruct H
  | H : _ /\ _ |- _ => destruct H
  | H : _ \/ _ |- _ => destruct H
  end; simplify_eq.
Ltac offers_nothing :=
  solve [apply offers_nothing; [done|intros ? ?; decompose_finding; first [congruence|lia]]].
Ltac offers_one := solve [eapply offers_one; [|done|]; [done|];
  intros g; split; [intros ?; decompose_finding; done|intros ->; cbn zeta; repeat first [done|apply conj|lazymatch goal with |- ex _ => eexists end]]].

(** ** What an instruction supports *)

Section Findings.
Context `{Ida} (options : NativeAnalysisOptions) (epoch : Z) (arch : NativeArchitecture).
Context (ctx : ScanContext).

#[local] Notation prov := (provenance epoch arch ctx).
#[local] Notation native p payload := {| nx_provenance := p; nx_payload := payload |}.

(** A call to code that is no function yet. *)
Definition finds_candidate (callsite target : Z) (indirect : bool) (g : NativeFact) : Prop :=
  usable_control_target arch target = true /\ is_tail target = false /\
  (match get_func target with Some f => fn_start_ea f =? target | None => false end) = false /\
  exists first, decode_insn target = Some first /\ (insn_size first =? 0) = false /\
    let owned := match get_func target with Some _ => true | None => false end in
    g = native (prov Source_DirectControlFlow
                  (if is_code target then Strength_Strong else Strength_Candidate) false)
      (N_FunctionCandidate {|
         nf_callsite_ea := callsite; nf_target_ea := target;
         nf_reason := candidate_reason owned (is_code target) indirect;
         nf_decoded_size := insn_size first; nf_target_is_code := is_code target;
         nf_target_is_function_interior := owned |}).

(** A resolved target, with the function candidate that it may imply. *)
Definition finds_target (insn : insn_t) (call : bool) (target definition pointer : Z)
    (resolution : NativeIndirectResolutionKind) (register_id : Z) (register_name : string)
    (value_width : Z) (g : NativeFact) : Prop :=
  let existing := has_exact_code_xref (insn_ea insn) target in
  usable_control_target arch target = true /\
  existing && negb (op_emit_existing_indirect_edges options) = false /\
  (g = native (prov Source_IdaRegfinder Strength_Strong true)
     (N_IndirectTarget {|
        ni_instruction_ea := insn_ea insn; ni_target_ea := target; ni_definition_ea := definition;
        ni_pointer_ea := pointer; ni_kind := if call then Flow_Call else Flow_Jump;
        ni_resolution := resolution; ni_register_id := register_id;
        ni_register_name := register_name; ni_value_width := value_width;
        ni_edge_already_present := existing |}) \/
   (call && op_find_function_candidates options = true /\
    finds_candidate (insn_ea insn) target true g)).

Definition finds_register (insn : insn_t) (call : bool) (op : op_t) (g : NativeFact) : Prop :=
  exists rvi value,
    find_reg_value_info (insn_ea insn) (op_reg op) (op_regfinder_max_depth options) = Some rvi /\
    get_num rvi = Some value /\
    finds_target insn call value (get_def_ea rvi) BADADDR Resolution_RegisterValue
      (op_reg op) (operand_register_name op) (Z.min (operand_register_width op) u8_max) g.

(** A slot that cannot change holds the target. *)
Definition finds_memory (insn : insn_t) (call : bool) (op : op_t) (g : NativeFact) : Prop :=
  let address := find_op_addr op insn (op_regfinder_max_depth options) in
  let width := get_dtype_size (op_dtype op) in
  has_regfinder = true /\
  exists pointer seg target,
    get_num address = Some pointer /\ getseg pointer = Some seg /\
    has_perm seg SEGPERM_WRITE = false /\ (width = 2 \/ width = 4 \/ width = 8) /\
    pointer <= BADADDR - width /\
    forallb (fun i => mapped_loaded (pointer + i)) (seqZ 0 width) = true /\
    get_num (emulate_mem_read address width insn) = Some target /\
    let definition := get_def_ea (emulate_mem_read address width insn) in
    finds_target insn call target (if definition =? BADADDR then pointer else definition) pointer
      Resolution_ReadOnlyMemoryValue (-1) EmptyString width g.

Definition finds_indirect (insn : insn_t) (g : NativeFact) : Prop :=
  let call := is_call_insn insn in
  let operands := used_operands (get_canon_feature insn) 0 (insn_ops insn) None None in
  (call = true \/ is_indirect_jump_insn insn = true) /\ is_ret_insn insn = false /\
  branch_target insn = BADADDR /\ 0 <= op_regfinder_max_depth options /\
  ((exists op, operands.1 = Some op /\ finds_register insn call op g) \/
   (exists op, operands.2 = Some op /\ finds_memory insn call op g)).

Definition finds_zero_branch (insn : insn_t) (g : NativeFact) : Prop :=
  arch = Native_Arm64 /\ is_zero_register (Op1 insn) = true /\
  usable_control_target arch (branch_target insn) = true /\
  exists outcome, zero_branch_outcome insn = Some outcome /\
    g = native (prov Source_ArchitectureInvariant Strength_Exact true)
      (N_ZeroRegisterBranch {|
         nz_instruction_ea := insn_ea insn; nz_target_ea := branch_target insn;
         nz_fallthrough_ea := ea_add (insn_ea insn) (insn_size insn); nz_outcome := outcome;
         nz_register_id := op_reg (Op1 insn);
         nz_register_name := operand_register_name (Op1 insn);
         nz_value_width := Z.min (operand_register_width (Op1 insn)) u8_max |}).

Definition finds_pair (first : insn_t) (g : NativeFact) : Prop :=
  let target := branch_target first in
  let second_ea := ea_add (insn_ea first) (insn_size first) in
  target <> BADADDR /\ usable_control_target arch target = true /\
  second_ea < sx_chunk_end ctx /\ is_code second_ea = true /\
  exists second, decode_insn second_ea = Some second /\ branch_target second = target /\
    let after := ea_add (insn_ea second) (insn_size second) in
    target <> insn_ea first /\ target <> insn_ea second /\ after <> target /\
    has_alternate_predecessor (insn_ea second) (insn_ea first) = false /\
    exists family first_condition second_condition,
      pair_family arch first second = Some (family, first_condition, second_condition) /\
      g = native (prov Source_StructuralIdentity Strength_Exact true)
        (N_OppositeBranchPair {|
           no_first_ea := insn_ea first; no_second_ea := insn_ea second;
           no_guaranteed_target_ea := target; no_unreachable_fallthrough_ea := after;
           no_family := family; no_first_condition := first_condition;
           no_second_condition := second_condition |}).

Definition finds_flag_branch (branch : insn_t) (g : NativeFact) : Prop :=
  let depth := op_flag_scan_depth options in
  let condition := x86_condition (insn_itype branch) in
  arch = Native_X86 /\ depth <> 0 /\ condition_invalid condition = false /\
  usable_control_target arch (branch_target branch) = true /\
  exists flag outcome,
    let scan := scan_known_flag (insn_ea branch) (sx_chunk_start ctx) depth flag in
    fs_known scan = true /\ flag_branch_outcome condition flag (fs_value scan) = Some outcome /\
    g = native (prov Source_LocalFlagProof Strength_Exact true)
      (N_KnownFlagBranch {|
         nk_instruction_ea := insn_ea branch; nk_target_ea := branch_target branch;
         nk_fallthrough_ea := ea_add (insn_ea branch) (insn_size branch);
         nk_defining_instruction_ea := fs_definition_ea scan; nk_flag := flag;
         nk_value := fs_value scan; nk_outcome := outcome;
         nk_instructions_scanned := fs_scanned scan |}).

Definition finds_item_size (insn : insn_t) (g : NativeFact) : Prop :=
  let item_size := get_item_size (insn_ea insn) in
  item_size <> 0 /\ item_size <> insn_size insn /\
  g = native (prov Source_IdaItemDiscrepancy Strength_Strong true)
    (N_DecodeDiscrepancy {|
       nd_address := insn_ea insn; nd_related_ea := kNativeBadAddress;
       nd_kind := Discrepancy_CodeItemSizeMismatch; nd_idb_item_size := Z.min item_size u16_max;
       nd_decoded_size := insn_size insn; nd_alternate_decoded_size := 0;
       nd_observed_byte := get_byte (insn_ea insn) |}).

(** A prefix that changes nothing, inside the instruction or just before it. *)
Definition finds_attached_prefix (insn : insn_t) (g : NativeFact) : Prop :=
  arch = Native_X86 /\ legacy_prefix_may_be_redundant (insn_ea insn) insn = true /\
  exists plain, decode_insn (ea_add (insn_ea insn) 1) = Some plain /\
    instructions_equivalent_ignoring_legacy_prefix insn plain = true /\
    g = native (prov Source_DecoderEquivalence Strength_Strong true)
      (N_DecodeDiscrepancy {|
         nd_address := insn_ea insn; nd_related_ea := ea_add (insn_ea insn) 1;
         nd_kind := Discrepancy_RedundantLegacyPrefix;
         nd_idb_item_size := to_u16 (get_item_size (insn_ea insn));
         nd_decoded_size := insn_size insn; nd_alternate_decoded_size := insn_size plain;
         nd_observed_byte := get_byte (insn_ea insn) |}).

Definition finds_detached_prefix (insn : insn_t) (g : NativeFact) : Prop :=
  let prefix_ea := insn_ea insn - 1 in
  arch = Native_X86 /\ sx_chunk_start ctx < insn_ea insn /\
  is_loaded prefix_ea = true /\ is_code prefix_ea = false /\ has_xref prefix_ea = false /\
  has_user_name prefix_ea = false /\
  exists prefixed, decode_insn prefix_ea = Some prefixed /\
    legacy_prefix_may_be_redundant prefix_ea prefixed = true /\
    instructions_equivalent_ignoring_legacy_prefix prefixed insn = true /\
    g = native (prov Source_DecoderEquivalence Strength_Strong true)
      (N_DecodeDiscrepancy {|
         nd_address := prefix_ea; nd_related_ea := insn_ea insn;
         nd_kind := Discrepancy_DetachedLegacyPrefix;
         nd_idb_item_size := to_u16 (get_item_size (insn_ea insn));
         nd_decoded_size := insn_size prefixed; nd_alternate_decoded_size := insn_size insn;
         nd_observed_byte := get_byte prefix_ea |}).

(** A direct transfer to bytes that are not code but could be. *)
Definition finds_target_not_code (insn : insn_t) (g : NativeFact) : Prop :=
  let target := branch_target insn in
  is_direct_control_flow insn = true /\ aligned_control_target arch target = true /\
  executable_address target false = true /\ is_code target = false /\
  exists decoded, decode_insn target = Some decoded /\ insn_size decoded <> 0 /\
    g = native (prov Source_DirectControlFlow Strength_Strong false)
      (N_DecodeDiscrepancy {|
         nd_address := target; nd_related_ea := insn_ea insn;
         nd_kind := Discrepancy_DirectTargetNotCode; nd_idb_item_size := 0;
         nd_decoded_size := insn_size decoded; nd_alternate_decoded_size := 0;
         nd_observed_byte := get_byte target |}).

(** Everything that one instruction supports under the options. *)
Definition finds (insn : insn_t) (g : NativeFact) : Prop :=
  (op_detect_decode_discrepancies options = true /\
   (finds_item_size insn g \/ finds_attached_prefix insn g \/ finds_detached_prefix insn g \/
    finds_target_not_code insn g)) \/
  (op_resolve_indirect_control_flow options = true /\ finds_indirect insn g) \/
  (op_detect_zero_register_branches options = true /\ finds_zero_branch insn g) \/
  (op_detect_opposite_branch_pairs options = true /\ finds_pair insn g) \/
  (op_track_known_x86_flags options = true /\ finds_flag_branch insn g) \/
  (op_find_function_candidates options = true /\
   exists target, direct_call_target insn = Some target /\
     finds_candidate (insn_ea insn) target false g).

(** A head of a function that cannot be decoded. *)
Definition finds_undecodable (ea : Z) (g : NativeFact) : Prop :=
  g = native (prov Source_IdaItemDiscrepancy Strength_Strong true)
    (N_DecodeDiscrepancy {|
       nd_address := ea; nd_related_ea := kNativeBadAddress;
       nd_kind := Discrepancy_UndecodableCodeItem;
       nd_idb_item_size := Z.min (get_item_size ea) u16_max; nd_decoded_size := 0;
       nd_alternate_decoded_size := 0;
       nd_observed_byte := if is_loaded ea then get_byte ea else 0 |}).

(** ** Each step offers what it finds *)

Lemma offers_emit p payload :
  np_function_ea p = sx_function_ea ctx ->
  offers (fun g => g = native p payload) (fun S c => emit ctx p payload).
Proof.
  intros Hp. exists [native p payload]. split; [set_solver|]. intros. by apply scanned_emit.
Qed.

Lemma offers_candidate callsite target indirect :
  offers (finds_candidate callsite target indirect)
    (fun S c => emit_function_candidate epoch arch ctx callsite target indirect).
Proof.
  unfold finds_candidate, emit_function_candidate. cbn zeta.
  destruct (usable_control_target arch target); cbn [negb]; [|offers_nothing].
  destruct (is_tail target); [offers_nothing|].
  destruct (match get_func target with Some f => fn_start_ea f =? target | None => false end);
    [offers_nothing|].
  destruct (decode_insn target) as [first|]; [|offers_nothing].
  destruct (insn_size first =? 0) eqn:E; [offers_nothing|]. offers_one.
Qed.

Lemma offers_target insn call target definition pointer resolution id name width :
  offers (finds_target insn call target definition pointer resolution id name width)
    (fun S c => record_indirect options epoch arch ctx insn call target definition pointer
                  resolution id name width).
Proof.
  unfold finds_target, record_indirect. cbn zeta.
  destruct (usable_control_target arch target); cbn [negb]; [|offers_nothing].
  destruct (has_exact_code_xref (insn_ea insn) target && _); [offers_nothing|].
  destruct (call && op_find_function_candidates options).
  - eapply offers_iff;
      [eapply (offers_seq _ _ (fun S c => emit ctx _ _)
                 (fun S c => emit_function_candidate epoch arch ctx (insn_ea insn) target true));
        [by apply offers_emit|apply offers_candidate]|]. naive_solver.
  - eapply offers_iff; [by apply offers_emit|]. naive_solver.
Qed.

(** Steps that change the capabilities only. *)
Lemma tracker_scanned {S} `{NativeClient S} (f : NativeAnalysisStats -> NativeAnalysisStats) (s : Scan S) :
  (forall st, ns_facts_emitted (f st) = ns_facts_emitted st) ->
  (forall st, ns_facts_deduplicated (f st) = ns_facts_deduplicated st) ->
  scanned [] s (with_stats f s).
Proof. intros He Hd. apply (scanned_quiet _ _ []); cbn; [done..|apply He|apply Hd]. Qed.

Lemma offers_register insn call op :
  offers (finds_register insn call op) (fun S c => inspect_register options epoch arch ctx insn call op).
Proof.
  unfold finds_register, inspect_register.
  destruct (find_reg_value_info _ _ _) as [rvi|].
  2: { apply offers_quietly; [intros; by apply tracker_scanned|naive_solver]. }
  pose (f := (fun S c s =>
    match ns_register_tracker (sc_stats s) with
    | Capability_Unknown => set_register_tracker Capability_Available s | _ => s end) : Pass).
  assert (offers (fun _ => False) f) as Hf.
  { apply offers_quiet. intros S c s. unfold f. destruct (ns_register_tracker _);
      [by apply tracker_scanned|apply scanned_nil..]. }
  destruct (get_num rvi) as [value|] eqn:Ev.
  - eapply offers_iff;
      [eapply (offers_seq _ _ f (fun S c => record_indirect options epoch arch ctx insn call _ _ _ _ _ _ _));
        [exact Hf|apply offers_target]|]. naive_solver.
  - eapply offers_iff; [exact Hf|]. naive_solver.
Qed.

Lemma offers_memory insn call op :
  offers (finds_memory insn call op) (fun S c => inspect_memory options epoch arch ctx insn call op).
Proof.
  unfold finds_memory, inspect_memory. cbn zeta. destruct has_regfinder; cbn [negb].
  2: { apply offers_quietly; [intros; by apply tracker_scanned|naive_solver]. }
  destruct (get_num (find_op_addr _ _ _)) as [pointer|] eqn:Ea; [|offers_nothing].
  destruct (getseg pointer) as [seg|] eqn:Eseg; [|offers_nothing].
  destruct (has_perm seg SEGPERM_WRITE) eqn:Ep; [offers_nothing|].
  set (width := get_dtype_size (op_dtype op)).
  destruct (negb (width =? 2) && negb (width =? 4) && negb (width =? 8)) eqn:Ew; [offers_nothing|].
  destruct (Z.ltb_spec (BADADDR - width) pointer) as [|Hp]; [offers_nothing|].
  destruct (forallb _ _) eqn:Ef; cbn [negb]; [|offers_nothing].
  destruct (get_num (emulate_mem_read _ _ _)) as [target|] eqn:Et; [|offers_nothing].
  eapply offers_iff; [apply offers_target|]. intros g.
  split; [|naive_solver]. intros Hg. split; [done|]. exists pointer, seg, target.
  split_and!; [done..|lia|done|done|done|done].
Qed.

Lemma offers_indirect insn :
  offers (finds_indirect insn) (fun S c => inspect_indirect options epoch arch ctx insn).
Proof.
  unfold finds_indirect, inspect_indirect. cbn zeta.
  destruct ((negb (is_call_insn insn) && negb (is_indirect_jump_insn insn)) || is_ret_insn insn) eqn:E1.
  { apply orb_true_iff in E1. rewrite andb_true_iff, !negb_true_iff in E1. offers_nothing. }
  apply orb_false_iff in E1 as [E1 Er]. rewrite andb_false_iff, !negb_false_iff in E1.
  destruct (Z.eqb_spec (branch_target insn) BADADDR) as [Et|]; cbn [negb]; [|offers_nothing].
  destruct (Z.ltb_spec (op_regfinder_max_depth options) 0); [offers_nothing|].
  destruct (used_operands _ _ _ _ _) as [r m]. cbn [fst snd].
  eapply offers_iff; [eapply (offers_seq
    (fun g => exists op, r = Some op /\ finds_register insn (is_call_insn insn) op g)
    (fun g => exists op, m = Some op /\ finds_memory insn (is_call_insn insn) op g)
    (fun S c s => match r with
       Some op => inspect_register options epoch arch ctx insn (is_call_insn insn) op s | None => s end)
    (fun S c s => match m with
       Some op => inspect_memory options epoch arch ctx insn (is_call_insn insn) op s | None => s end))|].
  - destruct r as [op|]; [|offers_nothing]. eapply offers_iff; [apply offers_register|]. naive_solver.
  - destruct m as [op|]; [|offers_nothing]. eapply offers_iff; [apply offers_memory|]. naive_solver.
  - naive_solver.
Qed.

Lemma offers_zero_branch insn :
  offers (finds_zero_branch insn) (fun S c => inspect_zero_register_branch epoch arch ctx insn).
Proof.
  unfold finds_zero_branch, inspect_zero_register_branch. cbn zeta.
  destruct (decide (arch = Native_Arm64)) as [Ha|];
    [rewrite bool_decide_eq_true_2 by done|rewrite bool_decide_eq_false_2 by done; offers_nothing].
  destruct (is_zero_register (Op1 insn)); cbn [negb orb]; [|offers_nothing].
  destruct (zero_branch_outcome insn) as [outcome|]; [|offers_nothing].
  destruct (usable_control_target arch (branch_target insn)); cbn [negb]; [|offers_nothing]. offers_one.
Qed.

Lemma offers_pair insn :
  offers (finds_pair insn) (fun S c => inspect_opposite_pair epoch arch ctx insn).
Proof.
  unfold finds_pair, inspect_opposite_pair. cbn zeta. set (target := branch_target insn).
  destruct (Z.eqb_spec target BADADDR); cbn [orb]; [offers_nothing|].
  destruct (usable_control_target arch target); cbn [negb]; [|offers_nothing].
  destruct (Z.leb_spec (sx_chunk_end ctx) (ea_add (insn_ea insn) (insn_size insn))); cbn [orb];
    [offers_nothing|].
  destruct (is_code _); cbn [negb]; [|offers_nothing].
  destruct (decode_insn _) as [second|]; [|offers_nothing].
  destruct (Z.eqb_spec (branch_target second) target); cbn [negb]; [|offers_nothing].
  set (after := ea_add (insn_ea second) (insn_size second)).
  destruct (Z.eqb_spec target (insn_ea insn)); cbn [orb]; [offers_nothing|].
  destruct (Z.eqb_spec target (insn_ea second)); cbn [orb]; [offers_nothing|].
  destruct (Z.eqb_spec after target); [offers_nothing|].
  destruct (has_alternate_predecessor _ _) eqn:Ealt; [offers_nothing|].
  destruct (pair_family arch insn second) as [[[family c1] c2]|] eqn:Ef; [|offers_nothing]. offers_one.
Qed.

Lemma offers_flag branch depth condition target flag :
  offers (fun g => exists outcome,
    let scan := scan_known_flag (insn_ea branch) (sx_chunk_start ctx) depth flag in
    fs_known scan = true /\ flag_branch_outcome condition flag (fs_value scan) = Some outcome /\
    g = native (prov Source_LocalFlagProof Strength_Exact true)
      (N_KnownFlagBranch {|
         nk_instruction_ea := insn_ea branch; nk_target_ea := target;
         nk_fallthrough_ea := ea_add (insn_ea branch) (insn_size branch);
         nk_defining_instruction_ea := fs_definition_ea scan; nk_flag := flag;
         nk_value := fs_value scan; nk_outcome := outcome;
         nk_instructions_scanned := fs_scanned scan |}))
    (fun S c => inspect_known_flag epoch arch ctx branch depth condition target flag).
Proof.
  unfold inspect_known_flag. cbn zeta. set (scan := scan_known_flag _ _ _ _).
  destruct (fs_known scan); cbn [negb]; [|offers_nothing].
  destruct (flag_branch_outcome _ _ _) as [outcome|]; [|offers_nothing]. offers_one.
Qed.

Lemma offers_flag_branch insn :
  offers (finds_flag_branch insn)
    (fun S c => inspect_known_flag_branch epoch arch ctx insn (op_flag_scan_depth options)).
Proof.
  unfold finds_flag_branch, inspect_known_flag_branch. cbn zeta.
  destruct (decide (arch = Native_X86)) as [Ha|];
    [rewrite bool_decide_eq_true_2 by done|rewrite bool_decide_eq_false_2 by done; offers_nothing].
  destruct (Z.eqb_spec (op_flag_scan_depth options) 0); cbn [negb orb]; [offers_nothing|].
  destruct (condition_invalid _); cbn [orb]; [offers_nothing|].
  destruct (usable_control_target arch (branch_target insn)); cbn [negb]; [|offers_nothing].
  eapply offers_iff;
    [eapply (offers_seq _ _ (fun S c => inspect_known_flag epoch arch ctx insn _ _ _ Flag_Carry)
               (fun S c => inspect_known_flag epoch arch ctx insn _ _ _ Flag_Zero)); apply offers_flag|].
  intros g. split.
  - intros [(o & Ho)|(o & Ho)]; (split_and!; [done..|]); [exists Flag_Carry|exists Flag_Zero]; eauto.
  - intros (_ & _ & _ & _ & [] & o & Ho); [left|right]; eauto.
Qed.

Lemma offers_item_size insn :
  offers (finds_item_size insn) (fun S c => inspect_item_size epoch arch ctx insn).
Proof.
  unfold finds_item_size, inspect_item_size. cbn zeta. set (item_size := get_item_size (insn_ea insn)).
  destruct (Z.eqb_spec item_size 0); cbn [negb andb]; [offers_nothing|].
  destruct (Z.eqb_spec item_size (insn_size insn)); cbn [negb]; [offers_nothing|]. offers_one.
Qed.

Lemma offers_attached_prefix insn : arch = Native_X86 ->
  offers (finds_attached_prefix insn) (fun S c => inspect_attached_prefix epoch arch ctx insn).
Proof.
  intros Ha. unfold finds_attached_prefix, inspect_attached_prefix.
  destruct (legacy_prefix_may_be_redundant _ _); [|offers_nothing].
  destruct (decode_insn _) as [plain|]; [|offers_nothing].
  destruct (instructions_equivalent_ignoring_legacy_prefix _ _) eqn:E; cbn [negb]; [|offers_nothing].
  offers_one.
Qed.

Lemma offers_detached_prefix insn : arch = Native_X86 ->
  offers (finds_detached_prefix insn) (fun S c => inspect_detached_prefix epoch arch ctx insn).
Proof.
  intros Ha. unfold finds_detached_prefix, inspect_detached_prefix. cbn zeta.
  set (prefix_ea := insn_ea insn - 1).
  destruct (Z.leb_spec (insn_ea insn) (sx_chunk_start ctx)); [offers_nothing|].
  destruct (is_loaded prefix_ea), (is_code prefix_ea), (has_xref prefix_ea), (has_user_name prefix_ea);
    cbn [negb orb]; try offers_nothing.
  destruct (decode_insn prefix_ea) as [prefixed|]; [|offers_nothing].
  destruct (legacy_prefix_may_be_redundant _ _) eqn:E1; cbn [negb orb]; [|offers_nothing].
  destruct (instructions_equivalent_ignoring_legacy_prefix _ _) eqn:E2; cbn [negb]; [|offers_nothing].
  offers_one.
Qed.

Lemma offers_prefix insn :
  offers (fun g => finds_attached_prefix insn g \/ finds_detached_prefix insn g)
    (fun S c => inspect_prefix epoch arch ctx insn).
Proof.
  unfold inspect_prefix. destruct (decide (arch = Native_X86)) as [Ha|Ha].
  - rewrite bool_decide_eq_true_2 by done. cbn [negb].
    eapply (offers_seq _ _ (fun S c => inspect_attached_prefix epoch arch ctx insn)
              (fun S c => inspect_detached_prefix epoch arch ctx insn));
      [by apply offers_attached_prefix|by apply offers_detached_prefix].
  - rewrite bool_decide_eq_false_2 by done. cbn [negb].
    apply offers_nothing; [done|]. unfold finds_attached_prefix, finds_detached_prefix. naive_solver.
Qed.

Lemma offers_target_not_code insn :
  offers (finds_target_not_code insn) (fun S c => inspect_direct_target_decode epoch arch ctx insn).
Proof.
  unfold finds_target_not_code, inspect_direct_target_decode. cbn zeta. set (target := branch_target insn).
  destruct (is_direct_control_flow insn); cbn [negb]; [|offers_nothing].
  destruct (aligned_control_target arch target); cbn [negb orb]; [|offers_nothing].
  destruct (executable_address target false); cbn [negb orb]; [|offers_nothing].
  destruct (is_code target); [offers_nothing|].
  destruct (decode_insn target) as [decoded|]; [|offers_nothing].
  destruct (Z.eqb_spec (insn_size decoded) 0); [offers_nothing|]. offers_one.
Qed.

Lemma offers_if_set P b (f : Pass) :
  offers P f -> offers (fun g => b = true /\ P g) (fun S c => if_set b (f S c)).
Proof.
  intros Hf. destruct b; cbn [if_set].
  - eapply offers_iff; [exact Hf|naive_solver].
  - offers_nothing.
Qed.

Lemma offers_direct_candidate insn :
  offers (fun g => exists target, direct_call_target insn = Some target /\
                     finds_candidate (insn_ea insn) target false g)
    (fun S c => inspect_direct_function_candidate epoch arch ctx insn).
Proof.
  unfold inspect_direct_function_candidate. destruct (direct_call_target insn) as [target|]; [|offers_nothing].
  eapply offers_iff; [apply offers_candidate|]. naive_solver.
Qed.

Lemma offers_discrepancies insn :
  offers (fun g => finds_item_size insn g \/ finds_attached_prefix insn g \/
                   finds_detached_prefix insn g \/ finds_target_not_code insn g)
    (fun S c s => inspect_direct_target_decode epoch arch ctx insn
                    (inspect_prefix epoch arch ctx insn (inspect_item_size epoch arch ctx insn s))).
Proof.
  eapply offers_iff; [eapply (offers_seq _ _
    (fun S c s => inspect_prefix epoch arch ctx insn (inspect_item_size epoch arch ctx insn s))
    (fun S c => inspect_direct_target_decode epoch arch ctx insn));
    [eapply (offers_seq _ _ (fun S c => inspect_item_size epoch arch ctx insn)
               (fun S c => inspect_prefix epoch arch ctx insn));
       [apply offers_item_size|apply offers_prefix]|apply offers_target_not_code]|].
  naive_solver.
Qed.

Lemma offers_instruction insn :
  offers (finds insn) (fun S c => inspect_instruction options epoch arch ctx insn).
Proof.
  unfold inspect_instruction. cbn zeta.
  pose (f1 := (fun S c => if_set (op_detect_decode_discrepancies options) (fun s =>
    inspect_direct_target_decode epoch arch ctx insn
      (inspect_prefix epoch arch ctx insn (inspect_item_size epoch arch ctx insn s)))) : Pass).
  pose (f2 := (fun S c => if_set (op_resolve_indirect_control_flow options)
    (inspect_indirect options epoch arch ctx insn)) : Pass).
  pose (f3 := (fun S c => if_set (op_detect_zero_register_branches options)
    (inspect_zero_register_branch epoch arch ctx insn)) : Pass).
  pose (f4 := (fun S c => if_set (op_detect_opposite_branch_pairs options)
    (inspect_opposite_pair epoch arch ctx insn)) : Pass).
  pose (f5 := (fun S c => if_set (op_track_known_x86_flags options)
    (inspect_known_flag_branch epoch arch ctx insn (op_flag_scan_depth options))) : Pass).
  pose (f6 := (fun S c => if_set (op_find_function_candidates options)
    (inspect_direct_function_candidate epoch arch ctx insn)) : Pass).
  eapply offers_iff; [eapply (offers_seq _ _ (fun S c s => f5 S c (f4 S c (f3 S c (f2 S c (f1 S c s))))) f6);
    [eapply (offers_seq _ _ (fun S c s => f4 S c (f3 S c (f2 S c (f1 S c s)))) f5);
      [eapply (offers_seq _ _ (fun S c s => f3 S c (f2 S c (f1 S c s))) f4);
        [eapply (offers_seq _ _ (fun S c s => f2 S c (f1 S c s)) f3);
          [eapply (offers_seq _ _ f1 f2)|]|]|]|]|].
  - eapply (offers_if_set _ _ (fun S c s => inspect_direct_target_decode epoch arch ctx insn
      (inspect_prefix epoch arch ctx insn (inspect_item_size epoch arch ctx insn s)))), offers_discrepancies.
  - eapply (offers_if_set _ _ (fun S c => inspect_indirect options epoch arch ctx insn)), offers_indirect.
  - eapply (offers_if_set _ _ (fun S c => inspect_zero_register_branch epoch arch ctx insn)), offers_zero_branch.
  - eapply (offers_if_set _ _ (fun S c => inspect_opposite_pair epoch arch ctx insn)), offers_pair.
  - eapply (offers_if_set _ _ (fun S c => inspect_known_flag_branch epoch arch ctx insn _)), offers_flag_branch.
  - eapply (offers_if_set _ _ (fun S c => inspect_direct_function_candidate epoch arch ctx insn)),
      offers_direct_candidate.
  - intros g. unfold finds. tauto.
Qed.

End Findings.
