(* ===== verification/NativeRuns.v ===== *)
(** * Runs of the native analysis (native_analysis.cpp)

    The walk visits the code heads of the chunks of a function, and of the executable
    segments outside functions; [function_findings] and [database_findings] are what it can
    find there.  The theorems say that a call reports exactly these findings less those
    that it has reported before, that a history only removes reports, and that over all
    calls each entry is reported once until it is forgotten. *)
From stdpp Require Import base numbers list strings option sets gmap.
From Stdlib Require Import ZArith Init.Byte Lia.
From S2P Require Import Prelude NativeTypes NativeDatabase NativeListing NativeScan NativeReports.

(** ** The visited heads *)

Section Walk.
Context `{Ida} (options : NativeAnalysisOptions) (epoch : Z) (arch : NativeArchitecture).

(** The heads that [scan_heads] visits, in order. *)
Fixpoint visited_heads (fuel : nat) (wanted : Z -> bool) (end_ limit ea count : Z) : list Z :=
  match fuel with
  | O => []
  | S fuel =>
      if (ea =? BADADDR) || (end_ <=? ea) then []
      else if negb (limit =? 0) && (limit <=? count) then []
      else
        let next := next_head ea end_ in
        let rest count :=
          if (next =? BADADDR) || (next <=? ea) then []
          else visited_heads fuel wanted end_ limit next count in
        if wanted ea then ea :: rest (count + 1) else rest count
  end.

Lemma scan_heads_visits {S} `{NativeClient S} fuel wanted owned ctx limit ea count (s : Scan S) :
  scan_heads options epoch arch fuel wanted owned ctx limit ea count s =
  let l := visited_heads fuel wanted (sx_chunk_end ctx) limit ea count in
  (count + zlen l, foldl (fun s x => visit_head options epoch arch owned ctx x s) s l).
Proof.
  cbn zeta. revert ea count s. induction fuel as [|fuel IH]; intros ea count s;
    cbn [scan_heads visited_heads].
  { rewrite zlen_nil. cbn. f_equal. lia. }
  destruct ((ea =? BADADDR) || (sx_chunk_end ctx <=? ea)); [rewrite zlen_nil; cbn; f_equal; lia|].
  destruct (negb (limit =? 0) && (limit <=? count)); [rewrite zlen_nil; cbn; f_equal; lia|].
  cbn zeta. destruct (wanted ea);
    destruct ((next_head ea (sx_chunk_end ctx) =? BADADDR) || (next_head ea (sx_chunk_end ctx) <=? ea));
    rewrite ?IH, ?zlen_cons, ?zlen_nil; cbn [foldl]; f_equal; lia.
Qed.

(** Without a limit these are all heads of the range that are wanted, each once. *)
Lemma visited_heads_all `{!IdaHeads} fuel wanted end_ ea count x :
  (forall y, wanted y = true -> is_head y = true) ->
  0 <= ea -> end_ <= u64_max -> end_ - ea <= Z.of_nat fuel ->
  x ∈ visited_heads fuel wanted end_ 0 ea count <-> ea <= x < end_ /\ wanted x = true.
Proof.
  intros Hw Hea He. revert ea count Hea.
  induction fuel as [|fuel IH]; intros ea count Hea Hf; cbn [visited_heads].
  { split; [set_solver|lia]. }
  destruct (Z.eqb_spec ea BADADDR) as [Hb|_]; cbn [orb].
  { unfold BADADDR, kNativeBadAddress in Hb. split; [set_solver|lia]. }
  destruct (Z.leb_spec end_ ea); [split; [set_solver|lia]|]. cbn [negb andb Z.eqb]. cbn zeta.
  assert (forall count, x ∈ (if (next_head ea end_ =? BADADDR) || (next_head ea end_ <=? ea) then []
      else visited_heads fuel wanted end_ 0 (next_head ea end_) count) <->
    ea < x < end_ /\ wanted x = true) as Hrest.
  { intros n. destruct (next_head_law ea end_) as [[Hn Hh]|(Hn & Hh & Hbetween)]; [lia|done|..].
    - rewrite (proj2 (Z.eqb_eq _ _) Hn). cbn [orb]. split; [set_solver|].
      intros [Hx Hwx%Hw]. rewrite Hh in Hwx by done. done.
    - destruct (Z.eqb_spec (next_head ea end_) BADADDR) as [Hb|_].
      { unfold BADADDR, kNativeBadAddress in Hb. lia. }
      destruct (Z.leb_spec (next_head ea end_) ea); [lia|]. cbn [orb]. rewrite IH by lia.
      split; [intros [? ?]; split; [lia|done]|]. intros [Hx Hwx]. split; [|done].
      destruct (decide (x < next_head ea end_)); [|lia].
      apply Hw in Hwx. rewrite (Hbetween x) in Hwx by lia. done. }
  destruct (wanted ea) eqn:Ew.
  - rewrite elem_of_cons, Hrest. split; [intros [->|[? ?]]; [done|split; [lia|done]]|].
    intros [? ?]. destruct (decide (x = ea)); [by left|right; split; [lia|done]].
  - rewrite Hrest. split; [intros [? ?]; split; [lia|done]|]. intros [? ?].
    destruct (decide (x = ea)) as [->|]; [congruence|split; [lia|done]].
Qed.

(** A limit cuts the walk off. *)
Lemma visited_heads_limit fuel wanted end_ limit ea count :
  limit <> 0 -> 0 <= limit ->
  visited_heads fuel wanted end_ limit ea count =
  take (Z.to_nat (limit - count)) (visited_heads fuel wanted end_ 0 ea count).
Proof.
  intros H0 Hl. revert ea count. induction fuel as [|fuel IH]; intros ea count; cbn [visited_heads].
  { by rewrite take_nil. }
  destruct ((ea =? BADADDR) || (end_ <=? ea)); [by rewrite take_nil|].
  destruct (Z.eqb_spec limit 0); [done|]. cbn [negb andb Z.eqb]. cbn zeta.
  destruct (Z.leb_spec limit count) as [Hc|Hc].
  { replace (Z.to_nat (limit - count)) with O by lia. by rewrite take_0. }
  destruct (wanted ea).
  - replace (Z.to_nat (limit - count)) with (Datatypes.S (Z.to_nat (limit - (count + 1)))) by lia.
    cbn [take]. f_equal. destruct ((next_head ea end_ =? BADADDR) || (next_head ea end_ <=? ea));
      [by rewrite take_nil|]. rewrite IH.
    assert (forall n m, visited_heads fuel wanted end_ 0 (next_head ea end_) n =
      visited_heads fuel wanted end_ 0 (next_head ea end_) m) as Hcount.
    { clear. intros n m. generalize (next_head ea end_) as e. revert n m.
      induction fuel as [|fuel IH]; intros n m e; cbn [visited_heads]; [done|].
      destruct ((e =? BADADDR) || (end_ <=? e)); [done|]. cbn [negb andb Z.eqb]. cbn zeta.
      by rewrite (IH (n + 1) (m + 1)), (IH n m). }
    done.
  - destruct ((next_head ea end_ =? BADADDR) || (next_head ea end_ <=? ea)); [by rewrite take_nil|].
    apply IH.
Qed.

(** What the visit of a head finds. *)
Definition visit_finds (owned : bool) (ctx : ScanContext) (ea : Z) (g : NativeFact) : Prop :=
  match decode_insn ea with
  | Some insn =>
      if insn_size insn =? 0
      then owned && op_detect_decode_discrepancies options = true /\ finds_undecodable epoch arch ctx ea g
      else finds options epoch arch ctx insn g
  | None => owned && op_detect_decode_discrepancies options = true /\ finds_undecodable epoch arch ctx ea g
  end.

Lemma counters_quiet {S} `{NativeClient S} f c i x (s : Scan S) : scanned [] s (with_stats (stats_scanned f c i x 0) s).
Proof. apply (scanned_quiet _ _ []); cbn; [done..|lia]. Qed.

Lemma report_quiet {S} `{NativeClient S} boundary force (s : Scan S) :
  scanned [] s (report_progress options boundary force s).
Proof.
  unfold report_progress. destruct (negb (op_progress options)); [apply scanned_nil|]. cbn zeta.
  destruct (negb force && negb boundary && _); [apply scanned_nil|].
  eapply (scanned_quiet _ _ [Progressed _]); done.
Qed.

Lemma scanned_then_quiet {S} `{NativeClient S} gs (s s' s'' : Scan S) :
  scanned gs s s' -> scanned [] s' s'' -> scanned gs s s''.
Proof. intros H1 H2. rewrite <- (app_nil_r gs). by eapply scanned_trans. Qed.

Lemma quiet_then_scanned {S} `{NativeClient S} gs (s s' s'' : Scan S) :
  scanned [] s s' -> scanned gs s' s'' -> scanned gs s s''.
Proof. intros H1 H2. by eapply (scanned_trans []). Qed.

(** Quiet steps around a pass. *)
Lemma offers_around P (before f after : Pass) :
  (forall S c s, scanned [] s (before S c s)) -> (forall S c s, scanned [] s (after S c s)) ->
  offers P f -> offers P (fun S c s => after S c (f S c (before S c s))).
Proof.
  intros Hb Ha (gs & Hg & Hs). exists gs. split; [done|]. intros S c s.
  eapply scanned_then_quiet; [|apply Ha]. eapply quiet_then_scanned; [apply Hb|apply Hs].
Qed.

Lemma offers_visit owned ctx ea :
  offers (visit_finds owned ctx ea) (fun S c => visit_head options epoch arch owned ctx ea).
Proof.
  unfold visit_head. cbn zeta.
  pose (failed := (fun S c s => if_set (owned && op_detect_decode_discrepancies options)
    (undecodable epoch arch ctx ea) (with_stats (stats_scanned 0 0 0 1 0) s)) : Pass).
  assert (offers (fun g => owned && op_detect_decode_discrepancies options = true /\
    finds_undecodable epoch arch ctx ea g) failed) as Hfailed.
  { apply (offers_around _ (fun S c => with_stats (stats_scanned 0 0 0 1 0))
      (fun S c => if_set (owned && op_detect_decode_discrepancies options) (undecodable epoch arch ctx ea))
      (fun S c s => s)).
    - intros. apply counters_quiet.
    - intros. apply scanned_nil.
    - apply (offers_if_set _ _ (fun S c => undecodable epoch arch ctx ea)). by apply offers_emit. }
  apply (offers_around _ (fun S c => with_stats (stats_scanned 0 0 1 0 0))
    (fun S c s => match decode_insn ea with
       | Some insn => if negb (insn_size insn =? 0)
                      then inspect_instruction options epoch arch ctx insn s else failed S c s
       | None => failed S c s end)
    (fun S c => report_progress options false false)).
  - intros. apply counters_quiet.
  - intros. apply report_quiet.
  - unfold visit_finds. destruct (decode_insn ea) as [insn|]; [|exact Hfailed].
    destruct (insn_size insn =? 0); cbn [negb]; [exact Hfailed|apply offers_instruction].
Qed.

(** ** Functions and segments *)

Definition chunk_context (function_ea start end_ : Z) : ScanContext :=
  {| sx_function_ea := function_ea; sx_chunk_start := start; sx_chunk_end := end_ |}.

Definition in_context (ctx : ScanContext) (l : list Z) : list (ScanContext * Z) := map (pair ctx) l.

(** The visits of the chunks of a function. *)
Fixpoint chunk_visits (function_ea : Z) (chunks : list (Z * Z)) (count : Z) : list (ScanContext * Z) :=
  match chunks with
  | [] => []
  | (start, end_) :: chunks =>
      if end_ <=? start then chunk_visits function_ea chunks count
      else
        let limit := op_max_instructions_per_function options in
        let l := visited_heads (range_fuel start end_) code_head end_ limit start count in
        let count := count + zlen l in
        in_context (chunk_context function_ea start end_) l ++
        (if negb (limit =? 0) && (limit <=? count) then [] else chunk_visits function_ea chunks count)
  end.

(** The visits of the code outside functions. *)
Fixpoint segment_visits (segs : list (option segment_t)) (total : Z) : list (ScanContext * Z) :=
  match segs with
  | [] => []
  | seg :: segs =>
      match scannable_segment seg with
      | None => segment_visits segs total
      | Some seg =>
          let l := visited_heads (range_fuel (seg_start_ea seg) (seg_end_ea seg)) unowned_head
                     (seg_end_ea seg) (op_max_unowned_instructions options) (seg_start_ea seg) total in
          in_context (chunk_context BADADDR (seg_start_ea seg) (seg_end_ea seg)) l ++
          segment_visits segs (total + zlen l)
      end
  end.

(** What a list of visits finds. *)
Definition visits_find (owned : bool) (visits : list (ScanContext * Z)) (g : NativeFact) : Prop :=
  exists v, v ∈ visits /\ visit_finds owned v.1 v.2 g.

Lemma visits_find_app owned l l' g :
  visits_find owned (l ++ l') g <-> visits_find owned l g \/ visits_find owned l' g.
Proof. unfold visits_find. set_solver. Qed.

Lemma offers_visits owned ctx l :
  offers (visits_find owned (in_context ctx l))
    (fun S c s => foldl (fun s x => visit_head options epoch arch owned ctx x s) s l).
Proof.
  eapply offers_iff;
    [apply (offers_foldl (visit_finds owned ctx) (fun x S c => visit_head options epoch arch owned ctx x))|].
  { intros. apply offers_visit. }
  intros g. unfold visits_find, in_context. split.
  - intros (x & Hx & Hg). exists (ctx, x). split; [|done]. apply list_elem_of_fmap. eauto.
  - intros (v & (x & -> & Hx)%list_elem_of_fmap & Hg). eauto.
Qed.

Lemma offers_scan_chunks function_ea chunks count :
  offers (visits_find true (chunk_visits function_ea chunks count))
    (fun S c => scan_chunks options epoch arch function_ea chunks count).
Proof.
  revert count. induction chunks as [|[start end_] chunks IH]; intros count;
    cbn [scan_chunks chunk_visits].
  { apply offers_nothing; [done|]. unfold visits_find. set_solver. }
  destruct (end_ <=? start); [apply IH|]. cbn zeta.
  set (ctx := {| sx_function_ea := function_ea; sx_chunk_start := start; sx_chunk_end := end_ |}).
  change (chunk_context function_ea start end_) with ctx.
  set (limit := op_max_instructions_per_function options).
  set (l := visited_heads (range_fuel start end_) code_head end_ limit start count).
  pose (f1 := (fun S c s => foldl (fun s x => visit_head options epoch arch true ctx x s)
    (with_stats (stats_scanned 0 1 0 0 0) s) l) : Pass).
  pose (f2 := (fun S c s => if negb (limit =? 0) && (limit <=? count + zlen l) then s
    else scan_chunks options epoch arch function_ea chunks (count + zlen l) s) : Pass).
  assert (offers (visits_find true (in_context ctx l)) f1) as H1.
  { apply (offers_around _ (fun S c => with_stats (stats_scanned 0 1 0 0 0))
      (fun S c s => foldl (fun s x => visit_head options epoch arch true ctx x s) s l) (fun S c s => s)).
    - intros. apply counters_quiet.
    - intros. apply scanned_nil.
    - apply offers_visits. }
  assert (offers (visits_find true (if negb (limit =? 0) && (limit <=? count + zlen l) then []
    else chunk_visits function_ea chunks (count + zlen l))) f2) as H2.
  { unfold f2. destruct (negb (limit =? 0) && _); [|apply IH].
    apply offers_nothing; [done|]. unfold visits_find. set_solver. }
  eapply offers_iff; [|intros g; symmetry; apply visits_find_app].
  destruct (offers_seq _ _ f1 f2 H1 H2) as (gs & Hg & Hs). exists gs. split; [done|].
  intros S c s. specialize (Hs S c s). unfold f2, f1 in Hs.
  unfold scan_chunk. rewrite scan_heads_visits. exact Hs.
Qed.

Lemma offers_scan_segments segs total :
  offers (visits_find false (segment_visits segs total)) (fun S c => scan_segments options epoch arch segs total).
Proof.
  revert total. induction segs as [|seg segs IH]; intros total; cbn [scan_segments segment_visits].
  { apply offers_nothing; [done|]. unfold visits_find. set_solver. }
  destruct (scannable_segment seg) as [seg'|]; [|apply IH]. cbn zeta.
  set (ctx := {| sx_function_ea := BADADDR; sx_chunk_start := seg_start_ea seg';
                 sx_chunk_end := seg_end_ea seg' |}).
  set (l := visited_heads _ _ _ _ _ _).
  eapply offers_iff; [|intros g; symmetry; apply visits_find_app].
  destruct (offers_seq _ _ _ _ (offers_visits false ctx l) (IH (total + zlen l))) as (gs & Hg & Hs).
  exists gs. split; [done|]. intros S c s. rewrite scan_heads_visits. apply Hs.
Qed.

Definition function_visits (f : func_t) : list (ScanContext * Z) :=
  if fn_start_ea f =? BADADDR then [] else chunk_visits (fn_start_ea f) (fn_chunks f) 0.

Lemma progress_quiet {S} `{NativeClient S} f (s : Scan S) : scanned [] s (with_progress f s).
Proof. by apply (scanned_quiet _ _ []). Qed.

Lemma report_after_quiet {S} `{NativeClient S} boundary force f (s : Scan S) :
  scanned [] s (report_progress options boundary force (with_progress f s)).
Proof. eapply scanned_then_quiet; [apply progress_quiet|apply report_quiet]. Qed.

Lemma offers_scan_function f :
  offers (visits_find true (function_visits f)) (fun S c => scan_function options epoch arch f).
Proof.
  unfold scan_function, function_visits. destruct (fn_start_ea f =? BADADDR).
  { apply offers_nothing; [done|]. unfold visits_find. set_solver. }
  apply (offers_around _ (fun S c => with_stats (stats_scanned 1 0 0 0 0))
    (fun S c => scan_chunks options epoch arch (fn_start_ea f) (fn_chunks f) 0)
    (fun S c s => report_progress options false true (with_progress function_completed s))).
  - intros. apply counters_quiet.
  - intros. apply report_after_quiet.
  - apply offers_scan_chunks.
Qed.

Lemma offers_scan_unowned :
  offers (visits_find false (segment_visits all_segments 0)) (fun S c => scan_unowned_code options epoch arch).
Proof.
  apply (offers_around _
    (fun S c s => report_progress options true true (with_progress (set_stage Stage_UNOWNED_CODE) s))
    (fun S c => scan_segments options epoch arch all_segments 0)
    (fun S c => report_progress options false true)).
  - intros. apply report_after_quiet.
  - intros. apply report_quiet.
  - apply offers_scan_segments.
Qed.
End Walk.

(** ** Calls *)

Section Calls.
Context `{Ida}.

(** What a call can find: everything that its walk visits. *)
Definition function_findings (options : NativeAnalysisOptions) (epoch any_ea : Z) (g : NativeFact) : Prop :=
  detect_architecture <> Native_Unsupported /\ any_ea <> kNativeBadAddress /\
  exists f, get_func any_ea = Some f /\
    visits_find options epoch detect_architecture true (function_visits options f) g.

Definition scanned_entries (options : NativeAnalysisOptions) : list Z :=
  collect_entries all_functions (Z.to_nat (entry_limit options)).

Definition database_findings (options : NativeAnalysisOptions) (epoch : Z) (g : NativeFact) : Prop :=
  detect_architecture <> Native_Unsupported /\
  ((exists entry f, entry ∈ scanned_entries options /\ get_func entry = Some f /\ fn_start_ea f = entry /\
     visits_find options epoch detect_architecture true (function_visits options f) g) \/
   (op_scan_unowned_executable_code options = true /\
    visits_find options epoch detect_architecture false (segment_visits options all_segments 0) g)).

(** A call of the provider [p] that offers [gs]. *)
Record call_offers {S} `{NativeClient S} (gs : list NativeFact) (p : Provider) (client : S)
    (r : NativeAnalysisStats * Provider * S) : Prop := {
  co_client : exists es, r.2 = replay es client /\ reported es = (take_new gs (pv_emitted p)).1;
  co_known : pv_emitted r.1.2 = (take_new gs (pv_emitted p)).2;
  co_epoch : pv_current_epoch r.1.2 = pv_current_epoch p;
  co_emitted : ns_facts_emitted r.1.1 = zlen (take_new gs (pv_emitted p)).1;
  co_deduplicated : ns_facts_deduplicated r.1.1 = zlen gs - zlen (take_new gs (pv_emitted p)).1
}.

Lemma finish_offers {S} `{NativeClient S} gs p n (client : S) s :
  scanned gs (start_scan p n client) s -> call_offers gs p client (finish_scan p s).
Proof.
  intros [(es & Hc & He) Hk Hn Hd]. split; cbn in *; [by exists es|done|done|lia|lia].
Qed.

(** Where there is nothing to scan, nothing is offered. *)
Lemma nothing_offers {S} `{NativeClient S} options p (client : S) :
  call_offers [] p client (nothing_to_scan options p client).
Proof.
  unfold nothing_to_scan. split; cbn; try done. destruct (op_progress options).
  - by eexists [Progressed _].
  - by exists [].
Qed.

Lemma complete_quiet {S} `{NativeClient S} options (s : Scan S) : scanned [] s (complete options s).
Proof. apply report_after_quiet. Qed.

(** A scan between its first and its last progress report. *)
Lemma reported_scan {S} `{NativeClient S} options gs p n (client : S) (f : Scan S -> Scan S) :
  (forall s, scanned gs s (f s)) ->
  call_offers gs p client
    (finish_scan p (complete options (f (report_progress options true true (start_scan p n client))))).
Proof.
  intros Hf. apply (finish_offers _ _ n). eapply scanned_then_quiet; [|apply complete_quiet].
  eapply quiet_then_scanned; [apply report_quiet|apply Hf].
Qed.

Lemma analyze_function_offers options epoch any_ea :
  exists gs, (forall g, g ∈ gs <-> function_findings options epoch any_ea g) /\
    forall S (c : NativeClient S) p (client : S), pv_current_epoch p = epoch ->
      call_offers gs p client (analyze_function any_ea options p client).
Proof.
  unfold function_findings, analyze_function.
  destruct (decide (detect_architecture = Native_Unsupported)) as [Ha|Ha].
  { exists []. split; [set_solver|]. intros. rewrite bool_decide_eq_true_2 by done. apply nothing_offers. }
  destruct (decide (any_ea = kNativeBadAddress)) as [He|He].
  { exists []. split; [set_solver|]. intros. rewrite (proj2 (Z.eqb_eq _ _) He), orb_true_r.
    apply nothing_offers. }
  destruct (get_func any_ea) as [f|] eqn:Ef.
  - destruct (offers_scan_function options epoch detect_architecture f) as (gs & Hg & Hs).
    exists gs. split; [intros g; rewrite Hg; naive_solver|]. intros S c p client <-.
    rewrite bool_decide_eq_false_2, (proj2 (Z.eqb_neq _ _) He) by done. cbn [orb]. cbn zeta.
    by apply (reported_scan options gs p 1).
  - exists []. split; [set_solver|]. intros S c p client <-.
    rewrite bool_decide_eq_false_2, (proj2 (Z.eqb_neq _ _) He) by done. cbn [orb]. cbn zeta.
    apply (reported_scan options [] p 0 client (fun s => s)). intros. apply scanned_nil.
Qed.

Lemma offers_entry options epoch entry :
  offers (fun g => exists f, get_func entry = Some f /\ fn_start_ea f = entry /\
            visits_find options epoch detect_architecture true (function_visits options f) g)
    (fun S c => scan_entry options epoch entry).
Proof.
  unfold scan_entry. destruct (get_func entry) as [f|].
  2: { apply offers_quietly; [intros; apply report_after_quiet|naive_solver]. }
  destruct (Z.eqb_spec (fn_start_ea f) entry) as [Hf|Hf].
  - eapply offers_iff; [apply offers_scan_function|]. naive_solver.
  - apply offers_quietly; [intros; apply report_after_quiet|naive_solver].
Qed.

Lemma analyze_database_offers options epoch :
  exists gs, (forall g, g ∈ gs <-> database_findings options epoch g) /\
    forall S (c : NativeClient S) p (client : S), pv_current_epoch p = epoch ->
      call_offers gs p client (analyze_database options p client).
Proof.
  unfold database_findings, analyze_database.
  destruct (decide (detect_architecture = Native_Unsupported)) as [Ha|Ha].
  { exists []. split; [set_solver|]. intros. rewrite bool_decide_eq_true_2 by done. apply nothing_offers. }
  fold (scanned_entries options).
  pose (f1 := (fun S c s => foldl (fun s entry => scan_entry options epoch entry s) s
    (scanned_entries options)) : Pass).
  pose (f2 := (fun S c s => if op_scan_unowned_executable_code options
    then scan_unowned_code options epoch detect_architecture s else s) : Pass).
  assert (offers (fun g => op_scan_unowned_executable_code options = true /\
    visits_find options epoch detect_architecture false (segment_visits options all_segments 0) g) f2) as H2.
  { unfold f2. destruct (op_scan_unowned_executable_code options).
    - eapply offers_iff; [apply offers_scan_unowned|naive_solver].
    - apply offers_nothing; [done|naive_solver]. }
  pose proof (offers_foldl _ (fun entry S c => scan_entry options epoch entry) (scanned_entries options)
    (fun entry _ => offers_entry options epoch entry)) as H1.
  destruct (offers_seq _ _ f1 f2 H1 H2) as (gs & Hg & Hs).
  exists gs. split; [intros g; rewrite Hg; naive_solver|]. intros S c p client <-.
  rewrite bool_decide_eq_false_2 by done. cbn zeta.
  apply (reported_scan options gs p (zlen (scanned_entries options)) client (fun s => f2 S c (f1 S c s))).
  apply Hs.
Qed.

(** What a call can report. *)
Definition call_findings (c : NativeCall) (epoch : Z) (g : NativeFact) : Prop :=
  match c with
  | Call_AnalyzeDatabase options => database_findings options epoch g
  | Call_AnalyzeFunction ea options => function_findings options epoch ea g
  | _ => False
  end.

(** What a call leaves of the keys before it reports. *)
Definition call_forgets (c : NativeCall) (m : KeyMap) : KeyMap :=
  match c with
  | Call_InvalidateFunction ea => base.delete (function_scope ea) m
  | Call_Reset => ∅
  | _ => m
  end.

Lemma call_reports nc epoch :
  exists gs, (forall g, g ∈ gs <-> call_findings nc epoch g) /\
    forall S (c : NativeClient S) p (client : S), pv_current_epoch p = epoch ->
      exists es, (call nc p client).2 = replay es client /\
        reported es = (take_new gs (call_forgets nc (pv_emitted p))).1 /\
        pv_emitted (call nc p client).1 = (take_new gs (call_forgets nc (pv_emitted p))).2.
Proof.
  destruct nc as [options|ea options| | | |]; cbn [call_findings call_forgets call].
  - destruct (analyze_database_offers options epoch) as (gs & Hg & Hs). exists gs. split; [done|].
    intros S c p client He. destruct (Hs S c p client He) as [(es & Hc & Hr) Hk _ _ _]. exists es.
    by destruct (analyze_database options p client) as [[stats p'] client'].
  - destruct (analyze_function_offers options epoch ea) as (gs & Hg & Hs). exists gs. split; [done|].
    intros S c p client He. destruct (Hs S c p client He) as [(es & Hc & Hr) Hk _ _ _]. exists es.
    by destruct (analyze_function ea options p client) as [[stats p'] client'].
  - exists []. split; [set_solver|]. intros. by exists [].
  - exists []. split; [set_solver|]. intros. by exists [].
  - exists []. split; [set_solver|]. intros. by exists [].
  - exists []. split; [set_solver|]. intros. by exists [].
Qed.
End Calls.

Lemma replay_log es (log : list ClientEvent) : replay es log = log ++ es.
Proof.
  revert log. induction es as [|e es IH]; intros log; [by rewrite app_nil_r|].
  change (replay (e :: es) log) with (replay es (replay_event log e)). rewrite IH.
  destruct e; cbn [replay_event sink_emit on_progress log_client]; by rewrite <- app_assoc.
Qed.

(** ** Memory

    What a provider has reported and not forgotten, from the reports of each call. *)
Definition remember `{Ida} (c : NativeCall) (reports : list NativeFact) (memory : list NativeFact) :
    list NativeFact :=
  match c with
  | Call_InvalidateFunction ea => filter (fun g => fact_scope g <> function_scope ea) memory
  | Call_Reset => []
  | _ => memory ++ reports
  end.

(** The calls of a session, each with what the client had seen before and sees after it. *)
Fixpoint session `{Ida} (calls : list NativeCall) (p : Provider) (memory : list NativeFact) :
    Provider * list NativeFact :=
  match calls with
  | [] => (p, memory)
  | c :: calls =>
      let '(p', log) := call c p [] in
      session calls p' (remember c (reported log) memory)
  end.

(** The provider knows exactly what it remembers, and remembers nothing twice. *)
Record remembers (p : Provider) (memory : list NativeFact) : Prop := {
  rm_known h : known (pv_emitted p) h <-> exists g, g ∈ memory /\ same_entry g h;
  rm_once : distinct_entries memory;
  rm_epoch : 0 < pv_current_epoch p < 2 ^ 64
}.

Lemma remembers_take gs p p' memory :
  remembers p memory -> pv_emitted p' = (take_new gs (pv_emitted p)).2 ->
  0 < pv_current_epoch p' < 2 ^ 64 ->
  remembers p' (memory ++ (take_new gs (pv_emitted p)).1).
Proof.
  intros [Hk Ho _] Hp He. split; [| |done].
  - intros h. rewrite Hp, known_reported, Hk. set_solver.
  - apply distinct_entries_app. split_and!; [done|apply take_new_distinct|].
    intros g h Hg [_ Hn]%elem_of_take_new Hs. apply Hn, Hk. eauto.
Qed.

Lemma known_forget scope (m : KeyMap) h :
  known (base.delete scope m) h <-> known m h /\ fact_scope h <> scope.
Proof.
  unfold known. destruct (decide (fact_scope h = scope)) as [<-|Hne].
  - rewrite lookup_delete_eq. cbn [default]. set_solver.
  - rewrite lookup_delete_ne by done. naive_solver.
Qed.

Lemma same_entry_scope g h : same_entry g h -> fact_scope g = fact_scope h.
Proof. by intros []. Qed.

Section Sessions.
Context `{Ida}.

Lemma advance_epoch_range p : 0 < pv_current_epoch p < 2 ^ 64 -> 0 < pv_current_epoch (advance_epoch p) < 2 ^ 64.
Proof.
  unfold advance_epoch. cbn. intros ?. destruct (Z.eqb_spec ((pv_current_epoch p + 1) mod 2 ^ 64) 0); [lia|].
  pose proof (Z.mod_pos_bound (pv_current_epoch p + 1) (2 ^ 64)). lia.
Qed.

Definition call_ok (c : NativeCall) : Prop :=
  match c with Call_SetEpoch epoch => is_u64 epoch | _ => True end.

Lemma call_epoch c p (client : list ClientEvent) :
  call_ok c -> 0 < pv_current_epoch p < 2 ^ 64 -> 0 < pv_current_epoch (call c p client).1 < 2 ^ 64.
Proof.
  intros Hc Hp. destruct c as [options|ea options| |epoch|ea|]; cbn [call].
  - destruct (analyze_database_offers options (pv_current_epoch p)) as (gs & _ & Hs).
    destruct (Hs _ log_client p client eq_refl) as [_ _ He _ _].
    destruct (analyze_database options p client) as [[? p'] ?]. cbn in *. by rewrite He.
  - destruct (analyze_function_offers options (pv_current_epoch p) ea) as (gs & _ & Hs).
    destruct (Hs _ log_client p client eq_refl) as [_ _ He _ _].
    destruct (analyze_function ea options p client) as [[? p'] ?]. cbn in *. by rewrite He.
  - by apply advance_epoch_range.
  - unfold set_epoch, call_ok, is_u64 in *. cbn. destruct (Z.eqb_spec epoch 0); lia.
  - by apply advance_epoch_range.
  - by apply advance_epoch_range.
Qed.

Lemma call_remembers c p memory :
  call_ok c -> remembers p memory ->
  remembers (call c p []).1 (remember c (reported (call c p []).2) memory).
Proof.
  intros Hc Hm. pose proof (call_epoch c p [] Hc (rm_epoch _ _ Hm)) as He.
  destruct (call_reports c (pv_current_epoch p)) as (gs & _ & Hs).
  destruct (Hs _ log_client p [] eq_refl) as (es & Hl & Hr & Hk). rewrite Hl, replay_log.
  cbn [app]. rewrite Hr. destruct c as [options|ea options| |epoch|ea|]; cbn [remember call_forgets] in *.
  1-4: by apply remembers_take.
  - cbn [call fst pv_emitted] in *. split; [| |done].
    + intros h. cbn. rewrite known_forget, (rm_known _ _ Hm). setoid_rewrite list_elem_of_filter.
      split.
      * intros [(g & Hg & He') Hn]. exists g. by rewrite (same_entry_scope _ _ He').
      * intros (g & [Hn Hg] & He'). rewrite <- (same_entry_scope _ _ He'). eauto.
    + apply distinct_entries_filter, Hm.
  - split; [| |done].
    + intros h. cbn. unfold known. rewrite lookup_empty. cbn [default]. set_solver.
    + by intros i.
Qed.

(** C36: over any sequence of calls a provider reports each entry once until the entry's
    function is invalidated or the provider is reset: what it has reported since then is
    without repetition, is exactly what it knows, and determines the payloads of facts up to
    the printed register name; the epoch is never zero. *)
Theorem native_reports_once calls :
  Forall call_ok calls ->
  let '(p, memory) := session calls new_provider [] in
  distinct_entries memory /\
  (forall h, known (pv_emitted p) h <-> exists g, g ∈ memory /\ same_entry g h) /\
  (forall g h, g ∈ memory -> h ∈ memory -> native_fact_typed g -> native_fact_typed h ->
     fact_scope g = fact_scope h -> unnamed (nx_payload g) = unnamed (nx_payload h) -> g = h) /\
  0 < pv_current_epoch p < 2 ^ 64.
Proof.
  intros Hc. destruct (session calls new_provider []) as [p memory] eqn:E.
  assert (remembers p memory) as Hm.
  { assert (remembers new_provider []) as H0.
    { split; [|by intros i|done]. intros h. unfold known. cbn. set_solver. }
    revert H0 E. generalize new_provider (@nil NativeFact).
    induction Hc as [|c calls Hc Hcs IH]; intros p0 m0 H0 E; cbn [session] in E; [by simplify_eq|].
    pose proof (call_remembers c p0 m0 Hc H0) as H1. destruct (call c p0 []) as [p1 log]. by eapply IH. }
  destruct Hm as [Hk Ho [He1 He2]]. split_and!; [done|done| |done|done].
  intros g h [i Hi]%list_elem_of_lookup [j Hj]%list_elem_of_lookup [_ Hg] [_ Hh] Hs Hu.
  assert (i = j) as -> by (eapply Ho; [done..|split; [done|by apply fact_key_unnamed]]). congruence.
Qed.
End Sessions.

(** ** Epochs

    The epoch is in the provenance of a fact, not in its key. *)
Definition at_epoch (epoch : Z) (g : NativeFact) : NativeFact :=
  let p := nx_provenance g in {|
  nx_provenance := {|
    np_epoch := epoch; np_function_ea := np_function_ea p; np_chunk_start := np_chunk_start p;
    np_chunk_end := np_chunk_end p; np_architecture := np_architecture p; np_source := np_source p;
    np_strength := np_strength p; np_supporting_observations := np_supporting_observations p;
    np_deterministic := np_deterministic p |};
  nx_payload := nx_payload g |}.

Lemma at_epoch_entry epoch g : same_entry (at_epoch epoch g) g.
Proof. done. Qed.

Section Epochs.
Context `{Ida} (options : NativeAnalysisOptions) (e e' : Z) (arch : NativeArchitecture) (ctx : ScanContext).

Ltac refind := decompose_finding; cbn zeta;
  repeat first [done|apply conj|lazymatch goal with |- ex _ => eexists end].

Lemma candidate_epoch callsite target indirect g :
  finds_candidate e arch ctx callsite target indirect g ->
  finds_candidate e' arch ctx callsite target indirect (at_epoch e' g).
Proof. unfold finds_candidate. intros Hf. refind. Qed.

Lemma target_epoch insn call target definition pointer resolution id name width g :
  finds_target options e arch ctx insn call target definition pointer resolution id name width g ->
  finds_target options e' arch ctx insn call target definition pointer resolution id name width (at_epoch e' g).
Proof.
  unfold finds_target. cbn zeta. intros (Hu & He & [->|[Hc Hg%candidate_epoch]]);
    (split; [done|split; [done|]]); [by left|by right].
Qed.

Lemma finds_epoch insn g : finds options e arch ctx insn g -> finds options e' arch ctx insn (at_epoch e' g).
Proof.
  unfold finds. intros [(Ho & Hg)|[[Ho Hg]|[[Ho Hg]|[[Ho Hg]|[[Ho Hg]|(Ho & t & Ht & Hg)]]]]].
  - left. split; [done|]. destruct Hg as [Hg|[Hg|[Hg|Hg]]].
    + left. unfold finds_item_size in *. refind.
    + right; left. unfold finds_attached_prefix in *. refind.
    + right; right; left. unfold finds_detached_prefix in *. refind.
    + do 3 right. unfold finds_target_not_code in *. refind.
  - right; left. split; [done|]. unfold finds_indirect in *. cbn zeta in *.
    destruct Hg as (? & ? & ? & ? & [(op & Hop & Hr)|(op & Hop & Hm)]); (split_and!; [done..|]).
    + left. exists op. split; [done|]. destruct Hr as (rvi & value & ? & ? & Hr%target_epoch). by exists rvi, value.
    + right. exists op. split; [done|].
      destruct Hm as (? & pointer & seg & target & ? & ? & ? & ? & ? & ? & ? & Hm%target_epoch).
      split; [done|]. by exists pointer, seg, target.
  - right; right; left. split; [done|]. unfold finds_zero_branch in *. refind.
  - do 3 right; left. split; [done|]. unfold finds_pair in *. refind.
  - do 4 right; left. split; [done|]. unfold finds_flag_branch in *. refind.
  - do 5 right. split; [done|]. exists t. split; [done|]. by apply candidate_epoch.
Qed.

Lemma visit_epoch owned ea g :
  visit_finds options e arch owned ctx ea g -> visit_finds options e' arch owned ctx ea (at_epoch e' g).
Proof.
  assert (finds_undecodable e arch ctx ea g -> finds_undecodable e' arch ctx ea (at_epoch e' g)) as Hu.
  { unfold finds_undecodable. by intros ->. }
  unfold visit_finds. destruct (decode_insn ea) as [insn|]; [|naive_solver].
  destruct (insn_size insn =? 0); [naive_solver|]. apply finds_epoch.
Qed.
End Epochs.

Lemma call_findings_epoch `{Ida} c e e' g : call_findings c e g -> call_findings c e' (at_epoch e' g).
Proof.
  assert (forall options arch owned visits, visits_find options e arch owned visits g ->
    visits_find options e' arch owned visits (at_epoch e' g)) as Hv.
  { intros options arch owned visits (v & Hin & Hg). exists v. split; [done|]. by eapply visit_epoch. }
  destruct c as [options|ea options| | | |]; cbn [call_findings]; [..|done|done|done|done].
  - intros (Ha & [(entry & f & ? & ? & ? & Hg)|[? Hg]]); (split; [done|]); [left|right; auto].
    exists entry, f. auto.
  - intros (Ha & Hb & f & Hf & Hg). split_and!; [done|done|]. exists f. auto.
Qed.

Section History.
Context `{Ida} {S : Type} `{NativeClient S}.

Lemma take_new_known gs m : (forall g, g ∈ gs -> known m g) -> (take_new gs m).1 = [].
Proof.
  intros Hk. destruct (take_new gs m).1 as [|g l] eqn:E; [done|].
  destruct (elem_of_take_new gs m g) as [Hg Hn]; [rewrite E; set_solver|]. by destruct Hn; apply Hk.
Qed.

(** A history only removes reports.  With any history a call shows the client the facts
    that it reports without one, in the same order, less those whose entry is known; and
    when the call is repeated, in whatever epoch, nothing is reported again. *)
Theorem native_history_filters (c : NativeCall) (p : Provider) (client : S) :
  let fresh := reported (call c (forget ∅ p) (@nil ClientEvent)).2 in
  exists es, (call c p client).2 = replay es client /\
    reported es = filter (fun g => ~ known (pv_emitted p) g) fresh /\
    forall epoch client', exists es',
      (call c (with_epoch epoch (call c p client).1) client').2 = replay es' client' /\
      reported es' = [].
Proof.
  destruct (call_reports c (pv_current_epoch p)) as (gs & Hg & Hs).
  destruct (Hs _ log_client (forget ∅ p) [] eq_refl) as (fresh & Hf & Hfr & _).
  destruct (Hs _ _ p client eq_refl) as (es & He & Her & Hek). cbn zeta.
  rewrite Hf, replay_log. cbn [app]. exists es. split; [done|].
  assert (gs = [] \/ call_forgets c = id) as Hgs.
  { destruct c; cbn [call_forgets]; [by right..| |]; left; destruct gs as [|g gs]; [done| |done|];
      destruct (Hg g); set_solver. }
  split.
  { rewrite Hfr, Her. destruct Hgs as [->| ->]; [done|]. apply take_new_history.
    intros h. unfold known. cbn. rewrite lookup_empty. set_solver. }
  intros epoch client'. destruct (call_reports c epoch) as (gs' & Hg' & Hs').
  destruct (Hs' _ _ (with_epoch epoch (call c p client).1) client' eq_refl) as (es' & He' & Her' & _).
  exists es'. split; [done|].
  assert (call_forgets c = id -> reported es' = []) as Hnil.
  { intros Hid. rewrite Her', Hid. apply take_new_known. intros g Hgg%Hg'.
    cbn [id with_epoch pv_emitted]. rewrite Hek, Hid. apply known_take_new. left.
    exists (at_epoch (pv_current_epoch p) g). split; [|apply at_epoch_entry].
    apply Hg. by eapply call_findings_epoch. }
  destruct Hgs as [->|Hid]; [|by apply Hnil].
  assert (gs' = []) as ->; [|done]. destruct gs' as [|g gs']; [done|].
  assert (at_epoch (pv_current_epoch p) g ∈ @nil NativeFact) as Hn; [|by apply elem_of_nil in Hn].
  apply Hg. eapply call_findings_epoch. apply Hg'. set_solver.
Qed.
End History.

(** ** Completeness of a scan *)

Lemma chunk_visits_all `{IdaHeads} options function_ea chunks count v :
  op_max_instructions_per_function options = 0 ->
  Forall (fun c => 0 <= c.1 /\ c.2 <= u64_max) chunks ->
  v ∈ chunk_visits options function_ea chunks count <->
  exists start end_, (start, end_) ∈ chunks /\ v.1 = chunk_context function_ea start end_ /\
    start <= v.2 < end_ /\ code_head v.2 = true.
Proof.
  intros Hmax Hc. revert count. induction Hc as [|[start end_] chunks [Hs He] _ IH]; intros count;
    cbn [chunk_visits fst snd] in *.
  { split; [set_solver|intros (? & ? & ? & _); set_solver]. }
  assert ((exists a b, (a, b) ∈ (start, end_) :: chunks /\ v.1 = chunk_context function_ea a b /\
      a <= v.2 < b /\ code_head v.2 = true) <->
    (v.1 = chunk_context function_ea start end_ /\ start <= v.2 < end_ /\ code_head v.2 = true) \/
    (exists a b, (a, b) ∈ chunks /\ v.1 = chunk_context function_ea a b /\
      a <= v.2 < b /\ code_head v.2 = true)) as ->.
  { setoid_rewrite elem_of_cons. split.
    - intros (a & b & [?|?] & Hv); [left; by simplify_eq|right; eauto].
    - intros [Hv|(a & b & ? & Hv)]; eauto 10. }
  rewrite Hmax. destruct (Z.leb_spec end_ start) as [Hes|Hes].
  { rewrite IH. split; [auto|intros [(_ & ? & _)|?]; [lia|done]]. }
  cbn [negb andb Z.eqb]. cbn zeta. rewrite elem_of_app, IH. unfold in_context.
  rewrite list_elem_of_fmap. split.
  - intros [(x & -> & Hx)|?]; [left|by right]. cbn [fst snd].
    apply visited_heads_all in Hx; [naive_solver| |lia|done|unfold range_fuel; lia].
    intros y [? _]%andb_prop. done.
  - intros [(Hv & Hr & Hh)|?]; [left|by right]. destruct v as [c x]; cbn [fst snd] in *. subst c.
    exists x. split; [done|]. apply visited_heads_all; [|lia|done|unfold range_fuel; lia|done].
    intros y [? _]%andb_prop. done.
Qed.

(** C17: without a limit, the analysis of a function is exact.  What it reports is found at a
    code head of a chunk of the function and was not known; what can be found at any code
    head of any chunk is known afterwards, and nothing else becomes known than what was
    reported; no entry is reported twice; and the counter of emitted facts is the number of
    reports. *)
Theorem native_scan_exact `{IdaHeads} {S} `{NativeClient S} options any_ea f p (client : S) :
  detect_architecture <> Native_Unsupported -> any_ea <> kNativeBadAddress ->
  get_func any_ea = Some f -> fn_start_ea f <> BADADDR ->
  op_max_instructions_per_function options = 0 ->
  Forall (fun c => 0 <= c.1 /\ c.2 <= u64_max) (fn_chunks f) ->
  let found g := exists start end_ ea, (start, end_) ∈ fn_chunks f /\
    start <= ea < end_ /\ code_head ea = true /\
    visit_finds options (pv_current_epoch p) detect_architecture true
      (chunk_context (fn_start_ea f) start end_) ea g in
  let '(stats, p', client') := analyze_function any_ea options p client in
  exists es, client' = replay es client /\
    (forall g, g ∈ reported es -> found g /\ ~ known (pv_emitted p) g) /\
    (forall g, found g -> known (pv_emitted p') g) /\
    (forall h, known (pv_emitted p') h <->
       known (pv_emitted p) h \/ exists g, g ∈ reported es /\ same_entry g h) /\
    distinct_entries (reported es) /\
    ns_facts_emitted stats = zlen (reported es).
Proof.
  intros Ha Hb Hf Hs Hmax Hc found.
  assert (forall g, function_findings options (pv_current_epoch p) any_ea g <-> found g) as Hfound.
  { intros g. unfold function_findings, function_visits, visits_find, found.
    rewrite Hf. split.
    - intros (_ & _ & f' & [= <-] & v & Hv & Hg).
      rewrite (proj2 (Z.eqb_neq _ _) Hs) in Hv. apply chunk_visits_all in Hv; [|done..].
      destruct Hv as (start & end_ & Hin & Hctx & Hr & Hh). rewrite Hctx in Hg.
      by exists start, end_, v.2.
    - intros (start & end_ & ea & Hin & Hr & Hh & Hg). split_and!; [done|done|]. exists f.
      split; [done|].
      exists (chunk_context (fn_start_ea f) start end_, ea). split; [|done].
      rewrite (proj2 (Z.eqb_neq _ _) Hs). apply chunk_visits_all; [done..|]. by exists start, end_. }
  destruct (analyze_function_offers options (pv_current_epoch p) any_ea) as (gs & Hg & Ho).
  specialize (Ho S _ p client eq_refl). destruct (analyze_function any_ea options p client) as [[stats p'] client'].
  destruct Ho as [(es & Hc' & He) Hk _ Hn _]. cbn [fst snd] in *. exists es.
  rewrite He, Hk. split_and!; [done| | |intros h; rewrite known_reported; tauto|apply take_new_distinct|done].
  - intros g [Hin Hnk]%elem_of_take_new. by rewrite <- Hfound, <- Hg.
  - intros g Hgf%Hfound%Hg. apply known_take_new. left. exists g. split; [done|done].
Qed.

(** ** Examples *)

(** [clc], [jc], [jz], [jnz] to the same target, and the target. *)
Definition example_listing : list insn_t :=
  [an_insn 16 1 (x86_number NN_clc) []; an_insn 17 2 (x86_number NN_jc) [near_to 24];
   an_insn 19 2 (x86_number NN_jz) [near_to 24]; an_insn 21 2 (x86_number NN_jnz) [near_to 24];
   an_insn 23 1 (x86_number NN_nop) []; an_insn 24 1 (x86_number NN_nop) []].

#[local] Instance example_ida : Ida := listing_ida 0 true (fun _ => false) (fun _ => []) example_listing.

#[local] Instance example_heads : IdaHeads.
Proof. apply listing_heads. repeat constructor. Qed.

#[local] Existing Instance log_client.

Lemma native_reports_once_witness :
  Forall call_ok [Call_SetEpoch 7; Call_AnalyzeDatabase default_options] /\
  let '(p, memory) := session [Call_SetEpoch 7; Call_AnalyzeDatabase default_options] new_provider [] in
  length memory = 2%nat /\ distinct_entries memory.
Proof.
  split; [by repeat constructor|].
  assert (Forall call_ok [Call_SetEpoch 7; Call_AnalyzeDatabase default_options]) as Hc by (by repeat constructor).
  pose proof (native_reports_once _ Hc) as Ht.
  assert (length (session [Call_SetEpoch 7; Call_AnalyzeDatabase default_options] new_provider []).2 = 2%nat)
    as Hn by (vm_compute; reflexivity).
  destruct (session _ _ _) as [p memory]. split; [exact Hn|]. apply Ht.
Defined.

Lemma native_scan_exact_witness :
  let '(stats, _, client) := analyze_function 16 default_options new_provider [] in
  ns_facts_emitted stats = 2 /\ length (reported client) = 2%nat /\ distinct_entries (reported client).
Proof.
  pose (f := {| fn_start_ea := 16; fn_chunks := [(16, 25)] |}).
  pose proof (native_scan_exact default_options 16 f new_provider (@nil ClientEvent)) as Ht. cbn zeta in Ht.
  assert (let '(stats, _, client) := analyze_function 16 default_options new_provider (@nil ClientEvent) in
    ns_facts_emitted stats = 2 /\ length (reported client) = 2%nat) as Hn by (vm_compute; by split).
  destruct (analyze_function 16 default_options new_provider []) as [[stats p] client].
  destruct Hn as [Hs Hl]. split; [exact Hs|split; [exact Hl|]].
  destruct Ht as (es & Hc & _ & _ & _ & Hd & _).
  1-5: by vm_compute.
  { repeat constructor; vm_compute; discriminate. }
  rewrite replay_log in Hc. cbn [app] in Hc. by rewrite Hc.
Defined.
