(* ===== verification/NativeSound.v ===== *)
(** * The native analysis against executions (native_analysis.cpp)

    [Cpu] is a processor that runs the code of the database: its instructions do what the
    manuals of the processors document.  A step is a recorded one if the database has a code
    reference for it, ordinary flow included; the analysis knows of no others.  The theorems
    say that what the analysis reports as proved holds in every execution of recorded steps:
    a branch on a known flag goes where the fact says, and a pair of opposite
    branches reaches its target.  The examples show the two exceptions: a compare-and-branch
    pair of two widths, and a move to a system register before a branch. *)
From stdpp Require Import base numbers list strings option sets relations.
From Stdlib Require Import ZArith Init.Byte Lia.
From S2P Require Import Prelude NativeTypes NativeDatabase NativeListing NativeScan NativeReports NativeRuns.

#[local] Open Scope viy_scope.

(** ** Processors *)

(** The flags that branches test: the names of x86, with the sign as the negative flag. *)
Record flags_t : Type := {
  fl_sign : bool; fl_zero : bool; fl_carry : bool; fl_overflow : bool; fl_parity : bool }.

Class Cpu : Type := {
  cpu_state : Type;
  pc : cpu_state -> Z;
  flags : cpu_state -> flags_t;
  register : cpu_state -> Z -> Z;
  memory_operand : cpu_state -> op_t -> Z;
  step : cpu_state -> cpu_state -> Prop
}.

Definition condition_holds (c : NativeCondition) (f : flags_t) : bool :=
  match c with
  | NC_Overflow => fl_overflow f
  | NC_NotOverflow => negb (fl_overflow f)
  | NC_Carry => fl_carry f
  | NC_NotCarry => negb (fl_carry f)
  | NC_Zero => fl_zero f
  | NC_NotZero => negb (fl_zero f)
  | NC_BelowOrEqual => fl_carry f || fl_zero f
  | NC_Above => negb (fl_carry f || fl_zero f)
  | NC_Sign => fl_sign f
  | NC_NotSign => negb (fl_sign f)
  | NC_Parity => fl_parity f
  | NC_NotParity => negb (fl_parity f)
  | NC_Less => xorb (fl_sign f) (fl_overflow f)
  | NC_GreaterOrEqual => negb (xorb (fl_sign f) (fl_overflow f))
  | NC_LessOrEqual => fl_zero f || xorb (fl_sign f) (fl_overflow f)
  | NC_Greater => negb (fl_zero f || xorb (fl_sign f) (fl_overflow f))
  | NC_Invalid => false
  end.

(** The condition field of ARM: the low bit inverts, except in the last code. *)
Definition arm_holds (condition : Z) (f : flags_t) : bool :=
  let base :=
    match Z.shiftr condition 1 with
    | 0 => fl_zero f
    | 1 => fl_carry f
    | 2 => fl_sign f
    | 3 => fl_overflow f
    | 4 => fl_carry f && negb (fl_zero f)
    | 5 => eqb (fl_sign f) (fl_overflow f)
    | 6 => eqb (fl_sign f) (fl_overflow f) && negb (fl_zero f)
    | _ => true
    end in
  if Z.testbit condition 0 && negb (condition =? 15) then negb base else base.

Section Semantics.
Context `{Ida, Cpu}.

(** An operand at its width. *)
Definition read (s : cpu_state) (op : op_t) : Z :=
  let bits := 8 * get_dtype_size (op_dtype op) in
  match op_type op with
  | o_reg => register s (op_reg op) mod 2 ^ bits
  | o_imm => op_value op mod 2 ^ bits
  | _ => memory_operand s op
  end.

Definition next_ea (insn : insn_t) : Z := ea_add (insn_ea insn) (insn_size insn).

Definition branches_if (taken : bool) (insn : insn_t) (s' : cpu_state) : Prop :=
  pc s' = if taken then branch_target insn else next_ea insn.

(** A move to or from a control, debug or test register leaves the flags undefined. *)
Definition special_move (insn : insn_t) : Prop :=
  x86_itype (insn_itype insn) = Some NN_mov /\
  exists op n, op ∈ insn_ops insn /\ op_type op = o_idpspec n.

(** What the manuals say of the flags that the analysis tracks. *)
Definition x86_flags (i : X86Itype) (insn : insn_t) (s s' : cpu_state) : Prop :=
  let a := read s (Op1 insn) in
  let b := read s (Op2 insn) in
  let f := flags s in
  let f' := flags s' in
  match i with
  | NN_stc => fl_carry f' = true /\ fl_zero f' = fl_zero f
  | NN_clc => fl_carry f' = false /\ fl_zero f' = fl_zero f
  | NN_cmc => fl_carry f' = negb (fl_carry f) /\ fl_zero f' = fl_zero f
  | NN_and | NN_test => fl_carry f' = false /\ fl_zero f' = (Z.land a b =? 0)
  | NN_or => fl_carry f' = false /\ fl_zero f' = (Z.lor a b =? 0)
  | NN_xor => fl_carry f' = false /\ fl_zero f' = (Z.lxor a b =? 0)
  | NN_sub | NN_cmp => fl_carry f' = (a <? b) /\ fl_zero f' = (a =? b)
  | NN_inc | NN_dec => fl_carry f' = fl_carry f
  | NN_mov => ~ special_move insn -> f' = f
  | NN_call | NN_retn | NN_retf | NN_add | NN_shl | NN_sal => True
  | _ => f' = f
  end.

Definition x86_semantics (insn : insn_t) (s s' : cpu_state) : Prop :=
  match x86_itype (insn_itype insn) with
  | None => True
  | Some i =>
      x86_flags i insn s s' /\
      (condition_of i <> NC_Invalid -> branches_if (condition_holds (condition_of i) (flags s)) insn s')
  end.

(** Branches change neither flags nor registers. *)
Definition arm_branches (taken : bool) (insn : insn_t) (s s' : cpu_state) : Prop :=
  branches_if taken insn s' /\ flags s' = flags s /\ register s' = register s.

Definition tested_bit (s : cpu_state) (insn : insn_t) : bool :=
  Z.testbit (register s (op_reg (Op1 insn))) (op_value (Op2 insn)).

Definition arm_semantics (insn : insn_t) (s s' : cpu_state) : Prop :=
  (has_itype insn ARM_b = true ->
     arm_branches (arm_holds (arm_condition insn) (flags s)) insn s s') /\
  (has_itype insn ARM_cbz = true -> arm_branches (read s (Op1 insn) =? 0) insn s s') /\
  (has_itype insn ARM_cbnz = true -> arm_branches (negb (read s (Op1 insn) =? 0)) insn s s') /\
  (has_itype insn ARM_tbz = true -> arm_branches (negb (tested_bit s insn)) insn s s') /\
  (has_itype insn ARM_tbnz = true -> arm_branches (tested_bit s insn) insn s s').

Definition semantics (insn : insn_t) (s s' : cpu_state) : Prop :=
  match detect_architecture with
  | Native_X86 => x86_semantics insn s s'
  | Native_Arm32 | Native_Arm64 => arm_semantics insn s s'
  | Native_Unsupported => True
  end.

(** The code references to an address; the cursor shows them before the others. *)
Fixpoint code_refs (refs : list xref_t) : list Z :=
  match refs with
  | r :: refs => if xr_iscode r then xr_from r :: code_refs refs else []
  | [] => []
  end.

(** What the theorems assume of the disassembler and the processor. *)
Class CpuLaws : Prop := {
  decode_law ea insn : decode_insn ea = Some insn -> insn_ea insn = ea;
  prev_head_law ea min : prev_head ea min = BADADDR \/ prev_head ea min < ea;
  widths_law ea insn : decode_insn ea = Some insn -> detect_architecture = Native_X86 ->
    x86_itype (insn_itype insn) = Some NN_xor \/ x86_itype (insn_itype insn) = Some NN_sub \/
      x86_itype (insn_itype insn) = Some NN_cmp ->
    same_register_operands insn = true -> op_dtype (Op1 insn) = op_dtype (Op2 insn);
  step_law s s' insn : step s s' -> decode_insn (pc s) = Some insn -> semantics insn s s'
}.

(** The steps for which the database has a code reference. *)
Definition recorded_step (s s' : cpu_state) : Prop := step s s' /\ pc s ∈ code_refs (code_xrefs_to (pc s')).

(** A run of such steps reaches an address that has no alternate predecessor from the linear one. *)
Lemma only_predecessor s s' ea :
  recorded_step s s' -> has_alternate_predecessor (pc s') ea = false -> pc s = ea.
Proof.
  intros [_ Hs]. unfold has_alternate_predecessor. revert Hs.
  induction (code_xrefs_to (pc s')) as [|r refs IH]; cbn [code_refs alternate_among]; [set_solver|].
  destruct (xr_iscode r); cbn [negb]; [|set_solver].
  rewrite elem_of_cons. destruct (Z.eqb_spec (xr_from r) ea); cbn [negb]; [|done].
  intros [->|Hs] ?; [done|by apply IH].
Qed.
End Semantics.

(** ** Conditions *)

Lemma opposite_holds a b f :
  opposite_x86_conditions a b = true -> condition_holds b f = negb (condition_holds a f).
Proof. by destruct a, b; cbn; rewrite ?negb_involutive. Qed.

Lemma arm_opposite_holds c f : 0 <= c < 14 -> arm_holds (Z.lxor c 1) f = negb (arm_holds c f).
Proof.
  intros Hc. assert (c = 0 \/ c = 1 \/ c = 2 \/ c = 3 \/ c = 4 \/ c = 5 \/ c = 6 \/ c = 7 \/ c = 8 \/
    c = 9 \/ c = 10 \/ c = 11 \/ c = 12 \/ c = 13) as Hcases by lia.
  by repeat destruct Hcases as [->|Hcases]; subst; cbn; rewrite ?negb_involutive.
Qed.

(** The tracked flag in a state. *)
Definition tracked (flag : NativeTrackedFlag) (f : flags_t) : bool :=
  match flag with Flag_Carry => fl_carry f | Flag_Zero => fl_zero f end.

Definition flag_is_set (value : NativeFlagValue) : bool := bool_decide (value = Flag_Set).

Lemma flag_outcome_holds c flag value outcome f :
  flag_branch_outcome c flag value = Some outcome -> tracked flag f = flag_is_set value ->
  condition_holds c f = bool_decide (outcome = AlwaysTaken).
Proof.
  unfold flag_is_set, flag_branch_outcome. intros Ho Hf.
  destruct flag, value, c; cbn in *; try discriminate;
    change (bool_decide (Flag_Set = Flag_Set)) with true in *;
    change (bool_decide (Flag_Clear = Flag_Set)) with false in *;
    cbn in *; simplify_eq; rewrite ?Hf; cbn; rewrite ?orb_true_r; reflexivity.
Qed.

(** ** Known flags *)

Section Flags.
Context `{Ida, Cpu} `{!CpuLaws}.
Context (Hx86 : detect_architecture = Native_X86).

(** The effect that the analysis gives an instruction is the effect it has. *)
Lemma flag_effect_holds ea insn flag s s' :
  decode_insn ea = Some insn -> pc s = ea -> step s s' -> ~ special_move insn ->
  match flag_effect insn flag with
  | Effect_Set => tracked flag (flags s') = true
  | Effect_Clear => tracked flag (flags s') = false
  | Effect_Flip => tracked flag (flags s') = negb (tracked flag (flags s))
  | Effect_Preserve => tracked flag (flags s') = tracked flag (flags s)
  | Effect_Unknown => True
  end.
Proof.
  intros Hd <- Hs Hm. pose proof (step_law s s' insn Hs Hd) as He.
  pose proof (widths_law _ _ Hd Hx86) as Hw. unfold semantics in He. rewrite Hx86 in He.
  unfold x86_semantics in He.
  unfold flag_effect, carry_effect, zero_effect, preserves_common_x86_flags, x86_condition.
  assert (same_register_operands insn = true -> op_dtype (Op1 insn) = op_dtype (Op2 insn) ->
    read s (Op1 insn) = read s (Op2 insn)) as Hread.
  { intros [[E1%bool_decide_eq_true E2%bool_decide_eq_true]%andb_prop E3%Z.eqb_eq]%andb_prop Hdt.
    unfold read. by rewrite E1, E2, E3, Hdt. }
  assert (forall op, zero_immediate op = true -> read s op = 0) as Hzero.
  { intros op [Ht%bool_decide_eq_true Hv%Z.eqb_eq]%andb_prop. unfold read. rewrite Ht, Hv.
    apply Zmod_0_l. }
  destruct (x86_itype (insn_itype insn)) as [i|] eqn:Ei; [|by destruct flag].
  destruct He as [He _]. clear Ei.
  destruct i, flag; cbn in He |- *;
    first [done|by rewrite He|by rewrite (He Hm)|by destruct He as [? ?]|destruct He as [Hc Hz]].
  - destruct (zero_immediate (Op2 insn)) eqn:E; [|done]. by rewrite Hz, (Hzero _ E), Z.land_0_r.
  - destruct (zero_immediate (Op1 insn)) eqn:E1; [by rewrite Hz, (Hzero _ E1)|].
    destruct (zero_immediate (Op2 insn)) eqn:E2; [by rewrite Hz, (Hzero _ E2), Z.land_0_r|done].
  - destruct (same_register_operands insn) eqn:E; [|done].
    by rewrite Hz, Hread, Z.lxor_nilpotent by auto.
  - destruct (same_register_operands insn) eqn:E; [|done]. by rewrite Hc, Hread, Z.ltb_irrefl by auto.
  - destruct (same_register_operands insn) eqn:E; [|done]. by rewrite Hz, Hread, Z.eqb_refl by auto.
  - destruct (same_register_operands insn) eqn:E; [|done]. by rewrite Hc, Hread, Z.ltb_irrefl by auto.
  - destruct (same_register_operands insn) eqn:E; [|done]. by rewrite Hz, Hread, Z.eqb_refl by auto.
Qed.

(** The definition is before the place where the walk starts. *)
Lemma scan_flag_before depth chunk_start flag scan flipped scanned :
  let r := scan_flag_loop depth chunk_start flag scan flipped scanned in
  fs_known r = true -> fs_definition_ea r < scan.
Proof.
  cbn zeta. revert scan flipped scanned.
  induction depth as [|depth IH]; intros scan flipped scanned; cbn [scan_flag_loop]; [done|].
  destruct (prev_head_law scan chunk_start) as [->|Hp]; [by rewrite Z.eqb_refl|].
  destruct (_ || _ || _); [done|]. destruct (decode_insn _) as [insn|]; [|done].
  destruct (ea_add _ _ =? _); [|done]. destruct (has_alternate_predecessor _ _); [done|]. cbn [negb]. cbn zeta.
  destruct (flag_effect insn flag); try done; intros Hk%IH; lia.
Qed.

(** The walk is right about every run that enters it from above. *)
Lemma scan_flag_holds depth chunk_start flag scan flipped scanned s0 s :
  let r := scan_flag_loop depth chunk_start flag scan flipped scanned in
  fs_known r = true ->
  (forall x insn, fs_definition_ea r <= x < scan -> decode_insn x = Some insn -> ~ special_move insn) ->
  rtc recorded_step s0 s -> pc s = scan -> ~ (fs_definition_ea r < pc s0 <= scan) ->
  xorb (tracked flag (flags s)) flipped = flag_is_set (fs_value r).
Proof.
  cbn zeta. revert scan flipped scanned s.
  induction depth as [|depth IH]; intros scan flipped scanned s; [done|].
  intros Hk. pose proof (scan_flag_before _ _ _ _ _ _ Hk) as Hdef. revert Hk Hdef. cbn [scan_flag_loop].
  set (prev := prev_head scan chunk_start).
  destruct (Z.eqb_spec prev BADADDR) as [|Hb]; cbn [orb]; [done|].
  assert (prev < scan) as Hprev by (destruct (prev_head_law scan chunk_start); [done|lia]).
  destruct ((prev <? chunk_start) || negb (is_code prev)); [done|].
  destruct (decode_insn prev) as [insn|] eqn:Ed; [|done].
  destruct (ea_add prev (insn_size insn) =? scan); cbn [negb]; [|done].
  destruct (has_alternate_predecessor scan prev) eqn:Ealt; [done|]. cbn zeta.
  intros Hk Hdef Hm Hrun Hpc Hout.
  destruct (rtc_inv_r s0 s Hrun) as [->|(s1 & Hrun1 & Hs1)]; [lia|].
  assert (pc s1 = prev) as Hpc1 by (by eapply only_predecessor; [|rewrite Hpc]).
  pose proof (flag_effect_holds prev insn flag s1 s Ed Hpc1 (proj1 Hs1)) as He.
  assert (flag_effect insn flag <> Effect_Unknown -> ~ special_move insn) as Hmi.
  { intros Hu. apply (Hm prev); [|done]. split; [|done].
    destruct (flag_effect insn flag); cbn in Hk |- *; try done; try lia;
      by apply scan_flag_before in Hk; lia. }
  destruct (flag_effect insn flag) eqn:Eff; [done|..]; specialize (He (Hmi ltac:(done))).
  - rewrite He. apply (IH prev flipped (scanned + 1)); [done|..|done|done|].
    + intros x i Hx. apply Hm. lia.
    + lia.
  - cbn in *. rewrite He. by destruct flipped.
  - cbn in *. rewrite He. by destruct flipped.
  - rewrite He.
    replace (xorb (negb (tracked flag (flags s1))) flipped) with (xorb (tracked flag (flags s1)) (negb flipped))
      by (by destruct (tracked flag (flags s1)), flipped).
    apply (IH prev (negb flipped) (scanned + 1)); [done|..|done|done|].
    + intros x i Hx. apply Hm. lia.
    + lia.
Qed.
End Flags.

(** ** What a provider reports *)

(** A reported fact is found at an instruction that the database decodes. *)
Lemma call_finding_instruction `{Ida} c epoch g :
  call_findings c epoch g ->
  (exists options ctx ea insn, decode_insn ea = Some insn /\
     finds options epoch detect_architecture ctx insn g) \/
  (exists ctx ea, finds_undecodable epoch detect_architecture ctx ea g).
Proof.
  assert (forall options owned visits, visits_find options epoch detect_architecture owned visits g ->
    (exists options ctx ea insn, decode_insn ea = Some insn /\
       finds options epoch detect_architecture ctx insn g) \/
    (exists ctx ea, finds_undecodable epoch detect_architecture ctx ea g)) as Hv.
  { intros options owned visits ([ctx ea] & _ & Hg). cbn [fst snd] in Hg. unfold visit_finds in Hg.
    destruct (decode_insn ea) as [insn|] eqn:Ed; [|right; exists ctx, ea; apply Hg].
    destruct (insn_size insn =? 0); [right; exists ctx, ea; apply Hg|left; eauto 10]. }
  destruct c as [options|ea options| | | |]; cbn [call_findings]; try done.
  - intros (_ & [(entry & f & _ & _ & _ & Hg)|[_ Hg]]); by eapply Hv.
  - intros (_ & _ & f & _ & Hg). by eapply Hv.
Qed.

Lemma reported_finding `{Ida} c p g :
  g ∈ reported (call c p (@nil ClientEvent)).2 -> call_findings c (pv_current_epoch p) g.
Proof.
  destruct (call_reports c (pv_current_epoch p)) as (gs & Hg & Hs).
  destruct (Hs _ log_client p [] eq_refl) as (es & He & Hr & _). rewrite He, replay_log. cbn [app].
  rewrite Hr. intros [Hin _]%elem_of_take_new. by apply Hg.
Qed.

Section Kinds.
Context `{Ida} (options : NativeAnalysisOptions) (epoch : Z) (arch : NativeArchitecture) (ctx : ScanContext).

(** The payload tells which test found a fact. *)
Lemma finds_kind insn g :
  finds options epoch arch ctx insn g ->
  match nx_payload g with
  | N_KnownFlagBranch _ => finds_flag_branch options epoch arch ctx insn g
  | N_OppositeBranchPair _ => finds_pair epoch arch ctx insn g
  | _ => True
  end.
Proof.
  intros Hg. destruct (nx_payload g) eqn:Ep; try done;
    unfold finds in Hg; destruct Hg as [(_ & Hg)|[[_ Hg]|[[_ Hg]|[[_ Hg]|[[_ Hg]|(_ & t & _ & Hg)]]]]]; try done; exfalso.
  all: unfold finds_item_size, finds_attached_prefix, finds_detached_prefix, finds_target_not_code,
    finds_indirect, finds_register, finds_memory, finds_target, finds_candidate, finds_zero_branch,
    finds_pair, finds_flag_branch in Hg; decompose_finding; cbn in *; congruence.
Qed.
End Kinds.

Section Soundness.
Context `{Ida, Cpu} `{!CpuLaws}.

(** C18: a known-flag branch that a provider reports goes where the fact says, if no move to
    or from a control, debug or test register lies between the definition and the branch.
    In every execution of steps that the database has code references for (ordinary flow
    included), that comes to the branch and does not start between the definition and the
    branch, the flag has the reported value there, and the step of the branch leads to the
    target or to the fall-through as reported. *)
Theorem native_flags_sound c p g k :
  g ∈ reported (call c p []).2 -> nx_payload g = N_KnownFlagBranch k ->
  (forall x insn, nk_defining_instruction_ea k <= x < nk_instruction_ea k ->
     decode_insn x = Some insn -> ~ special_move insn) ->
  forall s0 s, rtc recorded_step s0 s -> pc s = nk_instruction_ea k ->
    ~ (nk_defining_instruction_ea k < pc s0 <= nk_instruction_ea k) ->
    tracked (nk_flag k) (flags s) = flag_is_set (nk_value k) /\
    forall s', step s s' ->
      pc s' = match nk_outcome k with AlwaysTaken => nk_target_ea k | NeverTaken => nk_fallthrough_ea k end.
Proof.
  intros [(options & ctx & ea & insn & Hd & Hf)|(ctx & ea & Hu)]%reported_finding%call_finding_instruction Hp.
  2: { unfold finds_undecodable in Hu. subst g. done. }
  apply finds_kind in Hf. rewrite Hp in Hf. destruct Hf as (Harch & _ & Hc & _ & flag & outcome & Hk & Ho & ->).
  cbn in Hp. simplify_eq. cbn [nk_defining_instruction_ea nk_instruction_ea nk_flag nk_value nk_outcome
    nk_target_ea nk_fallthrough_ea]. intros Hm s0 s Hrun Hpc Hout.
  assert (tracked flag (flags s) = flag_is_set (fs_value
    (scan_known_flag (insn_ea insn) (sx_chunk_start ctx) (op_flag_scan_depth options) flag))) as Hflag.
  { rewrite <- (xorb_false_r (tracked flag (flags s))).
    eapply (scan_flag_holds Harch _ _ _ _ _ _ s0 s Hk); done. }
  split; [done|]. intros s' Hs. rewrite (decode_law _ _ Hd) in Hpc. subst ea.
  pose proof (step_law _ _ _ Hs Hd) as He. unfold semantics, x86_semantics in He. rewrite Harch in He.
  unfold x86_condition in Hc, Ho. destruct (x86_itype (insn_itype insn)) as [i|]; [|done].
  destruct He as [_ He]. rewrite He by (intros E; by rewrite E in Hc).
  rewrite (flag_outcome_holds _ _ _ _ _ Ho Hflag). by destruct outcome.
Qed.

(** Two branches that exclude each other. *)
Lemma opposite_branches (taken : bool) first second s2 s3 :
  branches_if taken first s2 -> branches_if (negb taken) second s3 ->
  branch_target second = branch_target first ->
  pc s2 = branch_target first \/ pc s2 = next_ea first /\ pc s3 = branch_target first.
Proof. unfold branches_if. destruct taken; cbn; intros -> ->; auto. Qed.

Lemma conditional_keeps_flags i insn s s' :
  condition_of i <> NC_Invalid -> x86_flags i insn s s' -> flags s' = flags s.
Proof. by destruct i. Qed.

Lemma x86_pair_holds first second s1 s2 s3 :
  opposite_x86_conditions (x86_condition (insn_itype first)) (x86_condition (insn_itype second)) = true ->
  x86_semantics first s1 s2 -> x86_semantics second s2 s3 ->
  exists taken, branches_if taken first s2 /\ branches_if (negb taken) second s3.
Proof.
  unfold x86_condition, x86_semantics. intros Ho.
  destruct (x86_itype (insn_itype first)) as [i|]; [|done].
  destruct (x86_itype (insn_itype second)) as [j|]; [|by destruct (condition_of i)].
  assert (condition_of i <> NC_Invalid) as Hi by (intros E; by rewrite E in Ho).
  assert (condition_of j <> NC_Invalid) as Hj by (intros E; by rewrite E in Ho; destruct (condition_of i)).
  intros [Hf Hfirst] [_ Hsecond]. apply conditional_keeps_flags in Hf; [|done].
  exists (condition_holds (condition_of i) (flags s1)). split; [by apply Hfirst|].
  rewrite <- (opposite_holds _ _ _ Ho), <- Hf. by apply Hsecond.
Qed.

(** Two tests of one value that branch in opposite cases. *)
Lemma arm_test_holds (i j : ArmItype) (test : cpu_state -> insn_t -> bool) first second s1 s2 s3 :
  (has_itype first i && has_itype second j) || (has_itype first j && has_itype second i) = true ->
  (forall insn s s', arm_semantics insn s s' -> has_itype insn i = true -> arm_branches (test s insn) insn s s') ->
  (forall insn s s', arm_semantics insn s s' -> has_itype insn j = true ->
     arm_branches (negb (test s insn)) insn s s') ->
  (register s2 = register s1 -> test s2 second = test s1 first) ->
  arm_semantics first s1 s2 -> arm_semantics second s2 s3 ->
  exists taken, branches_if taken first s2 /\ branches_if (negb taken) second s3.
Proof.
  intros [[Ea Eb]%andb_prop|[Ea Eb]%andb_prop]%orb_prop Hi Hj Ht Hs1 Hs2.
  - destruct (Hi _ _ _ Hs1 Ea) as (Hb1 & _ & Hr). destruct (Hj _ _ _ Hs2 Eb) as (Hb2 & _).
    exists (test s1 first). split; [done|]. by rewrite <- Ht.
  - destruct (Hj _ _ _ Hs1 Ea) as (Hb1 & _ & Hr). destruct (Hi _ _ _ Hs2 Eb) as (Hb2 & _).
    exists (negb (test s1 first)). split; [done|]. by rewrite negb_involutive, <- Ht.
Qed.

Lemma same_first_register_eq a b :
  same_first_register a b = true ->
  op_type (Op1 a) = o_reg /\ op_type (Op1 b) = o_reg /\ op_reg (Op1 a) = op_reg (Op1 b).
Proof. by intros [[?%bool_decide_eq_true ?%bool_decide_eq_true]%andb_prop ?%Z.eqb_eq]%andb_prop. Qed.

Lemma arm_condition_pair first second s1 s2 s3 :
  has_itype first ARM_b = true -> has_itype second ARM_b = true -> arm_condition first < 14 ->
  Z.lxor (arm_condition first) 1 = arm_condition second ->
  arm_semantics first s1 s2 -> arm_semantics second s2 s3 ->
  exists taken, branches_if taken first s2 /\ branches_if (negb taken) second s3.
Proof.
  intros Ea Eb Hc Hx Hs1 Hs2. destruct (proj1 Hs1 Ea) as (Hb1 & Hf & _). destruct (proj1 Hs2 Eb) as (Hb2 & _).
  exists (arm_holds (arm_condition first) (flags s1)). split; [done|].
  rewrite <- arm_opposite_holds, Hx, <- Hf; [done|]. split; [|done].
  unfold arm_condition. apply Z.land_nonneg. by right.
Qed.

Lemma arm_pair_holds first second family c1 c2 s1 s2 s3 :
  arm_branch_family first second = Some (family, c1, c2) ->
  (family = Family_ArmCompareZero -> op_dtype (Op1 first) = op_dtype (Op1 second)) ->
  arm_semantics first s1 s2 -> arm_semantics second s2 s3 ->
  exists taken, branches_if taken first s2 /\ branches_if (negb taken) second s3.
Proof.
  unfold arm_branch_family. cbn zeta. intros Hfam Hw Hs1 Hs2.
  destruct (has_itype first ARM_b && has_itype second ARM_b) eqn:E.
  { apply andb_prop in E as [Ea Eb].
    destruct (Z.leb_spec 14 (arm_condition first)); [done|].
    destruct (Z.eqb_spec (Z.lxor (arm_condition first) 1) (arm_condition second));
      [by eapply arm_condition_pair|by rewrite orb_true_r in Hfam]. }
  clear E. destruct (_ && same_first_register first second) eqn:E in Hfam.
  { simplify_eq. apply andb_prop in E as [E (Hta & Htb & Hreg)%same_first_register_eq].
    apply (arm_test_holds ARM_cbz ARM_cbnz (fun s insn => read s (Op1 insn) =? 0) _ _ s1 s2 s3 E); [| | |done..].
    - intros insn s s' (_ & Hz & _). exact Hz.
    - intros insn s s' (_ & _ & Hz & _). exact Hz.
    - intros Hr. unfold read. by rewrite Hta, Htb, Hr, Hreg, Hw. }
  clear E. destruct (_ && _) eqn:E in Hfam; [|done]. simplify_eq.
  apply andb_prop in E as [[[[E (Hta & Htb & Hreg)%same_first_register_eq]%andb_prop _]%andb_prop _]%andb_prop
    Hv%Z.eqb_eq].
  rewrite orb_comm in E.
  apply (arm_test_holds ARM_tbnz ARM_tbz tested_bit _ _ s1 s2 s3 E); [| | |done..].
  - intros insn s s' (_ & _ & _ & _ & Hz). exact Hz.
  - intros insn s s' (_ & _ & _ & Hz & _). exact Hz.
  - intros Hr. unfold tested_bit. by rewrite Hr, Hreg, Hv.
Qed.

(** The first branch of a pair goes to its target or to the next instruction. *)
Lemma pair_first first second family c1 c2 s1 s2 :
  pair_family detect_architecture first second = Some (family, c1, c2) ->
  semantics first s1 s2 -> exists taken, branches_if taken first s2.
Proof.
  unfold pair_family, semantics. destruct detect_architecture; intros Hfam Hs; [done| |..].
  { unfold x86_condition, x86_semantics in *. destruct (x86_itype (insn_itype first)) as [i|]; [|done].
    eexists. apply Hs. intros E. by rewrite E in Hfam. }
  all: unfold arm_branch_family in Hfam; cbn zeta in Hfam;
    destruct Hs as (Hb & Hz & Hn & Ht & Hu);
    destruct (has_itype first ARM_b); [eexists; by apply Hb|];
    destruct (has_itype first ARM_cbz); [eexists; by apply Hz|];
    destruct (has_itype first ARM_cbnz); [eexists; by apply Hn|];
    destruct (has_itype first ARM_tbz); [eexists; by apply Ht|];
    destruct (has_itype first ARM_tbnz); [eexists; by apply Hu|done].
Qed.

Lemma pair_holds first second family c1 c2 s1 s2 s3 :
  pair_family detect_architecture first second = Some (family, c1, c2) ->
  (family = Family_ArmCompareZero -> op_dtype (Op1 first) = op_dtype (Op1 second)) ->
  semantics first s1 s2 -> semantics second s2 s3 ->
  exists taken, branches_if taken first s2 /\ branches_if (negb taken) second s3.
Proof.
  unfold pair_family, semantics. destruct detect_architecture; intros Hfam Hw; [done| |..].
  2-3: by eapply arm_pair_holds.
  destruct (opposite_x86_conditions _ _) eqn:E in Hfam; [|done]. by eapply x86_pair_holds.
Qed.

(** A reported pair of opposite branches reaches its target.  From the first branch an
    execution is at the target after one step, or it is at the second branch and after two;
    and whenever an execution that does not start at the second branch is there, its next
    step leads to the target, so that it does not fall through.  A compare-with-zero pair
    has to compare at one width. *)
Theorem native_pairs_sound c p g pr :
  g ∈ reported (call c p []).2 -> nx_payload g = N_OppositeBranchPair pr ->
  (no_family pr = Family_ArmCompareZero -> forall first second,
     decode_insn (no_first_ea pr) = Some first -> decode_insn (no_second_ea pr) = Some second ->
     op_dtype (Op1 first) = op_dtype (Op1 second)) ->
  (forall s1 s2, step s1 s2 -> pc s1 = no_first_ea pr ->
     pc s2 = no_guaranteed_target_ea pr \/
     pc s2 = no_second_ea pr /\ forall s3, step s2 s3 -> pc s3 = no_guaranteed_target_ea pr) /\
  (forall s0 s s', rtc recorded_step s0 s -> pc s0 <> no_second_ea pr -> pc s = no_second_ea pr -> step s s' ->
     pc s' = no_guaranteed_target_ea pr).
Proof.
  intros [(options & ctx & ea & first & Hd & Hf)|(ctx & ea & Hu)]%reported_finding%call_finding_instruction Hp.
  2: { unfold finds_undecodable in Hu. subst g. done. }
  apply finds_kind in Hf. rewrite Hp in Hf. destruct Hf as (_ & _ & _ & _ & second & Hd2 & Htarget & Hne1 & Hne2
    & _ & Halt & family & c1 & c2 & Hfam & ->). cbn in Hp. simplify_eq.
  pose proof (decode_law _ _ Hd) as <-. pose proof (decode_law _ _ Hd2) as Hea2.
  cbn [no_family no_first_ea no_second_ea no_guaranteed_target_ea]. intros Hw.
  assert (family = Family_ArmCompareZero -> op_dtype (Op1 first) = op_dtype (Op1 second)) as Hw'.
  { intros Hfz. apply Hw; [done..|]. by rewrite Hea2. }
  assert (forall s1 s2, step s1 s2 -> pc s1 = insn_ea first -> pc s2 = branch_target first \/
    pc s2 = insn_ea second /\ forall s3, step s2 s3 -> pc s3 = branch_target first) as Hfirst.
  { intros s1 s2 Hs Hpc. rewrite <- Hpc in Hd. pose proof (step_law _ _ _ Hs Hd) as He.
    destruct (pair_first _ _ _ _ _ _ _ Hfam He) as [[] Hb]; unfold branches_if in Hb; [by left|right].
    unfold next_ea in Hb. rewrite <- Hea2 in Hb. split; [done|]. intros s3 Hs3.
    rewrite <- Hea2, <- Hb in Hd2. pose proof (step_law _ _ _ Hs3 Hd2) as He2.
    destruct (pair_holds _ _ _ _ _ _ _ _ Hfam Hw' He He2) as (taken & Hb1 & Hb2).
    destruct (opposite_branches _ _ _ _ _ Hb1 Hb2 Htarget) as [Hp2|[_ Hp3]]; [congruence|done]. }
  split; [done|]. intros s0 s s' Hrun Hstart Hpc Hs.
  destruct (rtc_inv_r s0 s Hrun) as [->|(s1 & _ & Hs1)]; [done|]. rewrite <- Hpc in Halt.
  pose proof (only_predecessor _ _ _ Hs1 Halt) as Hpc1.
  destruct (Hfirst _ _ (proj1 Hs1) Hpc1) as [Hp|[_ Hp]]; [congruence|by apply Hp].
Qed.
End Soundness.

(** ** A processor for a listing *)

Record cpu_t : Type := { cpu_pc : Z; cpu_flags : flags_t; cpu_register : Z -> Z }.

Section Machine.
Context (processor : Z) (ends : Z -> bool) (listing : list insn_t).

(** The references that the instructions of the listing make. *)
Definition listing_refs (ea : Z) : list xref_t :=
  map (fun i => {| xr_from := insn_ea i; xr_iscode := true |})
    (List.filter (fun i => (ea_add (insn_ea i) (insn_size i) =? ea) || (branch_target i =? ea)) listing).

#[local] Instance machine_ida : Ida := listing_ida processor true ends listing_refs listing.

(** Undefined flags come out inverted. *)
Definition is_special (insn : insn_t) : bool :=
  existsb (fun op => match op_type op with o_idpspec _ => true | _ => false end) (insn_ops insn).

Definition set_flags (carry zero : bool) (f : flags_t) : flags_t := {|
  fl_sign := fl_sign f; fl_zero := zero; fl_carry := carry; fl_overflow := fl_overflow f;
  fl_parity := fl_parity f |}.

#[local] Instance machine_cpu_reads : Cpu := {
  cpu_state := cpu_t; pc := cpu_pc; flags := cpu_flags; register := cpu_register;
  memory_operand _ _ := 0; step _ _ := False }.

Definition machine_flags (i : X86Itype) (insn : insn_t) (s : cpu_t) : flags_t :=
  let a := read (s : @cpu_state machine_cpu_reads) (Op1 insn) in
  let b := read (s : @cpu_state machine_cpu_reads) (Op2 insn) in
  let f := cpu_flags s in
  match i with
  | NN_stc => set_flags true (fl_zero f) f
  | NN_clc => set_flags false (fl_zero f) f
  | NN_cmc => set_flags (negb (fl_carry f)) (fl_zero f) f
  | NN_and | NN_test => set_flags false (Z.land a b =? 0) f
  | NN_or => set_flags false (Z.lor a b =? 0) f
  | NN_xor => set_flags false (Z.lxor a b =? 0) f
  | NN_sub | NN_cmp => set_flags (a <? b) (a =? b) f
  | NN_inc | NN_dec => set_flags (fl_carry f) false f
  | NN_mov => if is_special insn then set_flags (negb (fl_carry f)) (negb (fl_zero f)) f else f
  | _ => f
  end.

Definition machine_taken (insn : insn_t) (s : cpu_t) : bool :=
  let a := read (s : @cpu_state machine_cpu_reads) (Op1 insn) in
  let bit := Z.testbit (cpu_register s (op_reg (Op1 insn))) (op_value (Op2 insn)) in
  match detect_architecture with
  | Native_X86 => condition_holds (x86_condition (insn_itype insn)) (cpu_flags s)
  | _ =>
      if has_itype insn ARM_b then arm_holds (arm_condition insn) (cpu_flags s)
      else if has_itype insn ARM_cbz then a =? 0
      else if has_itype insn ARM_cbnz then negb (a =? 0)
      else if has_itype insn ARM_tbz then negb bit
      else has_itype insn ARM_tbnz && bit
  end.

Definition machine_exec (insn : insn_t) (s : cpu_t) : cpu_t := {|
  cpu_pc := if machine_taken insn s then branch_target insn else next_ea insn;
  cpu_flags :=
    match detect_architecture, x86_itype (insn_itype insn) with
    | Native_X86, Some i => machine_flags i insn s
    | _, _ => cpu_flags s
    end;
  cpu_register := cpu_register s |}.

#[local] Instance machine_cpu : Cpu := {
  cpu_state := cpu_t; pc := cpu_pc; flags := cpu_flags; register := cpu_register;
  memory_operand _ _ := 0;
  step s s' := exists insn, decode_insn (cpu_pc s) = Some insn /\ s' = machine_exec insn s }.

Definition same_widths (insn : insn_t) : bool :=
  match x86_itype (insn_itype insn) with
  | Some (NN_xor | NN_sub | NN_cmp) =>
      negb (same_register_operands insn) || (op_dtype (Op1 insn) =? op_dtype (Op2 insn))
  | _ => true
  end.

Lemma machine_arm i j : (@arm machine_ida i =? @arm machine_ida j) = bool_decide (i = j).
Proof. by destruct i, j. Qed.

Lemma machine_semantics insn s : semantics insn s (machine_exec insn s).
Proof.
  unfold semantics, machine_exec, machine_taken. destruct detect_architecture eqn:E; [done| |..].
  { unfold x86_semantics, x86_condition, branches_if. destruct (x86_itype (insn_itype insn)) as [i|] eqn:Ei; [|done].
    split; [|done]. destruct i; cbn; try done.
    intros Hm. destruct (is_special insn) eqn:Es; [|done]. destruct Hm. split; [done|].
    unfold is_special in Es. apply existsb_exists in Es as (op & Hop%list_elem_of_In & Hop2).
    destruct (op_type op) eqn:Et; try done. eauto. }
  all: unfold arm_semantics, arm_branches, branches_if, has_itype; split_and!; intros Ei%Z.eqb_eq;
    rewrite Ei, !machine_arm; done.
Qed.

Lemma machine_laws : forallb same_widths listing = true -> CpuLaws.
Proof.
  intros Hw. split.
  - intros ea insn [_ ?%Z.eqb_eq]%List.find_some. done.
  - intros ea min. cbn. unfold prev_start. destruct (List.find _ _) as [x|] eqn:E; [|by left].
    apply List.find_some in E as [_ ?%Z.ltb_lt]. destruct (min <=? x); [by right|by left].
  - intros ea insn [Hin _]%List.find_some _ Hi Hr.
    rewrite forallb_forall in Hw. specialize (Hw insn Hin). unfold same_widths in Hw. rewrite Hr in Hw.
    apply Z.eqb_eq. by destruct Hi as [E|[E|E]]; rewrite E in Hw.
  - intros s s' insn (insn' & Hd & ->) Hd'. cbn in *. simplify_eq. apply machine_semantics.
Qed.
End Machine.

(** ** Examples *)

(** [xor eax, eax], [mov ebx, eax], [jz], [jc], [jnc], [nop] and the target. *)
Definition x86_listing : list insn_t :=
  let eax := an_operand o_reg 4 0 0 0 in
  [an_insn 16 2 (x86_number NN_xor) [eax; eax];
   an_insn 18 2 (x86_number NN_mov) [an_operand o_reg 4 3 0 0; eax];
   an_insn 20 2 (x86_number NN_jz) [near_to 27]; an_insn 22 2 (x86_number NN_jc) [near_to 27];
   an_insn 24 2 (x86_number NN_jnc) [near_to 27]; an_insn 26 1 (x86_number NN_nop) [];
   an_insn 27 1 (x86_number NN_nop) []].

(** The same with a move to a control register. *)
Definition special_listing : list insn_t :=
  let eax := an_operand o_reg 4 0 0 0 in
  [an_insn 16 2 (x86_number NN_xor) [eax; eax];
   an_insn 18 2 (x86_number NN_mov) [an_operand (o_idpspec 2) 4 3 0 0; eax];
   an_insn 20 2 (x86_number NN_jz) [near_to 24]; an_insn 22 2 (x86_number NN_nop) [];
   an_insn 24 1 (x86_number NN_nop) []].

(** [cbz] and [cbnz] on one register. *)
Definition arm_listing (first_width second_width : Z) : list insn_t :=
  [an_insn 16 4 (arm_number ARM_cbz) [an_operand o_reg first_width 1 0 0; near_to 28];
   an_insn 20 4 (arm_number ARM_cbnz) [an_operand o_reg second_width 1 0 0; near_to 28];
   an_insn 24 4 0 []; an_insn 28 4 0 []].

Definition no_flags : flags_t :=
  {| fl_sign := false; fl_zero := false; fl_carry := false; fl_overflow := false; fl_parity := false |}.

Definition start_at (ea value : Z) : cpu_t :=
  {| cpu_pc := ea; cpu_flags := no_flags; cpu_register := fun _ => value |}.

#[local] Notation idb processor listing := (machine_ida processor (fun _ => true) listing).
#[local] Notation cpu processor listing := (machine_cpu processor (fun _ => true) listing).
#[local] Notation reports_of processor listing :=
  (reported (@call (idb processor listing) _ log_client (Call_AnalyzeFunction 16 default_options)
     new_provider (@nil ClientEvent)).2).
#[local] Notation steps_of processor listing := (@recorded_step (idb processor listing) (cpu processor listing)).

(** Execution of the listing, an instruction at a time, along its references. *)
Definition run_one (processor : Z) (listing : list insn_t) (s : cpu_t) : option cpu_t :=
  match listed listing (cpu_pc s) with
  | Some insn =>
      let s' := machine_exec processor (fun _ => true) listing insn s in
      if existsb (Z.eqb (cpu_pc s))
           (code_refs (listing_refs listing (cpu_pc s')))
      then Some s' else None
  | None => None
  end.

Fixpoint run_listing (processor : Z) (listing : list insn_t) (n : nat) (s : cpu_t) : option cpu_t :=
  match n with
  | O => Some s
  | Datatypes.S n =>
      match run_one processor listing s with
      | Some s' => run_listing processor listing n s'
      | None => None
      end
  end.

Lemma run_one_step processor listing s s' :
  run_one processor listing s = Some s' -> steps_of processor listing s s'.
Proof.
  unfold run_one. destruct (listed listing (cpu_pc s)) as [insn|] eqn:E; [|done]. cbn zeta.
  destruct (existsb _ _) eqn:Ee; [|done]. intros [= <-]. split; [by exists insn|].
  apply existsb_exists in Ee as (x & Hx%list_elem_of_In & Heq%Z.eqb_eq). cbn. rewrite Heq. exact Hx.
Qed.

Lemma run_listing_rtc processor listing n s s' :
  run_listing processor listing n s = Some s' -> rtc (steps_of processor listing) s s'.
Proof.
  revert s. induction n as [|n IH]; intros s; cbn [run_listing]; [intros [= ->]; constructor|].
  destruct (run_one processor listing s) as [s1|] eqn:E; [|done].
  intros Hr%IH. eapply rtc_l; [by apply run_one_step|done].
Qed.

Definition jz_fact : NativeKnownFlagBranchFact := {|
  nk_instruction_ea := 20; nk_target_ea := 27; nk_fallthrough_ea := 22;
  nk_defining_instruction_ea := 16; nk_flag := Flag_Zero; nk_value := Flag_Set;
  nk_outcome := AlwaysTaken; nk_instructions_scanned := 2 |}.

Definition jc_jnc_fact : NativeOppositeBranchPairFact := {|
  no_first_ea := 22; no_second_ea := 24; no_guaranteed_target_ea := 27;
  no_unreachable_fallthrough_ea := 26; no_family := Family_X86Jcc; no_first_condition := 2;
  no_second_condition := 3 |}.

Definition cbz_cbnz_fact : NativeOppositeBranchPairFact := {|
  no_first_ea := 16; no_second_ea := 20; no_guaranteed_target_ea := 28;
  no_unreachable_fallthrough_ea := 24; no_family := Family_ArmCompareZero; no_first_condition := 2;
  no_second_condition := 3 |}.

#[local] Ltac is_reported i := eexists; split; [apply (list_elem_of_lookup_2 _ i); vm_compute; reflexivity|reflexivity].

Lemma native_flags_sound_witness :
  exists g, g ∈ reports_of 0 x86_listing /\ nx_payload g = N_KnownFlagBranch jz_fact /\
    forall s s', run_listing 0 x86_listing 2 (start_at 16 5) = Some s ->
      run_one 0 x86_listing s = Some s' -> cpu_pc s' = 27.
Proof.
  assert (@CpuLaws (idb 0 x86_listing) (cpu 0 x86_listing)) as Hlaws by (by apply machine_laws).
  assert (exists g, g ∈ reports_of 0 x86_listing /\ nx_payload g = N_KnownFlagBranch jz_fact)
    as (g & Hin & Hg) by is_reported 0%nat.
  exists g. split; [exact Hin|split; [exact Hg|]]. intros s s' Hs Hs'.
  refine (proj2 (native_flags_sound (H := idb 0 x86_listing) (H0 := cpu 0 x86_listing)
    (Call_AnalyzeFunction 16 default_options) new_provider _ _ Hin Hg _ (start_at 16 5) s _ _ _) s' _).
  - intros x insn _ [Hl _]%List.find_some (_ & op & n & Hop & Ht). cbn in Hl.
    repeat (destruct Hl as [<-|Hl]; [cbn in Hop;
      repeat (apply elem_of_cons in Hop as [->|Hop]; [discriminate|]); by apply elem_of_nil in Hop|]).
    destruct Hl.
  - by eapply run_listing_rtc.
  - revert Hs. vm_compute. by intros [= <-].
  - cbn. lia.
  - by apply (run_one_step 0 x86_listing).
Defined.

Lemma native_pairs_sound_witness :
  exists g, g ∈ reports_of 0 x86_listing /\ nx_payload g = N_OppositeBranchPair jc_jnc_fact /\
    forall s s', run_listing 0 x86_listing 1 (start_at 22 5) = Some s ->
      run_one 0 x86_listing s = Some s' -> cpu_pc s' = 27.
Proof.
  assert (@CpuLaws (idb 0 x86_listing) (cpu 0 x86_listing)) as Hlaws by (by apply machine_laws).
  assert (exists g, g ∈ reports_of 0 x86_listing /\ nx_payload g = N_OppositeBranchPair jc_jnc_fact)
    as (g & Hin & Hg) by is_reported 1%nat.
  exists g. split; [exact Hin|split; [exact Hg|]]. intros s s' Hs Hs'.
  refine (proj2 (native_pairs_sound (H := idb 0 x86_listing) (H0 := cpu 0 x86_listing)
    (Call_AnalyzeFunction 16 default_options) new_provider _ _ Hin Hg _) (start_at 22 5) s s' _ _ _ _).
  - done.
  - by eapply run_listing_rtc.
  - done.
  - revert Hs. vm_compute. by intros [= <-].
  - by apply (run_one_step 0 x86_listing).
Defined.

(** The widths matter: [cbz x1] and [cbnz w1] are reported as a pair, and yet an execution
    falls through both when only the high half of the register is not zero. *)
Lemma compare_zero_widths_matter :
  @CpuLaws (idb 1 (arm_listing 8 4)) (cpu 1 (arm_listing 8 4)) /\
  (exists g, g ∈ reports_of 1 (arm_listing 8 4) /\ nx_payload g = N_OppositeBranchPair cbz_cbnz_fact) /\
  exists s, run_listing 1 (arm_listing 8 4) 2 (start_at 16 (2 ^ 32)) = Some s /\
    cpu_pc s = no_unreachable_fallthrough_ea cbz_cbnz_fact.
Proof.
  split; [by apply machine_laws|]. split; [is_reported 0%nat|].
  eexists. split; [vm_compute; reflexivity|reflexivity].
Qed.

Definition special_fact : NativeKnownFlagBranchFact := {|
  nk_instruction_ea := 20; nk_target_ea := 24; nk_fallthrough_ea := 22;
  nk_defining_instruction_ea := 16; nk_flag := Flag_Zero; nk_value := Flag_Set;
  nk_outcome := AlwaysTaken; nk_instructions_scanned := 2 |}.

(** Moves to system registers matter: the manuals leave the flags undefined after them, and
    on a processor that inverts them a branch reported as always taken falls through. *)
Lemma special_moves_matter :
  @CpuLaws (idb 0 special_listing) (cpu 0 special_listing) /\
  (exists g, g ∈ reports_of 0 special_listing /\ nx_payload g = N_KnownFlagBranch special_fact) /\
  exists s, run_listing 0 special_listing 3 (start_at 16 5) = Some s /\
    cpu_pc s = nk_fallthrough_ea special_fact.
Proof.
  split; [by apply machine_laws|]. split; [is_reported 0%nat|].
  eexists. split; [vm_compute; reflexivity|reflexivity].
Qed.
