(* ===== verification/NativeAdapter.v ===== *)
(** * From native facts to evidence (native_analysis.cpp)

    [NativeAnalysisFactAdapter] is a sink of the native analysis: it turns each native fact
    into facts of the evidence model and passes them on.  [NativeEvidenceStoreSink] adds
    them to a store and counts what became of them. *)
From stdpp Require Import base numbers list strings option sets.
From Stdlib Require Import ZArith Init.Byte Lia.
From S2P Require Import Prelude OrderedMap Ledger FactTypes Sha256 Validate FactCodec Store Conflicts.
From S2P Require Import EvidenceBridge NativeTypes.

#[local] Open Scope viy_scope.

(** ** Evidence *)

Definition neutral_confidence (strength : NativeEvidenceStrength) : Z :=
  match strength with
  | Strength_Exact => kMaxConfidence
  | Strength_Strong => 9500
  | Strength_Candidate => 7500
  end.

Definition neutral_proof (p : NativeFactProvenance) : ProofKind :=
  match np_source p, np_strength p with
  | Source_DirectControlFlow, Strength_Candidate => ProofKind_Heuristic
  | Source_IdaItemDiscrepancy, _ => ProofKind_Heuristic
  | _, _ => ProofKind_StaticProof
  end.

Definition native_method (payload : NativeFactPayload) : string :=
  match payload with
  | N_IndirectTarget _ => "ida.regfinder.indirect_target"
  | N_ZeroRegisterBranch _ => "architecture.arm64.zero_register_branch"
  | N_OppositeBranchPair _ => "cfg.opposite_condition_pair"
  | N_KnownFlagBranch _ => "x86.local_known_flag_branch"
  | N_FunctionCandidate _ => "cfg.orphan_call_target"
  | N_DecodeDiscrepancy _ => "ida.decoder.discrepancy"
  end.

Definition producer_name : string := "viy.native.ida".
Definition schema_version : Z := 1.

(** What [std::hex] and a [bool] in words print. *)
Definition hex_text (value : Z) : string := bytes_str (hex_digits 16 value []).
Definition truth (b : bool) : string := if b then "true" else "false".

Definition provenance_detail (p : NativeFactProvenance) : string :=
  "native schema " +:+ to_string schema_version +:+
  (if negb (np_chunk_start p =? kNativeBadAddress)
   then "; chunk=[0x" +:+ hex_text (np_chunk_start p) +:+ ",0x" +:+ hex_text (np_chunk_end p) +:+ ")"
   else EmptyString) +:+
  "; deterministic=" +:+ truth (np_deterministic p).

Definition neutral_evidence (fact : NativeFact) : Evidence :=
  let p := nx_provenance fact in {|
  ev_producer := producer_name;
  ev_method := native_method (nx_payload fact);
  ev_proof := neutral_proof p;
  ev_confidence := neutral_confidence (np_strength p);
  ev_scope := {|
    sc_run_id := None; sc_seed := None;
    sc_function_start :=
      if negb (np_function_ea p =? kNativeBadAddress) then Some (np_function_ea p) else None;
    sc_function_end := None;
    sc_generation := np_epoch p |};
  ev_support_addresses := [];
  ev_detail := provenance_detail p |}.

Definition evidence_with (support : list Address) (detail : string) (e : Evidence) : Evidence := {|
  ev_producer := ev_producer e; ev_method := ev_method e; ev_proof := ev_proof e;
  ev_confidence := ev_confidence e; ev_scope := ev_scope e; ev_support_addresses := support;
  ev_detail := detail |}.

Definition add_support (ea : Z) (e : Evidence) : Evidence :=
  if negb (ea =? kNativeBadAddress)
  then evidence_with (ev_support_addresses e ++ [ea]) (ev_detail e) e else e.

Definition append_detail (detail : string) (e : Evidence) : Evidence :=
  if str_len detail =? 0 then e
  else
    evidence_with (ev_support_addresses e)
      ((if negb (str_len (ev_detail e) =? 0) then ev_detail e +:+ "; " else ev_detail e) +:+ detail) e.

Definition little_endian_bytes (value width : Z) : bytes :=
  let width := if (width =? 0) || (8 <? width) then 8 else width in
  map (fun i => z2b (Z.shiftr value (8 * i))) (seqZ 0 width).

(** ** Facts *)

Definition emit_neutral (payload : FactPayload) (evidence : Evidence) : AnalysisFact := {|
  af_payload := payload;
  af_evidence :=
    evidence_with (std_unique Z.eqb (std_sort Z.ltb (ev_support_addresses evidence)))
      (ev_detail evidence) evidence |}.

Definition always_taken (outcome : NativeBranchOutcome) : bool := bool_decide (outcome = AlwaysTaken).

Definition emit_branch_proof (branch target fallthrough : Z) (outcome : NativeBranchOutcome)
    (evidence : Evidence) : list AnalysisFact :=
  [emit_neutral (P_BranchReachability {|
     br_branch := branch; br_successor := target;
     br_state := if always_taken outcome then Reachability_Reached else Reachability_ProvenUnreachable |})
     evidence;
   emit_neutral (P_BranchReachability {|
     br_branch := branch; br_successor := fallthrough;
     br_state := if always_taken outcome then Reachability_ProvenUnreachable else Reachability_Reached |})
     evidence;
   emit_neutral (P_CodeTarget {|
     ct_from := branch; ct_target := if always_taken outcome then target else fallthrough;
     ct_kind := if always_taken outcome then CodeTargetKind_Jump else CodeTargetKind_Fallthrough;
     ct_unique := true |}) evidence].

(** The value of a register before an instruction. *)
Definition register_before (instruction : Z) (name : string) (value : bytes) : FactPayload :=
  P_RegisterValue {|
    rv_instruction := instruction; rv_point := RegisterStatePoint_BeforeInstruction;
    rv_register_id := name; rv_bytes := value |}.

Definition call_of (source target : Z) : FactPayload :=
  P_CallObservation {|
    co_source := source; co_target := Some target; co_kind := CallKind_Call;
    co_result := CallResult_Unknown; co_arguments := []; co_returns := [] |}.

Definition indirect_facts (f : NativeIndirectTargetFact) (e : Evidence) : list AnalysisFact :=
  let e := add_support (ni_pointer_ea f) (add_support (ni_definition_ea f) (add_support (ni_instruction_ea f) e)) in
  let e := append_detail
    ("register=" +:+ to_string (ni_register_id f) +:+ "/" +:+ ni_register_name f +:+
     "; resolution=" +:+ to_string (resolution_value (ni_resolution f)) +:+
     "; existing_edge=" +:+ truth (ni_edge_already_present f)) e in
  let value := little_endian_bytes (ni_target_ea f) (ni_value_width f) in
  let call := bool_decide (ni_kind f = Flow_Call) in
  [emit_neutral (P_CodeTarget {|
     ct_from := ni_instruction_ea f; ct_target := ni_target_ea f;
     ct_kind := if call then CodeTargetKind_Call else CodeTargetKind_Jump; ct_unique := true |}) e] ++
  (if bool_decide (ni_resolution f = Resolution_RegisterValue) && negb (str_len (ni_register_name f) =? 0)
   then [emit_neutral (register_before (ni_instruction_ea f) (ni_register_name f) value) e]
   else if bool_decide (ni_resolution f = Resolution_ReadOnlyMemoryValue) &&
           negb (ni_pointer_ea f =? kNativeBadAddress)
   then [emit_neutral (P_MemoryValue {|
           mv_instruction := ni_instruction_ea f; mv_address := ni_pointer_ea f;
           mv_kind := MemoryAccessKind_Read; mv_bytes := value |}) e]
   else []) ++
  (if call then [emit_neutral (call_of (ni_instruction_ea f) (ni_target_ea f)) e] else []).

Definition zero_branch_facts (f : NativeZeroRegisterBranchFact) (e : Evidence) : list AnalysisFact :=
  let e := append_detail "operand is the architectural zero register" (add_support (nz_instruction_ea f) e) in
  emit_branch_proof (nz_instruction_ea f) (nz_target_ea f) (nz_fallthrough_ea f) (nz_outcome f) e ++
  (if negb (str_len (nz_register_name f) =? 0)
   then [emit_neutral (register_before (nz_instruction_ea f) (nz_register_name f)
           (repeat x00 (Z.to_nat (if nz_value_width f =? 0 then 8 else nz_value_width f)))) e]
   else []).

Definition pair_facts (f : NativeOppositeBranchPairFact) (e : Evidence) : list AnalysisFact :=
  let e := append_detail
    ("family=" +:+ to_string (family_value (no_family f)) +:+ "; conditions=" +:+
     to_string (no_first_condition f) +:+ "/" +:+ to_string (no_second_condition f))
    (add_support (no_second_ea f) (add_support (no_first_ea f) e)) in
  [emit_neutral (P_CodeTarget {|
     ct_from := no_first_ea f; ct_target := no_guaranteed_target_ea f; ct_kind := CodeTargetKind_Jump;
     ct_unique := true |}) e;
   emit_neutral (P_BranchReachability {|
     br_branch := no_first_ea f; br_successor := no_guaranteed_target_ea f;
     br_state := Reachability_Reached |}) e;
   emit_neutral (P_BranchReachability {|
     br_branch := no_second_ea f; br_successor := no_unreachable_fallthrough_ea f;
     br_state := Reachability_ProvenUnreachable |}) e].

Definition is_set (value : NativeFlagValue) : bool := bool_decide (value = Flag_Set).
Definition is_carry (flag : NativeTrackedFlag) : bool := bool_decide (flag = Flag_Carry).

Definition flag_branch_facts (f : NativeKnownFlagBranchFact) (e : Evidence) : list AnalysisFact :=
  let e := append_detail
    ("flag=" +:+ (if is_carry (nk_flag f) then "CF" else "ZF") +:+
     "; value=" +:+ (if is_set (nk_value f) then "set" else "clear") +:+
     "; backward_instructions=" +:+ to_string (nk_instructions_scanned f))
    (add_support (nk_defining_instruction_ea f) (add_support (nk_instruction_ea f) e)) in
  emit_branch_proof (nk_instruction_ea f) (nk_target_ea f) (nk_fallthrough_ea f) (nk_outcome f) e ++
  [emit_neutral (register_before (nk_instruction_ea f)
     (if is_carry (nk_flag f) then "flags:cf" else "flags:zf")
     [if is_set (nk_value f) then x01 else x00]) e].

Definition candidate_facts (f : NativeFunctionCandidateFact) (e : Evidence) : list AnalysisFact :=
  let e := append_detail
    ("native_reason=" +:+ to_string (reason_value (nf_reason f)) +:+
     "; decoded_size=" +:+ to_string (nf_decoded_size f) +:+
     "; target_is_code=" +:+ truth (nf_target_is_code f) +:+
     "; target_is_function_interior=" +:+ truth (nf_target_is_function_interior f))
    (add_support (nf_callsite_ea f) e) in
  [emit_neutral (P_FunctionCandidate {|
     fc_entry := nf_target_ea f; fc_end := None; fc_kind := FunctionCandidateKind_CallTarget |}) e;
   emit_neutral (call_of (nf_callsite_ea f) (nf_target_ea f)) e].

Definition discrepancy_width (f : NativeDecodeDiscrepancyFact) : Z :=
  Z.max 1 (Z.max (nd_idb_item_size f) (nd_decoded_size f)).

Definition discrepancy_region (f : NativeDecodeDiscrepancyFact) : CodeRegionFact :=
  let width := discrepancy_width f in
  let end_ := if u64_max - width <? nd_address f then u64_max else nd_address f + width in
  let region end_ kind := {| cr_start := nd_address f; cr_end := end_; cr_kind := kind |} in
  match nd_kind f with
  | Discrepancy_RedundantLegacyPrefix | Discrepancy_DetachedLegacyPrefix =>
      region ((nd_address f + 1) mod 2 ^ 64) CodeRegionKind_Padding
  | Discrepancy_DirectTargetNotCode => region end_ CodeRegionKind_Code
  | Discrepancy_CodeItemSizeMismatch => region end_ CodeRegionKind_Mixed
  | Discrepancy_UndecodableCodeItem => region end_ CodeRegionKind_Unknown
  end.

Definition discrepancy_facts (f : NativeDecodeDiscrepancyFact) (e : Evidence) : list AnalysisFact :=
  let e := append_detail
    ("native_kind=" +:+ to_string (discrepancy_value (nd_kind f)) +:+
     "; item_size=" +:+ to_string (nd_idb_item_size f) +:+
     "; decoded_size=" +:+ to_string (nd_decoded_size f) +:+
     "; alternate_size=" +:+ to_string (nd_alternate_decoded_size f) +:+
     "; first_byte=0x" +:+ hex_text (nd_observed_byte f))
    (add_support (nd_related_ea f) (add_support (nd_address f) e)) in
  emit_neutral (P_CodeRegion (discrepancy_region f)) e ::
  (if bool_decide (nd_kind f = Discrepancy_DirectTargetNotCode) &&
      negb (nd_related_ea f =? kNativeBadAddress)
   then [emit_neutral (P_CodeTarget {|
           ct_from := nd_related_ea f; ct_target := nd_address f; ct_kind := CodeTargetKind_Unknown;
           ct_unique := false |}) e]
   else []).

(** [NativeAnalysisFactAdapter::emit], as the facts that it passes to its sink in turn. *)
Definition adapter_emit (native : NativeFact) : list AnalysisFact :=
  let e := neutral_evidence native in
  match nx_payload native with
  | N_IndirectTarget f => indirect_facts f e
  | N_ZeroRegisterBranch f => zero_branch_facts f e
  | N_OppositeBranchPair f => pair_facts f e
  | N_KnownFlagBranch f => flag_branch_facts f e
  | N_FunctionCandidate f => candidate_facts f e
  | N_DecodeDiscrepancy f => discrepancy_facts f e
  end.

(** ** The sink of a store *)

Record NativeEvidenceStoreReport : Type := {
  sr_inserted_records : Z;
  sr_added_observations : Z;
  sr_duplicate_observations : Z;
  sr_rejected_facts : Z
}.

Record NativeEvidenceStoreSink : Type := {
  sk_store : EvidenceStore;
  sk_report : NativeEvidenceStoreReport;
  sk_last_error : string
}.

Definition no_report : NativeEvidenceStoreReport := {|
  sr_inserted_records := 0; sr_added_observations := 0; sr_duplicate_observations := 0;
  sr_rejected_facts := 0 |}.

Definition emit_analysis_fact (fact : AnalysisFact) (sink : NativeEvidenceStoreSink) : NativeEvidenceStoreSink :=
  let '(result, store) := add fact (sk_store sink) in
  let r := sk_report sink in
  let report inserted added duplicate rejected := {|
    sr_inserted_records := sr_inserted_records r + inserted;
    sr_added_observations := sr_added_observations r + added;
    sr_duplicate_observations := sr_duplicate_observations r + duplicate;
    sr_rejected_facts := sr_rejected_facts r + rejected |} in
  let done_ report error := {| sk_store := store; sk_report := report; sk_last_error := error |} in
  match ar_disposition result with
  | AddDisposition_InsertedRecord => done_ (report 1 0 0 0) (sk_last_error sink)
  | AddDisposition_AddedObservation => done_ (report 0 1 0 0) (sk_last_error sink)
  | AddDisposition_DuplicateObservation => done_ (report 0 0 1 0) (sk_last_error sink)
  | AddDisposition_RejectedInvalid => done_ (report 0 0 0 1) (ar_error result)
  end.

Definition reset_report (sink : NativeEvidenceStoreSink) : NativeEvidenceStoreSink :=
  {| sk_store := sk_store sink; sk_report := no_report; sk_last_error := EmptyString |}.

(** The adapter in front of the sink of a store. *)
Definition adapt (native : NativeFact) (sink : NativeEvidenceStoreSink) : NativeEvidenceStoreSink :=
  foldl (fun sink fact => emit_analysis_fact fact sink) sink (adapter_emit native).

(** ** Consistency *)

Definition contradicts (p q : FactPayload) : bool :=
  existsb (fun c => cl_severity c == ConflictSeverity_Contradiction) (payload_claims p q).

Lemma contradicts_if b c :
  cl_severity c = ConflictSeverity_Contradiction ->
  existsb (fun c => cl_severity c == ConflictSeverity_Contradiction) (claim_if b c) = b.
Proof. intros Hc. destruct b; cbn; [|done]. by rewrite Hc. Qed.

(** Among the kinds of facts that the adapter emits, targets and branches can contradict. *)
Lemma contradicts_targets l r :
  contradicts (P_CodeTarget l) (P_CodeTarget r) = true <->
  ct_from l = ct_from r /\ ct_kind l = ct_kind r /\ ct_target l <> ct_target r /\
  (ct_unique l = true \/ ct_unique r = true).
Proof.
  unfold contradicts. cbn. unfold code_target_claims. rewrite contradicts_if by done.
  rewrite !andb_true_iff, orb_true_iff, negb_true_iff, Z.eqb_eq, Z.eqb_neq, bool_decide_eq_true. tauto.
Qed.

Lemma contradicts_branches l r :
  contradicts (P_BranchReachability l) (P_BranchReachability r) = true <->
  br_branch l = br_branch r /\ br_successor l = br_successor r /\
  opposite_reachability (br_state l) (br_state r) = true.
Proof.
  unfold contradicts. cbn. unfold branch_claims. rewrite contradicts_if by done.
  rewrite !andb_true_iff, !Z.eqb_eq. tauto.
Qed.

Lemma region_no_contradiction r : contradicts (P_CodeRegion r) (P_CodeRegion r) = false.
Proof.
  unfold contradicts. cbn. unfold region_claims. rewrite contradicts_if by done.
  apply andb_false_iff. right. unfold region_kinds_incompatible.
  by rewrite (bool_decide_eq_true_2 (cr_kind r = cr_kind r)).
Qed.

(** What varies is no contradiction. *)
Lemma variation_no_contradiction p q :
  match p, q with
  | P_MemoryValue _, P_MemoryValue _ | P_RegisterValue _, P_RegisterValue _
  | P_CallObservation _, P_CallObservation _ | P_FunctionCandidate _, P_FunctionCandidate _ => True
  | _, _ => False
  end -> contradicts p q = false.
Proof.
  destruct p, q; try done; intros _; unfold contradicts; cbn.
  - unfold memory_value_claims. by destruct (_ && _).
  - unfold function_candidate_claims. by destruct (_ && _).
  - unfold register_claims. by destruct (_ && _).
  - unfold call_claims. destruct (negb _); [done|]. cbn zeta. destruct (_ || _); [|done]. cbn.
    by destruct (_ && _ && _).
Qed.

(** The payloads that the adapter emits for a fact contradict each other. *)
Definition self_contradicting (g : NativeFact) : Prop :=
  exists p q, p ∈ map af_payload (adapter_emit g) /\ q ∈ map af_payload (adapter_emit g) /\
    contradicts p q = true.

(** A branch that leads to the next instruction either way. *)
Definition branches_to_next (payload : NativeFactPayload) : Prop :=
  match payload with
  | N_ZeroRegisterBranch f => nz_target_ea f = nz_fallthrough_ea f
  | N_KnownFlagBranch f => nk_target_ea f = nk_fallthrough_ea f
  | N_OppositeBranchPair f =>
      no_first_ea f = no_second_ea f /\ no_guaranteed_target_ea f = no_unreachable_fallthrough_ea f
  | _ => False
  end.

(** The facts of a branch proof. *)
Definition proof_target (branch target : Z) (taken : bool) : FactPayload :=
  P_BranchReachability {|
    br_branch := branch; br_successor := target;
    br_state := if taken then Reachability_Reached else Reachability_ProvenUnreachable |}.

Lemma branch_proof_payloads branch target fallthrough outcome e p :
  p ∈ map af_payload (emit_branch_proof branch target fallthrough outcome e) <->
  p = proof_target branch target (always_taken outcome) \/
  p = proof_target branch fallthrough (negb (always_taken outcome)) \/
  p = P_CodeTarget {|
        ct_from := branch; ct_target := if always_taken outcome then target else fallthrough;
        ct_kind := if always_taken outcome then CodeTargetKind_Jump else CodeTargetKind_Fallthrough;
        ct_unique := true |}.
Proof. cbn. rewrite !elem_of_cons, elem_of_nil. destruct (always_taken outcome); cbn; tauto. Qed.

Lemma proof_targets_contradict branch branch' target target' taken taken' :
  contradicts (proof_target branch target taken) (proof_target branch' target' taken') = true <->
  branch = branch' /\ target = target' /\ taken = negb taken'.
Proof.
  unfold proof_target. rewrite contradicts_branches. cbn. destruct taken, taken'; cbn; naive_solver.
Qed.

Lemma branch_proof_contradicts branch target fallthrough outcome e registers :
  Forall (fun p => match p with P_RegisterValue _ => True | _ => False end) registers ->
  (exists p q, p ∈ map af_payload (emit_branch_proof branch target fallthrough outcome e) ++ registers /\
     q ∈ map af_payload (emit_branch_proof branch target fallthrough outcome e) ++ registers /\
     contradicts p q = true) <->
  target = fallthrough.
Proof.
  intros Hr. rewrite Forall_forall in Hr. split.
  - intros (p & q & Hp & Hq & Hc). apply elem_of_app in Hp, Hq. rewrite branch_proof_payloads in Hp, Hq.
    destruct Hp as [Hp|Hp%Hr], Hq as [Hq|Hq%Hr].
    + destruct Hp as [->|[->| ->]], Hq as [->|[->| ->]]; try discriminate Hc;
        try (apply proof_targets_contradict in Hc as (_ & Ht & Hneg);
             first [done|by destruct (always_taken outcome)]).
      apply contradicts_targets in Hc as (_ & _ & Hne & _). done.
    + destruct q; try done. destruct Hp as [->|[->| ->]]; discriminate Hc.
    + destruct p; try done. destruct Hq as [->|[->| ->]]; discriminate Hc.
    + destruct p, q; try done. by rewrite variation_no_contradiction in Hc.
  - intros ->. exists (proof_target branch fallthrough (always_taken outcome)),
      (proof_target branch fallthrough (negb (always_taken outcome))).
    rewrite !elem_of_app, !branch_proof_payloads. split_and!; [auto..|].
    apply proof_targets_contradict. by rewrite negb_involutive.
Qed.

(** Facts about one target, one region and values do not contradict each other. *)
Definition harmless (t : CodeTargetFact) (r : CodeRegionFact) (p : FactPayload) : Prop :=
  match p with
  | P_CodeTarget t' => t' = t
  | P_CodeRegion r' => r' = r
  | P_MemoryValue _ | P_RegisterValue _ | P_CallObservation _ | P_FunctionCandidate _ => True
  | _ => False
  end.

Lemma harmless_no_contradiction t r l :
  Forall (harmless t r) l -> ~ (exists p q, p ∈ l /\ q ∈ l /\ contradicts p q = true).
Proof.
  rewrite Forall_forall. intros Hl (p & q & Hp%Hl & Hq%Hl & Hc).
  destruct p, q; try done; cbn in Hp, Hq; subst; try discriminate Hc;
    try (by rewrite variation_no_contradiction in Hc by exact I).
  - by apply contradicts_targets in Hc as (_ & _ & Hne & _).
  - by rewrite region_no_contradiction in Hc.
Qed.

(** The facts that the adapter emits for one native fact contradict each other exactly
    when that fact is a branch whose target is the instruction after it, or a pair of
    branches on one instruction that falls through to the target of the pair. *)
Theorem adapter_consistent g : self_contradicting g <-> branches_to_next (nx_payload g).
Proof.
  assert (forall t r, Forall (harmless t r) (map af_payload (adapter_emit g)) -> ~ self_contradicting g) as Hh
    by (intros t r; apply harmless_no_contradiction).
  unfold self_contradicting, adapter_emit in *. set (e := neutral_evidence g) in *. clearbody e.
  pose (r0 := {| cr_start := 0; cr_end := 0; cr_kind := CodeRegionKind_Unknown |}).
  pose (t0 := {| ct_from := 0; ct_target := 0; ct_kind := CodeTargetKind_Unknown; ct_unique := false |}).
  destruct (nx_payload g) as [f|f|f|f|f|f]; cbn [branches_to_next].
  - split; [|done]. apply (Hh {| ct_from := ni_instruction_ea f; ct_target := ni_target_ea f;
      ct_kind := if bool_decide (ni_kind f = Flow_Call) then CodeTargetKind_Call else CodeTargetKind_Jump;
      ct_unique := true |} r0).
    unfold indirect_facts. cbn zeta. repeat case_match; by repeat constructor.
  - unfold zero_branch_facts. cbn zeta. rewrite map_app. apply branch_proof_contradicts.
    destruct (negb _); by repeat constructor.
  - split.
    + intros (p & q & Hp & Hq & Hc). cbn in Hp, Hq. rewrite !elem_of_cons, elem_of_nil in Hp, Hq.
      destruct Hp as [->|[->|[->|[]]]], Hq as [->|[->|[->|[]]]]; try discriminate Hc;
        try (by apply contradicts_targets in Hc as (_ & _ & Hne & _));
        apply contradicts_branches in Hc as (Hb & Hs & Ho); cbn in *; done.
    + intros [Hf Ht].
      exists (proof_target (no_first_ea f) (no_guaranteed_target_ea f) true),
        (proof_target (no_second_ea f) (no_unreachable_fallthrough_ea f) false).
      split; [cbn; rewrite !elem_of_cons; auto|split; [cbn; rewrite !elem_of_cons; auto|]].
      by apply proof_targets_contradict.
  - unfold flag_branch_facts. cbn zeta. rewrite map_app. apply branch_proof_contradicts.
    by repeat constructor.
  - split; [|done]. apply (Hh t0 r0). by repeat constructor.
  - split; [|done]. apply (Hh {| ct_from := nd_related_ea f; ct_target := nd_address f;
      ct_kind := CodeTargetKind_Unknown; ct_unique := false |} (discrepancy_region f)).
    unfold discrepancy_facts. cbn zeta. destruct (_ && _); by repeat constructor.
Qed.

(** ** Ranges *)

Lemma add_support_typed ea e : is_u64 ea -> evidence_typed e -> evidence_typed (add_support ea e).
Proof.
  intros Hea (? & ? & ?). unfold add_support. destruct (negb _); [|done].
  split_and!; [done|done|]. cbn. apply Forall_app. split; [done|]. constructor; [done|constructor].
Qed.

Lemma append_detail_typed detail e : evidence_typed e -> evidence_typed (append_detail detail e).
Proof. unfold append_detail. by destruct (_ =? 0). Qed.

Lemma neutral_evidence_typed g : provenance_typed (nx_provenance g) -> evidence_typed (neutral_evidence g).
Proof.
  intros (? & ? & _). split; [|split; [|constructor]].
  { unfold is_u16. cbn. destruct (np_strength (nx_provenance g)); cbn; unfold kMaxConfidence; lia. }
  split_and!; cbn; try done. by destruct (negb _).
Qed.

Lemma emit_neutral_typed p e : payload_typed p -> evidence_typed e -> fact_typed (emit_neutral p e).
Proof.
  intros Hp (? & ? & ?). split; [done|]. split_and!; [done..|]. cbn.
  apply Forall_sort_unique; [apply _|intros; apply Z.eqb_eq|done].
Qed.

Lemma branch_proof_typed branch target fallthrough outcome e :
  is_u64 branch -> is_u64 target -> is_u64 fallthrough -> evidence_typed e ->
  Forall fact_typed (emit_branch_proof branch target fallthrough outcome e).
Proof.
  intros. unfold emit_branch_proof.
  repeat (apply List.Forall_cons; [apply emit_neutral_typed; [cbn; split; [done|]|done]|]);
    [done|done|by destruct (always_taken outcome)|constructor].
Qed.

#[local] Ltac evidence_is_typed :=
  repeat first [apply append_detail_typed|apply add_support_typed; [done|]]; done.

#[local] Ltac emits_typed :=
  repeat (apply List.Forall_cons; [by apply emit_neutral_typed|]); constructor.

(** The adapter keeps the ranges of the C++ types. *)
Lemma adapter_emit_typed g : native_fact_typed g -> Forall fact_typed (adapter_emit g).
Proof.
  intros [Hp%neutral_evidence_typed Ht]. unfold adapter_emit. revert Hp Ht.
  generalize (neutral_evidence g) as e. destruct (nx_payload g) as [f|f|f|f|f|f]; intros e He Ht; cbn in Ht; destruct_and!.
  - unfold indirect_facts. cbn zeta. set (e' := append_detail _ _).
    assert (evidence_typed e') by (subst e'; evidence_is_typed). clearbody e'.
    repeat case_match; cbn [app]; emits_typed.
  - unfold zero_branch_facts. cbn zeta. set (e' := append_detail _ _).
    assert (evidence_typed e') by (subst e'; evidence_is_typed). clearbody e'.
    apply Forall_app. split; [by apply branch_proof_typed|]. destruct (negb _); [|constructor].
    constructor; [|constructor]. by apply emit_neutral_typed.
  - unfold pair_facts. cbn zeta. set (e' := append_detail _ _).
    assert (evidence_typed e') by (subst e'; evidence_is_typed). clearbody e'.
    emits_typed.
  - unfold flag_branch_facts. cbn zeta. set (e' := append_detail _ _).
    assert (evidence_typed e') by (subst e'; evidence_is_typed). clearbody e'.
    apply Forall_app. split; [by apply branch_proof_typed|].
    constructor; [|constructor]. by apply emit_neutral_typed.
  - unfold candidate_facts. cbn zeta. set (e' := append_detail _ _).
    assert (evidence_typed e') by (subst e'; evidence_is_typed). clearbody e'.
    emits_typed.
  - unfold discrepancy_facts. cbn zeta. set (e' := append_detail _ _).
    assert (evidence_typed e') by (subst e'; evidence_is_typed). clearbody e'.
    constructor.
    + apply emit_neutral_typed; [|done]. unfold discrepancy_region. cbn zeta.
      assert (is_u64 ((nd_address f + 1) mod 2 ^ 64)) by (apply Z.mod_pos_bound; lia).
      assert (1 <= discrepancy_width f) by (unfold discrepancy_width; lia).
      destruct (nd_kind f); cbn [payload_typed cr_start cr_end]; (split; [done|]); try done;
        destruct (Z.ltb_spec (u64_max - discrepancy_width f) (nd_address f)); try done;
        unfold is_u64, u64_max in *; lia.
    + destruct (_ && _); [|constructor]. constructor; [|constructor]. by apply emit_neutral_typed.
Qed.

(** ** Acceptance *)

Lemma hex_digits_length fuel v acc : zlen (hex_digits fuel v acc) <= Z.of_nat fuel + zlen acc.
Proof.
  revert v acc. induction fuel as [|fuel IH]; intros v acc; cbn [hex_digits]; [lia|]. cbn zeta.
  destruct (_ =? 0); [rewrite zlen_cons; lia|]. etransitivity; [apply IH|rewrite zlen_cons; lia].
Qed.

Lemma hex_text_length v : str_len (hex_text v) <= 16.
Proof.
  unfold hex_text, str_len. rewrite str_bytes_bytes.
  etransitivity; [apply hex_digits_length|]. by rewrite zlen_nil.
Qed.

(** What the adapter's evidence is like: [n] support addresses and a detail of [d] bytes at
    most. *)
Record neutral_ok (n d : Z) (e : Evidence) : Prop := {
  nv_producer : ev_producer e = producer_name;
  nv_method : 0 < str_len (ev_method e) <= 100;
  nv_proof : ev_proof e = ProofKind_StaticProof \/ ev_proof e = ProofKind_Heuristic;
  nv_confidence : ev_confidence e <= kMaxConfidence;
  nv_end : sc_function_end (ev_scope e) = None;
  nv_support : zlen (ev_support_addresses e) <= n;
  nv_detail : str_len (ev_detail e) <= d
}.

Lemma truth_length b : str_len (truth b) <= 5.
Proof. by destruct b. Qed.

Lemma neutral_evidence_ok g : neutral_ok 0 150 (neutral_evidence g).
Proof.
  split; cbn.
  - done.
  - by destruct (nx_payload g).
  - unfold neutral_proof. destruct (np_source (nx_provenance g)), (np_strength (nx_provenance g)); auto.
  - by destruct (np_strength (nx_provenance g)).
  - done.
  - by rewrite zlen_nil.
  - unfold provenance_detail. pose proof (hex_text_length (np_chunk_start (nx_provenance g))).
    pose proof (hex_text_length (np_chunk_end (nx_provenance g))).
    pose proof (truth_length (np_deterministic (nx_provenance g))).
    destruct (negb _); rewrite !str_len_app;
      repeat match goal with |- context [str_len ?s] =>
        lazymatch s with String _ _ => let v := eval vm_compute in (str_len s) in change (str_len s) with v
        | EmptyString => change (str_len EmptyString) with 0
        | to_string schema_version => change (str_len s) with 1 end end; lia.
Qed.

Lemma add_support_ok n d ea e : neutral_ok (n - 1) d e -> neutral_ok n d (add_support ea e).
Proof.
  intros [? ? ? ? ? ? ?]. unfold add_support. destruct (negb _); split; cbn; try done; [|lia].
  rewrite zlen_app, zlen_cons, zlen_nil. lia.
Qed.

Lemma append_detail_ok n d detail e :
  neutral_ok n d e -> neutral_ok n (d + 2 + str_len detail) (append_detail detail e).
Proof.
  intros [? ? ? ? ? ? ?]. unfold append_detail. pose proof (str_len_nonneg detail).
  destruct (Z.eqb_spec (str_len detail) 0); split; cbn; try done; [lia|].
  rewrite str_len_app. destruct (negb _); rewrite ?str_len_app; [change (str_len "; ") with 2|]; lia.
Qed.

(** A valid payload with such evidence is accepted as it is. *)
Lemma neutral_accept n d p e :
  neutral_ok n d e -> n <= u32_max -> d <= u32_max -> validate_payload p = Ok tt ->
  match p with P_FunctionTrait _ => False | _ => True end ->
  (payload_reachability p = Some Reachability_ProvenUnreachable -> ev_proof e = ProofKind_StaticProof) ->
  accept (emit_neutral p e) = Ok (emit_neutral p e).
Proof.
  intros [Hp Hm Hk Hc He Hs Hd] Hn Hdm Hv Ht Hr.
  assert (validate_evidence (af_evidence (emit_neutral p e)) = Ok tt) as Hev.
  { unfold validate_evidence, emit_neutral, evidence_with.
    cbn [af_evidence ev_producer ev_method ev_proof ev_confidence ev_scope ev_support_addresses ev_detail].
    set (l := std_unique Z.eqb (std_sort Z.ltb (ev_support_addresses e))).
    assert (StrictSorted Z.ltb l) as Hsort.
    { apply sort_unique_strict; [apply _|]. intros. apply Z.eqb_eq. }
    assert (zlen l <= n) as Hl.
    { etransitivity; [|exact Hs]. unfold zlen. apply inj_le.
      apply submseteq_length, NoDup_submseteq; [by eapply (StrictSorted_NoDup Z.ltb)|].
      intros x. unfold l. rewrite elem_of_sort_unique by (apply _ || (intros; apply Z.eqb_eq)). done. }
    rewrite Hp, He. change (str_len producer_name =? 0) with false.
    destruct (Z.eqb_spec (str_len (ev_method e)) 0); [lia|].
    assert (enum_between (ev_proof e) ProofKind_Unknown ProofKind_UserAsserted = true) as -> by
      (by destruct Hk as [->| ->]).
    destruct (Z.ltb_spec kMaxConfidence (ev_confidence e)); [lia|].
    rewrite (proj2 (is_sorted_iff Z.ltb l)) by (apply StrictSorted_le; [apply _|done]).
    rewrite (StrictSorted_adjacent Z.ltb) by (first [done|intros; lia]).
    change (u32_max <? str_len producer_name) with false.
    assert (u32_max <? zlen l = false) as -> by lia.
    assert (u32_max <? str_len (ev_method e) = false) as -> by (unfold u32_max; lia).
    assert (u32_max <? str_len (ev_detail e) = false) as -> by lia.
    cbn. by destruct (sc_function_start (ev_scope e)). }
  unfold accept, normalize_fact. change (af_payload (emit_neutral p e)) with p.
  rewrite (normalize_payload_valid _ Hv). cbn [result_bind]. rewrite (normalize_evidence_valid _ Hev).
  cbn [result_bind]. unfold validate_fact. cbn [af_payload af_evidence]. rewrite Hv. cbn [result_bind].
  rewrite Hev. cbn [result_bind].
  assert ((payload_reachability p == Some Reachability_ProvenUnreachable)%viy &&
    negb (proof_can_establish_unreachable (ev_proof (af_evidence (emit_neutral p e)))) = false) as ->.
  { case_bool_decide as Hb; [|done]. cbn. by rewrite (Hr Hb). }
  cbn [result_bind af_payload]. destruct (encode_payload_total p) as [w ->]; [done|by destruct p|done].
Qed.

(** The native facts whose evidence a store accepts: printed names are short, a slot that
    was read does not wrap, a discrepancy is not at the last address, and what decides a
    branch is a proof. *)
Definition adaptable (g : NativeFact) : Prop :=
  match nx_payload g with
  | N_IndirectTarget f =>
      str_len (ni_register_name f) <= 1000 /\
      (ni_resolution f = Resolution_ReadOnlyMemoryValue -> ni_pointer_ea f <> kNativeBadAddress ->
       1 <= ni_value_width f <= 8 /\ ni_pointer_ea f + ni_value_width f <= u64_max)
  | N_ZeroRegisterBranch f =>
      str_len (nz_register_name f) <= 1000 /\ neutral_proof (nx_provenance g) = ProofKind_StaticProof
  | N_OppositeBranchPair _ | N_KnownFlagBranch _ => neutral_proof (nx_provenance g) = ProofKind_StaticProof
  | N_FunctionCandidate _ => True
  | N_DecodeDiscrepancy f => nd_address f < u64_max
  end.

Lemma little_endian_length value width :
  0 <= width -> zlen (little_endian_bytes value width) = (if (width =? 0) || (8 <? width) then 8 else width).
Proof.
  intros Hw. unfold little_endian_bytes, zlen. rewrite length_map, length_seqZ.
  destruct (Z.eqb_spec width 0), (Z.ltb_spec 8 width); cbn; lia.
Qed.

Lemma little_endian_short value width : 0 <= width -> 0 < zlen (little_endian_bytes value width) <= 8.
Proof.
  intros Hw. rewrite little_endian_length by done.
  destruct (Z.eqb_spec width 0), (Z.ltb_spec 8 width); cbn; lia.
Qed.

Lemma register_before_valid instruction name value :
  0 < str_len name <= 1000 -> 0 < zlen value <= 1000 ->
  validate_payload (register_before instruction name value) = Ok tt.
Proof.
  intros Hn Hv. cbn. destruct (Z.eqb_spec (str_len name) 0); [lia|]. destruct (Z.eqb_spec (zlen value) 0); [lia|].
  cbn. rewrite (proj2 (Z.ltb_ge u32_max (str_len name))), (proj2 (Z.ltb_ge u32_max (zlen value)))
    by (unfold u32_max; lia). done.
Qed.

Lemma branch_proof_accepted n d branch target fallthrough outcome e :
  neutral_ok n d e -> n <= u32_max -> d <= u32_max -> ev_proof e = ProofKind_StaticProof ->
  Forall (fun f => accept f = Ok f) (emit_branch_proof branch target fallthrough outcome e).
Proof.
  intros He Hn Hd Hp. unfold emit_branch_proof.
  repeat (apply List.Forall_cons; [eapply neutral_accept; try done; by destruct (always_taken outcome)|]).
  constructor.
Qed.

Lemma discrepancy_region_valid f :
  native_payload_typed (N_DecodeDiscrepancy f) -> nd_address f < u64_max ->
  validate_payload (P_CodeRegion (discrepancy_region f)) = Ok tt.
Proof.
  intros ((Ha & _) & _) Hlt.
  assert (nd_address f < cr_end (discrepancy_region f)) as Hend.
  { unfold discrepancy_region. cbn zeta. assert (1 <= discrepancy_width f) by (unfold discrepancy_width; lia).
    assert ((nd_address f + 1) mod 2 ^ 64 = nd_address f + 1) as Hmod by (apply Z.mod_small; unfold u64_max in *; lia).
    destruct (nd_kind f); cbn [cr_end]; try lia;
      destruct (Z.ltb_spec (u64_max - discrepancy_width f) (nd_address f)); lia. }
  cbn [validate_payload]. unfold range_valid.
  assert (cr_start (discrepancy_region f) = nd_address f) as -> by (by unfold discrepancy_region; destruct (nd_kind f)).
  rewrite (proj2 (Z.ltb_lt _ _) Hend). unfold discrepancy_region. by destruct (nd_kind f).
Qed.

Lemma appended_ok n detail e :
  neutral_ok n 150 e -> str_len detail <= 1500 -> neutral_ok n 2000 (append_detail detail e).
Proof.
  intros He Hd. destruct (append_detail_ok _ _ detail _ He) as [? ? ? ? ? ? ?]. split; try done. lia.
Qed.

(** The length of a text of literals, numbers and names. *)
#[local] Ltac text_length :=
  rewrite ?str_len_app;
  repeat match goal with |- context [str_len ?s] =>
    lazymatch s with
    | String _ _ => let v := eval vm_compute in (str_len s) in change (str_len s) with v
    | to_string ?z => let H := fresh in assert (str_len s <= 21) as H by (apply to_string_length; lia);
        revert H; generalize (str_len s); intros ? ?
    | truth ?b => let H := fresh in pose proof (truth_length b) as H; revert H; generalize (str_len s); intros ? ?
    | hex_text ?v => let H := fresh in pose proof (hex_text_length v) as H; revert H; generalize (str_len s); intros ? ?
    | _ => let H := fresh in assert (str_len s <= 1000) as H by done; revert H; generalize (str_len s); intros ? ?
    end end; lia.

Lemma indirect_accepted f e :
  native_payload_typed (N_IndirectTarget f) -> neutral_ok 0 150 e -> str_len (ni_register_name f) <= 1000 ->
  (ni_resolution f = Resolution_ReadOnlyMemoryValue -> ni_pointer_ea f <> kNativeBadAddress ->
     1 <= ni_value_width f <= 8 /\ ni_pointer_ea f + ni_value_width f <= u64_max) ->
  Forall (fun f => accept f = Ok f) (indirect_facts f e).
Proof.
  intros (_ & _ & _ & Hptr & Hreg & Hw) He Hn Hm. unfold indirect_facts. cbn zeta.
  set (e' := append_detail _ _).
  assert (neutral_ok 3 2000 e') as He'.
  { unfold is_i32 in Hreg. apply appended_ok.
    - by repeat apply add_support_ok.
    - destruct (ni_resolution f); cbn [resolution_value]; text_length. }
  assert (ni_register_name f <> EmptyString -> 0 < str_len (ni_register_name f)) as Hpos.
  { destruct (ni_register_name f) as [|c s]; [done|]. rewrite str_len_cons. pose proof (str_len_nonneg s). lia. }
  clearbody e'. clear e He. unfold is_u8 in Hw.
  pose proof (little_endian_short (ni_target_ea f) (ni_value_width f)) as Hle.
  assert (str_len (ni_register_name f) <> 0 -> 0 < str_len (ni_register_name f)).
  { pose proof (str_len_nonneg (ni_register_name f)). lia. }
  constructor; [eapply neutral_accept; try done; by destruct (bool_decide _)|].
  apply Forall_app. split; [|destruct (bool_decide _); [|constructor]; constructor; [|constructor];
    by eapply neutral_accept].
  case_bool_decide as Hres; cbn [andb].
  - destruct (Z.eqb_spec (str_len (ni_register_name f)) 0); cbn [negb andb].
    + by rewrite Hres.
    + constructor; [|constructor]. eapply neutral_accept; try done. apply register_before_valid; [auto|lia].
  - case_bool_decide as Hmem; cbn [andb]; [|constructor].
    destruct (Z.eqb_spec (ni_pointer_ea f) kNativeBadAddress); cbn [negb]; [constructor|].
    constructor; [|constructor]. eapply neutral_accept; try done. destruct (Hm Hmem) as [Hw1 Hw2]; [done|].
    cbn. rewrite little_endian_length by lia. destruct (Z.eqb_spec (ni_value_width f) 0); [lia|].
    destruct (Z.ltb_spec 8 (ni_value_width f)); [lia|]. cbn [orb].
    assert (sized_range_valid (ni_pointer_ea f) (ni_value_width f) = true) as ->.
    { unfold sized_range_valid, u64_max in *. lia. }
    cbn. by rewrite (proj2 (Z.ltb_ge u32_max (ni_value_width f))) by (unfold u32_max; lia).
Qed.

(** The store accepts every fact of an adaptable native fact as it is. *)
Lemma adapter_accepted g :
  native_fact_typed g -> adaptable g -> Forall (fun f => accept f = Ok f) (adapter_emit g).
Proof.
  intros [_ Ht] Ha. pose proof (neutral_evidence_ok g) as He. unfold adaptable in Ha. unfold adapter_emit.
  assert (ev_proof (neutral_evidence g) = neutral_proof (nx_provenance g)) as Hp by done.
  revert He Hp. generalize (neutral_evidence g) as e. intros e He Hp.
  assert (forall s ea, ev_proof (append_detail s (add_support ea e)) = ev_proof e) as Hproof.
  { intros. unfold append_detail, add_support. by destruct (_ =? 0), (negb _). }
  destruct (nx_payload g) as [f|f|f|f|f|f].
  - destruct Ha. by apply indirect_accepted.
  - destruct Ha as [Hn Ha]. destruct Ht as (_ & _ & _ & _ & Hw). unfold zero_branch_facts. cbn zeta.
    set (e' := append_detail _ _).
    assert (neutral_ok 1 2000 e') as He' by (apply appended_ok; [by repeat apply add_support_ok|done]).
    apply Forall_app. split; [eapply branch_proof_accepted; try done; unfold e'; by rewrite Hproof, Hp|].
    destruct (Z.eqb_spec (str_len (nz_register_name f)) 0); cbn [negb]; [constructor|].
    constructor; [|constructor]. eapply neutral_accept; try done. apply register_before_valid.
    + pose proof (str_len_nonneg (nz_register_name f)). lia.
    + unfold zlen. rewrite repeat_length. unfold is_u8 in Hw. destruct (Z.eqb_spec (nz_value_width f) 0); lia.
  - destruct Ht as (_ & _ & _ & _ & Hc1 & Hc2). unfold pair_facts. cbn zeta. set (e' := append_detail _ _).
    assert (neutral_ok 2 2000 e') as He'.
    { unfold is_u16 in *. apply appended_ok; [by repeat apply add_support_ok|].
      destruct (no_family f); cbn [family_value]; text_length. }
    assert (ev_proof e' = ProofKind_StaticProof) as Hp'.
    { unfold e', append_detail, add_support. by destruct (_ =? 0), (negb _), (negb _); cbn; rewrite Hp. }
    repeat (constructor; [by eapply neutral_accept|]). constructor.
  - destruct Ht as (_ & _ & _ & _ & Hc). unfold flag_branch_facts. cbn zeta. set (e' := append_detail _ _).
    assert (neutral_ok 2 2000 e') as He'.
    { unfold is_u32 in *. apply appended_ok; [by repeat apply add_support_ok|].
      destruct (is_carry (nk_flag f)), (is_set (nk_value f)); text_length. }
    assert (ev_proof e' = ProofKind_StaticProof) as Hp'.
    { unfold e', append_detail, add_support. by destruct (_ =? 0), (negb _), (negb _); cbn; rewrite Hp. }
    apply Forall_app. split; [by eapply branch_proof_accepted|]. constructor; [|constructor].
    eapply neutral_accept; try done. by destruct (is_carry (nk_flag f)).
  - destruct Ht as (_ & _ & Hs). unfold candidate_facts. cbn zeta. set (e' := append_detail _ _).
    assert (neutral_ok 1 2000 e') as He'.
    { unfold is_u16 in *. apply appended_ok; [by repeat apply add_support_ok|].
      destruct (nf_reason f); cbn [reason_value]; text_length. }
    repeat (constructor; [by eapply neutral_accept|]). constructor.
  - pose proof Ht as (_ & _ & H1 & H2 & H3 & _). unfold discrepancy_facts. cbn zeta. set (e' := append_detail _ _).
    assert (neutral_ok 2 2000 e') as He'.
    { unfold is_u16 in *. apply appended_ok; [by repeat apply add_support_ok|].
      destruct (nd_kind f); cbn [discrepancy_value]; text_length. }
    constructor; [eapply neutral_accept; try done; by apply discrepancy_region_valid|].
    destruct (_ && _); [|constructor]. constructor; [|constructor]. by eapply neutral_accept.
Qed.
