(* ===== verification/NativeEvidence.v ===== *)
(** * The evidence of the native analysis (native_analysis.cpp)

    The provider with the adapter and the sink of a store as its client.  What the
    disassembler answers has the ranges of its C++ types ([IdaTyped]); then every fact that
    a provider reports and every fact that the adapter makes of it has them too, and a call
    adds exactly these facts to the store. *)
From stdpp Require Import base numbers list strings option sets.
From Stdlib Require Import ZArith Init.Byte Lia.
From S2P Require Import Prelude OrderedMap Ledger FactTypes Sha256 Validate FactCodec Store Conflicts EvidenceBridge.
From S2P Require Import NativeTypes NativeDatabase NativeListing NativeScan NativeReports NativeRuns NativeSound.
From S2P Require Import NativeAdapter.

#[local] Open Scope viy_scope.

(** ** Ranges of the answers *)

Definition op_typed (op : op_t) : Prop := is_u16 (op_reg op) /\ is_u64 (op_addr op).

Definition insn_typed (insn : insn_t) : Prop :=
  is_u64 (insn_ea insn) /\ is_u16 (insn_size insn) /\ is_u16 (insn_itype insn) /\
  Forall op_typed (insn_ops insn).

Class IdaTyped `{Ida} : Prop := {
  it_ea ea insn : decode_insn ea = Some insn -> insn_ea insn = ea;
  it_insn ea insn : decode_insn ea = Some insn -> insn_typed insn;
  it_name r w s : get_reg_name r w = Some s -> str_len s <= 1000;
  it_num r v : get_num r = Some v -> is_u64 v;
  it_def r : is_u64 (get_def_ea r);
  it_byte ea : is_u8 (get_byte ea);
  it_size ea : 0 <= get_item_size ea;
  it_dtype d : 0 <= get_dtype_size d;
  it_next ea end_ : is_u64 (next_head ea end_);
  it_prev ea min : is_u64 (prev_head ea min);
  it_func ea f : get_func ea = Some f ->
    is_u64 (fn_start_ea f) /\ Forall (fun c => is_u64 c.1 /\ is_u64 c.2) (fn_chunks f);
  it_segment seg : Some seg ∈ all_segments -> is_u64 (seg_start_ea seg) /\ is_u64 (seg_end_ea seg)
}.

Definition context_typed (ctx : ScanContext) : Prop :=
  is_u64 (sx_function_ea ctx) /\ is_u64 (sx_chunk_start ctx) /\ is_u64 (sx_chunk_end ctx).

Definition options_typed (options : NativeAnalysisOptions) : Prop := is_u32 (op_flag_scan_depth options).

Section Typing.
Context `{IdaTyped}.

Lemma bad_address_typed : is_u64 kNativeBadAddress.
Proof. done. Qed.
#[local] Hint Resolve bad_address_typed : core.

Lemma ea_add_typed a b : is_u64 (ea_add a b).
Proof. apply Z.mod_pos_bound. lia. Qed.
#[local] Hint Resolve ea_add_typed : core.

Lemma nth_op_typed insn n : insn_typed insn -> op_typed (nth n (insn_ops insn) void_op).
Proof.
  intros (_ & _ & _ & Ho). rewrite Forall_forall in Ho.
  destruct (nth_in_or_default n (insn_ops insn) void_op) as [Hin| ->]; [by apply Ho, list_elem_of_In|done].
Qed.

Lemma branch_target_typed insn : insn_typed insn -> is_u64 (branch_target insn).
Proof.
  intros (_ & _ & _ & Ho). unfold branch_target. induction Ho as [|op ops [_ Hop] _ IH]; [done|].
  cbn [branch_target_of]. by destruct (op_type op).
Qed.

Lemma used_operands_in feature i ops r m :
  (forall op, (used_operands feature i ops r m).1 = Some op -> r = Some op \/ op ∈ ops) /\
  (forall op, (used_operands feature i ops r m).2 = Some op -> m = Some op \/ op ∈ ops).
Proof.
  revert i r m. induction ops as [|o ops IH]; intros i r m; [by split; left|]. cbn [used_operands]. cbn zeta.
  assert (forall r' m', (r' = r \/ r' = Some o) -> (m' = m \/ m' = Some o \/ m' = None) ->
    (forall op, (used_operands feature (i + 1) ops r' m').1 = Some op -> r = Some op \/ op ∈ o :: ops) /\
    (forall op, (used_operands feature (i + 1) ops r' m').2 = Some op -> m = Some op \/ op ∈ o :: ops)) as Hstep.
  { intros r' m' Hr Hm. destruct (IH (i + 1) r' m') as [Ha Hb]. split; intros op Hop.
    - apply Ha in Hop. destruct Hr as [->| ->], Hop; simplify_eq; set_solver.
    - apply Hb in Hop. destruct Hm as [->|[->| ->]], Hop; simplify_eq; set_solver. }
  destruct (op_type o); try (by split; auto); (destruct (_ && _); [by apply Hstep; auto|]);
    try (destruct r; apply Hstep; by auto); destruct m; try (apply Hstep; by auto);
    destruct (_ || _); apply Hstep; auto.
Qed.

Lemma provenance_is_typed epoch arch ctx source strength deterministic :
  is_u64 epoch -> context_typed ctx ->
  provenance_typed (provenance epoch arch ctx source strength deterministic).
Proof. by intros He (? & ? & ?). Qed.

Lemma min_u8_typed z : 0 <= z -> is_u8 (Z.min z u8_max).
Proof. unfold is_u8, u8_max. lia. Qed.

Lemma min_u16_typed z : 0 <= z -> is_u16 (Z.min z u16_max).
Proof. unfold is_u16, u16_max. lia. Qed.

Lemma register_width_typed op : is_u8 (Z.min (operand_register_width op) u8_max).
Proof.
  apply min_u8_typed. unfold operand_register_width, register_width. case_bool_decide; [|done].
  pose proof (it_dtype (op_dtype op)). cbn zeta. by destruct (_ || _).
Qed.

(** The walk over the flags stays in range. *)
Lemma scan_flag_range depth chunk_start flag scan flipped scanned :
  0 <= scanned ->
  let r := scan_flag_loop depth chunk_start flag scan flipped scanned in
  is_u64 (fs_definition_ea r) /\ 0 <= fs_scanned r <= scanned + Z.of_nat depth.
Proof.
  cbn zeta. revert scan flipped scanned.
  assert (forall n scanned, 0 <= scanned ->
    is_u64 (fs_definition_ea (scan_unknown scanned)) /\ 0 <= fs_scanned (scan_unknown scanned) <= scanned + Z.of_nat n)
    as Hu by (intros; cbn; split; [done|lia]).
  induction depth as [|depth IH]; intros scan flipped scanned Hs; cbn [scan_flag_loop]; [by apply (Hu O)|].
  destruct (_ || _ || _); [by apply Hu|]. destruct (decode_insn _) as [insn|]; [|by apply Hu].
  destruct (ea_add _ _ =? _); [|by apply Hu]. destruct (has_alternate_predecessor _ _); [by apply Hu|].
  cbn [negb]. cbn zeta.
  assert (forall scan flipped, let r := scan_flag_loop depth chunk_start flag scan flipped (scanned + 1) in
    is_u64 (fs_definition_ea r) /\ 0 <= fs_scanned r <= scanned + Z.of_nat (S depth)) as Hrec.
  { intros scan' flipped'. cbn zeta. destruct (IH scan' flipped' (scanned + 1)) as [? ?]; [lia|]. split; [done|lia]. }
  destruct (flag_effect insn flag); try apply Hrec; cbn;
    (split; [first [done|apply it_prev]|lia]).
Qed.

Section Found.
Context (options : NativeAnalysisOptions) (epoch : Z) (arch : NativeArchitecture) (ctx : ScanContext).
Hypothesis Hoptions : options_typed options.
Hypothesis Hepoch : is_u64 epoch.
Hypothesis Hctx : context_typed ctx.

Lemma candidate_typed callsite target indirect g :
  is_u64 callsite -> is_u64 target -> finds_candidate epoch arch ctx callsite target indirect g ->
  native_fact_typed g.
Proof.
  intros Hc Ht (_ & _ & _ & first & (_ & Hs & _)%it_insn & _ & ->). split; [by apply provenance_is_typed|done].
Qed.

Lemma target_typed insn call target definition pointer resolution id name width g :
  insn_typed insn -> is_u64 target -> is_u64 definition -> is_u64 pointer -> is_i32 id -> is_u8 width ->
  finds_target options epoch arch ctx insn call target definition pointer resolution id name width g ->
  native_fact_typed g.
Proof.
  intros Hi ? ? ? ? ? (_ & _ & [->|[_ Hg]]); [|eapply candidate_typed, Hg; [apply Hi|done]].
  split; [by apply provenance_is_typed|]. by split; [apply Hi|].
Qed.

Lemma u16_i32 z : is_u16 z -> is_i32 z.
Proof. unfold is_u16, is_i32. lia. Qed.

Lemma indirect_typed insn g :
  insn_typed insn -> finds_indirect options epoch arch ctx insn g -> native_fact_typed g.
Proof.
  intros Hi (_ & _ & _ & _ & Hg). pose proof Hi as (_ & _ & _ & Ho). rewrite Forall_forall in Ho.
  destruct (used_operands_in (get_canon_feature insn) 0 (insn_ops insn) None None) as [Hr Hm].
  destruct Hg as [(op & Hop%Hr & Hg)|(op & Hop%Hm & Hg)]; destruct Hop as [|[Hreg _]%Ho]; try done.
  - destruct Hg as (rvi & value & _ & Hn%it_num & Hg). eapply target_typed, Hg; try done.
    + apply it_def.
    + by apply u16_i32.
    + apply register_width_typed.
  - destruct Hg as (_ & pointer & seg & target & Hp%it_num & _ & _ & Hw & _ & _ & Hn%it_num & Hg).
    eapply target_typed, Hg; try done.
    + cbn zeta. destruct (_ =? BADADDR); [done|apply it_def].
    + unfold is_u8. destruct Hw as [->|[->| ->]]; done.
Qed.

Lemma zero_branch_typed insn g :
  insn_typed insn -> finds_zero_branch epoch arch ctx insn g -> native_fact_typed g.
Proof.
  intros Hi (_ & _ & _ & outcome & _ & ->). split; [by apply provenance_is_typed|].
  split_and!; cbn; [apply Hi|by apply branch_target_typed|done| |apply register_width_typed].
  apply u16_i32. by apply (nth_op_typed insn 0).
Qed.

Lemma condition_typed c : is_u16 (native_condition_value c).
Proof. by destruct c. Qed.

Lemma arm_condition_typed insn : is_u16 (arm_condition insn).
Proof.
  unfold arm_condition, is_u16. change 0x0f with (Z.ones 4). rewrite Z.land_ones by lia.
  pose proof (Z.mod_pos_bound (insn_segpref insn) (2 ^ 4)). lia.
Qed.

Lemma pair_typed insn g :
  insn_typed insn -> finds_pair epoch arch ctx insn g -> native_fact_typed g.
Proof.
  intros Hi (_ & _ & _ & _ & second & Hs%it_insn & _ & _ & _ & _ & _ & family & c1 & c2 & Hf & ->).
  split; [by apply provenance_is_typed|].
  split_and!; cbn; [apply Hi|apply Hs|by apply branch_target_typed|done|..].
  all: destruct arch; cbn in Hf; [done|destruct (negb _); simplify_eq; apply condition_typed|..];
    unfold arm_branch_family in Hf; cbn zeta in Hf; repeat (case_match; simplify_eq); try done;
    first [apply Hi|apply Hs|apply arm_condition_typed].
Qed.
Lemma flag_branch_typed insn g :
  insn_typed insn -> finds_flag_branch options epoch arch ctx insn g -> native_fact_typed g.
Proof.
  intros Hi (_ & _ & _ & _ & flag & outcome & _ & _ & ->). split; [by apply provenance_is_typed|].
  destruct (scan_flag_range (Z.to_nat (op_flag_scan_depth options)) (sx_chunk_start ctx) flag (insn_ea insn)
    false 0) as [Hd Hs]; [done|].
  split_and!; cbn; [apply Hi|by apply branch_target_typed|done|done|].
  unfold scan_known_flag, options_typed, is_u32 in *. lia.
Qed.

Lemma discrepancy_typed insn g :
  insn_typed insn ->
  finds_item_size epoch arch ctx insn g \/ finds_attached_prefix epoch arch ctx insn g \/
  finds_detached_prefix epoch arch ctx insn g \/ finds_target_not_code epoch arch ctx insn g ->
  native_fact_typed g.
Proof.
  intros Hi Hg. pose proof Hi as (He & Hs & _). pose proof (it_size (insn_ea insn)).
  assert (is_u16 (to_u16 (get_item_size (insn_ea insn)))) as Hu by (apply Z.mod_pos_bound; lia).
  destruct Hg as [Hg|[Hg|[Hg|Hg]]].
  - destruct Hg as (_ & _ & ->). split; [by apply provenance_is_typed|].
    split_and!; cbn; [done|done|by apply min_u16_typed|done|done|apply it_byte].
  - destruct Hg as (_ & _ & plain & (_ & Hp & _)%it_insn & _ & ->). split; [by apply provenance_is_typed|].
    split_and!; cbn; [done|done|done|done|done|apply it_byte].
  - destruct Hg as (_ & Hlt & _ & _ & _ & _ & plain & (_ & Hp & _)%it_insn & _ & _ & ->).
    destruct Hctx as (_ & Hstart & _).
    split; [by apply provenance_is_typed|].
    split_and!; cbn; [unfold is_u64 in *; lia|done|done|done|done|apply it_byte].
  - destruct Hg as (_ & _ & _ & _ & decoded & (_ & Hp & _)%it_insn & _ & ->).
    split; [by apply provenance_is_typed|].
    split_and!; cbn; [by apply branch_target_typed|done|done|done|done|apply it_byte].
Qed.

Lemma undecodable_typed ea g :
  is_u64 ea -> finds_undecodable epoch arch ctx ea g -> native_fact_typed g.
Proof.
  intros He ->. split; [by apply provenance_is_typed|].
  split_and!; cbn; [done|done|apply min_u16_typed, it_size|done|done|].
  destruct (is_loaded ea); [apply it_byte|done].
Qed.

Lemma found_typed insn g :
  insn_typed insn -> finds options epoch arch ctx insn g -> native_fact_typed g.
Proof.
  intros Hi [(_ & Hg)|[(_ & Hg)|[(_ & Hg)|[(_ & Hg)|[(_ & Hg)|(_ & t & Ht & Hg)]]]]].
  - by eapply discrepancy_typed.
  - by eapply indirect_typed.
  - by eapply zero_branch_typed.
  - by eapply pair_typed.
  - by eapply flag_branch_typed.
  - unfold direct_call_target in Ht. repeat case_match; simplify_eq.
    eapply candidate_typed, Hg; [apply Hi|by apply branch_target_typed].
Qed.

Lemma visit_typed owned ea g :
  is_u64 ea -> visit_finds options epoch arch owned ctx ea g -> native_fact_typed g.
Proof.
  intros He. unfold visit_finds. destruct (decode_insn ea) as [insn|] eqn:Ed.
  - destruct (insn_size insn =? 0); [intros [_ Hg]; by eapply undecodable_typed|].
    apply found_typed. by eapply it_insn.
  - intros [_ Hg]. by eapply undecodable_typed.
Qed.
End Found.

(** ** What is found is adaptable *)

Lemma map_string_length f s : str_len (map_string f s) = str_len s.
Proof. unfold map_string, str_len. rewrite str_bytes_bytes. unfold zlen. by rewrite length_map. Qed.

Lemma register_name_short op : str_len (operand_register_name op) <= 1000.
Proof.
  unfold operand_register_name. case_bool_decide; [|done].
  destruct (get_reg_name _ _) as [s|] eqn:E; [|done]. rewrite map_string_length. by eapply it_name.
Qed.

Section Adaptable.
Context (options : NativeAnalysisOptions) (epoch : Z) (arch : NativeArchitecture) (ctx : ScanContext).

Lemma target_adaptable insn call target definition pointer resolution id name width g :
  str_len name <= 1000 ->
  (resolution = Resolution_ReadOnlyMemoryValue -> pointer <> kNativeBadAddress ->
     1 <= width <= 8 /\ pointer + width <= u64_max) ->
  finds_target options epoch arch ctx insn call target definition pointer resolution id name width g ->
  adaptable g.
Proof.
  intros Hn Hw (_ & _ & [->|[_ Hg]]); [done|].
  destruct Hg as (_ & _ & _ & first & _ & _ & ->). done.
Qed.

Lemma found_adaptable insn g :
  insn_typed insn -> insn_ea insn < u64_max -> finds options epoch arch ctx insn g -> adaptable g.
Proof.
  intros Hi Hea [(_ & Hg)|[(_ & Hg)|[(_ & Hg)|[(_ & Hg)|[(_ & Hg)|(_ & t & _ & Hg)]]]]].
  - destruct Hg as [Hg|[Hg|[Hg|Hg]]].
    + by destruct Hg as (_ & _ & ->).
    + by destruct Hg as (_ & _ & plain & _ & _ & ->).
    + destruct Hg as (_ & _ & _ & _ & _ & _ & plain & _ & _ & _ & ->). unfold adaptable. cbn. lia.
    + destruct Hg as (_ & _ & He & _ & decoded & _ & _ & ->). unfold adaptable. cbn.
      pose proof (branch_target_typed insn Hi) as Ht. unfold executable_address, mapped_loaded in He.
      destruct (Z.eqb_spec (branch_target insn) BADADDR) as [|Hne]; [done|].
      unfold is_u64, BADADDR, kNativeBadAddress, u64_max in *. lia.
  - destruct Hg as (_ & _ & _ & _ & [(op & _ & Hg)|(op & _ & Hg)]).
    + destruct Hg as (rvi & value & _ & _ & Hg). eapply target_adaptable, Hg; [apply register_name_short|done].
    + destruct Hg as (_ & pointer & seg & target & _ & _ & _ & Hw & Hp & _ & _ & Hg).
      eapply target_adaptable, Hg; [done|]. intros _ _.
      unfold BADADDR, kNativeBadAddress, u64_max in *. lia.
  - destruct Hg as (_ & _ & _ & outcome & _ & ->). split; [apply register_name_short|done].
  - by destruct Hg as (_ & _ & _ & _ & second & _ & _ & _ & _ & _ & _ & family & c1 & c2 & _ & ->).
  - by destruct Hg as (_ & _ & _ & _ & flag & outcome & _ & _ & ->).
  - by destruct Hg as (_ & _ & _ & first & _ & _ & ->).
Qed.

Lemma visit_adaptable owned ea g :
  is_u64 ea -> ea < u64_max -> visit_finds options epoch arch owned ctx ea g -> adaptable g.
Proof.
  intros He Hlt. unfold visit_finds. destruct (decode_insn ea) as [insn|] eqn:Ed.
  - destruct (insn_size insn =? 0); [intros [_ ->]; done|].
    apply found_adaptable; [by eapply it_insn|]. by rewrite (it_ea _ _ Ed).
  - intros [_ ->]. done.
Qed.
End Adaptable.

(** ** Visits *)

Definition below_last (ea : Z) : Prop := is_u64 ea /\ ea < u64_max.

Lemma visited_typed fuel wanted end_ limit ea count :
  is_u64 end_ -> is_u64 ea -> Forall below_last (visited_heads fuel wanted end_ limit ea count).
Proof.
  intros Hend. revert ea count. induction fuel as [|fuel IH]; intros ea count He; cbn [visited_heads]; [constructor|].
  destruct ((ea =? BADADDR) || (end_ <=? ea)) eqn:Eb; [constructor|]. destruct (_ && _); [constructor|]. cbn zeta.
  assert (below_last ea) as Hbelow.
  { apply orb_false_iff in Eb as [_ Hlt]. unfold below_last, is_u64, u64_max in *. lia. }
  assert (forall n, Forall below_last (if (next_head ea end_ =? BADADDR) || (next_head ea end_ <=? ea) then []
    else visited_heads fuel wanted end_ limit (next_head ea end_) n)) as Hr.
  { intros n. clear Eb. destruct (_ || _); [constructor|]. apply IH, it_next. }
  destruct (wanted ea); [by constructor|apply Hr].
Qed.

Definition visit_ok (v : ScanContext * Z) : Prop := context_typed v.1 /\ below_last v.2.

Lemma in_context_typed ctx l : context_typed ctx -> Forall below_last l -> Forall visit_ok (in_context ctx l).
Proof.
  intros Hc Hl. unfold in_context. rewrite Forall_fmap. eapply Forall_impl; [exact Hl|]. by intros x Hx.
Qed.

Lemma function_visits_typed options ea f :
  get_func ea = Some f -> Forall visit_ok (function_visits options f).
Proof.
  intros [Hs Hc]%it_func. unfold function_visits. destruct (_ =? _); [constructor|].
  generalize 0. induction Hc as [|[start end_] chunks [Ha Hb] _ IH]; intros count; [constructor|].
  cbn [chunk_visits]. destruct (_ <=? _); [apply IH|]. cbn zeta. apply Forall_app. split.
  - apply in_context_typed; [done|]. by apply visited_typed.
  - destruct (_ && _); [constructor|apply IH].
Qed.

Lemma segment_visits_typed options segs total :
  Forall (fun seg => match seg with Some seg => is_u64 (seg_start_ea seg) /\ is_u64 (seg_end_ea seg) | None => True end)
    segs ->
  Forall visit_ok (segment_visits options segs total).
Proof.
  intros Hs. revert total. induction Hs as [|seg segs Hseg _ IH]; intros total; [constructor|].
  cbn [segment_visits]. destruct (scannable_segment seg) as [seg'|] eqn:E; [|apply IH]. cbn zeta.
  assert (is_u64 (seg_start_ea seg') /\ is_u64 (seg_end_ea seg')) as [Ha Hb].
  { unfold scannable_segment in E. destruct seg as [seg|]; [|done]. destruct (_ || _); by simplify_eq. }
  apply Forall_app. split; [|apply IH]. apply in_context_typed; [done|]. by apply visited_typed.
Qed.

Definition call_options_typed (c : NativeCall) : Prop :=
  match c with
  | Call_AnalyzeDatabase options | Call_AnalyzeFunction _ options => options_typed options
  | _ => True
  end.

Lemma call_findings_typed c epoch g :
  call_options_typed c -> is_u64 epoch -> call_findings c epoch g -> native_fact_typed g /\ adaptable g.
Proof.
  assert (forall options owned arch visits, options_typed options -> is_u64 epoch -> Forall visit_ok visits ->
    visits_find options epoch arch owned visits g -> native_fact_typed g /\ adaptable g) as Hv.
  { intros options owned arch visits Ho He Hvs (v & Hin & Hg). rewrite Forall_forall in Hvs.
    destruct (Hvs v Hin) as [Hc [Hu Hlt]]. split; [by eapply visit_typed, Hg|by eapply visit_adaptable, Hg]. }
  destruct c as [options|ea options| | | |]; cbn [call_options_typed call_findings]; intros Ho He Hg; try done.
  - destruct Hg as (_ & [(entry & f & _ & Hf & _ & Hg)|[_ Hg]]).
    + eapply Hv, Hg; try done. by eapply function_visits_typed.
    + eapply Hv, Hg; try done. apply segment_visits_typed, Forall_forall.
      intros [seg|] Hseg; [by apply it_segment|done].
  - destruct Hg as (_ & _ & f & Hf & Hg). eapply Hv, Hg; try done. by eapply function_visits_typed.
Qed.
End Typing.

(** ** The sink *)

(** The adapter and the sink of a store as the client of a provider. *)
#[export] Instance adapting_client : NativeClient NativeEvidenceStoreSink := {
  sink_emit := adapt; on_progress _ sink := sink }.

(** The report counts as the bridge of the emulator does. *)
Definition report_stats (r : NativeEvidenceStoreReport) : EvidenceBridgeStats := {|
  eb_inserted_records := sr_inserted_records r; eb_added_observations := sr_added_observations r;
  eb_duplicates := sr_duplicate_observations r; eb_rejected := sr_rejected_facts r |}.

Definition sink_state (sink : NativeEvidenceStoreSink) : EvidenceBridgeStats * EvidenceStore :=
  (report_stats (sk_report sink), sk_store sink).

Lemma emit_offers fact sink : sink_state (emit_analysis_fact fact sink) = offer fact (sink_state sink).
Proof.
  unfold sink_state, offer, emit_analysis_fact. cbn [fst snd]. destruct (add fact (sk_store sink)) as [result store].
  unfold bridge_account, report_stats. destruct (ar_disposition result); cbn; by rewrite ?Z.add_0_r.
Qed.

Lemma emit_accepted fact sink f :
  accept fact = Ok f -> store_wf (sk_store sink) -> fact_typed fact ->
  sk_last_error (emit_analysis_fact fact sink) = sk_last_error sink.
Proof.
  intros Ha Hs Ht. pose proof (add_disposition _ _ Hs Ht) as Hd. unfold emit_analysis_fact.
  destruct (add fact (sk_store sink)) as [result store]. cbn [fst snd] in Hd.
  destruct (ar_disposition result); try done. destruct Hd as (? & ?). congruence.
Qed.

Definition emit_all (facts : list AnalysisFact) (sink : NativeEvidenceStoreSink) : NativeEvidenceStoreSink :=
  foldl (fun sink fact => emit_analysis_fact fact sink) sink facts.

Lemma emit_all_offers facts sink : sink_state (emit_all facts sink) = offer_all facts (sink_state sink).
Proof.
  revert sink. induction facts as [|f facts IH]; intros sink; [done|]. cbn [emit_all foldl].
  change (sink_state (emit_all facts (emit_analysis_fact f sink)) = offer_all facts (offer f (sink_state sink))).
  by rewrite IH, emit_offers.
Qed.

Lemma replay_adapts es sink :
  replay es sink = emit_all (concat (map adapter_emit (reported es))) sink.
Proof.
  revert sink. induction es as [|e es IH]; intros sink; [done|].
  change (replay (e :: es) sink) with (replay es (replay_event sink e)). rewrite IH.
  change (reported (e :: es)) with (reported_of e ++ reported es). rewrite map_app, concat_app.
  unfold emit_all. rewrite foldl_app. f_equal. destruct e as [g|]; cbn; [|done]. by rewrite app_nil_r.
Qed.

Lemma emit_all_last_error facts sink :
  store_wf (sk_store sink) -> Forall fact_typed facts -> Forall (fun f => accept f = Ok f) facts ->
  sk_last_error (emit_all facts sink) = sk_last_error sink.
Proof.
  revert sink. induction facts as [|f facts IH]; intros sink Hs Ht Ha; [done|].
  apply List.Forall_cons_iff in Ht as [Hf Ht], Ha as [Haf Ha]. cbn [emit_all foldl].
  change (sk_last_error (emit_all facts (emit_analysis_fact f sink)) = sk_last_error sink).
  rewrite IH; [by eapply emit_accepted| |done|done].
  assert (sk_store (emit_analysis_fact f sink) = (add f (sk_store sink)).2) as ->.
  { pose proof (emit_offers f sink) as Ho. unfold sink_state, offer in Ho. cbn [fst snd] in Ho.
    destruct (add f (sk_store sink)). cbn. by injection Ho. }
  by apply add_wf.
Qed.

Section Recording.
Context `{IdaTyped}.

(** The facts of a call do not depend on the client. *)
Lemma call_client {S} `{NativeClient S} c p (client : S) :
  exists es, (call c p client).2 = replay es client /\ reported es = reported (call c p (@nil ClientEvent)).2.
Proof.
  destruct (call_reports c (pv_current_epoch p)) as (gs & _ & Hs).
  destruct (Hs _ log_client p [] eq_refl) as (es0 & He0 & Hr0 & _).
  destruct (Hs S _ p client eq_refl) as (es & He & Hr & _).
  exists es. split; [done|]. rewrite He0, replay_log. cbn [app]. by rewrite Hr, Hr0.
Qed.

Lemma reported_typed c p g :
  call_options_typed c -> is_u64 (pv_current_epoch p) -> g ∈ reported (call c p (@nil ClientEvent)).2 ->
  native_fact_typed g /\ adaptable g.
Proof. intros Hc Hp Hg%reported_finding. by eapply call_findings_typed. Qed.

(** C19: a call of a provider whose client is the adapter in front of a store adds to the
    store exactly the facts that the adapter makes of what the call reports: none of them is
    rejected, nothing else changes in the store, and the report counts the new records and
    observations. *)
Theorem native_evidence_recorded c p sink :
  call_options_typed c -> is_u64 (pv_current_epoch p) -> store_wf (sk_store sink) ->
  let sink' := (call c p sink).2 in
  store_wf (sk_store sink') /\
  (forall f, f ∈ flattened_facts (sk_store sink') <->
     f ∈ flattened_facts (sk_store sink) \/
     exists g, g ∈ reported (call c p (@nil ClientEvent)).2 /\ f ∈ adapter_emit g) /\
  sr_rejected_facts (sk_report sink') = sr_rejected_facts (sk_report sink) /\
  sk_last_error sink' = sk_last_error sink /\
  record_count (sk_store sink') - record_count (sk_store sink) =
    sr_inserted_records (sk_report sink') - sr_inserted_records (sk_report sink) /\
  observation_count (sk_store sink') - observation_count (sk_store sink) =
    sr_inserted_records (sk_report sink') + sr_added_observations (sk_report sink') -
    (sr_inserted_records (sk_report sink) + sr_added_observations (sk_report sink)).
Proof.
  intros Hc Hp Hs. cbn zeta. destruct (call_client c p sink) as (es & -> & Hr).
  rewrite replay_adapts, Hr. set (facts := concat (map adapter_emit _)).
  assert (forall f, f ∈ facts <-> exists g, g ∈ reported (call c p (@nil ClientEvent)).2 /\ f ∈ adapter_emit g)
    as Hin by (intros f; apply elem_of_concat_map).
  assert (forall f, f ∈ facts -> fact_typed f /\ accept f = Ok f) as Hfacts.
  { intros f (g & Hg & Hf)%Hin. destruct (reported_typed c p g Hc Hp Hg) as [Ht Ha].
    pose proof (adapter_emit_typed g Ht) as Hft. pose proof (adapter_accepted g Ht Ha) as Hfa.
    rewrite Forall_forall in Hft, Hfa. auto. }
  assert (Forall fact_typed facts) as Htyped by (apply Forall_forall; intros f Hf; by apply Hfacts).
  assert (Forall (fun f => accept f = Ok f) facts) as Haccepted by
    (apply Forall_forall; intros f Hf; by apply Hfacts).
  pose proof (offer_all_steps facts (sink_state sink) Hs Htyped) as (Hst & Hu & Hrej & _).
  rewrite <- emit_all_offers in Hst, Hu, Hrej. cbn [sink_state fst snd] in Hst, Hrej.
  assert (List.filter (fun f => negb (is_ok (accept f))) facts = []) as Hnone.
  { destruct (List.filter _ facts) as [|f l] eqn:E; [done|]. exfalso.
    assert (f ∈ List.filter (fun f => negb (is_ok (accept f))) facts) as Hf by (rewrite E; left).
    apply elem_of_filter in Hf as [Hf1 [_ Hf2]%Hfacts]. by rewrite Hf2 in Hf1. }
  rewrite Hnone in Hrej. unfold unexplained in Hu. cbn [sink_state fst snd] in Hu.
  split; [rewrite Hst; by apply (ledger_add_all_ok (Ledger0 := store_ledger))|]. split_and!.
  - intros f. rewrite Hst, (store_add_all_facts facts _ f Hs Htyped), <- Hin.
    split; [intros [(g & Hg & Ha)|?]; [right|by left]|intros [?|Hf]; [by right|left]].
    + destruct (Hfacts g Hg) as [_ Ha']. congruence.
    + exists f. split; [done|]. by apply Hfacts.
  - revert Hrej. cbn. unfold zlen. cbn. lia.
  - by apply emit_all_last_error.
  - injection Hu. cbn. lia.
  - injection Hu. cbn. lia.
Qed.
End Recording.

(** ** Examples *)

Section MachineTyped.
Context (processor : Z) (ends : Z -> bool) (listing : list insn_t).
Hypothesis Hlisting : Forall insn_typed listing.
Hypothesis Hbounds : is_u64 (fst (listing_bounds listing)) /\ is_u64 (snd (listing_bounds listing)).

Lemma start_typed x : In x (starts listing) -> is_u64 x.
Proof. intros (i & <- & Hi)%in_map_iff. rewrite List.Forall_forall in Hlisting. by apply Hlisting. Qed.

Lemma machine_typed : @IdaTyped (machine_ida processor ends listing).
Proof.
  split; cbn; try done.
  - by intros ea insn [_ ?%Z.eqb_eq]%List.find_some.
  - intros ea insn [Hi _]%List.find_some. rewrite List.Forall_forall in Hlisting. by apply Hlisting.
  - intros ea. destruct (listed listing ea) as [insn|] eqn:E; [|done].
    apply List.find_some in E as [Hi _]. rewrite List.Forall_forall in Hlisting.
    destruct (Hlisting _ Hi) as (_ & Hs & _). unfold is_u16 in Hs. lia.
  - intros d. lia.
  - intros ea end_. unfold next_start. destruct (List.find _ _) as [x|] eqn:E; [|done].
    apply List.find_some in E as [Hx%start_typed _]. by destruct (_ <? _).
  - intros ea min. unfold prev_start. destruct (List.find _ _) as [x|] eqn:E; [|done].
    apply List.find_some in E as [Hx%in_rev%start_typed _]. by destruct (_ <=? _).
  - intros ea f. unfold if_listed. destruct (in_listing _ _); [|done]. intros [= <-]. cbn.
    destruct Hbounds. split; [done|]. by constructor.
  - intros seg Hseg. apply list_elem_of_singleton in Hseg as [= ->]. done.
Qed.
End MachineTyped.

Lemma x86_listing_typed : @IdaTyped (machine_ida 0 (fun _ => true) x86_listing).
Proof.
  apply machine_typed; [|done].
  repeat (apply List.Forall_cons; [split_and!; try done; repeat constructor; done|]). constructor.
Qed.

#[local] Notation x86_analysis := (Call_AnalyzeFunction 16 default_options).
#[local] Notation x86_call client := (@call (machine_ida 0 (fun _ => true) x86_listing) _ client x86_analysis new_provider).

Definition empty_sink : NativeEvidenceStoreSink :=
  {| sk_store := empty_store; sk_report := no_report; sk_last_error := EmptyString |}.

Lemma native_evidence_recorded_witness :
  let sink := (x86_call adapting_client empty_sink).2 in
  store_wf (sk_store sink) /\ sr_inserted_records (sk_report sink) = 14 /\ record_count (sk_store sink) = 14.
Proof.
  pose proof x86_listing_typed. cbn zeta.
  destruct (native_evidence_recorded (H := machine_ida 0 (fun _ => true) x86_listing) x86_analysis new_provider
    empty_sink) as (Hw & _ & _ & _ & Hc & _); [done|done|apply empty_store_wf|].
  assert (sr_inserted_records (sk_report (x86_call adapting_client empty_sink).2) = 14)
    as Hi by (vm_compute; reflexivity).
  split; [exact Hw|split; [exact Hi|]]. rewrite Hi in Hc.
  change (record_count (sk_store empty_sink)) with 0 in Hc.
  change (sr_inserted_records (sk_report empty_sink)) with 0 in Hc. revert Hc. clear. intros Hc. lia.
Defined.

(** [xor eax, eax] and a [jz] to the next instruction. *)
Definition next_listing : list insn_t :=
  let eax := an_operand o_reg 4 0 0 0 in
  [an_insn 16 2 (x86_number NN_xor) [eax; eax]; an_insn 18 2 (x86_number NN_jz) [near_to 20];
   an_insn 20 1 (x86_number NN_nop) []].

(** The provider reports such a branch, and the adapter makes contradictory facts of it: the
    next instruction is reached, and proven unreachable. *)
Lemma branch_to_next_contradicts :
  exists g, g ∈ reported (@call (machine_ida 0 (fun _ => true) next_listing) _ log_client x86_analysis
                            new_provider []).2 /\
    self_contradicting g.
Proof.
  eexists. split; [apply (list_elem_of_lookup_2 _ 0); vm_compute; reflexivity|].
  exists (proof_target 18 20 true), (proof_target 18 20 false).
  split_and!; [vm_compute; repeat constructor|vm_compute; repeat constructor|].
  by apply proof_targets_contradict.
Qed.
