(* ===== verification/DeobfSink.v ===== *)
(** * The sink of the deobfuscation analysis (deobf_analysis_store.cpp)

    [DeobfEvidenceStoreSink] stands between the producers of the deobfuscation analysis
    and the store.  It refuses a fact that would bring a new contradiction into the view of
    the active generation; the theorem says that the view gains no contradiction in any run
    of the sink, and that nothing else is refused. *)
From stdpp Require Import base numbers list strings option sets.
From Stdlib Require Import ZArith Lia.
From S2P Require Import Prelude OrderedMap Ledger FactTypes Sha256 Validate FactCodec Store Conflicts ConflictQuery.

#[local] Open Scope viy_scope.

(** ** The sink *)

Record DeobfEvidenceStoreReport : Type := {
  dr_inserted_records : Z;
  dr_added_observations : Z;
  dr_duplicate_observations : Z;
  dr_rejected_invalid : Z;
  dr_contradictions_suppressed : Z
}.

Record DeobfEvidenceStoreSink : Type := {
  ds_store : EvidenceStore;
  ds_report : DeobfEvidenceStoreReport;
  ds_last_error : string;
  ds_active_generation : Z
}.

Definition empty_deobf_report : DeobfEvidenceStoreReport := {|
  dr_inserted_records := 0; dr_added_observations := 0; dr_duplicate_observations := 0;
  dr_rejected_invalid := 0; dr_contradictions_suppressed := 0 |}.

Definition new_deobf_sink (store : EvidenceStore) : DeobfEvidenceStoreSink := {|
  ds_store := store; ds_report := empty_deobf_report; ds_last_error := EmptyString;
  ds_active_generation := 0 |}.

Definition reset_deobf_report (sink : DeobfEvidenceStoreSink) : DeobfEvidenceStoreSink := {|
  ds_store := ds_store sink; ds_report := empty_deobf_report; ds_last_error := EmptyString;
  ds_active_generation := ds_active_generation sink |}.

Definition set_active_generation (generation : Z) (sink : DeobfEvidenceStoreSink) :
    DeobfEvidenceStoreSink := {|
  ds_store := ds_store sink; ds_report := ds_report sink; ds_last_error := ds_last_error sink;
  ds_active_generation := generation |}.

Definition observation_in_view (evidence : Evidence) (active_generation : Z) : bool :=
  (ev_proof evidence == ProofKind_UserAsserted) || (active_generation =? 0) ||
  (sc_generation (ev_scope evidence) =? active_generation).

(** The sink after a fact: the counter that goes up, and the error if there is one. *)
Definition with_report (report : DeobfEvidenceStoreReport) (error : option string)
    (store : EvidenceStore) (sink : DeobfEvidenceStoreSink) : DeobfEvidenceStoreSink := {|
  ds_store := store; ds_report := report; ds_last_error := default (ds_last_error sink) error;
  ds_active_generation := ds_active_generation sink |}.

Definition emit_deobf_fact (fact : AnalysisFact) (sink : DeobfEvidenceStoreSink) :
    bool * DeobfEvidenceStoreSink :=
  let r := ds_report sink in
  let counted inserted added duplicate rejected suppressed := {|
    dr_inserted_records := dr_inserted_records r + inserted;
    dr_added_observations := dr_added_observations r + added;
    dr_duplicate_observations := dr_duplicate_observations r + duplicate;
    dr_rejected_invalid := dr_rejected_invalid r + rejected;
    dr_contradictions_suppressed := dr_contradictions_suppressed r + suppressed |} in
  match normalize_fact fact with
  | Err error => (false, with_report (counted 0 0 0 1 0) (Some error) (ds_store sink) sink)
  | Ok normalized =>
      let '(conflict, store) :=
        if observation_in_view (af_evidence normalized) (ds_active_generation sink) then
          let '(conflict, _, store) :=
            new_contradiction (af_payload normalized) (ds_active_generation sink) (ds_store sink) in
          (conflict, store)
        else (None, ds_store sink) in
      match conflict with
      | Some c => (false, with_report (counted 0 0 0 0 1) (Some (ec_explanation c)) store sink)
      | None =>
          let '(added, store) := add normalized store in
          match ar_disposition added with
          | AddDisposition_InsertedRecord => (true, with_report (counted 1 0 0 0 0) None store sink)
          | AddDisposition_AddedObservation => (true, with_report (counted 0 1 0 0 0) None store sink)
          | AddDisposition_DuplicateObservation => (true, with_report (counted 0 0 1 0 0) None store sink)
          | AddDisposition_RejectedInvalid =>
              (false, with_report (counted 0 0 0 1 0) (Some (ar_error added)) store sink)
          end
      end
  end.

(** The facts of a scan in the order in which the producers emit them. *)
Definition emit_deobf_facts (facts : list AnalysisFact) (sink : DeobfEvidenceStoreSink) :
    DeobfEvidenceStoreSink :=
  foldl (fun sink fact => (emit_deobf_fact fact sink).2) sink facts.

(** ** The active view *)

(** The facts of the view, and the payloads that it asserts. *)
Definition in_view (generation : Z) (s : EvidenceStore) (f : AnalysisFact) : Prop :=
  f ∈ flattened_facts s /\ observation_in_view (af_evidence f) generation = true.

Definition asserts (generation : Z) (s : EvidenceStore) (p : FactPayload) : Prop :=
  exists f, in_view generation s f /\ af_payload f = p.

(** [s] with more facts has no contradiction in the view that was not there. *)
Definition no_new_contradiction (generation : Z) (s s' : EvidenceStore) : Prop :=
  forall p q, asserts generation s' p -> asserts generation s' q -> clash p q ->
    asserts generation s p /\ asserts generation s q.

Lemma record_active_view generation r :
  record_active generation r = true <->
  exists e, e ∈ er_observations r /\ observation_in_view e generation = true.
Proof.
  unfold record_active. rewrite existsb_iff. unfold observation_in_view. split.
  - intros (e & He & H). exists e. split; [done|]. rewrite <- H.
    destruct (generation =? 0), (_ =? generation), (bool_decide _); done.
  - intros (e & He & H). exists e. split; [done|]. rewrite <- H.
    destruct (generation =? 0), (_ =? generation), (bool_decide _); done.
Qed.

Lemma asserts_record generation s p :
  asserts generation s p <->
  exists k r, (k, r) ∈ records_ s /\ er_payload r = p /\ record_active generation r = true.
Proof.
  split.
  - intros (f & [Hf Hv] & <-). apply elem_of_flattened in Hf as (k & r & Hin & Hp & He).
    exists k, r. split_and!; [done|done|]. apply record_active_view. by exists (af_evidence f).
  - intros (k & r & Hin & Hp & (e & He & Hv)%record_active_view).
    exists {| af_payload := p; af_evidence := e |}. split; [|done]. split; [|done].
    apply elem_of_flattened. by exists k, r.
Qed.

Lemma same_facts s t : records_ s = records_ t -> flattened_facts s = flattened_facts t.
Proof. unfold flattened_facts. by intros ->. Qed.

Lemma same_asserts generation s t p :
  records_ s = records_ t -> asserts generation s p <-> asserts generation t p.
Proof. unfold asserts, in_view. by intros ->%same_facts. Qed.

(** A contradiction that the query would report is a clash with an asserted payload. *)
Lemma activated_clash s payload generation key :
  store_wf s -> validate_payload payload = Ok tt ->
  (exists c, activates_contradiction s payload key generation c) <->
  exists p, asserts generation s p /\ clash p payload.
Proof.
  intros [Hok _] Hv. split.
  - intros (c & k & r & Hin & Ha & Hc). exists (er_payload r).
    split; [apply asserts_record; by exists k, r|].
    eapply (pair_conflicts_clash s payload key); [done|done| |exact Hc].
    by apply (map_find_elem bytes_lt); [apply Hok|].
  - intros (p & (k & r & Hin & <- & Ha)%asserts_record & Hc). by eapply clash_activates.
Qed.

(** The query in terms of the view. *)
Lemma query_view s payload generation key :
  store_wf s -> payload_typed payload -> validate_payload payload = Ok tt ->
  encode_payload payload = Ok key ->
  match (new_contradiction payload generation s).1.1 with
  | Some _ => exists p, asserts generation s p /\ clash p payload
  | None => asserts generation s payload \/ forall p, asserts generation s p -> ~ clash p payload
  end.
Proof.
  intros Hwf Ht Hv Hk. pose proof (activated_clash s payload generation key Hwf Hv) as Hclash.
  pose proof (new_contradiction_spec s payload generation key Hwf Ht Hv Hk) as Hspec.
  destruct (new_contradiction payload generation s) as [[result stats] s']. cbn [fst].
  destruct Hspec as (_ & _ & Hactive & Hspec). pose proof Hwf as [Hok _].
  assert ((exists r, find payload s = Some r /\ record_active generation r = true) \/
          match find payload s with Some r => record_active generation r = false | None => True end)
    as [(r & Hr & Ha)|Hinactive].
  { destruct (find payload s) as [r|]; [|by right].
    destruct (record_active generation r) eqn:E; [left; by exists r|by right]. }
  - rewrite Hr, Ha in Hactive. subst result. left. apply asserts_record.
    unfold find in Hr. rewrite Hk in Hr. pose proof (records_ok_find _ _ _ Hok Hr) as [(Hkr & Htr & Hvr & _) Hin].
    exists key, r. split_and!; [done| |done]. rewrite (encode_payload_valid _ Hv) in Hk.
    exact (encode_normalized_payload_inj _ _ key Htr Ht Hvr Hv Hkr Hk).
  - specialize (Hspec Hinactive). destruct result as [c|].
    + apply Hclash. exists c. apply Hspec.
    + right. intros p Hp Hc. destruct (proj2 Hclash) as [c Ha]; [by exists p|]. by eapply Hspec.
Qed.

(** ** One fact *)

(** What becomes of a fact: it is refused as invalid, suppressed, or in the store. *)
Inductive deobf_outcome (g : Z) (fact : AnalysisFact) (s : EvidenceStore) : bool -> EvidenceStore -> Prop :=
  | outcome_invalid m s' :
      accept fact = Err m -> flattened_facts s' = flattened_facts s -> deobf_outcome g fact s false s'
  | outcome_suppressed x p s' :
      accept fact = Ok x -> flattened_facts s' = flattened_facts s ->
      observation_in_view (af_evidence x) g = true -> asserts g s p -> clash p (af_payload x) ->
      deobf_outcome g fact s false s'
  | outcome_accepted x s' :
      accept fact = Ok x -> (forall y, y ∈ flattened_facts s' <-> y = x \/ y ∈ flattened_facts s) ->
      (observation_in_view (af_evidence x) g = true ->
       asserts g s (af_payload x) \/ forall p, asserts g s p -> ~ clash p (af_payload x)) ->
      deobf_outcome g fact s true s'.

(** The store that [add] gets holds what the store of the sink holds. *)
Lemma add_outcome g fact x s s1 :
  store_wf s1 -> records_ s1 = records_ s -> fact_typed x -> accept x = accept fact ->
  (forall key, encode_payload (af_payload x) = Ok key -> observation_in_view (af_evidence x) g = true ->
     asserts g s (af_payload x) \/ forall p, asserts g s p -> ~ clash p (af_payload x)) ->
  normalize_fact x = Ok x ->
  let '(added, s') := add x s1 in
  store_wf s' /\
  deobf_outcome g fact s
    match ar_disposition added with AddDisposition_RejectedInvalid => false | _ => true end s'.
Proof.
  intros Hwf Hr Ht Ha Hview Hn. pose proof (add_wf s1 x Hwf Ht) as Hwf'.
  pose proof (add_disposition s1 x Hwf Ht) as Hd.
  pose proof (fun f => add_facts s1 x f (proj1 Hwf) Ht) as Hf.
  destruct (add x s1) as [added s']. cbn [fst snd] in *. split; [done|].
  destruct (accept x) as [y|m] eqn:Ey.
  - assert (y = x /\ exists key, encode_payload (af_payload x) = Ok key) as [-> [key Hk]].
    { unfold accept in Ey. rewrite Hn in Ey. cbn [result_bind] in Ey.
      destruct (encode_payload (af_payload x)) as [key|]; [|done]. injection Ey as ->. by split; [|exists key]. }
    assert (match ar_disposition added with AddDisposition_RejectedInvalid => false | _ => true end = true)
      as -> by (destruct (ar_disposition added); [done..|]; by destruct Hd).
    apply (outcome_accepted _ _ _ x); [done| |by eapply Hview].
    intros z. rewrite (proj2 (Hf x eq_refl)). by rewrite (same_facts s1 s).
  - assert (ar_disposition added = AddDisposition_RejectedInvalid /\ s' = s1) as [-> ->].
    { destruct (ar_disposition added); [| | |by destruct Hd]; naive_solver. }
    apply (outcome_invalid _ _ _ m); [done|]. by apply same_facts.
Qed.

Lemma emit_outcome fact sink :
  store_wf (ds_store sink) -> fact_typed fact ->
  let '(accepted, sink') := emit_deobf_fact fact sink in
  store_wf (ds_store sink') /\ ds_active_generation sink' = ds_active_generation sink /\
  deobf_outcome (ds_active_generation sink) fact (ds_store sink) accepted (ds_store sink').
Proof.
  intros Hwf Ht. unfold emit_deobf_fact. destruct (normalize_fact fact) as [x|m] eqn:En.
  2: { split_and!; [done|done|]. apply (outcome_invalid _ _ _ m); [|done]. unfold accept. by rewrite En. }
  pose proof (normalize_fact_ok _ _ En) as (Hp & He & Hv & Hnx).
  pose proof (validate_fact_parts _ Hv) as [Hvp _].
  assert (accept x = accept fact) as Ha by (unfold accept; by rewrite En, Hnx).
  assert (fact_typed x) as Htx.
  { apply normalize_payload_ok in Hp as (Hpe & _). apply normalize_evidence_ok in He as (Hee & _).
    destruct Ht. split; [rewrite Hpe; by apply normalize_payload_typed|rewrite Hee; by apply normalize_evidence_typed]. }
  set (g := ds_active_generation sink) in *. set (s := ds_store sink) in *.
  pose proof (new_contradiction_store s (af_payload x) g Hwf) as [Hwf1 Hr1].
  pose proof (fun key => query_view s (af_payload x) g key Hwf (proj1 Htx) Hvp) as Hq.
  destruct (observation_in_view (af_evidence x) g) eqn:Ev.
  - destruct (new_contradiction (af_payload x) g s) as [[[c|] stats] s1] eqn:Ec; cbn [fst snd] in *.
    + split_and!; [done|done|]. cbn [ds_store with_report].
      destruct (encode_payload (af_payload x)) as [key|m] eqn:Ek.
      * destruct (Hq key eq_refl) as (p & Hpa & Hc).
        apply (outcome_suppressed _ _ _ x p); [|by apply same_facts|done..].
        rewrite <- Ha. unfold accept. rewrite Hnx. cbn [result_bind]. by rewrite Ek.
      * exfalso. unfold new_contradiction in Ec. rewrite Ek in Ec. by destruct (negb _).
    + pose proof (add_outcome g fact x s s1 Hwf1 Hr1 Htx Ha (fun key Hk _ => Hq key Hk) Hnx) as Hout.
      destruct (add x s1) as [added s2]. destruct Hout as [Hwf2 Hout].
      by destruct (ar_disposition added).
  - assert (forall key, encode_payload (af_payload x) = Ok key -> observation_in_view (af_evidence x) g = true ->
      asserts g s (af_payload x) \/ forall p, asserts g s p -> ~ clash p (af_payload x)) as Hno by (rewrite Ev; done).
    pose proof (add_outcome g fact x s s Hwf eq_refl Htx Ha Hno Hnx) as Hout.
    destruct (add x s) as [added s2]. destruct Hout as [Hwf2 Hout].
    by destruct (ar_disposition added).
Qed.

(** ** Runs of the sink *)

Lemma asserts_mono g s s' p :
  (forall y, y ∈ flattened_facts s -> y ∈ flattened_facts s') -> asserts g s p -> asserts g s' p.
Proof. intros H (f & [Hf Hv] & Hp). exists f. split; [split; [by apply H|done]|done]. Qed.

Lemma no_new_contradiction_trans g s1 s2 s3 :
  no_new_contradiction g s1 s2 -> no_new_contradiction g s2 s3 -> no_new_contradiction g s1 s3.
Proof. intros H12 H23 p q Hp Hq Hc. destruct (H23 p q Hp Hq Hc) as [Hp2 Hq2]. by apply (H12 p q). Qed.

Lemma outcome_mono g fact s accepted s' y :
  deobf_outcome g fact s accepted s' -> y ∈ flattened_facts s -> y ∈ flattened_facts s'.
Proof.
  intros [m s1 _ Heq|x p s1 _ Heq _ _ _|x s1 _ Heq _] Hy; [by rewrite Heq..|]. apply Heq. by right.
Qed.

(** The view gains no contradiction by one fact. *)
Lemma outcome_view g fact s accepted s' :
  fact_typed fact -> deobf_outcome g fact s accepted s' -> no_new_contradiction g s s'.
Proof.
  intros Ht [m s1 _ Heq|x p s1 _ Heq _ _ _|x s1 Ha Heq Hview] a b Hasa Hasb Hc.
  1, 2: unfold asserts, in_view in *; by rewrite Heq in Hasa, Hasb.
  destruct (accept_ok _ _ Ht Ha) as (_ & _ & Hv & _). pose proof (validate_fact_parts _ Hv) as [Hvp _].
  assert (forall p, asserts g s1 p -> asserts g s p \/
            p = af_payload x /\ observation_in_view (af_evidence x) g = true) as Hsplit.
  { intros p (f & [Hf Hvf] & Hp). apply Heq in Hf as [-> |Hf]; [right; by rewrite Hp|].
    left. by exists f. }
  destruct (Hsplit _ Hasa) as [Ha1|[-> Hvx]], (Hsplit _ Hasb) as [Hb1|[-> Hvx']]; [done| | |].
  - destruct (Hview Hvx') as [Hx|Hno]; [done|]. by destruct (Hno _ Ha1).
  - destruct (Hview Hvx) as [Hx|Hno]; [done|]. destruct (Hno _ Hb1). by apply clash_sym.
  - by destruct (clash_irrefl _ Hvp Hc).
Qed.

(** A fact is in the store after the run, or it clashes with what the view asserts. *)
Definition settled (g : Z) (s : EvidenceStore) (x : AnalysisFact) : Prop :=
  x ∈ flattened_facts s \/
  observation_in_view (af_evidence x) g = true /\ exists p, asserts g s p /\ clash p (af_payload x).

Lemma settled_mono g s s' x :
  (forall y, y ∈ flattened_facts s -> y ∈ flattened_facts s') -> settled g s x -> settled g s' x.
Proof.
  intros H [Hx|(Hv & p & Hp & Hc)]; [left; by apply H|]. right. split; [done|].
  exists p. split; [|done]. by eapply asserts_mono.
Qed.

Lemma outcome_settled g fact s accepted s' x :
  deobf_outcome g fact s accepted s' -> accept fact = Ok x -> settled g s' x.
Proof.
  intros [m s1 Ha _|y p s1 Ha Heq Hv Hp Hc|y s1 Ha Heq _]; rewrite Ha; intros [= <-].
  - right. split; [done|]. exists p. split; [|done]. unfold asserts, in_view in *. by rewrite Heq.
  - left. apply Heq. by left.
Qed.

Lemma outcome_sound g fact s accepted s' y :
  deobf_outcome g fact s accepted s' -> y ∈ flattened_facts s' ->
  y ∈ flattened_facts s \/ accept fact = Ok y.
Proof.
  intros [m s1 _ Heq|x p s1 _ Heq _ _ _|x s1 Ha Heq _] Hy; [rewrite Heq in Hy; by left..|].
  apply Heq in Hy as [-> |Hy]; [by right|by left].
Qed.

(** What a list of facts does to the store. *)
Lemma emit_facts_spec facts sink :
  let g := ds_active_generation sink in
  let s := ds_store sink in
  let s' := ds_store (emit_deobf_facts facts sink) in
  store_wf s -> Forall fact_typed facts ->
  store_wf s' /\ no_new_contradiction g s s' /\
  (forall x, x ∈ flattened_facts s -> x ∈ flattened_facts s') /\
  (forall x, x ∈ flattened_facts s' ->
     x ∈ flattened_facts s \/ exists fact, fact ∈ facts /\ accept fact = Ok x) /\
  forall fact x, fact ∈ facts -> accept fact = Ok x -> settled g s' x.
Proof.
  cbn zeta. intros Hwf Ht. revert sink Hwf. induction Ht as [|fact facts Hf Ht IH]; intros sink Hwf.
  { split_and!; [done|by intros p q|done|by left|by intros ? ? ?%elem_of_nil]. }
  pose proof (emit_outcome fact sink Hwf Hf) as Hstep. cbn [emit_deobf_facts foldl].
  destruct (emit_deobf_fact fact sink) as [accepted sink1]. cbn [snd].
  destruct Hstep as (Hwf1 & Hg & Hout). destruct (IH sink1 Hwf1) as (Hwf' & Hno & Hmono & Hsound & Hall).
  unfold emit_deobf_facts in *. rewrite Hg in *. split_and!.
  - done.
  - eapply no_new_contradiction_trans; [by eapply outcome_view|done].
  - intros x Hx. by eapply Hmono, outcome_mono.
  - intros x [Hx|(y & Hy & Ha)]%Hsound.
    + apply (outcome_sound _ _ _ _ _ _ Hout) in Hx as [Hx|Hx]; [by left|right; exists fact; set_solver].
    + right. exists y. set_solver.
  - intros y x [-> |Hy]%elem_of_cons Ha; [|by eapply Hall].
    eapply settled_mono; [exact Hmono|by eapply outcome_settled].
Qed.

(** A valid fact is never counted as invalid. *)
Lemma emit_valid_not_rejected fact sink x :
  store_wf (ds_store sink) -> fact_typed fact -> accept fact = Ok x ->
  dr_rejected_invalid (ds_report (emit_deobf_fact fact sink).2) = dr_rejected_invalid (ds_report sink).
Proof.
  intros Hwf Ht Ha. unfold accept in Ha. inv_ok Ha. injection Ha as ->.
  pose proof (normalize_fact_ok _ _ Hm) as (Hp & He & Hv & Hnx).
  assert (fact_typed x) as Htx.
  { apply normalize_payload_ok in Hp as (Hpe & _). apply normalize_evidence_ok in He as (Hee & _).
    destruct Ht. split; [rewrite Hpe; by apply normalize_payload_typed|rewrite Hee; by apply normalize_evidence_typed]. }
  assert (accept x = Ok x) as Hax by (unfold accept; rewrite Hnx; cbn [result_bind]; by rewrite Hm0).
  assert (forall s1, store_wf s1 -> ar_disposition (add x s1).1 <> AddDisposition_RejectedInvalid) as Hadd.
  { intros s1 Hs1 Hd. pose proof (add_disposition s1 x Hs1 Htx) as H. destruct (add x s1) as [r s2].
    cbn [fst] in Hd. rewrite Hd in H. destruct H as [_ H]. congruence. }
  unfold emit_deobf_fact. rewrite Hm.
  pose proof (new_contradiction_store (ds_store sink) (af_payload x) (ds_active_generation sink) Hwf) as [Hwf1 _].
  destruct (if observation_in_view _ _ then _ else _) as [conflict s1] eqn:Eq.
  assert (store_wf s1) as Hs1.
  { destruct (observation_in_view _ _); [|by injection Eq as _ <-].
    destruct (new_contradiction _ _ _) as [[c st] s2]. by injection Eq as _ <-. }
  destruct conflict as [c|]; [cbn; lia|]. specialize (Hadd s1 Hs1). destruct (add x s1) as [added s2].
  cbn [fst] in Hadd. destruct (ar_disposition added); [cbn; lia..|done].
Qed.

(** A scan into the view of the active generation.  Whatever the producers emit, the store
    stays well formed and keeps its facts, what it gains are accepted facts of the scan,
    and the view holds no contradiction that it did not hold before the scan: two clashing
    payloads of the final view were both asserted at the start.  And no fact is refused
    without a reason: every valid fact is in the store at the end, or it is of the view and
    clashes with a payload of the final view. *)
Theorem deobf_scan_consistent facts sink :
  let g := ds_active_generation sink in
  let s := ds_store sink in
  let s' := ds_store (emit_deobf_facts facts sink) in
  store_wf s -> Forall fact_typed facts ->
  store_wf s' /\ no_new_contradiction g s s' /\
  (forall x, x ∈ flattened_facts s -> x ∈ flattened_facts s') /\
  (forall x, x ∈ flattened_facts s' ->
     x ∈ flattened_facts s \/ exists fact, fact ∈ facts /\ accept fact = Ok x) /\
  forall fact x, fact ∈ facts -> accept fact = Ok x -> settled g s' x.
Proof. exact (emit_facts_spec facts sink). Qed.

(** The same region as data: a contradiction of [region_fact]. *)
Definition data_region_fact : AnalysisFact := {|
  af_payload := P_CodeRegion {| cr_start := 4100; cr_end := 4108; cr_kind := CodeRegionKind_Data |};
  af_evidence := static_evidence |}.

Lemma data_region_fact_typed : fact_typed data_region_fact.
Proof. split; simpl; unfold is_u16, is_u64; split_and!; repeat constructor; simpl; unfold is_u64; lia. Qed.

Lemma deobf_scan_consistent_witness :
  let sink := new_deobf_sink empty_store in
  let sink' := emit_deobf_facts [region_fact; data_region_fact; region_fact] sink in
  dr_contradictions_suppressed (ds_report sink') = 1 /\ record_count (ds_store sink') = 1 /\
  (forall x, accept data_region_fact = Ok x -> settled 0 (ds_store sink') x).
Proof.
  split; [vm_compute; reflexivity|]. split; [vm_compute; reflexivity|]. intros x Hx.
  refine (proj2 (proj2 (proj2 (proj2
    (deobf_scan_consistent [region_fact; data_region_fact; region_fact] (new_deobf_sink empty_store) _ _))))
    data_region_fact x _ Hx).
  - exact empty_store_wf.
  - apply Forall_cons_2; [exact region_fact_typed|]. apply Forall_cons_2; [exact data_region_fact_typed|].
    apply Forall_cons_2; [exact region_fact_typed|apply Forall_nil_2].
  - right. left.
Defined.
