(* ===== verification/DeobfLowering.v ===== *)
(** * Instructions for the classifiers (deobf_analysis.cpp)

    The deobfuscation analysis translates the instructions of the disassembler to the form
    that the classifiers read (Deobf.v).  [DeobfIda] adds to [Ida] the questions that only
    this analysis asks.  [branch_target] and [has_alternate_predecessor] are the same text in
    native_analysis.cpp and are taken from NativeDatabase.v. *)
From stdpp Require Import base numbers list strings option sets.
From Stdlib Require Import ZArith Init.Byte Lia.
From S2P Require Import Prelude OrderedMap NativeTypes NativeDatabase Deobf.

#[local] Open Scope viy_scope.

(** ** The questions *)

Inductive Architecture : Type := Arch_Unsupported | Arch_X86 | Arch_Arm32 | Arch_Arm64.

#[export] Instance Architecture_eq_dec : EqDecision Architecture.
Proof. solve_decision. Defined.

#[export] Instance segment_t_eq_dec : EqDecision segment_t.
Proof. solve_decision. Defined.

(** A block of a flow chart; successors and predecessors are indices of blocks. *)
Record qbasic_block_t : Type := {
  qb_start_ea : Z;
  qb_end_ea : Z;
  qb_succ : list Z;
  qb_pred : list Z
}.

(** [get_bytes size ea] are the bytes that are read.  Segments are what [getseg] points to;
    two pointers are equal when the segments are. *)
Class DeobfIda `{Ida} : Type := {
  inf_get_app_bitness : Z;
  inf_is_be : bool;
  get_bytes : Z -> Z -> bytes;
  x86_base_reg : insn_t -> op_t -> Z;
  x86_index_reg : insn_t -> op_t -> Z;
  R_none : Z;
  R_sp : Z;
  has_name : Z -> bool;
  fn_end_ea : func_t -> Z;
  fn_flags : func_t -> Z;
  does_return : func_t -> bool;
  FUNC_LIB : Z;
  FUNC_THUNK : Z;
  FUNC_HIDDEN : Z;
  FUNC_OUTLINE : Z;
  flow_chart : list (Z * Z) -> list qbasic_block_t
}.

(** ** Setting fields *)

Definition set_kind (kind : InstructionKind) (o : Instruction) : Instruction := {|
  in_address := in_address o; in_size := in_size o; in_kind := kind;
  in_destination_register := in_destination_register o;
  in_source_register := in_source_register o; in_destination_name := in_destination_name o;
  in_source_name := in_source_name o; in_value_width := in_value_width o;
  in_immediate := in_immediate o; in_target := in_target o;
  in_memory_address := in_memory_address o; in_condition := in_condition o;
  in_flag_effect := in_flag_effect o;
  in_register_is_left_operand := in_register_is_left_operand o;
  in_alternate_predecessor := in_alternate_predecessor o;
  in_writes_global_memory := in_writes_global_memory o; in_plumbing := in_plumbing o |}.

Definition set_target (target : Z) (o : Instruction) : Instruction := {|
  in_address := in_address o; in_size := in_size o; in_kind := in_kind o;
  in_destination_register := in_destination_register o;
  in_source_register := in_source_register o; in_destination_name := in_destination_name o;
  in_source_name := in_source_name o; in_value_width := in_value_width o;
  in_immediate := in_immediate o; in_target := target; in_memory_address := in_memory_address o;
  in_condition := in_condition o; in_flag_effect := in_flag_effect o;
  in_register_is_left_operand := in_register_is_left_operand o;
  in_alternate_predecessor := in_alternate_predecessor o;
  in_writes_global_memory := in_writes_global_memory o; in_plumbing := in_plumbing o |}.

Definition set_condition (condition : X86Condition) (o : Instruction) : Instruction := {|
  in_address := in_address o; in_size := in_size o; in_kind := in_kind o;
  in_destination_register := in_destination_register o;
  in_source_register := in_source_register o; in_destination_name := in_destination_name o;
  in_source_name := in_source_name o; in_value_width := in_value_width o;
  in_immediate := in_immediate o; in_target := in_target o;
  in_memory_address := in_memory_address o; in_condition := condition;
  in_flag_effect := in_flag_effect o;
  in_register_is_left_operand := in_register_is_left_operand o;
  in_alternate_predecessor := in_alternate_predecessor o;
  in_writes_global_memory := in_writes_global_memory o; in_plumbing := in_plumbing o |}.

Definition set_flag_effect (effect : FlagEffect) (o : Instruction) : Instruction := {|
  in_address := in_address o; in_size := in_size o; in_kind := in_kind o;
  in_destination_register := in_destination_register o;
  in_source_register := in_source_register o; in_destination_name := in_destination_name o;
  in_source_name := in_source_name o; in_value_width := in_value_width o;
  in_immediate := in_immediate o; in_target := in_target o;
  in_memory_address := in_memory_address o; in_condition := in_condition o;
  in_flag_effect := effect; in_register_is_left_operand := in_register_is_left_operand o;
  in_alternate_predecessor := in_alternate_predecessor o;
  in_writes_global_memory := in_writes_global_memory o; in_plumbing := in_plumbing o |}.

Definition set_plumbing (o : Instruction) : Instruction := {|
  in_address := in_address o; in_size := in_size o; in_kind := in_kind o;
  in_destination_register := in_destination_register o;
  in_source_register := in_source_register o; in_destination_name := in_destination_name o;
  in_source_name := in_source_name o; in_value_width := in_value_width o;
  in_immediate := in_immediate o; in_target := in_target o;
  in_memory_address := in_memory_address o; in_condition := in_condition o;
  in_flag_effect := in_flag_effect o;
  in_register_is_left_operand := in_register_is_left_operand o;
  in_alternate_predecessor := in_alternate_predecessor o;
  in_writes_global_memory := in_writes_global_memory o; in_plumbing := true |}.

Definition set_immediate (value : Z) (o : Instruction) : Instruction := {|
  in_address := in_address o; in_size := in_size o; in_kind := in_kind o;
  in_destination_register := in_destination_register o;
  in_source_register := in_source_register o; in_destination_name := in_destination_name o;
  in_source_name := in_source_name o; in_value_width := in_value_width o; in_immediate := value;
  in_target := in_target o; in_memory_address := in_memory_address o;
  in_condition := in_condition o; in_flag_effect := in_flag_effect o;
  in_register_is_left_operand := in_register_is_left_operand o;
  in_alternate_predecessor := in_alternate_predecessor o;
  in_writes_global_memory := in_writes_global_memory o; in_plumbing := in_plumbing o |}.

Definition set_width (width : Z) (o : Instruction) : Instruction := {|
  in_address := in_address o; in_size := in_size o; in_kind := in_kind o;
  in_destination_register := in_destination_register o;
  in_source_register := in_source_register o; in_destination_name := in_destination_name o;
  in_source_name := in_source_name o; in_value_width := width; in_immediate := in_immediate o;
  in_target := in_target o; in_memory_address := in_memory_address o;
  in_condition := in_condition o; in_flag_effect := in_flag_effect o;
  in_register_is_left_operand := in_register_is_left_operand o;
  in_alternate_predecessor := in_alternate_predecessor o;
  in_writes_global_memory := in_writes_global_memory o; in_plumbing := in_plumbing o |}.

Definition set_memory_address (address : Z) (o : Instruction) : Instruction := {|
  in_address := in_address o; in_size := in_size o; in_kind := in_kind o;
  in_destination_register := in_destination_register o;
  in_source_register := in_source_register o; in_destination_name := in_destination_name o;
  in_source_name := in_source_name o; in_value_width := in_value_width o;
  in_immediate := in_immediate o; in_target := in_target o; in_memory_address := address;
  in_condition := in_condition o; in_flag_effect := in_flag_effect o;
  in_register_is_left_operand := in_register_is_left_operand o;
  in_alternate_predecessor := in_alternate_predecessor o;
  in_writes_global_memory := in_writes_global_memory o; in_plumbing := in_plumbing o |}.

Definition set_right_operand (o : Instruction) : Instruction := {|
  in_address := in_address o; in_size := in_size o; in_kind := in_kind o;
  in_destination_register := in_destination_register o;
  in_source_register := in_source_register o; in_destination_name := in_destination_name o;
  in_source_name := in_source_name o; in_value_width := in_value_width o;
  in_immediate := in_immediate o; in_target := in_target o;
  in_memory_address := in_memory_address o; in_condition := in_condition o;
  in_flag_effect := in_flag_effect o; in_register_is_left_operand := false;
  in_alternate_predecessor := in_alternate_predecessor o;
  in_writes_global_memory := in_writes_global_memory o; in_plumbing := in_plumbing o |}.

Definition set_alternate (alternate : bool) (o : Instruction) : Instruction := {|
  in_address := in_address o; in_size := in_size o; in_kind := in_kind o;
  in_destination_register := in_destination_register o;
  in_source_register := in_source_register o; in_destination_name := in_destination_name o;
  in_source_name := in_source_name o; in_value_width := in_value_width o;
  in_immediate := in_immediate o; in_target := in_target o;
  in_memory_address := in_memory_address o; in_condition := in_condition o;
  in_flag_effect := in_flag_effect o;
  in_register_is_left_operand := in_register_is_left_operand o;
  in_alternate_predecessor := alternate; in_writes_global_memory := in_writes_global_memory o;
  in_plumbing := in_plumbing o |}.

Definition name_destination (reg width : Z) (name : string) (o : Instruction) : Instruction := {|
  in_address := in_address o; in_size := in_size o; in_kind := in_kind o;
  in_destination_register := reg; in_source_register := in_source_register o;
  in_destination_name := name; in_source_name := in_source_name o; in_value_width := width;
  in_immediate := in_immediate o; in_target := in_target o;
  in_memory_address := in_memory_address o; in_condition := in_condition o;
  in_flag_effect := in_flag_effect o;
  in_register_is_left_operand := in_register_is_left_operand o;
  in_alternate_predecessor := in_alternate_predecessor o;
  in_writes_global_memory := in_writes_global_memory o; in_plumbing := in_plumbing o |}.

Definition name_source (reg width : Z) (name : string) (o : Instruction) : Instruction := {|
  in_address := in_address o; in_size := in_size o; in_kind := in_kind o;
  in_destination_register := in_destination_register o; in_source_register := reg;
  in_destination_name := in_destination_name o; in_source_name := name; in_value_width := width;
  in_immediate := in_immediate o; in_target := in_target o;
  in_memory_address := in_memory_address o; in_condition := in_condition o;
  in_flag_effect := in_flag_effect o;
  in_register_is_left_operand := in_register_is_left_operand o;
  in_alternate_predecessor := in_alternate_predecessor o;
  in_writes_global_memory := in_writes_global_memory o; in_plumbing := in_plumbing o |}.

Definition set_source_register (reg : Z) (o : Instruction) : Instruction := {|
  in_address := in_address o; in_size := in_size o; in_kind := in_kind o;
  in_destination_register := in_destination_register o; in_source_register := reg;
  in_destination_name := in_destination_name o; in_source_name := in_source_name o;
  in_value_width := in_value_width o; in_immediate := in_immediate o; in_target := in_target o;
  in_memory_address := in_memory_address o; in_condition := in_condition o;
  in_flag_effect := in_flag_effect o;
  in_register_is_left_operand := in_register_is_left_operand o;
  in_alternate_predecessor := in_alternate_predecessor o;
  in_writes_global_memory := in_writes_global_memory o; in_plumbing := in_plumbing o |}.

Definition preserve_flags : Instruction -> Instruction := set_flag_effect Flags_Preserve.

Definition Op3 (insn : insn_t) : op_t := nth 2 (insn_ops insn) void_op.

Definition is_op (type : OpType) (op : op_t) : bool := bool_decide (op_type op = type).

Section Lowering.
Context `{DeobfIda}.

(** ** Operands *)

Definition detect_architecture : Architecture :=
  if ph_id =? PLFM_386 then Arch_X86
  else if ph_id =? PLFM_ARM then (if inf_is_64bit then Arch_Arm64 else Arch_Arm32)
  else Arch_Unsupported.

Definition address_width : Z :=
  let width := inf_get_app_bitness / 8 in if (1 <=? width) && (width <=? 8) then width else 8.

Definition operand_width (op : op_t) : Z :=
  let width := get_dtype_size (op_dtype op) in
  if (width =? 0) || (width =? u64_max) || (8 <? width) then address_width else width.

Definition register_name (reg width : Z) : string :=
  if (reg <? 0) || (width =? 0) then EmptyString
  else
    match get_reg_name reg width with
    | None => EmptyString
    | Some name => map_string tolower name
    end.

Definition operand_register_name (op : op_t) : string :=
  if is_op o_reg op then register_name (op_reg op) (operand_width op) else EmptyString.

Definition stack_register_name (name : string) : bool :=
  String.eqb name "sp" || String.eqb name "esp" || String.eqb name "rsp".

Definition stack_register_operand (op : op_t) : bool :=
  is_op o_reg op && stack_register_name (operand_register_name op).

Definition x86_base_only_operand (insn : insn_t) (op : op_t) (base : Z) : bool :=
  if negb (is_op o_phrase op) && negb (is_op o_displ op) then false
  else if is_op o_displ op && negb (op_addr op =? 0) then false
  else (x86_base_reg insn op =? base) && (x86_index_reg insn op =? R_none).

Definition stack_top_memory_operand (insn : insn_t) (op : op_t) : bool :=
  x86_base_only_operand insn op R_sp.

(** The bytes as a number, the most or the least significant first. *)
Definition big_endian (bytes : bytes) : Z := foldl (fun value b => Z.lor (Z.shiftl value 8) (b2z b)) 0 bytes.

Fixpoint little_endian (bytes : bytes) : Z :=
  match bytes with [] => 0 | b :: bytes => Z.lor (b2z b) (Z.shiftl (little_endian bytes) 8) end.

Definition read_only_scalar (address width : Z) : option Z :=
  if (address =? BADADDR) || (width =? 0) || (8 <? width) || (BADADDR - width <? address) then None
  else
    match getseg address with
    | None => None
    | Some segment =>
        if has_perm segment SEGPERM_WRITE then None
        else if negb (forallb (fun i => is_mapped (address + i) && is_loaded (address + i)) (seqZ 0 width)) then None
        else
          let bytes := get_bytes width address in
          if negb (zlen bytes =? width) then None
          else Some (if inf_is_be then big_endian bytes else little_endian bytes)
    end.

Definition sign_extend_to_width (value source_width destination_width : Z) : Z :=
  if (source_width =? 0) || (destination_width <=? source_width) || (8 <=? source_width) ||
     (8 <? destination_width) then value
  else
    let source_bits := source_width * 8 in
    let source_mask := Z.shiftl 1 source_bits - 1 in
    let value := Z.land value source_mask in
    let value :=
      if negb (Z.land value (Z.shiftl 1 (source_bits - 1)) =? 0)
      then Z.lor value (u64_max - source_mask) else value in
    if destination_width <? 8 then Z.land value (Z.shiftl 1 (destination_width * 8) - 1) else value.

Definition x86_extended_immediate (immediate : op_t) (result_width : Z) : Z :=
  sign_extend_to_width (op_value immediate) (operand_width immediate) result_width.

(** ** Targets *)

Definition mapped_executable (address : Z) : bool :=
  if (address =? BADADDR) || negb (is_mapped address) || negb (is_loaded address) then false
  else
    match getseg address with
    | None => false
    | Some segment => has_perm segment SEGPERM_EXEC || is_code address
    end.

Definition architecture_aligned (arch : Architecture) (address : Z) : bool :=
  match arch with
  | Arch_Arm64 => Z.land address 3 =? 0
  | Arch_Arm32 => Z.land address 1 =? 0
  | _ => true
  end.

Definition usable_target (arch : Architecture) (address : Z) : bool :=
  if BADADDR <? address then false
  else architecture_aligned arch address && mapped_executable address.

(** ** Conditions *)

Definition x86_condition_of (i : X86Itype) : X86Condition :=
  match i with
  | NN_jo => Cond_Overflow
  | NN_jno => Cond_NotOverflow
  | NN_jb | NN_jc | NN_jnae => Cond_Carry
  | NN_jnb | NN_jnc | NN_jae => Cond_NotCarry
  | NN_jz | NN_je => Cond_Zero
  | NN_jnz | NN_jne => Cond_NotZero
  | NN_jbe | NN_jna => Cond_BelowOrEqual
  | NN_ja | NN_jnbe => Cond_Above
  | NN_js => Cond_Sign
  | NN_jns => Cond_NotSign
  | NN_jp | NN_jpe => Cond_Parity
  | NN_jnp | NN_jpo => Cond_NotParity
  | NN_jl | NN_jnge => Cond_Less
  | NN_jnl | NN_jge => Cond_GreaterOrEqual
  | NN_jle | NN_jng => Cond_LessOrEqual
  | NN_jnle | NN_jg => Cond_Greater
  | _ => Cond_Unknown
  end.

Definition x86_condition (itype : Z) : X86Condition :=
  match x86_itype itype with Some i => x86_condition_of i | None => Cond_Unknown end.

Definition arm_condition (encoded : Z) : X86Condition :=
  match Z.land encoded 0x0f with
  | 0 => Cond_Zero
  | 1 => Cond_NotZero
  | 2 => Cond_NotCarry
  | 3 => Cond_Carry
  | 4 => Cond_Sign
  | 5 => Cond_NotSign
  | 6 => Cond_Overflow
  | 7 => Cond_NotOverflow
  | 8 => Cond_Above
  | 9 => Cond_BelowOrEqual
  | 10 => Cond_GreaterOrEqual
  | 11 => Cond_Less
  | 12 => Cond_Greater
  | 13 => Cond_LessOrEqual
  | _ => Cond_Unknown
  end.

Definition x86_preserves_flags (itype : Z) : bool :=
  if x86_condition itype != Cond_Unknown then true
  else
    match x86_itype itype with
    | Some (NN_mov | NN_movsx | NN_movzx | NN_movsxd | NN_lea | NN_nop | NN_push | NN_pop | NN_pusha |
            NN_popa | NN_pushf | NN_pushfd | NN_pushfq | NN_xchg | NN_bswap | NN_call | NN_jmp |
            NN_jmpni | NN_jmpfi | NN_retn | NN_retf | NN_jcxz | NN_jecxz | NN_jrcxz) => true
    | _ => false
    end.

(** ** Registers of an instruction *)

(** Operand [i] is changed. *)
Definition changes (feature i : Z) : bool := negb (Z.land feature (Z.shiftl CF_CHG1 i) =? 0).

Fixpoint first_changed (feature i : Z) (ops : list op_t) : Z :=
  match ops with
  | [] => kNoRegister
  | op :: ops =>
      if is_op o_void op then kNoRegister
      else if is_op o_reg op && changes feature i then op_reg op
      else first_changed feature (i + 1) ops
  end.

Definition first_changed_register (insn : insn_t) : Z :=
  first_changed (get_canon_feature insn) 0 (insn_ops insn).

Definition set_destination (op : op_t) (out : Instruction) : Instruction :=
  if negb (is_op o_reg op) then out
  else name_destination (op_reg op) (operand_width op) (register_name (op_reg op) (operand_width op)) out.

Definition set_source (op : op_t) (out : Instruction) : Instruction :=
  if negb (is_op o_reg op) then out
  else
    name_source (op_reg op)
      (if in_value_width out =? 0 then operand_width op else in_value_width out)
      (register_name (op_reg op) (operand_width op)) out.

Fixpoint changes_memory (feature i : Z) (ops : list op_t) : bool :=
  match ops with
  | [] => false
  | op :: ops =>
      if is_op o_void op then false
      else (is_op o_mem op && changes feature i) || changes_memory feature (i + 1) ops
  end.

Definition writes_global_memory (insn : insn_t) : bool :=
  changes_memory (get_canon_feature insn) 0 (insn_ops insn).

(** ** Translation *)

(** What both translations begin with. *)
Definition begin_instruction (insn : insn_t) (effect : FlagEffect) : Instruction := {|
  in_address := insn_ea insn; in_size := insn_size insn; in_kind := Kind_Other;
  in_destination_register := kNoRegister; in_source_register := kNoRegister;
  in_destination_name := EmptyString; in_source_name := EmptyString; in_value_width := 0;
  in_immediate := 0; in_target := kBadAddress; in_memory_address := kBadAddress;
  in_condition := Cond_Unknown; in_flag_effect := effect; in_register_is_left_operand := true;
  in_alternate_predecessor := false; in_writes_global_memory := writes_global_memory insn;
  in_plumbing := false |}.

(** A transfer of control, indirect when no operand is a target. *)
Definition transfer (indirect direct : InstructionKind) (insn : insn_t) (out : Instruction) : Instruction :=
  let target := branch_target insn in
  preserve_flags (set_source (Op1 insn)
    (set_target target (set_kind (if target =? BADADDR then indirect else direct) out))).

Definition indirect_transfer (kind : InstructionKind) (insn : insn_t) (out : Instruction) : Instruction :=
  preserve_flags (set_source (Op1 insn) (set_kind kind out)).

(** A branch on a condition that the classifiers do not know. *)
Definition other_branch (insn : insn_t) (out : Instruction) : Instruction :=
  preserve_flags (set_condition Cond_Unknown
    (set_target (branch_target insn) (set_kind Kind_ConditionalBranch out))).

Definition branches_elsewhere (insn : insn_t) : bool :=
  is_basic_block_end insn && negb (branch_target insn =? BADADDR).

(** Behind the [switch]: the first register that the instruction changes. *)
Definition any_destination (insn : insn_t) (out : Instruction) : Instruction :=
  let changed := first_changed_register insn in
  if 0 <=? changed then
    name_destination changed (operand_width (Op1 insn)) (register_name changed (operand_width (Op1 insn))) out
  else out.

Definition x86_arithmetic_kind (i : X86Itype) : InstructionKind :=
  match i with
  | NN_add => Kind_AddImmediate
  | NN_sub => Kind_SubImmediate
  | NN_xor => Kind_XorImmediate
  | NN_and => Kind_AndImmediate
  | NN_or => Kind_OrImmediate
  | _ => Kind_ShiftLeftImmediate
  end.

Definition is_shift (i : X86Itype) : bool := match i with NN_shl | NN_sal => true | _ => false end.
Definition is_self_clearing (i : X86Itype) : bool := match i with NN_xor | NN_sub => true | _ => false end.

(** [return out] and [break]. *)
Notation returns out := (true, out).
Notation breaks out := (false, out).

Definition x86_arithmetic (i : X86Itype) (insn : insn_t) (out : Instruction) : bool * Instruction :=
  if is_op o_reg (Op1 insn) && is_op o_imm (Op2 insn) then
    let out := set_source_register (op_reg (Op1 insn)) (set_destination (Op1 insn) out) in
    returns (set_kind (x86_arithmetic_kind i)
      (set_immediate (if is_shift i then op_value (Op2 insn)
                      else x86_extended_immediate (Op2 insn) (in_value_width out)) out))
  else if is_self_clearing i && is_op o_reg (Op1 insn) && is_op o_reg (Op2 insn) &&
          (op_reg (Op1 insn) =? op_reg (Op2 insn))
  then returns (set_immediate 0 (set_kind Kind_LoadImmediate (set_destination (Op1 insn) out)))
  else breaks out.

Definition x86_add (insn : insn_t) (out : Instruction) : bool * Instruction :=
  if stack_top_memory_operand insn (Op1 insn) && is_op o_imm (Op2 insn) then
    let width := operand_width (Op1 insn) in
    returns (set_immediate (x86_extended_immediate (Op2 insn) width)
      (set_width width (set_kind Kind_AddStackTopImmediate out)))
  else if stack_register_operand (Op1 insn) && is_op o_imm (Op2 insn) then
    let width := operand_width (Op1 insn) in
    returns (set_plumbing (set_immediate (x86_extended_immediate (Op2 insn) width)
      (set_width width (set_kind Kind_AdjustStackPointerImmediate out))))
  else x86_arithmetic NN_add insn out.

Definition x86_push (insn : insn_t) (out : Instruction) : Instruction :=
  let out := set_plumbing (preserve_flags out) in
  if is_op o_reg (Op1 insn) then set_source (Op1 insn) (set_kind Kind_PushRegister out)
  else if is_op o_imm (Op1 insn) then
    let width := (inf_get_app_bitness / 8) mod 256 in
    set_immediate (sign_extend_to_width (op_value (Op1 insn)) (operand_width (Op1 insn)) width)
      (set_width width (set_kind Kind_PushImmediate out))
  else out.

Definition x86_mov (insn : insn_t) (out : Instruction) : bool * Instruction :=
  let out := set_plumbing (preserve_flags (set_destination (Op1 insn) out)) in
  if negb (is_op o_reg (Op1 insn)) then breaks out
  else if is_op o_imm (Op2 insn) then
    returns (set_immediate (x86_extended_immediate (Op2 insn) (in_value_width out))
      (set_kind Kind_LoadImmediate out))
  else if is_op o_reg (Op2 insn) then returns (set_source (Op2 insn) (set_kind Kind_CopyRegister out))
  else if stack_top_memory_operand insn (Op2 insn) then returns (set_kind Kind_ReadStackTop out)
  else if is_op o_mem (Op2 insn) then
    match read_only_scalar (op_addr (Op2 insn)) (in_value_width out) with
    | Some value =>
        returns (set_immediate value (set_memory_address (op_addr (Op2 insn))
          (set_kind Kind_LoadReadOnlyConstant out)))
    | None => returns out
    end
  else returns out.

Definition x86_lea (insn : insn_t) (out : Instruction) : Instruction :=
  let out := set_plumbing (preserve_flags (set_destination (Op1 insn) out)) in
  if is_op o_reg (Op1 insn) && is_op o_displ (Op2 insn) &&
     x86_base_only_operand insn (Op2 insn) (op_reg (Op1 insn))
  then set_immediate (op_addr (Op2 insn))
         (set_source_register (op_reg (Op1 insn)) (set_kind Kind_AddImmediate out))
  else if is_op o_reg (Op1 insn) && is_op o_mem (Op2 insn)
  then set_immediate (op_addr (Op2 insn)) (set_kind Kind_LoadAddress out)
  else out.

(** A comparison of the register operand [reg] with the immediate operand [imm]. *)
Definition x86_compare (kind : InstructionKind) (effect : FlagEffect) (reg imm : op_t) (out : Instruction) :
    Instruction :=
  let out := set_destination reg (set_kind kind out) in
  set_flag_effect effect (set_immediate (x86_extended_immediate imm (in_value_width out)) out).

Definition x86_cmp (insn : insn_t) (out : Instruction) : bool * Instruction :=
  if is_op o_reg (Op1 insn) && is_op o_imm (Op2 insn) then
    returns (x86_compare Kind_CompareImmediate Flags_KnownCompare (Op1 insn) (Op2 insn) out)
  else if is_op o_imm (Op1 insn) && is_op o_reg (Op2 insn) then
    returns (set_right_operand
      (x86_compare Kind_CompareImmediate Flags_KnownCompare (Op2 insn) (Op1 insn) out))
  else breaks out.

Definition x86_test (insn : insn_t) (out : Instruction) : bool * Instruction :=
  if is_op o_reg (Op1 insn) && is_op o_imm (Op2 insn) then
    returns (x86_compare Kind_TestImmediate Flags_KnownTest (Op1 insn) (Op2 insn) out)
  else breaks out.

(** The [switch] over the data instructions. *)
Definition x86_data (insn : insn_t) (out : Instruction) : bool * Instruction :=
  match x86_itype (insn_itype insn) with
  | Some NN_nop => returns (set_plumbing (set_kind Kind_Nop out))
  | Some NN_push => returns (x86_push insn out)
  | Some NN_pop =>
      returns (set_plumbing (preserve_flags (set_destination (Op1 insn) (set_kind Kind_PopRegister out))))
  | Some NN_mov => x86_mov insn out
  | Some NN_lea => returns (x86_lea insn out)
  | Some NN_inc => returns (set_immediate 1 (set_kind Kind_AddImmediate (set_destination (Op1 insn) out)))
  | Some NN_dec => returns (set_immediate 1 (set_kind Kind_SubImmediate (set_destination (Op1 insn) out)))
  | Some NN_add => x86_add insn out
  | Some ((NN_sub | NN_xor | NN_and | NN_or | NN_shl | NN_sal) as i) => x86_arithmetic i insn out
  | Some NN_cmp => x86_cmp insn out
  | Some NN_test => x86_test insn out
  | _ => breaks out
  end.

Definition is_x86_jump (itype : Z) : bool :=
  match x86_itype itype with Some (NN_jmp | NN_jmpni | NN_jmpfi) => true | _ => false end.

Definition translate_x86 (insn : insn_t) : Instruction :=
  let out := begin_instruction insn
    (if x86_preserves_flags (insn_itype insn) then Flags_Preserve else Flags_UnknownWrite) in
  let condition := x86_condition (insn_itype insn) in
  if condition != Cond_Unknown then
    set_target (branch_target insn) (set_condition condition (set_kind Kind_ConditionalBranch out))
  else if is_call_insn insn then transfer Kind_IndirectCall Kind_DirectCall insn out
  else if is_ret_insn insn then preserve_flags (set_kind Kind_Return out)
  else if is_x86_jump (insn_itype insn) then transfer Kind_IndirectJump Kind_DirectJump insn out
  else if is_indirect_jump_insn insn then indirect_transfer Kind_IndirectJump insn out
  else if branches_elsewhere insn then other_branch insn out
  else
    let '(returned, out) := x86_data insn out in
    if returned then out else any_destination insn out.

Definition arm_itype (itype : Z) : option ArmItype := List.find (fun i => arm i =? itype) all_arm_itypes.

Definition arm_mov (insn : insn_t) (out : Instruction) : Instruction :=
  let out := set_plumbing (preserve_flags (set_destination (Op1 insn) out)) in
  if is_op o_reg (Op1 insn) && is_op o_imm (Op2 insn)
  then set_immediate (op_value (Op2 insn)) (set_kind Kind_LoadImmediate out)
  else if is_op o_reg (Op1 insn) && is_op o_reg (Op2 insn)
  then set_source (Op2 insn) (set_kind Kind_CopyRegister out)
  else out.

Definition arm_movt (insn : insn_t) (out : Instruction) : Instruction :=
  if is_op o_reg (Op1 insn) && is_op o_imm (Op2 insn) then
    preserve_flags (set_immediate (op_value (Op2 insn)) (set_kind Kind_ReplaceHigh16
      (set_source_register (op_reg (Op1 insn)) (set_destination (Op1 insn) out))))
  else out.

Definition arm_adr (insn : insn_t) (out : Instruction) : Instruction :=
  if is_op o_reg (Op1 insn) then
    set_plumbing (preserve_flags (set_immediate
      (if negb (op_addr (Op2 insn) =? 0) then op_addr (Op2 insn) else op_value (Op2 insn))
      (set_kind Kind_LoadAddress (set_destination (Op1 insn) out))))
  else out.

Definition arm_ldr (insn : insn_t) (out : Instruction) : Instruction :=
  if is_op o_reg (Op1 insn) && is_op o_mem (Op2 insn) then
    let out := set_destination (Op1 insn) out in
    set_plumbing (preserve_flags
      match read_only_scalar (op_addr (Op2 insn)) (in_value_width out) with
      | Some value =>
          set_immediate value (set_memory_address (op_addr (Op2 insn)) (set_kind Kind_LoadReadOnlyConstant out))
      | None => out
      end)
  else out.

Definition arm_arithmetic_kind (i : ArmItype) : InstructionKind :=
  match i with
  | ARM_add => Kind_AddImmediate
  | ARM_sub => Kind_SubImmediate
  | ARM_eor => Kind_XorImmediate
  | ARM_and => Kind_AndImmediate
  | _ => Kind_OrImmediate
  end.

Definition arm_arithmetic (i : ArmItype) (insn : insn_t) (out : Instruction) : bool * Instruction :=
  if is_op o_reg (Op1 insn) && is_op o_reg (Op2 insn) && is_op o_imm (Op3 insn) then
    returns (set_kind (arm_arithmetic_kind i) (set_immediate (op_value (Op3 insn))
      (set_source (Op2 insn) (set_destination (Op1 insn) out))))
  else breaks out.

Definition arm_compare (kind : InstructionKind) (effect : FlagEffect) (insn : insn_t) (out : Instruction) :
    bool * Instruction :=
  if is_op o_reg (Op1 insn) && is_op o_imm (Op2 insn) then
    returns (set_flag_effect effect (set_immediate (op_value (Op2 insn))
      (set_destination (Op1 insn) (set_kind kind out))))
  else breaks out.

Definition arm_data (insn : insn_t) (out : Instruction) : bool * Instruction :=
  match arm_itype (insn_itype insn) with
  | Some ARM_nop => returns (set_plumbing (preserve_flags (set_kind Kind_Nop out)))
  | Some ARM_mov => returns (arm_mov insn out)
  | Some ARM_movt => returns (arm_movt insn out)
  | Some ARM_adr => returns (arm_adr insn out)
  | Some ARM_ldr => returns (arm_ldr insn out)
  | Some ((ARM_add | ARM_sub | ARM_eor | ARM_and | ARM_orr) as i) => arm_arithmetic i insn out
  | Some ARM_cmp => arm_compare Kind_CompareImmediate Flags_KnownCompare insn out
  | Some ARM_tst => arm_compare Kind_TestImmediate Flags_KnownTest insn out
  | Some (ARM_push | ARM_pop) => returns (set_plumbing (preserve_flags out))
  | _ => breaks out
  end.

Definition arm_branch (insn : insn_t) (out : Instruction) : Instruction :=
  let cond := Z.land (insn_segpref insn) 0x0f in
  let out := set_target (branch_target insn) out in
  preserve_flags
    (if cond <? 14 then set_condition (arm_condition cond) (set_kind Kind_ConditionalBranch out)
     else set_kind Kind_DirectJump out).

Definition translate_arm (insn : insn_t) : Instruction :=
  let out := begin_instruction insn Flags_UnknownWrite in
  if is_call_insn insn then transfer Kind_IndirectCall Kind_DirectCall insn out
  else if is_ret_insn insn || has_itype insn ARM_ret then preserve_flags (set_kind Kind_Return out)
  else if has_itype insn ARM_b then arm_branch insn out
  else if has_itype insn ARM_br then indirect_transfer Kind_IndirectJump insn out
  else if has_itype insn ARM_blr then indirect_transfer Kind_IndirectCall insn out
  else if is_indirect_jump_insn insn then indirect_transfer Kind_IndirectJump insn out
  else if branches_elsewhere insn then other_branch insn out
  else
    let '(returned, out) := arm_data insn out in
    if returned then out else any_destination insn out.

Definition translate_instruction (arch : Architecture) (insn : insn_t) : Instruction :=
  match arch with Arch_X86 => translate_x86 insn | _ => translate_arm insn end.

(** ** Callers and gaps *)

(** The sources of the code references to an address, up to the first other reference. *)
Fixpoint code_sources (refs : list xref_t) : list Z :=
  match refs with
  | [] => []
  | r :: refs => if xr_iscode r then xr_from r :: code_sources refs else []
  end.

Definition calls_at (ea : Z) : bool :=
  match decode_insn ea with Some incoming => is_call_insn incoming | None => false end.

Definition has_other_callers (target caller : Z) : bool :=
  existsb (fun from => negb (from =? caller) && calls_at from) (code_sources (code_xrefs_to target)).

Definition count_callers (target : Z) : Z :=
  zlen (List.filter calls_at (code_sources (code_xrefs_to target))).

(** [loaded] and [unreferenced]. *)
Definition gap_loaded (start end_ : Z) : bool :=
  (start <? end_) &&
  forallb (fun ea => is_mapped ea && is_loaded ea && bool_decide (getseg ea = getseg start))
    (seqZ start (end_ - start)).

Definition gap_unreferenced (start end_ : Z) : bool :=
  (start <? end_) &&
  forallb (fun ea => negb (has_xref ea || has_name ea ||
      match get_func ea with Some function => fn_start_ea function =? ea | None => false end))
    (seqZ start (end_ - start)).

Definition safe_gap (start end_ : Z) : bool := gap_loaded start end_ && gap_unreferenced start end_.

(** [int_bytes] of a value, the least significant first. *)
Definition least_significant_bytes (value width : Z) : bytes :=
  let width := if (width =? 0) || (8 <? width) then 8 else width in
  map (fun i => z2b (Z.shiftr value (8 * i))) (seqZ 0 width).
End Lowering.

Definition bounded_limits (limits : ClassifierLimits) : ClassifierLimits := {|
  gadget_depth := Z.min (gadget_depth limits) 4096;
  maximum_gap := Z.min (maximum_gap limits) (1024 * 1024);
  entry_predicate_window := Z.min (entry_predicate_window limits) (1024 * 1024);
  wrapper_maximum_instructions := Z.min (wrapper_maximum_instructions limits) 4096;
  wrapper_maximum_callers := wrapper_maximum_callers limits;
  minimum_constant_steps := Z.max 1 (Z.min (minimum_constant_steps limits) 4096);
  minimum_dispatch_cases := minimum_dispatch_cases limits;
  maximum_dispatch_cases := Z.min (maximum_dispatch_cases limits) 4096 |}.

(** ** Ranges of the answers *)

Definition operand_typed (op : op_t) : Prop := is_u16 (op_reg op) /\ is_u64 (op_value op) /\ is_u64 (op_addr op).

Definition range_typed (range : Z * Z) : Prop := is_u64 range.1 /\ is_u64 range.2.

Definition function_typed `{DeobfIda} (f : func_t) : Prop :=
  is_u64 (fn_start_ea f) /\ is_u64 (fn_end_ea f) /\ Forall range_typed (fn_chunks f).

(** What the analysis relies on: the ranges of the C++ types, and that [decode_insn] decodes
    the instruction at the address it is given. *)
Class DeobfIdaTyped `{DeobfIda} : Prop := {
  dt_ea ea insn : decode_insn ea = Some insn -> insn_ea insn = ea /\ is_u64 ea;
  dt_size ea insn : decode_insn ea = Some insn -> is_u16 (insn_size insn);
  dt_operands ea insn : decode_insn ea = Some insn -> Forall operand_typed (insn_ops insn);
  dt_dtype d : 0 <= get_dtype_size d;
  dt_functions : Forall (fun f => match f with Some f => function_typed f | None => True end) all_functions;
  dt_function ea f : get_func ea = Some f -> function_typed f;
  dt_flow chunks : Forall range_typed chunks ->
    Forall (fun b => is_u64 (qb_start_ea b) /\ is_u64 (qb_end_ea b)) (flow_chart chunks)
}.
