(* ===== verification/DeobfListing.v ===== *)
(** * A small database for the deobfuscation analysis (deobf_analysis.cpp)

    The questions of [DeobfIda] answered for the listings of NativeListing.v: 32-bit x86
    code in a segment that cannot be written, with one basic block for each chunk. *)
From stdpp Require Import base numbers list strings option sets.
From Stdlib Require Import ZArith Init.Byte Sorting.Sorted Lia.
From S2P Require Import Prelude NativeTypes NativeDatabase NativeListing DeobfLowering.

Section Listing.
Context (listing : list insn_t).

#[local] Instance deobf_listing_ida : Ida := listing_ida 0 false (fun _ => false) (fun _ => []) listing.

#[local] Instance deobf_listing : DeobfIda := {
  inf_get_app_bitness := 32; inf_is_be := false; get_bytes size _ := repeat x00 (Z.to_nat size);
  x86_base_reg _ op := op_reg op; x86_index_reg _ _ := -1; R_none := -1; R_sp := 4;
  has_name _ := false; fn_end_ea f := snd (listing_bounds listing); fn_flags _ := 0; does_return _ := true;
  FUNC_LIB := 1; FUNC_THUNK := 2; FUNC_HIDDEN := 4; FUNC_OUTLINE := 8;
  flow_chart := map (fun range =>
    {| qb_start_ea := range.1; qb_end_ea := range.2; qb_succ := []; qb_pred := [] |})
}.

Definition word16 (x : Z) : bool := (0 <=? x) && (x <? 2 ^ 16).
Definition word64 (x : Z) : bool := (0 <=? x) && (x <? 2 ^ 64).

Lemma word16_iff x : word16 x = true <-> is_u16 x.
Proof. unfold word16, is_u16. rewrite andb_true_iff, Z.leb_le, Z.ltb_lt. lia. Qed.

Lemma word64_iff x : word64 x = true <-> is_u64 x.
Proof. unfold word64, is_u64. rewrite andb_true_iff, Z.leb_le, Z.ltb_lt. lia. Qed.

(** The listing has the ranges of the C++ types. *)
Definition listing_in_range : bool :=
  word64 (fst (listing_bounds listing)) && word64 (snd (listing_bounds listing)) &&
  forallb (fun i => word64 (insn_ea i) && word16 (insn_size i) &&
    forallb (fun op => word16 (op_reg op) && word64 (op_value op) && word64 (op_addr op)) (insn_ops i)) listing.

Lemma deobf_listing_typed : listing_in_range = true -> DeobfIdaTyped.
Proof.
  intros [[Hl%word64_iff Hh%word64_iff]%andb_prop Hi]%andb_prop. rewrite forallb_forall in Hi.
  assert (forall ea insn, decode_insn ea = Some insn -> insn_ea insn = ea /\ is_u64 ea /\ is_u16 (insn_size insn) /\
    Forall operand_typed (insn_ops insn)) as Hd.
  { intros ea insn [Hin Hea%Z.eqb_eq]%List.find_some. specialize (Hi _ Hin).
    apply andb_prop in Hi as [[Ha%word64_iff Hs%word16_iff]%andb_prop Ho]. subst ea. split_and!; try done.
    rewrite forallb_forall in Ho. apply Forall_forall. intros op Hop%list_elem_of_In%Ho.
    apply andb_prop in Hop as [[?%word16_iff ?%word64_iff]%andb_prop ?%word64_iff]. done. }
  assert (forall f, f = listing_function listing -> function_typed f) as Hf.
  { intros f ->. split_and!; [done|done|]. constructor; [done|constructor]. }
  split.
  - intros ea insn Hdec. by destruct (Hd _ _ Hdec) as (? & ? & _).
  - intros ea insn Hdec. by destruct (Hd _ _ Hdec) as (_ & _ & ? & _).
  - intros ea insn Hdec. by destruct (Hd _ _ Hdec) as (_ & _ & _ & ?).
  - intros d. cbn. lia.
  - constructor; [by apply Hf|constructor].
  - intros ea f. cbn. unfold if_listed. destruct (in_listing listing ea); [|done]. intros [= <-]. by apply Hf.
  - intros chunks Hc. cbn. apply Forall_map. exact Hc.
Qed.
End Listing.
