(* ===== verification/DeobfDriver.v ===== *)
(** * The deobfuscation analysis (deobf_analysis.cpp)

    [DeobfAnalysisProvider] takes a snapshot of a function, gives it to the classifiers and
    turns what they find into facts, which its sink may refuse.  A fact that the sink takes is
    not offered again for the same function until the function is invalidated.  The code
    decides what to offer without looking at the answers of the sink; so a part of the
    analysis is the list of its offers ([*_offers]) and the emission of that list. *)
From stdpp Require Import base numbers list strings option sets gmap pretty.
From Stdlib Require Import ZArith Init.Byte Lia.
From S2P Require Import Prelude OrderedMap FactTypes Sha256 Validate FactCodec Store Conflicts EvidenceBridge.
From S2P Require Import NativeTypes NativeDatabase Deobf DeobfFlags DeobfMachine DeobfConstants DeobfEntry.
From S2P Require Import DeobfGadget DeobfDispatch DeobfLowering.

#[local] Open Scope viy_scope.

#[export] Instance byte_countable : Countable byte := inj_countable' b2z z2b z2b_b2z.

Definition kDeobfEvidenceSchemaVersion : Z := 1.

(** ** Options, statistics, progress *)

Record DeobfAnalysisOptions : Type := {
  do_detect_get_pc_gadgets : bool;
  do_detect_push_return_gadgets : bool;
  do_detect_jump_gaps : bool;
  do_detect_entry_predicates : bool;
  do_detect_wrappers : bool;
  do_resolve_constant_chains : bool;
  do_detect_dispatch_maps : bool;
  do_max_functions : Z;
  do_max_instructions_per_function : Z;
  do_max_blocks_per_function : Z;
  do_classifier_limits : ClassifierLimits;
  do_progress : bool
}.

Definition default_deobf_options : DeobfAnalysisOptions := {|
  do_detect_get_pc_gadgets := true; do_detect_push_return_gadgets := true;
  do_detect_jump_gaps := true; do_detect_entry_predicates := true; do_detect_wrappers := true;
  do_resolve_constant_chains := true; do_detect_dispatch_maps := true; do_max_functions := 0;
  do_max_instructions_per_function := 4096; do_max_blocks_per_function := 1024;
  do_classifier_limits := default_classifier_limits; do_progress := false |}.

(** The counters of [DeobfAnalysisStats] by name. *)
Inductive DeobfCounter : Type :=
  | functions_scanned | chunks_scanned | blocks_scanned | instructions_scanned | decode_failures
  | facts_emitted | facts_deduplicated | get_pc_gadgets | push_return_targets
  | code_region_candidates | entry_predicates | constant_predicates | wrapper_traits
  | constant_targets | dispatch_maps | cff_edge_candidates | budget_truncations.

#[export] Instance DeobfCounter_eq_dec : EqDecision DeobfCounter.
Proof. solve_decision. Defined.

Record DeobfAnalysisStats : Type := {
  da_architecture : Architecture;
  da_epoch : Z;
  da_count : DeobfCounter -> Z
}.

Definition bump (c : DeobfCounter) (stats : DeobfAnalysisStats) : DeobfAnalysisStats := {|
  da_architecture := da_architecture stats; da_epoch := da_epoch stats;
  da_count d := if bool_decide (d = c) then da_count stats d + 1 else da_count stats d |}.

Inductive DeobfAnalysisProgressStage : Type := Deobf_FUNCTIONS | Deobf_COMPLETE.

Record DeobfAnalysisProgress : Type := {
  dg_stage : DeobfAnalysisProgressStage;
  dg_functions_completed : Z;
  dg_functions_total : Z;
  dg_instructions_scanned : Z;
  dg_blocks_scanned : Z;
  dg_facts_emitted : Z;
  dg_stage_boundary : bool
}.

(** The sink and the progress callback act on the state of the client; the sink tells
    whether it takes the fact. *)
Class DeobfClient (S : Type) : Type := {
  deobf_sink : AnalysisFact -> S -> bool * S;
  deobf_progress : DeobfAnalysisProgress -> S -> S
}.

(** ** Snapshots *)

Record FunctionSnapshot : Type := {
  sn_function : func_t;
  sn_scope_end : Z;
  sn_chunks : list (Z * Z);
  sn_instructions : list Instruction;
  sn_blocks : list Block;
  sn_scan_complete : bool;
  sn_blocks_complete : bool
}.

(** The snapshot while the chunks are read, with the statistics. *)
Record SnapshotScan : Type := {
  ss_scope_end : Z;
  ss_chunks : list (Z * Z);
  ss_by_address : omap Z Instruction;
  ss_instructions : list Instruction;
  ss_complete : bool;
  ss_stats : DeobfAnalysisStats
}.

Definition incomplete (s : SnapshotScan) : SnapshotScan := {|
  ss_scope_end := ss_scope_end s; ss_chunks := ss_chunks s; ss_by_address := ss_by_address s;
  ss_instructions := ss_instructions s; ss_complete := false; ss_stats := ss_stats s |}.

Definition count_snapshot (c : DeobfCounter) (s : SnapshotScan) : SnapshotScan := {|
  ss_scope_end := ss_scope_end s; ss_chunks := ss_chunks s; ss_by_address := ss_by_address s;
  ss_instructions := ss_instructions s; ss_complete := ss_complete s; ss_stats := bump c (ss_stats s) |}.

Definition push_instruction (i : Instruction) (s : SnapshotScan) : SnapshotScan := {|
  ss_scope_end := ss_scope_end s; ss_chunks := ss_chunks s;
  ss_by_address := map_emplace Z.ltb (in_address i) i (ss_by_address s);
  ss_instructions := ss_instructions s ++ [i]; ss_complete := ss_complete s;
  ss_stats := bump instructions_scanned (ss_stats s) |}.

Definition push_chunk (range : Z * Z) (s : SnapshotScan) : SnapshotScan := {|
  ss_scope_end := Z.max (ss_scope_end s) range.2; ss_chunks := ss_chunks s ++ [range];
  ss_by_address := ss_by_address s; ss_instructions := ss_instructions s;
  ss_complete := ss_complete s; ss_stats := bump chunks_scanned (ss_stats s) |}.

Section Snapshot.
Context `{DeobfIda}.

Definition translated (ea previous : Z) (decoded : insn_t) : Instruction :=
  set_alternate (has_alternate_predecessor ea previous)
    (translate_instruction detect_architecture decoded).

Definition decoded_at (ea : Z) : option insn_t :=
  match decode_insn ea with
  | Some decoded => if insn_size decoded =? 0 then None else Some decoded
  | None => None
  end.

(** [previous_instruction], [expected_linear] and the snapshot after a code head. *)
Definition snapshot_instruction (ea previous expected : Z) (s : SnapshotScan) : Z * Z * SnapshotScan :=
  let s := if negb (ea =? expected) then incomplete s else s in
  match decoded_at ea with
  | Some decoded =>
      (insn_ea decoded, ea_add (insn_ea decoded) (insn_size decoded),
       push_instruction (translated ea previous decoded) s)
  | None => (BADADDR, expected, incomplete (count_snapshot decode_failures s))
  end.

(** The heads of a chunk: [budget_exhausted], [expected_linear] and the snapshot. *)
Fixpoint snapshot_heads (fuel : nat) (range_end limit ea previous expected : Z) (s : SnapshotScan) :
    bool * Z * SnapshotScan :=
  match fuel with
  | O => (false, expected, s)
  | Datatypes.S fuel =>
      if (ea =? BADADDR) || (range_end <=? ea) then (false, expected, s)
      else if limit <=? zlen (ss_instructions s) then
        (true, expected, incomplete (count_snapshot budget_truncations s))
      else
        let '(previous, expected, s) :=
          if is_head ea && is_code ea then snapshot_instruction ea previous expected s
          else (previous, expected, s) in
        let next := next_head ea range_end in
        if (next =? BADADDR) || (next <=? ea) then (false, expected, s)
        else snapshot_heads fuel range_end limit next previous expected s
  end.

Definition snapshot_chunk (limit : Z) (range : Z * Z) (s : SnapshotScan) : bool * SnapshotScan :=
  let '(start, end_) := range in
  let '(exhausted, expected, s) :=
    snapshot_heads (Z.to_nat (end_ - start)) end_ limit start BADADDR start (push_chunk range s) in
  (exhausted, if negb (expected =? end_) then incomplete s else s).

Fixpoint snapshot_chunks (limit : Z) (ranges : list (Z * Z)) (s : SnapshotScan) : SnapshotScan :=
  match ranges with
  | [] => s
  | range :: ranges =>
      if range.2 <=? range.1 then snapshot_chunks limit ranges s
      else
        let '(exhausted, s) := snapshot_chunk limit range s in
        if exhausted then s else snapshot_chunks limit ranges s
  end.

(** *** Blocks *)

(** The instructions of the block, where the last one ends, and whether each begins where
    the one before it ends. *)
Fixpoint block_instructions (block_end expected : Z) (complete : bool) (entries : omap Z Instruction) :
    list Instruction * Z * bool :=
  match entries with
  | [] => ([], expected, complete)
  | (address, instruction) :: entries =>
      if address <? block_end then
        let '(instructions, expected, complete) :=
          block_instructions block_end (Instruction_end instruction) (complete && (address =? expected)) entries in
        (instruction :: instructions, expected, complete)
      else ([], expected, complete)
  end.

(** The starts of the successors that are blocks. *)
Definition successor_starts (flow : list qbasic_block_t) (succ : list Z) : list Z :=
  base.omap (fun i => if 0 <=? i then qb_start_ea <$> flow !! Z.to_nat i else None) succ.

Definition make_block (flow : list qbasic_block_t) (by_address : omap Z Instruction)
    (source : qbasic_block_t) : Block * bool :=
  let '(instructions, expected, complete) :=
    block_instructions (qb_end_ea source) (qb_start_ea source) true
      (map_lower_bound Z.ltb (qb_start_ea source) by_address) in
  ({| bl_start := qb_start_ea source; bl_end := qb_end_ea source;
      bl_successors := successor_starts flow (qb_succ source);
      bl_predecessor_count := zlen (qb_pred source); bl_instructions := instructions |},
   complete && (expected =? qb_end_ea source)).

(** A block is kept if it has instructions and they fill it. *)
Definition push_block (flow : list qbasic_block_t) (by_address : omap Z Instruction)
    (state : list Block * bool * DeobfAnalysisStats) (source : qbasic_block_t) :
    list Block * bool * DeobfAnalysisStats :=
  let '(blocks, blocks_complete, stats) := state in
  let '(block, complete) := make_block flow by_address source in
  if negb (zlen (bl_instructions block) =? 0) && complete
  then (blocks ++ [block], blocks_complete, bump blocks_scanned stats)
  else (blocks, blocks_complete && complete, stats).

Definition hard_limit (configured ceiling : Z) : Z := if configured =? 0 then ceiling else configured.

Definition build_blocks (chunks : list (Z * Z)) (by_address : omap Z Instruction)
    (options : DeobfAnalysisOptions) (stats : DeobfAnalysisStats) : list Block * bool * DeobfAnalysisStats :=
  match chunks with
  | [] => ([], true, stats)
  | _ =>
      let flow := flow_chart chunks in
      let hard_block_limit := hard_limit (do_max_blocks_per_function options) 100000 in
      let truncated := hard_block_limit <? zlen flow in
      foldl (push_block flow by_address)
        ([], negb truncated, if truncated then bump budget_truncations stats else stats)
        (take (Z.to_nat (Z.min (zlen flow) hard_block_limit)) flow)
  end.

Definition begin_snapshot (function : func_t) (stats : DeobfAnalysisStats) : SnapshotScan := {|
  ss_scope_end := fn_end_ea function; ss_chunks := []; ss_by_address := []; ss_instructions := [];
  ss_complete := true; ss_stats := stats |}.

Definition snapshot_function (function : option func_t) (options : DeobfAnalysisOptions)
    (stats : DeobfAnalysisStats) : option FunctionSnapshot * DeobfAnalysisStats :=
  match function with
  | None => (None, stats)
  | Some function =>
      if fn_start_ea function =? BADADDR then (None, stats)
      else
        let limit := hard_limit (do_max_instructions_per_function options) 1000000 in
        let s := snapshot_chunks limit (fn_chunks function) (begin_snapshot function stats) in
        let '(blocks, blocks_complete, stats) :=
          build_blocks (ss_chunks s) (ss_by_address s) options (ss_stats s) in
        (Some {| sn_function := function; sn_scope_end := ss_scope_end s; sn_chunks := ss_chunks s;
                 sn_instructions := std_sort (fun a b => in_address a <? in_address b) (ss_instructions s);
                 sn_blocks := blocks; sn_scan_complete := ss_complete s;
                 sn_blocks_complete := blocks_complete |}, stats)
  end.
End Snapshot.

(** ** Offers *)

(** The arguments of a call of [emit], and the counter that goes up when it succeeds. *)
Record DeobfOffer : Type := {
  of_method : string;
  of_proof : ProofKind;
  of_confidence : Z;
  of_payload : FactPayload;
  of_support : list Z;
  of_detail : string;
  of_counter : option DeobfCounter
}.

(** [std::string] of the decimal digits. *)
Definition decimal (value : Z) : string := pretty value.

Definition get_pc_mode_value (m : GetPcMode) : Z :=
  match m with
  | PopReturnAddress => 0 | ReadReturnAddress => 1 | AdjustReturnAddress => 2 | DiscardReturnAddress => 3
  end.

Definition some_code_target (from target : Z) (kind : CodeTargetKind) : FactPayload :=
  P_CodeTarget {| FactTypes.ct_from := from; FactTypes.ct_target := target; FactTypes.ct_kind := kind;
                  FactTypes.ct_unique := true |}.

Definition branch_state (branch successor : Z) (state : Reachability) : FactPayload :=
  P_BranchReachability {| br_branch := branch; br_successor := successor; br_state := state |}.

Definition data_region (start end_ : Z) : FactPayload :=
  P_CodeRegion {| cr_start := start; cr_end := end_; cr_kind := CodeRegionKind_Data |}.

Definition function_trait (function : Z) (trait : FunctionTraitKind) (value : TraitValue) : FactPayload :=
  P_FunctionTrait {| ft_function := function; ft_trait := trait; ft_value := value |}.

Definition register_value (instruction : Z) (name : string) (value : bytes) : FactPayload :=
  P_RegisterValue {| rv_instruction := instruction; rv_point := RegisterStatePoint_BeforeInstruction;
                     rv_register_id := name; rv_bytes := value |}.

Section Analyses.
Context `{DeobfIda} (snapshot : FunctionSnapshot) (limits : ClassifierLimits).

Definition snapshot_start : Z := fn_start_ea (sn_function snapshot).

(** *** Get-PC gadgets *)

Definition ends_gadget (kind : InstructionKind) : bool :=
  match kind with
  | Kind_Return | Kind_DirectCall | Kind_IndirectCall | Kind_DirectJump | Kind_IndirectJump
  | Kind_ConditionalBranch => true
  | _ => false
  end.

Fixpoint decode_gadget_loop (count : nat) (ea previous : Z) : list Instruction :=
  match count with
  | O => []
  | Datatypes.S count =>
      if negb (mapped_executable ea) then []
      else
        match decoded_at ea with
        | None => []
        | Some decoded =>
            let instruction := translated ea previous decoded in
            instruction ::
            (if ends_gadget (in_kind instruction) || (BADADDR - insn_size decoded <? ea) then []
             else decode_gadget_loop count (ea + insn_size decoded) ea)
        end
  end.

Definition decode_gadget (target : Z) : list Instruction :=
  decode_gadget_loop (Z.to_nat (gadget_depth limits + 1)) target BADADDR.

Definition gadget_description (c : GetPcCandidate) : string :=
  ("get-pc:gadget=" +:+ hex_address (gp_gadget c) +:+ ":mode=" +:+ decimal (get_pc_mode_value (gp_mode c)) +:+
   match gp_resumed_at c with Some resumed => ":resume=" +:+ hex_address resumed | None => EmptyString end)%string.

Definition gadget_trait (c : GetPcCandidate) : DeobfOffer := {|
  of_method := "x86.get_pc.call_gadget"; of_proof := ProofKind_StaticProof; of_confidence := 9800;
  of_payload := function_trait snapshot_start FunctionTraitKind_Other (trait_text (gadget_description c));
  of_support := gp_support c;
  of_detail := "bounded call-target gadget consumes or reads the pushed return address";
  of_counter := Some get_pc_gadgets |}.

Definition gadget_register (gadget : list Instruction) (c : GetPcCandidate) : list DeobfOffer :=
  match gp_register_value_at_return c with
  | Some value =>
      if negb (gp_return_instruction c =? kBadAddress) && negb (String.eqb (gp_pc_register_name c) EmptyString)
      then
        let width := match gadget with [] => 8 | first :: _ => in_value_width first end in
        [{| of_method := "x86.get_pc.register_value"; of_proof := ProofKind_StaticProof; of_confidence := 9800;
            of_payload := register_value (gp_return_instruction c) (gp_pc_register_name c)
                            (least_significant_bytes value width);
            of_support := gp_support c;
            of_detail := "return address value propagated through the bounded gadget";
            of_counter := None |}]
      else []
  | None => []
  end.

Definition gadget_resumption (c : GetPcCandidate) : list DeobfOffer :=
  match gp_resumed_at c with
  | Some resumed =>
      if negb (gp_return_instruction c =? kBadAddress) && usable_target detect_architecture resumed then
        [{| of_method := "x86.get_pc.push_return_target"; of_proof := ProofKind_StaticProof;
            of_confidence := 9900;
            of_payload := some_code_target (gp_return_instruction c) resumed CodeTargetKind_Return;
            of_support := gp_support c;
            of_detail := "push/adjust-return gadget has one exact resumed address"; of_counter := None |};
         {| of_method := "x86.get_pc.push_return_target"; of_proof := ProofKind_StaticProof;
            of_confidence := 9900;
            of_payload := branch_state (gp_return_instruction c) resumed Reachability_Reached;
            of_support := gp_support c;
            of_detail := "push/adjust-return gadget reaches the computed continuation";
            of_counter := None |}]
      else []
  | None => []
  end.

Definition gadget_gap (call : Instruction) : list DeobfOffer :=
  let gap_start := Instruction_end call in
  if negb (gap_start =? kBadAddress) && (gap_start <? in_target call) &&
     (in_target call - gap_start <=? maximum_gap limits) && safe_gap gap_start (in_target call)
  then
    [{| of_method := "x86.get_pc.skipped_gap"; of_proof := ProofKind_Heuristic; of_confidence := 7000;
        of_payload := data_region gap_start (in_target call);
        of_support := [in_address call; gap_start; in_target call];
        of_detail := "unreferenced loaded bytes skipped by a bounded get-PC gadget call";
        of_counter := Some code_region_candidates |}]
  else [].

Definition call_offers (call : Instruction) : list DeobfOffer :=
  if negb (bool_decide (in_kind call = Kind_DirectCall)) || (in_target call =? kBadAddress) then []
  else
    let gadget := decode_gadget (in_target call) in
    match classify_get_pc_gadget call gadget (has_other_callers (in_target call) (in_address call)) limits with
    | None => []
    | Some c => gadget_trait c :: gadget_register gadget c ++ gadget_resumption c ++ gadget_gap call
    end.

Definition get_pc_offers : list DeobfOffer :=
  if negb (bool_decide (detect_architecture = Arch_X86)) then []
  else flat_map call_offers (sn_instructions snapshot).

(** *** Gaps behind jumps *)

Definition jump_gap_offers_of (instruction : Instruction) : list DeobfOffer :=
  if negb (bool_decide (in_kind instruction = Kind_DirectJump)) then []
  else
    let start := Instruction_end instruction in
    if (start =? kBadAddress) || (in_target instruction <=? start) ||
       (maximum_gap limits <? in_target instruction - start) then []
    else
      match classify_jump_gap instruction (gap_loaded start (in_target instruction))
              (gap_unreferenced start (in_target instruction)) limits with
      | None => []
      | Some gap =>
          [{| of_method := "cfg.jump_over_unreferenced_gap"; of_proof := ProofKind_Heuristic;
              of_confidence := 7000; of_payload := data_region (gc_start gap) (gc_end gap);
              of_support := [gc_branch gap; gc_start gap; gc_end gap];
              of_detail := "forward unconditional branch skips a bounded loaded range with no names or inbound references";
              of_counter := Some code_region_candidates |}]
      end.

Definition jump_gap_offers : list DeobfOffer := flat_map jump_gap_offers_of (sn_instructions snapshot).

(** *** The first branch *)

Definition unspecified_offer (p : EntryPredicateCandidate) : DeobfOffer := {|
  of_method := "entry.flags_unspecified"; of_proof := ProofKind_Heuristic; of_confidence := 7200;
  of_payload := function_trait snapshot_start FunctionTraitKind_Other
    (trait_text ("entry-predicate:arithmetic-flags-unspecified:branch=" +:+ hex_address (ep_branch p))%string);
  of_support := ep_support p;
  of_detail := "conditional branch consumes ABI-unspecified entry flags before any local flag definition";
  of_counter := Some entry_predicates |}.

Definition outcome_offers (p : EntryPredicateCandidate) (taken : bool) : list DeobfOffer :=
  let offer successor state detail counter := {|
    of_method := "entry.constant_compare"; of_proof := ProofKind_StaticProof; of_confidence := 9900;
    of_payload := branch_state (ep_branch p) successor state; of_support := ep_support p;
    of_detail := detail; of_counter := counter |} in
  [offer (if taken then ep_target p else ep_fallthrough p) Reachability_Reached
     "entry-local constant chain makes the comparison outcome exact"%string (Some constant_predicates);
   offer (if taken then ep_fallthrough p else ep_target p) Reachability_ProvenUnreachable
     "opposite edge is excluded by an exact width-aware comparison"%string None].

Definition predicate_offers (p : EntryPredicateCandidate) : list DeobfOffer :=
  match ep_knowledge p, ep_taken p with
  | Predicate_EntryFlagsUnspecified, _ =>
      if bool_decide (detect_architecture = Arch_X86) then [unspecified_offer p] else []
  | Predicate_ConstantOutcome, Some taken =>
      if (zlen (ep_support p) <? 3) || negb (usable_target detect_architecture (ep_target p)) ||
         negb (usable_target detect_architecture (ep_fallthrough p)) then []
      else outcome_offers p taken
  | _, _ => []
  end.

Definition entry_block : option Block :=
  List.find (fun block => bl_start block =? snapshot_start) (sn_blocks snapshot).

Definition entry_predicate_offers : list DeobfOffer :=
  match entry_block with
  | None => []
  | Some entry =>
      match classify_entry_predicate snapshot_start (bl_instructions entry) limits with
      | None => []
      | Some p => predicate_offers p
      end
  end.

(** *** Wrappers *)

Definition callee_returns (instructions : list Instruction) : bool :=
  match List.find (fun i => bool_decide (in_kind i = Kind_DirectCall) && negb (in_target i =? kBadAddress))
          instructions with
  | Some call => match get_func (in_target call) with None => true | Some callee => does_return callee end
  | None => true
  end.

Definition snapshot_shape : FunctionShape := {|
  fs_entry := snapshot_start; fs_end := sn_scope_end snapshot;
  fs_instructions := sn_instructions snapshot; fs_caller_count := count_callers snapshot_start;
  fs_has_tail_chunks := 1 <? zlen (sn_chunks snapshot);
  fs_already_special :=
    negb (Z.land (fn_flags (sn_function snapshot))
            (Z.lor (Z.lor (Z.lor FUNC_LIB FUNC_THUNK) FUNC_HIDDEN) FUNC_OUTLINE) =? 0);
  fs_direct_callee_returns := callee_returns (sn_instructions snapshot);
  fs_scan_complete := sn_scan_complete snapshot |}.

Definition wrapper_offers : list DeobfOffer :=
  match classify_wrapper snapshot_shape limits with
  | None => []
  | Some w =>
      if (wc_target w =? wc_function w) || negb (usable_target detect_architecture (wc_target w)) then []
      else
        {| of_method := "cfg.wrapper_shape"; of_proof := ProofKind_Heuristic; of_confidence := 8500;
           of_payload := function_trait (wc_function w) FunctionTraitKind_WrapperTarget
                           (trait_unsigned_integer (wc_target w));
           of_support := [wc_function w; wc_target w];
           of_detail := "bounded small function has one direct transfer and no global writes or conditional flow";
           of_counter := Some wrapper_traits |} ::
        (if wc_thunk w then
           [{| of_method := "cfg.thunk_shape"; of_proof := ProofKind_Heuristic; of_confidence := 9000;
               of_payload := function_trait (wc_function w) FunctionTraitKind_Thunk trait_none;
               of_support := [wc_function w; wc_target w];
               of_detail :=
                 if wc_tail_call w then "plumbing-only function ends in one direct tail transfer"
                 else "plumbing-only function wraps one direct call and return";
               of_counter := None |}]
         else [])
  end.

(** *** Constants *)

(** [results.emplace] for each block. *)
Definition constant_results : omap Z ConstantBlockResult :=
  foldl (fun results block =>
    map_emplace Z.ltb (bl_start block) (analyze_constant_block block limits) results) [] (sn_blocks snapshot).

Definition is_push_return (kind : ConstantTargetKind) : bool :=
  match kind with Target_PushReturn => true | _ => false end.

Definition transfer_kind (kind : ConstantTargetKind) : CodeTargetKind :=
  match kind with
  | Target_IndirectCall => CodeTargetKind_Call
  | Target_IndirectJump => CodeTargetKind_Jump
  | Target_PushReturn => CodeTargetKind_Return
  end.

Definition constant_target_offer (c : ConstantTargetCandidate) : DeobfOffer := {|
  of_method :=
    if is_push_return (ct_kind c) then "x86.push_ret.constant_target" else "constant_chain.indirect_target";
  of_proof := ProofKind_StaticProof; of_confidence := 9900;
  of_payload := some_code_target (ct_instruction c) (ct_target c) (transfer_kind (ct_kind c));
  of_support := ct_support c;
  of_detail := "width-bounded same-block constant chain yields one executable target";
  of_counter := Some (if is_push_return (ct_kind c) then push_return_targets else constant_targets) |}.

Definition constant_register_offers (c : ConstantTargetCandidate) : list DeobfOffer :=
  if negb (ct_register_id c =? kNoRegister) && negb (String.eqb (ct_register_name c) EmptyString) then
    [{| of_method := "constant_chain.register_value"; of_proof := ProofKind_StaticProof;
        of_confidence := 9900;
        of_payload := register_value (ct_instruction c) (ct_register_name c)
                        (least_significant_bytes (ct_target c) (ct_value_width c));
        of_support := ct_support c;
        of_detail := "same-block constant chain fixes the transfer register value"; of_counter := None |}]
  else [].

Definition candidate_offers (emit_indirect_targets emit_push_return_targets : bool)
    (c : ConstantTargetCandidate) : list DeobfOffer :=
  if (if is_push_return (ct_kind c) then negb emit_push_return_targets else negb emit_indirect_targets) then []
  else if negb (usable_target detect_architecture (ct_target c)) then []
  else constant_target_offer c :: constant_register_offers c.

Definition constant_offers (emit_indirect_targets emit_push_return_targets : bool) : list DeobfOffer :=
  flat_map (fun block =>
    flat_map (candidate_offers emit_indirect_targets emit_push_return_targets)
      (cr_targets (analyze_constant_block block limits))) (sn_blocks snapshot).

(** *** Dispatchers *)

Definition dispatch_fact (c : DispatchCandidate) : FactPayload :=
  P_DispatchMap {|
    dm_site := dc_site c;
    dm_cases := map (fun item => {| dc_selector := Some item.1; dc_target := item.2 |}) (dc_cases c);
    dm_default_target := dc_default_target c; dm_complete := false |}.

Definition dispatch_detail (c : DispatchCandidate) : string :=
  ("static comparison-chain dispatch candidate; cases=" +:+ decimal (zlen (dc_cases c)) +:+
   "; selector-one-bits=" +:+ decimal (dc_selector_one_bit_percent c) +:+ "%" +:+
   "; loop-backed=" +:+ (if dc_loop_backed c then "yes" else "no") +:+
   "; completeness deliberately unasserted")%string.

Definition dispatch_offer (c : DispatchCandidate) : DeobfOffer := {|
  of_method := "cfg.dispatch.compare_chain"; of_proof := ProofKind_Heuristic;
  of_confidence := if dc_loop_backed c then 9000 else 8000; of_payload := dispatch_fact c;
  of_support := dc_comparison_sites c; of_detail := dispatch_detail c; of_counter := Some dispatch_maps |}.

Definition flattening_offers (c : DispatchCandidate) : list DeobfOffer :=
  if dc_loop_backed c && (20 <=? dc_selector_one_bit_percent c) && (dc_selector_one_bit_percent c <=? 80) then
    [{| of_method := "cfg.dispatch.cff_shape"; of_proof := ProofKind_Heuristic; of_confidence := 8800;
        of_payload := function_trait snapshot_start FunctionTraitKind_Other
          (trait_text ("cff-dispatch-candidate:site=" +:+ hex_address (dc_site c) +:+
                       ":cases=" +:+ decimal (zlen (dc_cases c)))%string);
        of_support := dc_comparison_sites c;
        of_detail := "loop-backed high-entropy state comparison chain resembles flattened control flow";
        of_counter := None |}]
  else [].

(** [target_by_selector]: the last case of a selector counts. *)
Definition target_by_selector (c : DispatchCandidate) : omap Z Z :=
  foldl (fun targets item => map_set Z.ltb item.1 item.2 targets) [] (dc_cases c).

Definition state_edge_offers (c : DispatchCandidate) (from : Z) (a : ConstantAssignment) : list DeobfOffer :=
  if negb (ca_register_id a =? dc_state_register c) || negb (ca_value_width a =? dc_state_width c) then []
  else
    match map_find Z.ltb (ca_value a) (target_by_selector c) with
    | None => []
    | Some destination =>
        [{| of_method := "cfg.dispatch.constant_state_edge"; of_proof := ProofKind_SymbolicProof;
            of_confidence := 9500;
            of_payload := P_CfgCandidate {| cfg_from := from; cfg_to := destination;
              cfg_kind := CfgEdgeKind_Indirect; cfg_state := Reachability_Reached |};
            of_support := ca_support a ++ dc_comparison_sites c;
            of_detail := "single-successor predecessor fixes the dispatch state to one mapped case";
            of_counter := Some cff_edge_candidates |}]
    end.

(** The edges of a block that only leads to the dispatcher. *)
Definition block_edge_offers (results : omap Z ConstantBlockResult) (c : DispatchCandidate) (block : Block) :
    list DeobfOffer :=
  match bl_successors block, last (bl_instructions block) with
  | [successor], Some back =>
      if negb (successor =? dc_entry_block c) then []
      else
        match map_find Z.ltb (bl_start block) results with
        | None => []
        | Some r => flat_map (state_edge_offers c (in_address back)) (cr_final_assignments r)
        end
  | _, _ => []
  end.

Definition dispatcher_offers (results : omap Z ConstantBlockResult) (c : DispatchCandidate) : list DeobfOffer :=
  dispatch_offer c :: flattening_offers c ++ flat_map (block_edge_offers results c) (sn_blocks snapshot).

(** The search always ends, so the default is not used ([dispatchers_found]). *)
Definition dispatch_offers (results : omap Z ConstantBlockResult) : list DeobfOffer :=
  if negb (sn_scan_complete snapshot) || negb (sn_blocks_complete snapshot) then []
  else flat_map (dispatcher_offers results) (default [] (find_dispatch_candidates (sn_blocks snapshot) limits)).
End Analyses.

(** Everything that the analysis of a function offers, in order. *)
Definition function_offers `{DeobfIda} (options : DeobfAnalysisOptions) (snapshot : FunctionSnapshot) :
    list DeobfOffer :=
  let limits := bounded_limits (do_classifier_limits options) in
  (if do_detect_get_pc_gadgets options then get_pc_offers snapshot limits else []) ++
  (if do_detect_jump_gaps options then jump_gap_offers snapshot limits else []) ++
  (if do_detect_entry_predicates options then entry_predicate_offers snapshot limits else []) ++
  (if do_detect_wrappers options then wrapper_offers snapshot limits else []) ++
  (let need_constants :=
     do_resolve_constant_chains options || do_detect_push_return_gadgets options ||
     do_detect_dispatch_maps options in
   let constants := if need_constants then constant_results snapshot limits else [] in
   (if need_constants
    then constant_offers snapshot limits (do_resolve_constant_chains options)
           (do_detect_push_return_gadgets options)
    else []) ++
   (if do_detect_dispatch_maps options then dispatch_offers snapshot limits constants else [])).

(** ** The provider *)

(** [emitted_by_function]: the encoded payloads that a function has reported. *)
Notation DeobfKeys := (gmap Z (gset bytes)).

Record DeobfProvider : Type := { dp_current_epoch : Z; dp_emitted : DeobfKeys }.

Definition new_deobf_provider : DeobfProvider := {| dp_current_epoch := 1; dp_emitted := ∅ |}.

(** The provider, the statistics and the client while a call runs. *)
Record DeobfScan (S : Type) : Type := {
  dx_emitted : DeobfKeys;
  dx_stats : DeobfAnalysisStats;
  dx_client : S
}.
Arguments dx_emitted {S}.
Arguments dx_stats {S}.
Arguments dx_client {S}.

(** What a caller can do with a provider. *)
Inductive DeobfCall : Type :=
  | Deobf_AnalyzeDatabase (options : DeobfAnalysisOptions)
  | Deobf_AnalyzeFunction (any_ea : Z) (options : DeobfAnalysisOptions)
  | Deobf_AdvanceEpoch
  | Deobf_SetEpoch (epoch : Z)
  | Deobf_InvalidateFunction (any_ea : Z)
  | Deobf_Reset.

Definition deobf_evidence (epoch : Z) (snapshot : FunctionSnapshot) (o : DeobfOffer) : Evidence := {|
  ev_producer := "viy.deobf.ida"; ev_method := of_method o; ev_proof := of_proof o;
  ev_confidence := of_confidence o;
  ev_scope := {|
    sc_run_id := None; sc_seed := None; sc_function_start := Some (snapshot_start snapshot);
    sc_function_end :=
      if snapshot_start snapshot <? sn_scope_end snapshot then Some (sn_scope_end snapshot) else None;
    sc_generation := epoch |};
  ev_support_addresses := of_support o;
  ev_detail := ("deobf schema " +:+ decimal kDeobfEvidenceSchemaVersion +:+ "; " +:+ of_detail o)%string |}.

(** The normal form of a payload and its key, or [None] where [emit] returns at once. *)
Definition offer_key (o : DeobfOffer) : option (FactPayload * bytes) :=
  match normalize_payload (of_payload o) with
  | Err _ => None
  | Ok payload => match encode_payload payload with Err _ => None | Ok key => Some (payload, key) end
  end.

Section Provider.
Context `{DeobfIda} {S : Type} `{DeobfClient S}.

Definition count_scan (c : DeobfCounter) (s : DeobfScan S) : DeobfScan S :=
  {| dx_emitted := dx_emitted s; dx_stats := bump c (dx_stats s); dx_client := dx_client s |}.

Definition emit (epoch : Z) (snapshot : FunctionSnapshot) (o : DeobfOffer) (s : DeobfScan S) :
    bool * DeobfScan S :=
  match offer_key o with
  | None => (false, s)
  | Some (payload, key) =>
      let keys := default ∅ (dx_emitted s !! snapshot_start snapshot) in
      if bool_decide (key ∈ keys) then (false, count_scan facts_deduplicated s)
      else
        match normalize_fact {| af_payload := payload; af_evidence := deobf_evidence epoch snapshot o |} with
        | Err _ => (false, s)
        | Ok fact =>
            let '(taken, client) := deobf_sink fact (dx_client s) in
            if taken then
              (true, {| dx_emitted := <[snapshot_start snapshot := {[key]} ∪ keys]> (dx_emitted s);
                        dx_stats := bump facts_emitted (dx_stats s); dx_client := client |})
            else (false, {| dx_emitted := dx_emitted s; dx_stats := dx_stats s; dx_client := client |})
        end
  end.

Definition emit_offer (epoch : Z) (snapshot : FunctionSnapshot) (s : DeobfScan S) (o : DeobfOffer) : DeobfScan S :=
  let '(emitted, s) := emit epoch snapshot o s in
  match of_counter o with
  | Some c => if emitted then count_scan c s else s
  | None => s
  end.

Definition analyze_one (epoch : Z) (options : DeobfAnalysisOptions) (function : option func_t) (s : DeobfScan S) :
    DeobfScan S :=
  let '(snapshot, stats) := snapshot_function function options (dx_stats s) in
  let s := {| dx_emitted := dx_emitted s; dx_stats := stats; dx_client := dx_client s |} in
  match snapshot with
  | None => s
  | Some snapshot =>
      foldl (emit_offer epoch snapshot) (count_scan functions_scanned s) (function_offers options snapshot)
  end.

Definition report (options : DeobfAnalysisOptions) (event : DeobfAnalysisProgress) (s : DeobfScan S) : DeobfScan S :=
  {| dx_emitted := dx_emitted s; dx_stats := dx_stats s;
     dx_client := if do_progress options then deobf_progress event (dx_client s) else dx_client s |}.

Definition progress_event (stage : DeobfAnalysisProgressStage) (completed total : Z)
    (stats : option DeobfAnalysisStats) (boundary : bool) : DeobfAnalysisProgress :=
  let count c := match stats with Some stats => da_count stats c | None => 0 end in {|
  dg_stage := stage; dg_functions_completed := completed; dg_functions_total := total;
  dg_instructions_scanned := count instructions_scanned; dg_blocks_scanned := count blocks_scanned;
  dg_facts_emitted := count facts_emitted; dg_stage_boundary := boundary |}.

Definition start_stats (p : DeobfProvider) : DeobfAnalysisStats :=
  {| da_architecture := detect_architecture; da_epoch := dp_current_epoch p; da_count _ := 0 |}.

Definition start_scan (p : DeobfProvider) (client : S) : DeobfScan S :=
  {| dx_emitted := dp_emitted p; dx_stats := start_stats p; dx_client := client |}.

Definition finish_scan (p : DeobfProvider) (s : DeobfScan S) : DeobfAnalysisStats * DeobfProvider * S :=
  (dx_stats s, {| dp_current_epoch := dp_current_epoch p; dp_emitted := dx_emitted s |}, dx_client s).

(** The functions in order, with an event after each. *)
Fixpoint analyze_functions (epoch : Z) (options : DeobfAnalysisOptions) (total done_ : Z)
    (functions : list (option func_t)) (s : DeobfScan S) : DeobfScan S :=
  match functions with
  | [] => s
  | function :: functions =>
      let s := analyze_one epoch options function s in
      let s := report options
        (progress_event Deobf_FUNCTIONS (done_ + 1) total (Some (dx_stats s)) false) s in
      analyze_functions epoch options total (done_ + 1) functions s
  end.

Definition analyze_database (options : DeobfAnalysisOptions) (p : DeobfProvider) (client : S) :
    DeobfAnalysisStats * DeobfProvider * S :=
  let s := start_scan p client in
  if bool_decide (detect_architecture = Arch_Unsupported)
  then finish_scan p (report options (progress_event Deobf_COMPLETE 0 0 None true) s)
  else
    let count := zlen all_functions in
    let limit := if do_max_functions options =? 0 then count else Z.min count (do_max_functions options) in
    let s := report options (progress_event Deobf_FUNCTIONS 0 limit None true) s in
    let s := analyze_functions (dp_current_epoch p) options limit 0 (take (Z.to_nat limit) all_functions) s in
    finish_scan p (report options (progress_event Deobf_COMPLETE limit limit (Some (dx_stats s)) true) s).

Definition analyze_function (any_ea : Z) (options : DeobfAnalysisOptions) (p : DeobfProvider) (client : S) :
    DeobfAnalysisStats * DeobfProvider * S :=
  let s := start_scan p client in
  if bool_decide (detect_architecture = Arch_Unsupported) || (BADADDR <? any_ea)
  then finish_scan p (report options (progress_event Deobf_COMPLETE 0 0 None true) s)
  else
    let function := get_func any_ea in
    let total := match function with None => 0 | Some _ => 1 end in
    let s := report options (progress_event Deobf_FUNCTIONS 0 total None true) s in
    let s := analyze_one (dp_current_epoch p) options function s in
    finish_scan p (report options (progress_event Deobf_COMPLETE total total (Some (dx_stats s)) true) s).

Definition advance_epoch (p : DeobfProvider) : DeobfProvider :=
  {| dp_current_epoch :=
       if dp_current_epoch p =? u64_max then dp_current_epoch p else dp_current_epoch p + 1;
     dp_emitted := dp_emitted p |}.

Definition set_epoch (epoch : Z) (p : DeobfProvider) : DeobfProvider :=
  {| dp_current_epoch := if epoch =? 0 then 1 else epoch; dp_emitted := dp_emitted p |}.

Definition forget (emitted : DeobfKeys) (p : DeobfProvider) : DeobfProvider :=
  {| dp_current_epoch := dp_current_epoch p; dp_emitted := emitted |}.

Definition invalidated_function (any_ea : Z) : Z :=
  if any_ea <=? BADADDR then
    match get_func any_ea with Some function => fn_start_ea function | None => any_ea end
  else any_ea.

Definition invalidate_function (any_ea : Z) (p : DeobfProvider) : DeobfProvider :=
  advance_epoch (forget (base.delete (invalidated_function any_ea) (dp_emitted p)) p).

Definition reset (p : DeobfProvider) : DeobfProvider := advance_epoch (forget ∅ p).

Definition call (c : DeobfCall) (p : DeobfProvider) (client : S) : DeobfProvider * S :=
  match c with
  | Deobf_AnalyzeDatabase options => let '(_, p, client) := analyze_database options p client in (p, client)
  | Deobf_AnalyzeFunction ea options => let '(_, p, client) := analyze_function ea options p client in (p, client)
  | Deobf_AdvanceEpoch => (advance_epoch p, client)
  | Deobf_SetEpoch epoch => (set_epoch epoch p, client)
  | Deobf_InvalidateFunction ea => (invalidate_function ea p, client)
  | Deobf_Reset => (reset p, client)
  end.

Definition calls (cs : list DeobfCall) (state : DeobfProvider * S) : DeobfProvider * S :=
  foldl (fun state c => call c state.1 state.2) state cs.
End Provider.
