(* ===== verification/DeobfSnapshot.v ===== *)
(** * Snapshots of functions (deobf_analysis.cpp)

    A snapshot holds the translated instructions at the code heads of a function, and the
    blocks of its flow chart that instructions fill.  [tiles] says that instructions fill a
    range without a gap; a snapshot that calls its scan complete tiles every chunk. *)
From stdpp Require Import base numbers list strings option sets.
From Stdlib Require Import ZArith Init.Byte Sorting.Sorted Lia.
From S2P Require Import Prelude OrderedMap NativeTypes NativeDatabase NativeListing Deobf DeobfLowering DeobfListing DeobfDriver.

(** The instructions fill the range from [start] to [end_] in order. *)
Fixpoint tiles (start end_ : Z) (insns : list Instruction) : Prop :=
  match insns with
  | [] => start = end_
  | insn :: rest => in_address insn = start /\ tiles (Instruction_end insn) end_ rest
  end.

Section Translation.
Context `{DeobfIda} `{!DeobfIdaTyped}.

(** ** Translation *)

(** Both translations keep the place of the instruction. *)
Definition placed (insn : insn_t) (out : Instruction) : Prop :=
  in_address out = insn_ea insn /\ in_size out = insn_size insn.

Lemma placed_source op insn out : placed insn out -> placed insn (set_source op out).
Proof. unfold set_source. by destruct (negb _). Qed.

Lemma placed_destination op insn out : placed insn out -> placed insn (set_destination op out).
Proof. unfold set_destination. by destruct (negb _). Qed.

Lemma placed_any insn out : placed insn out -> placed insn (any_destination insn out).
Proof. unfold any_destination. by destruct (0 <=? _). Qed.

Lemma placed_begin insn effect : placed insn (begin_instruction insn effect).
Proof. done. Qed.
End Translation.

#[export] Hint Resolve placed_source placed_destination placed_any placed_begin : placed.

(** Peel the setters of a translation. *)
Ltac placed_setters :=
  repeat first
    [ apply placed_begin | apply placed_any | apply placed_source | apply placed_destination | assumption
    | match goal with |- placed _ (match ?x with _ => _ end) => destruct x end
    | match goal with |- placed _ (if ?x then _ else _) => destruct x end
    | match goal with
      | |- placed ?i (set_kind _ ?o) => change (placed i o)
      | |- placed ?i (set_target _ ?o) => change (placed i o)
      | |- placed ?i (set_condition _ ?o) => change (placed i o)
      | |- placed ?i (set_flag_effect _ ?o) => change (placed i o)
      | |- placed ?i (preserve_flags ?o) => change (placed i o)
      | |- placed ?i (set_plumbing ?o) => change (placed i o)
      | |- placed ?i (set_immediate _ ?o) => change (placed i o)
      | |- placed ?i (set_width _ ?o) => change (placed i o)
      | |- placed ?i (set_memory_address _ ?o) => change (placed i o)
      | |- placed ?i (set_right_operand ?o) => change (placed i o)
      | |- placed ?i (set_source_register _ ?o) => change (placed i o)
      | |- placed ?i (name_destination _ _ _ ?o) => change (placed i o)
      end ].

Section Snapshots.
Context `{DeobfIda} `{!DeobfIdaTyped}.

Lemma x86_data_placed insn out : placed insn out -> placed insn (x86_data insn out).2.
Proof.
  intros Ho. unfold x86_data. destruct (x86_itype (insn_itype insn)) as [i|]; [|done].
  destruct i; try done;
    unfold x86_push, x86_mov, x86_lea, x86_add, x86_arithmetic, x86_cmp, x86_test, x86_compare; cbn zeta;
    repeat (match goal with |- context [if ?b then _ else _] => destruct b
                          | |- context [match ?o with Some _ => _ | None => _ end] => destruct o end);
    cbn [snd]; placed_setters.
Qed.

Lemma arm_data_placed insn out : placed insn out -> placed insn (arm_data insn out).2.
Proof.
  intros Ho. unfold arm_data. destruct (arm_itype (insn_itype insn)) as [i|]; [|done].
  destruct i; try done;
    unfold arm_mov, arm_movt, arm_adr, arm_ldr, arm_arithmetic, arm_compare; cbn zeta;
    repeat (match goal with |- context [if ?b then _ else _] => destruct b
                          | |- context [match ?o with Some _ => _ | None => _ end] => destruct o end);
    cbn [snd]; placed_setters.
Qed.

Lemma translate_placed arch insn : placed insn (translate_instruction arch insn).
Proof.
  assert (placed insn (translate_x86 insn) /\ placed insn (translate_arm insn)) as [Hx Ha];
    [|by destruct arch].
  unfold translate_x86, translate_arm, transfer, indirect_transfer, other_branch, arm_branch. cbn zeta. split.
  - pose proof (x86_data_placed insn _ (placed_begin insn
      (if x86_preserves_flags (insn_itype insn) then Flags_Preserve else Flags_UnknownWrite))) as Hd.
    destruct (x86_data _ _) as [returned out]. cbn [snd] in Hd. placed_setters.
  - pose proof (arm_data_placed insn _ (placed_begin insn Flags_UnknownWrite)) as Hd.
    destruct (arm_data _ _) as [returned out]. cbn [snd] in Hd. placed_setters.
Qed.

(** An instruction of a snapshot comes from a decode at its address. *)
Definition decoded_from (i : Instruction) : Prop :=
  exists previous decoded,
    decoded_at (in_address i) = Some decoded /\ i = translated (in_address i) previous decoded.

Lemma decoded_at_spec ea decoded :
  decoded_at ea = Some decoded ->
  decode_insn ea = Some decoded /\ insn_ea decoded = ea /\ is_u64 ea /\ 0 < insn_size decoded < 2 ^ 16.
Proof.
  unfold decoded_at. destruct (decode_insn ea) as [d|] eqn:Ed; [|done].
  destruct (Z.eqb_spec (insn_size d) 0); [done|]. intros [= ->].
  destruct (dt_ea _ _ Ed) as [-> ?]. pose proof (dt_size _ _ Ed) as Hs. unfold is_u16 in Hs.
  split_and!; try done; lia.
Qed.

Lemma translated_place ea previous decoded :
  decoded_at ea = Some decoded ->
  in_address (translated ea previous decoded) = ea /\ in_size (translated ea previous decoded) = insn_size decoded /\
  decoded_from (translated ea previous decoded).
Proof.
  intros Hd. destruct (decoded_at_spec _ _ Hd) as (_ & Hea & _).
  pose proof (translate_placed detect_architecture decoded) as [Ha Hs].
  assert (in_address (translated ea previous decoded) = ea) as Hp
    by (unfold translated, set_alternate; cbn [in_address]; congruence).
  split_and!; [done|done|]. exists previous, decoded. by rewrite Hp.
Qed.

(** ** The heads of a chunk *)

(** [x] is a code head with an instruction. *)
Definition code_at (x : Z) : Prop := is_head x = true /\ is_code x = true /\ is_Some (decoded_at x).

(** What reading a stretch [ea, end_) adds to a snapshot: [l] holds decodes at code heads of
    the stretch in ascending order. *)
Definition read_in (ea end_ : Z) (l : list Instruction) : Prop :=
  Forall (fun i => ea <= in_address i < end_ /\ code_at (in_address i) /\ decoded_from i) l /\
  StronglySorted (fun i j => in_address i < in_address j) l.

Definition index_ok (s : SnapshotScan) : Prop :=
  map_ok Z.ltb (ss_by_address s) /\
  forall a i, (a, i) ∈ ss_by_address s -> in_address i = a /\ i ∈ ss_instructions s.

Lemma push_index_ok i s : index_ok s -> index_ok (push_instruction i s).
Proof.
  intros [Hok Hi]. split; [by apply (map_emplace_ok Z.ltb)|]. intros a j Hin.
  cbn [push_instruction ss_by_address ss_instructions] in *. unfold map_emplace in Hin.
  assert (forall a j, (a, j) ∈ ss_by_address s -> in_address j = a /\ j ∈ ss_instructions s ++ [i]) as Hold.
  { intros a' j' [Ha Hj]%Hi. split; [done|]. apply elem_of_app. by left. }
  destruct (map_find Z.ltb (in_address i) (ss_by_address s)); [by apply Hold|].
  apply (elem_of_map_set Z.ltb) in Hin; [|done]. destruct Hin as [[-> ->]|[_ Hin]]; [|by apply Hold].
  split; [done|]. apply elem_of_app. right. by apply list_elem_of_singleton.
Qed.

Lemma read_in_nil ea end_ : read_in ea end_ [].
Proof. split; constructor. Qed.

Lemma read_in_weaken ea ea' end_ l : ea' <= ea -> read_in ea end_ l -> read_in ea' end_ l.
Proof.
  intros Hle [Hf Hs]. split; [|done]. eapply Forall_impl; [exact Hf|]. intros i (? & ? & ?). split_and!; [lia..|done|done].
Qed.

Lemma read_in_cons ea next end_ i l :
  in_address i = ea -> ea < end_ -> ea < next -> code_at ea -> decoded_from i -> read_in next end_ l ->
  read_in ea end_ (i :: l).
Proof.
  intros Hi Hend Hlt Hc Hd [Hf Hs]. split.
  - constructor; [rewrite Hi; split_and!; [lia|lia|done|done]|].
    eapply Forall_impl; [exact Hf|]. intros j (? & ? & ?). split_and!; [lia..|done|done].
  - constructor; [done|]. eapply Forall_impl; [exact Hf|]. intros j ([? ?] & _). lia.
Qed.

(** The next instruction begins where this one ends, if the address does not wrap. *)
Lemma tiles_step ea next end_ i l :
  decoded_from i -> in_address i = ea -> 0 <= ea < end_ -> end_ <= u64_max -> ea < next ->
  read_in next end_ l -> tiles (ea_add ea (in_size i)) end_ l -> tiles ea end_ (i :: l).
Proof.
  intros (previous & decoded & Hd & Hi) Ha Hea Hend Hnext [Hf _] Ht. split; [done|].
  rewrite Ha in Hd. rewrite Ha in Hi. destruct (decoded_at_spec _ _ Hd) as (_ & _ & _ & Hs).
  pose proof (translated_place _ previous _ Hd) as (_ & Hsize & _). rewrite <- Hi in Hsize.
  unfold ea_add in Ht. unfold Instruction_end, kBadAddress, u64_max in *. rewrite Ha.
  destruct (Z.eqb_spec ea (2 ^ 64 - 1)) as [|_]; [lia|]. cbn [orb].
  destruct (Z.ltb_spec (2 ^ 64 - 1 - in_size i) ea) as [Hwrap|Hfit].
  - exfalso. assert ((ea + in_size i) mod 2 ^ 64 = ea + in_size i - 2 ^ 64) as E.
    { symmetry. apply (Z.mod_unique _ _ 1); lia. }
    rewrite E in Ht. destruct l as [|j l]; cbn [tiles] in Ht; [lia|].
    apply Forall_cons in Hf as [([? ?] & _) _]. lia.
  - by rewrite Z.mod_small in Ht by lia.
Qed.

Lemma snapshot_instruction_spec ea previous expected s :
  let '(_, expected', s') := snapshot_instruction ea previous expected s in
  ss_chunks s' = ss_chunks s /\ ss_scope_end s' = ss_scope_end s /\ (index_ok s -> index_ok s') /\
  ((exists i, decoded_from i /\ in_address i = ea /\ is_Some (decoded_at ea) /\
      ss_instructions s' = ss_instructions s ++ [i] /\ expected' = ea_add ea (in_size i) /\
      (ss_complete s' = true -> ss_complete s = true /\ ea = expected)) \/
   (decoded_at ea = None /\ ss_instructions s' = ss_instructions s /\ ss_complete s' = false)).
Proof.
  unfold snapshot_instruction. destruct (decoded_at ea) as [decoded|] eqn:Ed.
  - destruct (translated_place _ previous _ Ed) as (Ha & Hs & Hd).
    destruct (decoded_at_spec _ _ Ed) as (_ & Hea & _).
    split_and!; [by destruct (negb _)|by destruct (negb _)| |].
    + intros Hi. apply push_index_ok. by destruct (negb _).
    + left. eexists. split_and!; [exact Hd|done|by eexists|by destruct (negb _)|by rewrite Hs, Hea|].
      destruct (Z.eqb_spec ea expected); by cbn.
  - split_and!; [by destruct (negb _)|by destruct (negb _)|by destruct (negb _)|].
    right. split_and!; [done|by destruct (negb _)|done].
Qed.

(** What a part of the scan adds to the snapshot. *)
Definition grows (limit : Z) (s s' : SnapshotScan) (l : list Instruction) : Prop :=
  ss_instructions s' = ss_instructions s ++ l /\ ss_chunks s' = ss_chunks s /\
  ss_scope_end s' = ss_scope_end s /\ (index_ok s -> index_ok s') /\
  (ss_complete s' = true -> ss_complete s = true) /\
  (zlen (ss_instructions s) <= limit -> zlen (ss_instructions s') <= limit).

Lemma grows_refl limit s : grows limit s s [].
Proof. unfold grows. rewrite app_nil_r. done. Qed.

Lemma grows_trans limit s1 s2 s3 l1 l2 :
  grows limit s1 s2 l1 -> grows limit s2 s3 l2 -> grows limit s1 s3 (l1 ++ l2).
Proof.
  intros (A1 & A2 & A3 & A4 & A5 & A6) (B1 & B2 & B3 & B4 & B5 & B6). unfold grows. split_and!.
  - rewrite B1, A1, app_assoc. done.
  - congruence.
  - congruence.
  - auto.
  - auto.
  - auto.
Qed.

(** The outcome of reading heads from [ea] on. *)
Definition heads_read (fuel : Z) (end_ limit ea expected : Z) (s : SnapshotScan)
    (outcome : bool * Z * SnapshotScan) : Prop :=
  let '(exhausted, expected', s') := outcome in
  exists l, grows limit s s' l /\ read_in ea end_ l /\
    (exhausted = true -> limit <= zlen (ss_instructions s') /\ ss_complete s' = false) /\
    (exhausted = false -> ss_complete s' = true -> expected' = end_ -> tiles expected end_ l) /\
    (exhausted = false -> IdaHeads -> end_ - ea <= fuel ->
     forall x, ea <= x < end_ -> code_at x -> exists i, i ∈ l /\ in_address i = x).

(** Nothing more is read where there are no more heads. *)
Lemma heads_read_stop fuel end_ limit ea expected s :
  (IdaHeads -> end_ - ea <= fuel -> forall x, ea <= x < end_ -> ~ code_at x) ->
  heads_read fuel end_ limit ea expected s (false, expected, s).
Proof.
  intros Hno. exists []. split_and!; [apply grows_refl|apply read_in_nil|done|done|].
  intros _ Hh Hf x Hx Hc. by destruct (Hno Hh Hf x Hx).
Qed.

(** One head and the rest. *)
Lemma heads_read_instruction fuel end_ limit ea previous expected s outcome :
  0 <= ea < end_ -> end_ <= u64_max -> zlen (ss_instructions s) < limit ->
  let '(_, expected1, s1) := snapshot_instruction ea previous expected s in
  heads_read fuel end_ limit (ea + 1) expected1 s1 outcome ->
  code_at ea \/ decoded_at ea = None -> heads_read (fuel + 1) end_ limit ea expected s outcome.
Proof.
  intros Hea Hend Hlim. pose proof (snapshot_instruction_spec ea previous expected s) as Hs.
  destruct (snapshot_instruction _ _ _ _) as [[previous1 expected1] s1]. unfold heads_read.
  destruct outcome as [[exhausted expected'] s']. intros (l & Hg & Hr & Hex & Ht & Hcov) Hcode.
  destruct Hs as (Hc & He & Hi & [(i & Hd & Ha & Hsome & Hl & -> & Hcomp)|(Hnone & Hl & Hcomp)]).
  - exists (i :: l). destruct Hcode as [Hcode|Hno]; [|by rewrite Hno in Hsome; destruct Hsome].
    split_and!.
    + apply (grows_trans limit s s1 s' [i] l); [|done]. unfold grows. rewrite Hl, zlen_app, zlen_cons, zlen_nil.
      split_and!; [done|done|done|done|by intros [? _]%Hcomp|lia].
    + by apply (read_in_cons ea (ea + 1) end_); [done|lia|lia|done|done|].
    + done.
    + intros Hx Hdone Hexp. destruct Hcomp as [_ <-]; [by apply Hg|].
      apply (tiles_step ea (ea + 1)); try done; [lia|]. by apply Ht.
    + intros Hx Hheads Hf x Hin Hcx. destruct (decide (x = ea)) as [->|Hne]; [exists i; set_solver|].
      destruct (Hcov Hx Hheads ltac:(lia) x ltac:(lia) Hcx) as (j & Hj & ?). exists j. set_solver.
  - exists l. split_and!.
    + apply (grows_trans limit s s1 s' [] l); [|done]. unfold grows. rewrite Hl, app_nil_r.
      split_and!; [done|done|done|done|congruence|done].
    + by apply (read_in_weaken (ea + 1)); [lia|].
    + done.
    + intros Hx Hdone%Hg. congruence.
    + intros Hx Hheads Hf x Hin Hcx. destruct (decide (x = ea)) as [->|Hne].
      * destruct Hcx as (_ & _ & Hsome). rewrite Hnone in Hsome. by destruct Hsome.
      * apply (Hcov Hx Hheads); [lia|lia|done].
Qed.

(** A head without code. *)
Lemma heads_read_skip fuel end_ limit ea expected s outcome :
  ~ code_at ea -> heads_read fuel end_ limit (ea + 1) expected s outcome ->
  heads_read (fuel + 1) end_ limit ea expected s outcome.
Proof.
  intros Hno. unfold heads_read. destruct outcome as [[exhausted expected'] s'].
  intros (l & Hg & Hr & Hex & Ht & Hcov). exists l. split_and!; try done.
  - by apply (read_in_weaken (ea + 1)); [lia|].
  - intros Hx Hheads Hf x Hin Hcx. destruct (decide (x = ea)) as [->|Hne]; [done|].
    apply (Hcov Hx Hheads); [lia|lia|done].
Qed.

(** The heads between two heads are none. *)
Lemma heads_read_next fuel end_ limit ea expected s outcome :
  0 <= ea < end_ -> end_ <= u64_max -> ea < next_head ea end_ ->
  heads_read fuel end_ limit (next_head ea end_) expected s outcome ->
  heads_read fuel end_ limit (ea + 1) expected s outcome.
Proof.
  intros Hea Hend Hlt. unfold heads_read. destruct outcome as [[exhausted expected'] s'].
  intros (l & Hg & Hr & Hex & Ht & Hcov). exists l. split_and!; try done.
  - by apply (read_in_weaken (next_head ea end_)); [lia|].
  - intros Hx Hheads Hf x Hin Hcx. destruct (decide (next_head ea end_ <= x)) as [Hle|Hgt].
    + apply (Hcov Hx Hheads); [lia|lia|done].
    + exfalso. destruct (next_head_law ea end_ Hea Hend) as [[_ Hno]|(_ & _ & Hno)];
        (destruct Hcx as [Hh _]; rewrite Hno in Hh by lia; done).
Qed.

Lemma snapshot_heads_spec fuel end_ limit ea previous expected s :
  0 <= ea -> end_ <= u64_max ->
  heads_read (Z.of_nat fuel) end_ limit ea expected s (snapshot_heads fuel end_ limit ea previous expected s).
Proof.
  revert ea previous expected s. induction fuel as [|fuel IH]; intros ea previous expected s Hea Hend;
    cbn [snapshot_heads]; [apply heads_read_stop; lia|].
  destruct (Z.leb_spec end_ ea) as [|Hlt]; [rewrite orb_true_r; apply heads_read_stop; lia|].
  destruct (Z.eqb_spec ea BADADDR) as [Hb|_]; [unfold BADADDR, kNativeBadAddress in Hb; lia|]. cbn [orb].
  destruct (Z.leb_spec limit (zlen (ss_instructions s))) as [Hfull|Hroom].
  { exists []. split_and!; [unfold grows; by rewrite app_nil_r|apply read_in_nil|done|done|done]. }
  rewrite Nat2Z.inj_succ, <- Z.add_1_r.
  assert (forall previous expected s, heads_read (Z.of_nat fuel) end_ limit (ea + 1) expected s
    (if (next_head ea end_ =? BADADDR) || (next_head ea end_ <=? ea) then (false, expected, s)
     else snapshot_heads fuel end_ limit (next_head ea end_) previous expected s)) as Hrest.
  { clear previous expected s Hroom. intros previous expected s.
    destruct (Z.leb_spec (next_head ea end_) ea) as [Hle|Hnext].
    - rewrite orb_true_r. apply heads_read_stop. intros Hheads _ x Hx (Hh & _).
      destruct (next_head_law ea end_ ltac:(lia) Hend) as [[_ Hno]|(? & _)]; [|lia]. by rewrite Hno in Hh by lia.
    - destruct (Z.eqb_spec (next_head ea end_) BADADDR) as [Hb|_]; cbn [orb].
      + apply heads_read_stop. intros Hheads _ x Hx (Hh & _).
        destruct (next_head_law ea end_ ltac:(lia) Hend) as [[_ Hno]|(? & _)]; [by rewrite Hno in Hh by lia|].
        unfold BADADDR, kNativeBadAddress in Hb. lia.
      + apply heads_read_next; [lia|done|done|]. apply IH; [lia|done]. }
  destruct (is_head ea && is_code ea) eqn:Ehc.
  - pose proof (heads_read_instruction (Z.of_nat fuel) end_ limit ea previous expected s) as Hi.
    destruct (snapshot_instruction ea previous expected s) as [[previous1 expected1] s1].
    apply Hi; [lia|done|done|apply Hrest|]. apply andb_prop in Ehc as [Hh Hc].
    destruct (decoded_at ea) as [d|] eqn:Ed; [left|by right]. split_and!; [done|done|by exists d].
  - apply heads_read_skip; [|apply Hrest]. intros (Hh & Hc & _). by rewrite Hh, Hc in Ehc.
Qed.

(** ** The chunks of a function *)

(** Ranges that share no address. *)
Definition disjoint_ranges (ranges : list (Z * Z)) : Prop :=
  StronglySorted (fun r r' => forall x, r.1 <= x < r.2 -> ~ r'.1 <= x < r'.2) ranges.

(** What a snapshot says of chunks: [l] is what they add. *)
Definition chunks_read (limit : Z) (ranges : list (Z * Z)) (s s' : SnapshotScan) (l : list Instruction) : Prop :=
  ss_instructions s' = ss_instructions s ++ l /\ (index_ok s -> index_ok s') /\
  (ss_complete s' = true -> ss_complete s = true) /\
  (zlen (ss_instructions s) <= limit -> zlen (ss_instructions s') <= limit) /\
  Forall (fun i => (exists r, r ∈ ranges /\ r.1 <= in_address i < r.2) /\ code_at (in_address i) /\ decoded_from i) l /\
  (ss_complete s' = true -> forall r, r ∈ ranges -> r.1 < r.2 ->
     exists l', (forall i, i ∈ l' -> i ∈ l) /\ tiles r.1 r.2 l') /\
  (IdaHeads -> zlen (ss_instructions s') < limit -> forall r x, r ∈ ranges -> r.1 <= x < r.2 -> code_at x ->
     exists i, i ∈ l /\ in_address i = x) /\
  (disjoint_ranges ranges -> NoDup (map in_address l)).

(** Instructions of ranges that share no address have different addresses. *)
Lemma NoDup_ranges range ranges (l1 l2 : list Instruction) :
  disjoint_ranges (range :: ranges) -> NoDup (map in_address l1) -> NoDup (map in_address l2) ->
  (forall i, i ∈ l1 -> range.1 <= in_address i < range.2) ->
  (forall i, i ∈ l2 -> exists r, r ∈ ranges /\ r.1 <= in_address i < r.2) ->
  NoDup (map in_address (l1 ++ l2)).
Proof.
  intros [_ Hd]%StronglySorted_inv Hn1 Hn2 Hin1 Hin2. rewrite map_app. apply NoDup_app. split_and!; [done| |done].
  intros a (i & -> & Hi)%list_elem_of_fmap (j & Heq & Hj)%list_elem_of_fmap.
  destruct (Hin2 j Hj) as (r & Hr & Hx). rewrite Forall_forall in Hd.
  apply (Hd r Hr (in_address i)); [by apply Hin1|by rewrite Heq].
Qed.

Lemma chunks_read_cons limit range ranges s s1 s' l1 l2 :
  chunks_read limit [range] s s1 l1 -> chunks_read limit ranges s1 s' l2 ->
  zlen (ss_instructions s1) <= zlen (ss_instructions s') -> chunks_read limit (range :: ranges) s s' (l1 ++ l2).
Proof.
  intros (A1 & A2 & A3 & A4 & A5 & A6 & A7 & A8) (B1 & B2 & B3 & B4 & B5 & B6 & B7 & B8) Hle.
  unfold chunks_read. split_and!; [by rewrite B1, A1, app_assoc|auto..| | | |].
  - apply Forall_app. split; (eapply Forall_impl; [eassumption|]); intros i ((r & Hr & ?) & ? & ?);
      (split_and!; [exists r; set_solver|done..]).
  - intros Hdone r [->|Hr]%elem_of_cons Hne.
    + destruct (A6 (B3 Hdone) range ltac:(set_solver) Hne) as (l' & Hin & Ht). exists l'. split; [set_solver|done].
    + destruct (B6 Hdone r Hr Hne) as (l' & Hin & Ht). exists l'. split; [set_solver|done].
  - intros Hheads Hlim r x [->|Hr]%elem_of_cons Hx Hc.
    + destruct (A7 Hheads ltac:(lia) range x ltac:(set_solver) Hx Hc) as (i & ? & ?). exists i. set_solver.
    + destruct (B7 Hheads Hlim r x Hr Hx Hc) as (i & ? & ?). exists i. set_solver.
  - intros Hd. pose proof Hd as [Hd2 _]%StronglySorted_inv. rewrite Forall_forall in A5, B5.
    apply (NoDup_ranges range ranges); [done|apply A8; repeat constructor|by apply B8| |].
    + intros i Hi. by destruct (A5 i Hi) as ((r & ->%list_elem_of_singleton & ?) & _).
    + intros i Hi. by destruct (B5 i Hi) as (? & _).
Qed.

Lemma chunks_read_nil limit s : chunks_read limit [] s s [].
Proof.
  unfold chunks_read. rewrite app_nil_r. split_and!; try done.
  - by intros _ r ?%elem_of_nil.
  - by intros _ _ r x ?%elem_of_nil.
  - intros _. constructor.
Qed.

Lemma ascending_NoDup (l : list Instruction) :
  StronglySorted (fun i j => in_address i < in_address j) l -> NoDup (map in_address l).
Proof.
  induction 1 as [|i l Hs IH Hi]; cbn [map]; constructor; [|done].
  intros (j & Heq & Hj)%list_elem_of_fmap. rewrite Forall_forall in Hi. specialize (Hi j Hj). lia.
Qed.

Lemma snapshot_chunk_spec limit range s :
  range_typed range -> range.1 < range.2 ->
  let '(exhausted, s') := snapshot_chunk limit range s in
  (exists l, chunks_read limit [range] s s' l) /\
  (exhausted = true -> limit <= zlen (ss_instructions s') /\ ss_complete s' = false).
Proof.
  destruct range as [start end_]. intros [Hs He] Hlt. unfold is_u64 in *. cbn [fst snd] in *.
  pose proof (snapshot_heads_spec (Z.to_nat (end_ - start)) end_ limit start BADADDR start
    (push_chunk (start, end_) s) ltac:(lia) ltac:(unfold u64_max; lia)) as Hr.
  unfold snapshot_chunk. destruct (snapshot_heads _ _ _ _ _ _ _) as [[exhausted expected] s1].
  destruct Hr as (l & (G1 & G2 & G3 & G4 & G5 & G6) & [Hf Hsorted] & Hex & Ht & Hcov).
  assert (forall P : SnapshotScan -> Prop, (ss_instructions s1 = ss_instructions (incomplete s1) -> P (incomplete s1)) ->
    P s1 -> P (if negb (expected =? end_) then incomplete s1 else s1)) as Hcase.
  { intros P Hi Hn. destruct (negb _); [by apply Hi|done]. }
  split.
  - exists l. unfold chunks_read. split_and!.
    + by apply (Hcase (fun s' => ss_instructions s' = _)).
    + apply (Hcase (fun s' => index_ok s -> index_ok s')); [intros _ Hi|intros Hi]; by apply G4.
    + apply (Hcase (fun s' => ss_complete s' = true -> _)); [done|exact G5].
    + apply (Hcase (fun s' => _ -> zlen (ss_instructions s') <= limit)); [intros _|]; exact G6.
    + eapply Forall_impl; [exact Hf|]. intros i ([? ?] & Hc & Hd). split; [|by split].
      exists (start, end_). split; [set_solver|cbn; lia].
    + destruct (Z.eqb_spec expected end_) as [Heq|]; cbn [negb]; [|done].
      intros Hdone r ->%list_elem_of_singleton _. cbn. exists l. split; [done|].
      destruct exhausted; [by destruct (Hex eq_refl) as [_ Hno]; rewrite Hdone in Hno|]. by apply Ht.
    + intros Hheads Hlim r x ->%list_elem_of_singleton Hx Hc. cbn in Hx.
      assert (zlen (ss_instructions s1) < limit) as Hlim1 by (revert Hlim; by destruct (negb _)).
      destruct exhausted; [destruct (Hex eq_refl); lia|]. apply Hcov; [done|done|lia|done|done].
    + intros _. by apply ascending_NoDup.
  - intros Hx. destruct (Hex Hx) as [Hl Hc]. by destruct (negb _).
Qed.

Lemma chunks_read_skip limit range ranges s s' l :
  range.2 <= range.1 -> chunks_read limit ranges s s' l -> chunks_read limit (range :: ranges) s s' l.
Proof.
  intros Hempty (B1 & B2 & B3 & B4 & B5 & B6 & B7 & B8). unfold chunks_read. split_and!; try done.
  - eapply Forall_impl; [exact B5|]. intros i ((r & Hr & ?) & ?). split; [exists r; set_solver|done].
  - intros Hdone r [->|Hr]%elem_of_cons Hne; [lia|by apply B6].
  - intros Hheads Hlim r x [->|Hr]%elem_of_cons Hx Hc; [lia|by apply (B7 Hheads Hlim r)].
  - intros [Hd _]%StronglySorted_inv. by apply B8.
Qed.

(** Reading stops when the budget is exhausted: then nothing is claimed of the rest. *)
Lemma chunks_read_stop limit range ranges s s' l :
  limit <= zlen (ss_instructions s') -> ss_complete s' = false ->
  chunks_read limit [range] s s' l -> chunks_read limit (range :: ranges) s s' l.
Proof.
  intros Hlim Hc (B1 & B2 & B3 & B4 & B5 & B6 & B7 & B8). unfold chunks_read. split_and!; try done.
  - eapply Forall_impl; [exact B5|]. intros i ((r & Hr & ?) & ?). split; [exists r; set_solver|done].
  - congruence.
  - lia.
  - intros _. apply B8. repeat constructor.
Qed.

Lemma snapshot_chunks_spec limit ranges s :
  Forall range_typed ranges -> exists l, chunks_read limit ranges s (snapshot_chunks limit ranges s) l.
Proof.
  intros Hr. revert s. induction Hr as [|range ranges Hr Hrs IH]; intros s; cbn [snapshot_chunks].
  - exists []. apply chunks_read_nil.
  - destruct (Z.leb_spec range.2 range.1) as [He|Hne].
    { destruct (IH s) as [l Hl]. exists l. by apply chunks_read_skip. }
    pose proof (snapshot_chunk_spec limit range s Hr Hne) as Hc.
    destruct (snapshot_chunk limit range s) as [[] s1]; destruct Hc as ((l1 & Hl1) & Hex).
    + destruct (Hex eq_refl). exists l1. by apply chunks_read_stop.
    + destruct (IH s1) as [l2 Hl2]. exists (l1 ++ l2). apply (chunks_read_cons _ _ _ _ s1); [done|done|].
      rewrite (proj1 Hl2), zlen_app. pose proof (zlen_nonneg l2). lia.
Qed.

(** ** Blocks *)

Definition entries_ok (entries : omap Z Instruction) : Prop := forall a i, (a, i) ∈ entries -> in_address i = a.

Lemma block_instructions_spec block_end entries expected complete :
  entries_ok entries ->
  let '(l, expected', complete') := block_instructions block_end expected complete entries in
  (forall i, i ∈ l -> exists a, (a, i) ∈ entries) /\
  (complete' = true -> complete = true /\ tiles expected expected' l).
Proof.
  revert expected complete. induction entries as [|[a i] entries IH]; intros expected complete Hok;
    cbn [block_instructions]; [split; [by intros ? ?%elem_of_nil|done]|].
  destruct (Z.ltb_spec a block_end); [|split; [by intros ? ?%elem_of_nil|done]].
  assert (entries_ok entries) as Hok' by (intros b j Hj; apply Hok; set_solver).
  specialize (IH (Instruction_end i) (complete && (a =? expected)) Hok').
  destruct (block_instructions _ _ _ _) as [[l expected'] complete']. destruct IH as [Hin Ht]. split.
  - intros j [->|Hj]%elem_of_cons; [exists a; set_solver|]. destruct (Hin j Hj) as [b ?]. exists b. set_solver.
  - intros Hc. destruct (Ht Hc) as [[-> <-%Z.eqb_eq]%andb_prop Htl]. split; [done|]. split; [|done].
    apply Hok. set_solver.
Qed.

Lemma map_lower_bound_elem {V} k (m : omap Z V) x : x ∈ map_lower_bound Z.ltb k m -> x ∈ m.
Proof.
  induction m as [|[a v] m IH]; cbn [map_lower_bound]; [done|]. destruct (a <? k); [|done].
  intros Hx%IH. set_solver.
Qed.

Definition block_filled (s : SnapshotScan) (b : Block) : Prop :=
  bl_instructions b <> [] /\ tiles (bl_start b) (bl_end b) (bl_instructions b) /\
  forall i, i ∈ bl_instructions b -> i ∈ ss_instructions s.

Lemma make_block_filled s flow source b :
  index_ok s -> make_block flow (ss_by_address s) source = (b, true) -> zlen (bl_instructions b) <> 0 ->
  block_filled s b.
Proof.
  intros [_ Hi]. unfold make_block.
  pose proof (block_instructions_spec (qb_end_ea source) (map_lower_bound Z.ltb (qb_start_ea source) (ss_by_address s))
    (qb_start_ea source) true) as Hb.
  destruct (block_instructions _ _ _ _) as [[l expected] complete].
  destruct Hb as [Hin Ht]; [intros a i Ha%map_lower_bound_elem; by apply (Hi a i)|].
  intros [= <- [-> <-%Z.eqb_eq]%andb_prop] Hne. unfold block_filled. cbn [bl_instructions bl_start bl_end] in *.
  split_and!; [by intros ->|by apply Ht|].
  intros i (a & Ha%map_lower_bound_elem)%Hin. by apply (Hi a).
Qed.

Lemma push_blocks_filled s flow sources state :
  index_ok s -> Forall (block_filled s) state.1.1 ->
  let state' := foldl (push_block flow (ss_by_address s)) state sources in
  Forall (block_filled s) state'.1.1 /\ zlen state'.1.1 <= zlen state.1.1 + zlen sources.
Proof.
  intros Hi. revert state. induction sources as [|source sources IH]; intros [[blocks complete] stats] Hb;
    cbn [foldl]; [split; [done|rewrite zlen_nil; lia]|].
  cbn [fst] in *. cbn zeta. rewrite zlen_cons.
  pose proof (make_block_filled s flow source) as Hm. unfold push_block at 2 4.
  destruct (make_block flow (ss_by_address s) source) as [b c].
  assert (forall c', Forall (block_filled s) (foldl (push_block flow (ss_by_address s)) (blocks, c', stats) sources).1.1 /\
    zlen (foldl (push_block flow (ss_by_address s)) (blocks, c', stats) sources).1.1 <= zlen blocks + (1 + zlen sources))
    as Hskip by (intros c'; destruct (IH (blocks, c', stats) Hb); cbn [fst] in *; split; [done|lia]).
  destruct (Z.eqb_spec (zlen (bl_instructions b)) 0) as [|Hne]; cbn [negb andb]; [apply Hskip|].
  destruct c; [|apply Hskip].
  destruct (IH (blocks ++ [b], complete, bump blocks_scanned stats)) as [H1' H2'].
  - apply Forall_app. split; [done|]. constructor; [by apply Hm|constructor].
  - cbn [fst] in *. split; [done|]. rewrite zlen_app, zlen_cons, zlen_nil in H2'. lia.
Qed.

(** ** The snapshot *)

Lemma std_sort_length {A} (lt : A -> A -> bool) l : zlen (std_sort lt l) = zlen l.
Proof.
  assert (forall x r, zlen (insert_by lt x r) = 1 + zlen r) as Hins.
  { intros x r. induction r as [|y r IH]; cbn [insert_by]; [done|]. destruct (lt y x); rewrite !zlen_cons; lia. }
  induction l as [|x l IH]; [done|]. cbn [std_sort]. by rewrite Hins, IH, zlen_cons.
Qed.

Lemma std_sort_by_key (l : list Instruction) :
  StronglySorted (fun i j => in_address i <= in_address j) (std_sort (fun a b => in_address a <? in_address b) l).
Proof.
  apply (StronglySorted_map in_address Z.le). rewrite (std_sort_map Z.ltb in_address).
  eapply (StronglySorted_weaken (le_by Z.ltb)); [unfold le_by; lia|apply (std_sort_sorted Z.ltb)].
Qed.

Definition function_limit (options : DeobfAnalysisOptions) : Z :=
  hard_limit (do_max_instructions_per_function options) 1000000.

(** The ends of the chunks bound the scope. *)
Lemma snapshot_chunks_scope limit ranges s :
  Forall range_typed ranges -> is_u64 (ss_scope_end s) -> is_u64 (ss_scope_end (snapshot_chunks limit ranges s)).
Proof.
  intros Hr. revert s. induction Hr as [|[start end_] ranges [Hs He] Hrs IH]; intros s Hsc; cbn [snapshot_chunks]; [done|].
  cbn [fst snd] in *. destruct (Z.leb_spec end_ start); [by apply IH|].
  unfold snapshot_chunk.
  pose proof (snapshot_heads_spec (Z.to_nat (end_ - start)) end_ limit start BADADDR start
    (push_chunk (start, end_) s) ltac:(unfold is_u64 in *; lia) ltac:(unfold is_u64, u64_max in *; lia)) as Hh.
  destruct (snapshot_heads _ _ _ _ _ _ _) as [[exhausted expected] s1]. destruct Hh as (l & (_ & _ & Hscope & _) & _).
  cbn [push_chunk ss_scope_end snd] in Hscope.
  assert (is_u64 (ss_scope_end (if negb (expected =? end_) then incomplete s1 else s1))) as Hend.
  { assert (is_u64 (ss_scope_end s1)) by (rewrite Hscope; unfold is_u64 in *; lia). by destruct (negb _). }
  destruct exhausted; [done|by apply IH].
Qed.

(** What a snapshot holds, and that code heads are missing only beyond the limit. *)
Lemma snapshot_spec options f stats sn stats' :
  function_typed f -> 0 <= do_max_instructions_per_function options ->
  snapshot_function (Some f) options stats = (Some sn, stats') ->
  sn_function sn = f /\ is_u64 (sn_scope_end sn) /\
  (forall i, i ∈ sn_instructions sn ->
     (exists r, r ∈ fn_chunks f /\ r.1 <= in_address i < r.2) /\ code_at (in_address i) /\ decoded_from i) /\
  zlen (sn_instructions sn) <= function_limit options /\
  (IdaHeads -> zlen (sn_instructions sn) < function_limit options ->
   forall r x, r ∈ fn_chunks f -> r.1 <= x < r.2 -> code_at x ->
     exists i, i ∈ sn_instructions sn /\ in_address i = x) /\
  (sn_scan_complete sn = true -> forall r, r ∈ fn_chunks f -> r.1 < r.2 ->
     exists l, (forall i, i ∈ l -> i ∈ sn_instructions sn) /\ tiles r.1 r.2 l) /\
  (forall b, b ∈ sn_blocks sn ->
     bl_instructions b <> [] /\ tiles (bl_start b) (bl_end b) (bl_instructions b) /\
     forall i, i ∈ bl_instructions b -> i ∈ sn_instructions sn) /\
  StronglySorted (fun i j => in_address i <= in_address j) (sn_instructions sn) /\
  (disjoint_ranges (fn_chunks f) ->
   StronglySorted (fun i j => in_address i < in_address j) (sn_instructions sn)).
Proof.
  intros (_ & He & Hr) Hopt. unfold snapshot_function. destruct (fn_start_ea f =? BADADDR); [done|].
  fold (function_limit options).
  destruct (snapshot_chunks_spec (function_limit options) (fn_chunks f) (begin_snapshot f stats) Hr)
    as (l & Hl & Hi & _ & Hlim & Hin & Htile & Hcov & Hnd).
  set (s := snapshot_chunks _ _ _) in *. cbn [begin_snapshot ss_instructions app] in Hl.
  assert (index_ok s) as Hidx by (apply Hi; split; [constructor|by intros ? ? ?%elem_of_nil]).
  destruct (build_blocks _ _ _ _) as [[blocks complete] stats1] eqn:Eb. intros [= <- <-].
  pose proof (snapshot_chunks_scope (function_limit options) (fn_chunks f) (begin_snapshot f stats) Hr He) as Hscope.
  cbn [sn_instructions sn_scan_complete sn_blocks sn_function sn_scope_end].
  assert (forall i, i ∈ std_sort (fun a b => in_address a <? in_address b) (ss_instructions s) <-> i ∈ l) as Hel
    by (intros i; by rewrite elem_of_std_sort_any, Hl).
  rewrite std_sort_length. split; [done|]. split; [exact Hscope|]. split_and!.
  - intros i Hi'%Hel. rewrite Forall_forall in Hin. by apply Hin.
  - apply Hlim. cbn. unfold function_limit, hard_limit. destruct (Z.eqb_spec (do_max_instructions_per_function options) 0);
      rewrite ?zlen_nil; lia.
  - intros Hheads Hlt r x Hrin Hx Hc. destruct (Hcov Hheads Hlt r x Hrin Hx Hc) as (i & ? & ?).
    exists i. by rewrite Hel.
  - intros Hdone r Hrin Hne. destruct (Htile Hdone r Hrin Hne) as (l' & Hl' & Ht).
    exists l'. split; [|done]. intros i Hi'%Hl'. by apply Hel.
  - intros b Hb. assert (block_filled s b) as (Hne & Ht & Hbi).
    { revert Eb. unfold build_blocks. destruct (ss_chunks s) as [|c cs]; [intros [= <- _ _]; by apply elem_of_nil in Hb|].
      intros Eb. pose proof (push_blocks_filled s (flow_chart (c :: cs))) as Hpush.
      match type of Eb with foldl _ ?st ?src = _ =>
        destruct (Hpush src st Hidx) as [Hf _]; [constructor|]; rewrite Eb in Hf end.
      cbn [fst] in Hf. rewrite Forall_forall in Hf. by apply Hf. }
    split_and!; [done|done|]. intros i Hi'%Hbi. by rewrite elem_of_std_sort_any.
  - apply std_sort_by_key.
  - intros Hd%Hnd. rewrite Hl.
    eapply (StronglySorted_weaken (fun i j => (in_address i <? in_address j) = true));
      [intros i j; lia|by apply (sort_by_key_strict Z.ltb in_address)].
Qed.

(** C38: the snapshot of a function holds what its database shows.  Every instruction is the
    translation of a decode at a code head of one of the chunks, and there are no more of
    them than the limit; they are ordered by address, and if the chunks share no address
    then each address is there once; below the limit no code head that decodes is missing.
    If the snapshot calls its scan complete, the instructions tile every chunk: each byte of
    the function belongs to one of them.  Every block has instructions of the snapshot that
    fill it from its start to its end. *)
Theorem deobf_snapshot_exact options f stats sn stats' :
  IdaHeads -> function_typed f ->
  0 <= do_max_instructions_per_function options ->
  snapshot_function (Some f) options stats = (Some sn, stats') ->
  (forall i, i ∈ sn_instructions sn ->
     (exists r, r ∈ fn_chunks f /\ r.1 <= in_address i < r.2) /\ code_at (in_address i) /\ decoded_from i) /\
  zlen (sn_instructions sn) <= function_limit options /\
  StronglySorted (fun i j => in_address i <= in_address j) (sn_instructions sn) /\
  (disjoint_ranges (fn_chunks f) ->
   StronglySorted (fun i j => in_address i < in_address j) (sn_instructions sn)) /\
  (zlen (sn_instructions sn) < function_limit options ->
   forall r x, r ∈ fn_chunks f -> r.1 <= x < r.2 -> code_at x ->
     exists i, i ∈ sn_instructions sn /\ in_address i = x) /\
  (sn_scan_complete sn = true -> forall r, r ∈ fn_chunks f -> r.1 < r.2 ->
     exists l, (forall i, i ∈ l -> i ∈ sn_instructions sn) /\ tiles r.1 r.2 l) /\
  (forall b, b ∈ sn_blocks sn ->
     bl_instructions b <> [] /\ tiles (bl_start b) (bl_end b) (bl_instructions b) /\
     forall i, i ∈ bl_instructions b -> i ∈ sn_instructions sn).
Proof.
  intros Hheads Hf Hopt Hs.
  destruct (snapshot_spec _ _ _ _ _ Hf Hopt Hs) as (_ & _ & Hi & Hl & Hcov & Ht & Hb & Ho & Hu).
  split_and!; [done|done|done|done|by apply Hcov|done|done].
Qed.
End Snapshots.

(** [mov eax, 20], [add eax, 4], [jmp eax] and the target, [nop]. *)
Definition jump_listing : list insn_t :=
  let eax := an_operand o_reg 4 0 0 0 in
  [an_insn 16 2 (x86_number NN_mov) [eax; an_operand o_imm 4 0 20 0];
   an_insn 18 2 (x86_number NN_add) [eax; an_operand o_imm 4 0 4 0];
   an_insn 20 4 (x86_number NN_jmp) [eax]; an_insn 24 1 (x86_number NN_nop) []].

Definition jump_snapshot : option FunctionSnapshot :=
  (snapshot_function (H0 := deobf_listing jump_listing) (Some (listing_function jump_listing))
     default_deobf_options (start_stats (H := deobf_listing_ida jump_listing) new_deobf_provider)).1.

Lemma deobf_snapshot_exact_witness :
  exists sn, jump_snapshot = Some sn /\ sn_scan_complete sn = true /\ zlen (sn_instructions sn) = 4 /\
    StronglySorted (fun i j => in_address i < in_address j) (sn_instructions sn) /\
    exists l, (forall i, i ∈ l -> i ∈ sn_instructions sn) /\ tiles 16 25 l.
Proof.
  eexists. split; [vm_compute; reflexivity|]. split; [reflexivity|]. split; [reflexivity|].
  assert (@DeobfIdaTyped (deobf_listing_ida jump_listing) (deobf_listing jump_listing)) as Htyped
    by (apply deobf_listing_typed; vm_compute; reflexivity).
  edestruct (deobf_snapshot_exact (H0 := deobf_listing jump_listing) default_deobf_options
    (listing_function jump_listing) (start_stats (H := deobf_listing_ida jump_listing) new_deobf_provider))
    as (_ & _ & _ & Hunique & _ & Htiles & _).
  - apply listing_heads. repeat constructor.
  - split_and!; [vm_compute; split; [discriminate|reflexivity]..|].
    constructor; [vm_compute; split; split; first [discriminate|reflexivity]|constructor].
  - vm_compute. discriminate.
  - vm_compute. reflexivity.
  - split; [apply Hunique; repeat constructor|]. apply (Htiles eq_refl (16, 25)); [by left|reflexivity].
Defined.
