(* ===== verification/DeobfTyped.v ===== *)
(** * The ranges of what the deobfuscation analysis finds (deobf_analysis.cpp)

    The disassembler's answers have the ranges of their C++ types ([DeobfIdaTyped]); so have
    the instructions that are made of them, the results of the classifiers, and the facts
    that the provider offers to its sink. *)
From stdpp Require Import base numbers list strings option sets gmap.
From Stdlib Require Import ZArith Init.Byte Lia.
From S2P Require Import Prelude OrderedMap FactTypes Sha256 Validate FactCodec Store.
From S2P Require Import NativeTypes NativeDatabase Deobf DeobfFlags DeobfMachine DeobfConstants DeobfEntry.
From S2P Require Import DeobfGadget DeobfDispatch DeobfLowering DeobfListing DeobfDriver DeobfSnapshot.

(** ** Words *)

Lemma bounded_bits n v : 0 <= n -> 0 <= v -> (forall i, n <= i -> Z.testbit v i = false) -> v < 2 ^ n.
Proof.
  intros Hn Hv Hb. destruct (Z.ltb_spec v (2 ^ n)) as [|Hge]; [done|exfalso].
  pose proof (Z.pow_pos_nonneg 2 n ltac:(lia) Hn) as Hp.
  pose proof (Z.bit_log2 v ltac:(lia)) as Htop. rewrite Hb in Htop; [done|].
  apply Z.log2_le_pow2; lia.
Qed.

Lemma word_bits v i : is_u64 v -> 64 <= i -> Z.testbit v i = false.
Proof.
  intros Hv Hi. rewrite <- (Z.mod_small v (2 ^ 64)) by exact Hv. apply Z.mod_pow2_bits_high. lia.
Qed.

Lemma u64_land a m : is_u64 m -> is_u64 (Z.land a m).
Proof.
  intros Hm. assert (0 <= Z.land a m) by (apply Z.land_nonneg; unfold is_u64 in Hm; lia).
  split; [done|]. apply bounded_bits; [lia|done|]. intros i Hi. rewrite Z.land_spec, (word_bits m i) by done.
  apply andb_false_r.
Qed.

Lemma u64_lor a b : is_u64 a -> is_u64 b -> is_u64 (Z.lor a b).
Proof.
  intros Ha Hb. assert (0 <= Z.lor a b) by (apply Z.lor_nonneg; unfold is_u64 in *; lia).
  split; [done|]. apply bounded_bits; [lia|done|]. intros i Hi. by rewrite Z.lor_spec, !word_bits.
Qed.

Lemma u64_max_word : is_u64 u64_max.
Proof. unfold is_u64, u64_max. lia. Qed.

Lemma u64_width_mask w : 0 <= w -> is_u64 (width_mask w).
Proof.
  intros Hw. unfold width_mask. destruct (Z.eqb_spec w 0); cbn [orb]; [by unfold is_u64|].
  destruct (Z.ltb_spec 8 w); [by unfold is_u64|]. destruct (Z.eqb_spec w 8); [apply u64_max_word|].
  rewrite Z.shiftl_mul_pow2 by lia. pose proof (Z.pow_pos_nonneg 2 (w * 8) ltac:(lia) ltac:(lia)).
  assert (2 ^ (w * 8) < 2 ^ 64) by (apply Z.pow_lt_mono_r; lia). unfold is_u64. lia.
Qed.

Lemma u64_truncate v w : 0 <= w -> is_u64 (truncate_width v w).
Proof. intros. by apply u64_land, u64_width_mask. Qed.

Lemma u64_instruction_end i : insn_typed i -> is_u64 (Instruction_end i).
Proof.
  intros (Ha & Hs & _). destruct (Z.eqb_spec (Instruction_end i) kBadAddress) as [->|Hne]; [apply u64_max_word|].
  by destruct (Instruction_end_exact i Ha ltac:(unfold is_u16 in Hs; lia) Hne).
Qed.

Lemma u64_bad : is_u64 kBadAddress.
Proof. apply u64_max_word. Qed.

Definition addresses (l : list Z) : Prop := Forall is_u64 l.

Lemma addresses_normalize l : addresses l -> addresses (normalize_support l).
Proof.
  unfold addresses. rewrite !Forall_forall. intros Hl a [Ha _]%normalize_support_spec. by apply Hl.
Qed.

Lemma addresses_app l1 l2 : addresses l1 -> addresses l2 -> addresses (l1 ++ l2).
Proof. intros. by apply Forall_app. Qed.

Lemma addresses_one a : is_u64 a -> addresses [a].
Proof. intros. constructor; [done|constructor]. Qed.

Create HintDb ranges.
#[export] Hint Resolve u64_land u64_lor u64_max_word u64_bad u64_truncate u64_instruction_end u64_width_mask
  addresses_normalize addresses_app addresses_one : ranges.

(** ** Instructions *)

(** An instruction with the ranges of its fields; the address that it reads counts too. *)
Definition insn_ranged (i : Instruction) : Prop := insn_typed i /\ is_u64 (in_memory_address i).

Section Ranged.
Context `{DeobfIda} `{!DeobfIdaTyped}.

Lemma operand_width_ok op : width_ok (operand_width op).
Proof.
  unfold operand_width, address_width, width_ok. pose proof (dt_dtype (op_dtype op)) as Hd.
  destruct (Z.eqb_spec (get_dtype_size (op_dtype op)) 0), (Z.eqb_spec (get_dtype_size (op_dtype op)) u64_max),
    (Z.ltb_spec 8 (get_dtype_size (op_dtype op))); cbn [orb]; try lia;
    destruct (Z.leb_spec 1 (inf_get_app_bitness / 8)), (Z.leb_spec (inf_get_app_bitness / 8) 8); cbn [andb]; lia.
Qed.

Lemma u64_sign_extend v w d : is_u64 v -> 0 <= w -> is_u64 (sign_extend_to_width v w d).
Proof.
  intros Hv Hw. unfold sign_extend_to_width.
  destruct (Z.eqb_spec w 0), (Z.leb_spec d w), (Z.leb_spec 8 w), (Z.ltb_spec 8 d); cbn [orb]; try done.
  rewrite !Z.shiftl_mul_pow2, !Z.mul_1_l by lia.
  assert (2 ^ (w * 8) < 2 ^ 64) by (apply Z.pow_lt_mono_r; lia).
  pose proof (Z.pow_pos_nonneg 2 (w * 8) ltac:(lia) ltac:(lia)).
  assert (is_u64 (2 ^ (w * 8) - 1) /\ is_u64 (u64_max - (2 ^ (w * 8) - 1))) as [Hm Hi]
    by (unfold is_u64, u64_max; lia).
  assert (is_u64 (if negb (Z.land (Z.land v (2 ^ (w * 8) - 1)) (2 ^ (w * 8 - 1)) =? 0)
                  then Z.lor (Z.land v (2 ^ (w * 8) - 1)) (u64_max - (2 ^ (w * 8) - 1))
                  else Z.land v (2 ^ (w * 8) - 1))) by (destruct (negb _); auto with ranges).
  destruct (Z.ltb_spec d 8); [|done]. apply u64_land.
  pose proof (Z.pow_pos_nonneg 2 (d * 8) ltac:(lia) ltac:(lia)).
  assert (2 ^ (d * 8) < 2 ^ 64) by (apply Z.pow_lt_mono_r; lia). unfold is_u64. lia.
Qed.

Lemma big_endian_range l : forall acc, 0 <= acc ->
  0 <= foldl (fun value b => Z.lor (Z.shiftl value 8) (b2z b)) acc l < (acc + 1) * 2 ^ (8 * zlen l).
Proof.
  induction l as [|b l IH]; intros acc Hacc; cbn [foldl]; [unfold zlen; cbn; lia|].
  pose proof (b2z_range b) as Hb. assert (0 <= Z.lor (Z.shiftl acc 8) (b2z b) <= acc * 256 + 255) as Hl.
  { rewrite lor_shiftl_add by lia. lia. }
  specialize (IH _ (proj1 Hl)). rewrite zlen_cons. replace (8 * (1 + zlen l)) with (8 + 8 * zlen l) by lia.
  rewrite Z.pow_add_r by (pose proof (zlen_nonneg l); lia).
  pose proof (Z.pow_pos_nonneg 2 (8 * zlen l) ltac:(lia) ltac:(pose proof (zlen_nonneg l); lia)). nia.
Qed.

Lemma little_endian_range l : 0 <= little_endian l < 2 ^ (8 * zlen l).
Proof.
  induction l as [|b l IH]; cbn [little_endian]; [unfold zlen; cbn; lia|].
  pose proof (b2z_range b) as Hb. rewrite Z.lor_comm, lor_shiftl_add by lia.
  rewrite zlen_cons. replace (8 * (1 + zlen l)) with (8 + 8 * zlen l) by lia.
  rewrite Z.pow_add_r by (pose proof (zlen_nonneg l); lia). nia.
Qed.

Lemma u64_read_only_scalar address width v : read_only_scalar address width = Some v -> is_u64 v.
Proof.
  unfold read_only_scalar. destruct (Z.eqb_spec address BADADDR), (Z.eqb_spec width 0), (Z.ltb_spec 8 width),
    (Z.ltb_spec (BADADDR - width) address); cbn [orb]; try done.
  destruct (getseg address) as [segment|]; [|done]. destruct (has_perm _ _); [done|].
  destruct (negb (forallb _ _)); [done|]. cbn zeta.
  destruct (Z.eqb_spec (zlen (get_bytes width address)) width) as [Hl|]; cbn [negb]; [|done].
  assert (2 ^ (8 * zlen (get_bytes width address)) <= 2 ^ 64) as Hle by (apply Z.pow_le_mono_r; lia).
  pose proof (big_endian_range (get_bytes width address) 0 ltac:(lia)) as Hbe.
  pose proof (little_endian_range (get_bytes width address)) as Hle'.
  intros [= <-]. unfold is_u64, big_endian. destruct inf_is_be; lia.
Qed.

Lemma branch_target_u64 ops : Forall operand_typed ops -> is_u64 (branch_target_of ops).
Proof.
  induction 1 as [|op ops (_ & _ & Ha) _ IH]; cbn [branch_target_of]; [apply u64_max_word|].
  destruct (op_type op); try done; apply u64_max_word.
Qed.

(** The operands and the place of an instruction are in range. *)
Definition source_ranged (insn : insn_t) : Prop :=
  is_u64 (insn_ea insn) /\ is_u16 (insn_size insn) /\ Forall operand_typed (insn_ops insn).

Lemma operand_ranged insn n : source_ranged insn -> operand_typed (nth n (insn_ops insn) void_op).
Proof.
  intros (_ & _ & Ho). destruct (Nat.ltb_spec n (length (insn_ops insn))) as [Hl|Hl].
  - rewrite Forall_forall in Ho. apply Ho, list_elem_of_In, nth_In. done.
  - rewrite nth_overflow by done. unfold operand_typed, is_u16, is_u64. cbn. lia.
Qed.

Lemma ranged_begin insn effect : source_ranged insn -> insn_ranged (begin_instruction insn effect).
Proof.
  intros (Ha & Hs & _). pose proof u64_bad.
  split; [split_and!|]; cbn; try done; unfold is_u64; lia.
Qed.

Lemma ranged_kind k o : insn_ranged o -> insn_ranged (set_kind k o).
Proof. done. Qed.

Lemma ranged_condition c o : insn_ranged o -> insn_ranged (set_condition c o).
Proof. done. Qed.

Lemma ranged_effect e o : insn_ranged o -> insn_ranged (set_flag_effect e o).
Proof. done. Qed.

Lemma ranged_alternate b o : insn_ranged o -> insn_ranged (set_alternate b o).
Proof. done. Qed.

Lemma ranged_source_register r o : insn_ranged o -> insn_ranged (set_source_register r o).
Proof. done. Qed.

Lemma ranged_preserve o : insn_ranged o -> insn_ranged (preserve_flags o).
Proof. done. Qed.

Lemma ranged_plumbing o : insn_ranged o -> insn_ranged (set_plumbing o).
Proof. done. Qed.

Lemma ranged_right o : insn_ranged o -> insn_ranged (set_right_operand o).
Proof. done. Qed.

Lemma ranged_target t o : is_u64 t -> insn_ranged o -> insn_ranged (set_target t o).
Proof. intros ? ((? & ? & ? & ? & ?) & ?). by split. Qed.

Lemma ranged_immediate v o : is_u64 v -> insn_ranged o -> insn_ranged (set_immediate v o).
Proof. intros ? ((? & ? & ? & ? & ?) & ?). by split. Qed.

Lemma ranged_memory v o : is_u64 v -> insn_ranged o -> insn_ranged (set_memory_address v o).
Proof. intros ? ((? & ? & ? & ? & ?) & ?). by split. Qed.

Lemma ranged_width w o : 0 <= w < 256 -> insn_ranged o -> insn_ranged (set_width w o).
Proof. intros ? ((? & ? & ? & ? & ?) & ?). by split. Qed.

Lemma ranged_name_destination r w n o :
  0 <= w < 256 -> insn_ranged o -> insn_ranged (name_destination r w n o).
Proof. intros ? ((? & ? & ? & ? & ?) & ?). by split. Qed.

Lemma ranged_name_source r w n o : 0 <= w < 256 -> insn_ranged o -> insn_ranged (name_source r w n o).
Proof. intros ? ((? & ? & ? & ? & ?) & ?). by split. Qed.

Lemma width_byte op : 0 <= operand_width op < 256.
Proof. pose proof (operand_width_ok op) as Hw. unfold width_ok in Hw. lia. Qed.

Lemma ranged_source op o : insn_ranged o -> insn_ranged (set_source op o).
Proof.
  intros Ho. unfold set_source. destruct (negb _); [done|]. apply ranged_name_source; [|done].
  destruct (in_value_width o =? 0); [apply width_byte|]. by destruct Ho as ((? & ? & ? & ?) & ?).
Qed.

Lemma ranged_destination op o : insn_ranged o -> insn_ranged (set_destination op o).
Proof.
  intros Ho. unfold set_destination. destruct (negb _); [done|].
  apply ranged_name_destination; [apply width_byte|done].
Qed.

Lemma ranged_any insn o : insn_ranged o -> insn_ranged (any_destination insn o).
Proof.
  intros Ho. unfold any_destination. destruct (0 <=? _); [|done].
  apply ranged_name_destination; [apply width_byte|done].
Qed.
End Ranged.

(** Peel the setters of a translation. *)
Ltac ranged_setters :=
  repeat match goal with
  | H : insn_ranged ?o |- insn_ranged ?o => exact H
  | |- insn_ranged (begin_instruction _ _) => apply ranged_begin
  | |- insn_ranged (any_destination _ _) => apply ranged_any
  | |- insn_ranged (set_source _ _) => apply ranged_source
  | |- insn_ranged (set_destination _ _) => apply ranged_destination
  | |- insn_ranged (set_immediate _ _) => apply ranged_immediate
  | |- insn_ranged (set_memory_address _ _) => apply ranged_memory
  | |- insn_ranged (set_target _ _) => apply ranged_target
  | |- insn_ranged (set_width _ _) => apply ranged_width
  | |- insn_ranged (name_destination _ _ _ _) => apply ranged_name_destination
  | |- insn_ranged (name_source _ _ _ _) => apply ranged_name_source
  | |- insn_ranged (set_kind _ _) => apply ranged_kind
  | |- insn_ranged (set_condition _ _) => apply ranged_condition
  | |- insn_ranged (set_flag_effect _ _) => apply ranged_effect
  | |- insn_ranged (preserve_flags _) => apply ranged_preserve
  | |- insn_ranged (set_plumbing _) => apply ranged_plumbing
  | |- insn_ranged (set_right_operand _) => apply ranged_right
  | |- insn_ranged (set_source_register _ _) => apply ranged_source_register
  | |- insn_ranged (match ?x with _ => _ end) => destruct x eqn:?
  | |- insn_ranged (if ?x then _ else _) => destruct x
  | |- 0 <= operand_width _ < 256 => apply width_byte
  | E : read_only_scalar _ _ = Some ?v |- is_u64 ?v => exact (u64_read_only_scalar _ _ _ E)
  | |- is_u64 (branch_target_of _) => apply branch_target_u64
  | |- is_u64 (sign_extend_to_width _ _ _) => apply u64_sign_extend
  end.

Section Translated.
Context `{DeobfIda} `{!DeobfIdaTyped}.

Lemma x86_data_ranged insn out : source_ranged insn -> insn_ranged out -> insn_ranged (x86_data insn out).2.
Proof.
  intros Hs Ho. pose proof (operand_ranged insn 0 Hs) as (_ & Hv1 & Ha1).
  pose proof (operand_ranged insn 1 Hs) as (_ & Hv2 & Ha2). fold (Op1 insn) in Hv1, Ha1. fold (Op2 insn) in Hv2, Ha2.
  assert (forall op, 0 <= operand_width op) as Hw by (intros op; pose proof (width_byte op); lia).
  unfold x86_data. destruct (x86_itype (insn_itype insn)) as [i|]; [|done].
  destruct i; try done;
    unfold x86_push, x86_mov, x86_lea, x86_add, x86_arithmetic, x86_cmp, x86_test, x86_compare; cbn zeta;
    repeat (match goal with |- context [if ?b then _ else _] => destruct b
                          | |- context [match read_only_scalar ?a ?w with Some _ => _ | None => _ end] =>
                              destruct (read_only_scalar a w) eqn:? end);
    cbn [snd]; ranged_setters; try done;
    unfold x86_extended_immediate; try (apply u64_sign_extend; [done|apply Hw]);
    try (apply Z.mod_pos_bound; lia); unfold is_u64; lia.
Qed.

Lemma arm_data_ranged insn out : source_ranged insn -> insn_ranged out -> insn_ranged (arm_data insn out).2.
Proof.
  intros Hs Ho. pose proof (operand_ranged insn 0 Hs) as (_ & Hv1 & Ha1).
  pose proof (operand_ranged insn 1 Hs) as (_ & Hv2 & Ha2). pose proof (operand_ranged insn 2 Hs) as (_ & Hv3 & _).
  fold (Op1 insn) in Hv1, Ha1. fold (Op2 insn) in Hv2, Ha2. fold (Op3 insn) in Hv3.
  unfold arm_data. destruct (arm_itype (insn_itype insn)) as [i|]; [|done].
  destruct i; try done;
    unfold arm_mov, arm_movt, arm_adr, arm_ldr, arm_arithmetic, arm_compare; cbn zeta;
    repeat (match goal with |- context [if ?b then _ else _] => destruct b
                          | |- context [match read_only_scalar ?a ?w with Some _ => _ | None => _ end] =>
                              destruct (read_only_scalar a w) eqn:? end);
    cbn [snd]; ranged_setters; done.
Qed.

Lemma translate_ranged arch insn : source_ranged insn -> insn_ranged (translate_instruction arch insn).
Proof.
  intros Hs. pose proof (proj2 (proj2 Hs)) as Hops.
  assert (insn_ranged (translate_x86 insn) /\ insn_ranged (translate_arm insn)) as [Hx Ha];
    [|by destruct arch].
  unfold translate_x86, translate_arm, transfer, indirect_transfer, other_branch, arm_branch, branch_target.
  cbn zeta. split.
  - pose proof (x86_data_ranged insn _ Hs (ranged_begin insn
      (if x86_preserves_flags (insn_itype insn) then Flags_Preserve else Flags_UnknownWrite) Hs)) as Hd.
    destruct (x86_data _ _) as [returned out]. cbn [snd] in Hd. ranged_setters; done.
  - pose proof (arm_data_ranged insn _ Hs (ranged_begin insn Flags_UnknownWrite Hs)) as Hd.
    destruct (arm_data _ _) as [returned out]. cbn [snd] in Hd. ranged_setters; done.
Qed.

Lemma decoded_source_ranged ea decoded : decoded_at ea = Some decoded -> source_ranged decoded.
Proof.
  intros Hd. destruct (decoded_at_spec _ _ Hd) as (Hdec & Hea & Hu & _).
  split_and!; [by rewrite Hea|by eapply dt_size|by eapply dt_operands].
Qed.

Lemma translated_ranged ea previous decoded : decoded_at ea = Some decoded -> insn_ranged (translated ea previous decoded).
Proof.
  intros Hd%decoded_source_ranged. unfold translated.
  by apply ranged_alternate, translate_ranged.
Qed.

Lemma decoded_from_ranged i : decoded_from i -> insn_ranged i.
Proof. intros (previous & decoded & Hd & ->). by apply translated_ranged. Qed.
End Translated.

(** ** Constants *)

Notation all_ranged insns := (Forall insn_ranged insns).

Lemma ranged_typed i : insn_ranged i -> insn_typed i.
Proof. by intros [? _]. Qed.

Lemma ranged_address i : insn_ranged i -> is_u64 (in_address i).
Proof. by intros [(? & _) _]. Qed.

Lemma ranged_end i : insn_ranged i -> is_u64 (Instruction_end i).
Proof. intros Hi%ranged_typed. by apply u64_instruction_end. Qed.

#[export] Hint Resolve ranged_typed ranged_address ranged_end : ranges.

Definition constant_ranged (c : ConstantState) : Prop := is_u64 (cs_value c) /\ addresses (cs_support c).

Definition state_ranged (state : StateMap) : Prop := forall r c, state !! r = Some c -> constant_ranged c.

Lemma state_ranged_empty : state_ranged ∅.
Proof. intros r c Hl. by rewrite lookup_empty in Hl. Qed.

Lemma state_ranged_erase state insn : state_ranged state -> state_ranged (erase_destination state insn).
Proof.
  intros Hs. unfold erase_destination. destruct (negb _); [|done]. intros r c [_ Hl]%lookup_delete_Some. by eapply Hs.
Qed.

Lemma state_ranged_insert state r c : state_ranged state -> constant_ranged c -> state_ranged (<[r := c]> state).
Proof. intros Hs Hc r' c' [[_ <-]|[_ Hl]]%lookup_insert_Some; [done|by eapply Hs]. Qed.

Lemma u64_immediate_result kind v imm w r :
  is_u64 v -> 0 <= w -> immediate_result kind v imm w = Some r -> is_u64 r.
Proof.
  intros Hv Hw. pose proof (u64_width_mask w Hw). unfold immediate_result.
  destruct kind; try (intros [= <-]; by auto with ranges).
  - destruct (w * 8 <=? imm); [done|]. intros [= <-]. auto with ranges.
  - destruct (w <? 4); [done|]. intros [= <-]. auto with ranges.
Qed.

Lemma update_constants_ranged state insn :
  insn_ranged insn -> state_ranged state -> state_ranged (update_constants state insn).
Proof.
  intros Hi Hs. pose proof Hi as [(Ha & _ & Hw & Himm & _) Hm].
  pose proof (state_ranged_erase state insn Hs) as He.
  assert (forall c v, is_u64 v -> constant_ranged c -> constant_ranged (advance c insn v)) as Hadv.
  { intros c v Hv [_ Hc]. split; [done|]. cbn. auto with ranges. }
  assert (forall v steps ro support, addresses support -> state_ranged (assign_constant state insn v steps ro support)) as Hassign.
  { intros v steps ro support Hsup. unfold assign_constant. destruct (negb _); [done|].
    apply state_ranged_insert; [done|]. split; cbn; [apply u64_truncate; lia|auto with ranges]. }
  unfold update_constants. destruct (in_kind insn) eqn:Ek; try done; try apply state_ranged_empty.
  all: try (apply Hassign; first [by apply Forall_nil_2 | by apply addresses_one]).
  all: try (destruct (negb _); [apply state_ranged_empty|done]).
  { destruct (state !! _) as [c|] eqn:El; [|done]. destruct (negb _); [done|].
    apply state_ranged_insert; [done|]. apply Hadv; [apply u64_truncate; lia|by eapply Hs]. }
  all: destruct (state !! _) as [c|] eqn:El; [|done]; destruct (_ || _); [done|];
      destruct (immediate_result _ _ _ _) as [v|] eqn:Ev; [|done];
      pose proof (Hs _ _ El) as Hc; apply state_ranged_insert; [done|]; apply Hadv; [|done];
      eapply u64_immediate_result; [apply Hc| |exact Ev]; lia.
Qed.

Definition target_ranged (t : ConstantTargetCandidate) : Prop :=
  is_u64 (ct_instruction t) /\ is_u64 (ct_target t) /\ addresses (ct_support t).

Definition scan_ranged (scan : BlockScan) : Prop :=
  state_ranged (bs_state scan) /\
  (forall r c, bs_pending scan = Some (r, c) -> constant_ranged c) /\
  Forall target_ranged (bs_targets scan).

Lemma known_at_ranged state r w c : state_ranged state -> known_at state r w = Some c -> constant_ranged c.
Proof.
  intros Hs. unfold known_at. destruct (state !! r) as [v|] eqn:El; [|done].
  destruct (_ || _); [|done]. intros [= <-]. by eapply Hs.
Qed.

Lemma target_candidate_ranged insn kind r name c :
  insn_ranged insn -> constant_ranged c -> target_ranged (target_candidate insn kind r name c).
Proof. intros Hi [Hv Hc]. split_and!; cbn; auto with ranges. Qed.

Lemma indirect_target_ranged limits state insn t :
  insn_ranged insn -> state_ranged state -> indirect_target limits state insn = Some t -> target_ranged t.
Proof.
  intros Hi Hs. unfold indirect_target.
  destruct (in_kind insn); try done; destruct (known_at _ _ _) as [c|] eqn:Ek; try done;
    destruct (_ <=? _); try done; intros [= <-];
    (apply target_candidate_ranged; [done|by eapply known_at_ranged]).
Qed.

Lemma push_step_ranged limits state pending insn :
  insn_ranged insn -> state_ranged state -> (forall r c, pending = Some (r, c) -> constant_ranged c) ->
  (forall r c, (push_step limits state pending insn).1 = Some (r, c) -> constant_ranged c) /\
  (forall t, (push_step limits state pending insn).2 = Some t -> target_ranged t).
Proof.
  intros Hi Hs Hp. pose proof Hi as [(_ & _ & Hw & _) _]. unfold push_step.
  destruct (in_kind insn); try done; cbn [fst snd].
  - split; [done|]. intros t. destruct pending as [[r c]|]; [|done]. destruct (_ || _); [|done].
    intros [= <-]. apply target_candidate_ranged; [done|by eapply Hp].
  - split; [|done]. intros r c. destruct (known_at _ _ _) as [v|] eqn:Ek; cbn; [|done].
    intros [= _ <-]. by eapply known_at_ranged.
  - split; [|done]. intros r c [= _ <-]. split; cbn; [apply u64_truncate; lia|auto with ranges].
Qed.

Lemma scan_block_ranged limits expected insns scan :
  all_ranged insns -> scan_ranged scan -> scan_ranged (scan_block limits expected insns scan).
Proof.
  intros Hi. revert expected scan. induction Hi as [|insn insns Hi Hl IH]; intros expected scan Hs; cbn [scan_block]; [done|].
  assert (scan_ranged (enter expected insn scan)) as He.
  { unfold enter. destruct (joined expected insn); [|done]. destruct Hs as (_ & _ & Ht).
    split_and!; [apply state_ranged_empty|done|done]. }
  destruct (_ =? _); [done|]. apply IH. destruct He as (H1 & H2 & H3). unfold scan_instruction.
  pose proof (push_step_ranged limits _ _ insn Hi H1 H2) as [Hp Ht].
  destruct (push_step _ _ _ _) as [pending target]. cbn [fst snd] in *. split_and!; cbn.
  - by apply update_constants_ranged.
  - done.
  - apply Forall_app. split; [done|]. apply Forall_app. split.
    + destruct (indirect_target _ _ _) as [t|] eqn:Et; [|constructor]. constructor; [|constructor].
      by eapply indirect_target_ranged.
    + destruct target as [t|]; [|constructor]. constructor; [by apply Ht|constructor].
Qed.

Definition assignment_ranged (a : ConstantAssignment) : Prop := is_u64 (ca_value a) /\ addresses (ca_support a).

Lemma block_results_ranged block limits :
  all_ranged (bl_instructions block) ->
  Forall target_ranged (cr_targets (analyze_constant_block block limits)) /\
  Forall assignment_ranged (cr_final_assignments (analyze_constant_block block limits)).
Proof.
  intros Hi. destruct (scan_block_ranged limits (bl_start block) (bl_instructions block) empty_scan Hi) as (Hs & _ & Ht).
  { split_and!; [apply state_ranged_empty|done|constructor]. }
  cbn [analyze_constant_block cr_targets cr_final_assignments]. rewrite !Forall_forall in *. split.
  - intros t Hin%elem_of_std_sort_any. by apply Ht.
  - intros a Hin%elem_of_std_sort_any. apply list_elem_of_fmap in Hin as ([r c] & -> & Hin%elem_of_map_to_list).
    exact (Hs r c Hin).
Qed.

(** ** Gadgets and gaps *)

Definition gadget_ranged (c : GetPcCandidate) : Prop :=
  is_u64 (gp_return_instruction c) /\ opt_all is_u64 (gp_resumed_at c) /\
  opt_all is_u64 (gp_register_value_at_return c) /\ addresses (gp_support c).

Lemma add_signed_address_u64 base delta v : is_u64 base -> add_signed_address base delta = Some v -> is_u64 v.
Proof.
  unfold is_u64, add_signed_address, u64_max. intros Hb. cbn zeta. destruct (Z.leb_spec 0 delta).
  - destruct (Z.ltb_spec (2 ^ 64 - 1 - delta) base); [done|]. intros [= <-]. lia.
  - destruct (Z.ltb_spec base (- (delta + 1) + 1)); [done|]. intros [= <-]. lia.
Qed.

Lemma address_if_u64 call needed delta v :
  insn_ranged call -> address_if call needed delta = Some v -> opt_all is_u64 v.
Proof.
  intros Hc. unfold address_if. destruct needed; [|by intros [= <-]].
  destruct (add_signed_address _ _) as [a|] eqn:Ea; [|done]. intros [= <-].
  eapply add_signed_address_u64; [|exact Ea]. auto with ranges.
Qed.

Lemma gadget_loop_ranged call entry expected insns scan c :
  insn_ranged call -> all_ranged insns -> addresses (ga_support scan) ->
  gadget_loop call entry expected insns scan = Some c -> gadget_ranged c.
Proof.
  intros Hc Hi. revert expected scan. induction Hi as [|insn insns Hi Hl IH]; intros expected scan Hs; cbn [gadget_loop].
  { destruct (_ == _)%viy; [|done]. intros [= <-]. split_and!; cbn; auto with ranges. }
  destruct (_ || _); [done|]. destruct (Instruction_end insn =? kBadAddress); [done|].
  assert (addresses (ga_support (support_insn scan insn))) as Hs' by (cbn; auto with ranges).
  destruct (in_kind insn == Kind_Return)%viy.
  - unfold finish_gadget. destruct (address_if call _ _) as [resumed|] eqn:E1; [|done].
    destruct (address_if call (ga_known _) _) as [value|] eqn:E2; [|done]. destruct (_ && _); [done|].
    intros [= <-]. split_and!;
      [cbn; auto with ranges|exact (address_if_u64 _ _ _ _ Hc E1)|exact (address_if_u64 _ _ _ _ Hc E2)|cbn; auto with ranges].
  - destruct (gadget_step entry _ insn) as [scan'|] eqn:Es; [|done]. apply IH.
    assert (ga_support scan' = ga_support (support_insn scan insn)) as ->; [|done].
    revert Es. unfold gadget_step. destruct (in_kind insn); try done;
      destruct (track_register _ _ _) as [[known delta]|]; try done;
      try (destruct (push_tracked _ _ _); [|done]); by intros [= <-].
Qed.

Lemma get_pc_ranged call gadget other limits c :
  insn_ranged call -> all_ranged gadget ->
  classify_get_pc_gadget call gadget other limits = Some c -> gadget_ranged c.
Proof.
  intros Hc Hg. unfold classify_get_pc_gadget. destruct gadget as [|first rest]; [done|].
  destruct (_ || _); [done|]. cbn zeta. destruct (_ || _); [done|]. destruct (_ && _); [done|].
  destruct (gadget_entry first) as [entry|]; [|done]. destruct (_ =? _); [done|].
  apply gadget_loop_ranged; [done| |].
  - apply Forall_tail, Forall_take. done.
  - cbn. pose proof Hc as [(? & _ & _ & _ & ?) _]. constructor; [done|by apply addresses_one].
Qed.

(** ** The first branch *)

Definition entry_scan_ranged (scan : EntryScan) : Prop :=
  state_ranged (es_constants scan) /\ addresses (es_flag_support scan).

Lemma entry_step_ranged scan insn : insn_ranged insn -> entry_scan_ranged scan -> entry_scan_ranged (entry_step scan insn).
Proof.
  intros Hi [Hs Hf]. unfold entry_step. cbn zeta.
  assert (entry_scan_ranged (flag_step scan insn)) as [Hs' Hf'].
  { unfold flag_step. destruct (in_kind insn), (in_flag_effect insn); try (split; [done|apply Forall_nil_2]); try done;
      (destruct (es_constants scan !! _) as [c|] eqn:Ec; [|done]); (destruct (_ =? _); [|done]);
      (destruct (flags_of insn c); [|done]); pose proof (Hs _ _ Ec) as [_ Hc];
      (split; [done|]; cbn; auto with ranges). }
  split; cbn; [by apply update_constants_ranged|done].
Qed.

Lemma entry_predicate_ranged limits entry insns p :
  is_u64 entry -> all_ranged insns -> classify_entry_predicate entry insns limits = Some p ->
  is_u64 (ep_branch p) /\ is_u64 (ep_target p) /\ is_u64 (ep_fallthrough p) /\ addresses (ep_support p).
Proof.
  intros He Hi. unfold classify_entry_predicate. destruct (_ =? _); [done|].
  assert (entry_scan_ranged initial_entry_scan) as Hs by (split; [apply state_ranged_empty|apply Forall_nil_2]).
  revert Hs. generalize initial_entry_scan. generalize true. generalize entry at 2.
  induction Hi as [|insn insns Hi Hl IH]; intros previous first scan Hs; cbn [entry_loop]; [done|].
  destruct (_ || _); [done|]. destruct (_ && _); [done|]. cbn zeta. destruct (_ =? _); [done|].
  destruct (is_modeled_branch insn); [|by apply IH, entry_step_ranged].
  pose proof Hi as [(Ha & _ & _ & _ & Ht) _]. unfold classify_branch.
  destruct (es_known_flags scan) as [f|].
  - destruct (evaluate_condition _ f) as [taken|]; [|done]. intros [= <-]. destruct Hs as [_ Hf].
    split_and!; cbn; auto with ranges.
  - destruct (negb _); [|done]. intros [= <-]. split_and!; cbn; auto with ranges.
    apply addresses_normalize. constructor; [done|by apply addresses_one].
Qed.

(** ** Wrappers *)

Lemma wrapper_ranged shape limits w :
  is_u64 (fs_entry shape) -> all_ranged (fs_instructions shape) -> classify_wrapper shape limits = Some w ->
  is_u64 (wc_function w) /\ is_u64 (wc_target w).
Proof.
  intros He Hi. unfold classify_wrapper. destruct (_ || _); [done|].
  destruct (wrapper_loop _ _) as [scan|] eqn:El; [|done].
  assert (is_u64 (ws_target scan)) as Ht.
  { revert El. assert (is_u64 (ws_target initial_wrapper_scan)) as Hs by apply u64_bad. revert Hs.
    generalize initial_wrapper_scan. induction Hi as [|insn insns Hi Hl IH]; intros start Hs; cbn [wrapper_loop];
      [by intros [= <-]|].
    destruct (wrapper_step start insn) as [next|] eqn:Ew; [|done]. apply IH.
    pose proof Hi as [(_ & _ & _ & _ & Ht) _]. revert Ew. unfold wrapper_step.
    destruct (in_writes_global_memory insn); [done|]. destruct (in_kind insn); try done; by intros [= <-]. }
  destruct (_ || _); [done|]. cbn zeta. destruct (_ && _); [by intros [= <-]|].
  destruct (_ || _); [done|]. destruct (_ =? 0); [destruct (fs_direct_callee_returns shape); [done|]|destruct (negb _); [done|]];
    by intros [= <-].
Qed.

(** ** Dispatchers *)

Definition node_ranged (n : DispatchNode) : Prop :=
  is_u64 (dn_site n) /\ is_u64 (dn_selector n) /\ is_u64 (dn_case_target n) /\ is_u64 (dn_next n).

Definition dispatcher_ranged (d : DispatchCandidate) : Prop :=
  is_u64 (dc_site d) /\ Forall (fun c => is_u64 c.1 /\ is_u64 c.2) (dc_cases d) /\
  opt_all is_u64 (dc_default_target d) /\ addresses (dc_comparison_sites d).

Definition block_ranged (b : Block) : Prop := is_u64 (bl_start b) /\ all_ranged (bl_instructions b).

Lemma find_compare_in rev_body after before compare rest :
  find_compare rev_body after = Some (before, compare, rest) -> compare ∈ rev_body.
Proof.
  revert after. induction rev_body as [|insn body IH]; intros after; cbn [find_compare]; [done|].
  destruct (_ == _)%viy; [intros [= _ <- _]; set_solver|]. destruct (_ == _)%viy; [done|].
  intros H%IH. set_solver.
Qed.

Lemma parse_node_ranged block n : block_ranged block -> parse_dispatch_node block = Some n -> node_ranged n.
Proof.
  intros [_ Hi]. unfold parse_dispatch_node. destruct (rev (bl_instructions block)) as [|branch [|i rev_body]] eqn:Er; [done..|].
  assert (all_ranged (branch :: i :: rev_body)) as Hr.
  { rewrite <- Er. rewrite Forall_forall in *. intros x Hx%list_elem_of_In%in_rev%list_elem_of_In. by apply Hi. }
  apply Forall_cons in Hr as [Hb Hr]. destruct (_ || _); [done|]. destruct (_ =? _); [done|].
  destruct (find_compare (i :: rev_body) []) as [[[before compare] after]|] eqn:Ef; [|done].
  destruct (_ || _); [done|]. destruct (existsb _ _); [done|]. destruct (_ || _); [done|]. intros [= <-].
  apply find_compare_in in Ef. rewrite Forall_forall in Hr. destruct (Hr _ Ef) as [(_ & _ & Hw & _) _].
  pose proof Hb as [(_ & _ & _ & _ & Ht) _]. split_and!; cbn; try (destruct (_ == _)%viy); auto with ranges.
  all: apply u64_truncate; lia.
Qed.

Lemma map_set_in {V} k (v : V) (m : omap Z V) x : x ∈ map_set Z.ltb k v m -> x = (k, v) \/ x ∈ m.
Proof.
  induction m as [|[k' v'] m IH]; cbn [map_set]; [set_solver|].
  destruct (k' <? k); [rewrite elem_of_cons; intros [->|[->|H]%IH]; set_solver|].
  destruct (k <? k'); set_solver.
Qed.

Lemma selector_map_ranged chain targets out :
  Forall node_ranged chain -> Forall (fun c => is_u64 c.1 /\ is_u64 c.2) targets ->
  selector_map chain targets = Some out -> Forall (fun c => is_u64 c.1 /\ is_u64 c.2) out.
Proof.
  intros Hc. revert targets. induction Hc as [|n chain (_ & Hs & Ht & _) Hl IH]; intros targets Hm; cbn [selector_map];
    [by intros [= <-]|].
  assert (Forall (fun c => is_u64 c.1 /\ is_u64 c.2) (map_set Z.ltb (dn_selector n) (dn_case_target n) targets)) as Hset.
  { rewrite Forall_forall in *. intros x [->|Hx]%map_set_in; [done|by apply Hm]. }
  destruct (map_find _ _ _); [destruct (negb _); [done|]|]; by apply IH.
Qed.

Lemma linked_ranged nodes a chain cursor :
  (forall k n, map_find Z.ltb k nodes = Some n -> node_ranged n) -> linked nodes a chain cursor ->
  Forall node_ranged chain /\ (is_u64 a \/ chain <> [] -> is_u64 cursor).
Proof.
  intros Hn. revert a. induction chain as [|n chain IH]; intros a; cbn [linked].
  { intros <-. split; [constructor|by intros [?|?]]. }
  intros [Hf Hl]. pose proof (Hn _ _ Hf) as Hr. destruct (IH _ Hl) as [Hc Hcur].
  split; [by constructor|]. intros _. apply Hcur. left. apply Hr.
Qed.

Lemma dispatchers_found blocks limits :
  Forall block_ranged blocks ->
  exists out, find_dispatch_candidates blocks limits = Some out /\ Forall dispatcher_ranged out.
Proof.
  intros Hb. unfold find_dispatch_candidates. destruct (_ || _); [by exists []|].
  destruct (collect_nodes_spec blocks) as [Hok Hnodes].
  destruct (starts_loop_total blocks (collect_nodes blocks) limits (chain_starts (collect_nodes blocks)) [] [] Hok
              (collected_named blocks)) as (out & emitted & -> & _ & _ & Ho).
  { split; [constructor|]. split; [constructor|]. intros x Hd. by apply elem_of_nil in Hd. }
  eexists. split; [reflexivity|]. apply Forall_forall.
  intros d [_ (start & scan & front & rest & targets & Hch & (Hl & _) & Hm & _ & ->)]%elem_of_std_sort_any%Ho.
  assert (forall k n, map_find Z.ltb k (collect_nodes blocks) = Some n -> node_ranged n) as Hn.
  { intros k n (block & Hin & Hp & _)%Hnodes. rewrite Forall_forall in Hb. by eapply parse_node_ranged; [apply Hb|]. }
  destruct (linked_ranged _ _ _ _ Hn Hl) as [Hc Hcur]. rewrite Hch in Hc, Hcur.
  specialize (Hcur ltac:(right; done)). rewrite <- Hch in Hc.
  pose proof (selector_map_ranged _ [] _ Hc ltac:(constructor) Hm) as Ht.
  split_and!; cbn.
  - rewrite Hch in Hc. apply Forall_cons in Hc as [Hf _]. apply Hf.
  - done.
  - destruct (_ && _); done.
  - unfold addresses. apply Forall_map. eapply Forall_impl; [exact Hc|]. intros n Hr. apply Hr.
Qed.

(** ** Offers *)

Definition offer_ranged (o : DeobfOffer) : Prop :=
  payload_typed (of_payload o) /\ is_u16 (of_confidence o) /\ addresses (of_support o).

Definition snapshot_ranged (sn : FunctionSnapshot) : Prop :=
  is_u64 (snapshot_start sn) /\ is_u64 (sn_scope_end sn) /\ all_ranged (sn_instructions sn) /\
  Forall block_ranged (sn_blocks sn).

Notation offers_ranged os := (Forall offer_ranged os).

Lemma Forall_flat_map {A B} (P : B -> Prop) (f : A -> list B) l :
  Forall (fun x => Forall P (f x)) l -> Forall P (flat_map f l).
Proof. induction 1 as [|x l Hx Hl IH]; cbn [flat_map]; [constructor|]. by apply Forall_app. Qed.

Lemma text_trait_typed function trait text :
  is_u64 function -> payload_typed (function_trait function trait (trait_text text)).
Proof. intros Hf. split_and!; cbn; unfold is_u64, is_i64 in *; lia. Qed.

Lemma ranged_offer method proof confidence payload support detail counter :
  payload_typed payload -> is_u16 confidence -> addresses support ->
  offer_ranged {| of_method := method; of_proof := proof; of_confidence := confidence; of_payload := payload;
                  of_support := support; of_detail := detail; of_counter := counter |}.
Proof. done. Qed.

Section Offers.
Context `{DeobfIda} `{!DeobfIdaTyped}.

Lemma snapshot_function_ranged f options stats sn stats' :
  function_typed f -> 0 <= do_max_instructions_per_function options ->
  snapshot_function (Some f) options stats = (Some sn, stats') -> snapshot_ranged sn.
Proof.
  intros Hf Hopt Hs. destruct (snapshot_spec _ _ _ _ _ Hf Hopt Hs) as (Hfun & Hend & Hi & _ & _ & _ & Hb & _).
  assert (forall i, i ∈ sn_instructions sn -> insn_ranged i) as Hr.
  { intros i (_ & _ & Hd)%Hi. by apply decoded_from_ranged. }
  unfold snapshot_ranged, snapshot_start. rewrite Hfun. split_and!; [apply Hf|done|by apply Forall_forall|].
  apply Forall_forall. intros b (Hne & Ht & Hin)%Hb. split; [|apply Forall_forall; intros i Hbi; by apply Hr, Hin].
  destruct (bl_instructions b) as [|i rest] eqn:Ei; [done|]. destruct Ht as [<- _].
  apply ranged_address, Hr, Hin. set_solver.
Qed.

Lemma decode_gadget_ranged count ea previous : all_ranged (decode_gadget_loop count ea previous).
Proof.
  revert ea previous. induction count as [|count IH]; intros ea previous; cbn [decode_gadget_loop]; [constructor|].
  destruct (negb _); [constructor|]. destruct (decoded_at ea) as [decoded|] eqn:Ed; [|constructor]. cbn zeta.
  constructor; [by apply translated_ranged|]. destruct (_ || _); [constructor|apply IH].
Qed.

Context (sn : FunctionSnapshot) (limits : ClassifierLimits) (Hsn : snapshot_ranged sn).

Lemma call_offers_ranged call : insn_ranged call -> offers_ranged (call_offers sn limits call).
Proof.
  intros Hc. unfold call_offers. destruct (_ || _); [constructor|]. cbn zeta.
  destruct (classify_get_pc_gadget _ _ _ _) as [c|] eqn:Ec; [|constructor].
  apply get_pc_ranged in Ec as (Hr & Hres & Hval & Hsup); [|done|apply decode_gadget_ranged].
  pose proof Hc as [(Ha & _ & _ & _ & Ht) _].
  assert (is_u16 9800 /\ is_u16 9900 /\ is_u16 7000) as (? & ? & ?) by (unfold is_u16; lia).
  constructor; [apply ranged_offer; [apply text_trait_typed, Hsn|done|done]|].
  apply Forall_app. split; [|apply Forall_app; split].
  - unfold gadget_register. destruct (gp_register_value_at_return c); [|constructor].
    destruct (_ && _); [|constructor]. cbn zeta. constructor; [by apply ranged_offer|constructor].
  - unfold gadget_resumption. destruct (gp_resumed_at c) as [resumed|]; [|constructor]. cbn in Hres.
    destruct (_ && _); [|constructor]. constructor; [by apply ranged_offer|]. constructor; [by apply ranged_offer|constructor].
  - unfold gadget_gap. cbn zeta. destruct (_ && _); [|constructor].
    pose proof (ranged_end _ Hc). constructor; [|constructor]. apply ranged_offer; [done|done|].
    repeat (constructor; [done|]). constructor.
Qed.

Lemma jump_gap_offers_ranged i : insn_ranged i -> offers_ranged (jump_gap_offers_of limits i).
Proof.
  intros Hi. unfold jump_gap_offers_of. destruct (negb _); [constructor|]. cbn zeta. destruct (_ || _); [constructor|].
  unfold classify_jump_gap. destruct (_ || _); [constructor|]. cbn zeta. destruct (_ || _); [constructor|].
  destruct (_ <? _); [constructor|]. pose proof Hi as [(Ha & _ & _ & _ & Ht) _]. pose proof (ranged_end _ Hi).
  constructor; [|constructor]. apply ranged_offer; [done|unfold is_u16; lia|].
  repeat (constructor; [done|]). constructor.
Qed.

Lemma entry_predicate_offers_ranged : offers_ranged (entry_predicate_offers sn limits).
Proof.
  destruct Hsn as (Hstart & _ & _ & Hb). unfold entry_predicate_offers.
  destruct (entry_block sn) as [block|] eqn:Eb; [|constructor].
  apply List.find_some in Eb as [Hin%list_elem_of_In _]. rewrite Forall_forall in Hb. destruct (Hb _ Hin) as [_ Hi].
  destruct (classify_entry_predicate _ _ _) as [p|] eqn:Ep; [|constructor].
  apply entry_predicate_ranged in Ep as (Hbr & Ht & Hf & Hsup); [|done|done].
  assert (is_u16 7200 /\ is_u16 9900) as [? ?] by (unfold is_u16; lia).
  unfold predicate_offers. destruct (ep_knowledge p); [constructor| |].
  - destruct (bool_decide _); [|constructor]. constructor; [|constructor].
    apply ranged_offer; [by apply text_trait_typed|done|done].
  - destruct (ep_taken p) as [taken|]; [|constructor]. destruct (_ || _); [constructor|].
    destruct taken; (constructor; [|constructor; [|constructor]]); by apply ranged_offer.
Qed.

Lemma wrapper_offers_ranged : offers_ranged (wrapper_offers sn limits).
Proof.
  destruct Hsn as (Hstart & _ & Hi & _). unfold wrapper_offers.
  destruct (classify_wrapper _ _) as [w|] eqn:Ew; [|constructor].
  apply wrapper_ranged in Ew as [Hf Ht]; [|done|done]. destruct (_ || _); [constructor|].
  assert (addresses [wc_function w; wc_target w]) by (constructor; [done|by apply addresses_one]).
  assert (is_u16 8500 /\ is_u16 9000) as [? ?] by (unfold is_u16; lia).
  constructor; [apply ranged_offer; [split_and!; cbn; unfold is_i64; try done; lia|done|done]|]. destruct (wc_thunk w); [|constructor].
  constructor; [|constructor]. apply ranged_offer; [split; [done|cbn; unfold is_i64, is_u64; lia]|done|done].
Qed.

Lemma constant_offers_ranged a b : offers_ranged (constant_offers sn limits a b).
Proof.
  destruct Hsn as (_ & _ & _ & Hb). unfold constant_offers. apply Forall_flat_map.
  eapply Forall_impl; [exact Hb|]. intros block [_ Hi]. apply Forall_flat_map.
  destruct (block_results_ranged block limits Hi) as [Ht _]. eapply Forall_impl; [exact Ht|].
  intros t (Hins & Htgt & Hsup). unfold candidate_offers.
  do 2 (match goal with |- Forall _ (if ?b then _ else _) => destruct b; [constructor|] end). assert (is_u16 9900) by (unfold is_u16; lia).
  constructor; [by apply ranged_offer|]. unfold constant_register_offers. destruct (_ && _); [|constructor].
  constructor; [by apply ranged_offer|constructor].
Qed.

Lemma target_by_selector_ranged d : dispatcher_ranged d -> Forall (fun c => is_u64 c.1 /\ is_u64 c.2) (target_by_selector d).
Proof.
  intros (_ & Hc & _). unfold target_by_selector.
  assert (Forall (fun c : Z * Z => is_u64 c.1 /\ is_u64 c.2) []) as Hm by constructor. revert Hm.
  generalize (@nil (Z * Z)). induction Hc as [|c cases Hc Hl IH]; intros m Hm; cbn [foldl]; [done|].
  apply IH. rewrite Forall_forall in *. intros x [->|Hx]%map_set_in; [done|by apply Hm].
Qed.

Lemma map_find_pair {V} k (m : omap Z V) v : map_find Z.ltb k m = Some v -> exists k', (k', v) ∈ m.
Proof.
  induction m as [|[k' v'] m IH]; cbn [map_find]; [done|]. destruct (k' <? k).
  - intros [k2 Hk]%IH. exists k2. set_solver.
  - destruct (k <? k'); [done|]. intros [= <-]. exists k'. set_solver.
Qed.

Lemma constant_results_ranged :
  Forall (fun e => Forall assignment_ranged (cr_final_assignments e.2)) (constant_results sn limits).
Proof.
  destruct Hsn as (_ & _ & _ & Hb). unfold constant_results.
  assert (Forall (fun e : Z * ConstantBlockResult => Forall assignment_ranged (cr_final_assignments e.2)) []) as Hm by constructor.
  revert Hm. generalize (@nil (Z * ConstantBlockResult)).
  induction Hb as [|block blocks [_ Hi] Hl IH]; intros m Hm; cbn [foldl]; [done|]. apply IH.
  unfold map_emplace. destruct (map_find _ _ _); [done|]. apply Forall_forall.
  intros x [->|Hx]%map_set_in; [by apply block_results_ranged|]. by apply (proj1 (Forall_forall _ _) Hm).
Qed.

Lemma dispatch_offers_ranged : offers_ranged (dispatch_offers sn limits (constant_results sn limits)).
Proof.
  pose proof Hsn as (Hstart & _ & _ & Hb). unfold dispatch_offers. destruct (_ || _); [constructor|].
  destruct (dispatchers_found (sn_blocks sn) limits Hb) as (out & -> & Hd). cbn [default].
  apply Forall_flat_map. eapply Forall_impl; [exact Hd|]. intros d Hdr. pose proof Hdr as (Hs & Hc & Hdef & Hsites).
  assert (is_u16 9000 /\ is_u16 8000 /\ is_u16 8800 /\ is_u16 9500) as (? & ? & ? & ?) by (unfold is_u16; lia).
  constructor; [|apply Forall_app; split].
  - apply ranged_offer; [|by destruct (dc_loop_backed d)|done]. split; [done|]. split; [|done].
    apply Forall_map. eapply Forall_impl; [exact Hc|]. intros c [? ?]. done.
  - unfold flattening_offers. destruct (_ && _); [|constructor]. constructor; [|constructor].
    apply ranged_offer; [by apply text_trait_typed|done|done].
  - apply Forall_flat_map. eapply Forall_impl; [exact Hb|]. intros block [_ Hi]. unfold block_edge_offers.
    destruct (bl_successors block) as [|successor []]; [constructor| |constructor].
    destruct (last (bl_instructions block)) as [back|] eqn:El; [|constructor].
    destruct (negb _); [constructor|]. destruct (map_find _ _ _) as [r|] eqn:Er; [|constructor].
    apply map_find_pair in Er as [k Hr]. pose proof constant_results_ranged as Hres. rewrite Forall_forall in Hres.
    specialize (Hres _ Hr). apply Forall_flat_map. eapply Forall_impl; [exact Hres|]. intros a [_ Hsup].
    unfold state_edge_offers. destruct (_ || _); [constructor|].
    destruct (map_find _ _ _) as [destination|] eqn:Ed; [|constructor]. apply map_find_pair in Ed as [k' Hk].
    pose proof (target_by_selector_ranged d Hdr) as Ht. rewrite Forall_forall in Ht. destruct (Ht _ Hk) as [_ Hdest].
    constructor; [|constructor]. rewrite Forall_forall in Hi.
    apply last_Some_elem_of in El. specialize (Hi _ El).
    apply ranged_offer; [split; [apply ranged_address, Hi|done]|done|by apply addresses_app].
Qed.
End Offers.

Lemma function_offers_ranged `{DeobfIda} `{!DeobfIdaTyped} options sn :
  snapshot_ranged sn -> offers_ranged (function_offers options sn).
Proof.
  intros Hsn. pose proof Hsn as (_ & _ & Hi & _). unfold function_offers. cbn zeta.
  repeat (apply Forall_app; split).
  - destruct (do_detect_get_pc_gadgets options); [|constructor]. unfold get_pc_offers. destruct (negb _); [constructor|].
    apply Forall_flat_map. eapply Forall_impl; [exact Hi|]. intros. by apply call_offers_ranged.
  - destruct (do_detect_jump_gaps options); [|constructor].
    apply Forall_flat_map. eapply Forall_impl; [exact Hi|]. intros. by apply jump_gap_offers_ranged.
  - destruct (do_detect_entry_predicates options); [|constructor]. by apply entry_predicate_offers_ranged.
  - destruct (do_detect_wrappers options); [|constructor]. by apply wrapper_offers_ranged.
  - destruct (_ || _); [|constructor]. by apply constant_offers_ranged.
  - destruct (do_detect_dispatch_maps options); [|constructor]. rewrite orb_true_r. by apply dispatch_offers_ranged.
Qed.
