(* ===== verification/DeobfSession.v ===== *)
(** * Sessions of the deobfuscation analysis (deobf_analysis.cpp, deobf_analysis_store.cpp)

    The provider with the sink of a store as its client.  Every fact that it passes on comes
    from an offer about a function of the database, is in range and acceptable; so the sink
    refuses nothing as invalid, and a session brings no new contradiction into the view. *)
From stdpp Require Import base numbers list strings option sets gmap.
From Stdlib Require Import ZArith Init.Byte Sorting.Sorted Lia.
From S2P Require Import Prelude OrderedMap Ledger FactTypes Sha256 Validate FactCodec Store Conflicts.
From S2P Require Import ConflictQuery DeobfSink NativeTypes NativeDatabase NativeListing Deobf DeobfFlags.
From S2P Require Import DeobfMachine DeobfConstants DeobfEntry DeobfGadget DeobfDispatch DeobfLowering.
From S2P Require Import DeobfListing DeobfDriver DeobfSnapshot DeobfTyped.

Definition options_ok (options : DeobfAnalysisOptions) : Prop := 0 <= do_max_instructions_per_function options.

Definition call_typed (c : DeobfCall) : Prop :=
  match c with
  | Deobf_AnalyzeDatabase options | Deobf_AnalyzeFunction _ options => options_ok options
  | Deobf_SetEpoch epoch => is_u64 epoch
  | _ => True
  end.

Section Calls.
Context `{DeobfIda} `{!DeobfIdaTyped}.

(** The functions that the database has. *)
Definition in_database (f : func_t) : Prop := Some f ∈ all_functions \/ exists ea, get_func ea = Some f.

Lemma database_typed f : in_database f -> function_typed f.
Proof.
  intros [Hf|[ea Hf]]; [|by eapply dt_function]. pose proof dt_functions as Hall. rewrite Forall_forall in Hall.
  exact (Hall _ Hf).
Qed.

(** [o] is offered for a function of the database. *)
Definition offered (sn : FunctionSnapshot) (options : DeobfAnalysisOptions) (o : DeobfOffer) : Prop :=
  exists f stats stats', in_database f /\ options_ok options /\
    snapshot_function (Some f) options stats = (Some sn, stats') /\ o ∈ function_offers options sn.

(** A fact that [emit] makes of an offer. *)
Definition sent (f : AnalysisFact) : Prop :=
  exists epoch sn options o payload key,
    is_u64 epoch /\ offered sn options o /\ offer_key o = Some (payload, key) /\
    normalize_fact {| af_payload := payload; af_evidence := deobf_evidence epoch sn o |} = Ok f.

Lemma offered_ranged sn options o : offered sn options o -> snapshot_ranged sn /\ offer_ranged o.
Proof.
  intros (f & stats & stats' & Hf%database_typed & Hopt & Hs & Ho).
  pose proof (snapshot_function_ranged _ _ _ _ _ Hf Hopt Hs) as Hsn. split; [done|].
  pose proof (function_offers_ranged options sn Hsn) as Hr. rewrite Forall_forall in Hr. by apply Hr.
Qed.

Lemma offer_key_spec o payload key :
  offer_key o = Some (payload, key) ->
  normalize_payload (of_payload o) = Ok payload /\ encode_payload payload = Ok key.
Proof.
  unfold offer_key. destruct (normalize_payload (of_payload o)) as [p|]; [|done].
  destruct (encode_payload p) as [k|] eqn:Ek; [|done]. by intros [= <- <-].
Qed.

(** What is sent is in range and acceptable as it is. *)
Lemma sent_acceptable f : sent f -> fact_typed f /\ accept f = Ok f.
Proof.
  intros (epoch & sn & options & o & payload & key & He & (Hsn & Hp & Hc & Hs)%offered_ranged & Hk & Hn).
  apply offer_key_spec in Hk as [Hnp Hk]. pose proof (normalize_payload_ok _ _ Hnp) as (Hpe & _ & Hsame).
  pose proof (normalize_fact_ok _ _ Hn) as (Hp2 & He2 & _ & Hnf). cbn [af_payload af_evidence] in *.
  assert (af_payload f = payload) as Hpf by congruence.
  assert (payload_typed payload) as Htp by (rewrite Hpe; by apply normalize_payload_typed).
  assert (evidence_typed (deobf_evidence epoch sn o)) as Hte.
  { destruct Hsn as (Hstart & Hend & _). split; [exact Hc|]. split; [|exact Hs].
    split; [done|]. split; [done|]. split; [exact Hstart|]. split; [|exact He]. cbn. by destruct (_ <? _). }
  apply normalize_evidence_ok in He2 as (Hef & _ & _). split.
  - split; [by rewrite Hpf|rewrite Hef; by apply normalize_evidence_typed].
  - unfold accept. rewrite Hnf. cbn [result_bind]. by rewrite Hpf, Hk.
Qed.

(** ** What a call does to its client *)

Context {S : Type} `{!DeobfClient S}.

(** A property of the client that every fact of the epoch and every event keep. *)
Definition keeps_client (P : S -> Prop) (epoch : Z) : Prop :=
  (forall f s, sent f -> sc_generation (ev_scope (af_evidence f)) = epoch -> P s -> P (deobf_sink f s).2) /\
  (forall e s, P s -> P (deobf_progress e s)).

Lemma evidence_generation epoch sn o f payload :
  normalize_fact {| af_payload := payload; af_evidence := deobf_evidence epoch sn o |} = Ok f ->
  sc_generation (ev_scope (af_evidence f)) = epoch /\ ev_method (af_evidence f) = of_method o /\
  af_payload f = normalize_payload_value payload.
Proof.
  intros Hn. pose proof (normalize_fact_ok _ _ Hn) as (Hp & He & _).
  apply normalize_payload_ok in Hp as (Hp & _). apply normalize_evidence_ok in He as (He & _).
  by rewrite Hp, He.
Qed.

Section Keeps.
Context (P : S -> Prop) (epoch : Z) (Hepoch : is_u64 epoch) (Hkeeps : keeps_client P epoch).

Lemma emit_keeps sn options o s :
  offered sn options o -> P (dx_client s) -> P (dx_client (emit_offer epoch sn s o)).
Proof.
  intros Ho Hs. assert (P (dx_client (emit epoch sn o s).2)) as He.
  { unfold emit. destruct (offer_key o) as [[payload key]|] eqn:Ek; [|done]. cbn zeta.
    destruct (bool_decide _); [done|]. destruct (normalize_fact _) as [fact|] eqn:En; [|done].
    pose proof (proj1 Hkeeps fact (dx_client s)) as Hk.
    assert (P (deobf_sink fact (dx_client s)).2) as Hp.
    { apply Hk; [|by eapply evidence_generation|done]. by exists epoch, sn, options, o, payload, key. }
    destruct (deobf_sink fact (dx_client s)) as [[] client]; done. }
  unfold emit_offer. destruct (emit epoch sn o s) as [[] s']; cbn [snd] in He; by destruct (of_counter o).
Qed.

Lemma emit_offers_keep sn options os s :
  (forall o, o ∈ os -> offered sn options o) -> P (dx_client s) ->
  P (dx_client (foldl (emit_offer epoch sn) s os)).
Proof.
  revert s. induction os as [|o os IH]; intros s Ho Hs; cbn [foldl]; [done|].
  apply IH; [intros x Hx; apply Ho; set_solver|]. eapply emit_keeps; [apply Ho; set_solver|done].
Qed.

Lemma analyze_one_keeps options f s :
  options_ok options -> match f with Some f => in_database f | None => True end ->
  P (dx_client s) -> P (dx_client (analyze_one epoch options f s)).
Proof.
  intros Hopt Hf Hs. unfold analyze_one. destruct (snapshot_function f options (dx_stats s)) as [snapshot stats] eqn:Esn.
  destruct snapshot as [sn|]; [|done]. destruct f as [f|]; [|done].
  apply (emit_offers_keep sn options); [|done]. intros o Ho. by exists f, (dx_stats s), stats.
Qed.

Lemma report_keeps options e s : P (dx_client s) -> P (dx_client (report options e s)).
Proof. intros Hs. cbn. destruct (do_progress options); [by apply Hkeeps|done]. Qed.

Lemma analyze_functions_keep options total done_ fs s :
  options_ok options -> Forall (fun f => match f with Some f => in_database f | None => True end) fs ->
  P (dx_client s) -> P (dx_client (analyze_functions epoch options total done_ fs s)).
Proof.
  intros Hopt Hf. revert done_ s. induction Hf as [|f fs Hf Hfs IH]; intros done_ s Hs; cbn [analyze_functions]; [done|].
  apply IH, report_keeps. by apply analyze_one_keeps.
Qed.
End Keeps.

Lemma call_keeps P c p client :
  is_u64 (dp_current_epoch p) -> call_typed c -> keeps_client P (dp_current_epoch p) ->
  P client -> P (call c p client).2.
Proof.
  intros He Hc Hk Hs. destruct c as [options|ea options| | | |]; try done; cbn [call].
  - unfold analyze_database. destruct (bool_decide _); [by apply (report_keeps P _ Hk)|]. cbn zeta.
    cbn [finish_scan snd dx_client]. apply (report_keeps P _ Hk), (analyze_functions_keep P _ He Hk); [done| |].
    + apply Forall_take, Forall_forall. intros [f|] Hf; [by left|done].
    + by apply (report_keeps P _ Hk).
  - unfold analyze_function. destruct (_ || _); [by apply (report_keeps P _ Hk)|]. cbn zeta.
    cbn [finish_scan snd dx_client]. apply (report_keeps P _ Hk), (analyze_one_keeps P _ He Hk); [done| |].
    + destruct (get_func ea) as [f|] eqn:Ef; [right; by exists ea|done].
    + by apply (report_keeps P _ Hk).
Qed.

Lemma deobf_call_epoch c p client :
  is_u64 (dp_current_epoch p) -> call_typed c -> is_u64 (dp_current_epoch (call c p client).1).
Proof.
  intros He Hc.
  assert (is_u64 (dp_current_epoch (advance_epoch p))) as Hadv.
  { unfold is_u64, advance_epoch, u64_max in *. cbn. destruct (Z.eqb_spec (dp_current_epoch p) (2 ^ 64 - 1)); lia. }
  destruct c as [options|ea options| | | |]; cbn [call]; try done.
  - unfold analyze_database. by destruct (bool_decide _).
  - unfold analyze_function. by destruct (_ || _).
  - cbn. destruct (epoch =? 0); [unfold is_u64; lia|done].
Qed.
End Calls.

(** ** The store as the client *)

#[export] Instance store_client : DeobfClient DeobfEvidenceStoreSink := {
  deobf_sink := emit_deobf_fact;
  deobf_progress _ sink := sink
}.

(** The methods of the constant analysis. *)
Definition is_constant_method (m : string) : bool :=
  String.eqb m "x86.push_ret.constant_target" || String.eqb m "constant_chain.indirect_target".

Section Sessions.
Context `{DeobfIda} `{!DeobfIdaTyped}.

(** What the facts of any epoch and the events keep, a session keeps. *)
Lemma calls_keep {S : Type} `{!DeobfClient S} (P : S -> Prop) cs p client :
  (forall epoch, keeps_client P epoch) -> is_u64 (dp_current_epoch p) -> Forall call_typed cs ->
  P client -> P (calls cs (p, client)).2.
Proof.
  intros Hk Hp Hc. revert p client Hp. induction Hc as [|c cs Hc Hcs IH]; intros p client Hp Hs; [done|].
  unfold calls in *. cbn [foldl fst snd]. pose proof (call_keeps P c p client Hp Hc (Hk _) Hs) as Hs'.
  pose proof (deobf_call_epoch c p client Hp Hc) as Hp'. destruct (call c p client) as [p' client'].
  by apply IH.
Qed.

(** A session with a store is the emission of a list of facts. *)
Lemma session_facts cs p sink :
  is_u64 (dp_current_epoch p) -> Forall call_typed cs ->
  exists facts, Forall sent facts /\ (calls cs (p, sink)).2 = emit_deobf_facts facts sink.
Proof.
  intros Hp Hc.
  apply (calls_keep (fun s => exists facts, Forall sent facts /\ s = emit_deobf_facts facts sink)); try done.
  - intros epoch. split; [|done]. intros f s Hf _ (facts & Hfs & ->). exists (facts ++ [f]). split.
    + apply Forall_app. split; [done|]. constructor; [done|constructor].
    + unfold emit_deobf_facts. by rewrite foldl_app.
  - exists []. split; [constructor|done].
Qed.

(** Facts that are sent are never counted as invalid. *)
Lemma sent_not_rejected facts sink :
  store_wf (ds_store sink) -> Forall sent facts ->
  dr_rejected_invalid (ds_report (emit_deobf_facts facts sink)) = dr_rejected_invalid (ds_report sink).
Proof.
  intros Hwf Hf. revert sink Hwf. induction Hf as [|f facts Hf Hfs IH]; intros sink Hwf; [done|].
  destruct (sent_acceptable f Hf) as [Ht Ha]. cbn [emit_deobf_facts foldl].
  pose proof (emit_outcome f sink Hwf Ht) as Hout. pose proof (emit_valid_not_rejected f sink f Hwf Ht Ha) as Hr.
  destruct (emit_deobf_fact f sink) as [accepted sink1]. cbn [snd] in *. rewrite <- Hr.
  apply IH. by destruct Hout.
Qed.

(** C14: a session with a store.  Over any sequence of calls of the provider on any database the
    store stays well formed and keeps its facts; the sink counts no fact as invalid; what the
    store gains are facts that the provider made of offers about functions of the database;
    and the view of the active generation holds no contradiction that it did not hold
    before.  Every fact that was sent is in the store at the end or clashes with the view. *)
Theorem deobf_session_consistent cs p sink :
  is_u64 (dp_current_epoch p) -> Forall call_typed cs -> store_wf (ds_store sink) ->
  let sink' := (calls cs (p, sink)).2 in
  let g := ds_active_generation sink in
  store_wf (ds_store sink') /\
  no_new_contradiction g (ds_store sink) (ds_store sink') /\
  dr_rejected_invalid (ds_report sink') = dr_rejected_invalid (ds_report sink) /\
  (forall x, x ∈ flattened_facts (ds_store sink) -> x ∈ flattened_facts (ds_store sink')) /\
  (forall x, x ∈ flattened_facts (ds_store sink') -> x ∈ flattened_facts (ds_store sink) \/ sent x) /\
  exists facts, sink' = emit_deobf_facts facts sink /\ Forall sent facts /\
    Forall (settled g (ds_store sink')) facts.
Proof.
  intros Hp Hc Hwf. cbn zeta. destruct (session_facts cs p sink Hp Hc) as (facts & Hf & ->).
  assert (Forall (fun f => fact_typed f /\ accept f = Ok f) facts) as Hok
    by (eapply Forall_impl; [exact Hf|apply sent_acceptable]).
  assert (Forall fact_typed facts) as Ht by (eapply Forall_impl; [exact Hok|by intros f [? _]]).
  destruct (emit_facts_spec facts sink Hwf Ht) as (Hwf' & Hno & Hmono & Hsound & Hall).
  rewrite Forall_forall in Hf, Hok.
  split; [done|]. split; [done|]. split; [by apply sent_not_rejected, Forall_forall|]. split; [done|]. split.
  - intros x [Hx|(f & Hin & Ha)]%Hsound; [by left|right]. destruct (Hok f Hin) as [_ Hacc].
    assert (x = f) as -> by congruence. by apply Hf.
  - exists facts. split; [done|]. split; [by apply Forall_forall|]. apply Forall_forall. intros f Hin.
    by apply (Hall f f Hin), Hok.
Qed.

(** ** Targets *)

Definition part_of_another_method (os : list DeobfOffer) : Prop :=
  Forall (fun o => is_constant_method (of_method o) = false) os.

Ltac other_method :=
  repeat first
    [ progress cbn zeta | apply Forall_nil_2 | apply Forall_cons_2; [reflexivity|]
    | apply Forall_app_2 | apply Forall_flat_map, Forall_forall; intros ? _ | case_match ].

Lemma other_parts sn limits results :
  part_of_another_method (get_pc_offers sn limits) /\
  part_of_another_method (jump_gap_offers sn limits) /\
  part_of_another_method (entry_predicate_offers sn limits) /\
  part_of_another_method (wrapper_offers sn limits) /\
  part_of_another_method (dispatch_offers sn limits results).
Proof.
  unfold part_of_another_method. split; [|split; [|split; [|split]]].
  - unfold get_pc_offers, call_offers, gadget_register, gadget_resumption, gadget_gap. other_method.
  - unfold jump_gap_offers, jump_gap_offers_of. other_method.
  - unfold entry_predicate_offers, predicate_offers, outcome_offers. other_method.
  - unfold wrapper_offers. other_method.
  - unfold dispatch_offers, dispatcher_offers, flattening_offers, block_edge_offers, state_edge_offers.
    other_method.
Qed.

(** What is offered by these methods is a target of the constant analysis. *)
Lemma constant_offer options sn o :
  o ∈ function_offers options sn -> is_constant_method (of_method o) = true ->
  exists block c, block ∈ sn_blocks sn /\
    c ∈ cr_targets (analyze_constant_block block (bounded_limits (do_classifier_limits options))) /\
    usable_target detect_architecture (ct_target c) = true /\ o = constant_target_offer c.
Proof.
  intros Ho Hm.
  assert (forall (b : bool) os, part_of_another_method os -> o ∈ (if b then os else []) -> False) as Hother.
  { intros b os Hos Hin. destruct b; [|by apply elem_of_nil in Hin].
    unfold part_of_another_method in Hos. rewrite Forall_forall in Hos. by rewrite Hos in Hm. }
  unfold function_offers in Ho. cbn zeta in Ho. rewrite !elem_of_app in Ho.
  destruct (other_parts sn (bounded_limits (do_classifier_limits options))
    (if do_resolve_constant_chains options || do_detect_push_return_gadgets options || do_detect_dispatch_maps options
     then constant_results sn (bounded_limits (do_classifier_limits options)) else [])) as (H1' & H2 & H3 & H4 & H5).
  destruct Ho as [Ho|[Ho|[Ho|[Ho|[Ho|Ho]]]]]; try (exfalso; eapply Hother; [|exact Ho]; assumption).
  destruct (do_resolve_constant_chains options || _ || _); [|by apply elem_of_nil in Ho].
  unfold constant_offers in Ho. apply list_elem_of_In, in_flat_map in Ho as (block & Hb%list_elem_of_In & Ho).
  apply in_flat_map in Ho as (c & Hc%list_elem_of_In & Ho%list_elem_of_In). exists block, c.
  unfold candidate_offers in Ho. destruct (if is_push_return _ then _ else _); [by apply elem_of_nil in Ho|].
  destruct (usable_target detect_architecture (ct_target c)); [|by apply elem_of_nil in Ho].
  apply elem_of_cons in Ho as [->|Ho]; [done|]. exfalso. revert Ho Hm. unfold constant_register_offers.
  case_match; [|by intros ?%elem_of_nil]. by intros ->%list_elem_of_singleton.
Qed.

End Sessions.

(** ** A session with the listing of DeobfSnapshot.v *)

Definition session_calls : list DeobfCall :=
  [Deobf_AnalyzeDatabase default_deobf_options; Deobf_AdvanceEpoch;
   Deobf_AnalyzeFunction 18 default_deobf_options].

Definition jump_session : DeobfProvider * DeobfEvidenceStoreSink :=
  calls (H0 := deobf_listing jump_listing) session_calls (new_deobf_provider, new_deobf_sink empty_store).

(** The jump that the session finds. *)
Definition is_jump_fact (x : AnalysisFact) : Prop :=
  x ∈ flattened_facts (ds_store jump_session.2) /\ is_constant_method (ev_method (af_evidence x)) = true /\
  af_payload x = some_code_target 20 24 CodeTargetKind_Jump.

Lemma jump_fact_found : exists x, is_jump_fact x.
Proof.
  assert (exists x, List.find (fun x => is_constant_method (ev_method (af_evidence x)))
    (flattened_facts (ds_store jump_session.2)) = Some x /\ af_payload x = some_code_target 20 24 CodeTargetKind_Jump)
    as (x & [Hin%list_elem_of_In Hm]%List.find_some & Hp) by (eexists; split; vm_compute; reflexivity).
  by exists x.
Qed.

Lemma jump_listing_typed : @DeobfIdaTyped (deobf_listing_ida jump_listing) (deobf_listing jump_listing).
Proof. apply deobf_listing_typed. vm_compute. reflexivity. Qed.

Lemma session_calls_typed : Forall call_typed session_calls.
Proof. repeat (apply Forall_cons_2; [cbn; unfold options_ok; cbn; first [exact I|lia]|]). apply Forall_nil_2. Qed.

Lemma first_epoch : is_u64 (dp_current_epoch new_deobf_provider).
Proof. cbn. unfold is_u64. lia. Qed.

Lemma deobf_session_consistent_witness :
  record_count (ds_store jump_session.2) = 1 /\ store_wf (ds_store jump_session.2) /\
  no_new_contradiction 0 empty_store (ds_store jump_session.2) /\
  dr_rejected_invalid (ds_report jump_session.2) = 0.
Proof.
  destruct (deobf_session_consistent (H0 := deobf_listing jump_listing) (H1 := jump_listing_typed) session_calls
    new_deobf_provider (new_deobf_sink empty_store) first_epoch session_calls_typed empty_store_wf)
    as (Hwf & Hno & Hr & _).
  split; [vm_compute; reflexivity|]. split; [exact Hwf|]. split; [exact Hno|]. exact Hr.
Defined.


(** ** Registers that change unseen *)

(** [popa] writes every register, but the translation of an instruction without operands
    has no destination, and the constants stay: the session states as proven that the jump
    goes to 24. *)
Definition popa_listing : list insn_t :=
  let eax := an_operand o_reg 4 0 0 0 in
  [an_insn 16 2 (x86_number NN_mov) [eax; an_operand o_imm 4 0 20 0];
   an_insn 18 2 (x86_number NN_add) [eax; an_operand o_imm 4 0 4 0];
   an_insn 20 2 (x86_number NN_popa) []; an_insn 22 2 (x86_number NN_jmp) [eax]; an_insn 24 1 (x86_number NN_nop) []].

Definition popa_block : Block := {|
  bl_start := 16; bl_end := 24; bl_successors := []; bl_predecessor_count := 0;
  bl_instructions := map (translate_x86 (H0 := deobf_listing popa_listing)) (take 4 popa_listing) |}.

(** The block is not a safe one. *)
Lemma popa_keeps_constants :
  map af_payload (flattened_facts (ds_store
    (calls (H0 := deobf_listing popa_listing) session_calls (new_deobf_provider, new_deobf_sink empty_store)).2)) =
  [some_code_target 22 24 CodeTargetKind_Jump] /\
  map (fun t => (ct_instruction t, DeobfConstants.ct_target t))
    (cr_targets (analyze_constant_block popa_block default_classifier_limits)) = [(22, 24)] /\
  block_safe (P := plain_processor) popa_block = false.
Proof. split_and!; vm_compute; reflexivity. Qed.

(** The condition of an ARM instruction counts for branches only: [addeq r0, r0, #8] after
    [mov r0, #20] and before [bx r0] makes 28 the one target (condition 0 is [eq]). *)
Definition arm_conditional_listing : list insn_t :=
  let r0 := an_operand o_reg 4 0 0 0 in
  [an_insn 16 4 (arm_number ARM_mov) [r0; an_operand o_imm 4 0 20 0];
   an_insn 20 4 (arm_number ARM_add) [r0; r0; an_operand o_imm 4 0 8 0];
   an_insn 24 4 (arm_number ARM_br) [r0]; an_insn 28 4 (arm_number ARM_nop) []].

Definition arm_block : Block := {|
  bl_start := 16; bl_end := 28; bl_successors := []; bl_predecessor_count := 0;
  bl_instructions := map (translate_arm (H0 := deobf_listing arm_conditional_listing))
    (take 3 arm_conditional_listing) |}.

(** The processor that may skip an instruction with a condition. *)
Definition arm_processor : Processor := {|
  word := 4; zero_extends w := w =? 4; overlaps _ _ := false; stack_register r := r =? 13;
  conditional a :=
    existsb (fun i => (insn_ea i =? a) && (Z.land (insn_segpref i) 15 <? 14)) arm_conditional_listing |}.

Lemma arm_condition_ignored :
  map insn_segpref (take 3 arm_conditional_listing) = [0; 0; 0] /\
  map (fun t => (ct_instruction t, DeobfConstants.ct_target t))
    (cr_targets (analyze_constant_block arm_block default_classifier_limits)) = [(24, 28)] /\
  block_safe (P := arm_processor) arm_block = false.
Proof. split_and!; vm_compute; reflexivity. Qed.

(** [pop {r0}] names no destination either. *)
Lemma arm_pop_keeps_constants state :
  let pop := an_insn 16 4 (arm_number ARM_pop) [an_operand o_reg 4 0 0 0] in
  update_constants state (translate_arm (H0 := deobf_listing [pop]) pop) = state.
Proof. vm_compute. reflexivity. Qed.
