(* ===== verification/CallSummary.v ===== *)
(** * Names of library functions (call_summary.cpp)

    The names of the database with their decorations removed, and the summary that a name
    stands for.  The theorems say that decorations cannot be seen in a canonical name, that
    peeling always ends, and what the collected list holds. *)
From stdpp Require Import base numbers list strings option sets.
From Stdlib Require Import ZArith Init.Byte Ascii Sorting.Sorted Lia.
From S2P Require Import Prelude OrderedMap NativeTypes NativeDatabase WorkerFingerprint.

#[local] Open Scope viy_scope.

(** ** Canonical names *)

Definition decorations : list string := ["__imp_"; "imp_"; "j_"; "__"; "_"]%string.

(** The name without the first of the prefixes that it has. *)
Fixpoint strip_first (prefixes : list string) (name : string) : option string :=
  match prefixes with
  | [] => None
  | prefix :: prefixes =>
      if String.prefix prefix name
      then Some (String.substring (String.length prefix) (String.length name - String.length prefix) name)
      else strip_first prefixes name
  end.

(** The loop: each turn but the last one removes a prefix. *)
Fixpoint peel (fuel : nat) (name : string) : string :=
  match fuel with
  | O => name
  | S fuel => match strip_first decorations name with Some rest => peel fuel rest | None => name end
  end.

(** [name.resize(name.find('@'))]. *)
Fixpoint before_at (name : string) : string :=
  match name with
  | EmptyString => EmptyString
  | String c rest => if Ascii.eqb c "@"%char then EmptyString else String c (before_at rest)
  end.

Definition canonical_name (raw : option string) : string :=
  let name := map_string tolower (default EmptyString raw) in
  before_at (peel (String.length name) name).

Definition named (names : list string) (name : string) : bool := existsb (String.eqb name) names.
Definition begins (prefixes : list string) (name : string) : bool :=
  existsb (fun prefix => String.prefix prefix name) prefixes.

Definition classify (name : string) : option EmuSummaryKind :=
  if String.eqb name "memcpy" then Some Summary_MEMCPY
  else if String.eqb name "memmove" then Some Summary_MEMMOVE
  else if String.eqb name "memset" then Some Summary_MEMSET
  else if String.eqb name "strcpy" then Some Summary_STRCPY
  else if String.eqb name "strncpy" then Some Summary_STRNCPY
  else if String.eqb name "strlen" then Some Summary_STRLEN
  else if String.eqb name "strcmp" then Some Summary_STRCMP
  else if named ["malloc"; "znwm"; "znwj"; "znam"; "znaj"]%string name ||
          begins ["operator new("; "operator new[]("]%string name then Some Summary_ALLOCATE
  else if String.eqb name "calloc" then Some Summary_CALLOCATE
  else if String.eqb name "free" ||
          begins ["operator delete("; "operator delete[]("; "zdlpv"; "zdapv"]%string name
  then Some Summary_DEALLOCATE
  else if named ["exit"; "abort"; "terminate"; "quick_exit"; "fatal"; "panic"; "stack_chk_fail"]%string name
  then Some Summary_TERMINATE
  else None.

(** ** The names of the database *)

Definition summary_before (a b : EmuCallSummary) : bool := cs_address a <? cs_address b.
Definition one_address (a b : EmuCallSummary) : bool := cs_address a =? cs_address b.

Section Collect.
Context `{Ida}.

(** An entry of the list of names: [get_nlist_ea] and [get_nlist_name]. *)
Definition summary_of (entry : Z * option string) : option EmuCallSummary :=
  let '(ea, name) := entry in
  if (ea =? BADADDR) || negb (is_mapped ea) then None
  else (fun kind => {| cs_address := ea; cs_kind := kind |}) <$> classify (canonical_name name).

Definition viy_collect_call_summaries (nlist : list (Z * option string)) : list EmuCallSummary :=
  std_unique one_address (std_sort summary_before (base.omap summary_of nlist)).
End Collect.

(** ** Prefixes *)

(** [name] is [prefix] and [rest]. *)
Lemma prefix_app prefix rest : String.prefix prefix (prefix +:+ rest) = true.
Proof. induction prefix as [|c prefix IH]; [by destruct rest|]. 
  simpl. destruct (Ascii.ascii_dec c c) as [_|]; [exact IH|done].
Qed.

Lemma prefix_split prefix name : String.prefix prefix name = true -> exists rest, name = (prefix +:+ rest)%string.
Proof.
  revert name. induction prefix as [|c prefix IH]; intros name Hp; [by exists name|].
  destruct name as [|d name]; [done|]. cbn in Hp. destruct (Ascii.ascii_dec c d) as [<-|]; [|done].
  destruct (IH name Hp) as [rest ->]. by exists rest.
Qed.

Lemma substring_all s : String.substring 0 (String.length s) s = s.
Proof. induction s as [|c s IH]; [done|]. cbn. by rewrite IH. Qed.

Lemma substring_after prefix rest :
  String.substring (String.length prefix) (String.length (prefix +:+ rest) - String.length prefix) (prefix +:+ rest) = rest.
Proof.
  induction prefix as [|c prefix IH].
  - change (EmptyString +:+ rest)%string with rest. cbn. rewrite Nat.sub_0_r. apply substring_all.
  - exact IH.
Qed.

Lemma strip_first_app prefix prefixes rest :
  strip_first (prefix :: prefixes) (prefix +:+ rest) = Some rest.
Proof. cbn [strip_first]. by rewrite prefix_app, substring_after. Qed.

Lemma strip_first_none prefixes name :
  strip_first prefixes name = None <-> forall prefix, prefix ∈ prefixes -> String.prefix prefix name = false.
Proof.
  induction prefixes as [|p prefixes IH]; cbn [strip_first].
  - split; [by intros _ prefix ?%elem_of_nil|done].
  - destruct (String.prefix p name) eqn:E.
    + split; [done|]. intros Hp. rewrite Hp in E by set_solver. done.
    + rewrite IH. split; [|set_solver]. intros Hp q [->|Hin]%elem_of_cons; [exact E|by apply Hp].
Qed.

(** A stripped name is shorter, and a prefix was there. *)
Lemma strip_first_split prefixes name rest :
  strip_first prefixes name = Some rest -> exists prefix, prefix ∈ prefixes /\ name = (prefix +:+ rest)%string.
Proof.
  induction prefixes as [|p prefixes IH]; cbn [strip_first]; [done|]. destruct (String.prefix p name) eqn:E.
  - apply prefix_split in E as [r ->]. intros [= <-]. exists p. rewrite substring_after. set_solver.
  - intros (prefix & Hin & ->)%IH. exists prefix. set_solver.
Qed.

Lemma length_app_string s t : String.length (s +:+ t) = (String.length s + String.length t)%nat.
Proof. induction s as [|c s IH]; [done|]. exact (f_equal S IH). Qed.

Lemma strip_shorter name rest :
  strip_first decorations name = Some rest -> (String.length rest < String.length name)%nat.
Proof.
  intros (prefix & Hin & ->)%strip_first_split. rewrite length_app_string.
  unfold decorations in Hin. rewrite !elem_of_cons in Hin.
  destruct Hin as [->|[->|[->|[->|[->|?%elem_of_nil]]]]]; cbn; [lia..|done].
Qed.

(** With enough fuel the loop ends at a name without a decoration. *)
Lemma peel_ends fuel name :
  (String.length name <= fuel)%nat -> strip_first decorations (peel fuel name) = None.
Proof.
  revert name. induction fuel as [|fuel IH]; intros name Hf.
  - destruct name; [done|cbn in Hf; lia].
  - cbn [peel]. destruct (strip_first decorations name) as [rest|] eqn:E; [|done].
    apply IH. apply strip_shorter in E. lia.
Qed.

Lemma peel_fuel fuel1 fuel2 name :
  (String.length name <= fuel1)%nat -> (String.length name <= fuel2)%nat -> peel fuel1 name = peel fuel2 name.
Proof.
  revert fuel2 name. induction fuel1 as [|fuel1 IH]; intros fuel2 name H1 H2.
  - destruct name; [|cbn in H1; lia]. by destruct fuel2.
  - destruct fuel2 as [|fuel2]; [destruct name; [done|cbn in H2; lia]|]. cbn [peel].
    destruct (strip_first decorations name) as [rest|] eqn:E; [|done]. apply strip_shorter in E. apply IH; lia.
Qed.

Definition peeled (name : string) : string := peel (String.length name) name.

Lemma peeled_step name rest : strip_first decorations name = Some rest -> peeled name = peeled rest.
Proof.
  intros E. unfold peeled. pose proof (strip_shorter _ _ E) as Hl.
  destruct (String.length name) as [|fuel] eqn:El; [lia|]. cbn [peel]. rewrite E. apply peel_fuel; lia.
Qed.

(** Which prefix is taken first makes no difference. *)
Lemma peeled_known prefixes prefix rest name :
  decorations = prefixes ++ prefix :: rest ->
  (forall p, p ∈ prefixes -> String.prefix p (prefix +:+ name) = false) ->
  peeled (prefix +:+ name) = peeled name.
Proof.
  intros Hd Hp. apply peeled_step. rewrite Hd. induction prefixes as [|p prefixes IH] in Hp |- *.
  - apply strip_first_app.
  - cbn [app strip_first]. rewrite Hp by set_solver. apply IH. intros q Hq. apply Hp. set_solver.
Qed.

Lemma peeled_decoration prefix name : prefix ∈ decorations -> peeled (prefix +:+ name) = peeled name.
Proof.
  assert (forall name, peeled ("__imp_" +:+ name) = peeled name) as H1.
  { intros n. apply (peeled_known [] "__imp_" ["imp_"; "j_"; "__"; "_"]%string); [done|by intros ? ?%elem_of_nil]. }
  assert (forall name, peeled ("imp_" +:+ name) = peeled name) as H2.
  { intros n. apply (peeled_known ["__imp_"]%string "imp_" ["j_"; "__"; "_"]%string); [done|].
    by intros p ->%list_elem_of_singleton. }
  assert (forall name, peeled ("j_" +:+ name) = peeled name) as H3.
  { intros n. apply (peeled_known ["__imp_"; "imp_"]%string "j_" ["__"; "_"]%string); [done|].
    by intros p [->| ->%list_elem_of_singleton]%elem_of_cons. }
  assert (forall name, peeled ("__" +:+ name) = peeled name) as H4.
  { intros n. destruct (String.prefix "imp_" n) eqn:E.
    - apply prefix_split in E as [rest ->]. rewrite H2. exact (H1 rest).
    - apply (peeled_known ["__imp_"; "imp_"; "j_"]%string "__" ["_"]%string); [done|].
      intros p [->|[->| ->%list_elem_of_singleton]%elem_of_cons]%elem_of_cons; [exact E|done..]. }
  assert (forall n name, (String.length name < n)%nat -> peeled ("_" +:+ name) = peeled name) as H5.
  { induction n as [|n IH]; intros nm Hn; [lia|]. destruct (String.prefix "_" nm) eqn:E.
    - apply prefix_split in E as [rest ->]. rewrite length_app_string in Hn. cbn [String.length] in Hn. rewrite (IH rest) by lia. exact (H4 rest).
    - apply (peeled_known ["__imp_"; "imp_"; "j_"; "__"]%string "_" []); [done|].
      assert (String.prefix "_imp_" nm = false) as E2.
      { apply not_true_is_false. intros [rest ->]%prefix_split. done. }
      intros p [->|[->|[->| ->%list_elem_of_singleton]%elem_of_cons]%elem_of_cons]%elem_of_cons;
        [exact E2|done|done|exact E]. }
  unfold decorations. rewrite !elem_of_cons.
  intros [->|[->|[->|[->|[->|Hn%elem_of_nil]]]]]; [apply H1|apply H2|apply H3|apply H4| |done].
  apply (H5 (S (String.length name))). lia.
Qed.

(** ** Versions and cases *)

Lemma append_string_assoc (s t u : string) : ((s +:+ t) +:+ u = s +:+ (t +:+ u))%string.
Proof. induction s as [|c s IH]; [done|]. exact (f_equal (String c) IH). Qed.

Lemma before_at_cons c s :
  before_at (String c s) = if Ascii.eqb c "@"%char then EmptyString else String c (before_at s).
Proof. reflexivity. Qed.

Lemma before_at_app name version : before_at (name +:+ String "@" version) = before_at name.
Proof.
  induction name as [|c name IH]; [done|]. simpl. destruct (Ascii.eqb c "@"%char); [done|]. by f_equal.
Qed.

(** A prefix without an [@] does not reach over one. *)
Lemma prefix_at prefix name version :
  before_at prefix = prefix -> String.prefix prefix (name +:+ String "@" version) = String.prefix prefix name.
Proof.
  revert name. induction prefix as [|c prefix IH]; intros name Hp; [by destruct name|].
  simpl in Hp. destruct (Ascii.eqb_spec c "@"%char) as [|Hc]; [done|]. injection Hp as Hp.
  destruct name as [|d name]; simpl.
  - by destruct (Ascii.ascii_dec c "@"%char).
  - destruct (Ascii.ascii_dec c d); [by apply IH|done].
Qed.

Lemma decoration_without_at prefix : prefix ∈ decorations -> before_at prefix = prefix.
Proof.
  unfold decorations. rewrite !elem_of_cons. by intros [->|[->|[->|[->|[->|Hn%elem_of_nil]]]]].
Qed.

Lemma strip_first_at prefixes name version :
  (forall p, p ∈ prefixes -> before_at p = p) ->
  strip_first prefixes (name +:+ String "@" version) =
  (fun rest => (rest +:+ String "@" version)%string) <$> strip_first prefixes name.
Proof.
  induction prefixes as [|p prefixes IH]; intros Hp; cbn [strip_first]; [done|].
  rewrite prefix_at by (apply Hp; set_solver). destruct (String.prefix p name) eqn:E.
  - apply prefix_split in E as [rest ->]. cbn [fmap option_fmap option_map]. f_equal.
    rewrite substring_after, append_string_assoc. apply substring_after.
  - apply IH. intros q Hq. apply Hp. set_solver.
Qed.

Lemma peeled_none name : strip_first decorations name = None -> peeled name = name.
Proof. unfold peeled. intros E. destruct (String.length name); cbn [peel]; [done|]. by rewrite E. Qed.

Lemma peeled_version name version :
  before_at (peeled (name +:+ String "@" version)) = before_at (peeled name).
Proof.
  assert (forall n name, (String.length name < n)%nat ->
    before_at (peeled (name +:+ String "@" version)) = before_at (peeled name)) as Hn.
  { induction n as [|n IH]; intros nm Hn; [lia|].
    pose proof (strip_first_at decorations nm version decoration_without_at) as Hs.
    destruct (strip_first decorations nm) as [rest|] eqn:E; cbn in Hs.
    - rewrite (peeled_step _ _ Hs), (peeled_step _ _ E). apply IH. apply strip_shorter in E. lia.
    - rewrite !peeled_none by done. apply before_at_app. }
  apply (Hn (S (String.length name))). lia.
Qed.

Lemma map_string_cons f c s :
  map_string f (String c s) = String (Ascii.ascii_of_byte (f (Ascii.byte_of_ascii c))) (map_string f s).
Proof. reflexivity. Qed.

Lemma map_string_app f s t : map_string f (s +:+ t) = (map_string f s +:+ map_string f t)%string.
Proof.
  induction s as [|c s IH]; [done|]. change (String c s +:+ t)%string with (String c (s +:+ t)).
  rewrite !map_string_cons, IH. reflexivity.
Qed.

Lemma tolower_twice s : map_string tolower (map_string tolower s) = map_string tolower s.
Proof.
  induction s as [|c s IH]; [done|]. rewrite !map_string_cons, IH. f_equal. f_equal.
  rewrite Ascii.byte_of_ascii_of_byte. by destruct (Ascii.byte_of_ascii c).
Qed.

Lemma before_at_none name : before_at (before_at name) = before_at name.
Proof.
  induction name as [|c name IH]; [done|]. simpl. destruct (Ascii.eqb c "@"%char) eqn:E; [done|].
  simpl. by rewrite E, IH.
Qed.

(** Without a version nothing of it can be in a part of the name. *)
Lemma before_at_suffix s t : before_at (s +:+ t) = (s +:+ t)%string -> before_at t = t.
Proof.
  induction s as [|c s IH]; [done|]. change (String c s +:+ t)%string with (String c (s +:+ t)). simpl.
  destruct (Ascii.eqb c "@"%char); [done|]. intros [= Hs]. by apply IH.
Qed.

Lemma before_at_tolower s : before_at s = s -> before_at (map_string tolower s) = map_string tolower s.
Proof.
  induction s as [|c s IH]; [done|]. rewrite before_at_cons. destruct (Ascii.eqb c "@"%char) eqn:E; [done|]. intros [= Hs].
  rewrite map_string_cons, before_at_cons.
  assert (Ascii.eqb (Ascii.ascii_of_byte (tolower (Ascii.byte_of_ascii c))) "@"%char = false) as ->.
  { rewrite <- (Ascii.ascii_of_byte_of_ascii c) in E. by destruct (Ascii.byte_of_ascii c). }
  by rewrite IH.
Qed.

Lemma before_at_peeled name : before_at name = name -> before_at (peeled name) = peeled name.
Proof.
  assert (forall n name, (String.length name < n)%nat -> before_at name = name ->
    before_at (peeled name) = peeled name) as Hn.
  { induction n as [|n IH]; intros nm Hn Ha; [lia|]. destruct (strip_first decorations nm) as [rest|] eqn:E.
    - rewrite (peeled_step _ _ E). pose proof (strip_shorter _ _ E).
      apply strip_first_split in E as (prefix & _ & ->). apply IH; [lia|]. by eapply before_at_suffix.
    - by rewrite peeled_none. }
  apply (Hn (S (String.length name))). lia.
Qed.

Lemma peeled_bare name prefix : prefix ∈ decorations -> String.prefix prefix (peeled name) = false.
Proof. apply strip_first_none. by apply peel_ends. Qed.

(** Names that differ in case, wrappers and versions have the same canonical name, which
    has no version; and no wrapper is left in front of a name without a version. *)
Theorem canonical_name_exact name :
  let canonical := canonical_name (Some name) in
  (forall prefix, prefix ∈ decorations -> canonical_name (Some (prefix +:+ name)%string) = canonical) /\
  (forall version, canonical_name (Some (name +:+ String "@" version)%string) = canonical) /\
  canonical_name (Some (map_string tolower name)) = canonical /\
  before_at canonical = canonical /\
  (before_at name = name -> forall prefix, prefix ∈ decorations -> String.prefix prefix canonical = false).
Proof.
  cbn zeta. assert (forall n, canonical_name (Some n) = before_at (peeled (map_string tolower n))) as Hc by done.
  rewrite !Hc. split_and!.
  - intros prefix Hp. rewrite Hc, map_string_app. f_equal.
    assert (map_string tolower prefix = prefix) as ->; [|by apply peeled_decoration].
    unfold decorations in Hp. rewrite !elem_of_cons in Hp.
    by destruct Hp as [->|[->|[->|[->|[->|Hn%elem_of_nil]]]]].
  - intros version. rewrite Hc, map_string_app, map_string_cons. apply peeled_version.
  - by rewrite tolower_twice.
  - apply before_at_none.
  - intros Ha prefix Hp. rewrite before_at_peeled by by apply before_at_tolower. by apply peeled_bare.
Qed.

(** ** What is collected *)

Lemma unique_by_key {A} (key : A -> Z) l :
  map key (std_unique (fun x y => key x =? key y) l) = std_unique Z.eqb (map key l).
Proof.
  destruct l as [|x l]; [done|]. cbn [std_unique map]. revert x.
  induction l as [|y l IH]; intros x; cbn [unique_from map]; [done|].
  destruct (key x =? key y); [apply IH|]. cbn [map]. by rewrite IH.
Qed.

Lemma elem_of_unique {A} (eq : A -> A -> bool) l x : x ∈ std_unique eq l -> x ∈ l.
Proof.
  destruct l as [|y l]; [done|]. cbn [std_unique]. revert y. induction l as [|z l IH]; intros y; cbn [unique_from]; [done|].
  destruct (eq y z); [intros Hx%IH; set_solver|]. intros [->|Hx%IH]%elem_of_cons; set_solver.
Qed.

Section Collected.
Context `{Ida}.

Lemma summary_of_spec entry s :
  summary_of entry = Some s <->
  entry.1 = cs_address s /\ cs_address s <> BADADDR /\ is_mapped (cs_address s) = true /\
  classify (canonical_name entry.2) = Some (cs_kind s).
Proof.
  destruct entry as [ea name], s as [a k]. cbn [summary_of fst snd cs_address cs_kind].
  generalize (classify (canonical_name name)). intros kind. destruct (Z.eqb_spec ea BADADDR) as [->|Hne]; cbn.
  { split; [done|]. by intros (-> & ? & _). }
  destruct (is_mapped ea) eqn:Em; cbn.
  - destruct kind as [kind|]; cbn; split; try done.
    + by intros [= -> ->].
    + by intros (-> & _ & _ & [= ->]).
    + by intros (_ & _ & _ & ?).
  - split; [done|]. intros (-> & _ & ? & _). congruence.
Qed.

(** The list is sorted by address with each address once.  What is in it is a mapped name
    with a summary, and the address of every such name is in it. *)
Theorem call_summaries_exact nlist :
  let summaries := viy_collect_call_summaries nlist in
  StrictSorted Z.ltb (map cs_address summaries) /\
  (forall s, s ∈ summaries ->
     exists name, (cs_address s, name) ∈ nlist /\ cs_address s <> BADADDR /\ is_mapped (cs_address s) = true /\
       classify (canonical_name name) = Some (cs_kind s)) /\
  forall ea name kind, (ea, name) ∈ nlist -> ea <> BADADDR -> is_mapped ea = true ->
    classify (canonical_name name) = Some kind -> ea ∈ map cs_address summaries.
Proof.
  cbn zeta. unfold viy_collect_call_summaries.
  assert (map cs_address (std_unique one_address (std_sort summary_before (base.omap summary_of nlist))) =
    std_unique Z.eqb (std_sort Z.ltb (map cs_address (base.omap summary_of nlist)))) as ->.
  { unfold one_address, summary_before. by rewrite (unique_by_key cs_address), (std_sort_map Z.ltb cs_address). }
  split; [|split].
  - apply (sort_unique_strict Z.ltb Z.eqb), Z.eqb_eq.
  - intros s Hs%elem_of_unique%elem_of_std_sort_any.
    apply list_elem_of_omap in Hs as ([ea name] & Hin & (Hea & Hs)%summary_of_spec). cbn in Hea. subst ea. by exists name.
  - intros ea name kind Hin Hne Hm Hk. apply (elem_of_sort_unique Z.ltb Z.eqb); [exact Z.eqb_eq|].
    apply list_elem_of_fmap. exists {| cs_address := ea; cs_kind := kind |}. split; [done|].
    apply list_elem_of_omap. exists (ea, name). split; [done|]. by apply summary_of_spec.
Qed.
End Collected.
