(* ===== verification/Diagnostics.v ===== *)
(** * Diagnostics (diagnostics.cpp)

    The status line, the state of the dynamic engine, the sanitizer of messages and the
    rate gate.  The theorems say that a sanitized message stays on one bounded line and
    that a status line determines the status. *)
From stdpp Require Import base numbers list strings option sets pretty.
From Stdlib Require Import ZArith Init.Byte Ascii Lia.
From S2P Require Import Prelude NativeDatabase CallSummary.

#[local] Open Scope viy_scope.

(** ** Status *)

Inductive ViyDiagnosticPhase : Type :=
  | Phase_WAITING_FOR_AUTOANALYSIS | Phase_SNAPSHOTTING | Phase_NATIVE_ANALYSIS
  | Phase_DEOBFUSCATION_ANALYSIS | Phase_SWEEPING_FUNCTIONS | Phase_APPLYING_EVIDENCE
  | Phase_WAITING_FOR_CONVERGENCE | Phase_COMPLETE | Phase_SKIPPED.

Inductive ViyDynamicCapability : Type :=
  | Dynamic_OFF | Dynamic_INITIALIZING | Dynamic_AVAILABLE | Dynamic_PARTIAL | Dynamic_UNAVAILABLE.

Record ViyRuntimeStatus : Type := {
  vs_phase : ViyDiagnosticPhase;
  vs_epoch : Z;
  vs_epoch_limit : Z;
  vs_functions_done : Z;
  vs_functions_total : Z;
  vs_functions_submitted : Z;
  vs_cache_hits : Z;
  vs_workers_initialized : Z;
  vs_workers_available : Z;
  vs_workers_unavailable : Z;
  vs_workers_requested : Z;
  vs_jobs_queued : Z;
  vs_jobs_running : Z;
  vs_jobs_ready : Z;
  vs_jobs_completed : Z;
  vs_jobs_cancelled : Z;
  vs_jobs_unavailable : Z;
  vs_jobs_failed : Z;
  vs_runs_requested : Z;
  vs_runs_started : Z;
  vs_evidence_records : Z;
  vs_changes : Z;
  vs_elapsed_ms : Z
}.

Definition viy_diagnostic_phase_name (phase : ViyDiagnosticPhase) : string :=
  match phase with
  | Phase_WAITING_FOR_AUTOANALYSIS => "waiting-autoanalysis"
  | Phase_SNAPSHOTTING => "snapshotting"
  | Phase_NATIVE_ANALYSIS => "native-analysis"
  | Phase_DEOBFUSCATION_ANALYSIS => "deobfuscation-analysis"
  | Phase_SWEEPING_FUNCTIONS => "sweeping-functions"
  | Phase_APPLYING_EVIDENCE => "applying-evidence"
  | Phase_WAITING_FOR_CONVERGENCE => "waiting-convergence"
  | Phase_COMPLETE => "complete"
  | Phase_SKIPPED => "skipped"
  end.

Definition viy_dynamic_capability_name (capability : ViyDynamicCapability) : string :=
  match capability with
  | Dynamic_OFF => "off"
  | Dynamic_INITIALIZING => "initializing"
  | Dynamic_AVAILABLE => "available"
  | Dynamic_PARTIAL => "partial"
  | Dynamic_UNAVAILABLE => "unavailable"
  end.

Definition viy_dynamic_capability (requested initialized available unavailable : Z) : ViyDynamicCapability :=
  if requested =? 0 then Dynamic_OFF
  else if initialized <? requested then Dynamic_INITIALIZING
  else if available =? 0 then Dynamic_UNAVAILABLE
  else if negb (unavailable =? 0) || (available <? requested) then Dynamic_PARTIAL
  else Dynamic_AVAILABLE.

(** The numbers of the line in order, with the text before each. *)
Definition status_fields (s : ViyRuntimeStatus) : list (string * Z) :=
  [(" epoch=", vs_epoch s); ("/", vs_epoch_limit s); (" functions=", vs_functions_done s);
   ("/", vs_functions_total s); (" submitted=", vs_functions_submitted s);
   (" cache_hits=", vs_cache_hits s); (" workers=", vs_workers_available s);
   ("/", vs_workers_requested s); (" workers_initialized=", vs_workers_initialized s);
   (" workers_unavailable=", vs_workers_unavailable s); (" queued=", vs_jobs_queued s);
   (" running=", vs_jobs_running s); (" ready=", vs_jobs_ready s);
   (" jobs_completed=", vs_jobs_completed s); (" jobs_cancelled=", vs_jobs_cancelled s);
   (" jobs_unavailable=", vs_jobs_unavailable s); (" jobs_failed=", vs_jobs_failed s);
   (" runs_requested=", vs_runs_requested s); (" runs_started=", vs_runs_started s);
   (" evidence_records=", vs_evidence_records s); (" changes=", vs_changes s);
   (" elapsed_ms=", vs_elapsed_ms s)]%string.

Fixpoint format_fields (fields : list (string * Z)) : string :=
  match fields with
  | [] => EmptyString
  | (label, value) :: fields => (label +:+ pretty value +:+ format_fields fields)%string
  end.

Definition viy_format_runtime_status (s : ViyRuntimeStatus) : string :=
  ("event=status phase=" +:+ viy_diagnostic_phase_name (vs_phase s) +:+ format_fields (status_fields s))%string.

(** ** Messages *)

Definition sanitize_char (b : byte) : byte :=
  let c := b2z b in
  if (c <? 0x20) || (c =? 0x7f) then z2b 32
  else if c =? 34 then z2b 39
  else if c =? 92 then z2b 47
  else b.

Definition viy_sanitize_diagnostic (text : bytes) (maximum_bytes : Z) : bytes :=
  if maximum_bytes =? 0 then []
  else
    let truncated := maximum_bytes <? zlen text in
    let content_limit :=
      if truncated && (3 <=? maximum_bytes) then maximum_bytes - 3 else Z.min (zlen text) maximum_bytes in
    map sanitize_char (take (Z.to_nat content_limit) text) ++
    (if truncated && (3 <=? maximum_bytes) then repeat (z2b 46) 3 else []).

Definition viy_diagnostic_due (now_ms last_ms interval_ms : Z) (force : bool) : bool :=
  if force || (interval_ms =? 0) || (now_ms <? last_ms) then true
  else interval_ms <=? now_ms - last_ms.

(** ** Sanitized messages *)

(** A byte that can stand in a quoted field of one line. *)
Definition loggable (b : byte) : Prop := 32 <= b2z b /\ b2z b <> 127 /\ b2z b <> 34 /\ b2z b <> 92.

Lemma sanitize_char_loggable b : loggable (sanitize_char b).
Proof. by destruct b. Qed.

Lemma sanitize_char_id b : loggable b -> sanitize_char b = b.
Proof.
  intros (H1 & H2 & H3 & H4). unfold sanitize_char. cbn zeta.
  destruct (Z.ltb_spec (b2z b) 32); [lia|]. by rewrite !(proj2 (Z.eqb_neq _ _)).
Qed.

Lemma map_sanitize_id text : Forall loggable text -> map sanitize_char text = text.
Proof. induction 1 as [|b text Hb Ht IH]; [done|]. cbn [map]. by rewrite sanitize_char_id, IH. Qed.

Lemma sanitize_length text maximum :
  0 <= maximum -> zlen (viy_sanitize_diagnostic text maximum) = Z.min (zlen text) maximum.
Proof.
  intros Hm. unfold viy_sanitize_diagnostic. destruct (Z.eqb_spec maximum 0) as [->|Hne].
  { unfold zlen. cbn. lia. }
  cbn zeta. unfold zlen. destruct (Z.ltb_spec maximum (Z.of_nat (length text))), (Z.leb_spec 3 maximum); cbn [andb];
    rewrite length_app, length_map, length_take, ?repeat_length; cbn [length]; lia.
Qed.

Lemma sanitize_loggable text maximum : Forall loggable (viy_sanitize_diagnostic text maximum).
Proof.
  unfold viy_sanitize_diagnostic. destruct (maximum =? 0); [constructor|]. cbn zeta. apply Forall_app. split.
  - apply Forall_map, Forall_forall. intros b _. apply sanitize_char_loggable.
  - destruct (_ && _); [by repeat constructor|constructor].
Qed.

Lemma sanitize_id text maximum :
  Forall loggable text -> zlen text <= maximum -> viy_sanitize_diagnostic text maximum = text.
Proof.
  intros Ht Hl. unfold viy_sanitize_diagnostic. destruct (Z.eqb_spec maximum 0) as [->|Hne].
  - destruct text; [done|]. unfold zlen in Hl. cbn in Hl. lia.
  - cbn zeta. rewrite (proj2 (Z.ltb_ge _ _)) by done. cbn [andb].
    rewrite take_ge by (unfold zlen in *; lia). rewrite app_nil_r. by apply map_sanitize_id.
Qed.

(** What is logged fits and can be logged; a text that fits and can be logged is logged as
    it is, so sanitizing twice changes nothing; and what is cut off is marked wherever there
    is room for it. *)
Theorem sanitize_exact text maximum :
  0 <= maximum ->
  let out := viy_sanitize_diagnostic text maximum in
  zlen out = Z.min (zlen text) maximum /\ Forall loggable out /\
  (Forall loggable text -> zlen text <= maximum -> out = text) /\
  viy_sanitize_diagnostic out maximum = out /\
  (3 <= maximum < zlen text -> exists body, out = body ++ repeat (z2b 46) 3).
Proof.
  intros Hm. cbn zeta. pose proof (sanitize_length text maximum Hm) as Hl.
  pose proof (sanitize_loggable text maximum) as Hp. split_and!; [done|done|by apply sanitize_id| |].
  - apply sanitize_id; [done|lia].
  - intros [H3 Ht]. unfold viy_sanitize_diagnostic. rewrite (proj2 (Z.eqb_neq _ _)) by lia. cbn zeta.
    rewrite (proj2 (Z.ltb_lt _ _)), (proj2 (Z.leb_le _ _)) by done. cbn [andb]. by eexists.
Qed.

(** ** The status line *)

Definition digit (c : ascii) : bool :=
  let n := Z.of_N (Ascii.N_of_ascii c) in (48 <=? n) && (n <=? 57).

(** The text does not go on with a digit. *)
Definition stops (s : string) : Prop := match s with EmptyString => True | String c _ => digit c = false end.

Fixpoint digits (s : string) : bool :=
  match s with EmptyString => true | String c s => digit c && digits s end.

Lemma digits_app s t u v :
  digits s = true -> digits t = true -> stops u -> stops v ->
  (s +:+ u = t +:+ v)%string -> s = t /\ u = v.
Proof.
  revert t. induction s as [|c s IH]; intros t Hs Ht Hu Hv Heq.
  - destruct t as [|d t]; [done|]. exfalso. change (u = String d (t +:+ v)) in Heq. rewrite Heq in Hu. cbn in Hu, Ht.
    by rewrite Hu in Ht.
  - cbn in Hs. apply andb_prop in Hs as [Hc Hs]. destruct t as [|d t].
    + exfalso. change (String c (s +:+ u) = v) in Heq. rewrite <- Heq in Hv. cbn in Hv. by rewrite Hv in Hc.
    + cbn in Ht. apply andb_prop in Ht as [Hd Ht]. injection Heq as -> Heq.
      by destruct (IH t Hs Ht Hu Hv Heq) as [-> ->].
Qed.

Lemma pretty_N_digits x s : digits s = true -> digits (pretty_N_go x s) = true.
Proof.
  revert s. induction (N.lt_wf_0 x) as [x _ IH]. intros s Hs.
  destruct (decide (0 < x)%N) as [Hx|Hx].
  - rewrite pretty_N_go_step by done. apply IH; [by apply N.div_lt|]. cbn. rewrite Hs, andb_true_r.
    unfold pretty_N_char. by repeat case_match.
  - assert (x = 0%N) as -> by lia. by rewrite pretty_N_go_0.
Qed.

Lemma pretty_digits z : 0 <= z -> digits (pretty z) = true.
Proof.
  intros Hz. destruct z as [|p|p]; [done| |lia]. change (digits (pretty (N.pos p)) = true).
  unfold pretty, pretty_N. destruct (decide _); [done|by apply pretty_N_digits].
Qed.

Definition label_stops (field : string * Z) : Prop :=
  match field.1 with EmptyString => False | String c _ => digit c = false end.

Lemma format_fields_stops fields : Forall label_stops fields -> stops (format_fields fields).
Proof. destruct fields as [|[label v] fields]; [done|]. intros [Hl _]%Forall_cons_1. by destruct label. Qed.

(** Two lists of fields with the same labels. *)
Lemma format_fields_inj fields fields' :
  map fst fields = map fst fields' -> Forall label_stops fields ->
  Forall (fun f => 0 <= f.2) fields -> Forall (fun f => 0 <= f.2) fields' ->
  format_fields fields = format_fields fields' -> fields = fields'.
Proof.
  revert fields'. induction fields as [|[l v] fields IH]; intros [|[l' v'] fields'] Hm Hs Hf Hf' Heq; try done.
  cbn in Hm. injection Hm as -> Hm. apply Forall_cons in Hs as [Hl Hs], Hf as [Hv Hf], Hf' as [Hv' Hf'].
  cbn [format_fields] in Heq. apply (inj (String.append l')) in Heq.
  assert (Forall label_stops fields') as Hs'.
  { clear -Hm Hs. revert fields' Hm. induction Hs as [|[l v] fs H Hs IH]; intros [|[l' v'] fs'] Hm; try done.
    cbn in Hm. injection Hm as -> Hm. constructor; [exact H|by apply IH]. }
  apply digits_app in Heq as [Hp%(inj pretty) Heq]; 
    [|by apply pretty_digits|by apply pretty_digits|by apply format_fields_stops|by apply format_fields_stops].
  subst v'. f_equal. by apply IH.
Qed.

Definition status_counts (s : ViyRuntimeStatus) : Prop := Forall (fun f => 0 <= f.2) (status_fields s).

(** A status line determines every number and the phase. *)
Theorem status_line_injective s s' :
  status_counts s -> status_counts s' -> viy_format_runtime_status s = viy_format_runtime_status s' -> s = s'.
Proof.
  intros Hs Hs'. unfold viy_format_runtime_status. intros Heq%(inj (String.append _)).
  assert (vs_phase s = vs_phase s') as Hphase by (destruct (vs_phase s), (vs_phase s'); done).
  rewrite Hphase in Heq. apply (inj (String.append _)), format_fields_inj in Heq; try done.
  - destruct s, s'. cbn in Hphase. unfold status_fields in Heq. cbn in Heq. injection Heq. intros. by subst.
  - by repeat constructor.
Qed.
