(* ===== verification/ProgramSnapshot.v ===== *)
(** * Snapshots of the program (program_model.cpp)

    [viy_snapshot] copies segments and functions of the database into a [ProgramImage].
    The theorems say that the result has the invariant that the queries and hashes of
    ProgramModel.v rely on and holds what the database holds, and that over any number of
    snapshots the generation of a function identifies its content. *)
From stdpp Require Import base numbers list strings option sets gmap.
From Stdlib Require Import ZArith Init.Byte Sorting.Sorted Lia.
From S2P Require Import Prelude OrderedMap ProgramModel Config NativeTypes NativeDatabase NativeListing.
From S2P Require Import Deobf DeobfLowering DeobfListing.

#[local] Open Scope viy_scope.

(** ** What else the snapshot asks the database *)

Class SnapshotIda `{DeobfIda} : Type := {
  inf_get_procname : string;
  strieq : string -> string -> bool;
  (* the constants that the SDK defines *)
  cortex_m_ids : list Z;
  hexagon_ids : list Z;
  PLFM_RISCV : option Z;
  seg_bitness : segment_t -> Z;
  (* bytes and mask, or [None] where the result is negative *)
  get_all_bytes : Z -> Z -> option (bytes * bytes)
}.

(** ** Statistics and progress *)

Inductive ProgramSnapshotStage : Type := Snapshot_SEGMENTS | Snapshot_FUNCTIONS | Snapshot_COMPLETE.

(** The counters of [ProgramSnapshotStats] by name. *)
Inductive SnapshotCounter : Type :=
  | segments_total | segments_visited | segments_copied | segments_invalid | segments_read_failed
  | functions_total | functions_visited | functions_included | functions_null
  | functions_library_or_thunk | functions_excluded_by_limit | chunks_included.

#[export] Instance SnapshotCounter_eq_dec : EqDecision SnapshotCounter.
Proof. solve_decision. Defined.

Definition ProgramSnapshotStats : Type := SnapshotCounter -> Z.

Definition add_to (c : SnapshotCounter) (n : Z) (stats : ProgramSnapshotStats) : ProgramSnapshotStats :=
  fun d => if bool_decide (d = c) then stats d + n else stats d.

Record ProgramSnapshotProgress : Type := { pp_stage : ProgramSnapshotStage; pp_stats : ProgramSnapshotStats }.

(** The callback acts on the state of the caller; without one it does nothing. *)
Class SnapshotClient (S : Type) : Type := { snapshot_progress : ProgramSnapshotProgress -> S -> S }.

(** ** The architecture *)

Section Architecture.
Context `{SnapshotIda}.

Definition sdk_cortex_m_id (id : Z) : bool := existsb (Z.eqb id) cortex_m_ids.
Definition sdk_hexagon_id (id : Z) : bool := existsb (Z.eqb id) hexagon_ids.
Definition procname_is (name candidate : string) : bool := strieq name candidate.

Definition sdk_arch (id : Z) : ViyArch :=
  if id =? PLFM_386 then
    if inf_get_app_bitness =? 64 then X86_64 else if inf_get_app_bitness =? 32 then X86_32 else X86_16
  else if id =? PLFM_ARM then if inf_is_64bit then ARM64 else ARM32
  else if bool_decide (PLFM_RISCV = Some id) then
    if inf_get_app_bitness =? 64 then RISCV64 else UNSUPPORTED
  else UNSUPPORTED.

Definition viy_detect_arch : ViyArch * bool :=
  let procname := inf_get_procname in
  (if sdk_cortex_m_id ph_id || procname_is procname "Cortex-M" || procname_is procname "CortexM" then CORTEX_M
   else if sdk_hexagon_id ph_id || procname_is procname "QDSP6" || procname_is procname "Hexagon" then HEXAGON
   else sdk_arch ph_id, inf_is_be).
End Architecture.

(** ** The snapshot *)

(** The image, whether it has bounds, the progress and the state of the caller. *)
Record Snapshotting (S : Type) : Type := {
  pt_image : ProgramImage;
  pt_have_bounds : bool;
  pt_stage : ProgramSnapshotStage;
  pt_stats : ProgramSnapshotStats;
  pt_client : S
}.
Arguments pt_image {S}.
Arguments pt_have_bounds {S}.
Arguments pt_stage {S}.
Arguments pt_stats {S}.
Arguments pt_client {S}.

(** The [PriorIdentity] of the starts of functions. *)
Definition prior_identities (entries : list FuncRange) : gmap Z (Z * Z) :=
  foldl (fun prior f => <[fr_start f := (fr_byte_hash f, fr_generation f)]> prior) ∅ entries.

Section Snapshot.
Context `{SnapshotIda} {S : Type} `{!SnapshotClient S}.

Definition report_snapshot (x : Snapshotting S) : Snapshotting S := {|
  pt_image := pt_image x; pt_have_bounds := pt_have_bounds x; pt_stage := pt_stage x; pt_stats := pt_stats x;
  pt_client := snapshot_progress {| pp_stage := pt_stage x; pp_stats := pt_stats x |} (pt_client x) |}.

Definition count_in (c : SnapshotCounter) (n : Z) (x : Snapshotting S) : Snapshotting S := {|
  pt_image := pt_image x; pt_have_bounds := pt_have_bounds x; pt_stage := pt_stage x;
  pt_stats := add_to c n (pt_stats x); pt_client := pt_client x |}.

Definition begin_stage (stage : ProgramSnapshotStage) (x : Snapshotting S) : Snapshotting S := {|
  pt_image := pt_image x; pt_have_bounds := pt_have_bounds x; pt_stage := stage; pt_stats := pt_stats x;
  pt_client := pt_client x |}.

Definition with_image (img : ProgramImage) (x : Snapshotting S) : Snapshotting S := {|
  pt_image := img; pt_have_bounds := pt_have_bounds x; pt_stage := pt_stage x; pt_stats := pt_stats x;
  pt_client := pt_client x |}.

(** The image with new segments and bounds, with its segments sorted and hashed, with
    another function, and with its functions sorted. *)
Definition with_segment (si : SegImage) (have_bounds : bool) (img : ProgramImage) : ProgramImage := {|
  im_arch := im_arch img; im_big_endian := im_big_endian img;
  im_lo := if have_bounds then (if sg_start si <? im_lo img then sg_start si else im_lo img) else sg_start si;
  im_hi := if have_bounds then (if im_hi img <? sg_end si then sg_end si else im_hi img) else sg_end si;
  im_segs := im_segs img ++ [si]; im_entries := im_entries img;
  im_content_hash := im_content_hash img; im_generation := im_generation img |}.

Definition set_segs (segs : list SegImage) (img : ProgramImage) : ProgramImage := {|
  im_arch := im_arch img; im_big_endian := im_big_endian img; im_lo := im_lo img; im_hi := im_hi img;
  im_segs := segs; im_entries := im_entries img; im_content_hash := im_content_hash img;
  im_generation := im_generation img |}.

Definition set_content_hash (hash : Z) (img : ProgramImage) : ProgramImage := {|
  im_arch := im_arch img; im_big_endian := im_big_endian img; im_lo := im_lo img; im_hi := im_hi img;
  im_segs := im_segs img; im_entries := im_entries img; im_content_hash := hash;
  im_generation := im_generation img |}.

Definition set_entries (entries : list FuncRange) (img : ProgramImage) : ProgramImage := {|
  im_arch := im_arch img; im_big_endian := im_big_endian img; im_lo := im_lo img; im_hi := im_hi img;
  im_segs := im_segs img; im_entries := entries; im_content_hash := im_content_hash img;
  im_generation := im_generation img |}.

Definition reset_image (img : ProgramImage) : ProgramImage := {|
  im_arch := viy_detect_arch.1; im_big_endian := viy_detect_arch.2; im_lo := 0; im_hi := 0; im_segs := [];
  im_entries := []; im_content_hash := 0;
  im_generation := if im_generation img =? u64_max then im_generation img else im_generation img + 1 |}.

Definition copy_segment (s : segment_t) : option SegImage :=
  (fun content => {|
     sg_start := seg_start_ea s; sg_end := seg_end_ea s; sg_perm := seg_perm s; sg_bitness := seg_bitness s;
     sg_bytes := content.1; sg_mask := content.2 |}) <$>
  get_all_bytes (seg_end_ea s - seg_start_ea s) (seg_start_ea s).

Definition visit_segment (x : Snapshotting S) (s : option segment_t) : Snapshotting S :=
  let x := count_in segments_visited 1 x in
  match s with
  | None => report_snapshot (count_in segments_invalid 1 x)
  | Some s =>
      if seg_end_ea s <=? seg_start_ea s then report_snapshot (count_in segments_invalid 1 x)
      else
        match copy_segment s with
        | None => report_snapshot (count_in segments_read_failed 1 x)
        | Some si =>
            report_snapshot (count_in segments_copied 1
              {| pt_image := with_segment si (pt_have_bounds x) (pt_image x); pt_have_bounds := true;
                 pt_stage := pt_stage x; pt_stats := pt_stats x; pt_client := pt_client x |})
        end
  end.

Definition seg_before (a b : SegImage) : bool := sg_start a <? sg_start b.
Definition func_before (a b : FuncRange) : bool := fr_start a <? fr_start b.

(** The chunks of the function that are not empty, or its range if there is none. *)
Definition function_chunks (f : func_t) : list FuncChunk :=
  let chunks := map (fun c => {| ch_start := c.1; ch_end := c.2 |})
                  (List.filter (fun c => c.1 <? c.2) (fn_chunks f)) in
  match chunks with
  | [] => if fn_start_ea f <? fn_end_ea f then [{| ch_start := fn_start_ea f; ch_end := fn_end_ea f |}] else []
  | _ => chunks
  end.

Definition is_library_or_thunk (f : func_t) : bool :=
  negb (Z.land (fn_flags f) (Z.lor FUNC_LIB FUNC_THUNK) =? 0).

(** A function before it has a hash and a generation. *)
Definition bare_function (f : func_t) : FuncRange := {|
  fr_start := fn_start_ea f; fr_end := fn_end_ea f; fr_chunks := function_chunks f;
  fr_byte_hash := 0; fr_generation := 0 |}.

Definition identified (prior : gmap Z (Z * Z)) (generation hash : Z) (f : FuncRange) : FuncRange := {|
  fr_start := fr_start f; fr_end := fr_end f; fr_chunks := fr_chunks f; fr_byte_hash := hash;
  fr_generation :=
    match prior !! fr_start f with
    | Some (old_hash, old_generation) =>
        if (old_hash =? hash) && negb (old_generation =? 0) then old_generation else generation
    | None => generation
    end |}.

Definition include_function (prior : gmap Z (Z * Z)) (f : func_t) (x : Snapshotting S) :
    option (Snapshotting S) :=
  let func := bare_function f in
  let x := count_in chunks_included (zlen (fr_chunks func)) x in
  match viy_function_byte_hash (pt_image x) func with
  | None => None
  | Some hash =>
      let func := identified prior (im_generation (pt_image x)) hash func in
      Some (report_snapshot (count_in functions_included 1
        (with_image (set_entries (im_entries (pt_image x) ++ [func]) (pt_image x)) x)))
  end.

Fixpoint visit_functions (cap : Z) (prior : gmap Z (Z * Z)) (functions : list (option func_t))
    (x : Snapshotting S) : option (Snapshotting S) :=
  match functions with
  | [] => Some x
  | f :: rest =>
      if cap <=? zlen (im_entries (pt_image x))
      then Some (count_in functions_excluded_by_limit (zlen functions) x)
      else
        let x := count_in functions_visited 1 x in
        match f with
        | None => visit_functions cap prior rest (report_snapshot (count_in functions_null 1 x))
        | Some f =>
            if is_library_or_thunk f
            then visit_functions cap prior rest (report_snapshot (count_in functions_library_or_thunk 1 x))
            else
              match include_function prior f x with
              | None => None
              | Some x => visit_functions cap prior rest x
              end
        end
  end.

(** The first half: the image with its segments. *)
Definition read_segments (img : ProgramImage) (client : S) : Snapshotting S :=
  let x := {| pt_image := reset_image img; pt_have_bounds := false; pt_stage := Snapshot_SEGMENTS;
              pt_stats := add_to segments_total (zlen all_segments) (fun _ => 0); pt_client := client |} in
  let x := foldl visit_segment (report_snapshot x) all_segments in
  let img := set_segs (std_sort seg_before (im_segs (pt_image x))) (pt_image x) in
  with_image (set_content_hash (viy_program_content_hash img) img) x.

Definition function_limit_of (cfg : ViyConfig) : Z :=
  if negb (cfg_max_funcs cfg =? 0) then cfg_max_funcs cfg else zlen all_functions.

(** [None] only if the hash of a function does not end, which it always does
    ([snapshot_exact]). *)
Definition viy_snapshot (img : ProgramImage) (cfg : ViyConfig) (client : S) :
    option (ProgramImage * ProgramSnapshotStats * S) :=
  let prior := prior_identities (im_entries img) in
  let x := begin_stage Snapshot_FUNCTIONS (read_segments img client) in
  let x := report_snapshot (count_in functions_total (zlen all_functions) x) in
  match visit_functions (function_limit_of cfg) prior all_functions x with
  | None => None
  | Some x =>
      let img := set_entries (std_sort func_before (im_entries (pt_image x))) (pt_image x) in
      let x := report_snapshot (begin_stage Snapshot_COMPLETE (with_image img x)) in
      Some (pt_image x, pt_stats x, pt_client x)
  end.
End Snapshot.

(** ** What the snapshot holds *)

(** The documented behaviour of the database that the snapshot relies on: segments do not
    overlap, and functions begin at different addresses. *)
Class SnapshotLaws `{SnapshotIda} : Prop := {
  sl_disjoint i j s t :
    all_segments !! i = Some (Some s) -> all_segments !! j = Some (Some t) -> i <> j ->
    seg_start_ea s < seg_end_ea s -> seg_start_ea t < seg_end_ea t ->
    seg_end_ea s <= seg_start_ea t \/ seg_end_ea t <= seg_start_ea s;
  sl_functions : NoDup (map fn_start_ea (base.omap id all_functions))
}.

Section Exact.
Context `{SnapshotIda}.

Definition copied (s : option segment_t) : option SegImage :=
  match s with
  | Some s => if seg_end_ea s <=? seg_start_ea s then None else copy_segment s
  | None => None
  end.

(** The functions to emulate. *)
Definition candidate (f : option func_t) : option func_t :=
  match f with Some f => if is_library_or_thunk f then None else Some f | None => None end.

Definition bounds_ok (img : ProgramImage) : Prop :=
  (im_segs img = [] -> im_lo img = 0 /\ im_hi img = 0) /\
  (forall s, s ∈ im_segs img -> im_lo img <= sg_start s /\ sg_end s <= im_hi img) /\
  (im_segs img <> [] ->
   (exists s, s ∈ im_segs img /\ sg_start s = im_lo img) /\ exists s, s ∈ im_segs img /\ sg_end s = im_hi img).

(** The entry of a function. *)
Definition snapshot_entry (prior : gmap Z (Z * Z)) (img : ProgramImage) (f : func_t) : FuncRange :=
  identified prior (im_generation img)
    (hash_each kFnvOffset (function_stream img (bare_function f))) (bare_function f).

Lemma copied_spec s si :
  copied s = Some si ->
  exists seg, s = Some seg /\ sg_start si = seg_start_ea seg /\ sg_end si = seg_end_ea seg /\
    seg_start_ea seg < seg_end_ea seg.
Proof.
  destruct s as [seg|]; cbn [copied]; [|done]. destruct (Z.leb_spec (seg_end_ea seg) (seg_start_ea seg)); [done|].
  unfold copy_segment. destruct (get_all_bytes _ _); cbn; [|done]. intros [= <-]. by exists seg.
Qed.

Section Walk.
Context {S : Type} `{!SnapshotClient S}.

(** The bounds of the segments so far. *)
Definition bounded_so_far (x : Snapshotting S) : Prop :=
  bounds_ok (pt_image x) /\ pt_have_bounds x = bool_decide (im_segs (pt_image x) <> []).

Lemma with_segment_bounds si have img :
  bounds_ok img -> have = bool_decide (im_segs img <> []) -> bounds_ok (with_segment si have img).
Proof.
  intros (Hnil & Hin & Hne) ->. unfold bounds_ok, with_segment. cbn [im_segs im_lo im_hi].
  split_and!; [by destruct (im_segs img)| |].
  - intros s. rewrite elem_of_app, list_elem_of_singleton. case_bool_decide as Hd.
    + intros [Hs%Hin| ->]; repeat case_match; rewrite ?Z.ltb_lt, ?Z.ltb_ge in *; lia.
    + intros [Hs| ->]; [|lia]. rewrite Hd in Hs. by apply elem_of_nil in Hs.
  - intros _. case_bool_decide as Hd.
    + destruct (Hne Hd) as [(a & Ha & Hlo) (b & Hb & Hhi)]. split.
      * destruct (sg_start si <? im_lo img); [exists si|exists a]; (split; [set_solver|done]).
      * destruct (im_hi img <? sg_end si); [exists si|exists b]; (split; [set_solver|done]).
    + split; exists si; (split; [set_solver|done]).
Qed.

Lemma visit_segments_image segs x :
  bounded_so_far x ->
  let x' := foldl visit_segment x segs in
  bounded_so_far x' /\ im_segs (pt_image x') = im_segs (pt_image x) ++ base.omap copied segs /\
  im_entries (pt_image x') = im_entries (pt_image x) /\ im_generation (pt_image x') = im_generation (pt_image x) /\
  im_arch (pt_image x') = im_arch (pt_image x) /\ im_big_endian (pt_image x') = im_big_endian (pt_image x).
Proof.
  revert x. induction segs as [|s segs IH]; intros x Hx; cbn [foldl base.omap list_omap].
  { by rewrite app_nil_r. }
  assert (let x1 := visit_segment x s in
    bounded_so_far x1 /\
    im_segs (pt_image x1) = im_segs (pt_image x) ++ match copied s with Some si => [si] | None => [] end /\
    im_entries (pt_image x1) = im_entries (pt_image x) /\ im_generation (pt_image x1) = im_generation (pt_image x) /\
    im_arch (pt_image x1) = im_arch (pt_image x) /\ im_big_endian (pt_image x1) = im_big_endian (pt_image x))
    as (Hb & Hs & He & Hg & Ha & Hbe).
  { destruct s as [s|]; cbn [visit_segment copied]; [|by rewrite app_nil_r].
    destruct (seg_end_ea s <=? seg_start_ea s); [by rewrite app_nil_r|].
    destruct (copy_segment s) as [si|]; [|by rewrite app_nil_r]. split; [|done]. split.
    - apply with_segment_bounds; apply Hx.
    - cbn. case_bool_decide as Hd; [done|]. by destruct (im_segs (pt_image x)). }
  destruct (IH _ Hb) as (Hb' & Hs' & He' & Hg' & Ha' & Hbe').
  split; [done|]. rewrite Hs', Hs, He', He, Hg', Hg, Ha', Ha, Hbe', Hbe. split; [|done].
  rewrite <- app_assoc. f_equal. by destruct (copied s).
Qed.

(** The hash of a function, which only looks at the segments. *)
Definition stream_hash (img : ProgramImage) (f : func_t) : Z :=
  hash_each kFnvOffset (function_stream img (bare_function f)).

(** Two images that differ in their functions. *)
Lemma snapshot_entry_entries prior entries img f :
  snapshot_entry prior (set_entries entries img) f = snapshot_entry prior img f.
Proof. reflexivity. Qed.

(** The walk adds the entries of the candidates in order, up to the limit. *)
Lemma visit_functions_image cap prior fs x :
  segs_ok (im_segs (pt_image x)) ->
  exists x', visit_functions cap prior fs x = Some x' /\
    pt_image x' = set_entries (im_entries (pt_image x) ++
      map (snapshot_entry prior (pt_image x))
        (take (Z.to_nat (cap - zlen (im_entries (pt_image x)))) (base.omap candidate fs))) (pt_image x).
Proof.
  assert (forall y : Snapshotting S, pt_image y = set_entries (im_entries (pt_image y) ++ []) (pt_image y)) as Hid.
  { intros y. rewrite app_nil_r. by destruct (pt_image y). }
  revert x. induction fs as [|f fs IH]; intros x Hok; cbn [visit_functions].
  { exists x. split; [done|]. cbn [base.omap list_omap]. rewrite take_nil. apply Hid. }
  destruct (Z.leb_spec cap (zlen (im_entries (pt_image x)))) as [Hc|Hc].
  { eexists. split; [reflexivity|]. assert (Z.to_nat (cap - zlen (im_entries (pt_image x))) = O) as -> by lia. exact (Hid x). }
  destruct f as [f|]; cbn [base.omap list_omap candidate];
    [|exact (IH (report_snapshot (count_in functions_null 1 (count_in functions_visited 1 x))) Hok)].
  destruct (is_library_or_thunk f);
    [exact (IH (report_snapshot (count_in functions_library_or_thunk 1 (count_in functions_visited 1 x))) Hok)|].
  unfold include_function. cbn zeta. rewrite function_hash_each by done.
  match goal with |- exists x', visit_functions _ _ _ ?y = _ /\ _ => destruct (IH y Hok) as (x' & Hv & Hx') end.
  exists x'. split; [exact Hv|].
  rewrite Hx'. clear Hx'. cbn [pt_image report_snapshot count_in with_image set_entries im_entries].
  destruct (Z.to_nat (cap - zlen (im_entries (pt_image x)))) as [|n] eqn:En; [lia|].
  replace (Z.to_nat (cap - zlen _)) with n by (rewrite zlen_app, zlen_cons, zlen_nil; lia).
  cbn [take map]. by rewrite <- app_assoc.
Qed.
End Walk.

(** ** The result *)

Lemma elem_of_copied (l : list (option segment_t)) si :
  si ∈ base.omap copied l <->
  exists i seg, l !! i = Some (Some seg) /\ copied (Some seg) = Some si.
Proof.
  rewrite list_elem_of_omap. split.
  - intros (s & [i Hi]%list_elem_of_lookup & Hc). destruct s as [seg|]; [|done]. by exists i, seg.
  - intros (i & seg & Hi & Hc). exists (Some seg). split; [by eapply list_elem_of_lookup_2|done].
Qed.

(** Segments at different places do not overlap. *)
Definition apart (l : list (option segment_t)) : Prop := forall i j s t,
  l !! i = Some (Some s) -> l !! j = Some (Some t) -> i <> j ->
  seg_start_ea s < seg_end_ea s -> seg_start_ea t < seg_end_ea t ->
  seg_end_ea s <= seg_start_ea t \/ seg_end_ea t <= seg_start_ea s.

Lemma apart_starts l : apart l -> NoDup (map sg_start (base.omap copied l)).
Proof.
  induction l as [|s l IH]; intros Hl; [constructor|].
  assert (apart l) as Hl' by (intros i j a b Hi Hj Hne; apply (Hl (Datatypes.S i) (Datatypes.S j)); [done|done|lia]).
  cbn [base.omap list_omap]. destruct (copied s) as [si|] eqn:Ec; [|by apply IH]. cbn [map].
  apply NoDup_cons. split; [|by apply IH].
  apply copied_spec in Ec as (seg & -> & Hs & He & Hlt).
  intros (ti & Ht & (j & t & Hj & Hc)%elem_of_copied)%list_elem_of_fmap.
  apply copied_spec in Hc as (? & [= <-] & Hts & _ & Htlt).
  destruct (Hl 0%nat (Datatypes.S j) seg t); try done; lia.
Qed.

Lemma apart_segments l a b :
  apart l -> a ∈ base.omap copied l -> b ∈ base.omap copied l -> sg_start a <> sg_start b ->
  sg_end a <= sg_start b \/ sg_end b <= sg_start a.
Proof.
  intros Hl (i & s & Hi & Ha)%elem_of_copied (j & t & Hj & Hb)%elem_of_copied Hne.
  apply copied_spec in Ha as (? & [= <-] & Has & Hae & ?), Hb as (? & [= <-] & Hbs & Hbe & ?).
  rewrite Has, Hbs, Hae, Hbe in *. destruct (decide (i = j)) as [->|Hij]; [|by apply (Hl i j)].
  rewrite Hi in Hj. injection Hj as ->. lia.
Qed.

Lemma sorted_segments_ok l : apart l -> segs_ok (std_sort seg_before (base.omap copied l)).
Proof.
  intros Hl.
  assert (forall a, a ∈ std_sort seg_before (base.omap copied l) -> a ∈ base.omap copied l /\ sg_start a < sg_end a) as Hin.
  { intros a Ha%elem_of_std_sort_any. split; [done|]. apply elem_of_copied in Ha as (i & s & _ & Hc).
    apply copied_spec in Hc as (? & _ & -> & -> & ?). done. }
  split; [|apply Forall_forall; intros a Ha; by apply Hin].
  pose proof (sort_by_key_strict Z.ltb sg_start _ (apart_starts l Hl)) as Hs.
  change (fun x y => sg_start x <? sg_start y) with seg_before in Hs.
  revert Hin Hs. generalize (std_sort seg_before (base.omap copied l)). intros segs Hin Hs.
  induction Hs as [|a segs Hs IH Hf]; [constructor|]. constructor; [apply IH; intros b Hb; apply Hin; set_solver|].
  rewrite Forall_forall in Hf |- *. intros b Hb. specialize (Hf b Hb). apply Z.ltb_lt in Hf.
  destruct (Hin a) as [Ha ?]; [set_solver|]. destruct (Hin b) as [Hb' ?]; [set_solver|].
  destruct (apart_segments l a b Hl Ha Hb'); lia.
Qed.

Lemma bounds_ok_sorted img : bounds_ok img -> bounds_ok (set_segs (std_sort seg_before (im_segs img)) img).
Proof.
  unfold bounds_ok. cbn [set_segs im_segs im_lo im_hi]. intros (Hnil & Hin & Hne).
  assert (std_sort seg_before (im_segs img) = [] <-> im_segs img = []) as Heq.
  { split; [|by intros ->]. intros Hs. destruct (im_segs img) as [|a segs]; [done|].
    assert (a ∈ std_sort seg_before (a :: segs)) as Ha by (apply elem_of_std_sort_any; set_solver).
    rewrite Hs in Ha. by apply elem_of_nil in Ha. }
  rewrite Heq. split_and!; [done| |].
  - intros s Hs%elem_of_std_sort_any. by apply Hin.
  - intros Hn. destruct (Hne Hn) as [(a & Ha & ?) (b & Hb & ?)].
    split; [exists a|exists b]; by rewrite elem_of_std_sort_any.
Qed.

Lemma candidates_sublist (l : list (option func_t)) : sublist (base.omap candidate l) (base.omap id l).
Proof.
  induction l as [|[f|] l IH]; cbn [base.omap list_omap candidate id]; [constructor| |done].
  destruct (is_library_or_thunk f); by constructor.
Qed.

Lemma map_sublist {A B} (f : A -> B) l k : sublist l k -> sublist (map f l) (map f k).
Proof. induction 1; cbn [map]; by constructor. Qed.

Lemma entries_NoDup `{!SnapshotLaws} prior img n :
  NoDup (map fr_start (map (snapshot_entry prior img) (take n (base.omap candidate all_functions)))).
Proof.
  rewrite map_map. eapply sublist_NoDup; [exact sl_functions|]. apply map_sublist.
  etransitivity; [apply sublist_take|apply candidates_sublist].
Qed.

Section Result.
Context {S : Type} `{!SnapshotClient S}.

Lemma read_segments_image img (client : S) :
  apart all_segments ->
  let img1 := pt_image (read_segments img client) in
  segs_ok (im_segs img1) /\ im_segs img1 ≡ₚ base.omap copied all_segments /\ bounds_ok img1 /\
  im_content_hash img1 = viy_program_content_hash img1 /\ im_entries img1 = [] /\
  im_generation img1 = im_generation (reset_image img).
Proof.
  intros Hl. unfold read_segments. cbn zeta.
  match goal with |- context [foldl visit_segment ?y all_segments] =>
    pose proof (visit_segments_image all_segments y) as Hseg; set (x := foldl visit_segment y all_segments) in * end.
  cbn zeta in Hseg. destruct Hseg as ((Hb & _) & Hs & He & Hg & _).
  { split; [|done]. split_and!; [done| |done]. intros s Hs. by apply elem_of_nil in Hs. }
  fold x in Hb, Hs, He, Hg. change (im_segs (pt_image x) = base.omap copied all_segments) in Hs.
  clearbody x. cbn [with_image pt_image set_content_hash set_segs im_segs im_content_hash im_entries im_generation].
  rewrite Hs. split; [by apply sorted_segments_ok|]. split.
  { apply std_sort_Permutation. }
  split; [|done]. rewrite <- Hs. exact (bounds_ok_sorted _ Hb).
Qed.

Lemma viy_snapshot_image img cfg (client : S) :
  apart all_segments ->
  exists stats client' img1, img1 = pt_image (read_segments img client) /\
    viy_snapshot img cfg client =
    Some (set_entries (std_sort func_before (map (snapshot_entry (prior_identities (im_entries img)) img1)
            (take (Z.to_nat (function_limit_of cfg)) (base.omap candidate all_functions)))) img1, stats, client').
Proof.
  intros Hl. destruct (read_segments_image img client Hl) as (Hok & _ & _ & _ & He & _).
  unfold viy_snapshot. cbn zeta. generalize dependent (read_segments img client). intros y Hok He.
  match goal with |- context [visit_functions ?cap ?prior all_functions ?z] =>
    destruct (visit_functions_image cap prior all_functions z Hok) as (x' & -> & Hx') end.
  cbn [report_snapshot count_in begin_stage pt_image] in Hx'. rewrite He, zlen_nil, Z.sub_0_r in Hx'. cbn [app] in Hx'.
  eexists _, _, (pt_image y). split; [reflexivity|]. cbn [report_snapshot begin_stage with_image pt_image].
  by rewrite Hx'.
Qed.
End Result.

(** C39: a snapshot always succeeds, and its image has the invariant that lookups, views and
    hashes rely on: its segments are the readable segments of the database, sorted and
    without overlaps, inside the tightest bounds.  Its functions are the first ones of the
    database, up to the limit, that are neither library functions nor thunks, sorted and
    each once; each has the hash of its content in the image; and the image has the hash of
    its segments. *)
Theorem snapshot_exact {S} `{!SnapshotClient S} img cfg (client : S) :
  SnapshotLaws ->
  exists img' stats client',
    viy_snapshot img cfg client = Some (img', stats, client') /\
    segs_ok (im_segs img') /\ im_segs img' ≡ₚ base.omap copied all_segments /\ bounds_ok img' /\
    im_content_hash img' = viy_program_content_hash img' /\
    StronglySorted (fun f g => fr_start f < fr_start g) (im_entries img') /\
    im_entries img' ≡ₚ
      map (snapshot_entry (prior_identities (im_entries img)) img')
        (take (Z.to_nat (function_limit_of cfg)) (base.omap candidate all_functions)) /\
    forall f, f ∈ im_entries img' -> viy_function_byte_hash img' f = Some (fr_byte_hash f).
Proof.
  intros Hlaws. assert (apart all_segments) as Hl by exact sl_disjoint.
  destruct (viy_snapshot_image img cfg client Hl) as (stats & client' & img1 & Himg & Hv).
  destruct (read_segments_image img client Hl) as (Hok & Hperm & Hb & Hh & _ & _). rewrite <- Himg in *. clear Himg.
  eexists _, stats, client'. split; [exact Hv|].
  set (entries := map _ (take _ _)). cbn [set_entries im_segs im_content_hash im_entries].
  split; [done|]. split; [done|]. split; [done|]. split; [exact Hh|].
  assert (NoDup (map fr_start entries)) as Hd by exact (entries_NoDup _ _ _).
  split; [|split].
  - eapply StronglySorted_weaken; [|exact (sort_by_key_strict Z.ltb fr_start entries Hd)].
    intros f g Hfg. by apply Z.ltb_lt.
  - apply std_sort_Permutation.
  - intros f Hf%elem_of_std_sort_any. unfold entries in Hf.
    apply list_elem_of_fmap in Hf as (fn & -> & _). rewrite function_hash_each by exact Hok. reflexivity.
Qed.
End Exact.

(** ** Generations *)

(** A snapshot of some database with some settings. *)
Inductive snapshot_of (img img' : ProgramImage) : Prop :=
  | snapshot_taken `{SnapshotIda} {S : Type} `{!SnapshotClient S} (cfg : ViyConfig) (client client' : S) (stats : ProgramSnapshotStats) :
      SnapshotLaws -> viy_snapshot img cfg client = Some (img', stats, client') -> snapshot_of img img'.

(** The images that an image has held, the latest first. *)
Inductive snapshots : list ProgramImage -> Prop :=
  | snapshots_none img : im_entries img = [] -> im_generation img = 0 -> snapshots [img]
  | snapshots_next img img' imgs : snapshots (img :: imgs) -> snapshot_of img img' -> snapshots (img' :: img :: imgs).

(** An entry of a past image. *)
Definition entry_of (imgs : list ProgramImage) (f : FuncRange) : Prop := exists img, img ∈ imgs /\ f ∈ im_entries img.

Lemma prior_identities_spec entries (start hash generation : Z) :
  prior_identities entries !! start = Some (hash, generation) ->
  exists f, f ∈ entries /\ fr_start f = start /\ fr_byte_hash f = hash /\ fr_generation f = generation.
Proof.
  unfold prior_identities.
  assert (forall m : gmap Z (Z * Z), (forall s h g, m !! s = Some (h, g) -> exists f, f ∈ entries /\ fr_start f = s /\
      fr_byte_hash f = h /\ fr_generation f = g) -> forall l, (forall f, f ∈ l -> f ∈ entries) ->
    foldl (fun prior f => <[fr_start f := (fr_byte_hash f, fr_generation f)]> prior) m l !! start = Some (hash, generation) ->
    exists f, f ∈ entries /\ fr_start f = start /\ fr_byte_hash f = hash /\ fr_generation f = generation) as Hm.
  { intros m Hm l. revert m Hm. induction l as [|f l IH]; intros m Hm Hl; cbn [foldl]; [apply Hm|].
    apply IH; [|intros g Hg; apply Hl; set_solver].
    intros s h g [(<- & [= <- <-])|(_ & Hs)]%lookup_insert_Some; [exists f; split; [apply Hl; set_solver|done]|by apply Hm]. }
  apply (Hm ∅); [by intros s h g ?%lookup_empty_Some|done].
Qed.

Lemma prior_identities_entry entries f :
  NoDup (map fr_start entries) -> f ∈ entries ->
  prior_identities entries !! fr_start f = Some (fr_byte_hash f, fr_generation f).
Proof.
  unfold prior_identities. generalize (∅ : gmap Z (Z * Z)). induction entries as [|g entries IH]; intros m; cbn [map foldl].
  { by intros _ ?%elem_of_nil. }
  intros [Hg Hd]%NoDup_cons [->|Hf]%elem_of_cons; [|by apply IH]. clear IH Hd.
  assert (forall m : gmap Z (Z * Z), fr_start g ∉ map fr_start entries ->
    foldl (fun prior f => <[fr_start f := (fr_byte_hash f, fr_generation f)]> prior) m entries !! fr_start g =
    m !! fr_start g) as Hkeep.
  { clear. induction entries as [|h entries IH]; intros m Hg; cbn [foldl]; [done|]. cbn [map] in Hg.
    rewrite IH by set_solver. apply lookup_insert_ne. set_solver. }
  rewrite Hkeep by done. apply lookup_insert_eq.
Qed.

(** The entries of a snapshot: what they were before, or the new generation. *)
Lemma snapshot_of_entries img img' :
  snapshot_of img img' ->
  im_generation img' = (if im_generation img =? u64_max then im_generation img else im_generation img + 1) /\
  NoDup (map fr_start (im_entries img')) /\
  (forall f, f ∈ im_entries img' ->
    fr_generation f = im_generation img' \/
    exists g, g ∈ im_entries img /\ fr_start g = fr_start f /\ fr_byte_hash g = fr_byte_hash f /\
      fr_generation g = fr_generation f) /\
  (NoDup (map fr_start (im_entries img)) -> forall f g, f ∈ im_entries img' -> g ∈ im_entries img ->
     fr_start f = fr_start g -> fr_byte_hash f = fr_byte_hash g -> fr_generation g <> 0 ->
     fr_generation f = fr_generation g).
Proof.
  intros [? ? ? S ? cfg client client' stats Hlaws Hv].
  assert (apart all_segments) as Hl by exact sl_disjoint.
  destruct (viy_snapshot_image img cfg client Hl) as (stats1 & client1 & img1 & Himg & Hv1).
  destruct (read_segments_image img client Hl) as (_ & _ & _ & _ & _ & Hg). rewrite <- Himg in *. clear Himg.
  rewrite Hv in Hv1. injection Hv1 as -> -> ->. cbn [set_entries im_generation im_entries]. split; [exact Hg|]. split.
  { rewrite std_sort_Permutation. apply entries_NoDup. }
  split.
  - intros f Hf%elem_of_std_sort_any. apply list_elem_of_fmap in Hf as (fn & -> & _).
    unfold snapshot_entry, identified. cbn [fr_start fr_byte_hash fr_generation].
    destruct (prior_identities (im_entries img) !! _) as [[h g]|] eqn:Ep; [|by left].
    destruct (Z.eqb_spec h (hash_each kFnvOffset (function_stream img1 (bare_function fn)))) as [->|]; [|by left].
    destruct (negb (g =? 0)); [|by left]. right.
    by apply prior_identities_spec in Ep as (old & ? & ? & ? & ?); exists old.
  - intros Hd f g Hf%elem_of_std_sort_any Hgin. apply list_elem_of_fmap in Hf as (fn & -> & _).
    unfold snapshot_entry, identified. cbn [fr_start fr_byte_hash fr_generation]. intros Hs Hh H0'.
    rewrite Hs, (prior_identities_entry _ g Hd Hgin), Hh, Z.eqb_refl. by rewrite (proj2 (Z.eqb_neq _ _) H0').
Qed.

Lemma NoDup_map_key {A B} (key : A -> B) l x y :
  NoDup (map key l) -> x ∈ l -> y ∈ l -> key x = key y -> x = y.
Proof.
  induction l as [|a l IH]; cbn [map]; [by intros _ ?%elem_of_nil|]. intros [Ha Hd]%NoDup_cons.
  intros [->|Hx]%elem_of_cons [->|Hy]%elem_of_cons Heq; [done| | |by apply IH].
  - destruct Ha. rewrite Heq. by apply list_elem_of_fmap_2.
  - destruct Ha. rewrite <- Heq. by apply list_elem_of_fmap_2.
Qed.

(** An entry of the latest image is new or stands for an earlier one. *)
Lemma entry_cases img img' imgs f :
  snapshot_of img img' -> entry_of (img' :: img :: imgs) f ->
  (f ∈ im_entries img' /\ fr_generation f = im_generation img') \/
  exists g, entry_of (img :: imgs) g /\ fr_start g = fr_start f /\ fr_byte_hash g = fr_byte_hash f /\
    fr_generation g = fr_generation f.
Proof.
  intros (_ & _ & Hs & _)%snapshot_of_entries (i & [->|Hi]%elem_of_cons & Hf).
  - destruct (Hs f Hf) as [?|(g & Hg & ?)]; [by left|right]. exists g. split; [|done]. exists img. set_solver.
  - right. exists f. split; [by exists i|done].
Qed.

(** What a history of snapshots is worth. *)
Lemma snapshots_identify imgs :
  snapshots imgs -> zlen imgs <= u64_max + 1 ->
  match imgs with
  | [] => True
  | img :: rest =>
      im_generation img = zlen rest /\
      (forall f, entry_of imgs f -> 1 <= fr_generation f <= im_generation img) /\
      forall f g, entry_of imgs f -> entry_of imgs g -> fr_start f = fr_start g ->
        fr_generation f = fr_generation g -> fr_byte_hash f = fr_byte_hash g
  end.
Proof.
  assert (forall img f, im_entries img = [] -> entry_of [img] f -> False) as Hnone.
  { intros img f He (i & ->%list_elem_of_singleton & Hf). rewrite He in Hf. by apply elem_of_nil in Hf. }
  induction 1 as [img He Hg|img img' imgs Hs IH Hstep]; intros Hlen.
  - split; [by rewrite Hg|]. split; intros f; intros; exfalso; by eapply Hnone.
  - rewrite !zlen_cons in Hlen. destruct IH as (Hgen & Hle & Hid); [rewrite zlen_cons; lia|].
    pose proof (snapshot_of_entries _ _ Hstep) as (Hg' & Hd & _ & _). rewrite Hgen in Hg'.
    rewrite (proj2 (Z.eqb_neq _ _)) in Hg' by lia. rewrite zlen_cons. split; [lia|]. split.
    + intros f [[_ ->]|(g & Hg & _ & _ & <-)]%(entry_cases img); [pose proof (zlen_nonneg imgs); lia| |done].
      specialize (Hle g Hg). lia.
    + intros f g [[Hf Hfg]|(f0 & Hf & Hs1 & <- & Hg1)]%(entry_cases img)
        [[Hg Hgg]|(g0 & Hg & Hs2 & <- & Hg2)]%(entry_cases img) Hss Hgs; try done.
      * assert (f = g) as ->; [|done]. by apply (NoDup_map_key fr_start (im_entries img')).
      * specialize (Hle g0 Hg). lia.
      * specialize (Hle f0 Hf). lia.
      * apply Hid; congruence.
Qed.

(** C40: over any number of snapshots of an image that the counter has room for, whatever the
    database held each time: two entries of a function with the same generation have the
    same content hash, also when the function was gone in between; and from one snapshot to
    the next a function keeps its generation exactly when it keeps its content hash. *)
Theorem snapshot_generations img img' imgs :
  snapshots (img' :: img :: imgs) -> zlen imgs < u64_max ->
  (forall f g, entry_of (img' :: img :: imgs) f -> entry_of (img' :: img :: imgs) g ->
     fr_start f = fr_start g -> fr_generation f = fr_generation g -> fr_byte_hash f = fr_byte_hash g) /\
  forall f g, f ∈ im_entries img' -> g ∈ im_entries img -> fr_start f = fr_start g ->
    (fr_generation f = fr_generation g <-> fr_byte_hash f = fr_byte_hash g).
Proof.
  intros Hs Hlen. destruct (snapshots_identify _ Hs) as (_ & Hpos & Hid); [rewrite !zlen_cons; lia|].
  split; [exact Hid|]. intros f g Hf Hg Hss. split.
  - apply Hid; [exists img'|exists img|done]; (split; [set_solver|done]).
  - intros Hh. inversion Hs as [|? ? ? Hprev Hstep]; subst.
    destruct (snapshot_of_entries _ _ Hstep) as (_ & _ & _ & Hkeep). apply Hkeep; [|done..|].
    + inversion Hprev as [? He _|? ? ? _ Hstep']; subst; [by rewrite He; constructor|].
      by apply snapshot_of_entries in Hstep' as (_ & Hd & _).
    + assert (1 <= fr_generation g) by (apply Hpos; exists img; set_solver). lia.
Qed.

(** ** A database of two instructions *)

Definition snapshot_listing : list insn_t :=
  [an_insn 4096 2 (x86_number NN_mov) []; an_insn 4098 1 (x86_number NN_retn) []].

#[local] Instance listing_snapshot : @SnapshotIda (deobf_listing_ida snapshot_listing) (deobf_listing snapshot_listing) := {
  inf_get_procname := "metapc"; strieq := String.eqb; cortex_m_ids := []; hexagon_ids := [];
  PLFM_RISCV := None; seg_bitness _ := 1;
  get_all_bytes size _ := Some (repeat x00 (Z.to_nat size), repeat (z2b 255) (Z.to_nat ((size + 7) / 8)))
}.

#[local] Instance no_progress : SnapshotClient unit := { snapshot_progress _ s := s }.

Lemma listing_snapshot_laws : @SnapshotLaws _ _ listing_snapshot.
Proof.
  split.
  - intros i j s t Hi%lookup_lt_Some Hj%lookup_lt_Some Hne. cbn in Hi, Hj. lia.
  - cbn. apply NoDup_singleton.
Qed.

Definition no_image : ProgramImage := {|
  im_arch := UNSUPPORTED; im_big_endian := false; im_lo := 0; im_hi := 0; im_segs := []; im_entries := [];
  im_content_hash := 0; im_generation := 0 |}.

Definition snapshot_image (img : ProgramImage) : ProgramImage :=
  match viy_snapshot (H1 := listing_snapshot) img default_config tt with Some (img', _, _) => img' | None => img end.

Lemma snapshot_image_of img : snapshot_of img (snapshot_image img).
Proof.

  destruct (viy_snapshot_image (H1 := listing_snapshot) img default_config tt (sl_disjoint (SnapshotLaws := listing_snapshot_laws))) as (stats & client' & img1 & _ & Hv).
  unfold snapshot_image. rewrite Hv. eapply snapshot_taken; [exact listing_snapshot_laws|exact Hv].
Qed.

Lemma snapshot_exact_witness :
  exists img' stats, viy_snapshot (H1 := listing_snapshot) no_image default_config tt = Some (img', stats, tt) /\
    segs_ok (im_segs img') /\ bounds_ok img' /\ im_content_hash img' = viy_program_content_hash img' /\
    zlen (im_entries (snapshot_image no_image)) = 1.
Proof.
  destruct (snapshot_exact (H1 := listing_snapshot) no_image default_config tt listing_snapshot_laws)
    as (img' & stats & [] & Hv & Hok & _ & Hb & Hh & _).
  exists img', stats. split; [exact Hv|]. split; [exact Hok|]. split; [exact Hb|]. split; [exact Hh|].
  vm_compute. reflexivity.
Defined.

Lemma snapshot_generations_witness :
  let img1 := snapshot_image no_image in
  let img2 := snapshot_image img1 in
  im_generation img2 = 2 /\ map fr_generation (im_entries img2) = [1] /\
  forall f g, f ∈ im_entries img2 -> g ∈ im_entries img1 -> fr_start f = fr_start g ->
    (fr_generation f = fr_generation g <-> fr_byte_hash f = fr_byte_hash g).
Proof.
  split; [vm_compute; reflexivity|]. split; [vm_compute; reflexivity|].
  apply (snapshot_generations (snapshot_image no_image) (snapshot_image (snapshot_image no_image)) [no_image]).
  - apply snapshots_next; [apply snapshots_next; [apply snapshots_none; reflexivity|]|]; apply snapshot_image_of.
  - vm_compute. reflexivity.
Defined.
